(* ===== verification/_CoqProject ===== *)
-Q . S2P
Prelude.v
Types.v
PartitionIndex.v
ColdIndex.v
SegmentedWal.v
LruCache.v
ObjectStorage.v
Reservation.v
PartitionStore.v
Compaction.v
Follower.v
Replication.v
ConsumerGroup.v
BrokerCore.v
LogSpec.v
Scaling.v
Controller.v
OpenRaft.v
ScalingManager.v
AccessControl.v
AclStorage.v
AclRaft.v
Authorization.v
Network.v
Gateway.v
SdkProducer.v
SdkConsumer.v
EtlFilter.v
EtlPool.v
EtlPipeline.v
BranchlessParser.v
KeyEncryption.v
Certificates.v
CertMetadata.v
Authentication.v
UltraFast.v
Proto.v
ProtoConvert.v
GrpcTransport.v
LogCompaction.v
Upgrade.v
SdkStream.v
