(* ===== verification/Prelude.v ===== *)
(** * RustMQ: a verification library for the message-queue core

    RustMQ is a message broker whose partitions live in two tiers: recent
    records in memory, backed by a segmented write-ahead log, and older
    records as objects in an object store, found through an index that a
    manifest file makes durable.  Around this store sit replication between
    brokers, leadership fencing through conditional writes to the object
    store, consumer groups, a controller that keeps the cluster's metadata,
    authorization, the servers that take requests and the client library.
    This library models those parts as executable functions and proves what
    makes each of them correct.  Paths below are under src/src/, those of the
    client library under src/sdk/rust/src/.

    ** How the code is modelled

    A function of the code is a Rocq function of the same name; a method that
    changes its object takes and returns the object's record; a fallible
    function returns [Result], whose errors are the constructors of
    [RustMqError] without their message texts, plus [Panic] and, for an await
    that does not return, [Blocked].  [let!] and [let?] are the question mark
    operator with and without state.  Integers are [Z]; where the code can
    leave the range of its type the wrap-around of the release profile is
    written out ([u64_add], [u64_sub], [as_u32]).  Binary64 arithmetic is
    [SpecFloat]'s.  Times, generated identifiers, hash functions and iteration
    orders of hash maps are arguments.  File systems and networks are lists of
    outcomes that the operations consume, so that every fault can happen at
    every call.  Where a theorem speaks of what runs in between, the handler is
    split at its awaits and the theorem quantifies over what other tasks do
    there; other handlers run as a whole, and theorems about them are about
    calls that are handled one after another, which their comments say.
    Third-party crates are type classes or parameters: [Bincode] with
    [BincodeLaws], [Json] with [JsonLaws], [crc32], LZ4, [regex], [lru], [bloomfilter]; every theorem
    that uses their laws has a witness at a concrete instance.

    ** Files, bottom up

    - Prelude: machine integers, errors and results, byte strings, decimal
      text, sorted maps as B-trees iterate them, list sums, and [Bincode].
    - Types (types.rs, storage/traits.rs): records, partitions, replication
      messages, request codes, and the class [RecordLog].
    - PartitionIndex (storage/partition_index.rs): hot and cold maps per
      partition, the byte counter and read plans.
    - ColdIndex (storage/cold_index.rs): the manifest, its framing, torn
      writes, loading and folding.
    - SegmentedWal (storage/wal/): the write-ahead log's file task, block
      writes, rotation, deletion and recovery.
    - LruCache (storage/cache.rs): the sharded cache; class [Cache].
    - ObjectStorage (storage/object_storage.rs): local object storage, the
      bandwidth limiter and the upload manager; classes [ObjectStorage] and
      [UploadManager] with their laws, which the implementations discharge.
    - Reservation (storage/reservation.rs): leadership reservations by
      conditional writes, as a step relation of contending nodes.
    - PartitionStore (storage/partition_store.rs): append with back-pressure,
      reads across tiers, tiering with fencing, start-up.
    - Compaction (storage/compaction.rs): planning and merging.
    - Follower (replication/follower.rs, network/grpc_server.rs): the
      follower's handlers and the broker's replication service.
    - Replication (replication/manager.rs): acknowledgments, follower states
      and the high watermark; class [ReplicationRpcClient], with the cluster
      of followers as an instance.
    - ConsumerGroup (consumer_group/): coordinator and snapshots.
    - BrokerCore (broker/core.rs): produce, fetch, producer and consumer.
    - LogSpec: the abstract log and the refinement of the broker to it.
    - Scaling (scaling/operations.rs): load scores and rebalance plans.
    - Controller (controller/service.rs, broker_management_service.rs,
      auto_rebalancer.rs): votes, topics, brokers, slots, draining.
    - OpenRaft (controller/openraft_storage.rs): the Raft log on files with its
      cache, and the replicated state machine with snapshots.
    - ScalingManager (scaling/manager.rs): adding and removing brokers as
      interleaved tasks; class [PartitionRebalancer].
    - AccessControl (security/acl/): patterns, rules, decisions, the manager.
    - AclStorage (security/acl/storage.rs, the validation of manager.rs): rules
      as objects behind a cache, versions, indices, restart; classes [Json] and
      [ObjectListing].
    - AclRaft (security/acl/raft.rs, controller/raft_operations.rs): the state
      machine over the rule storage, submissions, log entries and snapshots;
      class [RaftOperations], with the controller as an instance.
    - Authorization (security/auth/): permission sets and the layered caches.
    - Network (network/quic_server.rs, network/secure_connection.rs,
      storage/buffer_pool.rs): connection and buffer pools.
    - Gateway (network/quic_server.rs, broker/broker.rs): a stream from its
      bytes to its answer, authorization of requests, the router and the
      broker's handlers; class [RequestHandlers], with the broker as an
      instance.
    - SdkProducer (producer.rs, message.rs, connection.rs): messages, the
      batching task, and a connection to the broker of Gateway that can lose
      requests and answers; class [ClientConnection].
    - SdkConsumer (consumer.rs): offset tracking, acknowledgments, retries,
      fetching, commits and seeks, with the background tasks as turns.
    - EtlFilter (etl/filter.rs): topic filters and conditional rules; classes
      [GlobLibrary], [RegexLibrary] and [TextLibrary].
    - EtlPool (etl/instance_pool.rs): the pool of module instances with its
      operations split at their awaits; classes [WasmEngine] and
      [WasmRuntime], with the build without WebAssembly as an instance.
    - EtlPipeline (etl/orchestrator.rs, etl/processor.rs): stages, sequential
      and parallel modules on the shared pool, pipelines and the processor.
    - BranchlessParser (storage/wal/branchless_parser.rs): scanning a buffer
      for records, in scalar code and in vector lanes.
    - KeyEncryption (security/tls/key_encryption.rs): encrypted private keys;
      class [KeyCrypto].
    - Certificates (security/tls/certificate_manager.rs): issuing, renewing
      and revoking certificates, the table at rest and the validation caches;
      classes [Pki] and [CertLru].
    - CertMetadata (security/auth/certificate_metadata.rs): what a certificate
      says, from two parsers; class [MetadataParsers].
    - Authentication (security/auth/authentication.rs): from the certificates of
      a connection to an identity; class [AuthCrypto].
    - UltraFast (security/ultra_fast/): packed decisions, the hash table and
      cache of a thread, the shared cache, evaluation of batches.
    - Proto (proto/), ProtoConvert (proto_convert.rs, error.rs): the messages
      between brokers and the conversions to and from them; class [ProtoPair].
    - GrpcTransport (replication/grpc_client.rs, network/grpc_server.rs): the
      service from message to message, the replication client with retries, as
      another instance of [ReplicationRpcClient], and the network handler with its
      circuit breaker.
    - LogCompaction (controller/openraft_compaction.rs): full and incremental
      snapshots as files, deltas, clean-up.
    - Upgrade (operations/upgrade.rs): rolling upgrades as interleaved tasks;
      class [BrokerUpgradeOperations].
    - SdkStream (stream.rs): messages through a processor one by one, in batches
      and in sliding windows; classes [MessageProcessor] and [OutputProducer].

    ** What is proved

    - One log out of many parts: what an offset resolves to ([resolve]) is
      changed by no tiering, compaction, caching, sealing, flushing or
      restart, and appends add exactly their records (PartitionStore,
      Compaction, BrokerCore), for objects below the multipart threshold,
      segments that are not retried and a log and manifest that are whole;
      together this is a refinement of a log that is a list per partition, for
      one operation at a time and acknowledgments of the leader (LogSpec).
    - Durability: the write-ahead log recovers every flushed record after a
      crash of the process, the manifest every acknowledged one, whatever
      I/O failed before; snapshots of consumer groups are replaced atomically.
    - Leadership: no two nodes own a reservation at one epoch, an overtaken
      owner is refused, a fenced node neither registers nor flips; followers
      that handle one request at a time reject older epochs, and a controller
      that handles one vote request at a time votes once per term.
    - Replication: the high watermark is covered by the required number of
      replicas (the leader alone when it has no followers), and a durable
      acknowledgment means the copies exist, over any
      client that keeps [RpcLaws]; the gRPC client does, with its conversions,
      retries and faults; a delivered request is as good as a local call.
    - Consumer groups: assignments are complete, disjoint and balanced,
      generations fence commits, committed offsets are fetched back.
    - Metadata: in every interleaving in which no topic is deleted while it
      is being created, assignments belong to existing topics and distinct
      registered brokers; decommissions stay within their limit.
    - Raft storage: the log is a list under appends, truncations and purges,
      reopening it loses no appended entry, and a snapshot lets another replica
      catch up.
    - Raft snapshots: a full snapshot can be read again, and a delta restores
      topics and brokers.
    - Scaling: in every interleaving of its tasks removals stay within their
      slots as long as these do not expire, a status says where its task is, and
      every operation ends.
    - Upgrades: a task does one broker at a time and in order, a status says
      how the operation went, and every upgrade ends if the brokers answer.
    - Authorization: a grant comes from the ACL manager's own answer in every
      interleaving; decisions are deny-overrides; matchers agree; a
      permission byte is a set; the hash table of a thread is a map.
    - Access rules: the rule storage refines a map of versioned rules through
      cache, indices and restart, as long as deleted rules are not updated;
      decisions over a principal query are the decisions over all rules;
      replicas that apply one log of rules with names agree up to times;
      a snapshot carries the live rules to a fresh replica.
    - Requests: without a granted permission no bytes on a stream change a
      topic or a group; pools stay within their limits.
    - Clients: a batch that one read takes whole, sent without acknowledgment of
      all replicas, is stored at the offsets its callers are told or all of them
      get an error, over a faulty connection and through the broker's handlers
      and store; every message is answered once and in order; a
      consumer commits only what was acknowledged; a stream gives every message
      to its processor once and in order, and a window has those of its time.
    - Stream processing: the filter engine agrees with its filters one by one;
      in every interleaving an instance has one user and the counters of
      instances are exact; if modules are functions, a processed record is what
      they compute, independent of the pool, of other executions and of
      scheduling.
    - Certificates: whatever storage fails and whatever runs in between, the
      table of certificates stays consistent, keys are at rest encrypted only,
      and a revocation is final; on storage that does not fail a restart restores
      the table.
    - Authentication: exactly which connections are authenticated and as whom;
      once revocations have been fetched, a revoked certificate authenticates
      nobody; the filter for tampered bytes finds exactly the runs it counts.
    - Record scanning: a buffer gives exactly its complete records.
    - Bounds: byte budgets of the hot tier and of cache shards, back-pressure,
      termination of the acquisition loop within its attempts.

    Theorems whose names say so (the [Demo] modules) are concrete runs: they
    instantiate the theorems' hypotheses, and some show behaviour the code
    does not intend.

    ** Bounds and fuel

    Only the frame walk of the write-ahead log, the manifest scan, the loops
    of the batch parser, the bandwidth limiter and reservation acquisition
    recurse on a count.  A walk gets one step per byte of its buffer and every
    frame has at least eight bytes; the vector loop of the parser, which need
    not end, has its fuel as an argument; the limiter's theorem says how many refills are enough;
    acquisition is bounded in the code itself.

    ** Not modelled

    The io_uring and O_DIRECT details below the write-ahead log and loss of
    completed but unsynced block writes; the wire encoding of messages and the
    accept loops of network/; the openraft adapters other than its storage
    and snapshots, whose protocol is the library's; TLS set-up and the parsing of X.509; the
    ACL manager's administration calls and broker synchronisation; the admin
    HTTP API; cloud storage adapters; configuration, metrics and health; the
    client library's endpoints. *)

From Stdlib Require Import Ascii DecimalString DecimalN DecimalPos DecimalFacts.
From stdpp Require Export gmap strings list sorting numbers relations.

#[export] Set Default Proof Using "Type".
Local Open Scope Z_scope.

(** ** Machine integers

    A [u64], [u32] or [usize] value is a [Z]; the release profile of the
    crate wraps on overflow, so arithmetic that can leave the range is
    written with the wrap-around. *)

Abbreviation byte := Z (only parsing).
Abbreviation bytes := (list Z) (only parsing).

Definition u64_modulus : Z := 2 ^ 64.
Definition u64_MAX : Z := u64_modulus - 1.
Definition u32_modulus : Z := 2 ^ 32.

Definition u64_add (a b : Z) : Z := (a + b) mod u64_modulus.
Definition u64_sub (a b : Z) : Z := (a - b) mod u64_modulus.
Definition saturating_sub (a b : Z) : Z := if a <? b then 0 else a - b.
Definition as_u32 (a : Z) : Z := a mod u32_modulus.
(** [as i64] of a [u64] *)
Definition as_i64 (z : Z) : Z := (z + 2 ^ 63) mod 2 ^ 64 - 2 ^ 63.

Definition is_u64 (a : Z) : Prop := 0 ≤ a < u64_modulus.

#[global] Instance is_u64_dec a : Decision (is_u64 a).
Proof. unfold is_u64. apply _. Defined.

Lemma u64_modulus_pos : 0 < u64_modulus.
Proof. reflexivity. Qed.

Lemma u64_add_small a b : 0 ≤ a + b < u64_modulus → u64_add a b = a + b.
Proof. intros. unfold u64_add. by apply Z.mod_small. Qed.

Lemma u64_sub_small a b : 0 ≤ a - b < u64_modulus → u64_sub a b = a - b.
Proof. intros. unfold u64_sub. by apply Z.mod_small. Qed.

Lemma u64_add_range a b : is_u64 (u64_add a b).
Proof. apply Z.mod_pos_bound, u64_modulus_pos. Qed.

Lemma u64_sub_range a b : is_u64 (u64_sub a b).
Proof. apply Z.mod_pos_bound, u64_modulus_pos. Qed.

(** Wrapping counters stay congruent to the exact sum. *)
Lemma u64_add_mod a b : u64_add (a mod u64_modulus) b = (a + b) mod u64_modulus.
Proof. unfold u64_add. by rewrite Zplus_mod_idemp_l. Qed.

Lemma u64_sub_mod a b : u64_sub (a mod u64_modulus) b = (a - b) mod u64_modulus.
Proof. unfold u64_sub. by rewrite Zminus_mod_idemp_l. Qed.

Lemma saturating_sub_spec a b : saturating_sub a b = Z.max 0 (a - b).
Proof. unfold saturating_sub. destruct (Z.ltb_spec a b); lia. Qed.

(** ** Results

    [Result<T, RustMqError>] of [src/src/error.rs], with every constructor.
    Human-readable messages are dropped, structured fields are kept.  [Panic] is a Rust panic (an [unwrap] on [None], an index
    out of bounds, an inverted [BTreeMap::range]), [Blocked] a call that is
    still waiting. *)

Inductive RustMqError : Type :=
  | Io | Serialization | Network | Storage | Replication | Config | Wal | Cache | Upload | Etl
  | Bandwidth | Balance | Sandbox | AdminApi | BufferTooSmall | InvalidOffset (offset : Z)
  | TopicNotFound (name : string) | PartitionNotFound | BrokerNotFound (broker_id : string)
  | InvalidConfig | PermissionDenied | Tls | Certificate | Quic | QuicConnection | InvalidOperation
  | ResourceExhausted | NotFound | NoLeader | ReplicationFailed (broker_id : string)
  | StaleLeaderEpoch (request_epoch current_epoch : Z) | EtlProcessingFailed | EtlModuleNotFound
  | TopicAlreadyExists (name : string) | NotLeader | OffsetOutOfRange | ObjectNotFound | Transport
  | InvalidUri | AuthenticationFailed | AuthorizationDenied (principal permission resource : string)
  | AuthorizationFailed | CertificateRevoked | CertificateExpired | InvalidCertificate
  | CertificateNotFound | CertificateGeneration | CertificateValidation | Encryption
  | CaNotAvailable | SecurityConfig | CacheOperation | PrincipalExtraction | AclEvaluation
  | AclRuleNotFound (rule_id : string) | AclRuleConflict | InvalidAclPattern
  | SecurityPolicyViolation | RateLimitExceeded (principal : string)
  | SessionExpired (principal : string) | TlsHandshakeFailed | SignatureVerificationFailed
  | CryptographicFailure | RevocationCheckFailed | CertificateChainValidation | SecurityAuditLog
  | InsufficientPrivileges | Timeout | Internal | ValidationError | RaftError | RaftStorage
  | RaftNetwork | ConsensusTimeout | LogCompaction | SnapshotError | LeaderElection
  | MembershipChange | Panic | Blocked.

(** A numbering, so that equality is decided without comparing all pairs. *)
Definition error_code (e : RustMqError) : Z * string * string * string * Z * Z :=
  match e with
  | Io => (0, EmptyString, EmptyString, EmptyString, 0, 0)
  | Serialization => (1, EmptyString, EmptyString, EmptyString, 0, 0)
  | Network => (2, EmptyString, EmptyString, EmptyString, 0, 0)
  | Storage => (3, EmptyString, EmptyString, EmptyString, 0, 0)
  | Replication => (4, EmptyString, EmptyString, EmptyString, 0, 0)
  | Config => (5, EmptyString, EmptyString, EmptyString, 0, 0)
  | Wal => (6, EmptyString, EmptyString, EmptyString, 0, 0)
  | Cache => (7, EmptyString, EmptyString, EmptyString, 0, 0)
  | Upload => (8, EmptyString, EmptyString, EmptyString, 0, 0)
  | Etl => (9, EmptyString, EmptyString, EmptyString, 0, 0)
  | Bandwidth => (10, EmptyString, EmptyString, EmptyString, 0, 0)
  | Balance => (11, EmptyString, EmptyString, EmptyString, 0, 0)
  | Sandbox => (12, EmptyString, EmptyString, EmptyString, 0, 0)
  | AdminApi => (13, EmptyString, EmptyString, EmptyString, 0, 0)
  | BufferTooSmall => (14, EmptyString, EmptyString, EmptyString, 0, 0)
  | InvalidOffset x => (15, EmptyString, EmptyString, EmptyString, x, 0)
  | TopicNotFound x => (16, x, EmptyString, EmptyString, 0, 0)
  | PartitionNotFound => (17, EmptyString, EmptyString, EmptyString, 0, 0)
  | BrokerNotFound x => (18, x, EmptyString, EmptyString, 0, 0)
  | InvalidConfig => (19, EmptyString, EmptyString, EmptyString, 0, 0)
  | PermissionDenied => (20, EmptyString, EmptyString, EmptyString, 0, 0)
  | Tls => (21, EmptyString, EmptyString, EmptyString, 0, 0)
  | Certificate => (22, EmptyString, EmptyString, EmptyString, 0, 0)
  | Quic => (23, EmptyString, EmptyString, EmptyString, 0, 0)
  | QuicConnection => (24, EmptyString, EmptyString, EmptyString, 0, 0)
  | InvalidOperation => (25, EmptyString, EmptyString, EmptyString, 0, 0)
  | ResourceExhausted => (26, EmptyString, EmptyString, EmptyString, 0, 0)
  | NotFound => (27, EmptyString, EmptyString, EmptyString, 0, 0)
  | NoLeader => (28, EmptyString, EmptyString, EmptyString, 0, 0)
  | ReplicationFailed x => (29, x, EmptyString, EmptyString, 0, 0)
  | StaleLeaderEpoch x y => (30, EmptyString, EmptyString, EmptyString, x, y)
  | EtlProcessingFailed => (31, EmptyString, EmptyString, EmptyString, 0, 0)
  | EtlModuleNotFound => (32, EmptyString, EmptyString, EmptyString, 0, 0)
  | TopicAlreadyExists x => (33, x, EmptyString, EmptyString, 0, 0)
  | NotLeader => (34, EmptyString, EmptyString, EmptyString, 0, 0)
  | OffsetOutOfRange => (35, EmptyString, EmptyString, EmptyString, 0, 0)
  | ObjectNotFound => (36, EmptyString, EmptyString, EmptyString, 0, 0)
  | Transport => (37, EmptyString, EmptyString, EmptyString, 0, 0)
  | InvalidUri => (38, EmptyString, EmptyString, EmptyString, 0, 0)
  | AuthenticationFailed => (39, EmptyString, EmptyString, EmptyString, 0, 0)
  | AuthorizationDenied x y z => (40, x, y, z, 0, 0)
  | AuthorizationFailed => (41, EmptyString, EmptyString, EmptyString, 0, 0)
  | CertificateRevoked => (42, EmptyString, EmptyString, EmptyString, 0, 0)
  | CertificateExpired => (43, EmptyString, EmptyString, EmptyString, 0, 0)
  | InvalidCertificate => (44, EmptyString, EmptyString, EmptyString, 0, 0)
  | CertificateNotFound => (45, EmptyString, EmptyString, EmptyString, 0, 0)
  | CertificateGeneration => (46, EmptyString, EmptyString, EmptyString, 0, 0)
  | CertificateValidation => (47, EmptyString, EmptyString, EmptyString, 0, 0)
  | Encryption => (48, EmptyString, EmptyString, EmptyString, 0, 0)
  | CaNotAvailable => (49, EmptyString, EmptyString, EmptyString, 0, 0)
  | SecurityConfig => (50, EmptyString, EmptyString, EmptyString, 0, 0)
  | CacheOperation => (51, EmptyString, EmptyString, EmptyString, 0, 0)
  | PrincipalExtraction => (52, EmptyString, EmptyString, EmptyString, 0, 0)
  | AclEvaluation => (53, EmptyString, EmptyString, EmptyString, 0, 0)
  | AclRuleNotFound x => (54, x, EmptyString, EmptyString, 0, 0)
  | AclRuleConflict => (55, EmptyString, EmptyString, EmptyString, 0, 0)
  | InvalidAclPattern => (56, EmptyString, EmptyString, EmptyString, 0, 0)
  | SecurityPolicyViolation => (57, EmptyString, EmptyString, EmptyString, 0, 0)
  | RateLimitExceeded x => (58, x, EmptyString, EmptyString, 0, 0)
  | SessionExpired x => (59, x, EmptyString, EmptyString, 0, 0)
  | TlsHandshakeFailed => (60, EmptyString, EmptyString, EmptyString, 0, 0)
  | SignatureVerificationFailed => (61, EmptyString, EmptyString, EmptyString, 0, 0)
  | CryptographicFailure => (62, EmptyString, EmptyString, EmptyString, 0, 0)
  | RevocationCheckFailed => (63, EmptyString, EmptyString, EmptyString, 0, 0)
  | CertificateChainValidation => (64, EmptyString, EmptyString, EmptyString, 0, 0)
  | SecurityAuditLog => (65, EmptyString, EmptyString, EmptyString, 0, 0)
  | InsufficientPrivileges => (66, EmptyString, EmptyString, EmptyString, 0, 0)
  | Timeout => (67, EmptyString, EmptyString, EmptyString, 0, 0)
  | Internal => (68, EmptyString, EmptyString, EmptyString, 0, 0)
  | ValidationError => (69, EmptyString, EmptyString, EmptyString, 0, 0)
  | RaftError => (70, EmptyString, EmptyString, EmptyString, 0, 0)
  | RaftStorage => (71, EmptyString, EmptyString, EmptyString, 0, 0)
  | RaftNetwork => (72, EmptyString, EmptyString, EmptyString, 0, 0)
  | ConsensusTimeout => (73, EmptyString, EmptyString, EmptyString, 0, 0)
  | LogCompaction => (74, EmptyString, EmptyString, EmptyString, 0, 0)
  | SnapshotError => (75, EmptyString, EmptyString, EmptyString, 0, 0)
  | LeaderElection => (76, EmptyString, EmptyString, EmptyString, 0, 0)
  | MembershipChange => (77, EmptyString, EmptyString, EmptyString, 0, 0)
  | Panic => (78, EmptyString, EmptyString, EmptyString, 0, 0)
  | Blocked => (79, EmptyString, EmptyString, EmptyString, 0, 0)
  end.
Definition error_of_code (p : Z * string * string * string * Z * Z) : RustMqError :=
  let '(c, s, t, u, a, b) := p in
  match c with
  | 0 => Io
  | 1 => Serialization
  | 2 => Network
  | 3 => Storage
  | 4 => Replication
  | 5 => Config
  | 6 => Wal
  | 7 => Cache
  | 8 => Upload
  | 9 => Etl
  | 10 => Bandwidth
  | 11 => Balance
  | 12 => Sandbox
  | 13 => AdminApi
  | 14 => BufferTooSmall
  | 15 => InvalidOffset a
  | 16 => TopicNotFound s
  | 17 => PartitionNotFound
  | 18 => BrokerNotFound s
  | 19 => InvalidConfig
  | 20 => PermissionDenied
  | 21 => Tls
  | 22 => Certificate
  | 23 => Quic
  | 24 => QuicConnection
  | 25 => InvalidOperation
  | 26 => ResourceExhausted
  | 27 => NotFound
  | 28 => NoLeader
  | 29 => ReplicationFailed s
  | 30 => StaleLeaderEpoch a b
  | 31 => EtlProcessingFailed
  | 32 => EtlModuleNotFound
  | 33 => TopicAlreadyExists s
  | 34 => NotLeader
  | 35 => OffsetOutOfRange
  | 36 => ObjectNotFound
  | 37 => Transport
  | 38 => InvalidUri
  | 39 => AuthenticationFailed
  | 40 => AuthorizationDenied s t u
  | 41 => AuthorizationFailed
  | 42 => CertificateRevoked
  | 43 => CertificateExpired
  | 44 => InvalidCertificate
  | 45 => CertificateNotFound
  | 46 => CertificateGeneration
  | 47 => CertificateValidation
  | 48 => Encryption
  | 49 => CaNotAvailable
  | 50 => SecurityConfig
  | 51 => CacheOperation
  | 52 => PrincipalExtraction
  | 53 => AclEvaluation
  | 54 => AclRuleNotFound s
  | 55 => AclRuleConflict
  | 56 => InvalidAclPattern
  | 57 => SecurityPolicyViolation
  | 58 => RateLimitExceeded s
  | 59 => SessionExpired s
  | 60 => TlsHandshakeFailed
  | 61 => SignatureVerificationFailed
  | 62 => CryptographicFailure
  | 63 => RevocationCheckFailed
  | 64 => CertificateChainValidation
  | 65 => SecurityAuditLog
  | 66 => InsufficientPrivileges
  | 67 => Timeout
  | 68 => Internal
  | 69 => ValidationError
  | 70 => RaftError
  | 71 => RaftStorage
  | 72 => RaftNetwork
  | 73 => ConsensusTimeout
  | 74 => LogCompaction
  | 75 => SnapshotError
  | 76 => LeaderElection
  | 77 => MembershipChange
  | 78 => Panic
  | 79 => Blocked
  | _ => Panic
  end.
Lemma error_of_code_of e : error_of_code (error_code e) = e.
Proof. by destruct e. Qed.
#[global] Instance RustMqError_eq_dec : EqDecision RustMqError.
Proof.
  refine (λ x y, cast_if (decide (error_code x = error_code y))); [|congruence].
  rewrite <- (error_of_code_of x), <- (error_of_code_of y). by f_equal.
Defined.

Inductive Result (A : Type) : Type :=
  | Ok (a : A)
  | Err (e : RustMqError).
Arguments Ok {A} _.
Arguments Err {A} _.

Definition is_ok {A} (r : Result A) : bool :=
  match r with Ok _ => true | Err _ => false end.

Definition ok_or {A} (o : option A) (e : RustMqError) : Result A :=
  match o with Some a => Ok a | None => Err e end.

(** The [?] operator on a pure [Result]. *)
Definition rbind {A B} (r : Result A) (k : A → Result B) : Result B :=
  match r with Ok a => k a | Err e => Err e end.

(** The [?] operator on a call that also changes the state [S]: the state
    reached when the error was raised is kept. *)
Definition sbind {S A B} (p : Result A * S) (k : A → S → Result B * S)
  : Result B * S :=
  match p with
  | (Ok a, s) => k a s
  | (Err e, s) => (Err e, s)
  end.

Declare Scope rust_scope.
Delimit Scope rust_scope with rust.

Notation "'let?' x := r 'in' k" := (rbind r (fun x => k))
  (at level 10, x name, r at level 100, k at level 200) : rust_scope.
Notation "'let!' ( x , s ) := p 'in' k" := (sbind p (fun x s => k))
  (at level 10, x name, s name, p at level 100, k at level 200) : rust_scope.

(** ** Sums over finite maps *)

Section msum.
Context {K : Type} `{Countable K} {A : Type} (f : A → Z).

Definition msum (m : gmap K A) : Z := map_fold (λ _ a acc, f a + acc) 0 m.

Lemma msum_empty : msum ∅ = 0.
Proof. apply map_fold_empty. Qed.

Lemma msum_insert_new m k a : m !! k = None → msum (<[k:=a]> m) = f a + msum m.
Proof. intros. unfold msum. rewrite map_fold_insert_L; [done|intros; lia|done]. Qed.

Lemma msum_delete m k a : m !! k = Some a → msum m = f a + msum (delete k m).
Proof. intros. unfold msum. rewrite (map_fold_delete_L _ _ k a m); [done|intros; lia|done]. Qed.

Lemma msum_insert m k a :
  msum (<[k:=a]> m) = f a + msum m - from_option f 0 (m !! k).
Proof.
  destruct (m !! k) as [a'|] eqn:E; simpl.
  - rewrite <- insert_delete_eq, msum_insert_new, (msum_delete m k a') by
      (done || apply lookup_delete_eq). lia.
  - rewrite msum_insert_new by done. lia.
Qed.

Lemma msum_delete' m k : msum (delete k m) = msum m - from_option f 0 (m !! k).
Proof.
  destruct (m !! k) as [a'|] eqn:E; simpl.
  - rewrite (msum_delete m k a') by done. lia.
  - rewrite delete_id by done. lia.
Qed.

Lemma msum_nonneg m : map_Forall (λ _ a, 0 ≤ f a) m → 0 ≤ msum m.
Proof.
  induction m as [|k a m E IH] using map_ind; intros HF.
  - by rewrite msum_empty.
  - rewrite msum_insert_new by done.
    apply map_Forall_insert in HF as [? ?]; [|done]. specialize (IH ltac:(done)). lia.
Qed.

Lemma msum_filter_split (P : K * A → Prop) `{∀ x, Decision (P x)} m :
  msum m = msum (filter P m) + msum (filter (λ x, ¬ P x) m).
Proof.
  induction m as [|k a m E IH] using map_ind.
  - by rewrite !map_filter_empty, msum_empty.
  - rewrite msum_insert_new by done.
    assert (E1 : filter P m !! k = None) by (apply map_lookup_filter_None; auto).
    assert (E2 : filter (λ x, ¬ P x) m !! k = None) by (apply map_lookup_filter_None; auto).
    destruct (decide (P (k, a))).
    + rewrite map_filter_insert_True, msum_insert_new by done.
      rewrite map_filter_insert_False by tauto.
      rewrite delete_id by done. lia.
    + rewrite map_filter_insert_False, delete_id by done.
      rewrite map_filter_insert_True, msum_insert_new by done. lia.
Qed.
End msum.

Definition zsum {A} (f : A → Z) (l : list A) : Z := foldr (λ x acc, f x + acc) 0 l.

Lemma zsum_nil {A} (f : A → Z) : zsum f [] = 0.
Proof. done. Qed.
Lemma zsum_cons {A} (f : A → Z) x l : zsum f (x :: l) = f x + zsum f l.
Proof. done. Qed.
#[global] Arguments zsum : simpl never.

Lemma zsum_app {A} (f : A → Z) l1 l2 : zsum f (l1 ++ l2) = zsum f l1 + zsum f l2.
Proof. induction l1 as [|x l1 IH]; simpl; [done|]. rewrite !zsum_cons, IH. lia. Qed.

Lemma zsum_snoc {A} (f : A → Z) l x : zsum f (l ++ [x]) = zsum f l + f x.
Proof. rewrite zsum_app, zsum_cons, zsum_nil. lia. Qed.

Lemma zsum_nonneg {A} (f : A → Z) l : Forall (λ x, 0 ≤ f x) l → 0 ≤ zsum f l.
Proof. induction 1; rewrite ?zsum_nil, ?zsum_cons; lia. Qed.

Lemma StronglySorted_sublist {A} (R : relation A) l1 l2 :
  l1 `sublist_of` l2 → StronglySorted R l2 → StronglySorted R l1.
Proof.
  induction 1 as [|x l1 l2 Hsub IH|x l1 l2 _ IH]; [done|..]; intros [HF Hs]%StronglySorted_cons; [|auto].
  constructor; [auto|]. rewrite Forall_forall in *. intros y Hy. apply HF. by eapply elem_of_sublist.
Qed.

Lemma zsum_sublist {A} (f : A → Z) l1 l2 :
  l1 `sublist_of` l2 → Forall (λ x, 0 ≤ f x) l2 → zsum f l1 ≤ zsum f l2.
Proof.
  induction 1 as [|x l1 l2 _ IH|x l1 l2 _ IH]; [done|..];
    intros [? Hl]%Forall_cons; specialize (IH Hl); rewrite !zsum_cons; lia.
Qed.

(** ** [BTreeMap<u64, A>]

    A B-tree keyed by offsets is a [gmap Z A]; iteration order is recovered by
    sorting the bindings. *)

Section btree.
Context {A : Type}.
Implicit Types (m : gmap Z A) (o s e k : Z).

Definition in_range s e (kv : Z * A) : Prop := s ≤ kv.1 < e.
#[global] Instance in_range_dec s e kv : Decision (in_range s e kv).
Proof. unfold in_range. apply _. Defined.

(** [m.range(s..e)], and [m] once these keys are removed. *)
Definition range_entries s e m : gmap Z A := filter (in_range s e) m.
Definition remove_range s e m : gmap Z A := filter (λ kv, ¬ in_range s e kv) m.

(** [m.range(..=o).next_back()] *)
Definition floor_step o k (a : A) (acc : option (Z * A)) : option (Z * A) :=
  if k <=? o then
    match acc with
    | Some (k', _) => if k' <? k then Some (k, a) else acc
    | None => Some (k, a)
    end
  else acc.
Definition floor_entry o m : option (Z * A) := map_fold (floor_step o) None m.

(** The bindings in increasing key order. *)
Definition key_le (x y : Z * A) : Prop := x.1 ≤ y.1.
#[global] Instance key_le_dec : RelDecision key_le.
Proof. intros x y. unfold key_le. apply _. Defined.
#[global] Instance key_le_total : Total key_le.
Proof. intros x y. unfold key_le. lia. Qed.
#[global] Instance key_le_trans : Transitive key_le.
Proof. intros x y z. unfold key_le. lia. Qed.
Definition btree_to_list m : list (Z * A) := merge_sort key_le (map_to_list m).

Lemma lookup_range_entries s e m k a :
  range_entries s e m !! k = Some a ↔ m !! k = Some a ∧ s ≤ k < e.
Proof. unfold range_entries. by rewrite map_lookup_filter_Some. Qed.

Lemma lookup_remove_range s e m k :
  remove_range s e m !! k = if decide (s ≤ k < e) then None else m !! k.
Proof.
  unfold remove_range. case_decide as Hk.
  - apply map_lookup_filter_None. right. intros a _. unfold in_range. simpl. tauto.
  - destruct (m !! k) as [a|] eqn:E.
    + apply map_lookup_filter_Some. split; [done|]. unfold in_range. simpl. done.
    + apply map_lookup_filter_None. by left.
Qed.

Lemma lookup_remove_range_out s e m k :
  ¬ (s ≤ k < e) → remove_range s e m !! k = m !! k.
Proof. intros. rewrite lookup_remove_range. by case_decide. Qed.

Lemma remove_range_idemp s e m : remove_range s e (remove_range s e m) = remove_range s e m.
Proof. apply map_eq. intros k. rewrite !lookup_remove_range. by case_decide. Qed.

Lemma remove_range_insert_idemp s e m a :
  s < e → <[s:=a]> (remove_range s e (<[s:=a]> (remove_range s e m)))
          = <[s:=a]> (remove_range s e m).
Proof.
  intros. apply map_eq. intros k. destruct (decide (k = s)) as [->|].
  - by rewrite !lookup_insert_eq.
  - rewrite !lookup_insert_ne by done. rewrite !lookup_remove_range.
    case_decide; [done|]. rewrite lookup_insert_ne by done.
    rewrite lookup_remove_range. by rewrite decide_False by done.
Qed.

Definition floor_spec o m (r : option (Z * A)) : Prop :=
  match r with
  | Some (k, a) =>
      m !! k = Some a ∧ k ≤ o ∧ ∀ k' a', m !! k' = Some a' → k' ≤ o → k' ≤ k
  | None => ∀ k a, m !! k = Some a → o < k
  end.

Lemma floor_entry_spec o m : floor_spec o m (floor_entry o m).
Proof.
  unfold floor_entry.
  apply (map_fold_weak_ind (λ acc m, floor_spec o m acc)); simpl.
  { intros k a. by rewrite lookup_empty. }
  intros i x m' acc Hi IH. unfold floor_step.
  assert (Hl : ∀ k a, <[i:=x]> m' !! k = Some a → (k = i ∧ a = x) ∨ m' !! k = Some a).
  { intros k a. destruct (decide (k = i)) as [->|].
    - rewrite lookup_insert_eq. naive_solver.
    - rewrite lookup_insert_ne by done. auto. }
  destruct (Z.leb_spec i o) as [Hio|Hio]; destruct acc as [[k' a']|]; simpl in *.
  - destruct IH as (Hk & Hko & Hmax). destruct (Z.ltb_spec k' i).
    + split; [apply lookup_insert_eq|]. split; [done|].
      intros ?? [[-> ->]|?]%Hl ?; [done|]. specialize (Hmax _ _ ltac:(done)). lia.
    + split; [rewrite lookup_insert_ne; [done|congruence]|]. split; [done|].
      intros ?? [[-> ->]|?]%Hl ?; [lia|eauto].
  - split; [apply lookup_insert_eq|]. split; [done|].
    intros ?? [[-> ->]|Hm]%Hl ?; [done|]. apply IH in Hm. lia.
  - destruct IH as (Hk & Hko & Hmax).
    split; [rewrite lookup_insert_ne; [done|congruence]|]. split; [done|].
    intros ?? [[-> ->]|?]%Hl ?; [lia|eauto].
  - intros ?? [[-> ->]|Hm]%Hl; [done|eauto].
Qed.

Lemma floor_entry_Some o m k a :
  floor_entry o m = Some (k, a) ↔
  m !! k = Some a ∧ k ≤ o ∧ ∀ k' a', m !! k' = Some a' → k' ≤ o → k' ≤ k.
Proof.
  pose proof (floor_entry_spec o m) as Hs. destruct (floor_entry o m) as [[k0 a0]|]; simpl in *.
  - split; [intros [= -> ->]; done|]. intros (? & ? & Hmax).
    destruct Hs as (Hk0 & Hle & Hmax0).
    assert (k = k0) as -> by (apply Z.le_antisymm; eauto). congruence.
  - split; [done|]. intros (Hk & ? & _). apply Hs in Hk. lia.
Qed.

Lemma floor_entry_None o m :
  floor_entry o m = None ↔ ∀ k a, m !! k = Some a → o < k.
Proof.
  pose proof (floor_entry_spec o m) as Hs. destruct (floor_entry o m) as [[k0 a0]|]; simpl in *.
  - split; [done|]. intros Hn. destruct Hs as (Hk0 & Hle & _). apply Hn in Hk0. lia.
  - done.
Qed.

Lemma btree_to_list_elem m k a : (k, a) ∈ btree_to_list m ↔ m !! k = Some a.
Proof. unfold btree_to_list. by rewrite merge_sort_Permutation, elem_of_map_to_list. Qed.

Lemma btree_to_list_empty : btree_to_list ∅ = [].
Proof. unfold btree_to_list. by rewrite map_to_list_empty. Qed.

Lemma btree_to_list_sorted m : StronglySorted key_le (btree_to_list m).
Proof. apply StronglySorted_merge_sort; apply _. Qed.

Lemma btree_keys_elem m k : k ∈ (btree_to_list m).*1 ↔ is_Some (m !! k).
Proof.
  rewrite list_elem_of_fmap. split.
  - intros ([k' a] & -> & Hin%btree_to_list_elem). eauto.
  - intros [a Hk]. exists (k, a). by rewrite btree_to_list_elem.
Qed.

(** The last key is the greatest. *)
Lemma btree_last m :
  match last (btree_to_list m).*1 with
  | Some k => is_Some (m !! k) ∧ ∀ k', is_Some (m !! k') → k' ≤ k
  | None => m = ∅
  end.
Proof.
  assert (Hs : StronglySorted Z.le (btree_to_list m).*1).
  { pose proof (btree_to_list_sorted m) as Hs. induction Hs as [|x l Hs IH HF]; simpl; constructor; auto.
    apply Forall_fmap. eapply Forall_impl; [exact HF|]. done. }
  destruct (last (btree_to_list m).*1) as [k|] eqn:El.
  - apply last_Some in El as [l' Hl]. split.
    + apply btree_keys_elem. rewrite Hl. apply elem_of_app. right. by apply list_elem_of_singleton.
    + intros k' Hk'%btree_keys_elem. rewrite Hl in Hs, Hk'.
      apply elem_of_app in Hk' as [Hin|Hin%list_elem_of_singleton]; [|lia].
      eapply StronglySorted_app_1_elem_of; [exact Hs|done|]. by apply list_elem_of_singleton.
  - apply last_None, fmap_nil_inv in El. apply map_empty. intros i.
    apply eq_None_not_Some. intros [a Ha%btree_to_list_elem]. rewrite El in Ha. by apply elem_of_nil in Ha.
Qed.

Lemma btree_to_list_NoDup m : NoDup (btree_to_list m).*1.
Proof. unfold btree_to_list. rewrite merge_sort_Permutation. apply NoDup_fst_map_to_list. Qed.
End btree.

(** ** Little-endian integers: [to_le_bytes] and [from_le_bytes] *)

Fixpoint le_bytes (n : nat) (z : Z) : bytes :=
  match n with
  | O => []
  | S n => z mod 256 :: le_bytes n (z / 256)
  end.

Fixpoint from_le (bs : bytes) : Z :=
  match bs with
  | [] => 0
  | b :: bs => b + 256 * from_le bs
  end.

Lemma length_le_bytes n z : length (le_bytes n z) = n.
Proof. revert z. induction n; intros; simpl; auto. Qed.

Lemma take_le_bytes n z l : take n (le_bytes n z ++ l) = le_bytes n z.
Proof. apply take_app_length'. by rewrite length_le_bytes. Qed.

Lemma drop_le_bytes n z l : drop n (le_bytes n z ++ l) = l.
Proof. apply drop_app_length'. by rewrite length_le_bytes. Qed.

Lemma from_le_le_bytes n z : from_le (le_bytes n z) = z mod 256 ^ Z.of_nat n.
Proof.
  revert z. induction n as [|n IH]; intros z; simpl le_bytes; simpl from_le.
  - by rewrite Z.mod_1_r.
  - rewrite IH, Nat2Z.inj_succ, Z.pow_succ_r by lia.
    rewrite Z.rem_mul_r; lia.
Qed.

Lemma from_le_roundtrip n z : 0 ≤ z < 256 ^ Z.of_nat n → from_le (le_bytes n z) = z.
Proof. intros. rewrite from_le_le_bytes. by apply Z.mod_small. Qed.

(** ** Decimal numbers: [format!("{}")] and [str::parse::<uN>()] *)

Definition dec (z : Z) : string := NilZero.string_of_uint (N.to_uint (Z.to_N z)).

(** [parse] of an unsigned type accepts one leading [+] and leading zeros,
    refuses the empty string, any other character and values at or above
    [bound]. *)
Definition parse_digits (s : string) : option Z :=
  Z.of_N ∘ N.of_uint <$> NilZero.uint_of_string s.
Definition parse_uint (bound : Z) (s : string) : option Z :=
  v ← parse_digits (match s with String "+"%char (String _ _ as s') => s' | _ => s end);
  if v <? bound then Some v else None.

Fixpoint str_all (P : Ascii.ascii → bool) (s : string) : bool :=
  match s with
  | EmptyString => true
  | String c s => P c && str_all P s
  end.

Definition is_digit (c : Ascii.ascii) : bool :=
  let n := Ascii.N_of_ascii c in (48 <=? n)%N && (n <=? 57)%N.

(** [s.split(c)] *)
Fixpoint split_on (c : Ascii.ascii) (s : string) : list string :=
  match s with
  | EmptyString => [EmptyString]
  | String x s =>
      if Ascii.eqb x c then EmptyString :: split_on c s
      else match split_on c s with
           | w :: ws => String x w :: ws
           | [] => [String x EmptyString]
           end
  end.

Lemma str_all_app P s t : str_all P (s +:+ t) = str_all P s && str_all P t.
Proof. induction s as [|c s IH]; simpl; [done|]. by rewrite IH, andb_assoc. Qed.

Lemma str_app_nil_r s : s +:+ EmptyString = s.
Proof. induction s as [|c s IH]; [done|]. change (String c (s +:+ EmptyString) = String c s). by rewrite IH. Qed.

Lemma str_length_app s t : String.length (s +:+ t) = (String.length s + String.length t)%nat.
Proof. induction s as [|c s IH]; simpl; auto. Qed.

Lemma str_app_inj_l (s t u : string) : s +:+ t = s +:+ u → t = u.
Proof. induction s as [|a s IH]; [done|]. intros E. apply IH. by injection E. Qed.
Lemma str_app_inj_r (s1 s2 t : string) : s1 +:+ t = s2 +:+ t → s1 = s2.
Proof.
  revert s2. induction s1 as [|a s1 IH]; intros [|b s2] E; [done|..|injection E as -> E; f_equal; by apply IH];
    apply (f_equal String.length) in E; rewrite !str_length_app in E; simpl in E; lia.
Qed.

Lemma str_all_impl (P Q : Ascii.ascii → bool) s :
  (∀ c, P c = true → Q c = true) → str_all P s = true → str_all Q s = true.
Proof.
  intros HPQ. induction s as [|c s IH]; simpl; [done|].
  intros [? ?]%andb_prop. by rewrite HPQ, IH.
Qed.

Lemma split_on_not_nil c s : split_on c s ≠ [].
Proof.
  destruct s as [|x s]; simpl; [done|]. destruct (Ascii.eqb x c); [done|].
  by destruct (split_on c s).
Qed.

Lemma split_on_plain c s :
  str_all (λ x, negb (Ascii.eqb x c)) s = true → split_on c s = [s].
Proof.
  induction s as [|x s IH]; simpl; [done|].
  intros [Hx Hs]%andb_prop. apply negb_true_iff in Hx. by rewrite Hx, IH.
Qed.

Lemma split_on_sep c s t :
  str_all (λ x, negb (Ascii.eqb x c)) s = true →
  split_on c (s +:+ String c t) = s :: split_on c t.
Proof.
  induction s as [|x s IH]; simpl.
  - intros _. by rewrite Ascii.eqb_refl.
  - intros [Hx Hs]%andb_prop. apply negb_true_iff in Hx. rewrite Hx, IH by done. done.
Qed.

(** The pieces of [split] determine the string. *)
Fixpoint join_on (c : Ascii.ascii) (l : list string) : string :=
  match l with
  | [] => EmptyString
  | [w] => w
  | w :: l => w +:+ String c (join_on c l)
  end.

Lemma join_split c s : join_on c (split_on c s) = s.
Proof.
  induction s as [|x s IH]; simpl; [done|].
  destruct (Ascii.eqb_spec x c) as [->|].
  - pose proof (split_on_not_nil c s). destruct (split_on c s); [done|]. simpl in *. by rewrite IH.
  - destruct (split_on c s) as [|w ws] eqn:E; [by apply split_on_not_nil in E|].
    rewrite <- IH. by destruct ws.
Qed.

Lemma split_on_inj c s t : split_on c s = split_on c t → s = t.
Proof. intros E. by rewrite <- (join_split c s), E, join_split. Qed.

(** Splitting at a separator in the middle of a string. *)
Lemma split_on_app c s t : split_on c (s +:+ String c t) = split_on c s ++ split_on c t.
Proof.
  induction s as [|x s IH]; simpl.
  - by rewrite Ascii.eqb_refl.
  - destruct (Ascii.eqb x c); [by rewrite IH|]. rewrite IH.
    pose proof (split_on_not_nil c s). by destruct (split_on c s).
Qed.

Lemma string_of_uint_digits d : str_all is_digit (NilEmpty.string_of_uint d) = true.
Proof. by induction d. Qed.

Lemma dec_digits z : str_all is_digit (dec z) = true.
Proof.
  unfold dec, NilZero.string_of_uint.
  destruct (N.to_uint (Z.to_N z)) eqn:E; [done|rewrite <- E; apply string_of_uint_digits..].
Qed.

Lemma dec_without c z : is_digit c = false → str_all (λ x, negb (Ascii.eqb x c)) (dec z) = true.
Proof.
  intros Hc. eapply str_all_impl, dec_digits. intros x Hx. apply negb_true_iff.
  destruct (Ascii.eqb_spec x c) as [->|]; congruence.
Qed.

Lemma N_to_uint_not_nil n : N.to_uint n ≠ Decimal.Nil.
Proof. destruct n as [|p]; simpl; [done|]. apply DecimalPos.Unsigned.to_uint_nonnil. Qed.

Lemma parse_digits_dec z : 0 ≤ z → parse_digits (dec z) = Some z.
Proof.
  intros. unfold parse_digits, dec. rewrite NilZero.usu by apply N_to_uint_not_nil.
  simpl. rewrite DecimalN.Unsigned.of_to, Z2N.id by done. done.
Qed.

Lemma parse_uint_dec bound z : 0 ≤ z < bound → parse_uint bound (dec z) = Some z.
Proof.
  intros [? ?]. unfold parse_uint.
  assert (match dec z with String "+"%char (String _ _ as s') => s' | _ => dec z end = dec z) as ->.
  { pose proof (dec_digits z) as Hd. destruct (dec z) as [|c s]; [done|].
    by destruct c as [[] [] [] [] [] [] [] []], s. }
  rewrite parse_digits_dec by done. simpl. by rewrite (proj2 (Z.ltb_lt _ _)).
Qed.

Lemma dec_inj a b : 0 ≤ a → 0 ≤ b → dec a = dec b → a = b.
Proof.
  intros ?? E. apply (f_equal parse_digits) in E.
  rewrite !parse_digits_dec in E by done. congruence.
Qed.

(** ** [strip_prefix] and [strip_suffix] *)

Fixpoint strip_prefix (p s : string) : option string :=
  match p, s with
  | EmptyString, _ => Some s
  | String a p, String b s => if Ascii.eqb a b then strip_prefix p s else None
  | String _ _, EmptyString => None
  end.

Fixpoint strip_suffix (p s : string) : option string :=
  if String.eqb p s then Some EmptyString
  else match s with
       | EmptyString => None
       | String c s => String c <$> strip_suffix p s
       end.

Lemma strip_prefix_app p s : strip_prefix p (p +:+ s) = Some s.
Proof. induction p as [|c p IH]; simpl; [done|]. by rewrite Ascii.eqb_refl. Qed.

Lemma strip_suffix_refl p : p ≠ EmptyString → strip_suffix p p = Some EmptyString.
Proof. destruct p; [done|]. cbn [strip_suffix]. by rewrite String.eqb_refl. Qed.

Lemma strip_suffix_app p s :
  str_all is_digit s = true → str_all is_digit p = false → strip_suffix p (s +:+ p) = Some s.
Proof.
  intros Hs Hp. induction s as [|c s IH]; simpl in *.
  - change (EmptyString +:+ p) with p. apply strip_suffix_refl. by intros ->.
  - apply andb_prop in Hs as [Hc Hs].
    destruct (String.eqb_spec p (String c (s +:+ p))) as [E|_]; [|by rewrite IH].
    exfalso. apply (f_equal String.length) in E. simpl in E. rewrite str_length_app in E. lia.
Qed.

Lemma strip_suffix_Some p s x : strip_suffix p s = Some x → s = x +:+ p.
Proof.
  revert x. induction s as [|c s IH]; intros x; cbn [strip_suffix].
  - destruct (String.eqb_spec p EmptyString) as [->|]; [|done]. by intros [= <-].
  - destruct (String.eqb_spec p (String c s)) as [->|]; [by intros [= <-]|].
    destruct (strip_suffix p s) as [y|]; simpl; [|done]. intros [= <-]. simpl. by rewrite (IH y).
Qed.

(** ** Strings as bytes *)

(** [String::into_bytes]; characters of a string are its UTF-8 bytes *)
Definition str_bytes (s : string) : bytes := (λ c, Z.of_N (Ascii.N_of_ascii c)) <$> String.list_ascii_of_string s.
(** [str::from_utf8] accepts *)
Definition utf8_cont (b : Z) : bool := (128 <=? b) && (b <=? 191).
Fixpoint utf8_valid (l : bytes) : bool :=
  match l with
  | [] => true
  | b :: l =>
      if (0 <=? b) && (b <? 128) then utf8_valid l
      else if (194 <=? b) && (b <=? 223) then
        match l with c :: l => utf8_cont c && utf8_valid l | _ => false end
      else if (224 <=? b) && (b <=? 239) then
        match l with
        | c :: d :: l => utf8_cont c && utf8_cont d && (negb (b =? 224) || (160 <=? c))
                         && (negb (b =? 237) || (c <=? 159)) && utf8_valid l
        | _ => false
        end
      else if (240 <=? b) && (b <=? 244) then
        match l with
        | c :: d :: e :: l => utf8_cont c && utf8_cont d && utf8_cont e && (negb (b =? 240) || (144 <=? c))
                              && (negb (b =? 244) || (c <=? 143)) && utf8_valid l
        | _ => false
        end
      else false
  end.
(** [String::from_utf8] *)
Definition from_utf8 (b : bytes) : option string :=
  if utf8_valid b then Some (String.string_of_list_ascii ((λ z, Ascii.ascii_of_N (Z.to_N z)) <$> b)) else None.
Lemma from_utf8_str_bytes s : utf8_valid (str_bytes s) = true → from_utf8 (str_bytes s) = Some s.
Proof.
  intros H. unfold from_utf8. rewrite H. f_equal. unfold str_bytes. rewrite <- list_fmap_compose.
  rewrite (list_fmap_ext _ id); [rewrite list_fmap_id; apply String.string_of_list_ascii_of_string|].
  intros i c _. simpl. rewrite N2Z.id. apply Ascii.ascii_N_embedding.
Qed.

(** [str::starts_with], [str::contains] *)
Fixpoint starts_with (p s : string) : bool :=
  match p, s with
  | String.EmptyString, _ => true
  | String.String a p, String.String b s => Ascii.eqb a b && starts_with p s
  | _, _ => false
  end.
Fixpoint contains_str (p s : string) : bool :=
  starts_with p s || match s with String.EmptyString => false | String.String _ s => contains_str p s end.

(** ** Serialization

    [bincode] is a dependency of the crate: its encoder and decoder are
    parameters.  The laws are its documented behaviour: decoding an encoding
    gives the value back, and a value of these types has a non-empty
    encoding. *)

Class Bincode (A : Type) := {
  serialize : A → bytes;
  deserialize : bytes → option A;
}.
#[global] Hint Mode Bincode ! : typeclass_instances.

Class BincodeLaws (A : Type) `{!Bincode A} := {
  deserialize_serialize (x : A) : deserialize (serialize x) = Some x;
  serialize_nonempty (x : A) : (0 < length (serialize x))%nat;
}.

(** [serde_json] *)
Class Json (A : Type) := {
  to_json : A → bytes;
  from_json : bytes → option A;
}.
Class JsonLaws (A : Type) `{!Json A} := {
  from_to_json a : from_json (to_json a) = Some a;
}.
#[global] Hint Mode Json ! : typeclass_instances.

(** A concrete codec for every countable type, used to exhibit that the laws
    can hold: the bits of the [positive] code, least significant first. *)
Module DemoCodec.
Fixpoint bits (p : positive) : bytes :=
  match p with
  | xH => [1]
  | xO p => 0 :: bits p
  | xI p => 1 :: bits p
  end.
Fixpoint unbits (l : bytes) : option positive :=
  match l with
  | [] => None
  | [_] => Some xH
  | b :: l => p ← unbits l; Some (if b =? 0 then xO p else xI p)
  end.

Lemma unbits_bits p : unbits (bits p) = Some p.
Proof.
  induction p as [p IH|p IH|]; simpl; [| |done].
  - destruct (bits p) eqn:E; [by destruct p|]. by rewrite IH.
  - destruct (bits p) eqn:E; [by destruct p|]. by rewrite IH.
Qed.

Definition demo `{Countable A} : Bincode A := {|
  serialize x := bits (encode x);
  deserialize l := unbits l ≫= decode;
|}.

Lemma demo_laws `{Countable A} : @BincodeLaws A demo.
Proof.
  split.
  - intros x. simpl. by rewrite unbits_bits; simpl; rewrite decode_encode.
  - intros x. simpl. destruct (encode x); simpl; lia.
Qed.

(** The same code in bytes. *)
Definition compact `{Countable A} : Bincode A := {|
  serialize x := let z := Zpos (encode x) in le_bytes (Z.to_nat (Z.log2 z / 8 + 1)) z;
  deserialize l := match from_le l with Zpos p => decode p | _ => None end;
|}.
Lemma compact_laws `{Countable A} : @BincodeLaws A compact.
Proof.
  split; intros x; cbn [serialize deserialize compact].
  - rewrite from_le_roundtrip; [by rewrite decode_encode|]. set (z := Zpos (encode x)). assert (Hz : 0 < z) by done. split; [lia|].
    pose proof (Z.log2_nonneg z) as Hl. assert (0 ≤ Z.log2 z / 8) by (apply Z.div_pos; lia).
    rewrite Z2Nat.id by lia. change 256 with (2 ^ 8). rewrite <- Z.pow_mul_r by lia.
    eapply Z.lt_le_trans; [apply (Z.log2_spec z Hz)|]. apply Z.pow_le_mono_r; [lia|].
    pose proof (Z.div_mod (Z.log2 z) 8 ltac:(lia)). pose proof (Z.mod_pos_bound (Z.log2 z) 8 ltac:(lia)). lia.
  - rewrite length_le_bytes. pose proof (Z.log2_nonneg (Zpos (encode x))).
    assert (0 ≤ Z.log2 (Zpos (encode x)) / 8) by (apply Z.div_pos; lia). lia.
Qed.
End DemoCodec.

(** ** Automation *)

Create HintDb rmq.
Create Rewrite HintDb rmq_rw.
#[export] Hint Resolve u64_add_range u64_sub_range length_le_bytes : rmq.
#[export] Hint Rewrite @lookup_insert_eq @lookup_delete_eq @lookup_empty : rmq_rw.

(** Case analysis on the conditionals of a translated function. *)
Ltac case_cond :=
  match goal with
  | |- context [if Z.leb ?a ?b then _ else _] => destruct (Z.leb_spec a b)
  | |- context [if Z.ltb ?a ?b then _ else _] => destruct (Z.ltb_spec a b)
  | |- context [if Z.eqb ?a ?b then _ else _] => destruct (Z.eqb_spec a b)
  | |- context [if decide ?P then _ else _] => destruct (decide P)
  end.

(** Reduce wrapping operations whose operands are in range. *)
Ltac u64 :=
  repeat (rewrite u64_add_small by (unfold is_u64 in *; lia));
  repeat (rewrite u64_sub_small by (unfold is_u64 in *; lia)).
