(* ===== verification/Types.v ===== *)
(** * Shared data types

    The types of [src/src/types.rs] the modelled components exchange:
    partitions, records, WAL records, requests and responses.  A [String] is a
    [string] of bytes, [Bytes] and [Vec<u8>] are [bytes], a [SmallVec] of
    headers is a list. *)

From Stdlib Require Import Ascii.
From S2P Require Import Prelude.
Local Open Scope Z_scope.

Abbreviation BrokerId := string (only parsing).
Abbreviation TopicName := string (only parsing).
Abbreviation PartitionId := Z (only parsing).
Abbreviation Offset := Z (only parsing).

Record TopicPartition := mkTP { tp_topic : TopicName; tp_partition : PartitionId }.

#[global] Instance TopicPartition_eq_dec : EqDecision TopicPartition.
Proof. solve_decision. Defined.
#[global] Program Instance TopicPartition_countable : Countable TopicPartition :=
  inj_countable' (λ t, (tp_topic t, tp_partition t)) (λ p, mkTP p.1 p.2) _.
Next Obligation. by intros []. Qed.

(** [impl Display for TopicPartition] *)
Definition show_tp (tp : TopicPartition) : string :=
  tp_topic tp +:+ ":" +:+ dec (tp_partition tp).

Lemma show_tp_offset_inj tp1 tp2 o1 o2 :
  0 ≤ tp_partition tp1 → 0 ≤ tp_partition tp2 → 0 ≤ o1 → 0 ≤ o2 →
  show_tp tp1 +:+ ":" +:+ dec o1 = show_tp tp2 +:+ ":" +:+ dec o2 → tp1 = tp2 ∧ o1 = o2.
Proof.
  intros ???? E. apply (f_equal (split_on ":"%char)) in E. unfold show_tp in E.
  change (":" +:+ ?x) with (String ":"%char x) in E. rewrite !split_on_app in E.
  rewrite !(split_on_plain _ (dec _)) in E by by apply dec_without.
  apply app_inj_2 in E as [E Eo]; [|done]. apply app_inj_2 in E as [Et Ep]; [|done].
  apply split_on_inj in Et. simplify_eq.
  destruct tp1, tp2; simpl in *. split; [f_equal; [done|]|]; apply dec_inj; congruence.
Qed.

Record Header := mkHeader { h_key : string; h_value : bytes }.
#[global] Instance Header_eq_dec : EqDecision Header.
Proof. solve_decision. Defined.
#[global] Program Instance Header_countable : Countable Header :=
  inj_countable' (λ h, (h_key h, h_value h)) (λ p, mkHeader p.1 p.2) _.
Next Obligation. by intros []. Qed.

Record Record_ := mkRecord {
  r_key : option bytes;
  r_value : bytes;
  r_headers : list Header;
  r_timestamp : Z;
}.
#[global] Instance Record_eq_dec : EqDecision Record_.
Proof. solve_decision. Defined.
#[global] Program Instance Record_countable : Countable Record_ :=
  inj_countable' (λ r, (r_key r, r_value r, r_headers r, r_timestamp r))
                 (λ p, mkRecord p.1.1.1 p.1.1.2 p.1.2 p.2) _.
Next Obligation. by intros []. Qed.

Record WalRecord := mkWal {
  wr_tp : TopicPartition;
  wr_offset : Offset;
  wr_record : Record_;
  wr_crc32 : Z;
}.
#[global] Instance WalRecord_eq_dec : EqDecision WalRecord.
Proof. solve_decision. Defined.
#[global] Program Instance WalRecord_countable : Countable WalRecord :=
  inj_countable' (λ r, (wr_tp r, wr_offset r, wr_record r, wr_crc32 r))
                 (λ p, mkWal p.1.1.1 p.1.1.2 p.1.2 p.2) _.
Next Obligation. by intros []. Qed.

(** [WalRecord::serialize_to_buffer]: the buffer keeps its length. *)
Definition serialize_to_buffer `{!Bincode WalRecord} (r : WalRecord) (buffer : bytes)
  : Result nat * bytes :=
  let serialized := serialize r in
  if decide (length buffer < length serialized)%nat then (Err BufferTooSmall, buffer)
  else (Ok (length serialized), serialized ++ drop (length serialized) buffer).

Inductive AcknowledgmentLevel :=
  | AckNone | AckLeader | AckMajority | AckAll | AckCustom (n : Z).

Inductive DurabilityLevel := LocalOnly | Durable.
#[global] Instance DurabilityLevel_eq_dec : EqDecision DurabilityLevel.
Proof. solve_decision. Defined.

Record ReplicationResult := mkReplicationResult {
  rr_offset : Offset;
  rr_durability : DurabilityLevel;
}.

(** [last_heartbeat] is a [DateTime<Utc>]: nanoseconds since 1970. *)
Record FollowerState := mkFollowerState {
  fs_broker_id : BrokerId;
  fs_last_known_offset : Offset;
  fs_last_heartbeat : Z;
  fs_lag : Z;
}.
#[global] Instance FollowerState_eq_dec : EqDecision FollowerState.
Proof. solve_decision. Defined.

Record ReplicateDataRequest := mkReplicateDataRequest {
  rdr_leader_epoch : Z;
  rdr_topic_partition : TopicPartition;
  rdr_records : list WalRecord;
  rdr_leader_id : BrokerId;
}.

Record ReplicateDataResponse := mkReplicateDataResponse {
  rdp_success : bool;
  rdp_error_code : Z;
  rdp_follower_state : option FollowerState;
}.

Record HeartbeatRequest := mkHeartbeatRequest {
  hb_leader_epoch : Z;
  hb_leader_id : BrokerId;
  hb_topic_partition : TopicPartition;
  hb_high_watermark : Offset;
}.

Record HeartbeatResponse := mkHeartbeatResponse {
  hbp_success : bool;
  hbp_error_code : Z;
  hbp_follower_state : option FollowerState;
}.

Record TransferLeadershipRequest := mkTransferLeadershipRequest {
  tlr_topic_partition : TopicPartition;
  tlr_current_leader_id : BrokerId;
  tlr_current_leader_epoch : Z;
  tlr_new_leader_id : BrokerId;
}.

Record TransferLeadershipResponse := mkTransferLeadershipResponse {
  tlp_success : bool;
  tlp_error_code : Z;
  tlp_new_leader_epoch : option Z;
}.

Record AssignPartitionRequest := mkAssignPartitionRequest {
  apr_topic_partition : TopicPartition;
  apr_replica_set : list BrokerId;
  apr_leader_id : BrokerId;
  apr_leader_epoch : Z;
  apr_controller_id : BrokerId;
}.

(** [AssignPartitionResponse] and [RemovePartitionResponse] *)
Record PartitionResponse := mkPartitionResponse {
  app_success : bool;
  app_error_code : Z;
}.

(** [storage::traits::PhysicalLocation] *)
Record PhysicalLocation := mkLoc {
  wal_segment_seq : Z;
  file_offset : Z;
  frame_len : Z;
}.

(** [storage::traits::WalSegment] *)
Record WalSegment := mkSegment {
  seg_start : Offset;
  seg_end : Offset;
  seg_size_bytes : Z;
  seg_data : bytes;
  seg_tp : TopicPartition;
}.

(** [TryFrom<u8> for RequestType] and the discriminants of the enum. *)
Inductive RequestType :=
  | Produce | Fetch | Metadata | FindCoordinator | JoinGroup
  | ConsumerHeartbeat | CommitOffset | FetchOffset | LeaveGroup.

Definition request_type_code (t : RequestType) : Z :=
  match t with
  | Produce => 1 | Fetch => 2 | Metadata => 3 | FindCoordinator => 4 | JoinGroup => 5
  | ConsumerHeartbeat => 6 | CommitOffset => 7 | FetchOffset => 8 | LeaveGroup => 9
  end.

Definition request_type_try_from (value : Z) : Result RequestType :=
  match value with
  | 1 => Ok Produce | 2 => Ok Fetch | 3 => Ok Metadata | 4 => Ok FindCoordinator
  | 5 => Ok JoinGroup | 6 => Ok ConsumerHeartbeat | 7 => Ok CommitOffset
  | 8 => Ok FetchOffset | 9 => Ok LeaveGroup
  | _ => Err InvalidOperation
  end.

(** ** Storage interfaces: the traits of [src/src/storage/traits.rs] *)

(** The append-side view of the storage engine that replication and the
    consumer-group coordinator are written against. *)
Class RecordLog (S : Type) := {
  rl_append : WalRecord → S → Result unit * S;
  rl_next_offset : S → TopicPartition → Offset;
}.
#[global] Hint Mode RecordLog ! : typeclass_instances.

(** What they rely on: the next offset of a partition never decreases, a
    failed append included, and passes an appended record. *)
Class RecordLogLaws (S : Type) `{!RecordLog S} := {
  rl_append_mono r (s : S) res s' tp : rl_append r s = (res, s') → rl_next_offset s tp ≤ rl_next_offset s' tp;
  rl_append_next r (s : S) s' : 0 ≤ wr_offset r < u64_MAX → rl_append r s = (Ok tt, s') →
    wr_offset r + 1 ≤ rl_next_offset s' (wr_tp r);
  rl_append_u64 r (s : S) res s' : rl_append r s = (res, s') →
    (∀ tp, is_u64 (rl_next_offset s tp)) → ∀ tp, is_u64 (rl_next_offset s' tp);
}.

(** Concrete values the witnesses evaluate on. *)
Module Demo.
Definition tp0 : TopicPartition := mkTP "orders" 0.
Definition tp1 : TopicPartition := mkTP "orders" 1.
Definition rec0 : Record_ := mkRecord (Some [1; 2]) [10; 20; 30] [] 7.
Definition rec1 : Record_ := mkRecord None [42] [mkHeader "h" [9]] 8.
Definition wal (tp : TopicPartition) (o : Offset) (r : Record_) : WalRecord := mkWal tp o r 0.
End Demo.
