(* ===== verification/PartitionIndex.v ===== *)
(** * Per-partition offset index and in-memory hot tier

    Model of [src/src/storage/partition_index.rs].  [PartitionIndex] maps each
    partition to its in-memory records ([hot]), its uploaded ranges ([cold])
    and the next offset; [hot_bytes] is the lock-free byte counter of the
    memory budget.  Every operation below is one critical section of the
    source's [RwLock], so a history of the index is a sequence of these
    operations ([index_step]). *)

From S2P Require Import Prelude Types.
Local Open Scope Z_scope.

Record ObjectRange := mkRange {
  or_end_offset : Offset;
  or_object_key : string;
  or_size_bytes : Z;
}.
#[global] Instance ObjectRange_eq_dec : EqDecision ObjectRange.
Proof. solve_decision. Defined.

Record HotEntry := mkHot { he_record : WalRecord; he_size : Z }.
#[global] Instance HotEntry_eq_dec : EqDecision HotEntry.
Proof. solve_decision. Defined.

Record PartitionEntries := mkEntries {
  pe_hot : gmap Z HotEntry;
  pe_cold : gmap Z ObjectRange;
  pe_next_offset : Offset;
}.
#[global] Instance PartitionEntries_eq_dec : EqDecision PartitionEntries.
Proof. solve_decision. Defined.

Definition default_entries : PartitionEntries := mkEntries ∅ ∅ 0.

Inductive ReadPlan :=
  | Hot (records : list WalRecord)
  | Cold (object_key : string) (start_offset end_offset : Offset)
  | Empty.

Record PartitionIndex := mkIndex {
  pi_inner : gmap TopicPartition PartitionEntries;
  pi_hot_bytes : Z;
}.

(** [storage::cold_index::ColdSegment], which the index hands to compaction. *)
Record ColdSegment := mkCold {
  cs_tp : TopicPartition;
  cs_start : Offset;
  cs_end : Offset;
  cs_key : string;
  cs_size : Z;
}.
#[global] Instance ColdSegment_eq_dec : EqDecision ColdSegment.
Proof. solve_decision. Defined.
#[global] Program Instance ColdSegment_countable : Countable ColdSegment :=
  inj_countable' (λ c, (cs_tp c, cs_start c, cs_end c, cs_key c, cs_size c))
                 (λ p, mkCold p.1.1.1.1 p.1.1.1.2 p.1.1.2 p.1.2 p.2) _.
Next Obligation. by intros []. Qed.

(** ** Operations *)

Definition new : PartitionIndex := mkIndex ∅ 0.

(** [guard.entry(tp.clone()).or_default()] *)
Definition entries_of (idx : PartitionIndex) (tp : TopicPartition) : PartitionEntries :=
  default default_entries (pi_inner idx !! tp).

Definition set_entries (tp : TopicPartition) (e : PartitionEntries) (idx : PartitionIndex)
  : PartitionIndex := mkIndex (<[tp:=e]> (pi_inner idx)) (pi_hot_bytes idx).

Definition fetch_add (n : Z) (idx : PartitionIndex) : PartitionIndex :=
  mkIndex (pi_inner idx) (u64_add (pi_hot_bytes idx) n).
Definition fetch_sub (n : Z) (idx : PartitionIndex) : PartitionIndex :=
  mkIndex (pi_inner idx) (u64_sub (pi_hot_bytes idx) n).

Definition insert_hot (tp : TopicPartition) (offset : Offset) (record : WalRecord) (size : Z)
    (idx : PartitionIndex) : PartitionIndex :=
  let entries := entries_of idx tp in
  let idx1 := match pe_hot entries !! offset with
              | Some old => fetch_sub (he_size old) idx
              | None => idx
              end in
  set_entries tp
    (mkEntries (<[offset := mkHot record size]> (pe_hot entries)) (pe_cold entries)
       (Z.max (pe_next_offset entries) (u64_add offset 1)))
    (fetch_add size idx1).

Definition remove_hot (tp : TopicPartition) (offset : Offset) (idx : PartitionIndex)
  : PartitionIndex :=
  match pi_inner idx !! tp with
  | Some entries =>
      match pe_hot entries !! offset with
      | Some old =>
          fetch_sub (he_size old)
            (set_entries tp (mkEntries (delete offset (pe_hot entries)) (pe_cold entries)
                               (pe_next_offset entries)) idx)
      | None => idx
      end
  | None => idx
  end.

(** [BTreeMap::range(s..e)] panics when [s > e]: [None]. *)
Definition flip_to_cold (tp : TopicPartition) (start_offset end_offset : Offset)
    (object_key : string) (size_bytes : Z) (idx : PartitionIndex) : option PartitionIndex :=
  if end_offset <? start_offset then None else
  let entries := entries_of idx tp in
  let freed := msum he_size (range_entries start_offset end_offset (pe_hot entries))
               mod u64_modulus in
  let idx1 := if 0 <? freed then fetch_sub freed idx else idx in
  Some (set_entries tp
    (mkEntries (remove_range start_offset end_offset (pe_hot entries))
       (<[start_offset := mkRange end_offset object_key size_bytes]> (pe_cold entries))
       (Z.max (pe_next_offset entries) end_offset)) idx1).

Definition insert_cold (tp : TopicPartition) (start_offset end_offset : Offset)
    (object_key : string) (size_bytes : Z) (idx : PartitionIndex) : PartitionIndex :=
  let entries := entries_of idx tp in
  set_entries tp
    (mkEntries (pe_hot entries)
       (<[start_offset := mkRange end_offset object_key size_bytes]> (pe_cold entries))
       (Z.max (pe_next_offset entries) end_offset)) idx.

Definition replace_cold (tp : TopicPartition) (start_offset end_offset : Offset)
    (object_key : string) (size_bytes : Z) (idx : PartitionIndex) : option PartitionIndex :=
  if end_offset <? start_offset then None else
  let entries := entries_of idx tp in
  Some (set_entries tp
    (mkEntries (pe_hot entries)
       (<[start_offset := mkRange end_offset object_key size_bytes]>
          (remove_range start_offset end_offset (pe_cold entries)))
       (Z.max (pe_next_offset entries) end_offset)) idx).

Definition hot_bytes (idx : PartitionIndex) : Z := pi_hot_bytes idx.

Definition next_offset (idx : PartitionIndex) (tp : TopicPartition) : Offset :=
  from_option pe_next_offset 0 (pi_inner idx !! tp).

(** The [while let Some(entry) = entries.hot.get(&cur)] loop of [read_plan];
    it visits distinct keys, so the number of entries bounds it. *)
Fixpoint hot_run (fuel : nat) (hot : gmap Z HotEntry) (max_bytes : Z)
    (records : list WalRecord) (bytes_acc : Z) (cur : Offset) : list WalRecord :=
  match fuel with
  | O => records
  | S fuel =>
      match hot !! cur with
      | None => records
      | Some entry =>
          let next_bytes := u64_add bytes_acc (he_size entry) in
          if bool_decide (records ≠ []) && (max_bytes <? next_bytes) then records
          else hot_run fuel hot max_bytes (records ++ [he_record entry]) next_bytes
                 (u64_add cur 1)
      end
  end.

Definition read_plan (idx : PartitionIndex) (tp : TopicPartition) (offset : Offset)
    (max_bytes : Z) : ReadPlan :=
  match pi_inner idx !! tp with
  | None => Empty
  | Some entries =>
      if pe_next_offset entries <=? offset then Empty
      else if bool_decide (is_Some (pe_hot entries !! offset)) then
        Hot (hot_run (S (size (pe_hot entries))) (pe_hot entries) max_bytes [] 0 offset)
      else match floor_entry offset (pe_cold entries) with
           | Some (start, range) =>
               if offset <? or_end_offset range
               then Cold (or_object_key range) start (or_end_offset range)
               else Empty
           | None => Empty
           end
  end.

(** Partition keys; the source's hash order is some permutation of this. *)
Definition get_partitions (idx : PartitionIndex) : list TopicPartition :=
  (map_to_list (pi_inner idx)).*1.

Definition get_cold_segments (idx : PartitionIndex) (tp : TopicPartition) : list ColdSegment :=
  match pi_inner idx !! tp with
  | Some entries =>
      (λ '(start, range), mkCold tp start (or_end_offset range) (or_object_key range)
                            (or_size_bytes range)) <$> btree_to_list (pe_cold entries)
  | None => []
  end.

(** ** Histories of the index *)

Inductive index_op :=
  | OpInsertHot (tp : TopicPartition) (o : Offset) (r : WalRecord) (size : Z)
  | OpRemoveHot (tp : TopicPartition) (o : Offset)
  | OpFlipToCold (tp : TopicPartition) (s e : Offset) (k : string) (size : Z)
  | OpInsertCold (tp : TopicPartition) (s e : Offset) (k : string) (size : Z)
  | OpReplaceCold (tp : TopicPartition) (s e : Offset) (k : string) (size : Z).

Definition op_tp (op : index_op) : TopicPartition :=
  match op with
  | OpInsertHot tp _ _ _ | OpRemoveHot tp _ | OpFlipToCold tp _ _ _ _
  | OpInsertCold tp _ _ _ _ | OpReplaceCold tp _ _ _ _ => tp
  end.

Definition run_op (op : index_op) (idx : PartitionIndex) : option PartitionIndex :=
  match op with
  | OpInsertHot tp o r sz => Some (insert_hot tp o r sz idx)
  | OpRemoveHot tp o => Some (remove_hot tp o idx)
  | OpFlipToCold tp s e k sz => flip_to_cold tp s e k sz idx
  | OpInsertCold tp s e k sz => Some (insert_cold tp s e k sz idx)
  | OpReplaceCold tp s e k sz => replace_cold tp s e k sz idx
  end.

Inductive index_step : PartitionIndex → PartitionIndex → Prop :=
  | index_step_op op idx idx' : run_op op idx = Some idx' → index_step idx idx'.

Definition reachable (idx : PartitionIndex) : Prop := rtc index_step new idx.

(** ** Accounting of the byte counter *)

Definition entries_bytes (e : PartitionEntries) : Z := msum he_size (pe_hot e).
Definition total_hot_bytes (idx : PartitionIndex) : Z := msum entries_bytes (pi_inner idx).

Definition accounted (idx : PartitionIndex) : Prop :=
  pi_hot_bytes idx = total_hot_bytes idx mod u64_modulus.

Lemma entries_bytes_default idx tp :
  from_option entries_bytes 0 (pi_inner idx !! tp) = entries_bytes (entries_of idx tp).
Proof.
  unfold entries_of. destruct (pi_inner idx !! tp); simpl; [done|].
  unfold entries_bytes, default_entries. simpl. by rewrite msum_empty.
Qed.

Lemma total_set_entries tp e idx :
  total_hot_bytes (set_entries tp e idx)
  = total_hot_bytes idx + entries_bytes e - entries_bytes (entries_of idx tp).
Proof.
  unfold total_hot_bytes, set_entries. simpl. rewrite msum_insert, entries_bytes_default. lia.
Qed.

Lemma insert_hot_accounted tp o r sz idx : accounted idx → accounted (insert_hot tp o r sz idx).
Proof.
  unfold accounted, insert_hot. intros Ha.
  assert (Hins : ∀ n, entries_bytes (mkEntries (<[o:=mkHot r sz]> (pe_hot (entries_of idx tp)))
                                      (pe_cold (entries_of idx tp)) n)
                 = sz + entries_bytes (entries_of idx tp)
                   - from_option he_size 0 (pe_hot (entries_of idx tp) !! o)).
  { intros. unfold entries_bytes. simpl. by rewrite msum_insert. }
  destruct (pe_hot (entries_of idx tp) !! o) as [old|] eqn:E; simpl in Hins.
  - rewrite total_set_entries, Hins.
    change (total_hot_bytes (fetch_add _ _)) with (total_hot_bytes idx).
    change (entries_of (fetch_add _ _) tp) with (entries_of idx tp).
    simpl. rewrite Ha, u64_sub_mod, u64_add_mod. f_equal. lia.
  - rewrite total_set_entries, Hins.
    change (total_hot_bytes (fetch_add _ _)) with (total_hot_bytes idx).
    change (entries_of (fetch_add _ _) tp) with (entries_of idx tp).
    simpl. rewrite Ha, u64_add_mod. f_equal. lia.
Qed.

Lemma remove_hot_accounted tp o idx : accounted idx → accounted (remove_hot tp o idx).
Proof.
  unfold accounted, remove_hot. intros Ha.
  destruct (pi_inner idx !! tp) as [e|] eqn:E; [|done].
  destruct (pe_hot e !! o) as [old|] eqn:Eo; [|done].
  assert (He : entries_of idx tp = e) by (unfold entries_of; by rewrite E).
  change (total_hot_bytes (fetch_sub _ ?i)) with (total_hot_bytes i).
  rewrite total_set_entries, He. simpl.
  assert (entries_bytes (mkEntries (delete o (pe_hot e)) (pe_cold e) (pe_next_offset e))
          = entries_bytes e - he_size old) as ->.
  { unfold entries_bytes. simpl. by rewrite msum_delete', Eo. }
  rewrite Ha, u64_sub_mod. f_equal. lia.
Qed.

Lemma set_entries_accounted_same tp e idx :
  entries_bytes e = entries_bytes (entries_of idx tp) →
  accounted idx → accounted (set_entries tp e idx).
Proof.
  unfold accounted. intros He Ha. rewrite total_set_entries, He.
  simpl. rewrite Ha. f_equal. lia.
Qed.

Lemma range_bytes_split s e hot :
  msum he_size hot = msum he_size (range_entries s e hot) + msum he_size (remove_range s e hot).
Proof. apply msum_filter_split. Qed.

Lemma flip_to_cold_accounted tp s e k sz idx idx' :
  flip_to_cold tp s e k sz idx = Some idx' → accounted idx → accounted idx'.
Proof.
  unfold flip_to_cold. destruct (e <? s); [done|]. intros [= <-] Ha.
  set (hot := pe_hot (entries_of idx tp)).
  pose proof (range_bytes_split s e hot) as Hs.
  set (freed := msum he_size (range_entries s e hot)) in *.
  assert (Hhb : pi_hot_bytes (if 0 <? freed mod u64_modulus
                              then fetch_sub (freed mod u64_modulus) idx else idx)
                = (total_hot_bytes idx - freed) mod u64_modulus).
  { destruct (Z.ltb_spec 0 (freed mod u64_modulus)) as [?|Hle]; simpl; rewrite Ha.
    - by rewrite u64_sub_mod, Zminus_mod_idemp_r.
    - pose proof (Z.mod_pos_bound freed u64_modulus u64_modulus_pos).
      rewrite <- (Zminus_mod_idemp_r _ freed). f_equal. lia. }
  unfold accounted. simpl. rewrite Hhb. f_equal.
  unfold total_hot_bytes. simpl.
  assert (Hin : pi_inner (if 0 <? freed mod u64_modulus
                          then fetch_sub (freed mod u64_modulus) idx else idx) = pi_inner idx)
    by by destruct (0 <? _).
  rewrite Hin, msum_insert, entries_bytes_default. unfold entries_bytes at 2 4. simpl.
  fold hot. lia.
Qed.

Lemma run_op_accounted op idx idx' : run_op op idx = Some idx' → accounted idx → accounted idx'.
Proof.
  destruct op; simpl; intros Hr Ha; simplify_eq.
  - by apply insert_hot_accounted.
  - by apply remove_hot_accounted.
  - by eapply flip_to_cold_accounted.
  - by apply set_entries_accounted_same.
  - unfold replace_cold in Hr. destruct (e <? s); simplify_eq. by apply set_entries_accounted_same.
Qed.

Lemma new_accounted : accounted new.
Proof. unfold accounted, total_hot_bytes. simpl. by rewrite msum_empty. Qed.

(** ** Non-interference between partitions *)

Definition run_ops (ops : list index_op) (idx : PartitionIndex) : option PartitionIndex :=
  foldl (λ acc op, i ← acc; run_op op i) (Some idx) ops.

Lemma run_ops_cons op ops idx : run_ops (op :: ops) idx = run_op op idx ≫= run_ops ops.
Proof.
  unfold run_ops. simpl. destruct (run_op op idx); simpl; [done|].
  by induction ops.
Qed.

Lemma run_op_other op idx idx' tp' :
  run_op op idx = Some idx' → op_tp op ≠ tp' → pi_inner idx' !! tp' = pi_inner idx !! tp'.
Proof.
  intros Hr Hne. destruct op; simpl in *; simplify_eq.
  - unfold insert_hot. destruct (pe_hot _ !! _); simpl; by rewrite lookup_insert_ne.
  - unfold remove_hot. repeat case_match; simpl; [by rewrite lookup_insert_ne|done..].
  - unfold flip_to_cold in Hr. destruct (e <? s); simplify_eq. simpl.
    rewrite lookup_insert_ne by done. by destruct (0 <? _).
  - simpl. by rewrite lookup_insert_ne.
  - unfold replace_cold in Hr. destruct (e <? s); simplify_eq. simpl. by rewrite lookup_insert_ne.
Qed.

Lemma entries_of_congr i1 i2 tp :
  pi_inner i1 !! tp = pi_inner i2 !! tp → entries_of i1 tp = entries_of i2 tp.
Proof. unfold entries_of. by intros ->. Qed.

Lemma run_op_congr op i1 i2 i1' :
  pi_inner i1 !! op_tp op = pi_inner i2 !! op_tp op → run_op op i1 = Some i1' →
  ∃ i2', run_op op i2 = Some i2' ∧ pi_inner i1' !! op_tp op = pi_inner i2' !! op_tp op.
Proof.
  intros Hi Hr. pose proof (entries_of_congr _ _ _ Hi) as He.
  destruct op; simpl in *; simplify_eq.
  - eexists; split; [done|]. unfold insert_hot. rewrite He.
    destruct (pe_hot (entries_of i2 tp) !! o); simpl; by rewrite !lookup_insert_eq.
  - eexists; split; [done|]. unfold remove_hot. rewrite Hi.
    repeat case_match; simpl; rewrite ?lookup_insert_eq; congruence.
  - unfold flip_to_cold in *. destruct (e <? s); simplify_eq.
    eexists; split; [done|]. rewrite He. simpl. by rewrite !lookup_insert_eq.
  - eexists; split; [done|]. simpl. rewrite He. by rewrite !lookup_insert_eq.
  - unfold replace_cold in *. destruct (e <? s); simplify_eq.
    eexists; split; [done|]. rewrite He. simpl. by rewrite !lookup_insert_eq.
Qed.

Lemma run_ops_project tp ops i1 i2 i1' :
  pi_inner i1 !! tp = pi_inner i2 !! tp → run_ops ops i1 = Some i1' →
  ∃ i2', run_ops (filter (λ op, op_tp op = tp) ops) i2 = Some i2' ∧
         pi_inner i1' !! tp = pi_inner i2' !! tp.
Proof.
  revert i1 i2. induction ops as [|op ops IH]; intros i1 i2 Hi Hr.
  { unfold run_ops in *. simpl in *. simplify_eq. by exists i2. }
  rewrite run_ops_cons in Hr. destruct (run_op op i1) as [j1|] eqn:E; [|done]. simpl in Hr.
  rewrite filter_cons. case_decide as Htp.
  - subst tp. destruct (run_op_congr op i1 i2 j1) as (j2 & Hj2 & Hj); [done..|].
    rewrite run_ops_cons, Hj2. simpl. eauto.
  - eapply IH; [|done]. by rewrite <- Hi, (run_op_other op i1 j1 tp).
Qed.

Lemma observers_congr i1 i2 tp :
  pi_inner i1 !! tp = pi_inner i2 !! tp →
  (∀ o mb, read_plan i1 tp o mb = read_plan i2 tp o mb) ∧
  next_offset i1 tp = next_offset i2 tp ∧
  get_cold_segments i1 tp = get_cold_segments i2 tp.
Proof. unfold read_plan, next_offset, get_cold_segments. by intros ->. Qed.

(** ** Well-formed entries *)

Record entries_wf (e : PartitionEntries) : Prop := {
  wf_next : is_u64 (pe_next_offset e);
  wf_hot o h : pe_hot e !! o = Some h → 0 ≤ o < pe_next_offset e ∧ 0 ≤ he_size h;
  wf_hot_bytes : msum he_size (pe_hot e) < u64_modulus;
  wf_cold s r : pe_cold e !! s = Some r → 0 ≤ s < or_end_offset r ∧ or_end_offset r ≤ pe_next_offset e;
  wf_disjoint s1 r1 s2 r2 :
    pe_cold e !! s1 = Some r1 → pe_cold e !! s2 = Some r2 → s1 < s2 → or_end_offset r1 ≤ s2;
}.

Definition index_wf (idx : PartitionIndex) : Prop :=
  ∀ tp e, pi_inner idx !! tp = Some e → entries_wf e.

Lemma default_entries_wf : entries_wf default_entries.
Proof.
  split; simpl; try done.
Qed.

Lemma entries_of_wf idx tp : index_wf idx → entries_wf (entries_of idx tp).
Proof.
  intros Hw. unfold entries_of. destruct (pi_inner idx !! tp) eqn:E; simpl.
  - by eapply Hw.
  - apply default_entries_wf.
Qed.

(** ** The hot run *)

(** [run_of hot max o es]: [es] is what [read_plan] must serve from [hot] at
    [o]: consecutive offsets, at least one record, within the byte budget
    unless alone, and maximal. *)
Record run_of (hot : gmap Z HotEntry) (max_bytes : Z) (o : Offset) (es : list HotEntry) : Prop := {
  run_nonempty : es ≠ [];
  run_consecutive i h : es !! i = Some h → hot !! (o + Z.of_nat i) = Some h;
  run_budget : length es = 1%nat ∨ zsum he_size es ≤ max_bytes;
  run_maximal h : hot !! (o + Z.of_nat (length es)) = Some h →
    max_bytes < zsum he_size es + he_size h;
}.

Lemma size_filter_ge_lt (hot : gmap Z HotEntry) (cur : Z) (h : HotEntry) :
  hot !! cur = Some h →
  (size (filter (λ kv : Z * HotEntry, (cur + 1 ≤ kv.1)%Z) hot)
   < size (filter (λ kv : Z * HotEntry, (cur ≤ kv.1)%Z) hot))%nat.
Proof.
  intros Hc.
  assert (delete cur (filter (λ kv : Z * HotEntry, (cur ≤ kv.1)%Z) hot)
          = filter (λ kv : Z * HotEntry, (cur + 1 ≤ kv.1)%Z) hot) as <-.
  { apply map_eq. intros k. apply option_eq. intros x.
    rewrite lookup_delete_Some, !map_lookup_filter_Some. simpl. naive_solver lia. }
  assert (Hs : filter (λ kv : Z * HotEntry, (cur ≤ kv.1)%Z) hot !! cur = Some h)
    by (apply map_lookup_filter_Some; simpl; split; [done|lia]).
  rewrite (map_size_delete_Some cur); [|eauto].
  assert (size (filter (λ kv : Z * HotEntry, (cur ≤ kv.1)%Z) hot) ≠ 0%nat); [|lia].
  intros Hz%map_size_empty_inv. by rewrite Hz, lookup_empty in Hs.
Qed.

Section hot_run.
Context (e : PartitionEntries) (Hwf : entries_wf e) (max_bytes : Z) (o : Offset).
Notation hot := (pe_hot e).

(** Consecutive entries of [hot] weigh at most the whole map. *)
Lemma consecutive_bytes es :
  (∀ i h, es !! i = Some h → hot !! (o + Z.of_nat i) = Some h) →
  0 ≤ zsum he_size es ≤ msum he_size hot.
Proof using Hwf.
  intros Hes. split.
  { apply zsum_nonneg, Forall_lookup. intros i h Hi. apply Hes in Hi. by destruct (wf_hot _ Hwf _ _ Hi). }
  assert (Hpos : map_Forall (λ _ h, 0 ≤ he_size h) hot).
  { intros k h Hk. by destruct (wf_hot _ Hwf _ _ Hk). }
  revert Hpos o Hes. generalize hot. clear.
  induction es as [|h es IH]; intros m Hpos o Hes; simpl.
  - rewrite zsum_nil. by apply msum_nonneg.
  - rewrite zsum_cons.
    assert (Ho : m !! o = Some h) by (specialize (Hes 0%nat h eq_refl); by rewrite Z.add_0_r in Hes).
    rewrite (msum_delete he_size m o h) by done.
    assert (zsum he_size es ≤ msum he_size (delete o m)); [|lia].
    apply IH with (o := o + 1).
    + by apply map_Forall_delete.
    + intros i h' Hi. apply lookup_delete_Some. split; [lia|].
      specialize (Hes (S i) h' Hi). by replace (o + 1 + Z.of_nat i) with (o + Z.of_nat (S i)) by lia.
Qed.

Lemma hot_run_spec fuel es cur :
  (size (filter (λ kv : Z * HotEntry, (cur ≤ kv.1)%Z) hot) < fuel)%nat →
  cur = o + Z.of_nat (length es) →
  (∀ i h, es !! i = Some h → hot !! (o + Z.of_nat i) = Some h) →
  (es = [] → is_Some (hot !! o)) →
  (length es ≤ 1)%nat ∨ zsum he_size es ≤ max_bytes →
  ∃ es', hot_run fuel hot max_bytes (he_record <$> es) (zsum he_size es) cur = he_record <$> es'
         ∧ run_of hot max_bytes o es'.
Proof using Hwf.
  revert es cur. induction fuel as [|fuel IH]; intros es cur Hf Hcur Hes Hne Hb; [lia|].
  simpl. destruct (hot !! cur) as [h|] eqn:Ec.
  - assert (Hcons : ∀ i h', (es ++ [h]) !! i = Some h' → hot !! (o + Z.of_nat i) = Some h').
    { intros i h' [Hi|[Hi1 Hi2]]%lookup_app_Some; [auto|].
      apply list_lookup_singleton_Some in Hi2 as [? ->].
      by replace (o + Z.of_nat i) with cur by lia. }
    pose proof (consecutive_bytes _ Hcons) as Hbytes. rewrite zsum_snoc in Hbytes.
    pose proof (wf_hot_bytes _ Hwf). rewrite u64_add_small by lia.
    assert (Hstop : bool_decide (he_record <$> es ≠ []) = bool_decide (es ≠ [])).
    { apply bool_decide_ext. by destruct es. }
    rewrite Hstop. clear Hstop. case_bool_decide as Hes'; simpl.
    + destruct (Z.ltb_spec max_bytes (zsum he_size es + he_size h)).
      * exists es. split; [done|]. split; auto.
        -- destruct es as [|? []]; simpl in *; [done|by left|]. destruct Hb; [lia|by right].
        -- intros h'. replace (o + Z.of_nat (length es)) with cur by lia. intros; simplify_eq. lia.
      * destruct (wf_hot _ Hwf _ _ Ec) as [? _]. pose proof (wf_next _ Hwf) as [_ ?].
        rewrite u64_add_small by lia.
        destruct (IH (es ++ [h]) (cur + 1)) as (es' & He' & Hrun).
        -- pose proof (size_filter_ge_lt _ _ _ Ec). lia.
        -- rewrite length_app. simpl. lia.
        -- done.
        -- by destruct es.
        -- right. rewrite zsum_snoc. lia.
        -- exists es'. split; [|done]. rewrite <- He'. f_equal.
           ++ by rewrite fmap_app.
           ++ rewrite zsum_snoc. lia.
    + destruct es; [|done]. simpl in *.
      destruct (wf_hot _ Hwf _ _ Ec) as [? _]. pose proof (wf_next _ Hwf) as [_ ?].
      rewrite u64_add_small by lia.
      destruct (IH [h] (cur + 1)) as (es' & He' & Hrun); simpl; auto.
      * pose proof (size_filter_ge_lt _ _ _ Ec). lia.
      * lia.
      * exists es'. split; [|done]. rewrite <- He'. f_equal. by rewrite zsum_cons, zsum_nil, Z.add_comm.
  - exists es. split; [done|]. split; auto.
    + intros ->. destruct (Hne eq_refl) as [? ?]. simpl in *.
      replace cur with o in Ec by lia. congruence.
    + destruct es as [|? []]; simpl in *; [|by left|].
      * destruct (Hne eq_refl) as [? ?]. replace cur with o in Ec by lia. congruence.
      * destruct Hb; [lia|by right].
    + intros h. replace (o + Z.of_nat (length es)) with cur by lia. congruence.
Qed.
End hot_run.

Lemma read_plan_hot idx tp o mb e h :
  pi_inner idx !! tp = Some e → entries_wf e → pe_hot e !! o = Some h →
  ∃ es, read_plan idx tp o mb = Hot (he_record <$> es) ∧ run_of (pe_hot e) mb o es.
Proof.
  intros He Hwf Ho. unfold read_plan. rewrite He.
  destruct (wf_hot _ Hwf _ _ Ho) as [? _].
  rewrite (proj2 (Z.leb_gt _ _)) by lia. rewrite bool_decide_eq_true_2 by eauto.
  assert (size (filter (λ kv : Z * HotEntry, (o ≤ kv.1)%Z) (pe_hot e)) ≤ size (pe_hot e))%nat
    by apply map_subseteq_size, map_filter_subseteq.
  destruct (hot_run_spec e Hwf mb o (S (size (pe_hot e))) [] o) as (es & Hes & Hrun).
  - lia.
  - simpl. lia.
  - intros i h'. by rewrite lookup_nil.
  - eauto.
  - simpl. auto with lia.
  - exists es. by rewrite <- Hes.
Qed.

(** ** Where an offset is served from *)

(** The first record of a plan, or the object the plan points to. *)
Definition plan_source (p : ReadPlan) : option (WalRecord + string * Offset * Offset) :=
  match p with
  | Hot rs => inl <$> head rs
  | Cold k s e => Some (inr (k, s, e))
  | Empty => None
  end.

Definition source (e : PartitionEntries) (o : Offset)
  : option (WalRecord + string * Offset * Offset) :=
  match pe_hot e !! o with
  | Some h => Some (inl (he_record h))
  | None =>
      match floor_entry o (pe_cold e) with
      | Some (s, r) => if o <? or_end_offset r then Some (inr (or_object_key r, s, or_end_offset r))
                       else None
      | None => None
      end
  end.

(** [covers e s r o]: the cold range [r] starting at [s] holds offset [o]. *)
Definition covers (e : PartitionEntries) (s : Offset) (r : ObjectRange) (o : Offset) : Prop :=
  pe_cold e !! s = Some r ∧ s ≤ o < or_end_offset r.

Lemma covers_floor e s r o :
  entries_wf e → covers e s r o → floor_entry o (pe_cold e) = Some (s, r).
Proof.
  intros Hwf [Hs ?]. apply floor_entry_Some. split; [done|]. split; [lia|].
  intros s' r' Hs' ?. destruct (decide (s' ≤ s)); [done|].
  pose proof (wf_disjoint _ Hwf _ _ _ _ Hs Hs'). lia.
Qed.

Lemma source_covers e s r o :
  entries_wf e → pe_hot e !! o = None → covers e s r o →
  source e o = Some (inr (or_object_key r, s, or_end_offset r)).
Proof.
  intros Hwf Hh Hc. unfold source. rewrite Hh, (covers_floor e s r o) by done.
  destruct Hc as [_ ?]. by rewrite (proj2 (Z.ltb_lt _ _)) by lia.
Qed.

Lemma source_None e o :
  entries_wf e → pe_hot e !! o = None → (∀ s r, ¬ covers e s r o) → source e o = None.
Proof.
  intros Hwf Hh Hc. unfold source. rewrite Hh.
  destruct (floor_entry o (pe_cold e)) as [[s r]|] eqn:E; [|done].
  apply floor_entry_Some in E as (Hs & ? & _).
  destruct (Z.ltb_spec o (or_end_offset r)); [|done]. by destruct (Hc s r).
Qed.

(** Every offset is hot, covered, or in neither tier. *)
Lemma source_cases e o :
  entries_wf e →
  (∃ h, pe_hot e !! o = Some h) ∨
  (pe_hot e !! o = None ∧ ∃ s r, covers e s r o) ∨
  (pe_hot e !! o = None ∧ ∀ s r, ¬ covers e s r o).
Proof.
  intros Hwf. destruct (pe_hot e !! o) as [h|] eqn:Eh; [eauto|].
  right. destruct (floor_entry o (pe_cold e)) as [[s r]|] eqn:E.
  - apply floor_entry_Some in E as (Hs & ? & Hmax).
    destruct (decide (o < or_end_offset r)).
    + left. split; [done|]. by exists s, r.
    + right. split; [done|]. intros s' r' Hc.
      pose proof (covers_floor _ _ _ _ Hwf Hc) as Hf. apply floor_entry_Some in Hf as (Hs' & ? & Hmax').
      assert (s = s') as -> by (apply Z.le_antisymm; eauto). destruct Hc as [_ ?].
      assert (r = r') as -> by congruence. lia.
  - right. split; [done|]. intros s r [Hs ?]. eapply floor_entry_None in E; [|done]. lia.
Qed.

Lemma read_plan_not_hot idx tp o mb :
  index_wf idx → pe_hot (entries_of idx tp) !! o = None →
  read_plan idx tp o mb =
    match source (entries_of idx tp) o with
    | Some (inr (k, s, e)) => Cold k s e
    | _ => Empty
    end.
Proof.
  intros Hwf Hh. pose proof (entries_of_wf idx tp Hwf) as He.
  destruct (source_cases (entries_of idx tp) o He) as [[? ?]|[(_ & s & r & Hc)|[_ Hn]]]; [congruence| |].
  - rewrite (source_covers _ s r) by done. pose proof (covers_floor _ _ _ _ He Hc) as Hf.
    destruct Hc as [Hs ?]. pose proof (wf_cold _ He _ _ Hs).
    unfold read_plan, entries_of in *. destruct (pi_inner idx !! tp) as [e|]; simpl in *; [|done].
    rewrite (proj2 (Z.leb_gt _ _)) by lia. rewrite Hh, bool_decide_eq_false_2 by by intros [].
    rewrite Hf. by rewrite (proj2 (Z.ltb_lt _ _)) by lia.
  - rewrite (source_None _ _ He Hh Hn).
    unfold read_plan, entries_of in *. destruct (pi_inner idx !! tp) as [e|]; simpl in *; [|done].
    destruct (pe_next_offset e <=? o); [done|].
    rewrite Hh, bool_decide_eq_false_2 by by intros [].
    destruct (floor_entry o (pe_cold e)) as [[s r]|] eqn:E; [|done].
    apply floor_entry_Some in E as (Hs & ? & _).
    destruct (Z.ltb_spec o (or_end_offset r)); [|done]. by destruct (Hn s r).
Qed.

Lemma read_plan_source idx tp o mb :
  index_wf idx → plan_source (read_plan idx tp o mb) = source (entries_of idx tp) o.
Proof.
  intros Hwf. destruct (pe_hot (entries_of idx tp) !! o) as [h|] eqn:Eh.
  - destruct (pi_inner idx !! tp) as [e|] eqn:E;
      unfold entries_of in *; rewrite E in Eh |- *; simpl in *; [|done].
    destruct (read_plan_hot idx tp o mb e h) as (es & -> & Hrun); [done|by eapply Hwf|done|].
    unfold source. rewrite Eh. simpl. pose proof (run_nonempty _ _ _ _ Hrun).
    destruct es as [|h' es]; [done|]. simpl.
    pose proof (run_consecutive _ _ _ _ Hrun 0%nat h' eq_refl) as Hh'.
    rewrite Z.add_0_r in Hh'. congruence.
  - rewrite read_plan_not_hot by done. destruct (source _ o) as [[w|[[k s] e]]|] eqn:E; [|done..].
    unfold source in E. rewrite Eh in E. by repeat case_match.
Qed.

(** ** Well-formedness is preserved

    [op_ok] is what the callers guarantee: offsets below [u64::MAX], record
    sizes that fit the byte counter, and non-empty cold ranges that are
    disjoint from every other range of the partition (a compacted range may
    swallow the ranges that start inside it). *)

Definition op_ok (op : index_op) (idx : PartitionIndex) : Prop :=
  match op with
  | OpInsertHot tp o _ size =>
      0 ≤ o < u64_MAX ∧ 0 ≤ size ∧
      msum he_size (pe_hot (entries_of idx tp)) + size < u64_modulus
  | OpRemoveHot _ _ => True
  | OpFlipToCold tp s e _ _ | OpInsertCold tp s e _ _ =>
      0 ≤ s < e ∧ e < u64_modulus ∧
      ∀ s' r', pe_cold (entries_of idx tp) !! s' = Some r' → s' = s ∨ or_end_offset r' ≤ s ∨ e ≤ s'
  | OpReplaceCold tp s e _ _ =>
      0 ≤ s < e ∧ e < u64_modulus ∧
      ∀ s' r', pe_cold (entries_of idx tp) !! s' = Some r' → s' < s → or_end_offset r' ≤ s
  end.

Inductive ok_step : PartitionIndex → PartitionIndex → Prop :=
  | ok_step_op op idx idx' : op_ok op idx → run_op op idx = Some idx' → ok_step idx idx'.

Lemma set_entries_wf tp e idx : entries_wf e → index_wf idx → index_wf (set_entries tp e idx).
Proof.
  intros He Hwf tp' e'. unfold set_entries. simpl.
  rewrite lookup_insert_Some. naive_solver.
Qed.

Lemma msum_remove_range_le s e (hot : gmap Z HotEntry) :
  map_Forall (λ _ h, 0 ≤ he_size h) hot →
  msum he_size (remove_range s e hot) ≤ msum he_size hot.
Proof.
  intros Hp. rewrite (range_bytes_split s e hot).
  assert (0 ≤ msum he_size (range_entries s e hot)); [|lia].
  apply msum_nonneg. intros k h [? _]%lookup_range_entries. by eapply Hp.
Qed.

Lemma wf_hot_nonneg e : entries_wf e → map_Forall (λ _ h, 0 ≤ he_size h) (pe_hot e).
Proof. intros Hwf k h Hk. by destruct (wf_hot _ Hwf _ _ Hk). Qed.

(** Adding a cold range disjoint from the ranges [cold] keeps the entries
    well formed, whatever part of the hot tier is kept. *)
Lemma add_cold_wf e hot cold s en k sz :
  entries_wf e → hot ⊆ pe_hot e → cold ⊆ pe_cold e → msum he_size hot < u64_modulus →
  0 ≤ s < en → en < u64_modulus →
  (∀ s' r', cold !! s' = Some r' → s' = s ∨ or_end_offset r' ≤ s ∨ en ≤ s') →
  entries_wf (mkEntries hot (<[s:=mkRange en k sz]> cold) (Z.max (pe_next_offset e) en)).
Proof.
  intros Hwf Hhot Hcold Hb Hs Hen Hdis. pose proof (wf_next _ Hwf) as [? ?].
  split; simpl.
  - unfold is_u64. lia.
  - intros o h Ho. destruct (wf_hot _ Hwf o h); [by eapply lookup_weaken|]. lia.
  - done.
  - intros s' r'. destruct (decide (s' = s)) as [->|].
    + rewrite lookup_insert_eq. intros [= <-]. simpl. lia.
    + rewrite lookup_insert_ne by done. intros Hs'.
      destruct (wf_cold _ Hwf s' r'); [by eapply lookup_weaken|]. lia.
  - intros s1 r1 s2 r2. destruct (decide (s1 = s)) as [->|], (decide (s2 = s)) as [->|];
      rewrite ?lookup_insert_eq, ?lookup_insert_ne by done; intros H1 H2 ?; simplify_eq; simpl.
    + lia.
    + destruct (Hdis _ _ H2) as [|[|]]; [done| |lia].
      destruct (wf_cold _ Hwf s2 r2); [by eapply lookup_weaken|]. lia.
    + destruct (Hdis _ _ H1) as [|[|]]; [done|lia|lia].
    + eapply (wf_disjoint _ Hwf s1 r1 s2 r2); [by eapply lookup_weaken..|done].
Qed.

Lemma insert_hot_wf tp o r sz idx :
  op_ok (OpInsertHot tp o r sz) idx → index_wf idx → index_wf (insert_hot tp o r sz idx).
Proof.
  intros (Ho & Hsz & Hb) Hwf. pose proof (entries_of_wf idx tp Hwf) as He.
  assert (Hnew : entries_wf (mkEntries (<[o:=mkHot r sz]> (pe_hot (entries_of idx tp)))
            (pe_cold (entries_of idx tp)) (Z.max (pe_next_offset (entries_of idx tp)) (u64_add o 1)))).
  { pose proof (wf_next _ He) as [? ?]. unfold u64_MAX in *. rewrite u64_add_small by lia.
    split; simpl.
    - unfold is_u64. lia.
    - intros o' h. rewrite lookup_insert_Some. intros [[<- <-]|[_ Ho']]; simpl; [lia|].
      destruct (wf_hot _ He _ _ Ho'). lia.
    - rewrite msum_insert. simpl. destruct (pe_hot _ !! o) as [h|] eqn:Eh; simpl; [|lia].
      destruct (wf_hot _ He _ _ Eh). lia.
    - intros s r' Hs. destruct (wf_cold _ He _ _ Hs). lia.
    - apply (wf_disjoint _ He). }
  unfold insert_hot. destruct (pe_hot _ !! o); by apply set_entries_wf.
Qed.

Lemma remove_hot_wf tp o idx : index_wf idx → index_wf (remove_hot tp o idx).
Proof.
  intros Hwf. unfold remove_hot. destruct (pi_inner idx !! tp) as [e|] eqn:E; [|done].
  destruct (pe_hot e !! o) as [h|] eqn:Eh; [|done].
  pose proof (Hwf _ _ E) as He. apply (set_entries_wf tp _ idx); [|done]. split; simpl.
  - apply He.
  - intros o' h' [_ Ho']%lookup_delete_Some. by apply (wf_hot _ He).
  - rewrite msum_delete', Eh. simpl. destruct (wf_hot _ He _ _ Eh).
    pose proof (wf_hot_bytes _ He). lia.
  - apply (wf_cold _ He).
  - apply (wf_disjoint _ He).
Qed.

Lemma run_op_wf op idx idx' :
  op_ok op idx → run_op op idx = Some idx' → index_wf idx → index_wf idx'.
Proof.
  intros Hok Hr Hwf. destruct op; simpl in Hr; simplify_eq.
  - by apply insert_hot_wf.
  - by apply remove_hot_wf.
  - destruct Hok as (? & ? & Hdis). unfold flip_to_cold in Hr. destruct (e <? s); simplify_eq.
    pose proof (entries_of_wf idx tp Hwf) as He.
    apply set_entries_wf; [|by destruct (0 <? _)].
    apply add_cold_wf; try done; [apply map_filter_subseteq|].
    pose proof (msum_remove_range_le s e _ (wf_hot_nonneg _ He)). pose proof (wf_hot_bytes _ He). lia.
  - destruct Hok as (? & ? & Hdis). pose proof (entries_of_wf idx tp Hwf) as He.
    apply set_entries_wf; [|done]. apply add_cold_wf; try done. apply He.
  - destruct Hok as (? & ? & Hdis). unfold replace_cold in Hr. destruct (e <? s); simplify_eq.
    pose proof (entries_of_wf idx tp Hwf) as He.
    apply set_entries_wf; [|done]. apply add_cold_wf; try done; [apply map_filter_subseteq|apply He|].
    intros s' r'. rewrite lookup_remove_range. case_decide; [done|].
    intros Hs'. specialize (Hdis _ _ Hs'). lia.
Qed.

Lemma new_wf : index_wf new.
Proof. intros tp e. unfold new. simpl. by rewrite lookup_empty. Qed.

Lemma ok_reachable_wf idx : rtc ok_step new idx → index_wf idx.
Proof.
  intros Hr. remember new as i0 eqn:Ei. assert (Hwf : index_wf i0) by (subst; apply new_wf).
  clear Ei. induction Hr as [|x y z [op i i' Hok Hrun] Hr IH]; [done|].
  apply IH. by eapply run_op_wf.
Qed.

(** ** Theorems *)

(** After any sequence of index operations, on any partitions and in any
    order, the lock-free counter [hot_bytes] equals the sum of the accounted
    sizes of all resident hot records, modulo the width of the counter. *)
Theorem hot_bytes_accounted idx :
  reachable idx → hot_bytes idx = total_hot_bytes idx mod u64_modulus.
Proof.
  intros Hr. change (accounted idx). unfold reachable in Hr. remember new as i0 eqn:Ei.
  assert (Ha : accounted i0) by (subst; apply new_accounted).
  clear Ei. induction Hr as [|x y z [op i i' Hrun] Hr IH]; [done|].
  apply IH. by eapply run_op_accounted.
Qed.

Definition demo_index : PartitionIndex :=
  insert_hot Demo.tp0 1 (Demo.wal Demo.tp0 1 Demo.rec1) 50
    (insert_hot Demo.tp0 0 (Demo.wal Demo.tp0 0 Demo.rec0) 40 new).

Lemma demo_index_ok : rtc ok_step new demo_index.
Proof.
  eapply rtc_l; [apply (ok_step_op (OpInsertHot Demo.tp0 0 (Demo.wal Demo.tp0 0 Demo.rec0) 40));
                 [vm_compute; intuition congruence|reflexivity]|].
  eapply rtc_l; [apply (ok_step_op (OpInsertHot Demo.tp0 1 (Demo.wal Demo.tp0 1 Demo.rec1) 50));
                 [vm_compute; intuition congruence|reflexivity]|].
  apply rtc_refl.
Qed.

Lemma ok_step_step x y : ok_step x y → index_step x y.
Proof. intros [op i i' _ Hr]. by econstructor. Qed.

Lemma hot_bytes_accounted_witness : hot_bytes demo_index = 90 ∧ total_hot_bytes demo_index mod u64_modulus = 90.
Proof.
  assert (Hr : reachable demo_index)
    by (eapply rtc_subrel; [apply ok_step_step|apply demo_index_ok]).
  pose proof (hot_bytes_accounted demo_index Hr) as H. rewrite <- H. split; reflexivity.
Defined.

(** Partitions are independent: what the index answers for a partition
    after any history is what it would answer had only the operations on that
    partition been performed. *)
Theorem partitions_independent ops idx tp :
  run_ops ops new = Some idx →
  ∃ idx_tp, run_ops (filter (λ op, op_tp op = tp) ops) new = Some idx_tp ∧
    (∀ o mb, read_plan idx tp o mb = read_plan idx_tp tp o mb) ∧
    next_offset idx tp = next_offset idx_tp tp ∧
    get_cold_segments idx tp = get_cold_segments idx_tp tp.
Proof.
  intros Hr. destruct (run_ops_project tp ops new new idx) as (idx_tp & Hr' & Hi); [done..|].
  exists idx_tp. split; [done|]. by apply observers_congr.
Qed.

Lemma partitions_independent_witness :
  ∃ idx, run_ops [OpInsertHot Demo.tp0 0 (Demo.wal Demo.tp0 0 Demo.rec0) 40;
                  OpFlipToCold Demo.tp1 0 5 "k" 9] new = Some idx ∧
         read_plan idx Demo.tp1 3 100 = Cold "k" 0 5.
Proof.
  eexists. split; [reflexivity|].
  destruct (partitions_independent
              [OpInsertHot Demo.tp0 0 (Demo.wal Demo.tp0 0 Demo.rec0) 40;
               OpFlipToCold Demo.tp1 0 5 "k" 9] _ Demo.tp1 eq_refl) as (i & Hi & Hread & _).
  rewrite Hread. vm_compute in Hi. injection Hi as <-. reflexivity.
Defined.



Lemma flip_to_cold_entries tp s e k sz idx idx' :
  flip_to_cold tp s e k sz idx = Some idx' →
  entries_of idx' tp =
    mkEntries (remove_range s e (pe_hot (entries_of idx tp)))
      (<[s := mkRange e k sz]> (pe_cold (entries_of idx tp)))
      (Z.max (pe_next_offset (entries_of idx tp)) e).
Proof.
  unfold flip_to_cold. destruct (e <? s); [done|]. intros [= <-].
  unfold entries_of at 1, set_entries. cbn [pi_inner]. by rewrite lookup_insert_eq.
Qed.

(** Adding a disjoint range does not change which range covers an offset
    outside it. *)
Lemma covers_insert_out e hot nx s en k sz s' r' o :
  ¬ (s ≤ o < en) → (∀ r, pe_cold e !! s = Some r → or_end_offset r ≤ en) →
  covers (mkEntries hot (<[s := mkRange en k sz]> (pe_cold e)) nx) s' r' o ↔ covers e s' r' o.
Proof.
  intros Ho Hs. unfold covers. simpl. destruct (decide (s' = s)) as [->|].
  - rewrite lookup_insert_eq. split.
    + intros [[= <-] ?]. simpl in *. lia.
    + intros [Hr ?]. specialize (Hs _ Hr). lia.
  - by rewrite lookup_insert_ne.
Qed.

(** Entries with the same record and ranges at [o] serve it alike. *)
Lemma source_congr e e' o :
  entries_wf e → entries_wf e' → pe_hot e' !! o = pe_hot e !! o →
  (∀ s r, covers e' s r o ↔ covers e s r o) → source e' o = source e o.
Proof.
  intros Hwf Hwf' Hh Hcov. destruct (source_cases e o Hwf) as [[h Hh']|[(Hh' & s & r & Hc)|[Hh' Hn]]].
  - unfold source. by rewrite Hh, Hh'.
  - rewrite (source_covers e s r o), (source_covers e' s r o); try done; [congruence|]. by apply Hcov.
  - rewrite (source_None e o), (source_None e' o); try done; [congruence|].
    intros s r Hc. apply (Hn s r). by apply Hcov.
Qed.

(** Replacing the ranges of [[s, en)], the last of which ends at [en], does
    not change which range covers an offset outside. *)
Lemma covers_replace_out e s en k sz nx l rl s' r' o :
  entries_wf e → pe_cold e !! l = Some rl → or_end_offset rl = en → s ≤ l → ¬ (s ≤ o < en) →
  covers (mkEntries (pe_hot e) (<[s := mkRange en k sz]> (remove_range s en (pe_cold e))) nx) s' r' o
  ↔ covers e s' r' o.
Proof.
  intros Hw Hl Hen Hsl Ho. unfold covers. simpl.
  assert (Hend : pe_cold e !! s' = Some r' → s ≤ s' < en → or_end_offset r' ≤ en).
  { intros Hr Hin. destruct (decide (s' = l)) as [->|]; [rewrite Hl in Hr; by injection Hr as <-; lia|].
    destruct (decide (s' < l)).
    - pose proof (wf_disjoint _ Hw _ _ _ _ Hr Hl). destruct (wf_cold _ Hw _ _ Hl). lia.
    - pose proof (wf_disjoint _ Hw _ _ _ _ Hl Hr). lia. }
  destruct (wf_cold _ Hw _ _ Hl) as [? _]. destruct (decide (s' = s)) as [->|Hne].
  - rewrite lookup_insert_eq. split; [intros [[= <-] ?]; simpl in *; lia|].
    intros [Hr ?]. specialize (Hend Hr). lia.
  - rewrite lookup_insert_ne, lookup_remove_range by done. case_decide as Hin; [|done].
    split; [by intros [? _]|]. intros [Hr ?]. specialize (Hend Hr Hin). lia.
Qed.

Lemma replace_cold_entries tp s e k sz idx idx' :
  replace_cold tp s e k sz idx = Some idx' →
  entries_of idx' tp = mkEntries (pe_hot (entries_of idx tp))
    (<[s := mkRange e k sz]> (remove_range s e (pe_cold (entries_of idx tp))))
    (Z.max (pe_next_offset (entries_of idx tp)) e).
Proof.
  unfold replace_cold. destruct (e <? s); [done|]. intros [= <-].
  unfold entries_of at 1, set_entries. cbn [pi_inner]. by rewrite lookup_insert_eq.
Qed.

Lemma source_flip_out e s en k sz nx o :
  entries_wf e → ¬ (s ≤ o < en) → (∀ r, pe_cold e !! s = Some r → or_end_offset r ≤ en) →
  let e' := mkEntries (remove_range s en (pe_hot e)) (<[s := mkRange en k sz]> (pe_cold e)) nx in
  entries_wf e' → source e' o = source e o.
Proof.
  intros Hwf Ho Hs e' Hwf'. apply source_congr; [done|done|by apply lookup_remove_range_out|].
  intros s' r'. by apply covers_insert_out.
Qed.

(** Moving an uploaded range to the cold tier re-points exactly that
    range: every offset of it is served from the new object (a read never
    falls between the tiers), every other offset keeps the record or object
    it was served from, the counter drops by exactly the removed records,
    and repeating the flip changes nothing. *)
Theorem flip_to_cold_exact idx tp s e k sz :
  rtc ok_step new idx → op_ok (OpFlipToCold tp s e k sz) idx →
  (∀ r, pe_cold (entries_of idx tp) !! s = Some r → or_end_offset r ≤ e) →
  ∃ idx', flip_to_cold tp s e k sz idx = Some idx' ∧
    (∀ o mb, s ≤ o < e → read_plan idx' tp o mb = Cold k s e) ∧
    (∀ o mb, ¬ (s ≤ o < e) →
       plan_source (read_plan idx' tp o mb) = plan_source (read_plan idx tp o mb)) ∧
    total_hot_bytes idx' + msum he_size (range_entries s e (pe_hot (entries_of idx tp)))
      = total_hot_bytes idx ∧
    flip_to_cold tp s e k sz idx' = Some idx'.
Proof.
  intros Hwf%ok_reachable_wf Hok Hs.
  destruct (flip_to_cold tp s e k sz idx) as [idx'|] eqn:Ef; cycle 1.
  { unfold flip_to_cold in Ef. destruct Hok. destruct (Z.ltb_spec e s); [lia|done]. }
  exists idx'. split; [done|].
  assert (Hwf' : index_wf idx') by by apply (run_op_wf (OpFlipToCold tp s e k sz) idx).
  pose proof (flip_to_cold_entries _ _ _ _ _ _ _ Ef) as He'.
  pose proof (entries_of_wf idx tp Hwf) as He.
  pose proof (entries_of_wf idx' tp Hwf') as Hw'.
  destruct Hok as (Hse & Hen & Hdis).
  split_and!.
  - intros o mb Ho.
    assert (Hh : pe_hot (entries_of idx' tp) !! o = None).
    { rewrite He'. simpl. rewrite lookup_remove_range. by rewrite decide_True. }
    rewrite read_plan_not_hot by done.
    rewrite (source_covers _ s (mkRange e k sz) o); try done.
    split; [|done]. rewrite He'. simpl. apply lookup_insert_eq.
  - intros o mb Ho. rewrite !read_plan_source by done. rewrite He' in *.
    by apply source_flip_out.
  - pose proof (range_bytes_split s e (pe_hot (entries_of idx tp))).
    unfold flip_to_cold in Ef. destruct (e <? s); [done|]. injection Ef as <-.
    rewrite total_set_entries. destruct (0 <? _); unfold entries_bytes; simpl;
      change (total_hot_bytes (fetch_sub _ idx)) with (total_hot_bytes idx);
      change (entries_of (fetch_sub _ idx) tp) with (entries_of idx tp); lia.
  - unfold flip_to_cold. rewrite (proj2 (Z.ltb_ge _ _)) by lia. rewrite He'. simpl.
    assert (range_entries s e (remove_range s e (pe_hot (entries_of idx tp))) = ∅) as ->.
    { apply map_empty. intros i. apply eq_None_not_Some. intros [h [Hi ?]%lookup_range_entries].
      rewrite lookup_remove_range in Hi. by case_decide. }
    rewrite msum_empty. simpl. rewrite remove_range_idemp, insert_insert_eq, <- Z.max_assoc, Z.max_id.
    rewrite <- He'. f_equal. unfold set_entries. destruct idx' as [inner hb]. simpl in *. f_equal.
    apply insert_id. unfold entries_of in He' |- *. simpl in *.
    destruct (inner !! tp) eqn:E; [done|]. exfalso.
    unfold flip_to_cold in Ef. destruct (e <? s); [done|]. injection Ef as Hin _.
    rewrite <- Hin in E. by rewrite lookup_insert_eq in E.
Qed.

Lemma flip_to_cold_exact_witness :
  ∃ idx', flip_to_cold Demo.tp0 0 1 "orders/0-1" 77 demo_index = Some idx' ∧
          read_plan idx' Demo.tp0 0 100 = Cold "orders/0-1" 0 1.
Proof.
  destruct (flip_to_cold_exact demo_index Demo.tp0 0 1 "orders/0-1" 77 demo_index_ok)
    as (idx' & Hf & Hin & _).
  - vm_compute. intuition congruence.
  - intros r. vm_compute. congruence.
  - exists idx'. split; [done|]. by apply Hin.
Defined.
