(* ===== verification/ColdIndex.v ===== *)
(** * The durable cold-index manifest

    Model of [src/src/storage/cold_index.rs].  The manifest file is a list of
    bytes: frames [u32 length, body, u32 crc] appended and fsynced one at a
    time, replayed by [load] up to the first torn or corrupt frame, and folded
    into the live cold segments.  [crc32] stands for [crc32fast::hash] and the
    [Bincode] instance for [bincode]; no property of the checksum is needed,
    because a torn tail is recognised by its length. *)

From S2P Require Import Prelude Types PartitionIndex.
Local Open Scope Z_scope.

Inductive ManifestRecord :=
  | Register (seg : ColdSegment)
  | Compact (merged : ColdSegment) (sources : list string).
#[global] Instance ManifestRecord_eq_dec : EqDecision ManifestRecord.
Proof. solve_decision. Defined.
#[global] Program Instance ManifestRecord_countable : Countable ManifestRecord :=
  inj_countable' (λ r, match r with Register s => inl s | Compact m ks => inr (m, ks) end)
                 (λ x, match x with inl s => Register s | inr (m, ks) => Compact m ks end) _.
Next Obligation. by intros []. Qed.

Record LoadResult := mkLoad { live : list ColdSegment; orphan_object_keys : list string }.
Definition default_load : LoadResult := mkLoad [] [].

(** ** [fold] *)

Abbreviation LiveMap := (gmap TopicPartition (gmap Z ColdSegment)) (only parsing).

Definition live_of (m : LiveMap) (tp : TopicPartition) : gmap Z ColdSegment := default ∅ (m !! tp).

(** One iteration of the loop; [None] is the panic of an inverted range. *)
Definition fold_record (acc : LiveMap * list string) (record : ManifestRecord)
  : option (LiveMap * list string) :=
  let '(m, orphans) := acc in
  match record with
  | Register seg =>
      Some (<[cs_tp seg := <[cs_start seg := seg]> (live_of m (cs_tp seg))]> m, orphans)
  | Compact merged sources =>
      if cs_end merged <? cs_start merged then None else
      let entries := remove_range (cs_start merged) (cs_end merged) (live_of m (cs_tp merged)) in
      Some (<[cs_tp merged := <[cs_start merged := merged]> entries]> m, orphans ++ sources)
  end.

Definition fold_records (records : list ManifestRecord) : option (LiveMap * list string) :=
  foldl (λ acc r, a ← acc; fold_record a r) (Some (∅, [])) records.

(** The order of [out.sort_by]: topic, partition, start offset. *)
Definition seg_le (a b : ColdSegment) : Prop :=
  (tp_topic (cs_tp a) ≠ tp_topic (cs_tp b) ∧ String.le (tp_topic (cs_tp a)) (tp_topic (cs_tp b))) ∨
  (tp_topic (cs_tp a) = tp_topic (cs_tp b) ∧
    (tp_partition (cs_tp a) < tp_partition (cs_tp b) ∨
     (tp_partition (cs_tp a) = tp_partition (cs_tp b) ∧ cs_start a ≤ cs_start b))).
#[global] Instance seg_le_dec : RelDecision seg_le.
Proof. intros a b. unfold seg_le. apply _. Defined.

(** [live.into_values().flat_map(|m| m.into_values())]; the sort makes the
    hash order irrelevant. *)
Definition live_segments (m : LiveMap) : list ColdSegment :=
  merge_sort seg_le ((map_to_list m).*2 ≫= λ e, (map_to_list e).*2).

Definition fold (records : list ManifestRecord) : option LoadResult :=
  '(m, orphans) ← fold_records records;
  Some (mkLoad (live_segments m) orphans).

(** ** The file *)

(** What the operating system does with one [write_all] and [sync_all]. *)
Inductive append_fault :=
  | NoFault
  | ShortWrite (n : nat)   (* [write_all] fails after [n] bytes *)
  | SyncFail.              (* the frame is written, [sync_all] fails *)

Section manifest.
Context `{!Bincode ManifestRecord} (crc32 : bytes → Z).

Definition frame (record : ManifestRecord) : bytes :=
  let body := serialize record in
  le_bytes 4 (as_u32 (Z.of_nat (length body))) ++ body ++ le_bytes 4 (crc32 body).

Definition append_record (fault : append_fault) (record : ManifestRecord) (file : bytes)
  : Result unit * bytes :=
  match fault with
  | NoFault => (Ok tt, file ++ frame record)
  | ShortWrite n => (Err Io, file ++ take n (frame record))
  | SyncFail => (Err Io, file ++ frame record)
  end.

Definition register (fault : append_fault) (tp : TopicPartition) (start_offset end_offset : Offset)
    (object_key : string) (size_bytes : Z) (file : bytes) : Result unit * bytes :=
  append_record fault (Register (mkCold tp start_offset end_offset object_key size_bytes)) file.

Definition record_compaction (fault : append_fault) (merged : ColdSegment) (sources : list string)
    (file : bytes) : Result unit * bytes :=
  append_record fault (Compact merged sources) file.

(** The [while pos + 4 <= bytes.len()] loop: the records of the valid
    prefix and its length.  Every iteration consumes at least 8 bytes. *)
Fixpoint scan (fuel : nat) (data : bytes) (pos : nat) (records : list ManifestRecord)
  : list ManifestRecord * nat :=
  match fuel with
  | O => (records, pos)
  | S fuel =>
      if decide (length data < pos + 4)%nat then (records, pos) else
      let len := Z.to_nat (from_le (take 4 (drop pos data))) in
      let body_start := (pos + 4)%nat in
      let crc_start := (body_start + len)%nat in
      let frame_end := (crc_start + 4)%nat in
      if decide (length data < frame_end)%nat then (records, pos) else
      let body := take len (drop body_start data) in
      let stored_crc := from_le (take 4 (drop crc_start data)) in
      if negb (crc32 body =? stored_crc) then (records, pos) else
      match deserialize body with
      | Some rec => scan fuel data frame_end (records ++ [rec])
      | None => (records, pos)
      end
  end.

(** [load]; [None] as file means that it does not exist, [set_len_ok] and
    [sync_ok] are the outcomes of the truncation and of its fsync. *)
Definition load (set_len_ok sync_ok : bool) (file : option bytes)
  : Result LoadResult * option bytes :=
  match file with
  | None => (Ok default_load, None)
  | Some data =>
      let '(records, pos) := scan (S (length data)) data 0 [] in
      let folded := ok_or (fold records) Panic in
      if decide (pos < length data)%nat then
        if negb set_len_ok then (Err Io, Some data)
        else if negb sync_ok then (Err Io, Some (take pos data))
        else (folded, Some (take pos data))
      else (folded, Some data)
  end.
End manifest.
#[global] Arguments frame : simpl never.

(** ** Replay of intact and torn files *)

Section replay.
Context `{!Bincode ManifestRecord, !BincodeLaws ManifestRecord} (crc32 : bytes → Z).
Hypothesis crc32_range : ∀ b, 0 ≤ crc32 b < u32_modulus.
Implicit Types (r : ManifestRecord) (rs : list ManifestRecord).

(** The length header can express the body. *)
Definition fits (r : ManifestRecord) : Prop := Z.of_nat (length (serialize r)) < u32_modulus.
Definition frames (rs : list ManifestRecord) : bytes := rs ≫= frame crc32.

Lemma frames_snoc rs r : frames (rs ++ [r]) = frames rs ++ frame crc32 r.
Proof. unfold frames. rewrite bind_app. simpl. by rewrite app_nil_r. Qed.

Lemma length_frame r : length (frame crc32 r) = (length (serialize r) + 8)%nat.
Proof. unfold frame. rewrite !length_app, !length_le_bytes. lia. Qed.

Lemma frame_header r rest :
  fits r → Z.to_nat (from_le (take 4 (frame crc32 r ++ rest))) = length (serialize r).
Proof.
  intros Hf. unfold frame. rewrite <- !app_assoc, take_le_bytes.
  unfold as_u32. rewrite Z.mod_small by (unfold fits in Hf; lia).
  rewrite from_le_roundtrip; [lia|]. split; [lia|]. exact Hf.
Qed.

Lemma frame_body r rest :
  take (length (serialize r)) (drop 4 (frame crc32 r ++ rest)) = serialize r.
Proof.
  unfold frame. rewrite <- !app_assoc, drop_le_bytes.
  by rewrite take_app_length.
Qed.

Lemma frame_crc r rest :
  from_le (take 4 (drop (4 + length (serialize r)) (frame crc32 r ++ rest))) = crc32 (serialize r).
Proof using crc32_range.
  unfold frame. rewrite <- !app_assoc, <- drop_drop, drop_le_bytes.
  rewrite drop_app_length, take_le_bytes.
  apply from_le_roundtrip, crc32_range.
Qed.

Lemma scan_frame fuel pre r rest acc :
  fits r →
  scan crc32 (S fuel) (pre ++ frame crc32 r ++ rest) (length pre) acc
  = scan crc32 fuel (pre ++ frame crc32 r ++ rest) (length (pre ++ frame crc32 r)) (acc ++ [r]).
Proof using crc32_range BincodeLaws0.
  intros Hf. cbn [scan].
  assert (Hd : ∀ n, drop (length pre + n) (pre ++ frame crc32 r ++ rest)
                    = drop n (frame crc32 r ++ rest))
    by (intros; rewrite <- drop_drop; by rewrite drop_app_length).
  rewrite decide_False by (rewrite !length_app, length_frame; lia).
  rewrite drop_app_length, frame_header by done.
  rewrite decide_False by (rewrite !length_app, length_frame; lia).
  rewrite Hd, frame_body, <- Nat.add_assoc, Hd, frame_crc, Z.eqb_refl. simpl.
  rewrite deserialize_serialize. f_equal. rewrite length_app, length_frame. lia.
Qed.

Lemma scan_torn fuel pre r n acc :
  fits r → (n < length (frame crc32 r))%nat →
  scan crc32 (S fuel) (pre ++ take n (frame crc32 r)) (length pre) acc = (acc, length pre).
Proof.
  intros Hf Hn. cbn [scan]. rewrite length_app, length_take.
  case_decide; [done|]. rewrite drop_app_length.
  assert (take 4 (take n (frame crc32 r)) = take 4 (frame crc32 r)) as ->
    by (rewrite take_take; f_equal; lia).
  pose proof (frame_header r [] Hf) as Hh. rewrite app_nil_r in Hh. rewrite Hh.
  rewrite length_frame in *. by rewrite decide_True by lia.
Qed.

Lemma scan_frames fuel pre rs tail acc :
  Forall fits rs → (length rs ≤ fuel)%nat →
  scan crc32 fuel (pre ++ frames rs ++ tail) (length pre) acc
  = scan crc32 (fuel - length rs) (pre ++ frames rs ++ tail) (length (pre ++ frames rs)) (acc ++ rs).
Proof using crc32_range BincodeLaws0.
  revert fuel pre acc. induction rs as [|r rs IH]; intros fuel pre acc Hf Hl.
  - unfold frames. simpl. by rewrite !app_nil_r, Nat.sub_0_r.
  - inversion Hf; subst. destruct fuel as [|fuel]; simpl in Hl; [lia|].
    unfold frames in *. rewrite bind_cons, <- !app_assoc, scan_frame by done.
    pose proof (IH fuel (pre ++ frame crc32 r) (acc ++ [r])) as IH'.
    rewrite <- !app_assoc in IH'. rewrite IH' by (done || lia). done.
Qed.

Lemma length_frames rs : (length rs ≤ length (frames rs))%nat.
Proof.
  induction rs as [|r rs IH]; [simpl; lia|]. unfold frames in *.
  rewrite bind_cons, length_app, length_frame. simpl. lia.
Qed.

(** A file of intact frames followed by a strict prefix of one more. *)
Lemma scan_file rs r n :
  Forall fits rs → fits r → (n < length (frame crc32 r))%nat →
  let data := frames rs ++ take n (frame crc32 r) in
  scan crc32 (S (length data)) data 0 [] = (rs, length (frames rs)).
Proof using crc32_range BincodeLaws0.
  intros Hrs Hr Hn data. pose proof (length_frames rs).
  pose proof (scan_frames (S (length data)) [] rs (take n (frame crc32 r)) [] Hrs) as Hs.
  rewrite !app_nil_l in Hs. change (length []) with 0%nat in Hs. fold data in Hs.
  rewrite Hs by (unfold data; rewrite length_app; lia).
  destruct (S (length data) - length rs)%nat as [|fuel] eqn:E.
  { unfold data in E. rewrite length_app in E. lia. }
  pose proof (scan_torn fuel (frames rs) r n rs Hr Hn) as Ht. fold data in Ht.
  done.
Qed.

Lemma load_torn rs r n set_len_ok sync_ok :
  Forall fits rs → fits r → (0 < n < length (frame crc32 r))%nat →
  load crc32 set_len_ok sync_ok (Some (frames rs ++ take n (frame crc32 r)))
  = if negb set_len_ok then (Err Io, Some (frames rs ++ take n (frame crc32 r)))
    else (if sync_ok then ok_or (fold rs) Panic else Err Io, Some (frames rs)).
Proof using crc32_range BincodeLaws0.
  intros Hrs Hr Hn. unfold load. rewrite scan_file by (done || lia).
  rewrite decide_True by (rewrite length_app, length_take; lia).
  rewrite take_app_length. by destruct set_len_ok, sync_ok.
Qed.

Lemma load_intact rs a b :
  Forall fits rs → load crc32 a b (Some (frames rs)) = (ok_or (fold rs) Panic, Some (frames rs)).
Proof using crc32_range BincodeLaws0.
  intros Hrs. unfold load. destruct rs as [|r rs'] eqn:Er; [done|]. rewrite <- Er in *.
  assert (Hr : fits r) by (subst; by inversion Hrs).
  pose proof (scan_file rs r 0 Hrs Hr) as Hs. rewrite take_0, app_nil_r in Hs.
  rewrite Hs by (rewrite length_frame; lia). by rewrite decide_False by lia.
Qed.
End replay.

(** ** Histories with crashes

    A broker appends records to the manifest; each append either returns, or
    the process dies while an arbitrary part of the frame has reached the
    disk, and the next start runs [load].  [history acked attempted file]:
    the appends that returned, and all appends that were issued. *)

Section history.
Context `{!Bincode ManifestRecord, !BincodeLaws ManifestRecord} (crc32 : bytes → Z).
Hypothesis crc32_range : ∀ b, 0 ≤ crc32 b < u32_modulus.

Inductive history : list ManifestRecord → list ManifestRecord → bytes → Prop :=
  | history_new : history [] [] []
  | history_append acked attempted r file file' :
      history acked attempted file → fits r →
      append_record crc32 NoFault r file = (Ok tt, file') →
      history (acked ++ [r]) (attempted ++ [r]) file'
  | history_crash acked attempted r n file res file' :
      history acked attempted file → fits r → (n ≤ length (frame crc32 r))%nat →
      load crc32 true true (Some (append_record crc32 (ShortWrite n) r file).2) = (res, Some file') →
      history acked (attempted ++ [r]) file'.

Lemma history_frames acked attempted file :
  history acked attempted file →
  ∃ rs, acked `sublist_of` rs ∧ rs `sublist_of` attempted ∧ Forall fits rs ∧
        file = frames crc32 rs.
Proof using crc32_range BincodeLaws0.
  induction 1 as [|acked attempted r file file' _ IH Hfit Ha
                  |acked attempted r n file res file' _ IH Hfit Hn Hl].
  - exists []. by repeat split.
  - destruct IH as (rs & Hs1 & Hs2 & Hf & ->). simpl in Ha. injection Ha as <-.
    exists (rs ++ [r]). split_and!; [by apply sublist_app|by apply sublist_app| |].
    + apply Forall_app; auto.
    + by rewrite frames_snoc.
  - destruct IH as (rs & Hs1 & Hs2 & Hf & ->). cbn [append_record snd] in Hl.
    destruct (decide (n = length (frame crc32 r))) as [->|Hlt].
    { rewrite firstn_all, <- frames_snoc in Hl.
      rewrite load_intact in Hl by (done || apply Forall_app; auto). simplify_eq.
      exists (rs ++ [r]). split_and!; [by apply sublist_inserts_r|by apply sublist_app| |done].
      apply Forall_app; auto. }
    exists rs. split_and!; [done|by apply sublist_inserts_r|done|].
    destruct n as [|n].
    + rewrite take_0, app_nil_r, load_intact in Hl by done. congruence.
    + rewrite load_torn in Hl by (done || lia). simpl in Hl. congruence.
Qed.
End history.

(** ** The manifest mirrors the index *)

Definition range_of (seg : ColdSegment) : ObjectRange :=
  mkRange (cs_end seg) (cs_key seg) (cs_size seg).

(** The recovery loop over [load_result.live] of
    [PartitionStore::new_with_fencing]. *)
Definition restore_cold (segs : list ColdSegment) (idx : PartitionIndex) : PartitionIndex :=
  foldl (λ idx seg, insert_cold (cs_tp seg) (cs_start seg) (cs_end seg) (cs_key seg) (cs_size seg) idx)
        idx segs.

(** [tiered rs idx]: an index reached by hot-tier operations and by the
    tiering and compaction commits, with [rs] the records these commits wrote
    to the manifest. *)
Inductive tiered : list ManifestRecord → PartitionIndex → Prop :=
  | tiered_new : tiered [] new
  | tiered_insert rs idx tp o r sz : tiered rs idx → tiered rs (insert_hot tp o r sz idx)
  | tiered_remove rs idx tp o : tiered rs idx → tiered rs (remove_hot tp o idx)
  | tiered_register rs idx idx' tp s e k sz :
      tiered rs idx → flip_to_cold tp s e k sz idx = Some idx' →
      tiered (rs ++ [Register (mkCold tp s e k sz)]) idx'
  | tiered_compact rs idx idx' tp s e k sz sources :
      tiered rs idx → replace_cold tp s e k sz idx = Some idx' →
      tiered (rs ++ [Compact (mkCold tp s e k sz) sources]) idx'.

(** The fold's live map and the index hold the same cold ranges. *)
Definition mirrors (m : LiveMap) (idx : PartitionIndex) : Prop :=
  ∀ tp, pe_cold (entries_of idx tp) = range_of <$> live_of m tp.

(** Every live segment is filed under its own partition and start. *)
Definition filed (m : LiveMap) : Prop :=
  ∀ tp s seg, live_of m tp !! s = Some seg → cs_tp seg = tp ∧ cs_start seg = s.

Lemma live_of_insert m tp e tp' :
  live_of (<[tp:=e]> m) tp' = if decide (tp = tp') then e else live_of m tp'.
Proof.
  unfold live_of. case_decide as Hd; [subst; by rewrite lookup_insert_eq|].
  by rewrite lookup_insert_ne.
Qed.

Lemma entries_of_set tp e idx tp' :
  entries_of (set_entries tp e idx) tp' = if decide (tp = tp') then e else entries_of idx tp'.
Proof.
  unfold entries_of, set_entries. simpl.
  case_decide as Hd; [subst; by rewrite lookup_insert_eq|]. by rewrite lookup_insert_ne.
Qed.

Lemma fmap_remove_range {A B} (f : A → B) s e (m : gmap Z A) :
  f <$> remove_range s e m = remove_range s e (f <$> m).
Proof.
  apply map_eq. intros k. rewrite lookup_fmap, !lookup_remove_range, lookup_fmap. by case_decide.
Qed.

Lemma cold_insert_hot tp o r sz idx tp' :
  pe_cold (entries_of (insert_hot tp o r sz idx) tp') = pe_cold (entries_of idx tp').
Proof.
  unfold insert_hot. rewrite entries_of_set. case_decide; subst; simpl; [done|].
  by destruct (pe_hot _ !! o).
Qed.

Lemma cold_remove_hot tp o idx tp' :
  pe_cold (entries_of (remove_hot tp o idx) tp') = pe_cold (entries_of idx tp').
Proof.
  unfold remove_hot. destruct (pi_inner idx !! tp) as [e|] eqn:E; [|done].
  destruct (pe_hot e !! o); [|done].
  change (entries_of (fetch_sub _ ?i) tp') with (entries_of i tp'). rewrite entries_of_set.
  case_decide; [|done]. subst. unfold entries_of. by rewrite E.
Qed.

Lemma cold_flip tp s e k sz idx idx' tp' :
  flip_to_cold tp s e k sz idx = Some idx' →
  pe_cold (entries_of idx' tp') =
    if decide (tp = tp') then <[s := mkRange e k sz]> (pe_cold (entries_of idx tp'))
    else pe_cold (entries_of idx tp').
Proof.
  intros Hf. case_decide as Hd.
  - subst. by rewrite (flip_to_cold_entries _ _ _ _ _ _ _ Hf).
  - f_equal. apply entries_of_congr.
    by apply (run_op_other (OpFlipToCold tp s e k sz)).
Qed.

Lemma cold_replace tp s e k sz idx idx' tp' :
  replace_cold tp s e k sz idx = Some idx' →
  pe_cold (entries_of idx' tp') =
    if decide (tp = tp') then <[s := mkRange e k sz]> (remove_range s e (pe_cold (entries_of idx tp')))
    else pe_cold (entries_of idx tp').
Proof.
  unfold replace_cold. destruct (e <? s); [done|]. intros [= <-].
  rewrite entries_of_set. case_decide; by subst.
Qed.

Lemma fold_records_snoc rs r : fold_records (rs ++ [r]) = fold_records rs ≫= λ a, fold_record a r.
Proof. unfold fold_records. by rewrite foldl_app. Qed.

Lemma tiered_mirrors rs idx :
  tiered rs idx → ∃ m orphans, fold_records rs = Some (m, orphans) ∧ mirrors m idx ∧ filed m.
Proof.
  induction 1 as [|rs idx tp o r sz _ IH|rs idx tp o _ IH
                  |rs idx idx' tp s e k sz _ IH Hf|rs idx idx' tp s e k sz sources _ IH Hf].
  - exists ∅, []. split; [done|]. split.
    + intros tp. unfold live_of, entries_of, new. simpl. rewrite !lookup_empty. simpl.
      by rewrite fmap_empty.
    + intros tp s seg. unfold live_of. rewrite lookup_empty. simpl. by rewrite lookup_empty.
  - destruct IH as (m & orphans & ? & Hm & ?). exists m, orphans. split_and!; try done.
    intros tp'. by rewrite cold_insert_hot.
  - destruct IH as (m & orphans & ? & Hm & ?). exists m, orphans. split_and!; try done.
    intros tp'. by rewrite cold_remove_hot.
  - destruct IH as (m & orphans & Hfold & Hm & Hfiled).
    exists (<[tp := <[s := mkCold tp s e k sz]> (live_of m tp)]> m), orphans.
    rewrite fold_records_snoc, Hfold. split; [done|]. split.
    + intros tp'. rewrite (cold_flip _ _ _ _ _ _ _ _ Hf), live_of_insert.
      case_decide; subst; [|done]. rewrite fmap_insert. by rewrite Hm.
    + intros tp' s' seg. rewrite live_of_insert. case_decide; subst; [|apply Hfiled].
      rewrite lookup_insert_Some. intros [[<- <-]|[_ ?]]; [done|]. by apply Hfiled.
  - destruct IH as (m & orphans & Hfold & Hm & Hfiled).
    eexists _, _. rewrite fold_records_snoc, Hfold. simpl.
    assert (Hse : (e <? s) = false) by (unfold replace_cold in Hf; by destruct (e <? s)).
    rewrite Hse. split; [done|]. split.
    + intros tp'. rewrite (cold_replace _ _ _ _ _ _ _ _ Hf), live_of_insert.
      case_decide; subst; [|done]. by rewrite fmap_insert, fmap_remove_range, Hm.
    + intros tp' s' seg. rewrite live_of_insert. case_decide; subst; [|apply Hfiled].
      rewrite lookup_insert_Some, lookup_remove_range. case_decide.
      * intros [[<- <-]|[_ ?]]; done.
      * intros [[<- <-]|[_ ?]]; [done|]. by apply Hfiled.
Qed.

(** ** Restoring the cold view *)

Lemma cold_insert_cold tp s e k sz idx tp' :
  pe_cold (entries_of (insert_cold tp s e k sz idx) tp') =
    if decide (tp = tp') then <[s := mkRange e k sz]> (pe_cold (entries_of idx tp'))
    else pe_cold (entries_of idx tp').
Proof. unfold insert_cold. rewrite entries_of_set. case_decide; by subst. Qed.

(** Restoring segments whose (partition, start) keys are unambiguous. *)
Lemma restore_cold_lookup segs tp s r :
  (∀ a b, a ∈ segs → b ∈ segs → cs_tp a = cs_tp b → cs_start a = cs_start b → a = b) →
  pe_cold (entries_of (restore_cold segs new) tp) !! s = Some r ↔
  ∃ seg, seg ∈ segs ∧ cs_tp seg = tp ∧ cs_start seg = s ∧ r = range_of seg.
Proof.
  revert r. induction segs as [|seg segs IH] using rev_ind; intros r Huniq.
  - split.
    + unfold entries_of. simpl. rewrite !lookup_empty. simpl. by rewrite lookup_empty.
    + intros (seg & []%elem_of_nil & _).
  - assert (IH' : ∀ r, pe_cold (entries_of (restore_cold segs new) tp) !! s = Some r ↔
              ∃ seg, seg ∈ segs ∧ cs_tp seg = tp ∧ cs_start seg = s ∧ r = range_of seg).
    { intros r'. apply IH. intros; apply Huniq; [apply elem_of_app; by left..|done|done]. }
    assert (Hrest : restore_cold (segs ++ [seg]) new
              = insert_cold (cs_tp seg) (cs_start seg) (cs_end seg) (cs_key seg) (cs_size seg)
                  (restore_cold segs new)) by (unfold restore_cold; by rewrite foldl_app).
    rewrite Hrest, cold_insert_cold. clear Hrest IH. setoid_rewrite elem_of_app.
    setoid_rewrite list_elem_of_singleton.
    assert (Hlast : seg ∈ segs ++ [seg]) by (apply elem_of_app; right; by apply list_elem_of_singleton).
    case_decide as Htp; [destruct (decide (cs_start seg = s)) as [Hs|Hs]|].
    + subst s. rewrite lookup_insert_eq. split.
      * intros [= <-]. exists seg. auto.
      * intros (seg' & Hin & Ht & Hs & ->). f_equal.
        assert (seg' = seg) as ->; [|done]. apply Huniq; [|done|congruence|done].
        apply elem_of_app. rewrite list_elem_of_singleton. done.
    + rewrite lookup_insert_ne by done. rewrite IH'.
      split; [intros (x & ? & ?)|intros (x & [Hin| ->] & ?)]; [by exists x; auto..|]. by destruct_and!.
    + rewrite IH'.
      split; [intros (x & ? & ?)|intros (x & [Hin| ->] & ?)]; [by exists x; auto..|]. by destruct_and!.
Qed.

Lemma live_segments_elem m seg :
  filed m → seg ∈ live_segments m ↔ live_of m (cs_tp seg) !! cs_start seg = Some seg.
Proof.
  intros Hfiled. unfold live_segments. rewrite merge_sort_Permutation, list_elem_of_bind. split.
  - intros (e & Hseg & He).
    apply list_elem_of_fmap in Hseg as ([s seg'] & -> & Hs).
    apply list_elem_of_fmap in He as ([tp e'] & -> & Htp).
    apply elem_of_map_to_list in Hs, Htp. simpl in *.
    assert (Hl : live_of m tp !! s = Some seg') by (unfold live_of; by rewrite Htp).
    by destruct (Hfiled _ _ _ Hl) as [-> ->].
  - unfold live_of. destruct (m !! cs_tp seg) as [e|] eqn:E; simpl; [|by rewrite lookup_empty].
    intros Hs. exists e. split.
    + apply list_elem_of_fmap. exists (cs_start seg, seg). by rewrite elem_of_map_to_list.
    + apply list_elem_of_fmap. exists (cs_tp seg, e). by rewrite elem_of_map_to_list.
Qed.

Lemma restore_mirrors m idx tp :
  mirrors m idx → filed m →
  pe_cold (entries_of (restore_cold (live_segments m) new) tp) = pe_cold (entries_of idx tp).
Proof.
  intros Hm Hf. apply map_eq. intros s. apply option_eq. intros r.
  rewrite restore_cold_lookup.
  - rewrite Hm, lookup_fmap, fmap_Some. split.
    + intros (seg & Hin & <- & <- & ->). exists seg. by rewrite <- live_segments_elem.
    + intros (seg & Hl & ->). destruct (Hf _ _ _ Hl) as [<- <-].
      exists seg. by rewrite live_segments_elem.
  - intros a b. rewrite !live_segments_elem by done. intros Ha Hb Ht Hs. rewrite Ht, Hs in Ha. congruence.
Qed.

Lemma get_cold_segments_entries i1 i2 tp :
  pe_cold (entries_of i1 tp) = pe_cold (entries_of i2 tp) →
  get_cold_segments i1 tp = get_cold_segments i2 tp.
Proof.
  unfold get_cold_segments, entries_of.
  destruct (pi_inner i1 !! tp) as [e1|], (pi_inner i2 !! tp) as [e2|]; simpl; intros He; [by rewrite He|rewrite He|rewrite <- He|];
    rewrite ?btree_to_list_empty; done.
Qed.

(** ** Theorems *)

Section theorems.
Context `{!Bincode ManifestRecord, !BincodeLaws ManifestRecord} (crc32 : bytes → Z).

(** C12: whatever crashes interrupt the appends, at whatever byte, a load of
    the manifest replays a list of records that contains every append that
    returned, in order, and none that was not issued; and the file holds no
    torn tail any more, so a further load gives the same. *)
Theorem manifest_crash_safe acked attempted file :
  (∀ b, 0 ≤ crc32 b < u32_modulus) →
  history crc32 acked attempted file →
  ∃ rs, acked `sublist_of` rs ∧ rs `sublist_of` attempted ∧
    ∀ set_len_ok sync_ok,
      load crc32 set_len_ok sync_ok (Some file) = (ok_or (fold rs) Panic, Some file).
Proof using BincodeLaws0.
  intros Hcrc Hh. destruct (history_frames crc32 Hcrc _ _ _ Hh) as (rs & ? & ? & ? & ->).
  exists rs. split_and!; try done. intros. by apply load_intact.
Qed.
End theorems.

(** The cold view of the index survives a restart: replaying the manifest
    and re-inserting its live segments into an empty index gives, for every
    partition, exactly the cold segments of the index that wrote it, whatever
    tiering commits, compactions and hot-tier operations it went through. *)
Theorem restart_restores_cold rs idx :
  tiered rs idx →
  ∃ res, fold rs = Some res ∧
    ∀ tp, get_cold_segments (restore_cold (live res) new) tp = get_cold_segments idx tp.
Proof.
  intros (m & orphans & Hfold & Hm & Hf)%tiered_mirrors. eexists. unfold fold. rewrite Hfold.
  split; [done|]. intros tp. by apply get_cold_segments_entries, restore_mirrors.
Qed.

Lemma restart_restores_cold_witness :
  ∃ idx res, flip_to_cold Demo.tp0 0 2 "k" 9 demo_index = Some idx ∧
    fold [Register (mkCold Demo.tp0 0 2 "k" 9)] = Some res ∧
    get_cold_segments (restore_cold (live res) new) Demo.tp0 = [mkCold Demo.tp0 0 2 "k" 9].
Proof.
  assert (Ht : tiered [] demo_index) by (unfold demo_index; repeat constructor).
  destruct (flip_to_cold Demo.tp0 0 2 "k" 9 demo_index) as [idx|] eqn:E; [|by vm_compute in E].
  destruct (restart_restores_cold _ _ (tiered_register _ _ _ _ _ _ _ _ Ht E)) as (res & Hf & Hr).
  exists idx, res. split; [done|]. split; [exact Hf|]. rewrite Hr. vm_compute in E.
  injection E as <-. reflexivity.
Defined.

Module ManifestDemo.
#[local] Instance codec : Bincode ManifestRecord := DemoCodec.demo.
#[local] Instance codec_laws : BincodeLaws ManifestRecord := DemoCodec.demo_laws.
Definition crc (b : bytes) : Z := zsum id b mod u32_modulus.
Lemma crc_range b : 0 ≤ crc b < u32_modulus.
Proof. by apply Z.mod_pos_bound. Qed.

Definition seg (s e : Offset) (k : string) : ColdSegment := mkCold Demo.tp0 s e k 10.
Definition r0 : ManifestRecord := Register (seg 0 5 "a").
Definition r1 : ManifestRecord := Register (seg 5 9 "b").

Lemma manifest_crash_safe_witness :
  ∃ rs, [r1] `sublist_of` rs ∧ rs `sublist_of` [r0; r1] ∧
    load crc true true (Some (frame crc r1)) = (ok_or (fold rs) Panic, Some (frame crc r1)).
Proof.
  assert (Hfit : ∀ r, r = r0 ∨ r = r1 → fits r) by (intros r [-> | ->]; reflexivity).
  assert (H1 : history crc [] [r0] []).
  { eapply (history_crash crc [] [] r0 6 [] _ []); [constructor|auto|vm_compute; lia|].
    vm_compute. reflexivity. }
  assert (H2 : history crc [r1] [r0; r1] (frame crc r1)).
  { eapply (history_append crc [] [r0] r1); [exact H1|auto|reflexivity]. }
  destruct (manifest_crash_safe crc [r1] [r0; r1] _ crc_range H2) as (rs & ? & ? & Hl).
  exists rs. eauto.
Defined.

(** A failed append is not undone while the broker keeps running: after a
    short write (a full disk) the next append that returns [Ok] is written
    behind the torn frame, and the next [load] drops it with the torn tail,
    although the tiered records it names were evicted and their log segment
    deleted on the strength of that [Ok]. *)
Theorem short_write_strands_next_append :
  let '(res0, f0) := append_record crc (ShortWrite 6) r0 [] in
  let '(res1, f1) := append_record crc NoFault r1 f0 in
  res0 = Err Io ∧ res1 = Ok tt ∧ load crc true true (Some f1) = (Ok default_load, Some []).
Proof. vm_compute. repeat split. Qed.

(** Re-registering a range after a compaction that merged it (the retry of
    a segment that was kept because one of its partitions was fenced) loses
    the other ranges of the merge: the fold maps no object to them, and
    lists the key of the live segment as an orphan that recovery deletes. *)
Theorem reregister_after_compaction_loses_ranges :
  ∃ res,
    fold [r0; r1; Compact (seg 0 9 "m") ["a"; "b"]; r0] = Some res ∧
    live res = [seg 0 5 "a"] ∧ "a" ∈ orphan_object_keys res.
Proof.
  eexists. split; [vm_compute; reflexivity|]. split; [reflexivity|]. vm_compute. left.
Qed.
End ManifestDemo.
