(* ===== verification/SegmentedWal.v ===== *)
(** * The segmented write-ahead log

    Model of [src/src/storage/wal/segmented.rs] and of the buffer of
    [src/src/storage/wal/aligned_buf.rs].  The directory is a map from segment
    sequence number to file contents ([segment_path] and [parse_segment_seq]
    tie the two, see [parse_segment_path]); [FileTask] is the writer thread's
    state.  Every file-system call consumes one outcome of [ft_io], the
    answers of the operating system: success, or failure after some whole
    blocks were written.  Offsets within a file are natural numbers (a file is
    shorter than [2^63] bytes); sizes and counters are [u64]. *)

From Stdlib Require Import Ascii DecimalString.
From S2P Require Import Prelude Types.
Local Open Scope Z_scope.

Definition BLOCK_SIZE : nat := N.to_nat 4096.
Definition HEADER_SIZE : nat := N.to_nat 4096.
Definition SEGMENT_MAGIC : Z := 0x524D5147.
Definition SEGMENT_VERSION : Z := 1.
Definition FRAME_LEN_PREFIX : nat := 8.
#[global] Arguments BLOCK_SIZE : simpl never.
#[global] Arguments HEADER_SIZE : simpl never.

Lemma BLOCK_SIZE_pos : (0 < BLOCK_SIZE)%nat.
Proof. unfold BLOCK_SIZE. lia. Qed.
Lemma BLOCK_SIZE_ne : BLOCK_SIZE ≠ 0%nat.
Proof. pose proof BLOCK_SIZE_pos. lia. Qed.
#[export] Hint Resolve BLOCK_SIZE_pos BLOCK_SIZE_ne : rmq.
Lemma HEADER_BLOCK : HEADER_SIZE = BLOCK_SIZE.
Proof. done. Qed.
Lemma HEADER_large : (24 ≤ HEADER_SIZE)%nat.
Proof. unfold HEADER_SIZE. lia. Qed.
Lemma header_block_u64 : Z.of_nat HEADER_SIZE + Z.of_nat BLOCK_SIZE < u64_modulus.
Proof. reflexivity. Qed.
#[global] Opaque BLOCK_SIZE HEADER_SIZE.

(** ** File names *)

(** [format!("{seq:020}")] *)
Fixpoint zeros_str (n : nat) : string :=
  match n with O => EmptyString | S n => String "0"%char (zeros_str n) end.
Definition pad20 (s : string) : string := zeros_str (20 - String.length s) +:+ s.

Definition segment_file_name (seq : Z) : string := "wal-" +:+ pad20 (dec seq) +:+ ".log".

Definition parse_segment_seq (name : string) : option Z :=
  s ← strip_prefix "wal-" name;
  s ← strip_suffix ".log" s;
  parse_uint u64_modulus s.

(** ** Block-aligned writes *)

(** [n.next_multiple_of(BLOCK_SIZE)] *)
Definition round_up_block (n : nat) : nat :=
  let r := (n mod BLOCK_SIZE)%nat in
  if decide (r = 0)%nat then n else (n + (BLOCK_SIZE - r))%nat.

(** [AlignedBuf::new]: a zeroed buffer, its capacity a positive number of
    blocks. *)
Definition aligned_buf_new (min_capacity : nat) : bytes :=
  replicate (round_up_block (Nat.max min_capacity BLOCK_SIZE)) 0.

(** [pwrite]: a write beyond the end of the file leaves a hole of zeros. *)
Definition write_at (offset : nat) (data file : bytes) : bytes :=
  take offset (file ++ replicate (offset - length file) 0) ++ data
  ++ drop (offset + length data) file.

(** One answer of the operating system to a write, open or fsync. *)
Inductive io_outcome :=
  | IoOk
  | IoFail (blocks : nat).   (* a write fails once [blocks] blocks are written *)

(** The scratch buffer is reused: its first [rounded] bytes are the data and
    zeros, whatever it held before.  [IoFail]: a prefix of whole blocks,
    shorter than the write, reached the file. *)
Definition write_blocks (io : io_outcome) (scratch : bytes) (offset : nat) (data file : bytes)
  : Result unit * bytes * bytes :=
  let rounded := round_up_block (length data) in
  let scratch := if decide (length scratch < rounded)%nat then aligned_buf_new rounded else scratch in
  let buf := data ++ drop (length data) scratch in
  let buf := take (length data) buf ++ replicate (rounded - length data) 0 ++ drop rounded buf in
  match io with
  | IoOk => (Ok tt, buf, write_at offset (take rounded buf) file)
  | IoFail n =>
      let written := Nat.min (n * BLOCK_SIZE) (rounded - BLOCK_SIZE) in
      (Err Io, buf, write_at offset (take written (take rounded buf)) file)
  end.

(** [now_ms] is the creation time in the header. *)
Definition build_header (now_ms seq : Z) : bytes :=
  le_bytes 4 SEGMENT_MAGIC ++ le_bytes 2 SEGMENT_VERSION ++ [0; 0]
  ++ le_bytes 8 seq ++ le_bytes 8 now_ms ++ replicate (HEADER_SIZE - 24) 0.

(** ** The writer thread *)

Record WalConfig := mkWalConfig {
  wc_fsync_on_write : bool;
  wc_segment_size_bytes : Z;
  wc_upload_interval_ms : Z;
}.

Record FileTask := mkTask {
  ft_dir : gmap Z bytes;
  ft_base : nat;
  ft_tail : bytes;
  ft_scratch : bytes;
  ft_active_seq : Z;
  ft_active_size : Z;
  ft_active_start : Z;
  ft_needs_flush : bool;
  ft_config : WalConfig;
  ft_active_seq_shared : Z;
  ft_total_appends : Z;
  ft_io : list io_outcome;
}.

(** The contents of the active file. *)
Definition active_file (t : FileTask) : bytes := default [] (ft_dir t !! ft_active_seq t).

Definition next_io (t : FileTask) : io_outcome * list io_outcome :=
  match ft_io t with [] => (IoOk, []) | o :: io => (o, io) end.

(** [write_blocks(&self.file, &mut self.scratch, self.base, data)] *)
Definition write_task (data : bytes) (t : FileTask) : Result unit * FileTask :=
  let '(o, io) := next_io t in
  let '(res, scratch, file) := write_blocks o (ft_scratch t) (ft_base t) data (active_file t) in
  (res, mkTask (<[ft_active_seq t := file]> (ft_dir t)) (ft_base t) (ft_tail t) scratch
          (ft_active_seq t) (ft_active_size t) (ft_active_start t) (ft_needs_flush t)
          (ft_config t) (ft_active_seq_shared t) (ft_total_appends t) io).

(** [self.file.sync_data()]: the file's contents do not change. *)
Definition sync_data (t : FileTask) : Result unit * FileTask :=
  let '(o, io) := next_io t in
  (match o with IoOk => Ok tt | IoFail _ => Err Io end,
   mkTask (ft_dir t) (ft_base t) (ft_tail t) (ft_scratch t) (ft_active_seq t)
     (ft_active_size t) (ft_active_start t) (ft_needs_flush t) (ft_config t)
     (ft_active_seq_shared t) (ft_total_appends t) io).

Definition set_tail (base : nat) (tail : bytes) (t : FileTask) : FileTask :=
  mkTask (ft_dir t) base tail (ft_scratch t) (ft_active_seq t) (ft_active_size t)
    (ft_active_start t) (ft_needs_flush t) (ft_config t) (ft_active_seq_shared t)
    (ft_total_appends t) (ft_io t).
Definition set_needs_flush (b : bool) (t : FileTask) : FileTask :=
  mkTask (ft_dir t) (ft_base t) (ft_tail t) (ft_scratch t) (ft_active_seq t) (ft_active_size t)
    (ft_active_start t) b (ft_config t) (ft_active_seq_shared t) (ft_total_appends t) (ft_io t).

Local Open Scope rust_scope.

Definition write_complete_blocks (t : FileTask) : Result unit * FileTask :=
  let full := (length (ft_tail t) / BLOCK_SIZE * BLOCK_SIZE)%nat in
  if decide (full = 0)%nat then (Ok tt, t) else
  let! (_u, t) := write_task (take full (ft_tail t)) t in
  (Ok tt, set_needs_flush true (set_tail (ft_base t + full) (drop full (ft_tail t)) t)).

Definition flush (t : FileTask) : Result unit * FileTask :=
  let! (_u, t) := (if decide (ft_tail t = []) then (Ok tt, t) else write_task (ft_tail t) t) in
  let! (_u, t) := sync_data t in
  (Ok tt, set_needs_flush false t).

Definition handle_append (framed : bytes) (t : FileTask) : Result PhysicalLocation * FileTask :=
  let body_len := as_u32 (Z.of_nat (length framed) - Z.of_nat FRAME_LEN_PREFIX) in
  let body_offset := (ft_base t + length (ft_tail t) + FRAME_LEN_PREFIX)%nat in
  let t := set_tail (ft_base t) (ft_tail t ++ framed) t in
  let! (_u, t) := write_complete_blocks t in
  let! (_u, t) := (if wc_fsync_on_write (ft_config t) then flush t
                   else (Ok tt, set_needs_flush true t)) in
  (Ok (mkLoc (ft_active_seq t) (Z.of_nat body_offset) body_len),
   mkTask (ft_dir t) (ft_base t) (ft_tail t) (ft_scratch t) (ft_active_seq t)
     (u64_add (ft_active_size t) (Z.of_nat (length framed))) (ft_active_start t)
     (ft_needs_flush t) (ft_config t) (ft_active_seq_shared t)
     (u64_add (ft_total_appends t) 1) (ft_io t)).

(** [open_new_segment]: create or truncate the file, write the header block,
    fsync. *)
Definition open_new_segment (now_ms seq : Z) (t : FileTask) : Result unit * FileTask :=
  let with_dir dir io (t : FileTask) :=
    mkTask dir (ft_base t) (ft_tail t) (ft_scratch t) (ft_active_seq t) (ft_active_size t)
      (ft_active_start t) (ft_needs_flush t) (ft_config t) (ft_active_seq_shared t)
      (ft_total_appends t) io in
  let '(o, io) := next_io t in
  match o with
  | IoFail _ => (Err Io, with_dir (ft_dir t) io t)
  | IoOk =>
      let t := with_dir (<[seq := []]> (ft_dir t)) io t in
      let '(o, io) := next_io t in
      let '(res, _, file) := write_blocks o (aligned_buf_new HEADER_SIZE) 0
                               (build_header now_ms seq) [] in
      let t := with_dir (<[seq := file]> (ft_dir t)) io t in
      let! (_u, t) := (res, t) in
      sync_data t
  end.

Definition handle_maybe_seal (now_ms : Z) (force : bool) (t : FileTask)
  : Result (option Z) * FileTask :=
  let has_data := 0 <? ft_active_size t in
  let should_seal := has_data &&
    (force || (wc_segment_size_bytes (ft_config t) <=? ft_active_size t)
     || (wc_upload_interval_ms (ft_config t) <=? now_ms - ft_active_start t)) in
  if negb should_seal then (Ok None, t) else
  let! (_u, t) := flush t in
  let sealed_seq := ft_active_seq t in
  let next_seq := u64_add (ft_active_seq t) 1 in
  let! (_u, t) := open_new_segment now_ms next_seq t in
  (Ok (Some sealed_seq),
   mkTask (ft_dir t) HEADER_SIZE [] (ft_scratch t) next_seq 0 now_ms
     (ft_needs_flush t) (ft_config t) next_seq (ft_total_appends t) (ft_io t)).

(** ** Reading segments back *)

(** The [while pos + 8 <= buf.len()] loop; [None] is the panic of slicing
    with an end that wrapped around below the start. *)
Fixpoint walk (fuel : nat) (buf : bytes) (pos : nat) (out : list (nat * bytes))
  : option (list (nat * bytes)) :=
  match fuel with
  | O => Some out
  | S fuel =>
      if decide (length buf < pos + FRAME_LEN_PREFIX)%nat then Some out else
      let body_len := from_le (take 8 (drop pos buf)) in
      if body_len =? 0 then Some out else
      let body_start := (pos + 8)%nat in
      let body_end := u64_add (Z.of_nat body_start) body_len in
      if Z.of_nat (length buf) <? body_end then Some out else
      if body_end <? Z.of_nat body_start then None else
      let len := (Z.to_nat body_end - body_start)%nat in
      walk fuel buf (body_start + len) (out ++ [(body_start, take len (drop body_start buf))])
  end.

(** A segment shorter than its header has no frames. *)
Definition walk_frames (buf : bytes) : option (list (nat * bytes)) :=
  walk (S (length buf)) buf HEADER_SIZE [].

(** [scan_segment_seqs]: the sequence numbers of the directory, sorted. *)
Definition scan_segment_seqs (dir : gmap Z bytes) : list Z := (btree_to_list dir).*1.

Section codec.
Context `{!Bincode WalRecord}.

(** [SegmentedWal::append] frames the record and hands it to the task. *)
Definition frame (record : WalRecord) : bytes :=
  let body := serialize record in le_bytes 8 (Z.of_nat (length body)) ++ body.
Definition append (record : WalRecord) (t : FileTask) : Result PhysicalLocation * FileTask :=
  handle_append (frame record) t.

Definition sealed_segments (t : FileTask) : list Z :=
  filter (λ s, s ≠ ft_active_seq_shared t) (scan_segment_seqs (ft_dir t)).

Fixpoint decode_bodies (l : list (nat * bytes)) : Result (list (nat * WalRecord * nat)) :=
  match l with
  | [] => Ok []
  | (off, body) :: l =>
      let? r := ok_or (deserialize body) Serialization in
      let? rs := decode_bodies l in
      Ok ((off, r, length body) :: rs)
  end.

Definition read_segment_records (seq : Z) (t : FileTask) : Result (list WalRecord) :=
  let? buf := ok_or (ft_dir t !! seq) Io in
  let? bodies := ok_or (walk_frames buf) Panic in
  let? rs := decode_bodies bodies in
  Ok ((λ p, p.1.2) <$> rs).

Definition delete_segment (seq : Z) (t : FileTask) : Result unit * FileTask :=
  (Ok tt, mkTask (delete seq (ft_dir t)) (ft_base t) (ft_tail t) (ft_scratch t) (ft_active_seq t)
            (ft_active_size t) (ft_active_start t) (ft_needs_flush t) (ft_config t)
            (ft_active_seq_shared t) (ft_total_appends t) (ft_io t)).

(** The records of one segment with their locations. *)
Definition recover_segment (seq : Z) (buf : bytes) : Result (list (WalRecord * PhysicalLocation)) :=
  let? bodies := ok_or (walk_frames buf) Panic in
  let? rs := decode_bodies bodies in
  Ok ((λ p, (p.1.2, mkLoc seq (Z.of_nat p.1.1) (as_u32 (Z.of_nat p.2)))) <$> rs).

Fixpoint recover_seqs (dir : gmap Z bytes) (active : Z) (seqs : list Z)
  : Result (list (WalRecord * PhysicalLocation)) :=
  match seqs with
  | [] => Ok []
  | seq :: seqs =>
      if seq =? active then recover_seqs dir active seqs
      else let? buf := ok_or (dir !! seq) Io in
           let? rs := recover_segment seq buf in
           let? rest := recover_seqs dir active seqs in
           Ok (rs ++ rest)
  end.

Definition recover (t : FileTask) : Result (list (WalRecord * PhysicalLocation)) :=
  recover_seqs (ft_dir t) (ft_active_seq_shared t) (scan_segment_seqs (ft_dir t)).

(** [read_at]: flush, then [read_exact]. *)
Definition read_at (seq off len : Z) (t : FileTask) : Result bytes * FileTask :=
  let! (_u, t) := flush t in
  (match ft_dir t !! seq with
   | None => Err Io
   | Some file =>
       if Z.of_nat (length file) <? off + len then Err Io
       else Ok (take (Z.to_nat len) (drop (Z.to_nat off) file))
   end, t).
End codec.

(** [SegmentedWal::new]: existing segments become sealed, writing starts in a
    fresh one. *)
Definition wal_new (config : WalConfig) (now_ms : Z) (dir : gmap Z bytes) (io : list io_outcome)
  : Result unit * FileTask :=
  let active := match last (scan_segment_seqs dir) with
                | Some m => u64_add m 1 | None => 0 end in
  let t := mkTask dir HEADER_SIZE [] (aligned_buf_new BLOCK_SIZE) active 0 now_ms false config
             active 0 io in
  open_new_segment now_ms active t.

(** The command loop of [FileTask::run]. *)
Inductive WalCommand :=
  | CmdAppend (framed : bytes)
  | CmdSync
  | CmdMaybeSeal (now_ms : Z) (force : bool)
  | FlushTick.

Definition run_command (c : WalCommand) (t : FileTask) : FileTask :=
  match c with
  | CmdAppend framed => (handle_append framed t).2
  | CmdSync => (flush t).2
  | CmdMaybeSeal now force => (handle_maybe_seal now force t).2
  | FlushTick => if ft_needs_flush t then (flush t).2 else t
  end.

(** ** Block arithmetic *)

Lemma round_up_spec n :
  (n ≤ round_up_block n < n + BLOCK_SIZE)%nat ∧ (round_up_block n mod BLOCK_SIZE = 0)%nat.
Proof.
  unfold round_up_block. pose proof BLOCK_SIZE_pos.
  pose proof (Nat.mod_upper_bound n BLOCK_SIZE ltac:(lia)).
  case_decide as Hr; [split; [lia|done]|]. split; [lia|].
  pose proof (Nat.div_mod_eq n BLOCK_SIZE) as Hn.
  apply Nat.Div0.mod_divides. exists (n / BLOCK_SIZE + 1)%nat.
  revert Hn H0. generalize (n / BLOCK_SIZE)%nat (n mod BLOCK_SIZE)%nat. intros q r -> ?. lia.
Qed.

(** Two multiples of the block size differ by at least one block. *)
Lemma block_gap a b :
  (a mod BLOCK_SIZE = 0 → b mod BLOCK_SIZE = 0 → a < b → a + BLOCK_SIZE ≤ b)%nat.
Proof.
  intros Ha Hb ?. apply Nat.Div0.mod_divides in Ha as [x ->], Hb as [y ->].
  assert (x < y)%nat by nia. nia.
Qed.

Lemma block_add a b :
  (a mod BLOCK_SIZE = 0 → b mod BLOCK_SIZE = 0 → (a + b) mod BLOCK_SIZE = 0)%nat.
Proof.
  intros Ha Hb. apply Nat.Div0.mod_divides in Ha as [x ->], Hb as [y ->].
  apply Nat.Div0.mod_divides. exists (x + y)%nat. lia.
Qed.

Lemma full_blocks_spec n :
  let full := (n / BLOCK_SIZE * BLOCK_SIZE)%nat in
  (full ≤ n < full + BLOCK_SIZE ∧ full mod BLOCK_SIZE = 0)%nat.
Proof.
  pose proof BLOCK_SIZE_pos. pose proof (Nat.div_mod_eq n BLOCK_SIZE) as Hn.
  pose proof (Nat.mod_upper_bound n BLOCK_SIZE ltac:(lia)) as Hr.
  cbv zeta. split; [|apply Nat.Div0.mod_mul].
  revert Hn Hr. generalize (n / BLOCK_SIZE)%nat (n mod BLOCK_SIZE)%nat. intros q r -> ?. lia.
Qed.

Definition padded (data : bytes) : bytes :=
  data ++ replicate (round_up_block (length data) - length data) 0.

Lemma length_padded data : length (padded data) = round_up_block (length data).
Proof. unfold padded. rewrite length_app, length_replicate. pose proof (round_up_spec (length data)). lia. Qed.

(** What reaches the file does not depend on the old contents of the scratch
    buffer. *)
Lemma write_blocks_file o scratch off data file :
  (write_blocks o scratch off data file).2 =
    write_at off (match o with
                  | IoOk => padded data
                  | IoFail n => take (Nat.min (n * BLOCK_SIZE)
                                        (round_up_block (length data) - BLOCK_SIZE)) (padded data)
                  end) file.
Proof.
  unfold write_blocks. set (sc := if decide _ then _ else _).
  assert (Hbuf : take (round_up_block (length data))
      (take (length data) (data ++ drop (length data) sc)
       ++ replicate (round_up_block (length data) - length data) 0
       ++ drop (round_up_block (length data)) (data ++ drop (length data) sc)) = padded data).
  { rewrite take_app_length, app_assoc. apply take_app_length'. symmetry. apply length_padded. }
  destruct o; cbn [snd]; by rewrite Hbuf.
Qed.

Lemma write_blocks_result o scratch off data file :
  (write_blocks o scratch off data file).1.1 = match o with IoOk => Ok tt | IoFail _ => Err Io end.
Proof. unfold write_blocks. by destruct o. Qed.

Lemma write_at_app off data header file :
  write_at (length header + off) data (header ++ file) = header ++ write_at off data file.
Proof.
  unfold write_at. rewrite length_app, <- !app_assoc, take_app_add, <- app_assoc. do 3 f_equal.
  - do 2 f_equal. lia.
  - rewrite <- Nat.add_assoc, drop_app_add. done.
Qed.

Lemma write_at_within off data file :
  (off ≤ length file)%nat →
  write_at off data file = take off file ++ data ++ drop (off + length data) file.
Proof.
  intros. unfold write_at. replace (off - length file)%nat with 0%nat by lia.
  simpl. by rewrite app_nil_r.
Qed.

(** ** The image of a segment

    [image_ok fs L content]: the part of a segment file after its header,
    for the frames [fs] handed to the writer so far.  [L] bytes of them are
    in the file; the rest of the last block is zero, and this padding only
    follows a frame boundary. *)

Record image_ok (fs : list bytes) (L : nat) (content : bytes) : Prop := {
  img_le : (L ≤ length (concat fs))%nat;
  img_eq : content = take L (concat fs) ++ replicate (length content - L) 0;
  img_len : (L ≤ length content < L + BLOCK_SIZE)%nat;
  img_mod : (length content mod BLOCK_SIZE = 0)%nat;
  img_bound : L = length content ∨ ∃ k, L = length (concat (take k fs));
}.

Lemma image_nil : image_ok [] 0 [].
Proof. pose proof BLOCK_SIZE_pos. split; simpl; auto. Qed.

Lemma image_grow fs f L content : image_ok fs L content → image_ok (fs ++ [f]) L content.
Proof.
  intros [Hle Heq Hlen Hmod Hb]. split; auto.
  - rewrite concat_app, length_app. lia.
  - rewrite concat_app, take_app_le by done. done.
  - destruct Hb as [?|[k Hk]]; [by left|right]. exists (Nat.min k (length fs)).
    rewrite take_app_le by lia. destruct (decide (k ≤ length fs)%nat).
    + by rewrite Nat.min_l.
    + rewrite Nat.min_r, firstn_all by lia. rewrite take_ge in Hk by lia. done.
Qed.

(** Overwriting whole blocks of stream data in place. *)
Lemma image_write_prefix fs L content B m :
  image_ok fs L content → (B ≤ L)%nat → (B mod BLOCK_SIZE = 0)%nat → (m mod BLOCK_SIZE = 0)%nat →
  (B + m ≤ length (concat fs))%nat →
  ∃ L', (L ≤ L')%nat ∧ (B + m ≤ L')%nat ∧
    image_ok fs L' (write_at B (take m (drop B (concat fs))) content).
Proof.
  intros Himg HBL HB Hm Hlen. pose proof Himg as [Hle Heq Hl Hmod Hb].
  rewrite write_at_within by lia.
  assert (Hlm : length (take m (drop B (concat fs))) = m) by (rewrite length_take, length_drop; lia).
  rewrite Hlm.
  assert (HtB : take B content = take B (concat fs)).
  { rewrite Heq, take_app_le by (rewrite length_take; lia). rewrite take_take. f_equal. lia. }
  rewrite HtB, app_assoc, take_take_drop.
  destruct (decide (length content ≤ B + m)%nat) as [Hd|Hd].
  - exists (B + m)%nat. rewrite drop_ge by done. rewrite app_nil_r. split; [lia|]. split; [lia|].
    pose proof BLOCK_SIZE_pos. assert (length (take (B + m) (concat fs)) = (B + m)%nat) by
      (rewrite length_take; lia).
    split; [lia| |lia| |by left].
    + rewrite H0, Nat.sub_diag. simpl. by rewrite app_nil_r.
    + rewrite H0. by apply block_add.
  - pose proof (block_gap (B + m) (length content) (block_add _ _ HB Hm) Hmod ltac:(lia)).
    exists L. split; [lia|]. split; [lia|].
    assert (take (B + m) (concat fs) = take (B + m) content) as ->.
    { rewrite Heq, take_app_le by (rewrite length_take; lia). rewrite take_take. f_equal. lia. }
    by rewrite take_drop.
Qed.

(** Writing the whole tail, zero-padded. *)
Lemma image_write_all fs L content B :
  image_ok fs L content → (B ≤ L)%nat → (B mod BLOCK_SIZE = 0)%nat →
  image_ok fs (length (concat fs)) (write_at B (padded (drop B (concat fs))) content).
Proof.
  intros [Hle Heq Hl Hmod Hb] HBL HB. rewrite write_at_within by lia.
  assert (HtB : take B content = take B (concat fs)).
  { rewrite Heq, take_app_le by (rewrite length_take; lia). rewrite take_take. f_equal. lia. }
  rewrite HtB, length_padded.
  destruct (round_up_spec (length (drop B (concat fs)))) as [Hr Hrm].
  set (R := round_up_block (length (drop B (concat fs)))) in *. rewrite length_drop in Hr.
  assert (length content ≤ B + R)%nat.
  { destruct (decide (length content ≤ B + R)%nat); [done|].
    pose proof (block_gap (B + R) (length content) (block_add _ _ HB Hrm) Hmod). lia. }
  rewrite (drop_ge content) by done. rewrite app_nil_r. unfold padded. fold R.
  rewrite app_assoc, take_drop, length_drop.
  assert (Hlen : length (concat fs ++ replicate (R - (length (concat fs) - B)) 0) = (B + R)%nat)
    by (rewrite length_app, length_replicate; lia).
  split; rewrite ?Hlen.
  - done.
  - rewrite firstn_all. do 2 f_equal. lia.
  - lia.
  - by apply block_add.
  - right. exists (length fs). by rewrite firstn_all.
Qed.

(** ** The writer keeps its segment's image *)

(** [task_inv fs L t]: the active file is a header and an image of the frames
    [fs], of which the last [length tail] bytes are still (also) in memory. *)
Definition task_inv (fs : list bytes) (L : nat) (t : FileTask) : Prop :=
  ∃ header content B,
    length header = HEADER_SIZE ∧
    ft_dir t !! ft_active_seq t = Some (header ++ content) ∧
    ft_base t = (HEADER_SIZE + B)%nat ∧ (B mod BLOCK_SIZE = 0)%nat ∧ (B ≤ L)%nat ∧
    ft_tail t = drop B (concat fs) ∧ image_ok fs L content.

(** What the writes of the task do not touch. *)
Definition same_frame (t t' : FileTask) : Prop :=
  ft_active_seq t' = ft_active_seq t ∧ ft_config t' = ft_config t ∧
  ft_active_seq_shared t' = ft_active_seq_shared t ∧
  ft_active_size t' = ft_active_size t ∧
  ∀ s, s ≠ ft_active_seq t → ft_dir t' !! s = ft_dir t !! s.

Lemma same_frame_refl t : same_frame t t.
Proof. by repeat split. Qed.
Lemma same_frame_trans t1 t2 t3 : same_frame t1 t2 → same_frame t2 t3 → same_frame t1 t3.
Proof.
  intros (A1 & A2 & A3 & A4 & A5) (B1 & B2 & B3 & B4 & B5). repeat split; try congruence.
  intros s Hs. rewrite B5, A5; [done|done|congruence].
Qed.
#[export] Hint Resolve same_frame_refl : rmq.

Lemma task_inv_tail fs L t : task_inv fs L t → (length (ft_tail t) ≤ length (concat fs))%nat.
Proof. intros (h & c & B & _ & _ & _ & _ & _ & -> & _). rewrite length_drop. lia. Qed.

Lemma write_task_spec data t fs L res t' :
  write_task data t = (res, t') → task_inv fs L t → data `prefix_of` ft_tail t →
  (data = ft_tail t ∨ length data mod BLOCK_SIZE = 0)%nat →
  ∃ L', (L ≤ L')%nat ∧ task_inv fs L' t' ∧ same_frame t t' ∧
    ft_base t' = ft_base t ∧ ft_tail t' = ft_tail t ∧
    (res = Ok tt → (ft_base t + length data ≤ HEADER_SIZE + L')%nat ∨ L' = length (concat fs)).
Proof.
  unfold write_task. destruct (next_io t) as [o io].
  destruct (write_blocks _ _ _ _ _) as [[res0 scratch] file] eqn:Ew. intros [= <- <-] Hinv Hpre Hor.
  pose proof (write_blocks_file o (ft_scratch t) (ft_base t) data (active_file t)) as Hf.
  pose proof (write_blocks_result o (ft_scratch t) (ft_base t) data (active_file t)) as Hres.
  rewrite Ew in Hf, Hres. simpl in Hf, Hres.
  destruct Hinv as (header & content & B & Hh & Hdir & Hbase & HB & HBL & Htail & Himg).
  assert (Hact : active_file t = header ++ content) by (unfold active_file; by rewrite Hdir).
  rewrite Hact, Hbase, <- Hh, write_at_app in Hf.
  assert (Hgoal : ∀ L' content', (L ≤ L')%nat → file = header ++ content' → image_ok fs L' content' →
     (res0 = Ok tt → (ft_base t + length data ≤ HEADER_SIZE + L')%nat ∨ L' = length (concat fs)) →
     ∃ L', (L ≤ L')%nat ∧
       task_inv fs L' (mkTask (<[ft_active_seq t := file]> (ft_dir t)) (ft_base t) (ft_tail t) scratch
          (ft_active_seq t) (ft_active_size t) (ft_active_start t) (ft_needs_flush t)
          (ft_config t) (ft_active_seq_shared t) (ft_total_appends t) io) ∧
       same_frame t (mkTask (<[ft_active_seq t := file]> (ft_dir t)) (ft_base t) (ft_tail t) scratch
          (ft_active_seq t) (ft_active_size t) (ft_active_start t) (ft_needs_flush t)
          (ft_config t) (ft_active_seq_shared t) (ft_total_appends t) io) ∧
       ft_base t = ft_base t ∧ ft_tail t = ft_tail t ∧
       (res0 = Ok tt → (ft_base t + length data ≤ HEADER_SIZE + L')%nat ∨ L' = length (concat fs))).
  { intros L' content' HL Hfile Hi Hr. exists L'. split; [done|]. split_and!; try done.
    - exists header, content', B. simpl. rewrite lookup_insert_eq. split_and!; try done; [congruence|lia].
    - repeat split; try done. intros s Hs. simpl. by rewrite lookup_insert_ne. }
  pose proof (img_le _ _ _ Himg) as HLle.
  (* writing [m] bytes of whole blocks of the tail *)
  assert (Hblocks : ∀ m, (m mod BLOCK_SIZE = 0)%nat → (m ≤ length data)%nat →
            file = header ++ write_at B (take m data) content →
            ∃ L' content', (L ≤ L')%nat ∧ (B + m ≤ L')%nat ∧ file = header ++ content' ∧
                           image_ok fs L' content').
  { intros m Hm Hmd Hfile. pose proof (prefix_length _ _ Hpre) as Hl. rewrite Htail, length_drop in Hl.
    destruct (image_write_prefix fs L content B m) as (L' & ? & ? & Hi); try done; [lia|].
    exists L', (write_at B (take m (drop B (concat fs))) content). split_and!; try done.
    rewrite Hfile. do 2 f_equal. destruct Hpre as [rest Hrest]. rewrite <- Htail, Hrest.
    by rewrite take_app_le. }
  destruct o as [|n].
  - destruct Hor as [->|Hmod].
    + eapply Hgoal; [exact HLle|exact Hf| |auto]. rewrite Htail. by apply image_write_all with L.
    + destruct (Hblocks (length data) Hmod ltac:(lia)) as (L' & c' & ? & ? & ? & ?).
      { rewrite Hf. unfold padded. rewrite firstn_all.
        unfold round_up_block. rewrite decide_True by done. rewrite Nat.sub_diag. simpl.
        by rewrite app_nil_r. }
      eapply Hgoal; [done|done|done|]. intros _. left. rewrite Hbase. lia.
  - set (m := Nat.min (n * BLOCK_SIZE) (round_up_block (length data) - BLOCK_SIZE)) in *.
    destruct (round_up_spec (length data)) as [Hru Hrm].
    assert (Hm : (m mod BLOCK_SIZE = 0)%nat).
    { unfold m. destruct (Nat.min_spec (n * BLOCK_SIZE) (round_up_block (length data) - BLOCK_SIZE))
        as [[_ ->]|[_ ->]]; [by apply Nat.Div0.mod_mul|].
      apply Nat.Div0.mod_divides in Hrm as [x ->]. apply Nat.Div0.mod_divides.
      exists (x - 1)%nat. destruct x; lia. }
    destruct (Hblocks m Hm) as (L' & c' & ? & ? & ? & ?); [lia| |].
    { rewrite Hf. unfold padded. rewrite take_app_le by lia. done. }
    eapply Hgoal; [done|done|done|]. by rewrite Hres.
Qed.

Lemma task_inv_drain fs L t full :
  task_inv fs L t → (full mod BLOCK_SIZE = 0)%nat → (ft_base t + full ≤ HEADER_SIZE + L)%nat →
  task_inv fs L (set_needs_flush true (set_tail (ft_base t + full) (drop full (ft_tail t)) t)).
Proof.
  intros (h & c & B & Hh & Hdir & Hbase & HB & HBL & Htail & Himg) Hm Hle.
  exists h, c, (B + full)%nat. simpl. split_and!; try done; try lia.
  - by apply block_add.
  - by rewrite Htail, drop_drop.
Qed.

Lemma write_complete_blocks_spec t fs L res t' :
  write_complete_blocks t = (res, t') → task_inv fs L t →
  ∃ L', (L ≤ L')%nat ∧ task_inv fs L' t' ∧ same_frame t t'.
Proof.
  unfold write_complete_blocks. destruct (full_blocks_spec (length (ft_tail t))) as [Hf Hfm].
  set (full := (length (ft_tail t) / BLOCK_SIZE * BLOCK_SIZE)%nat) in *.
  case_decide as Hz.
  { intros [= <- <-] ?. exists L. auto with rmq. }
  destruct (write_task (take full (ft_tail t)) t) as [r1 t1] eqn:Ew. intros Hk Hinv.
  assert (Hlen : length (take full (ft_tail t)) = full) by (rewrite length_take; lia).
  destruct (write_task_spec _ _ fs L _ _ Ew Hinv) as (L' & HL & Hinv' & Hsame & Hb & Ht & Hok).
  { apply prefix_take. }
  { right. by rewrite Hlen. }
  destruct r1 as [[]|e]; simpl in Hk; injection Hk as <- <-; [|by exists L'].
  exists L'. split; [done|]. split; [|done].
  apply task_inv_drain; [done|done|]. rewrite Hlen in Hok. rewrite Hb.
  destruct (Hok eq_refl) as [|HLn]; [done|].
  destruct Hinv as (h & c & B & _ & _ & Hbase & _ & HBL & Htail & _).
  rewrite Htail, length_drop in Hf. lia.
Qed.

Lemma flush_spec t fs L res t' :
  flush t = (res, t') → task_inv fs L t →
  ∃ L', (L ≤ L')%nat ∧ task_inv fs L' t' ∧ same_frame t t' ∧
    (res = Ok tt → L' = length (concat fs)).
Proof.
  unfold flush. intros Hk Hinv.
  assert (Hwrite : ∀ r1 t1,
    (if decide (ft_tail t = []) then (Ok tt, t) else write_task (ft_tail t) t) = (r1, t1) →
    ∃ L', (L ≤ L')%nat ∧ task_inv fs L' t1 ∧ same_frame t t1 ∧
          (r1 = Ok tt → L' = length (concat fs))).
  { intros r1 t1. pose proof Hinv as (h & c & B & _ & _ & Hbase & _ & HBL & Htail & Himg).
    pose proof (img_le _ _ _ Himg). case_decide as Hd.
    - intros [= <- <-]. exists L. split_and!; auto with rmq. intros _.
      rewrite Hd in Htail. apply (f_equal length) in Htail. rewrite length_drop in Htail.
      simpl in Htail. lia.
    - intros Ew. destruct (write_task_spec _ _ fs L _ _ Ew Hinv) as (L' & ? & Hi & ? & _ & _ & Hok).
      { done. } { by left. }
      exists L'. split_and!; try done. intros Hr. destruct (Hok Hr) as [Hlen|]; [|done].
      destruct Hi as (? & ? & ? & _ & _ & _ & _ & _ & _ & Hi). pose proof (img_le _ _ _ Hi).
      rewrite Hbase, Htail, length_drop in Hlen. lia. }
  destruct (if decide (ft_tail t = []) then _ else _) as [r1 t1].
  destruct (Hwrite r1 t1 eq_refl) as (L' & ? & Hi & Hs & Hok).
  destruct r1 as [[]|e]; simpl in Hk; [|injection Hk as <- <-; by exists L'].
  unfold sync_data in Hk. destruct (next_io t1) as [o io].
  destruct o; simpl in Hk; injection Hk as <- <-; exists L'; auto.
Qed.

Lemma task_inv_grow fs L t f :
  task_inv fs L t → task_inv (fs ++ [f]) L (set_tail (ft_base t) (ft_tail t ++ f) t).
Proof.
  intros (h & c & B & ? & ? & ? & ? & ? & Htail & Himg). pose proof (img_le _ _ _ Himg).
  exists h, c, B. simpl. split_and!; try done.
  - rewrite concat_app, drop_app_le by lia. simpl. by rewrite app_nil_r, Htail.
  - by apply image_grow.
Qed.

Lemma handle_append_spec framed t fs L res t' :
  handle_append framed t = (res, t') → task_inv fs L t →
  ∃ L', (L ≤ L')%nat ∧ task_inv (fs ++ [framed]) L' t' ∧
    ft_active_seq t' = ft_active_seq t ∧ ft_config t' = ft_config t ∧
    ft_active_seq_shared t' = ft_active_seq_shared t ∧
    (∀ s, s ≠ ft_active_seq t → ft_dir t' !! s = ft_dir t !! s) ∧
    (is_ok res = true → wc_fsync_on_write (ft_config t) = true →
       L' = length (concat (fs ++ [framed]))) ∧
    (∀ loc, res = Ok loc →
       loc = mkLoc (ft_active_seq t)
               (Z.of_nat (HEADER_SIZE + length (concat fs) + FRAME_LEN_PREFIX))
               (as_u32 (Z.of_nat (length framed) - Z.of_nat FRAME_LEN_PREFIX))).
Proof.
  unfold handle_append. intros Hk Hinv.
  pose proof Hinv as (h & c & B & _ & _ & Hbase & _ & HBL & Htail & Himg).
  pose proof (img_le _ _ _ Himg) as HLle.
  assert (Hoff : (ft_base t + length (ft_tail t) = HEADER_SIZE + length (concat fs))%nat)
    by (rewrite Hbase, Htail, length_drop; lia). rewrite Hoff in Hk. clear Htail.
  apply (task_inv_grow _ _ _ framed) in Hinv.
  set (t0 := set_tail _ _ t) in *. assert (Hs0 : same_frame t t0) by (by repeat split).
  destruct (write_complete_blocks t0) as [r1 t1] eqn:E1.
  destruct (write_complete_blocks_spec _ _ _ _ _ E1 Hinv) as (L1 & ? & Hinv1 & Hs1).
  pose proof (same_frame_trans _ _ _ Hs0 Hs1) as Ht1.
  destruct r1 as [[]|e]; simpl in Hk.
  2:{ injection Hk as <- <-. exists L1. destruct Ht1 as (? & ? & ? & ? & ?). by split_and!. }
  destruct (wc_fsync_on_write (ft_config t1)) eqn:Ecfg.
  - destruct (flush t1) as [r2 t2] eqn:E2.
    destruct (flush_spec _ _ _ _ _ E2 Hinv1) as (L2 & ? & Hinv2 & Hs2 & Hok).
    pose proof (same_frame_trans _ _ _ Ht1 Hs2) as (Ha & Hc & Hsh & ? & Hd).
    destruct r2 as [[]|e]; simpl in Hk; injection Hk as <- <-; exists L2; split_and!; try done; try lia.
    + intros. by apply Hok.
    + intros loc [= <-]. by rewrite Ha.
  - destruct Ht1 as (Ha & Hc & Hsh & ? & Hd).
    simpl in Hk; injection Hk as <- <-; exists L1; split_and!; try done; try lia.
    + intros _ Hf. congruence.
    + intros loc [= <-]. by rewrite <- Ha.
Qed.

Lemma build_header_length now seq : length (build_header now seq) = HEADER_SIZE.
Proof.
  unfold build_header. rewrite !length_app, !length_le_bytes, length_replicate. simpl.
  pose proof HEADER_large. lia.
Qed.

Lemma write_at_nil data : write_at 0 data [] = data.
Proof. unfold write_at. simpl. by rewrite drop_nil, app_nil_r. Qed.

Lemma padded_header now seq : padded (build_header now seq) = build_header now seq.
Proof.
  unfold padded, round_up_block. rewrite build_header_length, HEADER_BLOCK.
  rewrite Nat.Div0.mod_same. rewrite decide_True by done. rewrite Nat.sub_diag. simpl. by rewrite app_nil_r.
Qed.

(** Whatever fails, only the new file is touched; it is then shorter than a
    header or holds the header alone. *)
Lemma open_new_segment_spec now seq t res t' :
  open_new_segment now seq t = (res, t') →
  ft_active_seq t' = ft_active_seq t ∧ ft_config t' = ft_config t ∧
  ft_active_seq_shared t' = ft_active_seq_shared t ∧ ft_active_size t' = ft_active_size t ∧
  ft_base t' = ft_base t ∧ ft_tail t' = ft_tail t ∧
  (∀ s, s ≠ seq → ft_dir t' !! s = ft_dir t !! s) ∧
  (ft_dir t' !! seq = ft_dir t !! seq ∨
   ∃ file, ft_dir t' !! seq = Some file ∧ (file = [] ∨ file = build_header now seq)) ∧
  (res = Ok tt → ft_dir t' !! seq = Some (build_header now seq)).
Proof.
  unfold open_new_segment. destruct (next_io t) as [o io]; simpl.
  destruct o; [|intros [= <- <-]; split_and!; simpl; auto; done].
  destruct (next_io _) as [o2 io2]. destruct (write_blocks _ _ _ _ _) as [[r1 sc] file] eqn:Ew.
  pose proof (write_blocks_file o2 (aligned_buf_new HEADER_SIZE) 0 (build_header now seq) []) as Hf.
  pose proof (write_blocks_result o2 (aligned_buf_new HEADER_SIZE) 0 (build_header now seq) []) as Hr.
  rewrite Ew in Hf, Hr. cbn [fst snd] in Hf, Hr. rewrite write_at_nil, padded_header in Hf.
  assert (Hfile : file = [] ∨ file = build_header now seq).
  { rewrite Hf. destruct o2; [by right|left].
    assert (round_up_block (length (build_header now seq)) = BLOCK_SIZE) as ->.
    { rewrite <- length_padded, padded_header. apply build_header_length. }
    by rewrite Nat.sub_diag, Nat.min_0_r. }
  assert (Hcommon : ∀ io', let t' := mkTask (<[seq := file]> (<[seq := []]> (ft_dir t))) (ft_base t)
      (ft_tail t) (ft_scratch t) (ft_active_seq t) (ft_active_size t) (ft_active_start t)
      (ft_needs_flush t) (ft_config t) (ft_active_seq_shared t) (ft_total_appends t) io' in
      (∀ s, s ≠ seq → ft_dir t' !! s = ft_dir t !! s) ∧ ft_dir t' !! seq = Some file).
  { intros io'. simpl. split; [intros; by rewrite !lookup_insert_ne|by rewrite lookup_insert_eq]. }
  destruct r1 as [[]|e]; cbn [sbind].
  - unfold sync_data. destruct (next_io _) as [o3 io3].
    intros [= <- <-]. destruct (Hcommon io3) as [H1 H2]. split_and!; try done.
    + right. exists file. done.
    + intros _. destruct o2; [by rewrite <- Hf|done].
  - intros [= <- <-]. destruct (Hcommon io2) as [H1 H2]. split_and!; try done.
    right. exists file. done.
Qed.

Lemma handle_maybe_seal_spec now force t fs L res t' :
  handle_maybe_seal now force t = (res, t') → task_inv fs L t →
  u64_add (ft_active_seq t) 1 ≠ ft_active_seq t →
  (∃ L', (L ≤ L')%nat ∧ task_inv fs L' t' ∧ ft_active_seq t' = ft_active_seq t ∧
     ft_active_seq_shared t' = ft_active_seq_shared t ∧ ft_config t' = ft_config t ∧
     (∀ s, s ≠ ft_active_seq t → s ≠ u64_add (ft_active_seq t) 1 → ft_dir t' !! s = ft_dir t !! s) ∧
     (let s := u64_add (ft_active_seq t) 1 in
      ft_dir t' !! s = ft_dir t !! s ∨
      ∃ file, ft_dir t' !! s = Some file ∧ (file = [] ∨ file = build_header now s)) ∧
     (∀ seq, res ≠ Ok (Some seq))) ∨
  (res = Ok (Some (ft_active_seq t)) ∧ task_inv [] 0 t' ∧
   ft_active_seq t' = u64_add (ft_active_seq t) 1 ∧ ft_active_seq_shared t' = ft_active_seq t' ∧
   ft_config t' = ft_config t ∧
   (∀ s, s ≠ ft_active_seq t → s ≠ ft_active_seq t' → ft_dir t' !! s = ft_dir t !! s) ∧
   ∃ header content, length header = HEADER_SIZE ∧
     ft_dir t' !! ft_active_seq t = Some (header ++ content) ∧
     image_ok fs (length (concat fs)) content).
Proof.
  unfold handle_maybe_seal. intros Hk Hinv Hne.
  destruct (negb _).
  { injection Hk as <- <-. left. exists L. split_and!; auto. }
  destruct (flush t) as [r1 t1] eqn:Ef.
  destruct (flush_spec _ _ _ _ _ Ef Hinv) as (L1 & ? & Hinv1 & (Ha & Hc & Hsh & Hsz & Hd) & Hok).
  destruct r1 as [[]|e]; simpl in Hk.
  2:{ injection Hk as <- <-. left. exists L1. split_and!; auto. }
  destruct (open_new_segment now (u64_add (ft_active_seq t1) 1) t1) as [r2 t2] eqn:Eo.
  destruct (open_new_segment_spec _ _ _ _ _ Eo) as (Oa & Oc & Osh & _ & Ob & Ot & Od & Onew & Ook).
  rewrite Ha in *. specialize (Hok eq_refl).
  destruct Hinv1 as (h & c & B & Hh & Hdir & Hrest). rewrite Ha in Hdir.
  assert (Hact : ft_dir t2 !! ft_active_seq t = Some (h ++ c)) by (rewrite Od; auto).
  destruct r2 as [[]|e]; simpl in Hk; injection Hk as <- <-.
  - right. subst L1. split_and!; try done; simpl; try congruence.
    + exists (build_header now (u64_add (ft_active_seq t) 1)), [], 0%nat. simpl.
      rewrite app_nil_r. split_and!; auto using build_header_length, image_nil.
    + intros s Hs1 Hs2. rewrite Od by done. auto.
    + exists h, c. destruct Hrest as (_ & _ & _ & _ & ?). auto.
  - left. exists L1. split; [lia|]. split_and!; try congruence.
    + exists h, c, B. rewrite Oa, Ob, Ot. auto.
    + intros s Hs1 Hs2. rewrite Od by done. auto.
    + destruct Onew as [->|?]; [left; auto|auto].
Qed.

(** ** Walking an image *)

Section walking.
Context `{!Bincode WalRecord, !BincodeLaws WalRecord}.
Implicit Types (r : WalRecord) (rs : list WalRecord).

Abbreviation stream rs := (concat (frame <$> rs)).

(** The bodies of [rs], framed from position [pos] on. *)
Fixpoint located (pos : nat) rs : list (nat * WalRecord) :=
  match rs with
  | [] => []
  | r :: rs => ((pos + FRAME_LEN_PREFIX)%nat, r) :: located (pos + length (frame r)) rs
  end.
Definition bodies (pos : nat) rs : list (nat * bytes) :=
  (λ p, (p.1, serialize p.2)) <$> located pos rs.
Definition locate (seq : Z) rs : list (WalRecord * PhysicalLocation) :=
  (λ p, (p.2, mkLoc seq (Z.of_nat p.1) (as_u32 (Z.of_nat (length (serialize p.2))))))
    <$> located HEADER_SIZE rs.

Lemma length_wal_frame r : length (frame r) = (FRAME_LEN_PREFIX + length (serialize r))%nat.
Proof. unfold frame. by rewrite length_app, length_le_bytes. Qed.

Lemma from_le_zeros n : from_le (replicate n 0) = 0.
Proof. induction n as [|n IH]; simpl; [done|]. by rewrite IH. Qed.

Lemma walk_zeros fuel pre z out : walk fuel (pre ++ replicate z 0) (length pre) out = Some out.
Proof.
  destruct fuel as [|fuel]; [done|]. cbn [walk]. rewrite drop_app_length.
  case_decide as Hd; [done|]. rewrite take_replicate, from_le_zeros. done.
Qed.

(** A frame whose header is in the buffer is recognised by its length. *)
Lemma frame_length_read r m rest :
  (8 ≤ m)%nat → Z.of_nat (length (serialize r)) < u64_modulus →
  from_le (take 8 (take m (frame r) ++ rest)) = Z.of_nat (length (serialize r)).
Proof.
  intros Hm Hl. unfold frame.
  rewrite take_app_le by (rewrite length_take, length_app, length_le_bytes; lia).
  rewrite take_take, Nat.min_l by done. rewrite take_le_bytes, from_le_roundtrip; [done|].
  split; [lia|]. exact Hl.
Qed.

Lemma walk_frame fuel pre r rest out :
  Z.of_nat (length (pre ++ frame r ++ rest)) < u64_modulus →
  walk (S fuel) (pre ++ frame r ++ rest) (length pre) out
  = walk fuel (pre ++ frame r ++ rest) (length (pre ++ frame r))
      (out ++ [((length pre + FRAME_LEN_PREFIX)%nat, serialize r)]).
Proof using BincodeLaws0.
  intros Hlen. rewrite !length_app, length_wal_frame in Hlen.
  pose proof (serialize_nonempty r) as Hne. unfold FRAME_LEN_PREFIX in *. cbn [walk].
  rewrite decide_False by (rewrite !length_app, length_wal_frame; unfold FRAME_LEN_PREFIX; lia).
  rewrite drop_app_length.
  pose proof (frame_length_read r (length (frame r)) rest) as Hr. rewrite firstn_all in Hr.
  rewrite Hr by (rewrite ?length_wal_frame; unfold FRAME_LEN_PREFIX; lia).
  rewrite (proj2 (Z.eqb_neq _ _)) by lia. rewrite u64_add_small by lia.
  rewrite (proj2 (Z.ltb_ge _ _))
    by (rewrite !length_app, length_wal_frame; unfold FRAME_LEN_PREFIX; lia).
  rewrite (proj2 (Z.ltb_ge _ _)) by lia.
  replace (Z.to_nat (Z.of_nat (length pre + 8) + Z.of_nat (length (serialize r)))
           - (length pre + 8))%nat with (length (serialize r)) by lia.
  f_equal.
  - rewrite length_app, length_wal_frame. unfold FRAME_LEN_PREFIX. lia.
  - do 3 f_equal. rewrite <- drop_drop, drop_app_length. unfold frame.
    rewrite <- app_assoc, drop_le_bytes. apply take_app_length.
Qed.

Lemma walk_torn fuel pre r m out :
  (m < length (frame r))%nat → Z.of_nat (length pre + length (frame r)) < u64_modulus →
  walk (S fuel) (pre ++ take m (frame r)) (length pre) out = Some out.
Proof using BincodeLaws0.
  intros Hm Hlen. rewrite length_wal_frame in *. unfold FRAME_LEN_PREFIX in *.
  pose proof (serialize_nonempty r). cbn [walk]. rewrite length_app, length_take.
  unfold FRAME_LEN_PREFIX. case_decide; [done|]. rewrite drop_app_length.
  pose proof (frame_length_read r m []) as Hr. rewrite app_nil_r in Hr. rewrite Hr by lia.
  rewrite (proj2 (Z.eqb_neq _ _)) by lia. rewrite u64_add_small by lia.
  rewrite (proj2 (Z.ltb_lt _ _)); [done|]. lia.
Qed.

(** Walking [M] bytes of the frames of [rs] and then zeros yields the
    frames that fit in [M] bytes. *)
Lemma walk_image rs : ∀ fuel pre M z out,
  (M < fuel)%nat → (M ≤ length (stream rs))%nat →
  (z = 0%nat ∨ ∃ k, M = length (stream (take k rs))) →
  Z.of_nat (length pre + length (stream rs) + z) < u64_modulus →
  ∃ k, (k ≤ length rs)%nat ∧ (length (stream (take k rs)) ≤ M)%nat ∧
    (∀ j, length (stream (take j rs)) ≤ M → j ≤ length rs → j ≤ k)%nat ∧
    walk fuel (pre ++ take M (stream rs) ++ replicate z 0) (length pre) out
    = Some (out ++ bodies (length pre) (take k rs)).
Proof using BincodeLaws0.
  induction rs as [|r rs IH]; intros fuel pre M z out Hfuel HM Hz Hlen.
  - simpl in HM. exists 0%nat. replace M with 0%nat by lia. simpl. split_and!; try done.
    unfold bodies. simpl. rewrite app_nil_r. apply walk_zeros.
  - destruct fuel as [|fuel]; [lia|].
    cbn [fmap list_fmap concat] in HM, Hlen |- *.
    assert (Hfr : ∀ k, stream (take (S k) (r :: rs)) = frame r ++ stream (take k rs)) by done.
    rewrite length_app in HM, Hlen. pose proof (length_wal_frame r) as Hfl.
    unfold FRAME_LEN_PREFIX in Hfl.
    destruct (decide (length (frame r) ≤ M)%nat) as [Hle|Hgt].
    + rewrite take_app_ge by done. rewrite <- app_assoc, walk_frame.
      2:{ rewrite !length_app, length_take, length_replicate. lia. }
      edestruct (IH fuel (pre ++ frame r) (M - length (frame r))%nat z) as (k & ? & Hk & Hmax & Hw).
      { lia. } { lia. }
      { destruct Hz as [?|[[|k] Hk]]; [by left|simpl in Hk; lia|].
        right. exists k. rewrite Hfr, length_app in Hk. lia. }
      { rewrite length_app. lia. }
      exists (S k). change (length (r :: rs)) with (S (length rs)). rewrite Hfr, length_app. split; [lia|]. split; [lia|]. split.
      * intros [|j]; [lia|]. rewrite Hfr, length_app. intros ? ?.
        assert (j ≤ k)%nat by (apply Hmax; lia). lia.
      * rewrite <- app_assoc in Hw. rewrite Hw. f_equal. rewrite <- app_assoc. f_equal.
        unfold bodies. simpl. by rewrite length_app.
    + exists 0%nat. split; [simpl; lia|]. split; [simpl; lia|]. split.
      { intros [|j]; [lia|]. rewrite Hfr, length_app. lia. }
      unfold bodies. simpl located. rewrite fmap_nil, app_nil_r.
      rewrite take_app_le by lia. destruct Hz as [->|[[|k] Hk]].
      * rewrite app_nil_r. apply walk_torn; lia.
      * simpl in Hk. subst M. rewrite take_0. apply walk_zeros.
      * rewrite Hfr, length_app in Hk. lia.
Qed.
End walking.

(** ** Runs of the log

    [wal_run t log synced]: the log was created in an empty directory and went
    through appends, flushes, rotations, deletions of sealed segments and
    restarts, with any I/O failures; [log] holds, per segment, every record
    handed to the writer (also those whose append returned an error), and
    [synced] how many of them the last successful flush covered.  A crash
    inside an operation is a failure of its next I/O call followed by a
    restart. *)

Section runs.
Context `{!Bincode WalRecord, !BincodeLaws WalRecord}.
Abbreviation stream rs := (concat (frame <$> rs)).

Definition log_of (log : gmap Z (list WalRecord)) (seq : Z) : list WalRecord :=
  default [] (log !! seq).
Definition synced_of (synced : gmap Z nat) (seq : Z) : nat := default 0%nat (synced !! seq).

Inductive wal_run : FileTask → gmap Z (list WalRecord) → gmap Z nat → Prop :=
  | run_new config now io t :
      wal_new config now ∅ io = (Ok tt, t) → wal_run t ∅ ∅
  | run_append t log synced r res t' :
      wal_run t log synced → append r t = (res, t') →
      let seq := ft_active_seq t in
      let rs := log_of log seq ++ [r] in
      Z.of_nat (HEADER_SIZE + length (stream rs) + BLOCK_SIZE) < u64_modulus →
      wal_run t' (<[seq := rs]> log)
        (if is_ok res && wc_fsync_on_write (ft_config t) then <[seq := length rs]> synced else synced)
  | run_flush t log synced res t' :
      wal_run t log synced → flush t = (res, t') →
      let seq := ft_active_seq t in
      wal_run t' log (if is_ok res then <[seq := length (log_of log seq)]> synced else synced)
  | run_seal t log synced now force res t' :
      wal_run t log synced → handle_maybe_seal now force t = (res, t') →
      let seq := ft_active_seq t in
      seq + 2 < u64_modulus →
      wal_run t' log
        (match res with Ok (Some _) => <[seq := length (log_of log seq)]> synced | _ => synced end)
  | run_delete t log synced seq t' :
      wal_run t log synced → seq ∈ sealed_segments t → delete_segment seq t = (Ok tt, t') →
      wal_run t' log synced
  | run_restart t log synced config now io t' :
      wal_run t log synced → wal_new config now (ft_dir t) io = (Ok tt, t') →
      ft_active_seq t + 3 < u64_modulus →
      wal_run t' log synced.

(** A segment file yields a prefix of its records, at least the synced ones. *)
Definition seg_ok (rs : list WalRecord) (n : nat) (seq : Z) (file : bytes) : Prop :=
  ∃ k, (n ≤ k ≤ length rs)%nat ∧ recover_segment seq file = Ok (locate seq (take k rs)).

Record run_inv (t : FileTask) (log : gmap Z (list WalRecord)) (synced : gmap Z nat) : Prop := {
  ri_active : ∃ L, task_inv (frame <$> log_of log (ft_active_seq t)) L t ∧
    (length (stream (take (synced_of synced (ft_active_seq t)) (log_of log (ft_active_seq t)))) ≤ L)%nat;
  ri_synced : (synced_of synced (ft_active_seq t) ≤ length (log_of log (ft_active_seq t)))%nat;
  ri_bound : Z.of_nat (HEADER_SIZE + length (stream (log_of log (ft_active_seq t))) + BLOCK_SIZE)
             < u64_modulus;
  ri_sealed seq file : seq ≠ ft_active_seq t → ft_dir t !! seq = Some file →
    seg_ok (log_of log seq) (synced_of synced seq) seq file;
  ri_shared : ft_active_seq_shared t = ft_active_seq t;
  ri_range : 0 ≤ ft_active_seq t;
  ri_dir seq file : ft_dir t !! seq = Some file → 0 ≤ seq ≤ ft_active_seq t + 1;
  ri_fresh seq : ft_active_seq t < seq → log_of log seq = [] ∧ synced_of synced seq = 0%nat;
}.

Lemma decode_bodies_ok pos rs :
  decode_bodies (bodies pos rs)
  = Ok ((λ p, (p.1, p.2, length (serialize p.2))) <$> located pos rs).
Proof using BincodeLaws0.
  revert pos. induction rs as [|r rs IH]; intros pos; [done|].
  unfold bodies in *. simpl. rewrite deserialize_serialize. simpl. by rewrite IH.
Qed.

Lemma recover_walk seq buf rs :
  walk_frames buf = Some (bodies HEADER_SIZE rs) → recover_segment seq buf = Ok (locate seq rs).
Proof using BincodeLaws0.
  intros Hw. unfold recover_segment. rewrite Hw. cbn [ok_or rbind]. rewrite decode_bodies_ok.
  cbn [rbind]. unfold locate. by rewrite <- list_fmap_compose.
Qed.

Lemma length_records rs : (length rs ≤ length (stream rs))%nat.
Proof.
  induction rs as [|r rs IH]; [done|]. cbn [fmap list_fmap concat].
  rewrite length_app, length_wal_frame. unfold FRAME_LEN_PREFIX. simpl. lia.
Qed.

Lemma length_stream_mono j rs : (length (stream (take j rs)) ≤ length (stream rs))%nat.
Proof.
  rewrite <- (take_drop j rs) at 2. rewrite fmap_app, concat_app, length_app. lia.
Qed.

Lemma image_recover rs L header content seq n :
  length header = HEADER_SIZE → image_ok (frame <$> rs) L content → (n ≤ length rs)%nat →
  (length (stream (take n rs)) ≤ L)%nat →
  Z.of_nat (HEADER_SIZE + length (stream rs) + BLOCK_SIZE) < u64_modulus →
  seg_ok rs n seq (header ++ content).
Proof using BincodeLaws0.
  intros Hh [Hle Heq Hlen Hmod Hb] Hn HnL Hbound.
  set (z := (length content - L)%nat) in *.
  destruct (walk_image rs (S (length (header ++ content))) header L z []) as (k & ? & Hk & Hmax & Hw).
  - rewrite length_app. lia.
  - done.
  - destruct Hb as [->|[k Hk]]; [left; lia|right]. exists k. by rewrite fmap_take.
  - lia.
  - exists k. split; [split; [by apply Hmax|done]|]. apply recover_walk.
    unfold walk_frames. rewrite <- Heq in Hw. rewrite <- Hh. exact Hw.
Qed.

(** Files left behind by a rotation that failed hold no records. *)
Lemma empty_seg_ok seq file now :
  file = [] ∨ file = build_header now seq → seg_ok [] 0 seq file.
Proof using BincodeLaws0.
  intros Hf. exists 0%nat. split; [done|]. apply recover_walk. unfold walk_frames.
  destruct Hf as [->| ->].
  - cbn [walk length]. rewrite decide_True by (pose proof HEADER_large; lia). done.
  - pose proof (walk_zeros (S (length (build_header now seq))) (build_header now seq) 0 []) as Hw.
    cbn [replicate] in Hw. rewrite app_nil_r, build_header_length in Hw.
    rewrite build_header_length. exact Hw.
Qed.

Lemma log_of_insert log seq rs s :
  log_of (<[seq := rs]> log) s = if decide (seq = s) then rs else log_of log s.
Proof. unfold log_of. case_decide; subst; by simplify_map_eq. Qed.
Lemma synced_of_insert syn seq n s :
  synced_of (<[seq := n]> syn) s = if decide (seq = s) then n else synced_of syn s.
Proof. unfold synced_of. case_decide; subst; by simplify_map_eq. Qed.

(** Opening a fresh active segment in a directory of good segments. *)
Lemma wal_new_inv config now dir io t log synced :
  wal_new config now dir io = (Ok tt, t) →
  (∀ seq file, dir !! seq = Some file → seg_ok (log_of log seq) (synced_of synced seq) seq file) →
  (∀ seq file, dir !! seq = Some file → 0 ≤ seq ∧ seq + 1 < u64_modulus) →
  (∀ seq, (∀ s, is_Some (dir !! s) → s < seq) → 0 ≤ seq →
     log_of log seq = [] ∧ synced_of synced seq = 0%nat) →
  run_inv t log synced ∧ dir !! ft_active_seq t = None ∧
  (∀ s, s ≠ ft_active_seq t → ft_dir t !! s = dir !! s).
Proof using BincodeLaws0.
  unfold wal_new. set (active := match last _ with Some m => _ | None => 0 end).
  intros Hopen Hok Hrange Hfresh.
  apply open_new_segment_spec in Hopen as (Ha & _ & Hsh & _ & Hb & Ht & Hd & _ & Hnew).
  cbn [ft_active_seq ft_active_seq_shared ft_base ft_tail ft_dir] in *. specialize (Hnew eq_refl).
  assert (Hact : 0 ≤ active ∧ ∀ s, is_Some (dir !! s) → s < active).
  { pose proof (btree_last dir) as Hl. unfold active, scan_segment_seqs.
    destruct (last (btree_to_list dir).*1) as [m|].
    - destruct Hl as [[f Hm] Hmax]. destruct (Hrange _ _ Hm). rewrite u64_add_small by lia.
      split; [lia|]. intros s Hs. specialize (Hmax s Hs). lia.
    - subst dir. split; [lia|]. intros s [? Hs]. by rewrite lookup_empty in Hs. }
  destruct Hact as [Hpos Hgt].
  assert (Hnone : dir !! active = None).
  { apply eq_None_not_Some. intros Hs. apply Hgt in Hs. lia. }
  destruct (Hfresh active Hgt Hpos) as [Hlog Hsyn].
  rewrite Ha. split; [|done]. split; rewrite ?Ha, ?Hlog, ?Hsyn; try done.
  - exists 0%nat. split; [|simpl; lia].
    exists (build_header now active), [], 0%nat. rewrite Ha, Hb, Ht, app_nil_r.
    split_and!; auto using build_header_length, image_nil.
  - intros seq file Hne. rewrite Hd by done. apply Hok.
  - intros seq file. destruct (decide (seq = active)) as [->|Hne]; [lia|].
    rewrite Hd by done. intros Hs. destruct (Hrange _ _ Hs). pose proof (Hgt seq ltac:(eauto)). lia.
  - intros seq Hs. apply Hfresh; [|lia]. intros s Hs'. specialize (Hgt _ Hs'). lia.
Qed.

Lemma run_append_inv t log synced r res t' :
  run_inv t log synced → append r t = (res, t') →
  let seq := ft_active_seq t in
  let rs := log_of log seq ++ [r] in
  Z.of_nat (HEADER_SIZE + length (stream rs) + BLOCK_SIZE) < u64_modulus →
  run_inv t' (<[seq := rs]> log)
    (if is_ok res && wc_fsync_on_write (ft_config t) then <[seq := length rs]> synced else synced).
Proof.
  intros [(L & Hinv & HL) Hsyn _ Hsealed Hsh Hr Hdir Hfresh] Happ seq rs Hbound.
  destruct (handle_append_spec _ _ _ _ _ _ Happ Hinv)
    as (L' & HLL & Hinv' & Ha & Hc & Hsh' & Hd & Hfsync & _).
  assert (Hrs : (frame <$> log_of log seq) ++ [frame r] = frame <$> rs)
    by (unfold rs; by rewrite fmap_app).
  fold seq in Hinv', Hfsync. rewrite Hrs in Hinv', Hfsync.
  set (syn' := if is_ok res && _ then _ else synced).
  assert (Hsyn' : (synced_of syn' seq ≤ length rs)%nat ∧
                  (length (stream (take (synced_of syn' seq) rs)) ≤ L')%nat).
  { unfold syn'. destruct (is_ok res && wc_fsync_on_write (ft_config t)) eqn:E.
    - apply andb_prop in E as [E1 E2]. rewrite synced_of_insert, decide_True by done.
      rewrite firstn_all, Hfsync by done. done.
    - unfold rs. rewrite length_app. split; [unfold seq; lia|].
      rewrite take_app_le by done. unfold seq. lia. }
  assert (Hother : ∀ s, s ≠ seq → synced_of syn' s = synced_of synced s).
  { intros s Hs. unfold syn'. destruct (_ && _); [|done].
    rewrite synced_of_insert. by rewrite decide_False. }
  split; rewrite ?Ha; try rewrite !log_of_insert, !decide_True by done; try assumption.
  - exists L'. tauto.
  - tauto.
  - intros s file Hne Hs. rewrite log_of_insert, decide_False, Hother by done.
    apply Hsealed; [done|]. by rewrite <- Hd.
  - congruence.
  - intros s file Hs. destruct (decide (s = seq)) as [->|]; [unfold seq; lia|].
    eapply Hdir. by rewrite <- Hd.
  - intros s Hs. rewrite log_of_insert, decide_False, Hother by (unfold seq; lia). by apply Hfresh.
Qed.

Lemma run_flush_inv t log synced res t' :
  run_inv t log synced → flush t = (res, t') →
  run_inv t' log (if is_ok res then <[ft_active_seq t := length (log_of log (ft_active_seq t))]> synced
                  else synced).
Proof.
  intros [(L & Hinv & HL) Hsyn Hb Hsealed Hsh Hr Hdir Hfresh] Hf.
  destruct (flush_spec _ _ _ _ _ Hf Hinv) as (L' & ? & Hinv' & (Ha & Hc & Hsh' & _ & Hd) & Hok).
  set (syn' := if is_ok res then _ else synced).
  assert (Hsyn' : (synced_of syn' (ft_active_seq t) ≤ length (log_of log (ft_active_seq t)))%nat ∧
    (length (stream (take (synced_of syn' (ft_active_seq t)) (log_of log (ft_active_seq t)))) ≤ L')%nat).
  { unfold syn'. destruct res as [[]|]; simpl; [|lia].
    rewrite synced_of_insert, decide_True by done. rewrite firstn_all, Hok by done. done. }
  assert (Hother : ∀ s, s ≠ ft_active_seq t → synced_of syn' s = synced_of synced s).
  { intros s Hs. unfold syn'. destruct (is_ok res); [|done].
    rewrite synced_of_insert. by rewrite decide_False. }
  split; rewrite ?Ha; try assumption.
  - exists L'. tauto.
  - tauto.
  - intros s file Hne Hs. rewrite Hother by done. apply Hsealed; [done|]. by rewrite <- Hd.
  - congruence.
  - intros s file Hs. destruct (decide (s = ft_active_seq t)) as [->|]; [lia|].
    eapply Hdir. by rewrite <- Hd.
  - intros s Hs. rewrite Hother by lia. by apply Hfresh.
Qed.

Lemma run_seal_inv t log synced now force res t' :
  run_inv t log synced → handle_maybe_seal now force t = (res, t') →
  ft_active_seq t + 2 < u64_modulus →
  run_inv t' log
    (match res with
     | Ok (Some _) => <[ft_active_seq t := length (log_of log (ft_active_seq t))]> synced
     | _ => synced end).
Proof using BincodeLaws0.
  intros [(L & Hinv & HL) Hsyn Hb Hsealed Hsh Hr Hdir Hfresh] Hs Hmax.
  assert (Hnext : u64_add (ft_active_seq t) 1 = ft_active_seq t + 1) by (apply u64_add_small; lia).
  apply (handle_maybe_seal_spec _ _ _ _ _ _ _ Hs) in Hinv; [|lia]. cbv zeta in Hinv.
  rewrite Hnext in Hinv. clear Hnext. remember (ft_active_seq t) as a eqn:Ea. clear Ea.
  destruct (Hfresh (a + 1)) as [Hl1 Hs1]; [lia|].
  destruct Hinv as [(L' & ? & Hinv' & Ha & Hsh' & _ & Hd & Hnew & Hres)|
                    (-> & Hinv' & Ha & Hsh' & _ & Hd & h & c & Hh & Hfile & Himg)].
  - assert (match res with Ok (Some _) => <[a := length (log_of log a)]> synced | _ => synced end
            = synced) as ->. { destruct res as [[]|]; try done. by destruct (Hres z). }
    split; rewrite ?Ha; try assumption.
    + exists L'. split; [done|]. lia.
    + intros s file Hne Hfile. destruct (decide (s = a + 1)) as [->|].
      * rewrite Hl1, Hs1. destruct Hnew as [Hsame|(f & Hf & Hc)].
        -- rewrite Hsame in Hfile. specialize (Hsealed _ _ Hne Hfile). by rewrite Hl1, Hs1 in Hsealed.
        -- assert (f = file) as -> by congruence. by eapply empty_seg_ok.
      * apply Hsealed; [done|]. by rewrite <- Hd.
    + congruence.
    + intros s file Hfile. destruct (decide (s = a)); [lia|]. destruct (decide (s = a + 1)); [lia|].
      eapply Hdir. by rewrite <- Hd.
  - assert (Hother : ∀ s, s ≠ a → synced_of (<[a := length (log_of log a)]> synced) s = synced_of synced s).
    { intros s ?. rewrite synced_of_insert. by rewrite decide_False. }
    rewrite Ha in Hd. split; rewrite ?Ha; try rewrite !Hl1; try rewrite !Hother, !Hs1 by lia; try assumption.
    + exists 0%nat. split; [done|]. simpl. lia.
    + simpl. lia.
    + pose proof header_block_u64. change (length (stream [])) with 0%nat. lia.
    + intros s file Hne Hs'. destruct (decide (s = a)) as [->|Hna].
      * rewrite synced_of_insert, decide_True by done. rewrite Hfile in Hs'. injection Hs' as <-.
        eapply image_recover; eauto. by rewrite firstn_all.
      * rewrite Hother by done. apply Hsealed; [done|]. by rewrite <- Hd.
    + congruence.
    + lia.
    + intros s file Hs'. destruct (decide (s = a)); [lia|]. destruct (decide (s = a + 1)); [lia|].
      rewrite Hd in Hs' by lia. specialize (Hdir _ _ Hs'). lia.
    + intros s Hs'. rewrite Hother by lia. apply Hfresh. lia.
Qed.

(** Every file of the directory is recoverable, the active one included. *)
Lemma run_inv_files t log synced seq file :
  run_inv t log synced → ft_dir t !! seq = Some file →
  seg_ok (log_of log seq) (synced_of synced seq) seq file.
Proof using BincodeLaws0.
  intros [(L & Hinv & HL) Hsyn Hb Hsealed _ _ _ _] Hs.
  destruct (decide (seq = ft_active_seq t)) as [->|]; [|by apply Hsealed].
  destruct Hinv as (h & c & B & Hh & Hfile & _ & _ & _ & _ & Himg).
  rewrite Hfile in Hs. injection Hs as <-. by eapply image_recover.
Qed.

Lemma run_restart_inv t log synced config now io t' :
  run_inv t log synced → wal_new config now (ft_dir t) io = (Ok tt, t') →
  ft_active_seq t + 3 < u64_modulus →
  run_inv t' log synced ∧ ft_dir t !! ft_active_seq t' = None ∧
  (∀ s, s ≠ ft_active_seq t' → ft_dir t' !! s = ft_dir t !! s).
Proof using BincodeLaws0.
  intros Hi Hnew Hmax. eapply wal_new_inv; [exact Hnew| | |].
  - intros seq file Hs. by eapply run_inv_files.
  - intros seq file Hs. pose proof (ri_dir _ _ _ Hi _ _ Hs). lia.
  - intros seq Hgt _. apply (ri_fresh _ _ _ Hi). apply Hgt.
    destruct (ri_active _ _ _ Hi) as (L & (h & c & B & _ & Hfile & _) & _). eauto.
Qed.

Lemma wal_run_inv t log synced : wal_run t log synced → run_inv t log synced.
Proof using BincodeLaws0.
  induction 1 as [config now io t Hnew|t log synced r res t' _ IH Happ seq rs Hb
    |t log synced res t' _ IH Hf seq|t log synced now force res t' _ IH Hs seq Hmax
    |t log synced seq t' _ IH Hseq Hdel|t log synced config now io t' _ IH Hnew Hmax].
  - eapply (wal_new_inv config now ∅ io t ∅ ∅); [done| | |].
    + intros seq file. by rewrite lookup_empty.
    + intros seq file. by rewrite lookup_empty.
    + intros seq _ _. unfold log_of, synced_of. by rewrite !lookup_empty.
  - by eapply run_append_inv.
  - by apply run_flush_inv.
  - by eapply run_seal_inv.
  - injection Hdel as <-. destruct IH as [(L & Hinv & HL) Hsyn Hb Hsealed Hsh Hr Hdir Hfresh].
    unfold sealed_segments in Hseq. apply list_elem_of_filter in Hseq as [Hne _].
    rewrite Hsh in Hne. split; simpl; try assumption.
    + exists L. split; [|done]. destruct Hinv as (h & c & B & ? & ? & ?).
      exists h, c, B. simpl. rewrite lookup_delete_ne by done. done.
    + intros s file Hs [_ Hfile]%lookup_delete_Some. by apply Hsealed.
    + intros s file [_ Hfile]%lookup_delete_Some. by eapply Hdir.
  - by eapply run_restart_inv.
Qed.

Lemma recover_seqs_spec dir active seqs f :
  (∀ seq, seq ∈ seqs → seq ≠ active →
     ∃ file, dir !! seq = Some file ∧ recover_segment seq file = Ok (f seq)) →
  recover_seqs dir active seqs = Ok (filter (λ s, s ≠ active) seqs ≫= f).
Proof.
  induction seqs as [|seq seqs IH]; intros Hf; [done|]. simpl. rewrite filter_cons.
  destruct (Z.eqb_spec seq active) as [->|Hne].
  - rewrite decide_False by auto. apply IH. intros; apply Hf; [by right|done].
  - rewrite decide_True by done.
    destruct (Hf seq) as (file & -> & Hr); [by left|done|]. simpl. rewrite Hr. simpl.
    rewrite IH; [done|]. intros; apply Hf; [by right|done].
Qed.

Lemma length_locate seq rs : length (locate seq rs) = length rs.
Proof.
  unfold locate. rewrite length_fmap. generalize HEADER_SIZE.
  induction rs as [|r rs IH]; intros; simpl; auto.
Qed.

Lemma located_app pos rs1 rs2 :
  located pos (rs1 ++ rs2) = located pos rs1 ++ located (pos + length (stream rs1)) rs2.
Proof.
  revert pos. induction rs1 as [|r rs1 IH]; intros pos; cbn [located app fmap list_fmap concat length].
  - by rewrite Nat.add_0_r.
  - rewrite IH, length_app. do 3 f_equal. lia.
Qed.
End runs.

(** ** File names round trip *)

Lemma zeros_str_digits n : str_all is_digit (zeros_str n) = true.
Proof. by induction n. Qed.

Lemma parse_digits_zeros n s : s ≠ EmptyString → parse_digits (zeros_str n +:+ s) = parse_digits s.
Proof.
  intros Hs. induction n as [|n IH]; [done|].
  assert (Hne : zeros_str n +:+ s ≠ EmptyString) by (destruct n; [done|discriminate]).
  rewrite <- IH. unfold parse_digits. change (zeros_str (S n) +:+ s) with (String "0"%char (zeros_str n +:+ s)).
  destruct (zeros_str n +:+ s) as [|c s']; [done|].
  unfold NilZero.uint_of_string. cbn [NilEmpty.uint_of_string uint_of_char].
  by destruct (uint_of_char c (NilEmpty.uint_of_string s')).
Qed.

Lemma dec_not_empty z : dec z ≠ EmptyString.
Proof.
  unfold dec, NilZero.string_of_uint. destruct (Decimal.D0 Decimal.Nil); by destruct (N.to_uint (Z.to_N z)).
Qed.

(** ** Theorems *)

(** The directory scan reads back the sequence number of every segment
    file the log creates. *)
Theorem parse_segment_path seq : is_u64 seq → parse_segment_seq (segment_file_name seq) = Some seq.
Proof.
  intros Hs. unfold parse_segment_seq, segment_file_name. rewrite strip_prefix_app. simpl.
  unfold pad20. set (z := zeros_str _).
  rewrite strip_suffix_app.
  - simpl. unfold parse_uint.
    assert (Hd : str_all is_digit (z +:+ dec seq) = true)
      by (rewrite str_all_app; unfold z; by rewrite zeros_str_digits, dec_digits).
    assert (match z +:+ dec seq with String "+"%char (String _ _ as s') => s' | _ => z +:+ dec seq end
            = z +:+ dec seq) as ->.
    { destruct (z +:+ dec seq) as [|c s]; [done|]. by destruct c as [[] [] [] [] [] [] [] []], s. }
    unfold z. rewrite parse_digits_zeros, parse_digits_dec by (apply dec_not_empty || apply Hs).
    simpl. by rewrite (proj2 (Z.ltb_lt _ _)) by apply Hs.
  - rewrite str_all_app. unfold z. by rewrite zeros_str_digits, dec_digits.
  - done.
Qed.

Lemma parse_segment_path_witness : parse_segment_seq (segment_file_name 42) = Some 42.
Proof. apply parse_segment_path. unfold is_u64, u64_modulus. lia. Defined.

Section theorems.
Context `{!Bincode WalRecord, !BincodeLaws WalRecord}.
Abbreviation stream rs := (concat (frame <$> rs)).

Lemma sealed_elem t seq :
  seq ∈ sealed_segments t ↔ seq ≠ ft_active_seq_shared t ∧ is_Some (ft_dir t !! seq).
Proof. unfold sealed_segments, scan_segment_seqs. by rewrite list_elem_of_filter, btree_keys_elem. Qed.

(** C6: recovery after a crash of the process.  Whatever appends, flushes,
    rotations, deletions, I/O failures and earlier restarts happened, reopening
    the directory as the completed writes left it and recovering succeeds and returns, segment by segment and
    in order, a prefix of the records written to that segment, with their
    locations; the prefix contains every record a successful flush (or an
    append in [fsync_on_write] mode, or a rotation) covered. *)
Theorem wal_recovers_synced t log synced config now io t' :
  wal_run t log synced → ft_active_seq t + 3 < u64_modulus →
  wal_new config now (ft_dir t) io = (Ok tt, t') →
  (∀ seq, seq ∈ sealed_segments t' ↔ is_Some (ft_dir t !! seq)) ∧
  ∃ kept : Z → nat,
    (∀ seq, is_Some (ft_dir t !! seq) →
       (synced_of synced seq ≤ kept seq ≤ length (log_of log seq))%nat) ∧
    recover t' = Ok (sealed_segments t' ≫= λ seq, locate seq (take (kept seq) (log_of log seq))).
Proof using BincodeLaws0.
  intros Hrun%wal_run_inv Hmax Hnew.
  destruct (run_restart_inv _ _ _ _ _ _ _ Hrun Hnew Hmax) as (Hinv' & Hnone & Hd).
  pose proof (ri_shared _ _ _ Hinv') as Hsh.
  assert (Hmem : ∀ seq, seq ∈ sealed_segments t' ↔ is_Some (ft_dir t !! seq)).
  { intros seq. rewrite sealed_elem, Hsh. split.
    - intros [Hne Hs]. by rewrite <- Hd.
    - intros Hs. destruct (decide (seq = ft_active_seq t')) as [->|Hne].
      + rewrite Hnone in Hs. by destruct Hs.
      + by rewrite Hd. }
  split; [done|].
  exists (λ seq, match ft_dir t !! seq with
                 | Some file => match recover_segment seq file with Ok l => length l | Err _ => 0%nat end
                 | None => 0%nat end).
  assert (Hkept : ∀ seq file, ft_dir t !! seq = Some file →
    ∃ l, recover_segment seq file = Ok l ∧ l = locate seq (take (length l) (log_of log seq)) ∧
         (synced_of synced seq ≤ length l ≤ length (log_of log seq))%nat).
  { intros seq file Hs. destruct (run_inv_files _ _ _ _ _ Hrun Hs) as (k & Hk & Hr).
    exists (locate seq (take k (log_of log seq))). split; [done|].
    rewrite length_locate, length_take, Nat.min_l by lia. done. }
  split.
  - intros seq [file Hs]. rewrite Hs. destruct (Hkept _ _ Hs) as (l & -> & _ & ?). done.
  - unfold recover. rewrite Hsh.
    rewrite (recover_seqs_spec _ _ _
      (λ seq, locate seq (take (match ft_dir t !! seq with
                 | Some file => match recover_segment seq file with Ok l => length l | Err _ => 0%nat end
                 | None => 0%nat end) (log_of log seq)))).
    { unfold sealed_segments. by rewrite Hsh. }
    intros seq Hin%btree_keys_elem Hne. rewrite Hd in Hin |- * by done. destruct Hin as [file Hs].
    exists file. split; [done|]. rewrite Hs. destruct (Hkept _ _ Hs) as (l & -> & Hl & _). congruence.
Qed.

(** The physical location returned by an append is where the record is:
    recovery would report exactly this location for it, and reading that
    many bytes there gives the encoded record back. *)
Theorem append_location_correct t log synced r loc t1 data t2 :
  wal_run t log synced → append r t = (Ok loc, t1) →
  let rs := log_of log (ft_active_seq t) ++ [r] in
  Z.of_nat (length (serialize r)) < u32_modulus →
  read_at (wal_segment_seq loc) (file_offset loc) (frame_len loc) t1 = (Ok data, t2) →
  last (locate (ft_active_seq t) rs) = Some (r, loc) ∧ data = serialize r.
Proof using BincodeLaws0.
  intros Hrun Happ rs Hlen Hread. apply wal_run_inv in Hrun.
  destruct (ri_active _ _ _ Hrun) as (L & Hinv & _).
  destruct (handle_append_spec _ _ _ _ _ _ Happ Hinv)
    as (L1 & _ & Hinv1 & Ha & _ & _ & _ & _ & Hloc).
  specialize (Hloc _ eq_refl).
  assert (Hfl : as_u32 (Z.of_nat (length (frame r)) - Z.of_nat FRAME_LEN_PREFIX)
                = Z.of_nat (length (serialize r))).
  { rewrite length_wal_frame. unfold as_u32. rewrite Z.mod_small; lia. }
  rewrite Hfl in Hloc. split.
  { unfold rs, locate. rewrite located_app, fmap_app. cbn [located fmap list_fmap].
    rewrite last_snoc. simpl. rewrite Hloc. unfold as_u32. by rewrite Z.mod_small by lia. }
  subst loc. unfold read_at in Hread. cbn [wal_segment_seq file_offset frame_len] in Hread.
  destruct (flush t1) as [rf tf] eqn:Ef.
  destruct (flush_spec _ _ _ _ _ Ef Hinv1) as (L2 & _ & Hinv2 & (Ha2 & _) & Hok).
  destruct rf as [[]|]; [|done]. cbn [sbind] in Hread. specialize (Hok eq_refl).
  destruct Hinv2 as (h & c & B & Hh & Hfile & _ & _ & _ & _ & Himg).
  rewrite Ha2, Ha in Hfile. rewrite Hfile in Hread.
  destruct (_ <? _); [done|]. injection Hread as <- <-.
  rewrite !Nat2Z.id. rewrite (img_eq _ _ _ Himg), Hok, firstn_all.
  rewrite <- Hh, <- Nat.add_assoc, drop_app_add, concat_app. cbn [concat]. rewrite app_nil_r.
  rewrite <- !app_assoc, drop_app_add. unfold frame at 1. rewrite <- app_assoc.
  unfold FRAME_LEN_PREFIX. rewrite drop_le_bytes. apply take_app_length.
Qed.
End theorems.

(** ** Concrete runs *)

Module WalDemo.
#[local] Instance codec : Bincode WalRecord := DemoCodec.demo.
#[local] Instance codec_laws : BincodeLaws WalRecord := DemoCodec.demo_laws.
Definition r0 : WalRecord := Demo.wal Demo.tp0 0 Demo.rec0.
Definition config : WalConfig := mkWalConfig true 1000 60000.
Definition t0 : FileTask := (wal_new config 7 ∅ []).2.
Definition t1 : FileTask := (append r0 t0).2.
Definition t2 : FileTask := (wal_new config 9 (ft_dir t1) []).2.

Lemma run_t1 : wal_run t1 (<[0 := [r0]]> ∅) (<[0 := 1%nat]> ∅).
Proof.
  assert (H0 : wal_run t0 ∅ ∅) by (eapply (run_new config 7 []); vm_compute; reflexivity).
  assert (H1 : append r0 t0 = ((append r0 t0).1, t1)) by (unfold t1; by destruct (append r0 t0)).
  pose proof (run_append t0 ∅ ∅ r0 _ t1 H0 H1) as H2. cbv zeta in H2.
  assert (Hseq : ft_active_seq t0 = 0) by (vm_compute; reflexivity).
  assert (Hok : is_ok (append r0 t0).1 && wc_fsync_on_write (ft_config t0) = true)
    by (vm_compute; reflexivity).
  rewrite Hseq, Hok in H2. apply H2. vm_compute. reflexivity.
Qed.

Lemma wal_recovers_synced_witness :
  ∃ kept : Z → nat, (1 ≤ kept 0%Z)%nat ∧
    recover t2 = Ok (sealed_segments t2 ≫= λ seq, locate seq (take (kept seq)
                       (log_of (<[0 := [r0]]> ∅) seq))).
Proof.
  destruct (wal_recovers_synced t1 _ _ config 9 [] t2 run_t1) as (_ & kept & Hk & Hr).
  - vm_compute. reflexivity.
  - vm_compute. reflexivity.
  - exists kept. split; [|exact Hr].
    destruct (Hk 0) as [Hk0 _]; [|exact Hk0]. vm_compute. eauto.
Defined.

Lemma append_location_correct_witness :
  ∃ loc data t', append r0 t0 = (Ok loc, t1) ∧
    read_at (wal_segment_seq loc) (file_offset loc) (frame_len loc) t1 = (Ok data, t') ∧
    data = serialize r0.
Proof.
  assert (H0 : wal_run t0 ∅ ∅) by (eapply (run_new config 7 []); vm_compute; reflexivity).
  set (loc := mkLoc 0 4104 (Z.of_nat (length (serialize r0)))).
  exists loc, (serialize r0), (flush t1).2.
  assert (H1 : append r0 t0 = (Ok loc, t1)) by (vm_compute; reflexivity).
  assert (H2 : read_at (wal_segment_seq loc) (file_offset loc) (frame_len loc) t1
               = (Ok (serialize r0), (flush t1).2)) by (vm_compute; reflexivity).
  split; [done|]. split; [done|].
  refine (proj2 (append_location_correct t0 ∅ ∅ r0 loc t1 (serialize r0) (flush t1).2 H0 H1 _ H2)).
  vm_compute. reflexivity.
Defined.

(** The same log, whose first fsync after the creation of the segment (three
    I/O calls) and the write of the tail block fails. *)
Definition f0 : FileTask := (wal_new config 7 ∅ [IoOk; IoOk; IoOk; IoOk; IoFail 0]).2.
Definition f1 : FileTask := (append r0 f0).2.
Definition f2 : FileTask := (wal_new config 9 (ft_dir f1) []).2.

(** An append that returned an error is not undone: its frame stays in
    the tail block, and recovery resurrects the record although the producer
    was told that it failed. *)
Theorem failed_append_resurrected :
  (append r0 f0).1 = Err Io ∧
  ∃ loc, recover f2 = Ok [(r0, loc)].
Proof. split; [vm_compute; reflexivity|]. eexists. vm_compute. reflexivity. Qed.
End WalDemo.
