(* ===== verification/LruCache.v ===== *)
(** * The sharded LRU cache

    Model of [LruCacheShard], [LruCache] and [CacheManager] of
    [src/src/storage/cache.rs] and of the trait [Cache] of
    [src/src/storage/traits.rs].  A shard is its entry map, its recency queue
    and its byte counter; [hash] stands for [DefaultHasher].  The trait's
    clients rely on [CacheLaws]: a cache never invents a value. *)

From S2P Require Import Prelude.
Local Open Scope Z_scope.

(** ** The trait *)

Class Cache (C : Type) := {
  cache_get : string → C → Result (option bytes) * C;
  cache_put : string → bytes → C → Result unit * C;
  cache_remove : string → C → Result unit * C;
}.
#[global] Hint Mode Cache ! : typeclass_instances.

(** A value that is found was put there; entries may disappear at any time. *)
Class CacheLaws (C : Type) `{!Cache C} := {
  cache_view : C → string → option bytes;
  cache_get_law k c r c' : cache_get k c = (r, c') →
    (∀ k' v, cache_view c' k' = Some v → cache_view c k' = Some v) ∧
    (∀ v, r = Ok (Some v) → cache_view c k = Some v);
  cache_put_law k v c r c' : cache_put k v c = (r, c') →
    ∀ k' v', cache_view c' k' = Some v' → (k' = k ∧ v' = v) ∨ (k' ≠ k ∧ cache_view c k' = Some v');
  cache_remove_law k c r c' : cache_remove k c = (r, c') →
    ∀ k' v', cache_view c' k' = Some v' → k' ≠ k ∧ cache_view c k' = Some v';
}.

(** A cache that does not fail: its operations succeed in usable states and
    lead to usable states. *)
Class CacheTotal (C : Type) `{!Cache C} := {
  cache_usable : C → Prop;
  cache_get_usable k c r c' : cache_get k c = (r, c') → cache_usable c → cache_usable c';
  cache_put_total k v c r c' : cache_put k v c = (r, c') → cache_usable c → r = Ok tt ∧ cache_usable c';
  cache_remove_total k c r c' : cache_remove k c = (r, c') → cache_usable c → r = Ok tt ∧ cache_usable c';
}.

(** ** One shard *)

Record CacheEntry := mkEntry { ce_data : bytes; ce_access_count : Z }.

Record LruCacheShard := mkShard {
  sh_entries : gmap string CacheEntry;
  sh_order : list string;
  sh_current_size : Z;
  sh_max_size_bytes : Z;
}.

Definition shard_new (max_size_bytes : Z) : LruCacheShard := mkShard ∅ [] 0 max_size_bytes.

Definition entry_size (e : CacheEntry) : Z := Z.of_nat (length (ce_data e)).

(** The [while *current_size + new_entry_size > max] loop; it pops one key of
    the queue per iteration. *)
Fixpoint evict (order : list string) (new_entry_size : Z) (s : LruCacheShard) : LruCacheShard :=
  if sh_max_size_bytes s <? u64_add (sh_current_size s) new_entry_size then
    match order with
    | [] => s
    | key :: order =>
        let s := match sh_entries s !! key with
                 | Some e => mkShard (delete key (sh_entries s)) order
                               (u64_sub (sh_current_size s) (entry_size e)) (sh_max_size_bytes s)
                 | None => mkShard (sh_entries s) order (sh_current_size s) (sh_max_size_bytes s)
                 end in
        evict order new_entry_size s
    end
  else s.
Definition evict_if_needed (new_entry_size : Z) (s : LruCacheShard) : LruCacheShard :=
  evict (sh_order s) new_entry_size s.

(** [order.iter().position(|x| x == key)] and [order.remove(pos)] *)
Fixpoint remove_first (key : string) (order : list string) : list string :=
  match order with
  | [] => []
  | k :: order => if String.eqb k key then order else k :: remove_first key order
  end.

Definition shard_get (key : string) (s : LruCacheShard) : option bytes * LruCacheShard :=
  match sh_entries s !! key with
  | Some e =>
      (Some (ce_data e),
       mkShard (<[key := mkEntry (ce_data e) (u64_add (ce_access_count e) 1)]> (sh_entries s))
         (remove_first key (sh_order s) ++ [key]) (sh_current_size s) (sh_max_size_bytes s))
  | None => (None, s)
  end.

Definition shard_put (key : string) (value : bytes) (s : LruCacheShard) : LruCacheShard :=
  let size := Z.of_nat (length value) in
  let s := evict_if_needed size s in
  let '(order, current) :=
    match sh_entries s !! key with
    | Some old => (sh_order s, u64_sub (sh_current_size s) (entry_size old))
    | None => (sh_order s ++ [key], sh_current_size s)
    end in
  mkShard (<[key := mkEntry value 1]> (sh_entries s)) order (u64_add current size)
    (sh_max_size_bytes s).

Definition shard_remove (key : string) (s : LruCacheShard) : LruCacheShard :=
  match sh_entries s !! key with
  | Some e => mkShard (delete key (sh_entries s)) (sh_order s)
                (u64_sub (sh_current_size s) (entry_size e)) (sh_max_size_bytes s)
  | None => s
  end.

Definition shard_clear (s : LruCacheShard) : LruCacheShard :=
  mkShard ∅ [] 0 (sh_max_size_bytes s).

(** ** The cache *)

Record LruCache := mkLru { lru_shards : list LruCacheShard }.

Definition SHARD_COUNT : nat := 16.
Definition lru_new (max_size_bytes : Z) : LruCache :=
  mkLru (replicate SHARD_COUNT (shard_new (max_size_bytes / Z.of_nat SHARD_COUNT))).

Section lru.
Context (hash : string → Z).

Definition get_shard (c : LruCache) (key : string) : nat :=
  Z.to_nat (hash key mod Z.of_nat (length (lru_shards c))).

Definition lru_get (key : string) (c : LruCache) : Result (option bytes) * LruCache :=
  let i := get_shard c key in
  match lru_shards c !! i with
  | None => (Err Panic, c)
  | Some s => let '(v, s) := shard_get key s in (Ok v, mkLru (<[i := s]> (lru_shards c)))
  end.
Definition lru_put (key : string) (value : bytes) (c : LruCache) : Result unit * LruCache :=
  let i := get_shard c key in
  match lru_shards c !! i with
  | None => (Err Panic, c)
  | Some s => (Ok tt, mkLru (<[i := shard_put key value s]> (lru_shards c)))
  end.
Definition lru_remove (key : string) (c : LruCache) : Result unit * LruCache :=
  let i := get_shard c key in
  match lru_shards c !! i with
  | None => (Err Panic, c)
  | Some s => (Ok tt, mkLru (<[i := shard_remove key s]> (lru_shards c)))
  end.
Definition lru_clear (c : LruCache) : LruCache := mkLru (shard_clear <$> lru_shards c).
(** [size]: the number of entries. *)
Definition lru_size (c : LruCache) : nat :=
  foldr (λ s n, (size (sh_entries s) + n)%nat) 0%nat (lru_shards c).

Definition lru_cache : Cache LruCache := {|
  cache_get := lru_get; cache_put := lru_put; cache_remove := lru_remove |}.
End lru.

(** ** Invariant of a shard *)

Definition bytes_held (s : LruCacheShard) : Z := msum entry_size (sh_entries s).

(** The counter is exact, every entry can be evicted, and the budget holds
    unless nothing but the newest entry is left. *)
Record shard_ok (s : LruCacheShard) : Prop := {
  ok_size : sh_current_size s = bytes_held s;
  ok_bound : bytes_held s < u64_modulus;
  ok_order k : is_Some (sh_entries s !! k) → k ∈ sh_order s;
}.

Lemma bytes_held_nonneg (m : gmap string CacheEntry) : 0 ≤ msum entry_size m.
Proof. apply msum_nonneg. intros k e _. unfold entry_size. lia. Qed.

Lemma shard_new_ok n : shard_ok (shard_new n).
Proof.
  split; unfold bytes_held, shard_new; simpl.
  - by rewrite msum_empty.
  - by rewrite msum_empty.
  - intros k [e He]. by rewrite lookup_empty in He.
Qed.

Lemma remove_first_elem k key order : k ∈ order → k ≠ key → k ∈ remove_first key order.
Proof.
  induction order as [|x order IH]; simpl; [done|].
  intros [->|Hin]%elem_of_cons Hne.
  - destruct (String.eqb_spec x key); [done|by left].
  - destruct (String.eqb_spec x key); [done|right; auto].
Qed.

Lemma entry_le_held (m : gmap string CacheEntry) k e : m !! k = Some e → 0 ≤ entry_size e ≤ msum entry_size m.
Proof.
  intros He. rewrite (msum_delete entry_size m k e) by done.
  pose proof (bytes_held_nonneg (delete k m)).
  assert (0 ≤ entry_size e) by (unfold entry_size; lia). lia.
Qed.

(** Eviction keeps the shard well formed, only removes entries, and makes
    room or empties the queue. *)
Lemma evict_spec order n s :
  shard_ok (mkShard (sh_entries s) order (sh_current_size s) (sh_max_size_bytes s)) →
  sh_order s = order → 0 ≤ n < u64_modulus →
  bytes_held s + n < u64_modulus →
  let s' := evict order n s in
  shard_ok s' ∧ sh_max_size_bytes s' = sh_max_size_bytes s ∧ sh_entries s' ⊆ sh_entries s ∧
  (bytes_held s' + n ≤ sh_max_size_bytes s ∨ sh_order s' = []) ∧ bytes_held s' ≤ bytes_held s.
Proof.
  revert s. induction order as [|key order IH]; intros s [Hsz Hb Hord] Ho Hn Hfit; simpl.
  - pose proof (bytes_held_nonneg (sh_entries s)). unfold bytes_held in *. simpl in *.
    rewrite u64_add_small by lia. case_cond; split_and!; try done; try (left; lia); try lia; auto.
    all: split; unfold bytes_held; simpl; auto; by rewrite Ho.
  - pose proof (bytes_held_nonneg (sh_entries s)). unfold bytes_held in *. simpl in *.
    rewrite u64_add_small by lia. case_cond; [|split_and!; try done; try (left; lia); try lia;
      split; unfold bytes_held; simpl; auto; by rewrite Ho].
    destruct (sh_entries s !! key) as [e|] eqn:E.
    + pose proof (entry_le_held _ _ _ E). pose proof (msum_delete entry_size _ _ _ E).
      set (s1 := mkShard (delete key (sh_entries s)) order _ _).
      destruct (IH s1) as (A & B & C & D & F); unfold s1 in *; simpl in *.
      * split; unfold bytes_held; simpl; [rewrite u64_sub_small by lia; lia|lia|].
        intros k [x [Hne Hk]%lookup_delete_Some].
        assert (k ∈ key :: order) as [|]%elem_of_cons by eauto; [congruence|done].
      * done.
      * lia.
      * lia.
      * split_and!; try done; [|lia]. etrans; [done|]. apply delete_subseteq.
    + set (s1 := mkShard (sh_entries s) order _ _).
      destruct (IH s1) as (A & B & C & D & F); unfold s1 in *; simpl in *; try done.
      split; unfold bytes_held; simpl; auto. intros k Hk.
      assert (k ∈ key :: order) as [->|]%elem_of_cons by eauto; [|done].
      rewrite E in Hk. by destruct Hk.
Qed.

Lemma shard_put_spec k v s :
  shard_ok s → bytes_held s + Z.of_nat (length v) < u64_modulus →
  let s' := shard_put k v s in
  shard_ok s' ∧ sh_max_size_bytes s' = sh_max_size_bytes s ∧
  (∃ n, sh_entries s' !! k = Some (mkEntry v n)) ∧
  (∀ k' e, sh_entries s' !! k' = Some e → k' ≠ k → sh_entries s !! k' = Some e) ∧
  (bytes_held s' ≤ sh_max_size_bytes s ∨ bytes_held s' = Z.of_nat (length v)).
Proof.
  intros Hok Hfit. unfold shard_put, evict_if_needed.
  pose proof (bytes_held_nonneg (sh_entries s)) as Hpos. unfold bytes_held in Hfit.
  destruct (evict_spec (sh_order s) (Z.of_nat (length v)) s) as ([Hsz Hb Hord] & Hmax & Hsub & Hroom & Hle);
    [by destruct s|done|lia|done|].
  set (s1 := evict _ _ s) in *. unfold bytes_held in *.
  pose proof (bytes_held_nonneg (sh_entries s1)).
  assert (Hin : msum entry_size (<[k := mkEntry v 1]> (sh_entries s1))
                = Z.of_nat (length v) + msum entry_size (sh_entries s1)
                  - from_option entry_size 0 (sh_entries s1 !! k)) by (by rewrite msum_insert).
  assert (Hempty : sh_order s1 = [] → sh_entries s1 = ∅).
  { intros Ho. apply map_empty. intros j. apply eq_None_not_Some. intros Hj%Hord.
    rewrite Ho in Hj. by apply elem_of_nil in Hj. }
  destruct (sh_entries s1 !! k) as [old|] eqn:E; simpl in *.
  - pose proof (entry_le_held _ _ _ E).
    split; [split; unfold bytes_held; simpl|].
    + rewrite Hin, Hsz. rewrite u64_sub_small by (unfold bytes_held; lia).
      rewrite u64_add_small by (unfold bytes_held; lia). lia.
    + lia.
    + intros k' [e He]. destruct (decide (k' = k)) as [->|]; [apply Hord; eauto|].
      rewrite lookup_insert_ne in He by done. apply Hord. eauto.
    + split_and!; [done| | |].
      * exists 1. by rewrite lookup_insert_eq.
      * intros k' e He Hne. rewrite lookup_insert_ne in He by done. by eapply lookup_weaken.
      * destruct Hroom as [?|Ho]; [left; lia|].
        rewrite (Hempty Ho), lookup_empty in E. done.
  - split; [split; unfold bytes_held; simpl|].
    + rewrite Hin, Hsz. unfold bytes_held. rewrite u64_add_small by lia. lia.
    + lia.
    + intros k' [e He]. apply elem_of_app. destruct (decide (k' = k)) as [->|].
      { right. by apply list_elem_of_singleton. }
      left. rewrite lookup_insert_ne in He by done. apply Hord. eauto.
    + split_and!; [done| | |].
      * exists 1. by rewrite lookup_insert_eq.
      * intros k' e He Hne. rewrite lookup_insert_ne in He by done. by eapply lookup_weaken.
      * destruct Hroom as [?|Ho]; [left; lia|right].
        assert (msum entry_size (sh_entries s1) = 0) by (rewrite (Hempty Ho); apply msum_empty). lia.
Qed.

Lemma shard_get_spec k s :
  shard_ok s →
  let '(v, s') := shard_get k s in
  v = ce_data <$> sh_entries s !! k ∧ shard_ok s' ∧
  ∀ k', ce_data <$> sh_entries s' !! k' = ce_data <$> sh_entries s !! k'.
Proof.
  intros [Hsz Hb Hord]. unfold shard_get. destruct (sh_entries s !! k) as [e|] eqn:E; simpl; [|by split_and!].
  assert (Hsum : msum entry_size (<[k := mkEntry (ce_data e) (u64_add (ce_access_count e) 1)]> (sh_entries s))
                 = msum entry_size (sh_entries s)).
  { rewrite msum_insert, E. simpl. unfold entry_size at 1 3. simpl. lia. }
  split; [done|]. split; [split; unfold bytes_held in *; simpl|].
  - congruence.
  - lia.
  - intros k' [x Hx]. apply elem_of_app. destruct (decide (k' = k)) as [->|].
    { right. by apply list_elem_of_singleton. }
    left. apply remove_first_elem; [|done]. apply Hord. rewrite lookup_insert_ne in Hx by done. eauto.
  - intros k'. destruct (decide (k' = k)) as [->|]; [by rewrite lookup_insert_eq, E|].
    by rewrite lookup_insert_ne.
Qed.

Lemma shard_remove_spec k s :
  shard_ok s → shard_ok (shard_remove k s) ∧ sh_entries (shard_remove k s) = delete k (sh_entries s).
Proof.
  intros [Hsz Hb Hord]. unfold shard_remove. destruct (sh_entries s !! k) as [e|] eqn:E; simpl.
  - pose proof (entry_le_held _ _ _ E). pose proof (msum_delete entry_size _ _ _ E).
    split; [|done]. unfold bytes_held in *. split; unfold bytes_held; simpl.
    + rewrite u64_sub_small by lia. lia.
    + lia.
    + intros k' [x [_ Hx]%lookup_delete_Some]. apply Hord. eauto.
  - rewrite delete_id by done. by split.
Qed.

(** ** The cache never invents a value *)

Section laws.
Context (hash : string → Z).

Definition lru_view (c : LruCache) (k : string) : option bytes :=
  s ← lru_shards c !! get_shard hash c k; ce_data <$> sh_entries s !! k.

Lemma lru_view_new n k : lru_view (lru_new n) k = None.
Proof.
  unfold lru_view. destruct (lru_shards (lru_new n) !! _) as [s|] eqn:E; [|done]. simpl.
  apply list_elem_of_lookup_2, elem_of_replicate in E as [-> _]. done.
Qed.

(** Replacing the shard of [k] by one whose entries are related. *)
Lemma lru_view_update c k s s' k' v :
  lru_shards c !! get_shard hash c k = Some s →
  lru_view (mkLru (<[get_shard hash c k := s']> (lru_shards c))) k' = Some v →
  (get_shard hash c k' = get_shard hash c k ∧ ce_data <$> sh_entries s' !! k' = Some v) ∨
  (get_shard hash c k' ≠ get_shard hash c k ∧ lru_view c k' = Some v).
Proof.
  intros Hs. unfold lru_view. simpl.
  assert (Hg : get_shard hash (mkLru (<[get_shard hash c k:=s']> (lru_shards c))) k' = get_shard hash c k')
    by (unfold get_shard; simpl; by rewrite length_insert).
  rewrite Hg. destruct (decide (get_shard hash c k' = get_shard hash c k)) as [->|Hne].
  - rewrite list_lookup_insert_eq by (eapply lookup_lt_Some; eauto). simpl. auto.
  - rewrite list_lookup_insert_ne by done. auto.
Qed.

Lemma evict_lookup order n s k e : sh_entries (evict order n s) !! k = Some e → sh_entries s !! k = Some e.
Proof.
  revert s. induction order as [|key order IH]; intros s; simpl; case_match; try done.
  destruct (sh_entries s !! key) as [x|] eqn:E; intros He; apply IH in He; simpl in He; [|done].
  by apply lookup_delete_Some in He as [_ He].
Qed.

Program Definition lru_cache_laws : @CacheLaws LruCache (lru_cache hash) := {|
  cache_view := lru_view
|}.
Next Obligation.
  intros k c r c'. simpl. unfold lru_get.
  destruct (lru_shards c !! get_shard hash c k) as [s|] eqn:Es; [|by intros [= <- <-]].
  destruct (shard_get k s) as [v s'] eqn:Eg. intros [= <- <-]. unfold shard_get in Eg. split.
  - intros k' v'. intros [[Hg Hv]|[_ Hv]]%(lru_view_update c k s s' k' v'); [|done|done].
    unfold lru_view. rewrite Hg, Es. simpl.
    destruct (sh_entries s !! k) as [e|] eqn:E; simplify_eq; simpl in *; [|done].
    destruct (decide (k' = k)) as [->|]; [by rewrite lookup_insert_eq in Hv; rewrite E|].
    by rewrite lookup_insert_ne in Hv.
  - intros v' [= ->]. unfold lru_view. rewrite Es. simpl.
    destruct (sh_entries s !! k) as [e|]; simplify_eq. done.
Qed.
Next Obligation.
  intros k v c r c'. simpl. unfold lru_put.
  destruct (lru_shards c !! get_shard hash c k) as [s|] eqn:Es.
  2: { intros [= <- <-] k' v' Hv. right. split; [|done]. intros ->. unfold lru_view in Hv. by rewrite Es in Hv. }
  intros [= <- <-] k' v' [[Hg Hv]|[Hne Hv]]%(lru_view_update c k s); [|right; split; [by intros ->|done]|done].
  destruct (decide (k' = k)) as [->|Hne].
  - left. split; [done|]. unfold shard_put in Hv. destruct (match sh_entries _ !! k with Some _ => _ | None => _ end).
    simpl in Hv. rewrite lookup_insert_eq in Hv. by injection Hv.
  - right. split; [done|]. unfold lru_view. rewrite Hg, Es. simpl. unfold shard_put in Hv.
    destruct (match sh_entries _ !! k with Some _ => _ | None => _ end). simpl in Hv.
    rewrite lookup_insert_ne in Hv by done. apply fmap_Some in Hv as (e & He & ->).
    apply evict_lookup in He. by rewrite He.
Qed.
Next Obligation.
  intros k c r c'. simpl. unfold lru_remove.
  destruct (lru_shards c !! get_shard hash c k) as [s|] eqn:Es.
  - intros [= <- <-] k' v' [[Hg Hv]|[Hne Hv]]%(lru_view_update c k s); [| |done].
    + unfold shard_remove in Hv. destruct (sh_entries s !! k) as [e|] eqn:E; simpl in Hv.
      * apply fmap_Some in Hv as (x & [Hne Hx]%lookup_delete_Some & ->). split; [done|].
        unfold lru_view. rewrite Hg, Es. simpl. by rewrite Hx.
      * unfold lru_view. rewrite Hg, Es. simpl. split; [|done]. intros ->. by rewrite E in Hv.
    + split; [|done]. by intros ->.
  - intros [= <- <-] k' v' Hv. split; [|done]. intros ->. unfold lru_view in Hv. by rewrite Es in Hv.
Qed.

(** With a shard to choose, the chosen one exists. *)
Lemma get_shard_exists c k : (0 < length (lru_shards c))%nat → ∃ s, lru_shards c !! get_shard hash c k = Some s.
Proof.
  intros Hl. apply lookup_lt_is_Some_2. unfold get_shard.
  pose proof (Z.mod_pos_bound (hash k) (Z.of_nat (length (lru_shards c)))). lia.
Qed.
Program Definition lru_cache_total : @CacheTotal LruCache (lru_cache hash) := {|
  cache_usable c := (0 < length (lru_shards c))%nat
|}.
Next Obligation.
  intros k c r c'. simpl. unfold lru_get. destruct (_ !! _) as [s|]; [|by intros [= <- <-]].
  destruct (shard_get k s) as [v s']. intros [= <- <-]. simpl. by rewrite length_insert.
Qed.
Next Obligation.
  intros k v c r c'. simpl. unfold lru_put. intros E Hl. destruct (get_shard_exists c k Hl) as [s Hs]. rewrite Hs in E.
  injection E as <- <-. simpl. by rewrite length_insert.
Qed.
Next Obligation.
  intros k c r c'. simpl. unfold lru_remove. intros E Hl. destruct (get_shard_exists c k Hl) as [s Hs]. rewrite Hs in E.
  injection E as <- <-. simpl. by rewrite length_insert.
Qed.
End laws.

(** ** Cache manager *)

Record CacheManager (C : Type) := mkCM { cm_write_cache : C; cm_read_cache : C }.
Arguments mkCM {C}. Arguments cm_write_cache {C}. Arguments cm_read_cache {C}.

Section manager.
Context {C : Type} `{!Cache C}.

Definition serve_read (key : string) (m : CacheManager C) : Result (option bytes) * CacheManager C :=
  match cache_get key (cm_write_cache m) with
  | (Ok (Some d), w) => (Ok (Some d), mkCM w (cm_read_cache m))
  | (Ok None, w) =>
      let '(r, c) := cache_get key (cm_read_cache m) in (r, mkCM w c)
  | (Err e, w) => (Err e, mkCM w (cm_read_cache m))
  end.
Definition cache_write (key : string) (data : bytes) (m : CacheManager C)
  : Result unit * CacheManager C :=
  let '(r, w) := cache_put key data (cm_write_cache m) in (r, mkCM w (cm_read_cache m)).
Definition cache_read (key : string) (data : bytes) (m : CacheManager C)
  : Result unit * CacheManager C :=
  let '(r, c) := cache_put key data (cm_read_cache m) in (r, mkCM (cm_write_cache m) c).
End manager.

(** ** Theorems *)

Inductive shard_op := OpGet (k : string) | OpPut (k : string) (v : bytes) | OpRemove (k : string) | OpClear.

Definition run_shard_op (op : shard_op) (s : LruCacheShard) : LruCacheShard :=
  match op with
  | OpGet k => (shard_get k s).2
  | OpPut k v => shard_put k v s
  | OpRemove k => shard_remove k s
  | OpClear => shard_clear s
  end.

(** The largest value ever put. *)
Definition op_size (op : shard_op) : Z :=
  match op with OpPut _ v => Z.of_nat (length v) | _ => 0 end.

Lemma run_shard_op_ok op s m :
  shard_ok s → sh_max_size_bytes s = m → 0 ≤ m → bytes_held s + op_size op < u64_modulus →
  shard_ok (run_shard_op op s) ∧ sh_max_size_bytes (run_shard_op op s) = m ∧
  bytes_held (run_shard_op op s) ≤ Z.max m (Z.max (bytes_held s) (op_size op)) ∧
  (bytes_held s ≤ m → bytes_held (run_shard_op op s) ≤ Z.max m (op_size op)).
Proof.
  intros Hok <- Hm Hfit. destruct op as [k|k v|k|]; simpl in *.
  - pose proof (shard_get_spec k s Hok) as Hg. unfold shard_get in *.
    destruct (sh_entries s !! k) as [e|] eqn:E; simpl in *; [|split_and!; [done|done|lia|lia]].
    destruct Hg as (_ & Hok' & _). split_and!; [done|done|..];
      rewrite <- !(ok_size _ Hok); rewrite <- !(ok_size _ Hok'); simpl; lia.
  - destruct (shard_put_spec k v s Hok Hfit) as (Hok' & Hmax & _ & _ & [?|?]); split_and!; try done; lia.
  - destruct (shard_remove_spec k s Hok) as [Hok' He]. split_and!; [done| | |].
    + unfold shard_remove. by destruct (sh_entries s !! k).
    + unfold bytes_held. rewrite He, msum_delete'.
      destruct (sh_entries s !! k) as [e|] eqn:E; simpl; [|lia]. pose proof (entry_le_held _ _ _ E). lia.
    + unfold bytes_held. rewrite He, msum_delete'.
      destruct (sh_entries s !! k) as [e|] eqn:E; simpl; [|lia]. pose proof (entry_le_held _ _ _ E). lia.
  - split_and!; [apply (shard_new_ok (sh_max_size_bytes s))|done|..];
      unfold bytes_held; simpl; rewrite msum_empty; lia.
Qed.

(** The cache respects its budget.  After any sequence of gets, puts,
    removes and clears of values no larger than [vmax], the byte counter of a
    shard is exactly the size of what it holds, every entry is still on the
    eviction queue, and what it holds exceeds the shard's budget only while a
    single value larger than the budget is cached. *)
Theorem shard_budget ops m vmax :
  0 ≤ m → 0 ≤ vmax → m + vmax + vmax < u64_modulus → Forall (λ op, op_size op ≤ vmax) ops →
  let s := foldl (λ s op, run_shard_op op s) (shard_new m) ops in
  sh_current_size s = bytes_held s ∧ (∀ k, is_Some (sh_entries s !! k) → k ∈ sh_order s) ∧
  bytes_held s ≤ Z.max m vmax ∧ (vmax ≤ m → bytes_held s ≤ m).
Proof.
  intros Hm Hv Hfit Hops.
  assert (Hinv : ∀ s, shard_ok s → sh_max_size_bytes s = m → bytes_held s ≤ Z.max m vmax →
    let s' := foldl (λ s op, run_shard_op op s) s ops in
    shard_ok s' ∧ bytes_held s' ≤ Z.max m vmax).
  { induction Hops as [|op ops Hop Hops IH]; intros s Hok Hmax Hb; simpl; [done|].
    destruct (run_shard_op_ok op s m Hok Hmax Hm) as (Hok' & Hmax' & Hb' & _); [lia|].
    apply IH; [done|done|lia]. }
  destruct (Hinv (shard_new m)) as [[Hsz _ Hord] Hb].
  - apply shard_new_ok.
  - done.
  - unfold bytes_held. simpl. rewrite msum_empty. lia.
  - split_and!; [done|done|done|lia].
Qed.

Lemma shard_budget_witness :
  let s := foldl (λ s op, run_shard_op op s) (shard_new 5)
             [OpPut "a" [1; 2; 3]; OpPut "b" [4; 5; 6]; OpGet "b"] in
  bytes_held s = 3 ∧ bytes_held s ≤ 5.
Proof.
  split; [vm_compute; reflexivity|].
  apply (shard_budget [OpPut "a" [1; 2; 3]; OpPut "b" [4; 5; 6]; OpGet "b"] 5 3); try (vm_compute; done).
  repeat constructor; simpl; lia.
Defined.
