(* ===== verification/ObjectStorage.v ===== *)
(** * Object storage, bandwidth limiter and upload manager

    Model of [src/src/storage/object_storage.rs] and of the traits
    [ObjectStorage] and [UploadManager] of [src/src/storage/traits.rs].  The
    upload manager is written against the class [ObjectStorage]; the class
    [ObjectStorageLaws] is what a backend promises, and [LocalObjectStorage]
    discharges it for the keys that survive its sanitization.  [crc32],
    [lz4_compress] and [lz4_decompress] stand for the crates the code calls.
    Object keys are ASCII. *)

From Stdlib Require Import Ascii HexadecimalString.
From S2P Require Import Prelude Types.
Local Open Scope Z_scope.

Record ObjectVersion := mkVersion { ov_e_tag : option string; ov_version : option string }.
#[global] Instance ObjectVersion_eq_dec : EqDecision ObjectVersion.
Proof. solve_decision. Defined.

Inductive Precondition := Create | Match (v : ObjectVersion).
Inductive PutOutcome := Written (v : ObjectVersion) | PreconditionFailed.

(** ** The trait *)

Class ObjectStorage (S : Type) := {
  os_put : string → bytes → S → Result unit * S;
  os_put_if : string → bytes → Precondition → S → Result PutOutcome * S;
  os_get : string → S → Result bytes * S;
  os_get_versioned : string → S → Result (bytes * ObjectVersion) * S;
  os_delete : string → S → Result unit * S;
}.
#[global] Hint Mode ObjectStorage ! : typeclass_instances.

(** What a backend promises for the keys it accepts: objects are independent,
    a successful write is read back, [NotFound] means absence, and a backend
    without faults pending ([os_reliable]) does not fail.  A write that fails
    leaves its own key in an unknown state. *)
Class ObjectStorageLaws (S : Type) `{!ObjectStorage S} := {
  os_view : S → string → option bytes;
  os_ok_key : string → bool;
  os_reliable : S → Prop;
  os_get_law k s r s' : os_ok_key k = true → os_get k s = (r, s') →
    (∀ k', os_ok_key k' = true → os_view s' k' = os_view s k') ∧
    (os_reliable s → os_reliable s') ∧
    match r with
    | Ok d => os_view s k = Some d
    | Err e => (e = NotFound ∧ os_view s k = None) ∨ (e ≠ NotFound ∧ ¬ os_reliable s)
    end;
  os_put_law k d s r s' : os_ok_key k = true → os_put k d s = (r, s') →
    (∀ k', os_ok_key k' = true → k' ≠ k → os_view s' k' = os_view s k') ∧
    (os_reliable s → os_reliable s') ∧
    match r with
    | Ok _ => os_view s' k = Some d
    | Err e => e ≠ NotFound ∧ ¬ os_reliable s
    end;
  os_delete_law k s r s' : os_ok_key k = true → os_delete k s = (r, s') →
    (∀ k', os_ok_key k' = true → k' ≠ k → os_view s' k' = os_view s k') ∧
    (os_reliable s → os_reliable s') ∧
    match r with
    | Ok _ => os_view s' k = None
    | Err e => ¬ os_reliable s
    end;
}.

(** ** Local storage *)

Definition is_alphanumeric (c : ascii) : bool :=
  let n := N_of_ascii c in
  is_digit c || ((65 <=? n)%N && (n <=? 90)%N) || ((97 <=? n)%N && (n <=? 122)%N).

Fixpoint str_filter (P : ascii → bool) (s : string) : string :=
  match s with
  | EmptyString => EmptyString
  | String c s => if P c then String c (str_filter P s) else str_filter P s
  end.

Definition key_char (c : ascii) : bool :=
  is_alphanumeric c || Ascii.eqb c "/"%char || Ascii.eqb c "-"%char
  || Ascii.eqb c "_"%char || Ascii.eqb c "."%char.

Fixpoint contains_dotdot (s : string) : bool :=
  match s with
  | String c1 (String c2 _ as s') =>
      (Ascii.eqb c1 "."%char && Ascii.eqb c2 "."%char) || contains_dotdot s'
  | _ => false
  end.
Definition starts_with_slash (s : string) : bool :=
  match s with String c _ => Ascii.eqb c "/"%char | EmptyString => false end.

(** [base_path.join(sanitized)] as the operating system resolves it: the
    components below the base directory, without empty and [.] ones. *)
Definition path_of (s : string) : list string :=
  filter (λ c, c ≠ EmptyString ∧ c ≠ "."%string) (split_on "/"%char s).

Definition key_to_path (key : string) : Result (list string) :=
  let sanitized := str_filter key_char key in
  if contains_dotdot sanitized || starts_with_slash sanitized then Err InvalidConfig
  else if String.eqb sanitized EmptyString then Err InvalidConfig
  else Ok (path_of sanitized).

(** Outcome of the file-system calls of one operation: no fault, a failure
    before the file changes, a write cut after [n] bytes, a failed fsync. *)
Inductive storage_fault := FOk | FEarly | FShort (n : nat) | FLate.

Record LocalObjectStorage := mkLocal {
  ls_files : gmap (list string) bytes;
  ls_faults : list storage_fault;
}.

Definition next_fault (s : LocalObjectStorage) : storage_fault * LocalObjectStorage :=
  match ls_faults s with
  | [] => (FOk, s)
  | f :: fs => (f, mkLocal (ls_files s) fs)
  end.

(** [create_dir_all], [File::create], [write_all], [sync_all] *)
Definition write_file (path : list string) (data : bytes) (s : LocalObjectStorage)
  : Result unit * LocalObjectStorage :=
  let '(f, s) := next_fault s in
  match f with
  | FOk => (Ok tt, mkLocal (<[path := data]> (ls_files s)) (ls_faults s))
  | FEarly => (Err Io, s)
  | FShort n => (Err Io, mkLocal (<[path := take n data]> (ls_files s)) (ls_faults s))
  | FLate => (Err Io, mkLocal (<[path := data]> (ls_files s)) (ls_faults s))
  end.

(** [fs::read]: any fault is an error other than [NotFound]. *)
Definition read_file (path : list string) (s : LocalObjectStorage)
  : Result bytes * LocalObjectStorage :=
  let '(f, s) := next_fault s in
  match f with
  | FOk => (ok_or (ls_files s !! path) NotFound, s)
  | _ => (Err Io, s)
  end.

Local Open Scope rust_scope.

(** Run with the path of a key, or report that the key is refused. *)
Definition with_path {A} (key : string) (s : LocalObjectStorage)
    (k : list string → Result A * LocalObjectStorage) : Result A * LocalObjectStorage :=
  match key_to_path key with Ok path => k path | Err e => (Err e, s) end.

Section local.
Context (crc32 : bytes → Z).

(** [format!("{:08x}", hash(bytes))] *)
Definition pad8 (s : string) : string :=
  String.substring 0 (8 - String.length s) "00000000" +:+ s.
Definition local_etag (data : bytes) : string :=
  pad8 (HexadecimalString.NilZero.string_of_uint (N.to_hex_uint (Z.to_N (crc32 data)))).

Definition local_put (key : string) (data : bytes) (s : LocalObjectStorage) :=
  with_path key s (λ path, write_file path data s).

Definition precondition_ok (expect : Precondition) (current : option bytes) : bool :=
  match expect, current with
  | Create, None => true
  | Create, Some _ => false
  | Match _, None => false
  | Match v, Some data => bool_decide (ov_e_tag v = Some (local_etag data))
  end.

Definition local_put_if (key : string) (data : bytes) (expect : Precondition)
    (s : LocalObjectStorage) : Result PutOutcome * LocalObjectStorage :=
  with_path key s (λ path,
    let '(r, s) := read_file path s in
    match r with
    | Err e =>
        if decide (e = NotFound) then
          if precondition_ok expect None then
            let! (_u, s) := write_file path data s in
            (Ok (Written (mkVersion (Some (local_etag data)) None)), s)
          else (Ok PreconditionFailed, s)
        else (Err e, s)
    | Ok current =>
        if precondition_ok expect (Some current) then
          let! (_u, s) := write_file path data s in
          (Ok (Written (mkVersion (Some (local_etag data)) None)), s)
        else (Ok PreconditionFailed, s)
    end).

Definition local_get (key : string) (s : LocalObjectStorage) :=
  with_path key s (λ path, read_file path s).

Definition local_get_versioned (key : string) (s : LocalObjectStorage)
  : Result (bytes * ObjectVersion) * LocalObjectStorage :=
  with_path key s (λ path,
    let! (data, s) := read_file path s in
    (Ok (data, mkVersion (Some (local_etag data)) None), s)).

(** [range.end - range.start] wraps, and a buffer beyond [isize::MAX] panics;
    [read_exact] fails at end of file. *)
Definition local_get_range (key : string) (start end_ : Z) (s : LocalObjectStorage)
  : Result bytes * LocalObjectStorage :=
  with_path key s (λ path,
    let! (data, s) := read_file path s in
    let read_size := u64_sub end_ start in
    if u64_modulus / 2 <=? read_size then (Err Panic, s) else
    if Z.of_nat (length data) <? start + read_size
    then (if read_size =? 0 then (Ok [], s) else (Err Io, s))
    else (Ok (take (Z.to_nat read_size) (drop (Z.to_nat start) data)), s)).

Definition local_exists (key : string) (s : LocalObjectStorage) : Result bool :=
  let? path := key_to_path key in Ok (bool_decide (is_Some (ls_files s !! path))).

Definition local_delete (key : string) (s : LocalObjectStorage)
  : Result unit * LocalObjectStorage :=
  with_path key s (λ path,
    if bool_decide (is_Some (ls_files s !! path)) then
      let '(f, s) := next_fault s in
      match f with
      | FOk => (Ok tt, mkLocal (delete path (ls_files s)) (ls_faults s))
      | _ => (Err Io, s)
      end
    else (Ok tt, s)).

Definition local_storage : ObjectStorage LocalObjectStorage := {|
  os_put := local_put;
  os_put_if := local_put_if;
  os_get := local_get;
  os_get_versioned := local_get_versioned;
  os_delete := local_delete;
|}.
End local.

(** ** Bandwidth limiter *)

Record BandwidthLimiter := mkLimiter {
  bl_capacity : Z;
  bl_tokens : Z;
  bl_refill_rate : Z;
  bl_last_refill : Z;    (* milliseconds *)
}.

Definition limiter_new (capacity refill_rate now : Z) : BandwidthLimiter :=
  mkLimiter capacity capacity refill_rate now.

Definition refill_tokens (now : Z) (l : BandwidthLimiter) : BandwidthLimiter :=
  let elapsed := Z.max 0 (now - bl_last_refill l) in
  if 10 <=? elapsed then
    let tokens_to_add := (elapsed * bl_refill_rate l) mod u64_modulus / 1000 in
    let new_tokens := Z.min (u64_add (bl_tokens l) tokens_to_add) (bl_capacity l) in
    mkLimiter (bl_capacity l) new_tokens (bl_refill_rate l) now
  else l.

(** The [acquire] loop.  [clock] lists the times at which the successive
    refills happen; when they run out the caller is still waiting. *)
Fixpoint acquire (clock : list Z) (n : Z) (l : BandwidthLimiter)
  : Result unit * (BandwidthLimiter * list Z) :=
  if n <=? bl_tokens l then
    (Ok tt, (mkLimiter (bl_capacity l) (bl_tokens l - n) (bl_refill_rate l) (bl_last_refill l), clock))
  else match clock with
       | [] => (Err Blocked, (l, []))
       | now :: clock => acquire clock n (refill_tokens now l)
       end.

(** ** Upload manager *)

Inductive StorageType := S3 | Gcs | Azure | Local.

Record UploadManagerImpl (S : Type) := mkUM {
  um_storage : S;
  um_limiter : BandwidthLimiter;
  um_clock : list Z;
  um_storage_type : StorageType;
  um_multipart_threshold : Z;
}.
Arguments mkUM {S}. Arguments um_storage {S}. Arguments um_limiter {S}. Arguments um_clock {S}.
Arguments um_storage_type {S}. Arguments um_multipart_threshold {S}.

Definition um_new {S} (storage : S) (storage_type : StorageType) (threshold now : Z) (clock : list Z)
  : UploadManagerImpl S :=
  mkUM storage (limiter_new (100 * 1024 * 1024) (10 * 1024 * 1024) now) clock storage_type threshold.

Definition set_storage {S} (s : S) (u : UploadManagerImpl S) : UploadManagerImpl S :=
  mkUM s (um_limiter u) (um_clock u) (um_storage_type u) (um_multipart_threshold u).

(** Run a storage call within the manager. *)
Definition lift_storage {S A} (f : S → Result A * S) (u : UploadManagerImpl S)
  : Result A * UploadManagerImpl S :=
  let '(r, s) := f (um_storage u) in (r, set_storage s u).

Definition segment_key (seg : WalSegment) : string :=
  "topics/" +:+ tp_topic (seg_tp seg) +:+ "/" +:+ dec (tp_partition (seg_tp seg)) +:+ "/"
  +:+ dec (seg_start seg) +:+ "_" +:+ dec (seg_end seg) +:+ ".seg".

(** [trim_end_matches(".seg")] *)
Fixpoint trim_seg (fuel : nat) (s : string) : string :=
  match fuel with
  | O => s
  | S fuel => match strip_suffix ".seg" s with Some s => trim_seg fuel s | None => s end
  end.

(** [data.chunks(n)] *)
Fixpoint chunks (fuel n : nat) (data : bytes) : list bytes :=
  match fuel, data with
  | O, _ | _, [] => []
  | S fuel, _ => take n data :: chunks fuel n (drop n data)
  end.
Definition CHUNK_SIZE : nat := N.to_nat (5 * 1024 * 1024).
#[global] Arguments CHUNK_SIZE : simpl never.

Section upload.
Context {St : Type} `{!ObjectStorage St}.
Context (crc32 : bytes → Z) (lz4_compress : bytes → bytes) (lz4_decompress : bytes → option bytes).

Definition compress_segment (st : StorageType) (data : bytes) : bytes :=
  match st with Local => data | _ => lz4_compress data end.

Definition simple_upload (data : bytes) (key : string) (u : UploadManagerImpl St)
  : Result string * UploadManagerImpl St :=
  let! (_u, u) := lift_storage (os_put key data) u in (Ok key, u).

(** The chunks are uploaded concurrently under distinct keys; the first
    failure is reported. *)
Fixpoint upload_chunks (key : string) (idx : nat) (cs : list bytes) (u : UploadManagerImpl St)
  : Result unit * UploadManagerImpl St :=
  match cs with
  | [] => (Ok tt, u)
  | c :: cs =>
      let! (_u, u) := lift_storage (os_put (key +:+ ".part" +:+ dec (Z.of_nat idx)) c) u in
      upload_chunks key (S idx) cs u
  end.
Definition multipart_upload (data : bytes) (key : string) (u : UploadManagerImpl St)
  : Result string * UploadManagerImpl St :=
  let! (_u, u) := upload_chunks key 0 (chunks (length data) CHUNK_SIZE data) u in (Ok key, u).

Definition verify_upload (key : string) (expected : bytes) (u : UploadManagerImpl St)
  : Result bool * UploadManagerImpl St :=
  let! (d, u) := lift_storage (os_get key) u in (Ok (bool_decide (d = expected)), u).

(** The object's bytes: the compressed data and its checksum. *)
Definition seal_data (st : StorageType) (data : bytes) : bytes :=
  let compressed := compress_segment st data in compressed ++ le_bytes 4 (crc32 compressed).

Definition upload_segment (seg : WalSegment) (u : UploadManagerImpl St)
  : Result string * UploadManagerImpl St :=
  let '(res, (limiter, clock)) := acquire (um_clock u) (Z.of_nat (length (seg_data seg))) (um_limiter u) in
  let u := mkUM (um_storage u) limiter clock (um_storage_type u) (um_multipart_threshold u) in
  let! (_u, u) := (res, u) in
  let data_with_crc := seal_data (um_storage_type u) (seg_data seg) in
  let object_key := segment_key seg in
  let is_multipart := um_multipart_threshold u <? Z.of_nat (length data_with_crc) in
  let! (result, u) := (if is_multipart then multipart_upload data_with_crc object_key u
                       else simple_upload data_with_crc object_key u) in
  if negb is_multipart then
    let! (_ok, u) := verify_upload object_key data_with_crc u in (Ok result, u)
  else (Ok result, u).

(** The part of [download_segment] after the object was read. *)
Definition decode_object (st : StorageType) (object_key : string) (obj : bytes) : Result WalSegment :=
  if decide (length obj < 4)%nat then Err Storage else
  let data_len := (length obj - 4)%nat in
  let stored_crc := from_le (drop data_len obj) in
  let valid_data := take data_len obj in
  if negb (crc32 valid_data =? stored_crc) then Err Storage else
  let? data := (match st with
                | Local => Ok valid_data
                | _ => ok_or (lz4_decompress valid_data) Storage
                end) in
  match split_on "/"%char object_key with
  | _ :: topic :: part :: filename :: _ =>
      let? partition := ok_or (parse_uint u32_modulus part) Storage in
      match split_on "_"%char filename with
      | s :: e :: _ =>
          let? start_offset := ok_or (parse_uint u64_modulus s) Storage in
          let? end_offset := ok_or (parse_uint u64_modulus (trim_seg (String.length e) e)) Storage in
          Ok (mkSegment start_offset end_offset (Z.of_nat (length data)) data (mkTP topic partition))
      | _ => Err Storage
      end
  | _ => Err Storage
  end.

Definition download_segment (object_key : string) (u : UploadManagerImpl St)
  : Result WalSegment * UploadManagerImpl St :=
  let! (obj, u) := lift_storage (os_get object_key) u in
  (decode_object (um_storage_type u) object_key obj, u).

Definition delete_object (object_key : string) (u : UploadManagerImpl St)
  : Result unit * UploadManagerImpl St := lift_storage (os_delete object_key) u.
End upload.

(** ** Local storage keeps the laws *)

(** The keys that sanitization leaves alone and that name a file of their
    own. *)
Definition plain_key (k : string) : bool :=
  String.eqb (str_filter key_char k) k && negb (contains_dotdot k) && negb (starts_with_slash k)
  && negb (String.eqb k EmptyString)
  && forallb (λ c, negb (String.eqb c EmptyString) && negb (String.eqb c ".")) (split_on "/"%char k).

Lemma plain_key_path k : plain_key k = true → key_to_path k = Ok (split_on "/"%char k).
Proof.
  unfold plain_key, key_to_path. intros [[[[H1 H2]%andb_prop H3]%andb_prop H4]%andb_prop H5]%andb_prop.
  apply String.eqb_eq in H1. rewrite H1. apply negb_true_iff in H2, H3, H4. rewrite H2, H3, H4. simpl.
  f_equal. unfold path_of. 
  induction (split_on "/"%char k) as [|c l IH]; [done|]. cbn [forallb] in H5.
  apply andb_prop in H5 as [[Hc1 Hc2]%andb_prop Hl]. rewrite filter_cons_True; [by rewrite IH|].
  apply negb_true_iff, String.eqb_neq in Hc1, Hc2. done.
Qed.

Lemma plain_key_inj k1 k2 :
  plain_key k1 = true → plain_key k2 = true → k1 ≠ k2 → split_on "/"%char k1 ≠ split_on "/"%char k2.
Proof. intros _ _ Hne E. by apply split_on_inj in E. Qed.

Lemma next_fault_files s f s' :
  next_fault s = (f, s') → ls_files s' = ls_files s ∧ (ls_faults s = [] → ls_faults s' = [] ∧ f = FOk).
Proof. unfold next_fault. destruct (ls_faults s) eqn:E; intros [= <- <-]; simpl; auto; done. Qed.

Program Definition local_storage_laws crc32
  : @ObjectStorageLaws LocalObjectStorage (local_storage crc32) := {|
  os_view s k := ls_files s !! split_on "/"%char k;
  os_ok_key := plain_key;
  os_reliable s := ls_faults s = [];
|}.
Next Obligation.
  intros crc32 k s r s' Hk. simpl. unfold local_get, with_path. rewrite plain_key_path by done.
  unfold read_file. destruct (next_fault s) as [f s1] eqn:Ef.
  apply next_fault_files in Ef as [Hf Hr]. intros Hk2.
  assert (s' = s1 ∧ r = match f with FOk => ok_or (ls_files s1 !! split_on "/"%char k) NotFound
                                   | _ => Err Io end) as [-> ->] by (by destruct f; simplify_eq).
  split; [intros; by rewrite Hf|]. split; [by intros; apply Hr|]. rewrite Hf.
  destruct f; simpl; try (right; split; [done|intros Hz; by apply Hr in Hz as [_ ?]]).
  destruct (ls_files s !! split_on "/"%char k); simpl; auto.
Qed.
Next Obligation.
  intros crc32 k d s r s' Hk. simpl. unfold local_put, with_path. rewrite plain_key_path by done.
  unfold write_file. destruct (next_fault s) as [f s1] eqn:Ef.
  apply next_fault_files in Ef as [Hf Hr]. intros Hk2.
  assert (Hk3 : (∀ k', plain_key k' = true → k' ≠ k →
              ls_files s' !! split_on "/"%char k' = ls_files s !! split_on "/"%char k')).
  { intros k' Hk' Hne. rewrite <- Hf. destruct f; simplify_eq; simpl; try done;
      rewrite lookup_insert_ne; auto; by apply plain_key_inj. }
  split; [done|]. destruct f; simplify_eq; simpl; (split; [by intros; apply Hr|]).
  - by rewrite lookup_insert_eq.
  - split; [done|]. intros Hz; by apply Hr in Hz as [_ ?].
  - split; [done|]. intros Hz; by apply Hr in Hz as [_ ?].
  - split; [done|]. intros Hz; by apply Hr in Hz as [_ ?].
Qed.
Next Obligation.
  intros crc32 k s r s' Hk. simpl. unfold local_delete, with_path. rewrite plain_key_path by done.
  case_bool_decide as Hs; intros E.
  - destruct (next_fault s) as [f s1] eqn:Ef. apply next_fault_files in Ef as [Hf Hr].
    assert (Hk3 : (∀ k', plain_key k' = true → k' ≠ k →
              ls_files s' !! split_on "/"%char k' = ls_files s !! split_on "/"%char k')).
    { intros k' Hk' Hne. rewrite <- Hf. destruct f; simplify_eq; simpl; try done.
      rewrite lookup_delete_ne; auto. by apply plain_key_inj. }
    split; [done|]. destruct f; simplify_eq; simpl; (split; [by intros; apply Hr|]);
      [by rewrite lookup_delete_eq|..]; intros Hz; by apply Hr in Hz as [_ ?].
  - simplify_eq. split_and!; [done..|]. by apply eq_None_not_Some.
Qed.

(** ** Keys *)

Lemma trim_seg_dec n z : (0 < n)%nat → trim_seg n (dec z +:+ ".seg") = dec z.
Proof.
  intros Hn. destruct n as [|n]; [lia|]. cbn [trim_seg].
  rewrite strip_suffix_app by (done || apply dec_digits).
  destruct n as [|n]; [done|]. cbn [trim_seg].
  destruct (strip_suffix ".seg" (dec z)) as [x|] eqn:E; [|done].
  apply strip_suffix_Some in E. pose proof (dec_digits z) as Hd. rewrite E, str_all_app in Hd.
  by rewrite andb_false_r in Hd.
Qed.

(** A topic name without a slash. *)
Definition slash_free (s : string) : bool := str_all (λ c, negb (Ascii.eqb c "/"%char)) s.

Lemma split_file_name s e :
  split_on "_"%char (dec s +:+ "_" +:+ dec e +:+ ".seg") = [dec s; dec e +:+ ".seg"].
Proof.
  change ("_" +:+ dec e +:+ ".seg") with (String "_" (dec e +:+ ".seg")).
  rewrite split_on_sep by by apply dec_without.
  rewrite split_on_plain; [done|]. rewrite str_all_app. by rewrite dec_without.
Qed.

Lemma split_segment_key seg :
  slash_free (tp_topic (seg_tp seg)) = true →
  split_on "/"%char (segment_key seg) =
    ["topics"%string; tp_topic (seg_tp seg); dec (tp_partition (seg_tp seg));
     dec (seg_start seg) +:+ "_" +:+ dec (seg_end seg) +:+ ".seg"].
Proof.
  intros Ht. unfold segment_key.
  set (file := dec (seg_start seg) +:+ "_" +:+ dec (seg_end seg) +:+ ".seg").
  change ("topics/" +:+ ?x) with ("topics" +:+ String "/" x).
  change ("/" +:+ dec (tp_partition (seg_tp seg)) +:+ "/" +:+ file)
    with (String "/" (dec (tp_partition (seg_tp seg)) +:+ String "/" file)).
  rewrite split_on_sep by done. rewrite split_on_sep by done.
  rewrite split_on_sep by by apply dec_without. rewrite split_on_plain; [done|].
  unfold file. rewrite !str_all_app. by rewrite !dec_without.
Qed.

(** Part keys are not segment keys. *)
Lemma part_key_ne key n : key +:+ ".part" +:+ n ≠ key.
Proof.
  intros E. apply (f_equal String.length) in E. rewrite !str_length_app in E. simpl in E. lia.
Qed.

(** ** The limiter *)

Definition limiter_ok (l : BandwidthLimiter) : Prop := bl_tokens l ≤ bl_capacity l.

Lemma refill_ok now l : limiter_ok l → limiter_ok (refill_tokens now l) ∧ bl_capacity (refill_tokens now l) = bl_capacity l.
Proof. unfold limiter_ok, refill_tokens. intros. case_cond; simpl; split; lia. Qed.

Lemma acquire_ok clock n l r l' clock' :
  acquire clock n l = (r, (l', clock')) → limiter_ok l → 0 ≤ n →
  limiter_ok l' ∧ bl_capacity l' = bl_capacity l.
Proof.
  revert l. induction clock as [|now clock IH]; intros l; simpl.
  - case_cond; intros [= <- <- <-] ? ?; unfold limiter_ok in *; simpl; lia.
  - case_cond; [intros [= <- <- <-] ? ?; unfold limiter_ok in *; simpl; lia|].
    intros E ? ?. destruct (refill_ok now l) as [? Hc]; [done|]. rewrite <- Hc. by eapply IH.
Qed.

(** ** Interface of the upload manager *)

Class UploadManager (U : Type) := {
  um_upload : WalSegment → U → Result string * U;
  um_download : string → U → Result WalSegment * U;
  um_delete : string → U → Result unit * U;
}.
#[global] Hint Mode UploadManager ! : typeclass_instances.

(** What the storage engine relies on: objects are independent, a segment
    that was uploaded is what is downloaded under the returned key, and
    [NotFound] means absence. *)
Class UploadManagerLaws (U : Type) `{!UploadManager U} := {
  um_view : U → string → option bytes;
  um_accepts : U → WalSegment → Prop;
  um_ok_key : U → string → Prop;
  um_upload_law seg u r u' : um_accepts u seg → um_upload seg u = (r, u') →
    (∀ k, um_ok_key u' k ↔ um_ok_key u k) ∧
    (∀ s, um_accepts u' s ↔ um_accepts u s) ∧
    (∀ k, um_ok_key u k → k ≠ segment_key seg → um_view u' k = um_view u k) ∧
    match r with
    | Ok k => k = segment_key seg ∧ um_ok_key u k ∧ um_view u' k = Some (seg_data seg)
    | Err _ => True
    end;
  um_download_law k u r u' : um_ok_key u k → um_download k u = (r, u') →
    (∀ k, um_ok_key u' k ↔ um_ok_key u k) ∧
    (∀ s, um_accepts u' s ↔ um_accepts u s) ∧
    (∀ k, um_ok_key u k → um_view u' k = um_view u k) ∧
    match r with
    | Ok seg => um_view u k = Some (seg_data seg)
    | Err e => e = NotFound → um_view u k = None
    end;
  um_delete_law k u r u' : um_ok_key u k → um_delete k u = (r, u') →
    (∀ k, um_ok_key u' k ↔ um_ok_key u k) ∧
    (∀ s, um_accepts u' s ↔ um_accepts u s) ∧
    (∀ k', um_ok_key u k' → k' ≠ k → um_view u' k' = um_view u k') ∧
    match r with Ok _ => um_view u' k = None | Err _ => True end;
}.

Definition upload_manager_impl {St} `{!ObjectStorage St} crc32 lz4_compress lz4_decompress
  : UploadManager (UploadManagerImpl St) := {|
  um_upload := upload_segment crc32 lz4_compress;
  um_download := download_segment crc32 lz4_decompress;
  um_delete := delete_object;
|}.

Section manager_laws.
Context {St : Type} `{!ObjectStorage St, !ObjectStorageLaws St}.
Context (crc32 : bytes → Z) (lz4_compress : bytes → bytes) (lz4_decompress : bytes → option bytes).
Hypothesis crc32_range : ∀ b, 0 ≤ crc32 b < u32_modulus.
Hypothesis lz4_roundtrip : ∀ b, lz4_decompress (lz4_compress b) = Some b.

Abbreviation seal st data := (seal_data crc32 lz4_compress st data).

(** What [download_segment] makes of an object, as data alone. *)
Definition open_data (st : StorageType) (obj : bytes) : option bytes :=
  if decide (length obj < 4)%nat then None else
  let data_len := (length obj - 4)%nat in
  if crc32 (take data_len obj) =? from_le (drop data_len obj) then
    match st with Local => Some (take data_len obj) | _ => lz4_decompress (take data_len obj) end
  else None.

Lemma open_seal st data : open_data st (seal st data) = Some data.
Proof using crc32_range lz4_roundtrip.
  unfold open_data, seal_data. set (c := compress_segment lz4_compress st data).
  rewrite length_app, length_le_bytes. rewrite decide_False by lia.
  replace (length c + 4 - 4)%nat with (length c) by lia.
  rewrite take_app_length, drop_app_length, from_le_roundtrip by apply crc32_range.
  rewrite Z.eqb_refl. unfold c. by destruct st; simpl.
Qed.

Lemma decode_object_data st key obj seg :
  decode_object crc32 lz4_decompress st key obj = Ok seg → open_data st obj = Some (seg_data seg).
Proof.
  unfold decode_object, open_data. case_decide; [done|].
  destruct (crc32 _ =? from_le _); [|done]. simpl.
  destruct (match st with Local => _ | _ => _ end) as [data|] eqn:Ed; [|done]. simpl.
  assert (match st with Local => Some (take (length obj - 4) obj)
                      | _ => lz4_decompress (take (length obj - 4) obj) end = Some data) as ->.
  { destruct st; simpl in *; try (by injection Ed as ->); by destruct (lz4_decompress _); simplify_eq/=. }
  intros Hk. f_equal.
  repeat (case_match; simpl in Hk; try discriminate Hk);
    repeat match goal with H : context [ok_or ?o ?e] |- _ => destruct o eqn:?; simpl in H; try discriminate H end;
    by simplify_eq.
Qed.

Lemma decode_object_roundtrip st seg :
  slash_free (tp_topic (seg_tp seg)) = true → is_u64 (seg_start seg) → is_u64 (seg_end seg) →
  0 ≤ tp_partition (seg_tp seg) < u32_modulus →
  decode_object crc32 lz4_decompress st (segment_key seg) (seal st (seg_data seg))
  = Ok (mkSegment (seg_start seg) (seg_end seg) (Z.of_nat (length (seg_data seg)))
          (seg_data seg) (seg_tp seg)).
Proof using crc32_range lz4_roundtrip.
  intros Ht Hs He Hp. pose proof (open_seal st (seg_data seg)) as Ho.
  unfold decode_object, open_data in *. case_decide; [done|].
  destruct (crc32 _ =? from_le _); [|done]. cbn [negb].
  assert (match st with
          | Local => Ok (take (length (seal st (seg_data seg)) - 4) (seal st (seg_data seg)))
          | _ => ok_or (lz4_decompress (take (length (seal st (seg_data seg)) - 4) (seal st (seg_data seg)))) Storage
          end = Ok (seg_data seg)) as ->.
  { destruct st; try (by rewrite Ho). by injection Ho as ->. }
  cbn [rbind]. rewrite split_segment_key by done. rewrite parse_uint_dec by done. cbn [ok_or rbind].
  rewrite split_file_name. rewrite parse_uint_dec by done. cbn [ok_or rbind].
  rewrite trim_seg_dec by (rewrite str_length_app; simpl; lia).
  rewrite parse_uint_dec by done. cbn [ok_or rbind]. by destruct (seg_tp seg).
Qed.

Lemma decode_object_err st key obj e :
  decode_object crc32 lz4_decompress st key obj = Err e → e = Storage.
Proof.
  unfold decode_object. case_decide; [by intros [= <-]|].
  destruct (negb _); [by intros [= <-]|].
  destruct (match st with Local => _ | _ => _ end) as [data|e'] eqn:Ed; cbn [rbind]; cycle 1.
  { intros [= <-]. destruct st; try done; by destruct (lz4_decompress _); simplify_eq/=. }
  intros Hk.
  repeat (case_match; simpl in Hk; try (by injection Hk));
    repeat match goal with H : context [ok_or ?o ?e] |- _ => destruct o eqn:?; simpl in H; try (by injection H) end;
    done.
Qed.

Definition impl_view (u : UploadManagerImpl St) (k : string) : option bytes :=
  os_view (um_storage u) k ≫= open_data (um_storage_type u).
Definition impl_accepts (u : UploadManagerImpl St) (seg : WalSegment) : Prop :=
  os_ok_key (segment_key seg) = true ∧
  Z.of_nat (length (seal (um_storage_type u) (seg_data seg))) ≤ um_multipart_threshold u.
Definition impl_ok_key (u : UploadManagerImpl St) (k : string) : Prop := os_ok_key k = true.

(** Two states of the manager that only differ in limiter, clock and
    stored objects. *)
Definition same_config (u u' : UploadManagerImpl St) : Prop :=
  um_storage_type u' = um_storage_type u ∧ um_multipart_threshold u' = um_multipart_threshold u.

Lemma impl_accepts_congr u u' seg : same_config u u' → impl_accepts u' seg ↔ impl_accepts u seg.
Proof. intros [H1 H2]. unfold impl_accepts. by rewrite H1, H2. Qed.

Lemma verify_upload_view key expected u r u' :
  os_ok_key key = true → verify_upload key expected u = (r, u') →
  same_config u u' ∧
  (∀ k, os_ok_key k = true → os_view (um_storage u') k = os_view (um_storage u) k) ∧
  (os_reliable (um_storage u) → os_view (um_storage u) key = Some expected →
     os_reliable (um_storage u') ∧ r = Ok true).
Proof.
  intros Hk. unfold verify_upload, lift_storage.
  destruct (os_get key (um_storage u)) as [rg sg] eqn:Eg.
  apply os_get_law in Eg as (Hview & Hrel & Hr); [|done].
  destruct rg as [d|e]; simpl; intros [= <- <-]; simpl; split_and!; try done.
  - intros Hre Hs. split; [auto|]. rewrite Hr in Hs. injection Hs as ->.
    by rewrite bool_decide_eq_true_2.
  - intros Hre Hs. destruct Hr as [[_ Hn]|[_ Hn]]; congruence.
Qed.

Lemma upload_simple_spec seg u r u' :
  impl_accepts u seg → upload_segment crc32 lz4_compress seg u = (r, u') →
  same_config u u' ∧
  (∀ k, os_ok_key k = true → k ≠ segment_key seg →
     os_view (um_storage u') k = os_view (um_storage u) k) ∧
  (∀ k, r = Ok k → k = segment_key seg ∧
     os_view (um_storage u') k = Some (seal (um_storage_type u) (seg_data seg))) ∧
  (os_reliable (um_storage u) →
     (acquire (um_clock u) (Z.of_nat (length (seg_data seg))) (um_limiter u)).1 = Ok tt →
     r = Ok (segment_key seg) ∧ os_reliable (um_storage u')).
Proof.
  intros [Hkey Hsize]. unfold upload_segment.
  destruct (acquire _ _ _) as [ra [l c]] eqn:Ea. cbn [fst].
  destruct ra as [[]|e]; cbn [sbind]; [|intros [= <- <-]; by split_and!].
  cbn [um_multipart_threshold um_storage_type um_storage]. set (data := seal _ _) in *.
  rewrite (proj2 (Z.ltb_ge _ _)) by done. unfold simple_upload, lift_storage. cbn [um_storage].
  destruct (os_put (segment_key seg) data (um_storage u)) as [rp sp] eqn:Ep.
  apply os_put_law in Ep as (Hview & Hrel & Hr); [|done].
  destruct rp as [[]|e]; cbn [sbind negb]; cycle 1.
  { intros [= <- <-]. split_and!; try done. intros Hre _. by destruct Hr. }
  set (u1 := set_storage sp _).
  destruct (verify_upload (segment_key seg) data u1) as [rv uv] eqn:Ev.
  apply verify_upload_view in Ev as (Hcfg & Hv1 & Hv2); [|done].
  assert (same_config u uv) by (destruct Hcfg; by split).
  assert (Hview' : ∀ k, os_ok_key k = true → k ≠ segment_key seg →
            os_view (um_storage uv) k = os_view (um_storage u) k)
    by (intros k Hk Hne; rewrite Hv1 by done; by apply Hview).
  destruct rv as [b|e]; cbn [sbind]; intros [= <- <-]; split_and!; try done.
  - intros k [= <-]. rewrite Hv1 by done. done.
  - intros Hre _. split; [done|]. by destruct (Hv2 (Hrel Hre) Hr).
  - intros Hre _. by destruct (Hv2 (Hrel Hre) Hr).
Qed.

Program Definition upload_manager_laws
  : @UploadManagerLaws (UploadManagerImpl St)
      (upload_manager_impl crc32 lz4_compress lz4_decompress) := {|
  um_view := impl_view;
  um_accepts := impl_accepts;
  um_ok_key := impl_ok_key;
|}.
Next Obligation.
  intros seg u r u' Hacc Hup. simpl in Hup.
  destruct (upload_simple_spec _ _ _ _ Hacc Hup) as (Hcfg & Hview & Hok & _).
  split_and!; [done|intros; by apply impl_accepts_congr| |].
  - intros k Hk Hne. unfold impl_view. destruct Hcfg as [-> _]. by rewrite Hview.
  - destruct r as [k|]; [|done]. destruct (Hok k eq_refl) as [-> Hv]. destruct Hacc as [Hkey _].
    split_and!; [done|done|]. unfold impl_view. destruct Hcfg as [-> _]. rewrite Hv. simpl.
    by apply open_seal.
Qed.
Next Obligation.
  intros k u r u' Hk. simpl. unfold download_segment, lift_storage.
  destruct (os_get k (um_storage u)) as [rg sg] eqn:Eg.
  apply os_get_law in Eg as (Hview & Hrel & Hr); [|done].
  intros E. assert (u' = set_storage sg u) as -> by (destruct rg; simpl in E; congruence).
  split_and!; [done|done| |].
  - intros k' Hk'. unfold impl_view. simpl. by rewrite Hview.
  - destruct rg as [obj|e]; simpl in E; injection E as <-.
    + unfold impl_view. rewrite Hr. simpl.
      destruct (decode_object _ _ _ k obj) as [seg|e] eqn:Ed.
      * by eapply decode_object_data.
      * apply decode_object_err in Ed as ->. done.
    + intros ->. destruct Hr as [[_ Hn]|[? _]]; [|done]. unfold impl_view. by rewrite Hn.
Qed.
Next Obligation.
  intros k u r u' Hk. simpl. unfold delete_object, lift_storage.
  destruct (os_delete k (um_storage u)) as [rd sd] eqn:Ed.
  apply os_delete_law in Ed as (Hview & Hrel & Hr); [|done].
  intros [= <- <-]. split_and!; [done|done| |].
  - intros k' Hk' Hne. unfold impl_view. simpl. by rewrite Hview.
  - destruct rd; [|done]. unfold impl_view. simpl. by rewrite Hr.
Qed.
End manager_laws.

(** ** Theorems *)

Section theorems.
Context {St : Type} `{!ObjectStorage St, !ObjectStorageLaws St}.
Context (crc32 : bytes → Z) (lz4_compress : bytes → bytes) (lz4_decompress : bytes → option bytes).

(** A segment below the multipart threshold survives the round trip
    through object storage: on a backend that does not fail, uploading it
    succeeds, and downloading the returned key gives the same topic,
    partition, offsets and data, whatever the storage type (compressed or
    not). *)
Theorem upload_download_roundtrip seg u :
  (∀ b, 0 ≤ crc32 b < u32_modulus) → (∀ b, lz4_decompress (lz4_compress b) = Some b) →
  slash_free (tp_topic (seg_tp seg)) = true → is_u64 (seg_start seg) → is_u64 (seg_end seg) →
  0 ≤ tp_partition (seg_tp seg) < u32_modulus →
  os_ok_key (segment_key seg) = true → os_reliable (um_storage u) →
  Z.of_nat (length (seg_data seg)) ≤ bl_tokens (um_limiter u) →
  Z.of_nat (length (seal_data crc32 lz4_compress (um_storage_type u) (seg_data seg)))
    ≤ um_multipart_threshold u →
  ∃ u' u'', upload_segment crc32 lz4_compress seg u = (Ok (segment_key seg), u') ∧
    download_segment crc32 lz4_decompress (segment_key seg) u'
    = (Ok (mkSegment (seg_start seg) (seg_end seg) (Z.of_nat (length (seg_data seg)))
             (seg_data seg) (seg_tp seg)), u'').
Proof.
  intros Hcrc Hlz Ht Hs He Hp Hkey Hrel Htok Hsize.
  destruct (upload_segment crc32 lz4_compress seg u) as [r u'] eqn:Eu.
  destruct (upload_simple_spec crc32 lz4_compress seg u r u' (conj Hkey Hsize) Eu)
    as ([Hty _] & _ & Hok & Hup).
  destruct Hup as [-> Hrel']; [done| |].
  { destruct (um_clock u); simpl; by rewrite (proj2 (Z.leb_le _ _)). }
  destruct (Hok _ eq_refl) as [_ Hview].
  destruct (os_get (segment_key seg) (um_storage u')) as [rg sg] eqn:Eg. pose proof Eg as Eg'.
  apply os_get_law in Eg as (_ & _ & Hr); [|done].
  destruct rg as [obj|e]; [|destruct Hr as [[_ Hn]|[_ Hn]]; congruence].
  rewrite Hview in Hr. injection Hr as <-.
  exists u', (set_storage sg u'). split; [done|].
  unfold download_segment, lift_storage. rewrite Eg'. cbn [sbind].
  change (um_storage_type (set_storage sg u')) with (um_storage_type u'). rewrite Hty.
  by rewrite decode_object_roundtrip.
Qed.

Lemma upload_chunks_view key cs idx u r u' :
  os_ok_key key = true → (∀ n, os_ok_key (key +:+ ".part" +:+ dec (Z.of_nat n)) = true) →
  upload_chunks key idx cs u = (r, u') →
  os_view (um_storage u') key = os_view (um_storage u) key ∧
  (os_reliable (um_storage u) → r = Ok tt).
Proof.
  intros Hkey Hparts. revert idx u. induction cs as [|c cs IH]; intros idx u; simpl.
  - intros [= <- <-]. done.
  - unfold lift_storage at 1. destruct (os_put _ c (um_storage u)) as [rp sp] eqn:Ep.
    apply os_put_law in Ep as (Hview & Hrel & Hr); [|done].
    assert (os_view sp key = os_view (um_storage u) key)
      by (apply Hview; [done|]; symmetry; apply part_key_ne).
    destruct rp as [[]|e]; cbn [sbind].
    + intros E. destruct (IH _ _ E) as [Hv Hok]. simpl in Hv, Hok. split; [congruence|auto].
    + intros [= <- <-]. split; [done|]. intros Hre. by destruct Hr.
Qed.

(** Above the multipart threshold the upload reports success without
    ever writing the object it names: only part objects are stored, so a
    later download of the returned key finds nothing. *)
Theorem multipart_upload_not_readable seg u :
  os_ok_key (segment_key seg) = true →
  (∀ n, os_ok_key (segment_key seg +:+ ".part" +:+ dec (Z.of_nat n)) = true) →
  os_reliable (um_storage u) → os_view (um_storage u) (segment_key seg) = None →
  Z.of_nat (length (seg_data seg)) ≤ bl_tokens (um_limiter u) →
  um_multipart_threshold u
    < Z.of_nat (length (seal_data crc32 lz4_compress (um_storage_type u) (seg_data seg))) →
  ∃ u', upload_segment crc32 lz4_compress seg u = (Ok (segment_key seg), u') ∧
    ∀ r u'', download_segment crc32 lz4_decompress (segment_key seg) u' = (r, u'') →
      ∃ e, r = Err e.
Proof.
  intros Hkey Hparts Hrel Hnone Htok Hsize. unfold upload_segment.
  assert (Hacq : acquire (um_clock u) (Z.of_nat (length (seg_data seg))) (um_limiter u)
    = (Ok tt, (mkLimiter (bl_capacity (um_limiter u))
                (bl_tokens (um_limiter u) - Z.of_nat (length (seg_data seg)))
                (bl_refill_rate (um_limiter u)) (bl_last_refill (um_limiter u)), um_clock u))).
  { destruct (um_clock u); simpl; by rewrite (proj2 (Z.leb_le _ _)). }
  rewrite Hacq. cbn [sbind um_multipart_threshold um_storage_type].
  rewrite (proj2 (Z.ltb_lt _ _)) by done. unfold multipart_upload.
  set (u1 := mkUM _ _ _ _ _). destruct (upload_chunks _ _ _ u1) as [rc u2] eqn:Ec.
  destruct (upload_chunks_view _ _ _ _ _ _ Hkey Hparts Ec) as [Hv Hok].
  rewrite Hok by done. cbn [sbind negb]. exists u2. split; [done|].
  intros r u''. unfold download_segment, lift_storage.
  destruct (os_get (segment_key seg) (um_storage u2)) as [rg sg] eqn:Eg.
  apply os_get_law in Eg as (_ & _ & Hr); [|done].
  destruct rg as [obj|e]; [|simpl; intros [= <- <-]; eauto].
  rewrite Hv in Hr. simpl in Hr. congruence.
Qed.
End theorems.

(** The bandwidth limiter never holds more tokens than its capacity, so a
    segment larger than the capacity is never uploaded: [acquire] is still
    waiting after any number of refills, at whatever times. *)
Theorem acquire_beyond_capacity_blocks clock n l :
  limiter_ok l → bl_capacity l < n → (acquire clock n l).1 = Err Blocked.
Proof.
  revert l. induction clock as [|now clock IH]; intros l Hl Hn; simpl.
  - by rewrite (proj2 (Z.leb_gt _ _)) by (unfold limiter_ok in Hl; lia).
  - rewrite (proj2 (Z.leb_gt _ _)) by (unfold limiter_ok in Hl; lia).
    destruct (refill_ok now l Hl) as [Hl' Hc]. apply IH; [done|lia].
Qed.

(** The limiter of [UploadManagerImpl::new] and a segment just over 100 MiB,
    below the default segment size of 128 MiB. *)
Lemma acquire_beyond_capacity_blocks_witness :
  (acquire [1000; 2000] (100 * 1024 * 1024 + 1) (limiter_new (100 * 1024 * 1024) (10 * 1024 * 1024) 0)).1
  = Err Blocked.
Proof. apply acquire_beyond_capacity_blocks; [unfold limiter_ok; simpl; lia|simpl; lia]. Defined.

(** A request that fits the capacity is granted as soon as one refill
    comes late enough: no request within the capacity waits forever. *)
Theorem acquire_within_capacity now clock n l :
  limiter_ok l → 0 ≤ bl_tokens l → 0 ≤ n ≤ bl_capacity l → bl_capacity l < 2 ^ 62 → 0 ≤ bl_refill_rate l →
  10 ≤ now - bl_last_refill l →
  n * 1000 ≤ (now - bl_last_refill l) * bl_refill_rate l < 2 ^ 62 →
  is_ok (acquire (now :: clock) n l).1 = true.
Proof.
  intros Hl H0 Hn Hcap Hrate Hlate Hrefill. simpl. case_cond; [done|].
  assert (Hr : n ≤ bl_tokens (refill_tokens now l)).
  { unfold refill_tokens. rewrite Z.max_r by lia. rewrite (proj2 (Z.leb_le _ _)) by done. simpl.
    unfold u64_modulus. rewrite (Z.mod_small _ (2 ^ 64)) by lia.
    unfold limiter_ok in Hl. pose proof (Z.div_le_lower_bound ((now - bl_last_refill l) * bl_refill_rate l) 1000 n).
    pose proof (Z.div_lt_upper_bound ((now - bl_last_refill l) * bl_refill_rate l) 1000 (2 ^ 62)).
    rewrite u64_add_small by (unfold u64_modulus; lia). lia. }
  destruct clock; simpl; by rewrite (proj2 (Z.leb_le _ _)).
Qed.

Lemma acquire_within_capacity_witness :
  is_ok (acquire [5000] 1000 (mkLimiter 1000 0 200 0)).1 = true.
Proof.
  apply (acquire_within_capacity 5000 [] 1000 (mkLimiter 1000 0 200 0));
    unfold limiter_ok; simpl; lia.
Defined.

Lemma str_filter_all P s : str_all P (str_filter P s) = true.
Proof. induction s as [|c s IH]; simpl; [done|]. destruct (P c) eqn:E; simpl; [by rewrite E|done]. Qed.

Lemma dotdot_app s t : contains_dotdot s = true → contains_dotdot (s +:+ t) = true.
Proof.
  induction s as [|c1 s IH]; [done|]. destruct s as [|c2 s]; [done|]. simpl in *.
  intros [->|H]%orb_prop; [done|]. apply orb_true_iff. right. by apply IH.
Qed.

Lemma dotdot_prepend s t : contains_dotdot t = true → contains_dotdot (s +:+ t) = true.
Proof.
  intros Ht. induction s as [|c s IH]; simpl; [done|].
  destruct (s +:+ t) eqn:E; [by destruct s; simpl in E; subst|]. by rewrite IH, orb_true_r.
Qed.

Lemma split_piece c s w : w ∈ split_on c s → ∃ a b, s = a +:+ w +:+ b.
Proof.
  revert w. induction s as [|x s IH]; intros w; simpl.
  - intros ->%list_elem_of_singleton. by exists EmptyString, EmptyString.
  - destruct (Ascii.eqb x c).
    + intros [->|Hin]%elem_of_cons; [by exists EmptyString, (String x s)|].
      destruct (IH _ Hin) as (a & b & ->). by exists (String x a), b.
    + destruct (split_on c s) as [|w0 ws] eqn:E; [by apply split_on_not_nil in E|].
      intros [->|Hin]%elem_of_cons.
      * exists EmptyString. destruct s as [|y s'].
        { simpl in E. injection E as <- <-. by exists EmptyString. }
        pose proof (join_split c (String y s')) as Hj. rewrite E in Hj. rewrite <- Hj.
        destruct ws as [|w1 ws]; [exists EmptyString|by exists (String c (join_on c (w1 :: ws)))].
        simpl. by rewrite str_app_nil_r.
      * destruct (IH w) as (a & b & ->); [by right|]. by exists (String x a), b.
Qed.

(** No object key escapes the storage directory: every component of the
    path a key resolves to is a proper file name, never empty, [.] or [..]. *)
Theorem key_to_path_confined key path :
  key_to_path key = Ok path →
  Forall (λ c, c ≠ EmptyString ∧ c ≠ "."%string ∧ c ≠ ".."%string) path.
Proof.
  unfold key_to_path. set (s := str_filter key_char key).
  destruct (contains_dotdot s) eqn:Ed; [done|]. destruct (starts_with_slash s); [done|].
  destruct (String.eqb s EmptyString); [done|]. intros [= <-].
  apply Forall_forall. intros c [[Hne Hdot] Hin]%list_elem_of_filter.
  split_and!; [done|done|]. intros ->. apply split_piece in Hin as (a & b & Hs).
  enough (contains_dotdot s = true) by congruence.
  rewrite Hs. apply dotdot_prepend, dotdot_app. done.
Qed.

Lemma key_to_path_confined_witness :
  key_to_path "topics/orders/0/0_5.seg" = Ok ["topics"%string; "orders"%string; "0"%string; "0_5.seg"%string] ∧
  Forall (λ c, c ≠ EmptyString ∧ c ≠ "."%string ∧ c ≠ ".."%string)
    ["topics"%string; "orders"%string; "0"%string; "0_5.seg"%string].
Proof.
  split; [reflexivity|]. apply (key_to_path_confined "topics/orders/0/0_5.seg"). reflexivity.
Defined.

(** ** An in-memory backend

    A backend that accepts every key and never fails; the witnesses of this
    and later files run on it.  Its version token encodes the contents. *)

Module Mem.
Abbreviation store := (gmap string (list Z)) (only parsing).
Definition tag (d : bytes) : ObjectVersion := mkVersion (Some (dec (Zpos (encode d)))) None.
Lemma tag_inj d1 d2 : tag d1 = tag d2 → d1 = d2.
Proof. intros E. injection E as E. apply dec_inj in E; [|done..]. injection E as E. by apply encode_inj in E. Qed.

Definition put_if (k : string) (d : bytes) (p : Precondition) (s : store) : Result PutOutcome * store :=
  let ok := match p, s !! k with
            | Create, None => true
            | Match v, Some d0 => bool_decide (v = tag d0)
            | _, _ => false
            end in
  if ok then (Ok (Written (tag d)), <[k := d]> s) else (Ok PreconditionFailed, s).

#[export] Instance storage : ObjectStorage store := {|
  os_put k d s := (Ok tt, <[k := d]> s);
  os_put_if := put_if;
  os_get k s := (ok_or (s !! k) NotFound, s);
  os_get_versioned k s :=
    (match s !! k with Some d => Ok (d, tag d) | None => Err NotFound end, s);
  os_delete k s := (Ok tt, delete k s);
|}.

#[export] Program Instance laws : ObjectStorageLaws store := {|
  os_view s k := s !! k;
  os_ok_key _ := true;
  os_reliable _ := True;
|}.
Next Obligation. intros k s r s' _ [= <- <-]. split_and!; [done..|]. destruct (s !! k); simpl; auto. Qed.
Next Obligation.
  intros k d s r s' _ [= <- <-]. split_and!; [|done|by simpl; rewrite lookup_insert_eq].
  intros k' _ Hne. simpl. by rewrite lookup_insert_ne.
Qed.
Next Obligation.
  intros k s r s' _ [= <- <-]. split_and!; [|done|by simpl; rewrite lookup_delete_eq].
  intros k' _ Hne. simpl. by rewrite lookup_delete_ne.
Qed.

Definition crc (b : bytes) : Z := zsum id b mod u32_modulus.
Lemma mem_crc_range b : 0 ≤ crc b < u32_modulus.
Proof. by apply Z.mod_pos_bound. Qed.
Definition seg : WalSegment := mkSegment 0 5 3 [7; 8; 9] Demo.tp0.
Definition manager (threshold : Z) : UploadManagerImpl store := um_new ∅ S3 threshold 0 [].

Lemma upload_download_roundtrip_witness :
  ∃ u' u'', upload_segment crc id seg (manager 1000) = (Ok "topics/orders/0/0_5.seg"%string, u') ∧
    download_segment crc Some "topics/orders/0/0_5.seg" u' = (Ok seg, u'').
Proof.
  apply (upload_download_roundtrip crc id Some seg (manager 1000));
    unfold is_u64, u64_modulus, u32_modulus; first [apply mem_crc_range | done | simpl; lia].
Defined.

Lemma multipart_upload_not_readable_witness :
  ∃ u', upload_segment crc id seg (manager 5) = (Ok "topics/orders/0/0_5.seg"%string, u') ∧
    ∀ r u'', download_segment crc Some "topics/orders/0/0_5.seg" u' = (r, u'') → ∃ e, r = Err e.
Proof.
  apply (multipart_upload_not_readable crc id Some seg (manager 5)); first [done | simpl; lia].
Defined.
End Mem.
