(* ===== verification/Reservation.v ===== *)
(** * Epoch reservations: object-level fencing

    Model of [src/src/storage/reservation.rs].  [ReservationService::acquire]
    is a loop around two storage calls, a versioned read and a conditional
    write; between them other brokers run.  It is therefore a small program
    ([Pc], [acquire_step]: one storage call per step), and brokers interleave
    at these steps ([res_step]). *)

From S2P Require Import Prelude Types ObjectStorage.
Local Open Scope Z_scope.

Definition RESERVATION_MAGIC : Z := 0x524D5152.

Record Reservation := mkRes {
  res_magic : Z;
  res_node_id : string;
  res_epoch : Z;
  res_failover : Z;
}.
#[global] Instance Reservation_eq_dec : EqDecision Reservation.
Proof. solve_decision. Defined.
#[global] Program Instance Reservation_countable : Countable Reservation :=
  inj_countable' (λ r, (res_magic r, res_node_id r, res_epoch r, res_failover r))
                 (λ p, mkRes p.1.1.1 p.1.1.2 p.1.2 p.2) _.
Next Obligation. by intros []. Qed.

Inductive AcquireOutcome := Owned | Fenced (current_epoch : Z).

(** [ReservationService::key] *)
Definition reservation_key (tp : TopicPartition) : string :=
  "topics/" +:+ tp_topic tp +:+ "/" +:+ dec (tp_partition tp) +:+ "/_epoch".

(** What the protocol needs from conditional writes: the version token of a
    read determines the contents, and a conditional write happens atomically
    and only if its precondition holds; a write that reports an error may
    have happened. *)
Class VersionedLaws (St : Type) `{!ObjectStorage St, !ObjectStorageLaws St} := {
  os_etag : bytes → ObjectVersion;
  os_etag_inj a b : os_etag a = os_etag b → a = b;
  os_expect (p : Precondition) (cur : option bytes) : Prop :=
    match p, cur with
    | Create, None => True
    | Match v, Some d => v = os_etag d
    | _, _ => False
    end;
  os_get_versioned_law k s r s' : os_ok_key k = true → os_get_versioned k s = (r, s') →
    (∀ k', os_ok_key k' = true → os_view s' k' = os_view s k') ∧
    match r with
    | Ok (d, v) => os_view s k = Some d ∧ v = os_etag d
    | Err e => e = NotFound → os_view s k = None
    end;
  os_put_if_law k d p s r s' : os_ok_key k = true → os_put_if k d p s = (r, s') →
    match r with
    | Ok (Written _) => os_expect p (os_view s k) ∧ os_view s' k = Some d
    | Ok PreconditionFailed => os_view s' k = os_view s k
    | Err _ => os_view s' k = os_view s k ∨
               (os_expect p (os_view s k) ∧ os_view s' k = Some d)
    end;
}.

Section reservation.
Context `{!Bincode Reservation} {St : Type} `{!ObjectStorage St}.

Definition encode_res (node_id : string) (epoch failover : Z) : bytes :=
  serialize (mkRes RESERVATION_MAGIC node_id epoch failover).

Definition decode_res (b : bytes) : Result Reservation :=
  match deserialize b with
  | None => Err Storage
  | Some r => if res_magic r =? RESERVATION_MAGIC then Ok r else Err Storage
  end.

(** Where an [acquire] call is: about to read with [n] further iterations
    of the loop left, about to create or to bump, about to make the final
    read, or finished. *)
Inductive Pc :=
  | AtRead (n : nat)
  | AtCreate (n : nat) (body : bytes)
  | AtBump (n : nat) (body : bytes) (version : ObjectVersion)
  | AtFinal
  | Done (r : Result AcquireOutcome).

(** [MAX_CAS_RETRIES] iterations *)
Definition acquire_start : Pc := AtRead 2.

Definition next_iteration (n : nat) : Pc :=
  match n with O => AtFinal | S n => AtRead n end.

(** One storage call of [acquire] and the code up to the next one. *)
Definition acquire_step (tp : TopicPartition) (node_id : string) (epoch : Z) (pc : Pc) (s : St)
  : Pc * St :=
  match pc with
  | AtRead n =>
      match os_get_versioned (reservation_key tp) s with
      | (Err e, s) =>
          (if decide (e = NotFound) then AtCreate n (encode_res node_id epoch 0) else Done (Err e), s)
      | (Ok (b, version), s) =>
          (match decode_res b with
           | Err e => Done (Err e)
           | Ok current =>
               if (epoch <? res_epoch current)
                  || ((res_epoch current =? epoch) && negb (String.eqb (res_node_id current) node_id))
               then Done (Ok (Fenced (res_epoch current)))
               else if (res_epoch current =? epoch) && String.eqb (res_node_id current) node_id
               then Done (Ok Owned)
               else AtBump n (encode_res node_id epoch (u64_add (res_failover current) 1)) version
           end, s)
      end
  | AtCreate n body =>
      match os_put_if (reservation_key tp) body Create s with
      | (Ok (Written _), s) => (Done (Ok Owned), s)
      | (Ok PreconditionFailed, s) => (next_iteration n, s)
      | (Err e, s) => (Done (Err e), s)
      end
  | AtBump n body version =>
      match os_put_if (reservation_key tp) body (Match version) s with
      | (Ok (Written _), s) => (Done (Ok Owned), s)
      | (Ok PreconditionFailed, s) => (next_iteration n, s)
      | (Err e, s) => (Done (Err e), s)
      end
  | AtFinal =>
      match os_get_versioned (reservation_key tp) s with
      | (Ok (b, _), s) =>
          (Done (Ok (Fenced (match decode_res b with Ok r => res_epoch r | Err _ => epoch end))), s)
      | (Err _, s) => (Done (Ok (Fenced epoch)), s)
      end
  | Done r => (Done r, s)
  end.

(** A whole uninterrupted call: at most three iterations of two storage
    calls and the final read. *)
Fixpoint run_acquire (fuel : nat) (tp : TopicPartition) (node_id : string) (epoch : Z) (pc : Pc) (s : St)
  : Pc * St :=
  match fuel with
  | O => (pc, s)
  | S fuel => let '(pc, s) := acquire_step tp node_id epoch pc s in
              run_acquire fuel tp node_id epoch pc s
  end.
Definition acquire_reservation (tp : TopicPartition) (node_id : string) (epoch : Z) (s : St)
  : Pc * St := run_acquire 7 tp node_id epoch acquire_start s.

Definition verify (tp : TopicPartition) (node_id : string) (epoch : Z) (s : St)
  : Result bool * St :=
  match os_get_versioned (reservation_key tp) s with
  | (Ok (b, _), s) =>
      (match decode_res b with
       | Ok current => Ok (String.eqb (res_node_id current) node_id && (res_epoch current =? epoch))
       | Err e => Err e
       end, s)
  | (Err e, s) => (if decide (e = NotFound) then Ok false else Err e, s)
  end.
End reservation.

(** ** Interleaved brokers *)

(** One [acquire] call in flight: who runs it, for which epoch, and where it
    is. *)
Record Caller := mkCaller { ca_node : string; ca_epoch : Z; ca_pc : Pc }.

Section interleaving.
Context `{!Bincode Reservation, !BincodeLaws Reservation}.
Context {St : Type} `{!ObjectStorage St, !ObjectStorageLaws St, !VersionedLaws St}.
Context (tp : TopicPartition).

Record World := mkWorld { w_store : St; w_callers : list Caller }.

(** A new call starts, a call makes its next storage call, or anybody does
    something to other objects. *)
Inductive res_step : World → World → Prop :=
  | step_start s cs node epoch :
      res_step (mkWorld s cs) (mkWorld s (cs ++ [mkCaller node epoch acquire_start]))
  | step_call s cs i c pc' s' :
      cs !! i = Some c → acquire_step tp (ca_node c) (ca_epoch c) (ca_pc c) s = (pc', s') →
      res_step (mkWorld s cs) (mkWorld s' (<[i := mkCaller (ca_node c) (ca_epoch c) pc']> cs))
  | step_other s cs s' :
      os_view s' (reservation_key tp) = os_view s (reservation_key tp) →
      res_step (mkWorld s cs) (mkWorld s' cs).

(** The (epoch, node) the reservation object names. *)
Definition holder (s : St) : option (Z * string) :=
  b ← os_view s (reservation_key tp);
  match decode_res b with Ok r => Some (res_epoch r, res_node_id r) | Err _ => None end.

Definition initial (w : World) : Prop :=
  w_callers w = [] ∧ os_view (w_store w) (reservation_key tp) = None.

Lemma decode_encode_res node epoch fo :
  decode_res (encode_res node epoch fo) = Ok (mkRes RESERVATION_MAGIC node epoch fo).
Proof using BincodeLaws0.
  unfold decode_res, encode_res. rewrite deserialize_serialize. by rewrite Z.eqb_refl.
Qed.

(** [writes] is the sequence of reservations written so far, newest first;
    their epochs increase strictly. *)
Definition decreasing (writes : list (Z * string)) : Prop :=
  StronglySorted (λ a b, b.1 < a.1) writes.

(** What a call in flight knows. *)
Definition caller_inv (writes : list (Z * string)) (c : Caller) : Prop :=
  match ca_pc c with
  | AtCreate _ body => ∃ fo, body = encode_res (ca_node c) (ca_epoch c) fo
  | AtBump _ body v => (∃ fo, body = encode_res (ca_node c) (ca_epoch c) fo) ∧
      ∃ b r, v = os_etag b ∧ decode_res b = Ok r ∧ res_epoch r < ca_epoch c
  | Done (Ok Owned) => (ca_epoch c, ca_node c) ∈ writes
  | _ => True
  end.

Lemma caller_inv_mono writes writes' c :
  (∀ x, x ∈ writes → x ∈ writes') → caller_inv writes c → caller_inv writes' c.
Proof. unfold caller_inv. destruct (ca_pc c) as [| | | |[[]|]]; auto. Qed.

Record res_inv (writes : list (Z * string)) (w : World) : Prop := {
  inv_sorted : decreasing writes;
  inv_object : match os_view (w_store w) (reservation_key tp) with
               | None => writes = []
               | Some b => ∃ r, decode_res b = Ok r ∧ head writes = Some (res_epoch r, res_node_id r)
               end;
  inv_callers i c : w_callers w !! i = Some c → caller_inv writes c;
}.

Lemma decreasing_head writes x y :
  decreasing writes → head writes = Some x → y ∈ writes → y = x ∨ y.1 < x.1.
Proof.
  intros Hd Hh Hy. destruct writes as [|z writes]; [done|]. injection Hh as ->.
  apply elem_of_cons in Hy as [->|Hy]; [by left|right].
  inversion Hd as [|?? _ HF]; subst. rewrite Forall_forall in HF. by apply HF.
Qed.

(** Two entries with the same epoch are the same entry. *)
Lemma decreasing_unique writes x y :
  decreasing writes → x ∈ writes → y ∈ writes → x.1 = y.1 → x = y.
Proof.
  induction 1 as [|z l _ IH HF]; [by intros ?%elem_of_nil|].
  rewrite Forall_forall in HF.
  intros [->|Hx]%elem_of_cons [->|Hy]%elem_of_cons Heq; [done| | |by apply IH].
  - specialize (HF _ Hy). lia.
  - specialize (HF _ Hx). lia.
Qed.

(** A conditional write by [c] keeps the invariant, whatever it reports. *)
Lemma put_if_inv writes s cs i c body p r s' pc' :
  os_ok_key (reservation_key tp) = true →
  res_inv writes (mkWorld s cs) → cs !! i = Some c →
  (∃ fo, body = encode_res (ca_node c) (ca_epoch c) fo) →
  (os_expect p (os_view s (reservation_key tp)) → ∀ x, head writes = Some x → x.1 < ca_epoch c) →
  os_put_if (reservation_key tp) body p s = (r, s') →
  (pc' = Done (Ok Owned) ∧ (∃ v, r = Ok (Written v)) ∨
   (∃ n, pc' = AtRead n) ∨ pc' = AtFinal ∨ ∃ e, pc' = Done (Err e)) →
  ∃ writes', (writes' = writes ∨ writes' = (ca_epoch c, ca_node c) :: writes) ∧
    res_inv writes' (mkWorld s' (<[i := mkCaller (ca_node c) (ca_epoch c) pc']> cs)).
Proof using BincodeLaws0.
  intros Hok [Hsort Hobj Hcal] Hi [fo ->] Hlt Hput Hpc.
  apply os_put_if_law in Hput; [|done]. simpl in *.
  assert (Hcallers : ∀ writes' : list (Z * string), (∀ x, x ∈ writes → x ∈ writes') →
    (pc' = Done (Ok Owned) → (ca_epoch c, ca_node c) ∈ writes') →
    ∀ j c', <[i := mkCaller (ca_node c) (ca_epoch c) pc']> cs !! j = Some c' → caller_inv writes' c').
  { intros writes' Hsub Hown j c'. rewrite list_lookup_insert_Some.
    intros [(<- & <- & _)|[_ Hj]]; [|by eapply caller_inv_mono, Hcal].
    unfold caller_inv. destruct Hpc as [[-> _]|[[n ->]|[->|[e ->]]]]; simpl; auto. }
  assert (Hsame : os_view s' (reservation_key tp) = os_view s (reservation_key tp) →
    pc' ≠ Done (Ok Owned) →
    res_inv writes (mkWorld s' (<[i := mkCaller (ca_node c) (ca_epoch c) pc']> cs))).
  { intros Hv Hne. split; simpl; [done|by rewrite Hv|by apply Hcallers]. }
  assert (Hwrote : os_expect p (os_view s (reservation_key tp)) →
    os_view s' (reservation_key tp) = Some (encode_res (ca_node c) (ca_epoch c) fo) →
    res_inv ((ca_epoch c, ca_node c) :: writes)
      (mkWorld s' (<[i := mkCaller (ca_node c) (ca_epoch c) pc']> cs))).
  { intros He Hv. specialize (Hlt He). split; simpl.
    - constructor; [done|]. destruct writes as [|x writes]; [constructor|].
      apply Forall_forall. intros y Hy. simpl.
      destruct (decreasing_head (x :: writes) x y Hsort eq_refl Hy) as [->|?]; [by apply Hlt|].
      specialize (Hlt x eq_refl). lia.
    - rewrite Hv. exists (mkRes RESERVATION_MAGIC (ca_node c) (ca_epoch c) fo).
      by rewrite decode_encode_res.
    - apply Hcallers; [intros; by right|]. intros _. by left. }
  destruct r as [[v|]|e].
  - destruct Hput as [He Hv]. eexists. split; [by right|]. by apply Hwrote.
  - exists writes. split; [by left|]. apply Hsame; [done|].
    destruct Hpc as [[_ [v Hv]]|[[n ->]|[->|[e ->]]]]; done.
  - destruct Hput as [Hv|[He Hv]].
    + exists writes. split; [by left|]. apply Hsame; [done|].
      destruct Hpc as [[_ [v Hv']]|[[n ->]|[->|[e' ->]]]]; done.
    + eexists. split; [by right|]. by apply Hwrote.
Qed.

(** A step that leaves the object alone. *)
Lemma read_step_inv writes s cs i c pc' s' :
  res_inv writes (mkWorld s cs) →
  os_view s' (reservation_key tp) = os_view s (reservation_key tp) →
  caller_inv writes (mkCaller (ca_node c) (ca_epoch c) pc') →
  res_inv writes (mkWorld s' (<[i := mkCaller (ca_node c) (ca_epoch c) pc']> cs)).
Proof.
  intros [Hsort Hobj Hcal] Hv Hc. split; simpl in *; [done|by rewrite Hv|].
  intros j c'. rewrite list_lookup_insert_Some. intros [(<- & <- & _)|[_ Hj]]; [done|eauto].
Qed.

Lemma acquire_step_inv writes s cs i c pc' s' :
  os_ok_key (reservation_key tp) = true →
  res_inv writes (mkWorld s cs) → cs !! i = Some c →
  acquire_step tp (ca_node c) (ca_epoch c) (ca_pc c) s = (pc', s') →
  ∃ writes', (writes' = writes ∨ writes' = (ca_epoch c, ca_node c) :: writes) ∧
    res_inv writes' (mkWorld s' (<[i := mkCaller (ca_node c) (ca_epoch c) pc']> cs)).
Proof using BincodeLaws0 VersionedLaws0.
  intros Hok Hinv Hi Hstep. pose proof Hinv as [Hsort Hobj Hcal]. simpl in *.
  pose proof (Hcal _ _ Hi) as Hc. unfold caller_inv in Hc. unfold acquire_step in Hstep.
  destruct (ca_pc c) as [n|n body|n body v| |r] eqn:Epc.
  - destruct (os_get_versioned (reservation_key tp) s) as [rg sg] eqn:Eg.
    apply os_get_versioned_law in Eg as [Hview Hr]; [|done].
    exists writes. split; [by left|].
    destruct rg as [[b v]|e]; injection Hstep as <- <-; apply read_step_inv with s; auto;
      unfold caller_inv; simpl.
    + destruct Hr as [Hb ->]. rewrite Hb in Hobj. destruct Hobj as (r & Hdec & Hhead). rewrite Hdec.
      destruct (Z.ltb_spec (ca_epoch c) (res_epoch r)); simpl; [done|].
      destruct (Z.eqb_spec (res_epoch r) (ca_epoch c)) as [Heq|Hne]; simpl.
      * destruct (String.eqb_spec (res_node_id r) (ca_node c)) as [Hn|Hn]; simpl; [|done].
        apply head_Some_elem_of in Hhead. by rewrite <- Heq, <- Hn.
      * split; [eauto|]. exists b, r. split_and!; [done|done|lia].
    + case_decide; eauto.
  - destruct (os_put_if _ body Create s) as [rp sp] eqn:Ep.
    assert (sp = s') as -> by (destruct rp as [[]|]; congruence).
    eapply put_if_inv; [done|done|done|exact Hc| |exact Ep|].
    + intros He x Hx. destruct (os_view s (reservation_key tp)); [done|]. by subst.
    + destruct rp as [[]|]; simplify_eq; eauto 10. destruct n; simpl; eauto.
  - destruct Hc as [Hbody (b & r & -> & Hdec & Hlt)].
    destruct (os_put_if _ body _ s) as [rp sp] eqn:Ep.
    assert (sp = s') as -> by (destruct rp as [[]|]; congruence).
    eapply put_if_inv; [done|done|done|exact Hbody| |exact Ep|].
    + intros He x Hx. destruct (os_view s (reservation_key tp)) as [d|]; [|done].
      apply os_etag_inj in He as <-. destruct Hobj as (r' & Hdec' & Hh). rewrite Hh in Hx.
      injection Hx as <-. simpl. congruence.
    + destruct rp as [[]|]; simplify_eq; eauto 10. destruct n; simpl; eauto.
  - destruct (os_get_versioned (reservation_key tp) s) as [rg sg] eqn:Eg.
    apply os_get_versioned_law in Eg as [Hview Hr]; [|done].
    exists writes. split; [by left|].
    destruct rg as [[b v]|e]; injection Hstep as <- <-; apply read_step_inv with s; auto;
      unfold caller_inv; done.
  - injection Hstep as <- <-. exists writes. split; [by left|]. apply read_step_inv with s; auto.
Qed.

Lemma res_step_inv writes w w' :
  os_ok_key (reservation_key tp) = true → res_inv writes w → res_step w w' →
  ∃ writes', res_inv writes' w' ∧ ∃ new, writes' = new ++ writes.
Proof using BincodeLaws0 VersionedLaws0.
  intros Hok Hinv Hstep. destruct Hstep as [s cs node epoch|s cs i c pc' s' Hi Hs|s cs s' Hv].
  - exists writes. split; [|by exists []]. destruct Hinv as [? ? Hcal]. split; simpl in *; [done..|].
    intros i c [Hi|[_ Hi]]%lookup_app_Some; [eauto|].
    apply list_lookup_singleton_Some in Hi as [_ <-]. done.
  - destruct (acquire_step_inv _ _ _ _ _ _ _ Hok Hinv Hi Hs) as (writes' & Hw & Hinv').
    exists writes'. split; [done|]. destruct Hw as [->| ->]; [by exists []|by eexists [_]].
  - exists writes. split; [|by exists []]. destruct Hinv as [? ? ?]. split; simpl in *; [done|by rewrite Hv|done].
Qed.

Lemma res_reachable_inv writes w w' :
  os_ok_key (reservation_key tp) = true → res_inv writes w → rtc res_step w w' →
  ∃ writes', res_inv writes' w' ∧ ∃ new, writes' = new ++ writes.
Proof using BincodeLaws0 VersionedLaws0.
  intros Hok Hinv Hr. revert writes Hinv.
  induction Hr as [w|x y z Hxy _ IH]; intros writes Hinv; [exists writes; split; [done|by exists []]|].
  destruct (res_step_inv _ _ _ Hok Hinv Hxy) as (w1 & Hinv1 & n1 & ->).
  destruct (IH _ Hinv1) as (w2 & Hinv2 & n2 & ->). exists (n2 ++ n1 ++ writes). split; [done|].
  exists (n2 ++ n1). by rewrite app_assoc.
Qed.

Lemma initial_inv w : initial w → res_inv [] w.
Proof.
  intros [Hc Hv]. split; [constructor|by rewrite Hv|]. intros i c. rewrite Hc. by rewrite lookup_nil.
Qed.

(** C7: no two brokers own the same epoch.  Whatever brokers race for a
    partition's reservation, with whatever epochs and however their storage
    calls interleave, two calls that both report [Owned] for the same epoch
    were made by the same node. *)
Theorem reservation_exclusive w0 w i j ci cj :
  os_ok_key (reservation_key tp) = true → initial w0 → rtc res_step w0 w →
  w_callers w !! i = Some ci → w_callers w !! j = Some cj →
  ca_pc ci = Done (Ok Owned) → ca_pc cj = Done (Ok Owned) → ca_epoch ci = ca_epoch cj →
  ca_node ci = ca_node cj.
Proof using BincodeLaws0 VersionedLaws0.
  intros Hok Hinit Hr Hi Hj Hpi Hpj He.
  destruct (res_reachable_inv [] w0 w Hok (initial_inv _ Hinit) Hr) as (writes & Hinv & _).
  pose proof (inv_callers _ _ Hinv _ _ Hi) as Hci. pose proof (inv_callers _ _ Hinv _ _ Hj) as Hcj.
  unfold caller_inv in *. rewrite Hpi in Hci. rewrite Hpj in Hcj.
  assert ((ca_epoch ci, ca_node ci) = (ca_epoch cj, ca_node cj)) as [=]; [|done].
  by apply (decreasing_unique writes); [apply Hinv|..].
Qed.

(** C15: Fencing.  Once some call has reported [Owned] for an epoch, no
    verification for a smaller epoch succeeds any more, and one for that
    same epoch only succeeds for the node that owns it. *)
Theorem reservation_fences w0 w i c node epoch s' :
  os_ok_key (reservation_key tp) = true → initial w0 → rtc res_step w0 w →
  w_callers w !! i = Some c → ca_pc c = Done (Ok Owned) →
  verify tp node epoch (w_store w) = (Ok true, s') →
  ca_epoch c ≤ epoch ∧ (epoch = ca_epoch c → node = ca_node c).
Proof using BincodeLaws0 VersionedLaws0.
  intros Hok Hinit Hr Hi Hpc Hver.
  destruct (res_reachable_inv [] w0 w Hok (initial_inv _ Hinit) Hr) as (writes & Hinv & _).
  pose proof (inv_callers _ _ Hinv _ _ Hi) as Hown. unfold caller_inv in Hown. rewrite Hpc in Hown.
  unfold verify in Hver.
  destruct (os_get_versioned (reservation_key tp) (w_store w)) as [rg sg] eqn:Eg.
  apply os_get_versioned_law in Eg as [_ Hget]; [|done].
  destruct rg as [[b v]|e]; [|by case_decide].
  destruct Hget as [Hb _]. pose proof (inv_object _ _ Hinv) as Hobj. rewrite Hb in Hobj.
  destruct Hobj as (r & Hdec & Hhead). rewrite Hdec in Hver. injection Hver as [Hn He]%andb_prop _.
  apply String.eqb_eq in Hn. apply Z.eqb_eq in He.
  destruct (decreasing_head _ _ _ (inv_sorted _ _ Hinv) Hhead Hown) as [Heq|Hlt].
  - injection Heq as Ee En. split; [lia|]. congruence.
  - simpl in Hlt. split; lia.
Qed.

(** *** An uninterrupted call *)

Definition bodies_own (node : string) (epoch : Z) (pc : Pc) : Prop :=
  match pc with
  | AtCreate _ body | AtBump _ body _ => ∃ fo, body = encode_res node epoch fo
  | _ => True
  end.

Lemma acquire_step_owned node epoch pc s pc' s' :
  os_ok_key (reservation_key tp) = true → bodies_own node epoch pc →
  (pc = Done (Ok Owned) → holder s = Some (epoch, node)) →
  acquire_step tp node epoch pc s = (pc', s') →
  bodies_own node epoch pc' ∧ (pc' = Done (Ok Owned) → holder s' = Some (epoch, node)).
Proof using BincodeLaws0 VersionedLaws0.
  intros Hok Hb Hd. destruct pc as [n|n body|n body v| |r]; simpl.
  - destruct (os_get_versioned _ s) as [[[b v]|e] s1] eqn:E; apply os_get_versioned_law in E as [Hv Hr]; try done.
    + destruct (decode_res b) as [cur|e] eqn:Ed; [|by intros [= <- <-]].
      destruct (_ || _); simpl; [by intros [= <- <-]|].
      destruct (Z.eqb_spec (res_epoch cur) epoch) as [Ee|]; simpl; [|intros [= <- <-]; by split; [eexists|]].
      destruct (String.eqb_spec (res_node_id cur) node) as [En|]; simpl; [|by intros [= <- <-]; split; [eexists|]].
      intros [= <- <-]. split; [done|]. intros _. unfold holder. rewrite Hv by done.
      destruct Hr as [-> _]. simpl. by rewrite Ed, Ee, En.
    + intros [= <- <-]. case_decide; by split; [eexists|].
  - destruct Hb as [fo ->]. destruct (os_put_if _ _ _ s) as [[[v|]|e] s1] eqn:E;
      apply os_put_if_law in E; try done; intros [= <- <-]; [|destruct n; by split..].
    split; [done|]. intros _. unfold holder. destruct E as [_ ->]. simpl. by rewrite decode_encode_res.
  - destruct Hb as [fo ->]. destruct (os_put_if _ _ _ s) as [[[v'|]|e] s1] eqn:E;
      apply os_put_if_law in E; try done; intros [= <- <-]; [|destruct n; by split..].
    split; [done|]. intros _. unfold holder. destruct E as [_ ->]. simpl. by rewrite decode_encode_res.
  - destruct (os_get_versioned _ s) as [[[b v]|e] s1]; by intros [= <- <-].
  - intros [= <- <-]. by split.
Qed.

(** A call that reports [Owned] leaves the reservation with the caller. *)
Lemma acquire_owned node epoch s s' :
  os_ok_key (reservation_key tp) = true →
  acquire_reservation tp node epoch s = (Done (Ok Owned), s') → holder s' = Some (epoch, node).
Proof using BincodeLaws0 VersionedLaws0.
  intros Hok. unfold acquire_reservation.
  assert (H : ∀ fuel pc s pc' s', bodies_own node epoch pc →
            (pc = Done (Ok Owned) → holder s = Some (epoch, node)) →
            run_acquire fuel tp node epoch pc s = (pc', s') →
            pc' = Done (Ok Owned) → holder s' = Some (epoch, node)).
  { clear s s'. induction fuel as [|fuel IH]; intros pc s pc' s' Hb Hd; simpl; [by intros [= <- <-]|].
    destruct (acquire_step tp node epoch pc s) as [pc1 s1] eqn:E.
    apply acquire_step_owned in E as [Hb1 Hd1]; try done. by apply IH. }
  intros E. by apply (H 7%nat acquire_start s (Done (Ok Owned)) s').
Qed.

Lemma verify_holder node epoch s s' e n :
  os_ok_key (reservation_key tp) = true → holder s = Some (e, n) →
  verify tp node epoch s = (Ok true, s') → node = n ∧ epoch = e.
Proof using VersionedLaws0.
  intros Hok Hh. unfold verify. destruct (os_get_versioned _ s) as [[[b v]|er] s1] eqn:E;
    apply os_get_versioned_law in E as [_ Hr]; try done; [|by case_decide].
  unfold holder in Hh. destruct Hr as [Hb _]. rewrite Hb in Hh. simpl in Hh.
  destruct (decode_res b) as [cur|er]; [|done]. injection Hh as <- <-.
  destruct (String.eqb_spec (res_node_id cur) node), (Z.eqb_spec (res_epoch cur) epoch); simpl; try done.
Qed.

Lemma verify_not_false node epoch s s' :
  os_ok_key (reservation_key tp) = true → holder s = Some (epoch, node) →
  verify tp node epoch s ≠ (Ok false, s').
Proof using VersionedLaws0.
  intros Hok Hh. unfold verify. destruct (os_get_versioned _ s) as [[[b v]|er] s1] eqn:E;
    apply os_get_versioned_law in E as [_ Hr]; try done.
  - unfold holder in Hh. destruct Hr as [Hb _]. rewrite Hb in Hh. simpl in Hh.
    destruct (decode_res b) as [cur|er]; [|done]. injection Hh as -> ->.
    rewrite String.eqb_refl, Z.eqb_refl. done.
  - case_decide as Hn; [|done]. unfold holder in Hh. by rewrite Hr in Hh.
Qed.
End interleaving.

(** [acquire] always returns: its bounded retry loop makes at most seven
    storage calls, whatever they answer. *)
Theorem acquire_terminates `{!Bincode Reservation} {St} `{!ObjectStorage St} tp node epoch (s : St) :
  ∃ r s', acquire_reservation tp node epoch s = (Done r, s').
Proof.
  set (weight pc := match pc with
                    | AtRead n => (2 * n + 3)%nat | AtCreate n _ | AtBump n _ _ => (2 * n + 2)%nat
                    | AtFinal => 1%nat | Done _ => 0%nat end).
  assert (Hstep : ∀ pc (s : St) pc' s', acquire_step tp node epoch pc s = (pc', s') →
            (weight pc' < weight pc)%nat ∨ ∃ r, pc' = Done r).
  { intros pc s0 pc' s'. destruct pc as [n|n b|n b v| |r]; simpl.
    - destruct (os_get_versioned _ s0) as [[[b v]|e] sg].
      + destruct (decode_res b) as [cur|e]; intros [= <- <-]; [|eauto].
        repeat case_match; simpl; eauto; left; lia.
      + intros [= <- <-]. case_decide; simpl; [left; lia|eauto].
    - destruct (os_put_if _ b Create s0) as [[[]|e] sp]; intros [= <- <-]; eauto.
      left. destruct n; simpl; lia.
    - destruct (os_put_if _ b _ s0) as [[[]|e] sp]; intros [= <- <-]; eauto.
      left. destruct n; simpl; lia.
    - destruct (os_get_versioned _ s0) as [[[b v]|e] sg]; intros [= <- <-]; eauto.
    - intros [= <- <-]. eauto. }
  assert (Hdone : ∀ fuel r (s : St), run_acquire fuel tp node epoch (Done r) s = (Done r, s)).
  { induction fuel; intros; simpl; auto. }
  unfold acquire_reservation. assert (Hw : (weight acquire_start ≤ 7)%nat) by (simpl; lia).
  revert Hw. generalize 7%nat acquire_start s. clear s.
  induction n as [|fuel IH]; intros pc s Hw.
  - destruct pc; simpl in Hw; try lia. eauto.
  - simpl. destruct (acquire_step tp node epoch pc s) as [pc' s'] eqn:E.
    destruct (Hstep _ _ _ _ E) as [Hlt|[r ->]]; [apply IH; lia|]. rewrite Hdone. eauto.
Qed.

(** ** A concrete race *)

Module ReservationDemo.
Import Mem.
#[local] Instance codec : Bincode Reservation := DemoCodec.demo.
#[local] Instance codec_laws : BincodeLaws Reservation := DemoCodec.demo_laws.

#[export] Program Instance mem_versioned : VersionedLaws (gmap string (list Z)) := {|
  os_etag := Mem.tag;
  os_etag_inj := Mem.tag_inj;
|}.
Next Obligation.
  intros k s r s' _ [= <- <-]. split; [done|]. simpl. by destruct (s !! k).
Qed.
Next Obligation.
  intros k d p s r s' _. simpl. unfold Mem.put_if. destruct p as [|v]; destruct (s !! k) as [d0|] eqn:E.
  - by intros [= <- <-].
  - intros [= <- <-]. by rewrite lookup_insert_eq.
  - case_bool_decide; intros [= <- <-]; [by rewrite lookup_insert_eq|done].
  - by intros [= <- <-].
Qed.

Abbreviation W := (World (St := gmap string (list Z))).
Definition run (steps : list nat) (w : W) : W :=
  foldl (λ (w : W) i, match w_callers w !! i with
                | Some c => let '(pc, s) := acquire_step Demo.tp0 (ca_node c) (ca_epoch c) (ca_pc c) (w_store w) in
                            mkWorld s (<[i := mkCaller (ca_node c) (ca_epoch c) pc]> (w_callers w))
                | None => w end) w steps.

Definition w0 : W := mkWorld (∅ : gmap string (list Z)) [].
Definition w1 : W := mkWorld (∅ : gmap string (list Z))
  [mkCaller "a" 1 acquire_start; mkCaller "b" 2 acquire_start].
(** [a] creates epoch 1 while [b] was about to; [b] retries and bumps. *)
Definition w2 : W := run [0; 1; 0; 1; 1; 1]%nat w1.

Lemma run_steps steps w : rtc (res_step Demo.tp0) w (run steps w).
Proof.
  revert w. induction steps as [|i steps IH]; intros w; [apply rtc_refl|]. simpl.
  destruct (w_callers w !! i) as [c|] eqn:Ei; [|apply IH].
  destruct (acquire_step _ _ _ _ _) as [pc s] eqn:E.
  eapply rtc_l; [|apply IH]. destruct w as [s0 cs]. by eapply step_call.
Qed.

Lemma reach_w2 : rtc (res_step Demo.tp0) w0 w2.
Proof.
  eapply rtc_l; [apply (step_start _ _ [] "a" 1)|].
  eapply rtc_l; [apply (step_start _ _ _ "b" 2)|]. apply run_steps.
Qed.

Lemma initial_w0 : initial Demo.tp0 w0.
Proof. split; reflexivity. Qed.

Lemma reservation_exclusive_witness :
  ∃ ci, w_callers w2 !! 1%nat = Some ci ∧ ca_pc ci = Done (Ok Owned) ∧ ca_node ci = "b"%string.
Proof.
  assert (Hw : w_callers w2 !! 1%nat = Some (mkCaller "b" 2 (Done (Ok Owned)))) by (vm_compute; reflexivity).
  exists (mkCaller "b" 2 (Done (Ok Owned))). split; [exact Hw|]. split; [reflexivity|].
  exact (reservation_exclusive Demo.tp0 w0 w2 1 1 _ (mkCaller "b" 2 (Done (Ok Owned)))
           eq_refl initial_w0 reach_w2 Hw Hw eq_refl eq_refl eq_refl).
Defined.

Lemma reservation_fences_witness :
  (verify Demo.tp0 "a" 1 (w_store w2)).1 = Ok false ∧ (2 ≤ 2 ∧ (2 = 2 → "b"%string = "b"%string)).
Proof.
  split; [vm_compute; reflexivity|].
  refine (reservation_fences Demo.tp0 w0 w2 1 (mkCaller "b" 2 (Done (Ok Owned))) "b" 2 (w_store w2)
            eq_refl initial_w0 reach_w2 _ eq_refl _); vm_compute; reflexivity.
Defined.
End ReservationDemo.
