(* ===== verification/PartitionStore.v ===== *)
(** * The partition store

    Model of [src/src/storage/partition_store.rs]: the single write and read
    path of the broker over the write-ahead log, the partition index (hot
    tier), object storage (cold tier), the cold-read cache and the manifest.
    The store is written against the interfaces of its parts: [SegmentedLog]
    (implemented by [SegmentedWal]), [UploadManager], [Cache] and
    [ObjectStorage] (for the reservations). *)

From Stdlib Require Import Ascii.
From S2P Require Import Prelude Types PartitionIndex ColdIndex SegmentedWal LruCache ObjectStorage.
From S2P Require Import Reservation.
Local Open Scope Z_scope.

(** ** [SegmentedLog], as far as the store uses it *)

Class SegmentedLog (W : Type) := {
  sl_append : WalRecord → W → Result PhysicalLocation * W;
  sl_sync : W → Result unit * W;
  sl_seal : Z → bool → W → Result (option Z) * W;   (* current time, force *)
  sl_sealed_segments : W → list Z;
  sl_read_segment_records : Z → W → Result (list WalRecord);
  sl_delete_segment : Z → W → Result unit * W;
  sl_recover : W → Result (list (WalRecord * PhysicalLocation));
}.
#[global] Hint Mode SegmentedLog ! : typeclass_instances.

#[export] Instance file_task_log `{!Bincode WalRecord} : SegmentedLog FileTask := {|
  sl_append := SegmentedWal.append;
  sl_sync := flush;
  sl_seal now force := handle_maybe_seal now force;
  sl_sealed_segments := sealed_segments;
  sl_read_segment_records := read_segment_records;
  sl_delete_segment := delete_segment;
  sl_recover := SegmentedWal.recover;
|}.

(** ** State *)

(** [LeadershipState] and the reservation storage: both fencing inputs. *)
Record Fencing (R : Type) := mkFencing {
  fe_node_id : string;
  fe_epochs : gmap TopicPartition Z;
  fe_reservations : R;
}.
Arguments mkFencing {R}. Arguments fe_node_id {R}. Arguments fe_epochs {R}. Arguments fe_reservations {R}.

(** [LeadershipState::set] and [EpochSource::current_epoch] *)
Definition leadership_set {R} (tp : TopicPartition) (epoch : Z) (is_leader : bool) (f : Fencing R)
  : Fencing R :=
  mkFencing (fe_node_id f)
    (if is_leader then <[tp := epoch]> (fe_epochs f) else delete tp (fe_epochs f))
    (fe_reservations f).
Definition current_epoch {R} (f : Fencing R) (tp : TopicPartition) : option Z := fe_epochs f !! tp.

Record PartitionStore (W U C R : Type) := mkPS {
  ps_wal : W;
  ps_index : PartitionIndex;
  ps_um : U;
  ps_cache : C;
  ps_hot_cache_max_bytes : Z;
  ps_cold_index : bytes;                 (* the manifest file *)
  ps_fencing : option (Fencing R);       (* [None]: fencing disabled *)
  ps_manifest_faults : list append_fault;
}.
Arguments mkPS {W U C R}. Arguments ps_wal {W U C R}. Arguments ps_index {W U C R}.
Arguments ps_um {W U C R}. Arguments ps_cache {W U C R}. Arguments ps_hot_cache_max_bytes {W U C R}.
Arguments ps_cold_index {W U C R}. Arguments ps_fencing {W U C R}. Arguments ps_manifest_faults {W U C R}.

Section store.
Context {W U C R : Type} `{!SegmentedLog W, !UploadManager U, !Cache C, !ObjectStorage R}.
Context `{!Bincode (list WalRecord), !Bincode ManifestRecord, !Bincode Reservation}.
(** [std::mem::size_of::<WalRecord>()], fixed by the compiler's layout *)
Context (sizeof_WalRecord : Z) (crc32 : bytes → Z).
Abbreviation PS := (PartitionStore W U C R).

Definition mem_size (r : WalRecord) : Z :=
  let rec := wr_record r in
  let key := match r_key rec with Some k => Z.of_nat (length k) | None => 0 end in
  let headers := zsum (λ h, Z.of_nat (String.length (h_key h)) + Z.of_nat (length (h_value h)))
                   (r_headers rec) in
  as_u32 (sizeof_WalRecord + Z.of_nat (length (r_value rec)) + key + headers).

Definition with_index (f : PartitionIndex → PartitionIndex) (st : PS) : PS :=
  mkPS (ps_wal st) (f (ps_index st)) (ps_um st) (ps_cache st) (ps_hot_cache_max_bytes st)
    (ps_cold_index st) (ps_fencing st) (ps_manifest_faults st).
Definition with_wal (w : W) (st : PS) : PS :=
  mkPS w (ps_index st) (ps_um st) (ps_cache st) (ps_hot_cache_max_bytes st)
    (ps_cold_index st) (ps_fencing st) (ps_manifest_faults st).
Definition with_um (u : U) (st : PS) : PS :=
  mkPS (ps_wal st) (ps_index st) u (ps_cache st) (ps_hot_cache_max_bytes st)
    (ps_cold_index st) (ps_fencing st) (ps_manifest_faults st).
Definition with_cache (c : C) (st : PS) : PS :=
  mkPS (ps_wal st) (ps_index st) (ps_um st) c (ps_hot_cache_max_bytes st)
    (ps_cold_index st) (ps_fencing st) (ps_manifest_faults st).
Definition with_fencing (f : option (Fencing R)) (st : PS) : PS :=
  mkPS (ps_wal st) (ps_index st) (ps_um st) (ps_cache st) (ps_hot_cache_max_bytes st)
    (ps_cold_index st) f (ps_manifest_faults st).

(** [await_capacity]: the appending task goes on when there is room (it
    waits, woken by tiering, otherwise). *)
Definition await_capacity (incoming : Z) (st : PS) : Result unit :=
  if (ps_hot_cache_max_bytes st =? 0) || (ps_hot_cache_max_bytes st <=? incoming) then Ok tt
  else if ps_hot_cache_max_bytes st <? u64_add (hot_bytes (ps_index st)) incoming then Err Blocked
  else Ok tt.

Definition soft_limit (st : PS) : Z :=
  if ps_hot_cache_max_bytes st =? 0 then u64_MAX else ps_hot_cache_max_bytes st / 5 * 4.

Local Open Scope rust_scope.

Definition append (record : WalRecord) (st : PS) : Result PhysicalLocation * PS :=
  let tp := wr_tp record in
  let offset := wr_offset record in
  let size := mem_size record in
  match await_capacity size st with
  | Err e => (Err e, st)
  | Ok _ =>
      let st := with_index (insert_hot tp offset record size) st in
      match sl_append record (ps_wal st) with
      | (Ok loc, w) => (Ok loc, with_wal w st)
      | (Err e, w) => (Err e, with_index (remove_hot tp offset) (with_wal w st))
      end
  end.

Definition next_offset (st : PS) (tp : TopicPartition) : Offset :=
  PartitionIndex.next_offset (ps_index st) tp.

Definition sync (st : PS) : Result unit * PS :=
  let '(r, w) := sl_sync (ps_wal st) in (r, with_wal w st).

(** The records of a downloaded segment that [read] returns. *)
Fixpoint take_records (max_bytes : Z) (out : list WalRecord) (bytes_acc : Z) (l : list WalRecord)
  : list WalRecord :=
  match l with
  | [] => out
  | r :: l =>
      let sz := mem_size r in
      if bool_decide (out ≠ []) && (max_bytes <? u64_add bytes_acc sz) then out
      else take_records max_bytes (out ++ [r]) (u64_add bytes_acc sz) l
  end.

Definition cache_key (tp : TopicPartition) (offset : Offset) : string :=
  show_tp tp +:+ ":" +:+ dec offset.

(** [read]; [during] is what other tasks do to the store between the
    resolution of the plan and the access to cache and object storage, on
    the first and on the second attempt. *)
Definition read_cold (tp : TopicPartition) (offset : Offset) (max_bytes : Z) (object_key : string)
    (st : PS) : Result (list WalRecord) * PS :=
  let key := cache_key tp offset in
  let! (cached, st) := (let '(r, c) := cache_get key (ps_cache st) in (r, with_cache c st)) in
  match cached ≫= deserialize with
  | Some records => (Ok records, st)
  | None =>
      let! (segment, st) := (let '(r, u) := um_download object_key (ps_um st) in (r, with_um u st)) in
      let! (all, st) := (ok_or (deserialize (seg_data segment)) Storage, st) in
      let out := take_records max_bytes [] 0 (filter (λ r, offset ≤ wr_offset r) all) in
      let '(_, c) := cache_put key (serialize out) (ps_cache st) in
      (Ok out, with_cache c st)
  end.

Definition read (during1 during2 : PS → PS) (tp : TopicPartition) (offset : Offset) (max_bytes : Z)
    (st : PS) : Result (list WalRecord) * PS :=
  match read_plan (ps_index st) tp offset max_bytes with
  | Hot records => (Ok records, st)
  | Empty => (Ok [], st)
  | Cold key1 _ _ =>
      match read_cold tp offset max_bytes key1 (during1 st) with
      | (Err e, st) =>
          if decide (e = NotFound) then
            let '(_, c) := cache_remove (cache_key tp offset) (ps_cache st) in
            let st := with_cache c st in
            match read_plan (ps_index st) tp offset max_bytes with
            | Hot records => (Ok records, st)
            | Empty => (Ok [], st)
            | Cold key2 _ _ => read_cold tp offset max_bytes key2 (during2 st)
            end
          else (Err e, st)
      | res => res
      end
  end.

Definition may_tier (tp : TopicPartition) (st : PS) : Result bool * PS :=
  match ps_fencing st with
  | None => (Ok true, st)
  | Some f =>
      match current_epoch f tp with
      | None => (Ok false, st)
      | Some epoch =>
          let '(r, s) := verify tp (fe_node_id f) epoch (fe_reservations f) in
          (r, with_fencing (Some (mkFencing (fe_node_id f) (fe_epochs f) s)) st)
      end
  end.

(** [self.cold_index.register(..)] *)
Definition register_cold (seg : ColdSegment) (st : PS) : Result unit * PS :=
  let '(fault, faults) := match ps_manifest_faults st with
                          | [] => (NoFault, []) | f :: fs => (f, fs) end in
  let '(r, file) := register crc32 fault (cs_tp seg) (cs_start seg) (cs_end seg) (cs_key seg)
                      (cs_size seg) (ps_cold_index st) in
  (r, mkPS (ps_wal st) (ps_index st) (ps_um st) (ps_cache st) (ps_hot_cache_max_bytes st)
        file (ps_fencing st) faults).

Definition flip_index (seg : ColdSegment) (st : PS) : Result unit * PS :=
  match flip_to_cold (cs_tp seg) (cs_start seg) (cs_end seg) (cs_key seg) (cs_size seg) (ps_index st) with
  | Some idx => (Ok tt, with_index (λ _, idx) st)
  | None => (Err Panic, st)
  end.

(** One iteration of the loop over [groups]: the boolean tells whether the
    group was fenced.  [interfere] is what other brokers and the controller
    do to the reservations and the leadership table during the upload. *)
Definition tier_group (interfere : Fencing R → Fencing R) (tp : TopicPartition) (recs : list WalRecord)
    (st : PS) : Result bool * PS :=
  let! (allowed, st) := may_tier tp st in
  if negb allowed then (Ok true, st) else
  match head recs, last recs with
  | Some first, Some last =>
      let start_offset := wr_offset first in
      let end_offset := u64_add (wr_offset last) 1 in
      let data := serialize recs in
      let size_bytes := Z.of_nat (length data) in
      let segment := mkSegment start_offset end_offset size_bytes data tp in
      let! (object_key, st) :=
        (let '(r, u) := um_upload segment (ps_um st) in (r, with_um u st)) in
      let st := with_fencing (interfere <$> ps_fencing st) st in
      let! (still, st) := may_tier tp st in
      if negb still then (Ok true, st) else
      let seg := mkCold tp start_offset end_offset object_key size_bytes in
      let! (_u, st) := register_cold seg st in
      let! (_u, st) := flip_index seg st in
      (Ok false, st)
  | _, _ => (Err Panic, st)
  end.

Fixpoint tier_groups (interfere : Fencing R → Fencing R)
    (groups : list (TopicPartition * list WalRecord)) (fenced_any : bool) (st : PS)
  : Result bool * PS :=
  match groups with
  | [] => (Ok fenced_any, st)
  | (tp, recs) :: groups =>
      let! (fenced, st) := tier_group interfere tp recs st in
      tier_groups interfere groups (fenced_any || fenced) st
  end.

(** The [HashMap] of the groups, each in append order. *)
Definition group_by_partition (records : list WalRecord) : gmap TopicPartition (list WalRecord) :=
  foldl (λ m r, <[wr_tp r := default [] (m !! wr_tp r) ++ [r]]> m) ∅ records.

(** [order] is the iteration order of the hash map. *)
Definition tier_segment (interfere : Fencing R → Fencing R)
    (order : list (TopicPartition * list WalRecord) → list (TopicPartition * list WalRecord))
    (seq : Z) (st : PS) : Result unit * PS :=
  let! (records, st) := (sl_read_segment_records seq (ps_wal st), st) in
  if bool_decide (records = []) then
    let '(r, w) := sl_delete_segment seq (ps_wal st) in (r, with_wal w st)
  else
    let! (fenced_any, st) :=
      tier_groups interfere (order (map_to_list (group_by_partition records))) false st in
    if (fenced_any : bool) then (Ok tt, st)
    else let '(r, w) := sl_delete_segment seq (ps_wal st) in (r, with_wal w st).

Fixpoint tier_segments interfere order (seqs : list Z) (st : PS) : Result unit * PS :=
  match seqs with
  | [] => (Ok tt, st)
  | seq :: seqs =>
      let! (_u, st) := tier_segment interfere order seq st in
      tier_segments interfere order seqs st
  end.

Definition tier_once interfere order (now : Z) (force_seal : bool) (st : PS) : Result unit * PS :=
  let! (_s, st) := (let '(r, w) := sl_seal now force_seal (ps_wal st) in (r, with_wal w st)) in
  tier_segments interfere order (sl_sealed_segments (ps_wal st)) st.

(** Recovery: [new_with_fencing]. *)
Definition gc_orphans (keys : list string) (u : U) : U :=
  foldl (λ u k, (um_delete k u).2) u keys.

Definition restore_hot (records : list (WalRecord * PhysicalLocation)) (idx : PartitionIndex)
  : PartitionIndex :=
  foldl (λ idx p, insert_hot (wr_tp p.1) (wr_offset p.1) p.1 (mem_size p.1) idx) idx records.

Definition new_with_fencing (wal : W) (um : U) (cache : C) (hot_cache_max_bytes : Z)
    (manifest : option bytes) (fencing : option (Fencing R)) : Result PS :=
  let '(loaded, file) := load crc32 true true manifest in
  let? load_result := loaded in
  let index := restore_cold (live load_result) PartitionIndex.new in
  let um := gc_orphans (orphan_object_keys load_result) um in
  let? records := sl_recover wal in
  Ok (mkPS wal (restore_hot records index) um cache hot_cache_max_bytes (default [] file) fencing []).
End store.

(** ** What a store serves

    [resolve st tp o] is the record a reader of [tp] gets at offset [o],
    whichever tier holds it. *)

Section spec.
Context {W U C R : Type} `{!SegmentedLog W, !UploadManager U, !Cache C, !ObjectStorage R}.
Context `{!UploadManagerLaws U, !CacheLaws C}.
Context `{!Bincode (list WalRecord), !BincodeLaws (list WalRecord)}.
Context `{!Bincode ManifestRecord, !Bincode Reservation}.
Context (sizeof_WalRecord : Z) (crc32 : bytes → Z).
Abbreviation PS := (PartitionStore W U C R).
Abbreviation mem_size := (mem_size sizeof_WalRecord).
Implicit Types (st : PS) (tp : TopicPartition) (o : Offset) (rs : list WalRecord).

(** The records stored under an object key. *)
Definition obj_records (u : U) (k : string) : option (list WalRecord) := um_view u k ≫= deserialize.

Definition resolve_in (e : PartitionEntries) (u : U) (o : Offset) : option WalRecord :=
  match source e o with
  | Some (inl r) => Some r
  | Some (inr (k, s, _)) => rs ← obj_records u k; rs !! Z.to_nat (o - s)
  | None => None
  end.
Definition resolve (st : PS) (tp : TopicPartition) (o : Offset) : option WalRecord :=
  resolve_in (entries_of (ps_index st) tp) (ps_um st) o.

(** [rs] holds the offsets from [s] on, of partition [tp]. *)
Definition consecutive (tp : TopicPartition) (s : Offset) (rs : list WalRecord) : Prop :=
  ∀ i r, rs !! i = Some r → wr_offset r = s + Z.of_nat i ∧ wr_tp r = tp.

Definition range_key (tp : TopicPartition) (s e : Offset) : string :=
  segment_key (mkSegment s e 0 [] tp).

(** The object of a cold range holds exactly the range's records. *)
Record cold_object_ok (u : U) (tp : TopicPartition) (s : Offset) (r : ObjectRange) : Prop := {
  co_key : or_object_key r = range_key tp s (or_end_offset r);
  co_valid : um_ok_key u (or_object_key r);
  co_topic : slash_free (tp_topic tp) = true ∧ 0 ≤ tp_partition tp;
  co_data : ∃ rs, obj_records u (or_object_key r) = Some rs ∧ consecutive tp s rs ∧
                  s + Z.of_nat (length rs) = or_end_offset r;
}.

(** One partition: well-formed index entries, sound cold objects, hot
    records under their own offsets, and agreement where both tiers hold an
    offset. *)
Record part_ok (u : U) (tp : TopicPartition) (e : PartitionEntries) : Prop := {
  po_wf : entries_wf e;
  po_cold s r : pe_cold e !! s = Some r → cold_object_ok u tp s r;
  po_hot o h : pe_hot e !! o = Some h → wr_offset (he_record h) = o ∧ wr_tp (he_record h) = tp;
  po_agree o h s r rs : pe_hot e !! o = Some h → covers e s r o →
    obj_records u (or_object_key r) = Some rs → rs !! Z.to_nat (o - s) = Some (he_record h);
}.

Definition store_ok (st : PS) : Prop :=
  index_wf (ps_index st) ∧ ∀ tp, part_ok (ps_um st) tp (entries_of (ps_index st) tp).

(** What a read may return. *)
Definition valid_read (st : PS) tp o rs : Prop :=
  rs ≠ [] ∧ ∀ i r, rs !! i = Some r → resolve st tp (o + Z.of_nat i) = Some r.

Definition cache_ok (st : PS) : Prop :=
  ∀ tp o b rs, 0 ≤ o → 0 ≤ tp_partition tp →
    cache_view (ps_cache st) (cache_key tp o) = Some b → deserialize b = Some rs → valid_read st tp o rs.

(** *** Reading a cold range *)

Lemma resolve_hot st tp o h :
  pe_hot (entries_of (ps_index st) tp) !! o = Some h → resolve st tp o = Some (he_record h).
Proof. intros Hh. unfold resolve, resolve_in, source. by rewrite Hh. Qed.

Lemma resolve_covered u tp e s r rs o :
  part_ok u tp e → covers e s r o → obj_records u (or_object_key r) = Some rs →
  resolve_in e u o = rs !! Z.to_nat (o - s).
Proof.
  intros Hok Hc Hrs. unfold resolve_in. destruct (pe_hot e !! o) as [h|] eqn:Eh.
  - unfold source. rewrite Eh. symmetry. by eapply (po_agree _ _ _ Hok).
  - rewrite (source_covers e s r o) by (done || apply Hok). by rewrite Hrs.
Qed.

Lemma consecutive_tail tp s r rs : consecutive tp s (r :: rs) → wr_offset r = s ∧ consecutive tp (s + 1) rs.
Proof.
  intros Hc. destruct (Hc 0%nat r eq_refl) as [Hr _]. split; [lia|].
  intros i x Hi. destruct (Hc (S i) x Hi). split; [lia|done].
Qed.

Lemma consecutive_ends tp s rs :
  consecutive tp s rs → rs ≠ [] → 0 ≤ s → s + Z.of_nat (length rs) < u64_modulus →
  ∃ first lst, head rs = Some first ∧ list.last rs = Some lst ∧ wr_offset first = s ∧
    u64_add (wr_offset lst) 1 = s + Z.of_nat (length rs).
Proof.
  intros Hc Hne Hs Hb. destruct rs as [|first rs]; [done|].
  destruct (last (first :: rs)) as [lst|] eqn:El; [|by apply last_None in El].
  exists first, lst. split_and!; [done|done| |].
  - destruct (Hc 0%nat first eq_refl). lia.
  - rewrite last_lookup in El. destruct (Hc _ _ El) as [-> _]. simpl length in *.
    rewrite u64_add_small by lia. lia.
Qed.

Lemma filter_consecutive_all tp s rs o :
  consecutive tp s rs → o ≤ s → filter (λ r, o ≤ wr_offset r) rs = rs.
Proof.
  revert s. induction rs as [|r rs IH]; intros s Hc Hs; [done|].
  apply consecutive_tail in Hc as [Hr Hc]. rewrite filter_cons, decide_True by lia.
  by rewrite (IH (s + 1)) by (done || lia).
Qed.

(** The offsets from [o] on are a suffix of the range. *)
Lemma filter_consecutive tp s rs o :
  consecutive tp s rs → s ≤ o →
  filter (λ r, o ≤ wr_offset r) rs = drop (Z.to_nat (o - s)) rs.
Proof.
  revert s. induction rs as [|r rs IH]; intros s Hc Hs; [by rewrite drop_nil|].
  destruct (decide (o = s)) as [->|Hne].
  - rewrite Z.sub_diag, drop_0. by eapply filter_consecutive_all.
  - apply consecutive_tail in Hc as [Hr Hc]. rewrite filter_cons, decide_False by lia.
    rewrite (IH (s + 1)) by (done || lia).
    by replace (Z.to_nat (o - s)) with (S (Z.to_nat (o - (s + 1)))) by lia.
Qed.

(** [take_records] takes a non-empty prefix. *)
Lemma take_records_prefix mb out acc l :
  ∃ k, take_records sizeof_WalRecord mb out acc l = out ++ take k l ∧ (out = [] → l ≠ [] → (0 < k)%nat).
Proof.
  revert out acc. induction l as [|r l IH]; intros out acc; simpl.
  - exists 0%nat. by rewrite app_nil_r.
  - case_bool_decide as Ho; simpl.
    + destruct (mb <? _).
      * exists 0%nat. by rewrite app_nil_r.
      * destruct (IH (out ++ [r]) (u64_add acc (mem_size r))) as (k & Hk & _).
        exists (S k). rewrite Hk, <- app_assoc. split; [done|lia].
    + destruct (IH (out ++ [r]) (u64_add acc (mem_size r))) as (k & Hk & _).
      exists (S k). rewrite Hk, <- app_assoc. split; [done|lia].
Qed.

(** Serving from an object that holds the range of the plan. *)
Lemma serve_valid st tp o mb s r rs :
  store_ok st → covers (entries_of (ps_index st) tp) s r o →
  obj_records (ps_um st) (or_object_key r) = Some rs →
  valid_read st tp o (take_records sizeof_WalRecord mb [] 0 (filter (λ r, o ≤ wr_offset r) rs)).
Proof.
  intros [Hwf Hok] Hc Hrs. pose proof (Hok tp) as Hp. pose proof Hc as [Hs Hrange].
  destruct (co_data _ _ _ _ (po_cold _ _ _ Hp _ _ Hs)) as (rs' & Hrs' & Hcon & Hlen).
  rewrite Hrs in Hrs'. injection Hrs' as <-.
  rewrite (filter_consecutive tp s) by (done || lia).
  destruct (take_records_prefix mb [] 0 (drop (Z.to_nat (o - s)) rs)) as (k & -> & Hk). simpl.
  assert (Hne : drop (Z.to_nat (o - s)) rs ≠ []).
  { intros E%(f_equal length). rewrite length_drop in E. simpl in E. lia. }
  specialize (Hk eq_refl Hne). split.
  - destruct (drop (Z.to_nat (o - s)) rs); [done|]. by destruct k; [lia|].
  - intros i x [Hi _]%lookup_take_Some. rewrite lookup_drop in Hi.
    assert (Hlt : (Z.to_nat (o - s) + i < length rs)%nat) by by eapply lookup_lt_Some.
    unfold resolve. rewrite (resolve_covered _ tp _ s r rs); [|done|split; [done|lia]|done].
    rewrite <- Hi. f_equal. lia.
Qed.

(** States that agree on what they serve. *)
Definition same_reads st st' : Prop := ∀ tp o, resolve st' tp o = resolve st tp o.

Lemma valid_read_same st st' tp o rs : same_reads st st' → valid_read st' tp o rs ↔ valid_read st tp o rs.
Proof.
  intros Hs. split; intros [? Hv]; (split; [done|]); intros i r Hi; specialize (Hv i r Hi);
    by rewrite ?Hs in *.
Qed.

(** Changing the cache only: every new entry is valid. *)
Lemma cache_ok_intro st st' :
  cache_ok st → same_reads st st' →
  (∀ k v, cache_view (ps_cache st') k = Some v →
     cache_view (ps_cache st) k = Some v ∨
     ∀ tp o rs, 0 ≤ o → 0 ≤ tp_partition tp → k = cache_key tp o → deserialize v = Some rs → valid_read st tp o rs) →
  cache_ok st'.
Proof.
  intros Hc Hs Hv tp o b rs Ho Htp Hb Hd. rewrite valid_read_same by done.
  destruct (Hv _ _ Hb) as [Hb'|Hn]; [by eapply Hc|by eapply Hn].
Qed.

(** Object storage that looks the same to the objects of the index. *)
Definition um_same (u u' : U) (live : string → Prop) : Prop :=
  (∀ k, um_ok_key u' k ↔ um_ok_key u k) ∧
  (∀ k, um_ok_key u k → live k → um_view u' k = um_view u k).

Definition live_key (st : PS) (k : string) : Prop :=
  ∃ tp s r, pe_cold (entries_of (ps_index st) tp) !! s = Some r ∧ k = or_object_key r.

Lemma part_ok_um u u' tp e :
  part_ok u tp e → um_same u u' (λ k, ∃ s r, pe_cold e !! s = Some r ∧ k = or_object_key r) →
  part_ok u' tp e ∧ ∀ o, resolve_in e u' o = resolve_in e u o.
Proof.
  intros [Hwf Hcold Hhot Hagree] [Hkeys Hview].
  assert (Hobj : ∀ s r, pe_cold e !! s = Some r →
            obj_records u' (or_object_key r) = obj_records u (or_object_key r)).
  { intros s r Hs. unfold obj_records. rewrite Hview; [done| |eauto]. by apply (Hcold s r). }
  split; [split; [done| |done|]|].
  - intros s r Hs. destruct (Hcold s r Hs) as [? ? ? (rs & Hrs & ?)].
    split; [done|by apply Hkeys|done|]. exists rs. by rewrite (Hobj s).
  - intros o h s r rs Hh Hc Hrs. destruct Hc as [Hs Hlt]. rewrite (Hobj s) in Hrs by done.
    eapply Hagree; [done| |done]. done.
  - intros o. unfold resolve_in, source. destruct (pe_hot e !! o); [done|].
    destruct (floor_entry o (pe_cold e)) as [[s r]|] eqn:Ef; [|done].
    apply floor_entry_Some in Ef as (Hs & _). destruct (_ <? _); [|done]. by rewrite (Hobj s).
Qed.

Lemma store_ok_um st u' :
  store_ok st → um_same (ps_um st) u' (live_key st) →
  store_ok (with_um u' st) ∧ same_reads st (with_um u' st).
Proof.
  intros [Hwf Hok] [Hkeys Hview].
  assert (Hp : ∀ tp, part_ok u' tp (entries_of (ps_index st) tp) ∧
            ∀ o, resolve_in (entries_of (ps_index st) tp) u' o
                 = resolve_in (entries_of (ps_index st) tp) (ps_um st) o).
  { intros tp. apply part_ok_um; [done|]. split; [done|].
    intros k Hk (s & r & Hs & ->). apply Hview; [done|]. by exists tp, s, r. }
  split; [split; [done|]|].
  - intros tp. by destruct (Hp tp).
  - intros tp o. destruct (Hp tp) as [_ Hr]. apply Hr.
Qed.

(** States of which the later one still serves all that the earlier one
    served: appending adds offsets, tiering and compaction move them. *)
Definition keeps_reads st st' : Prop := ∀ tp o r, resolve st tp o = Some r → resolve st' tp o = Some r.

Lemma valid_read_kept st st' tp o rs : keeps_reads st st' → valid_read st tp o rs → valid_read st' tp o rs.
Proof. intros Hk [? Hv]. split; [done|]. intros i r Hi. by apply Hk, Hv. Qed.

Lemma same_reads_trans st1 st2 st3 : same_reads st1 st2 → same_reads st2 st3 → same_reads st1 st3.
Proof. intros H1 H2 tp o. by rewrite H2, H1. Qed.

(** A relation between the states a read passes through: between changing
    nothing that is served and keeping all that is served. *)
Record read_rel (Rel : PS → PS → Prop) : Prop := {
  rr_same : ∀ st st', same_reads st st' → Rel st st';
  rr_trans : ∀ st1 st2 st3, Rel st1 st2 → Rel st2 st3 → Rel st1 st3;
  rr_keeps : ∀ st st', Rel st st' → keeps_reads st st';
}.

Lemma same_reads_rel : read_rel same_reads.
Proof. split; [done|apply same_reads_trans|]. intros st st' Hs tp o r Hr. by rewrite Hs. Qed.

Lemma keeps_reads_rel : read_rel keeps_reads.
Proof.
  split; [|by intros st1 st2 st3 H1 H2 tp o r Hr; apply H2, H1|done].
  intros st st' Hs tp o r Hr. by rewrite Hs.
Qed.

(** What other tasks may do while a read is in progress: they keep the
    store sound and relate what it serves by [Rel], and may add and delete
    objects but not change them. *)
Definition env_step (Rel : PS → PS → Prop) st st' : Prop :=
  store_ok st' ∧ cache_ok st' ∧ Rel st st' ∧
  (∀ k, um_ok_key (ps_um st') k ↔ um_ok_key (ps_um st) k) ∧
  ∀ k rs, um_ok_key (ps_um st) k → obj_records (ps_um st) k = Some rs →
    um_view (ps_um st') k = None ∨ obj_records (ps_um st') k = Some rs.

Lemma plan_cold_covers st tp o mb k s e :
  store_ok st → read_plan (ps_index st) tp o mb = Cold k s e →
  ∃ r, covers (entries_of (ps_index st) tp) s r o ∧ or_object_key r = k ∧ um_ok_key (ps_um st) k ∧
       ∃ rs, obj_records (ps_um st) k = Some rs.
Proof.
  intros [Hwf Hok] Hplan. pose proof (read_plan_source (ps_index st) tp o mb Hwf) as Hs.
  rewrite Hplan in Hs. simpl in Hs. symmetry in Hs. unfold source in Hs.
  destruct (pe_hot _ !! o); [done|].
  destruct (floor_entry o _) as [[s' r]|] eqn:Ef; [|done].
  destruct (Z.ltb_spec o (or_end_offset r)); [|done]. injection Hs as <- -> <-.
  apply floor_entry_Some in Ef as (Hs & ? & _). exists r.
  destruct (po_cold _ _ _ (Hok tp) _ _ Hs) as [_ ? _ (rs & ? & _)]. split_and!; eauto. done.
Qed.

Lemma read_cold_spec Rel st0 st tp o mb k s e r st' :
  read_rel Rel →
  store_ok st0 → read_plan (ps_index st0) tp o mb = Cold k s e → env_step Rel st0 st →
  0 ≤ o → 0 ≤ tp_partition tp → read_cold sizeof_WalRecord tp o mb k st = (r, st') →
  store_ok st' ∧ cache_ok st' ∧ Rel st0 st' ∧ ps_index st' = ps_index st ∧
  (∀ rs, r = Ok rs → valid_read st' tp o rs).
Proof using BincodeLaws0 CacheLaws0 UploadManagerLaws0.
  intros HRel Hok0 Hplan (Hok & Hcache & Hsame & Hkeys & Hobjs) Ho Htp. unfold read_cold.
  destruct (plan_cold_covers _ _ _ _ _ _ _ Hok0 Hplan) as (rg & Hcov & <- & Hvk & rs0 & Hrs0).
  destruct (cache_get _ (ps_cache st)) as [rc c1] eqn:Ec.
  apply cache_get_law in Ec as [Hsub Hget].
  assert (Hst1 : store_ok (with_cache c1 st) ∧ cache_ok (with_cache c1 st)).
  { split; [done|]. apply (cache_ok_intro st); [done|by intros ??|]. intros k' v Hv. left. by apply Hsub. }
  destruct Hst1 as [Hok1 Hcache1].
  assert (Hsame1 : Rel st0 (with_cache c1 st)) by (eapply (rr_trans _ HRel); [done|by apply (rr_same _ HRel)]).
  destruct rc as [cached|err]; cbn [sbind]; cycle 1.
  { intros [= <- <-]. split_and!; done. }
  destruct (cached ≫= deserialize) as [rs|] eqn:Ed.
  { intros [= <- <-]. split_and!; try done. intros rs' [= <-].
    destruct cached as [b|]; [|done]. simpl in Ed.
    eapply Hcache; [done|done|by apply Hget|done]. }
  destruct (um_download _ _) as [rd u1] eqn:Eu.
  apply um_download_law in Eu as (Hk1 & _ & Hv1 & Hr1); [|by apply Hkeys]. simpl in Hk1, Hv1, Hr1.
  assert (Hst2 : store_ok (with_um u1 (with_cache c1 st)) ∧ same_reads st (with_um u1 (with_cache c1 st))).
  { apply (store_ok_um (with_cache c1 st)); [done|]. split; [done|]. intros; by apply Hv1. }
  destruct Hst2 as [Hok2 Hsame2].
  assert (Hsame02 : Rel st0 (with_um u1 (with_cache c1 st)))
    by (eapply (rr_trans _ HRel); [done|by apply (rr_same _ HRel)]).
  assert (Hcache2 : cache_ok (with_um u1 (with_cache c1 st))).
  { apply (cache_ok_intro st); [done|done|]. intros k' v Hv. left. by apply Hsub. }
  destruct rd as [seg|err]; cbn [sbind]; cycle 1.
  { intros [= <- <-]. split_and!; done. }
  destruct (deserialize (seg_data seg)) as [all|] eqn:Ea; cbn [ok_or sbind]; cycle 1.
  { intros [= <- <-]. split_and!; done. }
  set (out := take_records _ _ _ _ _).
  assert (Hvalid : valid_read (with_um u1 (with_cache c1 st)) tp o out).
  { apply (valid_read_kept st0); [by apply (rr_keeps _ HRel)|]. assert (all = rs0) as ->; [|by eapply serve_valid].
    destruct (Hobjs _ _ Hvk Hrs0) as [Hn|Hs]; [congruence|].
    unfold obj_records in Hs. rewrite Hr1 in Hs. simpl in Hs. congruence. }
  destruct (cache_put _ _ _) as [rp c2] eqn:Ep.
  pose proof (cache_put_law _ _ _ _ _ Ep) as Hput.
  intros [= <- <-]. split_and!; try done.
  - apply (cache_ok_intro (with_um u1 (with_cache c1 st))); [done|by intros ??|].
    intros k' v' Hv'. destruct (Hput _ _ Hv') as [[-> ->]|[_ ?]]; [right|by left].
    intros tp' o' rs' Ho' Htp' Hkey Hd. rewrite deserialize_serialize in Hd. injection Hd as <-.
    by apply show_tp_offset_inj in Hkey as [<- <-]; [|done..].
  - eapply (rr_trans _ HRel); [done|by apply (rr_same _ HRel)].
  - intros rs' [= <-]. done.
Qed.

Lemma read_plan_valid st tp o mb :
  store_ok st →
  match read_plan (ps_index st) tp o mb with
  | Hot rs => valid_read st tp o rs
  | Empty => resolve st tp o = None
  | Cold _ _ _ => True
  end.
Proof.
  intros [Hwf Hok]. pose proof (po_wf _ _ _ (Hok tp)) as He.
  destruct (pe_hot (entries_of (ps_index st) tp) !! o) as [h|] eqn:Eh.
  - destruct (pi_inner (ps_index st) !! tp) as [e|] eqn:Ei; cycle 1.
    { revert Eh. unfold entries_of. rewrite Ei. simpl. by rewrite lookup_empty. }
    assert (Hee : entries_of (ps_index st) tp = e) by (unfold entries_of; by rewrite Ei).
    rewrite Hee in *. destruct (read_plan_hot _ tp o mb e h Ei He Eh) as (es & -> & Hrun).
    split; [intros Hn%fmap_nil_inv; by apply (run_nonempty _ _ _ _ Hrun)|].
    intros i r. rewrite list_lookup_fmap. intros (h' & Hh' & ->)%fmap_Some.
    apply resolve_hot. rewrite Hee. by apply (run_consecutive _ _ _ _ Hrun).
  - rewrite read_plan_not_hot by done. unfold resolve, resolve_in.
    destruct (source _ o) as [[w|[[k s] e]]|] eqn:E; try done.
    unfold source in E. rewrite Eh in E. by repeat case_match.
Qed.

(** An offset that holds nothing is answered from the index, with nothing. *)
Lemma read_nothing st tp o mb during1 during2 r st' :
  store_ok st → resolve st tp o = None →
  read sizeof_WalRecord during1 during2 tp o mb st = (r, st') → r = Ok [].
Proof.
  intros Hok Hnone. unfold read. pose proof (read_plan_valid st tp o mb Hok) as Hplan.
  destruct (read_plan (ps_index st) tp o mb) as [rs|k s e|] eqn:E; [|exfalso|by intros [= <- _]].
  - destruct Hplan as [Hne Hv]. destruct rs as [|x rs]; [done|].
    specialize (Hv 0%nat x eq_refl). replace (o + Z.of_nat 0) with o in Hv by lia. congruence.
  - destruct (plan_cold_covers _ _ _ _ _ _ _ Hok E) as (rg & Hcov & <- & _ & rs & Hrs).
    destruct Hcov as [Hs Hlt]. destruct (po_cold _ _ _ (proj2 Hok tp) _ _ Hs) as [_ _ _ (rs' & Hrs' & _ & Hlen)].
    revert Hnone. unfold resolve. rewrite (resolve_covered _ tp _ s rg rs) by (done || apply Hok).
    rewrite lookup_ge_None. simplify_eq. unfold covers in *. lia.
Qed.

(** The offset was served by the cold tier when the read began. *)
Definition cold_at st tp o : Prop := ∃ k s e, source (entries_of (ps_index st) tp) o = Some (inr (k, s, e)).

Lemma read_keep Rel st tp o mb during1 during2 r st' :
  read_rel Rel → store_ok st → cache_ok st → 0 ≤ o → 0 ≤ tp_partition tp →
  (∀ st, store_ok st → cache_ok st → env_step Rel st (during1 st) ∧ env_step Rel st (during2 st)) →
  read sizeof_WalRecord during1 during2 tp o mb st = (r, st') →
  store_ok st' ∧ cache_ok st' ∧ Rel st st' ∧
  match r with
  | Ok [] => resolve st tp o = None
  | Ok rs => valid_read st' tp o rs
  | Err _ => cold_at st tp o
  end.
Proof using BincodeLaws0 CacheLaws0 UploadManagerLaws0.
  intros HRel Hok Hcache Ho Htp Henv. unfold read. pose proof (read_plan_valid st tp o mb Hok) as Hplan1.
  assert (Hrefl : Rel st st) by by apply (rr_same _ HRel).
  destruct (read_plan (ps_index st) tp o mb) as [rs|k1 s1 e1|] eqn:E1.
  - intros [= <- <-]. split_and!; try done. by destruct rs; [destruct Hplan1|].
  - assert (Hcold : cold_at st tp o).
    { pose proof (read_plan_source (ps_index st) tp o mb (proj1 Hok)) as Hs.
      rewrite E1 in Hs. simpl in Hs. by exists k1, s1, e1. }
    destruct (Henv st Hok Hcache) as [Henv1 _].
    destruct (read_cold _ tp o mb k1 (during1 st)) as [r1 st1] eqn:Er1.
    destruct (read_cold_spec _ _ _ _ _ _ _ _ _ _ _ HRel Hok E1 Henv1 Ho Htp Er1)
      as (Hok1 & Hcache1 & Hsame1 & _ & Hv1).
    destruct r1 as [rs|err].
    { intros [= <- <-]. split_and!; try done. specialize (Hv1 _ eq_refl). by destruct rs; [destruct Hv1|]. }
    case_decide; [|by intros [= <- <-]].
    destruct (cache_remove _ _) as [rr c2] eqn:Erem.
    pose proof (cache_remove_law _ _ _ _ Erem) as Hrem. set (st2 := with_cache c2 st1).
    assert (Hok2 : store_ok st2) by done.
    assert (Hsame2 : Rel st st2) by (eapply (rr_trans _ HRel); [done|by apply (rr_same _ HRel)]).
    assert (Hcache2 : cache_ok st2).
    { apply (cache_ok_intro st1); [done|by intros ??|]. intros k v Hv. left. by apply (Hrem k v). }
    pose proof (read_plan_valid st2 tp o mb Hok2) as Hplan2.
    destruct (read_plan (ps_index st2) tp o mb) as [rs|k2 s2 e2|] eqn:E2.
    + intros [= <- <-]. split_and!; try done. by destruct rs; [destruct Hplan2|].
    + destruct (Henv st2 Hok2 Hcache2) as [_ Henv2]. intros Er2.
      destruct (read_cold_spec _ _ _ _ _ _ _ _ _ _ _ HRel Hok2 E2 Henv2 Ho Htp Er2)
        as (? & ? & Hsame3 & _ & Hv2).
      split_and!; try done; [by eapply (rr_trans _ HRel)|].
      destruct r as [rs|]; [|done]. specialize (Hv2 _ eq_refl).
      by destruct rs; [destruct Hv2|].
    + intros [= <- <-]. split_and!; try done.
      destruct (resolve st tp o) as [x|] eqn:Ex; [|done].
      apply (rr_keeps _ HRel _ _ Hsame2) in Ex. congruence.
  - by intros [= <- <-].
Qed.

(** C3: a read returns only what the partition holds.  For every offset and
    byte budget, whichever tier or cache answers, and whatever other tasks
    do to the store at the two points where the read waits, as long as they
    keep it sound and every offset that is served keeps its record (appends,
    tiering and compaction do, and may delete the very object being read):
    an empty result means that the offset held nothing when the read began;
    a non-empty one is the records of consecutive offsets starting exactly
    at the requested one; an offset that holds nothing is answered with an
    empty result, not with an error, and only the read of an offset that is
    in the cold tier can fail; neither store nor cache is left unsound. *)
Theorem read_correct st tp o mb during1 during2 r st' :
  store_ok st → cache_ok st → 0 ≤ o → 0 ≤ tp_partition tp →
  (∀ st, store_ok st → cache_ok st →
     env_step keeps_reads st (during1 st) ∧ env_step keeps_reads st (during2 st)) →
  read sizeof_WalRecord during1 during2 tp o mb st = (r, st') →
  store_ok st' ∧ cache_ok st' ∧ keeps_reads st st' ∧
  (resolve st tp o = None → r = Ok []) ∧
  match r with
  | Ok [] => resolve st tp o = None
  | Ok rs => valid_read st' tp o rs
  | Err _ => cold_at st tp o
  end.
Proof using BincodeLaws0 CacheLaws0 UploadManagerLaws0.
  intros Hok Hcache Ho Htp Henv Hr.
  destruct (read_keep _ _ _ _ _ _ _ _ _ keeps_reads_rel Hok Hcache Ho Htp Henv Hr) as (? & ? & ? & Hv).
  split_and!; try done. intros Hnone. by apply (read_nothing st tp o mb during1 during2 r st').
Qed.

(** *** Appending *)

Lemma next_offset_entries idx tp :
  PartitionIndex.next_offset idx tp = pe_next_offset (entries_of idx tp).
Proof. unfold PartitionIndex.next_offset, entries_of. by destruct (pi_inner idx !! tp). Qed.

(** An offset that resolves to nothing is in neither tier. *)
Lemma fresh_offset st tp o :
  store_ok st → resolve st tp o = None →
  pe_hot (entries_of (ps_index st) tp) !! o = None ∧ ∀ s r, ¬ covers (entries_of (ps_index st) tp) s r o.
Proof.
  intros [_ Hok] Hn. split.
  - apply eq_None_not_Some. intros [h Hh]. by rewrite (resolve_hot st tp o h Hh) in Hn.
  - intros s r Hc. destruct (co_data _ _ _ _ (po_cold _ _ _ (Hok tp) s r (proj1 Hc))) as (rs & Hrs & _ & Hlen).
    unfold resolve in Hn. rewrite (resolve_covered _ tp _ s r rs o (Hok tp) Hc Hrs) in Hn.
    apply lookup_ge_None in Hn. destruct Hc as [_ Hc]. lia.
Qed.

(** Nothing resolves at or beyond [next_offset]. *)
Lemma resolve_beyond st tp o : store_ok st → next_offset st tp ≤ o → resolve st tp o = None.
Proof.
  intros [_ Hok] Hn. pose proof (po_wf _ _ _ (Hok tp)) as He.
  unfold next_offset in Hn. rewrite next_offset_entries in Hn. unfold resolve, resolve_in.
  rewrite source_None; [done|done| |].
  - apply eq_None_not_Some. intros [h Hh]. destruct (wf_hot _ He _ _ Hh). lia.
  - intros s r [Hs ?]. destruct (wf_cold _ He _ _ Hs). lia.
Qed.

Lemma entries_of_insert_hot tp o r sz idx tp' :
  entries_of (insert_hot tp o r sz idx) tp' =
    if decide (tp = tp') then
      mkEntries (<[o := mkHot r sz]> (pe_hot (entries_of idx tp))) (pe_cold (entries_of idx tp))
        (Z.max (pe_next_offset (entries_of idx tp)) (u64_add o 1))
    else entries_of idx tp'.
Proof.
  unfold insert_hot. rewrite entries_of_set. case_decide; [by subst|]. by destruct (pe_hot _ !! o).
Qed.

(** Inserting a record at an offset that is in neither tier. *)
Lemma insert_hot_store st r :
  store_ok st → let tp := wr_tp r in let o := wr_offset r in let sz := mem_size r in
  op_ok (OpInsertHot tp o r sz) (ps_index st) →
  resolve st tp o = None →
  let st' := with_index (insert_hot tp o r sz) st in
  store_ok st' ∧ resolve st' tp o = Some r ∧
  ∀ tp' o', (tp', o') ≠ (tp, o) → resolve st' tp' o' = resolve st tp' o'.
Proof.
  intros Hok tp o sz Hop Hfresh st'. destruct (fresh_offset st tp o Hok Hfresh) as [Hnh Hnc].
  destruct Hok as [Hwf Hok].
  assert (Hwf' : index_wf (ps_index st')) by by apply insert_hot_wf.
  assert (He : ∀ tp', entries_of (ps_index st') tp' =
    if decide (tp = tp') then
      mkEntries (<[o := mkHot r sz]> (pe_hot (entries_of (ps_index st) tp)))
        (pe_cold (entries_of (ps_index st) tp))
        (Z.max (pe_next_offset (entries_of (ps_index st) tp)) (u64_add o 1))
    else entries_of (ps_index st) tp') by (intros; apply entries_of_insert_hot).
  split_and!.
  - split; [done|]. intros tp'. rewrite He. case_decide as Htp; [subst tp'|apply Hok].
    destruct (Hok tp) as [Hw Hc Hh Ha]. split; simpl.
    + pose proof (entries_of_wf _ tp Hwf') as Hw'. by rewrite He, decide_True in Hw'.
    + done.
    + intros o' h. rewrite lookup_insert_Some. intros [[<- <-]|[_ ?]]; [done|eauto].
    + intros o' h s rg rs. rewrite lookup_insert_Some. intros [[<- <-]|[_ Hh']] Hcov Hrs.
      * by destruct (Hnc s rg).
      * by eapply Ha.
  - apply (resolve_hot st' tp o (mkHot r sz)). rewrite He, decide_True by done. simpl.
    by rewrite lookup_insert_eq.
  - intros tp' o' Hne. unfold resolve. rewrite He. simpl. case_decide as Htp; [subst tp'|done].
    unfold resolve_in, source. simpl. rewrite lookup_insert_ne by congruence. done.
Qed.

(** Removing it again leaves both tiers as they were. *)
Lemma remove_insert_entries tp o r sz idx tp' :
  pe_hot (entries_of idx tp) !! o = None →
  let e' := entries_of (remove_hot tp o (insert_hot tp o r sz idx)) tp' in
  pe_hot e' = pe_hot (entries_of idx tp') ∧ pe_cold e' = pe_cold (entries_of idx tp').
Proof.
  intros Hnh. split; [|by rewrite cold_remove_hot, cold_insert_hot].
  pose proof (entries_of_insert_hot tp o r sz idx tp) as Hi. rewrite decide_True in Hi by done.
  unfold remove_hot. destruct (pi_inner (insert_hot tp o r sz idx) !! tp) as [e|] eqn:Ei.
  - unfold entries_of in Hi at 1. rewrite Ei in Hi. simpl in Hi. subst e. simpl.
    rewrite lookup_insert_eq. change (entries_of (fetch_sub _ ?i) tp') with (entries_of i tp').
    rewrite entries_of_set. case_decide as Htp; simpl.
    + subst. by rewrite delete_insert_id.
    + rewrite entries_of_insert_hot. by rewrite decide_False.
  - exfalso. unfold insert_hot in Ei. destruct (pe_hot _ !! o); simpl in Ei;
      by rewrite lookup_insert_eq in Ei.
Qed.

(** A failed append leaves everything the store serves as it was. *)
Lemma append_failed st r e st' :
  store_ok st → cache_ok st →
  op_ok (OpInsertHot (wr_tp r) (wr_offset r) r (mem_size r)) (ps_index st) →
  resolve st (wr_tp r) (wr_offset r) = None →
  append sizeof_WalRecord r st = (Err e, st') → store_ok st' ∧ cache_ok st' ∧ same_reads st st'.
Proof.
  intros Hok Hcache Hop Hfresh. unfold append. destruct (await_capacity _ st) as [[]|err]; [|by intros [= <- <-]].
  set (st1 := with_index _ st). destruct (sl_append r (ps_wal st1)) as [[loc'|err] w]; [done|]. intros [= <- <-].
  destruct (fresh_offset st _ _ Hok Hfresh) as [Hnh _].
  pose proof (λ tp', remove_insert_entries (wr_tp r) (wr_offset r) r (mem_size r) (ps_index st) tp' Hnh) as He.
  destruct Hok as [Hwf Hok]. set (st2 := with_index _ _).
  assert (Hsr : same_reads st st2).
  { intros tp o. unfold resolve, resolve_in, source. simpl. destruct (He tp) as [-> ->]. done. }
  assert (Hwf' : index_wf (ps_index st2)) by (by apply remove_hot_wf, insert_hot_wf).
  split_and!; [split; [done|]|by apply (cache_ok_intro st); [done|..|by left]|done].
  intros tp. destruct (Hok tp) as [Hw Hc Hh Ha]. destruct (He tp) as [E1 E2]. simpl ps_index. split.
  - by apply entries_of_wf.
  - simpl. by rewrite E2.
  - simpl. by rewrite E1.
  - unfold covers. simpl. rewrite E1, E2. done.
Qed.

(** What a successful append establishes. *)
Record appended st r st' : Prop := {
  ap_store : store_ok st';
  ap_cache : cache_ok st';
  ap_next : next_offset st' (wr_tp r) = Z.max (next_offset st (wr_tp r)) (wr_offset r + 1);
  ap_hot : pe_hot (entries_of (ps_index st') (wr_tp r))
           = <[wr_offset r := mkHot r (mem_size r)]> (pe_hot (entries_of (ps_index st) (wr_tp r)));
  ap_resolve : resolve st' (wr_tp r) (wr_offset r) = Some r;
  ap_other tp o : (tp, o) ≠ (wr_tp r, wr_offset r) → resolve st' tp o = resolve st tp o;
}.

Lemma append_appended st r loc st' :
  store_ok st → cache_ok st →
  op_ok (OpInsertHot (wr_tp r) (wr_offset r) r (mem_size r)) (ps_index st) →
  resolve st (wr_tp r) (wr_offset r) = None →
  append sizeof_WalRecord r st = (Ok loc, st') → appended st r st'.
Proof.
  intros Hok Hcache Hop Hfresh. unfold append. destruct (await_capacity _ st) as [[]|err]; [|done].
  set (st1 := with_index _ st).
  destruct (insert_hot_store st r Hok Hop Hfresh) as (Hok1 & Hres & Hother). fold st1 in Hok1, Hres, Hother.
  destruct (sl_append r (ps_wal st1)) as [[loc'|err] w]; [|done]. intros [= <- <-]. split; try done.
  - intros tp o b rs Ho Htp Hb Hd. destruct (Hcache tp o b rs Ho Htp Hb Hd) as [Hne Hv].
    split; [done|]. intros i x Hi. specialize (Hv i x Hi).
    change (resolve st1 tp (o + Z.of_nat i) = Some x). rewrite Hother; [done|].
    intros [= -> Eo]. rewrite Eo in Hv. congruence.
  - destruct Hop as [Hrange _]. unfold u64_MAX in Hrange. unfold next_offset in *.
    rewrite !next_offset_entries. simpl. rewrite entries_of_insert_hot, decide_True by done.
    simpl. rewrite u64_add_small by lia. lia.
  - simpl. by rewrite entries_of_insert_hot, decide_True.
Qed.

Lemma append_um st r : ps_um (append sizeof_WalRecord r st).2 = ps_um st.
Proof. unfold append. destruct (await_capacity _ st); [|done]. by destruct (sl_append _ _) as [[] ?]. Qed.

(** An append, failed or not, is a step other tasks may take during a read. *)
Lemma append_env st r res st' :
  store_ok st → cache_ok st →
  op_ok (OpInsertHot (wr_tp r) (wr_offset r) r (mem_size r)) (ps_index st) →
  resolve st (wr_tp r) (wr_offset r) = None →
  append sizeof_WalRecord r st = (res, st') → env_step keeps_reads st st'.
Proof.
  intros Hok Hcache Hop Hfresh E. pose proof (append_um st r) as Hu. rewrite E in Hu. simpl in Hu.
  assert (Hs : store_ok st' ∧ cache_ok st' ∧ keeps_reads st st').
  { destruct res as [loc|err].
    - destruct (append_appended st r loc st' Hok Hcache Hop Hfresh E) as [H1 H2 _ _ _ H6].
      split_and!; [done..|]. intros tp o x Hx. rewrite H6; [done|]. intros [= -> ->]. congruence.
    - destruct (append_failed st r err st' Hok Hcache Hop Hfresh E) as (H1 & H2 & H3).
      split_and!; [done..|]. by apply (rr_keeps _ same_reads_rel). }
  destruct Hs as (? & ? & ?). split; [done|]. split; [done|]. split; [done|]. rewrite Hu.
  split; [done|]. intros k rs _ Hk. by right.
Qed.

(** A read at a hot offset is served from memory: a non-empty run of
    consecutive records. *)
Lemma read_hot st d1 d2 tp o mb h :
  store_ok st → pe_hot (entries_of (ps_index st) tp) !! o = Some h →
  ∃ rs, read sizeof_WalRecord d1 d2 tp o mb st = (Ok (he_record h :: rs), st) ∧
    ∀ i x, (he_record h :: rs) !! i = Some x → resolve st tp (o + Z.of_nat i) = Some x.
Proof.
  intros [Hwf _] Hh. pose proof Hh as Hh'. unfold entries_of in Hh'.
  destruct (pi_inner (ps_index st) !! tp) as [e|] eqn:Ei; [|simpl in Hh'; by rewrite lookup_empty in Hh'].
  simpl in Hh'. destruct (read_plan_hot _ tp o mb e _ Ei (Hwf _ _ Ei) Hh') as (es & Hplan & Hrun).
  pose proof (run_nonempty _ _ _ _ Hrun). destruct es as [|h0 es]; [done|].
  pose proof (run_consecutive _ _ _ _ Hrun 0%nat h0 eq_refl) as H0. rewrite Z.add_0_r, Hh' in H0.
  injection H0 as <-. exists (he_record <$> es). split; [unfold read; by rewrite Hplan|].
  intros i x Hi. change (he_record h :: (he_record <$> es)) with (he_record <$> (h :: es)) in Hi.
  rewrite list_lookup_fmap in Hi. destruct ((h :: es) !! i) as [hi|] eqn:Ehi; [|done]. injection Hi as <-.
  apply resolve_hot. unfold entries_of. rewrite Ei. by apply (run_consecutive _ _ _ _ Hrun).
Qed.

(** C2: read your writes.  Appending a record at a fresh offset either
    fails and leaves everything the store serves as it was, or succeeds;
    then a read at that offset, with any byte budget, immediately returns
    the record first, every other offset is served as before, and the next
    offset is past the record. *)
Theorem append_read_your_writes st r res st' :
  store_ok st → cache_ok st →
  op_ok (OpInsertHot (wr_tp r) (wr_offset r) r (mem_size r)) (ps_index st) →
  resolve st (wr_tp r) (wr_offset r) = None →
  append sizeof_WalRecord r st = (res, st') →
  match res with
  | Ok _ =>
      store_ok st' ∧ cache_ok st' ∧
      next_offset st' (wr_tp r) = Z.max (next_offset st (wr_tp r)) (wr_offset r + 1) ∧
      (∀ d1 d2 mb, ∃ rs, read sizeof_WalRecord d1 d2 (wr_tp r) (wr_offset r) mb st' = (Ok (r :: rs), st')) ∧
      (∀ tp o, (tp, o) ≠ (wr_tp r, wr_offset r) → resolve st' tp o = resolve st tp o)
  | Err _ => same_reads st st'
  end.
Proof.
  intros Hok Hcache Hop Hfresh E. destruct res as [loc|err].
  - destruct (append_appended st r loc st' Hok Hcache Hop Hfresh E) as [H1 H2 H3 H4 H5 H6].
    split_and!; try done. intros d1 d2 mb.
    destruct (read_hot st' d1 d2 (wr_tp r) (wr_offset r) mb (mkHot r (mem_size r)) H1) as (rs & Hr & _);
      [by rewrite H4, lookup_insert_eq|]. by exists rs.
  - by apply (append_failed st r err st').
Qed.

(** The hot tier respects its memory budget.  With a budget set, a
    record smaller than the budget is appended only if it fits (otherwise
    the append waits and changes nothing), and after the append the
    accounted bytes are within the budget. *)
Theorem append_respects_budget st r :
  0 < ps_hot_cache_max_bytes st → mem_size r < ps_hot_cache_max_bytes st →
  0 ≤ hot_bytes (ps_index st) → hot_bytes (ps_index st) + mem_size r < u64_modulus →
  pe_hot (entries_of (ps_index st) (wr_tp r)) !! wr_offset r = None →
  (ps_hot_cache_max_bytes st < hot_bytes (ps_index st) + mem_size r →
     append sizeof_WalRecord r st = (Err Blocked, st)) ∧
  ∀ loc st', append sizeof_WalRecord r st = (Ok loc, st') →
    hot_bytes (ps_index st') = hot_bytes (ps_index st) + mem_size r ∧
    hot_bytes (ps_index st') ≤ ps_hot_cache_max_bytes st.
Proof.
  intros Hmax Hsz Hpos Hfit Hnone.
  assert (0 ≤ mem_size r) by (unfold PartitionStore.mem_size, as_u32; apply Z.mod_pos_bound; reflexivity).
  unfold append, await_capacity.
  rewrite (proj2 (Z.eqb_neq _ _)) by lia. rewrite (proj2 (Z.leb_gt _ _)) by lia. simpl.
  rewrite u64_add_small by lia. split.
  - intros Hover. by rewrite (proj2 (Z.ltb_lt _ _)).
  - intros loc st'. case_cond; [done|].
    destruct (sl_append r _) as [[loc'|err] w]; [|done]. intros [= <- <-].
    unfold hot_bytes. simpl. unfold insert_hot. rewrite Hnone. simpl.
    unfold hot_bytes in *. rewrite u64_add_small by lia. lia.
Qed.

(** *** Tiering *)

Lemma range_key_inj tp1 s1 e1 tp2 s2 e2 :
  slash_free (tp_topic tp1) = true → slash_free (tp_topic tp2) = true →
  0 ≤ tp_partition tp1 → 0 ≤ tp_partition tp2 → 0 ≤ s1 → 0 ≤ s2 → 0 ≤ e1 → 0 ≤ e2 →
  range_key tp1 s1 e1 = range_key tp2 s2 e2 → tp1 = tp2 ∧ s1 = s2 ∧ e1 = e2.
Proof.
  intros ???? ???? E. apply (f_equal (split_on "/"%char)) in E. unfold range_key in E.
  rewrite !split_segment_key in E by done. simpl in E. injection E as Et Ep Ef.
  apply (f_equal (split_on "_"%char)) in Ef. rewrite !split_file_name in Ef. injection Ef as Es Ee.
  apply (f_equal (trim_seg 1)) in Ee. rewrite !trim_seg_dec in Ee by lia.
  apply dec_inj in Ep, Es, Ee; try done. destruct tp1, tp2; simpl in *. by subst.
Qed.

(** A group of records that is ready to be tiered: consecutive offsets, all
    of them in the hot tier, none in the cold one, in an object the backend
    accepts. *)
Record group_ok (st : PS) (tp : TopicPartition) (s : Offset) (recs : list WalRecord) : Prop := {
  go_nonempty : recs ≠ [];
  go_consecutive : consecutive tp s recs;
  go_start : 0 ≤ s;
  go_end : s + Z.of_nat (length recs) < u64_modulus;
  go_hot i r : recs !! i = Some r →
    ∃ h, pe_hot (entries_of (ps_index st) tp) !! (s + Z.of_nat i) = Some h ∧ he_record h = r;
  go_fresh s' r' : pe_cold (entries_of (ps_index st) tp) !! s' = Some r' →
    or_end_offset r' ≤ s ∨ s + Z.of_nat (length recs) ≤ s';
  go_accepts : um_accepts (ps_um st)
    (mkSegment s (s + Z.of_nat (length recs)) (Z.of_nat (length (serialize recs))) (serialize recs) tp);
  go_topic : slash_free (tp_topic tp) = true ∧ 0 ≤ tp_partition tp;
}.

Lemma group_offsets st tp s recs :
  group_ok st tp s recs →
  ∃ first last, head recs = Some first ∧ list.last recs = Some last ∧
    wr_offset first = s ∧ u64_add (wr_offset last) 1 = s + Z.of_nat (length recs).
Proof.
  intros []. by apply (consecutive_ends tp).
Qed.

(** The live objects are untouched by the upload of a fresh range. *)
Lemma upload_fresh st tp s recs r u' :
  store_ok st → group_ok st tp s recs →
  um_upload (mkSegment s (s + Z.of_nat (length recs)) (Z.of_nat (length (serialize recs)))
               (serialize recs) tp) (ps_um st) = (r, u') →
  um_same (ps_um st) u' (live_key st) ∧ (∀ seg, um_accepts u' seg ↔ um_accepts (ps_um st) seg) ∧
  (∀ k, r = Ok k → k = range_key tp s (s + Z.of_nat (length recs)) ∧ um_ok_key u' k ∧
                   obj_records u' k = Some recs).
Proof using BincodeLaws0 UploadManagerLaws0.
  intros [Hwf Hok] Hg Hup. apply um_upload_law in Hup as (Hk & Ha & Hv & Hr); [|apply Hg].
  split_and!; [split; [done|]|done|].
  - intros k Hkey (tp' & s' & r' & Hs' & ->). apply Hv; [done|].
    destruct (po_cold _ _ _ (Hok tp') _ _ Hs') as [-> _ [? ?] _].
    destruct (wf_cold _ (po_wf _ _ _ (Hok tp')) _ _ Hs'). destruct (go_topic _ _ _ _ Hg).
    pose proof (go_start _ _ _ _ Hg). pose proof (go_nonempty _ _ _ _ Hg).
    intros E. apply (range_key_inj tp' s' (or_end_offset r') tp s (s + Z.of_nat (length recs))) in E
      as (<- & -> & He); try done; try lia.
    destruct recs; [done|]. simpl in He.
    destruct (go_fresh _ _ _ _ Hg _ _ Hs'); simpl in *; lia.
  - intros k ->. destruct Hr as (-> & Hkey & Hview). split_and!; [done|by apply Hk|].
    unfold obj_records. rewrite Hview. simpl. apply deserialize_serialize.
Qed.

(** Committing the uploaded range: flipping the index keeps the store sound
    and what it serves. *)
Lemma flip_store st tp s recs k size idx' :
  store_ok st → group_ok st tp s recs →
  let e := s + Z.of_nat (length recs) in
  k = range_key tp s e → um_ok_key (ps_um st) k → obj_records (ps_um st) k = Some recs →
  flip_to_cold tp s e k size (ps_index st) = Some idx' →
  let st' := with_index (λ _, idx') st in store_ok st' ∧ same_reads st st'.
Proof.
  intros [Hwf Hok] Hg e -> Hkey Hobj Hflip st'.
  pose proof (go_start _ _ _ _ Hg). pose proof (go_end _ _ _ _ Hg).
  assert (Hlen : (0 < length recs)%nat) by (pose proof (go_nonempty _ _ _ _ Hg); destruct recs; [done|simpl; lia]).
  assert (Hop : op_ok (OpFlipToCold tp s e (range_key tp s e) size) (ps_index st)).
  { simpl. split_and!; [lia|lia|done|]. intros s' r' Hs'. right. by apply (go_fresh _ _ _ _ Hg). }
  assert (Hwf' : index_wf idx') by by apply (run_op_wf _ _ _ Hop Hflip).
  pose proof (flip_to_cold_entries _ _ _ _ _ _ _ Hflip) as He'.
  assert (Hother : ∀ tp', tp' ≠ tp → entries_of idx' tp' = entries_of (ps_index st) tp').
  { intros tp' Hne. apply entries_of_congr.
    by apply (run_op_other (OpFlipToCold tp s e (range_key tp s e) size)). }
  pose proof (Hok tp) as [Hw Hc Hh Ha]. set (E := entries_of (ps_index st) tp) in *.
  assert (Hsold : ∀ r, pe_cold E !! s = Some r → or_end_offset r ≤ e).
  { intros r Hr. destruct (go_fresh _ _ _ _ Hg _ _ Hr); [|lia]. destruct (wf_cold _ Hw _ _ Hr). lia. }
  assert (Hpart : part_ok (ps_um st) tp (entries_of idx' tp)).
  { rewrite He'. split; simpl.
    - pose proof (entries_of_wf _ tp Hwf') as Hw'. by rewrite He' in Hw'.
    - intros s' r'. rewrite lookup_insert_Some. intros [[<- <-]|[_ Hs']]; [|by apply Hc].
      split; simpl; [done|done|apply Hg|]. exists recs. split_and!; [done|apply Hg|done].
    - intros o h. rewrite lookup_remove_range. case_decide; [done|]. apply Hh.
    - intros o h s' r' rs. rewrite lookup_remove_range. case_decide as Hin; [done|]. intros Hho Hcov Hrs.
      apply (covers_insert_out E _ _ s e) in Hcov; [|done|done]. by eapply Ha. }
  split.
  - split; [done|]. intros tp'. simpl. destruct (decide (tp' = tp)) as [->|Hne]; [done|].
    rewrite Hother by done. apply Hok.
  - intros tp' o. unfold resolve. simpl. destruct (decide (tp' = tp)) as [->|Hne]; [|by rewrite Hother].
    destruct (decide (s ≤ o < e)) as [Hin|Hout].
    + assert (Hcov : covers (entries_of idx' tp) s (mkRange e (range_key tp s e) size) o).
      { split; [|done]. rewrite He'. simpl. by rewrite lookup_insert_eq. }
      rewrite (resolve_covered _ _ _ _ _ _ _ Hpart Hcov Hobj).
      destruct (lookup_lt_is_Some_2 recs (Z.to_nat (o - s))) as [r Hr]; [lia|]. rewrite Hr.
      destruct (go_hot _ _ _ _ Hg _ _ Hr) as (h & Hhot & <-).
      replace (s + Z.of_nat (Z.to_nat (o - s))) with o in Hhot by lia.
      symmetry. by apply (resolve_hot st tp o).
    + unfold resolve_in. rewrite He'. rewrite source_flip_out; [done|done|done|done|].
      pose proof (entries_of_wf _ tp Hwf') as Hw'. by rewrite He' in Hw'.
Qed.

Lemma may_tier_frame tp st r st' :
  may_tier tp st = (r, st') → ∃ f, st' = with_fencing f st.
Proof.
  unfold may_tier. destruct (ps_fencing st) as [f|] eqn:Ef.
  - destruct (current_epoch f tp); [destruct (verify _ _ _ _)|]; intros [= <- <-]; [by eexists|].
    exists (Some f). rewrite <- Ef. by destruct st.
  - intros [= <- <-]. exists None. rewrite <- Ef. by destruct st.
Qed.

Lemma register_cold_frame seg st r st' :
  register_cold crc32 seg st = (r, st') →
  ps_index st' = ps_index st ∧ ps_um st' = ps_um st ∧ ps_cache st' = ps_cache st ∧
  ps_wal st' = ps_wal st ∧ ps_fencing st' = ps_fencing st.
Proof.
  unfold register_cold. destruct (match ps_manifest_faults st with [] => _ | _ => _ end) as [fa fs].
  destruct (register _ _ _ _ _ _ _ _) as [rr file]. by intros [= <- <-].
Qed.

(** States that only differ in fencing, manifest and log serve alike. *)
Lemma same_core st st' :
  ps_index st' = ps_index st → ps_um st' = ps_um st → ps_cache st' = ps_cache st →
  store_ok st → cache_ok st → store_ok st' ∧ cache_ok st' ∧ same_reads st st'.
Proof.
  intros Hi Hu Hc [Hwf Hok] Hcache.
  assert (Hs : same_reads st st') by (intros tp o; unfold resolve; by rewrite Hi, Hu).
  split; [split; [by rewrite Hi|intros tp; rewrite Hi, Hu; apply Hok]|]. split; [|done].
  apply (cache_ok_intro st); [done|done|]. rewrite Hc. auto.
Qed.

(** What tiering one group keeps. *)
Definition tier_keeps st st' tp : Prop :=
  store_ok st' ∧ cache_ok st' ∧ same_reads st st' ∧
  (∀ tp', tp' ≠ tp → entries_of (ps_index st') tp' = entries_of (ps_index st) tp') ∧
  (∀ seg, um_accepts (ps_um st') seg ↔ um_accepts (ps_um st) seg).

Lemma same_core_keeps st st' tp :
  ps_index st' = ps_index st → ps_um st' = ps_um st → ps_cache st' = ps_cache st →
  store_ok st → cache_ok st → tier_keeps st st' tp.
Proof.
  intros Hi Hu Hc Hok Hcache. destruct (same_core st st') as (? & ? & ?); [done..|].
  split_and!; try done; [by rewrite Hi|by rewrite Hu].
Qed.

Lemma tier_keeps_trans st1 st2 st3 tp : tier_keeps st1 st2 tp → tier_keeps st2 st3 tp → tier_keeps st1 st3 tp.
Proof.
  intros (_ & _ & A3 & A4 & A5) (B1 & B2 & B3 & B4 & B5). split_and!; try done.
  - by eapply same_reads_trans.
  - intros tp' Hne. rewrite B4, A4 by done. done.
  - intros seg. by rewrite B5, A5.
Qed.

Lemma group_ok_congr st st' tp s recs :
  entries_of (ps_index st') tp = entries_of (ps_index st) tp →
  (∀ seg, um_accepts (ps_um st') seg ↔ um_accepts (ps_um st) seg) →
  group_ok st tp s recs → group_ok st' tp s recs.
Proof. intros He Ha [? ? ? ? ? ? ? ?]. split; rewrite ?He; auto. by apply Ha. Qed.

Lemma tier_group_keeps interfere st tp s recs r st' :
  store_ok st → cache_ok st → group_ok st tp s recs →
  tier_group crc32 interfere tp recs st = (r, st') → tier_keeps st st' tp.
Proof using BincodeLaws0 UploadManagerLaws0.
  intros Hok Hcache Hg. unfold tier_group.
  destruct (may_tier tp st) as [r1 st1] eqn:E1. destruct (may_tier_frame _ _ _ _ E1) as [f1 ->].
  assert (K1 : tier_keeps st (with_fencing f1 st) tp) by by apply same_core_keeps.
  destruct r1 as [allowed|e1]; cbn [sbind]; [|by intros [= <- <-]].
  destruct allowed; cbn [negb]; [|by intros [= <- <-]].
  destruct (group_offsets _ _ _ _ Hg) as (first & lst & -> & -> & Hs & He). rewrite Hs, He.
  destruct (um_upload _ _) as [r2 u2] eqn:E2.
  destruct (upload_fresh (with_fencing f1 st) tp s recs r2 u2) as (Hsame & Hacc & Hup);
    [done|by apply (group_ok_congr st)|done|].
  set (st2 := with_um u2 (with_fencing f1 st)).
  destruct (store_ok_um (with_fencing f1 st) u2) as [Hok2 Hsr2]; [done|done|]. fold st2 in Hok2, Hsr2.
  assert (Hcache2 : cache_ok st2) by (apply (cache_ok_intro st); [done|done|auto]).
  assert (K2 : tier_keeps st st2 tp) by (split_and!; done).
  destruct r2 as [key|e2]; cbn [sbind]; [|by intros [= <- <-]].
  destruct (Hup key eq_refl) as (-> & Hkey & Hobj).
  set (st3 := with_fencing (interfere <$> ps_fencing st2) st2).
  destruct (may_tier tp st3) as [r3 st4] eqn:E3. destruct (may_tier_frame _ _ _ _ E3) as [f3 ->].
  set (st4 := with_fencing f3 st3).
  assert (K4 : tier_keeps st st4 tp) by (eapply tier_keeps_trans; [exact K2|apply same_core_keeps; trivial]).
  destruct r3 as [still|e3]; cbn [sbind]; [|by intros [= <- <-]].
  destruct still; cbn [negb]; [|by intros [= <- <-]].
  destruct (register_cold crc32 _ st4) as [r5 st5] eqn:E5.
  destruct (register_cold_frame _ _ _ _ E5) as (Hi5 & Hu5 & Hc5 & _).
  assert (K5 : tier_keeps st st5 tp).
  { eapply tier_keeps_trans; [exact K4|]. destruct K4 as (? & ? & _). by apply same_core_keeps. }
  destruct r5 as [[]|e5]; cbn [sbind]; [|by intros [= <- <-]].
  unfold flip_index. cbn [cs_tp cs_start cs_end cs_key cs_size].
  destruct (flip_to_cold tp s _ _ _ (ps_index st5)) as [idx'|] eqn:Ef; cbn [sbind]; [|by intros [= <- <-]].
  intros [= <- <-]. destruct K5 as (Hok5 & Hcache5 & Hsr5 & Hoth5 & Hacc5).
  assert (Hg5 : group_ok st5 tp s recs).
  { eapply group_ok_congr; [|done|exact Hg]. by rewrite Hi5. }
  destruct (flip_store st5 tp s recs _ (Z.of_nat (length (serialize recs))) idx' Hok5 Hg5 eq_refl)
    as [Hok6 Hsr6]; [by rewrite Hu5|by rewrite Hu5|exact Ef|].
  split_and!.
  - done.
  - apply (cache_ok_intro st5); [done|done|auto].
  - by eapply same_reads_trans.
  - intros tp' Hne. rewrite <- Hoth5 by done. simpl. apply entries_of_congr.
    eapply (run_op_other (OpFlipToCold _ _ _ _ _)); [exact Ef|done].
  - done.
Qed.

(** A group that was committed is served by the cold tier. *)
Lemma tier_group_moves interfere st tp s recs st' :
  store_ok st → cache_ok st → group_ok st tp s recs →
  tier_group crc32 interfere tp recs st = (Ok false, st') →
  ∀ x, x ∈ recs → cold_at st' tp (wr_offset x).
Proof using BincodeLaws0 UploadManagerLaws0.
  intros Hok Hcache Hg E. destruct (tier_group_keeps _ _ _ _ _ _ _ Hok Hcache Hg E) as (Hok' & _).
  revert E. unfold tier_group.
  destruct (may_tier tp st) as [[[]|] st1]; cbn [sbind negb]; try done.
  destruct (group_offsets _ _ _ _ Hg) as (first & lst & -> & -> & Hs & He). rewrite Hs, He.
  destruct (um_upload _ _) as [[key|] u2]; cbn [sbind]; try done.
  destruct (may_tier tp _) as [[[]|] st4]; cbn [sbind negb]; try done.
  destruct (register_cold crc32 _ st4) as [[[]|] st5]; cbn [sbind]; try done.
  unfold flip_index. cbn [cs_tp cs_start cs_end cs_key cs_size].
  destruct (flip_to_cold tp s _ _ _ (ps_index st5)) as [idx'|] eqn:Ef; cbn [sbind]; try done.
  intros [= <-] x [i Hi]%list_elem_of_lookup.
  destruct (go_consecutive _ _ _ _ Hg i x Hi) as [-> _]. apply lookup_lt_Some in Hi as Hlt.
  pose proof (flip_to_cold_entries _ _ _ _ _ _ _ Ef) as He'. unfold cold_at. simpl in *.
  set (r := mkRange (s + Z.of_nat (length recs)) key (Z.of_nat (length (serialize recs)))).
  exists key, s, (or_end_offset r).
  rewrite (source_covers (entries_of idx' tp) s r (s + Z.of_nat i)); [done|apply (proj2 Hok' tp)| |].
  - rewrite He'. simpl. rewrite lookup_remove_range. by rewrite decide_True by lia.
  - split; [|simpl; lia]. rewrite He'. simpl. by rewrite lookup_insert_eq.
Qed.

Lemma tier_group_frame interfere tp recs st r st' :
  tier_group crc32 interfere tp recs st = (r, st') →
  ps_wal st' = ps_wal st ∧ (ps_fencing st = None → ps_fencing st' = None ∧ r ≠ Ok true).
Proof.
  unfold tier_group. destruct (may_tier tp st) as [r1 st1] eqn:E1.
  assert (H1 : ps_wal st1 = ps_wal st ∧ (ps_fencing st = None → ps_fencing st1 = None ∧ r1 = Ok true)).
  { split; [by destruct (may_tier_frame _ _ _ _ E1) as [f ->]|]. intros Hn.
    unfold may_tier in E1. rewrite Hn in E1. by injection E1 as <- <-. }
  destruct H1 as [Hw1 Hf1].
  destruct r1 as [[]|e1]; cbn [sbind negb]; [|by intros [= <- <-]; split; [|intros [? ?]%Hf1]..].
  destruct (head recs) as [first|], (last recs) as [lst|];
    [|by intros [= <- <-]; split; [|intros [? ?]%Hf1]..].
  destruct (um_upload _ _) as [[key|e2] u2]; cbn [sbind];
    [|by intros [= <- <-]; split; [|intros [? ?]%Hf1]].
  set (st3 := with_fencing _ _). destruct (may_tier tp st3) as [r3 st4] eqn:E3.
  assert (H4 : ps_wal st4 = ps_wal st ∧ (ps_fencing st = None → ps_fencing st4 = None ∧ r3 = Ok true)).
  { split; [by destruct (may_tier_frame _ _ _ _ E3) as [f ->]|]. intros [Hn _]%Hf1.
    unfold may_tier in E3. simpl in E3. rewrite Hn in E3. simpl in E3.
    split; [|congruence]. replace st4 with st3 by congruence. simpl. by rewrite Hn. }
  destruct H4 as [Hw4 Hf4].
  destruct r3 as [[]|e3]; cbn [sbind negb]; [|by intros [= <- <-]; split; [|intros [? ?]%Hf4]..].
  destruct (register_cold crc32 _ st4) as [r5 st5] eqn:E5.
  destruct (register_cold_frame _ _ _ _ E5) as (_ & _ & _ & Hw5 & Hf5).
  unfold flip_index. destruct r5 as [[]|e5]; cbn [sbind]; [destruct (flip_to_cold _ _ _ _ _ _); cbn [sbind]|];
    intros [= <- <-]; simpl; (split; [congruence|intros [? ?]%Hf4; split; congruence]).
Qed.

Lemma tier_groups_frame interfere groups fenced st r st' :
  tier_groups crc32 interfere groups fenced st = (r, st') →
  ps_wal st' = ps_wal st ∧ (ps_fencing st = None → fenced = false → r ≠ Ok true).
Proof.
  revert fenced st. induction groups as [|[tp recs] groups IH]; intros fenced st; simpl.
  { intros [= <- <-]. split; [done|]. by intros _ ->. }
  destruct (tier_group crc32 interfere tp recs st) as [r1 st1] eqn:E1.
  destruct (tier_group_frame _ _ _ _ _ _ E1) as [Hw Hf].
  destruct r1 as [b|e]; cbn [sbind]; [|by intros [= <- <-]].
  intros [Hw' Hf']%IH. split; [congruence|]. intros Hn ->. destruct (Hf Hn) as [Hn1 Hb].
  apply Hf'; [done|]. by destruct b.
Qed.

Lemma tier_groups_keep interfere groups fenced st r st' :
  store_ok st → cache_ok st → NoDup groups.*1 →
  (∀ tp recs, (tp, recs) ∈ groups → ∃ s, group_ok st tp s recs) →
  tier_groups crc32 interfere groups fenced st = (r, st') →
  store_ok st' ∧ cache_ok st' ∧ same_reads st st' ∧
  (∀ tp, tp ∉ groups.*1 → entries_of (ps_index st') tp = entries_of (ps_index st) tp) ∧
  (r = Ok false → fenced = false ∧
     ∀ tp recs x, (tp, recs) ∈ groups → x ∈ recs → cold_at st' tp (wr_offset x)).
Proof using BincodeLaws0 UploadManagerLaws0.
  revert fenced st. induction groups as [|[tp recs] groups IH]; intros fenced st Hok Hcache Hnd Hg; simpl.
  { intros [= <- <-]. split_and!; try done. intros [= ->]. split; [done|]. by intros ? ? ? ?%not_elem_of_nil. }
  inversion Hnd as [|? ? Hnot Hnd']; subst.
  destruct (Hg tp recs) as [s Hgs]; [by left|].
  destruct (tier_group crc32 interfere tp recs st) as [r1 st1] eqn:E1.
  destruct (tier_group_keeps _ _ _ _ _ _ _ Hok Hcache Hgs E1) as (Hok1 & Hcache1 & Hsr & Hoth & Hacc).
  destruct r1 as [b|e]; cbn [sbind]; cycle 1.
  { intros [= <- <-]. split_and!; try done. intros tp' Hnin. apply Hoth. intros ->. apply Hnin. by left. }
  intros E. edestruct (IH (fenced || b) st1 Hok1 Hcache1 Hnd') as (? & ? & ? & Ho & Hm); [|exact E|].
  - intros tp' recs' Hin. destruct (Hg tp' recs') as [s' Hg']; [by right|].
    exists s'. eapply group_ok_congr; [|done|exact Hg']. apply Hoth. intros ->.
    apply Hnot. apply list_elem_of_fmap. by exists (tp, recs').
  - split_and!; try done; [by eapply same_reads_trans| |].
    + intros tp' Hnin. rewrite Ho, Hoth; [done| |]; intros Hin; apply Hnin; [subst; by left|by right].
    + intros Hr. destruct (Hm Hr) as [Hfb Hm']. apply orb_false_iff in Hfb as [-> ->]. split; [done|].
      intros tp' recs' x [[= -> ->]|Hin]%elem_of_cons Hx; [|by eapply Hm'].
      unfold cold_at. rewrite Ho by done. by apply (tier_group_moves interfere st tp s recs st1 Hok Hcache Hgs E1).
Qed.

(** Every record of a segment is in the group of its partition. *)
Lemma group_by_partition_elem records x :
  x ∈ records → ∃ recs, group_by_partition records !! wr_tp x = Some recs ∧ x ∈ recs.
Proof.
  unfold group_by_partition. induction records as [|y records IH] using rev_ind; [by intros ?%not_elem_of_nil|].
  rewrite foldl_snoc. set (m := foldl _ _ records) in *. intros [Hx| ->%list_elem_of_singleton]%elem_of_app.
  - destruct (IH Hx) as (recs & Hm & Hin). destruct (decide (wr_tp y = wr_tp x)) as [->|Hne].
    + rewrite lookup_insert_eq, Hm. eexists. split; [done|]. apply elem_of_app. by left.
    + rewrite lookup_insert_ne by done. by exists recs.
  - rewrite lookup_insert_eq. eexists. split; [done|]. apply elem_of_app. right. by apply list_elem_of_singleton.
Qed.

Lemma tier_segment_keep interfere order seq st r st' :
  store_ok st → cache_ok st → (∀ l, order l ≡ₚ l) →
  (∀ records tp recs, sl_read_segment_records seq (ps_wal st) = Ok records →
     group_by_partition records !! tp = Some recs → ∃ s, group_ok st tp s recs) →
  tier_segment crc32 interfere order seq st = (r, st') →
  store_ok st' ∧ cache_ok st' ∧ (∀ tp o, resolve st' tp o = resolve st tp o) ∧
  (r = Ok tt →
     (∀ records x, sl_read_segment_records seq (ps_wal st) = Ok records → x ∈ records →
        cold_at st' (wr_tp x) (wr_offset x)) ∨
     ps_fencing st ≠ None ∧ ps_wal st' = ps_wal st).
Proof using BincodeLaws0 UploadManagerLaws0.
  intros Hok Hcache Horder Hgroups. unfold tier_segment.
  destruct (sl_read_segment_records seq (ps_wal st)) as [records|e] eqn:Er; cbn [sbind];
    [|by intros [= <- <-]].
  specialize (Hgroups records).
  case_bool_decide as Hnil.
  { destruct (sl_delete_segment seq (ps_wal st)) as [rd w]. intros [= <- <-]. split_and!; try done.
    intros _. left. intros records' x [= <-]. rewrite Hnil. by intros ?%not_elem_of_nil. }
  destruct (tier_groups _ _ _ false st) as [r1 st1] eqn:E1.
  destruct (tier_groups_frame _ _ _ _ _ _ E1) as [Hw Hf].
  edestruct tier_groups_keep as (Hok1 & Hcache1 & Hsr & _ & Hm); [exact Hok|exact Hcache| | |exact E1|].
  { rewrite Horder. apply NoDup_fst_map_to_list. }
  { intros tp recs. rewrite Horder, elem_of_map_to_list. intros Hm. by apply (Hgroups tp). }
  destruct r1 as [fenced|e]; cbn [sbind]; [|by intros [= <- <-]].
  destruct fenced.
  { intros [= <- <-]. split_and!; try done. intros _. right. split; [|done]. intros Hn. by apply (Hf Hn). }
  destruct (sl_delete_segment seq (ps_wal st1)) as [rd w]. intros [= <- <-]. split_and!; try done.
  intros _. left. intros records' x [= <-] Hx. destruct (group_by_partition_elem _ _ Hx) as (recs & Hg & Hin).
  destruct (Hm eq_refl) as [_ Hmoved]. apply (Hmoved (wr_tp x) recs); [|done].
  rewrite Horder. by apply elem_of_map_to_list.
Qed.

(** C4: tiering moves a sealed segment and is transparent.  Take a segment
    whose records, partition by partition, are ready to be moved
    ([group_ok]: consecutive offsets, all still in the hot tier, not
    overlapping a range already in the cold tier, in an object that the
    upload path accepts, that is below the multipart threshold; a segment
    that is retried after some of its partitions were moved is not one).
    Then tiering it does not change what any offset of any partition is
    served, at any point where it can stop: fenced groups, failed uploads, a
    failing manifest or a failing deletion included, and reads keep being
    correct afterwards, cached ones too.  When it succeeds, either every
    record of the segment is served by the cold tier afterwards, or
    fencing is configured and the segment is still in the log. *)
Theorem tier_segment_transparent interfere order seq st r st' :
  store_ok st → cache_ok st → (∀ l, order l ≡ₚ l) →
  (∀ records tp recs, sl_read_segment_records seq (ps_wal st) = Ok records →
     group_by_partition records !! tp = Some recs → ∃ s, group_ok st tp s recs) →
  tier_segment crc32 interfere order seq st = (r, st') →
  store_ok st' ∧ cache_ok st' ∧ (∀ tp o, resolve st' tp o = resolve st tp o) ∧
  (r = Ok tt →
     (∀ records x, sl_read_segment_records seq (ps_wal st) = Ok records → x ∈ records →
        cold_at st' (wr_tp x) (wr_offset x)) ∨
     ps_fencing st ≠ None ∧ ps_wal st' = ps_wal st).
Proof using BincodeLaws0 UploadManagerLaws0. apply tier_segment_keep. Qed.

(** C8: fencing guards the durable commit.  A group that was fenced, before
    or after its upload, changes neither the index nor the manifest nor the
    log; and a group is committed only if, with the leadership table and
    reservations as they are after the upload, this node still leads the
    partition and still holds its reservation at that epoch. *)
Theorem tier_group_fenced interfere tp recs st b st' :
  tier_group crc32 interfere tp recs st = (Ok b, st') →
  if b then ps_index st' = ps_index st ∧ ps_cold_index st' = ps_cold_index st ∧ ps_wal st' = ps_wal st
  else ∀ f, ps_fencing st = Some f →
         ∃ f' epoch s', ps_fencing st' = Some f' ∧ current_epoch f' tp = Some epoch ∧
           verify tp (fe_node_id f') epoch (fe_reservations (interfere (mkFencing (fe_node_id f) (fe_epochs f)
             (verify tp (fe_node_id f) (default 0 (current_epoch f tp)) (fe_reservations f)).2)))
           = (Ok true, s').
Proof.
  unfold tier_group. destruct (may_tier tp st) as [r1 st1] eqn:E1.
  destruct (may_tier_frame _ _ _ _ E1) as [f1 Hst1].
  destruct r1 as [allowed|e1]; cbn [sbind]; [|done].
  destruct allowed; cbn [negb]; [|intros [= <- <-]; by subst].
  destruct (head recs) as [first|]; [|done]. destruct (last recs) as [lst|]; [|done].
  destruct (um_upload _ _) as [r2 u2]. destruct r2 as [key|e2]; cbn [sbind]; [|done].
  set (st2 := with_um u2 st1). set (st3 := with_fencing (interfere <$> ps_fencing st2) st2).
  destruct (may_tier tp st3) as [r3 st4] eqn:E3. pose proof (may_tier_frame _ _ _ _ E3) as [f3 Hst4].
  destruct r3 as [still|e3]; cbn [sbind]; [|done].
  destruct still; cbn [negb]; [|intros [= <- <-]; by subst].
  destruct (register_cold crc32 _ st4) as [r5 st5] eqn:E5.
  destruct (register_cold_frame _ _ _ _ E5) as (_ & _ & _ & _ & Hf5).
  destruct r5 as [[]|e5]; cbn [sbind]; [|done]. unfold flip_index.
  destruct (flip_to_cold _ _ _ _ _ _) as [idx'|]; cbn [sbind]; [|done].
  intros [= <- <-] f Hf. simpl. rewrite Hf5.
  unfold may_tier in E1. rewrite Hf in E1.
  destruct (current_epoch f tp) as [ep|] eqn:Eep; [|done]. simpl.
  destruct (verify tp (fe_node_id f) ep (fe_reservations f)) as [rv sv] eqn:Ev.
  injection E1 as -> <-. simpl.
  unfold may_tier in E3. simpl in E3.
  set (g := interfere _) in *.
  destruct (current_epoch g tp) as [ep'|] eqn:Eep'; [|done].
  destruct (verify tp (fe_node_id g) ep' (fe_reservations g)) as [rv' sv'] eqn:Ev'.
  injection E3 as -> <-. eexists _, ep', sv'. simpl. split_and!; [done|done|exact Ev'].
Qed.

(** *** Recovery *)

Lemma restore_hot_snoc out p idx :
  restore_hot sizeof_WalRecord (out ++ [p]) idx =
  insert_hot (wr_tp p.1) (wr_offset p.1) p.1 (mem_size p.1) (restore_hot sizeof_WalRecord out idx).
Proof. unfold restore_hot. by rewrite foldl_app. Qed.

Lemma restore_hot_cold out idx tp :
  pe_cold (entries_of (restore_hot sizeof_WalRecord out idx) tp) = pe_cold (entries_of idx tp).
Proof.
  induction out as [|p out IH] using rev_ind; [done|]. by rewrite restore_hot_snoc, cold_insert_hot.
Qed.

Lemma restore_hot_Some out idx tp o h :
  (∀ tp, pe_hot (entries_of idx tp) = ∅) →
  pe_hot (entries_of (restore_hot sizeof_WalRecord out idx) tp) !! o = Some h →
  he_record h ∈ out.*1 ∧ wr_tp (he_record h) = tp ∧ wr_offset (he_record h) = o.
Proof.
  intros Hempty. induction out as [|p out IH] using rev_ind.
  - simpl. rewrite Hempty. by rewrite lookup_empty.
  - rewrite restore_hot_snoc, entries_of_insert_hot. rewrite fmap_app, elem_of_app.
    case_decide as Htp; [|intros Hh; destruct (IH Hh) as (? & ? & ?); auto]. subst tp. simpl.
    rewrite lookup_insert_Some. intros [[<- <-]|[_ Hh]].
    + simpl. split; [right; by left|done].
    + destruct (IH Hh) as (? & ? & ?); auto.
Qed.

Lemma restore_hot_is_Some out idx r :
  r ∈ out.*1 →
  is_Some (pe_hot (entries_of (restore_hot sizeof_WalRecord out idx) (wr_tp r)) !! wr_offset r).
Proof.
  induction out as [|p out IH] using rev_ind; [by intros ?%elem_of_nil|].
  rewrite restore_hot_snoc, entries_of_insert_hot, fmap_app, elem_of_app. simpl.
  intros [Hin| ->%list_elem_of_singleton].
  - specialize (IH Hin). case_decide as Htp; [|done]. simpl. rewrite Htp in *.
    destruct (decide (wr_offset p.1 = wr_offset r)) as [->|]; [by rewrite lookup_insert_eq|].
    by rewrite lookup_insert_ne.
  - rewrite decide_True by done. simpl. by rewrite lookup_insert_eq.
Qed.

Lemma restore_cold_hot segs tp : pe_hot (entries_of (restore_cold segs PartitionIndex.new) tp) = ∅.
Proof.
  induction segs as [|seg segs IH] using rev_ind; [done|].
  unfold restore_cold in *. rewrite foldl_app. cbn [foldl]. unfold insert_cold at 1.
  rewrite entries_of_set. case_decide as Htp; [subst tp|done]. done.
Qed.

Lemma gc_orphans_same keys u live :
  (∀ k, k ∈ keys → um_ok_key u k ∧ ¬ live k) → um_same u (gc_orphans keys u) live.
Proof using UploadManagerLaws0.
  revert u. induction keys as [|k keys IH]; intros u Hk; simpl; [by split|].
  destruct (Hk k) as [Hok Hnl]; [by left|].
  destruct (um_delete k u) as [r u1] eqn:E. simpl.
  apply um_delete_law in E as (Hkeys & _ & Hv & _); [|done].
  destruct (IH u1) as [IHk IHv].
  { intros k' Hin. destruct (Hk k') as [? ?]; [by right|]. split; [by apply Hkeys|done]. }
  split.
  - intros k'. by rewrite IHk, Hkeys.
  - intros k' Hk' Hl. rewrite IHv; [|by apply Hkeys|done]. apply Hv; [done|]. by intros ->.
Qed.

(** C5: a restart serves what the broker served before it stopped, if log and
    manifest still describe it.  Assume that the manifest loads and restores
    the cold view (as it does when no append to it failed, see
    [ColdIndex.restart_restores_cold]), that the log recovers and holds every
    record of the hot tier and no record the store no longer serves at its
    offset (a log that kept a segment back or lost a tail does not), and that
    no live object is among the orphans.  Then recovery succeeds and every
    offset of every partition is served exactly as before. *)
Theorem recovery_restores_reads st wal cache manifest file res out maxb fencing :
  store_ok st →
  load crc32 true true manifest = (Ok res, file) →
  (∀ tp, pe_cold (entries_of (restore_cold (live res) PartitionIndex.new) tp)
         = pe_cold (entries_of (ps_index st) tp)) →
  (∀ k, k ∈ orphan_object_keys res → um_ok_key (ps_um st) k ∧ ¬ live_key st k) →
  sl_recover wal = Ok out →
  (∀ tp o h, pe_hot (entries_of (ps_index st) tp) !! o = Some h → he_record h ∈ out.*1) →
  (∀ r, r ∈ out.*1 → resolve st (wr_tp r) (wr_offset r) = Some r) →
  ∃ st', new_with_fencing sizeof_WalRecord crc32 wal (ps_um st) cache maxb manifest fencing = Ok st' ∧
    ∀ tp o, resolve st' tp o = resolve st tp o.
Proof using UploadManagerLaws0.
  intros [Hwf Hok] Hload Hcold Horph Hrec Hhot Hout. eexists. split.
  { unfold new_with_fencing. rewrite Hload. cbn [rbind]. rewrite Hrec. cbn [rbind]. reflexivity. }
  intros tp o. unfold resolve. cbn [ps_index ps_um].
  set (e' := entries_of (restore_hot _ out _) tp). set (e := entries_of (ps_index st) tp).
  assert (Hc : pe_cold e' = pe_cold e) by (unfold e'; by rewrite restore_hot_cold, Hcold).
  destruct (pe_hot e' !! o) as [h|] eqn:Eh.
  - apply restore_hot_Some in Eh as Hr; [|apply restore_cold_hot]. destruct Hr as (Hin & Htp & Ho).
    specialize (Hout _ Hin). rewrite Htp, Ho in Hout. unfold resolve in Hout. fold e in Hout. rewrite Hout.
    unfold resolve_in, source. by rewrite Eh.
  - assert (Eh0 : pe_hot e !! o = None).
    { apply eq_None_not_Some. intros [h Hh]. destruct (po_hot _ _ _ (Hok tp) _ _ Hh) as [Ho Htp].
      destruct (restore_hot_is_Some out (restore_cold (live res) PartitionIndex.new) (he_record h)) as [h' Hh'].
      { by eapply Hhot. }
      rewrite Ho, Htp in Hh'. fold e' in Hh'. congruence. }
    unfold resolve_in, source. rewrite Eh, Eh0, Hc.
    destruct (floor_entry o (pe_cold e)) as [[s r]|] eqn:Ef; [|done].
    destruct (_ <? _); [|done]. unfold obj_records.
    apply floor_entry_Some in Ef as (Hs & _).
    destruct (gc_orphans_same (orphan_object_keys res) (ps_um st) (live_key st) Horph) as [_ Hv].
    rewrite Hv; [done| |by exists tp, s, r]. by apply (po_cold _ _ _ (Hok tp) _ _ Hs).
Qed.
End spec.

(** ** The store as the record log of replication and the coordinator

    [impl RecordLog for PartitionStore] *)

Section record_log.
Context {W U C R : Type} `{!SegmentedLog W} (sizeof_WalRecord : Z).
Abbreviation PS := (PartitionStore W U C R).

Definition store_append (record : WalRecord) (st : PS) : Result unit * PS :=
  match append sizeof_WalRecord record st with
  | (Ok _, st) => (Ok tt, st)
  | (Err e, st) => (Err e, st)
  end.
Definition store_record_log : RecordLog PS := {|
  rl_append := store_append;
  rl_next_offset := next_offset;
|}.

Lemma next_offset_insert_hot tp o r sz idx tp' :
  PartitionIndex.next_offset (insert_hot tp o r sz idx) tp' =
  if decide (tp = tp') then Z.max (PartitionIndex.next_offset idx tp') (u64_add o 1)
  else PartitionIndex.next_offset idx tp'.
Proof.
  rewrite !next_offset_entries, entries_of_insert_hot. repeat case_decide; by subst.
Qed.

Lemma next_offset_remove_hot tp o idx tp' :
  PartitionIndex.next_offset (remove_hot tp o idx) tp' = PartitionIndex.next_offset idx tp'.
Proof.
  unfold remove_hot. destruct (pi_inner idx !! tp) as [e|] eqn:E; [|done].
  destruct (pe_hot e !! o); [|done]. rewrite !next_offset_entries.
  change (entries_of (fetch_sub _ ?i) tp') with (entries_of i tp'). rewrite entries_of_set.
  case_decide; [|done]. subst. unfold entries_of. by rewrite E.
Qed.

Lemma store_record_log_laws : @RecordLogLaws PS store_record_log.
Proof.
  split; cbn [rl_append rl_next_offset store_record_log]; unfold store_append, append.
  - intros r st res st' tp. destruct (await_capacity _ st); [|by intros [= <- <-]].
    destruct (sl_append r _) as [[loc|e] w]; intros [= <- <-]; unfold next_offset; simpl;
      rewrite ?next_offset_remove_hot, next_offset_insert_hot; case_decide; lia.
  - intros r st st' Ho. destruct (await_capacity _ st); [|done].
    destruct (sl_append r _) as [[loc|e] w]; [|done]. intros [= <-]. unfold next_offset. simpl.
    rewrite next_offset_insert_hot, decide_True by done. unfold u64_MAX in *. rewrite u64_add_small by lia. lia.
  - intros r st res st'. destruct (await_capacity _ st); [|by intros [= <- <-]].
    pose proof (u64_add_range (wr_offset r) 1).
    destruct (sl_append r _) as [[loc|e] w]; intros [= <- <-] Hu tp; specialize (Hu tp); unfold next_offset in *;
      simpl; rewrite ?next_offset_remove_hot, next_offset_insert_hot; case_decide; unfold is_u64 in *; lia.
Qed.
End record_log.

(** ** A concrete store

    The real log, upload manager and cache models, over the in-memory object
    store. *)

Module StoreDemo.
Import Mem.
#[local] Instance wal_codec : Bincode WalRecord := DemoCodec.demo.
#[local] Instance list_codec : Bincode (list WalRecord) := DemoCodec.demo.
#[local] Instance list_laws : BincodeLaws (list WalRecord) := DemoCodec.demo_laws.
#[local] Instance manifest_codec : Bincode ManifestRecord := DemoCodec.demo.
#[local] Instance res_codec : Bincode Reservation := DemoCodec.demo.
#[local] Instance um : UploadManager (UploadManagerImpl (gmap string (list Z))) :=
  upload_manager_impl crc id Some.
#[local] Instance um_laws : UploadManagerLaws (UploadManagerImpl (gmap string (list Z))) :=
  upload_manager_laws crc id Some mem_crc_range (λ b, eq_refl).
#[local] Instance lru : Cache LruCache := lru_cache (λ _, 0).
#[local] Instance lru_laws : CacheLaws LruCache := lru_cache_laws (λ _, 0).

Abbreviation PS := (PartitionStore FileTask (UploadManagerImpl (gmap string (list Z))) LruCache
                      (gmap string (list Z))).
Definition config : WalConfig := mkWalConfig true 1000 60000.
Definition r0 : WalRecord := Demo.wal Demo.tp0 0 Demo.rec0.
Definition st0 : PS :=
  mkPS (wal_new config 7 ∅ []).2 PartitionIndex.new (manager 1000000) (lru_new 16000) 10000 [] None [].
Definition st1 : PS := (append 100 r0 st0).2.
Definition st2 : PS := with_wal (handle_maybe_seal 8 true (ps_wal st1)).2 st1.

Lemma lru_new_view n k : cache_view (lru_new n) k = None.
Proof. apply lru_view_new. Qed.

Lemma store_ok_st0 : store_ok st0.
Proof.
  split; [apply new_wf|]. intros tp. split; [apply default_entries_wf|..].
  - intros s r. unfold entries_of. simpl. rewrite !lookup_empty. simpl. by rewrite lookup_empty.
  - intros o h. unfold entries_of. simpl. rewrite !lookup_empty. simpl. by rewrite lookup_empty.
  - intros o h s r rs. unfold entries_of. simpl. rewrite !lookup_empty. simpl. by rewrite lookup_empty.
Qed.

Lemma cache_ok_st0 : cache_ok st0.
Proof.
  intros tp o b rs _ _ Hb. change (ps_cache st0) with (lru_new 16000) in Hb. by rewrite lru_new_view in Hb.
Qed.

Lemma insert_ok : op_ok (OpInsertHot (wr_tp r0) (wr_offset r0) r0 (mem_size 100 r0)) (ps_index st0).
Proof. vm_compute. intuition congruence. Qed.

Lemma store_ok_st1 : store_ok st1.
Proof.
  destruct (insert_hot_store 100 st0 r0 store_ok_st0 insert_ok) as ([Hwf Hok] & _); [vm_compute; reflexivity|].
  split; [exact Hwf|exact Hok].
Qed.
Lemma cache_ok_st1 : cache_ok st1.
Proof. intros tp o b rs _ _ Hb. change (ps_cache st1) with (lru_new 16000) in Hb. by rewrite lru_new_view in Hb. Qed.

Lemma append_read_your_writes_witness :
  ∃ rs, read 100 id id Demo.tp0 0 1000 st1 = (Ok (r0 :: rs), st1).
Proof.
  assert (E : append 100 r0 st0 = (Ok (mkLoc 0 4104 (Z.of_nat (length (serialize r0)))), st1))
    by (vm_compute; reflexivity).
  assert (Hn : resolve st0 (wr_tp r0) (wr_offset r0) = None) by (vm_compute; reflexivity).
  destruct (append_read_your_writes 100 st0 r0 _ st1 store_ok_st0 cache_ok_st0 insert_ok Hn E)
    as (_ & _ & _ & Hr & _).
  apply (Hr id id 1000).
Defined.

Lemma append_respects_budget_witness :
  hot_bytes (ps_index st1) = 105 ∧ hot_bytes (ps_index st1) ≤ 10000.
Proof.
  assert (E : append 100 r0 st0 = (Ok (mkLoc 0 4104 (Z.of_nat (length (serialize r0)))), st1))
    by (vm_compute; reflexivity).
  split; [vm_compute; reflexivity|].
  refine (proj2 (proj2 (append_respects_budget 100 st0 r0 _ _ _ _ _) _ st1 E));
    try (vm_compute; (reflexivity || discriminate)).
Defined.

Lemma env_refl (st : PS) : store_ok st → cache_ok st → env_step keeps_reads st st.
Proof. intros. split; [done|]. split; [done|]. split; [by intros ????|]. split; [done|]. intros; by right. Qed.

Lemma read_correct_witness :
  (read 100 id id Demo.tp0 0 1000 st1).1 = Ok [r0] ∧ resolve st1 Demo.tp0 0 = Some r0.
Proof.
  assert (E : read 100 id id Demo.tp0 0 1000 st1 = (Ok [r0], st1)) by (vm_compute; reflexivity).
  destruct (read_correct 100 st1 Demo.tp0 0 1000 id id (Ok [r0]) st1 store_ok_st1 cache_ok_st1)
    as (_ & _ & _ & _ & Hv).
  - lia.
  - vm_compute. discriminate.
  - intros st Hok Hc. split; by apply env_refl.
  - exact E.
  - split; [by rewrite E|]. destruct Hv as [_ Hv]. apply (Hv 0%nat r0 eq_refl).
Defined.

Lemma group_ok_st2 : group_ok st2 Demo.tp0 0 [r0].
Proof.
  split.
  - discriminate.
  - intros [|i] r; simpl; [|done]. by intros [= <-].
  - lia.
  - vm_compute. reflexivity.
  - intros [|i] r; [|done]. intros [= <-]. eexists. split; vm_compute; reflexivity.
  - intros s r. vm_compute. discriminate.
  - split; [reflexivity|]. vm_compute. discriminate.
  - split; [reflexivity|]. vm_compute. discriminate.
Qed.

Lemma tier_segment_transparent_witness :
  (tier_segment crc id id 0 st2).1 = Ok tt ∧
  resolve (tier_segment crc id id 0 st2).2 Demo.tp0 0 = resolve st2 Demo.tp0 0.
Proof.
  split; [vm_compute; reflexivity|].
  destruct (tier_segment crc id id 0 st2) as [r st'] eqn:E.
  refine (proj1 (proj2 (proj2 (tier_segment_transparent crc id id 0 st2 r st' _ _ _ _ E))) Demo.tp0 0).
  - exact store_ok_st1.
  - exact cache_ok_st1.
  - done.
  - intros records tp recs Hr Hg.
    assert (Hread : sl_read_segment_records 0 (ps_wal st2) = Ok [r0]) by (vm_compute; reflexivity).
    rewrite Hread in Hr. injection Hr as <-.
    assert (Hgrp : group_by_partition [r0] = <[Demo.tp0 := [r0]]> ∅) by (vm_compute; reflexivity).
    rewrite Hgrp in Hg.
    destruct (decide (tp = Demo.tp0)) as [->|Hne].
    + rewrite lookup_insert_eq in Hg. injection Hg as <-. exists 0. exact group_ok_st2.
    + rewrite lookup_insert_ne, lookup_empty in Hg by congruence. discriminate Hg.
Defined.

(** The same store on a node that does not lead the partition. *)
Definition fenced : PS := with_fencing (Some (mkFencing "node-1" ∅ ∅)) st2.

Lemma tier_group_fenced_witness :
  tier_group crc id Demo.tp0 [r0] fenced = (Ok true, fenced) ∧
  ps_cold_index (tier_group crc id Demo.tp0 [r0] fenced).2 = ps_cold_index fenced.
Proof.
  assert (E : tier_group crc id Demo.tp0 [r0] fenced = (Ok true, fenced)) by (vm_compute; reflexivity).
  split; [exact E|]. rewrite E. apply (tier_group_fenced crc id Demo.tp0 [r0] fenced true fenced E).
Defined.

Definition restarted : FileTask := (wal_new config 9 (ft_dir (ps_wal st1)) []).2.

Lemma recovery_restores_reads_witness :
  ∃ st' : PS, new_with_fencing 100 crc restarted (ps_um st1) (lru_new 16000) 10000 (Some []) None = Ok st' ∧
    resolve st' Demo.tp0 0 = Some r0.
Proof.
  set (out := [(r0, mkLoc 0 4104 (Z.of_nat (length (serialize r0))))]).
  destruct (recovery_restores_reads 100 crc st1 restarted (lru_new 16000) (Some []) (Some [])
              default_load out 10000 None) as (st' & E & Hr).
  - exact store_ok_st1.
  - vm_compute. reflexivity.
  - intros tp. change (ps_index st1) with (insert_hot Demo.tp0 0 r0 (mem_size 100 r0) PartitionIndex.new).
    by rewrite cold_insert_hot.
  - intros k Hk. by apply elem_of_nil in Hk.
  - vm_compute. reflexivity.
  - intros tp o h. change (ps_index st1) with (insert_hot Demo.tp0 0 r0 (mem_size 100 r0) PartitionIndex.new).
    rewrite entries_of_insert_hot. case_decide; simpl.
    + rewrite lookup_insert_Some. intros [[<- <-]|[_ Hh]]; [by left|].
      unfold entries_of in Hh. simpl in Hh. by rewrite !lookup_empty in Hh.
    + unfold entries_of. simpl. rewrite !lookup_empty. simpl. by rewrite lookup_empty.
  - intros r. simpl. intros ->%list_elem_of_singleton. vm_compute. reflexivity.
  - exists st'. split; [exact E|]. rewrite Hr. vm_compute. reflexivity.
Defined.
End StoreDemo.
