(* ===== verification/Compaction.v ===== *)
(** * Compaction of cold segments

    Model of [src/src/storage/compaction.rs]: planning runs of small adjacent
    cold segments and merging each run into one object.  The compactor shares
    the index, the upload manager and the manifest of the partition store, so
    its operations are steps on the store's state. *)

From S2P Require Import Prelude Types PartitionIndex ColdIndex SegmentedWal LruCache ObjectStorage.
From S2P Require Import Reservation PartitionStore.
Local Open Scope Z_scope.

(** ** Data and planning *)

Record CompactionConfig := mkCompactionConfig {
  cc_enabled : bool;
  cc_small_threshold_bytes : Z;
  cc_target_bytes : Z;
  cc_max_sources : Z;
}.

Record CompactionPlan := mkPlan {
  cp_tp : TopicPartition;
  cp_sources : list ColdSegment;
}.

(** One iteration of the loop of [plan_partition_compaction]: the plans so
    far, the current run and its size. *)
Definition plan_step (tp : TopicPartition) (config : CompactionConfig)
    (acc : list CompactionPlan * list ColdSegment * Z) (seg : ColdSegment)
  : list CompactionPlan * list ColdSegment * Z :=
  let '(plans, current_run, current_run_size) := acc in
  let is_small := cs_size seg <? cc_small_threshold_bytes config in
  let is_contiguous := match last current_run with
                       | Some lst => cs_end lst =? cs_start seg
                       | None => true
                       end in
  if negb is_small || negb is_contiguous then
    let plans := if 2 <=? Z.of_nat (length current_run)
                 then plans ++ [mkPlan tp current_run] else plans in
    if is_small then (plans, [seg], cs_size seg) else (plans, [], 0)
  else if (cc_target_bytes config <? u64_add current_run_size (cs_size seg))
          && (2 <=? Z.of_nat (length current_run)) then
    (plans ++ [mkPlan tp current_run], [seg], cs_size seg)
  else
    let current_run_size := u64_add current_run_size (cs_size seg) in
    let current_run := current_run ++ [seg] in
    if cc_max_sources config <=? Z.of_nat (length current_run)
    then (plans ++ [mkPlan tp current_run], [], 0)
    else (plans, current_run, current_run_size).

Definition plan_partition_compaction (tp : TopicPartition) (segments : list ColdSegment)
    (config : CompactionConfig) : list CompactionPlan :=
  let '(plans, current_run, _) := foldl (plan_step tp config) ([], [], 0) segments in
  if 2 <=? Z.of_nat (length current_run) then plans ++ [mkPlan tp current_run] else plans.

(** [order] is the iteration order of the index's hash map. *)
Definition plan_compaction (order : list TopicPartition → list TopicPartition)
    (idx : PartitionIndex) (config : CompactionConfig) : list CompactionPlan :=
  tp ← order (get_partitions idx);
  plan_partition_compaction tp (get_cold_segments idx tp) config.

(** ** Executing a plan *)

Section compactor.
Context {W U C R : Type} `{!UploadManager U}.
Context `{!Bincode (list WalRecord), !Bincode ManifestRecord}.
Context (crc32 : bytes → Z).
Abbreviation PS := (PartitionStore W U C R).
Local Open Scope rust_scope.

(** The download loop: the merged records and [expected_next_offset]. *)
Fixpoint merge_sources (sources : list ColdSegment) (merged : list WalRecord)
    (expected_next_offset : Offset) (u : U) : Result (list WalRecord * Offset) * U :=
  match sources with
  | [] => (Ok (merged, expected_next_offset), u)
  | source :: sources =>
      let! (wal_seg, u) := um_download (cs_key source) u in
      let! (recs, u) := (ok_or (deserialize (seg_data wal_seg)) Storage, u) in
      match head recs, last recs with
      | Some first, Some lst =>
          if negb (wr_offset first =? expected_next_offset) then (Err Storage, u)
          else merge_sources sources (merged ++ recs) (u64_add (wr_offset lst) 1) u
      | _, _ => merge_sources sources (merged ++ recs) expected_next_offset u
      end
  end.

(** [self.cold_index.record_compaction(..)] *)
Definition record_compaction_cold (merged : ColdSegment) (source_keys : list string) (st : PS)
  : Result unit * PS :=
  let '(fault, faults) := match ps_manifest_faults st with
                          | [] => (NoFault, []) | f :: fs => (f, fs) end in
  let '(r, file) := record_compaction crc32 fault merged source_keys (ps_cold_index st) in
  (r, mkPS (ps_wal st) (ps_index st) (ps_um st) (ps_cache st) (ps_hot_cache_max_bytes st)
        file (ps_fencing st) faults).

(** Best-effort deletion: errors are logged only. *)
Definition delete_sources (keys : list string) (u : U) : U := foldl (λ u k, (um_delete k u).2) u keys.

Definition execute_plan (plan : CompactionPlan) (st : PS) : Result unit * PS :=
  let tp := cp_tp plan in
  let sources := cp_sources plan in
  if Z.of_nat (length sources) <? 2 then (Ok tt, st) else
  match head sources, last sources with
  | Some first, Some lst =>
      let start_offset := cs_start first in
      let end_offset := cs_end lst in
      let! (merge, st) :=
        (let '(r, u) := merge_sources sources [] start_offset (ps_um st) in (r, with_um u st)) in
      let '(merged_records, expected_next_offset) := merge in
      if negb (expected_next_offset =? end_offset) then (Err Storage, st) else
      let merged_data := serialize merged_records in
      let size_bytes := Z.of_nat (length merged_data) in
      let merged_segment := mkSegment start_offset end_offset size_bytes merged_data tp in
      let! (merged_key, st) :=
        (let '(r, u) := um_upload merged_segment (ps_um st) in (r, with_um u st)) in
      let merged_seg := mkCold tp start_offset end_offset merged_key size_bytes in
      let source_keys := cs_key <$> sources in
      let! (_u, st) := record_compaction_cold merged_seg source_keys st in
      match replace_cold tp start_offset end_offset merged_key size_bytes (ps_index st) with
      | None => (Err Panic, st)
      | Some idx =>
          let st := with_index (λ _, idx) st in
          (Ok tt, with_um (delete_sources source_keys (ps_um st)) st)
      end
  | _, _ => (Err Panic, st)
  end.

(** Errors of one plan are logged; the cycle goes on with the next. *)
Definition execute_plans (plans : list CompactionPlan) (st : PS) : PS :=
  foldl (λ st plan, (execute_plan plan st).2) st plans.

Definition run_compaction_cycle (order : list TopicPartition → list TopicPartition)
    (config : CompactionConfig) (st : PS) : Result unit * PS :=
  if negb (cc_enabled config) then (Ok tt, st)
  else (Ok tt, execute_plans (plan_compaction order (ps_index st) config) st).
End compactor.

(** ** What the planner chooses *)

(** [chain s sources]: the segments follow each other without a gap, from
    offset [s] to [chain_end s sources]. *)
Fixpoint chain (s : Offset) (sources : list ColdSegment) : Prop :=
  match sources with
  | [] => True
  | x :: sources => cs_start x = s ∧ chain (cs_end x) sources
  end.
Fixpoint chain_end (s : Offset) (sources : list ColdSegment) : Offset :=
  match sources with
  | [] => s
  | x :: sources => chain_end (cs_end x) sources
  end.

Lemma chain_snoc s l x : chain s (l ++ [x]) ↔ chain s l ∧ cs_start x = chain_end s l.
Proof. revert s. induction l as [|y l IH]; intros s; simpl; [tauto|]. rewrite IH. tauto. Qed.
Lemma chain_end_snoc s l x : chain_end s (l ++ [x]) = cs_end x.
Proof. revert s. by induction l as [|y l IH]; intros s; simpl. Qed.
Lemma chain_end_last s l x : last l = Some x → chain_end s l = cs_end x.
Proof. intros (l' & ->)%last_Some. apply chain_end_snoc. Qed.

Definition run_start (l : list ColdSegment) : Offset := from_option cs_start 0 (head l).
Definition run_size (l : list ColdSegment) : Z := zsum cs_size l.

(** A run the planner may hold: contiguous small segments within the limits. *)
Record run_ok (config : CompactionConfig) (l : list ColdSegment) : Prop := {
  rk_chain : chain (run_start l) l;
  rk_small x : x ∈ l → cs_size x < cc_small_threshold_bytes config;
  rk_size : run_size l ≤ cc_target_bytes config ∨ (length l ≤ 2)%nat;
}.

Record plan_bounds (tp : TopicPartition) (config : CompactionConfig) (p : CompactionPlan) : Prop := {
  pb_tp : cp_tp p = tp;
  pb_run : run_ok config (cp_sources p);
  pb_two : (2 ≤ length (cp_sources p))%nat;
  pb_max : Z.of_nat (length (cp_sources p)) ≤ cc_max_sources config;
}.

(** The state of the planner after the segments [seen]. *)
Record planner_inv (tp : TopicPartition) (config : CompactionConfig) (seen : list ColdSegment)
    (plans : list CompactionPlan) (run : list ColdSegment) (size : Z) : Prop := {
  pl_plans p : p ∈ plans → plan_bounds tp config p;
  pl_run : run_ok config run;
  pl_short : Z.of_nat (length run) < cc_max_sources config;
  pl_size : size = run_size run;
  pl_sub : mjoin (cp_sources <$> plans) ++ run `sublist_of` seen;
}.

Section planner.
Context (tp : TopicPartition) (config : CompactionConfig) (Hmax : 2 ≤ cc_max_sources config).

Lemma run_ok_nil : run_ok config [].
Proof. split; [done|by intros x ?%elem_of_nil|right; simpl; lia]. Qed.

Lemma run_ok_single seg : cs_size seg < cc_small_threshold_bytes config → run_ok config [seg].
Proof.
  intros Hs. split; [done| |right; simpl; lia]. by intros x ->%list_elem_of_singleton.
Qed.

Lemma run_ok_snoc run seg :
  run_ok config run → cs_size seg < cc_small_threshold_bytes config →
  (∀ lst, last run = Some lst → cs_end lst = cs_start seg) →
  run_size (run ++ [seg]) ≤ cc_target_bytes config ∨ (length run < 2)%nat →
  run_ok config (run ++ [seg]).
Proof.
  intros [Hc Hsm Hsz] Hs Hl Hb. split.
  - destruct run as [|x run]; [done|]. change (run_start ((x :: run) ++ [seg])) with (run_start (x :: run)).
    apply chain_snoc. split; [done|].
    destruct (last (x :: run)) as [lst|] eqn:El; [|by apply last_None in El].
    rewrite (chain_end_last _ _ lst El). symmetry. by apply Hl.
  - intros x [Hx| ->%list_elem_of_singleton]%elem_of_app; [by apply Hsm|done].
  - destruct Hb as [?|?]; [by left|right]. rewrite length_app. simpl. lia.
Qed.

Lemma push_plan plans run :
  (∀ p, p ∈ plans → plan_bounds tp config p) → run_ok config run → (2 ≤ length run)%nat →
  Z.of_nat (length run) ≤ cc_max_sources config →
  (∀ p, p ∈ plans ++ [mkPlan tp run] → plan_bounds tp config p) ∧
  mjoin (cp_sources <$> (plans ++ [mkPlan tp run])) = mjoin (cp_sources <$> plans) ++ run.
Proof.
  intros Hp Hr Hlen Hm. split.
  - intros p [?| ->%list_elem_of_singleton]%elem_of_app; [auto|by split].
  - rewrite fmap_app, join_app. simpl. by rewrite app_nil_r.
Qed.

(** The last branch of the loop: the segment joins the run. *)
Lemma extend seen plans run size seg :
  planner_inv tp config seen plans run size →
  cs_size seg < cc_small_threshold_bytes config →
  (∀ lst, last run = Some lst → cs_end lst = cs_start seg) →
  run_size (run ++ [seg]) ≤ cc_target_bytes config ∨ (length run < 2)%nat →
  let '(plans', run', size') :=
    if cc_max_sources config <=? Z.of_nat (length (run ++ [seg]))
    then (plans ++ [mkPlan tp (run ++ [seg])], [], 0)
    else (plans, run ++ [seg], size + cs_size seg) in
  planner_inv tp config (seen ++ [seg]) plans' run' size'.
Proof using Hmax.
  intros [Hp Hrun Hshort Hsize Hsub] Hsm Hl Hb.
  pose proof (run_ok_snoc run seg Hrun Hsm Hl Hb) as Hrun'.
  assert (Hlen : length (run ++ [seg]) = S (length run)) by (rewrite length_app; simpl; lia).
  assert (Hsub' : mjoin (cp_sources <$> plans) ++ run ++ [seg] `sublist_of` seen ++ [seg]).
  { rewrite app_assoc. by apply sublist_app. }
  case_cond.
  - destruct (push_plan plans (run ++ [seg])) as [Hp' Hj]; [done..|lia|lia|].
    split; [done|apply run_ok_nil|simpl; lia|done|]. by rewrite Hj, app_nil_r.
  - split; [done|done|lia| |done]. unfold run_size in *. rewrite zsum_snoc. lia.
Qed.

Lemma plan_step_inv seen plans run size seg :
  planner_inv tp config seen plans run size →
  0 ≤ cs_size seg → 0 ≤ size → size + cs_size seg < u64_modulus →
  let '(plans', run', size') := plan_step tp config (plans, run, size) seg in
  planner_inv tp config (seen ++ [seg]) plans' run' size'.
Proof using Hmax.
  intros [Hp Hrun Hshort Hsize Hsub] Hseg Hnn Hfit. unfold plan_step.
  rewrite u64_add_small by lia.
  destruct (Z.ltb_spec (cs_size seg) (cc_small_threshold_bytes config)) as [Hsm|Hbig]; simpl.
  - destruct (match last run with Some lst => cs_end lst =? cs_start seg | None => true end) eqn:Ec; simpl.
    + assert (Hl : ∀ lst, last run = Some lst → cs_end lst = cs_start seg).
      { intros lst El. rewrite El in Ec. by apply Z.eqb_eq. }
      destruct (Z.leb_spec 2 (Z.of_nat (length run))) as [H2|H2].
      * destruct (Z.ltb_spec (cc_target_bytes config) (size + cs_size seg)); simpl.
        -- destruct (push_plan plans run) as [Hp' Hj]; [done..|lia|lia|].
           split; [done|by apply run_ok_single|simpl; lia| |].
           ++ unfold run_size. rewrite zsum_cons, zsum_nil. lia.
           ++ rewrite Hj. by apply sublist_app.
        -- apply (extend seen); try done. left. unfold run_size. rewrite zsum_snoc. unfold run_size in Hsize. lia.
      * rewrite andb_false_r. apply (extend seen); try done. right. lia.
    + case_cond; [destruct (push_plan plans run) as [Hp' Hj]; [done..|lia|lia|]|];
        (split; [done|by apply run_ok_single|simpl; lia|unfold run_size; rewrite zsum_cons, zsum_nil; lia|]).
      * rewrite Hj. by apply sublist_app.
      * apply sublist_app; [|done]. etrans; [|exact Hsub]. apply sublist_inserts_r. done.
  - case_cond; [destruct (push_plan plans run) as [Hp' Hj]; [done..|lia|lia|]|];
      (split; [done|apply run_ok_nil|simpl; lia|done|]); rewrite app_nil_r.
    + rewrite Hj. by apply sublist_inserts_r.
    + apply sublist_inserts_r. etrans; [|exact Hsub]. by apply sublist_inserts_r.
Qed.

Lemma plan_fold_inv segments :
  (∀ seg, seg ∈ segments → 0 ≤ cs_size seg) → run_size segments < u64_modulus →
  let '(plans, run, size) := foldl (plan_step tp config) ([], [], 0) segments in
  planner_inv tp config segments plans run size ∧ 0 ≤ size ≤ run_size segments.
Proof using Hmax.
  induction segments as [|seg segments IH] using rev_ind; intros Hnn Hfit.
  - simpl. split; [|by unfold run_size; rewrite zsum_nil].
    split; [by intros p ?%elem_of_nil|apply run_ok_nil|simpl; lia|done|done].
  - unfold run_size in *. rewrite zsum_snoc in *. rewrite foldl_app. cbn [foldl].
    assert (0 ≤ cs_size seg) by (apply Hnn, elem_of_app; right; by apply list_elem_of_singleton).
    destruct (foldl _ _ segments) as [[plans run] size].
    destruct IH as [Hinv Hsz]; [intros x ?; apply Hnn, elem_of_app; by left|lia|].
    pose proof (plan_step_inv segments plans run size seg Hinv) as Hstep.
    destruct (plan_step _ _ _ _) as [[plans' run'] size']. specialize (Hstep ltac:(lia) ltac:(lia) ltac:(lia)).
    split; [done|]. rewrite (pl_size _ _ _ _ _ _ Hstep), <- (zsum_snoc cs_size). unfold run_size.
    assert (Hsub : run' `sublist_of` segments ++ [seg]).
    { etrans; [|exact (pl_sub _ _ _ _ _ _ Hstep)]. by apply sublist_inserts_l. }
    split; [apply zsum_nonneg, Forall_forall; intros x Hx; apply Hnn; by eapply elem_of_sublist|].
    apply zsum_sublist; [done|]. by apply Forall_forall.
Qed.

(** The plans of one partition. *)
Lemma plan_partition_spec segments :
  (∀ seg, seg ∈ segments → 0 ≤ cs_size seg) → run_size segments < u64_modulus →
  (∀ p, p ∈ plan_partition_compaction tp segments config → plan_bounds tp config p) ∧
  mjoin (cp_sources <$> plan_partition_compaction tp segments config) `sublist_of` segments.
Proof using Hmax.
  intros Hnn Hfit. unfold plan_partition_compaction. pose proof (plan_fold_inv segments Hnn Hfit) as Hinv.
  destruct (foldl _ _ segments) as [[plans run] size]. destruct Hinv as [[Hp Hrun Hshort _ Hsub] _].
  case_cond.
  - destruct (push_plan plans run) as [Hp' Hj]; [done..|lia|lia|]. by rewrite Hj.
  - split; [done|]. etrans; [|exact Hsub]. by apply sublist_inserts_r.
Qed.
End planner.

(** ** Executing plans keeps what the store serves *)

Section execution.
Context {W U C R : Type} `{!UploadManager U, !Cache C}.
Context `{!UploadManagerLaws U, !CacheLaws C}.
Context `{!Bincode (list WalRecord), !BincodeLaws (list WalRecord), !Bincode ManifestRecord}.
Context (crc32 : bytes → Z).
Abbreviation PS := (PartitionStore W U C R).
Implicit Types (st : PS) (tp : TopicPartition) (o s : Offset) (rs : list WalRecord).

Abbreviation cold_of st tp := (pe_cold (entries_of (ps_index st) tp)).

Definition run_end (p : CompactionPlan) : Offset := chain_end (run_start (cp_sources p)) (cp_sources p).
Abbreviation start_of p := (run_start (cp_sources p)).

(** The records of the sources of a plan, in order. *)
Definition sources_records (u : U) (sources : list ColdSegment) : option (list WalRecord) :=
  mjoin <$> mapM (λ x, obj_records u (cs_key x)) sources.

Definition source_ok st tp (x : ColdSegment) : Prop :=
  cold_of st tp !! cs_start x = Some (mkRange (cs_end x) (cs_key x) (cs_size x)).

(** A plan that is still current: its sources are contiguous ranges of the
    index. *)
Record plan_current st (p : CompactionPlan) : Prop := {
  pk_two : (2 ≤ length (cp_sources p))%nat;
  pk_sources x : x ∈ cp_sources p → source_ok st (cp_tp p) x;
  pk_chain : chain (start_of p) (cp_sources p);
}.

(** Moreover the backend accepts the merged object. *)
Record plan_ok st (p : CompactionPlan) : Prop := {
  pk_current : plan_current st p;
  pk_accepts rs : sources_records (ps_um st) (cp_sources p) = Some rs →
    um_accepts (ps_um st) (mkSegment (start_of p) (run_end p) (Z.of_nat (length (serialize rs)))
                             (serialize rs) (cp_tp p));
}.

Definition um_all_same (u u' : U) : Prop :=
  (∀ k, um_ok_key u' k ↔ um_ok_key u k) ∧ (∀ seg, um_accepts u' seg ↔ um_accepts u seg) ∧
  ∀ k, um_ok_key u k → um_view u' k = um_view u k.

Lemma um_all_same_same u u' live : um_all_same u u' → um_same u u' live.
Proof. intros (? & ? & ?). split; auto. Qed.

Lemma consecutive_app tp s rs1 rs2 :
  consecutive tp s rs1 → consecutive tp (s + Z.of_nat (length rs1)) rs2 → consecutive tp s (rs1 ++ rs2).
Proof.
  intros H1 H2 i r. destruct (decide (i < length rs1)%nat).
  - rewrite lookup_app_l by done. apply H1.
  - rewrite lookup_app_r by lia. intros Hi. destruct (H2 _ _ Hi) as [-> ?]. split; [lia|done].
Qed.

(** A source is a non-empty range whose object holds its records. *)
Lemma source_object st tp x :
  store_ok st → source_ok st tp x →
  0 ≤ cs_start x < cs_end x ∧ cs_end x < u64_modulus ∧ um_ok_key (ps_um st) (cs_key x) ∧
  cs_key x = range_key tp (cs_start x) (cs_end x) ∧
  ∃ rs, obj_records (ps_um st) (cs_key x) = Some rs ∧ consecutive tp (cs_start x) rs ∧
    cs_start x + Z.of_nat (length rs) = cs_end x ∧
    ∀ o, cs_start x ≤ o < cs_end x → resolve st tp o = rs !! Z.to_nat (o - cs_start x).
Proof.
  intros [Hwf Hok] Hx. pose proof (Hok tp) as Hp.
  destruct (po_cold _ _ _ Hp _ _ Hx) as [Hkey Hvalid _ (rs & Hrs & Hc & Hlen)]. simpl in *.
  pose proof (po_wf _ _ _ Hp) as He. destruct (wf_cold _ He _ _ Hx) as [? ?]. simpl in *.
  pose proof (wf_next _ He) as [? ?]. split_and!; try lia; try done.
  exists rs. split_and!; try done. intros o Ho. unfold resolve.
  by apply (resolve_covered _ tp _ _ _ _ _ Hp (conj Hx Ho)).
Qed.

(** The download loop returns the records of the run. *)
Lemma merge_sources_spec st tp sources s merged u r u' :
  store_ok st → (∀ x, x ∈ sources → source_ok st tp x) → chain s sources →
  um_all_same (ps_um st) u → merge_sources sources merged s u = (r, u') →
  um_all_same (ps_um st) u' ∧
  ∀ p, r = Ok p → ∃ rs, p = (merged ++ rs, chain_end s sources) ∧
    sources_records (ps_um st) sources = Some rs ∧ consecutive tp s rs ∧
    s + Z.of_nat (length rs) = chain_end s sources ∧
    ∀ o, s ≤ o < chain_end s sources → resolve st tp o = rs !! Z.to_nat (o - s).
Proof using BincodeLaws0 UploadManagerLaws0.
  intros Hok. revert s merged u. induction sources as [|x sources IH]; intros s merged u Hsrc Hchain Hu; simpl.
  { intros [= <- <-]. split; [done|]. intros p [= <-]. exists []. rewrite app_nil_r.
    split_and!; try done; [simpl; lia|intros o ?; lia]. }
  destruct Hchain as [Hs Hchain]. subst s.
  destruct (source_object st tp x Hok) as (Hpos & Hb & Hkey & _ & rs & Hrs & Hc & Hlen & Hres); [by apply Hsrc; left|].
  destruct (um_download (cs_key x) u) as [r1 u1] eqn:E1.
  apply um_download_law in E1 as (D1 & D2 & D3 & D4); [|by apply Hu].
  assert (Hu1 : um_all_same (ps_um st) u1).
  { destruct Hu as (A & B & D). split_and!.
    - intros k. by rewrite D1, A.
    - intros seg. by rewrite D2, B.
    - intros k Hk. rewrite D3 by by apply A. by apply D. }
  destruct r1 as [seg|e1]; cbn [sbind]; [|by intros [= <- <-]].
  assert (Hd : deserialize (seg_data seg) = Some rs).
  { destruct Hu as (_ & _ & D). rewrite D in D4 by done. unfold obj_records in Hrs. by rewrite D4 in Hrs. }
  rewrite Hd. cbn [ok_or sbind].
  destruct (consecutive_ends tp (cs_start x) rs) as (first & lst & -> & -> & Hf & Hl);
    [done|intros ->; simpl in *; lia|lia|lia|].
  rewrite Hf, Z.eqb_refl. cbn [negb]. rewrite Hl, Hlen. intros E.
  destruct (IH (cs_end x) (merged ++ rs) u1) as [Hu' Hr]; [intros y Hy; apply Hsrc; by right|done|done|exact E|].
  split; [done|]. intros p Hp. destruct (Hr p Hp) as (rs2 & -> & Hm & Hc2 & Hlen2 & Hres2).
  exists (rs ++ rs2). split_and!.
  - by rewrite app_assoc.
  - unfold sources_records in *. simpl. rewrite Hrs. simpl.
    destruct (mapM _ sources) as [ls|] eqn:Em; [|done]. simpl in *. by injection Hm as <-.
  - apply consecutive_app; [done|]. by rewrite Hlen.
  - rewrite length_app. lia.
  - intros o Ho. destruct (decide (o < cs_end x)).
    + rewrite lookup_app_l by lia. apply Hres. lia.
    + rewrite lookup_app_r by lia. rewrite Hres2 by lia. f_equal. lia.
Qed.

(** Replacing a run of ranges by the merged range. *)
Lemma replace_store st tp s en first lst k size rs idx' :
  store_ok st → cold_of st tp !! s = Some first →
  source_ok st tp lst → s ≤ cs_start lst → cs_end lst = en →
  k = range_key tp s en → um_ok_key (ps_um st) k → obj_records (ps_um st) k = Some rs →
  consecutive tp s rs → s + Z.of_nat (length rs) = en →
  (∀ o, s ≤ o < en → resolve st tp o = rs !! Z.to_nat (o - s)) →
  replace_cold tp s en k size (ps_index st) = Some idx' →
  let st' := with_index (λ _, idx') st in
  store_ok st' ∧ same_reads st st' ∧
  (∀ tp', tp' ≠ tp → entries_of idx' tp' = entries_of (ps_index st) tp') ∧
  cold_of st' tp = <[s := mkRange en k size]> (remove_range s en (cold_of st tp)).
Proof.
  intros Hok Hfirst Hlst Hsl Hen -> Hkey Hobj Hcons Hlen Hres Hrep st'.
  destruct (source_object st tp lst Hok Hlst) as (Hpos & Hb & _). unfold source_ok in Hlst.
  pose proof Hok as [Hwf Hparts]. pose proof (Hparts tp) as [Hw Hc Hh Ha].
  set (E := entries_of (ps_index st) tp) in *.
  destruct (wf_cold _ Hw _ _ Hfirst) as [Hs0 _].
  assert (Hop : op_ok (OpReplaceCold tp s en (range_key tp s en) size) (ps_index st)).
  { simpl. split_and!; [lia|lia|lia|]. intros s' r' Hs' Hlt. by apply (wf_disjoint _ Hw s' r' s first). }
  assert (Hwf' : index_wf idx') by by apply (run_op_wf _ _ _ Hop Hrep).
  assert (Hother : ∀ tp', tp' ≠ tp → entries_of idx' tp' = entries_of (ps_index st) tp').
  { intros tp' Hne. apply entries_of_congr.
    by apply (run_op_other (OpReplaceCold tp s en (range_key tp s en) size)). }
  pose proof (replace_cold_entries _ _ _ _ _ _ _ Hrep) as He'. fold E in He'.
  set (E' := entries_of idx' tp) in *.
  pose proof (entries_of_wf _ tp Hwf') as Hw'. fold E' in Hw'.
  assert (Hout : ∀ s' r' o, ¬ (s ≤ o < en) → covers E' s' r' o ↔ covers E s' r' o).
  { intros s' r' o Ho. rewrite He'. by apply (covers_replace_out _ _ _ _ _ _ _ _ _ _ _ Hw Hlst). }
  assert (Hin : ∀ s' r' o, s ≤ o < en → covers E' s' r' o → s' = s ∧ r' = mkRange en (range_key tp s en) size).
  { intros s' r' o Ho Hcov. assert (Hc2 : covers E' s (mkRange en (range_key tp s en) size) o).
    { split; [rewrite He'; simpl; apply lookup_insert_eq|done]. }
    pose proof (covers_floor _ _ _ _ Hw' Hcov) as F1. pose proof (covers_floor _ _ _ _ Hw' Hc2) as F2.
    rewrite F1 in F2. by injection F2. }
  assert (Hpart : part_ok (ps_um st) tp E').
  { split.
    - done.
    - intros s' r'. rewrite He'. simpl. rewrite lookup_insert_Some. intros [[<- <-]|[_ Hs']].
      + split; simpl; [done|done| |by exists rs]. by destruct (Hc _ _ Hfirst).
      + rewrite lookup_remove_range in Hs'. case_decide; [done|]. by apply Hc.
    - rewrite He'. simpl. apply Hh.
    - intros o h s' r' rs' Hho Hcov Hrs. assert (Hho' : pe_hot E !! o = Some h) by by rewrite He' in Hho.
      destruct (decide (s ≤ o < en)) as [Ho|Ho].
      + destruct (Hin _ _ _ Ho Hcov) as [-> ->]. simpl in Hrs. rewrite Hobj in Hrs. injection Hrs as <-.
        rewrite <- Hres by done. by apply (resolve_hot st tp o h).
      + apply (Ha o h s' r' rs'); [done|by apply Hout|done]. }
  split_and!.
  - split; [done|]. intros tp'. simpl. destruct (decide (tp' = tp)) as [->|Hne]; [done|].
    rewrite Hother by done. apply Hparts.
  - intros tp' o. destruct (decide (tp' = tp)) as [->|Hne]; [|unfold resolve; simpl; by rewrite Hother].
    destruct (decide (s ≤ o < en)) as [Ho|Ho].
    + rewrite Hres by done. unfold resolve. simpl. fold E'.
      apply (resolve_covered _ tp E' s (mkRange en (range_key tp s en) size)); [done| |done].
      split; [rewrite He'; simpl; apply lookup_insert_eq|done].
    + unfold resolve, resolve_in. simpl. fold E'. fold E.
      by rewrite (source_congr E E') by (done || (by rewrite He') || auto).
  - done.
  - simpl. fold E'. by rewrite He'.
Qed.

(** What executing plan [p] keeps. *)
Definition outside (p : CompactionPlan) tp s : Prop := tp ≠ cp_tp p ∨ ¬ (start_of p ≤ s < run_end p).
Record keeps st st' (p : CompactionPlan) : Prop := {
  kp_store : store_ok st';
  kp_cache : cache_ok st';
  kp_reads : same_reads st st';
  kp_accepts seg : um_accepts (ps_um st') seg ↔ um_accepts (ps_um st) seg;
  kp_outside tp s r : cold_of st tp !! s = Some r → outside p tp s →
    cold_of st' tp !! s = Some r ∧ um_view (ps_um st') (or_object_key r) = um_view (ps_um st) (or_object_key r);
}.

(** A change of the objects that leaves the live ones alone. *)
Lemma keeps_um st u' p :
  store_ok st → cache_ok st → um_same (ps_um st) u' (live_key st) →
  (∀ seg, um_accepts u' seg ↔ um_accepts (ps_um st) seg) → keeps st (with_um u' st) p.
Proof.
  intros Hok Hc Hu Ha. destruct (store_ok_um st u' Hok Hu) as [Hok' Hsr]. split; try done.
  - apply (cache_ok_intro st); [done|done|auto].
  - intros tp s r Hs _. split; [done|]. simpl. apply Hu; [|by exists tp, s, r].
    destruct Hok as [_ Hok]. by apply (po_cold _ _ _ (Hok tp) _ _ Hs).
Qed.

Lemma keeps_trans st1 st2 st3 p : keeps st1 st2 p → keeps st2 st3 p → keeps st1 st3 p.
Proof.
  intros [A1 A2 A3 A4 A5] [B1 B2 B3 B4 B5]. split; try done.
  - by eapply same_reads_trans.
  - intros seg. by rewrite B4, A4.
  - intros tp s r Hs Ho. destruct (A5 _ _ _ Hs Ho) as [Hs2 <-]. by apply B5.
Qed.

Lemma record_compaction_frame seg keys st r st' :
  record_compaction_cold crc32 seg keys st = (r, st') →
  ps_index st' = ps_index st ∧ ps_um st' = ps_um st ∧ ps_cache st' = ps_cache st.
Proof.
  unfold record_compaction_cold. destruct (match ps_manifest_faults st with [] => _ | _ => _ end) as [fa fs].
  destruct (record_compaction _ _ _ _ _) as [rr file]. by intros [= <- <-].
Qed.

Lemma chain_bounds st tp s sources x :
  store_ok st → (∀ y, y ∈ sources → source_ok st tp y) → chain s sources → x ∈ sources →
  s ≤ cs_start x ∧ cs_end x ≤ chain_end s sources.
Proof.
  intros Hok. revert s x. induction sources as [|y sources IH]; intros s x Hsrc Hc Hx; [by apply elem_of_nil in Hx|].
  destruct Hc as [<- Hc]. destruct (source_object st tp y Hok) as (Hpos & _); [apply Hsrc; by left|].
  assert (Hend : cs_end y ≤ chain_end (cs_end y) sources).
  { destruct sources as [|z sources]; [done|]. destruct (IH (cs_end y) z) as [? ?];
      [intros w Hw; apply Hsrc; by right|done|by left|].
    destruct (source_object st tp z Hok) as (? & _); [apply Hsrc; right; by left|]. lia. }
  apply elem_of_cons in Hx as [->|Hx]; [simpl; lia|].
  destruct (IH (cs_end y) x) as [? ?]; [intros w Hw; apply Hsrc; by right|done|done|]. simpl. lia.
Qed.

(** The key of the merged object is no live key. *)
Lemma merged_key_fresh st p tp' s' r' :
  store_ok st → plan_current st p → cold_of st tp' !! s' = Some r' →
  or_object_key r' ≠ range_key (cp_tp p) (start_of p) (run_end p).
Proof.
  intros Hok [Htwo Hsrc Hchain] Hs' E. pose proof Hok as [_ Hparts].
  destruct (po_cold _ _ _ (Hparts tp') _ _ Hs') as [Hk _ [Ht' Hp'] _].
  destruct (wf_cold _ (po_wf _ _ _ (Hparts tp')) _ _ Hs') as [? _].
  unfold run_end in *. destruct (cp_sources p) as [|x [|y l]] eqn:El; [simpl in *; lia..|].
  destruct (source_object st (cp_tp p) x Hok) as (Hx & _); [apply Hsrc; by left|].
  assert (Hy : y ∈ x :: y :: l) by (right; by left).
  destruct (source_object st (cp_tp p) y Hok) as (Hy' & _); [by apply Hsrc|].
  destruct (chain_bounds st (cp_tp p) _ (x :: y :: l) y Hok Hsrc Hchain Hy) as [_ ?].
  destruct Hchain as [_ [Hxy _]].
  assert (Hxs : source_ok st (cp_tp p) x) by (apply Hsrc; by left).
  destruct (po_cold _ _ _ (Hparts (cp_tp p)) _ _ Hxs) as [_ _ [Ht Hp] _].
  rewrite Hk in E. unfold run_start in *. simpl in *. apply range_key_inj in E as (-> & -> & Hend); try done; try lia.
  unfold source_ok in Hxs. rewrite Hxs in Hs'. injection Hs' as <-. simpl in *. lia.
Qed.

Lemma delete_sources_accepts keys u seg :
  (∀ k, k ∈ keys → um_ok_key u k) → um_accepts (delete_sources keys u) seg ↔ um_accepts u seg.
Proof using UploadManagerLaws0.
  revert u. induction keys as [|k keys IH]; intros u Hk; simpl; [done|].
  destruct (um_delete k u) as [r u1] eqn:E. simpl.
  apply um_delete_law in E as (Hkeys & Ha & _); [|apply Hk; by left].
  rewrite IH; [apply Ha|]. intros k' ?. apply Hkeys, Hk. by right.
Qed.

(** The merge step: index and objects once the merged object is uploaded. *)
Record merged_ready st p rs : Prop := {
  mr_store : store_ok st;
  mr_cache : cache_ok st;
  mr_plan : plan_current st p;
  mr_key : um_ok_key (ps_um st) (range_key (cp_tp p) (start_of p) (run_end p));
  mr_object : obj_records (ps_um st) (range_key (cp_tp p) (start_of p) (run_end p)) = Some rs;
  mr_consecutive : consecutive (cp_tp p) (start_of p) rs;
  mr_length : start_of p + Z.of_nat (length rs) = run_end p;
  mr_reads o : start_of p ≤ o < run_end p → resolve st (cp_tp p) o = rs !! Z.to_nat (o - start_of p);
}.

Lemma plan_ends st p : plan_current st p →
  ∃ first lst, head (cp_sources p) = Some first ∧ list.last (cp_sources p) = Some lst ∧
    cs_start first = start_of p ∧ cs_end lst = run_end p ∧ first ∈ cp_sources p ∧ lst ∈ cp_sources p.
Proof.
  intros [Htwo _ _]. unfold run_end. destruct (cp_sources p) as [|first l] eqn:El; [simpl in *; lia|].
  destruct (last (first :: l)) as [lst|] eqn:Elast; [|by apply last_None in Elast].
  exists first, lst. rewrite (chain_end_last _ _ lst Elast). split_and!; try done; [by left|].
  apply last_Some in Elast as [l' ->]. apply elem_of_app. right. by left.
Qed.

Lemma replace_keeps st p rs size idx' :
  merged_ready st p rs →
  replace_cold (cp_tp p) (start_of p) (run_end p) (range_key (cp_tp p) (start_of p) (run_end p)) size
    (ps_index st) = Some idx' →
  let st' := with_index (λ _, idx') st in
  keeps st st' p ∧ (∀ x, x ∈ cp_sources p → ¬ live_key st' (cs_key x)) ∧
  cold_of st' (cp_tp p) = <[start_of p := mkRange (run_end p) (range_key (cp_tp p) (start_of p) (run_end p)) size]>
                            (remove_range (start_of p) (run_end p) (cold_of st (cp_tp p))).
Proof.
  intros [Hok Hc Hp Hkey Hobj Hcons Hlen Hres] Hrep st'.
  destruct (plan_ends st p Hp) as (first & lst & _ & _ & Hs & He & Hin1 & Hin2).
  pose proof (pk_sources _ _ Hp) as Hsrc. pose proof (pk_chain _ _ Hp) as Hchain.
  destruct (chain_bounds _ _ _ _ _ Hok Hsrc Hchain Hin2) as [Hle _].
  assert (Hfirst : cold_of st (cp_tp p) !! start_of p = Some (mkRange (cs_end first) (cs_key first) (cs_size first))).
  { rewrite <- Hs. by apply Hsrc. }
  destruct (replace_store st (cp_tp p) (start_of p) (run_end p) _ lst _ size rs idx' Hok Hfirst (Hsrc _ Hin2)
              Hle He eq_refl Hkey Hobj Hcons Hlen Hres Hrep) as (Hok' & Hsr & Hother & Hcold).
  fold st' in Hok', Hsr, Hcold. split; [|split; [|exact Hcold]].
  - split; try done.
    + apply (cache_ok_intro st); [done|done|auto].
    + intros tp s r Hr Ho. split; [|done]. destruct (decide (tp = cp_tp p)) as [->|Hne].
      * destruct Ho as [?|Ho]; [done|]. rewrite Hcold, lookup_insert_ne, lookup_remove_range_out; [done|done|].
        intros <-. apply Ho. destruct (source_object st _ _ Hok (Hsrc _ Hin2)) as (? & _). lia.
      * simpl. by rewrite Hother.
  - intros x Hx (tp' & s' & r' & Hs' & Ek).
    destruct (source_object st _ _ Hok (Hsrc _ Hx)) as (Hxpos & _ & _ & Hxk & _).
    destruct (chain_bounds _ _ _ _ _ Hok Hsrc Hchain Hx) as [Hx1 Hx2]. fold (run_end p) in Hx2.
    pose proof Hok' as [_ Hparts']. pose proof Hok as [_ Hparts].
    destruct (po_cold _ _ _ (Hparts' tp') _ _ Hs') as [Hk _ [? ?] _].
    destruct (po_cold _ _ _ (Hparts (cp_tp p)) _ _ (Hsrc _ Hx)) as [_ _ [? ?] _].
    destruct (wf_cold _ (po_wf _ _ _ (Hparts' tp')) _ _ Hs') as [? _].
    pose proof Ek as Ek'. rewrite Hxk, Hk in Ek'. apply range_key_inj in Ek' as (<- & <- & _); try done; try lia.
    rewrite Hcold in Hs'. destruct (decide (cs_start x = start_of p)) as [E|E].
    + rewrite E, lookup_insert_eq in Hs'. injection Hs' as <-.
      by apply (merged_key_fresh st p _ _ _ Hok Hp (Hsrc _ Hx)).
    + rewrite lookup_insert_ne in Hs' by congruence.
      rewrite lookup_remove_range in Hs'. rewrite decide_True in Hs' by lia. done.
Qed.

Lemma plan_ok_keeps st st' p q :
  plan_ok st q → keeps st st' p → (∀ x, x ∈ cp_sources q → outside p (cp_tp q) (cs_start x)) → plan_ok st' q.
Proof.
  intros [[Htwo Hsrc Hchain] Hacc] [_ _ _ Ha Hout] Ho.
  assert (Hrec : sources_records (ps_um st') (cp_sources q) = sources_records (ps_um st) (cp_sources q)).
  { unfold sources_records. f_equal. apply Forall_mapM_ext, Forall_forall. intros x Hx. unfold obj_records.
    destruct (Hout _ _ _ (Hsrc x Hx) (Ho x Hx)) as [_ Hv]. simpl in Hv. by rewrite Hv. }
  split; [split; [done| |done]|].
  - intros x Hx. by destruct (Hout _ _ _ (Hsrc x Hx) (Ho x Hx)).
  - intros rs. rewrite Hrec. intros Hrs. by apply Ha, Hacc.
Qed.

(** Up to the manifest record: nothing of the index changes, and on success
    the merged object is in place. *)
Lemma upload_merged st p r u1 u2 rs :
  store_ok st → cache_ok st → plan_ok st p → um_all_same (ps_um st) u1 →
  sources_records (ps_um st) (cp_sources p) = Some rs →
  um_upload (mkSegment (start_of p) (run_end p) (Z.of_nat (length (serialize rs))) (serialize rs) (cp_tp p)) u1
    = (r, u2) →
  keeps st (with_um u2 st) p ∧
  ∀ k, r = Ok k → k = range_key (cp_tp p) (start_of p) (run_end p) ∧ um_ok_key u2 k ∧ obj_records u2 k = Some rs.
Proof using BincodeLaws0 UploadManagerLaws0.
  intros Hok Hc Hp (A1 & A2 & A3) Hrs Hup.
  apply um_upload_law in Hup as (B1 & B2 & B3 & B4); [|by apply A2, (pk_accepts _ _ Hp)]. split.
  - apply keeps_um; try done; [split|].
    + intros k. by rewrite B1, A1.
    + intros k Hk (tp & s & r' & Hs & ->). rewrite B3; [by apply A3|by apply A1|].
      by apply (merged_key_fresh st p tp s r' Hok (pk_current _ _ Hp)).
    + intros seg. by rewrite B2, A2.
  - intros k ->. destruct B4 as (-> & Hk & Hv). split_and!; [done|by apply B1|].
    unfold obj_records. rewrite Hv. apply deserialize_serialize.
Qed.

Lemma keeps_core st st' p :
  ps_index st' = ps_index st → ps_um st' = ps_um st → ps_cache st' = ps_cache st →
  store_ok st → cache_ok st → keeps st st' p.
Proof.
  intros Hi Hu Hc Hok Hcache. destruct (same_core st st') as (? & ? & ?); [done..|].
  split; try done; [by rewrite Hu|]. intros tp s r Hs _. by rewrite Hi, Hu.
Qed.

(** The sources of [p] are one range of the index, whose object holds their
    records. *)
Definition merged_in st st' (p : CompactionPlan) : Prop :=
  ∃ key size rs,
    cold_of st' (cp_tp p) = <[start_of p := mkRange (run_end p) key size]>
                              (remove_range (start_of p) (run_end p) (cold_of st (cp_tp p))) ∧
    sources_records (ps_um st) (cp_sources p) = Some rs ∧ obj_records (ps_um st') key = Some rs.

Lemma execute_plan_keeps st p r st' :
  store_ok st → cache_ok st → plan_ok st p → execute_plan crc32 p st = (r, st') →
  keeps st st' p ∧ (r = Ok tt → merged_in st st' p).
Proof using BincodeLaws0 UploadManagerLaws0.
  intros Hok Hc Hp. pose proof (pk_current _ _ Hp) as Hcur. unfold execute_plan.
  rewrite (proj2 (Z.ltb_ge _ _)) by (pose proof (pk_two _ _ Hcur); lia).
  destruct (plan_ends st p Hcur) as (first & lst & -> & -> & -> & -> & _).
  destruct (merge_sources _ _ _ _) as [r1 u1] eqn:E1.
  apply (merge_sources_spec st (cp_tp p)) in E1 as [Hu1 Hm]; [|done|apply Hcur|apply Hcur|by split_and!].
  assert (K1 : keeps st (with_um u1 st) p).
  { apply keeps_um; try done; [by apply um_all_same_same|apply Hu1]. }
  destruct r1 as [merge|e1]; cbn [sbind]; [|by intros [= <- <-]; split].
  destruct (Hm merge eq_refl) as (rs & -> & Hrs & Hcons & Hlen & Hres). fold (run_end p) in *.
  cbn [app]. rewrite Z.eqb_refl. cbn [negb]. change (ps_um (with_um u1 st)) with u1.
  destruct (um_upload _ u1) as [r2 u2] eqn:E2.
  destruct (upload_merged st p r2 u1 u2 rs Hok Hc Hp Hu1 Hrs E2) as [K2 Hk].
  change (with_um u2 (with_um u1 st)) with (with_um u2 st).
  destruct r2 as [key|e2]; cbn [sbind]; [|by intros [= <- <-]; split].
  destruct (Hk key eq_refl) as (-> & Hkey & Hobj).
  destruct (record_compaction_cold _ _ _ _) as [r3 st3] eqn:E3.
  destruct (record_compaction_frame _ _ _ _ _ E3) as (Hi3 & Hu3 & Hc3).
  assert (K3 : keeps st st3 p) by (eapply keeps_trans; [exact K2|by apply keeps_core; try apply K2]).
  destruct r3 as [[]|e3]; cbn [sbind]; [|by intros [= <- <-]; split].
  destruct (replace_cold _ _ _ _ _ (ps_index st3)) as [idx'|] eqn:E4; [|by intros [= <- <-]; split].
  intros [= <- <-].
  assert (Hp3 : plan_current st3 p).
  { destruct Hcur as [? Hsrc ?]. split; try done. unfold source_ok. by rewrite Hi3. }
  assert (Hr3 : merged_ready st3 p rs).
  { split; try apply K3; try done; rewrite ?Hu3; try done.
    intros o Ho. rewrite (kp_reads _ _ _ K3). by apply Hres. }
  destruct (replace_keeps st3 p rs _ idx' Hr3 E4) as (K4 & Hdead & Hcold).
  assert (Hdel : um_same (ps_um st3) (delete_sources (cs_key <$> cp_sources p) (ps_um st3))
                   (live_key (with_index (λ _, idx') st3))).
  { apply (gc_orphans_same (cs_key <$> cp_sources p)).
    intros k (x & -> & Hx)%list_elem_of_fmap. split; [|by apply Hdead].
    apply (source_object st3 (cp_tp p) x); [apply K3|by apply Hp3]. }
  split.
  - eapply keeps_trans; [exact K3|]. eapply keeps_trans; [exact K4|].
    apply keeps_um; [apply K4|apply K4|exact Hdel|].
    intros seg. apply delete_sources_accepts. intros k (x & -> & Hx)%list_elem_of_fmap.
    apply (source_object st3 (cp_tp p) x); [apply K3|by apply Hp3].
  - intros _. exists (range_key (cp_tp p) (start_of p) (run_end p)), (Z.of_nat (length (serialize rs))), rs.
    change (ps_index (with_um u2 st)) with (ps_index st) in Hi3.
    split_and!; [rewrite <- Hi3; exact Hcold|done|].
    unfold obj_records. cbn [ps_um with_um with_index]. rewrite (proj2 Hdel); [by apply Hr3|apply Hr3|].
    exists (cp_tp p), (start_of p). eexists. split; [rewrite Hcold; apply lookup_insert_eq|done].
Qed.

(** *** A whole cycle *)

Definition seg_before (a b : ColdSegment) : Prop := cs_end a ≤ cs_start b.

Lemma cold_segments_spec st tp :
  store_ok st →
  (∀ x, x ∈ get_cold_segments (ps_index st) tp → cs_tp x = tp ∧ source_ok st tp x) ∧
  StronglySorted seg_before (get_cold_segments (ps_index st) tp).
Proof.
  intros [Hwf _]. unfold get_cold_segments, source_ok, entries_of.
  destruct (pi_inner (ps_index st) !! tp) as [e|] eqn:E; cycle 1.
  { split; [by intros x ?%elem_of_nil|constructor]. }
  specialize (Hwf _ _ E). simpl. split.
  - intros x ([s r] & -> & Hin)%list_elem_of_fmap. rewrite btree_to_list_elem in Hin.
    split; [done|]. simpl. rewrite Hin. by destruct r.
  - assert (Hel : ∀ kv, kv ∈ btree_to_list (pe_cold e) → pe_cold e !! kv.1 = Some kv.2).
    { intros [k v] Hin. by apply btree_to_list_elem in Hin. }
    pose proof (btree_to_list_NoDup (pe_cold e)) as Hnd.
    induction (btree_to_list_sorted (pe_cold e)) as [|[s r] l Hl IH HF]; [constructor|].
    cbn [fmap list_fmap]. inversion Hnd as [|? ? Hnot Hnd']; subst. constructor.
    + apply IH; [intros kv ?; apply Hel; by right|done].
    + apply Forall_fmap, Forall_forall. intros [s' r'] Hin. unfold seg_before. simpl.
      rewrite Forall_forall in HF. specialize (HF _ Hin). unfold key_le in HF. simpl in HF.
      assert (s ≠ s') by (intros ->; apply Hnot, list_elem_of_fmap; by exists (s', r')).
      apply (wf_disjoint _ Hwf s r s' r'); [exact (Hel _ (list_elem_of_here _ _))| |lia].
      apply (Hel (s', r')). by right.
Qed.

Definition apart (p q : CompactionPlan) : Prop :=
  ∀ x, x ∈ cp_sources q → outside p (cp_tp q) (cs_start x).

Lemma execute_plans_keep plans st :
  store_ok st → cache_ok st → (∀ p, p ∈ plans → plan_ok st p) → StronglySorted apart plans →
  store_ok (execute_plans crc32 plans st) ∧ cache_ok (execute_plans crc32 plans st) ∧
  same_reads st (execute_plans crc32 plans st).
Proof using BincodeLaws0 UploadManagerLaws0.
  revert st. induction plans as [|p plans IH]; intros st Hok Hc Hp Hs; [done|].
  apply StronglySorted_cons in Hs as [HF Hs]. rewrite Forall_forall in HF.
  destruct (execute_plan crc32 p st) as [r st1] eqn:E.
  assert (execute_plans crc32 (p :: plans) st = execute_plans crc32 plans st1) as ->.
  { unfold execute_plans. simpl. by rewrite E. }
  destruct (execute_plan_keeps st p r st1 Hok Hc (Hp p (list_elem_of_here _ _)) E) as [K _].
  destruct (IH st1) as (? & ? & ?); [apply K|apply K| |done|].
  - intros q Hq. apply (plan_ok_keeps st st1 p); [apply Hp; by right|done|by apply HF].
  - split_and!; try done. eapply same_reads_trans; [apply K|done].
Qed.

(** What the planner returns on a sound store. *)
Lemma partition_plans_ok st tp config :
  store_ok st → 2 ≤ cc_max_sources config →
  (∀ x, x ∈ get_cold_segments (ps_index st) tp → 0 ≤ cs_size x) →
  run_size (get_cold_segments (ps_index st) tp) < u64_modulus →
  let plans := plan_partition_compaction tp (get_cold_segments (ps_index st) tp) config in
  (∀ p, p ∈ plans → cp_tp p = tp ∧ plan_current st p) ∧ StronglySorted apart plans.
Proof.
  intros Hok Hmax Hnn Hfit plans.
  destruct (cold_segments_spec st tp Hok) as [Hsrc Hsorted].
  destruct (plan_partition_spec tp config Hmax _ Hnn Hfit) as [Hb Hsub]. fold plans in Hb, Hsub.
  assert (Hcur : ∀ p, p ∈ plans → cp_tp p = tp ∧ plan_current st p).
  { intros p Hp. destruct (Hb p Hp) as [Htp Hrun Htwo _]. split; [done|]. split; [done| |apply Hrun].
    intros x Hx. rewrite Htp. apply Hsrc. eapply elem_of_sublist; [|exact Hsub].
    apply list_elem_of_join. exists (cp_sources p). split; [done|]. apply list_elem_of_fmap. by exists p. }
  split; [done|].
  apply (StronglySorted_sublist _ _ _ Hsub) in Hsorted. clear Hsub Hb.
  induction plans as [|p l IH]; [constructor|]. cbn in Hsorted. apply StronglySorted_app in Hsorted as (Hx & _ & Hl).
  constructor; [apply IH; try done; intros q Hq; apply Hcur; by right|].
  apply Forall_forall. intros q Hq x Hxq. right. destruct (Hcur p) as [Htp Hp]; [by left|].
  destruct (plan_ends st p Hp) as (_ & lst & _ & _ & _ & <- & _ & Hin).
  assert (seg_before lst x); [|unfold seg_before in *; lia].
  apply Hx; [done|]. apply list_elem_of_join. exists (cp_sources q). split; [done|].
  apply list_elem_of_fmap. by exists q.
Qed.

(** A successful compaction merges exactly the planned run.  The ranges
    of the run are one range of the index from the first start to the last
    end, every other range of the partition is untouched, and the merged
    object holds the concatenation of the source objects. *)
Theorem execute_plan_merges st p st' :
  store_ok st → cache_ok st → plan_ok st p → execute_plan crc32 p st = (Ok tt, st') →
  ∃ key size rs,
    cold_of st' (cp_tp p) = <[start_of p := mkRange (run_end p) key size]>
                              (remove_range (start_of p) (run_end p) (cold_of st (cp_tp p))) ∧
    sources_records (ps_um st) (cp_sources p) = Some rs ∧ obj_records (ps_um st') key = Some rs.
Proof using BincodeLaws0 UploadManagerLaws0.
  intros Hok Hc Hp E. by destruct (execute_plan_keeps st p _ st' Hok Hc Hp E) as [_ Hm]; apply Hm.
Qed.

Lemma run_compaction_cycle_keep order config st r st' :
  store_ok st → cache_ok st → (∀ l, order l ≡ₚ l) → 2 ≤ cc_max_sources config →
  (∀ tp x, x ∈ get_cold_segments (ps_index st) tp → 0 ≤ cs_size x) →
  (∀ tp, run_size (get_cold_segments (ps_index st) tp) < u64_modulus) →
  (∀ p rs, p ∈ plan_compaction order (ps_index st) config →
     sources_records (ps_um st) (cp_sources p) = Some rs →
     um_accepts (ps_um st) (mkSegment (start_of p) (run_end p) (Z.of_nat (length (serialize rs)))
                              (serialize rs) (cp_tp p))) →
  run_compaction_cycle crc32 order config st = (r, st') →
  r = Ok tt ∧ store_ok st' ∧ cache_ok st' ∧ ∀ tp o, resolve st' tp o = resolve st tp o.
Proof using BincodeLaws0 UploadManagerLaws0.
  intros Hok Hc Horder Hmax Hnn Hfit Hacc. unfold run_compaction_cycle.
  destruct (cc_enabled config); cbn [negb]; [|by intros [= <- <-]]. intros [= <- <-]. split; [done|].
  apply execute_plans_keep; [done|done|..].
  - intros p Hp. split; [|intros rs; by apply Hacc].
    unfold plan_compaction in Hp. apply list_elem_of_bind in Hp as (tp & Hp & _).
    by destruct (partition_plans_ok st tp config Hok Hmax (Hnn tp) (Hfit tp)) as [Hcur _]; apply Hcur.
  - unfold plan_compaction. clear Hacc.
    assert (Hnd : NoDup (order (get_partitions (ps_index st)))).
    { rewrite Horder. apply NoDup_fst_map_to_list. }
    induction Hnd as [|tp l Hnot Hnd IH]; [constructor|]. cbn. apply StronglySorted_app. split_and!; [|..].
    + intros p q Hp (tp' & Hq & Hin)%list_elem_of_bind x Hx. left.
      destruct (partition_plans_ok st tp config Hok Hmax (Hnn tp) (Hfit tp)) as [Hcur _].
      destruct (partition_plans_ok st tp' config Hok Hmax (Hnn tp') (Hfit tp')) as [Hcur' _].
      destruct (Hcur _ Hp) as [-> _], (Hcur' _ Hq) as [-> _]. by intros ->.
    + apply (partition_plans_ok st tp config Hok Hmax (Hnn tp) (Hfit tp)).
    + exact IH.
Qed.

(** C13: compaction is transparent.  With at least two sources allowed per
    plan, segment sizes whose sums fit 64 bits, and merged objects that the
    upload path accepts (below the multipart threshold; larger ones are not
    readable afterwards, see [ObjectStorage.multipart_upload_not_readable]): a
    cycle of the compactor succeeds, and whatever it does (plans that fail at
    any step included), every offset of every partition is served as before,
    from the cache too, although the source objects are deleted. *)
Theorem run_compaction_cycle_transparent order config st r st' :
  store_ok st → cache_ok st → (∀ l, order l ≡ₚ l) → 2 ≤ cc_max_sources config →
  (∀ tp x, x ∈ get_cold_segments (ps_index st) tp → 0 ≤ cs_size x) →
  (∀ tp, run_size (get_cold_segments (ps_index st) tp) < u64_modulus) →
  (∀ p rs, p ∈ plan_compaction order (ps_index st) config →
     sources_records (ps_um st) (cp_sources p) = Some rs →
     um_accepts (ps_um st) (mkSegment (start_of p) (run_end p) (Z.of_nat (length (serialize rs)))
                              (serialize rs) (cp_tp p))) →
  run_compaction_cycle crc32 order config st = (r, st') →
  r = Ok tt ∧ store_ok st' ∧ cache_ok st' ∧ ∀ tp o, resolve st' tp o = resolve st tp o.
Proof using BincodeLaws0 UploadManagerLaws0. apply run_compaction_cycle_keep. Qed.
End execution.

(** The planner only merges what may be merged.  Every plan has at least
    two and at most [max_sources] sources, all of them small segments of the
    partition that follow each other without a gap; the merged size is within
    the target unless the plan is the minimal pair; and no segment is in two
    plans. *)
Theorem plan_partition_compaction_sound tp segments config :
  2 ≤ cc_max_sources config → (∀ x, x ∈ segments → 0 ≤ cs_size x) → run_size segments < u64_modulus →
  let plans := plan_partition_compaction tp segments config in
  (∀ p, p ∈ plans →
     cp_tp p = tp ∧ 2 ≤ Z.of_nat (length (cp_sources p)) ≤ cc_max_sources config ∧
     chain (run_start (cp_sources p)) (cp_sources p) ∧
     (∀ x, x ∈ cp_sources p → cs_size x < cc_small_threshold_bytes config) ∧
     (run_size (cp_sources p) ≤ cc_target_bytes config ∨ length (cp_sources p) = 2%nat)) ∧
  mjoin (cp_sources <$> plans) `sublist_of` segments.
Proof.
  intros Hmax Hnn Hfit plans. destruct (plan_partition_spec tp config Hmax segments Hnn Hfit) as [Hb Hsub].
  split; [|exact Hsub]. intros p Hp. destruct (Hb p Hp) as [? [? ? Hsz] ? ?]. split_and!; try done; [lia|].
  destruct Hsz; [by left|right; lia].
Qed.

(** ** Two tiered segments *)

Module CompactionDemo.
Import Mem StoreDemo.
#[local] Existing Instances list_codec list_laws manifest_codec um um_laws lru lru_laws.

Definition a0 : WalRecord := Demo.wal Demo.tp0 0 Demo.rec0.
Definition a1 : WalRecord := Demo.wal Demo.tp0 1 Demo.rec1.
Definition k0 : string := range_key Demo.tp0 0 1.
Definition k1 : string := range_key Demo.tp0 1 2.
Definition seg_of (s e : Offset) (rs : list WalRecord) : WalSegment :=
  mkSegment s e (Z.of_nat (length (serialize rs))) (serialize rs) Demo.tp0.
Definition objects : UploadManagerImpl (gmap string (list Z)) :=
  (um_upload (seg_of 1 2 [a1]) (um_upload (seg_of 0 1 [a0]) (manager 1000000)).2).2.
Definition index : PartitionIndex :=
  insert_cold Demo.tp0 1 2 k1 10 (insert_cold Demo.tp0 0 1 k0 10 PartitionIndex.new).
Definition st : PS := mkPS (wal_new config 7 ∅ []).2 index objects (lru_new 16000) 10000 [] None [].
Definition conf : CompactionConfig := mkCompactionConfig true 100 1000 10.
Definition plan : CompactionPlan :=
  mkPlan Demo.tp0 [mkCold Demo.tp0 0 1 k0 10; mkCold Demo.tp0 1 2 k1 10].

Lemma planned : plan_compaction id index conf = [plan].
Proof. vm_compute. reflexivity. Qed.

Lemma index_ok : index_wf index.
Proof.
  assert (H0 : index_wf (insert_cold Demo.tp0 0 1 k0 10 PartitionIndex.new)).
  { apply (run_op_wf (OpInsertCold Demo.tp0 0 1 k0 10) PartitionIndex.new); [|done|apply new_wf].
    split_and!; [lia|lia|vm_compute; reflexivity|]. intros s r. vm_compute. discriminate. }
  apply (run_op_wf (OpInsertCold Demo.tp0 1 2 k1 10) (insert_cold Demo.tp0 0 1 k0 10 PartitionIndex.new));
    [|done|done].
  split_and!; [lia|lia|vm_compute; reflexivity|].
  intros s r. rewrite cold_insert_cold, decide_True by done. rewrite lookup_insert_Some.
  intros [[<- <-]|[_ Hs]]; [right; left; simpl; lia|]. vm_compute in Hs. discriminate Hs.
Qed.

Lemma index_cold tp s r :
  pe_cold (entries_of index tp) !! s = Some r →
  tp = Demo.tp0 ∧ (s = 0 ∧ r = mkRange 1 k0 10 ∨ s = 1 ∧ r = mkRange 2 k1 10).
Proof.
  unfold index. rewrite !cold_insert_cold. destruct (decide (Demo.tp0 = tp)) as [<-|].
  - rewrite !lookup_insert_Some. intros [[<- <-]|[_ [[<- <-]|[_ Hs]]]]; [by auto..|].
    unfold entries_of in Hs. simpl in Hs. by rewrite !lookup_empty in Hs.
  - unfold entries_of. simpl. rewrite lookup_empty. simpl. by rewrite lookup_empty.
Qed.

Lemma index_hot tp : pe_hot (entries_of index tp) = ∅.
Proof.
  unfold index, insert_cold. rewrite !entries_of_set.
  repeat case_decide; subst; simpl; rewrite ?entries_of_set; repeat case_decide; subst; done.
Qed.

Lemma objects_hold s (r : ObjectRange) : s = 0 ∧ r = mkRange 1 k0 10 ∨ s = 1 ∧ r = mkRange 2 k1 10 →
  cold_object_ok objects Demo.tp0 s r.
Proof.
  intros [[-> ->]|[-> ->]]; split; try done;
    [exists [a0]|exists [a1]]; (split_and!; [vm_compute; reflexivity| |done]);
    intros [|i] x; by try intros [= <-].
Qed.

Lemma st_ok : store_ok st.
Proof.
  split; [apply index_ok|]. intros tp. split.
  - apply entries_of_wf, index_ok.
  - intros s r [-> Hs]%index_cold. by apply objects_hold.
  - intros o h. simpl. by rewrite index_hot, lookup_empty.
  - intros o h s r rs. simpl. by rewrite index_hot, lookup_empty.
Qed.

Lemma st_cache_ok : cache_ok st.
Proof.
  intros tp o b rs _ _ Hb. change (ps_cache st) with (lru_new 16000) in Hb. by rewrite lru_new_view in Hb.
Qed.

Lemma merged_accepted rs :
  sources_records (ps_um st) (cp_sources plan) = Some rs →
  um_accepts (ps_um st) (mkSegment (run_start (cp_sources plan)) (run_end plan)
    (Z.of_nat (length (serialize rs))) (serialize rs) (cp_tp plan)).
Proof.
  assert (E : sources_records (ps_um st) (cp_sources plan) = Some [a0; a1]) by (vm_compute; reflexivity).
  rewrite E. intros [= <-]. split; [reflexivity|]. vm_compute. discriminate.
Qed.

Lemma plan_is_ok : plan_ok st plan.
Proof.
  split; [split|exact merged_accepted].
  - apply le_n.
  - intros x. unfold plan. cbn [cp_sources cp_tp]. rewrite !elem_of_cons.
    intros [->|[->|?%elem_of_nil]]; [vm_compute; reflexivity..|done].
  - split; [reflexivity|]. split; [reflexivity|exact I].
Qed.

Lemma execute_plan_merges_witness :
  ∃ key size, pe_cold (entries_of (ps_index (execute_plan crc plan st).2) Demo.tp0)
              = <[0 := mkRange 2 key size]> (remove_range 0 2 (pe_cold (entries_of index Demo.tp0))).
Proof.
  destruct (execute_plan crc plan st) as [r st'] eqn:E.
  assert (Hr : r = Ok tt) by (change r with (r, st').1; rewrite <- E; vm_compute; reflexivity). subst r.
  destruct (execute_plan_merges crc st plan st' st_ok st_cache_ok plan_is_ok E) as (key & size & rs & Hc & _).
  exists key, size. exact Hc.
Defined.

Lemma run_compaction_cycle_transparent_witness :
  (run_compaction_cycle crc id conf st).1 = Ok tt ∧
  get_cold_segments (ps_index (run_compaction_cycle crc id conf st).2) Demo.tp0
    = [mkCold Demo.tp0 0 2 (range_key Demo.tp0 0 2) (Z.of_nat (length (serialize [a0; a1])))] ∧
  resolve (run_compaction_cycle crc id conf st).2 Demo.tp0 1 = resolve st Demo.tp0 1.
Proof.
  split; [vm_compute; reflexivity|]. split; [vm_compute; reflexivity|].
  destruct (run_compaction_cycle crc id conf st) as [r st'] eqn:E.
  assert (Hseg : ∀ tp x, x ∈ get_cold_segments (ps_index st) tp → cs_size x = 10).
  { intros tp x Hx. apply cold_segments_spec in Hx as [_ Hx]; [|exact st_ok].
    apply index_cold in Hx as [_ [[_ [= _ _ ->]]|[_ [= _ _ ->]]]]; done. }
  destruct (run_compaction_cycle_transparent crc id conf st r st' st_ok st_cache_ok) as (_ & _ & _ & Hr).
  - intros l. reflexivity.
  - vm_compute. discriminate.
  - intros tp x Hx. by rewrite (Hseg tp x Hx).
  - intros tp. destruct (decide (tp = Demo.tp0)) as [->|Hne]; [vm_compute; reflexivity|].
    destruct (get_cold_segments (ps_index st) tp) as [|x l] eqn:El; [vm_compute; reflexivity|].
    exfalso. assert (Hx : x ∈ get_cold_segments (ps_index st) tp) by (rewrite El; by left).
    apply cold_segments_spec in Hx as [_ Hx]; [|exact st_ok].
    apply index_cold in Hx as [Htp _]. exact (Hne Htp).
  - intros p rs. change (ps_index st) with index. rewrite planned.
    intros ->%list_elem_of_singleton. exact (merged_accepted rs).
  - exact E.
  - exact (Hr Demo.tp0 1).
Defined.
End CompactionDemo.

Lemma plan_partition_compaction_sound_witness :
  plan_partition_compaction Demo.tp0
    [mkCold Demo.tp0 0 1 "a" 10; mkCold Demo.tp0 1 2 "b" 10; mkCold Demo.tp0 3 4 "c" 10] (mkCompactionConfig true 100 1000 10)
  = [mkPlan Demo.tp0 [mkCold Demo.tp0 0 1 "a" 10; mkCold Demo.tp0 1 2 "b" 10]] ∧
  mjoin (cp_sources <$> plan_partition_compaction Demo.tp0
    [mkCold Demo.tp0 0 1 "a" 10; mkCold Demo.tp0 1 2 "b" 10; mkCold Demo.tp0 3 4 "c" 10] (mkCompactionConfig true 100 1000 10))
  `sublist_of` [mkCold Demo.tp0 0 1 "a" 10; mkCold Demo.tp0 1 2 "b" 10; mkCold Demo.tp0 3 4 "c" 10].
Proof.
  split; [vm_compute; reflexivity|].
  refine (proj2 (plan_partition_compaction_sound Demo.tp0 _ (mkCompactionConfig true 100 1000 10) _ _ _)).
  - simpl. lia.
  - intros x. rewrite !elem_of_cons. intros [->|[->|[->|?%elem_of_nil]]]; simpl; lia || done.
  - vm_compute. reflexivity.
Defined.
