(* ===== verification/Follower.v ===== *)
(** * The follower side of replication

    Model of [src/src/replication/follower.rs] (the handler of one partition)
    and of the replication service of [src/src/network/grpc_server.rs] (the
    table of handlers and the RPCs on it, with the leadership RPCs' epoch
    fencing).  Requests and responses are the internal ones; GrpcTransport has
    the conversions around them.  Times ([now]) are arguments. *)

From S2P Require Import Prelude Types PartitionIndex ColdIndex SegmentedWal LruCache ObjectStorage.
From S2P Require Import Reservation PartitionStore.
Local Open Scope Z_scope.

(** ** [FollowerReplicationHandler] *)

Record FollowerReplicationHandler := mkHandler {
  fh_leader_epoch : Z;
  fh_current_leader : option BrokerId;
  fh_topic_partition : TopicPartition;
  fh_broker_id : BrokerId;
}.

Definition STALE_LEADER_EPOCH : Z := 1001.
Definition WRONG_PARTITION : Z := 1002.
Definition WAL_APPEND_FAILED : Z := 1003.
Definition INTERNAL_ERROR : Z := 1004.
Definition PARTITION_ALREADY_ASSIGNED : Z := 1005.
Definition PARTITION_NOT_FOUND : Z := 1006.

(** [update_leadership] *)
Definition update_leadership (new_epoch : Z) (new_leader : BrokerId) (h : FollowerReplicationHandler)
  : FollowerReplicationHandler :=
  mkHandler new_epoch (Some new_leader) (fh_topic_partition h) (fh_broker_id h).

Section handler.
Context {L : Type} `{!RecordLog L}.

(** The [for record in request.records] loop: whether every append
    succeeded. *)
Fixpoint append_all (records : list WalRecord) (log : L) : bool * L :=
  match records with
  | [] => (true, log)
  | record :: records =>
      match rl_append record log with
      | (Ok _, log) => append_all records log
      | (Err _, log) => (false, log)
      end
  end.

Definition handle_replicate_data (now : Z) (request : ReplicateDataRequest)
    (h : FollowerReplicationHandler) (log : L)
  : ReplicateDataResponse * FollowerReplicationHandler * L :=
  let current_epoch := fh_leader_epoch h in
  if rdr_leader_epoch request <? current_epoch then
    (mkReplicateDataResponse false STALE_LEADER_EPOCH None, h, log)
  else
    let h := if current_epoch <? rdr_leader_epoch request
             then update_leadership (rdr_leader_epoch request) (rdr_leader_id request) h else h in
    if bool_decide (rdr_topic_partition request ≠ fh_topic_partition h) then
      (mkReplicateDataResponse false WRONG_PARTITION None, h, log)
    else
      let '(ok, log) := append_all (rdr_records request) log in
      if negb ok then (mkReplicateDataResponse false WAL_APPEND_FAILED None, h, log)
      else
        let current_offset := rl_next_offset log (fh_topic_partition h) in
        (mkReplicateDataResponse true 0
           (Some (mkFollowerState (fh_broker_id h) current_offset now 0)), h, log).

Definition handle_heartbeat (now : Z) (request : HeartbeatRequest)
    (h : FollowerReplicationHandler) (log : L) : Result FollowerState * FollowerReplicationHandler :=
  let current_epoch := fh_leader_epoch h in
  if hb_leader_epoch request <? current_epoch then
    (Err (StaleLeaderEpoch (hb_leader_epoch request) current_epoch), h)
  else
    let h := if current_epoch <? hb_leader_epoch request
             then update_leadership (hb_leader_epoch request) (hb_leader_id request) h else h in
    if bool_decide (hb_topic_partition request ≠ fh_topic_partition h) then (Err InvalidOperation, h)
    else
      let current_offset := rl_next_offset log (fh_topic_partition h) in
      (Ok (mkFollowerState (fh_broker_id h) current_offset now
             (saturating_sub (hb_high_watermark request) current_offset)), h).
End handler.

(** ** [BrokerReplicationServiceImpl] *)

Inductive FenceResult := Proceed | FencedBy (current_epoch : Z).

Record BrokerService (L R : Type) := mkService {
  bs_follower_handlers : gmap TopicPartition FollowerReplicationHandler;
  bs_broker_id : BrokerId;
  bs_log : L;
  bs_fencing : option (Fencing R);
}.
Arguments mkService {L R}. Arguments bs_follower_handlers {L R}. Arguments bs_broker_id {L R}.
Arguments bs_log {L R}. Arguments bs_fencing {L R}.

Section service.
Context {L R : Type} `{!RecordLog L, !ObjectStorage R, !Bincode Reservation}.
Abbreviation Service := (BrokerService L R).
Local Open Scope rust_scope.

Definition with_handlers (f : gmap TopicPartition FollowerReplicationHandler →
    gmap TopicPartition FollowerReplicationHandler) (s : Service) : Service :=
  mkService (f (bs_follower_handlers s)) (bs_broker_id s) (bs_log s) (bs_fencing s).
Definition register_follower_handler (tp : TopicPartition) (h : FollowerReplicationHandler)
  : Service → Service := with_handlers (insert tp h).
Definition remove_follower_handler (tp : TopicPartition) : Service → Service :=
  with_handlers (delete tp).
Definition get_follower_handler (tp : TopicPartition) (s : Service)
  : Result FollowerReplicationHandler := ok_or (bs_follower_handlers s !! tp) NotFound.

(** [reserve_leadership]; the reservation's [acquire] is the model of
    [Reservation], run without interruption. *)
Definition reserve_leadership (tp : TopicPartition) (leader_id : BrokerId) (epoch : Z) (s : Service)
  : Result FenceResult * Service :=
  if bool_decide (leader_id ≠ bs_broker_id s) then (Ok Proceed, s) else
  match bs_fencing s with
  | None => (Ok Proceed, s)
  | Some f =>
      let '(pc, r) := acquire_reservation tp (bs_broker_id s) epoch (fe_reservations f) in
      let f := mkFencing (fe_node_id f) (fe_epochs f) r in
      let with_f f := mkService (bs_follower_handlers s) (bs_broker_id s) (bs_log s) (Some f) in
      match pc with
      | Done (Ok Owned) => (Ok Proceed, with_f (leadership_set tp epoch true f))
      | Done (Ok (Fenced e)) => (Ok (FencedBy e), with_f f)
      | Done (Err e) => (Err e, with_f f)
      | _ => (Err Blocked, with_f f)
      end
  end.

Definition replicate_data (now : Z) (request : ReplicateDataRequest) (s : Service)
  : Result ReplicateDataResponse * Service :=
  let! (h, s) := (get_follower_handler (rdr_topic_partition request) s, s) in
  let '(response, h, log) := handle_replicate_data now request h (bs_log s) in
  (Ok response, mkService (<[rdr_topic_partition request := h]> (bs_follower_handlers s))
                  (bs_broker_id s) log (bs_fencing s)).

Definition send_heartbeat (now : Z) (request : HeartbeatRequest) (s : Service)
  : Result HeartbeatResponse * Service :=
  let! (h, s) := (get_follower_handler (hb_topic_partition request) s, s) in
  let '(r, h) := handle_heartbeat now request h (bs_log s) in
  let response := match r with
                  | Ok state => mkHeartbeatResponse true 0 (Some state)
                  | Err (StaleLeaderEpoch _ _) => mkHeartbeatResponse false STALE_LEADER_EPOCH None
                  | Err _ => mkHeartbeatResponse false INTERNAL_ERROR None
                  end in
  (Ok response, register_follower_handler (hb_topic_partition request) h s).

Definition transfer_leadership (request : TransferLeadershipRequest) (s : Service)
  : Result TransferLeadershipResponse * Service :=
  let tp := tlr_topic_partition request in
  let! (h, s) := (get_follower_handler tp s, s) in
  let current_epoch := fh_leader_epoch h in
  if tlr_current_leader_epoch request <? current_epoch then
    (Ok (mkTransferLeadershipResponse false STALE_LEADER_EPOCH None), s)
  else
    let new_epoch := u64_add current_epoch 1 in
    let! (fence, s) := reserve_leadership tp (tlr_new_leader_id request) new_epoch s in
    match fence with
    | FencedBy _ => (Ok (mkTransferLeadershipResponse false STALE_LEADER_EPOCH None), s)
    | Proceed =>
        (Ok (mkTransferLeadershipResponse true 0 (Some new_epoch)),
         register_follower_handler tp (update_leadership new_epoch (tlr_new_leader_id request) h) s)
    end.

Definition assign_partition (request : AssignPartitionRequest) (s : Service)
  : Result PartitionResponse * Service :=
  let tp := apr_topic_partition request in
  if bool_decide (is_Some (bs_follower_handlers s !! tp)) then
    (Ok (mkPartitionResponse false PARTITION_ALREADY_ASSIGNED), s)
  else
    let! (fence, s) := reserve_leadership tp (apr_leader_id request) (apr_leader_epoch request) s in
    match fence with
    | FencedBy _ => (Ok (mkPartitionResponse false STALE_LEADER_EPOCH), s)
    | Proceed => (Ok (mkPartitionResponse true 0), s)
    end.

Definition remove_partition (tp : TopicPartition) (s : Service) : Result PartitionResponse * Service :=
  match bs_follower_handlers s !! tp with
  | None => (Ok (mkPartitionResponse false PARTITION_NOT_FOUND), s)
  | Some _ => (Ok (mkPartitionResponse true 0), remove_follower_handler tp s)
  end.
End service.

(** ** Epochs only grow *)

Section epochs.
Context {L R : Type} `{!RecordLog L, !ObjectStorage R, !Bincode Reservation}.
Abbreviation Service := (BrokerService L R).
Implicit Types (s : Service) (tp : TopicPartition).

Inductive ServiceOp :=
  | OpReplicate (now : Z) (request : ReplicateDataRequest)
  | OpHeartbeat (now : Z) (request : HeartbeatRequest)
  | OpTransfer (request : TransferLeadershipRequest)
  | OpAssign (request : AssignPartitionRequest)
  | OpRemove (tp : TopicPartition).

Definition run_service_op (op : ServiceOp) s : Service :=
  match op with
  | OpReplicate now request => (replicate_data now request s).2
  | OpHeartbeat now request => (send_heartbeat now request s).2
  | OpTransfer request => (transfer_leadership request s).2
  | OpAssign request => (assign_partition request s).2
  | OpRemove tp => (remove_partition tp s).2
  end.
Definition run_service_ops (ops : list ServiceOp) s : Service := foldl (λ s op, run_service_op op s) s ops.

(** The epoch a request carries. *)
Definition op_epoch (op : ServiceOp) : Z :=
  match op with
  | OpReplicate _ request => rdr_leader_epoch request
  | OpHeartbeat _ request => hb_leader_epoch request
  | _ => 0
  end.

Definition epoch_of s tp : option Z := fh_leader_epoch <$> bs_follower_handlers s !! tp.

Lemma handle_replicate_epoch now request h (log : L) :
  let '(_, h', _) := handle_replicate_data now request h log in
  fh_leader_epoch h' = Z.max (fh_leader_epoch h) (rdr_leader_epoch request).
Proof.
  unfold handle_replicate_data. case_cond; [lia|]. case_cond; simpl.
  - case_bool_decide; simpl; [lia|]. destruct (append_all _ _) as [[] ?]; simpl; lia.
  - case_bool_decide; simpl; [lia|]. destruct (append_all _ _) as [[] ?]; simpl; lia.
Qed.

Lemma handle_heartbeat_epoch now request h (log : L) :
  fh_leader_epoch (handle_heartbeat now request h log).2 = Z.max (fh_leader_epoch h) (hb_leader_epoch request).
Proof.
  unfold handle_heartbeat. case_cond; simpl; [lia|]. case_cond; simpl; case_bool_decide; simpl; lia.
Qed.

Lemma reserve_leadership_handlers tp leader epoch s r s' :
  reserve_leadership tp leader epoch s = (r, s') →
  bs_follower_handlers s' = bs_follower_handlers s ∧ bs_log s' = bs_log s ∧ bs_broker_id s' = bs_broker_id s.
Proof.
  unfold reserve_leadership. case_bool_decide; [by intros [= <- <-]|].
  destruct (bs_fencing s) as [f|]; [|by intros [= <- <-]].
  destruct (acquire_reservation _ _ _ _) as [pc rs].
  destruct pc as [| | | |[[]|]]; by intros [= <- <-].
Qed.

(** One request: the epoch of a partition that stays assigned does not
    decrease, and grows to at most the request's epoch or by one. *)
Lemma service_op_epoch op s tp e M :
  epoch_of s tp = Some e → op ≠ OpRemove tp → 0 ≤ e ≤ M → M < u64_MAX → op_epoch op ≤ M →
  ∃ e', epoch_of (run_service_op op s) tp = Some e' ∧ e ≤ e' ≤ M + 1.
Proof.
  intros He Hop Hle HM HopM. unfold epoch_of in *.
  destruct (bs_follower_handlers s !! tp) as [h|] eqn:Eh; [|done]. injection He as <-.
  assert (Hother : ∃ e', fh_leader_epoch <$> bs_follower_handlers s !! tp = Some e' ∧
            fh_leader_epoch h ≤ e' ≤ M + 1) by (rewrite Eh; eexists; split; [done|lia]).
  assert (Hins : ∀ (hs : gmap TopicPartition FollowerReplicationHandler) tp' h', hs = bs_follower_handlers s →
            (tp = tp' → fh_leader_epoch h ≤ fh_leader_epoch h' ≤ M + 1) →
            ∃ e', fh_leader_epoch <$> <[tp' := h']> hs !! tp = Some e' ∧ fh_leader_epoch h ≤ e' ≤ M + 1).
  { intros hs tp' h' -> Hh'. destruct (decide (tp = tp')) as [->|Hne].
    - rewrite lookup_insert_eq. eexists. split; [done|by apply Hh'].
    - by rewrite lookup_insert_ne. }
  destruct op as [now req|now req|req|req|tp']; simpl in *.
  - unfold replicate_data, get_follower_handler.
    destruct (bs_follower_handlers s !! rdr_topic_partition req) as [h1|] eqn:E1; simpl; [|exact Hother].
    pose proof (handle_replicate_epoch now req h1 (bs_log s)) as Hm.
    destruct (handle_replicate_data now req h1 (bs_log s)) as [[resp h'] log']. simpl.
    apply Hins; [done|]. intros ->. simplify_eq. lia.
  - unfold send_heartbeat, get_follower_handler.
    destruct (bs_follower_handlers s !! hb_topic_partition req) as [h1|] eqn:E1; simpl; [|exact Hother].
    pose proof (handle_heartbeat_epoch now req h1 (bs_log s)) as Hm.
    destruct (handle_heartbeat now req h1 (bs_log s)) as [resp h']. simpl in *.
    apply Hins; [done|]. intros ->. simplify_eq. lia.
  - unfold transfer_leadership, get_follower_handler.
    destruct (bs_follower_handlers s !! tlr_topic_partition req) as [h1|] eqn:E1; simpl; [|exact Hother].
    case_cond; simpl; [exact Hother|].
    destruct (reserve_leadership _ _ _ s) as [r s1] eqn:Er.
    apply reserve_leadership_handlers in Er as (Hh & _ & _).
    destruct r as [[|]|]; simpl; [|rewrite Hh; exact Hother..].
    apply Hins; [done|]. intros ->. simplify_eq. simpl. unfold u64_MAX in *. rewrite u64_add_small by lia. lia.
  - unfold assign_partition. case_bool_decide; [exact Hother|].
    destruct (reserve_leadership _ _ _ s) as [r s1] eqn:Er.
    apply reserve_leadership_handlers in Er as (Hh & _ & _).
    destruct r as [[|]|]; simpl; rewrite Hh; exact Hother.
  - unfold remove_partition. destruct (bs_follower_handlers s !! tp') as [h1|] eqn:E1; [|exact Hother].
    simpl. rewrite lookup_delete_ne by congruence. exact Hother.
Qed.

Lemma service_ops_epoch ops s tp e M :
  epoch_of s tp = Some e → OpRemove tp ∉ ops → 0 ≤ e ≤ M → M + Z.of_nat (length ops) < u64_MAX →
  (∀ op, op ∈ ops → op_epoch op ≤ M) →
  ∃ e', epoch_of (run_service_ops ops s) tp = Some e' ∧ e ≤ e'.
Proof.
  revert s e M. induction ops as [|op ops IH]; intros s e M He Hop Hle HM HopM; [by exists e|].
  apply not_elem_of_cons in Hop as [Hne Hop]. simpl length in HM.
  destruct (service_op_epoch op s tp e M) as (e1 & He1 & ?); [done|congruence|done|lia|apply HopM; by left|].
  destruct (IH (run_service_op op s) e1 (M + 1)) as (e2 & He2 & ?); [done|done|lia|lia| |].
  - intros op' Hin. assert (op_epoch op' ≤ M) by (apply HopM; by right). lia.
  - exists e2. split; [exact He2|lia].
Qed.

End epochs.

(** ** Taking leadership *)

Section leadership.
Context {L R : Type} `{!RecordLog L, !ObjectStorage R, !ObjectStorageLaws R, !VersionedLaws R}.
Context `{!Bincode Reservation, !BincodeLaws Reservation}.
Abbreviation Service := (BrokerService L R).
Implicit Types (s : Service) (tp : TopicPartition).

(** Leadership is taken only with the reservation.  When a broker with
    fencing accepts a transfer of leadership to itself, it has published the
    new epoch to the tiering fence and holds the reservation for it in
    object storage: its own fence check does not fail, and the check of any
    other broker, or for any older epoch, does not pass. *)
Theorem transfer_takes_reservation req s resp s' f :
  os_ok_key (reservation_key (tlr_topic_partition req)) = true →
  bs_fencing s = Some f → tlr_new_leader_id req = bs_broker_id s →
  transfer_leadership req s = (Ok resp, s') → tlp_success resp = true →
  ∃ f' h', bs_fencing s' = Some f' ∧
    bs_follower_handlers s' !! tlr_topic_partition req = Some h' ∧
    fh_current_leader h' = Some (bs_broker_id s) ∧
    current_epoch f' (tlr_topic_partition req) = Some (fh_leader_epoch h') ∧
    (∀ r, verify (tlr_topic_partition req) (bs_broker_id s) (fh_leader_epoch h') (fe_reservations f') ≠ (Ok false, r)) ∧
    (∀ node epoch r, verify (tlr_topic_partition req) node epoch (fe_reservations f') = (Ok true, r) →
       node = bs_broker_id s ∧ epoch = fh_leader_epoch h').
Proof using BincodeLaws0 VersionedLaws0.
  intros Hok Hf Hself. unfold transfer_leadership, get_follower_handler.
  destruct (bs_follower_handlers s !! _) as [h|] eqn:Eh; cbn [ok_or sbind]; [|done].
  case_cond; [by intros [= <- <-]|]. unfold reserve_leadership. rewrite Hself, bool_decide_eq_false_2 by tauto.
  rewrite Hf. destruct (acquire_reservation _ _ _ _) as [pc r] eqn:Ea.
  destruct pc as [| | | |[[|]|]]; cbn [sbind]; try done; [|by intros [= <- <-]].
  intros [= <- <-] _. apply acquire_owned in Ea; [|done].
  eexists _, _. split; [done|]. simpl. split; [apply lookup_insert_eq|]. split_and!.
  - done.
  - unfold current_epoch. simpl. by rewrite lookup_insert_eq.
  - intros r'. by apply verify_not_false.
  - intros node epoch r' Hv. by eapply verify_holder in Hv.
Qed.
End leadership.

(** ** The epoch check is not atomic

    [handle_replicate_data] loads the epoch and stores a larger one in two
    separate atomic accesses; requests run on several threads.  [RacePc] is a
    request between the two. *)

Inductive RacePc := BeforeLoad (epoch : Z) | Loaded (epoch current : Z) | Stored.

Definition race_step (epoch : Z) (pc : RacePc) : Z * RacePc :=
  match pc with
  | BeforeLoad e => (epoch, Loaded e epoch)
  | Loaded e current => (if e <? current then epoch else if current <? e then e else epoch, Stored)
  | Stored => (epoch, Stored)
  end.

(** A schedule: which of the requests makes the next access. *)
Fixpoint race (schedule : list nat) (epoch : Z) (pcs : list RacePc) : list Z :=
  match schedule with
  | [] => [epoch]
  | i :: schedule =>
      match pcs !! i with
      | Some pc => let '(epoch', pc') := race_step epoch pc in
                   epoch :: race schedule epoch' (<[i := pc']> pcs)
      | None => [epoch]
      end
  end.

(** Two concurrent requests of epochs 6 and 7 can leave the follower at epoch
    6 after it was at 7: it would accept the leader of epoch 6 again. *)
Theorem follower_epoch_race : race [0; 1; 1; 0]%nat 5 [BeforeLoad 6; BeforeLoad 7] = [5; 5; 5; 7; 6].
Proof. reflexivity. Qed.

(** ** A concrete follower *)

Module FollowerDemo.
Import Mem StoreDemo ReservationDemo.
#[local] Existing Instances wal_codec ReservationDemo.codec ReservationDemo.codec_laws um lru.
#[local] Instance log : RecordLog StoreDemo.PS := store_record_log 100.

Definition handler : FollowerReplicationHandler := mkHandler 5 (Some "broker-1") Demo.tp0 "broker-2".
Definition service : BrokerService StoreDemo.PS (gmap string (list Z)) :=
  mkService {[Demo.tp0 := handler]} "broker-2" st0 (Some (mkFencing "broker-2" ∅ ∅)).
Definition req (epoch : Z) : ReplicateDataRequest := mkReplicateDataRequest epoch Demo.tp0 [r0] "broker-3".


Definition take_over : TransferLeadershipRequest := mkTransferLeadershipRequest Demo.tp0 "broker-1" 5 "broker-2".

Lemma transfer_takes_reservation_witness :
  (transfer_leadership take_over service).1 = Ok (mkTransferLeadershipResponse true 0 (Some 6)) ∧
  ∃ f', bs_fencing (transfer_leadership take_over service).2 = Some f' ∧
    ∀ r, verify Demo.tp0 "broker-1" 5 (fe_reservations f') ≠ (Ok true, r).
Proof.
  destruct (transfer_leadership take_over service) as [r s1] eqn:E.
  assert (Hr : r = Ok (mkTransferLeadershipResponse true 0 (Some 6)))
    by (change r with (r, s1).1; rewrite <- E; vm_compute; reflexivity).
  subst r. split; [reflexivity|].
  destruct (transfer_takes_reservation take_over service (mkTransferLeadershipResponse true 0 (Some 6)) s1
              (mkFencing "broker-2" ∅ ∅))
    as (f' & h' & Hf & _ & _ & _ & _ & Hother); [reflexivity..|exact E|reflexivity|].
  exists f'. split; [exact Hf|]. intros r Hv. destruct (Hother _ _ _ Hv) as [Hn _]. discriminate Hn.
Defined.
End FollowerDemo.
