(* ===== verification/Replication.v ===== *)
(** * The leader side of replication

    Model of [src/src/replication/manager.rs]: the leader's view of its
    followers, replication with early acknowledgment, and the high watermark
    with its selection of the k-th smallest offset.  Followers are reached
    through [ReplicationRpcClient]; [Cluster] implements it with the services
    of [Follower] behind an unreliable network.  Times ([now], [last_heartbeat])
    are nanoseconds; the iteration order of hash maps and the completion
    order of the concurrent sends are arguments. *)

From S2P Require Import Prelude Types PartitionIndex ColdIndex SegmentedWal LruCache ObjectStorage.
From S2P Require Import Reservation PartitionStore Follower.
Local Open Scope Z_scope.

(** ** Selecting the k-th smallest offset *)

(** [BinaryHeap] as far as it is used: a max-heap, here its elements from the
    largest to the smallest. *)
Definition MaxHeap := list Z.
Fixpoint heap_push (x : Z) (h : MaxHeap) : MaxHeap :=
  match h with
  | [] => [x]
  | y :: h => if x <? y then y :: heap_push x h else x :: y :: h
  end.
Definition heap_pop (h : MaxHeap) : MaxHeap := tail h.
Definition heap_peek (h : MaxHeap) : option Z := head h.

(** The scan of the case [k = 2]. *)
Definition second_step (acc : Z * Z) (offset : Z) : Z * Z :=
  let '(min, second_min) := acc in
  if offset <? min then (offset, min)
  else if offset <? second_min then (min, offset)
  else (min, second_min).

(** The second loop of the general case. *)
Definition heap_step (h : MaxHeap) (offset : Z) : MaxHeap :=
  match heap_peek h with
  | Some heap_max => if offset <? heap_max then heap_push offset (heap_pop h) else h
  | None => h
  end.

Definition iter_min (l : list Z) : option Z :=
  match l with [] => None | x :: l => Some (foldl Z.min x l) end.

Definition find_kth_smallest (offsets : list Z) (k : Z) : Z :=
  if (k =? 0) || (Z.of_nat (length offsets) <? k) then 0
  else if k =? 1 then default 0 (iter_min offsets)
  else if k =? 2 then (foldl second_step (u64_MAX, u64_MAX) offsets).2
  else
    let max_heap := foldl (λ h x, heap_push x h) [] (take (Z.to_nat k) offsets) in
    let max_heap := foldl heap_step max_heap (drop (Z.to_nat k) offsets) in
    default 0 (heap_peek max_heap).

(** ** The manager *)

Class ReplicationRpcClient (N : Type) := {
  rpc_replicate_data : BrokerId → ReplicateDataRequest → N → Result ReplicateDataResponse * N;
  rpc_send_heartbeat : BrokerId → HeartbeatRequest → N → Result HeartbeatResponse * N;
}.
#[global] Hint Mode ReplicationRpcClient ! : typeclass_instances.

Record ReplicationConfig := mkReplicationConfig {
  rc_min_in_sync_replicas : Z;
  rc_max_replication_lag : Z;
  rc_heartbeat_timeout_ms : Z;
}.

Record ReplicationManager (L N : Type) := mkRM {
  rm_topic_partition : TopicPartition;
  rm_current_leader : option BrokerId;
  rm_leader_epoch : Z;
  rm_replica_set : list BrokerId;
  rm_log_end_offset : Z;
  rm_high_watermark : Z;
  rm_follower_states : gmap BrokerId FollowerState;
  rm_config : ReplicationConfig;
  rm_record_log : L;
  rm_net : N;      (* what the RPC client reaches *)
}.
Arguments mkRM {L N}. Arguments rm_topic_partition {L N}. Arguments rm_current_leader {L N}.
Arguments rm_leader_epoch {L N}. Arguments rm_replica_set {L N}. Arguments rm_log_end_offset {L N}.
Arguments rm_high_watermark {L N}. Arguments rm_follower_states {L N}. Arguments rm_config {L N}.
Arguments rm_record_log {L N}. Arguments rm_net {L N}.

Section manager.
Context {L N : Type} `{!RecordLog L, !ReplicationRpcClient N}.
Abbreviation RM := (ReplicationManager L N).
Local Open Scope rust_scope.

Definition rm_new (tp : TopicPartition) (leader : BrokerId) (leader_epoch : Z)
    (replica_set : list BrokerId) (config : ReplicationConfig) (log : L) (net : N) : RM :=
  mkRM tp (Some leader) leader_epoch replica_set 0 0 ∅ config log net.

Definition with_log_end (o : Z) (log : L) (m : RM) : RM :=
  mkRM (rm_topic_partition m) (rm_current_leader m) (rm_leader_epoch m) (rm_replica_set m)
    o (rm_high_watermark m) (rm_follower_states m) (rm_config m) log (rm_net m).
Definition with_hwm (o : Z) (m : RM) : RM :=
  mkRM (rm_topic_partition m) (rm_current_leader m) (rm_leader_epoch m) (rm_replica_set m)
    (rm_log_end_offset m) o (rm_follower_states m) (rm_config m) (rm_record_log m) (rm_net m).
Definition with_states (states : gmap BrokerId FollowerState) (m : RM) : RM :=
  mkRM (rm_topic_partition m) (rm_current_leader m) (rm_leader_epoch m) (rm_replica_set m)
    (rm_log_end_offset m) (rm_high_watermark m) states (rm_config m) (rm_record_log m) (rm_net m).
Definition with_net (n : N) (m : RM) : RM :=
  mkRM (rm_topic_partition m) (rm_current_leader m) (rm_leader_epoch m) (rm_replica_set m)
    (rm_log_end_offset m) (rm_high_watermark m) (rm_follower_states m) (rm_config m) (rm_record_log m) n.
Definition update_leader_epoch (epoch : Z) (m : RM) : RM :=
  mkRM (rm_topic_partition m) (rm_current_leader m) epoch (rm_replica_set m)
    (rm_log_end_offset m) (rm_high_watermark m) (rm_follower_states m) (rm_config m)
    (rm_record_log m) (rm_net m).

Definition append_to_local_wal (record : WalRecord) (m : RM) : Result Offset * RM :=
  match rl_append record (rm_record_log m) with
  | (Ok _, log) => (Ok (wr_offset record), with_log_end (u64_add (wr_offset record) 1) log m)
  | (Err e, log) => (Err e, with_log_end (rm_log_end_offset m) log m)
  end.

Definition update_follower_state (fs : FollowerState) (m : RM) : RM :=
  with_states (<[fs_broker_id fs := fs]> (rm_follower_states m)) m.

Definition send_to_follower (broker_id : BrokerId) (record : WalRecord) (m : RM) : Result unit * RM :=
  let! (leader_id, m) := (ok_or (rm_current_leader m) NoLeader, m) in
  let request := mkReplicateDataRequest (rm_leader_epoch m) (rm_topic_partition m) [record] leader_id in
  let! (response, m) :=
    (let '(r, n) := rpc_replicate_data broker_id request (rm_net m) in (r, with_net n m)) in
  if negb (rdp_success response) then (Err (ReplicationFailed broker_id), m)
  else match rdp_follower_state response with
       | Some fs => (Ok tt, update_follower_state fs m)
       | None => (Ok tt, m)
       end.

(** [Duration] comparison: a heartbeat from the future (clock skew) is stale. *)
Definition is_follower_in_sync (now : Z) (m : RM) (fs : FollowerState) : bool :=
  let lag := saturating_sub (rm_log_end_offset m) (fs_last_known_offset fs) in
  let since := now - fs_last_heartbeat fs in
  let heartbeat_fresh := (0 <=? since) && (since <? rc_heartbeat_timeout_ms (rm_config m) * 1000000) in
  (lag <=? rc_max_replication_lag (rm_config m)) && heartbeat_fresh.

(** [states.values()]; what is computed from it does not depend on the
    order ([find_kth_smallest] is a function of the multiset). *)
Definition state_values (m : RM) : list FollowerState := (map_to_list (rm_follower_states m)).*2.

Definition get_in_sync_replicas (now : Z) (m : RM) : list BrokerId :=
  fs_broker_id <$> filter (λ fs, is_follower_in_sync now m fs = true) (state_values m).

Definition recalculate_high_watermark (now : Z) (m : RM) : RM :=
  let offsets := rm_log_end_offset m ::
    (fs_last_known_offset <$> filter (λ fs, is_follower_in_sync now m fs = true) (state_values m)) in
  let n := Z.of_nat (length offsets) in
  let k := rc_min_in_sync_replicas (rm_config m) in
  if k <=? n then
    let new_high_watermark := find_kth_smallest offsets (n - k + 1) in
    if rm_high_watermark m <? new_high_watermark then with_hwm new_high_watermark m else m
  else m.

Definition followers_of (m : RM) : list BrokerId :=
  filter (λ b, Some b ≠ rm_current_leader m) (rm_replica_set m).

(** The [while let Some(..) = futures.next()] loop over the followers in the
    order in which their sends complete. *)
Fixpoint collect_acks (completions : list BrokerId) (record : WalRecord) (required acks : Z) (m : RM)
  : Z * RM :=
  match completions with
  | [] => (acks, m)
  | b :: completions =>
      match send_to_follower b record m with
      | (Ok _, m) =>
          let acks := acks + 1 in
          if required <=? acks then (acks, m) else collect_acks completions record required acks m
      | (Err _, m) => collect_acks completions record required acks m
      end
  end.

(** [order] is the completion order; [dropped] is what the sends that are
    cancelled by the early return have already done to the followers. *)
Definition wait_for_acknowledgments (order : list BrokerId → list BrokerId) (dropped : N → N) (now : Z)
    (record : WalRecord) (local_offset : Offset) (m : RM) : Result ReplicationResult * RM :=
  let followers := followers_of m in
  if bool_decide (followers = []) then
    (Ok (mkReplicationResult local_offset Durable), with_hwm local_offset m)
  else
    let required_acks := saturating_sub (rc_min_in_sync_replicas (rm_config m)) 1 in
    let '(successful_acks, m) := collect_acks (order followers) record required_acks 0 m in
    let m := with_net (dropped (rm_net m)) m in
    if required_acks <=? successful_acks then
      (Ok (mkReplicationResult local_offset Durable), recalculate_high_watermark now m)
    else (Ok (mkReplicationResult local_offset LocalOnly), m).

Definition replicate_record order dropped (now : Z) (record : WalRecord) (m : RM)
  : Result ReplicationResult * RM :=
  let! (local_offset, m) := append_to_local_wal record m in
  wait_for_acknowledgments order dropped now record local_offset m.

Definition add_follower (now : Z) (broker_id : BrokerId) (m : RM) : RM :=
  with_states (<[broker_id := mkFollowerState broker_id 0 now 0]> (rm_follower_states m)) m.
Definition remove_follower (broker_id : BrokerId) (m : RM) : RM :=
  with_states (delete broker_id (rm_follower_states m)) m.
Definition update_high_watermark (offset : Offset) (m : RM) : RM := with_hwm offset m.

Definition validate_leader_epoch (request_epoch : Z) (m : RM) : Result unit :=
  if request_epoch <? rm_leader_epoch m
  then Err (StaleLeaderEpoch request_epoch (rm_leader_epoch m)) else Ok tt.

Definition get_follower_lag (b : BrokerId) (m : RM) : option Z :=
  (λ fs, saturating_sub (rm_log_end_offset m) (fs_last_known_offset fs)) <$> rm_follower_states m !! b.
Definition is_replication_healthy (now : Z) (m : RM) : bool :=
  rc_min_in_sync_replicas (rm_config m) <=? Z.of_nat (length (get_in_sync_replicas now m)).

(** One tick of the heartbeat monitor.  [epoch] and [hwm] are the values
    captured when the monitor was started. *)
Definition heartbeat_one (epoch hwm : Z) (leader_id : BrokerId) (m : RM) (b : BrokerId) : RM :=
  let request := mkHeartbeatRequest epoch leader_id (rm_topic_partition m) hwm in
  let '(r, n) := rpc_send_heartbeat b request (rm_net m) in
  let m := with_net n m in
  match r with
  | Ok response =>
      if hbp_success response then
        match hbp_follower_state response with
        | Some state => with_states (<[b := state]> (rm_follower_states m)) m
        | None => m
        end
      else m
  | Err _ => m
  end.
Definition heartbeat_tick (epoch hwm : Z) (m : RM) : RM :=
  match rm_current_leader m with
  | Some leader_id => foldl (heartbeat_one epoch hwm leader_id) m (followers_of m)
  | None => m
  end.
End manager.

(** ** The selection is correct *)

Abbreviation below v l := (length (filter (λ x : Z, x < v) l)).
Abbreviation upto v l := (length (filter (λ x : Z, x ≤ v) l)).

Lemma filter_none (P : Z → Prop) `{!∀ x, Decision (P x)} l : (∀ x, x ∈ l → ¬ P x) → filter P l = [].
Proof.
  induction l as [|x l IH]; intros HP; [done|]. rewrite filter_cons, decide_False by (apply HP; by left).
  apply IH. intros y ?. apply HP. by right.
Qed.
Lemma filter_all (P : Z → Prop) `{!∀ x, Decision (P x)} (l : list Z) : (∀ x, x ∈ l → P x) → filter P l = l.
Proof.
  induction l as [|x l IH]; intros HP; [done|]. rewrite filter_cons, decide_True by (apply HP; by left).
  f_equal. apply IH. intros y ?. apply HP. by right.
Qed.

(** The rank of a value determines its position in a sorted list. *)
Lemma sorted_rank s i v :
  StronglySorted Z.le s → (below v s ≤ i < upto v s)%nat → s !! i = Some v.
Proof.
  intros Hs. revert i. induction Hs as [|x s Hs IH HF]; intros i; [simpl; lia|].
  rewrite Forall_forall in HF. rewrite !filter_cons.
  assert (Hbig : v < x → filter (λ y, y ≤ v) s = []).
  { intros ?. apply filter_none. intros y Hy. specialize (HF y Hy). lia. }
  assert (Hge : v ≤ x → filter (λ y, y < v) s = []).
  { intros ?. apply filter_none. intros y Hy. specialize (HF y Hy). lia. }
  destruct (decide (x ≤ v)); [|rewrite Hbig by lia; simpl; lia].
  destruct (decide (x < v)); simpl; intros Hi.
  - destruct i as [|i]; [lia|]. apply IH. lia.
  - assert (x = v) as -> by lia. destruct i as [|i]; [done|]. apply IH. rewrite Hge by lia. simpl. lia.
Qed.

Lemma heap_push_perm x h : heap_push x h ≡ₚ x :: h.
Proof.
  induction h as [|y h IH]; simpl; [done|]. destruct (x <? y); [|done]. rewrite IH. by apply Permutation_swap.
Qed.
Lemma heap_push_sorted x h : StronglySorted Z.ge h → StronglySorted Z.ge (heap_push x h).
Proof.
  induction 1 as [|y h Hh IH HF]; simpl; [by repeat constructor|]. destruct (Z.ltb_spec x y).
  - constructor; [done|]. rewrite Forall_forall in *. intros z Hz. rewrite heap_push_perm in Hz.
    apply elem_of_cons in Hz as [->|Hz]; [lia|by apply HF].
  - constructor; [by constructor|]. constructor; [lia|]. rewrite Forall_forall in *. intros z Hz.
    specialize (HF z Hz). lia.
Qed.

(** The heap holds the [k] smallest of the elements seen. *)
Record heap_inv (k : nat) (seen : list Z) (h : MaxHeap) : Prop := {
  hi_sorted : StronglySorted Z.ge h;
  hi_length : length h = k;
  hi_rest : ∃ rest, h ++ rest ≡ₚ seen ∧ ∀ x y, x ∈ h → y ∈ rest → x ≤ y;
}.

Lemma heap_step_inv k seen h x :
  (0 < k)%nat → heap_inv k seen h → heap_inv k (seen ++ [x]) (heap_step h x).
Proof.
  intros Hk [Hs Hl (rest & Hp & Hle)]. unfold heap_step, heap_peek, heap_pop.
  destruct h as [|m h]; [simpl in *; lia|]. simpl. inversion Hs as [|? ? Hs' HF]; subst.
  rewrite Forall_forall in HF. destruct (Z.ltb_spec x m).
  - split; [by apply heap_push_sorted|by rewrite heap_push_perm|]. exists (m :: rest). split.
    + rewrite heap_push_perm, <- Hp. solve_Permutation.
    + intros y z Hy Hz. rewrite heap_push_perm in Hy.
      apply elem_of_cons in Hy as [->|Hy], Hz as [->|Hz]; [lia| | |].
      * specialize (Hle m z (list_elem_of_here _ _) Hz). lia.
      * specialize (HF y Hy). lia.
      * apply Hle; [by right|done].
  - split; [done|done|]. exists (rest ++ [x]). split; [by rewrite app_assoc, Hp|].
    intros y z Hy [Hz| ->%list_elem_of_singleton]%elem_of_app; [by apply Hle|].
    apply elem_of_cons in Hy as [->|Hy]; [lia|]. specialize (HF y Hy). lia.
Qed.

Lemma heap_fold_inv k seen l h :
  (0 < k)%nat → heap_inv k seen h → heap_inv k (seen ++ l) (foldl heap_step h l).
Proof.
  intros Hk. revert seen h. induction l as [|x l IH]; intros seen h Hh; simpl; [by rewrite app_nil_r|].
  replace (seen ++ x :: l) with ((seen ++ [x]) ++ l) by by rewrite <- app_assoc.
  apply IH. by apply heap_step_inv.
Qed.

Lemma heap_init_inv l :
  heap_inv (length l) l (foldl (λ h x, heap_push x h) [] l).
Proof.
  induction l as [|x l IH] using rev_ind; [split; [apply SSorted_nil|done|]; exists []; split; [done|by intros ? ? ?%elem_of_nil]|].
  rewrite foldl_app, length_app. simpl. destruct IH as [Hs Hl (rest & Hp & _)].
  assert (rest = []) as -> by (apply Permutation_length in Hp; rewrite length_app in Hp; destruct rest; [done|simpl in *; lia]).
  split; [by apply heap_push_sorted|rewrite heap_push_perm; simpl; lia|].
  exists []. rewrite !app_nil_r in *. split; [|by intros ? ? _ ?%elem_of_nil].
  rewrite heap_push_perm, Hp. by rewrite Permutation_app_comm.
Qed.

(** The top of the heap has rank [k]. *)
Lemma heap_rank k seen h v :
  heap_inv k seen h → heap_peek h = Some v → (below v seen < k ≤ upto v seen)%nat.
Proof.
  intros [Hs Hl (rest & Hp & Hle)] Hv. destruct h as [|m h]; [done|]. injection Hv as ->.
  inversion Hs as [|? ? Hs' HF]; subst. rewrite Forall_forall in HF. rewrite <- Hp. split.
  - rewrite filter_app, (filter_none _ rest), app_nil_r.
    + rewrite filter_cons, decide_False by lia. pose proof (length_filter (λ x, x < v) h). simpl. lia.
    + intros y Hy. specialize (Hle v y (list_elem_of_here _ _) Hy). lia.
  - rewrite filter_app, length_app. rewrite (filter_all (λ x, x ≤ v) (v :: h)); [simpl; lia|].
    intros y [->|Hy]%elem_of_cons; [lia|]. specialize (HF y Hy). lia.
Qed.

(** The scan for the second smallest is the heap with two elements. *)
Lemma second_heap l a b :
  a ≤ b → let '(x, y) := foldl second_step (a, b) l in
  x ≤ y ∧ foldl heap_step [b; a] l = [y; x].
Proof.
  revert a b. induction l as [|o l IH]; intros a b Hab; simpl; [done|].
  unfold heap_step at 2. simpl. destruct (Z.ltb_spec o a); destruct (Z.ltb_spec o b); try lia.
  - apply IH. lia.
  - apply IH. lia.
  - by apply IH.
Qed.

Lemma iter_min_spec l v : iter_min l = Some v → v ∈ l ∧ ∀ x, x ∈ l → v ≤ x.
Proof.
  destruct l as [|a l]; [done|]. simpl. intros [= <-]. revert a. induction l as [|b l IH]; intros a; simpl.
  { split; [by left|]. intros x ->%list_elem_of_singleton. lia. }
  destruct (IH (Z.min a b)) as [Hin Hle]. split.
  - apply elem_of_cons in Hin as [->|Hin]; [|by do 2 right].
    destruct (Z.min_spec a b) as [[_ ->]|[_ ->]]; [by left|right; by left].
  - intros x [->|[->|Hx]%elem_of_cons]%elem_of_cons.
    + specialize (Hle (Z.min a b) (list_elem_of_here _ _)). lia.
    + specialize (Hle (Z.min a b) (list_elem_of_here _ _)). lia.
    + apply Hle. by right.
Qed.

Lemma find_kth_rank offsets k :
  1 ≤ k ≤ Z.of_nat (length offsets) → (∀ o, o ∈ offsets → is_u64 o) →
  let v := find_kth_smallest offsets k in (below v offsets < Z.to_nat k ≤ upto v offsets)%nat.
Proof.
  intros Hk Hu. unfold find_kth_smallest. rewrite (proj2 (Z.eqb_neq k 0)), (proj2 (Z.ltb_ge (Z.of_nat (length offsets)) k)) by lia. simpl.
  destruct (Z.eqb_spec k 1) as [->|]; [|destruct (Z.eqb_spec k 2) as [->|]].
  - destruct (iter_min offsets) as [v|] eqn:E; [|destruct offsets; [simpl in *; lia|done]]. simpl.
    apply iter_min_spec in E as [Hin Hle]. split.
    + rewrite filter_none; [simpl; lia|]. intros x Hx. specialize (Hle x Hx). lia.
    + apply elem_of_Permutation in Hin as [l ->]. rewrite filter_cons, decide_True by lia. simpl. lia.
  - pose proof (second_heap offsets u64_MAX u64_MAX ltac:(lia)) as H2.
    destruct (foldl second_step _ offsets) as [x y]. destruct H2 as [_ H2]. simpl.
    assert (Hinv : heap_inv 2 ([u64_MAX; u64_MAX] ++ offsets) [y; x]).
    { rewrite <- H2. apply heap_fold_inv; [lia|]. split; [repeat constructor; lia|done|].
      exists []. split; [by rewrite app_nil_r|by intros ? ? _ ?%elem_of_nil]. }
    pose proof (heap_rank 2 _ _ y Hinv eq_refl) as [Hb Hup].
    assert (Hy : y ≤ u64_MAX).
    { destruct Hinv as [_ _ (rest & Hp & _)]. assert (Hin : y ∈ [u64_MAX; u64_MAX] ++ offsets) by (rewrite <- Hp; by left).
      apply elem_of_app in Hin as [Hin|Hin]; [rewrite !elem_of_cons, elem_of_nil in Hin; naive_solver lia|].
      destruct (Hu y Hin). unfold u64_MAX. lia. }
    rewrite filter_app, length_app in Hb, Hup. change (Z.to_nat 2) with 2%nat. split; [lia|].
    destruct (decide (y = u64_MAX)) as [->|Hne].
    + rewrite filter_all; [lia|]. intros z Hz. destruct (Hu z Hz). unfold u64_MAX. lia.
    + rewrite (filter_none (λ z, z ≤ y) [u64_MAX; u64_MAX]) in Hup; [simpl in Hup; lia|].
      intros z. rewrite !elem_of_cons, elem_of_nil. naive_solver lia.
  - set (h0 := foldl (λ h x, heap_push x h) [] _).
    assert (Hinv : heap_inv (Z.to_nat k) offsets (foldl heap_step h0 (drop (Z.to_nat k) offsets))).
    { rewrite <- (take_drop (Z.to_nat k) offsets) at 1. apply heap_fold_inv; [lia|].
      pose proof (heap_init_inv (take (Z.to_nat k) offsets)) as H0. rewrite length_take_le in H0 by lia. exact H0. }
    destruct (heap_peek _) as [v|] eqn:Ev; [|exfalso; destruct Hinv as [_ Hl _]; destruct (foldl heap_step _ _); [simpl in *; lia|done]].
    by apply (heap_rank _ _ _ v Hinv).
Qed.

(** The selection returns the k-th smallest offset.  For every [k] in
    range, whichever of the three strategies runs, the result is the element
    at position [k - 1] of the sorted offsets; out of range it is 0. *)
Theorem find_kth_smallest_correct offsets sorted k :
  sorted ≡ₚ offsets → StronglySorted Z.le sorted → (∀ o, o ∈ offsets → is_u64 o) → 0 ≤ k →
  if decide (1 ≤ k ≤ Z.of_nat (length offsets))
  then sorted !! Z.to_nat (k - 1) = Some (find_kth_smallest offsets k)
  else find_kth_smallest offsets k = 0.
Proof.
  intros Hp Hs Hu Hk. case_decide as Hr.
  - pose proof (find_kth_rank offsets k Hr Hu) as Hrank. simpl in Hrank. apply sorted_rank; [done|].
    rewrite Hp. lia.
  - unfold find_kth_smallest. destruct (Z.eqb_spec k 0); [done|]. by rewrite (proj2 (Z.ltb_lt (Z.of_nat (length offsets)) k)) by lia.
Qed.

Lemma find_kth_smallest_correct_witness :
  find_kth_smallest [30; 10; 40; 20] 3 = 30 ∧ find_kth_smallest [30; 10; 40; 20] 2 = 20.
Proof.
  assert (Hs : StronglySorted Z.le [10; 20; 30; 40]) by (repeat constructor; lia).
  assert (Hp : [10; 20; 30; 40] ≡ₚ [30; 10; 40; 20]) by solve_Permutation.
  assert (Hu : ∀ o, o ∈ [30; 10; 40; 20] → is_u64 o).
  { intros o. rewrite !elem_of_cons, elem_of_nil. intros [->|[->|[->|[->|[]]]]]; by vm_compute. }
  pose proof (find_kth_smallest_correct _ _ 3 Hp Hs Hu ltac:(lia)) as H3.
  pose proof (find_kth_smallest_correct _ _ 2 Hp Hs Hu ltac:(lia)) as H2.
  split; symmetry; [exact (f_equal (default 0) H3)|exact (f_equal (default 0) H2)].
Defined.

(** ** What the leader knows of its followers *)

(** [rpc_position n tp b] is the next offset of partition [tp] on broker [b]:
    it never decreases, a successful replication request passes the records
    it carried, and the follower state in a response is not ahead of it. *)
Class RpcLaws (N : Type) `{!ReplicationRpcClient N} := {
  rpc_position : N → TopicPartition → BrokerId → Offset;
  rpc_ok : N → Prop;
  rpc_position_nonneg n tp b : rpc_ok n → 0 ≤ rpc_position n tp b;
  rpc_replicate_law b req (n : N) r n' : rpc_ok n → rpc_replicate_data b req n = (r, n') →
    rpc_ok n' ∧ (∀ tp b', rpc_position n tp b' ≤ rpc_position n' tp b') ∧
    ∀ resp, r = Ok resp → rdp_success resp = true →
      (∀ x, x ∈ rdr_records req → wr_tp x = rdr_topic_partition req → 0 ≤ wr_offset x < u64_MAX →
         wr_offset x + 1 ≤ rpc_position n' (rdr_topic_partition req) b) ∧
      (∀ fs, rdp_follower_state resp = Some fs →
         fs_broker_id fs = b ∧ is_u64 (fs_last_known_offset fs) ∧
         fs_last_known_offset fs ≤ rpc_position n' (rdr_topic_partition req) b);
  rpc_heartbeat_law b req (n : N) r n' : rpc_ok n → rpc_send_heartbeat b req n = (r, n') →
    rpc_ok n' ∧ (∀ tp b', rpc_position n tp b' ≤ rpc_position n' tp b') ∧
    ∀ resp fs, r = Ok resp → hbp_success resp = true → hbp_follower_state resp = Some fs →
      is_u64 (fs_last_known_offset fs) ∧
      fs_last_known_offset fs ≤ rpc_position n' (hb_topic_partition req) b;
}.

Section safety.
Context {L N : Type} `{!RecordLog L, !RecordLogLaws L, !ReplicationRpcClient N, !RpcLaws N}.
Abbreviation RM := (ReplicationManager L N).
Implicit Types (m : RM).
Context (leader : BrokerId).

(** How far replica [b] has the partition. *)
Definition replica_position m (b : BrokerId) : Offset :=
  if decide (b = leader) then rl_next_offset (rm_record_log m) (rm_topic_partition m)
  else rpc_position (rm_net m) (rm_topic_partition m) b.

(** The number of copies the manager waits for: [min_in_sync_replicas],
    unless the leader is the only replica; then its own copy is enough for
    it, whatever is configured. *)
Definition copies m : Z :=
  if bool_decide (followers_of m = []) then 1 else rc_min_in_sync_replicas (rm_config m).

(** At least [copies] replicas have every offset below [o]. *)
Definition replicated m (o : Offset) : Prop :=
  ∃ R : list BrokerId, NoDup R ∧ copies m ≤ Z.of_nat (length R) ∧
    ∀ b, b ∈ R → o ≤ replica_position m b.

Record rm_inv m : Prop := {
  ri_leader : rm_current_leader m = Some leader;
  ri_replicas : NoDup (rm_replica_set m);
  ri_net : rpc_ok (rm_net m);
  ri_states b fs : rm_follower_states m !! b = Some fs →
    b ≠ leader ∧ is_u64 (fs_last_known_offset fs) ∧
    fs_last_known_offset fs ≤ rpc_position (rm_net m) (rm_topic_partition m) b;
  ri_log_end : is_u64 (rm_log_end_offset m) ∧
    rm_log_end_offset m ≤ rl_next_offset (rm_record_log m) (rm_topic_partition m);
  ri_hwm : rm_high_watermark m = 0 ∨ replicated m (rm_high_watermark m);
}.

(** [m'] is [m] with replicas that only moved forward. *)
Record forward m m' : Prop := {
  fw_static : rm_topic_partition m' = rm_topic_partition m ∧ rm_current_leader m' = rm_current_leader m ∧
              rm_replica_set m' = rm_replica_set m ∧ rm_config m' = rm_config m;
  fw_log : rl_next_offset (rm_record_log m) (rm_topic_partition m)
           ≤ rl_next_offset (rm_record_log m') (rm_topic_partition m);
  fw_net b : rpc_position (rm_net m) (rm_topic_partition m) b ≤ rpc_position (rm_net m') (rm_topic_partition m) b;
}.

Lemma forward_refl m : forward m m.
Proof. by split. Qed.
Lemma forward_trans m1 m2 m3 : forward m1 m2 → forward m2 m3 → forward m1 m3.
Proof.
  intros [(A1 & A2 & A3 & A4) A5 A6] [(B1 & B2 & B3 & B4) B5 B6]. rewrite A1 in *. split.
  - split_and!; congruence.
  - lia.
  - intros b. specialize (A6 b). specialize (B6 b). lia.
Qed.

Lemma followers_forward m m' : forward m m' → followers_of m' = followers_of m.
Proof. intros [(_ & Hl & Hr & _) _ _]. unfold followers_of. by rewrite Hl, Hr. Qed.
Lemma copies_forward m m' : forward m m' → copies m' = copies m.
Proof.
  intros Hf. unfold copies. rewrite (followers_forward m m') by done. destruct Hf as [(_ & _ & _ & ->) _ _]. done.
Qed.

Lemma replicated_forward m m' o : forward m m' → replicated m o → replicated m' o.
Proof.
  intros Hf (R & Hnd & Hlen & HR). exists R. rewrite (copies_forward m) by done. split_and!; [done|done|].
  destruct Hf as [(Htp & _ & _ & Hc) Hl Hn].
  intros b Hb. specialize (HR b Hb). unfold replica_position in *. rewrite Htp.
  case_decide; [lia|]. specialize (Hn b). lia.
Qed.

(** Facts about the states survive as long as replicas move forward. *)
Lemma inv_forward m m' :
  rm_inv m → forward m m' → rpc_ok (rm_net m') → rm_follower_states m' = rm_follower_states m →
  rm_log_end_offset m' = rm_log_end_offset m → rm_high_watermark m' = rm_high_watermark m → rm_inv m'.
Proof.
  intros [H1 H2 H3 H4 H5 H6] Hf Hok Hs Hl Hh. pose proof Hf as [(Htp & Hc & Hr & Hcf) Hlog Hnet]. split.
  - congruence.
  - by rewrite Hr.
  - done.
  - intros b fs. rewrite Hs, Htp. intros Hb. destruct (H4 b fs Hb) as (? & ? & ?).
    specialize (Hnet b). split_and!; [done|done|lia].
  - rewrite Hl, Htp. destruct H5 as [? ?]. split; [done|lia].
  - rewrite Hh. destruct H6; [by left|right]. by apply (replicated_forward m).
Qed.

Lemma with_net_forward m n' :
  (∀ tp b, rpc_position (rm_net m) tp b ≤ rpc_position n' tp b) → forward m (with_net n' m).
Proof. intros Hn. split; [done|simpl; lia|intros b; apply Hn]. Qed.

(** Recording a response of follower [b]. *)
Lemma insert_state_inv m b fs :
  rm_inv m → b ≠ leader → is_u64 (fs_last_known_offset fs) →
  fs_last_known_offset fs ≤ rpc_position (rm_net m) (rm_topic_partition m) b →
  rm_inv (with_states (<[b := fs]> (rm_follower_states m)) m).
Proof.
  intros [H1 H2 H3 H4 H5 H6] Hb Hu Hle. split; try done. intros b' fs'. simpl.
  rewrite lookup_insert_Some. intros [[<- <-]|[_ Hb']]; [done|by apply H4].
Qed.

Definition same_marks m m' : Prop :=
  rm_high_watermark m' = rm_high_watermark m ∧ rm_log_end_offset m' = rm_log_end_offset m.

Definition in_range m (r : WalRecord) : Prop :=
  wr_tp r = rm_topic_partition m ∧ 0 ≤ wr_offset r < u64_MAX.
Definition has m (r : WalRecord) (b : BrokerId) : Prop :=
  wr_offset r + 1 ≤ rpc_position (rm_net m) (rm_topic_partition m) b.

Lemma send_to_follower_spec b r m res m' :
  rm_inv m → b ≠ leader → in_range m r → send_to_follower b r m = (res, m') →
  rm_inv m' ∧ forward m m' ∧ same_marks m m' ∧ (is_ok res = true → has m' r b).
Proof using RpcLaws0.
  intros Hinv Hb [Htp Ho]. unfold send_to_follower. rewrite (ri_leader _ Hinv). cbn [ok_or sbind].
  destruct (rpc_replicate_data _ _ _) as [rr n'] eqn:E.
  apply rpc_replicate_law in E as (Hok & Hmono & Hresp); [|apply Hinv]. simpl in Hresp.
  pose proof (with_net_forward m n' Hmono) as Hf.
  pose proof (inv_forward m (with_net n' m) Hinv Hf Hok eq_refl eq_refl eq_refl) as Hinv'.
  destruct rr as [resp|e]; cbn [sbind]; [|by intros [= <- <-]].
  destruct (rdp_success resp) eqn:Es; simpl; [|by intros [= <- <-]].
  destruct (Hresp resp eq_refl Es) as [Hrec Hfs].
  assert (Hhas : has (with_net n' m) r b) by (apply Hrec; [by left|done|done]).
  destruct (rdp_follower_state resp) as [fs|]; intros [= <- <-]; [|by split_and!].
  destruct (Hfs fs eq_refl) as (Hid & Hu & Hle). split_and!; try done.
  unfold update_follower_state. rewrite Hid. by apply insert_state_inv.
Qed.

Lemma has_forward m m' r b : forward m m' → has m r b → has m' r b.
Proof. intros [(Htp & _) _ Hn]. unfold has. rewrite Htp. specialize (Hn b). lia. Qed.

Lemma collect_acks_spec completions r required acks m acks' m' :
  rm_inv m → NoDup completions → leader ∉ completions → in_range m r →
  collect_acks completions r required acks m = (acks', m') →
  rm_inv m' ∧ forward m m' ∧ same_marks m m' ∧
  ∃ A, A `sublist_of` completions ∧ acks' = acks + Z.of_nat (length A) ∧ ∀ b, b ∈ A → has m' r b.
Proof using RpcLaws0.
  revert acks m. induction completions as [|b completions IH]; intros acks m Hinv Hnd Hl Hr; simpl.
  { intros [= <- <-]. split_and!; [done|apply forward_refl|done|]. exists []. split_and!; [done|simpl; lia|].
    by intros b ?%elem_of_nil. }
  apply NoDup_cons in Hnd as [Hb Hnd]. apply not_elem_of_cons in Hl as [Hne Hl].
  destruct (send_to_follower b r m) as [res m1] eqn:E.
  apply send_to_follower_spec in E as (Hinv1 & Hf1 & Hm1 & Hhas); [|done|done|done].
  assert (Hr1 : in_range m1 r) by (destruct Hf1 as [(Htp & _) _ _]; unfold in_range; by rewrite Htp).
  assert (Hnext : ∀ acks, collect_acks completions r required acks m1 = (acks', m') →
    rm_inv m' ∧ forward m m' ∧ same_marks m m' ∧
    ∃ A, A `sublist_of` completions ∧ acks' = acks + Z.of_nat (length A) ∧ ∀ b, b ∈ A → has m' r b).
  { intros acks1 E1. destruct (IH acks1 m1 Hinv1 Hnd Hl Hr1 E1) as (? & Hf2 & Hm2 & A & ? & ? & ?).
    split_and!; [done|by eapply forward_trans|unfold same_marks in *; intuition congruence|by exists A]. }
  destruct res as [[]|e].
  - destruct (required <=? acks + 1).
    + intros [= <- <-]. split_and!; try done. exists [b].
      split_and!; [by apply sublist_skip, sublist_nil_l|done|].
      intros b' ->%list_elem_of_singleton. by apply Hhas.
    + intros E1. destruct (IH _ m1 Hinv1 Hnd Hl Hr1 E1) as (_ & Hf2 & _).
      destruct (Hnext _ E1) as (? & ? & ? & A & HA & -> & HhasA).
      split_and!; try done. exists (b :: A). split_and!; [by apply sublist_skip|simpl; lia|].
      intros b' [->|Hb']%elem_of_cons; [by apply (has_forward m1), Hhas|by apply HhasA].
  - intros E1. destruct (Hnext _ E1) as (? & ? & ? & A & HA & -> & HhasA). split_and!; try done.
    exists A. split_and!; [by apply sublist_cons|done|done].
Qed.

Lemma below_split v (l : list Z) : (below v l + length (filter (λ x, (v ≤ x)%Z) l) = length l)%nat.
Proof.
  induction l as [|x l IH]; [done|]. rewrite !filter_cons.
  destruct (decide (x < v)), (decide (v ≤ x)); simpl in *; lia.
Qed.

Lemma filter_fmap_snd {A B} (P : B → Prop) `{!∀ x, Decision (P x)} (l : list (A * B)) :
  filter P l.*2 = (filter (λ p, P p.2) l).*2.
Proof.
  induction l as [|[a b] l IH]; [done|]. cbn [fmap list_fmap snd]. rewrite !filter_cons. cbn [snd].
  destruct (decide (P b)); cbn [fmap list_fmap snd]; by rewrite IH.
Qed.

(** The replicas counted for the high watermark, with their offsets. *)
Definition counted now m : list (BrokerId * Offset) :=
  (leader, rm_log_end_offset m) ::
  ((λ p : BrokerId * FollowerState, (p.1, fs_last_known_offset p.2)) <$>
     filter (λ p : BrokerId * FollowerState, is_follower_in_sync now m p.2 = true)
       (map_to_list (rm_follower_states m))).

Lemma counted_offsets now m :
  rm_log_end_offset m ::
    (fs_last_known_offset <$> filter (λ fs, is_follower_in_sync now m fs = true) (state_values m))
  = (counted now m).*2.
Proof.
  unfold counted, state_values. simpl. f_equal. rewrite filter_fmap_snd, <- !list_fmap_compose. done.
Qed.

Lemma counted_sound now m p :
  rm_inv m → p ∈ counted now m → is_u64 p.2 ∧ p.2 ≤ replica_position m p.1.
Proof.
  intros Hinv [->|Hp]%elem_of_cons; unfold replica_position; simpl.
  - rewrite decide_True by done. apply Hinv.
  - apply list_elem_of_fmap in Hp as ([b fs] & -> & Hin). apply list_elem_of_filter in Hin as [_ Hin].
    apply elem_of_map_to_list in Hin. destruct (ri_states _ Hinv b fs Hin) as (Hb & ? & ?).
    simpl. by rewrite decide_False.
Qed.

Lemma counted_NoDup now m : rm_inv m → NoDup (counted now m).*1.
Proof.
  intros Hinv. unfold counted. simpl. rewrite <- list_fmap_compose. apply NoDup_cons. split.
  - intros ([b fs] & -> & [_ Hin]%list_elem_of_filter)%list_elem_of_fmap.
    apply elem_of_map_to_list in Hin. by destruct (ri_states _ Hinv b fs Hin).
  - eapply sublist_NoDup; [apply (NoDup_fst_map_to_list (rm_follower_states m))|].
    apply (fmap_sublist fst), sublist_filter.
Qed.

(** The high watermark only advances, and only to offsets that enough
    replicas have. *)
Lemma recalculate_spec now m :
  rm_inv m → followers_of m ≠ [] → let m' := recalculate_high_watermark now m in
  rm_inv m' ∧ forward m m' ∧ rm_high_watermark m ≤ rm_high_watermark m' ∧
  rm_log_end_offset m' = rm_log_end_offset m.
Proof.
  intros Hinv Hne. unfold recalculate_high_watermark. rewrite counted_offsets.
  set (cs := counted now m). set (k := rc_min_in_sync_replicas (rm_config m)).
  rewrite length_fmap. destruct (Z.leb_spec k (Z.of_nat (length cs))) as [Hk|Hk]; cbv iota zeta;
    [|split_and!; [done|apply forward_refl|done|done]].
  set (v := find_kth_smallest _ _). destruct (Z.ltb_spec (rm_high_watermark m) v) as [Hv|Hv];
    [|split_and!; [done|apply forward_refl|done|done]].
  assert (Hf : forward m (with_hwm v m)) by (by split).
  split_and!; [|done|simpl; lia|done].
  assert (Hcopies : copies m = k) by (unfold copies; by rewrite bool_decide_eq_false_2).
  destruct Hinv as [H1 H2 H3 H4 H5 H6]. pose proof (Build_rm_inv m H1 H2 H3 H4 H5 H6) as Hinv.
  split; try done. right. apply (replicated_forward m); [done|]. unfold replicated. rewrite Hcopies.
  destruct (decide (1 ≤ k)) as [Hk1|Hk1]; cycle 1.
  { exists []. split_and!; [constructor|simpl; lia|by intros b ?%elem_of_nil]. }
  exists (filter (λ p, v ≤ p.2) cs).*1. split_and!.
  - eapply sublist_NoDup; [by apply (counted_NoDup now m)|]. apply (fmap_sublist fst), sublist_filter.
  - assert (Hu : ∀ o, o ∈ cs.*2 → is_u64 o).
    { intros o (p & -> & Hp)%list_elem_of_fmap. by apply (counted_sound now m p). }
    pose proof (find_kth_rank cs.*2 (Z.of_nat (length cs) - k + 1)) as Hrank.
    rewrite length_fmap in Hrank. destruct Hrank as [Hb _]; [lia|done|]. fold v in Hb.
    pose proof (below_split v cs.*2) as Hsplit. rewrite (filter_fmap_snd (λ x, v ≤ x)) in Hsplit.
    rewrite !length_fmap in *. lia.
  - intros b (p & -> & [Hle Hp]%list_elem_of_filter)%list_elem_of_fmap.
    eapply Z.le_trans; [exact Hle|by apply (counted_sound now m p)].
Qed.

Lemma append_to_local_wal_spec r m res m' :
  rm_inv m → in_range m r → append_to_local_wal r m = (res, m') →
  rm_inv m' ∧ forward m m' ∧ rm_high_watermark m' = rm_high_watermark m ∧
  ∀ o, res = Ok o → o = wr_offset r ∧
    wr_offset r + 1 ≤ rl_next_offset (rm_record_log m') (rm_topic_partition m').
Proof using RecordLogLaws0.
  intros [H1 H2 H3 H4 H5 H6] [Htp Ho]. unfold append_to_local_wal.
  destruct (rl_append r (rm_record_log m)) as [[[]|e] log] eqn:E; intros [= <- <-].
  - pose proof (rl_append_mono _ _ _ _ (rm_topic_partition m) E) as Hmono.
    apply rl_append_next in E as Hnext; [|done]. rewrite Htp in Hnext. unfold u64_MAX in Ho.
    assert (Hf : forward m (with_log_end (u64_add (wr_offset r) 1) log m)) by (split; simpl; done || lia).
    split_and!; try done; [|by intros o [= <-]].
    split; try done; simpl.
    + rewrite u64_add_small by lia. unfold is_u64. lia.
    + destruct H6; [by left|right]. by apply (replicated_forward m).
  - pose proof (rl_append_mono _ _ _ _ (rm_topic_partition m) E) as Hmono.
    assert (Hf : forward m (with_log_end (rm_log_end_offset m) log m)) by (split; simpl; done || lia).
    split_and!; try done. split; try done; simpl; [destruct H5; split; [done|lia]|].
    destruct H6; [by left|right]. by apply (replicated_forward m).
Qed.

(** What cancelled sends may have done. *)
Definition only_forward (f : N → N) : Prop :=
  ∀ n, rpc_ok n → rpc_ok (f n) ∧ ∀ tp b, rpc_position n tp b ≤ rpc_position (f n) tp b.

(** A leader without followers reports its own copy. *)
Lemma alone_spec m m1 r :
  rm_inv m1 → forward m m1 → in_range m1 r → followers_of m1 = [] →
  wr_offset r + 1 ≤ rl_next_offset (rm_record_log m1) (rm_topic_partition m1) →
  let m' := with_hwm (wr_offset r) m1 in
  rm_inv m' ∧ forward m m' ∧ (followers_of m ≠ [] → rm_high_watermark m ≤ rm_high_watermark m') ∧
  ∀ rr, Ok (mkReplicationResult (wr_offset r) Durable) = Ok rr → rr_offset rr = wr_offset r ∧
    (rr_durability rr = Durable → replicated m' (wr_offset r + 1)).
Proof.
  intros Hinv Hf Hr Hnone Hlog m'.
  assert (Hf' : forward m1 m') by by split.
  assert (Hrep : ∀ o, o ≤ wr_offset r + 1 → replicated m' o).
  { intros o Ho. apply (replicated_forward m1); [done|]. exists [leader]. unfold copies.
    rewrite bool_decide_eq_true_2 by done. split_and!; [apply NoDup_singleton|simpl; lia|].
    intros b ->%list_elem_of_singleton. unfold replica_position. rewrite decide_True by done. lia. }
  destruct Hinv as [H1 H2 H3 H4 H5 H6]. split_and!.
  - split; try done. right. apply Hrep. simpl. lia.
  - by eapply forward_trans.
  - rewrite <- (followers_forward m m1) by done. done.
  - intros rr [= <-]. split; [done|]. intros _. apply Hrep. lia.
Qed.

Lemma replicate_record_spec order dropped now r m res m' :
  rm_inv m → in_range m r → (∀ l, order l ≡ₚ l) → only_forward dropped →
  replicate_record order dropped now r m = (res, m') →
  rm_inv m' ∧ forward m m' ∧ (followers_of m ≠ [] → rm_high_watermark m ≤ rm_high_watermark m') ∧
  ∀ rr, res = Ok rr → rr_offset rr = wr_offset r ∧
    (rr_durability rr = Durable → replicated m' (wr_offset r + 1)).
Proof using RecordLogLaws0 RpcLaws0.
  intros Hinv Hr Horder Hdrop. unfold replicate_record.
  destruct (append_to_local_wal r m) as [r1 m1] eqn:E1.
  apply append_to_local_wal_spec in E1 as (Hinv1 & Hf1 & Hh1 & Hl1); [|done|done].
  destruct r1 as [o|e]; cbn [sbind]; [|intros [= <- <-]; split_and!; try done; lia].
  destruct (Hl1 o eq_refl) as [-> Hlog1].
  assert (Hr1 : in_range m1 r) by (destruct Hf1 as [(Htp & _) _ _]; unfold in_range; by rewrite Htp).
  pose proof (ri_replicas _ Hinv1) as Hnd. pose proof (followers_forward _ _ Hf1) as Hfol.
  unfold wait_for_acknowledgments. case_bool_decide as Hfne.
  { intros [= <- <-]. by apply alone_spec. }
  set (required := saturating_sub _ 1).
  destruct (collect_acks _ _ _ _ _) as [acks m2] eqn:E2.
  assert (Hndf : NoDup (order (followers_of m1)) ∧ leader ∉ order (followers_of m1)).
  { rewrite Horder. unfold followers_of. split; [by apply NoDup_filter|].
    intros [Hne _]%list_elem_of_filter. by rewrite (ri_leader _ Hinv1) in Hne. }
  apply collect_acks_spec in E2 as (Hinv2 & Hf2 & (Hh2 & Hle2) & A & HA & -> & Hhas); [|done|apply Hndf..|done].
  set (m3 := with_net (dropped (rm_net m2)) m2).
  destruct (Hdrop (rm_net m2)) as [Hok3 Hmono3]; [apply Hinv2|].
  assert (Hf3 : forward m2 m3) by by apply with_net_forward.
  assert (Hinv3 : rm_inv m3) by by apply (inv_forward m2).
  assert (Hf : forward m m3) by (eapply forward_trans; [exact Hf1|by eapply forward_trans]).
  case_cond; cycle 1.
  { intros [= <- <-]. split_and!; try done; [simpl; lia|]. by intros rr [= <-]. }
  assert (Hne3 : followers_of m3 ≠ []) by (rewrite (followers_forward m m3), <- Hfol by done; done).
  intros [= <- <-]. destruct (recalculate_spec now m3 Hinv3 Hne3) as (Hinv4 & Hf4 & Hh4 & _).
  split_and!; [done|by eapply forward_trans|simpl in *; lia|].
  intros rr [= <-]. split; [done|]. intros _.
  apply (replicated_forward m3); [done|]. exists (leader :: A). split_and!.
  - apply NoDup_cons. split; [|by eapply sublist_NoDup; [apply Hndf|]].
    intros Hl. apply Hndf. by eapply elem_of_sublist.
  - destruct Hf2 as [(_ & _ & _ & Hcf) _ _]. unfold copies. rewrite bool_decide_eq_false_2 by done. simpl. rewrite Hcf.
    assert (rc_min_in_sync_replicas (rm_config m1) - 1 ≤ required)
      by (unfold required; rewrite saturating_sub_spec; lia).
    lia.
  - intros b [->|Hb]%elem_of_cons; unfold replica_position.
    + rewrite decide_True by done. assert (Hf13 : forward m1 m3) by by eapply forward_trans.
      destruct Hf13 as [(Htp & _) Hlog _]. rewrite Htp. lia.
    + rewrite decide_False; [apply (has_forward m2); [done|by apply Hhas]|].
      intros ->. apply Hndf. by eapply elem_of_sublist.
Qed.

Lemma heartbeat_one_spec epoch hwm leader_id m b :
  rm_inv m → b ≠ leader →
  let m' := heartbeat_one epoch hwm leader_id m b in rm_inv m' ∧ forward m m' ∧ same_marks m m'.
Proof using RpcLaws0.
  intros Hinv Hb. unfold heartbeat_one. destruct (rpc_send_heartbeat _ _ _) as [r n'] eqn:E.
  apply rpc_heartbeat_law in E as (Hok & Hmono & Hresp); [|apply Hinv]. simpl in Hresp.
  pose proof (with_net_forward m n' Hmono) as Hf.
  pose proof (inv_forward m (with_net n' m) Hinv Hf Hok eq_refl eq_refl eq_refl) as Hinv'.
  destruct r as [resp|e]; [|by split_and!]. destruct (hbp_success resp) eqn:Es; [|by split_and!].
  destruct (hbp_follower_state resp) as [fs|] eqn:Efs; [|by split_and!].
  destruct (Hresp resp fs eq_refl Es Efs) as [Hu Hle].
  split_and!; [by apply insert_state_inv|by destruct Hf|done].
Qed.

Lemma heartbeat_tick_spec epoch hwm m :
  rm_inv m → let m' := heartbeat_tick epoch hwm m in rm_inv m' ∧ forward m m' ∧ same_marks m m'.
Proof using RpcLaws0.
  intros Hinv. unfold heartbeat_tick. rewrite (ri_leader _ Hinv).
  assert (Hl : leader ∉ followers_of m).
  { unfold followers_of. intros [Hne _]%list_elem_of_filter. by rewrite (ri_leader _ Hinv) in Hne. }
  revert Hl Hinv. generalize (followers_of m) as l. intros l. revert m.
  induction l as [|b l IH]; intros m Hl Hinv; simpl; [split_and!; [done|apply forward_refl|done]|].
  apply not_elem_of_cons in Hl as [Hb Hl].
  destruct (heartbeat_one_spec epoch hwm leader m b) as (Hinv1 & Hf1 & Hm1); [done|done|].
  destruct (IH _ Hl Hinv1) as (Hinv2 & Hf2 & Hm2).
  split_and!; [done|by eapply forward_trans|unfold same_marks in *; intuition congruence].
Qed.

(** ** What can happen at a leader

    Everything but an explicit [update_high_watermark], which stores what it
    is given.  Followers other than this leader's may move forward on their
    own. *)
Inductive rm_step : RM → RM → Prop :=
  | rm_step_replicate order dropped now r m :
      in_range m r → (∀ l, order l ≡ₚ l) → only_forward dropped →
      rm_step m (replicate_record order dropped now r m).2
  | rm_step_heartbeat epoch hwm m : rm_step m (heartbeat_tick epoch hwm m)
  | rm_step_add now b m : b ≠ leader → rm_step m (add_follower now b m)
  | rm_step_remove b m : rm_step m (remove_follower b m)
  | rm_step_epoch e m : rm_step m (update_leader_epoch e m)
  | rm_step_net f m : only_forward f → rm_step m (with_net (f (rm_net m)) m).

Lemma rm_step_spec m m' :
  rm_inv m → rm_step m m' →
  rm_inv m' ∧ forward m m' ∧ (followers_of m ≠ [] → rm_high_watermark m ≤ rm_high_watermark m').
Proof using RecordLogLaws0 RpcLaws0.
  intros Hinv Hs. destruct Hs as [order dropped now r m Hr Ho Hd|epoch hwm m|now b m Hb|b m|e m|f m Hf].
  - destruct (replicate_record _ _ _ _ _) as [res m'] eqn:E.
    by apply replicate_record_spec in E as (? & ? & ? & _).
  - destruct (heartbeat_tick_spec epoch hwm m Hinv) as (? & ? & -> & _). done.
  - split_and!; [|by split|done]. apply insert_state_inv; [done|done|done|].
    simpl. apply rpc_position_nonneg, Hinv.
  - split_and!; [|by split|done]. destruct Hinv as [? ? ? H4 ? ?]. split; try done.
    intros b' fs. simpl. intros [_ Hb']%lookup_delete_Some. by apply H4.
  - split_and!; [|by split|done]. by destruct Hinv.
  - destruct (Hf (rm_net m)) as [Hok Hm]; [apply Hinv|].
    pose proof (with_net_forward m _ Hm). split_and!; [by apply (inv_forward m)|done|done].
Qed.

Lemma rm_reachable_inv m m' : rm_inv m → rtc rm_step m m' → rm_inv m' ∧ forward m m'.
Proof using RecordLogLaws0 RpcLaws0.
  intros Hinv Hs. revert Hinv. induction Hs as [m|m1 m2 m3 H12 _ IH]; intros Hinv; [split; [done|apply forward_refl]|].
  destruct (rm_step_spec m1 m2 Hinv H12) as (Hinv2 & Hf & _). destruct (IH Hinv2) as [? ?].
  split; [done|by eapply forward_trans].
Qed.

(** A fresh leader, with or without followers. *)
Definition fresh_leader m : Prop :=
  ∃ tp epoch replicas config log net, m = rm_new tp leader epoch replicas config log net ∧
    NoDup replicas ∧ rpc_ok net ∧ 0 ≤ rl_next_offset log tp.

Lemma fresh_leader_inv m : fresh_leader m → rm_inv m.
Proof.
  intros (tp & epoch & replicas & config & log & net & -> & Hnd & Hok & Hlog).
  split; simpl; try done. by left.
Qed.


(** A durable acknowledgment is durable.  When [replicate_record]
    reports [Durable], the record's offset is below the position of at
    least [copies] distinct replicas, the leader included. *)
Theorem durable_means_replicated m0 m order dropped now r rr m' :
  fresh_leader m0 → rtc rm_step m0 m →
  wr_tp r = rm_topic_partition m → 0 ≤ wr_offset r < u64_MAX →
  (∀ l, order l ≡ₚ l) → only_forward dropped →
  replicate_record order dropped now r m = (Ok rr, m') → rr_durability rr = Durable →
  rr_offset rr = wr_offset r ∧
  ∃ R : list BrokerId, NoDup R ∧ copies m' ≤ Z.of_nat (length R) ∧
    ∀ b, b ∈ R → wr_offset r + 1 ≤ replica_position m' b.
Proof using RecordLogLaws0 RpcLaws0.
  intros Hinv%fresh_leader_inv Hs Htp Ho Horder Hdrop E Hd. apply rm_reachable_inv in Hs as [Hm _]; [|done].
  apply replicate_record_spec in E as (_ & _ & _ & Hrr); [|done|by split|done|done].
  destruct (Hrr rr eq_refl) as [Hoff Hrep]. split; [done|by apply Hrep].
Qed.
End safety.

(** ** A cluster of followers behind an unreliable network *)

Inductive NetFault := Deliver | LoseRequest | LoseResponse.

Record Cluster (L R : Type) := mkCluster {
  cl_services : gmap BrokerId (BrokerService L R);
  cl_now : Z;
  cl_faults : list NetFault;      (* what happens to the coming calls *)
}.
Arguments mkCluster {L R}. Arguments cl_services {L R}. Arguments cl_now {L R}. Arguments cl_faults {L R}.

Section cluster.
Context {L R : Type} `{!RecordLog L, !RecordLogLaws L, !ObjectStorage R, !Bincode Reservation}.

(** A call of [rpc] on broker [b]. *)
Definition net_call {A} (b : BrokerId)
    (rpc : BrokerService L R → Result A * BrokerService L R) (n : Cluster L R)
  : Result A * Cluster L R :=
  let fault := default Deliver (head (cl_faults n)) in
  let n := mkCluster (cl_services n) (cl_now n) (tail (cl_faults n)) in
  match fault, cl_services n !! b with
  | LoseRequest, _ | _, None => (Err Timeout, n)
  | _, Some s =>
      let '(r, s) := rpc s in
      (match fault with LoseResponse => Err Timeout | _ => r end,
       mkCluster (<[b := s]> (cl_services n)) (cl_now n) (cl_faults n))
  end.

#[export] Instance cluster_client : ReplicationRpcClient (Cluster L R) := {|
  rpc_replicate_data b req n := net_call b (replicate_data (cl_now n) req) n;
  rpc_send_heartbeat b req n := net_call b (send_heartbeat (cl_now n) req) n;
|}.

Definition service_ok (b : BrokerId) (s : BrokerService L R) : Prop :=
  (∀ tp h, bs_follower_handlers s !! tp = Some h → fh_broker_id h = b ∧ fh_topic_partition h = tp) ∧
  ∀ tp, is_u64 (rl_next_offset (bs_log s) tp).
Definition cluster_ok (n : Cluster L R) : Prop := ∀ b s, cl_services n !! b = Some s → service_ok b s.
Definition cluster_position (n : Cluster L R) (tp : TopicPartition) (b : BrokerId) : Offset :=
  from_option (λ s, rl_next_offset (bs_log s) tp) 0 (cl_services n !! b).

Lemma append_all_spec rs (log : L) ok log' :
  append_all rs log = (ok, log') → (∀ tp, is_u64 (rl_next_offset log tp)) →
  (∀ tp, rl_next_offset log tp ≤ rl_next_offset log' tp) ∧ (∀ tp, is_u64 (rl_next_offset log' tp)) ∧
  (ok = true → ∀ x, x ∈ rs → 0 ≤ wr_offset x < u64_MAX → wr_offset x + 1 ≤ rl_next_offset log' (wr_tp x)).
Proof using RecordLogLaws0.
  revert log. induction rs as [|r rs IH]; intros log; simpl.
  { intros [= <- <-] Hu. split_and!; [done|done|]. by intros _ x ?%elem_of_nil. }
  destruct (rl_append r log) as [[[]|e] log1] eqn:E; intros E2 Hu;
    pose proof (λ tp, rl_append_mono _ _ _ _ tp E) as Hm; pose proof (rl_append_u64 _ _ _ _ E Hu) as Hu1.
  - destruct (IH log1 E2 Hu1) as (Hm2 & Hu2 & Hin). split_and!; [|done|].
    + intros tp. specialize (Hm tp). specialize (Hm2 tp). lia.
    + intros Hok x [->|Hx]%elem_of_cons Ho; [|by apply Hin].
      apply rl_append_next in E; [|done]. specialize (Hm2 (wr_tp r)). lia.
  - injection E2 as <- <-. by split_and!.
Qed.

(** What a follower's answer means. *)
Lemma replicate_data_spec now req b s r s' :
  service_ok b s → replicate_data now req s = (r, s') →
  service_ok b s' ∧ (∀ tp, rl_next_offset (bs_log s) tp ≤ rl_next_offset (bs_log s') tp) ∧
  ∀ resp, r = Ok resp → rdp_success resp = true →
    (∀ x, x ∈ rdr_records req → wr_tp x = rdr_topic_partition req → 0 ≤ wr_offset x < u64_MAX →
       wr_offset x + 1 ≤ rl_next_offset (bs_log s') (rdr_topic_partition req)) ∧
    (∀ fs, rdp_follower_state resp = Some fs → fs_broker_id fs = b ∧
       fs_last_known_offset fs = rl_next_offset (bs_log s') (rdr_topic_partition req)).
Proof using RecordLogLaws0.
  intros [Hh Hu]. unfold replicate_data, get_follower_handler.
  destruct (bs_follower_handlers s !! rdr_topic_partition req) as [h|] eqn:Eh; cbn [ok_or sbind]; [|by intros [= <- <-]].
  destruct (Hh _ _ Eh) as [Hb Htp]. unfold handle_replicate_data.
  assert (Hins : ∀ h' log', fh_broker_id h' = b → fh_topic_partition h' = rdr_topic_partition req →
    (∀ tp, is_u64 (rl_next_offset log' tp)) →
    service_ok b (mkService (<[rdr_topic_partition req := h']> (bs_follower_handlers s))
                    (bs_broker_id s) log' (bs_fencing s))).
  { intros h' log' Hb' Htp' Hu'. split; [|done]. intros tp h0. simpl. rewrite lookup_insert_Some.
    intros [[<- <-]|[_ H0]]; [done|by apply Hh]. }
  case_cond; [intros [= <- <-]; split_and!; [by apply Hins|done|by intros resp [= <-]]|].
  set (h1 := if _ <? _ then _ else h).
  assert (Hh1 : fh_broker_id h1 = b ∧ fh_topic_partition h1 = rdr_topic_partition req)
    by (unfold h1; by destruct (_ <? _)).
  destruct Hh1 as [Hb1 Htp1].
  case_bool_decide; [intros [= <- <-]; split_and!; [by apply Hins|done|by intros resp [= <-]]|].
  destruct (append_all _ _) as [ok log'] eqn:Ea. apply append_all_spec in Ea as (Hm & Hu' & Hin); [|done].
  destruct ok; simpl; intros [= <- <-]; (split_and!; [by apply Hins|done|]); intros resp [= <-]; [|done].
  intros _. simpl. split; [|by intros fs [= <-]; simpl; rewrite Htp1].
  intros x Hx Hxt Ho. rewrite <- Hxt. by apply Hin.
Qed.

Lemma send_heartbeat_spec now req b s r s' :
  service_ok b s → send_heartbeat now req s = (r, s') →
  service_ok b s' ∧ bs_log s' = bs_log s ∧
  ∀ resp fs, r = Ok resp → hbp_follower_state resp = Some fs →
    fs_last_known_offset fs = rl_next_offset (bs_log s) (hb_topic_partition req).
Proof.
  intros [Hh Hu]. unfold send_heartbeat, get_follower_handler.
  destruct (bs_follower_handlers s !! hb_topic_partition req) as [h|] eqn:Eh; cbn [ok_or sbind]; [|by intros [= <- <-]].
  destruct (Hh _ _ Eh) as [Hb Htp]. unfold handle_heartbeat.
  assert (Hins : ∀ h', fh_broker_id h' = b → fh_topic_partition h' = hb_topic_partition req →
    service_ok b (register_follower_handler (hb_topic_partition req) h' s)).
  { intros h' Hb' Htp'. split; [|done]. intros tp h0. simpl. rewrite lookup_insert_Some.
    intros [[<- <-]|[_ H0]]; [done|by apply Hh]. }
  case_cond; [intros [= <- <-]; split_and!; [by apply Hins|done|by intros resp fs [= <-]]|].
  set (h1 := if _ <? _ then _ else h).
  assert (Hh1 : fh_broker_id h1 = b ∧ fh_topic_partition h1 = hb_topic_partition req)
    by (unfold h1; by destruct (_ <? _)).
  destruct Hh1 as [Hb1 Htp1].
  case_bool_decide; intros [= <- <-]; (split_and!; [by apply Hins|done|]); intros resp fs [= <-]; [done|].
  intros [= <-]. simpl. by rewrite Htp1.
Qed.

(** A call changes at most the called broker. *)
Lemma net_call_spec {A} b (rpc : BrokerService L R → Result A * BrokerService L R) n r n' :
  (∀ s r s', service_ok b s → rpc s = (r, s') → service_ok b s' ∧
     ∀ tp, rl_next_offset (bs_log s) tp ≤ rl_next_offset (bs_log s') tp) →
  cluster_ok n → net_call b rpc n = (r, n') →
  cluster_ok n' ∧ (∀ tp b', cluster_position n tp b' ≤ cluster_position n' tp b') ∧
  ∀ a, r = Ok a → ∃ s s', service_ok b s ∧ rpc s = (Ok a, s') ∧ cl_services n' !! b = Some s'.
Proof.
  intros Hrpc Hok. unfold net_call. cbn [cl_services cl_now cl_faults].
  destruct (cl_services n !! b) as [s|] eqn:Es; cycle 1.
  { destruct (default _ _); intros [= <- <-]; by split_and!. }
  destruct (rpc s) as [rs s'] eqn:Er. destruct (Hrpc s rs s' (Hok _ _ Es) Er) as [Hok' Hm].
  assert (Hn' : ∀ faults, let n' := mkCluster (<[b := s']> (cl_services n)) (cl_now n) faults in
    cluster_ok n' ∧ ∀ tp b', cluster_position n tp b' ≤ cluster_position n' tp b').
  { intros faults. split.
    - intros b' s0. simpl. rewrite lookup_insert_Some. intros [[<- <-]|[_ H0]]; [done|by apply Hok].
    - intros tp b'. unfold cluster_position. simpl. destruct (decide (b' = b)) as [->|].
      + rewrite lookup_insert_eq, Es. simpl. apply Hm.
      + by rewrite lookup_insert_ne. }
  destruct (default _ _); intros [= <- <-]; (split_and!; [by try apply Hn'|by try apply Hn'|]); try done.
  intros a ->. exists s, s'. split_and!; [by apply Hok|done|]. simpl. apply lookup_insert_eq.
Qed.

#[export] Program Instance cluster_laws : RpcLaws (Cluster L R) := {|
  rpc_position := cluster_position;
  rpc_ok := cluster_ok;
|}.
Next Obligation.
  intros n tp b Hok. unfold cluster_position. destruct (cl_services n !! b) as [s|] eqn:E; simpl; [|done].
  by apply (Hok b s E).
Qed.
Next Obligation.
  intros b req n r n' Hok E. apply net_call_spec in E as (Hok' & Hm & Hr); [| |done].
  - split_and!; [done|done|]. intros resp -> Hs. destruct (Hr resp eq_refl) as (s & s' & Hs1 & Hc & Hl).
    apply (replicate_data_spec _ _ b) in Hc as ((_ & Hu) & _ & Hresp); [|done].
    destruct (Hresp resp eq_refl Hs) as [Hrec Hfs]. unfold cluster_position. rewrite Hl. simpl.
    split; [done|]. intros fs Hf. destruct (Hfs fs Hf) as [? ->]. split_and!; [done|apply Hu|done].
  - intros s0 r0 s0' Hs0 E0. apply (replicate_data_spec _ _ b) in E0 as (? & ? & _); [done|done].
Qed.
Next Obligation.
  intros b req n r n' Hok E. apply net_call_spec in E as (Hok' & Hm & Hr); [| |done].
  - split_and!; [done|done|]. intros resp fs -> _ Hf. destruct (Hr resp eq_refl) as (s & s' & Hs1 & Hc & Hl).
    apply (send_heartbeat_spec _ _ b) in Hc as (_ & Hlog & Hresp); [|done].
    unfold cluster_position. rewrite Hl. simpl. rewrite Hlog, (Hresp resp fs eq_refl Hf).
    split; [apply Hs1|done].
  - intros s0 r0 s0' Hs0 E0. apply (send_heartbeat_spec _ _ b) in E0 as (? & -> & _); [done|done].
Qed.
End cluster.

(** ** Three replicas *)

Module ReplicationDemo.
Import Mem StoreDemo.
#[local] Existing Instances wal_codec StoreDemo.res_codec um lru.
#[local] Instance log : RecordLog StoreDemo.PS := store_record_log 100.
#[local] Instance log_laws : RecordLogLaws StoreDemo.PS := store_record_log_laws 100.

Definition follower (b : BrokerId) : BrokerService StoreDemo.PS (gmap string (list Z)) :=
  mkService {[Demo.tp0 := mkHandler 1 (Some "b1") Demo.tp0 b]} b st0 None.
(** The first response is lost. *)
Definition net : Cluster StoreDemo.PS (gmap string (list Z)) :=
  mkCluster (<["b2" := follower "b2"]> {["b3" := follower "b3"]}) 1000 [LoseResponse].
Definition leader0 : ReplicationManager StoreDemo.PS (Cluster StoreDemo.PS (gmap string (list Z))) :=
  rm_new Demo.tp0 "b1" 1 ["b1"; "b2"; "b3"] (mkReplicationConfig 2 10 5000) st0 net.

Lemma net_ok : cluster_ok net.
Proof.
  intros b s. unfold net. cbn [cl_services]. rewrite lookup_insert_Some, lookup_singleton_Some.
  intros [[<- <-]|[_ [<- <-]]]; (split; [|intros tp; split; [done|reflexivity]]);
    intros tp h; cbn [bs_follower_handlers follower]; rewrite lookup_singleton_Some; by intros [<- <-].
Qed.

Lemma leader0_fresh : fresh_leader "b1" leader0.
Proof.
  exists Demo.tp0, 1, ["b1"; "b2"; "b3"], (mkReplicationConfig 2 10 5000), st0, net. split_and!.
  - reflexivity.
  - apply (bool_decide_unpack _). reflexivity.
  - exact net_ok.
  - vm_compute. discriminate.
Qed.

Lemma id_forward : only_forward (N := Cluster StoreDemo.PS (gmap string (list Z))) id.
Proof. intros n Hn. by split. Qed.


(** The broker constructs its managers with itself as the only replica: a
    record is then [Durable] with one copy, although two replicas are to be in
    sync. *)
Example durable_with_one_copy :
  let m := rm_new Demo.tp0 "b1" 1 ["b1"] (mkReplicationConfig 2 10 5000) st0 net in
  ((replicate_record id id 1000 r0 m).1, copies m) = (Ok (mkReplicationResult 0 Durable), 1).
Proof. vm_compute. reflexivity. Qed.

Lemma durable_means_replicated_witness :
  (replicate_record id id 1000 r0 leader0).1 = Ok (mkReplicationResult 0 Durable) ∧
  ∃ R : list BrokerId, NoDup R ∧ 2 ≤ Z.of_nat (length R) ∧
    ∀ b, b ∈ R → 1 ≤ replica_position "b1" (replicate_record id id 1000 r0 leader0).2 b.
Proof.
  destruct (replicate_record id id 1000 r0 leader0) as [res m'] eqn:E.
  assert (Hres : res = Ok (mkReplicationResult 0 Durable))
    by (change res with (res, m').1; rewrite <- E; vm_compute; reflexivity).
  assert (Hcfg : copies m' = 2)
    by (change m' with (res, m').2; rewrite <- E; vm_compute; reflexivity).
  subst res. split; [reflexivity|].
  destruct (durable_means_replicated "b1" leader0 leader0 id id 1000 r0 (mkReplicationResult 0 Durable) m')
    as (_ & R & Hnd & Hlen & HR).
  - exact leader0_fresh.
  - apply rtc_refl.
  - reflexivity.
  - split; [vm_compute; discriminate|reflexivity].
  - intros l. reflexivity.
  - exact id_forward.
  - exact E.
  - reflexivity.
  - exists R. rewrite Hcfg in Hlen. split; [exact Hnd|]. split; [exact Hlen|exact HR].
Defined.
End ReplicationDemo.
