(* ===== verification/ConsumerGroup.v ===== *)
(** * Consumer groups

    Model of [src/src/consumer_group/coordinator.rs] (the group coordinator)
    and [src/src/consumer_group/snapshot.rs] (its snapshots).  Every handler
    runs under the write lock of the group table, so a handler is one step.
    Iteration orders of hash maps and sets, generated member ids and times are
    arguments. *)

From Stdlib Require Import Ascii String.
From S2P Require Import Prelude Types.
Local Open Scope Z_scope.

(** ** State *)

Inductive GroupState := Empty | Stable | PreparingRebalance | CompletingRebalance | Dead.
#[global] Instance GroupState_eq_dec : EqDecision GroupState.
Proof. solve_decision. Defined.

(** [last_heartbeat] is an [Instant] in milliseconds; it is not serialized,
    so a recovered member has none. *)
Record MemberState := mkMember {
  ms_member_id : string;
  ms_subscribed_topics : list string;
  ms_last_heartbeat : option Z;
  ms_session_timeout_ms : Z;
}.

Record ConsumerGroupState := mkGroup {
  gs_group_id : string;
  gs_generation_id : Z;
  gs_members : gmap string MemberState;
  gs_state : GroupState;
  gs_assignment : gmap string (list TopicPartition);
  gs_committed_offsets : gmap TopicPartition Offset;
}.

Record GroupCoordinatorManager (L : Type) := mkGCM {
  gm_groups : gmap string ConsumerGroupState;
  gm_record_log : L;
  gm_offsets_partition_count : Z;
  gm_topic_partitions : gmap string Z;
  gm_rebalance_count : Z;
  gm_commit_count : Z;
}.
Arguments mkGCM {L}. Arguments gm_groups {L}. Arguments gm_record_log {L}.
Arguments gm_offsets_partition_count {L}. Arguments gm_topic_partitions {L}.
Arguments gm_rebalance_count {L}. Arguments gm_commit_count {L}.

Record JoinGroupRequest := mkJoin {
  jr_group_id : string;
  jr_member_id : string;
  jr_session_timeout_ms : Z;
  jr_topics : list string;
}.
Record JoinGroupResponse := mkJoinResponse {
  jp_generation_id : Z;
  jp_member_id : string;
  jp_leader_id : string;
  jp_assigned_partitions : gmap string (list TopicPartition);
  jp_error_code : Z;
}.
Record ConsumerHeartbeatRequest := mkConsumerHeartbeat {
  ch_group_id : string;
  ch_member_id : string;
  ch_generation_id : Z;
}.
(** [offsets] is a hash map, here in the order in which it is iterated. *)
Record CommitOffsetRequest := mkCommit {
  co_group_id : string;
  co_member_id : string;
  co_generation_id : Z;
  co_offsets : list (TopicPartition * Offset);
}.

(** ** Assignment *)

Definition all_topics (members : gmap string MemberState) : gset string :=
  list_to_set (map_to_list members ≫= λ kv, ms_subscribed_topics kv.2).

(** The loop over the topics; a topic of unknown size counts as one partition. *)
Definition all_partitions (topic_partitions : gmap string Z) (topics : list string) : list TopicPartition :=
  topic ← topics;
  mkTP topic <$> seqZ 0 (default 1 (topic_partitions !! topic)).

(** The round-robin loop ([i] is the index of the enumeration). *)
Definition assign_step (member_ids : list string) (acc : nat * gmap string (list TopicPartition))
    (tp : TopicPartition) : nat * gmap string (list TopicPartition) :=
  let '(i, m) := acc in
  (S i, match member_ids !! (i `mod` length member_ids)%nat with
        | Some member => <[member := default [] (m !! member) ++ [tp]]> m
        | None => m
        end).
Definition assign (member_ids : list string) (partitions : list TopicPartition)
  : gmap string (list TopicPartition) := (foldl (assign_step member_ids) (0%nat, ∅) partitions).2.

(** ** Handlers *)

Section coordinator.
Context {L : Type} `{!RecordLog L} `{!Bincode Z, !Bincode bytes}.
(** [DefaultHasher] and CRC-32 *)
Context (hash : string → Z) (crc32 : bytes → Z).
Abbreviation GCM := (GroupCoordinatorManager L).

Definition set_group (id : string) (g : ConsumerGroupState) (m : GCM) : GCM :=
  mkGCM (<[id := g]> (gm_groups m)) (gm_record_log m) (gm_offsets_partition_count m)
    (gm_topic_partitions m) (gm_rebalance_count m) (gm_commit_count m).
Definition count_rebalance (m : GCM) : GCM :=
  mkGCM (gm_groups m) (gm_record_log m) (gm_offsets_partition_count m) (gm_topic_partitions m)
    (u64_add (gm_rebalance_count m) 1) (gm_commit_count m).

Definition gcm_new (log : L) (offsets_partition_count : Z) : GCM :=
  mkGCM ∅ log offsets_partition_count ∅ 0 0.

Definition update_topic_partitions (topic : string) (partition_count : Z) (m : GCM) : GCM :=
  mkGCM (gm_groups m) (gm_record_log m) (gm_offsets_partition_count m)
    (<[topic := partition_count]> (gm_topic_partitions m)) (gm_rebalance_count m) (gm_commit_count m).

Definition partition_for (group_id : string) (m : GCM) : Z :=
  as_u32 (hash group_id mod gm_offsets_partition_count m).

Definition new_group (id : string) : ConsumerGroupState := mkGroup id 0 ∅ Empty ∅ ∅.

(** Start of a rebalance: the generation is bumped and the assignment
    dropped. *)
Definition begin_rebalance (g : ConsumerGroupState) : ConsumerGroupState :=
  mkGroup (gs_group_id g) (u64_add (gs_generation_id g) 1) (gs_members g) PreparingRebalance ∅
    (gs_committed_offsets g).

Definition with_members (members : gmap string MemberState) (g : ConsumerGroupState) : ConsumerGroupState :=
  mkGroup (gs_group_id g) (gs_generation_id g) members (gs_state g) (gs_assignment g)
    (gs_committed_offsets g).

(** [order_topics] and [order_members] are iteration orders, [fresh_id] is
    the generated UUID. *)
Definition handle_join_group (order_topics order_members : list string → list string)
    (fresh_id : string) (now : Z) (request : JoinGroupRequest) (m : GCM) : JoinGroupResponse * GCM :=
  let g := default (new_group (jr_group_id request)) (gm_groups m !! jr_group_id request) in
  let rebalance := bool_decide (gs_state g = Empty) || bool_decide (gs_state g = Stable) in
  let g := if rebalance then begin_rebalance g else g in
  let m := if rebalance then count_rebalance m else m in
  let member_id := if decide (jr_member_id request = EmptyString) then fresh_id else jr_member_id request in
  let members := <[member_id := mkMember member_id (jr_topics request) (Some now)
                                  (jr_session_timeout_ms request)]> (gs_members g) in
  let partitions := all_partitions (gm_topic_partitions m) (order_topics (elements (all_topics members))) in
  let member_ids := order_members (map_to_list members).*1 in
  let assignments := assign member_ids partitions in
  let g := mkGroup (gs_group_id g) (gs_generation_id g) members Stable assignments (gs_committed_offsets g) in
  (mkJoinResponse (gs_generation_id g) member_id (default EmptyString (head member_ids)) assignments 0,
   set_group (jr_group_id request) g m).

Definition handle_heartbeat (now : Z) (request : ConsumerHeartbeatRequest) (m : GCM) : Z * GCM :=
  match gm_groups m !! ch_group_id request with
  | None => (16, m)
  | Some g =>
      if decide (gs_state g = PreparingRebalance) then (27, m)
      else if negb (gs_generation_id g =? ch_generation_id request) then (22, m)
      else match gs_members g !! ch_member_id request with
           | Some member =>
               let member := mkMember (ms_member_id member) (ms_subscribed_topics member) (Some now)
                               (ms_session_timeout_ms member) in
               (0, set_group (ch_group_id request)
                     (with_members (<[ch_member_id request := member]> (gs_members g)) g) m)
           | None => (25, m)
           end
  end.

(** What leaving and eviction do to a group whose members are now [members]. *)
Definition after_removal (members : gmap string MemberState) (g : ConsumerGroupState)
  : ConsumerGroupState * bool :=
  let g := with_members members g in
  if decide (members = ∅) then
    (mkGroup (gs_group_id g) (gs_generation_id g) members Empty (gs_assignment g) (gs_committed_offsets g), false)
  else (begin_rebalance g, true).

Definition handle_leave_group (group_id member_id : string) (m : GCM) : Z * GCM :=
  match gm_groups m !! group_id with
  | None => (16, m)
  | Some g =>
      let '(g, rebalance) := after_removal (delete member_id (gs_members g)) g in
      (0, set_group group_id g (if rebalance : bool then count_rebalance m else m))
  end.

(** One tick of the reaper on one group. *)
Definition is_expired (now : Z) (member : MemberState) : bool :=
  match ms_last_heartbeat member with
  | Some hb => ms_session_timeout_ms member <? now - hb
  | None => true
  end.
Definition reap_group (now : Z) (g : ConsumerGroupState) : ConsumerGroupState * bool :=
  if bool_decide (gs_state g = Dead) || bool_decide (gs_state g = Empty) then (g, false) else
  let expired := filter (λ kv, is_expired now kv.2 = true) (gs_members g) in
  let kept := filter (λ kv, is_expired now kv.2 = false) (gs_members g) in
  if decide (expired = ∅) then (g, false) else after_removal kept g.
Definition reap (now : Z) (m : GCM) : GCM :=
  let reaped := reap_group now <$> gm_groups m in
  mkGCM (fst <$> reaped) (gm_record_log m) (gm_offsets_partition_count m) (gm_topic_partitions m)
    (u64_add (gm_rebalance_count m) (Z.of_nat (size (filter (λ kv, kv.2.2 = true) reaped))))
    (gm_commit_count m).

(** The record that persists one committed offset. *)
Definition offset_record (now : Z) (partition : Z) (group_id : string) (tp : TopicPartition) (offset : Offset)
  : WalRecord :=
  let key := "offset:" +:+ group_id +:+ ":" +:+ tp_topic tp +:+ ":" +:+ dec (tp_partition tp) in
  let value := serialize offset in
  mkWal (mkTP "__consumer_offsets" partition) 0
    (mkRecord (Some (str_bytes key)) value [] now) (crc32 (serialize value)).

(** The [for (tp, offset) in &request.offsets] loop: whether every append
    succeeded, and the offsets recorded so far. *)
Fixpoint commit_all (now partition : Z) (group_id : string) (offsets : list (TopicPartition * Offset))
    (committed : gmap TopicPartition Offset) (log : L) : bool * gmap TopicPartition Offset * L :=
  match offsets with
  | [] => (true, committed, log)
  | (tp, offset) :: offsets =>
      match rl_append (offset_record now partition group_id tp offset) log with
      | (Ok _, log) => commit_all now partition group_id offsets (<[tp := offset]> committed) log
      | (Err _, log) => (false, committed, log)
      end
  end.

(** A modulus of zero panics. *)
Definition handle_commit_offset (now : Z) (request : CommitOffsetRequest) (m : GCM) : Result Z * GCM :=
  match gm_groups m !! co_group_id request with
  | None => (Ok 16, m)
  | Some g =>
      if negb (gs_generation_id g =? co_generation_id request) then (Ok 22, m)
      else if gm_offsets_partition_count m =? 0 then (Err Panic, m)
      else
        let '(ok, committed, log) :=
          commit_all now (partition_for (co_group_id request) m) (co_group_id request)
            (co_offsets request) (gs_committed_offsets g) (gm_record_log m) in
        let g := mkGroup (gs_group_id g) (gs_generation_id g) (gs_members g) (gs_state g)
                   (gs_assignment g) committed in
        let count := if ok : bool then Z.of_nat (length (co_offsets request)) else 0 in
        (Ok (if ok then 0 else 1),
         mkGCM (<[co_group_id request := g]> (gm_groups m)) log (gm_offsets_partition_count m)
           (gm_topic_partitions m) (gm_rebalance_count m) (u64_add (gm_commit_count m) count))
  end.

Definition handle_fetch_offset (group_id : string) (tps : list TopicPartition) (m : GCM)
  : gmap TopicPartition Offset * Z :=
  match gm_groups m !! group_id with
  | None => (∅, 16)
  | Some g =>
      (foldl (λ result tp, match gs_committed_offsets g !! tp with
                           | Some offset => <[tp := offset]> result
                           | None => result
                           end) ∅ tps, 0)
  end.
End coordinator.

(** ** Round robin *)

Section assignment.
Context (member_ids : list string) (Hnd : NoDup member_ids) (Hne : member_ids ≠ []).
Abbreviation n_members := (length member_ids).
Abbreviation part a m := (default [] (a !! m)).
Implicit Types (a : gmap string (list TopicPartition)) (tp : TopicPartition).

Lemma n_members_pos : (0 < n_members)%nat.
Proof using Hnd Hne. destruct member_ids; [done|simpl; lia]. Qed.

Lemma assign_snoc l tp :
  ∃ m, member_ids !! (length l `mod` n_members)%nat = Some m ∧
    assign member_ids (l ++ [tp]) = <[m := part (assign member_ids l) m ++ [tp]]> (assign member_ids l).
Proof using Hnd Hne.
  assert (Hi : ∀ l acc, (foldl (assign_step member_ids) acc l).1 = (acc.1 + length l)%nat).
  { clear l. intros l. induction l as [|x l IH]; intros [i a]; simpl; [lia|]. rewrite IH. simpl. lia. }
  destruct (lookup_lt_is_Some_2 member_ids (length l `mod` n_members)) as [m Hm].
  { apply Nat.mod_upper_bound. pose proof n_members_pos. lia. }
  exists m. split; [done|]. unfold assign. rewrite foldl_app. simpl.
  specialize (Hi l (0%nat, ∅)). destruct (foldl _ _ l) as [i a]. simpl in *. subst i. by rewrite Hm.
Qed.

(** Member [j] gets [n / m] partitions, and one more if [j < n mod m]. *)
Lemma assign_count l j m :
  member_ids !! j = Some m →
  length (part (assign member_ids l) m)
  = (length l / n_members + if decide (j < length l `mod` n_members) then 1 else 0)%nat.
Proof using Hnd Hne.
  intros Hj. pose proof n_members_pos as Hpos. assert (Hjlt : (j < n_members)%nat) by by eapply lookup_lt_Some.
  induction l as [|tp l IH] using rev_ind.
  { unfold assign. cbn [foldl snd length]. rewrite lookup_empty, Nat.Div0.div_0_l, Nat.Div0.mod_0_l, decide_False by lia. done. }
  destruct (assign_snoc l tp) as (m' & Hm' & ->). rewrite length_app. simpl.
  set (n := length l) in *. set (k := n_members) in *.
  pose proof (Nat.div_mod_eq n k) as Hdm. pose proof (Nat.mod_upper_bound n k) as Hub.
  assert (Hsucc : ((n + 1) / k = n / k ∧ (n + 1) mod k = n mod k + 1 ∧ n mod k + 1 < k ∨
                  (n + 1) / k = n / k + 1 ∧ (n + 1) mod k = 0 ∧ n mod k + 1 = k)%nat).
  { destruct (decide (n mod k + 1 < k)%nat).
    - left. split_and!; [symmetry; apply (Nat.div_unique _ _ _ (n mod k + 1))
                        |symmetry; apply (Nat.mod_unique _ _ (n / k))|]; lia.
    - right. split_and!; [symmetry; apply (Nat.div_unique _ _ _ 0)
                         |symmetry; apply (Nat.mod_unique _ _ (n / k + 1))|]; nia. }
  destruct (decide (m' = m)) as [->|Hdiff].
  - rewrite lookup_insert_eq. simpl. rewrite length_app, IH. simpl.
    assert (j = (n mod k)%nat) as -> by by eapply NoDup_lookup.
    destruct Hsucc as [(-> & -> & ?)|(-> & -> & ?)]; repeat case_decide; lia.
  - rewrite lookup_insert_ne, IH by done.
    assert (j ≠ (n mod k)%nat) by (intros ->; congruence).
    destruct Hsucc as [(-> & -> & ?)|(-> & -> & ?)]; repeat case_decide; lia.
Qed.

(** Adding a partition to one member's list. *)
Lemma concat_insert_notin (ms : list string) a m v :
  m ∉ ms → (ms ≫= λ x, part (<[m := v]> a) x) = (ms ≫= λ x, part a x).
Proof.
  induction ms as [|y ms IH]; [done|]. intros [? ?]%not_elem_of_cons.
  rewrite !bind_cons, lookup_insert_ne, IH by done. done.
Qed.
Lemma concat_insert (ms : list string) a m tp :
  NoDup ms → m ∈ ms →
  (ms ≫= λ x, part (<[m := part a m ++ [tp]]> a) x) ≡ₚ (ms ≫= λ x, part a x) ++ [tp].
Proof.
  induction 1 as [|x ms Hx Hms IH]; [by intros ?%elem_of_nil|]. rewrite !bind_cons.
  intros [->|Hin]%elem_of_cons.
  - rewrite lookup_insert_eq, concat_insert_notin by done. simpl. solve_Permutation.
  - assert (x ≠ m) by (by intros ->). rewrite lookup_insert_ne, IH by done. by rewrite app_assoc.
Qed.

Lemma assign_concat l : (member_ids ≫= λ m, part (assign member_ids l) m) ≡ₚ l.
Proof using Hnd Hne.
  induction l as [|tp l IH] using rev_ind.
  { clear. unfold assign. simpl. induction member_ids as [|m ms IH]; [done|]. cbn. by rewrite lookup_empty. }
  destruct (assign_snoc l tp) as (m & Hm & ->). rewrite concat_insert; [by rewrite IH|done|].
  by eapply list_elem_of_lookup_2.
Qed.
End assignment.

(** ** What a group promises *)

Section group.
Context {L : Type} `{!RecordLog L} `{!Bincode Z, !Bincode bytes}.
Context (hash : string → Z) (crc32 : bytes → Z).
Abbreviation GCM := (GroupCoordinatorManager L).
Implicit Types (m : GCM) (g : ConsumerGroupState) (tp : TopicPartition).

Lemma all_partitions_elem counts topics tp :
  tp ∈ all_partitions counts topics ↔
  tp_topic tp ∈ topics ∧ 0 ≤ tp_partition tp < default 1 (counts !! tp_topic tp).
Proof.
  unfold all_partitions. rewrite list_elem_of_bind. split.
  - intros (t & Htp & Ht). apply list_elem_of_fmap in Htp as (p & -> & Hp%elem_of_seqZ). simpl. split; [done|lia].
  - intros [Ht Hp]. exists (tp_topic tp). split; [|done]. apply list_elem_of_fmap. exists (tp_partition tp).
    split; [by destruct tp|]. apply elem_of_seqZ. lia.
Qed.

Lemma all_partitions_NoDup counts topics : NoDup topics → NoDup (all_partitions counts topics).
Proof.
  intros Hnd. apply NoDup_bind; [|intros t _; apply NoDup_fmap_2; [by intros ?? [=]|apply NoDup_seqZ]|done].
  intros t1 t2 tp _ _ H1 H2. apply list_elem_of_fmap in H1 as (? & -> & _), H2 as (? & [= ->] & _). done.
Qed.

Lemma all_topics_elem members t :
  t ∈ all_topics members ↔ ∃ id member, members !! id = Some member ∧ t ∈ ms_subscribed_topics member.
Proof.
  unfold all_topics. rewrite elem_of_list_to_set, list_elem_of_bind. split.
  - intros ([id member] & Ht & Hin%elem_of_map_to_list). eauto.
  - intros (id & member & Hin & Ht). exists (id, member). by rewrite elem_of_map_to_list.
Qed.

(** C36: joining leaves a complete and balanced assignment.  Afterwards the
    group is stable with the joining member in it, and every partition of
    every topic somebody subscribed to is assigned to exactly one member;
    the numbers of partitions of any two members differ by at most one. *)
Theorem join_assignment order_topics order_members fresh now req m resp m' :
  (∀ l, order_topics l ≡ₚ l) → (∀ l, order_members l ≡ₚ l) →
  handle_join_group order_topics order_members fresh now req m = (resp, m') →
  ∃ g, gm_groups m' !! jr_group_id req = Some g ∧ gs_state g = Stable ∧
    is_Some (gs_members g !! jp_member_id resp) ∧
    jp_generation_id resp = gs_generation_id g ∧ jp_assigned_partitions resp = gs_assignment g ∧
    let ids := (map_to_list (gs_members g)).*1 in
    let part id := default [] (gs_assignment g !! id) in
    NoDup (ids ≫= part) ∧
    (∀ tp, tp ∈ ids ≫= part ↔
       (∃ id member, gs_members g !! id = Some member ∧ tp_topic tp ∈ ms_subscribed_topics member) ∧
       0 ≤ tp_partition tp < default 1 (gm_topic_partitions m !! tp_topic tp)) ∧
    (∀ id1 id2, id1 ∈ ids → id2 ∈ ids → (length (part id1) ≤ length (part id2) + 1)%nat).
Proof.
  intros Hot Hom. unfold handle_join_group.
  set (g0 := default _ _). set (reb := bool_decide _ || bool_decide _).
  set (g1 := if reb then begin_rebalance g0 else g0). set (m1 := if reb then count_rebalance m else m).
  set (member_id := if decide _ then _ else _). set (members := <[member_id := _]> (gs_members g1)).
  set (parts := all_partitions _ _). set (ids := order_members _). intros [= <- <-].
  assert (Hids : NoDup ids) by (unfold ids; rewrite Hom; apply NoDup_fst_map_to_list).
  assert (Hmem : is_Some (members !! member_id)) by (unfold members; rewrite lookup_insert_eq; eauto).
  assert (Hne : ids ≠ []).
  { intros E. unfold ids in E. destruct Hmem as [mem Hm].
    assert (Hin : member_id ∈ order_members (map_to_list members).*1).
    { rewrite Hom. apply list_elem_of_fmap. exists (member_id, mem). by rewrite elem_of_map_to_list. }
    rewrite E in Hin. by apply elem_of_nil in Hin. }
  assert (Hcounts : gm_topic_partitions m1 = gm_topic_partitions m) by (unfold m1; by destruct reb).
  eexists. simpl. split; [by rewrite lookup_insert_eq|]. simpl. split_and!; try done.
  - rewrite <- (Hom (map_to_list members).*1). fold ids. rewrite assign_concat by done.
    apply all_partitions_NoDup. rewrite Hot. apply NoDup_elements.
  - intros tp. rewrite <- (Hom (map_to_list members).*1). fold ids. rewrite assign_concat by done.
    unfold parts. rewrite all_partitions_elem, Hot, elem_of_elements, all_topics_elem, Hcounts. done.
  - intros id1 id2 H1 H2. rewrite <- (Hom (map_to_list members).*1) in H1, H2. fold ids in H1, H2.
    apply list_elem_of_lookup in H1 as [j1 H1], H2 as [j2 H2].
    rewrite (assign_count ids Hids Hne parts j1 id1), (assign_count ids Hids Hne parts j2 id2) by done.
    repeat case_decide; lia.
Qed.

(** *** Histories of a coordinator *)

Inductive GroupOp :=
  | OpJoin (order_topics order_members : list string → list string) (fresh : string) (now : Z)
      (req : JoinGroupRequest)
  | OpGroupHeartbeat (now : Z) (req : ConsumerHeartbeatRequest)
  | OpLeave (group_id member_id : string)
  | OpCommit (now : Z) (req : CommitOffsetRequest)
  | OpReap (now : Z)
  | OpTopic (topic : string) (count : Z).

Definition run_group_op (op : GroupOp) m : GCM :=
  match op with
  | OpJoin ot om fresh now req => (handle_join_group ot om fresh now req m).2
  | OpGroupHeartbeat now req => (handle_heartbeat now req m).2
  | OpLeave gid mid => (handle_leave_group gid mid m).2
  | OpCommit now req => (handle_commit_offset hash crc32 now req m).2
  | OpReap now => reap now m
  | OpTopic topic count => update_topic_partitions topic count m
  end.
Definition run_group_ops (ops : list GroupOp) m : GCM := foldl (λ m op, run_group_op op m) m ops.

(** What one operation does to group [id]: the generation stays or goes up
    by one, and only a commit to the group changes its offsets. *)
Definition group_moves g g' : Prop :=
  gs_generation_id g' = gs_generation_id g ∨ gs_generation_id g' = u64_add (gs_generation_id g) 1.

Definition commits_to (id : string) (op : GroupOp) : Prop :=
  match op with OpCommit _ req => co_group_id req = id | _ => False end.

Lemma after_removal_moves members g :
  group_moves g (after_removal members g).1 ∧
  gs_committed_offsets (after_removal members g).1 = gs_committed_offsets g.
Proof. unfold after_removal, group_moves. case_decide; simpl; auto. Qed.

Lemma group_op_moves op m id g :
  gm_groups m !! id = Some g →
  ∃ g', gm_groups (run_group_op op m) !! id = Some g' ∧ group_moves g g' ∧
    (¬ commits_to id op → gs_committed_offsets g' = gs_committed_offsets g).
Proof.
  intros Hg.
  assert (Hsame : ∃ g', gm_groups m !! id = Some g' ∧ group_moves g g' ∧
            (¬ commits_to id op → gs_committed_offsets g' = gs_committed_offsets g)).
  { exists g. split_and!; [done|by left|done]. }
  assert (Hset : ∀ (groups : gmap string ConsumerGroupState) id' g', groups = gm_groups m →
    (id' = id → group_moves g g' ∧ (¬ commits_to id op → gs_committed_offsets g' = gs_committed_offsets g)) →
    ∃ g'', <[id' := g']> groups !! id = Some g'' ∧ group_moves g g'' ∧
      (¬ commits_to id op → gs_committed_offsets g'' = gs_committed_offsets g)).
  { intros groups id' g' -> Hid. destruct (decide (id' = id)) as [->|Hne].
    - rewrite lookup_insert_eq. exists g'. split; [done|by apply Hid].
    - by rewrite lookup_insert_ne. }
  destruct op as [ot om fresh now req|now req|gid mid|now req|now|topic count]; simpl.
  - apply Hset; [by destruct (_ || _)|]. intros <-. rewrite Hg. simpl.
    destruct (_ || _); simpl; split; [by right|done|by left|done].
  - unfold handle_heartbeat. destruct (gm_groups m !! ch_group_id req) as [g1|] eqn:E1; [|exact Hsame].
    case_decide; [exact Hsame|]. destruct (negb _); [exact Hsame|].
    destruct (gs_members g1 !! _); [|exact Hsame]. simpl. apply Hset; [done|]. intros <-. simplify_eq.
    split; [by left|done].
  - unfold handle_leave_group. destruct (gm_groups m !! gid) as [g1|] eqn:E1; [|exact Hsame].
    pose proof (after_removal_moves (delete mid (gs_members g1)) g1) as Hr.
    destruct (after_removal _ g1) as [g2 b]. simpl in *. apply Hset; [by destruct b|].
    intros <-. simplify_eq. destruct Hr as [? ?]. done.
  - unfold handle_commit_offset. destruct (gm_groups m !! co_group_id req) as [g1|] eqn:E1; [|exact Hsame].
    destruct (negb _); [exact Hsame|]. destruct (_ =? 0); [exact Hsame|].
    destruct (commit_all _ _ _ _ _ _ _) as [[ok committed] log]. simpl. apply Hset; [done|].
    intros Hid. rewrite Hid in *. simplify_eq. split; [by left|]. intros Hn. by destruct Hn.
  - rewrite !lookup_fmap, Hg. simpl. eexists. split; [done|]. unfold reap_group.
    destruct (_ || _); [split; [by left|done]|]. case_decide; [split; [by left|done]|].
    destruct (after_removal_moves (filter (λ kv, is_expired now kv.2 = false) (gs_members g)) g) as [? ?]. done.
  - exact Hsame.
Qed.

Lemma group_ops_moves ops m id g :
  gm_groups m !! id = Some g → 0 ≤ gs_generation_id g →
  gs_generation_id g + Z.of_nat (length ops) < u64_modulus →
  ∃ g', gm_groups (run_group_ops ops m) !! id = Some g' ∧ gs_generation_id g ≤ gs_generation_id g' ∧
    ((∀ op, op ∈ ops → ¬ commits_to id op) → gs_committed_offsets g' = gs_committed_offsets g).
Proof.
  revert m g. induction ops as [|op ops IH]; intros m g Hg Hnn Hb; [by exists g|]. simpl in Hb.
  destruct (group_op_moves op m id g Hg) as (g1 & Hg1 & Hm & Hc).
  assert (gs_generation_id g ≤ gs_generation_id g1 ≤ gs_generation_id g + 1).
  { destruct Hm as [->| ->]; [lia|]. rewrite u64_add_small by lia. lia. }
  destruct (IH (run_group_op op m) g1 Hg1) as (g2 & Hg2 & Hle & Hc2); [lia|lia|].
  exists g2. split_and!; [done|lia|]. intros Hno. rewrite Hc2; [apply Hc, Hno; by left|].
  intros op' ?. apply Hno. by right.
Qed.

(** A rebalance fences the previous generation.  When a member joins a
    stable group, the members of the previous generation can no longer
    commit: after any further operations, a commit that carries the old
    generation is refused with error 22 and changes nothing. *)
Theorem rebalance_fences_commits ot om fresh now req m resp m1 g ops now' creq :
  gm_groups m !! jr_group_id req = Some g → gs_state g = Stable → 0 ≤ gs_generation_id g →
  gs_generation_id g + 1 + Z.of_nat (length ops) < u64_modulus →
  handle_join_group ot om fresh now req m = (resp, m1) →
  co_group_id creq = jr_group_id req → co_generation_id creq ≤ gs_generation_id g →
  let m2 := run_group_ops ops m1 in
  handle_commit_offset hash crc32 now' creq m2 = (Ok 22, m2).
Proof.
  intros Hg Hst Hnn Hb Hj Hid Hgen m2.
  assert (∃ g1, gm_groups m1 !! jr_group_id req = Some g1 ∧ gs_generation_id g1 = gs_generation_id g + 1)
    as (g1 & Hg1 & Hgen1).
  { unfold handle_join_group in Hj. rewrite Hg in Hj. simpl in Hj. rewrite Hst in Hj. simpl in Hj.
    injection Hj as <- <-. simpl. rewrite lookup_insert_eq. eexists. split; [done|]. simpl.
    apply u64_add_small. lia. }
  destruct (group_ops_moves ops m1 _ g1 Hg1) as (g2 & Hg2 & Hle & _); [lia|lia|]. fold m2 in Hg2.
  unfold handle_commit_offset. rewrite Hid, Hg2.
  by rewrite (proj2 (Z.eqb_neq _ _)) by lia.
Qed.

Lemma commit_all_spec now p id offsets committed (log : L) ok committed' log' :
  NoDup offsets.*1 → commit_all crc32 now p id offsets committed log = (ok, committed', log') → ok = true →
  ∀ tp, committed' !! tp = match (list_to_map offsets : gmap TopicPartition Offset) !! tp with
                           | Some o => Some o | None => committed !! tp end.
Proof.
  revert committed log. induction offsets as [|[tp o] offsets IH]; intros committed log Hnd; simpl.
  { intros [= <- <- <-] _ tp. by rewrite lookup_empty. }
  apply NoDup_cons in Hnd as [Hnot Hnd]. destruct (rl_append _ log) as [[[]|e] log1]; [|by intros [= <- <- <-]].
  intros E Hok tp'. rewrite (IH _ _ Hnd E Hok). destruct (decide (tp = tp')) as [->|Hne].
  - rewrite lookup_insert_eq, not_elem_of_list_to_map_1 by done. by rewrite lookup_insert_eq.
  - rewrite !lookup_insert_ne by done. done.
Qed.

Lemma fetch_fold (c : gmap TopicPartition Offset) tps (result : gmap TopicPartition Offset) tp :
  foldl (λ result tp, match c !! tp with Some offset => <[tp := offset]> result | None => result end) result tps !! tp
  = if decide (tp ∈ tps) then match c !! tp with Some o => Some o | None => result !! tp end else result !! tp.
Proof.
  revert result. induction tps as [|x tps IH]; intros result; cbn [foldl].
  { destruct (decide (tp ∈ [])) as [Hn|_]; [by apply elem_of_nil in Hn|done]. }
  rewrite IH. destruct (decide (tp = x)) as [->|Hne].
  - destruct (decide (x ∈ x :: tps)) as [_|Hn]; [|destruct Hn; by left].
    destruct (c !! x) as [o|]; [rewrite lookup_insert_eq|]; by case_decide.
  - destruct (c !! x) as [o|]; [rewrite lookup_insert_ne by done|];
      destruct (decide (tp ∈ tps)), (decide (tp ∈ x :: tps)) as [Hx|Hx]; try done;
      first [by destruct Hx; right | by apply elem_of_cons in Hx as [?|?]].
Qed.

(** Committed offsets are what a later fetch returns.  After a commit
    that reported success, whatever happens to the group but another commit
    (joins, leaves, evictions, rebalances), a fetch returns the committed
    offset for every partition of the commit that is asked for. *)
Theorem commit_fetch_roundtrip now req m m1 ops tps tp o :
  NoDup (co_offsets req).*1 → (∀ g, gm_groups m !! co_group_id req = Some g →
    0 ≤ gs_generation_id g ∧ gs_generation_id g + Z.of_nat (length ops) < u64_modulus) →
  handle_commit_offset hash crc32 now req m = (Ok 0, m1) →
  (∀ op, op ∈ ops → ¬ commits_to (co_group_id req) op) →
  (tp, o) ∈ co_offsets req → tp ∈ tps →
  ∃ result, handle_fetch_offset (co_group_id req) tps (run_group_ops ops m1) = (result, 0) ∧
    result !! tp = Some o.
Proof.
  intros Hnd Hgen Hc Hops Hin Htps. unfold handle_commit_offset in Hc.
  destruct (gm_groups m !! co_group_id req) as [g|] eqn:Eg; [|done].
  destruct (negb _); [done|]. destruct (_ =? 0); [done|].
  destruct (commit_all _ _ _ _ _ _ _) as [[ok committed] log] eqn:E. injection Hc as Hok Hm1.
  destruct ok; [|done]. destruct (Hgen g eq_refl) as [Hnn Hb].
  assert (Hg1 : gm_groups m1 !! co_group_id req = Some (mkGroup (gs_group_id g) (gs_generation_id g) (gs_members g)
            (gs_state g) (gs_assignment g) committed)) by (rewrite <- Hm1; simpl; by rewrite lookup_insert_eq).
  destruct (group_ops_moves ops m1 _ _ Hg1) as (g2 & Hg2 & _ & Hsame); [done|done|].
  unfold handle_fetch_offset. rewrite Hg2. eexists. split; [done|].
  rewrite fetch_fold, decide_True by done. rewrite (Hsame Hops). simpl.
  rewrite (commit_all_spec _ _ _ _ _ _ _ _ _ Hnd E eq_refl).
  by rewrite (elem_of_list_to_map_1 _ _ _ Hnd Hin).
Qed.
End group.

(** ** Snapshots *)

Fixpoint str_last (s : string) : option ascii :=
  match s with
  | EmptyString => None
  | String c EmptyString => Some c
  | String _ s => str_last s
  end.
Lemma str_last_app s c t : str_last (s +:+ String c t) = str_last (String c t).
Proof.
  induction s as [|x s IH]; [done|]. rewrite <- IH. simpl. by destruct s.
Qed.

(** [snapshot-{offset}.bin] *)
Definition snapshot_name (offset : Z) : string := "snapshot-" +:+ dec offset +:+ ".bin".
Definition tmp_name (offset : Z) : string := "snapshot-" +:+ dec offset +:+ ".tmp".

(** The offset in a snapshot's file name. *)
Definition snapshot_offset (name : string) : option Z :=
  s ← strip_prefix "snapshot-" name; s ← strip_suffix ".bin" s; parse_uint u64_modulus s.

(** The directories of [__consumer_offsets], by partition. *)
Abbreviation SnapshotDir := (gmap Z (gmap string bytes)).

(** Where [save_snapshot] fails (or the broker stops). *)
Inductive snapshot_fault :=
  | SnapOk | SnapCreateDir | SnapCreate | SnapWrite (n : nat) | SnapSync | SnapRename.

(** The loop of [load_latest_snapshot] over the directory entries. *)
Definition latest_step (acc : Z * option string) (name : string) : Z * option string :=
  match snapshot_offset name with
  | Some offset => if acc.1 <=? offset then (offset, Some name) else acc
  | None => acc
  end.

Section snapshot.
(** The serialized table of groups, with what [bincode] does to it. *)
Context (encode_groups : gmap string ConsumerGroupState → bytes)
        (decode_groups : bytes → option (gmap string ConsumerGroupState)).
(** The order of the directory entries. *)
Context (listing : list string → list string).

Definition files_of (partition : Z) (d : SnapshotDir) : gmap string bytes := default ∅ (d !! partition).

Definition save_snapshot (fault : snapshot_fault) (partition offset : Z)
    (state : gmap string ConsumerGroupState) (d : SnapshotDir) : Result unit * SnapshotDir :=
  let files := files_of partition d in
  let data := encode_groups state in
  let tmp := tmp_name offset in
  match fault with
  | SnapCreateDir => (Err Io, d)
  | SnapCreate => (Err Io, <[partition := files]> d)
  | SnapWrite n => (Err Io, <[partition := <[tmp := take n data]> files]> d)
  | SnapSync | SnapRename => (Err Io, <[partition := <[tmp := data]> files]> d)
  | SnapOk => (Ok tt, <[partition := <[snapshot_name offset := data]> (delete tmp (<[tmp := data]> files))]> d)
  end.

Definition load_latest_snapshot (partition : Z) (d : SnapshotDir)
  : Result (option (Z * gmap string ConsumerGroupState)) :=
  match d !! partition with
  | None => Ok None
  | Some files =>
      let '(latest_offset, latest_file) := foldl latest_step (0, None) (listing (map_to_list files).*1) in
      match latest_file ≫= (files !!.) with
      | Some data => match decode_groups data with
                     | Some state => Ok (Some (latest_offset, state))
                     | None => Err Serialization
                     end
      | None => Ok None
      end
  end.

(** [sort_by(|a, b| b.0.cmp(&a.0))] *)
Definition newer (a b : Z * string) : Prop := b.1 ≤ a.1.
#[global] Instance newer_dec : RelDecision newer.
Proof. intros a b. unfold newer. apply _. Defined.
#[global] Instance newer_total : Total newer.
Proof. intros a b. unfold newer. lia. Qed.
#[global] Instance newer_trans : Transitive newer.
Proof. intros a b c. unfold newer. lia. Qed.

Definition snapshots_of (files : gmap string bytes) : list (Z * string) :=
  omap (λ name, (λ o, (o, name)) <$> snapshot_offset name) (listing (map_to_list files).*1).
Definition cleanup_partition (keep : nat) (files : gmap string bytes) : gmap string bytes :=
  let snapshots := snapshots_of files in
  if decide (length snapshots ≤ keep)%nat then files
  else foldr (λ p, delete p.2) files (drop keep (merge_sort newer snapshots)).
Definition cleanup_old_snapshots (partition_count : Z) (keep : nat) (d : SnapshotDir) : SnapshotDir :=
  map_imap (λ partition files,
    Some (if decide (0 ≤ partition < partition_count) then cleanup_partition keep files else files)) d.

(** One tick of the snapshot task: [last_snapshot_commit] is its local
    variable, [fault] says how the save of each partition goes (a failed save
    is logged and the loop goes on). *)
Definition save_partition (hash : string → Z) (fault : Z → snapshot_fault) (partition_count current_commits : Z)
    (groups : gmap string ConsumerGroupState) (d : SnapshotDir) (partition : Z) : SnapshotDir :=
  let partition_groups :=
    filter (λ kv : string * ConsumerGroupState, as_u32 (hash kv.1 mod partition_count) = partition) groups in
  if decide (partition_groups = ∅) then d
  else (save_snapshot (fault partition) partition current_commits partition_groups d).2.
Definition snapshot_tick {L} (hash : string → Z) (fault : Z → snapshot_fault) (m : GroupCoordinatorManager L)
    (last_snapshot_commit : Z) (d : SnapshotDir) : Z * SnapshotDir :=
  let partition_count := gm_offsets_partition_count m in
  let current_commits := gm_commit_count m in
  if Z.max 0 (current_commits - last_snapshot_commit) <? 10000 then (last_snapshot_commit, d)
  else if decide (gm_groups m = ∅) then (last_snapshot_commit, d)
  else
    let d := foldl (save_partition hash fault partition_count current_commits (gm_groups m)) d
               (seqZ 0 partition_count) in
    (current_commits, cleanup_old_snapshots partition_count 3 d).

(** [recover_from_snapshots], for the partitions [0 .. count). *)
Definition recover_partition (d : SnapshotDir) (groups : gmap string ConsumerGroupState) (partition : Z)
  : gmap string ConsumerGroupState :=
  match load_latest_snapshot partition d with
  | Ok (Some (_, state)) => state ∪ groups
  | _ => groups
  end.
Definition recover_from_snapshots (count : Z) (d : SnapshotDir) (groups : gmap string ConsumerGroupState)
  : gmap string ConsumerGroupState := foldl (recover_partition d) groups (seqZ 0 count).

(** *** Round trip *)

(** [#[serde(skip)]]: heartbeats are not stored. *)
Definition forget_heartbeats (g : ConsumerGroupState) : ConsumerGroupState :=
  mkGroup (gs_group_id g) (gs_generation_id g)
    ((λ m, mkMember (ms_member_id m) (ms_subscribed_topics m) None (ms_session_timeout_ms m)) <$> gs_members g)
    (gs_state g) (gs_assignment g) (gs_committed_offsets g).
Hypothesis decode_encode : ∀ s, decode_groups (encode_groups s) = Some (forget_heartbeats <$> s).
Hypothesis listing_perm : ∀ l, listing l ≡ₚ l.

Lemma snapshot_offset_name o : 0 ≤ o < u64_modulus → snapshot_offset (snapshot_name o) = Some o.
Proof.
  intros Ho. unfold snapshot_offset, snapshot_name. rewrite strip_prefix_app. simpl.
  rewrite strip_suffix_app; [|apply dec_digits|done]. simpl. by apply parse_uint_dec.
Qed.

Lemma snapshot_offset_tmp o : snapshot_offset (tmp_name o) = None.
Proof.
  unfold snapshot_offset, tmp_name. rewrite strip_prefix_app. simpl.
  destruct (strip_suffix ".bin" (dec o +:+ ".tmp")) as [s|] eqn:E; [|done]. exfalso.
  apply strip_suffix_Some, (f_equal str_last) in E. by rewrite !str_last_app in E.
Qed.

(** [name] is the snapshot with the largest offset. *)
Record is_latest (files : gmap string bytes) (o : Z) (name : string) (data : bytes) : Prop := {
  il_file : files !! name = Some data;
  il_offset : snapshot_offset name = Some o ∧ 0 ≤ o;
  il_max name' o' : is_Some (files !! name') → name' ≠ name → snapshot_offset name' = Some o' → o' < o;
}.

Lemma latest_fold l o name :
  snapshot_offset name = Some o → 0 ≤ o → name ∈ l → NoDup l →
  (∀ n o', n ∈ l → n ≠ name → snapshot_offset n = Some o' → o' < o) →
  foldl latest_step (0, None) l = (o, Some name).
Proof.
  intros Hn Ho Hin Hnd Hmax. apply list_elem_of_split in Hin as (l1 & l2 & ->).
  apply NoDup_app in Hnd as (_ & Hdis & Hnd2). apply NoDup_cons in Hnd2 as [Hnot _].
  rewrite foldl_app. cbn [foldl].
  assert (H1 : ∀ l acc, acc.1 ≤ o → (∀ n o', n ∈ l → snapshot_offset n = Some o' → o' < o) →
            (foldl latest_step acc l).1 ≤ o).
  { induction l as [|x l IH]; intros acc Hacc Hl; [done|]. cbn [foldl]. apply IH; [|intros n o' ?; apply Hl; by right].
    unfold latest_step. destruct (snapshot_offset x) as [ox|] eqn:Ex; [|done]. case_cond; [|done]. simpl.
    assert (ox < o) by (apply (Hl x); [by left|done]). lia. }
  assert (H2 : ∀ l, (∀ n o', n ∈ l → snapshot_offset n = Some o' → o' < o) →
            foldl latest_step (o, Some name) l = (o, Some name)).
  { induction l as [|x l IH]; intros Hl; [done|]. cbn [foldl]. rewrite <- IH at 2 by (intros n o' ?; apply Hl; by right).
    f_equal. unfold latest_step. destruct (snapshot_offset x) as [ox|] eqn:Ex; [|done].
    assert (ox < o) by (apply (Hl x); [by left|done]). simpl. by rewrite (proj2 (Z.leb_gt _ _)). }
  assert (Hstep : latest_step (foldl latest_step (0, None) l1) name = (o, Some name)).
  { unfold latest_step at 1. rewrite Hn. rewrite (proj2 (Z.leb_le _ _)); [done|]. apply H1; [done|].
    intros n o' Hin Hno. apply (Hmax n); [apply elem_of_app; by left| |done].
    intros ->. apply (Hdis name Hin). by left. }
  rewrite Hstep. apply H2. intros n o' Hin Hno. apply (Hmax n); [apply elem_of_app; right; by right| |done].
  by intros ->.
Qed.

Lemma load_latest partition d files o name data :
  d !! partition = Some files → is_latest files o name data →
  load_latest_snapshot partition d =
    match decode_groups data with Some state => Ok (Some (o, state)) | None => Err Serialization end.
Proof using listing_perm.
  intros Hd [Hf [Hn Ho] Hmax]. unfold load_latest_snapshot. rewrite Hd.
  rewrite (latest_fold _ o name); [simpl; by rewrite Hf|done|done| | |].
  - rewrite listing_perm. apply list_elem_of_fmap. exists (name, data). by rewrite elem_of_map_to_list.
  - rewrite listing_perm. apply NoDup_fst_map_to_list.
  - intros n o'. rewrite listing_perm, list_elem_of_fmap. intros ([n' x] & -> & Hin%elem_of_map_to_list).
    apply Hmax. eauto.
Qed.

(** Temporary files do not matter. *)
Lemma is_latest_tmp files o name data o' bytes' :
  is_latest files o name data → is_latest (<[tmp_name o' := bytes']> files) o name data.
Proof.
  intros [Hf [Hn Ho] Hmax]. assert (Hne : tmp_name o' ≠ name) by (intros <-; by rewrite snapshot_offset_tmp in Hn).
  split; [by rewrite lookup_insert_ne|done|]. intros n ox. destruct (decide (n = tmp_name o')) as [->|].
  - by rewrite snapshot_offset_tmp.
  - rewrite lookup_insert_ne by done. apply Hmax.
Qed.

Lemma snapshots_of_elem files p :
  p ∈ snapshots_of files ↔ is_Some (files !! p.2) ∧ snapshot_offset p.2 = Some p.1.
Proof using listing_perm.
  destruct p as [op np]. unfold snapshots_of. rewrite list_elem_of_omap. simpl. split.
  - intros (n & Hin & Hs). rewrite listing_perm, list_elem_of_fmap in Hin.
    destruct Hin as ([n' x] & -> & Hin%elem_of_map_to_list). simpl in *.
    destruct (snapshot_offset n') as [on|] eqn:Eo; [|done]. injection Hs as <- <-. eauto.
  - intros [[x Hx] Hs]. exists np. rewrite Hs. split; [|done]. rewrite listing_perm, list_elem_of_fmap.
    exists (np, x). by rewrite elem_of_map_to_list.
Qed.

Lemma omap_tag_NoDup (f : string → option Z) l :
  NoDup l → NoDup (omap (λ n, (λ o, (o, n)) <$> f n) l).*2.
Proof.
  induction 1 as [|x l Hx Hl IH]; [constructor|]. cbn.
  destruct (f x) as [ox|]; [|exact IH]. cbn. constructor; [|exact IH].
  intros ([? ?] & -> & (n & Hin & Hs)%list_elem_of_omap)%list_elem_of_fmap. simpl in *.
  destruct (f n); [|done]. injection Hs as _ <-. done.
Qed.
Lemma snapshots_of_NoDup files : NoDup (snapshots_of files).*2.
Proof using listing_perm.
  apply omap_tag_NoDup. rewrite listing_perm. apply NoDup_fst_map_to_list.
Qed.

Lemma foldr_delete_notin (l : list (Z * string)) (fs : gmap string bytes) n :
  n ∉ l.*2 → foldr (λ p, delete p.2) fs l !! n = fs !! n.
Proof.
  induction l as [|p l IH]; intros Hn; [done|]. cbn in *. apply not_elem_of_cons in Hn as [? ?].
  rewrite lookup_delete_ne by congruence. by apply IH.
Qed.
Lemma foldr_delete_sub (l : list (Z * string)) (fs : gmap string bytes) :
  foldr (λ p, delete p.2) fs l ⊆ fs.
Proof. induction l as [|p l IH]; [done|]. cbn. etrans; [apply delete_subseteq|apply IH]. Qed.

(** The newest snapshot is among those kept. *)
Lemma latest_kept keep files o name data :
  (0 < keep)%nat → is_latest files o name data →
  name ∉ (drop keep (merge_sort newer (snapshots_of files))).*2.
Proof using listing_perm.
  intros Hk [Hf [Hn Ho] Hmax]. set (s := merge_sort newer _).
  assert (Hperm : s ≡ₚ snapshots_of files) by apply merge_sort_Permutation.
  assert (Hsorted : StronglySorted newer s) by apply (StronglySorted_merge_sort _).
  pose proof (snapshots_of_NoDup files) as Hnd. rewrite <- Hperm in Hnd.
  rewrite <- (take_drop keep s) in Hsorted, Hnd. rewrite fmap_app in Hnd. apply NoDup_app in Hnd as (_ & Hdis & _).
  intros Hin. pose proof Hin as ([op np] & -> & Hin')%list_elem_of_fmap. simpl in *.
  destruct (take keep s) as [|p l] eqn:Et.
  { destruct s; [by rewrite drop_nil in Hin; apply elem_of_nil in Hin|]. destruct keep; [lia|done]. }
  assert (Hp : newer p (op, np)) by (eapply StronglySorted_app_1_elem_of; [exact Hsorted|by left|done]).
  assert (Hps : p ∈ snapshots_of files).
  { rewrite <- Hperm. eapply elem_of_sublist; [|apply (sublist_take s keep)]. rewrite Et. by left. }
  assert (Hop : (op, np) ∈ snapshots_of files) by (rewrite <- Hperm; by eapply elem_of_sublist, sublist_drop).
  apply snapshots_of_elem in Hps as [Hpf Hpo], Hop as [_ Hop]. unfold newer in Hp. simpl in *.
  destruct (decide (p.2 = np)) as [Heq|Hne].
  - apply (Hdis np); [rewrite <- Heq; by left|done].
  - specialize (Hmax p.2 p.1 Hpf Hne Hpo). simplify_eq. lia.
Qed.

Lemma cleanup_latest keep files o name data :
  (0 < keep)%nat → is_latest files o name data → is_latest (cleanup_partition keep files) o name data.
Proof using listing_perm.
  intros Hk Hl. pose proof (latest_kept keep files o name data Hk Hl) as Hnot. destruct Hl as [Hf [Hn Ho] Hmax].
  unfold cleanup_partition. case_decide as Hlen; [done|]. split; [by rewrite foldr_delete_notin|done|].
  intros n o' [x Hx] Hne Hno. apply (Hmax n); [|done|done]. exists x.
  eapply lookup_weaken; [done|apply foldr_delete_sub].
Qed.

(** The newest complete snapshot is what is recovered.  A saved snapshot
    that is newer than the others is loaded back (without the heartbeats,
    which are not stored); a save that fails at any step, or the broker
    stopping there, leaves the previous snapshot the one that is loaded; and
    cleaning up never removes it. *)
Theorem snapshot_roundtrip partition d o0 name0 s0 o s :
  is_latest (files_of partition d) o0 name0 (encode_groups s0) → is_Some (d !! partition) →
  o0 < o < u64_modulus →
  (∀ fault, fault ≠ SnapOk →
     ∃ d', save_snapshot fault partition o s d = (Err Io, d') ∧
       load_latest_snapshot partition d' = Ok (Some (o0, forget_heartbeats <$> s0))) ∧
  ∃ d', save_snapshot SnapOk partition o s d = (Ok tt, d') ∧
    load_latest_snapshot partition d' = Ok (Some (o, forget_heartbeats <$> s)) ∧
    ∀ count keep, (0 < keep)%nat →
      load_latest_snapshot partition (cleanup_old_snapshots count keep d') = Ok (Some (o, forget_heartbeats <$> s)).
Proof using decode_encode listing_perm.
  intros Hl [files Hd] Ho. unfold files_of in Hl. rewrite Hd in Hl. simpl in Hl. split.
  - intros fault Hf. assert (Hload : ∀ files', is_latest files' o0 name0 (encode_groups s0) →
      load_latest_snapshot partition (<[partition := files']> d) = Ok (Some (o0, forget_heartbeats <$> s0))).
    { intros files' Hl'. rewrite (load_latest _ _ files' o0 name0 (encode_groups s0)), decode_encode;
        [done|by rewrite lookup_insert_eq|done]. }
    unfold save_snapshot, files_of. rewrite Hd. simpl.
    destruct fault; [done|..]; (eexists; split; [done|]); try (apply Hload; try apply is_latest_tmp; done).
    rewrite (load_latest _ _ files o0 name0 (encode_groups s0)), decode_encode; done.
  - unfold save_snapshot, files_of. rewrite Hd. simpl. eexists. split; [done|].
    set (files' := <[snapshot_name o := _]> _).
    destruct Hl as [Hf [Hn Hpos] Hmax].
    assert (Hl' : is_latest files' o (snapshot_name o) (encode_groups s)).
    { split; [by unfold files'; rewrite lookup_insert_eq|split; [apply snapshot_offset_name; lia|lia]|].
      intros n on Hin Hne Hno. unfold files' in Hin. rewrite lookup_insert_ne in Hin by done.
      destruct (decide (n = tmp_name o)) as [->|Hnt]; [by rewrite snapshot_offset_tmp in Hno|].
      rewrite lookup_delete_ne, lookup_insert_ne in Hin by done.
      destruct (decide (n = name0)) as [->|Hn0]; [simplify_eq; lia|].
      specialize (Hmax n on Hin Hn0 Hno). lia. }
    split; [by rewrite (load_latest _ _ files' o _ _ (lookup_insert_eq _ _ _) Hl'), decode_encode|].
    intros count keep Hk.
    rewrite (load_latest _ _ (if decide (0 ≤ partition < count) then cleanup_partition keep files' else files')
               o (snapshot_name o) (encode_groups s)); [by rewrite decode_encode| |].
    + unfold cleanup_old_snapshots. by rewrite map_lookup_imap, lookup_insert_eq.
    + case_decide; [by apply cleanup_latest|done].
Qed.
End snapshot.

(** ** A concrete coordinator *)

Module GroupDemo.
#[local] Instance codec : Bincode Z := DemoCodec.demo.
#[local] Instance bytes_codec : Bincode bytes := DemoCodec.demo.
(** A log that keeps every record. *)
#[local] Instance list_log : RecordLog (list WalRecord) := {|
  rl_append r l := (Ok tt, l ++ [r]);
  rl_next_offset l tp := Z.of_nat (length (filter (λ r, wr_tp r = tp) l));
|}.
Definition hash (s : string) : Z := Z.of_nat (String.length s).
Definition crc (b : bytes) : Z := zsum id b.

Abbreviation GCM := (GroupCoordinatorManager (list WalRecord)).
Definition join (member : string) (topics : list string) (m : GCM) : JoinGroupResponse * GCM :=
  handle_join_group id id "generated" 5 (mkJoin "g" member 30000 topics) m.
Definition m0 : GCM := update_topic_partitions "orders" 3 (gcm_new [] 50).
Definition m1 : GCM := (join "a" ["orders"] m0).2.

Lemma join_assignment_witness :
  ∃ g, gm_groups (join "b" ["orders"] m1).2 !! "g" = Some g ∧ gs_state g = Stable ∧
    ∀ id1 id2, id1 ∈ (map_to_list (gs_members g)).*1 → id2 ∈ (map_to_list (gs_members g)).*1 →
      (length (default [] (gs_assignment g !! id1)) ≤ length (default [] (gs_assignment g !! id2)) + 1)%nat.
Proof.
  destruct (join "b" ["orders"] m1) as [resp m2] eqn:E.
  destruct (join_assignment id id "generated" 5 (mkJoin "g" "b" 30000 ["orders"]) m1 resp m2)
    as (g & Hg & Hst & _ & _ & _ & _ & _ & Hbal).
  - intros l. reflexivity.
  - intros l. reflexivity.
  - exact E.
  - exists g. split; [exact Hg|]. split; [exact Hst|exact Hbal].
Defined.

Definition offsets : list (TopicPartition * Offset) := [(mkTP "orders" 0, 17); (mkTP "orders" 2, 4)].
Definition commit (generation : Z) : CommitOffsetRequest := mkCommit "g" "a" generation offsets.

Lemma rebalance_fences_commits_witness :
  (handle_commit_offset hash crc 6 (commit 1) m1).1 = Ok 0 ∧
  (handle_commit_offset hash crc 6 (commit 1) (join "b" ["orders"] m1).2).1 = Ok 22.
Proof.
  split; [vm_compute; reflexivity|].
  destruct (gm_groups m1 !! "g"%string) as [g|] eqn:Eg; [|vm_compute in Eg; discriminate Eg].
  destruct (join "b" ["orders"] m1) as [resp m2] eqn:E.
  assert (Hgen : gs_generation_id g = 1 ∧ gs_state g = Stable)
    by (vm_compute in Eg; injection Eg as <-; split; reflexivity).
  destruct Hgen as [Hgen Hst].
  refine (f_equal fst (rebalance_fences_commits hash crc id id "generated" 5
    (mkJoin "g" "b" 30000 ["orders"]) m1 resp m2 g [] 6 (commit 1) Eg Hst _ _ E eq_refl _)).
  - rewrite Hgen. lia.
  - rewrite Hgen. reflexivity.
  - rewrite Hgen. simpl. lia.
Defined.

Lemma commit_fetch_roundtrip_witness :
  ∃ result, handle_fetch_offset "g" [mkTP "orders" 0]
      (run_group_ops hash crc [OpLeave "g" "a"; OpReap 99] (handle_commit_offset hash crc 6 (commit 1) m1).2)
    = (result, 0) ∧ result !! mkTP "orders" 0 = Some 17.
Proof.
  destruct (handle_commit_offset hash crc 6 (commit 1) m1) as [r m2] eqn:E.
  assert (Hr : r = Ok 0) by (change r with (r, m2).1; rewrite <- E; vm_compute; reflexivity). subst r.
  refine (commit_fetch_roundtrip hash crc 6 (commit 1) m1 m2 [OpLeave "g" "a"; OpReap 99]
    [mkTP "orders" 0] (mkTP "orders" 0) 17 _ _ E _ _ _).
  - apply (bool_decide_unpack _). reflexivity.
  - intros g Eg. vm_compute in Eg. injection Eg as <-. split; [vm_compute; discriminate|reflexivity].
  - intros op. rewrite !elem_of_cons, elem_of_nil. intros [->|[->|[]]] Hc; exact Hc.
  - left.
  - left.
Defined.

(** Partitions are dealt to the members without looking at their
    subscriptions: [b] subscribed to [orders] only and is assigned the
    partition of [payments]. *)
Theorem assigned_without_subscription :
  gs_assignment <$> gm_groups (join "b" ["orders"] (join "a" ["payments"] m0).2).2 !! "g"
  = Some (<["a" := [mkTP "orders" 0; mkTP "orders" 2]]> {["b" := [mkTP "orders" 1; mkTP "payments" 0]]}).
Proof. vm_compute. reflexivity. Qed.

#[local] Instance MemberState_eq_dec : EqDecision MemberState.
Proof. solve_decision. Defined.
#[local] Program Instance MemberState_countable : Countable MemberState :=
  inj_countable' (λ m, (ms_member_id m, ms_subscribed_topics m, ms_last_heartbeat m, ms_session_timeout_ms m))
                 (λ p, mkMember p.1.1.1 p.1.1.2 p.1.2 p.2) _.
Next Obligation. by intros []. Qed.
Definition state_code (s : GroupState) : Z :=
  match s with Empty => 0 | Stable => 1 | PreparingRebalance => 2 | CompletingRebalance => 3 | Dead => 4 end.
Definition state_decode (c : Z) : GroupState :=
  if c =? 0 then Empty else if c =? 1 then Stable else if c =? 2 then PreparingRebalance
  else if c =? 3 then CompletingRebalance else Dead.
#[local] Instance ConsumerGroupState_eq_dec : EqDecision ConsumerGroupState.
Proof. solve_decision. Defined.
#[local] Program Instance ConsumerGroupState_countable : Countable ConsumerGroupState :=
  inj_countable' (λ g, (gs_group_id g, gs_generation_id g, gs_members g, state_code (gs_state g),
                        gs_assignment g, gs_committed_offsets g))
                 (λ p, mkGroup p.1.1.1.1.1 p.1.1.1.1.2 p.1.1.1.2 (state_decode p.1.1.2) p.1.2 p.2) _.
Next Obligation. by intros [? ? ? [] ? ?]. Qed.

Definition encode_groups (s : gmap string ConsumerGroupState) : bytes :=
  @serialize _ DemoCodec.demo (forget_heartbeats <$> s).
Definition decode_groups (b : bytes) : option (gmap string ConsumerGroupState) :=
  @deserialize _ DemoCodec.demo b.
Lemma decode_encode s : decode_groups (encode_groups s) = Some (forget_heartbeats <$> s).
Proof. apply (@deserialize_serialize _ DemoCodec.demo DemoCodec.demo_laws). Qed.

(** One old snapshot of an empty table. *)
Definition dir : SnapshotDir := {[7 := {["snapshot-10.bin" := encode_groups ∅]}]}.

Lemma dir_latest : is_latest (files_of 7 dir) 10 "snapshot-10.bin" (encode_groups ∅).
Proof.
  split.
  - reflexivity.
  - split; [reflexivity|lia].
  - intros n o [x Hx] Hne _. unfold files_of, dir in Hx. rewrite lookup_singleton_eq in Hx. simpl in Hx.
    rewrite lookup_singleton_ne in Hx by congruence. discriminate Hx.
Qed.

Lemma snapshot_roundtrip_witness :
  ∃ d', save_snapshot encode_groups SnapOk 7 20 (gm_groups m1) dir = (Ok tt, d') ∧
    load_latest_snapshot decode_groups id 7 (cleanup_old_snapshots id 50 3 d')
    = Ok (Some (20, forget_heartbeats <$> gm_groups m1)).
Proof.
  assert (Hsome : is_Some (dir !! 7)) by (exists {["snapshot-10.bin" := encode_groups ∅]}; reflexivity).
  destruct (snapshot_roundtrip encode_groups decode_groups id decode_encode (λ l, reflexivity l)
              7 dir 10 "snapshot-10.bin" ∅ 20 (gm_groups m1) dir_latest Hsome) as (_ & d' & Hs & _ & Hload).
  - split; [lia|reflexivity].
  - exists d'. split; [exact Hs|]. apply (Hload 50 3%nat). lia.
Defined.

(** The commit counter names the snapshots and starts again from zero when the
    broker restarts.  A snapshot taken after 10,000 commits of the new life is
    older, by its number, than one the previous life left at 50,000: recovery
    loads the stale one and the cleanup deletes the new one first. *)
Definition restarted (groups : gmap string ConsumerGroupState) : GCM :=
  mkGCM groups [] 1 ∅ 0 10000.
Definition old_dir : SnapshotDir :=
  {[0 := {["snapshot-50000.bin" := encode_groups ∅; "snapshot-40000.bin" := encode_groups ∅;
           "snapshot-30000.bin" := encode_groups ∅]}]}.

Theorem restart_snapshot_shadowed :
  let '(_, d) := snapshot_tick encode_groups id hash (λ _, SnapOk) (restarted (gm_groups m1)) 0 old_dir in
  load_latest_snapshot decode_groups id 0 d = Ok (Some (50000, ∅)) ∧
  files_of 0 d !! "snapshot-10000.bin" = None.
Proof. vm_compute. split; reflexivity. Qed.
End GroupDemo.
