(* ===== verification/BrokerCore.v ===== *)
(** * The broker core: produce and fetch

    Model of [src/src/broker/core.rs]: partition metadata, appending with
    acknowledgment levels, fetching, and the producer and consumer APIs on top
    of the partition store.  The replication manager shares the store, so
    [replicate_record] is an operation on both. *)

From S2P Require Import Prelude Types PartitionIndex ColdIndex SegmentedWal LruCache ObjectStorage.
From S2P Require Import Reservation PartitionStore.
Local Open Scope Z_scope.

(** ** State *)

Record PartitionMetadata := mkMetadata {
  pm_leader_epoch : Z;
  pm_high_watermark : Offset;
  pm_is_leader : bool;
  pm_replicas : list BrokerId;
  pm_in_sync_replicas : list BrokerId;
}.

(** [replication::traits::ReplicationManager], as far as the core uses it; [S]
    is the store it shares with the core. *)
Class Replicator (M S : Type) := {
  replicate : WalRecord → M → S → Result ReplicationResult * M * S;
}.
#[global] Hint Mode Replicator ! ! : typeclass_instances.

Record MessageBrokerCore (S M : Type) := mkCore {
  bc_store : S;
  bc_replication_manager : M;
  bc_partitions : gmap TopicPartition PartitionMetadata;
  bc_total_messages_processed : Z;
}.
Arguments mkCore {S M}. Arguments bc_store {S M}. Arguments bc_replication_manager {S M}.
Arguments bc_partitions {S M}. Arguments bc_total_messages_processed {S M}.

Record ProduceRecord := mkProduce {
  pr_topic : string;
  pr_partition : option Z;
  pr_key : option bytes;
  pr_value : bytes;
  pr_headers : list Header;
  pr_acks : AcknowledgmentLevel;
}.
Record ProduceResult := mkProduceResult {
  pp_topic_partition : TopicPartition;
  pp_offset : Offset;
  pp_timestamp : Z;
}.
Record ConsumeRecord := mkConsume {
  cr_topic_partition : TopicPartition;
  cr_offset : Offset;
  cr_key : option bytes;
  cr_value : bytes;
  cr_headers : list Header;
  cr_timestamp : Z;
}.

Section core.
Context {W U C R M : Type} `{!SegmentedLog W, !UploadManager U, !Cache C, !ObjectStorage R}.
Context `{!Bincode (list WalRecord)}.
Abbreviation PS := (PartitionStore W U C R).
Context `{!Replicator M PS} (sizeof_WalRecord : Z).
Abbreviation Core := (MessageBrokerCore PS M).
Local Open Scope rust_scope.

Definition with_store (st : PS) (c : Core) : Core :=
  mkCore st (bc_replication_manager c) (bc_partitions c) (bc_total_messages_processed c).
Definition count_messages (n : nat) (c : Core) : Core :=
  mkCore (bc_store c) (bc_replication_manager c) (bc_partitions c)
    (u64_add (bc_total_messages_processed c) (Z.of_nat n)).
Definition set_high_watermark (o : Offset) (md : PartitionMetadata) : PartitionMetadata :=
  mkMetadata (pm_leader_epoch md) o (pm_is_leader md) (pm_replicas md) (pm_in_sync_replicas md).

Definition add_partition (tp : TopicPartition) (md : PartitionMetadata) (c : Core) : Core :=
  let recovered := next_offset (bc_store c) tp in
  let md := set_high_watermark (Z.max (pm_high_watermark md) recovered) md in
  mkCore (bc_store c) (bc_replication_manager c) (<[tp := md]> (bc_partitions c))
    (bc_total_messages_processed c).
Definition remove_partition (tp : TopicPartition) (c : Core) : Core :=
  mkCore (bc_store c) (bc_replication_manager c) (delete tp (bc_partitions c))
    (bc_total_messages_processed c).

Definition get_high_watermarks (c : Core) : list (TopicPartition * Offset) :=
  (λ kv, (kv.1, pm_high_watermark kv.2)) <$>
    filter (λ kv : TopicPartition * PartitionMetadata, pm_is_leader kv.2 = true) (map_to_list (bc_partitions c)).
Definition get_partitions_for_topic (topic : string) (c : Core) : list TopicPartition :=
  filter (λ tp, tp_topic tp = topic) (map_to_list (bc_partitions c)).*1.
Definition get_partition_counts (c : Core) : nat * nat :=
  (size (bc_partitions c),
   length (filter (λ kv : TopicPartition * PartitionMetadata, pm_is_leader kv.2 = true) (map_to_list (bc_partitions c)))).

(** *** [append_records] *)

(** The metadata is read once, before anything is appended; other tasks may
    run between this and [finish_append]. *)
Definition begin_append (tp : TopicPartition) (c : Core) : Result Offset :=
  match bc_partitions c !! tp with
  | None => Err PartitionNotFound
  | Some md => if negb (pm_is_leader md) then Err NotLeader else Ok (pm_high_watermark md)
  end.

Fixpoint frame_records (tp : TopicPartition) (base_offset : Offset) (i : Z) (records : list Record_)
  : list WalRecord :=
  match records with
  | [] => []
  | r :: records => mkWal tp (u64_add base_offset i) r 0 :: frame_records tp base_offset (i + 1) records
  end.

Fixpoint append_each (records : list WalRecord) (c : Core) : Result unit * Core :=
  match records with
  | [] => (Ok tt, c)
  | r :: records =>
      let! (_l, c) := (let '(res, st) := append sizeof_WalRecord r (bc_store c) in (res, with_store st c)) in
      append_each records c
  end.

Fixpoint replicate_each (records : list WalRecord) (c : Core) : Result unit * Core :=
  match records with
  | [] => (Ok tt, c)
  | r :: records =>
      let! (_r, c) :=
        (let '(res, m, st) := replicate r (bc_replication_manager c) (bc_store c) in
         (res, mkCore st m (bc_partitions c) (bc_total_messages_processed c))) in
      replicate_each records c
  end.

Definition finish_append (tp : TopicPartition) (base_offset : Offset) (records : list Record_)
    (acks : AcknowledgmentLevel) (c : Core) : Result (list Offset) * Core :=
  let wal_records := frame_records tp base_offset 0 records in
  let! (_u, c) := append_each wal_records c in
  let! (_u, c) := match acks with
                  | AckNone | AckLeader => (Ok tt, c)
                  | AckMajority | AckAll | AckCustom _ => replicate_each wal_records c
                  end in
  let partitions :=
    match bc_partitions c !! tp with
    | Some md => <[tp := set_high_watermark (u64_add base_offset (Z.of_nat (length wal_records))) md]>
                   (bc_partitions c)
    | None => bc_partitions c
    end in
  let c := mkCore (bc_store c) (bc_replication_manager c) partitions (bc_total_messages_processed c) in
  (Ok (wr_offset <$> wal_records), count_messages (length wal_records) c).

Definition append_records (tp : TopicPartition) (records : list Record_) (acks : AcknowledgmentLevel)
    (c : Core) : Result (list Offset) * Core :=
  match begin_append tp c with
  | Err e => (Err e, c)
  | Ok base_offset => finish_append tp base_offset records acks c
  end.

(** [during1], [during2]: see [PartitionStore.read]. *)
Definition fetch_records (during1 during2 : PS → PS) (tp : TopicPartition) (fetch_offset : Offset)
    (max_bytes : Z) (c : Core) : Result (list Record_) * Core :=
  let! (wal_records, c) :=
    (let '(r, st) := read sizeof_WalRecord during1 during2 tp fetch_offset max_bytes (bc_store c) in
     (r, with_store st c)) in
  (Ok (wr_record <$> wal_records), count_messages (length wal_records) c).

(** *** Producer *)

Definition target (r : ProduceRecord) : TopicPartition := mkTP (pr_topic r) (default 0 (pr_partition r)).
Definition to_record (now : Z) (r : ProduceRecord) : Record_ :=
  mkRecord (pr_key r) (pr_value r) (pr_headers r) now.

Definition send (now : Z) (r : ProduceRecord) (c : Core) : Result ProduceResult * Core :=
  let! (offsets, c) := append_records (target r) [to_record now r] (pr_acks r) c in
  match offsets with
  | o :: _ => (Ok (mkProduceResult (target r) o now), c)
  | [] => (Err Panic, c)
  end.

(** The groups of [send_batch]: the acknowledgment level of a partition is
    that of its first record. *)
Definition group_batch (now : Z) (records : list ProduceRecord)
  : gmap TopicPartition (list Record_ * AcknowledgmentLevel) :=
  foldl (λ m r, let '(rs, acks) := default ([], pr_acks r) (m !! target r) in
                <[target r := (rs ++ [to_record now r], acks)]> m) ∅ records.

Fixpoint send_groups (now : Z) (groups : list (TopicPartition * (list Record_ * AcknowledgmentLevel)))
    (results : list ProduceResult) (c : Core) : Result (list ProduceResult) * Core :=
  match groups with
  | [] => (Ok results, c)
  | (tp, (rs, acks)) :: groups =>
      let! (offsets, c) := append_records tp rs acks c in
      send_groups now groups (results ++ ((λ o, mkProduceResult tp o now) <$> offsets)) c
  end.

(** [order] is the iteration order of the hash map. *)
Definition send_batch order (now : Z) (records : list ProduceRecord) (c : Core)
  : Result (list ProduceResult) * Core :=
  send_groups now (order (map_to_list (group_batch now records))) [] c.

Definition producer_flush (c : Core) : Result unit * Core :=
  let '(r, st) := sync (bc_store c) in (r, with_store st c).

(** *** Consumer *)

Record MessageConsumer := mkConsumer {
  mc_subscribed_topics : list string;
  mc_partition_offsets : gmap TopicPartition Offset;
}.

Definition subscribe (topics : list string) (k : MessageConsumer) : MessageConsumer :=
  mkConsumer topics (foldl (λ m t, <[mkTP t 0 := 0]> m) (mc_partition_offsets k) topics).
Definition seek (tp : TopicPartition) (o : Offset) (k : MessageConsumer) : MessageConsumer :=
  mkConsumer (mc_subscribed_topics k) (<[tp := o]> (mc_partition_offsets k)).
Definition commit_offsets (offsets : list (TopicPartition * Offset)) (k : MessageConsumer) : MessageConsumer :=
  mkConsumer (mc_subscribed_topics k) (foldl (λ m p, <[p.1 := p.2]> m) (mc_partition_offsets k) offsets).

Fixpoint consume_records (tp : TopicPartition) (current i : Z) (fetched : list Record_) : list ConsumeRecord :=
  match fetched with
  | [] => []
  | r :: fetched =>
      mkConsume tp (u64_add current i) (r_key r) (r_value r) (r_headers r) (r_timestamp r)
      :: consume_records tp current (i + 1) fetched
  end.

(** The loop of [poll]: [records] accumulates over all partitions. *)
Fixpoint poll_each (d1 d2 : PS → PS) (offsets : list (TopicPartition * Offset)) (records : list ConsumeRecord)
    (positions : gmap TopicPartition Offset) (c : Core)
  : Result (list ConsumeRecord) * gmap TopicPartition Offset * Core :=
  match offsets with
  | [] => (Ok records, positions, c)
  | (tp, current_offset) :: offsets =>
      match fetch_records d1 d2 tp current_offset (1024 * 1024) c with
      | (Ok fetched, c) =>
          let records := records ++ consume_records tp current_offset 0 fetched in
          let positions := <[tp := u64_add current_offset (Z.of_nat (length records))]> positions in
          poll_each d1 d2 offsets records positions c
      | (Err e, c) =>
          if decide (e = OffsetOutOfRange) then poll_each d1 d2 offsets records positions c
          else (Err e, positions, c)
      end
  end.
Definition poll d1 d2 order (k : MessageConsumer) (c : Core)
  : Result (list ConsumeRecord) * MessageConsumer * Core :=
  let '(r, positions, c) :=
    poll_each d1 d2 (order (map_to_list (mc_partition_offsets k))) [] (mc_partition_offsets k) c in
  (r, mkConsumer (mc_subscribed_topics k) positions, c).
End core.

(** ** Produce and fetch *)

Section produce.
Context {W U C R M : Type} `{!SegmentedLog W, !UploadManager U, !Cache C, !ObjectStorage R}.
Context `{!UploadManagerLaws U, !CacheLaws C}.
Context `{!Bincode (list WalRecord), !BincodeLaws (list WalRecord)}.
Abbreviation PS := (PartitionStore W U C R).
Context `{!Replicator M PS} (sizeof_WalRecord : Z).
Abbreviation Core := (MessageBrokerCore PS M).
Abbreviation mem_size := (mem_size sizeof_WalRecord).
Implicit Types (c : Core) (tp : TopicPartition) (o : Offset) (ws : list WalRecord).

Abbreviation hot_of st tp := (pe_hot (entries_of (ps_index st) tp)).

Lemma mem_size_nonneg w : 0 ≤ mem_size w.
Proof. unfold PartitionStore.mem_size, as_u32. by apply Z.mod_pos_bound. Qed.

(** Room for the records in partition [tp]: offsets and byte counts stay in
    range. *)
Definition room (st : PS) tp o ws : Prop :=
  0 ≤ o ∧ o + Z.of_nat (length ws) ≤ u64_MAX ∧
  msum he_size (hot_of st tp) + zsum mem_size ws < u64_modulus.

(** The store after the records [ws] were appended from offset [o] on. *)
Record appended_all (st : PS) tp o ws (st' : PS) : Prop := {
  aa_store : store_ok st';
  aa_cache : cache_ok st';
  aa_next : next_offset st' tp = Z.max (next_offset st tp) (o + Z.of_nat (length ws)) ∨ ws = [];
  aa_hot i w : ws !! i = Some w → hot_of st' tp !! (o + Z.of_nat i) = Some (mkHot w (mem_size w));
  aa_hot_out o' : ¬ (o ≤ o' < o + Z.of_nat (length ws)) → hot_of st' tp !! o' = hot_of st tp !! o';
  aa_outside tp' o' : ¬ (tp' = tp ∧ o ≤ o' < o + Z.of_nat (length ws)) → resolve st' tp' o' = resolve st tp' o';
}.

Lemma append_each_spec ws c o tp c' :
  store_ok (bc_store c) → cache_ok (bc_store c) → consecutive tp o ws →
  (∀ i, (i < length ws)%nat → resolve (bc_store c) tp (o + Z.of_nat i) = None) → room (bc_store c) tp o ws →
  append_each sizeof_WalRecord ws c = (Ok tt, c') →
  appended_all (bc_store c) tp o ws (bc_store c') ∧ c' = with_store (bc_store c') c.
Proof.
  revert c o. induction ws as [|w ws IH]; intros c o Hok Hc Hcons Hn Hroom; simpl.
  { intros [= <-]. split; [|by destruct c]. split; try done. by right. }
  destruct Hroom as (Ho & Hmax & Hbytes). rewrite zsum_cons in Hbytes. simpl length in *.
  pose proof (mem_size_nonneg w) as Hw.
  assert (Hws : 0 ≤ zsum mem_size ws) by (apply zsum_nonneg, Forall_forall; intros; apply mem_size_nonneg).
  destruct (Hcons 0%nat w eq_refl) as [Hwo Hwt]. rewrite Z.add_0_r in Hwo.
  apply consecutive_tail in Hcons as [_ Hcons].
  destruct (append sizeof_WalRecord w (bc_store c)) as [res st1] eqn:E1.
  destruct res as [loc|e]; cbn [sbind]; [|done]. intros E2.
  assert (Hop : op_ok (OpInsertHot (wr_tp w) (wr_offset w) w (mem_size w)) (ps_index (bc_store c))).
  { simpl. rewrite Hwt, Hwo. split_and!; [lia|lia|done|lia]. }
  assert (Hfresh : hot_of (bc_store c) tp !! o = None).
  { apply (fresh_offset (bc_store c) tp o Hok). by rewrite <- (Hn 0%nat ltac:(lia)), Z.add_0_r. }
  destruct (append_appended sizeof_WalRecord (bc_store c) w loc st1 Hok Hc Hop) as [A1 A2 A3 A4 A5 A6];
    [rewrite Hwt, Hwo; by rewrite <- (Hn 0%nat ltac:(lia)), Z.add_0_r|done|].
  rewrite Hwt, Hwo in *.
  destruct (IH (with_store st1 c) (o + 1)) as [[B1 B2 B3 B4 B5 B6] B7]; [done|done|done| | |exact E2|].
  - simpl. intros i Hi. rewrite A6 by (intros [= E]; lia).
    replace (o + 1 + Z.of_nat i) with (o + Z.of_nat (S i)) by lia. apply Hn. lia.
  - simpl. split_and!; [lia|lia|]. rewrite A4, msum_insert, Hfresh. simpl. lia.
  - split; [|by rewrite B7]. simpl in *. split; [done|done| | | |].
    + left. rewrite A3 in B3. destruct B3 as [->| ->]; [simpl; lia|]. simpl.
      assert (Hc' : bc_store c' = st1) by (simpl in E2; by injection E2 as <-). rewrite Hc', A3. lia.
    + intros [|i] x; simpl.
      * intros [= <-]. rewrite Z.add_0_r, B5 by lia. by rewrite A4, lookup_insert_eq.
      * intros Hi. specialize (B4 i x Hi). by replace (o + Z.of_nat (S i)) with (o + 1 + Z.of_nat i) by lia.
    + intros o' Hout. simpl length in Hout. rewrite B5 by lia. rewrite A4, lookup_insert_ne by lia. done.
    + intros tp' o' Hout. simpl length in Hout. rewrite B6 by (intros [-> ?]; apply Hout; split; [done|lia]).
      apply A6. intros [= -> ->]. apply Hout. split; [done|lia].
Qed.
Lemma frame_records_length tp b i rs : length (frame_records tp b i rs) = length rs.
Proof. revert i. induction rs as [|r rs IH]; intros i; simpl; [done|]. by rewrite IH. Qed.

Lemma frame_records_lookup tp b i rs j :
  frame_records tp b i rs !! j = (λ r, mkWal tp (u64_add b (i + Z.of_nat j)) r 0) <$> rs !! j.
Proof.
  revert i j. induction rs as [|r rs IH]; intros i j; [done|]. destruct j as [|j]; simpl.
  - by rewrite Z.add_0_r.
  - rewrite IH. by replace (i + 1 + Z.of_nat j) with (i + Z.of_nat (S j)) by lia.
Qed.

(** Without wrap-around the framed batch occupies consecutive offsets. *)
Lemma frame_records_get tp b rs j r :
  0 ≤ b → b + Z.of_nat (length rs) ≤ u64_MAX → rs !! j = Some r →
  frame_records tp b 0 rs !! j = Some (mkWal tp (b + Z.of_nat j) r 0).
Proof.
  intros Hb Hmax Hj. rewrite frame_records_lookup, Hj. simpl. apply lookup_lt_Some in Hj.
  rewrite u64_add_small by (unfold u64_MAX in *; lia). done.
Qed.

Lemma frame_records_consecutive tp b rs :
  0 ≤ b → b + Z.of_nat (length rs) ≤ u64_MAX → consecutive tp b (frame_records tp b 0 rs).
Proof.
  intros Hb Hmax j w Hj. pose proof Hj as Hj'. rewrite frame_records_lookup in Hj'.
  destruct (rs !! j) as [r|] eqn:Er; [|done]. rewrite (frame_records_get tp b rs j r) in Hj by done.
  injection Hj as <-. done.
Qed.

Lemma frame_records_offsets tp b rs :
  0 ≤ b → b + Z.of_nat (length rs) ≤ u64_MAX →
  wr_offset <$> frame_records tp b 0 rs = (λ i, b + Z.of_nat i) <$> seq 0 (length rs).
Proof.
  intros Hb Hmax. apply list_eq. intros j. rewrite !list_lookup_fmap.
  destruct (rs !! j) as [r|] eqn:Er.
  - rewrite (frame_records_get tp b rs j r) by done. rewrite lookup_seq_lt by (by eapply lookup_lt_Some).
    done.
  - rewrite frame_records_lookup, Er. apply lookup_ge_None in Er. by rewrite lookup_seq_ge.
Qed.

(** A fetch at an offset that is hot starts with the record stored there. *)
Lemma fetch_hot c d1 d2 tp o mb w :
  store_ok (bc_store c) → hot_of (bc_store c) tp !! o = Some (mkHot w (mem_size w)) →
  ∃ rs, (fetch_records sizeof_WalRecord d1 d2 tp o mb c).1 = Ok (wr_record w :: rs) ∧
    ∀ j x, (wr_record w :: rs) !! j = Some x →
      wr_record <$> resolve (bc_store c) tp (o + Z.of_nat j) = Some x.
Proof.
  intros Hok Hh. destruct (read_hot sizeof_WalRecord (bc_store c) d1 d2 tp o mb _ Hok Hh) as (ws & E & Hws).
  exists (wr_record <$> ws). unfold fetch_records. rewrite E. split; [done|].
  intros j x Hj.
  change (wr_record w :: (wr_record <$> ws)) with (wr_record <$> (w :: ws)) in Hj.
  rewrite list_lookup_fmap in Hj. destruct ((w :: ws) !! j) as [y|] eqn:Ey; [|done].
  rewrite (Hws j y Ey). exact Hj.
Qed.

(** A successful produce that does not wait for followers. *)
Lemma append_records_local c tp records acks offsets c' :
  acks = AckNone ∨ acks = AckLeader →
  append_records sizeof_WalRecord tp records acks c = (Ok offsets, c') →
  ∃ md c1, bc_partitions c !! tp = Some md ∧ pm_is_leader md = true ∧
    let ws := frame_records tp (pm_high_watermark md) 0 records in
    append_each sizeof_WalRecord ws c = (Ok tt, c1) ∧ offsets = (wr_offset <$> ws) ∧
    bc_store c' = bc_store c1 ∧
    (c1 = with_store (bc_store c1) c →
     bc_partitions c' = <[tp := set_high_watermark (u64_add (pm_high_watermark md) (Z.of_nat (length ws))) md]>
                          (bc_partitions c)).
Proof.
  intros Hacks. unfold append_records, begin_append. destruct (bc_partitions c !! tp) as [md|] eqn:Emd; [|done].
  destruct (pm_is_leader md) eqn:El; [|done]. simpl. unfold finish_append.
  destruct (append_each _ _ c) as [[[]|e] c1] eqn:E1; [|done]. cbn [sbind].
  intros E. exists md, c1. split; [done|]. split; [done|]. cbn zeta.
  assert (E' : (Ok (wr_offset <$> frame_records tp (pm_high_watermark md) 0 records),
      count_messages (length (frame_records tp (pm_high_watermark md) 0 records))
        (mkCore (bc_store c1) (bc_replication_manager c1)
           (match bc_partitions c1 !! tp with
            | Some m => <[tp := set_high_watermark (u64_add (pm_high_watermark md)
                  (Z.of_nat (length (frame_records tp (pm_high_watermark md) 0 records)))) m]> (bc_partitions c1)
            | None => bc_partitions c1 end) (bc_total_messages_processed c1))) = (Ok offsets, c'))
    by (destruct Hacks as [->| ->]; exact E).
  clear E. injection E' as <- <-. split_and!; [done|done|done|].
  intros Hc1. simpl. rewrite Hc1. simpl. by rewrite Emd.
Qed.

Lemma append_records_spec c tp md records acks offsets c' :
  store_ok (bc_store c) → cache_ok (bc_store c) → bc_partitions c !! tp = Some md →
  let hw := pm_high_watermark md in
  let n := Z.of_nat (length records) in
  (∀ i, (i < length records)%nat → resolve (bc_store c) tp (hw + Z.of_nat i) = None) →
  acks = AckNone ∨ acks = AckLeader → room (bc_store c) tp hw (frame_records tp hw 0 records) →
  append_records sizeof_WalRecord tp records acks c = (Ok offsets, c') →
  pm_is_leader md = true ∧ offsets = ((λ i, hw + Z.of_nat i) <$> seq 0 (length records)) ∧
  bc_partitions c' = <[tp := set_high_watermark (hw + n) md]> (bc_partitions c) ∧
  appended_all (bc_store c) tp hw (frame_records tp hw 0 records) (bc_store c').
Proof.
  intros Hok Hcache Emd hw n Hn Hacks Hroom E.
  destruct (append_records_local _ _ _ _ _ _ Hacks E) as (md' & c1 & Emd' & Hl & E1 & -> & Est & Eparts).
  rewrite Emd in Emd'. injection Emd' as <-. fold hw in E1, Eparts. fold hw.
  pose proof Hroom as (H0 & Hmax & _). rewrite frame_records_length in Hmax.
  destruct (append_each_spec _ c hw tp c1 Hok Hcache (frame_records_consecutive tp hw records H0 Hmax)) as [Ha Hc1];
    [by rewrite frame_records_length|done|done|].
  rewrite frame_records_length in Eparts. fold n in Eparts.
  rewrite u64_add_small in Eparts by (unfold u64_MAX in *; lia). rewrite <- Est in Ha, Hc1.
  split_and!; [done|by apply frame_records_offsets| |done]. apply Eparts. by rewrite <- Est.
Qed.

(** C11: producing with [acks] none or leader on a partition whose high
    watermark is at or past everything stored: the call succeeds only on the
    leader; the batch gets the consecutive offsets from the high watermark on
    and the watermark moves to its end, which is again at or past everything
    stored; each record is what its offset holds afterwards, every other offset
    of every partition holds what it held, and a fetch from any offset of the
    batch returns the record of that offset first and then records of the
    following offsets, in order. *)
Theorem produce_consume c tp md records acks offsets c' :
  store_ok (bc_store c) → cache_ok (bc_store c) → bc_partitions c !! tp = Some md →
  let hw := pm_high_watermark md in
  let n := Z.of_nat (length records) in
  next_offset (bc_store c) tp ≤ hw → acks = AckNone ∨ acks = AckLeader →
  room (bc_store c) tp hw (frame_records tp hw 0 records) →
  append_records sizeof_WalRecord tp records acks c = (Ok offsets, c') →
  pm_is_leader md = true ∧
  offsets = ((λ i, hw + Z.of_nat i) <$> seq 0 (length records)) ∧
  bc_partitions c' = <[tp := set_high_watermark (hw + n) md]> (bc_partitions c) ∧
  store_ok (bc_store c') ∧ cache_ok (bc_store c') ∧ next_offset (bc_store c') tp ≤ hw + n ∧
  (∀ tp' o', ¬ (tp' = tp ∧ hw ≤ o' < hw + n) → resolve (bc_store c') tp' o' = resolve (bc_store c) tp' o') ∧
  (∀ i r, records !! i = Some r →
    resolve (bc_store c') tp (hw + Z.of_nat i) = Some (mkWal tp (hw + Z.of_nat i) r 0) ∧
    ∀ d1 d2 mb, ∃ rs, (fetch_records sizeof_WalRecord d1 d2 tp (hw + Z.of_nat i) mb c').1 = Ok (r :: rs) ∧
      ∀ j x, (r :: rs) !! j = Some x →
        wr_record <$> resolve (bc_store c') tp (hw + Z.of_nat i + Z.of_nat j) = Some x).
Proof.
  intros Hok Hcache Emd hw n Hn Hacks Hroom E. pose proof Hroom as (H0 & Hmax & _). rewrite frame_records_length in Hmax.
  destruct (append_records_spec c tp md records acks offsets c' Hok Hcache Emd) as (Hl & -> & Hp & [A1 A2 A3 A4 A5 A6]);
    [intros i _; apply resolve_beyond; [done|fold hw; lia]|done|done|done|]. fold hw n in Hp, A3, A4, A5, A6.
  rewrite frame_records_length in A3, A5, A6. fold n in A3, A5, A6.
  assert (Hget : ∀ i r, records !! i = Some r →
    hot_of (bc_store c') tp !! (hw + Z.of_nat i)
    = Some (mkHot (mkWal tp (hw + Z.of_nat i) r 0) (mem_size (mkWal tp (hw + Z.of_nat i) r 0)))).
  { intros i r Hi. apply A4. by apply frame_records_get. }
  split_and!; try done.
  - destruct A3 as [->|Hnil]; [lia|]. assert (records = []) as ->.
    { apply nil_length_inv. rewrite <- (frame_records_length tp hw 0), Hnil. done. }
    unfold append_records, begin_append in E. rewrite Emd, Hl in E. simpl in E.
    destruct Hacks as [->| ->]; injection E as <-; simpl; lia.
  - intros i r Hi. specialize (Hget i r Hi). split; [by rewrite (resolve_hot _ _ _ _ Hget)|].
    intros d1 d2 mb. by apply (fetch_hot c' d1 d2 tp _ mb _ A1 Hget).
Qed.
End produce.

(** ** Concrete runs *)

Module CoreDemo.
Import Mem StoreDemo.
#[local] Existing Instances wal_codec list_codec list_laws um um_laws lru lru_laws.
#[local] Instance no_followers : Replicator unit PS := {|
  replicate r m st := (Ok (mkReplicationResult (wr_offset r) Durable), m, st);
|}.
Abbreviation Core := (MessageBrokerCore PS unit).

Definition leader : PartitionMetadata := mkMetadata 1 0 true ["b1"] ["b1"].
Definition core0 : Core :=
  add_partition Demo.tp1 leader (add_partition Demo.tp0 leader (mkCore st0 tt ∅ 0)).
Definition batch : list Record_ := [Demo.rec0; Demo.rec1].
Definition produced : Result (list Offset) * Core := append_records 100 Demo.tp0 batch AckLeader core0.

Lemma produce_consume_witness :
  produced.1 = Ok [0; 1] ∧
  resolve (bc_store produced.2) Demo.tp0 1 = Some (mkWal Demo.tp0 1 Demo.rec1 0).
Proof.
  assert (E1 : produced.1 = Ok [0; 1]) by (vm_compute; reflexivity). split; [exact E1|].
  destruct produced as [r c'] eqn:E. simpl in E1. subst r.
  assert (Hn : next_offset (bc_store core0) Demo.tp0 ≤ 0) by (vm_compute; discriminate).
  assert (Hroom : room 100 (bc_store core0) Demo.tp0 0 (frame_records Demo.tp0 0 0 batch)).
  { split_and!; vm_compute; try reflexivity; discriminate. }
  assert (Hmd : bc_partitions core0 !! Demo.tp0 = Some leader) by (vm_compute; reflexivity).
  destruct (produce_consume 100 core0 Demo.tp0 leader batch AckLeader [0; 1] c' store_ok_st0 cache_ok_st0 Hmd
              Hn (or_intror eq_refl) Hroom E) as (_ & _ & _ & _ & _ & _ & _ & Hr).
  apply (Hr 1%nat Demo.rec1 eq_refl).
Defined.

(** Two produce calls on one partition that overlap: both read the high
    watermark 0 before either has moved it, both are acknowledged with offset
    0, and only the second record is there afterwards. *)
Definition race : Result (list Offset) * Result (list Offset) * Core :=
  match begin_append Demo.tp0 core0, begin_append Demo.tp0 core0 with
  | Ok base1, Ok base2 =>
      let '(r1, c) := finish_append 100 Demo.tp0 base1 [Demo.rec0] AckLeader core0 in
      let '(r2, c) := finish_append 100 Demo.tp0 base2 [Demo.rec1] AckLeader c in
      (r1, r2, c)
  | _, _ => (Err NotLeader, Err NotLeader, core0)
  end.

Theorem concurrent_produce_loses_record :
  race.1 = (Ok [0], Ok [0]) ∧
  (fetch_records 100 id id Demo.tp0 0 1000 race.2).1 = Ok [Demo.rec1] ∧
  pm_high_watermark <$> bc_partitions race.2 !! Demo.tp0 = Some 1.
Proof. split_and!; vm_compute; reflexivity. Qed.

(** A consumer of two partitions, the first holding two records and the second
    one: the poll returns all three, but the position of the second
    partition moves by the number of records polled so far over all
    partitions, so the record produced there next is never returned. *)
Definition two_partitions : Core :=
  (append_records 100 Demo.tp1 [Demo.rec1] AckLeader produced.2).2.
Definition consumer : MessageConsumer := mkConsumer ["orders"] (<[Demo.tp0 := 0]> (<[Demo.tp1 := 0]> ∅)).
Definition in_order (l : list (TopicPartition * Offset)) : list (TopicPartition * Offset) :=
  filter (λ p, p.1 = Demo.tp0) l ++ filter (λ p, p.1 = Demo.tp1) l.
Definition first_poll := poll 100 id id in_order consumer two_partitions.
Definition produced_again : Core := (append_records 100 Demo.tp1 [Demo.rec0] AckLeader first_poll.2).2.

Theorem poll_skips_records :
  (length <$> match first_poll.1.1 with Ok rs => Some rs | Err _ => None end) = Some 3%nat ∧
  mc_partition_offsets first_poll.1.2 !! Demo.tp1 = Some 3 ∧
  (poll 100 id id in_order first_poll.1.2 produced_again).1.1 = Ok [] ∧
  (fetch_records 100 id id Demo.tp1 1 1000 produced_again).1 = Ok [Demo.rec0].
Proof. split_and!; vm_compute; reflexivity. Qed.
End CoreDemo.
