(* ===== verification/LogSpec.v ===== *)
(** * The broker as an abstract log

    What a client of one broker may rely on, without tiers, caches, byte
    budgets or files: a partition is a list of records, a produce extends the
    list and returns the positions, a fetch returns a piece of the list from
    the position it asked for, and everything else changes nothing.  The
    broker core over the tiered partition store refines this: producing,
    fetching, flushing, tiering of sealed segments and compaction, in any
    order ([broker_refines_log]). *)

From S2P Require Import Prelude Types PartitionIndex ColdIndex SegmentedWal LruCache.
From S2P Require Import ObjectStorage Reservation PartitionStore Compaction BrokerCore.
Local Open Scope Z_scope.

(** ** The specification *)

Abbreviation Log := (gmap TopicPartition (list Record_)).

Inductive LogOp :=
  | LProduce (tp : TopicPartition) (records : list Record_) (acks : AcknowledgmentLevel)
  | LFetch (tp : TopicPartition) (o : Offset) (max_bytes : Z)
  | LFlush
  | LSeal (now : Z) (force : bool)
  | LTier (seq : Z)
  | LCompact.
Inductive Output :=
  | OProduced (r : Result (list Offset))
  | OFetched (r : Result (list Record_))
  | ODone (r : Result unit).

Definition positions (base n : nat) : list Offset := (λ i, Z.of_nat (base + i)) <$> seq 0 n.

Inductive spec_step : LogOp → Log → Output → Log → Prop :=
  | spec_produce tp records acks l old :
      l !! tp = Some old →
      spec_step (LProduce tp records acks) l (OProduced (Ok (positions (length old) (length records))))
        (<[tp := old ++ records]> l)
  | spec_produce_err tp records acks l e :
      spec_step (LProduce tp records acks) l (OProduced (Err e)) l
  | spec_fetch tp o mb l rs :
      rs `prefix_of` drop (Z.to_nat o) (default [] (l !! tp)) →
      (rs = [] → drop (Z.to_nat o) (default [] (l !! tp)) = []) →
      spec_step (LFetch tp o mb) l (OFetched (Ok rs)) l
  | spec_fetch_err tp o mb l e :
      drop (Z.to_nat o) (default [] (l !! tp)) ≠ [] → spec_step (LFetch tp o mb) l (OFetched (Err e)) l
  | spec_flush l r : spec_step LFlush l (ODone r) l
  | spec_seal now force l r : spec_step (LSeal now force) l (ODone r) l
  | spec_tier seq l r : spec_step (LTier seq) l (ODone r) l
  | spec_compact l r : spec_step LCompact l (ODone r) l.

(** A run of the specification with its outputs *)
Inductive spec_run : list LogOp → Log → list Output → Log → Prop :=
  | spec_nil l : spec_run [] l [] l
  | spec_cons op ops l l1 l2 out outs :
      spec_step op l out l1 → spec_run ops l1 outs l2 → spec_run (op :: ops) l (out :: outs) l2.

(** ** The broker *)

Section refinement.
Context {W U C R M : Type} `{!SegmentedLog W, !UploadManager U, !Cache C, !ObjectStorage R}.
Context `{!UploadManagerLaws U, !CacheLaws C}.
Context `{!Bincode (list WalRecord), !BincodeLaws (list WalRecord), !Bincode ManifestRecord, !Bincode Reservation}.
Abbreviation PS := (PartitionStore W U C R).
Context `{!Replicator M PS} (sizeof_WalRecord : Z) (crc32 : bytes → Z).
Context (interfere : Fencing R → Fencing R)
  (torder : list (TopicPartition * list WalRecord) → list (TopicPartition * list WalRecord)).
Context (corder : list TopicPartition → list TopicPartition) (config : CompactionConfig).
Hypothesis torder_perm : ∀ l, torder l ≡ₚ l.
Hypothesis corder_perm : ∀ l, corder l ≡ₚ l.
Abbreviation Core := (MessageBrokerCore PS M).
Implicit Types (c : Core) (tp : TopicPartition) (o : Offset) (l : Log).

Definition run_op (op : LogOp) c : Output * Core :=
  match op with
  | LProduce tp records acks =>
      let '(r, c) := append_records sizeof_WalRecord tp records acks c in (OProduced r, c)
  | LFetch tp o mb => let '(r, c) := fetch_records sizeof_WalRecord id id tp o mb c in (OFetched r, c)
  | LFlush => let '(r, c) := producer_flush c in (ODone r, c)
  | LSeal now force =>
      let '(r, w) := sl_seal now force (ps_wal (bc_store c)) in
      (ODone (match r with Ok _ => Ok tt | Err e => Err e end), with_store (with_wal w (bc_store c)) c)
  | LTier seq =>
      let '(r, st) := tier_segment crc32 interfere torder seq (bc_store c) in (ODone r, with_store st c)
  | LCompact =>
      let '(r, st) := run_compaction_cycle crc32 corder config (bc_store c) in (ODone r, with_store st c)
  end.
Fixpoint run_ops (ops : list LogOp) c : list Output * Core :=
  match ops with
  | [] => ([], c)
  | op :: ops => let '(out, c) := run_op op c in let '(outs, c) := run_ops ops c in (out :: outs, c)
  end.

(** When an operation is within the bounds of the store: a produce that does
    not wait for followers and leaves offsets and byte counts in range, and
    that is not cut off in the middle of a batch; a segment holding the hot
    records it was written with; compaction inputs in range. *)
Definition admissible (op : LogOp) c : Prop :=
  match op with
  | LProduce tp records acks =>
      (acks = AckNone ∨ acks = AckLeader) ∧
      (∀ md, bc_partitions c !! tp = Some md →
        room sizeof_WalRecord (bc_store c) tp (pm_high_watermark md) (frame_records tp (pm_high_watermark md) 0 records)) ∧
      ((length records ≤ 1)%nat ∨ is_ok (append_records sizeof_WalRecord tp records acks c).1 = true)
  | LFetch tp o mb => 0 ≤ o ∧ 0 ≤ tp_partition tp
  | LFlush | LSeal _ _ => True
  | LTier seq =>
      ∀ records tp recs, sl_read_segment_records seq (ps_wal (bc_store c)) = Ok records →
        group_by_partition records !! tp = Some recs → ∃ s, group_ok (bc_store c) tp s recs
  | LCompact =>
      let st := bc_store c in
      2 ≤ cc_max_sources config ∧
      (∀ tp x, x ∈ get_cold_segments (ps_index st) tp → 0 ≤ cs_size x) ∧
      (∀ tp, run_size (get_cold_segments (ps_index st) tp) < u64_modulus) ∧
      (∀ p rs, p ∈ plan_compaction corder (ps_index st) config →
         sources_records (ps_um st) (cp_sources p) = Some rs →
         um_accepts (ps_um st) (mkSegment (run_start (cp_sources p)) (run_end p) (Z.of_nat (length (serialize rs)))
                                  (serialize rs) (cp_tp p)))
  end.
Fixpoint all_admissible (ops : list LogOp) c : Prop :=
  match ops with
  | [] => True
  | op :: ops => admissible op c ∧ all_admissible ops (run_op op c).2
  end.

(** The abstraction relation: the store is well formed, the high watermark of
    a partition is the length of its list, and an offset holds the record of
    the list at that position, or nothing. *)
Record refines c l : Prop := {
  rf_store : store_ok (bc_store c);
  rf_cache : cache_ok (bc_store c);
  rf_watermark tp md : bc_partitions c !! tp = Some md →
    ∃ rs, l !! tp = Some rs ∧ pm_high_watermark md = Z.of_nat (length rs);
  rf_data tp o : wr_record <$> resolve (bc_store c) tp o
                 = if 0 <=? o then default [] (l !! tp) !! Z.to_nat o else None;
}.

(** Housekeeping that keeps what the store serves *)
Lemma refines_same c l st :
  refines c l → store_ok st → cache_ok st → same_reads (bc_store c) st → refines (with_store st c) l.
Proof. intros [H1 H2 H3 H4] Hs Hc Hr. split; try done. intros tp o. rewrite <- H4. simpl. by rewrite (Hr tp o). Qed.

Lemma refines_fresh c l tp md i :
  refines c l → bc_partitions c !! tp = Some md → resolve (bc_store c) tp (pm_high_watermark md + Z.of_nat i) = None.
Proof.
  intros Hr Hmd. destruct (rf_watermark _ _ Hr tp md Hmd) as (rs & Hl & ->).
  pose proof (rf_data _ _ Hr tp (Z.of_nat (length rs) + Z.of_nat i)) as Hd. rewrite Hl in Hd. simpl in Hd.
  rewrite (proj2 (Z.leb_le _ _)), lookup_ge_None_2 in Hd by lia. by apply fmap_None in Hd.
Qed.

(** *** Produce *)

Lemma produce_refines c l tp records acks r c' :
  refines c l → admissible (LProduce tp records acks) c →
  append_records sizeof_WalRecord tp records acks c = (r, c') →
  ∃ l', spec_step (LProduce tp records acks) l (OProduced r) l' ∧ refines c' l'.
Proof.
  intros Hr (Hacks & Hroom & Hwhole) E. destruct r as [offsets|e].
  - destruct (append_records_local sizeof_WalRecord _ _ _ _ _ _ Hacks E) as (md & _ & Emd & _ & _).
    destruct (rf_watermark _ _ Hr tp md Emd) as (old & Hl & Hw).
    destruct (append_records_spec sizeof_WalRecord c tp md records acks offsets c' (rf_store _ _ Hr) (rf_cache _ _ Hr) Emd)
      as (_ & -> & Hp & Happ); [intros i _; by eapply refines_fresh|done|by apply Hroom|done|].
    specialize (Hroom md Emd) as (H0 & Hmax & _). rewrite frame_records_length in Hmax.
    destruct Happ as [A1 A2 _ A4 _ A6]. rewrite frame_records_length in A6. rewrite Hw in *.
    exists (<[tp := old ++ records]> l). split.
    { replace ((λ i, Z.of_nat (length old) + Z.of_nat i) <$> seq 0 (length records)) with (positions (length old) (length records)).
      - by apply spec_produce.
      - unfold positions. apply list_fmap_ext. intros. lia. }
    split; [done|done| |].
    + intros tp' md'. rewrite Hp. intros [[<- <-]|[Hne Hmd']]%lookup_insert_Some.
      * exists (old ++ records). rewrite lookup_insert_eq, length_app. split; [done|]. simpl. lia.
      * rewrite lookup_insert_ne by done. by apply (rf_watermark _ _ Hr).
    + intros tp' o. destruct (decide (tp' = tp ∧ Z.of_nat (length old) ≤ o < Z.of_nat (length old) + Z.of_nat (length records)))
        as [[-> Ho]|Hout].
      * rewrite lookup_insert_eq. simpl. rewrite (proj2 (Z.leb_le _ _)), lookup_app_r by lia.
        destruct (lookup_lt_is_Some_2 records (Z.to_nat o - length old)) as [x Hx]; [lia|]. rewrite Hx.
        pose proof (A4 _ _ (frame_records_get tp _ _ _ _ H0 Hmax Hx)) as Hhot.
        replace o with (Z.of_nat (length old) + Z.of_nat (Z.to_nat o - length old)) at 1 by lia.
        by rewrite (resolve_hot _ _ _ _ Hhot).
      * rewrite (A6 tp' o Hout), (rf_data _ _ Hr tp' o). destruct (Z.leb_spec 0 o); [|done].
        destruct (decide (tp' = tp)) as [->|]; [|by rewrite lookup_insert_ne].
        rewrite lookup_insert_eq, Hl. simpl. destruct (decide (o < Z.of_nat (length old))).
        -- rewrite lookup_app_l by lia. done.
        -- assert (¬ (o < Z.of_nat (length old) + Z.of_nat (length records))) by (intros ?; apply Hout; split; [done|lia]).
           rewrite (lookup_ge_None_2 old), (lookup_ge_None_2 (old ++ records)); [done|rewrite length_app; lia|lia].
  - exists l. split; [constructor|]. unfold append_records, begin_append in E.
    destruct (bc_partitions c !! tp) as [md|] eqn:Emd; [|by injection E as <- <-].
    destruct (pm_is_leader md) eqn:El; [|by injection E as <- <-]. simpl in E.
    destruct Hwhole as [Hone|Hok].
    + destruct records as [|x [|y records]]; [|  |simpl in Hone; lia].
      * by destruct Hacks as [->| ->].
      * specialize (Hroom md eq_refl) as (H0 & Hmax & Hb). simpl in Hmax, Hb.
        unfold finish_append in E. cbn [frame_records append_each] in E.
        set (w := mkWal tp (u64_add (pm_high_watermark md) 0) x 0) in *.
        assert (Hw : wr_offset w = pm_high_watermark md) by (simpl; rewrite u64_add_small; unfold u64_MAX in *; lia).
        destruct (append sizeof_WalRecord w (bc_store c)) as [[loc|e'] st] eqn:Ea.
        { by destruct Hacks as [->| ->]. }
        cbn [sbind] in E. injection E as <- <-.
        destruct (append_failed sizeof_WalRecord (bc_store c) w e' st (rf_store _ _ Hr) (rf_cache _ _ Hr)) as (? & ? & ?); [| |done|].
        -- rewrite Hw. change (wr_tp w) with tp. cbn [op_ok]. pose proof (mem_size_nonneg sizeof_WalRecord w).
           rewrite zsum_cons in Hb. split_and!; [lia|lia|done|]. change (zsum _ []) with 0 in Hb. lia.
        -- rewrite Hw. pose proof (refines_fresh c l tp md 0 Hr Emd) as Hf. by rewrite Z.add_0_r in Hf.
        -- by apply refines_same.
    + unfold append_records, begin_append in Hok. rewrite Emd, El in Hok. simpl in Hok. by rewrite E in Hok.
Qed.

(** *** Fetch *)

Lemma fetch_refines c l tp o mb r c' :
  refines c l → 0 ≤ o → 0 ≤ tp_partition tp → fetch_records sizeof_WalRecord id id tp o mb c = (r, c') →
  spec_step (LFetch tp o mb) l (OFetched r) l ∧ refines c' l.
Proof using BincodeLaws0 CacheLaws0 UploadManagerLaws0.
  intros Hr Ho Htp. unfold fetch_records.
  destruct (read sizeof_WalRecord id id tp o mb (bc_store c)) as [res st] eqn:E.
  destruct (read_keep sizeof_WalRecord same_reads (bc_store c) tp o mb id id res st same_reads_rel (rf_store _ _ Hr) (rf_cache _ _ Hr) Ho Htp) as (H1 & H2 & H3 & Hv);
    [|done|].
  { intros st0 Hok Hc. assert (env_step same_reads st0 st0); [|done]. split_and!; try done. intros; by right. }
  pose proof (refines_same c l st Hr H1 H2 H3) as Hr'.
  assert (Hdata : ∀ i, wr_record <$> resolve (bc_store c) tp (o + Z.of_nat i) = drop (Z.to_nat o) (default [] (l !! tp)) !! i).
  { intros i. rewrite (rf_data _ _ Hr), lookup_drop, (proj2 (Z.leb_le _ _)) by lia. f_equal. lia. }
  destruct res as [ws|e]; cbn [sbind]; intros [= <- <-]; cycle 1.
  { split; [|done]. constructor. intros Hnil. specialize (Hdata 0%nat). rewrite Z.add_0_r, Hnil in Hdata.
    enough (Err (A := list WalRecord) e = Ok []) by done.
    eapply (read_nothing sizeof_WalRecord (bc_store c) tp o mb id id); [apply Hr| |exact E].
    by apply fmap_None in Hdata. }
  split; [|by destruct Hr'].
  assert (Hpre : ∀ i x, (wr_record <$> ws) !! i = Some x → drop (Z.to_nat o) (default [] (l !! tp)) !! i = Some x).
  { intros i x. rewrite list_lookup_fmap. destruct (ws !! i) as [w|] eqn:Ew; [|done]. intros [= <-].
    destruct ws as [|w0 ws]; [done|]. rewrite <- Hdata, <- (H3 tp). by rewrite (proj2 Hv i w Ew). }
  constructor.
  - set (big := drop _ _) in *. clearbody big. set (small := wr_record <$> ws) in *. clearbody small.
    exists (drop (length small) big). rewrite <- (take_drop (length small) big) at 1. f_equal. apply list_eq. intros i.
    destruct (decide (i < length small)%nat) as [Hi|Hi].
    + rewrite lookup_take_lt by done. destruct (lookup_lt_is_Some_2 small i Hi) as [x Hx]. by rewrite Hx, (Hpre i x Hx).
    + rewrite lookup_take_ge, (lookup_ge_None_2 small) by lia. done.
  - intros Hnil. destruct ws as [|w ws]; [|done]. specialize (Hdata 0%nat). rewrite Z.add_0_r, Hv in Hdata. simpl in Hdata.
    destruct (drop _ _); [done|]. by simpl in Hdata.
Qed.

(** *** The simulation *)

Lemma run_op_refines op c l out c' :
  refines c l → admissible op c → run_op op c = (out, c') → ∃ l', spec_step op l out l' ∧ refines c' l'.
Proof using BincodeLaws0 CacheLaws0 UploadManagerLaws0 torder_perm corder_perm.
  intros Hr Ha. destruct op as [tp records acks|tp o mb| |now force|seq|]; simpl.
  - destruct (append_records _ _ _ _ _) as [r c1] eqn:E. intros [= <- <-]. by eapply produce_refines.
  - destruct (fetch_records _ _ _ _ _ _ _) as [r c1] eqn:E. intros [= <- <-]. exists l. destruct Ha.
    by eapply fetch_refines.
  - unfold producer_flush, sync. destruct (sl_sync _) as [r w]. intros [= <- <-]. exists l.
    split; [constructor|]. by apply refines_same; [done|apply Hr|apply Hr|intros ??].
  - destruct (sl_seal _ _ _) as [r w]. intros [= <- <-]. exists l.
    split; [constructor|]. by apply refines_same; [done|apply Hr|apply Hr|intros ??].
  - destruct (tier_segment _ _ _ _ _) as [r st] eqn:E. intros [= <- <-]. exists l. split; [constructor|].
    destruct (tier_segment_keep crc32 interfere torder seq _ r st (rf_store _ _ Hr) (rf_cache _ _ Hr) torder_perm Ha E) as (? & ? & ? & _).
    by apply refines_same.
  - destruct (run_compaction_cycle _ _ _ _) as [r st] eqn:E. intros [= <- <-]. exists l. split; [constructor|].
    destruct Ha as (? & ? & ? & ?).
    destruct (run_compaction_cycle_keep crc32 corder config _ r st (rf_store _ _ Hr) (rf_cache _ _ Hr) corder_perm) as (_ & ? & ? & ?); try done.
    by apply refines_same.
Qed.

(** C1: The broker refines the abstract log.  From related states, take any
    sequence of operations, handled one after another, each of which is
    [admissible] where it is taken: produces with acknowledgment None or
    Leader whose offsets and byte counts stay in range and that either succeed
    or carry at most one record (a longer batch that fails midway leaves a
    part of it visible, see [BrokerCore]); fetches from any offset, flushes
    and seals, without further conditions; tiering of segments whose records
    are ready to be moved ([group_ok]); and compaction cycles whose
    merged objects the upload path accepts and whose sizes fit 64 bits.  Its
    outputs are outputs of the abstract log for the same sequence, and it
    ends in related states: the offsets told are positions of the list, a
    failed produce leaves the list alone, a fetch returns a piece of the list
    that starts at its offset (nothing only past the end, an error only
    before the end), and flushing, sealing, tiering and compacting are
    invisible. *)
Theorem broker_refines_log ops c l outs c' :
  refines c l → all_admissible ops c → run_ops ops c = (outs, c') →
  ∃ l', spec_run ops l outs l' ∧ refines c' l'.
Proof using BincodeLaws0 CacheLaws0 UploadManagerLaws0 torder_perm corder_perm.
  revert c l outs. induction ops as [|op ops IH]; intros c l outs Hr Hadm; simpl.
  - intros [= <- <-]. exists l. split; [constructor|done].
  - destruct Hadm as [Ha Hadm]. destruct (run_op op c) as [out c1] eqn:E1. simpl in Hadm.
    destruct (run_ops ops c1) as [outs1 c2] eqn:E2. intros [= <- <-].
    destruct (run_op_refines op c l out c1 Hr Ha E1) as (l1 & Hs & Hr1).
    destruct (IH c1 l1 outs1 Hr1 Hadm E2) as (l2 & Hrun & Hr2). exists l2. split; [|done]. by econstructor.
Qed.
End refinement.

(** ** A run through both tiers *)

Module LogDemo.
Import Mem StoreDemo.
#[local] Existing Instances wal_codec list_codec list_laws manifest_codec res_codec um um_laws lru lru_laws.
#[local] Existing Instance CoreDemo.no_followers.
Abbreviation Core := (MessageBrokerCore PS unit).

Definition conf : CompactionConfig := CompactionDemo.conf.
Definition core : Core := add_partition Demo.tp0 CoreDemo.leader (mkCore st0 tt ∅ 0).
Definition ops : list LogOp :=
  [LProduce Demo.tp0 [Demo.rec0] AckLeader; LSeal 8 true; LTier 0; LFetch Demo.tp0 0 1000;
   LProduce Demo.tp0 [Demo.rec1] AckNone; LFetch Demo.tp0 1 1000; LFetch Demo.tp0 2 1000].
Abbreviation run := (run_ops 100 crc id id id conf).
Abbreviation after n := (run (take n ops) core).2.

Lemma refines_core : refines core {[Demo.tp0 := []]}.
Proof.
  split.
  - exact store_ok_st0.
  - exact cache_ok_st0.
  - intros tp md. simpl. intros [[<- <-]|[_ H]]%lookup_insert_Some; [|by rewrite lookup_empty in H].
    exists []. rewrite lookup_singleton_eq. done.
  - intros tp o. change (bc_store core) with st0.
    assert (resolve st0 tp o = None) as ->.
    { unfold resolve, resolve_in, source, entries_of. simpl. rewrite !lookup_empty. simpl. rewrite lookup_empty.
      unfold floor_entry. done. }
    simpl. destruct (0 <=? o); [|done]. destruct (decide (tp = Demo.tp0)) as [->|].
    + by rewrite lookup_singleton_eq.
    + by rewrite lookup_singleton_ne.
Qed.

(** The sealed segment holds the one hot record. *)
Lemma tier_ready records tp recs :
  sl_read_segment_records 0 (ps_wal st2) = Ok records → group_by_partition records !! tp = Some recs →
  ∃ s, group_ok st2 tp s recs.
Proof.
  assert (Hread : sl_read_segment_records 0 (ps_wal st2) = Ok [r0]) by (vm_compute; reflexivity).
  rewrite Hread. intros [= <-].
  assert (Hgrp : group_by_partition [r0] = <[Demo.tp0 := [r0]]> ∅) by (vm_compute; reflexivity).
  rewrite Hgrp. intros [[<- <-]|[_ H]]%lookup_insert_Some; [exists 0; exact group_ok_st2|by rewrite lookup_empty in H].
Qed.

Ltac produce_ready :=
  split; [by right + by left|split; [|left; vm_compute; lia]];
  let md := fresh "md" in let H := fresh "H" in
  intros md H; vm_compute in H; injection H as <-; split_and!; vm_compute; try reflexivity; discriminate.

Lemma broker_refines_log_witness :
  (run ops core).1
  = [OProduced (Ok [0]); ODone (Ok tt); ODone (Ok tt); OFetched (Ok [Demo.rec0]); OProduced (Ok [1]);
     OFetched (Ok [Demo.rec1]); OFetched (Ok [])] ∧
  ∃ l, spec_run ops {[Demo.tp0 := []]} (run ops core).1 l ∧ l !! Demo.tp0 = Some [Demo.rec0; Demo.rec1].
Proof.
  split; [vm_compute; reflexivity|].
  destruct (broker_refines_log 100 crc id id id conf (λ l, reflexivity l) (λ l, reflexivity l) ops core
    {[Demo.tp0 := []]} (run ops core).1 (run ops core).2) as (l & Hl & Hr).
  - exact refines_core.
  - split; [produce_ready|]. split; [exact I|]. split.
    { assert (E : bc_store (run_op 100 crc id id id conf (LSeal 8 true)
        (run_op 100 crc id id id conf (LProduce Demo.tp0 [Demo.rec0] AckLeader) core).2).2 = st2) by (vm_compute; reflexivity).
      unfold admissible. rewrite E. exact tier_ready. }
    split; [split; vm_compute; discriminate|]. split; [produce_ready|].
    split; [split; vm_compute; discriminate|]. split; [split; vm_compute; discriminate|exact I].
  - apply surjective_pairing.
  - exists l. split; [exact Hl|]. destruct (rf_watermark _ _ Hr Demo.tp0 (mkMetadata 1 2 true ["b1"] ["b1"])) as (rs & Hrs & Hlen);
      [vm_compute; reflexivity|].
    pose proof (rf_data _ _ Hr Demo.tp0 0) as H0. pose proof (rf_data _ _ Hr Demo.tp0 1) as H1.
    assert (G0 : wr_record <$> resolve (bc_store (run ops core).2) Demo.tp0 0 = Some Demo.rec0) by (vm_compute; reflexivity).
    assert (G1 : wr_record <$> resolve (bc_store (run ops core).2) Demo.tp0 1 = Some Demo.rec1) by (vm_compute; reflexivity).
    rewrite G0, Hrs in H0. rewrite G1, Hrs in H1. cbn in H0, H1, Hlen. clear -Hrs H0 H1 Hlen.
    destruct rs as [|a [|b [|? ?]]]; [discriminate H0|discriminate H1| |cbn in Hlen; lia].
    injection H0 as <-. injection H1 as <-. exact Hrs.
Defined.
End LogDemo.
