(* ===== verification/Scaling.v ===== *)
(** * Load scores and partition rebalancing

    Model of [src/src/scaling/operations.rs] with the types of
    [src/src/scaling/mod.rs] and the score configuration of
    [src/src/config/operations.rs].  An [f64] is a [spec_float] of the Standard
    Library's executable IEEE 754 model at 53 bits of precision.  Iteration
    orders of hash maps are arguments. *)

From Stdlib Require Import SpecFloat.
From S2P Require Import Prelude Types.
Local Open Scope Z_scope.

(** ** [f64] *)

Abbreviation f64 := spec_float (only parsing).
Definition f64_add : f64 → f64 → f64 := SFadd 53 1024.
Definition f64_sub : f64 → f64 → f64 := SFsub 53 1024.
Definition f64_mul : f64 → f64 → f64 := SFmul 53 1024.
Definition f64_div : f64 → f64 → f64 := SFdiv 53 1024.
Definition f64_partial_cmp : f64 → f64 → option comparison := SFcompare.
Definition f64_lt : f64 → f64 → bool := SFltb.
(** An integer cast with [as f64]. *)
Definition f64_of_Z (z : Z) : f64 := binary_normalize 53 1024 z 0 false.
(** A decimal literal [n / d]. *)
Definition f64_lit (n d : Z) : f64 := f64_div (f64_of_Z n) (f64_of_Z d).
Definition f64_is_nan (x : f64) : bool := match x with S754_nan => true | _ => false end.
Definition f64_zero : f64 := S754_zero false.
Definition f64_infinity : f64 := S754_infinity false.
(** [as usize]: truncation, saturating at both ends, [NaN] becomes 0. *)
Definition f64_to_usize (x : f64) : Z :=
  match x with
  | S754_finite false m e =>
      Z.min u64_MAX (if 0 <=? e then Z.shiftl (Zpos m) e else Z.shiftr (Zpos m) (- e))
  | S754_infinity false => u64_MAX
  | _ => 0
  end.

(** ** Brokers and their load *)

Inductive BrokerStatus := Healthy | Draining | Unhealthy | Removed.
#[global] Instance BrokerStatus_eq_dec : EqDecision BrokerStatus.
Proof. solve_decision. Defined.

Record LoadMetrics := mkLoad {
  lm_cpu_usage : f64;
  lm_memory_usage : f64;
  lm_disk_usage : f64;
  lm_network_tx_bytes_sec : Z;
  lm_network_rx_bytes_sec : Z;
  lm_partition_count : Z;
  lm_leader_partition_count : Z;
  lm_message_rate : Z;
  lm_consumer_lag_total : Z;
}.
Definition default_load : LoadMetrics := mkLoad f64_zero f64_zero f64_zero 0 0 0 0 0 0.

Record BrokerLoad := mkBrokerLoad {
  bl_id : string;
  bl_rack_id : string;
  bl_endpoints : list string;
  bl_status : BrokerStatus;
  bl_load_metrics : LoadMetrics;
}.

Record LoadScoreNormalization := mkNorm {
  ln_max_network_bytes_sec : f64;
  ln_max_partitions_per_broker : f64;
  ln_max_message_rate : f64;
}.
Definition default_norm : LoadScoreNormalization :=
  mkNorm (f64_of_Z 1250000000) (f64_of_Z 4000) (f64_of_Z 500000).
Record LoadScoreWeights := mkWeights {
  lw_cpu : f64;
  lw_memory : f64;
  lw_disk : f64;
  lw_network : f64;
  lw_partition : f64;
  lw_message_rate : f64;
}.
Definition default_weights : LoadScoreWeights :=
  mkWeights (f64_of_Z 1) (f64_of_Z 1) (f64_lit 8 10) (f64_lit 7 10) (f64_lit 5 10) (f64_lit 3 10).

Definition composite_load_score (m : LoadMetrics) (norm : LoadScoreNormalization) (w : LoadScoreWeights) : f64 :=
  let net_usage := f64_div (f64_of_Z (u64_add (lm_network_tx_bytes_sec m) (lm_network_rx_bytes_sec m)))
                     (ln_max_network_bytes_sec norm) in
  let part_ratio := f64_div (f64_of_Z (lm_partition_count m)) (ln_max_partitions_per_broker norm) in
  let rate_ratio := f64_div (f64_of_Z (lm_message_rate m)) (ln_max_message_rate norm) in
  let weighted_sum :=
    f64_add (f64_add (f64_add (f64_add (f64_add
      (f64_mul (lm_cpu_usage m) (lw_cpu w))
      (f64_mul (lm_memory_usage m) (lw_memory w)))
      (f64_mul (lm_disk_usage m) (lw_disk w)))
      (f64_mul net_usage (lw_network w)))
      (f64_mul part_ratio (lw_partition w)))
      (f64_mul rate_ratio (lw_message_rate w)) in
  let total_weight :=
    f64_add (f64_add (f64_add (f64_add (f64_add (lw_cpu w) (lw_memory w)) (lw_disk w)) (lw_network w))
      (lw_partition w)) (lw_message_rate w) in
  f64_div weighted_sum total_weight.

(** ** Rebalance plans *)

(** [controller::service::PartitionAssignment] *)
Record PartitionAssignment := mkAssignment {
  pa_leader : BrokerId;
  pa_replicas : list BrokerId;
  pa_in_sync_replicas : list BrokerId;
  pa_leader_epoch : Z;
}.
#[global] Instance PartitionAssignment_eq_dec : EqDecision PartitionAssignment.
Proof. solve_decision. Defined.

Record PartitionMove := mkMove {
  mv_topic_partition : TopicPartition;
  mv_from_broker : string;
  mv_to_broker : string;
  mv_estimated_bytes : Z;
}.
Record RebalancePlan := mkPlan {
  rp_operation_id : string;
  rp_moves : list PartitionMove;
  rp_estimated_duration_secs : Z;
}.

(** [PartitionRebalancerImpl] *)
Record PartitionRebalancerImpl := mkRebalancer {
  rb_operation_progress : gmap string f64;
  rb_norm : LoadScoreNormalization;
  rb_weights : LoadScoreWeights;
}.
Definition rebalancer_new : PartitionRebalancerImpl := mkRebalancer ∅ default_norm default_weights.

Definition calculate_broker_load_score (rb : PartitionRebalancerImpl) (b : BrokerLoad) : f64 :=
  composite_load_score (bl_load_metrics b) (rb_norm rb) (rb_weights rb).

(** The loop of [select_partitions_to_move]: [n] is the number of partitions
    selected so far. *)
Definition hosts (broker : string) (a : PartitionAssignment) : bool :=
  bool_decide (pa_leader a = broker) || bool_decide (broker ∈ pa_replicas a).
Fixpoint select_loop (from : string) (limit n : Z) (assignments : list (TopicPartition * PartitionAssignment))
  : list TopicPartition :=
  match assignments with
  | [] => []
  | (tp, a) :: assignments =>
      if hosts from a then
        if limit <=? n + 1 then [tp] else tp :: select_loop from limit (n + 1) assignments
      else select_loop from limit n assignments
  end.
Definition select_partitions_to_move (from_broker : BrokerLoad) (target_load_reduction : f64)
    (assignments : list (TopicPartition * PartitionAssignment)) : list TopicPartition :=
  let partitions_to_move :=
    f64_to_usize (f64_mul target_load_reduction (f64_of_Z (lm_partition_count (bl_load_metrics from_broker)))) in
  select_loop (bl_id from_broker) (Z.max partitions_to_move 1) 0 assignments.

(** [min_by] keeps the earlier of two equal elements; scores that do not
    compare count as equal. *)
Definition min_step (score : BrokerLoad → f64) (acc : option BrokerLoad) (b : BrokerLoad) : option BrokerLoad :=
  match acc with
  | None => Some b
  | Some a => match f64_partial_cmp (score a) (score b) with
              | Some Gt => Some b
              | _ => Some a
              end
  end.
Definition find_best_target_broker (rb : PartitionRebalancerImpl) (brokers : list BrokerLoad)
    (exclude_broker : string) : option string :=
  bl_id <$> foldl (min_step (calculate_broker_load_score rb)) None
    (filter (λ b, bl_id b ≠ exclude_broker ∧ bl_status b = Healthy) brokers).

Definition is_overloaded (rb : PartitionRebalancerImpl) (average_load : f64) (b : BrokerLoad) : bool :=
  f64_lt (f64_mul average_load (f64_lit 11 10)) (calculate_broker_load_score rb b)
  && (bool_decide (bl_status b = Healthy) || bool_decide (bl_status b = Draining)).

Definition average_load_of (rb : PartitionRebalancerImpl) (brokers : list BrokerLoad) : f64 :=
  f64_div (foldl (λ acc b, f64_add acc (calculate_broker_load_score rb b)) f64_zero brokers)
    (f64_of_Z (Z.of_nat (length brokers))).

Definition moves_of (rb : PartitionRebalancerImpl) (brokers : list BrokerLoad) (average_load : f64)
    (assignments : list (TopicPartition * PartitionAssignment)) (b : BrokerLoad) : list PartitionMove :=
  let current_load := calculate_broker_load_score rb b in
  let target_load_reduction := f64_div (f64_sub current_load average_load) current_load in
  omap (λ tp, (λ target, mkMove tp (bl_id b) target (100 * 1024 * 1024)) <$>
                find_best_target_broker rb brokers (bl_id b))
    (select_partitions_to_move b target_load_reduction assignments).

(** [order] is the iteration order of the assignment map, [operation_id] the
    generated UUID. *)
Definition calculate_rebalance_plan (order : list (TopicPartition * PartitionAssignment) →
      list (TopicPartition * PartitionAssignment)) (operation_id : string) (rb : PartitionRebalancerImpl)
    (brokers : list BrokerLoad) (assignments : gmap TopicPartition PartitionAssignment) : RebalancePlan :=
  let average_load := average_load_of rb brokers in
  let moves := filter (λ b, is_overloaded rb average_load b = true) brokers ≫=
                 moves_of rb brokers average_load (order (map_to_list assignments)) in
  mkPlan operation_id moves (zsum mv_estimated_bytes moves / (10 * 1024 * 1024)).

(** [execute_rebalance] only records progress: the assignments it is given are
    not used. *)
Fixpoint progress_loop (operation_id : string) (total i : Z) (moves : list PartitionMove)
    (progress : gmap string f64) : gmap string f64 :=
  match moves with
  | [] => progress
  | _ :: moves =>
      progress_loop operation_id total (i + 1) moves
        (<[operation_id := f64_div (f64_of_Z (i + 1)) (f64_of_Z total)]> progress)
  end.
Definition execute_rebalance (plan : RebalancePlan) (rb : PartitionRebalancerImpl) : PartitionRebalancerImpl :=
  mkRebalancer
    (progress_loop (rp_operation_id plan) (Z.of_nat (length (rp_moves plan))) 0 (rp_moves plan)
       (<[rp_operation_id plan := f64_zero]> (rb_operation_progress rb)))
    (rb_norm rb) (rb_weights rb).
Definition get_rebalance_progress (operation_id : string) (rb : PartitionRebalancerImpl) : f64 :=
  default f64_zero (rb_operation_progress rb !! operation_id).

(** ** The order of floating-point numbers

    Away from [NaN], [partial_cmp] is the lexicographic order of a key, so it
    is a total preorder. *)

Definition f64_key (x : f64) : Z * Z * Z :=
  match x with
  | S754_nan => (3, 0, 0)
  | S754_infinity true => (-2, 0, 0)
  | S754_finite true m e => (-1, - e, - Zpos m)
  | S754_zero _ => (0, 0, 0)
  | S754_finite false m e => (1, e, Zpos m)
  | S754_infinity false => (2, 0, 0)
  end.
Definition key_cmp (a b : Z * Z * Z) : comparison :=
  match a.1.1 ?= b.1.1 with
  | Eq => match a.1.2 ?= b.1.2 with Eq => a.2 ?= b.2 | c => c end
  | c => c
  end.

Lemma f64_cmp_key a b :
  f64_is_nan a = false → f64_is_nan b = false → f64_partial_cmp a b = Some (key_cmp (f64_key a) (f64_key b)).
Proof.
  intros Ha Hb. unfold f64_partial_cmp, key_cmp.
  destruct a as [sa|[]| |[] ma ea], b as [sb|[]| |[] mb eb]; try done; simpl; f_equal.
  rewrite Z.compare_opp, (Z.compare_antisym ea eb). by destruct (ea ?= eb).
Qed.

Lemma key_cmp_not_gt_trans a b c : key_cmp a b ≠ Gt → key_cmp b c ≠ Gt → key_cmp a c ≠ Gt.
Proof.
  destruct a as [[a1 a2] a3], b as [[b1 b2] b3], c as [[c1 c2] c3]. unfold key_cmp. simpl.
  destruct (Z.compare_spec a1 b1), (Z.compare_spec a2 b2), (Z.compare_spec a3 b3),
    (Z.compare_spec b1 c1), (Z.compare_spec b2 c2), (Z.compare_spec b3 c3); intros ??; try done;
    destruct (Z.compare_spec a1 c1); try done; try lia;
    destruct (Z.compare_spec a2 c2); try done; try lia; destruct (Z.compare_spec a3 c3); try done; lia.
Qed.

Lemma key_cmp_antisym a b : key_cmp b a = CompOpp (key_cmp a b).
Proof.
  unfold key_cmp. rewrite (Z.compare_antisym b.1.1), (Z.compare_antisym b.1.2), (Z.compare_antisym b.2).
  by destruct (b.1.1 ?= a.1.1), (b.1.2 ?= a.1.2), (b.2 ?= a.2).
Qed.

(** ** Plans move partitions from overloaded to idle brokers *)

Section plan.
Context (rb : PartitionRebalancerImpl).
Abbreviation score := (calculate_broker_load_score rb).
Implicit Types (b : BrokerLoad) (brokers : list BrokerLoad) (tp : TopicPartition).

Lemma select_loop_elem from limit n l tp :
  tp ∈ select_loop from limit n l → ∃ a, (tp, a) ∈ l ∧ hosts from a = true.
Proof.
  revert n. induction l as [|[tp' a] l IH]; intros n; simpl; [by intros ?%elem_of_nil|].
  destruct (hosts from a) eqn:Eh.
  - assert (Hhead : ∃ a0, (tp', a0) ∈ (tp', a) :: l ∧ hosts from a0 = true)
      by (exists a; split; [left|done]).
    destruct (limit <=? n + 1).
    + by intros ->%list_elem_of_singleton.
    + intros [->|Hin]%elem_of_cons; [done|]. destruct (IH _ Hin) as (a' & ? & ?). exists a'. split; [by right|done].
  - intros Hin. destruct (IH _ Hin) as (a' & ? & ?). exists a'. split; [by right|done].
Qed.

Lemma select_loop_length from limit n l :
  0 ≤ n < limit → n + Z.of_nat (length (select_loop from limit n l)) ≤ limit.
Proof.
  revert n. induction l as [|[tp' a] l IH]; intros n Hn; simpl; [lia|].
  destruct (hosts from a); [|by apply IH]. destruct (Z.leb_spec limit (n + 1)); simpl; [lia|].
  specialize (IH (n + 1) ltac:(lia)). lia.
Qed.

Lemma cmp_refl b : f64_is_nan (score b) = false → f64_partial_cmp (score b) (score b) ≠ Some Gt.
Proof. intros Hb. rewrite f64_cmp_key by done. unfold key_cmp. by rewrite !Z.compare_refl. Qed.

Lemma cmp_trans a b c :
  f64_is_nan (score a) = false → f64_is_nan (score b) = false → f64_is_nan (score c) = false →
  f64_partial_cmp (score a) (score b) ≠ Some Gt → f64_partial_cmp (score b) (score c) ≠ Some Gt →
  f64_partial_cmp (score a) (score c) ≠ Some Gt.
Proof.
  intros Ha Hb Hc. rewrite !f64_cmp_key by done. intros H1 H2 [= H3]. revert H3.
  apply (key_cmp_not_gt_trans _ (f64_key (score b))); congruence.
Qed.

Lemma min_step_spec acc x :
  f64_is_nan (score x) = false → (∀ a, acc = Some a → f64_is_nan (score a) = false) →
  ∃ a', min_step score acc x = Some a' ∧ (acc = Some a' ∨ a' = x) ∧ f64_is_nan (score a') = false ∧
    f64_partial_cmp (score a') (score x) ≠ Some Gt ∧
    ∀ a, acc = Some a → f64_partial_cmp (score a') (score a) ≠ Some Gt.
Proof.
  intros Hx Hacc. pose proof cmp_refl. destruct acc as [a|]; simpl; [|exists x; split_and!; auto; done].
  assert (Ha : f64_is_nan (score a) = false) by by apply Hacc.
  destruct (f64_partial_cmp (score a) (score x)) as [[]|] eqn:E.
  - exists a. split_and!; auto; [by rewrite E|]. by intros ? [= <-]; auto.
  - exists a. split_and!; auto; [by rewrite E|]. by intros ? [= <-]; auto.
  - exists x. split_and!; auto. intros ? [= <-]. rewrite f64_cmp_key in E |- * by done.
    injection E as E. by rewrite key_cmp_antisym, E.
  - by rewrite f64_cmp_key in E by done.
Qed.

(** The selected target is one of the candidates and none is less loaded. *)
Lemma min_fold_spec l acc :
  (∀ b, b ∈ l ∨ acc = Some b → f64_is_nan (score b) = false) →
  match foldl (min_step score) acc l with
  | None => acc = None ∧ l = []
  | Some m => (acc = Some m ∨ m ∈ l) ∧
      ∀ b, b ∈ l ∨ acc = Some b → f64_partial_cmp (score m) (score b) ≠ Some Gt
  end.
Proof.
  revert acc. induction l as [|x l IH]; intros acc Hnan; simpl.
  - destruct acc as [a|]; [|done]. split; [by left|]. intros b [?%elem_of_nil|[= ->]]; [done|].
    apply cmp_refl, Hnan. by right.
  - destruct (min_step_spec acc x) as (a' & -> & Hfrom & Hna & Hax & Hacc).
    { apply Hnan. left. left. }
    { intros a ->. apply Hnan. by right. }
    assert (Hnan' : ∀ b, b ∈ l ∨ Some a' = Some b → f64_is_nan (score b) = false).
    { intros b [Hb|[= <-]]; [apply Hnan; left; by right|done]. }
    specialize (IH (Some a') Hnan'). destruct (foldl _ (Some a') l) as [m|]; [|by destruct IH].
    destruct IH as [Hm Hmin].
    assert (Hnm : f64_is_nan (score m) = false) by (apply Hnan'; naive_solver).
    assert (Hma : f64_partial_cmp (score m) (score a') ≠ Some Gt) by (apply Hmin; by right).
    split.
    + destruct Hm as [[= <-]|Hm]; [|right; by right]. destruct Hfrom as [->| ->]; [by left|right; left].
    + intros b [[->|Hb]%elem_of_cons|Hb]; [|apply Hmin; by left|].
      * apply (cmp_trans m a' x); auto. apply Hnan. left. left.
      * apply (cmp_trans m a' b); auto.
Qed.

Definition eligible (exclude : string) b : Prop := bl_id b ≠ exclude ∧ bl_status b = Healthy.

Lemma find_best_target_spec brokers exclude target :
  (∀ b, b ∈ brokers → f64_is_nan (score b) = false) →
  find_best_target_broker rb brokers exclude = Some target →
  ∃ to, to ∈ brokers ∧ bl_id to = target ∧ eligible exclude to ∧
    ∀ b, b ∈ brokers → eligible exclude b → f64_partial_cmp (score to) (score b) ≠ Some Gt.
Proof.
  intros Hnan. unfold find_best_target_broker. set (l := filter _ brokers).
  pose proof (min_fold_spec l None) as Hspec. destruct (foldl _ None l) as [m|]; [|done].
  intros [= <-]. destruct Hspec as [[?|Hm] Hmin]; [|done|].
  { intros b [Hb|?]; [|done]. apply list_elem_of_filter in Hb as [_ Hb]. by apply Hnan. }
  apply list_elem_of_filter in Hm as [He Hm]. exists m. split_and!; [done|done|done|].
  intros b Hb Hel. apply Hmin. left. by apply list_elem_of_filter.
Qed.

(** Rebalance plans.  Whatever the iteration order of the
    assignments, every move of a plan takes a partition hosted by a broker
    whose score exceeds the average by more than a tenth (and that is healthy
    or draining) to a different, healthy broker, and no other healthy broker
    has a lower score than the target. *)
Theorem rebalance_plan_sound order operation_id brokers assignments mv :
  (∀ l, order l ≡ₚ l) → (∀ b, b ∈ brokers → f64_is_nan (score b) = false) →
  mv ∈ rp_moves (calculate_rebalance_plan order operation_id rb brokers assignments) →
  ∃ from to a,
    from ∈ brokers ∧ bl_id from = mv_from_broker mv ∧
    is_overloaded rb (average_load_of rb brokers) from = true ∧
    assignments !! mv_topic_partition mv = Some a ∧ hosts (mv_from_broker mv) a = true ∧
    to ∈ brokers ∧ bl_id to = mv_to_broker mv ∧ bl_status to = Healthy ∧ mv_to_broker mv ≠ mv_from_broker mv ∧
    ∀ b, b ∈ brokers → eligible (mv_from_broker mv) b → f64_partial_cmp (score to) (score b) ≠ Some Gt.
Proof.
  intros Hord Hnan. unfold calculate_rebalance_plan. simpl.
  intros (from & Hmv & [Hover Hfrom]%list_elem_of_filter)%list_elem_of_bind.
  unfold moves_of in Hmv. apply list_elem_of_omap in Hmv as (tp & Htp & Hmv).
  destruct (find_best_target_broker _ _ _) as [target|] eqn:Et; [|done]. injection Hmv as <-. simpl.
  destruct (find_best_target_spec _ _ _ Hnan Et) as (to & Hto & <- & [Hne Hh] & Hmin).
  unfold select_partitions_to_move in Htp. apply select_loop_elem in Htp as (a & Hin & Hhost).
  rewrite Hord, elem_of_map_to_list in Hin.
  exists from, to, a. done.
Qed.
End plan.

(** ** A concrete cluster *)

Module ScalingDemo.
Definition load (cpu : Z) (partitions : Z) : LoadMetrics :=
  mkLoad (f64_lit cpu 10) (f64_lit cpu 10) (f64_lit 3 10) 500000 500000 partitions 10 50000 0.
Definition b1 : BrokerLoad := mkBrokerLoad "broker-1" "rack-1" ["broker-1:9092"] Healthy (load 9 100).
Definition b2 : BrokerLoad := mkBrokerLoad "broker-2" "rack-2" ["broker-2:9092"] Healthy (load 3 20).
Definition b3 : BrokerLoad := mkBrokerLoad "broker-3" "rack-3" ["broker-3:9092"] Unhealthy (load 9 100).
Definition both : PartitionAssignment :=
  mkAssignment "broker-1" ["broker-1"; "broker-2"] ["broker-1"; "broker-2"] 1.
Definition assignments : gmap TopicPartition PartitionAssignment := {[Demo.tp0 := both]}.
Definition plan : RebalancePlan := calculate_rebalance_plan id "op" rebalancer_new [b1; b2] assignments.

Lemma rebalance_plan_sound_witness :
  rp_moves plan = [mkMove Demo.tp0 "broker-1" "broker-2" 104857600] ∧
  ∃ from to, bl_id from = "broker-1" ∧ bl_id to = "broker-2" ∧ bl_status to = Healthy.
Proof.
  assert (E : rp_moves plan = [mkMove Demo.tp0 "broker-1" "broker-2" 104857600]) by (vm_compute; reflexivity).
  split; [exact E|].
  destruct (rebalance_plan_sound rebalancer_new id "op" [b1; b2] assignments
              (mkMove Demo.tp0 "broker-1" "broker-2" 104857600))
    as (from & to & a & _ & Hf & _ & _ & _ & _ & Ht & Hh & _).
  - intros l. reflexivity.
  - intros b. rewrite !elem_of_cons, elem_of_nil. intros [->|[->|[]]]; vm_compute; reflexivity.
  - fold plan. rewrite E. left.
  - exists from, to. split; [exact Hf|split; [exact Ht|exact Hh]].
Defined.

(** The target of that move holds a replica of the partition already, and
    executing the plan reports it as done without touching an assignment. *)
Theorem move_targets_existing_replica :
  (∃ mv a, mv ∈ rp_moves plan ∧ assignments !! mv_topic_partition mv = Some a ∧
     hosts (mv_to_broker mv) a = true) ∧
  get_rebalance_progress "op" (execute_rebalance plan rebalancer_new) = f64_of_Z 1.
Proof.
  split; [|vm_compute; reflexivity].
  exists (mkMove Demo.tp0 "broker-1" "broker-2" 104857600), both. split_and!; vm_compute; try reflexivity. left.
Qed.

(** An unhealthy broker never gives up its partitions, however loaded. *)
Theorem unhealthy_broker_keeps_partitions :
  rp_moves (calculate_rebalance_plan id "op" rebalancer_new [b3; b2]
    {[Demo.tp0 := mkAssignment "broker-3" ["broker-3"] ["broker-3"] 1]}) = [].
Proof. vm_compute. reflexivity. Qed.
End ScalingDemo.
