(* ===== verification/Controller.v ===== *)
(** * The controller

    Model of [src/src/controller/service.rs] (Raft state, cluster metadata,
    topics, decommissioning slots), [broker_management_service.rs] (broker
    heartbeats and draining) and [auto_rebalancer.rs].  Handlers are state
    transformers; where a handler awaits between reading and writing shared
    state it is split at that point, so that overlapping calls can be written
    down.  Iteration orders, generated ids and times are arguments. *)

From Stdlib Require Import Ascii String SpecFloat.
From S2P Require Import Prelude Types Scaling.
Local Open Scope Z_scope.

(** ** Data *)

Record BrokerInfo := mkBroker {
  bi_id : BrokerId;
  bi_host : string;
  bi_port_quic : Z;
  bi_port_rpc : Z;
  bi_rack_id : string;
}.
Record TopicConfig := mkTopicConfig {
  tc_retention_ms : option Z;
  tc_segment_bytes : option Z;
  tc_compression_type : option string;
}.
Record TopicInfo := mkTopic {
  ti_name : string;
  ti_partitions : Z;
  ti_replication_factor : Z;
  ti_config : TopicConfig;
  ti_created_at : Z;
}.
Inductive ClusterCommand :=
  | CreateTopic (name : string) (partitions replication_factor : Z) (config : TopicConfig)
  | DeleteTopic (name : string)
  | AddBroker (broker : BrokerInfo)
  | RemoveBroker (broker_id : BrokerId)
  | ReassignPartitions (assignments : list (TopicPartition * PartitionAssignment)).
Record LogEntry := mkLogEntry {
  le_term : Z;
  le_index : Z;
  le_command : ClusterCommand;
  le_timestamp : Z;
}.

Record VoteRequest := mkVoteRequest {
  vr_term : Z;
  vr_candidate_id : string;
  vr_last_log_index : Z;
  vr_last_log_term : Z;
}.
Record VoteResponse := mkVoteResponse { vp_term : Z; vp_vote_granted : bool }.
Record AppendEntriesRequest := mkAppendRequest {
  ae_term : Z;
  ae_leader_id : string;
  ae_prev_log_index : Z;
  ae_prev_log_term : Z;
  ae_entries : list LogEntry;
  ae_leader_commit : Z;
}.
Record AppendEntriesResponse := mkAppendResponse {
  ap_term : Z;
  ap_success : bool;
  ap_match_index : option Z;
}.

Record CreateTopicRequest := mkCreateTopic {
  ct_name : string;
  ct_partitions : Z;
  ct_replication_factor : Z;
  ct_config : option TopicConfig;
}.
(** [CreateTopicResponse], [DeleteTopicResponse] and [RegisterBrokerResponse]
    have the same fields. *)
Record TopicResponse := mkTopicResponse {
  tr_success : bool;
  tr_error_message : option string;
  tr_leader_hint : option string;
}.

(** ** Raft state *)

Record RaftState := mkRaft {
  rs_current_term : Z;
  rs_voted_for : option string;
  rs_is_leader : bool;
  rs_current_leader : option string;
  rs_log_entries : list LogEntry;
  rs_commit_index : Z;
  rs_last_applied : Z;
  rs_peers : list string;
}.

Definition raft_new (peers : list string) : RaftState := mkRaft 0 None false None [] 0 0 peers.
Definition update_term (term : Z) (s : RaftState) : RaftState :=
  mkRaft term (rs_voted_for s) (rs_is_leader s) (rs_current_leader s) (rs_log_entries s)
    (rs_commit_index s) (rs_last_applied s) (rs_peers s).
Definition increment_term (s : RaftState) : RaftState := update_term (u64_add (rs_current_term s) 1) s.
Definition vote_for (candidate : option string) (s : RaftState) : RaftState :=
  mkRaft (rs_current_term s) candidate (rs_is_leader s) (rs_current_leader s) (rs_log_entries s)
    (rs_commit_index s) (rs_last_applied s) (rs_peers s).
Definition set_leader (is_leader : bool) (s : RaftState) : RaftState :=
  mkRaft (rs_current_term s) (rs_voted_for s) is_leader (rs_current_leader s) (rs_log_entries s)
    (rs_commit_index s) (rs_last_applied s) (rs_peers s).
Definition set_current_leader (leader : option string) (s : RaftState) : RaftState :=
  mkRaft (rs_current_term s) (rs_voted_for s) (rs_is_leader s) leader (rs_log_entries s)
    (rs_commit_index s) (rs_last_applied s) (rs_peers s).
Definition append_log_entry (entry : LogEntry) (s : RaftState) : RaftState :=
  mkRaft (rs_current_term s) (rs_voted_for s) (rs_is_leader s) (rs_current_leader s)
    (rs_log_entries s ++ [entry]) (rs_commit_index s) (rs_last_applied s) (rs_peers s).
Definition get_last_log_index (s : RaftState) : Z := Z.of_nat (length (rs_log_entries s)).
Definition get_last_log_term (s : RaftState) : Z := from_option le_term 0 (last (rs_log_entries s)).

(** [start_election]: only the node's own vote is counted. *)
Definition start_election (node_id : string) (s : RaftState) : bool * RaftState :=
  let s := set_leader false (vote_for (Some node_id) (increment_term s)) in
  let total_nodes := Z.of_nat (length (rs_peers s)) + 1 in
  let majority := total_nodes / 2 + 1 in
  if majority <=? 1 then (true, set_current_leader (Some node_id) (set_leader true s)) else (false, s).

(** [handle_vote_request] up to its first await (reading the log), where it has
    decided whether the vote is still free, and from there on. *)
Inductive VoteProgress := VoteRejected (r : VoteResponse) | VoteReading (can_vote : bool).
Definition vote_begin (request : VoteRequest) (s : RaftState) : VoteProgress * RaftState :=
  let current_term := rs_current_term s in
  if vr_term request <? current_term then (VoteRejected (mkVoteResponse current_term false), s)
  else
    let s := if current_term <? vr_term request
             then set_leader false (vote_for None (update_term (vr_term request) s)) else s in
    let can_vote := match rs_voted_for s with
                    | None => true
                    | Some v => String.eqb v (vr_candidate_id request)
                    end in
    (VoteReading can_vote, s).
Definition vote_finish (request : VoteRequest) (p : VoteProgress) (s : RaftState) : VoteResponse * RaftState :=
  match p with
  | VoteRejected r => (r, s)
  | VoteReading can_vote =>
      let log_ok := (get_last_log_term s <? vr_last_log_term request)
        || ((vr_last_log_term request =? get_last_log_term s)
            && (get_last_log_index s <=? vr_last_log_index request)) in
      if can_vote && log_ok
      then (mkVoteResponse (vr_term request) true, vote_for (Some (vr_candidate_id request)) s)
      else (mkVoteResponse (rs_current_term s) false, s)
  end.
Definition handle_vote_request (request : VoteRequest) (s : RaftState) : VoteResponse * RaftState :=
  let '(p, s) := vote_begin request s in vote_finish request p s.

Definition handle_append_entries (request : AppendEntriesRequest) (s : RaftState)
  : AppendEntriesResponse * RaftState :=
  let current_term := rs_current_term s in
  if ae_term request <? current_term then (mkAppendResponse current_term false None, s)
  else
    let s := set_current_leader (Some (ae_leader_id request)) (set_leader false (update_term (ae_term request) s)) in
    (mkAppendResponse (ae_term request) true
       (Some (u64_add (ae_prev_log_index request) (Z.of_nat (length (ae_entries request))))), s).

(** ** Cluster metadata *)

Record MetadataManager := mkMetadataManager {
  mm_topics : gmap string TopicInfo;
  mm_brokers : gmap BrokerId BrokerInfo;
  mm_partition_assignments : gmap TopicPartition PartitionAssignment;
}.
Definition metadata_new : MetadataManager := mkMetadataManager ∅ ∅ ∅.

Definition metadata_create_topic (info : TopicInfo) (m : MetadataManager) : Result unit * MetadataManager :=
  match mm_topics m !! ti_name info with
  | Some _ => (Err (TopicAlreadyExists (ti_name info)), m)
  | None => (Ok tt, mkMetadataManager (<[ti_name info := info]> (mm_topics m)) (mm_brokers m)
                      (mm_partition_assignments m))
  end.
Definition metadata_delete_topic (name : string) (m : MetadataManager) : Result unit * MetadataManager :=
  match mm_topics m !! name with
  | None => (Err (TopicNotFound name), m)
  | Some _ => (Ok tt, mkMetadataManager (delete name (mm_topics m)) (mm_brokers m)
                        (filter (λ kv, tp_topic kv.1 ≠ name) (mm_partition_assignments m)))
  end.
Definition add_broker (b : BrokerInfo) (m : MetadataManager) : MetadataManager :=
  mkMetadataManager (mm_topics m) (<[bi_id b := b]> (mm_brokers m)) (mm_partition_assignments m).
Definition remove_broker (id : BrokerId) (m : MetadataManager) : Result unit * MetadataManager :=
  match mm_brokers m !! id with
  | None => (Err (BrokerNotFound id), m)
  | Some _ => (Ok tt, mkMetadataManager (mm_topics m) (delete id (mm_brokers m)) (mm_partition_assignments m))
  end.
Definition assign_partition (tp : TopicPartition) (a : PartitionAssignment) (m : MetadataManager)
  : MetadataManager :=
  mkMetadataManager (mm_topics m) (mm_brokers m) (<[tp := a]> (mm_partition_assignments m)).

(** ** Decommissioning slots *)

Record DecommissionSlot := mkSlot {
  ds_operation_id : string;
  ds_broker_id : string;
  ds_acquired_at : Z;
  ds_expires_at : Z;
  ds_requester : string;
}.
Record SlotAcquisitionResult := mkAcquisition {
  sa_operation_id : string;
  sa_slot_token : string;
  sa_expires_at : Z;
}.
(** The semaphore is its number of available permits; times are in seconds. *)
Record DecommissionSlotManager := mkSlots {
  dm_available_permits : Z;
  dm_active : gmap string DecommissionSlot;
  dm_max_concurrent : Z;
}.
Definition slots_new (max_concurrent : Z) : DecommissionSlotManager := mkSlots max_concurrent ∅ max_concurrent.

(** The check under the read lock, which is released before the rest. *)
Definition is_active (broker_id : string) (d : DecommissionSlotManager) : bool :=
  bool_decide (map_Exists (λ _ s, ds_broker_id s = broker_id) (dm_active d)).
Definition take_slot (operation_id slot_token : string) (now : Z) (broker_id requester : string)
    (d : DecommissionSlotManager) : Result SlotAcquisitionResult * DecommissionSlotManager :=
  if dm_available_permits d <=? 0 then (Err ResourceExhausted, d)
  else
    let slot := mkSlot operation_id broker_id now (now + 3600) requester in
    (Ok (mkAcquisition operation_id slot_token (now + 3600)),
     mkSlots (dm_available_permits d - 1) (<[operation_id := slot]> (dm_active d)) (dm_max_concurrent d)).
Definition acquire_slot (operation_id slot_token : string) (now : Z) (broker_id requester : string)
    (d : DecommissionSlotManager) : Result SlotAcquisitionResult * DecommissionSlotManager :=
  if is_active broker_id d then (Err InvalidOperation, d)
  else take_slot operation_id slot_token now broker_id requester d.

Definition release_slot (operation_id : string) (d : DecommissionSlotManager)
  : Result unit * DecommissionSlotManager :=
  match dm_active d !! operation_id with
  | None => (Err NotFound, d)
  | Some _ => (Ok tt, mkSlots (dm_available_permits d + 1) (delete operation_id (dm_active d)) (dm_max_concurrent d))
  end.

(** The loop that takes permits away one by one. *)
Fixpoint remove_permits (n : nat) (d : DecommissionSlotManager) : Result unit * DecommissionSlotManager :=
  match n with
  | O => (Ok tt, d)
  | S n =>
      if dm_available_permits d <=? 0 then (Err InvalidOperation, d)
      else remove_permits n (mkSlots (dm_available_permits d - 1) (dm_active d) (dm_max_concurrent d))
  end.
Definition update_max_concurrent (new_max : Z) (d : DecommissionSlotManager)
  : Result unit * DecommissionSlotManager :=
  let current_active := Z.of_nat (size (dm_active d)) in
  if new_max <? current_active then (Err InvalidOperation, d)
  else
    let current_max := dm_available_permits d + current_active in
    if current_max <? new_max
    then (Ok tt, mkSlots (dm_available_permits d + (new_max - current_max)) (dm_active d) (dm_max_concurrent d))
    else remove_permits (Z.to_nat (current_max - new_max)) d.

(** One tick of the cleanup task. *)
Definition slot_expired (now : Z) (s : DecommissionSlot) : bool := ds_expires_at s <? now.
Definition cleanup_slots (now : Z) (d : DecommissionSlotManager) : DecommissionSlotManager :=
  let expired := filter (λ kv : string * DecommissionSlot, slot_expired now kv.2 = true) (dm_active d) in
  mkSlots (dm_available_permits d + Z.of_nat (size expired))
    (filter (λ kv : string * DecommissionSlot, slot_expired now kv.2 = false) (dm_active d)) (dm_max_concurrent d).

(** ** The service *)

Record ScalingConfig := mkScalingConfig {
  sc_max_concurrent_decommissions : Z;
  sc_auto_rebalance_enabled : bool;
  sc_imbalance_threshold_ratio : f64;
  sc_rebalance_cooldown_secs : Z;
  sc_ewma_alpha : f64;
  sc_load_score_normalization : LoadScoreNormalization;
  sc_load_score_weights : LoadScoreWeights;
}.

Record ControllerService := mkController {
  cs_decommission_manager : DecommissionSlotManager;
  cs_scaling_config : ScalingConfig;
  cs_raft_state : RaftState;
  cs_metadata_manager : MetadataManager;
  cs_node_id : string;
  cs_broker_load_scores : gmap BrokerId f64;
  cs_broker_heartbeats : gmap BrokerId Z;
  cs_broker_statuses : gmap BrokerId BrokerStatus;
  cs_broker_metrics : gmap BrokerId LoadMetrics;
  cs_internal_topics_created : bool;
}.

Definition controller_new (node_id : string) (peers : list string) (config : ScalingConfig) : ControllerService :=
  mkController (slots_new (sc_max_concurrent_decommissions config)) config (raft_new peers) metadata_new node_id
    ∅ ∅ ∅ ∅ false.

Definition with_raft (s : RaftState) (c : ControllerService) : ControllerService :=
  mkController (cs_decommission_manager c) (cs_scaling_config c) s (cs_metadata_manager c) (cs_node_id c)
    (cs_broker_load_scores c) (cs_broker_heartbeats c) (cs_broker_statuses c) (cs_broker_metrics c)
    (cs_internal_topics_created c).
Definition with_metadata (m : MetadataManager) (c : ControllerService) : ControllerService :=
  mkController (cs_decommission_manager c) (cs_scaling_config c) (cs_raft_state c) m (cs_node_id c)
    (cs_broker_load_scores c) (cs_broker_heartbeats c) (cs_broker_statuses c) (cs_broker_metrics c)
    (cs_internal_topics_created c).
Definition with_slots (d : DecommissionSlotManager) (c : ControllerService) : ControllerService :=
  mkController d (cs_scaling_config c) (cs_raft_state c) (cs_metadata_manager c) (cs_node_id c)
    (cs_broker_load_scores c) (cs_broker_heartbeats c) (cs_broker_statuses c) (cs_broker_metrics c)
    (cs_internal_topics_created c).
Definition with_config (config : ScalingConfig) (c : ControllerService) : ControllerService :=
  mkController (cs_decommission_manager c) config (cs_raft_state c) (cs_metadata_manager c) (cs_node_id c)
    (cs_broker_load_scores c) (cs_broker_heartbeats c) (cs_broker_statuses c) (cs_broker_metrics c)
    (cs_internal_topics_created c).
Definition with_statuses (statuses : gmap BrokerId BrokerStatus) (c : ControllerService) : ControllerService :=
  mkController (cs_decommission_manager c) (cs_scaling_config c) (cs_raft_state c) (cs_metadata_manager c)
    (cs_node_id c) (cs_broker_load_scores c) (cs_broker_heartbeats c) statuses (cs_broker_metrics c)
    (cs_internal_topics_created c).

(** *** Topics *)

Definition CONSUMER_OFFSETS_PARTITIONS : Z := 50.
Definition ensure_internal_topics (now : Z) (c : ControllerService) : ControllerService :=
  if cs_internal_topics_created c then c
  else if negb (rs_is_leader (cs_raft_state c)) then c
  else
    let info := mkTopic "__consumer_offsets" CONSUMER_OFFSETS_PARTITIONS 3
                  (mkTopicConfig None (Some 104857600) (Some "lz4")) now in
    let m := match mm_topics (cs_metadata_manager c) !! "__consumer_offsets" with
             | Some _ => cs_metadata_manager c
             | None => (metadata_create_topic info (cs_metadata_manager c)).2
             end in
    mkController (cs_decommission_manager c) (cs_scaling_config c) (cs_raft_state c) m (cs_node_id c)
      (cs_broker_load_scores c) (cs_broker_heartbeats c) (cs_broker_statuses c) (cs_broker_metrics c) true.

(** The stable [sort_by] of [(id, score)] pairs, for scores that compare. *)
Fixpoint insert_by (x : BrokerId * f64) (l : list (BrokerId * f64)) : list (BrokerId * f64) :=
  match l with
  | [] => [x]
  | y :: l' => if f64_lt y.2 x.2 then y :: insert_by x l' else x :: l
  end.
Definition sort_by_score (l : list (BrokerId * f64)) : list (BrokerId * f64) := foldr insert_by [] l.

Definition candidate_scores (scores : gmap BrokerId f64) (topic_assignments : gmap BrokerId Z)
    (brokers : list BrokerInfo) : list (BrokerId * f64) :=
  (λ b, (bi_id b, f64_add (default f64_zero (scores !! bi_id b))
                    (f64_mul (f64_lit 1 10) (f64_of_Z (default 0 (topic_assignments !! bi_id b)))))) <$> brokers.

(** The replicas of one partition and the updated counts; [None] is a panic:
    comparing with a [NaN] score, or no broker to choose from. *)
Definition weighted_replicas (scores : gmap BrokerId f64) (rf : nat) (brokers : list BrokerInfo)
    (topic_assignments : gmap BrokerId Z) : option (list BrokerId * gmap BrokerId Z) :=
  let candidates := candidate_scores scores topic_assignments brokers in
  if existsb (λ p, f64_is_nan p.2) candidates && (1 <? Z.of_nat (length candidates)) then None
  else if Z.of_nat (length candidates) <? Z.of_nat rf then None
  else
    let replicas := take rf (sort_by_score candidates).*1 in
    Some (replicas, foldl (λ m id, <[id := default 0 (m !! id) + 1]> m) topic_assignments replicas).
Definition round_robin_replicas (partition_id : Z) (rf : nat) (brokers : list BrokerInfo) : option (list BrokerId) :=
  if decide (brokers = []) then None
  else
    let start_broker := (Z.to_nat partition_id `mod` length brokers)%nat in
    Some (omap (λ i, bi_id <$> brokers !! ((start_broker + i) `mod` length brokers)%nat) (seq 0 rf)).

(** The brokers of one partition, weighted when there are load scores. *)
Definition choose_replicas (scores : gmap BrokerId f64) (rf : nat) (brokers : list BrokerInfo) (partition_id : Z)
    (topic_assignments : gmap BrokerId Z) : option (list BrokerId * gmap BrokerId Z) :=
  if decide (scores = ∅)
  then (λ r, (r, topic_assignments)) <$> round_robin_replicas partition_id rf brokers
  else weighted_replicas scores rf brokers topic_assignments.

(** The loop over the partitions: [Err] is a panic, after which the partitions
    assigned so far stay. *)
Fixpoint assign_partitions (name : string) (scores : gmap BrokerId f64) (rf : nat) (brokers : list BrokerInfo)
    (partitions : list Z) (topic_assignments : gmap BrokerId Z) (m : MetadataManager)
  : Result unit * MetadataManager :=
  match partitions with
  | [] => (Ok tt, m)
  | partition_id :: partitions =>
      match choose_replicas scores rf brokers partition_id topic_assignments with
      | Some (leader :: rest, topic_assignments) =>
          let replicas := leader :: rest in
          assign_partitions name scores rf brokers partitions topic_assignments
            (assign_partition (mkTP name partition_id) (mkAssignment leader replicas replicas 1) m)
      | _ => (Err Panic, m)
      end
  end.

Definition is_internal (name : string) : bool := bool_decide (is_Some (strip_prefix "__" name)).

Definition default_topic_config : TopicConfig := mkTopicConfig (Some 86400000) (Some 1073741824) (Some "lz4").

(** The handler when nothing else runs while it waits for its locks (its
    turns, with other handlers in between, are below).  [order] is the
    iteration order of the broker table. *)
Definition create_topic (order : list BrokerInfo → list BrokerInfo) (now : Z) (request : CreateTopicRequest)
    (c : ControllerService) : Result TopicResponse * ControllerService :=
  let hint := rs_current_leader (cs_raft_state c) in
  if is_internal (ct_name request) then
    (Ok (mkTopicResponse false (Some "Cannot manually create internal topics starting with '__'") hint), c)
  else if negb (rs_is_leader (cs_raft_state c)) then
    (Ok (mkTopicResponse false (Some "Not the leader") hint), c)
  else
    let info := mkTopic (ct_name request) (ct_partitions request) (ct_replication_factor request)
                  (default default_topic_config (ct_config request)) now in
    match metadata_create_topic info (cs_metadata_manager c) with
    | (Err _, m) =>
        (Ok (mkTopicResponse false
               (Some ("Failed to create topic: Topic already exists: " +:+ ct_name request)) hint),
         with_metadata m c)
    | (Ok _, m) =>
        let brokers := order (map_to_list (mm_brokers m)).*2 in
        if Z.of_nat (length brokers) <? ct_replication_factor request then
          (Ok (mkTopicResponse false (Some "Not enough brokers for replication factor") hint), with_metadata m c)
        else
          match assign_partitions (ct_name request) (cs_broker_load_scores c)
                  (Z.to_nat (ct_replication_factor request)) brokers (seqZ 0 (ct_partitions request)) ∅ m with
          | (Ok _, m) => (Ok (mkTopicResponse true None hint), with_metadata m c)
          | (Err e, m) => (Err e, with_metadata m c)
          end
    end.

(** The handler turn by turn.  It waits for the topic table, for the broker
    table, for the load scores and, partition by partition, for the
    assignments; other handlers run in between. *)
Inductive CreatePc :=
  | CtBrokers
  | CtScores (brokers : list BrokerInfo)
  | CtAssign (scores : gmap BrokerId f64) (brokers : list BrokerInfo) (partitions : list Z)
      (topic_assignments : gmap BrokerId Z).

(** Up to entering the topic; [Some] is the response of a handler that has
    ended. *)
Definition create_begin (now : Z) (request : CreateTopicRequest) (c : ControllerService)
  : option TopicResponse * ControllerService :=
  let hint := rs_current_leader (cs_raft_state c) in
  if is_internal (ct_name request) then
    (Some (mkTopicResponse false (Some "Cannot manually create internal topics starting with '__'") hint), c)
  else if negb (rs_is_leader (cs_raft_state c)) then (Some (mkTopicResponse false (Some "Not the leader") hint), c)
  else
    let info := mkTopic (ct_name request) (ct_partitions request) (ct_replication_factor request)
                  (default default_topic_config (ct_config request)) now in
    match metadata_create_topic info (cs_metadata_manager c) with
    | (Err _, m) =>
        (Some (mkTopicResponse false
                 (Some ("Failed to create topic: Topic already exists: " +:+ ct_name request)) hint),
         with_metadata m c)
    | (Ok _, m) => (None, with_metadata m c)
    end.

Definition create_turn (order : list BrokerInfo → list BrokerInfo) (request : CreateTopicRequest) (pc : CreatePc)
    (c : ControllerService) : (Result TopicResponse + CreatePc) * ControllerService :=
  let hint := rs_current_leader (cs_raft_state c) in
  match pc with
  | CtBrokers =>
      let brokers := order (map_to_list (mm_brokers (cs_metadata_manager c))).*2 in
      if Z.of_nat (length brokers) <? ct_replication_factor request then
        (inl (Ok (mkTopicResponse false (Some "Not enough brokers for replication factor") hint)), c)
      else (inr (CtScores brokers), c)
  | CtScores brokers =>
      (inr (CtAssign (cs_broker_load_scores c) brokers (seqZ 0 (ct_partitions request)) ∅), c)
  | CtAssign _ _ [] _ => (inl (Ok (mkTopicResponse true None hint)), c)
  | CtAssign scores brokers (partition_id :: partitions) topic_assignments =>
      match choose_replicas scores (Z.to_nat (ct_replication_factor request)) brokers partition_id topic_assignments with
      | Some (leader :: rest, topic_assignments) =>
          let replicas := leader :: rest in
          (inr (CtAssign scores brokers partitions topic_assignments),
           with_metadata (assign_partition (mkTP (ct_name request) partition_id)
                            (mkAssignment leader replicas replicas 1) (cs_metadata_manager c)) c)
      | _ => (inl (Err Panic), c)
      end
  end.

Definition delete_topic (name : string) (c : ControllerService) : TopicResponse * ControllerService :=
  let hint := rs_current_leader (cs_raft_state c) in
  if is_internal name then
    (mkTopicResponse false (Some "Cannot delete internal topics starting with '__'") hint, c)
  else if negb (rs_is_leader (cs_raft_state c)) then
    (mkTopicResponse false (Some "Not the leader") hint, c)
  else match metadata_delete_topic name (cs_metadata_manager c) with
       | (Ok _, m) => (mkTopicResponse true None hint, with_metadata m c)
       | (Err _, m) => (mkTopicResponse false (Some ("Failed to delete topic: Topic not found: " +:+ name)) hint,
                        with_metadata m c)
       end.

Definition register_broker (b : BrokerInfo) (c : ControllerService) : TopicResponse * ControllerService :=
  let hint := rs_current_leader (cs_raft_state c) in
  if negb (rs_is_leader (cs_raft_state c)) then (mkTopicResponse false (Some "Not the leader") hint, c)
  else (mkTopicResponse true None hint, with_metadata (add_broker b (cs_metadata_manager c)) c).

(** *** Broker health and scaling *)

(** One tick of the health check; heartbeats are in milliseconds. *)
Definition health_tick (now : Z) (c : ControllerService) : ControllerService :=
  let stale := filter (λ kv : BrokerId * Z, 30000 < now - kv.2) (cs_broker_heartbeats c) in
  with_statuses (((λ _, Unhealthy) <$> stale) ∪ cs_broker_statuses c) c.

Definition update_scaling_config (config : ScalingConfig) (c : ControllerService)
  : Result unit * ControllerService :=
  if sc_max_concurrent_decommissions config =? 0 then (Err InvalidConfig, c)
  else if 10 <? sc_max_concurrent_decommissions config then (Err InvalidConfig, c)
  else match update_max_concurrent (sc_max_concurrent_decommissions config) (cs_decommission_manager c) with
       | (Ok _, d) => (Ok tt, with_config config (with_slots d c))
       | (Err e, d) => (Err e, with_slots d c)
       end.

(** [BrokerManagementService::broker_heartbeat]; [now] in milliseconds.  [None]
    is the status [invalid_argument]. *)
Record CoordinatorEntry := mkCoordinator {
  ce_partition : Z;
  ce_broker_id : BrokerId;
  ce_host : string;
  ce_port : Z;
}.
Record BrokerHeartbeatResponse := mkBrokerHeartbeatResponse {
  bh_success : bool;
  bh_heartbeat_age_seconds : Z;
  bh_coordinator_entries : list CoordinatorEntry;
}.
Definition coordinator_entry (brokers : gmap BrokerId BrokerInfo) (kv : TopicPartition * PartitionAssignment)
  : CoordinatorEntry :=
  let '(host, port) := match brokers !! pa_leader kv.2 with
                       | Some b => (bi_host b, bi_port_quic b)
                       | None => ("localhost"%string, 9092)
                       end in
  mkCoordinator (tp_partition kv.1) (pa_leader kv.2) host port.
Definition broker_heartbeat (order : list (TopicPartition * PartitionAssignment) →
      list (TopicPartition * PartitionAssignment)) (now : Z) (broker_id : BrokerId)
    (metrics : option LoadMetrics) (c : ControllerService)
  : option BrokerHeartbeatResponse * ControllerService :=
  match metrics with
  | None => (None, c)
  | Some metrics =>
      let age := match cs_broker_heartbeats c !! broker_id with
                 | Some p => Z.max 0 (Z.quot (now - p) 1000)
                 | None => 0
                 end in
      let config := cs_scaling_config c in
      let score := composite_load_score metrics (sc_load_score_normalization config)
                     (sc_load_score_weights config) in
      let prev_score := default score (cs_broker_load_scores c !! broker_id) in
      let alpha := sc_ewma_alpha config in
      let ewma_score := f64_add (f64_mul alpha score) (f64_mul (f64_sub (f64_of_Z 1) alpha) prev_score) in
      let m := cs_metadata_manager c in
      let entries := coordinator_entry (mm_brokers m) <$>
        filter (λ kv : TopicPartition * PartitionAssignment, tp_topic kv.1 = "__consumer_offsets"%string)
          (order (map_to_list (mm_partition_assignments m))) in
      (Some (mkBrokerHeartbeatResponse true age entries),
       mkController (cs_decommission_manager c) config (cs_raft_state c) m (cs_node_id c)
         (<[broker_id := ewma_score]> (cs_broker_load_scores c)) (<[broker_id := now]> (cs_broker_heartbeats c))
         (cs_broker_statuses c) (<[broker_id := metrics]> (cs_broker_metrics c)) (cs_internal_topics_created c))
  end.

(** [transfer_partition_leadership] of the controller sends nothing. *)
Definition transfer_partition_leadership (broker_id : BrokerId) (request : TransferLeadershipRequest)
  : Result TransferLeadershipResponse := Ok (mkTransferLeadershipResponse true 0 None).

(** The search of [drain_broker] for the least loaded in-sync replica. *)
Definition drain_step (scores : gmap BrokerId f64) (broker_id : BrokerId) (acc : option BrokerId * f64)
    (isr : BrokerId) : option BrokerId * f64 :=
  if decide (isr = broker_id) then acc
  else
    let s := default f64_zero (scores !! isr) in
    if f64_lt s acc.2 then (Some isr, s) else acc.
Definition drain_target (scores : gmap BrokerId f64) (broker_id : BrokerId) (a : PartitionAssignment)
  : option BrokerId :=
  (foldl (drain_step scores broker_id) (None, f64_infinity) (pa_in_sync_replicas a)).1.
Definition drain_request (scores : gmap BrokerId f64) (broker_id : BrokerId)
    (kv : TopicPartition * PartitionAssignment) : option TransferLeadershipRequest :=
  if decide (pa_leader kv.2 = broker_id)
  then (λ new_leader, mkTransferLeadershipRequest kv.1 broker_id (pa_leader_epoch kv.2) new_leader) <$>
         drain_target scores broker_id kv.2
  else None.
(** The transfers that were asked for and the state afterwards. *)
Definition drain_broker (order : list (TopicPartition * PartitionAssignment) →
      list (TopicPartition * PartitionAssignment)) (broker_id : BrokerId) (c : ControllerService)
  : list TransferLeadershipRequest * ControllerService :=
  let c := with_statuses (<[broker_id := Draining]> (cs_broker_statuses c)) c in
  (omap (drain_request (cs_broker_load_scores c) broker_id)
     (order (map_to_list (mm_partition_assignments (cs_metadata_manager c)))), c).

(** ** The automatic rebalancer *)

Record AutoRebalancer := mkAuto {
  ar_rebalancer : PartitionRebalancerImpl;
  ar_last_rebalance_time : option Z;
}.

Definition scaling_broker (c : ControllerService) (b : BrokerInfo) : BrokerLoad :=
  mkBrokerLoad (bi_id b) (bi_rack_id b) [bi_host b +:+ ":" +:+ dec (bi_port_quic b)]
    (default Healthy (cs_broker_statuses c !! bi_id b))
    (default default_load (cs_broker_metrics c !! bi_id b)).

(** [f64::max] and [f64::min] return the other operand when one is [NaN]. *)
Definition f64_max (a b : f64) : f64 :=
  if f64_is_nan a then b else if f64_is_nan b then a else if f64_lt a b then b else a.
Definition f64_min (a b : f64) : f64 :=
  if f64_is_nan a then b else if f64_is_nan b then a else if f64_lt b a then b else a.

Definition rebalance_trigger (brokers : list BrokerLoad) (scores : list f64) (threshold : f64) : bool :=
  existsb (λ b, lm_partition_count (bl_load_metrics b) =? 0) brokers
  || (match scores with
      | [] => false
      | _ => let max_score := foldl f64_max f64_zero scores in
             let min_score := foldl f64_min f64_infinity scores in
             f64_lt f64_zero min_score && f64_lt threshold (f64_div max_score min_score)
      end)
  || existsb (λ b, bool_decide (bl_status b = Unhealthy)) brokers.

(** [now] is in seconds. *)
Definition evaluate_and_rebalance (order_brokers : list BrokerInfo → list BrokerInfo)
    (order : list (TopicPartition * PartitionAssignment) → list (TopicPartition * PartitionAssignment))
    (operation_id : string) (now : Z) (c : ControllerService) (r : AutoRebalancer) : AutoRebalancer :=
  let config := cs_scaling_config c in
  let cooling := match ar_last_rebalance_time r with
                 | Some l => now - l <? sc_rebalance_cooldown_secs config
                 | None => false
                 end in
  if cooling then r
  else
    let m := cs_metadata_manager c in
    let brokers := scaling_broker c <$> order_brokers (map_to_list (mm_brokers m)).*2 in
    if rebalance_trigger brokers (map_to_list (cs_broker_load_scores c)).*2 (sc_imbalance_threshold_ratio config)
    then
      let plan := calculate_rebalance_plan order operation_id (ar_rebalancer r) brokers
                    (mm_partition_assignments m) in
      match rp_moves plan with
      | [] => r
      | _ => mkAuto (execute_rebalance plan (ar_rebalancer r)) (Some now)
      end
    else r.
(** One tick of the loop in [start]. *)
Definition rebalancer_tick (order_brokers : list BrokerInfo → list BrokerInfo)
    (order : list (TopicPartition * PartitionAssignment) → list (TopicPartition * PartitionAssignment))
    (operation_id : string) (now : Z) (c : ControllerService) (r : AutoRebalancer) : AutoRebalancer :=
  if rs_is_leader (cs_raft_state c) && sc_auto_rebalance_enabled (cs_scaling_config c)
  then evaluate_and_rebalance order_brokers order operation_id now c r else r.

(** ** One vote per term *)

Section raft.
Context (node_id : string).
Implicit Types (s : RaftState) (req : VoteRequest).

(** What a controller does to its Raft state.  A vote request waits for the log
    after it has looked at the vote; meanwhile [entries] are appended. *)
Inductive RaftOp :=
  | OpVote (req : VoteRequest) (entries : list LogEntry)
  | OpElection
  | OpAppendEntries (req : AppendEntriesRequest)
  | OpLog (entry : LogEntry).

Definition append_log_entries (entries : list LogEntry) s : RaftState := foldl (λ s e, append_log_entry e s) s entries.
Definition vote_around (req : VoteRequest) (entries : list LogEntry) s : VoteResponse * RaftState :=
  let '(p, s) := vote_begin req s in vote_finish req p (append_log_entries entries s).

(** An operation and the vote [(term, candidate)] it casts, if any. *)
Definition run_raft_op (op : RaftOp) s : option (Z * string) * RaftState :=
  match op with
  | OpVote req entries =>
      let '(resp, s) := vote_around req entries s in
      (if vp_vote_granted resp then Some (vp_term resp, vr_candidate_id req) else None, s)
  | OpElection => let '(_, s) := start_election node_id s in (Some (rs_current_term s, node_id), s)
  | OpAppendEntries req => (None, (handle_append_entries req s).2)
  | OpLog entry => (None, append_log_entry entry s)
  end.
Fixpoint run_raft (ops : list RaftOp) s : list (Z * string) * RaftState :=
  match ops with
  | [] => ([], s)
  | op :: ops =>
      let '(v, s) := run_raft_op op s in
      let '(vs, s) := run_raft ops s in
      (option_list v ++ vs, s)
  end.

(** No election is started at the largest term (the counter would wrap). *)
Fixpoint terms_fit (ops : list RaftOp) s : Prop :=
  match ops with
  | [] => True
  | op :: ops =>
      match op with OpElection => 0 ≤ rs_current_term s < u64_MAX | _ => True end ∧
      terms_fit ops (run_raft_op op s).2
  end.

(** The votes cast so far: none in a later term, and in the current term only
    the one that is recorded. *)
Definition votes_ok (votes : list (Z * string)) s : Prop :=
  ∀ t c, (t, c) ∈ votes → t ≤ rs_current_term s ∧ (t = rs_current_term s → rs_voted_for s = Some c).
Definition leader_ok s : Prop := rs_is_leader s = true → rs_voted_for s = Some node_id.

Lemma append_log_frame entries s :
  let s' := append_log_entries entries s in
  rs_current_term s' = rs_current_term s ∧ rs_voted_for s' = rs_voted_for s ∧ rs_is_leader s' = rs_is_leader s.
Proof.
  unfold append_log_entries. revert s. induction entries as [|e entries IH]; intros s; [done|].
  simpl. destruct (IH (append_log_entry e s)) as (-> & -> & ->). done.
Qed.

Lemma vote_around_spec req entries s resp s' :
  vote_around req entries s = (resp, s') →
  rs_current_term s ≤ rs_current_term s' ∧
  (rs_current_term s' = rs_current_term s → rs_is_leader s' = rs_is_leader s ∧
     (is_Some (rs_voted_for s) → rs_voted_for s' = rs_voted_for s)) ∧
  (rs_current_term s < rs_current_term s' → rs_is_leader s' = false) ∧
  (vp_vote_granted resp = true →
     vp_term resp = rs_current_term s' ∧ rs_voted_for s' = Some (vr_candidate_id req)).
Proof.
  unfold vote_around, vote_begin. destruct (Z.ltb_spec (vr_term req) (rs_current_term s)).
  { intros [= <- <-]. destruct (append_log_frame entries s) as (-> & -> & ->). simpl. split_and!; [lia|done|lia|done]. }
  destruct (Z.ltb_spec (rs_current_term s) (vr_term req)); cbn [rs_voted_for vote_for set_leader update_term].
  - set (s1 := set_leader false _). destruct (append_log_frame entries s1) as (Ht & Hv & Hl). simpl in Ht, Hv, Hl.
    unfold vote_finish. destruct (_ && _); intros [= <- <-]; simpl; rewrite ?Ht, ?Hv, ?Hl; split_and!; try done; lia.
  - assert (vr_term req = rs_current_term s) as Ht by lia. destruct (append_log_frame entries s) as (Et & Ev' & El).
    unfold vote_finish. destruct (rs_voted_for s) as [v|] eqn:Ev.
    + destruct (String.eqb_spec v (vr_candidate_id req)) as [->|Hne].
      * destruct (_ && _); intros [= <- <-]; simpl; rewrite ?Et, ?Ev', ?El; split_and!; try done; lia.
      * intros [= <- <-]. simpl. rewrite ?Et, ?Ev', ?El. split_and!; try done; lia.
    + destruct (_ && _); intros [= <- <-]; simpl; rewrite ?Et, ?Ev', ?El; split_and!; try done; try lia; by intros [? ?].
Qed.

Lemma run_raft_op_ok votes op s v s' :
  match op with OpElection => 0 ≤ rs_current_term s < u64_MAX | _ => True end →
  votes_ok votes s → leader_ok s → run_raft_op op s = (v, s') →
  votes_ok (votes ++ option_list v) s' ∧ leader_ok s' ∧ rs_current_term s ≤ rs_current_term s'.
Proof.
  intros Hfit Hv Hl. destruct op as [req entries| |req|entry]; simpl.
  - destruct (vote_around req entries s) as [resp s1] eqn:E. intros [= <- <-].
    destruct (vote_around_spec _ _ _ _ _ E) as (Hmono & Hsame & Hnew & Hgrant).
    assert (Hold : votes_ok votes s1).
    { intros t c Htc. destruct (Hv t c Htc) as [Hle Hcur]. split; [lia|]. intros ->.
      assert (Heq : rs_current_term s1 = rs_current_term s) by lia.
      destruct (Hsame Heq) as [_ Hvf]. specialize (Hcur Heq). rewrite Hvf by eauto. done. }
    split_and!; [|intros Hlead|done].
    + destruct (vp_vote_granted resp) eqn:Eg; simpl; [|by rewrite app_nil_r].
      destruct (Hgrant eq_refl) as [Ht Hc].
      intros t c [Htc|[= -> ->]%list_elem_of_singleton]%elem_of_app; [by apply Hold|]. split; [lia|done].
    + destruct (Z.eq_dec (rs_current_term s1) (rs_current_term s)) as [Heq|Hne].
      * destruct (Hsame Heq) as [Hil Hvf]. rewrite Hil in Hlead. specialize (Hl Hlead). rewrite Hvf by eauto. done.
      * rewrite Hnew in Hlead by lia. done.
  - unfold start_election, increment_term. simpl.
    assert (Hterm : u64_add (rs_current_term s) 1 = rs_current_term s + 1)
      by (apply u64_add_small; unfold u64_MAX in Hfit; lia).
    assert (Hvotes : ∀ s1, rs_current_term s1 = rs_current_term s + 1 → rs_voted_for s1 = Some node_id →
      votes_ok (votes ++ [(rs_current_term s1, node_id)]) s1).
    { intros s1 Ht Hc t c [Htc|[= -> ->]%list_elem_of_singleton]%elem_of_app; [|split; [lia|done]].
      destruct (Hv t c Htc). split; lia. }
    destruct (_ <=? 1); intros [= <- <-];
      match goal with |- votes_ok _ ?s1 ∧ _ => specialize (Hvotes s1 Hterm eq_refl) end;
      (split_and!; [exact Hvotes|done|simpl; lia]).
  - intros [= <- <-]. simpl. rewrite app_nil_r. unfold handle_append_entries.
    destruct (Z.ltb_spec (ae_term req) (rs_current_term s)); simpl; [split_and!; try done; lia|].
    split_and!; [|done|done]. intros t c Htc. destruct (Hv t c Htc) as [Hle Hcur]. simpl. split; [lia|].
    intros ->. apply Hcur. lia.
  - intros [= <- <-]. simpl. rewrite app_nil_r. split_and!; try done.
Qed.

Lemma run_raft_ok votes ops s vs s' :
  terms_fit ops s → votes_ok votes s → leader_ok s → run_raft ops s = (vs, s') →
  votes_ok (votes ++ vs) s' ∧ leader_ok s' ∧ rs_current_term s ≤ rs_current_term s' ∧
  ∀ t c1 c2, (∀ t a b, (t, a) ∈ votes → (t, b) ∈ votes → a = b) →
    (t, c1) ∈ votes ++ vs → (t, c2) ∈ votes ++ vs → c1 = c2.
Proof.
  revert votes s vs. induction ops as [|op ops IH]; intros votes s vs Hfit Hv Hl; simpl.
  { intros [= <- <-]. rewrite app_nil_r. split_and!; try done. intros t c1 c2 Hu H1 H2. by apply (Hu t). }
  destruct Hfit as [Hf1 Hf2]. destruct (run_raft_op op s) as [v s1] eqn:E1. simpl in Hf2.
  destruct (run_raft ops s1) as [vs1 s2] eqn:E2. intros [= <- <-].
  destruct (run_raft_op_ok votes op s v s1 Hf1 Hv Hl E1) as (Hv1 & Hl1 & Ht1).
  destruct (IH _ _ _ Hf2 Hv1 Hl1 E2) as (Hv2 & Hl2 & Ht2 & Huniq). rewrite app_assoc.
  split_and!; [done|done|lia|]. intros t c1 c2 Hu. apply (Huniq t). clear - Hu Hv Hv1 E1.
  intros t a b. destruct v as [[tv cv]|]; simpl; [|rewrite !app_nil_r; apply Hu].
  assert (Hnew : ∀ a, (tv, a) ∈ votes → a = cv).
  { intros a' Ha. destruct op as [req entries| |req|entry]; simpl in E1; [| |done|done].
    - destruct (vote_around req entries s) as [resp s1'] eqn:E. injection E1 as Eg <-.
      destruct (vote_around_spec _ _ _ _ _ E) as (_ & _ & _ & Hg).
      destruct (vp_vote_granted resp); [|done]. injection Eg as <- <-. destruct (Hg eq_refl) as [Ht Hc].
      destruct (Hv1 (vp_term resp) a') as [_ Hcur]; [apply elem_of_app; by left|].
      rewrite Hc in Hcur. by injection (Hcur Ht) as ->.
    - destruct (Hv1 tv a') as [_ Hcur]; [apply elem_of_app; by left|].
      destruct (Hv1 tv cv) as [_ Hcur']; [apply elem_of_app; right; left|].
      destruct (start_election node_id s) as [? s1']. simplify_eq.
      rewrite (Hcur' eq_refl) in Hcur. by injection (Hcur eq_refl) as ->. }
  rewrite !elem_of_app, !list_elem_of_singleton.
  intros [Ha|Ha] [Hb|Hb]; simplify_eq; eauto using eq_sym.
Qed.

(** C33: A controller that handles its vote requests, elections and append
    requests one at a time votes at most once per term.  Over any sequence of
    them and of log entries, which may also be appended while a vote request
    waits for the log, below the largest 64-bit term: the votes it casts in one
    term (its own included) all go to one candidate, none of them is for a term
    later than its current one, and whenever it considers itself leader its last
    vote is its own.  (Vote requests that overlap can both be granted, see
    [concurrent_votes_granted_twice].) *)
Theorem one_vote_per_term ops peers votes s :
  terms_fit ops (raft_new peers) → run_raft ops (raft_new peers) = (votes, s) →
  (∀ t c1 c2, (t, c1) ∈ votes → (t, c2) ∈ votes → c1 = c2) ∧
  (∀ t c, (t, c) ∈ votes → t ≤ rs_current_term s) ∧
  (rs_is_leader s = true → rs_voted_for s = Some node_id).
Proof.
  intros Hfit E. destruct (run_raft_ok [] ops (raft_new peers) votes s Hfit) as (Hv & Hl & _ & Hu); try done.
  { by intros ?? ?%elem_of_nil. }
  split_and!; [|intros t c Htc; by apply (Hv t c)|done].
  intros t c1 c2 H1 H2. apply (Hu t c1 c2); try done. by intros ??? ?%elem_of_nil.
Qed.
End raft.

(** ** Decommissioning slots stay within their limit *)

Section slots.
Implicit Types (d : DecommissionSlotManager).

Inductive SlotOp :=
  | OpAcquire (operation_id slot_token : string) (now : Z) (broker_id requester : string)
  | OpRelease (operation_id : string)
  | OpResize (new_max : Z)
  | OpCleanup (now : Z).

(** An operation on the slots and on the limit in force. *)
Definition run_slot_op (op : SlotOp) (p : DecommissionSlotManager * Z) : DecommissionSlotManager * Z :=
  let '(d, limit) := p in
  match op with
  | OpAcquire id token now b r => ((acquire_slot id token now b r d).2, limit)
  | OpRelease id => ((release_slot id d).2, limit)
  | OpResize n => let '(r, d') := update_max_concurrent n d in (d', if is_ok r then n else limit)
  | OpCleanup now => (cleanup_slots now d, limit)
  end.
Definition run_slot_ops (ops : list SlotOp) (p : DecommissionSlotManager * Z) := foldl (λ p op, run_slot_op op p) p ops.

(** Generated operation ids are not in use. *)
Definition slot_op_ok (op : SlotOp) d : Prop :=
  match op with
  | OpAcquire id _ _ _ _ => dm_active d !! id = None
  | OpResize n => 0 ≤ n
  | _ => True
  end.
Fixpoint slot_ops_ok (ops : list SlotOp) (p : DecommissionSlotManager * Z) : Prop :=
  match ops with
  | [] => True
  | op :: ops => slot_op_ok op p.1 ∧ slot_ops_ok ops (run_slot_op op p)
  end.

(** Permits and taken slots add up to the limit. *)
Definition slots_count d (limit : Z) : Prop :=
  0 ≤ dm_available_permits d ∧ dm_available_permits d + Z.of_nat (size (dm_active d)) = limit.
(** No broker holds two slots. *)
Definition slots_distinct d : Prop :=
  ∀ o1 o2 s1 s2, dm_active d !! o1 = Some s1 → dm_active d !! o2 = Some s2 →
    ds_broker_id s1 = ds_broker_id s2 → o1 = o2.
Record slots_inv d (limit : Z) : Prop := {
  si_count : slots_count d limit;
  si_brokers : slots_distinct d;
}.

Lemma is_active_false b d : is_active b d = false ↔ ∀ o s, dm_active d !! o = Some s → ds_broker_id s ≠ b.
Proof.
  unfold is_active. rewrite bool_decide_eq_false. split.
  - intros Hn o s Ho Hb. apply Hn. by exists o, s.
  - intros Hall (o & s & Ho & Hb). by apply (Hall o s).
Qed.

Lemma remove_permits_spec n d :
  Z.of_nat n ≤ dm_available_permits d →
  remove_permits n d = (Ok tt, mkSlots (dm_available_permits d - Z.of_nat n) (dm_active d) (dm_max_concurrent d)).
Proof.
  revert d. induction n as [|n IH]; intros d Hn; simpl.
  - rewrite Z.sub_0_r. by destruct d.
  - destruct (Z.leb_spec (dm_available_permits d) 0); [lia|]. rewrite IH by (simpl; lia). simpl. do 2 f_equal. lia.
Qed.

Lemma sub_active_distinct d d' : dm_active d' ⊆ dm_active d → slots_distinct d → slots_distinct d'.
Proof. intros Hsub Hu o1 o2 s1 s2 H1 H2. apply (Hu o1 o2 s1 s2); by eapply lookup_weaken. Qed.

Lemma take_slot_count id token now b r d limit :
  dm_active d !! id = None → slots_count d limit → slots_count (take_slot id token now b r d).2 limit.
Proof.
  intros Hid [Hp Ht]. unfold take_slot. destruct (Z.leb_spec (dm_available_permits d) 0); [done|].
  split; simpl; [lia|]. rewrite map_size_insert_None by done. lia.
Qed.
Lemma take_slot_distinct id token now b r d :
  is_active b d = false → slots_distinct d → slots_distinct (take_slot id token now b r d).2.
Proof.
  rewrite is_active_false. intros Ea Hb. unfold take_slot. destruct (_ <=? _); [done|].
  intros o1 o2 s1 s2. simpl. rewrite !lookup_insert_Some. intros [[<- <-]|[? H1]] [[<- <-]|[? H2]]; simpl; try done.
  - intros E. by destruct (Ea _ _ H2).
  - intros E. by destruct (Ea _ _ H1).
  - by apply Hb.
Qed.
Lemma release_slot_count id d limit : slots_count d limit → slots_count (release_slot id d).2 limit.
Proof.
  intros [Hp Ht]. unfold release_slot. destruct (dm_active d !! id) as [s|] eqn:Ei; [|done].
  assert (Hs := map_size_delete_Some id (dm_active d) ltac:(eauto)).
  assert (Hne : size (dm_active d) ≠ 0%nat) by (apply map_size_ne_0_lookup; eauto).
  split; simpl; lia.
Qed.
Lemma release_slot_distinct id d : slots_distinct d → slots_distinct (release_slot id d).2.
Proof.
  intros Hb. unfold release_slot. destruct (dm_active d !! id); [|done].
  eapply sub_active_distinct, Hb. apply delete_subseteq.
Qed.
Lemma cleanup_slots_count now d limit : slots_count d limit → slots_count (cleanup_slots now d) limit.
Proof.
  intros [Hp Ht]. unfold cleanup_slots. set (P := λ kv : string * DecommissionSlot, slot_expired now kv.2 = true).
  assert (Hsplit : size (dm_active d) = (size (filter P (dm_active d)) +
    size (filter (λ kv : string * DecommissionSlot, slot_expired now kv.2 = false) (dm_active d)))%nat).
  { rewrite <- (map_filter_union_complement P (dm_active d)) at 1.
    rewrite map_size_disj_union by apply map_disjoint_filter_complement. f_equal.
    f_equal. apply map_filter_ext. intros i x _. unfold P. simpl. destruct (slot_expired now x); naive_solver. }
  split; simpl; lia.
Qed.
Lemma cleanup_slots_distinct now d : slots_distinct d → slots_distinct (cleanup_slots now d).
Proof. intros Hb. eapply sub_active_distinct, Hb. apply map_filter_subseteq. Qed.

Lemma run_slot_op_inv op d limit d' limit' :
  slots_inv d limit → slot_op_ok op d → run_slot_op op (d, limit) = (d', limit') → slots_inv d' limit'.
Proof.
  intros [Hc Hb] Hop. destruct op as [id token now b r|id|n|now]; simpl in *.
  - intros [= <- <-]. unfold acquire_slot. destruct (is_active b d) eqn:Ea; [done|].
    split; [by apply take_slot_count|by apply take_slot_distinct].
  - intros [= <- <-]. split; [by apply release_slot_count|by apply release_slot_distinct].
  - destruct Hc as [Hp Ht]. unfold update_max_concurrent. destruct (Z.ltb_spec n (Z.of_nat (size (dm_active d)))).
    { intros [= <- <-]. done. }
    destruct (Z.ltb_spec (dm_available_permits d + Z.of_nat (size (dm_active d))) n).
    + intros [= <- <-]. split; [split; simpl; lia|done].
    + rewrite remove_permits_spec by lia. intros [= <- <-]. split; [split; simpl; lia|done].
  - intros [= <- <-]. split; [by apply cleanup_slots_count|by apply cleanup_slots_distinct].
Qed.

Lemma slots_new_inv limit : 0 ≤ limit → slots_inv (slots_new limit) limit.
Proof. split; [split; simpl; [lia|rewrite map_size_empty; lia]|]. intros ????. simpl. by rewrite lookup_empty. Qed.
Lemma run_slot_ops_inv ops p :
  slots_inv p.1 p.2 → slot_ops_ok ops p → slots_inv (run_slot_ops ops p).1 (run_slot_ops ops p).2.
Proof.
  revert p. induction ops as [|op ops IH]; intros [d limit] Hinv Hok; simpl in *; [done|].
  destruct Hok as [Hop Hok]. apply IH; [|done].
  change (slots_inv (run_slot_op op (d, limit)).1 (run_slot_op op (d, limit)).2).
  destruct (run_slot_op op (d, limit)) as [d' l'] eqn:E. exact (run_slot_op_inv op d limit d' l' Hinv Hop E).
Qed.

(** Over any sequence of acquisitions, releases, expirations and
    changes of the limit, at most as many slots are taken as the limit in
    force allows, no broker holds two slots, and a slot is granted exactly when its
    broker holds none and fewer than the limit are taken. *)
Theorem decommission_slots_bounded max ops d limit :
  0 ≤ max → slot_ops_ok ops (slots_new max, max) → run_slot_ops ops (slots_new max, max) = (d, limit) →
  Z.of_nat (size (dm_active d)) ≤ limit ∧
  (∀ o1 o2 s1 s2, dm_active d !! o1 = Some s1 → dm_active d !! o2 = Some s2 →
     ds_broker_id s1 = ds_broker_id s2 → o1 = o2) ∧
  (∀ id token now b r, is_ok (acquire_slot id token now b r d).1 = true ↔
     (∀ o s, dm_active d !! o = Some s → ds_broker_id s ≠ b) ∧ Z.of_nat (size (dm_active d)) < limit).
Proof.
  intros Hmax Hok E. pose proof (run_slot_ops_inv ops (slots_new max, max)) as Hinv. rewrite E in Hinv.
  destruct Hinv as [[Hp Ht] Hb]; [by apply slots_new_inv|done|].
  simpl in *. split_and!; [lia|done|]. intros id token now b r. unfold acquire_slot.
  rewrite <- is_active_false. destruct (is_active b d); [naive_solver|]. unfold take_slot.
  destruct (Z.leb_spec (dm_available_permits d) 0); simpl; split; try done; try lia; intros; split; try done; lia.
Qed.
End slots.

(** ** Topics and their partitions *)

Section topics.
Implicit Types (m : MetadataManager) (c : ControllerService) (tp : TopicPartition) (a : PartitionAssignment).

(** A freshly chosen assignment: the wanted number of distinct brokers, the
    first one leading, all in sync. *)
Record fresh_assignment (rf : nat) (ids : list BrokerId) a : Prop := {
  fa_length : length (pa_replicas a) = rf;
  fa_nodup : NoDup (pa_replicas a);
  fa_known b : b ∈ pa_replicas a → b ∈ ids;
  fa_leader : head (pa_replicas a) = Some (pa_leader a);
  fa_isr : pa_in_sync_replicas a = pa_replicas a;
  fa_epoch : pa_leader_epoch a = 1;
}.
Definition good_replicas (rf : nat) (ids replicas : list BrokerId) : Prop :=
  length replicas = rf ∧ NoDup replicas ∧ ∀ b, b ∈ replicas → b ∈ ids.

Lemma insert_by_perm x l : insert_by x l ≡ₚ x :: l.
Proof.
  induction l as [|y l IH]; simpl; [done|]. destruct (f64_lt _ _); [|done]. rewrite IH. apply Permutation_swap.
Qed.
Lemma sort_by_score_perm l : sort_by_score l ≡ₚ l.
Proof. induction l as [|x l IH]; simpl; [done|]. by rewrite insert_by_perm, IH. Qed.

Lemma weighted_good scores rf brokers counts replicas counts' :
  NoDup (bi_id <$> brokers) → weighted_replicas scores rf brokers counts = Some (replicas, counts') →
  good_replicas rf (bi_id <$> brokers) replicas.
Proof.
  intros Hnd. unfold weighted_replicas. set (cs := candidate_scores _ _ _).
  destruct (_ && _); [done|]. destruct (Z.ltb_spec (Z.of_nat (length cs)) (Z.of_nat rf)); [done|]. intros [= <- _].
  assert (Hids : (sort_by_score cs).*1 ≡ₚ bi_id <$> brokers).
  { rewrite sort_by_score_perm. unfold cs, candidate_scores. by rewrite <- list_fmap_compose. }
  assert (Hlen : length (sort_by_score cs).*1 = length cs) by (by rewrite length_fmap, sort_by_score_perm).
  split_and!.
  - rewrite length_take, Hlen. lia.
  - rewrite <- Hids, <- (take_drop rf) in Hnd. by apply NoDup_app in Hnd as [? _].
  - intros b Hb. rewrite <- Hids. by eapply elem_of_submseteq, submseteq_take.
Qed.

Lemma mod_shift_inj (n s i j : nat) : (i < n → j < n → (s + i) mod n = (s + j) mod n → i = j)%nat.
Proof.
  intros Hi Hj E. pose proof (Nat.div_mod_eq (s + i) n) as H1. pose proof (Nat.div_mod_eq (s + j) n) as H2.
  rewrite E in H1. set (q1 := ((s + i) / n)%nat) in *. set (q2 := ((s + j) / n)%nat) in *.
  destruct (Nat.lt_trichotomy q1 q2) as [Hlt|[Heq|Hlt]]; [|subst; nia|]; nia.
Qed.

Lemma round_robin_good p rf brokers replicas :
  NoDup (bi_id <$> brokers) → (rf ≤ length brokers)%nat → round_robin_replicas p rf brokers = Some replicas →
  good_replicas rf (bi_id <$> brokers) replicas.
Proof.
  intros Hnd Hrf. unfold round_robin_replicas. case_decide as Hb; [done|]. intros [= <-].
  set (n := length brokers) in *. set (s := (Z.to_nat p mod n)%nat).
  assert (Hn : n ≠ 0%nat) by (unfold n; by destruct brokers).
  set (g := λ i : nat, default EmptyString ((bi_id <$> brokers) !! ((s + i) mod n)%nat)).
  assert (Hlt : ∀ i, is_Some (brokers !! ((s + i) mod n)%nat)).
  { intros i. apply lookup_lt_is_Some_2. by apply Nat.mod_upper_bound. }
  assert (Hg : ∀ i, (bi_id <$> brokers) !! ((s + i) mod n)%nat = Some (g i)).
  { intros i. unfold g. rewrite list_lookup_fmap. by destruct (Hlt i) as [b ->]. }
  assert (Homap : omap (λ i, bi_id <$> brokers !! ((s + i) mod n)%nat) (seq 0 rf) = g <$> seq 0 rf).
  { induction (seq 0 rf) as [|i l IH]; [done|]. cbn. rewrite <- list_lookup_fmap, Hg. f_equal. exact IH. }
  rewrite Homap. split_and!.
  - by rewrite length_fmap, length_seq.
  - apply NoDup_fmap_2_strong; [|apply NoDup_seq]. intros i j [_ Hi]%elem_of_seq [_ Hj]%elem_of_seq E.
    apply (mod_shift_inj n s); [lia|lia|]. apply (NoDup_lookup _ _ _ (g i) Hnd); [done|]. by rewrite E.
  - intros b (i & -> & _)%list_elem_of_fmap. by eapply list_elem_of_lookup_2.
Qed.

Lemma choose_good scores rf brokers p counts rs cs :
  NoDup (bi_id <$> brokers) → (rf ≤ length brokers)%nat →
  choose_replicas scores rf brokers p counts = Some (rs, cs) → good_replicas rf (bi_id <$> brokers) rs.
Proof.
  intros Hnd Hrf. unfold choose_replicas. case_decide; [|by apply weighted_good].
  destruct (round_robin_replicas p rf brokers) as [rs'|] eqn:E; [|done]. intros [= <- <-].
  by eapply round_robin_good.
Qed.

Lemma assign_partitions_spec name scores rf brokers partitions counts m r m' :
  NoDup (bi_id <$> brokers) → (rf ≤ length brokers)%nat →
  assign_partitions name scores rf brokers partitions counts m = (r, m') →
  mm_topics m' = mm_topics m ∧ mm_brokers m' = mm_brokers m ∧
  (∀ tp, mm_partition_assignments m' !! tp = mm_partition_assignments m !! tp ∨
     ∃ p a, p ∈ partitions ∧ tp = mkTP name p ∧ mm_partition_assignments m' !! tp = Some a ∧
       fresh_assignment rf (bi_id <$> brokers) a) ∧
  (r = Ok tt → ∀ p, p ∈ partitions → ∃ a, mm_partition_assignments m' !! mkTP name p = Some a ∧
     fresh_assignment rf (bi_id <$> brokers) a).
Proof.
  intros Hnd Hrf. revert counts m. induction partitions as [|p ps IH]; intros counts m; simpl.
  { intros [= <- <-]. split_and!; [done|done|by left|]. by intros _ p ?%elem_of_nil. }
  destruct (choose_replicas scores rf brokers p counts) as [[[|leader rest] cs]|] eqn:Ec;
    try (intros [= <- <-]; split_and!; [done|done|by left|done]).
  destruct (choose_good _ _ _ _ _ _ _ Hnd Hrf Ec) as (Hl & Hn & Hk). set (a := mkAssignment leader _ _ 1).
  assert (Ha : fresh_assignment rf (bi_id <$> brokers) a) by by split.
  intros E. destruct (IH _ _ E) as (Ht & Hb & Hall & Hok). simpl in *.
  split_and!; [done|done| |].
  - intros tp. destruct (Hall tp) as [Hsame|(q & a' & Hq & -> & Hl' & Ha')].
    + destruct (decide (tp = mkTP name p)) as [->|Hne].
      * right. exists p, a. rewrite Hsame, lookup_insert_eq. split_and!; [left|done|done|done].
      * left. by rewrite Hsame, lookup_insert_ne.
    + right. exists q, a'. split_and!; [by right|done|done|done].
  - intros Hr q [->|Hq]%elem_of_cons; [|by apply Hok].
    destruct (Hall (mkTP name p)) as [Hsame|(q & a' & _ & _ & Hl' & Ha')]; [|by exists a'].
    exists a. by rewrite Hsame, lookup_insert_eq.
Qed.

(** *** What the metadata promises *)

Record metadata_ok m : Prop := {
  mo_brokers id b : mm_brokers m !! id = Some b → bi_id b = id;
  mo_topics name info : mm_topics m !! name = Some info → ti_name info = name;
  mo_assigned tp a : mm_partition_assignments m !! tp = Some a →
    ∃ info, mm_topics m !! tp_topic tp = Some info ∧ 0 ≤ tp_partition tp < ti_partitions info ∧
      length (pa_replicas a) = Z.to_nat (ti_replication_factor info) ∧ NoDup (pa_replicas a) ∧
      head (pa_replicas a) = Some (pa_leader a) ∧
      ∀ b, b ∈ pa_replicas a → is_Some (mm_brokers m !! b);
}.

Lemma broker_ids m order :
  metadata_ok m → (∀ l, order l ≡ₚ l) →
  NoDup (bi_id <$> order (map_to_list (mm_brokers m)).*2) ∧
  ∀ b, b ∈ bi_id <$> order (map_to_list (mm_brokers m)).*2 → is_Some (mm_brokers m !! b).
Proof.
  intros Hm Ho.
  assert (E : bi_id <$> (map_to_list (mm_brokers m)).*2 = (map_to_list (mm_brokers m)).*1).
  { rewrite <- list_fmap_compose. apply list_fmap_ext. intros i [id b] Hi. simpl.
    apply (mo_brokers m Hm), elem_of_map_to_list. by eapply list_elem_of_lookup_2. }
  assert (Hp : bi_id <$> order (map_to_list (mm_brokers m)).*2 ≡ₚ (map_to_list (mm_brokers m)).*1)
    by (by rewrite Ho, E).
  split.
  - rewrite Hp. apply NoDup_fst_map_to_list.
  - intros b. rewrite Hp. intros ([id b'] & -> & Hin%elem_of_map_to_list)%list_elem_of_fmap. eauto.
Qed.

(** The part of [create_topic] behind its guards. *)
Lemma create_topic_steps order now req c r c' :
  metadata_ok (cs_metadata_manager c) → (∀ l, order l ≡ₚ l) →
  create_topic order now req c = (r, c') →
  let m := cs_metadata_manager c in
  let info := mkTopic (ct_name req) (ct_partitions req) (ct_replication_factor req)
                (default default_topic_config (ct_config req)) now in
  let m1 := mkMetadataManager (<[ct_name req := info]> (mm_topics m)) (mm_brokers m) (mm_partition_assignments m) in
  (c' = c ∧ (∃ resp, r = Ok resp ∧ tr_success resp = false)) ∨
  rs_is_leader (cs_raft_state c) = true ∧ is_internal (ct_name req) = false ∧ mm_topics m !! ct_name req = None ∧
  let brokers := order (map_to_list (mm_brokers m)).*2 in
  ((∃ resp, r = Ok resp ∧ tr_success resp = false) ∧ c' = with_metadata m1 c ∨
   ct_replication_factor req ≤ Z.of_nat (length brokers) ∧
   ∃ r' m', assign_partitions (ct_name req) (cs_broker_load_scores c) (Z.to_nat (ct_replication_factor req))
        brokers (seqZ 0 (ct_partitions req)) ∅ m1 = (r', m') ∧ c' = with_metadata m' c ∧
      (r' = Ok tt ∧ (∃ resp, r = Ok resp ∧ tr_success resp = true) ∨ ∃ e, r' = Err e ∧ r = Err e)).
Proof.
  intros Hm Ho. unfold create_topic.
  destruct (is_internal (ct_name req)) eqn:Ei. { intros [= <- <-]. left. eauto. }
  destruct (rs_is_leader (cs_raft_state c)) eqn:El; [|intros [= <- <-]; left; eauto].
  cbn [negb]. unfold metadata_create_topic. cbn [ti_name].
  destruct (mm_topics (cs_metadata_manager c) !! ct_name req) eqn:Et.
  { intros [= <- <-]. left. split; [by destruct c|eauto]. }
  intros E. right. split_and!; [done|done|done|]. simpl in E.
  destruct (Z.ltb_spec (Z.of_nat (length (order (map_to_list (mm_brokers (cs_metadata_manager c))).*2)))
              (ct_replication_factor req)); [injection E as <- <-; left; eauto|].
  right. split; [done|]. destruct (assign_partitions _ _ _ _ _ _ _) as [[[]|e] m'] eqn:Ea;
    injection E as <- <-; do 2 eexists; (split; [reflexivity|]); (split; [done|]); [left|right]; eauto.
Qed.

(** Creating a topic.  A successful call comes from the leader, for a
    name that is new and not internal; afterwards the topic is known and each
    of its partitions has exactly the requested number of distinct registered
    brokers as replicas, all in sync, with the first one leading at epoch 1;
    the other topics and partitions and the brokers are as before. *)
Theorem create_topic_assigns order now req c resp c' :
  metadata_ok (cs_metadata_manager c) → (∀ l, order l ≡ₚ l) → 0 ≤ ct_replication_factor req →
  create_topic order now req c = (Ok resp, c') → tr_success resp = true →
  let m := cs_metadata_manager c in let m' := cs_metadata_manager c' in
  rs_is_leader (cs_raft_state c) = true ∧ is_internal (ct_name req) = false ∧
  mm_topics m !! ct_name req = None ∧ mm_brokers m' = mm_brokers m ∧
  (∃ info, mm_topics m' = <[ct_name req := info]> (mm_topics m) ∧ ti_partitions info = ct_partitions req ∧
     ti_replication_factor info = ct_replication_factor req) ∧
  (∀ p, 0 ≤ p < ct_partitions req → ∃ a, mm_partition_assignments m' !! mkTP (ct_name req) p = Some a ∧
     fresh_assignment (Z.to_nat (ct_replication_factor req)) (map_to_list (mm_brokers m)).*1 a) ∧
  (∀ tp, tp_topic tp ≠ ct_name req → mm_partition_assignments m' !! tp = mm_partition_assignments m !! tp).
Proof.
  intros Hm Ho Hrf E Hs m m'.
  destruct (create_topic_steps _ _ _ _ _ _ Hm Ho E)
    as [(_ & resp' & [= <-] & Hf)|(Hl & Hi & Hnew & [((resp' & [= <-] & Hf) & _)|(Hlen & r' & m2 & Ea & -> & Hr)])];
    try congruence.
  fold m in Hlen. destruct (broker_ids m order Hm Ho) as [Hnd Hids].
  assert (Hle : (Z.to_nat (ct_replication_factor req) ≤
                 length (order (map_to_list (mm_brokers m)).*2))%nat) by lia.
  destruct (assign_partitions_spec _ _ _ _ _ _ _ _ _ Hnd Hle Ea) as (Ht & Hb & Hall & Hok).
  destruct Hr as [[-> _]|(e & _ & ?)]; [|done]. unfold m'. simpl in *. split_and!; try done.
  - eexists. split; [exact Ht|done].
  - intros p Hp. destruct (Hok eq_refl p) as (a & Hl' & [F1 F2 F3 F4 F5 F6]); [apply elem_of_seqZ; lia|].
    exists a. split; [done|]. split; try done. intros b Hbin. apply F3, Hids in Hbin as [x Hx].
    apply list_elem_of_fmap. exists (b, x). by rewrite elem_of_map_to_list.
  - intros tp Htp. destruct (Hall tp) as [->|(q & a & _ & -> & _)]; [done|]. by destruct Htp.
Qed.

(** *** The turns of a creation *)

(** [n] turns without anything in between *)
Fixpoint create_turns (n : nat) order request (pc : CreatePc) c : (Result TopicResponse + CreatePc) * ControllerService :=
  match n with
  | O => (inr pc, c)
  | S n => match create_turn order request pc c with
           | (inl r, c) => (inl r, c)
           | (inr pc, c) => create_turns n order request pc c
           end
  end.

Lemma assign_turns order req scores brokers ps counts c :
  ∃ n, create_turns n order req (CtAssign scores brokers ps counts) c =
    match assign_partitions (ct_name req) scores (Z.to_nat (ct_replication_factor req)) brokers ps counts
            (cs_metadata_manager c) with
    | (Ok _, m) => (inl (Ok (mkTopicResponse true None (rs_current_leader (cs_raft_state c)))), with_metadata m c)
    | (Err e, m) => (inl (Err e), with_metadata m c)
    end.
Proof.
  revert counts c. induction ps as [|p ps IH]; intros counts c; simpl; [by exists 1%nat; destruct c|].
  destruct (choose_replicas _ _ _ p counts) as [[[|leader rest] cs]|] eqn:Ec.
  1, 3: exists 1%nat; simpl; rewrite Ec; by destruct c.
  set (a := mkAssignment leader _ _ 1). set (m1 := assign_partition _ a _).
  destruct (IH cs (with_metadata m1 c)) as [n Hn]. exists (S n). simpl. rewrite Ec. exact Hn.
Qed.

(** Without anything in between, the turns are the handler. *)
Lemma create_turns_alone order now req c :
  match create_begin now req c with
  | (Some resp, c1) => create_topic order now req c = (Ok resp, c1)
  | (None, c1) => ∃ n r c', create_turns n order req CtBrokers c1 = (inl r, c') ∧ create_topic order now req c = (r, c')
  end.
Proof.
  unfold create_begin, create_topic. destruct (is_internal (ct_name req)); [done|].
  destruct (negb _); [done|]. destruct (metadata_create_topic _ _) as [[[]|e] m]; [|done].
  set (c1 := with_metadata m c). cbn [cs_metadata_manager with_metadata].
  destruct (_ <? _) eqn:Elt.
  { exists 1%nat. do 2 eexists. simpl. rewrite Elt. by split. }
  set (brokers := order _) in *.
  destruct (assign_turns order req (cs_broker_load_scores c) brokers (seqZ 0 (ct_partitions req)) ∅ c1) as [n Hn].
  assert (H2 : create_turns (S (S n)) order req CtBrokers c1 =
    create_turns n order req (CtAssign (cs_broker_load_scores c) brokers (seqZ 0 (ct_partitions req)) ∅) c1).
  { simpl. fold brokers. by rewrite Elt. }
  exists (S (S n)). rewrite H2, Hn. subst c1. cbn [cs_metadata_manager cs_raft_state with_metadata].
  destruct (assign_partitions _ _ _ _ _ _ m) as [[[]|e] m2]; do 2 eexists; by split.
Qed.

(** *** Histories of the controller *)

(** The handlers that take effect at once *)
Inductive ControllerOp :=
  | CoDelete (name : string)
  | CoRegister (b : BrokerInfo)
  | CoInternalTopics (now : Z)
  | CoElection
  | CoVote (req : VoteRequest)
  | CoAppendEntries (req : AppendEntriesRequest)
  | CoHealth (now : Z)
  | CoHeartbeat (order : list (TopicPartition * PartitionAssignment) → list (TopicPartition * PartitionAssignment))
      (now : Z) (broker_id : BrokerId) (metrics : option LoadMetrics)
  | CoDrain (order : list (TopicPartition * PartitionAssignment) → list (TopicPartition * PartitionAssignment))
      (broker_id : BrokerId)
  | CoConfig (config : ScalingConfig).

Definition run_controller_op (op : ControllerOp) c : ControllerService :=
  match op with
  | CoDelete name => (delete_topic name c).2
  | CoRegister b => (register_broker b c).2
  | CoInternalTopics now => ensure_internal_topics now c
  | CoElection => with_raft (start_election (cs_node_id c) (cs_raft_state c)).2 c
  | CoVote req => with_raft (handle_vote_request req (cs_raft_state c)).2 c
  | CoAppendEntries req => with_raft (handle_append_entries req (cs_raft_state c)).2 c
  | CoHealth now => health_tick now c
  | CoHeartbeat order now b metrics => (broker_heartbeat order now b metrics c).2
  | CoDrain order b => (drain_broker order b c).2
  | CoConfig config => (update_scaling_config config c).2
  end.

(** A controller with the creations that have begun and not ended *)
Record Creation := mkCreation {
  cr_order : list BrokerInfo → list BrokerInfo;
  cr_request : CreateTopicRequest;
  cr_pc : CreatePc;
}.
Record Running := mkRunning {
  rn_controller : ControllerService;
  rn_creations : gmap nat Creation;
}.
Implicit Types (s : Running).

Inductive ControllerEvent :=
  | EvOp (op : ControllerOp)
  | EvCreate (id : nat) (order : list BrokerInfo → list BrokerInfo) (now : Z) (req : CreateTopicRequest)
  | EvTurn (id : nat).

Definition run_event (e : ControllerEvent) s : Running :=
  let c := rn_controller s in
  match e with
  | EvOp op => mkRunning (run_controller_op op c) (rn_creations s)
  | EvCreate id order now req =>
      match create_begin now req c with
      | (Some _, c) => mkRunning c (rn_creations s)
      | (None, c) => mkRunning c (<[id := mkCreation order req CtBrokers]> (rn_creations s))
      end
  | EvTurn id =>
      match rn_creations s !! id with
      | None => s
      | Some cr =>
          match create_turn (cr_order cr) (cr_request cr) (cr_pc cr) c with
          | (inl _, c) => mkRunning c (delete id (rn_creations s))
          | (inr pc, c) => mkRunning c (<[id := mkCreation (cr_order cr) (cr_request cr) pc]> (rn_creations s))
          end
      end
  end.

(** A topic is not deleted while it is being created; creations are told
    apart, and ask for a replication factor that is a count. *)
Definition event_ok (e : ControllerEvent) s : Prop :=
  match e with
  | EvOp (CoDelete name) => ∀ id cr, rn_creations s !! id = Some cr → ct_name (cr_request cr) ≠ name
  | EvOp _ | EvTurn _ => True
  | EvCreate id order _ req => (∀ l, order l ≡ₚ l) ∧ 0 ≤ ct_replication_factor req ∧ rn_creations s !! id = None
  end.
Fixpoint run_controller_events (es : list ControllerEvent) s : Running :=
  match es with [] => s | e :: es => run_controller_events es (run_event e s) end.
Fixpoint controller_events_ok (es : list ControllerEvent) s : Prop :=
  match es with [] => True | e :: es => event_ok e s ∧ controller_events_ok es (run_event e s) end.

(** What a creation in progress relies on: its topic is there as it was
    entered, and the brokers it has seen are registered. *)
Definition brokers_ok m rf (brokers : list BrokerInfo) : Prop :=
  NoDup (bi_id <$> brokers) ∧ (rf ≤ length brokers)%nat ∧
  ∀ b, b ∈ bi_id <$> brokers → is_Some (mm_brokers m !! b).
Record creation_ok m (cr : Creation) : Prop := {
  ck_order : ∀ l, cr_order cr l ≡ₚ l;
  ck_factor : 0 ≤ ct_replication_factor (cr_request cr);
  ck_topic : ∃ info, mm_topics m !! ct_name (cr_request cr) = Some info ∧
    ti_partitions info = ct_partitions (cr_request cr) ∧
    ti_replication_factor info = ct_replication_factor (cr_request cr);
  ck_pc : match cr_pc cr with
          | CtBrokers => True
          | CtScores brokers => brokers_ok m (Z.to_nat (ct_replication_factor (cr_request cr))) brokers
          | CtAssign _ brokers ps _ =>
              brokers_ok m (Z.to_nat (ct_replication_factor (cr_request cr))) brokers ∧
              ∀ p, p ∈ ps → 0 ≤ p < ct_partitions (cr_request cr)
          end;
}.
Definition running_ok s : Prop :=
  metadata_ok (cs_metadata_manager (rn_controller s)) ∧
  ∀ id cr, rn_creations s !! id = Some cr → creation_ok (cs_metadata_manager (rn_controller s)) cr.

(** Creations stay sound as long as their topics and the brokers stay. *)
Lemma creation_ok_mono m m' cr :
  (∀ id, is_Some (mm_brokers m !! id) → is_Some (mm_brokers m' !! id)) →
  (∀ info, mm_topics m !! ct_name (cr_request cr) = Some info → mm_topics m' !! ct_name (cr_request cr) = Some info) →
  creation_ok m cr → creation_ok m' cr.
Proof.
  intros Hb Ht [H1 H2 (info & Hi & ?) Hpc]. split; [done|done|eauto|].
  destruct (cr_pc cr); [done|..]; unfold brokers_ok in *; naive_solver.
Qed.

Lemma delete_topic_metadata name m :
  metadata_ok m → metadata_ok (metadata_delete_topic name m).2.
Proof.
  intros [Hb Ht Ha]. unfold metadata_delete_topic. destruct (mm_topics m !! name) eqn:E; [|by split].
  split; simpl; [done| |].
  - intros n i. rewrite lookup_delete_Some. intros [_ Hi]. by apply Ht.
  - intros tp a [Htp Hne]%map_lookup_filter_Some. simpl in Hne. destruct (Ha tp a Htp) as (i & Hi & ?). exists i.
    by rewrite lookup_delete_ne by done.
Qed.

Lemma run_controller_op_metadata op c :
  metadata_ok (cs_metadata_manager c) →
  metadata_ok (cs_metadata_manager (run_controller_op op c)).
Proof.
  intros Hm. destruct op; simpl in *; try done.
  - unfold delete_topic. destruct (is_internal name), (rs_is_leader (cs_raft_state c)); simpl; try done.
    pose proof (delete_topic_metadata name _ Hm). by destruct (metadata_delete_topic _ _) as [[] ?].
  - unfold register_broker. destruct (rs_is_leader (cs_raft_state c)); [|done]. simpl. destruct Hm as [Hb Ht Ha].
    split; simpl; [|done|].
    + intros id b'. rewrite lookup_insert_Some. intros [[<- <-]|[_ Hi]]; [done|by apply Hb].
    + intros tp a Htp. destruct (Ha tp a Htp) as (i & ? & ? & ? & ? & ? & Hk). exists i. split_and!; try done; try lia.
      intros x Hx. destruct (decide (x = bi_id b)) as [->|]; [rewrite lookup_insert_eq; eauto|].
      rewrite lookup_insert_ne by done. by apply Hk.
  - unfold ensure_internal_topics. destruct (cs_internal_topics_created c); [done|].
    destruct (rs_is_leader (cs_raft_state c)); [|done]. cbn -[metadata_create_topic CONSUMER_OFFSETS_PARTITIONS].
    destruct (mm_topics _ !! _) eqn:E; [done|]. unfold metadata_create_topic. cbn [ti_name]. rewrite E. simpl.
    destruct Hm as [Hb Ht Ha]. split; simpl; [done| |].
    + intros n i. rewrite lookup_insert_Some. intros [[<- <-]|[_ Hi]]; [done|by apply Ht].
    + intros tp a Htp. destruct (Ha tp a Htp) as (i & Hi & ?). exists i. rewrite lookup_insert_ne by congruence. done.
  - unfold broker_heartbeat. by destruct metrics.
  - unfold update_scaling_config. case_match; [done|]. case_match; [done|].
    by destruct (update_max_concurrent _ _) as [[] ?].
Qed.

(** The other handlers keep brokers, and all topics but a deleted one. *)
Lemma run_controller_op_keeps op c :
  let m := cs_metadata_manager c in let m' := cs_metadata_manager (run_controller_op op c) in
  (∀ id, is_Some (mm_brokers m !! id) → is_Some (mm_brokers m' !! id)) ∧
  ∀ name info, mm_topics m !! name = Some info → op ≠ CoDelete name → mm_topics m' !! name = Some info.
Proof.
  destruct op as [name| | | | | | | | |]; simpl; try done.
  - unfold delete_topic, metadata_delete_topic. destruct (is_internal name), (rs_is_leader (cs_raft_state c)); simpl; try done.
    destruct (mm_topics _ !! name); simpl; [|done]. split; [done|]. intros n info Hn Hne.
    rewrite lookup_delete_ne by congruence. done.
  - unfold register_broker. destruct (rs_is_leader (cs_raft_state c)); simpl; [|done]. split; [|done]. intros id Hid.
    destruct (decide (id = bi_id b)) as [->|]; [rewrite lookup_insert_eq; eauto|by rewrite lookup_insert_ne].
  - unfold ensure_internal_topics. destruct (cs_internal_topics_created c); [done|].
    destruct (rs_is_leader (cs_raft_state c)); [|done]. cbn -[metadata_create_topic CONSUMER_OFFSETS_PARTITIONS]. destruct (mm_topics _ !! _) eqn:E; [done|].
    unfold metadata_create_topic. cbn [ti_name]. rewrite E. simpl. split; [done|]. intros n info Hn _.
    rewrite lookup_insert_ne by congruence. done.
  - unfold broker_heartbeat. by destruct metrics.
  - unfold update_scaling_config. case_match; [done|]. case_match; [done|].
    by destruct (update_max_concurrent _ _) as [[] ?].
Qed.

(** Beginning a creation: the topic is entered or nothing changes. *)
Lemma create_begin_ok order now req c :
  metadata_ok (cs_metadata_manager c) → (∀ l, order l ≡ₚ l) → 0 ≤ ct_replication_factor req →
  let m := cs_metadata_manager c in let '(r, c') := create_begin now req c in
  let m' := cs_metadata_manager c' in
  metadata_ok m' ∧ mm_brokers m' = mm_brokers m ∧
  (∀ name info, mm_topics m !! name = Some info → mm_topics m' !! name = Some info) ∧
  (r = None → creation_ok m' (mkCreation order req CtBrokers)).
Proof.
  intros Hm Ho Hrf. unfold create_begin. destruct (is_internal _); [done|].
  destruct (rs_is_leader (cs_raft_state c)); [|done]. cbn [negb]. unfold metadata_create_topic. cbn [ti_name].
  destruct (mm_topics (cs_metadata_manager c) !! ct_name req) eqn:Et; [done|]. simpl. destruct Hm as [Hb Ht Ha].
  set (info := mkTopic _ _ _ _ _).
  assert (Hkeep : ∀ name i, mm_topics (cs_metadata_manager c) !! name = Some i →
    <[ct_name req := info]> (mm_topics (cs_metadata_manager c)) !! name = Some i).
  { intros name i Hi. rewrite lookup_insert_ne by congruence. done. }
  split_and!; [split; simpl|done|done|].
  - done.
  - intros name i. rewrite lookup_insert_Some. intros [[<- <-]|[_ Hi]]; [done|by apply Ht].
  - intros tp a Htp. destruct (Ha tp a Htp) as (i & Hi & ?). exists i. split; [by apply Hkeep|done].
  - intros _. split; simpl; [done|done| |done]. exists info. by rewrite lookup_insert_eq.
Qed.

(** Adding an assignment that fits its topic *)
Lemma assign_partition_ok m name p rf (brokers : list BrokerInfo) info rs leader rest :
  metadata_ok m → mm_topics m !! name = Some info → 0 ≤ p < ti_partitions info →
  rf = Z.to_nat (ti_replication_factor info) → brokers_ok m rf brokers → rs = leader :: rest →
  good_replicas rf (bi_id <$> brokers) rs →
  metadata_ok (assign_partition (mkTP name p) (mkAssignment leader rs rs 1) m).
Proof.
  intros [Hb Ht Ha] Hi Hp -> (_ & _ & Hreg) -> (Hl & Hn & Hk). split; simpl; [done|done|].
  intros tp a. rewrite lookup_insert_Some. intros [[<- <-]|[_ Htp]]; [|by apply Ha].
  exists info. simpl. split_and!; try done; try lia. intros b Hbin. by apply Hreg, Hk.
Qed.

(** A turn of a creation *)
Lemma create_turn_ok order req pc c :
  metadata_ok (cs_metadata_manager c) → creation_ok (cs_metadata_manager c) (mkCreation order req pc) →
  let m := cs_metadata_manager c in let '(r, c') := create_turn order req pc c in
  let m' := cs_metadata_manager c' in
  metadata_ok m' ∧ mm_brokers m' = mm_brokers m ∧ mm_topics m' = mm_topics m ∧
  ∀ pc', r = inr pc' → creation_ok m' (mkCreation order req pc').
Proof.
  intros Hm [Ho Hrf (info & Hi & Hparts & Hfac) Hpc]. simpl in *. destruct pc as [|brokers|scores brokers [|p ps] counts].
  - simpl. destruct (Z.ltb_spec (Z.of_nat (length (order (map_to_list (mm_brokers (cs_metadata_manager c))).*2)))
              (ct_replication_factor req)); [done|]. split_and!; try done. intros pc' [= <-].
    split; simpl; [done|done|by exists info|]. destruct (broker_ids _ order Hm Ho) as [Hnd Hids].
    split_and!; [done|lia|done].
  - simpl. split_and!; try done. intros pc' [= <-]. split; simpl; [done|done|by exists info|]. split; [done|].
    intros p [Hp ?]%elem_of_seqZ. lia.
  - by simpl.
  - destruct Hpc as [Hbr Hps]. simpl.
    destruct (choose_replicas _ _ brokers p counts) as [[[|leader rest] cs]|] eqn:Ec; try done. simpl.
    destruct Hbr as (Hnd & Hlen & Hreg). pose proof (choose_good _ _ _ _ _ _ _ Hnd Hlen Ec) as Hgood.
    assert (Hp : 0 ≤ p < ct_partitions req) by (apply Hps; by left).
    split_and!; [|done|done|].
    + apply (assign_partition_ok _ _ _ (Z.to_nat (ct_replication_factor req)) brokers info (leader :: rest) leader rest);
        [done|done|lia|by rewrite Hfac|done|done|done].
    + intros pc' [= <-]. split; simpl; [done|done|by exists info|]. split; [done|]. intros q Hq. apply Hps. by right.
Qed.

Lemma run_event_ok e s : event_ok e s → running_ok s → running_ok (run_event e s).
Proof.
  intros He [Hm Hcr]. destruct e as [op|id order now req|id]; simpl.
  - split; [by apply run_controller_op_metadata|]. intros id cr Hid.
    destruct (run_controller_op_keeps op (rn_controller s)) as [Hb Ht].
    apply (creation_ok_mono (cs_metadata_manager (rn_controller s))); [done| |by eapply Hcr].
    intros info Hi. apply Ht; [done|]. intros ->. by apply (He id cr).
  - destruct He as (Ho & Hrf & Hnew). pose proof (create_begin_ok order now req (rn_controller s) Hm Ho Hrf) as Hb.
    destruct (create_begin now req (rn_controller s)) as [r c']. destruct Hb as (Hm' & Hbr & Htop & Hnone).
    assert (Hold : ∀ id cr, rn_creations s !! id = Some cr → creation_ok (cs_metadata_manager c') cr).
    { intros id' cr Hid. apply (creation_ok_mono (cs_metadata_manager (rn_controller s))); [by rewrite Hbr| |by eapply Hcr].
      apply Htop. }
    destruct r; (split; [done|]); [done|]. intros id' cr. simpl. rewrite lookup_insert_Some.
    intros [[_ <-]|[_ Hid]]; [by apply Hnone|by eapply Hold].
  - destruct (rn_creations s !! id) as [[order req pc]|] eqn:Eid; [|done]. cbn [cr_order cr_request cr_pc].
    pose proof (create_turn_ok order req pc (rn_controller s) Hm (Hcr _ _ Eid)) as Ht.
    destruct (create_turn order req pc (rn_controller s)) as [r c']. destruct Ht as (Hm' & Hbr & Htop & Hgo).
    assert (Hold : ∀ id cr, rn_creations s !! id = Some cr → creation_ok (cs_metadata_manager c') cr).
    { intros id' cr Hid. apply (creation_ok_mono (cs_metadata_manager (rn_controller s))); [by rewrite Hbr| |by eapply Hcr].
      by rewrite Htop. }
    destruct r as [r|pc']; (split; [done|]); intros id' cr; simpl.
    + intros [_ Hid]%lookup_delete_Some. by eapply Hold.
    + rewrite lookup_insert_Some. intros [[_ <-]|[_ Hid]]; [by apply Hgo|by eapply Hold].
Qed.

Definition controller_start node_id peers config : Running := mkRunning (controller_new node_id peers config) ∅.

Lemma controller_start_ok node_id peers config : running_ok (controller_start node_id peers config).
Proof. split; [split|]; simpl; intros ??; by rewrite lookup_empty. Qed.

Lemma run_events_ok es s : controller_events_ok es s → running_ok s → running_ok (run_controller_events es s).
Proof.
  revert s. induction es as [|e es IH]; intros s; simpl; [done|]. intros [He Hes] Hs. by apply IH, run_event_ok.
Qed.

(** C34: The metadata stays consistent.  Start a controller and let its handlers
    run in any order, the creations of topics turn by turn with other creations,
    deletions, registrations, elections, requests of other controllers,
    heartbeats and timers in between, as long as no topic is deleted while its
    own creation is in progress.  Then, at every moment, an assigned partition
    belongs to a known topic and lies within its partition count, has as many
    replicas as the topic's replication factor, all distinct and registered, and
    is led by the first of them. *)
Theorem metadata_consistent node_id peers config es s tp a :
  controller_events_ok es (controller_start node_id peers config) →
  run_controller_events es (controller_start node_id peers config) = s →
  let m := cs_metadata_manager (rn_controller s) in
  mm_partition_assignments m !! tp = Some a →
  ∃ info, mm_topics m !! tp_topic tp = Some info ∧
    0 ≤ tp_partition tp < ti_partitions info ∧
    length (pa_replicas a) = Z.to_nat (ti_replication_factor info) ∧ NoDup (pa_replicas a) ∧
    head (pa_replicas a) = Some (pa_leader a) ∧
    ∀ b, b ∈ pa_replicas a → is_Some (mm_brokers m !! b).
Proof.
  intros Hes <- m. apply mo_assigned, (run_events_ok es); [done|apply controller_start_ok].
Qed.
End topics.

(** ** A concrete controller *)

Module ControllerDemo.
Definition vote (term : Z) (candidate : string) : VoteRequest := mkVoteRequest term candidate 0 0.
Definition raft_ops : list RaftOp := [OpVote (vote 3 "b") []; OpVote (vote 3 "c") []; OpElection; OpVote (vote 5 "c") []].
Definition raft_run : list (Z * string) * RaftState := run_raft "a" raft_ops (raft_new ["b"; "c"]).

Lemma one_vote_per_term_witness :
  raft_run.1 = [(3, "b"); (4, "a"); (5, "c")]%string ∧
  (∀ t c1 c2, (t, c1) ∈ raft_run.1 → (t, c2) ∈ raft_run.1 → c1 = c2).
Proof.
  split; [vm_compute; reflexivity|].
  unfold raft_run. destruct (run_raft "a" raft_ops (raft_new ["b"; "c"])) as [votes s] eqn:E.
  refine (proj1 (one_vote_per_term "a" raft_ops ["b"; "c"]%string votes s _ E)).
  vm_compute. intuition discriminate.
Defined.

(** Two vote requests of one new term that overlap: the second begins between
    the first one's check and its vote, and both are granted. *)
Definition vote_race : bool * bool * option string :=
  let s := raft_new ["b"; "c"] in
  let '(p1, s) := vote_begin (vote 3 "b") s in
  let '(p2, s) := vote_begin (vote 3 "c") s in
  let '(r1, s) := vote_finish (vote 3 "b") p1 s in
  let '(r2, s) := vote_finish (vote 3 "c") p2 s in
  (vp_vote_granted r1, vp_vote_granted r2, rs_voted_for s).
Theorem concurrent_votes_granted_twice : vote_race = (true, true, Some "c"%string).
Proof. vm_compute. reflexivity. Qed.

(** The vote of an old term survives the newer term an append request brings,
    so the controller refuses every other candidate of that term. *)
Theorem stale_vote_blocks_new_term :
  let s := (handle_vote_request (vote 3 "b") (raft_new ["b"; "c"])).2 in
  let s := (handle_append_entries (mkAppendRequest 7 "c" 0 0 [] 0) s).2 in
  rs_current_term s = 7 ∧ rs_voted_for s = Some "b"%string ∧
  (handle_vote_request (vote 7 "c") s).1 = mkVoteResponse 7 false.
Proof. vm_compute. auto. Qed.

Definition slot_ops : list SlotOp :=
  [OpAcquire "op1" "t1" 0 "b1" "admin"; OpAcquire "op2" "t2" 5 "b1" "admin"; OpResize 2;
   OpAcquire "op3" "t3" 9 "b2" "admin"; OpCleanup 3602].

Lemma decommission_slots_bounded_witness :
  let '(d, limit) := run_slot_ops slot_ops (slots_new 1, 1) in
  limit = 2 ∧ size (dm_active d) = 1%nat ∧
  is_ok (acquire_slot "op4" "t4" 4000 "b2" "admin" d).1 = false.
Proof.
  destruct (run_slot_ops slot_ops (slots_new 1, 1)) as [d limit] eqn:E.
  assert (Hd : d = (d, limit).1) by reflexivity. assert (Hl : limit = (d, limit).2) by reflexivity.
  rewrite <- E in Hd, Hl.
  assert (Hok : slot_ops_ok slot_ops (slots_new 1, 1)) by (vm_compute; intuition discriminate).
  destruct (decommission_slots_bounded 1 slot_ops d limit) as (_ & _ & Hacq); [lia|exact Hok|exact E|].
  split; [rewrite Hl; vm_compute; reflexivity|]. split; [rewrite Hd; vm_compute; reflexivity|].
  apply not_true_is_false. intros Hok'. apply Hacq in Hok' as [Hfree _].
  apply (Hfree "op3"%string (mkSlot "op3" "b2" 9 3609 "admin")); [rewrite Hd; vm_compute; reflexivity|reflexivity].
Defined.

(** Two acquisitions for one broker that both pass the check before either is
    recorded both succeed. *)
Theorem concurrent_acquire_same_broker :
  let d := slots_new 2 in
  is_active "b1" d = false ∧
  let '(r1, d) := take_slot "op1" "t1" 0 "b1" "x" d in
  let '(r2, d) := take_slot "op2" "t2" 0 "b1" "y" d in
  (is_ok r1, is_ok r2, size (dm_active d)) = (true, true, 2%nat).
Proof. vm_compute. auto. Qed.

Definition config : ScalingConfig :=
  mkScalingConfig 1 true (f64_lit 15 10) 300 (f64_lit 3 10) default_norm default_weights.
Definition broker (id : string) : BrokerInfo := mkBroker id "host" 9092 9093 "rack".
Definition leader : ControllerService := run_controller_op CoElection (controller_new "n1" [] config).
Definition cluster : ControllerService :=
  foldl (λ c op, run_controller_op op c) leader [CoRegister (broker "b1"); CoRegister (broker "b2")].
Definition request (rf : Z) : CreateTopicRequest := mkCreateTopic "orders" 3 rf None.

Lemma cluster_ok : metadata_ok (cs_metadata_manager cluster).
Proof.
  unfold cluster. do 3 apply run_controller_op_metadata.
  split; intros ??; cbn; by rewrite lookup_empty.
Qed.

Lemma create_topic_assigns_witness :
  ∃ resp c', create_topic id 0 (request 2) cluster = (Ok resp, c') ∧
    ∀ p, 0 ≤ p < 3 → is_Some (mm_partition_assignments (cs_metadata_manager c') !! mkTP "orders" p).
Proof.
  destruct (create_topic id 0 (request 2) cluster) as [r c'] eqn:E.
  assert (Hr : r = Ok (mkTopicResponse true None (Some "n1"%string)))
    by (change r with (r, c').1; rewrite <- E; vm_compute; reflexivity).
  subst r. do 2 eexists. split; [reflexivity|]. intros p Hp.
  destruct (create_topic_assigns id 0 (request 2) cluster _ c' cluster_ok (λ l, reflexivity l) ltac:(simpl; lia) E
              eq_refl) as (_ & _ & _ & _ & _ & Ha & _).
  destruct (Ha p Hp) as (a & Hl & _). exists a. exact Hl.
Defined.

(** Two creations whose turns alternate, and a deletion of the first topic
    once it is there. *)
Definition history : list ControllerEvent :=
  [EvOp CoElection; EvOp (CoRegister (broker "b1")); EvOp (CoRegister (broker "b2"));
   EvCreate 0 id 0 (request 2); EvCreate 1 id 0 (mkCreateTopic "payments" 2 1 None)]
  ++ concat (replicate 6 [EvTurn 0; EvTurn 1]) ++ [EvOp (CoDelete "orders")].
Abbreviation reached := (run_controller_events history (controller_start "n1" [] config)).

Lemma metadata_consistent_witness :
  ∃ a, mm_partition_assignments (cs_metadata_manager (rn_controller reached)) !! mkTP "payments" 1 = Some a ∧
    length (pa_replicas a) = 1%nat.
Proof.
  destruct (mm_partition_assignments (cs_metadata_manager (rn_controller reached)) !! mkTP "payments" 1) as [a|] eqn:Ea;
    [|vm_compute in Ea; discriminate Ea].
  exists a. split; [reflexivity|].
  assert (Hes : controller_events_ok history (controller_start "n1" [] config)).
  { do 3 refine (conj I _).
    do 2 (refine (conj (conj (λ l, reflexivity l) (conj _ _)) _); [vm_compute; discriminate|vm_compute; reflexivity|]).
    do 12 refine (conj I _). refine (conj _ I). intros id0 cr Hcr.
    match type of Hcr with rn_creations ?s !! _ = _ => assert (E : rn_creations s = ∅) by (vm_compute; reflexivity) end.
    rewrite E, lookup_empty in Hcr. discriminate Hcr. }
  destruct (metadata_consistent "n1" [] config history _ (mkTP "payments" 1) a Hes eq_refl Ea)
    as (info & Hi & _ & Hlen & _).
  rewrite Hlen. vm_compute in Hi. injection Hi as <-. reflexivity.
Defined.

(** A topic that is deleted while it is being created: the assignments that
    the creation makes afterwards belong to no topic. *)
Theorem deleted_while_created :
  let c := rn_controller (run_controller_events
    ([EvOp CoElection; EvOp (CoRegister (broker "b1")); EvOp (CoRegister (broker "b2")); EvCreate 0 id 0 (request 2)]
     ++ replicate 3 (EvTurn 0) ++ [EvOp (CoDelete "orders")] ++ replicate 3 (EvTurn 0))
    (controller_start "n1" [] config)) in
  mm_topics (cs_metadata_manager c) = ∅ ∧
  is_Some (mm_partition_assignments (cs_metadata_manager c) !! mkTP "orders" 1) ∧
  is_Some (mm_partition_assignments (cs_metadata_manager c) !! mkTP "orders" 2).
Proof. vm_compute. split; [reflexivity|]. split; eexists; reflexivity. Qed.

(** A creation that fails for lack of brokers has entered the topic already:
    repeating it once there are enough brokers fails as well, and the topic
    never gets a partition. *)
Theorem failed_creation_blocks_retry :
  let c := (create_topic id 0 (request 3) cluster).2 in
  let c := (register_broker (broker "b3") c).2 in
  (create_topic id 1 (request 3) c).1
  = Ok (mkTopicResponse false (Some "Failed to create topic: Topic already exists: orders"%string) (Some "n1"%string)) ∧
  mm_partition_assignments (cs_metadata_manager c) = ∅.
Proof. vm_compute. auto. Qed.

(** A replication factor of zero panics, with the topic entered. *)
Theorem zero_replication_panics :
  let '(r, c) := create_topic id 0 (request 0) cluster in
  r = Err Panic ∧ is_Some (mm_topics (cs_metadata_manager c) !! "orders"%string).
Proof. vm_compute. eauto. Qed.

(** The internal offsets topic is entered without assigning its partitions, so
    a heartbeat never reports a coordinator. *)
Theorem no_coordinator_entries :
  let c := ensure_internal_topics 0 cluster in
  is_Some (mm_topics (cs_metadata_manager c) !! "__consumer_offsets"%string) ∧
  (bh_coordinator_entries <$> (broker_heartbeat id 0 "b1" (Some default_load) c).1) = Some [].
Proof. vm_compute. eauto. Qed.

(** Draining asks for transfers that nothing carries out: the broker still
    leads its partitions. *)
Definition with_orders : ControllerService := (create_topic id 0 (request 2) cluster).2.
Theorem drain_keeps_leadership :
  (tlr_new_leader_id <$> (drain_broker id "b1" with_orders).1) = ["b2"; "b2"]%string ∧
  mm_partition_assignments (cs_metadata_manager (drain_broker id "b1" with_orders).2)
  = mm_partition_assignments (cs_metadata_manager with_orders).
Proof. split; [vm_compute; reflexivity|reflexivity]. Qed.
End ControllerDemo.
