(* ===== verification/OpenRaft.v ===== *)
(** * The Raft log and state machine of the controller

    Model of [src/src/controller/openraft_storage.rs]: the log storage with its
    line-oriented write-ahead log, and the state machine with its snapshots, as
    the openraft library calls them.  Membership configurations are the
    library's and stay abstract.  A file of the write-ahead log is its bytes; a
    write that fails may have written any part of its data.  Files are named
    after the time they were opened; with names of equal length their order is
    the order of the times. *)

From Stdlib Require Import String.
From S2P Require Import Prelude Types Scaling Controller.
Local Open Scope Z_scope.

(** ** Data *)

Record LogId := mkLogId { li_term : Z; li_node_id : Z; li_index : Z }.
Inductive RustMqAppData :=
  | AppCreateTopic (name : string) (partitions replication_factor : Z) (config : TopicConfig)
  | AppDeleteTopic (name : string)
  | AppAddBroker (broker : BrokerInfo)
  | AppRemoveBroker (broker_id : BrokerId)
  | AppUpdatePartitionAssignment (topic_partition : TopicPartition) (assignment : PartitionAssignment).
Record RustMqAppDataResponse := mkResponse {
  rp_success : bool;
  rp_error_message : option string;
  rp_data : option string;
}.
Record RustMqSnapshotData := mkSnapshot {
  sd_topics : gmap string TopicInfo;
  sd_brokers : gmap BrokerId BrokerInfo;
  sd_partition_assignments : gmap TopicPartition PartitionAssignment;
  sd_last_applied_log : option LogId;
  sd_snapshot_version : Z;
}.
Definition snapshot_default : RustMqSnapshotData := mkSnapshot ∅ ∅ ∅ None 0.
Record SnapshotPayload := mkPayload { sp_data : RustMqSnapshotData; sp_last_log_id : option LogId }.

(** The settings that are read *)
Record RustMqStorageConfig := mkStorageConfig {
  sc_sync_write : bool;
  sc_cache_size : nat;
  sc_snapshot_threshold : Z;
}.

Inductive EntryPayload (M : Type) := Blank | Normal (app_data : RustMqAppData) | Membership (m : M).
Arguments Blank {M}. Arguments Normal {M}. Arguments Membership {M}.
Record Entry (M : Type) := mkEntry { en_log_id : LogId; en_payload : EntryPayload M }.
Arguments mkEntry {M}. Arguments en_log_id {M}. Arguments en_payload {M}.
Record LogEntryWithMeta (M : Type) := mkMeta {
  me_log_id : LogId;
  me_payload : Entry M;
  me_checksum : Z;
  me_timestamp : Z;
}.
Arguments mkMeta {M}. Arguments me_log_id {M}. Arguments me_payload {M}. Arguments me_checksum {M}.
Arguments me_timestamp {M}.

Record LogState := mkLogState { lo_last_purged_log_id : option LogId; lo_last_log_id : option LogId }.
(** [lg_wal] is the directory of the write-ahead log, by the time in the file
    names; the writer is the open file with the bytes still in its buffer. *)
Record RustMqLogStorage (M : Type) := mkLogStorage {
  lg_wal : gmap Z bytes;
  lg_log_state : LogState;
  lg_wal_writer : option (Z * bytes);
  lg_entries_cache : gmap Z (Entry M);
  lg_config : RustMqStorageConfig;
}.
Arguments mkLogStorage {M}. Arguments lg_wal {M}. Arguments lg_log_state {M}. Arguments lg_wal_writer {M}.
Arguments lg_entries_cache {M}. Arguments lg_config {M}.

(** ** Text *)

(** [BufRead::lines]: a line ends at a line feed, with a carriage return before
    it dropped; what follows the last line feed is a line unless it is empty.
    The argument holds the line so far, reversed. *)
Definition drop_cr (rev_line : bytes) : bytes :=
  match rev_line with b :: l => if b =? 13 then l else rev_line | [] => [] end.
Fixpoint lines_from (rev_line : bytes) (b : bytes) : list bytes :=
  match b with
  | [] => match rev_line with [] => [] | _ => [reverse rev_line] end
  | x :: b => if x =? 10 then reverse (drop_cr rev_line) :: lines_from [] b else lines_from (x :: rev_line) b
  end.
Definition lines (b : bytes) : list bytes := lines_from [] b.
(** [trim().is_empty()]; lines of other Unicode white space are no JSON and are
    skipped as well. *)
Definition is_blank (l : bytes) : bool := forallb (λ b, ((9 <=? b) && (b <=? 13)) || (b =? 32)) l.

(** ** The log storage *)

Section log.
Context {M : Type} `{!Json (Entry M), !Json (LogEntryWithMeta M)} (crc32 : bytes → Z).
Abbreviation Log := (RustMqLogStorage M).

Definition decode_line (line : bytes) : option (Entry M) :=
  if is_blank line then None
  else meta ← from_json line;
       if crc32 (to_json (me_payload meta)) =? me_checksum meta then Some (me_payload meta) else None.
Definition load_entries_from_file (content : bytes) : Result (list (Entry M)) :=
  if forallb utf8_valid (lines content) then Ok (omap decode_line (lines content)) else Err Io.
(** A file that cannot be read or decoded is skipped. *)
Definition load_file (readable : Z → bool) (file : Z * bytes) : list (Entry M) :=
  if readable file.1 then match load_entries_from_file file.2 with Ok entries => entries | Err _ => [] end else [].
Definition insert_entry (cache : gmap Z (Entry M)) (e : Entry M) : gmap Z (Entry M) :=
  <[li_index (en_log_id e) := e]> cache.
Definition load_wal_entries (readable : Z → bool) (wal : gmap Z bytes) : gmap Z (Entry M) :=
  foldl insert_entry ∅ (btree_to_list wal ≫= load_file readable).
(** [new]: the log state is not rebuilt. *)
Definition log_storage_new (config : RustMqStorageConfig) (readable : Z → bool) (wal : gmap Z bytes) : Log :=
  mkLogStorage wal (mkLogState None None) None (load_wal_entries readable wal) config.

Definition encode_line (now : Z) (entry : Entry M) : bytes :=
  to_json (mkMeta (en_log_id entry) entry (crc32 (to_json entry)) now) ++ [10].

(** How a write fares: the bytes of the buffer that reach the file when nothing
    forces them out; a file that cannot be opened; or an error after some bytes
    entered the buffer and some of those reached the file. *)
Inductive WriteOutcome := Written (spilled : nat) | OpenFailed | WriteFailed (accepted spilled : nat).

Definition get_wal_writer (now : Z) (outcome : WriteOutcome) (s : Log) : Result (Z * bytes) * Log :=
  match lg_wal_writer s with
  | Some w => (Ok w, s)
  | None =>
      match outcome with
      | OpenFailed => (Err Io, s)
      | _ =>
          let wal := <[now := default [] (lg_wal s !! now)]> (lg_wal s) in
          (Ok (now, []), mkLogStorage wal (lg_log_state s) (Some (now, [])) (lg_entries_cache s) (lg_config s))
      end
  end.
(** The first [n] bytes of [pending] go to the file, the rest stays buffered. *)
Definition spill (file : Z) (n : nat) (pending : bytes) (s : Log) : Log :=
  mkLogStorage (<[file := default [] (lg_wal s !! file) ++ take n pending]> (lg_wal s)) (lg_log_state s)
    (Some (file, drop n pending)) (lg_entries_cache s) (lg_config s).
Definition write_to_wal (now : Z) (outcome : WriteOutcome) (entries : list (Entry M)) (s : Log) : Result unit * Log :=
  match get_wal_writer now outcome s with
  | (Err e, s) => (Err e, s)
  | (Ok (file, buffer), s) =>
      let data := entries ≫= encode_line now in
      match outcome with
      | WriteFailed accepted n => (Err Io, spill file n (buffer ++ take accepted data) s)
      | _ =>
          let pending := buffer ++ data in
          let n := match outcome with Written n => n | _ => 0%nat end in
          (Ok tt, spill file (if sc_sync_write (lg_config s) then length pending else n) pending s)
      end
  end.

Definition with_log (state : LogState) (cache : gmap Z (Entry M)) (s : Log) : Log :=
  mkLogStorage (lg_wal s) state (lg_wal_writer s) cache (lg_config s).
(** Remove the entries with the lowest indices beyond the cache size. *)
Definition trim_cache (limit : nat) (cache : gmap Z (Entry M)) : gmap Z (Entry M) :=
  foldl (λ c k, delete k c) cache (take (size cache - limit) (btree_to_list cache).*1).
Definition append_entries (now : Z) (outcome : WriteOutcome) (entries : list (Entry M)) (s : Log) : Result unit * Log :=
  match entries with
  | [] => (Ok tt, s)
  | _ =>
      match write_to_wal now outcome entries s with
      | (Err _, s) => (Err Io, s)
      | (Ok _, s) =>
          let cache := foldl insert_entry (lg_entries_cache s) entries in
          let last := match last entries with Some e => Some (en_log_id e) | None => lo_last_log_id (lg_log_state s) end in
          (Ok tt, with_log (mkLogState (lo_last_purged_log_id (lg_log_state s)) last)
                    (trim_cache (sc_cache_size (lg_config s)) cache) s)
      end
  end.
Definition truncate (log_id : LogId) (s : Log) : Log :=
  let cache := filter (λ kv, kv.1 < li_index log_id) (lg_entries_cache s) in
  let last_id :=
    match lo_last_log_id (lg_log_state s) with
    | Some last_id =>
        if li_index log_id <=? li_index last_id
        then (λ kv, en_log_id kv.2) <$> last (btree_to_list cache)
        else Some last_id
    | None => None
    end in
  with_log (mkLogState (lo_last_purged_log_id (lg_log_state s)) last_id) cache s.
Definition purge (log_id : LogId) (s : Log) : Log :=
  with_log (mkLogState (Some log_id) (lo_last_log_id (lg_log_state s)))
    (filter (λ kv, li_index log_id < kv.1) (lg_entries_cache s)) s.

Definition get_log_state (s : Log) : LogState := lg_log_state s.
(** Votes and the committed position are not kept. *)
Definition save_vote (vote : Z * Z) (s : Log) : Result unit * Log := (Ok tt, s).
Definition read_vote (s : Log) : Result (option (Z * Z)) := Ok None.
Definition save_committed (committed : option LogId) (s : Log) : Result unit * Log := (Ok tt, s).
Definition read_committed (s : Log) : Result (option LogId) := Ok None.

Inductive Bound := Included (i : Z) | Excluded (i : Z) | Unbounded.
Definition start_bound (b : Bound) : Z := match b with Included i => i | Excluded i => u64_add i 1 | Unbounded => 0 end.
Definition end_bound (b : Bound) : Z := match b with Included i => u64_add i 1 | Excluded i => i | Unbounded => u64_MAX end.
(** The loop stops at the first index without an entry, so it takes at most one
    step more than there are entries. *)
Fixpoint read_run (fuel : nat) (i stop : Z) (cache : gmap Z (Entry M)) : list (Entry M) :=
  match fuel with
  | O => []
  | S fuel =>
      if i <? stop then
        match cache !! i with
        | Some e => e :: read_run fuel (i + 1) stop cache
        | None => []
        end
      else []
  end.
Definition try_get_log_entries (lo hi : Bound) (s : Log) : list (Entry M) :=
  read_run (S (size (lg_entries_cache s))) (start_bound lo) (end_bound hi) (lg_entries_cache s).
End log.

(** ** The state machine *)

(** The state is shared with the task that saves snapshots; [sm_disk] is the
    file snapshot.bin, and [sm_saving] counts the tasks that have not run. *)
Record RustMqStateMachine := mkStateMachine {
  sm_state : RustMqSnapshotData;
  sm_config : RustMqStorageConfig;
  sm_last_applied : option LogId;
  sm_applied_since_last_snapshot : Z;
  sm_disk : option bytes;
  sm_saving : nat;
}.

Section machine.
Context {M : Type} `{!Bincode RustMqSnapshotData, !Bincode SnapshotPayload}.

(** [new] loads the state from the snapshot file, but not the last applied
    position. *)
Definition state_machine_new (config : RustMqStorageConfig) (disk : option bytes) : RustMqStateMachine :=
  let state := match disk with Some content => default snapshot_default (deserialize content) | None => snapshot_default end in
  mkStateMachine state config None 0 disk 0.

Definition ok_response (text : string) : RustMqAppDataResponse := mkResponse true None (Some text).
Definition error_response (text : string) : RustMqAppDataResponse := mkResponse false (Some text) None.
Definition apply_app_data (now : Z) (app_data : RustMqAppData) (s : RustMqSnapshotData)
  : RustMqAppDataResponse * RustMqSnapshotData :=
  let with_topics ts := mkSnapshot ts (sd_brokers s) (sd_partition_assignments s) (sd_last_applied_log s) (sd_snapshot_version s) in
  let with_brokers bs := mkSnapshot (sd_topics s) bs (sd_partition_assignments s) (sd_last_applied_log s) (sd_snapshot_version s) in
  match app_data with
  | AppCreateTopic name partitions replication_factor config =>
      match sd_topics s !! name with
      | Some _ => (error_response ("Topic " +:+ name +:+ " already exists"), s)
      | None =>
          (ok_response ("Topic " +:+ name +:+ " created"),
           with_topics (<[name := mkTopic name partitions replication_factor config now]> (sd_topics s)))
      end
  | AppDeleteTopic name =>
      match sd_topics s !! name with
      | Some _ =>
          (ok_response ("Topic " +:+ name +:+ " deleted"),
           mkSnapshot (delete name (sd_topics s)) (sd_brokers s)
             (filter (λ kv, tp_topic kv.1 ≠ name) (sd_partition_assignments s))
             (sd_last_applied_log s) (sd_snapshot_version s))
      | None => (error_response ("Topic " +:+ name +:+ " not found"), s)
      end
  | AppAddBroker broker =>
      (ok_response ("Broker " +:+ bi_id broker +:+ " added"), with_brokers (<[bi_id broker := broker]> (sd_brokers s)))
  | AppRemoveBroker broker_id =>
      match sd_brokers s !! broker_id with
      | Some _ => (ok_response ("Broker " +:+ broker_id +:+ " removed"), with_brokers (delete broker_id (sd_brokers s)))
      | None => (error_response ("Broker " +:+ broker_id +:+ " not found"), s)
      end
  | AppUpdatePartitionAssignment topic_partition assignment =>
      (ok_response ("Partition assignment updated for " +:+ show_tp topic_partition),
       mkSnapshot (sd_topics s) (sd_brokers s) (<[topic_partition := assignment]> (sd_partition_assignments s))
         (sd_last_applied_log s) (sd_snapshot_version s))
  end.

(** The body of the loop of [apply]: the response and the new state, which
    records the position. *)
Definition apply_entry (now : Z) (entry : Entry M) (s : RustMqSnapshotData) : RustMqAppDataResponse * RustMqSnapshotData :=
  let '(response, s) :=
    match en_payload entry with
    | Blank => (mkResponse true None None, s)
    | Normal app_data => apply_app_data now app_data s
    | Membership _ => (ok_response "Membership change applied", s)
    end in
  (response, mkSnapshot (sd_topics s) (sd_brokers s) (sd_partition_assignments s) (Some (en_log_id entry)) (sd_snapshot_version s)).
Fixpoint apply_entries (clock : nat → Z) (entries : list (Entry M)) (s : RustMqSnapshotData) (last : option LogId)
  : list RustMqAppDataResponse * RustMqSnapshotData * option LogId :=
  match entries with
  | [] => ([], s, last)
  | entry :: entries =>
      let '(response, s) := apply_entry (clock 0%nat) entry s in
      let '(responses, s, last) := apply_entries (λ i, clock (S i)) entries s (Some (en_log_id entry)) in
      (response :: responses, s, last)
  end.
Definition apply (clock : nat → Z) (entries : list (Entry M)) (m : RustMqStateMachine)
  : list RustMqAppDataResponse * RustMqStateMachine :=
  let '(responses, s, last) := apply_entries clock entries (sm_state m) (sm_last_applied m) in
  let applied := u64_add (sm_applied_since_last_snapshot m) (Z.of_nat (length responses)) in
  let due := sc_snapshot_threshold (sm_config m) <=? applied in
  (responses, mkStateMachine s (sm_config m) last (if due then 0 else applied) (sm_disk m)
                (if due then S (sm_saving m) else sm_saving m)).

(** [save_snapshot], run by a spawned task on the state it finds: the rename
    replaces the file at once, or one of the two steps fails. *)
Definition save_snapshot (io_ok : bool) (m : RustMqStateMachine) : Result unit * RustMqStateMachine :=
  let disk := if io_ok then Some (serialize (sm_state m)) else sm_disk m in
  (if io_ok then Ok tt else Err Io,
   mkStateMachine (sm_state m) (sm_config m) (sm_last_applied m) (sm_applied_since_last_snapshot m) disk
     (pred (sm_saving m))).

Definition applied_state (m : RustMqStateMachine) : option LogId := sm_last_applied m.

Definition get_snapshot_builder (m : RustMqStateMachine) : bytes := serialize (mkPayload (sm_state m) (sm_last_applied m)).
Record Snapshot := mkSnap { sn_last_log_id : option LogId; sn_snapshot_id : string; sn_snapshot : bytes }.
Definition build_snapshot (now : Z) (builder : bytes) : Result Snapshot :=
  match deserialize builder with
  | Some payload => Ok (mkSnap (sp_last_log_id payload) ("snapshot_" +:+ dec now) builder)
  | None => Err Io
  end.
Definition install_snapshot (snapshot : bytes) (m : RustMqStateMachine) : Result unit * RustMqStateMachine :=
  match deserialize snapshot with
  | None => (Err Io, m)
  | Some payload =>
      (Ok tt, mkStateMachine (sp_data payload) (sm_config m) (sp_last_log_id payload)
                (sm_applied_since_last_snapshot m) (sm_disk m) (sm_saving m))
  end.
Definition get_current_snapshot (now : Z) (m : RustMqStateMachine) : option Snapshot :=
  last ← sm_last_applied m; Some (mkSnap (Some last) ("snapshot_" +:+ dec now) (serialize (sm_state m))).
End machine.

(** ** The log as a list *)

(** The entries of a log that starts at [base] *)
Definition indexed {M} (base : Z) (l : list (Entry M)) : Prop :=
  ∀ i e, l !! i = Some e → li_index (en_log_id e) = base + Z.of_nat i.
Definition cache_holds {M} (cache : gmap Z (Entry M)) (base : Z) (l : list (Entry M)) : Prop :=
  ∀ k, cache !! k = if base <=? k then l !! Z.to_nat (k - base) else None.

Lemma last_drop_Some {A} (l : list A) n x : last (drop n l) = Some x → last l = Some x.
Proof.
  rewrite !last_lookup, lookup_drop, length_drop. intros H. pose proof (lookup_lt_Some _ _ _ H).
  by replace (n + pred (length l - n))%nat with (pred (length l)) in H by lia.
Qed.

Section cache.
Context {M : Type}.
Implicit Types (cache : gmap Z (Entry M)) (l es : list (Entry M)) (e : Entry M).

Lemma indexed_app base l es : indexed base (l ++ es) ↔ indexed base l ∧ indexed (base + Z.of_nat (length l)) es.
Proof.
  split.
  - intros H. split; intros i e Hi.
    + apply H. by apply lookup_app_l_Some.
    + rewrite (H (length l + i)%nat e); [lia|]. rewrite lookup_app_r by lia. by replace (length l + i - length l)%nat with i by lia.
  - intros [Hl He] i e [Hi|[Hi Hj]]%lookup_app_Some; [by apply Hl|]. rewrite (He _ _ Hj). lia.
Qed.
Lemma indexed_take base l n : indexed base l → indexed base (take n l).
Proof. intros H i e [Hi _]%lookup_take_Some. by apply H. Qed.
Lemma indexed_drop base l n : indexed base l → indexed (base + Z.of_nat n) (drop n l).
Proof. intros H i e Hi. rewrite lookup_drop in Hi. rewrite (H _ _ Hi). lia. Qed.

Lemma cache_holds_size cache base l : cache_holds cache base l → size cache = length l.
Proof.
  intros H. assert (Hdom : dom cache = list_to_set (seqZ base (Z.of_nat (length l)))).
  { apply set_eq. intros k. rewrite elem_of_dom, elem_of_list_to_set, elem_of_seqZ, H.
    destruct (Z.leb_spec base k); [|split; [by intros []|lia]]. rewrite lookup_lt_is_Some. lia. }
  rewrite <- size_dom, Hdom, size_list_to_set by apply NoDup_seqZ. rewrite length_seqZ. lia.
Qed.

Lemma cache_holds_app cache base l es :
  cache_holds cache base l → indexed (base + Z.of_nat (length l)) es →
  cache_holds (foldl insert_entry cache es) base (l ++ es).
Proof.
  revert cache l. induction es as [|e es IH]; intros cache l H He; simpl; [by rewrite app_nil_r|].
  replace (l ++ e :: es) with ((l ++ [e]) ++ es) by by rewrite <- app_assoc.
  assert (Hi : li_index (en_log_id e) = base + Z.of_nat (length l)) by (rewrite (He 0%nat e eq_refl); lia).
  apply IH.
  - intros k. unfold insert_entry. rewrite Hi. destruct (decide (k = base + Z.of_nat (length l))) as [->|Hne].
    + rewrite lookup_insert_eq. rewrite (proj2 (Z.leb_le _ _)) by lia.
      replace (Z.to_nat _) with (length l) by lia. symmetry. apply list_lookup_middle. done.
    + rewrite lookup_insert_ne, H by done. destruct (Z.leb_spec base k); [|done].
      destruct (decide (k < base + Z.of_nat (length l))); [by rewrite lookup_app_l by lia|].
      rewrite !lookup_ge_None_2; [done|rewrite length_app; simpl; lia|lia].
  - rewrite length_app. simpl. intros i x Hx. rewrite (He (S i) x Hx). lia.
Qed.

Lemma trim_cache_small limit cache base l :
  cache_holds cache base l → (length l ≤ limit)%nat → trim_cache limit cache = cache.
Proof. intros H%cache_holds_size Hl. unfold trim_cache. rewrite H. by replace (length l - limit)%nat with 0%nat by lia. Qed.

Lemma cache_holds_truncate cache base l idx :
  base ≤ idx → cache_holds cache base l →
  cache_holds (filter (λ kv, kv.1 < idx) cache) base (take (Z.to_nat (idx - base)) l).
Proof.
  intros Hb H k. rewrite map_lookup_filter, H. destruct (Z.leb_spec base k); [|done].
  destruct (decide (k < idx)).
  - rewrite lookup_take_lt by lia. destruct (l !! _); simpl; [|done]. case_guard; simpl in *; [done|lia].
  - rewrite lookup_take_ge by lia. destruct (l !! _); simpl; [|done]. case_guard; simpl in *; [lia|done].
Qed.

Lemma cache_holds_purge cache base l idx :
  cache_holds cache base l →
  cache_holds (filter (λ kv, idx < kv.1) cache) (Z.max base (idx + 1)) (drop (Z.to_nat (idx + 1 - base)) l).
Proof.
  intros H k. rewrite map_lookup_filter, H. destruct (Z.leb_spec base k).
  - destruct (Z.leb_spec (Z.max base (idx + 1)) k).
    + rewrite lookup_drop. replace (Z.to_nat (idx + 1 - base) + Z.to_nat (k - Z.max base (idx + 1)))%nat with (Z.to_nat (k - base)) by lia.
      destruct (l !! _); simpl; [|done]. case_guard; simpl in *; [done|lia].
    + destruct (l !! _); simpl; [|done]. case_guard; simpl in *; [lia|done].
  - destruct (Z.leb_spec (Z.max base (idx + 1)) k); [lia|done].
Qed.

Lemma cache_holds_last cache base l e :
  cache_holds cache base l → last l = Some e → ∃ k, last (btree_to_list cache) = Some (k, e).
Proof.
  intros H Hl. rewrite last_lookup in Hl. assert (Hlen : (0 < length l)%nat) by (apply lookup_lt_Some in Hl; lia).
  pose proof (btree_last cache) as Hb. rewrite fmap_last in Hb.
  destruct (last (btree_to_list cache)) as [[k x]|] eqn:Ex; simpl in Hb.
  - destruct Hb as [_ Hmax]. exists k. do 2 f_equal.
    assert (Hk : cache !! k = Some x).
    { apply btree_to_list_elem. apply last_Some in Ex as [l' ->]. apply elem_of_app. right. by apply list_elem_of_singleton. }
    rewrite H in Hk. destruct (Z.leb_spec base k); [|done].
    assert (base + Z.of_nat (pred (length l)) ≤ k).
    { apply Hmax. rewrite H, (proj2 (Z.leb_le _ _)) by lia.
      replace (Z.to_nat _) with (pred (length l)) by lia. eauto. }
    pose proof (lookup_lt_Some _ _ _ Hk). replace (Z.to_nat (k - base)) with (pred (length l)) in Hk by lia. congruence.
  - specialize (H (base + Z.of_nat (pred (length l)))). rewrite Hb, lookup_empty, (proj2 (Z.leb_le _ _)) in H by lia.
    replace (Z.to_nat _) with (pred (length l)) in H by lia. congruence.
Qed.

(** The reading loop has enough steps. *)
Lemma read_run_spec fuel i stop cache base l :
  cache_holds cache base l → (length l < fuel + Z.to_nat (i - base))%nat →
  read_run fuel i stop cache = if base <=? i then take (Z.to_nat (stop - i)) (drop (Z.to_nat (i - base)) l) else [].
Proof.
  intros H. revert i. induction fuel as [|fuel IH]; intros i Hf; simpl.
  - destruct (Z.leb_spec base i); [|done]. by rewrite drop_ge, take_nil by lia.
  - destruct (Z.ltb_spec i stop).
    + rewrite (H i). destruct (Z.leb_spec base i) as [Hb|]; [|done].
      destruct (l !! Z.to_nat (i - base)) as [e|] eqn:El.
      * rewrite IH by (apply lookup_lt_Some in El; lia). rewrite (proj2 (Z.leb_le _ _)) by lia.
        rewrite (drop_S l e (Z.to_nat (i - base)) El). replace (Z.to_nat (stop - i)) with (S (Z.to_nat (stop - (i + 1)))) by lia.
        by replace (Z.to_nat (i + 1 - base)) with (S (Z.to_nat (i - base))) by lia.
      * apply lookup_ge_None in El. by rewrite drop_ge, take_nil by lia.
    + destruct (Z.leb_spec base i); [|done]. by replace (Z.to_nat (stop - i)) with 0%nat by lia.
Qed.
End cache.

Section log_spec.
Context {M : Type} `{!Json (Entry M), !Json (LogEntryWithMeta M)} (crc32 : bytes → Z).
Implicit Types (s : RustMqLogStorage M) (l es : list (Entry M)) (x : Z * list (Entry M)).

Inductive LogOp :=
  | LAppend (now : Z) (outcome : WriteOutcome) (es : list (Entry M))
  | LTruncate (log_id : LogId)
  | LPurge (log_id : LogId).
Definition run_log_op (op : LogOp) s : Result unit * RustMqLogStorage M :=
  match op with
  | LAppend now outcome es => append_entries crc32 now outcome es s
  | LTruncate log_id => (Ok tt, truncate log_id s)
  | LPurge log_id => (Ok tt, purge log_id s)
  end.
(** A log is the index of its first entry and its entries; an append that
    failed leaves it as it is. *)
Definition spec_log_op (op : LogOp) (r : Result unit) x : Z * list (Entry M) :=
  let '(base, l) := x in
  match op with
  | LAppend _ _ es => if is_ok r then (base, l ++ es) else x
  | LTruncate id => (base, take (Z.to_nat (li_index id - base)) l)
  | LPurge id => (Z.max base (li_index id + 1), drop (Z.to_nat (li_index id + 1 - base)) l)
  end.
Fixpoint run_log_ops (ops : list LogOp) s : list (Result unit) * RustMqLogStorage M :=
  match ops with
  | [] => ([], s)
  | op :: ops => let '(r, s) := run_log_op op s in let '(rs, s) := run_log_ops ops s in (r :: rs, s)
  end.
Fixpoint spec_log_ops (ops : list LogOp) (rs : list (Result unit)) x : Z * list (Entry M) :=
  match ops, rs with
  | op :: ops, r :: rs => spec_log_ops ops rs (spec_log_op op r x)
  | _, _ => x
  end.

(** Appends continue the log and fit the cache; nothing before its first entry
    is truncated. *)
Definition log_op_ok (limit : nat) (op : LogOp) x : Prop :=
  match op with
  | LAppend _ _ es => indexed (x.1 + Z.of_nat (length x.2)) es ∧ (length x.2 + length es ≤ limit)%nat
  | LTruncate id => x.1 ≤ li_index id
  | LPurge _ => True
  end.
Fixpoint log_ops_ok (limit : nat) (ops : list LogOp) (rs : list (Result unit)) x : Prop :=
  match ops, rs with
  | op :: ops, r :: rs => log_op_ok limit op x ∧ log_ops_ok limit ops rs (spec_log_op op r x)
  | _, _ => True
  end.

Record log_holds s x : Prop := {
  lh_cache : cache_holds (lg_entries_cache s) x.1 x.2;
  lh_indexed : indexed x.1 x.2;
  lh_size : (length x.2 ≤ sc_cache_size (lg_config s))%nat;
  lh_last e : last x.2 = Some e → lo_last_log_id (lg_log_state s) = Some (en_log_id e);
}.

Lemma write_frame now outcome es s r s' :
  write_to_wal crc32 now outcome es s = (r, s') →
  lg_entries_cache s' = lg_entries_cache s ∧ lg_log_state s' = lg_log_state s ∧ lg_config s' = lg_config s.
Proof. unfold write_to_wal, get_wal_writer. intros E. repeat case_match; simplify_eq/=; done. Qed.

Lemma append_holds now outcome es s x r s' :
  log_holds s x → log_op_ok (sc_cache_size (lg_config s)) (LAppend now outcome es) x →
  append_entries crc32 now outcome es s = (r, s') → log_holds s' (spec_log_op (LAppend now outcome es) r x) ∧ lg_config s' = lg_config s.
Proof.
  destruct x as [base l]. intros [Hc Hi Hs Hl] [He Hfit]. simpl in *. unfold append_entries.
  destruct es as [|e0 es0] eqn:Ees; [intros [= <- <-]; simpl; by rewrite app_nil_r|]. rewrite <- Ees in *.
  destruct (write_to_wal _ _ _ _ _) as [w s1] eqn:Ew. destruct (write_frame _ _ _ _ _ _ Ew) as (Ec & El & Econf).
  destruct w as [[]|err]; intros [= <- <-]; simpl; [|by split; [split; simpl; rewrite ?Ec, ?El, ?Econf|]].
  split; [|done]. assert (Hc' := cache_holds_app _ _ _ _ Hc He).
  assert (Hfit' : (length (l ++ es) ≤ sc_cache_size (lg_config s))%nat) by (rewrite length_app; lia).
  split; simpl; rewrite ?Ec, ?Econf.
  - by rewrite (trim_cache_small _ _ base (l ++ es)).
  - by apply indexed_app.
  - done.
  - intros e. rewrite last_app. destruct (last es) as [e'|] eqn:Ele; [by intros [= ->]|].
    apply last_None in Ele. by subst es.
Qed.

Lemma truncate_holds id s x :
  log_holds s x → x.1 ≤ li_index id → log_holds (truncate id s) (spec_log_op (LTruncate id) (Ok tt) x).
Proof.
  destruct x as [base l]. intros [Hc Hi Hs Hl] Hb. simpl in *.
  assert (Hc' := cache_holds_truncate _ _ _ _ Hb Hc). split; simpl; [done|by apply indexed_take|rewrite length_take; lia|].
  intros e He. destruct (cache_holds_last _ _ _ _ Hc' He) as [k Hk]. rewrite Hk. simpl.
  assert (Hlen : take (Z.to_nat (li_index id - base)) l ≠ []) by (intros E; by rewrite E in He).
  destruct (last l) as [el|] eqn:Ell; [|apply last_None in Ell; subst l; by rewrite take_nil in Hlen].
  rewrite (Hl el eq_refl). destruct (Z.leb_spec (li_index id) (li_index (en_log_id el))); [done|].
  rewrite last_lookup in Ell. pose proof (Hi _ _ Ell). pose proof (lookup_lt_Some _ _ _ Ell).
  rewrite take_ge in He by lia. rewrite last_lookup in He. congruence.
Qed.

Lemma purge_holds id s x : log_holds s x → log_holds (purge id s) (spec_log_op (LPurge id) (Ok tt) x).
Proof.
  destruct x as [base l]. intros [Hc Hi Hs Hl]. simpl in *. split; simpl.
  - by apply cache_holds_purge.
  - destruct (Z.leb_spec base (li_index id + 1)) as [Hb|Hb].
    + rewrite Z.max_r by lia. replace (li_index id + 1) with (base + Z.of_nat (Z.to_nat (li_index id + 1 - base))) at 1 by lia.
      by apply indexed_drop.
    + rewrite Z.max_l by lia. by replace (Z.to_nat _) with 0%nat by lia.
  - rewrite length_drop. lia.
  - intros e He. apply Hl. by apply last_drop_Some in He.
Qed.

Lemma run_log_ops_holds ops s x rs s' :
  log_holds s x → run_log_ops ops s = (rs, s') → log_ops_ok (sc_cache_size (lg_config s)) ops rs x →
  log_holds s' (spec_log_ops ops rs x).
Proof.
  revert s x rs. induction ops as [|op ops IH]; intros s x rs Hs; simpl; [by intros [= <- <-]|].
  destruct (run_log_op op s) as [r s1] eqn:E1. destruct (run_log_ops ops s1) as [rs1 s2] eqn:E2.
  intros [= <- <-] [Hop Hops]. simpl.
  assert (log_holds s1 (spec_log_op op r x) ∧ lg_config s1 = lg_config s) as [Hs1 Hc].
  { destruct op as [now out es|id|id]; simpl in E1.
    - exact (append_holds _ _ _ _ _ _ _ Hs Hop E1).
    - injection E1 as <- <-. split; [by apply truncate_holds|done].
    - injection E1 as <- <-. split; [by apply purge_holds|done]. }
  apply (IH s1); [done|done|]. by rewrite Hc.
Qed.

(** C20: The log storage refines a list.  Along any sequence of appends, some of
    which may fail, truncations and purges within the cache size, reading a
    range returns exactly the entries of the list in that range, and the last
    log id is the one of the last entry. *)
Theorem raft_log_refines ops s x rs s' lo hi :
  log_holds s x → run_log_ops ops s = (rs, s') → log_ops_ok (sc_cache_size (lg_config s)) ops rs x →
  let '(base, l) := spec_log_ops ops rs x in
  try_get_log_entries lo hi s' =
    (if base <=? start_bound lo then take (Z.to_nat (end_bound hi - start_bound lo)) (drop (Z.to_nat (start_bound lo - base)) l) else [])
  ∧ ∀ e, last l = Some e → lo_last_log_id (get_log_state s') = Some (en_log_id e).
Proof.
  intros Hs E Hok. destruct (run_log_ops_holds ops s x rs s' Hs E Hok) as [Hc _ _ Hl].
  destruct (spec_log_ops ops rs x) as [base l]. simpl in *. split; [|done].
  unfold try_get_log_entries. apply read_run_spec; [done|]. rewrite (cache_holds_size _ _ _ Hc). lia.
Qed.
End log_spec.

(** ** Recovery *)

(** What [serde_json] writes for a struct: one line of UTF-8, control characters
    escaped, beginning with a brace. *)
Class JsonText (A : Type) `{!Json A} := {
  json_no_control (a : A) : Forall (λ b, b ≠ 10 ∧ b ≠ 13) (to_json a);
  json_utf8 (a : A) : utf8_valid (to_json a) = true;
  json_not_blank (a : A) : is_blank (to_json a) = false;
}.

Lemma lines_from_line acc line rest :
  Forall (λ b, b ≠ 10) line → lines_from acc (line ++ 10 :: rest) = reverse (drop_cr (reverse line ++ acc)) :: lines_from [] rest.
Proof.
  intros H. revert acc. induction H as [|b line Hb _ IH]; intros acc; [done|].
  simpl. rewrite (proj2 (Z.eqb_neq _ _) Hb), IH. by rewrite reverse_cons, <- app_assoc.
Qed.
Lemma lines_line line rest :
  Forall (λ b, b ≠ 10 ∧ b ≠ 13) line → lines (line ++ 10 :: rest) = line :: lines rest.
Proof.
  intros H. unfold lines. rewrite lines_from_line by (eapply Forall_impl; [exact H|by intros ? []]).
  rewrite app_nil_r. f_equal. rewrite <- (reverse_involutive line) in H.
  destruct (reverse line) as [|b l] eqn:E; simpl.
  - by rewrite <- (reverse_involutive line), E.
  - rewrite <- E, Forall_reverse, E in H. apply Forall_cons in H as [[_ Hb] _]. rewrite (proj2 (Z.eqb_neq _ _) Hb), <- E.
    apply reverse_involutive.
Qed.

(** The greatest key comes last. *)
Lemma btree_to_list_insert_max {A} (m : gmap Z A) k v :
  (∀ k', is_Some (m !! k') → k' ≤ k) → btree_to_list (<[k := v]> m) = btree_to_list (delete k m) ++ [(k, v)].
Proof.
  intros Hmax. apply (StronglySorted_unique_strong key_le).
  - intros [k1 v1] [k2 v2] H1 H2 ? ?. assert (k1 = k2) as <- by (unfold key_le in *; simpl in *; lia).
    rewrite btree_to_list_elem in H1. rewrite elem_of_app, btree_to_list_elem, list_elem_of_singleton in H2.
    destruct H2 as [H2|[= -> ->]]; [|rewrite lookup_insert_eq in H1; congruence].
    apply lookup_delete_Some in H2 as [Hne H2]. rewrite lookup_insert_ne in H1 by done. congruence.
  - apply btree_to_list_sorted.
  - apply StronglySorted_app_2; [|apply btree_to_list_sorted|by repeat constructor].
    intros [k1 v1] y H1 ->%list_elem_of_singleton. apply btree_to_list_elem, lookup_delete_Some in H1 as [_ H1].
    unfold key_le. simpl. eauto.
  - unfold btree_to_list. rewrite !merge_sort_Permutation. rewrite (comm (++)). simpl.
    rewrite <- insert_delete_eq. apply map_to_list_insert. apply lookup_delete_eq.
Qed.

Section recovery.
Context {M : Type} `{!Json (Entry M), !Json (LogEntryWithMeta M), !JsonLaws (LogEntryWithMeta M), !JsonText (LogEntryWithMeta M)}.
Context (crc32 : bytes → Z).
Implicit Types (s : RustMqLogStorage M) (es : list (Entry M)) (wal : gmap Z bytes).
Abbreviation all_readable := (λ _ : Z, true).

(** A file of whole lines, and the entries in it *)
Definition clean (content : bytes) es : Prop :=
  ∃ items : list (Z * Entry M), content = items ≫= (λ it, encode_line crc32 it.1 it.2) ∧ es = items.*2.

Lemma load_clean content es : clean content es → load_entries_from_file crc32 content = Ok es.
Proof using JsonLaws0 JsonText0.
  intros (items & -> & ->). unfold load_entries_from_file.
  assert (forallb utf8_valid (lines (items ≫= λ it, encode_line crc32 it.1 it.2)) = true ∧
    omap (decode_line crc32) (lines (items ≫= λ it, encode_line crc32 it.1 it.2)) = items.*2) as [-> ->]; [|done].
  induction items as [|[now e] items [IH1 IH2]]; [done|].
  set (rest := items ≫= _) in *. assert (Hl : ∀ meta : LogEntryWithMeta M, lines (to_json meta ++ [10] ++ rest) = to_json meta :: lines rest).
  { intros meta. apply lines_line, json_no_control. }
  rewrite bind_cons. fold rest. unfold encode_line. rewrite <- app_assoc, Hl. cbn [forallb]. rewrite json_utf8, IH1. split; [done|].
  cbn [omap list_omap]. unfold decode_line at 1. rewrite json_not_blank, from_to_json. cbn. rewrite Z.eqb_refl. by f_equal.
Qed.
Lemma clean_app content es now es' : clean content es → clean (content ++ (es' ≫= encode_line crc32 now)) (es ++ es').
Proof.
  intros (items & -> & ->). exists (items ++ ((now,.) <$> es')). rewrite bind_app, fmap_app. split; [|f_equal].
  - f_equal. induction es' as [|e es' IH]; [done|]. rewrite fmap_cons, !bind_cons. by rewrite IH.
  - by rewrite <- list_fmap_compose, list_fmap_id.
Qed.
Lemma clean_nil : clean [] [].
Proof. by exists []. Qed.

Definition wal_holds wal es : Prop :=
  ∃ parts, Forall2 (λ f p, clean f.2 p) (btree_to_list wal) parts ∧ es = concat parts.

Lemma load_wal_holds wal es : wal_holds wal es → load_wal_entries crc32 all_readable wal = foldl insert_entry ∅ es.
Proof using JsonLaws0 JsonText0.
  intros (parts & Hp & ->). unfold load_wal_entries. f_equal.
  induction Hp as [|f p fs ps Hf _ IH]; [done|]. rewrite bind_cons. simpl. f_equal; [|done].
  unfold load_file. by rewrite (load_clean f.2 p Hf).
Qed.

(** Writing to the newest file *)
Lemma wal_holds_write wal es file now es' :
  (∀ k, is_Some (wal !! k) → k ≤ file) → wal_holds wal es →
  wal_holds (<[file := default [] (wal !! file) ++ (es' ≫= encode_line crc32 now)]> wal) (es ++ es').
Proof.
  intros Hmax (parts & Hp & ->). unfold wal_holds. rewrite btree_to_list_insert_max by done.
  destruct (wal !! file) as [old|] eqn:Ef; simpl.
  - rewrite <- (insert_id wal file old Ef), btree_to_list_insert_max in Hp by done.
    apply Forall2_app_inv_l in Hp as (ps & pl & Hps & Hpl & ->).
    apply Forall2_cons_inv_l in Hpl as (p & [] & Hpc & Hn & ->); [|by inversion Hn].
    exists (ps ++ [p ++ es']). split.
    + apply Forall2_app; [done|]. constructor; [|done]. by apply clean_app.
    + by rewrite !concat_app, <- app_assoc; simpl; rewrite !app_nil_r.
  - rewrite delete_id by done. exists (parts ++ [es']). split.
    + apply Forall2_app; [done|]. constructor; [|done]. apply (clean_app [] [] now es' clean_nil).
    + rewrite concat_app. simpl. by rewrite app_nil_r.
Qed.

(** Between operations nothing is buffered and the open file is the newest. *)
Record synced s es : Prop := {
  sy_sync : sc_sync_write (lg_config s) = true;
  sy_wal : wal_holds (lg_wal s) es;
  sy_writer file buffer : lg_wal_writer s = Some (file, buffer) →
    buffer = [] ∧ ∀ k, is_Some (lg_wal s !! k) → k ≤ file;
}.
Definition written (op : LogOp (M := M)) : list (Entry M) := match op with LAppend _ _ es => es | _ => [] end.
(** Appends succeed, and the clock has not gone back behind the newest file. *)
Definition append_ok (op : LogOp (M := M)) s : Prop :=
  match op with
  | LAppend now outcome _ => (∃ n, outcome = Written n) ∧ ∀ k, is_Some (lg_wal s !! k) → k ≤ now
  | _ => True
  end.
Fixpoint appends_ok (ops : list (LogOp (M := M))) s : Prop :=
  match ops with [] => True | op :: ops => append_ok op s ∧ appends_ok ops (run_log_op crc32 op s).2 end.

Lemma write_synced now n es' s es r s' :
  synced s es → (∀ k, is_Some (lg_wal s !! k) → k ≤ now) → write_to_wal crc32 now (Written n) es' s = (r, s') →
  r = Ok tt ∧ synced s' (es ++ es').
Proof.
  intros [Hs Hw Hb] Hclock. unfold write_to_wal, get_wal_writer. destruct (lg_wal_writer s) as [[file buffer]|] eqn:Ew.
  - destruct (Hb _ _ eq_refl) as [-> Hmax]. rewrite Hs. intros [= <- <-]. split; [done|].
    unfold spill. rewrite firstn_all, skipn_all. split; simpl; [done|by apply wal_holds_write|].
    intros f b [= <- <-]. split; [done|]. intros k. rewrite lookup_insert_is_Some'. intros [->|?]; [done|auto].
  - simpl. rewrite Hs. intros [= <- <-]. split; [done|]. unfold spill. simpl. rewrite firstn_all, skipn_all.
    rewrite lookup_insert_eq, insert_insert_eq. simpl. split; simpl; [done|by apply wal_holds_write|].
    intros f b [= <- <-]. split; [done|]. intros k. rewrite lookup_insert_is_Some'. intros [->|?]; [done|auto].
Qed.

Lemma run_synced ops s es rs s' :
  synced s es → appends_ok ops s → run_log_ops crc32 ops s = (rs, s') →
  Forall (λ r, r = Ok tt) rs ∧ synced s' (es ++ (ops ≫= written)).
Proof.
  revert s es rs. induction ops as [|op ops IH]; intros s es rs Hs Hok; cbn [run_log_ops].
  { intros [= <- <-]. by rewrite app_nil_r. }
  destruct Hok as [Hop Hops]. destruct (run_log_op crc32 op s) as [r s1] eqn:E1. destruct (run_log_ops crc32 ops s1) as [rs1 s2] eqn:E2.
  intros [= <- <-]. assert (r = Ok tt ∧ synced s1 (es ++ written op)) as [-> Hs1].
  { destruct op as [now out es'|id|id]; simpl in *.
    - destruct Hop as [[n ->] Hclock]. unfold append_entries in E1. destruct es' as [|e es'']; [injection E1 as <- <-; by rewrite app_nil_r|].
      destruct (write_to_wal _ _ _ _ _) as [w s0] eqn:Ew. destruct (write_synced _ _ _ _ _ _ _ Hs Hclock Ew) as [-> [H1 H2 H3]].
      injection E1 as <- <-. done.
    - injection E1 as <- <-. rewrite app_nil_r. by destruct Hs.
    - injection E1 as <- <-. rewrite app_nil_r. by destruct Hs. }
  destruct (IH s1 _ rs1 Hs1 Hops E2) as [Hrs Hs2]. split; [by constructor|].
  by rewrite bind_cons, app_assoc.
Qed.

(** Recovery of the log.  With synchronous writes, whatever appends,
    truncations and purges happened, a storage opened on the same files has in
    its cache, for every index, the entry that was appended there last; so no
    appended entry is lost.  Truncations and purges leave no trace in the
    files, and the log state starts empty. *)
Theorem raft_log_recovers ops s es rs s' config :
  synced s es → appends_ok ops s → run_log_ops crc32 ops s = (rs, s') →
  let recovered := log_storage_new crc32 config all_readable (lg_wal s') in
  lg_entries_cache recovered = foldl insert_entry (foldl insert_entry ∅ es) (ops ≫= written) ∧
  get_log_state recovered = mkLogState None None ∧ synced s' (es ++ (ops ≫= written)).
Proof using JsonLaws0 JsonText0.
  intros Hs Hok E. destruct (run_synced ops s es rs s' Hs Hok E) as [_ Hs']. split_and!; [|done|done].
  simpl. rewrite (load_wal_holds _ _ (sy_wal _ _ Hs')). apply foldl_app.
Qed.
End recovery.

(** ** Replicas of the state machine *)

Definition erase_created (t : TopicInfo) : TopicInfo :=
  mkTopic (ti_name t) (ti_partitions t) (ti_replication_factor t) (ti_config t) 0.
(** States up to the creation times of topics *)
Definition same_state (s1 s2 : RustMqSnapshotData) : Prop :=
  erase_created <$> sd_topics s1 = erase_created <$> sd_topics s2 ∧ sd_brokers s1 = sd_brokers s2 ∧
  sd_partition_assignments s1 = sd_partition_assignments s2 ∧ sd_last_applied_log s1 = sd_last_applied_log s2 ∧
  sd_snapshot_version s1 = sd_snapshot_version s2.
#[global] Instance same_state_equivalence : Equivalence same_state.
Proof.
  unfold same_state. split; [done|by intros ?? (-> & -> & -> & -> & ->)|].
  by intros ??? (-> & -> & -> & -> & ->) (-> & -> & -> & -> & ->).
Qed.

Section machines.
Context {M : Type} `{!Bincode RustMqSnapshotData, !Bincode SnapshotPayload, !BincodeLaws SnapshotPayload}.
Implicit Types (s : RustMqSnapshotData) (m f : RustMqStateMachine) (e : Entry M) (es : list (Entry M)).

Lemma apply_app_data_agrees now1 now2 d s1 s2 :
  same_state s1 s2 →
  (apply_app_data now1 d s1).1 = (apply_app_data now2 d s2).1 ∧ same_state (apply_app_data now1 d s1).2 (apply_app_data now2 d s2).2.
Proof.
  intros (Ht & Hb & Ha & Hl & Hv).
  assert (Hlook : ∀ name, is_Some (sd_topics s1 !! name) ↔ is_Some (sd_topics s2 !! name)).
  { intros name. apply (f_equal (lookup name)) in Ht. rewrite !lookup_fmap in Ht.
    destruct (sd_topics s1 !! name), (sd_topics s2 !! name); done. }
  unfold same_state. destruct d as [name p rf c|name|b|id|tp pa]; simpl.
  - specialize (Hlook name). destruct (sd_topics s1 !! name), (sd_topics s2 !! name); simpl; try done.
    + destruct (proj1 Hlook); done.
    + destruct (proj2 Hlook); done.
    + by rewrite !fmap_insert, Ht.
  - specialize (Hlook name). destruct (sd_topics s1 !! name), (sd_topics s2 !! name); simpl; try done.
    + by rewrite !fmap_delete, Ht, Ha.
    + destruct (proj1 Hlook); done.
    + destruct (proj2 Hlook); done.
  - by rewrite Hb.
  - rewrite Hb. by destruct (sd_brokers s2 !! id).
  - by rewrite Ha.
Qed.

Lemma apply_entry_agrees now1 now2 e s1 s2 :
  same_state s1 s2 →
  (apply_entry now1 e s1).1 = (apply_entry now2 e s2).1 ∧ same_state (apply_entry now1 e s1).2 (apply_entry now2 e s2).2.
Proof.
  intros Hs. unfold apply_entry. destruct (en_payload e) as [|d|c]; simpl.
  - by destruct Hs as (? & ? & ? & ? & ?).
  - destruct (apply_app_data_agrees now1 now2 d s1 s2 Hs) as [Hr (? & ? & ? & _ & ?)].
    destruct (apply_app_data now1 d s1), (apply_app_data now2 d s2). done.
  - by destruct Hs as (? & ? & ? & ? & ?).
Qed.

Lemma apply_entries_agrees es clock1 clock2 s1 s2 last :
  same_state s1 s2 →
  let '(r1, s1', l1) := apply_entries clock1 es s1 last in
  let '(r2, s2', l2) := apply_entries clock2 es s2 last in
  r1 = r2 ∧ same_state s1' s2' ∧ l1 = l2.
Proof.
  revert clock1 clock2 s1 s2 last. induction es as [|e es IH]; intros clock1 clock2 s1 s2 last Hs; simpl; [done|].
  destruct (apply_entry_agrees (clock1 0%nat) (clock2 0%nat) e s1 s2 Hs) as [Hr Hs'].
  destruct (apply_entry (clock1 0%nat) e s1) as [q1 t1], (apply_entry (clock2 0%nat) e s2) as [q2 t2]. simpl in *. subst q2.
  specialize (IH (λ i, clock1 (S i)) (λ i, clock2 (S i)) t1 t2 (Some (en_log_id e)) Hs').
  destruct (apply_entries _ es t1 _) as [[r1 u1] l1], (apply_entries _ es t2 _) as [[r2 u2] l2].
  by destruct IH as (-> & ? & ->).
Qed.

End machines.

Module RaftLogDemo.
(** Codecs through countability; the bits as bytes are one line of ASCII. *)
#[local] Instance log_id_eq_dec : EqDecision LogId.
Proof. solve_decision. Defined.
#[local] Instance log_id_countable : Countable LogId.
Proof.
  refine (inj_countable' (λ i, (li_term i, li_node_id i, li_index i)) (λ '(a, b, c), mkLogId a b c) _). by intros [].
Defined.
#[local] Instance topic_config_eq_dec : EqDecision TopicConfig.
Proof. solve_decision. Defined.
#[local] Instance topic_config_countable : Countable TopicConfig.
Proof.
  refine (inj_countable' (λ c, (tc_retention_ms c, tc_segment_bytes c, tc_compression_type c))
    (λ '(a, b, c), mkTopicConfig a b c) _). by intros [].
Defined.
#[local] Instance topic_eq_dec : EqDecision TopicInfo.
Proof. solve_decision. Defined.
#[local] Instance topic_countable : Countable TopicInfo.
Proof.
  refine (inj_countable' (λ t, (ti_name t, ti_partitions t, ti_replication_factor t, ti_config t, ti_created_at t))
    (λ '(a, b, c, d, e), mkTopic a b c d e) _). by intros [].
Defined.
#[local] Instance broker_eq_dec : EqDecision BrokerInfo.
Proof. solve_decision. Defined.
#[local] Instance broker_countable : Countable BrokerInfo.
Proof.
  refine (inj_countable' (λ b, (bi_id b, bi_host b, bi_port_quic b, bi_port_rpc b, bi_rack_id b))
    (λ '(a, b, c, d, e), mkBroker a b c d e) _). by intros [].
Defined.
#[local] Instance assignment_countable : Countable PartitionAssignment.
Proof.
  refine (inj_countable' (λ a, (pa_leader a, pa_replicas a, pa_in_sync_replicas a, pa_leader_epoch a))
    (λ '(a, b, c, d), mkAssignment a b c d) _). by intros [].
Defined.
#[local] Instance app_data_eq_dec : EqDecision RustMqAppData.
Proof. solve_decision. Defined.
#[local] Instance app_data_countable : Countable RustMqAppData.
Proof.
  refine (inj_countable' (λ d, match d with
    | AppCreateTopic n p r c => inl (inl (n, p, r, c)) | AppDeleteTopic n => inl (inr (inl n))
    | AppAddBroker b => inl (inr (inr b)) | AppRemoveBroker i => inr (inl i)
    | AppUpdatePartitionAssignment t a => inr (inr (t, a)) end)
    (λ x, match x with
    | inl (inl (n, p, r, c)) => AppCreateTopic n p r c | inl (inr (inl n)) => AppDeleteTopic n
    | inl (inr (inr b)) => AppAddBroker b | inr (inl i) => AppRemoveBroker i
    | inr (inr (t, a)) => AppUpdatePartitionAssignment t a end) _). by intros [].
Defined.
#[local] Instance payload_eq_dec : EqDecision (EntryPayload unit).
Proof. solve_decision. Defined.
#[local] Instance payload_countable : Countable (EntryPayload unit).
Proof.
  refine (inj_countable' (λ p, match p with Blank => inl false | Membership _ => inl true | Normal d => inr d end)
    (λ x, match x with inl false => Blank | inl true => Membership tt | inr d => Normal d end) _). by intros [| |[]].
Defined.
#[local] Instance entry_eq_dec : EqDecision (Entry unit).
Proof. solve_decision. Defined.
#[local] Instance entry_countable : Countable (Entry unit).
Proof. refine (inj_countable' (λ e, (en_log_id e, en_payload e)) (λ '(a, b), mkEntry a b) _). by intros []. Defined.
#[local] Instance meta_eq_dec : EqDecision (LogEntryWithMeta unit).
Proof. solve_decision. Defined.
#[local] Instance meta_countable : Countable (LogEntryWithMeta unit).
Proof.
  refine (inj_countable' (λ m, (me_log_id m, me_payload m, me_checksum m, me_timestamp m)) (λ '(a, b, c, d), mkMeta a b c d) _).
  by intros [].
Defined.
#[local] Instance snapshot_data_eq_dec : EqDecision RustMqSnapshotData.
Proof. solve_decision. Defined.
#[local] Instance snapshot_data_countable : Countable RustMqSnapshotData.
Proof.
  refine (inj_countable' (λ s, (sd_topics s, sd_brokers s, sd_partition_assignments s, sd_last_applied_log s, sd_snapshot_version s))
    (λ '(a, b, c, d, e), mkSnapshot a b c d e) _). by intros [].
Defined.
#[local] Instance snapshot_payload_eq_dec : EqDecision SnapshotPayload.
Proof. solve_decision. Defined.
#[local] Instance snapshot_payload_countable : Countable SnapshotPayload.
Proof. refine (inj_countable' (λ p, (sp_data p, sp_last_log_id p)) (λ '(a, b), mkPayload a b) _). by intros []. Defined.

#[local] Instance entry_json : Json (Entry unit) := {| to_json e := DemoCodec.bits (encode e); from_json d := DemoCodec.unbits d ≫= decode |}.
#[local] Instance meta_json : Json (LogEntryWithMeta unit) :=
  {| to_json e := DemoCodec.bits (encode e); from_json d := DemoCodec.unbits d ≫= decode |}.
#[local] Instance meta_json_laws : JsonLaws (LogEntryWithMeta unit).
Proof. split. intros v. simpl. by rewrite DemoCodec.unbits_bits; simpl; rewrite decode_encode. Qed.
#[local] Instance meta_json_text : JsonText (LogEntryWithMeta unit).
Proof.
  split; intros a; simpl; generalize (encode a) as p; intros p; induction p as [p IH|p IH|]; simpl; try done.
  all: repeat constructor; try done; lia.
Qed.
#[local] Instance data_bincode : Bincode RustMqSnapshotData := DemoCodec.demo.
#[local] Instance payload_bincode : Bincode SnapshotPayload := DemoCodec.demo.
#[local] Instance payload_bincode_laws : BincodeLaws SnapshotPayload := DemoCodec.demo_laws.

Definition crc (b : bytes) : Z := zsum id b.
Definition config : RustMqStorageConfig := mkStorageConfig true 100 1000.
Definition entry (i : Z) (d : RustMqAppData) : Entry unit := mkEntry (mkLogId 1 7 i) (Normal d).
Definition e1 : Entry unit := entry 1 (AppDeleteTopic "t").
Definition e2 : Entry unit := entry 2 (AppCreateTopic "t" 1 1 (mkTopicConfig None None None)).
Definition e3 : Entry unit := entry 3 (AppRemoveBroker "b").
Definition fresh : RustMqLogStorage unit := log_storage_new crc config (λ _, true) ∅.
Definition ops : list LogOp :=
  [LAppend 50 (Written 0) [e1; e2]; LAppend 51 (Written 0) [e3]; LTruncate (mkLogId 1 7 3); LPurge (mkLogId 1 7 1)].

Lemma fresh_holds : log_holds fresh (1, []).
Proof.
  split; simpl; [|done|lia|done]. replace (load_wal_entries _ _ _) with (∅ : gmap Z (Entry unit)) by (vm_compute; reflexivity).
  intros k. rewrite lookup_empty. by destruct (1 <=? k).
Qed.
Lemma fresh_synced : synced crc fresh [].
Proof. split; simpl; [done| |done]. exists []. done. Qed.

Lemma raft_log_refines_witness :
  let '(rs, s') := run_log_ops crc ops fresh in
  try_get_log_entries (Included 1) Unbounded s' = [] ∧ try_get_log_entries (Included 2) Unbounded s' = [e2] ∧
  lo_last_log_id (get_log_state s') = Some (en_log_id e2).
Proof.
  destruct (run_log_ops crc ops fresh) as [rs s'] eqn:E.
  assert (Hrs : rs = [Ok tt; Ok tt; Ok tt; Ok tt]) by (change rs with (rs, s').1; rewrite <- E; vm_compute; reflexivity).
  subst rs. assert (Hok : log_ops_ok (sc_cache_size (lg_config fresh)) ops [Ok tt; Ok tt; Ok tt; Ok tt] (1, [])).
  { cbn [log_ops_ok log_op_ok spec_log_op is_ok fst snd ops]. split_and!; try done; try (simpl; lia).
    - intros [|[|i]] e He; [injection He as <-|injection He as <-|done]; reflexivity.
    - intros [|i] e He; [injection He as <-|done]; reflexivity. }
  split; [|split].
  - exact (proj1 (raft_log_refines crc ops fresh (1, []) _ s' (Included 1) Unbounded fresh_holds E Hok)).
  - exact (proj1 (raft_log_refines crc ops fresh (1, []) _ s' (Included 2) Unbounded fresh_holds E Hok)).
  - exact (proj2 (raft_log_refines crc ops fresh (1, []) _ s' (Included 2) Unbounded fresh_holds E Hok) e2 eq_refl).
Defined.

(** Recovery brings back every entry, also the one that was truncated, and
    forgets the log state. *)
Lemma raft_log_recovers_witness :
  let s' := (run_log_ops crc ops fresh).2 in
  let recovered := log_storage_new crc config (λ _, true) (lg_wal s') in
  lg_entries_cache recovered = {[1 := e1; 2 := e2; 3 := e3]} ∧ get_log_state recovered = mkLogState None None.
Proof.
  destruct (run_log_ops crc ops fresh) as [rs s'] eqn:E.
  destruct (raft_log_recovers crc ops fresh [] rs s' config fresh_synced) as (Hc & Hst & _).
  - simpl. split_and!; try done; [by eexists| |by eexists|].
    + intros k [v Hv]. by rewrite lookup_empty in Hv.
    + intros k [v Hv]. assert (Hall : map_Forall (λ k _, k ≤ 51) (lg_wal (run_log_op crc (LAppend 50 (Written 0) [e1; e2]) fresh).2)).
      { refine (bool_decide_eq_true_1 _ _). vm_compute. reflexivity. }
      exact (Hall k v Hv).
  - exact E.
  - split; [|exact Hst]. simpl in Hc. simpl. rewrite Hc. vm_compute. reflexivity.
Defined.

Definition machine : RustMqStateMachine := (apply (λ _, 5) [e1; e2] (state_machine_new config None)).2.

(** Divergences.  An append that fails after part of its line entered the
    buffer glues that part to the next line: the next entry is acknowledged
    and lost on restart. *)
Lemma failed_append_loses_next :
  let '(r1, s) := append_entries crc 50 (WriteFailed 3 0) [e1] fresh in
  let '(r2, s) := append_entries crc 51 (Written 0) [e1] s in
  r1 = Err Io ∧ r2 = Ok tt ∧ lg_entries_cache (log_storage_new crc config (λ _, true) (lg_wal s)) = ∅.
Proof. vm_compute. by split_and!. Qed.

(** Entries beyond the cache size cannot be read any more. *)
Lemma evicted_entries_unreadable :
  let s := (append_entries crc 50 (Written 0) [e1; e2] (log_storage_new crc (mkStorageConfig true 1 1000) (λ _, true) ∅)).2 in
  try_get_log_entries (Included 1) Unbounded s = [].
Proof. vm_compute. reflexivity. Qed.

(** Truncating everything that is left after a purge loses the last log id. *)
Lemma truncate_after_purge_forgets :
  let s := (append_entries crc 50 (Written 0) [e1; e2] fresh).2 in
  let s := truncate (mkLogId 1 7 2) (purge (mkLogId 1 7 1) s) in
  get_log_state s = mkLogState (Some (mkLogId 1 7 1)) None.
Proof. vm_compute. reflexivity. Qed.

(** A vote is not remembered. *)
Lemma vote_forgotten : read_vote (save_vote (3, 7) fresh).2 = Ok None.
Proof. reflexivity. Qed.

(** After a restart the log is applied again from its beginning on top of the
    saved snapshot, which can lead to another state. *)
Definition replayed_log : list (Entry unit) :=
  [entry 1 (AppUpdatePartitionAssignment (mkTP "t" 0) (mkAssignment "b" [] [] 0)); entry 2 (AppDeleteTopic "t"); e2].
Lemma replay_diverges :
  let m := (save_snapshot true (apply (λ _, 5) replayed_log (state_machine_new config None)).2).2 in
  let m' := state_machine_new config (sm_disk m) in
  sm_state m' = sm_state m ∧ applied_state m' = None ∧
  size (sd_partition_assignments (sm_state m)) = 1%nat ∧
  size (sd_partition_assignments (sm_state (apply (λ _, 5) replayed_log m').2)) = 0%nat.
Proof. split_and!; vm_compute; reflexivity. Qed.
End RaftLogDemo.
