(* ===== verification/ScalingManager.v ===== *)
(** * The scaling manager

    Model of [src/src/scaling/manager.rs]: adding and removing brokers as
    operations that run in spawned tasks.  A task is a program counter over the
    sections between its lock acquisitions, so that tasks and calls interleave
    in every way.  Of the controller only the decommissioning slots are used.
    The order of the broker map, times and generated identifiers are
    arguments. *)

From S2P Require Import Prelude Types Scaling Controller.
Local Open Scope Z_scope.

Inductive ScalingOperation :=
  | AddBrokers (broker_ids rack_ids : list string)
  | RemoveBroker (broker_id : string).
Inductive ScalingStatus :=
  | NotStarted
  | InProgress (started_at : Z) (progress : f64)
  | Completed (completed_at : Z)
  | Failed (error : RustMqError) (failed_at : Z).

(** [PartitionRebalancer] *)
Class PartitionRebalancer (R : Type) := {
  rb_plan : list BrokerLoad → gmap TopicPartition PartitionAssignment → R → Result RebalancePlan * R;
  rb_execute : RebalancePlan → gmap TopicPartition PartitionAssignment → R → Result unit * R;
}.
#[global] Hint Mode PartitionRebalancer ! : typeclass_instances.
Definition rebalancer_impl (order : list (TopicPartition * PartitionAssignment) → list (TopicPartition * PartitionAssignment))
    (operation_id : string) : PartitionRebalancer PartitionRebalancerImpl := {|
  rb_plan brokers assignments rb := (Ok (calculate_rebalance_plan order operation_id rb brokers assignments), rb);
  rb_execute plan _ rb := (Ok tt, execute_rebalance plan rb);
|}.

(** Where a task is: the sections of [do_add_brokers] and [do_remove_broker]
    with what surrounds them in the spawned block. *)
Inductive AddPc :=
  | AddStart | AddInsert (i : nat) | AddInserted (i : nat) | AddHealth (i : nat) | AddPlan
  | AddPlanned (plan : RebalancePlan) | AddExecute (plan : RebalancePlan) | AddExecuted
  | AddFinish (r : Result unit) | AddDone.
Inductive RemovePc :=
  | RmStart | RmDrain | RmPlan | RmPlanned (plan : RebalancePlan) | RmExecute (plan : RebalancePlan)
  | RmExecuted | RmRemove | RmRelease (r : Result unit) | RmFinish (r : Result unit) | RmDone.
(** [slot] says whether the removal holds a decommissioning slot. *)
Inductive Task :=
  | AddTask (broker_ids rack_ids : list string) (pc : AddPc)
  | RemoveTask (broker_id : string) (slot : bool) (pc : RemovePc).

Record ScalingManagerImpl (R : Type) := mkScaling {
  sx_max_concurrent_additions : Z;
  sx_operations : gmap string ScalingOperation;
  sx_operation_status : gmap string ScalingStatus;
  sx_brokers : gmap string BrokerLoad;
  sx_rebalancer : R;
  sx_controller : option DecommissionSlotManager;
  sx_tasks : gmap string Task;
}.
Arguments mkScaling {R}. Arguments sx_max_concurrent_additions {R}. Arguments sx_operations {R}.
Arguments sx_operation_status {R}. Arguments sx_brokers {R}. Arguments sx_rebalancer {R}.
Arguments sx_controller {R}. Arguments sx_tasks {R}.

Section manager.
Context {R : Type} `{!PartitionRebalancer R}.
Context (order : list (string * BrokerLoad) → list (string * BrokerLoad)).
Abbreviation Manager := (ScalingManagerImpl R).

Definition scaling_new (max_additions : Z) (rebalancer : R) (controller : option DecommissionSlotManager) : Manager :=
  mkScaling max_additions ∅ ∅ ∅ rebalancer controller ∅.

Definition with_status (st : gmap string ScalingStatus) (s : Manager) : Manager :=
  mkScaling (sx_max_concurrent_additions s) (sx_operations s) st (sx_brokers s) (sx_rebalancer s) (sx_controller s) (sx_tasks s).
Definition with_brokers (bs : gmap string BrokerLoad) (s : Manager) : Manager :=
  mkScaling (sx_max_concurrent_additions s) (sx_operations s) (sx_operation_status s) bs (sx_rebalancer s) (sx_controller s) (sx_tasks s).
Definition with_rebalancer (r : R) (s : Manager) : Manager :=
  mkScaling (sx_max_concurrent_additions s) (sx_operations s) (sx_operation_status s) (sx_brokers s) r (sx_controller s) (sx_tasks s).
Definition with_controller (c : option DecommissionSlotManager) (s : Manager) : Manager :=
  mkScaling (sx_max_concurrent_additions s) (sx_operations s) (sx_operation_status s) (sx_brokers s) (sx_rebalancer s) c (sx_tasks s).
Definition with_task (id : string) (t : Task) (s : Manager) : Manager :=
  mkScaling (sx_max_concurrent_additions s) (sx_operations s) (sx_operation_status s) (sx_brokers s) (sx_rebalancer s)
    (sx_controller s) (<[id := t]> (sx_tasks s)).

Definition set_status (id : string) (status : ScalingStatus) (s : Manager) : Manager :=
  with_status (<[id := status]> (sx_operation_status s)) s.
(** [*p = progress] if the operation is in progress *)
Definition set_progress (id : string) (p : f64) (s : Manager) : Manager :=
  match sx_operation_status s !! id with
  | Some (InProgress started _) => set_status id (InProgress started p) s
  | _ => s
  end.
Definition final_status (now : Z) (r : Result unit) : ScalingStatus :=
  match r with Ok _ => Completed now | Err e => Failed e now end.
Definition set_broker_status (id : string) (status : BrokerStatus) (bs : gmap string BrokerLoad) : gmap string BrokerLoad :=
  alter (λ b, mkBrokerLoad (bl_id b) (bl_rack_id b) (bl_endpoints b) status (bl_load_metrics b)) id bs.
(** The plan is computed and executed with an empty map of assignments. *)
Definition plan_rebalance (s : Manager) : Result RebalancePlan * Manager :=
  let '(r, rb) := rb_plan (order (map_to_list (sx_brokers s))).*2 ∅ (sx_rebalancer s) in (r, with_rebalancer rb s).
Definition run_rebalance (plan : RebalancePlan) (s : Manager) : Result unit * Manager :=
  let '(r, rb) := rb_execute plan ∅ (sx_rebalancer s) in (r, with_rebalancer rb s).

(** [base + 0.25 * (i + 1) / n] *)
Definition quarter (i n : nat) : f64 :=
  f64_div (f64_mul (f64_lit 25 100) (f64_of_Z (Z.of_nat (S i)))) (f64_of_Z (Z.of_nat n)).

Definition add_step (now : Z) (id : string) (broker_ids rack_ids : list string) (pc : AddPc) (s : Manager) : AddPc * Manager :=
  match pc with
  | AddStart => (AddInsert 0, set_status id (InProgress now f64_zero) s)
  | AddInsert i =>
      match zip broker_ids rack_ids !! i with
      | Some (broker_id, rack_id) =>
          let info := mkBrokerLoad broker_id rack_id [broker_id +:+ ":9092"] Healthy default_load in
          (AddInserted i, with_brokers (<[broker_id := info]> (sx_brokers s)) s)
      | None => (AddHealth 0, s)
      end
  | AddInserted i => (AddInsert (S i), set_progress id (quarter i (length broker_ids)) s)
  | AddHealth i =>
      match broker_ids !! i with
      | Some _ => (AddHealth (S i), set_progress id (f64_add (f64_lit 25 100) (quarter i (length broker_ids))) s)
      | None => (AddPlan, s)
      end
  | AddPlan =>
      match plan_rebalance s with
      | (Ok plan, s) => (AddPlanned plan, s)
      | (Err e, s) => (AddFinish (Err e), s)
      end
  | AddPlanned plan => (AddExecute plan, set_progress id (f64_lit 75 100) s)
  | AddExecute plan =>
      match run_rebalance plan s with
      | (Ok _, s) => (AddExecuted, s)
      | (Err e, s) => (AddFinish (Err e), s)
      end
  | AddExecuted => (AddFinish (Ok tt), set_progress id (f64_of_Z 1) s)
  | AddFinish r => (AddDone, set_status id (final_status now r) s)
  | AddDone => (AddDone, s)
  end.

Definition remove_step (now : Z) (id broker_id : string) (slot : bool) (pc : RemovePc) (s : Manager) : RemovePc * Manager :=
  match pc with
  | RmStart => (RmDrain, set_status id (InProgress now f64_zero) s)
  | RmDrain =>
      match sx_brokers s !! broker_id with
      | Some _ => (RmPlan, set_progress id (f64_lit 20 100) (with_brokers (set_broker_status broker_id Draining (sx_brokers s)) s))
      | None => (RmRelease (Err Storage), s)
      end
  | RmPlan =>
      match plan_rebalance s with
      | (Ok plan, s) => (RmPlanned plan, s)
      | (Err e, s) => (RmRelease (Err e), s)
      end
  | RmPlanned plan => (RmExecute plan, set_progress id (f64_lit 40 100) s)
  | RmExecute plan =>
      match run_rebalance plan s with
      | (Ok _, s) => (RmExecuted, s)
      | (Err e, s) => (RmRelease (Err e), s)
      end
  | RmExecuted => (RmRemove, set_progress id (f64_lit 80 100) s)
  | RmRemove => (RmRelease (Ok tt), set_progress id (f64_of_Z 1) (with_brokers (delete broker_id (sx_brokers s)) s))
  | RmRelease r =>
      (RmFinish r,
       match sx_controller s with
       | Some slots => if slot then with_controller (Some (release_slot id slots).2) s else s
       | None => s
       end)
  | RmFinish r => (RmDone, set_status id (final_status now r) s)
  | RmDone => (RmDone, s)
  end.

Definition task_step (now : Z) (id : string) (s : Manager) : Manager :=
  match sx_tasks s !! id with
  | Some (AddTask ids racks pc) => let '(pc, s) := add_step now id ids racks pc s in with_task id (AddTask ids racks pc) s
  | Some (RemoveTask b slot pc) => let '(pc, s) := remove_step now id b slot pc s in with_task id (RemoveTask b slot pc) s
  | None => s
  end.

(** ** Calls *)

Definition validate_add_brokers (broker_ids : list string) (s : Manager) : Result unit :=
  if sx_max_concurrent_additions s <? Z.of_nat (length broker_ids) then Err InvalidConfig
  else if existsb (λ b, bool_decide (is_Some (sx_brokers s !! b))) broker_ids then Err InvalidConfig
  else Ok tt.
(** Register the operation and spawn its task. *)
Definition spawn (id : string) (op : ScalingOperation) (t : Task) (s : Manager) : Manager :=
  mkScaling (sx_max_concurrent_additions s) (<[id := op]> (sx_operations s)) (<[id := NotStarted]> (sx_operation_status s))
    (sx_brokers s) (sx_rebalancer s) (sx_controller s) (<[id := t]> (sx_tasks s)).
Definition add_commit (id : string) (broker_ids rack_ids : list string) (s : Manager) : Manager :=
  spawn id (AddBrokers broker_ids rack_ids) (AddTask broker_ids rack_ids AddStart) s.
Definition add_brokers (uuid : string) (broker_ids rack_ids : list string) (s : Manager) : Result string * Manager :=
  if negb (length broker_ids =? length rack_ids)%nat then (Err InvalidConfig, s)
  else match validate_add_brokers broker_ids s with
       | Err e => (Err e, s)
       | Ok _ => (Ok uuid, add_commit uuid broker_ids rack_ids s)
       end.

(** The part of [remove_broker] after its checks: that the broker exists, and,
    in [acquire_slot], that it holds no slot.  The locks of the checks are
    released by then, so other calls may have run since. *)
Definition remove_take (uuid token : string) (now : Z) (broker_id : string) (s : Manager) : Result string * Manager :=
  match sx_controller s with
  | Some slots =>
      match take_slot uuid token now broker_id "scaling-manager" slots with
      | (Err e, slots) => (Err e, with_controller (Some slots) s)
      | (Ok acq, slots) =>
          let id := sa_operation_id acq in
          (Ok id, spawn id (RemoveBroker broker_id) (RemoveTask broker_id true RmStart) (with_controller (Some slots) s))
      end
  | None => (Ok uuid, spawn uuid (RemoveBroker broker_id) (RemoveTask broker_id false RmStart) s)
  end.
Definition remove_broker (uuid token : string) (now : Z) (broker_id : string) (s : Manager) : Result string * Manager :=
  match sx_brokers s !! broker_id with
  | None => (Err InvalidConfig, s)
  | Some _ =>
      if default false (is_active broker_id <$> sx_controller s) then (Err InvalidOperation, s)
      else remove_take uuid token now broker_id s
  end.

Definition get_scaling_status (id : string) (s : Manager) : Result ScalingStatus := ok_or (sx_operation_status s !! id) Storage.
Definition list_brokers (s : Manager) : list BrokerLoad := (order (map_to_list (sx_brokers s))).*2.
Definition health_check_broker (id : string) (s : Manager) : bool :=
  match sx_brokers s !! id with Some b => bool_decide (bl_status b = Healthy) | None => false end.
Definition rebalance_partitions (s : Manager) : Result unit * Manager :=
  match plan_rebalance s with
  | (Ok plan, s) => run_rebalance plan s
  | (Err e, s) => (Err e, s)
  end.
End manager.

(** ** Interleavings *)

Section runs.
Context {R : Type} `{!PartitionRebalancer R} (order : list (string * BrokerLoad) → list (string * BrokerLoad)).
Implicit Types (s : ScalingManagerImpl R) (id : string) (t : Task).

(** What can happen next: a task takes a step, a call commits (whatever its
    checks, which date from earlier states, have seen), another client of the
    controller takes (likewise) or releases a slot, the cleanup task runs. *)
Inductive Event :=
  | EvStep (now : Z) (id : string)
  | EvAdd (uuid : string) (broker_ids rack_ids : list string)
  | EvRemove (uuid token : string) (now : Z) (broker_id : string)
  | EvRebalance
  | EvAcquire (operation_id token : string) (now : Z) (broker_id requester : string)
  | EvRelease (operation_id : string)
  | EvCleanup (now : Z).
Definition on_slots (f : DecommissionSlotManager → DecommissionSlotManager) s : ScalingManagerImpl R :=
  with_controller (f <$> sx_controller s) s.
Definition run_event (e : Event) s : ScalingManagerImpl R :=
  match e with
  | EvStep now id => task_step order now id s
  | EvAdd uuid ids racks => add_commit uuid ids racks s
  | EvRemove uuid token now b => (remove_take uuid token now b s).2
  | EvRebalance => (rebalance_partitions order s).2
  | EvAcquire id token now b r => on_slots (λ d, (take_slot id token now b r d).2) s
  | EvRelease id => on_slots (λ d, (release_slot id d).2) s
  | EvCleanup now => on_slots (cleanup_slots now) s
  end.
Definition run_events (es : list Event) s : ScalingManagerImpl R := foldl (λ s e, run_event e s) s es.

(** Generated identifiers are new, others do not release the slots of tasks,
    and no slot of a task expires (a removal ends within the hour its slot
    lasts). *)
Definition fresh_id id s : Prop :=
  sx_tasks s !! id = None ∧ ∀ d, sx_controller s = Some d → dm_active d !! id = None.
Definition event_ok (e : Event) s : Prop :=
  match e with
  | EvAdd id _ _ | EvRemove id _ _ _ | EvAcquire id _ _ _ _ => fresh_id id s
  | EvRelease id => sx_tasks s !! id = None
  | EvCleanup now => ∀ d id slot, sx_controller s = Some d → dm_active d !! id = Some slot →
      slot_expired now slot = true → sx_tasks s !! id = None
  | _ => True
  end.
(** The check that the broker holds no slot is still true when the slot is
    taken: no other acquisition for the broker has come in between. *)
Definition event_checked (e : Event) s : Prop :=
  match e with
  | EvRemove _ _ _ b | EvAcquire _ _ _ b _ => ∀ d, sx_controller s = Some d → is_active b d = false
  | _ => True
  end.
Fixpoint events_checked (es : list Event) s : Prop :=
  match es with [] => True | e :: es => event_checked e s ∧ events_checked es (run_event e s) end.
Fixpoint events_ok (es : list Event) s : Prop :=
  match es with [] => True | e :: es => event_ok e s ∧ events_ok es (run_event e s) end.

(** *** The status of an operation is where its task is *)

Definition started t : bool := match t with AddTask _ _ AddStart | RemoveTask _ _ RmStart => false | _ => true end.
Definition finished t : bool := match t with AddTask _ _ AddDone | RemoveTask _ _ RmDone => true | _ => false end.
Definition status_of t (st : ScalingStatus) : Prop :=
  match st with
  | NotStarted => started t = false
  | InProgress _ _ => started t = true ∧ finished t = false
  | Completed _ | Failed _ _ => finished t = true
  end.
(** A removal that holds a slot and has not released it *)
Definition holds_slot t : option string :=
  match t with
  | RemoveTask b true (RmFinish _ | RmDone) => None
  | RemoveTask b true _ => Some b
  | _ => None
  end.

Record coherent s : Prop := {
  co_status id : match sx_tasks s !! id, sx_operation_status s !! id with
                 | Some t, Some st => status_of t st
                 | None, None => True
                 | _, _ => False
                 end;
  co_slot id t b : sx_tasks s !! id = Some t → holds_slot t = Some b →
    ∃ d slot, sx_controller s = Some d ∧ dm_active d !! id = Some slot ∧ ds_broker_id slot = b;
}.

(** A change that only touches the status of one operation, and keeps the task
    map and the controller *)
Record own_change id s s' : Prop := {
  oc_tasks : sx_tasks s' = sx_tasks s;
  oc_controller : sx_controller s' = sx_controller s;
  oc_status k : k ≠ id → sx_operation_status s' !! k = sx_operation_status s !! k;
}.
Lemma own_refl id s : own_change id s s.
Proof. done. Qed.
Lemma own_set_status id st s : own_change id s (set_status id st s).
Proof. split; try done. intros k Hk. simpl. by rewrite lookup_insert_ne. Qed.
Lemma own_set_progress id p s : own_change id s (set_progress id p s).
Proof. unfold set_progress. destruct (_ !! id) as [[]|]; [apply own_refl|apply own_set_status|apply own_refl..]. Qed.
Lemma progress_status id p s t st :
  sx_operation_status s !! id = Some st → started t = true → finished t = false → status_of t st →
  ∃ st', sx_operation_status (set_progress id p s) !! id = Some st' ∧ status_of t st'.
Proof.
  intros E Hst Hfi Hs. unfold set_progress. rewrite E. destruct st as [|t0 p0| |]; simpl in Hs; try congruence.
  exists (InProgress t0 p). simpl. by rewrite lookup_insert_eq.
Qed.

(** Whatever a rebalancer does, it is outside. *)
Lemma plan_frame s r s' : plan_rebalance order s = (r, s') → own_change EmptyString s s' ∧ sx_operation_status s' = sx_operation_status s.
Proof. unfold plan_rebalance. destruct (rb_plan _ _ _). by intros [= <- <-]. Qed.
Lemma rebalance_frame plan s r s' : run_rebalance plan s = (r, s') → own_change EmptyString s s' ∧ sx_operation_status s' = sx_operation_status s.
Proof. unfold run_rebalance. destruct (rb_execute _ _ _). by intros [= <- <-]. Qed.

Ltac step_done E := injection E as <- <-.

Lemma add_step_own now id ids racks pc s pc' s' st :
  add_step order now id ids racks pc s = (pc', s') → sx_operation_status s !! id = Some st →
  status_of (AddTask ids racks pc) st →
  own_change id s s' ∧ ∃ st', sx_operation_status s' !! id = Some st' ∧ status_of (AddTask ids racks pc') st'.
Proof.
  intros E Hst Hs. destruct pc as [|i|i|i| |plan|plan| |r|]; simpl in E.
  - step_done E. split; [apply own_set_status|]. simpl. rewrite lookup_insert_eq. by eexists.
  - destruct (zip ids racks !! i) as [[b rack]|]; step_done E; (split; [done|]); exists st; by destruct st.
  - step_done E. split; [apply own_set_progress|]. eapply progress_status; try done; by destruct st.
  - destruct (ids !! i); step_done E.
    + split; [apply own_set_progress|]. eapply progress_status; try done; by destruct st.
    + split; [done|]. exists st. by destruct st.
  - destruct (plan_rebalance order s) as [[plan|e] s1] eqn:Ep; destruct (plan_frame _ _ _ Ep) as [[] Es]; step_done E;
      (split; [split; congruence|]); exists st; rewrite Es; by destruct st.
  - step_done E. split; [apply own_set_progress|]. eapply progress_status; try done; by destruct st.
  - destruct (run_rebalance plan s) as [[|e] s1] eqn:Ep; destruct (rebalance_frame _ _ _ _ Ep) as [[] Es]; step_done E;
      (split; [split; congruence|]); exists st; rewrite Es; by destruct st.
  - step_done E. split; [apply own_set_progress|]. eapply progress_status; try done; by destruct st.
  - step_done E. split; [apply own_set_status|]. simpl. rewrite lookup_insert_eq. eexists; split; [done|]. by destruct r.
  - step_done E. split; [done|]. eauto.
Qed.

(** A removal changes the slots only when it releases its own. *)
Definition releases id (slot : bool) (pc : RemovePc) (c : option DecommissionSlotManager) : option DecommissionSlotManager :=
  match pc with RmRelease _ => if slot then (λ d, (release_slot id d).2) <$> c else c | _ => c end.
Lemma remove_step_own now id b slot pc s pc' s' st :
  remove_step order now id b slot pc s = (pc', s') → sx_operation_status s !! id = Some st →
  status_of (RemoveTask b slot pc) st →
  sx_tasks s' = sx_tasks s ∧ sx_controller s' = releases id slot pc (sx_controller s) ∧
  (∀ k, k ≠ id → sx_operation_status s' !! k = sx_operation_status s !! k) ∧
  ∃ st', sx_operation_status s' !! id = Some st' ∧ status_of (RemoveTask b slot pc') st'.
Proof.
  intros E Hst Hs. destruct pc as [| | |plan|plan| | |r|r|]; simpl in E.
  - step_done E. destruct (own_set_status id (InProgress now f64_zero) s). split_and!; try done. simpl. rewrite lookup_insert_eq. by eexists.
  - destruct (sx_brokers s !! b); step_done E.
    + set (s1 := with_brokers _ s). destruct (own_set_progress id (f64_lit 20 100) s1). split_and!; try done.
      eapply (progress_status id _ s1); try done; by destruct st.
    + split_and!; try done. exists st. by destruct st.
  - destruct (plan_rebalance order s) as [[plan|e] s1] eqn:Ep; destruct (plan_frame _ _ _ Ep) as [[] Es]; step_done E;
      rewrite Es; (split_and!; try done); exists st; by destruct st.
  - step_done E. destruct (own_set_progress id (f64_lit 40 100) s). split_and!; try done.
    eapply progress_status; try done; by destruct st.
  - destruct (run_rebalance plan s) as [[|e] s1] eqn:Ep; destruct (rebalance_frame _ _ _ _ Ep) as [[] Es]; step_done E;
      rewrite Es; (split_and!; try done); exists st; by destruct st.
  - step_done E. destruct (own_set_progress id (f64_lit 80 100) s). split_and!; try done.
    eapply progress_status; try done; by destruct st.
  - step_done E. set (s1 := with_brokers _ s). destruct (own_set_progress id (f64_of_Z 1) s1). split_and!; try done.
    eapply (progress_status id _ s1); try done; by destruct st.
  - step_done E. destruct (sx_controller s) as [d|] eqn:Ec; destruct slot; simpl; split_and!; try done; exists st; by destruct st.
  - step_done E. destruct (own_set_status id (final_status now r) s). split_and!; try done. simpl. rewrite lookup_insert_eq.
    eexists; split; [done|]. by destruct r.
  - step_done E. split_and!; try done. eauto.
Qed.

(** *** Tasks and slots agree in every interleaving *)

(** The controller keeps the slots that do not belong to [id]. *)
Definition keeps_slots (P : string → Prop) (c c' : option DecommissionSlotManager) : Prop :=
  ∀ k d slot, P k → c = Some d → dm_active d !! k = Some slot → ∃ d', c' = Some d' ∧ dm_active d' !! k = Some slot.
Definition slots_ok (limit : Z) (c : option DecommissionSlotManager) : Prop := ∀ d, c = Some d → slots_count d limit.
Definition distinct_ok (c : option DecommissionSlotManager) : Prop := ∀ d, c = Some d → slots_distinct d.

Lemma release_keeps id c : keeps_slots (λ k, k ≠ id) c ((λ d, (release_slot id d).2) <$> c).
Proof.
  intros k d slot Hk -> Hd. eexists; split; [done|]. unfold release_slot.
  destruct (dm_active d !! id); simpl; [by rewrite lookup_delete_ne|done].
Qed.
Lemma take_keeps id token now b r c :
  (∀ d, c = Some d → dm_active d !! id = None) →
  keeps_slots (λ _, True) c ((λ d, (take_slot id token now b r d).2) <$> c).
Proof.
  intros Hfresh k d slot _ -> Hd. eexists; split; [done|]. unfold take_slot.
  destruct (_ <=? _); [done|]. simpl.
  rewrite lookup_insert_ne; [done|]. intros <-. by rewrite (Hfresh d) in Hd.
Qed.
Lemma release_slots_ok id limit c : slots_ok limit c → slots_ok limit ((λ d, (release_slot id d).2) <$> c).
Proof.
  intros Hok d' (d & -> & ->)%fmap_Some. by apply release_slot_count, Hok.
Qed.
Lemma take_slots_ok id token now b r limit c :
  (∀ d, c = Some d → dm_active d !! id = None) →
  slots_ok limit c → slots_ok limit ((λ d, (take_slot id token now b r d).2) <$> c).
Proof. intros Hfresh Hok d' (d & -> & ->)%fmap_Some. apply take_slot_count; [by apply Hfresh|by apply Hok]. Qed.
(** The cleanup keeps what has not expired. *)
Lemma cleanup_keeps now c :
  keeps_slots (λ k, ∀ d slot, c = Some d → dm_active d !! k = Some slot → slot_expired now slot = false)
    c (cleanup_slots now <$> c).
Proof.
  intros k d slot Hk -> Hd. eexists; split; [done|]. simpl. apply map_lookup_filter_Some. split; [done|].
  by apply (Hk d).
Qed.

(** One operation moves on, the others keep their status and their slots. *)
Lemma coherent_update id t st s s' :
  coherent s → sx_tasks s' = <[id := t]> (sx_tasks s) →
  sx_operation_status s' !! id = Some st → status_of t st →
  (∀ k, k ≠ id → sx_operation_status s' !! k = sx_operation_status s !! k) →
  keeps_slots (λ k, k ≠ id) (sx_controller s) (sx_controller s') →
  (∀ b, holds_slot t = Some b →
     ∃ d slot, sx_controller s' = Some d ∧ dm_active d !! id = Some slot ∧ ds_broker_id slot = b) →
  coherent s'.
Proof.
  intros [Hs Hb] Et Est Hst Hother Hk Hhold. split.
  - intros k. rewrite Et. destruct (decide (k = id)) as [->|Hne].
    + by rewrite lookup_insert_eq, Est.
    + rewrite lookup_insert_ne, Hother by done. apply Hs.
  - intros k t' b'. rewrite Et, lookup_insert_Some. intros [[<- <-]|[Hne Hk']] Hh; [by apply Hhold|].
    destruct (Hb k t' b' Hk' Hh) as (d & slot & Hc & Hd & Hbr).
    destruct (Hk k d slot ltac:(done) Hc Hd) as (d' & Hc' & Hd'). by exists d', slot.
Qed.
Lemma coherent_slots s c :
  coherent s → keeps_slots (λ k, is_Some (sx_tasks s !! k)) (sx_controller s) c → coherent (with_controller c s).
Proof.
  intros [Hs Hb] Hk. split; [exact Hs|]. intros k t b Ht Hh. simpl in *.
  destruct (Hb k t b Ht Hh) as (d & slot & Hc & Hd & Hbr).
  destruct (Hk k d slot ltac:(by eexists) Hc Hd) as (d' & Hc' & Hd'). by exists d', slot.
Qed.
Lemma coherent_status s id t : coherent s → sx_tasks s !! id = Some t → ∃ st, sx_operation_status s !! id = Some st ∧ status_of t st.
Proof. intros [Hs _] Et. specialize (Hs id). rewrite Et in Hs. destruct (_ !! id) as [st|]; [eauto|done]. Qed.

(** A removal still holds its slot after a step that does not release it. *)
Lemma holds_after now id b slot pc s pc' s' b' :
  remove_step order now id b slot pc s = (pc', s') → holds_slot (RemoveTask b slot pc') = Some b' →
  holds_slot (RemoveTask b slot pc) = Some b' ∧ releases id slot pc (sx_controller s) = sx_controller s.
Proof.
  intros E Hh. destruct slot; [|done]. destruct pc; simpl in E |- *; repeat case_match; simplify_eq/=; done.
Qed.

Lemma task_step_coherent limit now id s :
  coherent s → slots_ok limit (sx_controller s) →
  coherent (task_step order now id s) ∧ slots_ok limit (sx_controller (task_step order now id s)).
Proof.
  intros Hco Hok. unfold task_step. destruct (sx_tasks s !! id) as [t|] eqn:Et; [|done].
  destruct (coherent_status _ _ _ Hco Et) as (st & Est & Hst). destruct t as [ids racks pc|b slot pc].
  - destruct (add_step order now id ids racks pc s) as [pc' s'] eqn:E.
    destruct (add_step_own _ _ _ _ _ _ _ _ _ E Est Hst) as ([Ht Hc Ho] & st' & Est' & Hst').
    split; [|simpl; by rewrite Hc]. eapply coherent_update; [exact Hco|simpl; by rewrite Ht|exact Est'|done|done| |done].
    intros k d sl _ Hd Hk. simpl. rewrite Hc. eauto.
  - destruct (remove_step order now id b slot pc s) as [pc' s'] eqn:E.
    destruct (remove_step_own _ _ _ _ _ _ _ _ _ E Est Hst) as (Ht & Hc & Ho & st' & Est' & Hst'). split.
    + eapply coherent_update; [exact Hco|simpl; by rewrite Ht|exact Est'|done|done| |].
      * simpl. rewrite Hc. destruct pc; simpl; try (intros ?????; by eauto).
        destruct slot; [apply release_keeps|intros ?????; by eauto].
      * intros b' Hh. destruct (holds_after _ _ _ _ _ _ _ _ _ E Hh) as [Hh0 Er]. simpl. rewrite Hc, Er.
        by apply (co_slot _ Hco id _ b' Et).
    + simpl. rewrite Hc. destruct pc; simpl; try done. destruct slot; [by apply release_slots_ok|done].
Qed.

Lemma spawn_coherent id op t s :
  coherent s → started t = false →
  (∀ b, holds_slot t = Some b →
     ∃ d slot, sx_controller s = Some d ∧ dm_active d !! id = Some slot ∧ ds_broker_id slot = b) →
  coherent (spawn id op t s).
Proof.
  intros Hco Hst Hh. eapply (coherent_update id t NotStarted s); try done.
  - simpl. by rewrite lookup_insert_eq.
  - intros k Hk. simpl. by rewrite lookup_insert_ne.
  - intros k d slot _ Hd Hk. simpl. eauto.
Qed.
Lemma taken_slot id token now b r d acq :
  (take_slot id token now b r d).1 = Ok acq →
  sa_operation_id acq = id ∧ dm_active (take_slot id token now b r d).2 !! id = Some (mkSlot id b now (now + 3600) r).
Proof.
  unfold take_slot. destruct (_ <=? _); [done|]. simpl.
  intros [= <-]. by rewrite lookup_insert_eq.
Qed.

Lemma remove_take_coherent limit uuid token now b s :
  coherent s → slots_ok limit (sx_controller s) → fresh_id uuid s →
  coherent (remove_take uuid token now b s).2 ∧ slots_ok limit (sx_controller (remove_take uuid token now b s).2).
Proof.
  intros Hco Hok [Hnew Hfresh]. unfold remove_take. destruct (sx_controller s) as [d|] eqn:Ec; simpl.
  - pose proof (take_keeps uuid token now b "scaling-manager" _ Hfresh) as Hk.
    pose proof (take_slots_ok uuid token now b "scaling-manager" limit _ Hfresh Hok) as Hok'. simpl in Hk, Hok'.
    pose proof (taken_slot uuid token now b "scaling-manager" d) as Hacq.
    destruct (take_slot _ _ _ _ _ d) as [[acq|e] d'] eqn:Ea; simpl in *.
    + destruct (Hacq acq eq_refl) as [-> Hslot]. split; [|done]. apply spawn_coherent; [|done|].
      * apply coherent_slots; [done|]. rewrite Ec. intros k d0 slot _. by apply Hk.
      * simpl. intros b' [= <-]. eauto.
    + split; [|done]. apply coherent_slots; [done|]. rewrite Ec. intros k d0 slot _. by apply Hk.
  - split; [by apply spawn_coherent|]. simpl. by rewrite Ec.
Qed.

Lemma rebalance_partitions_frame s :
  let s' := (rebalance_partitions order s).2 in
  sx_tasks s' = sx_tasks s ∧ sx_operation_status s' = sx_operation_status s ∧ sx_controller s' = sx_controller s.
Proof.
  unfold rebalance_partitions. destruct (plan_rebalance order s) as [[plan|e] s1] eqn:Ep;
    destruct (plan_frame _ _ _ Ep) as [[] Es]; [|done].
  destruct (run_rebalance plan s1) as [r s2] eqn:Er. destruct (rebalance_frame _ _ _ _ Er) as [[] Es2]. simpl. split_and!; congruence.
Qed.
Lemma coherent_frame s s' :
  sx_tasks s' = sx_tasks s → sx_operation_status s' = sx_operation_status s → sx_controller s' = sx_controller s →
  coherent s → coherent s'.
Proof. intros Et Est Ec [Hs Hb]. split; rewrite Et; [by rewrite Est|by rewrite Ec]. Qed.

Lemma run_event_inv limit e s :
  coherent s → slots_ok limit (sx_controller s) → event_ok e s →
  coherent (run_event e s) ∧ slots_ok limit (sx_controller (run_event e s)).
Proof.
  intros Hco Hok. destruct e as [now id|id ids racks|id token now b| |id token now b r|id|now]; simpl.
  - intros _. by apply task_step_coherent.
  - intros _. split; [by apply spawn_coherent|done].
  - by apply remove_take_coherent.
  - intros _. destruct (rebalance_partitions_frame s) as (Et & Est & Ec).
    split; [by eapply coherent_frame|by rewrite Ec].
  - intros [_ Hf]. split; [|by apply take_slots_ok]. apply coherent_slots; [done|]. intros k d slot _. by apply take_keeps.
  - intros Hn. split; [|by apply release_slots_ok]. apply coherent_slots; [done|]. intros k d slot [t Hk].
    apply release_keeps. intros ->. congruence.
  - intros Hn. split; [|intros d' (d & Hc & ->)%fmap_Some; by apply cleanup_slots_count, Hok].
    apply coherent_slots; [done|]. intros k d slot [t Hk]. apply cleanup_keeps. intros d0 slot0 Hd0 Hs0.
    apply not_true_is_false. intros He. specialize (Hn d0 k slot0 Hd0 Hs0 He). congruence.
Qed.
(** With checks that still hold when they are acted upon, no broker holds two
    slots. *)
Lemma remove_step_distinct now id b slot pc s :
  distinct_ok (sx_controller s) → distinct_ok (sx_controller (remove_step order now id b slot pc s).2).
Proof.
  intros Hd. destruct pc as [| | |plan|plan| | |r|r|]; simpl; try done.
  - destruct (sx_brokers s !! b); [|done]. cbn [snd]. by rewrite (oc_controller _ _ _ (own_set_progress _ _ _)).
  - destruct (plan_rebalance order s) as [[] s1] eqn:E; destruct (plan_frame _ _ _ E) as [[_ Hc _] _]; simpl; by rewrite Hc.
  - by rewrite (oc_controller _ _ _ (own_set_progress _ _ _)).
  - destruct (run_rebalance plan s) as [[] s1] eqn:E; destruct (rebalance_frame _ _ _ _ E) as [[_ Hc _] _]; simpl; by rewrite Hc.
  - by rewrite (oc_controller _ _ _ (own_set_progress _ _ _)).
  - by rewrite (oc_controller _ _ _ (own_set_progress _ _ _)).
  - destruct (sx_controller s) as [d|] eqn:Ec; [|by rewrite Ec]. destruct slot; [|by rewrite Ec].
    simpl. intros d' [= <-]. by apply release_slot_distinct, Hd.
Qed.
Lemma add_step_controller now id ids racks pc s : sx_controller (add_step order now id ids racks pc s).2 = sx_controller s.
Proof.
  destruct pc as [|i|i|i| |plan|plan| |r|]; simpl; try done; try apply (oc_controller _ _ _ (own_set_progress _ _ _)).
  - by destruct (zip ids racks !! i) as [[]|].
  - destruct (ids !! i); [apply (oc_controller _ _ _ (own_set_progress _ _ _))|done].
  - by destruct (plan_rebalance order s) as [[] s1] eqn:E; destruct (plan_frame _ _ _ E) as [[_ Hc _] _].
  - by destruct (run_rebalance plan s) as [[] s1] eqn:E; destruct (rebalance_frame _ _ _ _ E) as [[_ Hc _] _].
Qed.
Lemma run_event_distinct e s :
  distinct_ok (sx_controller s) → event_checked e s → distinct_ok (sx_controller (run_event e s)).
Proof.
  intros Hd. destruct e as [now id|id ids racks|id token now b| |id token now b r|id|now]; simpl.
  - intros _. unfold task_step. destruct (sx_tasks s !! id) as [[ids racks pc|b slot pc]|]; [| |done].
    + pose proof (add_step_controller now id ids racks pc s) as Hc. destruct (add_step _ _ _ _ _ _ _). simpl in *. by rewrite Hc.
    + pose proof (remove_step_distinct now id b slot pc s Hd) as Hr. by destruct (remove_step _ _ _ _ _ _ _).
  - done.
  - intros Hch. unfold remove_take. destruct (sx_controller s) as [d|] eqn:Ec; [|simpl; by rewrite Ec].
    pose proof (take_slot_distinct id token now b "scaling-manager" d (Hch d eq_refl) (Hd d eq_refl)) as Ht.
    destruct (take_slot _ _ _ _ _ d) as [[acq|e] d']; simpl in *; by intros ? [= <-].
  - intros _. by destruct (rebalance_partitions_frame s) as (_ & _ & ->).
  - intros Hch d' (d & Ec & ->)%fmap_Some. apply take_slot_distinct; [by apply Hch|by apply Hd].
  - intros _ d' (d & Ec & ->)%fmap_Some. by apply release_slot_distinct, Hd.
  - intros _ d' (d & Ec & ->)%fmap_Some. by apply cleanup_slots_distinct, Hd.
Qed.
Lemma run_events_distinct es s :
  distinct_ok (sx_controller s) → events_checked es s → distinct_ok (sx_controller (run_events es s)).
Proof.
  revert s. induction es as [|e es IH]; intros s Hd; [done|]. simpl. intros [He Hes]. by apply IH; [apply run_event_distinct|].
Qed.
Lemma run_events_inv limit es s :
  coherent s → slots_ok limit (sx_controller s) → events_ok es s →
  coherent (run_events es s) ∧ slots_ok limit (sx_controller (run_events es s)).
Proof.
  revert s. induction es as [|e es IH]; intros s Hco Hok; [done|]. simpl. intros [He Hes].
  destruct (run_event_inv limit e s Hco Hok He). by apply IH.
Qed.

(** The removals that hold a slot *)
Definition running_removals s : gmap string string := omap holds_slot (sx_tasks s).

(** C22: Whatever additions, removals, rebalancing, other clients of the
    controller and its cleanup task do, and in whatever order their steps
    interleave (the two halves of an acquisition included), as long as
    generated identifiers are new, nobody else releases the slot of a removal and
    no removal outlives its slot: no more removals hold a slot than the limit
    allows; and the status of an operation says where its task is: not started, in
    progress, or completed or failed exactly when it has ended.  If moreover no
    two acquisitions for one broker overlap, so that each check still holds when
    the slot is taken, no two removals that hold a slot concern the same
    broker. *)
Theorem scaling_manager_safe max rb limit es s :
  0 ≤ limit → events_ok es (scaling_new max rb (Some (slots_new limit))) →
  run_events es (scaling_new max rb (Some (slots_new limit))) = s →
  Z.of_nat (size (running_removals s)) ≤ limit ∧
  (events_checked es (scaling_new max rb (Some (slots_new limit))) →
     ∀ o1 o2 b, running_removals s !! o1 = Some b → running_removals s !! o2 = Some b → o1 = o2) ∧
  (∀ id, match sx_tasks s !! id with
         | Some t => ∃ st, get_scaling_status id s = Ok st ∧ status_of t st
         | None => get_scaling_status id s = Err Storage
         end).
Proof.
  intros Hl Hes <-. set (s0 := scaling_new max rb (Some (slots_new limit))) in *.
  destruct (run_events_inv limit es s0) as [Hco Hok]; [|by intros d [= <-]; apply (si_count _ _ (slots_new_inv limit Hl))|done|].
  { by split; [intros id; simpl; rewrite !lookup_empty|intros id t b; simpl; rewrite lookup_empty]. }
  assert (Hdist : events_checked es s0 → distinct_ok (sx_controller (run_events es s0))).
  { apply run_events_distinct. intros d [= <-]. by apply slots_new_inv. }
  set (s := run_events es s0) in *. clearbody s.
  assert (Hrun : ∀ o b, running_removals s !! o = Some b →
    ∃ d slot, sx_controller s = Some d ∧ dm_active d !! o = Some slot ∧ ds_broker_id slot = b).
  { intros o b. unfold running_removals. rewrite lookup_omap, bind_Some. intros (t & Ht & Hh). by eapply co_slot. }
  split_and!.
  - destruct (sx_controller s) as [d|] eqn:Ec.
    + destruct (Hok d eq_refl) as [Hp Ht]. assert (size (running_removals s) ≤ size (dm_active d))%nat; [|lia].
      rewrite <- !size_dom. apply subseteq_size. intros o [b Hb]%elem_of_dom.
      destruct (Hrun o b Hb) as (d' & slot & [= <-] & Hd & _). apply elem_of_dom. by eexists.
    + assert (running_removals s = ∅) as ->; [|by rewrite map_size_empty]. apply map_empty. intros o.
      destruct (running_removals s !! o) as [b|] eqn:Eo; [|done]. by destruct (Hrun o b Eo) as (? & ? & ? & _).
  - intros Hch%Hdist o1 o2 b H1 H2. destruct (Hrun _ _ H1) as (d & s1 & Ec & Hs1 & Hb1), (Hrun _ _ H2) as (d' & s2 & Ec' & Hs2 & Hb2).
    assert (d' = d) as -> by congruence. apply (Hch d Ec o1 o2 s1 s2); congruence.
  - intros id. pose proof (co_status _ Hco id) as Hs. unfold get_scaling_status.
    destruct (sx_tasks s !! id), (sx_operation_status s !! id); simpl; try done. eauto.
Qed.

(** *** Operations end *)

(** The steps a task has still to take. *)
Definition steps_left t : nat :=
  match t with
  | AddTask ids racks pc =>
      let n := length ids in
      let m := length (zip ids racks) in
      match pc with
      | AddStart => 8 + n + 2 * m
      | AddInsert i => 7 + n + 2 * (m - i)
      | AddInserted i => 8 + n + 2 * (m - S i)
      | AddHealth i => 6 + (n - i)
      | AddPlan => 5
      | AddPlanned _ => 4
      | AddExecute _ => 3
      | AddExecuted => 2
      | AddFinish _ => 1
      | AddDone => 0
      end
  | RemoveTask _ _ pc =>
      match pc with
      | RmStart => 9
      | RmDrain => 8
      | RmPlan => 7
      | RmPlanned _ => 6
      | RmExecute _ => 5
      | RmExecuted => 4
      | RmRemove => 3
      | RmRelease _ => 2
      | RmFinish _ => 1
      | RmDone => 0
      end
  end%nat.
Definition own_step id (e : Event) : bool := match e with EvStep _ id' => bool_decide (id' = id) | _ => false end.
Definition own_steps id (es : list Event) : nat := length (filter (λ e, own_step id e = true) es).

Lemma add_step_left now id ids racks pc s pc' s' :
  add_step order now id ids racks pc s = (pc', s') →
  (steps_left (AddTask ids racks pc') ≤ pred (steps_left (AddTask ids racks pc)))%nat.
Proof.
  intros E. destruct pc as [|i|i|i| |plan|plan| |r|]; cbn [add_step] in E.
  - step_done E. cbn -[zip Nat.mul]. lia.
  - destruct (zip ids racks !! i) as [[b rack]|] eqn:Ez; step_done E; cbn -[zip Nat.mul]; [|lia].
    apply lookup_lt_Some in Ez. lia.
  - step_done E. cbn -[zip Nat.mul]. lia.
  - destruct (ids !! i) eqn:Ei; step_done E; simpl; [|lia]. apply lookup_lt_Some in Ei. lia.
  - destruct (plan_rebalance order s) as [[] s1]; step_done E; simpl; lia.
  - step_done E. simpl. lia.
  - destruct (run_rebalance plan s) as [[] s1]; step_done E; simpl; lia.
  - step_done E. simpl. lia.
  - step_done E. simpl. lia.
  - step_done E. simpl. lia.
Qed.
Lemma remove_step_left now id b slot pc s pc' s' :
  remove_step order now id b slot pc s = (pc', s') →
  (steps_left (RemoveTask b slot pc') ≤ pred (steps_left (RemoveTask b slot pc)))%nat.
Proof.
  intros E. destruct pc as [| | |plan|plan| | |r|r|]; cbn [remove_step] in E.
  - step_done E. simpl. lia.
  - destruct (sx_brokers s !! b); step_done E; simpl; lia.
  - destruct (plan_rebalance order s) as [[] s1]; step_done E; simpl; lia.
  - step_done E. simpl. lia.
  - destruct (run_rebalance plan s) as [[] s1]; step_done E; simpl; lia.
  - step_done E. simpl. lia.
  - step_done E. simpl. lia.
  - step_done E. simpl. lia.
  - step_done E. simpl. lia.
  - step_done E. simpl. lia.
Qed.

Lemma progress_tasks id p s : sx_tasks (set_progress id p s) = sx_tasks s.
Proof. by destruct (own_set_progress id p s). Qed.
Lemma plan_tasks s : sx_tasks (plan_rebalance order s).2 = sx_tasks s.
Proof. unfold plan_rebalance. by destruct (rb_plan _ _ _). Qed.
Lemma run_tasks plan s : sx_tasks (run_rebalance plan s).2 = sx_tasks s.
Proof. unfold run_rebalance. by destruct (rb_execute _ _ _). Qed.
Lemma add_step_tasks now id ids racks pc s : sx_tasks (add_step order now id ids racks pc s).2 = sx_tasks s.
Proof.
  destruct pc as [|i|i|i| |plan|plan| |r|]; cbn [add_step]; rewrite ?progress_tasks; try done.
  - by destruct (zip ids racks !! i) as [[]|].
  - cbn [snd]. apply progress_tasks.
  - destruct (ids !! i); [apply progress_tasks|done].
  - pose proof (plan_tasks s) as Hp. by destruct (plan_rebalance order s) as [[] s1].
  - apply progress_tasks.
  - pose proof (run_tasks plan s) as Hp. by destruct (run_rebalance plan s) as [[] s1].
  - apply progress_tasks.
Qed.
Lemma remove_step_tasks now id b slot pc s : sx_tasks (remove_step order now id b slot pc s).2 = sx_tasks s.
Proof.
  destruct pc as [| | |plan|plan| | |r|r|]; cbn [remove_step]; try done.
  - destruct (sx_brokers s !! b); [|done]. cbn [snd]. by rewrite progress_tasks.
  - pose proof (plan_tasks s) as Hp. by destruct (plan_rebalance order s) as [[] s1].
  - apply progress_tasks.
  - pose proof (run_tasks plan s) as Hp. by destruct (run_rebalance plan s) as [[] s1].
  - apply progress_tasks.
  - cbn [snd]. by rewrite progress_tasks.
  - by destruct (sx_controller s), slot.
Qed.

(** A task moves by its own steps only, and each brings it nearer to its end. *)
Lemma task_step_task now id' id s t :
  sx_tasks s !! id = Some t →
  ∃ t', sx_tasks (task_step order now id' s) !! id = Some t' ∧
        (steps_left t' ≤ if bool_decide (id' = id) then pred (steps_left t) else steps_left t)%nat.
Proof.
  intros Et. unfold task_step. destruct (sx_tasks s !! id') as [t0|] eqn:E0.
  - destruct (decide (id' = id)) as [->|Hne].
    + rewrite bool_decide_true by done. rewrite Et in E0. injection E0 as <-. destruct t as [ids racks pc|b slot pc].
      * pose proof (add_step_tasks now id ids racks pc s) as Hs. destruct (add_step _ _ _ _ _ _ _) as [pc' s'] eqn:E.
        simpl. rewrite lookup_insert_eq. eexists. split; [done|]. by eapply add_step_left.
      * pose proof (remove_step_tasks now id b slot pc s) as Hs. destruct (remove_step _ _ _ _ _ _ _) as [pc' s'] eqn:E.
        simpl. rewrite lookup_insert_eq. eexists. split; [done|]. by eapply remove_step_left.
    + rewrite bool_decide_false by done. exists t. split; [|done]. destruct t0 as [ids racks pc|b slot pc].
      * pose proof (add_step_tasks now id' ids racks pc s) as Hs. destruct (add_step _ _ _ _ _ _ _) as [pc' s'].
        simpl in *. by rewrite lookup_insert_ne, Hs.
      * pose proof (remove_step_tasks now id' b slot pc s) as Hs. destruct (remove_step _ _ _ _ _ _ _) as [pc' s'].
        simpl in *. by rewrite lookup_insert_ne, Hs.
  - exists t. split; [done|]. case_bool_decide; [congruence|done].
Qed.
Lemma run_event_task e id s t :
  event_ok e s → sx_tasks s !! id = Some t →
  ∃ t', sx_tasks (run_event e s) !! id = Some t' ∧
        (steps_left t' ≤ if own_step id e then pred (steps_left t) else steps_left t)%nat.
Proof.
  intros He Et. destruct e as [now id'|id' ids racks|id' token now b| |id' token now b r|id'|now]; simpl in *.
  - by apply task_step_task.
  - destruct He as [Hn _]. exists t. split; [|done]. rewrite lookup_insert_ne; [done|]. congruence.
  - destruct He as [Hn _]. exists t. split; [|done]. unfold remove_take.
    assert (id' ≠ id) by congruence. destruct (sx_controller s) as [d|]; simpl; [|by rewrite lookup_insert_ne].
    pose proof (taken_slot id' token now b "scaling-manager" d) as Hacq.
    destruct (take_slot _ _ _ _ _ d) as [[acq|e] d']; simpl in *; [|done].
    destruct (Hacq acq eq_refl) as [-> _]. by rewrite lookup_insert_ne.
  - exists t. destruct (rebalance_partitions_frame s) as (-> & _). done.
  - by exists t.
  - by exists t.
  - by exists t.
Qed.
Lemma run_events_task es id s t :
  events_ok es s → sx_tasks s !! id = Some t →
  ∃ t', sx_tasks (run_events es s) !! id = Some t' ∧ (steps_left t' ≤ steps_left t - own_steps id es)%nat.
Proof.
  revert s t. induction es as [|e es IH]; intros s t; simpl.
  - intros _ Et. exists t. split; [done|]. unfold own_steps. simpl. lia.
  - intros [He Hes] Et. destruct (run_event_task e id s t He Et) as (t1 & Et1 & Hl1).
    destruct (IH _ t1 Hes Et1) as (t' & Et' & Hl). exists t'. split; [done|].
    unfold own_steps in *. rewrite filter_cons. destruct (own_step id e); [rewrite decide_True by done|rewrite decide_False by done]; simpl in *; lia.
Qed.
Lemma steps_left_done t : steps_left t = 0%nat → finished t = true.
Proof. destruct t as [? ? []|? ? []]; simpl; lia || done. Qed.
Lemma events_ok_app es1 es2 s : events_ok (es1 ++ es2) s ↔ events_ok es1 s ∧ events_ok es2 (run_events es1 s).
Proof. revert s. induction es1 as [|e es1 IH]; intros s; simpl; [naive_solver|]. rewrite IH. naive_solver. Qed.

(** Every operation ends: once its task has taken as many steps as it had
    left (at most nine for a removal, three per broker and eight more for an
    addition), whatever else ran in between, its status is completed or failed
    and stays so. *)
Theorem scaling_operations_end max rb limit es1 es2 id t :
  0 ≤ limit → events_ok (es1 ++ es2) (scaling_new max rb (Some (slots_new limit))) →
  sx_tasks (run_events es1 (scaling_new max rb (Some (slots_new limit)))) !! id = Some t →
  (steps_left t ≤ own_steps id es2)%nat →
  (steps_left t ≤ match t with AddTask ids _ _ => 8 + 3 * length ids | RemoveTask _ _ _ => 9 end)%nat ∧
  ∃ now r, get_scaling_status id (run_events es2 (run_events es1 (scaling_new max rb (Some (slots_new limit)))))
           = Ok (final_status now r).
Proof.
  set (s0 := scaling_new max rb (Some (slots_new limit))). intros Hl [H1 H2]%events_ok_app Et Hn. split.
  - destruct t as [ids racks pc|b slot pc]; [|by destruct pc; simpl; lia].
    pose proof (length_zip_with pair ids racks). destruct pc; cbn -[Nat.mul zip]; lia.
  - destruct (run_events_inv limit es1 s0) as [Hco Hok]; [|by intros d [= <-]; apply (si_count _ _ (slots_new_inv limit Hl))|done|].
    { by split; [intros k; simpl; rewrite !lookup_empty|intros k t0 b; simpl; rewrite lookup_empty]. }
    destruct (run_events_inv limit es2 _ Hco Hok H2) as [Hco2 _].
    destruct (run_events_task es2 id _ t H2 Et) as (t' & Et' & Hl').
    destruct (coherent_status _ _ _ Hco2 Et') as (st & Est & Hst). unfold get_scaling_status. rewrite Est. simpl.
    assert (Hf : finished t' = true) by (apply steps_left_done; lia).
    destruct st as [|t0 p|now|e now]; simpl in Hst.
    + exfalso. destruct t' as [? ? []|? ? []]; done.
    + exfalso. destruct Hst. congruence.
    + by exists now, (Ok tt).
    + by exists now, (Err e).
Qed.
End runs.

(** With no assignments given to it the rebalancer plans no move. *)
Lemma plan_moves_nothing order_a op order (s : ScalingManagerImpl PartitionRebalancerImpl) plan s' :
  (∀ l, Permutation (order_a l) l) →
  plan_rebalance (PartitionRebalancer0 := rebalancer_impl order_a op) order s = (Ok plan, s') → rp_moves plan = [].
Proof.
  intros Hperm. unfold plan_rebalance, rb_plan, rebalancer_impl. intros [= <- _]. simpl. rewrite map_to_list_empty.
  rewrite (Permutation_nil (l := order_a [])) by (symmetry; apply Hperm).
  generalize (filter (λ b, is_overloaded (sx_rebalancer s) (average_load_of (sx_rebalancer s)
    (order (map_to_list (sx_brokers s))).*2) b = true) (order (map_to_list (sx_brokers s))).*2).
  intros l. induction l as [|b l IH]; [done|]. by rewrite bind_cons, IH.
Qed.

(** ** On a concrete manager *)

Module ScalingManagerDemo.
Definition keep {A} (l : list A) : list A := l.
#[local] Instance demo_rebalancer : PartitionRebalancer PartitionRebalancerImpl := rebalancer_impl keep "plan".
Definition fresh_manager : ScalingManagerImpl PartitionRebalancerImpl := scaling_new 3 rebalancer_new (Some (slots_new 1)).
Definition steps (n : nat) (id : string) : list Event := replicate n (EvStep 100 id).
Definition added : list Event := EvAdd "a1" ["b1"; "b2"] ["r1"; "r2"] :: steps 14 "a1".
Definition removing : list Event := added ++ EvRemove "d1" "t1" 100 "b1" :: steps 4 "d1" ++ [EvRemove "d2" "t2" 100 "b2"].

Lemma scaling_manager_safe_witness :
  let s := run_events keep removing fresh_manager in
  running_removals s = {["d1" := "b1"]} ∧ Z.of_nat (size (running_removals s)) ≤ 1 ∧
  get_scaling_status "d2" s = Err Storage.
Proof.
  intros s. assert (Hok : events_ok keep removing fresh_manager)
    by (vm_compute; repeat split; intros d [= <-]; reflexivity).
  destruct (scaling_manager_safe keep 3 rebalancer_new 1 removing s ltac:(lia) Hok eq_refl) as (Hn & _ & Hst).
  split; [vm_compute; reflexivity|]. split; [exact Hn|].
  specialize (Hst "d2"). replace (sx_tasks s !! "d2") with (@None Task) in Hst by (vm_compute; reflexivity). exact Hst.
Defined.

Lemma scaling_operations_end_witness :
  ∃ now r, get_scaling_status "d1" (run_events keep (steps 6 "d1") (run_events keep removing fresh_manager))
           = Ok (final_status now r).
Proof.
  eapply (scaling_operations_end keep 3 rebalancer_new 1 removing (steps 6 "d1") "d1").
  - lia.
  - vm_compute; repeat split; intros d [= <-]; reflexivity.
  - vm_compute. reflexivity.
  - vm_compute. lia.
Defined.

(** A removed broker is gone from the list although nothing was moved. *)
Example removal_completes :
  let s := run_events keep (removing ++ steps 6 "d1") fresh_manager in
  (get_scaling_status "d1" s, bl_id <$> list_brokers keep s) = (Ok (Completed 100), ["b2"]).
Proof. vm_compute. reflexivity. Qed.

(** Two additions of one broker are both accepted: the check looks at the
    broker map, which the tasks fill later. *)
Example broker_added_twice :
  let '(r1, s1) := add_brokers "a1" ["b1"] ["r1"] fresh_manager in
  let '(r2, s2) := add_brokers "a2" ["b1"] ["r2"] s1 in
  (r1, r2, size (sx_tasks s2)) = (Ok "a1", Ok "a2", 2%nat).
Proof. vm_compute. reflexivity. Qed.
(** The second then turns a broker that is being drained healthy again. *)
Example addition_undoes_draining :
  let s := run_events keep (EvAdd "a1" ["b1"] ["r1"] :: EvAdd "a2" ["b1"] ["r2"] :: steps 11 "a1" ++
             EvRemove "d1" "t1" 100 "b1" :: steps 2 "d1") fresh_manager in
  let s' := run_events keep (steps 2 "a2") s in
  (bl_status <$> list_brokers keep s, bl_status <$> list_brokers keep s') = ([Draining], [Healthy]).
Proof. vm_compute. reflexivity. Qed.

(** Two removals of one broker whose checks both came before either took its
    slot both run. *)
Example concurrent_removals_of_one_broker :
  let s := run_events keep (EvAdd "a1" ["b1"] ["r1"] :: steps 11 "a1" ++
             [EvRemove "d1" "t1" 100 "b1"; EvRemove "d2" "t2" 100 "b1"])
             (scaling_new 3 rebalancer_new (Some (slots_new 2))) in
  running_removals s = <["d1" := "b1"]> {["d2" := "b1"]}.
Proof. vm_compute. reflexivity. Qed.

(** The expiry of a slot lets a second removal start beside the first. *)
Example expired_slot_exceeds_limit :
  let s := run_events keep removing fresh_manager in
  let s' := run_event keep (EvCleanup 4000) s in
  size (running_removals (run_event keep (EvRemove "d3" "t3" 4001 "b2") s')) = 2%nat.
Proof. vm_compute. reflexivity. Qed.
End ScalingManagerDemo.
