(* ===== verification/AccessControl.v ===== *)
(** * Access control

    Model of [src/src/security/acl/]: resource patterns ([patterns.rs]), rules
    and their compiled form ([rules.rs]), policy decisions ([policy.rs]) and the
    ACL manager's evaluation with its caches and its Bloom filter
    ([manager.rs]).  The rule storage is an interface; regular expressions and
    the default hasher are parameters; times are in seconds. *)

From Stdlib Require Import Ascii String.
From S2P Require Import Prelude Types.
Local Open Scope Z_scope.

(** ** Strings *)

Fixpoint ends_with (p s : string) : bool :=
  String.eqb p s || match s with EmptyString => false | String _ s => ends_with p s end.
Fixpoint contains_char (c : ascii) (s : string) : bool :=
  match s with EmptyString => false | String a s => Ascii.eqb a c || contains_char c s end.
Fixpoint trim_start_matches (c : ascii) (s : string) : string :=
  match s with
  | EmptyString => EmptyString
  | String a s' => if Ascii.eqb a c then trim_start_matches c s' else s
  end.
Fixpoint trim_end_matches (c : ascii) (s : string) : string :=
  match s with
  | EmptyString => EmptyString
  | String a s =>
      match trim_end_matches c s with
      | EmptyString => if Ascii.eqb a c then EmptyString else String a EmptyString
      | s' => String a s'
      end
  end.

Definition star : ascii := "*"%char.

(** ** Patterns *)

Inductive ResourceType := RTopic | RConsumerGroup | RBroker | RCluster.
#[global] Instance ResourceType_eq_dec : EqDecision ResourceType.
Proof. solve_decision. Defined.
Record ResourcePattern := mkPattern { rp_resource_type : ResourceType; rp_pattern : string }.
#[global] Instance ResourcePattern_eq_dec : EqDecision ResourcePattern.
Proof. solve_decision. Defined.

Definition matches_name (p : ResourcePattern) (name : string) : bool :=
  let pat := rp_pattern p in
  if String.eqb pat "*" then true
  else if contains_char star pat then
    if ends_with "*" pat then starts_with (trim_end_matches star pat) name
    else if starts_with "*" pat then ends_with (trim_start_matches star pat) name
    else match split_on star pat with
         | [prefix; suffix] => starts_with prefix name && ends_with suffix name
         | _ => String.eqb pat name
         end
  else String.eqb pat name.
Definition type_name (t : ResourceType) : string :=
  match t with RTopic => "topic" | RConsumerGroup => "consumer_group" | RBroker => "broker" | RCluster => "cluster" end.
Definition pattern_matches (p : ResourcePattern) (resource_type name : string) : bool :=
  if negb (String.eqb resource_type (type_name (rp_resource_type p))) then false else matches_name p name.

(** ** Rules *)

Inductive AclOperation :=
  | OpRead | OpWrite | OpAdmin | OpDescribe | OpCluster | OpAll | OpConnect | OpDelete | OpAlter | OpCreate | OpList.
#[global] Instance AclOperation_eq_dec : EqDecision AclOperation.
Proof. solve_decision. Defined.
Inductive Effect := EffAllow | EffDeny.
#[global] Instance Effect_eq_dec : EqDecision Effect.
Proof. solve_decision. Defined.

Record AclRule := mkRule {
  ru_id : string;
  ru_principal : string;
  ru_resource : ResourcePattern;
  ru_operations : list AclOperation;
  ru_effect : Effect;
  ru_conditions : gmap string string;
}.
Record VersionedAclRule := mkVersioned {
  vr_rule : AclRule;
  vr_version : Z;
  vr_timestamp : Z;
  vr_created_by : string;
  vr_change_description : string;
  vr_deleted : bool;
}.

Definition applies_to_principal (r : AclRule) (principal : string) : bool :=
  if String.eqb (ru_principal r) "*" then true
  else if contains_char star (ru_principal r) then
    match split_on star (ru_principal r) with
    | [prefix; suffix] => starts_with prefix principal && ends_with suffix principal
    | _ => String.eqb (ru_principal r) principal
    end
  else String.eqb (ru_principal r) principal.
Definition applies_to_operation (r : AclRule) (op : AclOperation) : bool := bool_decide (op ∈ ru_operations r).

Section compiled.
(** The [regex] crate *)
Context {Regex : Type} (regex_new : string → option Regex) (is_match : Regex → string → bool).

Inductive CompiledPattern :=
  | Exact (s : string)
  | Wildcard (prefix suffix : string)
  | RegexPattern (r : Regex)
  | All.

Definition regex_specials : list ascii :=
  ["["; "]"; "{"; "}"; "("; ")"; "^"; "$"; "+"; "?"; "|"; "\"]%char.
Definition has_special (s : string) : bool := negb (str_all (λ c, negb (existsb (Ascii.eqb c) regex_specials)) s).

(** [None] is a regular expression that does not compile. *)
Definition compile_plain (pattern : string) : option CompiledPattern :=
  if has_special pattern then RegexPattern <$> regex_new pattern else Some (Exact pattern).
Definition compile (pattern : string) : option CompiledPattern :=
  if String.eqb pattern "*" then Some All
  else if contains_char star pattern then
    match split_on star pattern with
    | [prefix; suffix] => Some (Wildcard prefix suffix)
    | _ => compile_plain pattern
    end
  else compile_plain pattern.
Definition compiled_matches (p : CompiledPattern) (text : string) : bool :=
  match p with
  | Exact exact => String.eqb text exact
  | Wildcard prefix suffix => starts_with prefix text && ends_with suffix text
  | RegexPattern r => is_match r text
  | All => true
  end.

Record AclEntry := mkEntry {
  en_rule : AclRule;
  en_principal_pattern : CompiledPattern;
  en_resource_pattern : CompiledPattern;
}.
Definition from_rule (r : AclRule) : option AclEntry :=
  principal ← compile (ru_principal r);
  resource ← compile (rp_pattern (ru_resource r));
  Some (mkEntry r principal resource).
Definition entry_matches (e : AclEntry) (principal resource : string) (op : AclOperation) : bool :=
  compiled_matches (en_principal_pattern e) principal
  && compiled_matches (en_resource_pattern e) resource
  && applies_to_operation (en_rule e) op.

(** ** Decisions *)

Inductive PolicyDecision := DAllow | DDeny (rule_id : string) | DNoMatch.
Definition is_allowed (d : PolicyDecision) : bool := match d with DAllow => true | _ => false end.

(** The condition loops of [evaluate_rules] and [evaluate_cached_entry]. *)
Definition conditions_hold (r : AclRule) (context : option (gmap string string)) : bool :=
  if decide (ru_conditions r = ∅) then true
  else match context with
       | Some ctx => bool_decide (map_Forall (λ k v, ctx !! k = Some v) (ru_conditions r))
       | None => false
       end.

Definition matching_entry (principal resource : string) (op : AclOperation) (context : option (gmap string string))
    (v : VersionedAclRule) : option AclEntry :=
  if vr_deleted v then None
  else match from_rule (vr_rule v) with
       | Some e => if entry_matches e principal resource op && conditions_hold (vr_rule v) context
                   then Some e else None
       | None => None
       end.
Definition evaluate_rules (rules : list VersionedAclRule) (principal resource : string) (op : AclOperation)
    (context : option (gmap string string)) : PolicyDecision :=
  let matching := omap (matching_entry principal resource op context) rules in
  match list_find (λ e, ru_effect (en_rule e) = EffDeny) matching with
  | Some (_, e) => DDeny (ru_id (en_rule e))
  | None => if existsb (λ e, bool_decide (ru_effect (en_rule e) = EffAllow)) matching then DAllow else DNoMatch
  end.

(** ** The Bloom filter *)

Context (bloom_hash : string → nat → Z).

Record BloomFilter := mkBloom { bf_bits : list bool; bf_hash_functions : nat; bf_size : Z }.
Definition bloom_new (size : Z) : BloomFilter := mkBloom (replicate (Z.to_nat size) false) 3 size.
Definition bloom_index (f : BloomFilter) (item : string) (i : nat) : nat :=
  Z.to_nat (bloom_hash item i mod bf_size f).
(** A filter of size zero divides by zero. *)
Definition bloom_add (item : string) (f : BloomFilter) : option BloomFilter :=
  if bf_size f =? 0 then None
  else Some (mkBloom (foldl (λ bits i, <[bloom_index f item i := true]> bits) (bf_bits f)
                        (seq 0 (bf_hash_functions f)))
               (bf_hash_functions f) (bf_size f)).
Definition might_contain (item : string) (f : BloomFilter) : option bool :=
  if bf_size f =? 0 then None
  else Some (forallb (λ i, default false (bf_bits f !! bloom_index f item i)) (seq 0 (bf_hash_functions f))).

(** ** The manager *)

Record CachedAclEntry := mkCached {
  ca_entry : AclEntry;
  ca_cached_at : Z;
  ca_access_count : Z;
  ca_last_accessed : Z;
}.
Record CacheStatistics := mkStats {
  st_l1_hits : Z;
  st_l2_hits : Z;
  st_l2_misses : Z;
  st_bloom_filter_hits : Z;
  st_total_requests : Z;
}.
Record AclConfig := mkAclConfig {
  ac_cache_size_mb : Z;
  ac_cache_ttl_seconds : Z;
  ac_l2_shards : nat;
  ac_bloom_filter_size : Z;
  ac_enable_audit_logging : bool;
  ac_negative_cache_enabled : bool;
}.
Record AclAuditEvent := mkAudit {
  au_principal : string;
  au_resource : string;
  au_action : string;
  au_allowed : bool;
  au_rule_id : option string;
}.
(** [manager::Permission] *)
Inductive AccessKind := AccRead | AccWrite | AccAdmin | AccConnect | AccList.
Definition kind_of_operation (op : AclOperation) : AccessKind :=
  match op with
  | OpRead => AccRead | OpWrite => AccWrite | OpAdmin => AccAdmin | OpConnect => AccConnect | OpList => AccList
  | OpDescribe => AccRead
  | OpCluster | OpAll | OpDelete | OpAlter | OpCreate => AccAdmin
  end.
Definition operation_of_kind (k : AccessKind) : AclOperation :=
  match k with
  | AccRead => OpRead | AccWrite => OpWrite | AccAdmin => OpAdmin | AccConnect => OpConnect | AccList => OpList
  end.
Definition show_kind (k : AccessKind) : string :=
  match k with
  | AccRead => "Read" | AccWrite => "Write" | AccAdmin => "Admin" | AccConnect => "Connect" | AccList => "List"
  end.
End compiled.
Arguments CompiledPattern : clear implicits.
Arguments AclEntry : clear implicits.
Arguments CachedAclEntry : clear implicits.

(** The rules a principal may be subject to, from the replicated storage. *)
Class RuleStorage (S : Type) := {
  rules_for_principal : string → S → Result (list VersionedAclRule);
}.
#[global] Hint Mode RuleStorage ! : typeclass_instances.

Section manager.
Context {Regex : Type} (regex_new : string → option Regex) (is_match : Regex → string → bool).
Context (bloom_hash : string → nat → Z) (hash : string → Z).
Context {S : Type} `{!RuleStorage S}.
Abbreviation Entry := (AclEntry Regex).
Abbreviation Cached := (CachedAclEntry Regex).
(** The iteration order of a cache. *)
Context (order : list (string * Cached) → list (string * Cached)).

Record AclManager := mkManager {
  am_storage : S;
  am_config : AclConfig;
  am_l1_cache : gmap string Cached;
  am_l2_cache_shards : list (gmap string Cached);
  am_bloom_filter : option BloomFilter;
  am_cache_stats : CacheStatistics;
  am_audit_log : list AclAuditEvent;
}.

Definition manager_new (storage : S) (config : AclConfig) : AclManager :=
  mkManager storage config ∅ (replicate (ac_l2_shards config) ∅)
    (if ac_negative_cache_enabled config then Some (bloom_new (ac_bloom_filter_size config)) else None)
    (mkStats 0 0 0 0 0) [].

Definition with_stats (f : CacheStatistics → CacheStatistics) (m : AclManager) : AclManager :=
  mkManager (am_storage m) (am_config m) (am_l1_cache m) (am_l2_cache_shards m) (am_bloom_filter m)
    (f (am_cache_stats m)) (am_audit_log m).
Definition with_l1 (c : gmap string Cached) (m : AclManager) : AclManager :=
  mkManager (am_storage m) (am_config m) c (am_l2_cache_shards m) (am_bloom_filter m) (am_cache_stats m)
    (am_audit_log m).
Definition with_l2 (shards : list (gmap string Cached)) (m : AclManager) : AclManager :=
  mkManager (am_storage m) (am_config m) (am_l1_cache m) shards (am_bloom_filter m) (am_cache_stats m)
    (am_audit_log m).
Definition with_bloom (f : option BloomFilter) (m : AclManager) : AclManager :=
  mkManager (am_storage m) (am_config m) (am_l1_cache m) (am_l2_cache_shards m) f (am_cache_stats m)
    (am_audit_log m).
Definition with_audit (l : list AclAuditEvent) (m : AclManager) : AclManager :=
  mkManager (am_storage m) (am_config m) (am_l1_cache m) (am_l2_cache_shards m) (am_bloom_filter m)
    (am_cache_stats m) l.

(** *** Caches *)

Definition get_shard_index (key : string) (m : AclManager) : nat :=
  Z.to_nat (hash key mod Z.of_nat (length (am_l2_cache_shards m))).
Definition check_l1_cache (key : string) (m : AclManager) : option Cached := am_l1_cache m !! key.
Definition check_l2_cache (key : string) (m : AclManager) : option Cached :=
  am_l2_cache_shards m !! get_shard_index key m ≫= (.!! key).

(** [min_by_key] returns the first minimum. *)
Definition lru_step (acc : option (string * Cached)) (kv : string * Cached) : option (string * Cached) :=
  match acc with
  | None => Some kv
  | Some a => if ca_last_accessed kv.2 <? ca_last_accessed a.2 then Some kv else Some a
  end.
Definition find_lru_key (cache : gmap string Cached) : option string :=
  fst <$> foldl lru_step None (order (map_to_list cache)).
Definition update_l1_cache (key : string) (entry : Cached) (m : AclManager) : AclManager :=
  let cache := am_l1_cache m in
  let cache := if ac_cache_size_mb (am_config m) * 1024 * 1024 / 1000 <=? Z.of_nat (size cache)
               then match find_lru_key cache with Some k => delete k cache | None => cache end
               else cache in
  with_l1 (<[key := entry]> cache) m.
Definition update_l2_cache (key : string) (entry : Cached) (m : AclManager) : AclManager :=
  let i := get_shard_index key m in
  match am_l2_cache_shards m !! i with
  | None => m
  | Some shard =>
      let shard := if 1000 <=? Z.of_nat (size shard)
                   then match head (order (map_to_list shard)) with Some (k, _) => delete k shard | None => shard end
                   else shard in
      with_l2 (<[i := <[key := entry]> shard]> (am_l2_cache_shards m)) m
  end.

Definition create_cached_entry (now : Z) (v : VersionedAclRule) : Cached :=
  let rule := vr_rule v in
  let entry := match from_rule regex_new rule with
               | Some e => e
               | None => mkEntry rule (Exact (ru_principal rule)) (Exact (rp_pattern (ru_resource rule)))
               end in
  mkCached entry now 0 now.

Definition evaluate_cached_entry (c : Cached) (principal resource : string) (op : AclOperation)
    (context : option (gmap string string)) : bool :=
  entry_matches is_match (ca_entry c) principal resource op
  && conditions_hold (en_rule (ca_entry c)) context
  && bool_decide (ru_effect (en_rule (ca_entry c)) = EffAllow).

(** *** Evaluation *)

Definition cache_key (principal resource : string) (op : AccessKind) : string :=
  principal +:+ ":" +:+ resource +:+ ":" +:+ show_kind op.

Definition log_access_check (principal resource action : string) (allowed : bool) (rule_id : option string)
    (m : AclManager) : AclManager :=
  let buffer := am_audit_log m ++ [mkAudit principal resource action allowed rule_id] in
  with_audit (if 10000 <? Z.of_nat (length buffer) then tail buffer else buffer) m.

(** Behind the Bloom filter; a division by a shard count of zero panics. *)
Definition evaluate_uncached (now : Z) (key principal resource : string) (operation : AccessKind)
    (context : option (gmap string string)) (m : AclManager) : Result bool * AclManager :=
  let op := operation_of_kind operation in
  let m := with_stats (λ s, mkStats (st_l1_hits s) (st_l2_hits s) (st_l2_misses s + 1)
                              (st_bloom_filter_hits s) (st_total_requests s)) m in
  match rules_for_principal principal (am_storage m) with
  | Err e => (Err e, m)
  | Ok rules =>
      let decision := evaluate_rules regex_new is_match rules principal resource op context in
      let updated :=
        match rules with
        | v :: _ =>
            let entry := create_cached_entry now v in
            Some (update_l1_cache key entry (update_l2_cache key entry m))
        | [] =>
            if ac_negative_cache_enabled (am_config m) then
              match am_bloom_filter m with
              | Some f => (λ f, with_bloom (Some f) m) <$> bloom_add bloom_hash key f
              | None => Some m
              end
            else Some m
        end in
      match updated with
      | None => (Err Panic, m)
      | Some m =>
          let m := if ac_enable_audit_logging (am_config m)
                   then log_access_check principal resource (show_kind operation) (is_allowed decision)
                          ((λ v, ru_id (vr_rule v)) <$> head rules) m
                   else m in
          (Ok (is_allowed decision), m)
      end
  end.
Definition evaluate_cached (now : Z) (key principal resource : string) (operation : AccessKind)
    (context : option (gmap string string)) (m : AclManager) : Result bool * AclManager :=
  let op := operation_of_kind operation in
  match check_l1_cache key m with
  | Some c =>
      (Ok (evaluate_cached_entry c principal resource op context),
       with_stats (λ s, mkStats (st_l1_hits s + 1) (st_l2_hits s) (st_l2_misses s)
                          (st_bloom_filter_hits s) (st_total_requests s)) m)
  | None =>
      if decide (am_l2_cache_shards m = []) then (Err Panic, m)
      else match check_l2_cache key m with
           | Some c =>
               let m := with_stats (λ s, mkStats (st_l1_hits s) (st_l2_hits s + 1) (st_l2_misses s)
                                           (st_bloom_filter_hits s) (st_total_requests s)) m in
               (Ok (evaluate_cached_entry c principal resource op context), update_l1_cache key c m)
           | None => evaluate_uncached now key principal resource operation context m
           end
  end.
Definition evaluate_access (now : Z) (principal resource : string) (operation : AccessKind)
    (context : option (gmap string string)) (m : AclManager) : Result bool * AclManager :=
  let m := with_stats (λ s, mkStats (st_l1_hits s) (st_l2_hits s) (st_l2_misses s)
                              (st_bloom_filter_hits s) (st_total_requests s + 1)) m in
  let key := cache_key principal resource operation in
  let filter_hit :=
    if ac_negative_cache_enabled (am_config m)
    then match am_bloom_filter m with Some f => might_contain bloom_hash key f | None => Some true end
    else Some true in
  match filter_hit with
  | None => (Err Panic, m)
  | Some false =>
      (Ok false, with_stats (λ s, mkStats (st_l1_hits s) (st_l2_hits s) (st_l2_misses s)
                                   (st_bloom_filter_hits s + 1) (st_total_requests s)) m)
  | Some true => evaluate_cached now key principal resource operation context m
  end.

Definition manager_check_permission (now : Z) (principal resource : string) (op : AclOperation) (m : AclManager)
  : Result bool * AclManager :=
  evaluate_access now principal resource (kind_of_operation op) None m.

Definition invalidate_cache (keys : list string) (m : AclManager) : AclManager :=
  let m := with_l1 (foldl (λ c k, delete k c) (am_l1_cache m) keys) m in
  let m := foldl (λ m k, match am_l2_cache_shards m !! get_shard_index k m with
                         | Some shard => with_l2 (<[get_shard_index k m := delete k shard]> (am_l2_cache_shards m)) m
                         | None => m
                         end) m keys in
  if ac_negative_cache_enabled (am_config m)
  then with_bloom (Some (bloom_new (ac_bloom_filter_size (am_config m)))) m else m.

Definition cleanup_expired_cache_entries (now : Z) (m : AclManager) : AclManager :=
  let live := filter (λ kv : string * Cached, now - ca_cached_at kv.2 < ac_cache_ttl_seconds (am_config m)) in
  with_l2 (live <$> am_l2_cache_shards m) (with_l1 (live (am_l1_cache m)) m).
End manager.
Arguments AclManager : clear implicits.

(** ** Patterns mean what they say *)

Lemma str_app_cons a (s t : string) : String a s +:+ t = String a (s +:+ t).
Proof. done. Qed.

Lemma starts_with_spec p s : starts_with p s = true ↔ ∃ t, s = p +:+ t.
Proof.
  revert s. induction p as [|a p IH]; intros s; simpl; [split; eauto|].
  destruct s as [|b s]; simpl; [split; [done|by intros [t ?]]|].
  rewrite andb_true_iff, IH. split.
  - intros [->%Ascii.eqb_eq [t ->]]. by exists t.
  - intros [t [= -> ->]]. split; [apply Ascii.eqb_refl|eauto].
Qed.

Lemma ends_with_spec p s : ends_with p s = true ↔ ∃ t, s = t +:+ p.
Proof.
  induction s as [|a s IH]; simpl; rewrite orb_true_iff, String.eqb_eq.
  - split; [intros [->|?]; [by exists EmptyString|done]|]. intros [[|? ?] E]; [by left|done].
  - rewrite IH. split.
    + intros [->|[t ->]]; [by exists EmptyString|by exists (String a t)].
    + intros [[|b t] E]; [by left|]. injection E as -> ->. eauto.
Qed.

Lemma str_app_assoc (s t u : string) : (s +:+ t) +:+ u = s +:+ (t +:+ u).
Proof. induction s as [|a s IH]; [done|]. by rewrite !str_app_cons, IH. Qed.

Lemma str_app_split (s t u v : string) :
  s +:+ t = u +:+ v → (String.length s ≤ String.length u)%nat → ∃ w, u = s +:+ w ∧ t = w +:+ v.
Proof.
  revert u. induction s as [|a s IH]; intros u E Hl; [by exists u|].
  destruct u as [|b u]; simpl in Hl; [lia|]. rewrite !str_app_cons in E. injection E as -> E. destruct (IH u E) as (w & -> & ->); [lia|]. by exists w.
Qed.

(** What a wildcard matches: any middle, unless prefix and suffix overlap in
    the text. *)
Lemma wildcard_spec prefix suffix text :
  (∃ middle, text = prefix +:+ middle +:+ suffix) ↔
  starts_with prefix text && ends_with suffix text = true ∧
  (String.length prefix + String.length suffix ≤ String.length text)%nat.
Proof.
  rewrite andb_true_iff, starts_with_spec, ends_with_spec. split.
  - intros [middle ->]. rewrite !str_length_app. split_and!; [eauto| |lia].
    exists (prefix +:+ middle). by rewrite str_app_assoc.
  - intros [[[t ->] [u E]] Hl]. rewrite str_length_app in Hl.
    assert (Hlen : (String.length prefix ≤ String.length u)%nat).
    { apply (f_equal String.length) in E. rewrite !str_length_app in E. lia. }
    destruct (str_app_split prefix t u suffix E Hlen) as (w & -> & ->). eauto.
Qed.

Definition no_char (c : ascii) (s : string) : bool := str_all (λ x, negb (Ascii.eqb x c)) s.

Lemma contains_no_char c s : contains_char c s = negb (no_char c s).
Proof.
  unfold no_char. induction s as [|a s IH]; simpl; [done|]. rewrite IH. by destruct (Ascii.eqb a c).
Qed.
Lemma contains_char_app c s t : contains_char c (s +:+ t) = contains_char c s || contains_char c t.
Proof. induction s as [|a s IH]; [done|]. rewrite str_app_cons. simpl. rewrite IH. by destruct (Ascii.eqb a c). Qed.

Lemma split_one c s t :
  no_char c s = true → no_char c t = true → split_on c (s +:+ String c t) = [s; t].
Proof. intros Hs Ht. by rewrite split_on_app, !split_on_plain. Qed.

Lemma trim_end_plain c s : no_char c s = true → trim_end_matches c s = s.
Proof.
  unfold no_char. induction s as [|a s IH]; simpl; [done|]. rewrite andb_true_iff. intros [Ha Hs].
  rewrite (IH Hs). destruct (Ascii.eqb a c); [done|]. by destruct s.
Qed.
Lemma trim_end_star c s : no_char c s = true → trim_end_matches c (s +:+ String c EmptyString) = s.
Proof.
  unfold no_char. induction s as [|a s IH]; [simpl; by rewrite Ascii.eqb_refl|].
  rewrite str_app_cons. simpl. rewrite andb_true_iff.
  intros [Ha Hs]. rewrite (IH Hs). destruct (Ascii.eqb a c); [done|]. by destruct s.
Qed.
Lemma trim_start_plain c s : no_char c s = true → trim_start_matches c s = s.
Proof. destruct s as [|a s]; simpl; [done|]. unfold no_char. simpl. by destruct (Ascii.eqb a c). Qed.

Lemma starts_with_nil s : starts_with EmptyString s = true.
Proof. by destruct s. Qed.
Lemma ends_with_nil s : ends_with EmptyString s = true.
Proof. induction s as [|a s IH]; [done|]. simpl. by rewrite IH. Qed.

(** A pattern with at most one star and, as rule validation demands, no
    character special to regular expressions. *)
Inductive simple_pattern : string → Prop :=
  | simple_exact s : no_char star s = true → has_special s = false → simple_pattern s
  | simple_star s t : no_char star s = true → no_char star t = true → simple_pattern (s +:+ String star t).

Section patterns.
Context {Regex : Type} (regex_new : string → option Regex) (is_match : Regex → string → bool).

Lemma ends_star s t : no_char star t = true → ends_with "*" (s +:+ String star t) = String.eqb t EmptyString.
Proof.
  intros Ht. destruct (String.eqb_spec t EmptyString) as [->|Hne].
  - apply ends_with_spec. by exists s.
  - apply not_true_iff_false. rewrite ends_with_spec. intros [u E].
    assert (Hsplit : split_on star (s +:+ String star t) = split_on star (u +:+ String star EmptyString)) by by rewrite E.
    rewrite !split_on_app in Hsplit. rewrite (split_on_plain star t) in Hsplit by done. simpl in Hsplit.
    apply app_inj_2 in Hsplit as [_ [= ->]]; done.
Qed.

Lemma starts_star s t : no_char star s = true → starts_with "*" (s +:+ String star t) = String.eqb s EmptyString.
Proof.
  unfold no_char. destruct s as [|a s]; [done|]. intros Hs. rewrite str_app_cons.
  assert (Ha : Ascii.eqb star a = false).
  { rewrite Ascii.eqb_sym. cbn [str_all] in Hs. by destruct (Ascii.eqb a star). }
  change (Ascii.eqb star a && starts_with EmptyString (s +:+ String star t) = false). by rewrite Ha.
Qed.

Lemma trim_start_star t : no_char star t = true → trim_start_matches star (EmptyString +:+ String star t) = t.
Proof. intros Ht. change (trim_start_matches star t = t). by apply trim_start_plain. Qed.

Lemma star_only s u : s +:+ String star u = "*" → s = EmptyString ∧ u = EmptyString.
Proof.
  destruct s as [|a s]; intros E; [by injection E as ->|]. injection E as -> E. by destruct s.
Qed.
Lemma contains_star s u : contains_char star (s +:+ String star u) = true.
Proof. rewrite contains_char_app. simpl. by rewrite orb_true_r. Qed.
Lemma compile_exact s : no_char star s = true → has_special s = false → compile regex_new s = Some (Exact s).
Proof.
  intros Hn Hsp. unfold compile, compile_plain. destruct (String.eqb_spec s "*") as [->|_]; [done|].
  by rewrite contains_no_char, Hn, Hsp.
Qed.
Lemma compile_star s u :
  no_char star s = true → no_char star u = true → s +:+ String star u ≠ "*" →
  compile regex_new (s +:+ String star u) = Some (Wildcard s u).
Proof.
  intros Hs Hu Hne. unfold compile. rewrite (proj2 (String.eqb_neq _ _) Hne), contains_star, split_one by done. done.
Qed.

(** The three matchers agree.  For a pattern with at most one star,
    compiling it succeeds, and the compiled pattern, a rule's own principal
    check and a resource pattern's name check give the same answer on every
    text; a pattern with a star matches exactly the texts made of its prefix,
    anything, and its suffix, provided the text is long enough for both. *)
Theorem pattern_matchers_agree pat t :
  simple_pattern pat →
  ∃ c, compile regex_new pat = Some c ∧
    (∀ text, compiled_matches is_match c text = matches_name (mkPattern t pat) text ∧
      ∀ r, ru_principal r = pat → applies_to_principal r text = compiled_matches is_match c text) ∧
    ∀ prefix suffix text, pat = prefix +:+ String star suffix → no_char star prefix = true →
      no_char star suffix = true → (String.length prefix + String.length suffix ≤ String.length text)%nat →
      (compiled_matches is_match c text = true ↔ ∃ middle, text = prefix +:+ middle +:+ suffix).
Proof.
  intros Hs. inversion Hs as [s Hn Hsp E|s u Hns Hnu E]; subst.
  - exists (Exact pat). split_and!; [by apply compile_exact| |].
    + unfold matches_name. cbn [rp_pattern]. destruct (String.eqb_spec pat "*") as [->|Hne]; [done|].
      rewrite contains_no_char, Hn. intros text. split; [apply String.eqb_sym|]. intros r Hr.
      unfold applies_to_principal. rewrite Hr, (proj2 (String.eqb_neq _ _) Hne), contains_no_char, Hn. apply String.eqb_sym.
    + intros prefix suffix text -> _ _ _. exfalso.
      unfold no_char in Hn. rewrite str_all_app in Hn. simpl in Hn. by rewrite andb_false_r in Hn.
  - destruct (String.eqb_spec (s +:+ String star u) "*") as [E|Hne].
    + apply star_only in E as [-> ->]. exists All. split_and!; [done| |].
      * intros text. split; [done|]. intros r Hr. unfold applies_to_principal. by rewrite Hr.
      * intros prefix suffix text Ep Hp Hsu Hl. symmetry in Ep. apply star_only in Ep as [-> ->].
        split; [|done]. intros _. exists text. simpl. by rewrite str_app_nil_r.
    + exists (Wildcard s u). assert (Hsplit := split_one star s u Hns Hnu). split_and!; [by apply compile_star| |].
      * intros text. split.
        -- unfold matches_name. cbn [rp_pattern].
           rewrite (proj2 (String.eqb_neq _ _) Hne), contains_star, (ends_star s u Hnu).
           destruct (String.eqb_spec u EmptyString) as [->|Hu].
           { rewrite trim_end_star by done. simpl. by rewrite ends_with_nil, andb_true_r. }
           rewrite (starts_star s u Hns). destruct (String.eqb_spec s EmptyString) as [->|Hs0].
           { rewrite trim_start_star by done. done. }
           rewrite Hsplit. done.
        -- intros r Hr. unfold applies_to_principal.
           by rewrite Hr, (proj2 (String.eqb_neq _ _) Hne), contains_star, Hsplit.
      * intros prefix suffix text Ep Hp Hsu Hl.
        assert (Hsplit' := split_one star prefix suffix Hp Hsu). rewrite <- Ep, Hsplit in Hsplit'.
        injection Hsplit' as -> ->. rewrite wildcard_spec. simpl. tauto.
Qed.
End patterns.

(** ** Decisions: deny overrides, default deny *)

Section decisions.
Context {Regex : Type} (regex_new : string → option Regex) (is_match : Regex → string → bool).
Implicit Types (v : VersionedAclRule) (r : AclRule) (principal resource : string) (op : AclOperation)
  (context : option (gmap string string)).

(** A live rule whose patterns match, that names the operation and whose
    conditions the context fulfils. *)
Record rule_applies principal resource op context v : Prop := {
  ra_live : vr_deleted v = false;
  ra_principal : ∃ p, compile regex_new (ru_principal (vr_rule v)) = Some p ∧
    compiled_matches is_match p principal = true;
  ra_resource : ∃ p, compile regex_new (rp_pattern (ru_resource (vr_rule v))) = Some p ∧
    compiled_matches is_match p resource = true;
  ra_operation : op ∈ ru_operations (vr_rule v);
  ra_conditions : ∀ k x, ru_conditions (vr_rule v) !! k = Some x → ∃ ctx, context = Some ctx ∧ ctx !! k = Some x;
}.

Lemma conditions_hold_spec r context :
  conditions_hold r context = true ↔
  ∀ k x, ru_conditions r !! k = Some x → ∃ ctx, context = Some ctx ∧ ctx !! k = Some x.
Proof.
  unfold conditions_hold. case_decide as He.
  { rewrite He. split; [|done]. intros _ k x. by rewrite lookup_empty. }
  destruct context as [ctx|].
  - rewrite bool_decide_eq_true. split.
    + intros Hall k x Hk. exists ctx. split; [done|]. by apply Hall.
    + intros Hall k x Hk. by destruct (Hall k x Hk) as (? & [= <-] & ?).
  - split; [done|]. intros Hall. exfalso. apply map_choose in He as (k & x & Hk).
    by destruct (Hall k x Hk) as (? & ? & ?).
Qed.

Lemma matching_entry_spec principal resource op context v :
  (∃ e, matching_entry regex_new is_match principal resource op context v = Some e) ↔
  rule_applies principal resource op context v.
Proof.
  unfold matching_entry, from_rule, entry_matches, applies_to_operation. split.
  - intros [e He]. destruct (vr_deleted v) eqn:Ed; [done|].
    destruct (compile regex_new (ru_principal (vr_rule v))) as [p1|] eqn:E1; [|done]. simpl in He.
    destruct (compile regex_new (rp_pattern (ru_resource (vr_rule v)))) as [p2|] eqn:E2; [|done]. simpl in He.
    destruct (compiled_matches is_match p1 principal) eqn:M1; [|done].
    destruct (compiled_matches is_match p2 resource) eqn:M2; [|done]. simpl in He.
    case_bool_decide as Hop; [|done]. simpl in He. destruct (conditions_hold _ _) eqn:Ec; [|done].
    split; [done|eauto|eauto|done|]. by apply conditions_hold_spec.
  - intros [Hl (p1 & E1 & M1) (p2 & E2 & M2) Hop Hc]. rewrite Hl, E1. simpl. rewrite E2. simpl.
    rewrite M1, M2, bool_decide_true by done. simpl. rewrite (proj2 (conditions_hold_spec _ _) Hc). eauto.
Qed.

Lemma matching_entry_rule principal resource op context v e :
  matching_entry regex_new is_match principal resource op context v = Some e → en_rule e = vr_rule v.
Proof.
  unfold matching_entry, from_rule. destruct (vr_deleted v); [done|].
  destruct (compile _ (ru_principal _)); [|done]. simpl. destruct (compile _ (rp_pattern _)); [|done]. simpl.
  destruct (_ && _); [|done]. by intros [= <-].
Qed.

Lemma matching_elem_of (rules : list VersionedAclRule) principal resource op context e :
  e ∈ omap (matching_entry regex_new is_match principal resource op context) rules →
  ∃ v, v ∈ rules ∧ rule_applies principal resource op context v ∧ en_rule e = vr_rule v.
Proof.
  intros (v & Hv & He)%list_elem_of_omap. exists v. split_and!; [done| |by eapply matching_entry_rule].
  apply matching_entry_spec. eauto.
Qed.
Lemma elem_of_matching (rules : list VersionedAclRule) principal resource op context v :
  v ∈ rules → rule_applies principal resource op context v →
  ∃ e, e ∈ omap (matching_entry regex_new is_match principal resource op context) rules ∧ en_rule e = vr_rule v.
Proof.
  intros Hv Hap. apply matching_entry_spec in Hap as [e He]. exists e. split; [|by eapply matching_entry_rule].
  apply list_elem_of_omap. eauto.
Qed.

(** Two rule lists with the same applying rules lead to the same answer. *)
Lemma evaluate_allowed rules principal resource op context :
  is_allowed (evaluate_rules regex_new is_match rules principal resource op context) = true ↔
  (∃ v, v ∈ rules ∧ rule_applies principal resource op context v ∧ ru_effect (vr_rule v) = EffAllow) ∧
  ∀ v, v ∈ rules → rule_applies principal resource op context v → ru_effect (vr_rule v) ≠ EffDeny.
Proof.
  unfold evaluate_rules. destruct (list_find _ _) as [[i e]|] eqn:Ef.
  - apply list_find_Some in Ef as (Hi & Hd & _). apply list_elem_of_lookup_2, matching_elem_of in Hi as (v & Hv & Hap & Hr).
    split; [done|]. intros [_ Hno]. destruct (Hno v Hv Hap). by rewrite <- Hr.
  - rewrite list_find_None, Forall_forall in Ef. transitivity (existsb (λ e, bool_decide (ru_effect (en_rule e) = EffAllow))
      (omap (matching_entry regex_new is_match principal resource op context) rules) = true); [by destruct (existsb _ _)|].
    rewrite existsb_exists. split.
    + intros (e & He%list_elem_of_In & Hal%bool_decide_eq_true). split.
      * apply matching_elem_of in He as (v & Hv & Hap & Hr). exists v. by rewrite <- Hr.
      * intros v Hv Hap Hd. destruct (elem_of_matching _ _ _ _ _ v Hv Hap) as (e' & He' & Hr).
        apply (Ef e' He'). by rewrite Hr.
    + intros [(v & Hv & Hap & Hal) _]. destruct (elem_of_matching _ _ _ _ _ v Hv Hap) as (e & He & Hr).
      exists e. split; [by apply list_elem_of_In|]. apply bool_decide_eq_true. by rewrite Hr.
Qed.

(** The decision.  Access is allowed exactly when some rule that
    applies allows it and no rule that applies denies it, whatever the order of
    the rules; a denial names a denying rule that applies, and when no rule
    applies there is no decision, which counts as a denial. *)
Theorem evaluate_rules_spec rules principal resource op context :
  let applies := rule_applies principal resource op context in
  match evaluate_rules regex_new is_match rules principal resource op context with
  | DAllow => (∃ v, v ∈ rules ∧ applies v ∧ ru_effect (vr_rule v) = EffAllow) ∧
              ∀ v, v ∈ rules → applies v → ru_effect (vr_rule v) ≠ EffDeny
  | DDeny id => ∃ v, v ∈ rules ∧ applies v ∧ ru_effect (vr_rule v) = EffDeny ∧ ru_id (vr_rule v) = id
  | DNoMatch => ∀ v, v ∈ rules → ¬ applies v
  end.
Proof.
  intros applies. unfold evaluate_rules. set (matching := omap _ rules).
  assert (Hm : ∀ e, e ∈ matching → ∃ v, v ∈ rules ∧ applies v ∧ en_rule e = vr_rule v).
  { intros e He. by apply matching_elem_of in He. }
  assert (Ha : ∀ v, v ∈ rules → applies v → ∃ e, e ∈ matching ∧ en_rule e = vr_rule v).
  { intros v. apply elem_of_matching. }
  destruct (list_find _ matching) as [[i e]|] eqn:Ef.
  - apply list_find_Some in Ef as (Hi & Hd & _). apply list_elem_of_lookup_2 in Hi.
    destruct (Hm e Hi) as (v & Hv & Hap & Hr). exists v. rewrite <- Hr. done.
  - rewrite list_find_None, Forall_forall in Ef.
    assert (Hno : ∀ v, v ∈ rules → applies v → ru_effect (vr_rule v) ≠ EffDeny).
    { intros v Hv Hap Hd. destruct (Ha v Hv Hap) as (e & He & Hr). apply (Ef e He). by rewrite Hr. }
    destruct (existsb _ matching) eqn:Ex.
    + apply existsb_exists in Ex as (e & He & Hal%bool_decide_eq_true). apply list_elem_of_In in He.
      destruct (Hm e He) as (v & Hv & Hap & Hr). split; [|done]. exists v. rewrite <- Hr. done.
    + intros v Hv Hap. destruct (Ha v Hv Hap) as (e & He & Hr).
      assert (Hex : existsb (λ e, bool_decide (ru_effect (en_rule e) = EffAllow)) matching = true); [|congruence].
      apply existsb_exists. exists e. split; [by apply list_elem_of_In|]. apply bool_decide_eq_true.
      specialize (Hno v Hv Hap). rewrite Hr. by destruct (ru_effect (vr_rule v)).
Qed.

(** One rule that compiles: the cached entry decides as the rule list does. *)
Lemma cached_entry_decides now v principal resource op context :
  vr_deleted v = false → is_Some (from_rule regex_new (vr_rule v)) →
  evaluate_cached_entry is_match (create_cached_entry regex_new now v) principal resource op context
  = is_allowed (evaluate_rules regex_new is_match [v] principal resource op context).
Proof.
  intros Hl [e He]. unfold evaluate_cached_entry, create_cached_entry, evaluate_rules, matching_entry. simpl.
  rewrite Hl, He. simpl.
  assert (Hr : en_rule e = vr_rule v).
  { unfold from_rule in He. destruct (compile _ (ru_principal _)); [|done]. simpl in He.
    destruct (compile _ (rp_pattern _)); [|done]. by injection He as <-. }
  rewrite Hr. destruct (entry_matches is_match e principal resource op); [|done].
  destruct (conditions_hold (vr_rule v) context); [|done]. simpl. rewrite Hr.
  destruct (ru_effect (vr_rule v)); done.
Qed.
End decisions.

(** ** The Bloom filter has no false negatives *)

Section bloom.
Context (bloom_hash : string → nat → Z).
Implicit Types (f : BloomFilter).

Definition bloom_wf f : Prop := 0 < bf_size f ∧ length (bf_bits f) = Z.to_nat (bf_size f).

Lemma bloom_new_wf size : 0 < size → bloom_wf (bloom_new size).
Proof. intros. split; [done|]. simpl. apply length_replicate. Qed.

Lemma bloom_index_lt f item i : bloom_wf f → (bloom_index bloom_hash f item i < length (bf_bits f))%nat.
Proof.
  intros [Hs Hl]. unfold bloom_index. rewrite Hl. pose proof (Z.mod_pos_bound (bloom_hash item i) (bf_size f)). lia.
Qed.

Lemma set_bits_spec (idx : nat → nat) ixs (bits : list bool) j :
  (∀ i, i ∈ ixs → (idx i < length bits)%nat) →
  foldl (λ bits i, <[idx i := true]> bits) bits ixs !! j = Some true ↔
  bits !! j = Some true ∨ ∃ i, i ∈ ixs ∧ idx i = j.
Proof.
  revert bits. induction ixs as [|x ixs IH]; intros bits Hlt; simpl.
  - split; [by left|]. intros [?|(i & Hi & _)]; [done|by apply elem_of_nil in Hi].
  - rewrite IH by (intros i Hi; rewrite length_insert; apply Hlt; by right).
    assert (Hx : (idx x < length bits)%nat) by (apply Hlt; left).
    rewrite list_lookup_insert_Some. split.
    + intros [[(<- & _ & _)|[_ ?]]|(i & Hi & ?)]; [right; exists x; split; [left|done]|by left|].
      right. exists i. split; [by right|done].
    + intros [Hb|(i & [->|Hi]%elem_of_cons & <-)]; [|left; left; done|right; eauto].
      left. destruct (decide (idx x = j)) as [<-|]; [left; done|by right].
Qed.

Lemma bloom_add_spec item f :
  bloom_wf f →
  ∃ f', bloom_add bloom_hash item f = Some f' ∧ bloom_wf f' ∧ might_contain bloom_hash item f' = Some true ∧
    ∀ x, might_contain bloom_hash x f = Some true → might_contain bloom_hash x f' = Some true.
Proof.
  intros Hwf. pose proof Hwf as [Hs Hl]. unfold bloom_add, might_contain.
  rewrite (proj2 (Z.eqb_neq _ _)) by lia. eexists. split; [done|]. simpl. rewrite (proj2 (Z.eqb_neq _ _)) by lia.
  set (ixs := seq 0 (bf_hash_functions f)). set (bits := foldl _ (bf_bits f) ixs).
  assert (Hlen : length bits = length (bf_bits f)).
  { unfold bits. clear -f. generalize (bf_bits f). induction ixs as [|i ixs IH]; intros l; simpl; [done|].
    by rewrite IH, length_insert. }
  assert (Hbits : ∀ j, bits !! j = Some true ↔ bf_bits f !! j = Some true ∨ ∃ i, i ∈ ixs ∧ bloom_index bloom_hash f item i = j).
  { intros j. apply set_bits_spec. intros i _. by apply bloom_index_lt. }
  assert (Hdef : ∀ (l : list bool) j, default false (l !! j) = true ↔ l !! j = Some true)
    by (intros l j; destruct (l !! j) as [[]|]; naive_solver).
  split; [split; simpl; [done|by rewrite Hlen]|]. split.
  - f_equal. apply forallb_forall. intros i Hi. apply Hdef, Hbits. right. exists i. split; [by apply list_elem_of_In|done].
  - intros x [= Hx]. f_equal. rewrite forallb_forall in Hx |- *. intros i Hi. apply Hdef, Hbits. left. by apply Hdef, Hx.
Qed.

Lemma bloom_new_empty size item : 0 < size → might_contain bloom_hash item (bloom_new size) = Some false.
Proof.
  intros Hs. unfold might_contain. simpl bf_size. rewrite (proj2 (Z.eqb_neq _ _)) by lia. simpl bf_hash_functions.
  simpl seq. cbn [forallb]. do 2 f_equal.
  assert (Hlt := bloom_index_lt (bloom_new size) item 0 (bloom_new_wf size Hs)). simpl bf_bits in *.
  rewrite length_replicate in Hlt. rewrite lookup_replicate_2 by done. done.
Qed.
End bloom.

(** ** The manager over time *)

Section history.
Context {Regex : Type} (regex_new : string → option Regex) (is_match : Regex → string → bool).
Context (bloom_hash : string → nat → Z) (hash : string → Z).
Context {S : Type} `{!RuleStorage S}.
Abbreviation Cached := (CachedAclEntry Regex).
Abbreviation Manager := (AclManager Regex S).
Context (order : list (string * Cached) → list (string * Cached)).
Implicit Types (m : Manager) (config : AclConfig) (storage : S).

Abbreviation evaluate := (evaluate_access regex_new is_match bloom_hash hash order).

Inductive ManagerOp :=
  | MEvaluate (now : Z) (principal resource : string) (kind : AccessKind) (context : option (gmap string string))
  | MInvalidate (keys : list string)
  | MCleanup (now : Z).
Definition run_manager_op (op : ManagerOp) m : Manager :=
  match op with
  | MEvaluate now p r k ctx => (evaluate now p r k ctx m).2
  | MInvalidate keys => invalidate_cache hash keys m
  | MCleanup now => cleanup_expired_cache_entries now m
  end.
Definition run_manager_ops (ops : list ManagerOp) m : Manager := foldl (λ m op, run_manager_op op m) m ops.

Lemma invalidate_frame keys m :
  let m' := invalidate_cache hash keys m in
  am_storage m' = am_storage m ∧ am_config m' = am_config m ∧
  am_bloom_filter m' = (if ac_negative_cache_enabled (am_config m)
                        then Some (bloom_new (ac_bloom_filter_size (am_config m))) else am_bloom_filter m).
Proof.
  unfold invalidate_cache. set (m1 := with_l1 _ m).
  assert (Hf : ∀ keys m1, let m2 := foldl (λ m k, match am_l2_cache_shards m !! get_shard_index hash k m with
      | Some shard => with_l2 (<[get_shard_index hash k m := delete k shard]> (am_l2_cache_shards m)) m
      | None => m end) m1 keys in
    am_storage m2 = am_storage m1 ∧ am_config m2 = am_config m1 ∧ am_bloom_filter m2 = am_bloom_filter m1).
  { clear. intros keys. induction keys as [|k keys IH]; intros m1; [done|]. cbn [foldl].
    edestruct IH as (-> & -> & ->). by destruct (_ !! _). }
  destruct (Hf keys m1) as (E1 & E2 & E3). cbn zeta in *. set (m2 := foldl _ m1 keys) in *.
  change (am_storage m1) with (am_storage m) in E1. change (am_config m1) with (am_config m) in E2.
  change (am_bloom_filter m1) with (am_bloom_filter m) in E3. rewrite E2.
  destruct (ac_negative_cache_enabled (am_config m)); split_and!; done.
Qed.

Lemma evaluate_negative now p r k ctx m config :
  ac_negative_cache_enabled config = true → 0 < ac_bloom_filter_size config →
  am_config m = config → am_bloom_filter m = Some (bloom_new (ac_bloom_filter_size config)) →
  ∃ m', evaluate now p r k ctx m = (Ok false, m') ∧ am_config m' = config ∧ am_bloom_filter m' = am_bloom_filter m.
Proof.
  intros Hn Hs Hc Hb. unfold evaluate_access. cbn [am_config am_bloom_filter with_stats]. rewrite Hc, Hn, Hb.
  rewrite bloom_new_empty by done. eexists. split; [done|]. split; [done|]. by rewrite <- Hb.
Qed.

(** Negative caching denies everything.  With the negative cache
    enabled the manager never grants an access, whatever the rules say and
    whatever happened before: a key that is not in the Bloom filter is denied
    without looking at the rules, and a key only gets there after it passed
    that test. *)
Theorem negative_cache_denies_all storage config ops now principal resource kind context :
  ac_negative_cache_enabled config = true → 0 < ac_bloom_filter_size config →
  (evaluate now principal resource kind context (run_manager_ops ops (manager_new storage config))).1 = Ok false.
Proof.
  intros Hn Hs.
  assert (Hinv : ∀ ops m, am_config m = config → am_bloom_filter m = Some (bloom_new (ac_bloom_filter_size config)) →
    let m' := run_manager_ops ops m in
    am_config m' = config ∧ am_bloom_filter m' = Some (bloom_new (ac_bloom_filter_size config))).
  { clear ops. intros ops. induction ops as [|op ops IH]; intros m Hc Hb; [done|]. cbn [run_manager_ops foldl].
    apply IH; destruct op as [now' p r k ctx|keys|now']; simpl.
    - destruct (evaluate_negative now' p r k ctx m config Hn Hs Hc Hb) as (m' & -> & ? & ?). done.
    - destruct (invalidate_frame keys m) as (_ & -> & _). done.
    - done.
    - destruct (evaluate_negative now' p r k ctx m config Hn Hs Hc Hb) as (m' & -> & ? & E). simpl. by rewrite E.
    - destruct (invalidate_frame keys m) as (_ & _ & ->). by rewrite Hc, Hn.
    - done. }
  destruct (Hinv ops (manager_new storage config)) as [Hc Hb]; [done|simpl; by rewrite Hn|].
  destruct (evaluate_negative now principal resource kind context _ config Hn Hs Hc Hb) as (m' & -> & _). done.
Qed.

(** *** Cached decisions *)

Definition colon_free (s : string) : Prop := no_char ":"%char s = true.

Lemma cache_key_principal p1 r1 k1 p2 r2 k2 :
  colon_free p1 → colon_free p2 → cache_key p1 r1 k1 = cache_key p2 r2 k2 → p1 = p2.
Proof.
  intros H1 H2 E. apply (f_equal (split_on ":"%char)) in E. unfold cache_key in E.
  change (":" +:+ ?x) with (String ":"%char x) in E. rewrite !split_on_app in E.
  rewrite (split_on_plain _ p1), (split_on_plain _ p2) in E by done. by injection E.
Qed.

Context (storage : S).

(** The principal's rules are known, and it has at most one, that is live and
    compiles. *)
Definition one_rule (principal : string) : Prop :=
  ∃ rules, rules_for_principal principal storage = Ok rules ∧
    (rules = [] ∨ ∃ v, rules = [v] ∧ vr_deleted v = false ∧ is_Some (from_rule regex_new (vr_rule v))).

Definition good_entry (key : string) (c : Cached) : Prop :=
  ∃ p r k now v, colon_free p ∧ key = cache_key p r k ∧ rules_for_principal p storage = Ok [v] ∧
    vr_deleted v = false ∧ is_Some (from_rule regex_new (vr_rule v)) ∧ c = create_cached_entry regex_new now v.
Definition good_cache (c : gmap string Cached) : Prop := ∀ key e, c !! key = Some e → good_entry key e.

Record manager_ok m : Prop := {
  mk_storage : am_storage m = storage;
  mk_negative : ac_negative_cache_enabled (am_config m) = false;
  mk_shards : am_l2_cache_shards m ≠ [];
  mk_l1 : good_cache (am_l1_cache m);
  mk_l2 : Forall good_cache (am_l2_cache_shards m);
}.

Lemma good_cache_delete k c : good_cache c → good_cache (delete k c).
Proof. intros Hc key e [_ He]%lookup_delete_Some. by apply Hc. Qed.
Lemma good_cache_insert k e c : good_entry k e → good_cache c → good_cache (<[k := e]> c).
Proof. intros He Hc key e' [[<- <-]|[_ H]]%lookup_insert_Some; [done|by apply Hc]. Qed.
Lemma good_cache_filter (P : string * Cached → Prop) `{∀ x, Decision (P x)} c : good_cache c → good_cache (filter P c).
Proof. intros Hc key e [He _]%map_lookup_filter_Some. by apply Hc. Qed.

Lemma update_l1_ok key e m : good_entry key e → manager_ok m → manager_ok (update_l1_cache order key e m).
Proof.
  intros He [H1 H2 H3 H4 H5]. split; try done. simpl. apply good_cache_insert; [done|].
  destruct (_ <=? _); [|done]. destruct (find_lru_key _ _); [by apply good_cache_delete|done].
Qed.
Lemma update_l2_ok key e m : good_entry key e → manager_ok m → manager_ok (update_l2_cache hash order key e m).
Proof.
  intros He [H1 H2 H3 H4 H5]. unfold update_l2_cache. destruct (_ !! _) as [shard|] eqn:Es; [|by split].
  assert (Hs : good_cache shard) by (rewrite Forall_lookup in H5; by eapply H5).
  split; try done; simpl.
  - intros E. apply (f_equal length) in E. rewrite length_insert in E. by destruct (am_l2_cache_shards m).
  - apply Forall_insert; [done|]. apply good_cache_insert; [done|].
    destruct (_ <=? _); [|done]. destruct (head _) as [[? ?]|]; [by apply good_cache_delete|done].
Qed.

Lemma check_l2_good key m c : manager_ok m → check_l2_cache hash key m = Some c → good_entry key c.
Proof.
  intros [_ _ _ _ H5]. unfold check_l2_cache. destruct (_ !! _) as [shard|] eqn:Es; [|done]. simpl. intros Hc.
  rewrite Forall_lookup in H5. by eapply H5.
Qed.

Lemma good_entry_decides p r k c rules resource op ctx :
  colon_free p → rules_for_principal p storage = Ok rules → good_entry (cache_key p r k) c →
  evaluate_cached_entry is_match c p resource op ctx
  = is_allowed (evaluate_rules regex_new is_match rules p resource op ctx).
Proof.
  intros Hp Hr (p' & r' & k' & now & v & Hp' & E & Hv & Hl & Hc & ->).
  apply cache_key_principal in E; [|done|done]. subst p'. rewrite Hv in Hr. injection Hr as <-.
  by apply cached_entry_decides.
Qed.

Lemma evaluate_ok now p r k ctx m rules :
  manager_ok m → colon_free p → one_rule p → rules_for_principal p storage = Ok rules →
  ∃ m', evaluate now p r k ctx m
    = (Ok (is_allowed (evaluate_rules regex_new is_match rules p r (operation_of_kind k) ctx)), m') ∧ manager_ok m'.
Proof.
  intros Hok Hp (rules' & Hr' & Hone) Hr. rewrite Hr in Hr'. injection Hr' as <-.
  unfold evaluate_access. cbn [am_config with_stats]. rewrite (mk_negative m Hok).
  set (m1 := with_stats _ m). assert (Hok1 : manager_ok m1) by (by destruct Hok).
  unfold evaluate_cached. destruct (check_l1_cache _ m1) as [c|] eqn:E1.
  { eexists. split.
    - by rewrite (good_entry_decides p r k c rules r _ ctx Hp Hr (mk_l1 m1 Hok1 _ _ E1)).
    - by destruct Hok1. }
  rewrite decide_False by (apply (mk_shards m1 Hok1)).
  destruct (check_l2_cache hash _ m1) as [c|] eqn:E2.
  { pose proof (check_l2_good _ _ _ Hok1 E2) as Hg. eexists. split.
    - by rewrite (good_entry_decides p r k c rules r _ ctx Hp Hr Hg).
    - apply update_l1_ok; [done|by destruct Hok1]. }
  unfold evaluate_uncached. set (m2 := with_stats _ m1). assert (Hok2 : manager_ok m2) by (by destruct Hok1).
  rewrite (mk_storage m2 Hok2), Hr, (mk_negative m2 Hok2).
  assert (Haudit : ∀ m3 x, manager_ok m3 → manager_ok (if ac_enable_audit_logging (am_config m3)
     then log_access_check p r (show_kind k) x ((λ v, ru_id (vr_rule v)) <$> head rules) m3 else m3)).
  { intros m3 x H3. destruct (ac_enable_audit_logging _); [|done]. by destruct H3. }
  destruct Hone as [->|(v & -> & Hl & Hc)].
  - eexists. split; [done|]. by apply Haudit.
  - eexists. split; [done|]. apply Haudit. apply update_l1_ok, update_l2_ok; [|  |done];
      exists p, r, k, now, v; done.
Qed.

Lemma l2_nonempty (shards : list (gmap string Cached)) i shard :
  shards ≠ [] → <[i := shard]> shards ≠ [].
Proof. intros Hne E. apply (f_equal length) in E. rewrite length_insert in E. by destruct shards. Qed.

Lemma invalidate_ok keys m : manager_ok m → manager_ok (invalidate_cache hash keys m).
Proof.
  intros Hm. unfold invalidate_cache. set (m1 := with_l1 _ m). set (m2 := foldl _ m1 keys).
  assert (H1 : manager_ok m1).
  { destruct Hm as [? ? ? Hl1 ?]. split; try done. simpl. clear -Hl1. revert Hl1. generalize (am_l1_cache m).
    induction keys as [|x keys IH]; intros c Hc; [done|]. by apply IH, good_cache_delete. }
  assert (H2 : manager_ok m2).
  { unfold m2. clear -H1. revert H1. generalize m1. induction keys as [|x keys IH]; intros m2 H2; [done|].
    cbn [foldl]. apply IH. destruct (_ !! _) as [shard|] eqn:Es; [|done]. destruct H2 as [? ? Hne ? Hl2].
    assert (good_cache shard) by (rewrite Forall_lookup in Hl2; by eapply Hl2).
    split; try done; simpl; [by apply l2_nonempty|by apply Forall_insert, good_cache_delete]. }
  by rewrite (mk_negative m2 H2).
Qed.

Lemma cleanup_ok now m : manager_ok m → manager_ok (cleanup_expired_cache_entries now m).
Proof.
  intros [? ? Hne Hl1 Hl2]. split; try done; simpl.
  - by destruct (am_l2_cache_shards m).
  - by apply good_cache_filter.
  - apply Forall_fmap. eapply Forall_impl; [done|]. intros c Hc. by apply good_cache_filter.
Qed.

Lemma run_manager_ops_ok ops m :
  (∀ now p r k ctx, MEvaluate now p r k ctx ∈ ops → colon_free p ∧ one_rule p) →
  manager_ok m → manager_ok (run_manager_ops ops m).
Proof.
  revert m. induction ops as [|op ops IH]; intros m Hops Hm; [done|]. cbn [run_manager_ops foldl].
  apply IH; [intros * ?; eapply Hops; by right|].
  destruct op as [now p r k ctx|keys|now]; [|by apply invalidate_ok|by apply cleanup_ok]. simpl.
  destruct (Hops now p r k ctx) as [Hp Hone]; [left|]. pose proof Hone as (rules & Hr & _).
  by destruct (evaluate_ok now p r k ctx m rules Hm Hp Hone Hr) as (m' & -> & ?).
Qed.

(** Caching does not change decisions for principals with one rule.
    With the negative cache off, over any history of evaluations,
    invalidations and expirations for principals that have at most one live
    rule, every evaluation answers what evaluating that rule answers. *)
Theorem cached_decisions_agree config ops now p r k ctx rules :
  ac_negative_cache_enabled config = false → ac_l2_shards config ≠ 0%nat →
  (∀ now p r k ctx, MEvaluate now p r k ctx ∈ ops → colon_free p ∧ one_rule p) →
  colon_free p → one_rule p → rules_for_principal p storage = Ok rules →
  (evaluate now p r k ctx (run_manager_ops ops (manager_new storage config))).1
  = Ok (is_allowed (evaluate_rules regex_new is_match rules p r (operation_of_kind k) ctx)).
Proof.
  intros Hn Hsh Hops Hp Hone Hr.
  assert (Hnew : manager_ok (manager_new storage config)).
  { split; simpl; try done; [by destruct (ac_l2_shards config)|].
    by apply Forall_replicate. }
  destruct (evaluate_ok now p r k ctx _ rules (run_manager_ops_ok ops _ Hops Hnew) Hp Hone Hr) as (m' & -> & _).
  done.
Qed.
End history.

(** ** Concrete managers *)

Module AclDemo.
Definition no_regex : string → option unit := λ _, None.
Definition no_match : unit → string → bool := λ _ _, false.
Definition bhash (s : string) (i : nat) : Z := Z.of_nat (String.length s + i).
Definition khash (s : string) : Z := Z.of_nat (String.length s).
Definition Rules := gmap string (list VersionedAclRule).
#[global] Instance rules_storage : RuleStorage Rules := {| rules_for_principal p s := Ok (default [] (s !! p)) |}.
Abbreviation same := (λ l : list (string * CachedAclEntry unit), l).
Abbreviation evaluate := (evaluate_access no_regex no_match bhash khash same).
Abbreviation run := (run_manager_ops no_regex no_match bhash khash same).

Definition rule (id principal resource : string) (ops : list AclOperation) (e : Effect) : VersionedAclRule :=
  mkVersioned (mkRule id principal (mkPattern RTopic resource) ops e ∅) 1 0 "admin" "created" false.
Definition allow_all := rule "r1" "alice" "logs*" [OpRead; OpWrite] EffAllow.
Definition deny_secret := rule "r2" "alice" "logs-secret" [OpRead] EffDeny.
Definition conf (negative : bool) : AclConfig := mkAclConfig 10 300 4 1024 true negative.
Definition one : Rules := {[ "alice" := [allow_all] ]}.
Definition two : Rules := {[ "alice" := [allow_all; deny_secret] ]}.

Lemma pattern_matchers_agree_witness :
  matches_name (mkPattern RTopic "logs*") "logs-1" = true ∧
  ∃ c, compile no_regex "logs*" = Some c ∧ compiled_matches no_match c "logs-1" = true.
Proof.
  destruct (pattern_matchers_agree no_regex no_match "logs*" RTopic) as (c & Hc & Hm & _).
  { apply (simple_star "logs" EmptyString); vm_compute; reflexivity. }
  split; [vm_compute; reflexivity|]. exists c. split; [exact Hc|].
  rewrite (proj1 (Hm "logs-1")). vm_compute. reflexivity.
Defined.

Lemma negative_cache_denies_all_witness :
  (evaluate 0 "alice" "logs-1" AccRead None
     (run [MEvaluate 0 "alice" "logs-1" AccRead None] (manager_new one (conf true)))).1 = Ok false ∧
  is_allowed (evaluate_rules no_regex no_match [allow_all] "alice" "logs-1" OpRead None) = true.
Proof.
  split; [|vm_compute; reflexivity].
  exact (negative_cache_denies_all no_regex no_match bhash khash same one (conf true)
    [MEvaluate 0 "alice" "logs-1" AccRead None] 0 "alice" "logs-1" AccRead None eq_refl eq_refl).
Defined.

Lemma one_rule_alice : one_rule no_regex one "alice".
Proof.
  exists [allow_all]. split; [vm_compute; reflexivity|]. right. exists allow_all.
  split; [reflexivity|]. split; [reflexivity|]. eexists. vm_compute. reflexivity.
Qed.
Lemma cached_decisions_agree_witness :
  (evaluate 1 "alice" "logs-1" AccRead None
     (run [MEvaluate 0 "alice" "logs-1" AccRead None; MInvalidate ["alice:x:Read"]]
        (manager_new one (conf false)))).1 = Ok true.
Proof.
  rewrite (cached_decisions_agree no_regex no_match bhash khash same one (conf false) _ 1 "alice" "logs-1" AccRead
    None [allow_all]); [vm_compute; reflexivity|reflexivity|discriminate| |reflexivity|apply one_rule_alice|
    vm_compute; reflexivity].
  intros now p r k ctx H. rewrite elem_of_cons, list_elem_of_singleton in H. destruct H as [H|H]; [|discriminate].
  injection H as -> -> -> -> ->. split; [reflexivity|apply one_rule_alice].
Defined.

(** The first evaluation applies both rules and denies; it leaves the first
    rule in the cache, and the second evaluation allows on that rule alone. *)
Lemma second_check_allows :
  let first := evaluate 0 "alice" "logs-secret" AccRead None (manager_new two (conf false)) in
  first.1 = Ok false ∧ (evaluate 0 "alice" "logs-secret" AccRead None first.2).1 = Ok true.
Proof. vm_compute. done. Qed.

(** The keys that storing a rule invalidates hold a literal star. *)
Lemma invalidate_star_keeps_entry :
  let first := evaluate 0 "alice" "logs-1" AccRead None (manager_new one (conf false)) in
  first.1 = Ok true ∧
  (evaluate 0 "alice" "logs-1" AccRead None
     (invalidate_cache khash ["alice:*"]
        (mkManager (∅ : Rules) (am_config first.2) (am_l1_cache first.2) (am_l2_cache_shards first.2)
           (am_bloom_filter first.2) (am_cache_stats first.2) (am_audit_log first.2)))).1 = Ok true.
Proof. vm_compute. done. Qed.

Lemma wildcard_overlap :
  matches_name (mkPattern RTopic "ab*ba") "aba" = true ∧
  ¬ ∃ middle, "aba" = "ab" +:+ middle +:+ "ba".
Proof.
  split; [vm_compute; reflexivity|]. rewrite wildcard_spec. simpl. intros [_ H]. lia.
Qed.

Lemma all_is_no_wildcard :
  applies_to_operation (vr_rule (rule "r3" "alice" "*" [OpAll] EffAllow)) OpRead = false.
Proof. vm_compute. done. Qed.

Lemma several_stars :
  matches_name (mkPattern RTopic "*logs*") "*logs-1" = true ∧
  ∃ c, compile no_regex "*logs*" = Some c ∧ compiled_matches no_match c "*logs-1" = false.
Proof. split; [vm_compute; reflexivity|]. eexists. split; vm_compute; reflexivity. Qed.
End AclDemo.
