(* ===== verification/AclStorage.v ===== *)
(** * The ACL rule storage

    Model of [ObjectStorageAclStorage] of [src/src/security/acl/storage.rs]
    (rules as JSON objects, a cache, a version counter and two indices), of the
    rule validation of [manager.rs].  The object store and the cache are the classes of
    [ObjectStorage] and [LruCache].  Generated
    identifiers, times and iteration orders are arguments. *)

From Stdlib Require Import Ascii String.
From S2P Require Import Prelude Types LruCache ObjectStorage AccessControl.
Local Open Scope Z_scope.

(** [ObjectStorage::list] and [ObjectStorage::exists] *)
Class ObjectListing (O : Type) := {
  os_list : string → O → Result (list string) * O;
  os_exists : string → O → Result bool * O;
}.
#[global] Hint Mode ObjectListing ! : typeclass_instances.

(** ** Data *)

Record AclRuleFilter := mkFilter {
  fi_principal : option string;
  fi_resource_pattern : option string;
  fi_operations : option (list AclOperation);
  fi_effect : option Effect;
  fi_version_range : option (Z * Z);
  fi_include_deleted : bool;
  fi_limit : option Z;
}.
Record AclSnapshot := mkAclSnapshot {
  sn_rules : list VersionedAclRule;
  sn_version_counter : Z;
  sn_timestamp : Z;
  sn_snapshot_id : string;
  sn_metadata : gmap string string;
}.

Record AclStorage (O C : Type) := mkAclStorage {
  ao_object_storage : O;
  ao_cache : C;
  ao_version_counter : Z;
  ao_rule_index : gmap string string;
  ao_principal_index : gmap string (gset string);
}.
Arguments mkAclStorage {O C}. Arguments ao_object_storage {O C}. Arguments ao_cache {O C}.
Arguments ao_version_counter {O C}. Arguments ao_rule_index {O C}. Arguments ao_principal_index {O C}.

Section storage.
Context {O C : Type} `{!ObjectStorage O, !ObjectListing O, !Cache C}.
Context `{!Json VersionedAclRule, !Json AclSnapshot}.
Context (key_prefix : string).
Local Open Scope rust_scope.
Abbreviation St := (AclStorage O C).

Definition with_objects (o : O) (s : St) : St :=
  mkAclStorage o (ao_cache s) (ao_version_counter s) (ao_rule_index s) (ao_principal_index s).
Definition with_acl_cache (c : C) (s : St) : St :=
  mkAclStorage (ao_object_storage s) c (ao_version_counter s) (ao_rule_index s) (ao_principal_index s).
Definition with_version (v : Z) (s : St) : St :=
  mkAclStorage (ao_object_storage s) (ao_cache s) v (ao_rule_index s) (ao_principal_index s).
Definition with_rule_index (m : gmap string string) (s : St) : St :=
  mkAclStorage (ao_object_storage s) (ao_cache s) (ao_version_counter s) m (ao_principal_index s).
Definition with_principal_index (m : gmap string (gset string)) (s : St) : St :=
  mkAclStorage (ao_object_storage s) (ao_cache s) (ao_version_counter s) (ao_rule_index s) m.

Definition get_rule_object_key (rule_id : string) : string := key_prefix +:+ "rules/" +:+ rule_id +:+ ".json".
Definition get_rule_cache_key (rule_id : string) : string := "acl:rule:" +:+ rule_id.
Definition deserialize_rule (data : bytes) : Result VersionedAclRule := ok_or (from_json data) Config.
Definition next_version (s : St) : Z * St :=
  let v := u64_add (ao_version_counter s) 1 in (v, with_version v s).

Definition get_version (s : St) : Z := ao_version_counter s.

(** [entry(principal).or_insert_with(HashSet::new).insert(id)] and
    [get_mut(principal)] with [remove(id)] *)
Definition index_insert (principal id : string) (m : gmap string (gset string)) : gmap string (gset string) :=
  <[principal := {[id]} ∪ default ∅ (m !! principal)]> m.
Definition index_remove (principal id : string) (m : gmap string (gset string)) : gmap string (gset string) :=
  alter (λ ids, ids ∖ {[id]}) principal m.

(** Write an object and the cache entry of a rule. *)
Definition put_object (key : string) (data : bytes) (s : St) : Result unit * St :=
  let '(r, o) := os_put key data (ao_object_storage s) in (r, with_objects o s).
Definition put_cache (key : string) (data : bytes) (s : St) : Result unit * St :=
  let '(r, c) := cache_put key data (ao_cache s) in (r, with_acl_cache c s).
Definition remove_cache (key : string) (s : St) : Result unit * St :=
  let '(r, c) := cache_remove key (ao_cache s) in (r, with_acl_cache c s).

Definition get_rule (rule_id : string) (s : St) : Result (option VersionedAclRule) * St :=
  let cache_key := get_rule_cache_key rule_id in
  let '(cached, c) := cache_get cache_key (ao_cache s) in
  let s := with_acl_cache c s in
  match (match cached with Ok (Some data) => from_json data | _ => None end) with
  | Some rule => (Ok (Some rule), s)
  | None =>
      let '(r, o) := os_get (get_rule_object_key rule_id) (ao_object_storage s) in
      let s := with_objects o s in
      match r with
      | Ok data =>
          match deserialize_rule data with
          | Err e => (Err e, s)
          | Ok rule => (Ok (Some rule), (put_cache cache_key data s).2)
          end
      | Err e => (if decide (e = ObjectNotFound) then Ok None else Err e, s)
      end
  end.

Definition create_rule (uuid : string) (now : Z) (rule : AclRule) (created_by description : string) (s : St)
  : Result string * St :=
  let id := if String.eqb (ru_id rule) EmptyString then uuid else ru_id rule in
  let rule := mkRule id (ru_principal rule) (ru_resource rule) (ru_operations rule) (ru_effect rule)
                (ru_conditions rule) in
  if decide (is_Some (ao_rule_index s !! id)) then (Err AclEvaluation, s)
  else
    let '(version, s) := next_version s in
    let data := to_json (mkVersioned rule version now created_by description false) in
    let object_key := get_rule_object_key id in
    let! (_u, s) := put_object object_key data s in
    let! (_u, s) := put_cache (get_rule_cache_key id) data s in
    let s := with_rule_index (<[id := object_key]> (ao_rule_index s)) s in
    (Ok id, with_principal_index (index_insert (ru_principal rule) id (ao_principal_index s)) s).

Definition update_rule (now : Z) (rule_id : string) (rule : AclRule) (updated_by description : string) (s : St)
  : Result unit * St :=
  let rule := mkRule rule_id (ru_principal rule) (ru_resource rule) (ru_operations rule) (ru_effect rule)
                (ru_conditions rule) in
  let! (existing, s) := get_rule rule_id s in
  match existing with
  | None => (Err AclEvaluation, s)
  | Some existing_rule =>
      let '(version, s) := next_version s in
      let data := to_json (mkVersioned rule version now updated_by description false) in
      let! (_u, s) := put_object (get_rule_object_key rule_id) data s in
      let! (_u, s) := put_cache (get_rule_cache_key rule_id) data s in
      let old := ru_principal (vr_rule existing_rule) in
      (Ok tt,
       if decide (old = ru_principal rule) then s
       else with_principal_index
              (index_insert (ru_principal rule) rule_id (index_remove old rule_id (ao_principal_index s))) s)
  end.

Definition delete_rule (now : Z) (rule_id deleted_by description : string) (s : St) : Result unit * St :=
  let! (existing, s) := get_rule rule_id s in
  match existing with
  | None => (Err AclEvaluation, s)
  | Some existing_rule =>
      let '(version, s) := next_version s in
      let data := to_json (mkVersioned (vr_rule existing_rule) version now deleted_by description true) in
      let! (_u, s) := put_object (get_rule_object_key rule_id) data s in
      let! (_u, s) := remove_cache (get_rule_cache_key rule_id) s in
      (Ok tt, with_principal_index
                (index_remove (ru_principal (vr_rule existing_rule)) rule_id (ao_principal_index s)) s)
  end.

(** The loops of [get_rules_for_principal]: errors and deleted rules are
    skipped. *)
Fixpoint collect_rules (ids : list string) (s : St) : list VersionedAclRule * St :=
  match ids with
  | [] => ([], s)
  | id :: ids =>
      let '(r, s) := get_rule id s in
      let '(rules, s) := collect_rules ids s in
      (match r with
       | Ok (Some rule) => if vr_deleted rule then rules else rule :: rules
       | _ => rules
       end, s)
  end.
Definition pattern_selects (principal pattern : string) : bool :=
  contains_char star pattern
  && (String.eqb pattern "*"
      || (ends_with "*" pattern && starts_with (substring 0 (String.length pattern - 1) pattern) principal)
      || (starts_with "*" pattern && ends_with (substring 1 (String.length pattern - 1) pattern) principal)).
Definition get_rules_for_principal (order : list (string * gset string) → list (string * gset string))
    (principal : string) (s : St) : list VersionedAclRule * St :=
  let direct := elements (default ∅ (ao_principal_index s !! principal)) in
  let wild := filter (λ kv, pattern_selects principal kv.1 = true) (order (map_to_list (ao_principal_index s))) in
  collect_rules (direct ++ (wild ≫= λ kv, elements kv.2)) s.

(** *** Loading, listing and snapshots *)

Fixpoint load_keys (keys : list string) (o : O) : list VersionedAclRule * O :=
  match keys with
  | [] => ([], o)
  | key :: keys =>
      let '(r, o) := os_get key o in
      let '(rules, o) := load_keys keys o in
      (match r with
       | Ok data => match from_json data with Some rule => rule :: rules | None => rules end
       | Err _ => rules
       end, o)
  end.
Definition load_all_rules (s : St) : Result (list VersionedAclRule) * St :=
  let '(r, o) := os_list (key_prefix +:+ "rules/") (ao_object_storage s) in
  match r with
  | Err e => (Err e, with_objects o s)
  | Ok keys => let '(rules, o) := load_keys keys o in (Ok rules, with_objects o s)
  end.

Definition index_rule (s : St) (rule : VersionedAclRule) : St :=
  let id := ru_id (vr_rule rule) in
  mkAclStorage (ao_object_storage s) (ao_cache s) (Z.max (ao_version_counter s) (vr_version rule))
    (<[id := get_rule_object_key id]> (ao_rule_index s))
    (index_insert (ru_principal (vr_rule rule)) id (ao_principal_index s)).
Definition acl_storage_new (o : O) (c : C) : Result unit * St :=
  let! (rules, s) := load_all_rules (mkAclStorage o c 0 ∅ ∅) in
  (Ok tt, foldl index_rule s rules).

Definition filter_accepts (f : AclRuleFilter) (v : VersionedAclRule) : bool :=
  (negb (vr_deleted v) || fi_include_deleted f)
  && match fi_principal f with Some p => String.eqb (ru_principal (vr_rule v)) p | None => true end
  && match fi_resource_pattern f with Some p => String.eqb (rp_pattern (ru_resource (vr_rule v))) p | None => true end
  && match fi_operations f with
     | Some ops => existsb (λ op, bool_decide (op ∈ ru_operations (vr_rule v))) ops | None => true end
  && match fi_effect f with Some e => bool_decide (ru_effect (vr_rule v) = e) | None => true end
  && match fi_version_range f with
     | Some (lo, hi) => (lo <=? vr_version v) && (vr_version v <=? hi) | None => true end.
(** The limit is tested after a rule was added. *)
Fixpoint take_filtered (f : AclRuleFilter) (n : Z) (rules : list VersionedAclRule) : list VersionedAclRule :=
  match rules with
  | [] => []
  | v :: rules =>
      if filter_accepts f v
      then v :: match fi_limit f with
                | Some limit => if limit <=? n + 1 then [] else take_filtered f (n + 1) rules
                | None => take_filtered f (n + 1) rules
                end
      else take_filtered f n rules
  end.
Definition list_rules (f : AclRuleFilter) (s : St) : Result (list VersionedAclRule) * St :=
  let! (rules, s) := load_all_rules s in (Ok (take_filtered f 0 rules), s).
Definition get_rules_since_version (version : Z) (s : St) : Result (list VersionedAclRule) * St :=
  let! (rules, s) := load_all_rules s in (Ok (filter (λ v, version < vr_version v) rules), s).

Definition create_snapshot (uuid : string) (now : Z) (s : St) : Result AclSnapshot * St :=
  let! (rules, s) := load_all_rules s in
  let snapshot := mkAclSnapshot rules (get_version s) now uuid ∅ in
  let! (_u, s) := put_object (key_prefix +:+ "snapshots/" +:+ uuid +:+ ".json") (to_json snapshot) s in
  (Ok snapshot, s).
Fixpoint restore_rules (rules : list VersionedAclRule) (s : St) : Result unit * St :=
  match rules with
  | [] => (Ok tt, s)
  | v :: rules =>
      if vr_deleted v then restore_rules rules s
      else
        let id := ru_id (vr_rule v) in
        let! (_u, s) := put_object (get_rule_object_key id) (to_json v) s in
        let s := with_rule_index (<[id := get_rule_object_key id]> (ao_rule_index s)) s in
        let s := with_principal_index (index_insert (ru_principal (vr_rule v)) id (ao_principal_index s)) s in
        restore_rules rules s
  end.
Definition restore_snapshot (snapshot : AclSnapshot) (s : St) : Result unit * St :=
  let s := with_principal_index ∅ (with_rule_index ∅ s) in
  let! (_u, s) := restore_rules (sn_rules snapshot) s in
  (Ok tt, with_version (sn_version_counter snapshot) s).

Definition list_snapshots (s : St) : Result (list string) * St :=
  let '(r, o) := os_list (key_prefix +:+ "snapshots/") (ao_object_storage s) in
  (match r with
   | Ok keys => Ok (omap (λ key, strip_prefix (key_prefix +:+ "snapshots/") key ≫= strip_suffix ".json") keys)
   | Err e => Err e
   end, with_objects o s).

Fixpoint check_rules (index : list (string * string)) (s : St) : Result bool * St :=
  match index with
  | [] => (Ok true, s)
  | (rule_id, object_key) :: index =>
      let! (found, s) := (let '(r, o) := os_exists object_key (ao_object_storage s) in (r, with_objects o s)) in
      if negb found then (Ok false, s)
      else let '(r, s) := get_rule rule_id s in
           if is_ok r then check_rules index s else (Ok false, s)
  end.
Definition validate_integrity (order : list (string * string) → list (string * string)) (s : St) : Result bool * St :=
  check_rules (order (map_to_list (ao_rule_index s))) s.
End storage.

(** ** Validation *)

Definition principal_char (c : ascii) : bool :=
  is_alphanumeric c || existsb (Ascii.eqb c) ["-"; "."; "_"; "*"]%char.
Definition resource_char (c : ascii) : bool := principal_char c || Ascii.eqb c "/"%char.
(** The regular expressions of [AclSecurityValidator::new]: one or more of
    these characters. *)
Definition nonempty_all (P : ascii → bool) (s : string) : bool := negb (String.eqb s EmptyString) && str_all P s.

Definition validate_rule (rule : AclRule) : Result unit :=
  if (100 <? Z.of_nat (String.length (ru_id rule))) then Err SecurityConfig
  else if negb (nonempty_all principal_char (ru_principal rule)) then Err SecurityConfig
  else if negb (nonempty_all resource_char (rp_pattern (ru_resource rule))) then Err SecurityConfig
  else if bool_decide (ru_operations rule = []) then Err SecurityConfig
  else if 20 <? Z.of_nat (size (ru_conditions rule)) then Err SecurityConfig
  else if existsb (λ kv, (100 <? Z.of_nat (String.length kv.1)) || (1000 <? Z.of_nat (String.length kv.2)))
            (map_to_list (ru_conditions rule)) then Err SecurityConfig
  else Ok tt.

(** ** The storage as a map of rules *)

Lemma index_insert_elem p id idx q id' :
  id' ∈ default ∅ (index_insert p id idx !! q) ↔ (q = p ∧ id' = id) ∨ id' ∈ default ∅ (idx !! q).
Proof.
  unfold index_insert. destruct (decide (q = p)) as [->|].
  - rewrite lookup_insert_eq. simpl. set_solver.
  - rewrite lookup_insert_ne by done. naive_solver.
Qed.
Lemma index_remove_elem p id idx q id' :
  id' ∈ default ∅ (index_remove p id idx !! q) ↔ id' ∈ default ∅ (idx !! q) ∧ ¬ (q = p ∧ id' = id).
Proof.
  unfold index_remove. destruct (decide (q = p)) as [->|].
  - rewrite lookup_alter_eq. destruct (idx !! p); simpl; set_solver.
  - rewrite lookup_alter_ne by done. naive_solver.
Qed.

(** The abstract storage: the rules by identifier, deleted ones included, and
    the version counter. *)
Abbreviation RuleMap := (gmap string VersionedAclRule).

Inductive AclOp :=
  | ACreate (uuid : string) (now : Z) (rule : AclRule) (created_by description : string)
  | AUpdate (now : Z) (rule_id : string) (rule : AclRule) (updated_by description : string)
  | ADelete (now : Z) (rule_id deleted_by description : string)
  | AGet (rule_id : string)
  | APrincipal (principal : string).
Inductive AclOut :=
  | OutId (r : Result string)
  | OutUnit (r : Result unit)
  | OutRule (r : Result (option VersionedAclRule))
  | OutRules (rules : list VersionedAclRule).

Definition rule_id_of (uuid : string) (rule : AclRule) : string :=
  if String.eqb (ru_id rule) EmptyString then uuid else ru_id rule.
Definition with_id (id : string) (rule : AclRule) : AclRule :=
  mkRule id (ru_principal rule) (ru_resource rule) (ru_operations rule) (ru_effect rule) (ru_conditions rule).
Definition selected (principal : string) (v : VersionedAclRule) : bool :=
  negb (vr_deleted v)
  && (String.eqb (ru_principal (vr_rule v)) principal || pattern_selects principal (ru_principal (vr_rule v))).

Definition spec_op (op : AclOp) (st : RuleMap * Z) : AclOut * (RuleMap * Z) :=
  let '(m, ver) := st in
  let ver' := u64_add ver 1 in
  match op with
  | ACreate uuid now rule by_ d =>
      let id := rule_id_of uuid rule in
      match m !! id with
      | Some _ => (OutId (Err AclEvaluation), (m, ver))
      | None => (OutId (Ok id), (<[id := mkVersioned (with_id id rule) ver' now by_ d false]> m, ver'))
      end
  | AUpdate now id rule by_ d =>
      match m !! id with
      | None => (OutUnit (Err NotFound), (m, ver))
      | Some _ => (OutUnit (Ok tt), (<[id := mkVersioned (with_id id rule) ver' now by_ d false]> m, ver'))
      end
  | ADelete now id by_ d =>
      match m !! id with
      | None => (OutUnit (Err NotFound), (m, ver))
      | Some v => (OutUnit (Ok tt), (<[id := mkVersioned (vr_rule v) ver' now by_ d true]> m, ver'))
      end
  | AGet id => (OutRule (match m !! id with Some v => Ok (Some v) | None => Err NotFound end), (m, ver))
  | APrincipal p => (OutRules (filter (λ v, selected p v = true) (map_to_list m).*2), (m, ver))
  end.
Fixpoint spec_ops (ops : list AclOp) (st : RuleMap * Z) : list AclOut * (RuleMap * Z) :=
  match ops with
  | [] => ([], st)
  | op :: ops => let '(out, st) := spec_op op st in let '(outs, st) := spec_ops ops st in (out :: outs, st)
  end.

(** Lists of rules are compared as sets. *)
Definition out_matches (a b : AclOut) : Prop :=
  match a, b with
  | OutRules l1, OutRules l2 => ∀ v, v ∈ l1 ↔ v ∈ l2
  | _, _ => a = b
  end.

Section refinement.
Context {O C : Type} `{!ObjectStorage O, !ObjectStorageLaws O, !Cache C, !CacheLaws C, !CacheTotal C}.
Context `{!Json VersionedAclRule, !JsonLaws VersionedAclRule}.
Context (key_prefix : string) (order : list (string * gset string) → list (string * gset string)).
Hypothesis order_perm : ∀ l, order l ≡ₚ l.
Abbreviation St := (AclStorage O C).
Abbreviation okey := (get_rule_object_key key_prefix).
Abbreviation ckey := get_rule_cache_key.
Implicit Types (s : St) (m : RuleMap) (id : string) (v : VersionedAclRule).

Definition run_acl_op (op : AclOp) s : AclOut * St :=
  match op with
  | ACreate uuid now rule by_ d => let '(r, s) := create_rule key_prefix uuid now rule by_ d s in (OutId r, s)
  | AUpdate now id rule by_ d => let '(r, s) := update_rule key_prefix now id rule by_ d s in (OutUnit r, s)
  | ADelete now id by_ d => let '(r, s) := delete_rule key_prefix now id by_ d s in (OutUnit r, s)
  | AGet id => let '(r, s) := get_rule key_prefix id s in (OutRule r, s)
  | APrincipal p => let '(l, s) := get_rules_for_principal key_prefix order p s in (OutRules l, s)
  end.
Fixpoint run_acl_ops (ops : list AclOp) s : list AclOut * St :=
  match ops with
  | [] => ([], s)
  | op :: ops => let '(out, s) := run_acl_op op s in let '(outs, s) := run_acl_ops ops s in (out :: outs, s)
  end.

Definition id_ok id : Prop := os_ok_key (okey id) = true.

Record holds s m : Prop := {
  ho_reliable : os_reliable (ao_object_storage s);
  ho_object id : id_ok id → os_view (ao_object_storage s) (okey id) = to_json <$> m !! id;
  ho_cache id d : cache_view (ao_cache s) (ckey id) = Some d → to_json <$> m !! id = Some d;
  ho_id id v : m !! id = Some v → id_ok id;
  ho_index id : ao_rule_index s !! id = (λ _, okey id) <$> m !! id;
  ho_principal p id : id ∈ default ∅ (ao_principal_index s !! p) →
    ∃ v, m !! id = Some v ∧ ru_principal (vr_rule v) = p;
  ho_live id v : m !! id = Some v → vr_deleted v = false →
    id ∈ default ∅ (ao_principal_index s !! ru_principal (vr_rule v));
  ho_usable : cache_usable (ao_cache s);
}.

(** Identifiers the object store accepts; an update of a deleted rule names
    another principal than the rule had. *)
Definition acl_op_ok (op : AclOp) m : Prop :=
  match op with
  | ACreate uuid _ rule _ _ => id_ok (rule_id_of uuid rule)
  | AUpdate _ id rule _ _ =>
      id_ok id ∧ ∀ v, m !! id = Some v → vr_deleted v = true → ru_principal (vr_rule v) ≠ ru_principal rule
  | ADelete _ id _ _ | AGet id => id_ok id
  | APrincipal _ => True
  end.
Fixpoint acl_ops_ok (ops : list AclOp) (st : RuleMap * Z) : Prop :=
  match ops with [] => True | op :: ops => acl_op_ok op st.1 ∧ acl_ops_ok ops (spec_op op st).2 end.

Lemma okey_inj id1 id2 : okey id1 = okey id2 → id1 = id2.
Proof. intros E. unfold get_rule_object_key in E. by apply str_app_inj_l, str_app_inj_l, str_app_inj_r in E. Qed.
Lemma ckey_inj id1 id2 : ckey id1 = ckey id2 → id1 = id2.
Proof. intros E. unfold get_rule_cache_key in E. by apply str_app_inj_l in E. Qed.

(** A state that agrees with another up to the object store and the cache *)
Lemma holds_frame s s' m :
  holds s m → os_reliable (ao_object_storage s') →
  (∀ id, id_ok id → os_view (ao_object_storage s') (okey id) = os_view (ao_object_storage s) (okey id)) →
  (∀ id d, cache_view (ao_cache s') (ckey id) = Some d →
     cache_view (ao_cache s) (ckey id) = Some d ∨ to_json <$> m !! id = Some d) →
  ao_rule_index s' = ao_rule_index s → ao_principal_index s' = ao_principal_index s →
  cache_usable (ao_cache s') → holds s' m.
Proof.
  intros [H1 H2 H3 H4 H5 H6 H7 _] Hr Hv Hc E1 E2 Hu. split; try done.
  - intros id Hid. by rewrite Hv, H2.
  - intros id d [?|?]%Hc; auto.
  - intros id. by rewrite E1.
  - intros p id. rewrite E2. apply H6.
  - intros id v. rewrite E2. apply H7.
Qed.

Lemma get_rule_spec id s m r s' :
  holds s m → id_ok id → get_rule key_prefix id s = (r, s') →
  holds s' m ∧ ao_version_counter s' = ao_version_counter s ∧ ao_principal_index s' = ao_principal_index s ∧
  r = match m !! id with Some v => Ok (Some v) | None => Err NotFound end.
Proof using JsonLaws0 CacheLaws0 ObjectStorageLaws0.
  intros Hs Hid. unfold get_rule. destruct (cache_get (ckey id) (ao_cache s)) as [cached c] eqn:Ec.
  destruct (cache_get_law _ _ _ _ Ec) as [Hsub Hhit].
  assert (Hs1 : holds (with_acl_cache c s) m).
  { apply (holds_frame s); try done; [apply Hs| |exact (cache_get_usable _ _ _ _ Ec (ho_usable _ _ Hs))].
    intros i d Hd. left. by apply Hsub. }
  destruct (match cached with Ok (Some data) => from_json data | _ => None end) as [rule|] eqn:Ed.
  - intros [= <- <-]. destruct cached as [[data|]|]; try done. specialize (Hhit data eq_refl).
    apply (ho_cache _ _ Hs) in Hhit. destruct (m !! id) as [v|]; [|done]. injection Hhit as <-.
    rewrite from_to_json in Ed. by injection Ed as <-.
  - destruct (os_get _ _) as [g o] eqn:Eg.
    destruct (os_get_law _ _ _ _ Hid Eg) as (Hview & Hrel & Hg).
    assert (Hs2 : holds (with_objects o (with_acl_cache c s)) m).
    { apply (holds_frame (with_acl_cache c s)); try done; [apply Hrel; apply Hs|by intros i Hi; apply Hview|by left|apply Hs1]. }
    pose proof (ho_object _ _ Hs1 id Hid) as Ho. simpl in Ho.
    destruct g as [data|e].
    + simpl in Hg. rewrite Hg in Ho. destruct (m !! id) as [v|] eqn:Em; [|done]. injection Ho as ->.
      unfold deserialize_rule. rewrite from_to_json. simpl. intros [= <- <-].
      unfold put_cache. simpl. destruct (cache_put _ _ _) as [rp c2] eqn:Ep. simpl.
      split; [|done]. apply (holds_frame _ _ _ Hs2); try done; [apply Hs2| |exact (proj2 (cache_put_total _ _ _ _ _ Ep (ho_usable _ _ Hs1)))].
      intros i d Hd. destruct (cache_put_law _ _ _ _ _ Ep _ _ Hd) as [[Hk ->]|[_ ?]]; [|by left].
      right. apply ckey_inj in Hk. subst i. by rewrite Em.
    + simpl in Hg. destruct Hg as [[-> Hnone]|[_ Hbad]]; [|by destruct Hbad; apply Hs].
      rewrite Hnone in Ho. destruct (m !! id); [done|]. by intros [= <- <-].
Qed.

(** Writing a rule: object, cache entry and version. *)
Definition index_agrees (pidx : gmap string (gset string)) m : Prop :=
  (∀ p id, id ∈ default ∅ (pidx !! p) → ∃ v, m !! id = Some v ∧ ru_principal (vr_rule v) = p) ∧
  (∀ id v, m !! id = Some v → vr_deleted v = false → id ∈ default ∅ (pidx !! ru_principal (vr_rule v))).

Lemma put_object_spec id s m v r s' :
  holds s m → id_ok id → put_object (okey id) (to_json v) s = (r, s') →
  r = Ok tt ∧ os_reliable (ao_object_storage s') ∧
  (∀ i, id_ok i → os_view (ao_object_storage s') (okey i) = to_json <$> <[id := v]> m !! i) ∧
  ao_cache s' = ao_cache s ∧ ao_version_counter s' = ao_version_counter s ∧ ao_rule_index s' = ao_rule_index s ∧
  ao_principal_index s' = ao_principal_index s.
Proof using ObjectStorageLaws0.
  intros Hs Hid. unfold put_object. destruct (os_put _ _ _) as [rp o] eqn:Ep. intros [= <- <-].
  destruct (os_put_law _ _ _ _ _ Hid Ep) as (Hother & Hrel & Hr).
  assert (rp = Ok tt) as -> by (destruct rp as [[]|]; [done|destruct Hr as [_ []]; apply Hs]).
  split_and!; try done; [apply Hrel; apply Hs|]. intros i Hi. simpl.
  destruct (decide (i = id)) as [->|Hne]; [by rewrite lookup_insert_eq|].
  rewrite lookup_insert_ne, Hother by (done || by intros ?%okey_inj). by apply Hs.
Qed.

Lemma holds_write s m id v s' :
  holds s m → id_ok id → os_reliable (ao_object_storage s') →
  (∀ i, id_ok i → os_view (ao_object_storage s') (okey i) = to_json <$> <[id := v]> m !! i) →
  (∀ i d, cache_view (ao_cache s') (ckey i) = Some d →
     (i = id ∧ d = to_json v) ∨ (i ≠ id ∧ cache_view (ao_cache s) (ckey i) = Some d)) →
  ao_rule_index s' = <[id := okey id]> (ao_rule_index s) →
  index_agrees (ao_principal_index s') (<[id := v]> m) → cache_usable (ao_cache s') → holds s' (<[id := v]> m).
Proof.
  intros [H1 H2 H3 H4 H5 H6 H7 _] Hid Hr Ho Hc Hi [Hp Hl] Hu. split; try done.
  - intros i d [[-> ->]|[Hne Hd]]%Hc; [by rewrite lookup_insert_eq|]. rewrite lookup_insert_ne by done. by apply H3.
  - intros i w [[<- <-]|[_ ?]]%lookup_insert_Some; [done|by eapply H4].
  - intros i. rewrite Hi. destruct (decide (i = id)) as [->|]; [by rewrite !lookup_insert_eq|].
    rewrite !lookup_insert_ne by done. apply H5.
Qed.

(** The cache after a put or a remove *)
Lemma put_cache_views id v s r s' :
  cache_usable (ao_cache s) → put_cache (ckey id) (to_json v) s = (r, s') →
  r = Ok tt ∧ cache_usable (ao_cache s') ∧ ∀ i d, cache_view (ao_cache s') (ckey i) = Some d →
    (i = id ∧ d = to_json v) ∨ (i ≠ id ∧ cache_view (ao_cache s) (ckey i) = Some d).
Proof using CacheTotal0.
  intros Hu. unfold put_cache. destruct (cache_put _ _ _) as [rp c] eqn:Ep. intros [= <- <-].
  destruct (cache_put_total _ _ _ _ _ Ep Hu) as [-> Hu']. split_and!; [done..|].
  intros i d Hd. destruct (cache_put_law _ _ _ _ _ Ep _ _ Hd) as [[Hk ->]|[Hk ?]]; [left|right].
  - split; [by apply ckey_inj|done].
  - split; [by intros ->|done].
Qed.

Lemma create_refines uuid now rule by_ d s m r s' :
  holds s m → id_ok (rule_id_of uuid rule) → create_rule key_prefix uuid now rule by_ d s = (r, s') →
  let '(out, (m', ver')) := spec_op (ACreate uuid now rule by_ d) (m, ao_version_counter s) in
  OutId r = out ∧ ao_version_counter s' = ver' ∧ holds s' m'.
Proof using ObjectStorageLaws0 CacheTotal0.
  intros Hs Hid. unfold create_rule. cbn [spec_op].
  change (if String.eqb (ru_id rule) EmptyString then uuid else ru_id rule) with (rule_id_of uuid rule).
  set (id := rule_id_of uuid rule) in *. rewrite (ho_index _ _ Hs id).
  destruct (m !! id) as [v|] eqn:Em; [case_decide as Hd; [by intros [= <- <-]|by destruct Hd]|].
  case_decide as Hd; [by destruct Hd|]. cbn [next_version with_version ao_version_counter].
  set (ver := u64_add (ao_version_counter s) 1). set (v := mkVersioned (with_id id rule) ver now by_ d false).
  fold (with_id id rule). fold v. set (s0 := with_version ver s). assert (Hs0 : holds s0 m) by by destruct Hs.
  destruct (put_object (okey id) (to_json v) s0) as [r1 s1] eqn:E1.
  destruct (put_object_spec id s0 m v r1 s1 Hs0 Hid E1) as (-> & Hr1 & Hv1 & Hc1 & Hver1 & Hi1 & Hp1). cbn [sbind].
  destruct (put_cache (ckey id) (to_json v) s1) as [r2 s2] eqn:E2. pose proof E2 as E2'.
  apply put_cache_views in E2' as (-> & Hu2 & Hc2); [|rewrite Hc1; apply Hs]. cbn [sbind]. intros [= <- <-].
  unfold put_cache in E2. destruct (cache_put _ _ _) as [? c2]. injection E2 as _ <-. simpl in Hc2.
  split; [done|]. split; [done|]. apply (holds_write s0); try done.
  - simpl. intros i dd [?|[? Hold]]%Hc2; [by left|]. rewrite Hc1 in Hold. by right.
  - simpl. by rewrite Hi1.
  - simpl. rewrite Hp1. simpl. destruct Hs as [_ _ _ _ _ H6 H7 _]. split.
    + intros p id'. rewrite index_insert_elem. intros [[-> ->]|Hin]; [exists v; by rewrite lookup_insert_eq|].
      destruct (H6 _ _ Hin) as (w & Hw & ?). exists w. rewrite lookup_insert_ne by congruence. done.
    + intros id' w. rewrite index_insert_elem. intros [[<- <-]|[Hne Hw]]%lookup_insert_Some Hl; [by left|right]. eauto.
Qed.

(** The common part of an update and a deletion: the rule's object and its
    version are written over an existing rule. *)
Lemma overwrite_refines id old v s m s1 s' pidx :
  holds s m → id_ok id → m !! id = Some old → os_reliable (ao_object_storage s1) →
  (∀ i, id_ok i → os_view (ao_object_storage s1) (okey i) = to_json <$> <[id := v]> m !! i) →
  ao_rule_index s1 = ao_rule_index s → ao_object_storage s' = ao_object_storage s1 → ao_rule_index s' = ao_rule_index s1 →
  (∀ i d, cache_view (ao_cache s') (ckey i) = Some d →
     (i = id ∧ d = to_json v) ∨ (i ≠ id ∧ cache_view (ao_cache s) (ckey i) = Some d)) →
  ao_principal_index s' = pidx → index_agrees pidx (<[id := v]> m) → cache_usable (ao_cache s') →
  holds s' (<[id := v]> m).
Proof.
  intros Hs Hid Hm Hr Hv Hi Eo Ei Hc Ep Hp Hu. subst pidx. apply (holds_write s); try done; rewrite ?Eo; try done.
  rewrite Ei, Hi. symmetry. apply insert_id. by rewrite (ho_index _ _ Hs id), Hm.
Qed.

Lemma update_refines now id rule by_ d s m r s' :
  holds s m → acl_op_ok (AUpdate now id rule by_ d) m → update_rule key_prefix now id rule by_ d s = (r, s') →
  let '(out, (m', ver')) := spec_op (AUpdate now id rule by_ d) (m, ao_version_counter s) in
  OutUnit r = out ∧ ao_version_counter s' = ver' ∧ holds s' m'.
Proof using JsonLaws0 CacheLaws0 ObjectStorageLaws0 CacheTotal0.
  intros Hs [Hid Hdel]. unfold update_rule. fold (with_id id rule).
  destruct (get_rule key_prefix id s) as [g s0] eqn:Eg.
  destruct (get_rule_spec id s m g s0 Hs Hid Eg) as (Hs0 & Hver0 & Hp0 & ->). cbn [spec_op].
  destruct (m !! id) as [old|] eqn:Em; cbn [sbind]; [|by intros [= <- <-]; rewrite Hver0].
  cbn [next_version with_version ao_version_counter]. rewrite Hver0.
  set (ver := u64_add (ao_version_counter s) 1). set (v := mkVersioned (with_id id rule) ver now by_ d false).
  set (s0' := with_version ver s0). assert (Hs0' : holds s0' m) by by destruct Hs0.
  destruct (put_object (okey id) (to_json v) s0') as [r1 s1] eqn:E1.
  destruct (put_object_spec id s0' m v r1 s1 Hs0' Hid E1) as (-> & Hr1 & Hv1 & Hc1 & Hver1 & Hi1 & Hp1). cbn [sbind].
  destruct (put_cache (ckey id) (to_json v) s1) as [r2 s2] eqn:E2. pose proof E2 as E2'.
  apply put_cache_views in E2' as (-> & Hu2 & Hc2); [|rewrite Hc1; apply Hs0]. cbn [sbind]. intros [= <- <-].
  unfold put_cache in E2. destruct (cache_put _ _ _) as [? c2] eqn:Ep. injection E2 as _ <-. simpl in Hc2.
  split; [done|]. split; [by case_decide|].
  set (s2 := with_acl_cache c2 s1).
  apply (overwrite_refines id old v s0' m s1 _
    (if decide (ru_principal (vr_rule old) = ru_principal rule) then ao_principal_index s0
     else index_insert (ru_principal rule) id (index_remove (ru_principal (vr_rule old)) id (ao_principal_index s0)))); try done.
  - by case_decide.
  - by case_decide.
  - intros i dd. replace (ao_cache _) with c2 by by case_decide. intros [?|[? Hold]]%Hc2; [by left|].
    rewrite Hc1 in Hold. by right.
  - case_decide; simpl; by rewrite Hp1.
  - destruct Hs0 as [_ _ _ _ _ H6 H7 _]. case_decide as Hpr; split.
    + intros p i Hin. destruct (H6 _ _ Hin) as (w & Hw & <-). destruct (decide (i = id)) as [->|].
      * exists v. rewrite lookup_insert_eq. split; [done|]. simpl. congruence.
      * exists w. by rewrite lookup_insert_ne.
    + intros i w [[<- <-]|[Hne Hw]]%lookup_insert_Some Hl; [|eauto]. simpl. rewrite <- Hpr. apply H7; [done|].
      destruct (vr_deleted old) eqn:Ed; [|done]. by destruct (Hdel old eq_refl Ed).
    + intros p i. rewrite index_insert_elem, index_remove_elem. intros [[-> ->]|[Hin Hne]].
      * exists v. by rewrite lookup_insert_eq.
      * destruct (H6 _ _ Hin) as (w & Hw & <-). exists w. rewrite lookup_insert_ne; [done|].
        intros <-. apply Hne. split; [congruence|done].
    + intros i w. rewrite index_insert_elem, index_remove_elem.
      intros [[<- <-]|[Hne Hw]]%lookup_insert_Some Hl; [by left|right]. split; [eauto|naive_solver].
  - by case_decide.
Qed.

Lemma delete_refines now id by_ d s m r s' :
  holds s m → id_ok id → delete_rule key_prefix now id by_ d s = (r, s') →
  let '(out, (m', ver')) := spec_op (ADelete now id by_ d) (m, ao_version_counter s) in
  OutUnit r = out ∧ ao_version_counter s' = ver' ∧ holds s' m'.
Proof using JsonLaws0 CacheLaws0 ObjectStorageLaws0 CacheTotal0.
  intros Hs Hid. unfold delete_rule. destruct (get_rule key_prefix id s) as [g s0] eqn:Eg.
  destruct (get_rule_spec id s m g s0 Hs Hid Eg) as (Hs0 & Hver0 & Hp0 & ->). cbn [spec_op].
  destruct (m !! id) as [old|] eqn:Em; cbn [sbind]; [|by intros [= <- <-]; rewrite Hver0].
  cbn [next_version with_version ao_version_counter]. rewrite Hver0.
  set (ver := u64_add (ao_version_counter s) 1). set (v := mkVersioned (vr_rule old) ver now by_ d true).
  set (s0' := with_version ver s0). assert (Hs0' : holds s0' m) by by destruct Hs0.
  destruct (put_object (okey id) (to_json v) s0') as [r1 s1] eqn:E1.
  destruct (put_object_spec id s0' m v r1 s1 Hs0' Hid E1) as (-> & Hr1 & Hv1 & Hc1 & Hver1 & Hi1 & Hp1). cbn [sbind].
  unfold remove_cache. destruct (cache_remove _ _) as [rr c2] eqn:Er.
  destruct (cache_remove_total _ _ _ _ Er) as [-> Hu2]; [rewrite Hc1; apply Hs0|]. cbn [sbind].
  intros [= <- <-]. split; [done|]. split; [done|].
  apply (overwrite_refines id old v s0' m s1 _
    (index_remove (ru_principal (vr_rule old)) id (ao_principal_index s0))); try done.
  - simpl. intros i dd Hd. destruct (cache_remove_law _ _ _ _ Er _ _ Hd) as [Hne Hold]. right. rewrite Hc1 in Hold.
    split; [by intros ->|done].
  - simpl. by rewrite Hp1.
  - destruct Hs0 as [_ _ _ _ _ H6 H7 _]. split.
    + intros p i. rewrite index_remove_elem. intros [Hin Hne]. destruct (H6 _ _ Hin) as (w & Hw & <-).
      exists w. rewrite lookup_insert_ne; [done|]. intros <-. apply Hne. split; [congruence|done].
    + intros i w. rewrite index_remove_elem. intros [[<- <-]|[Hne Hw]]%lookup_insert_Some Hl; [done|].
      split; [eauto|naive_solver].
Qed.

Lemma collect_rules_spec ids s m l s' :
  holds s m → (∀ id, id ∈ ids → is_Some (m !! id)) → collect_rules key_prefix ids s = (l, s') →
  holds s' m ∧ ao_version_counter s' = ao_version_counter s ∧
  ∀ v, v ∈ l ↔ ∃ id, id ∈ ids ∧ m !! id = Some v ∧ vr_deleted v = false.
Proof using JsonLaws0 CacheLaws0 ObjectStorageLaws0.
  revert s l. induction ids as [|id ids IH]; intros s l Hs Hids; simpl.
  { intros [= <- <-]. split_and!; try done. intros v. split; [by intros ?%elem_of_nil|]. intros (? & ?%elem_of_nil & _). done. }
  destruct (Hids id) as [v0 Hv0]; [left|]. destruct (get_rule key_prefix id s) as [g s1] eqn:Eg.
  destruct (get_rule_spec id s m g s1 Hs (ho_id _ _ Hs id v0 Hv0) Eg) as (Hs1 & Hver & _ & ->). rewrite Hv0.
  destruct (collect_rules key_prefix ids s1) as [l1 s2] eqn:Ec. intros [= <- <-].
  destruct (IH s1 l1 Hs1) as (Hs2 & Hver2 & Hl); [intros i Hi; apply Hids; by right|done|].
  split_and!; [done|congruence|]. intros v. destruct (vr_deleted v0) eqn:Ed.
  - rewrite Hl. split; intros (i & Hi & Hm & Hlv); exists i; split_and!; try done; [by right|].
    apply elem_of_cons in Hi as [->|Hi]; [congruence|done].
  - rewrite elem_of_cons, Hl. split.
    + intros [->|(i & Hi & ? & ?)]; [exists id; split_and!; [left|done|done]|exists i; split_and!; [by right|done|done]].
    + intros (i & [->|Hi]%elem_of_cons & Hm & ?); [left; congruence|right; eauto].
Qed.

Lemma principal_rules_spec p s m l s' :
  holds s m → get_rules_for_principal key_prefix order p s = (l, s') →
  holds s' m ∧ ao_version_counter s' = ao_version_counter s ∧
  ∀ v, v ∈ l ↔ ∃ id, m !! id = Some v ∧ selected p v = true.
Proof using JsonLaws0 CacheLaws0 ObjectStorageLaws0 order_perm.
  intros Hs. unfold get_rules_for_principal. set (ids := _ ++ _).
  assert (Hin : ∀ id, id ∈ ids ↔ ∃ q, (q = p ∨ pattern_selects p q = true) ∧ id ∈ default ∅ (ao_principal_index s !! q)).
  { intros id. unfold ids. rewrite elem_of_app, elem_of_elements, list_elem_of_bind. split.
    - intros [?|([q set] & Hid & [Hq Hkv]%list_elem_of_filter)]; [exists p; auto|].
      rewrite order_perm, elem_of_map_to_list in Hkv. exists q. rewrite Hkv. simpl in *.
      rewrite elem_of_elements in Hid. auto.
    - intros (q & [->|Hq] & Hid); [by left|right]. destruct (ao_principal_index s !! q) as [set|] eqn:Eq;
        [|by apply not_elem_of_empty in Hid]. exists (q, set). simpl in *. rewrite elem_of_elements. split; [done|].
      apply list_elem_of_filter. split; [done|]. by rewrite order_perm, elem_of_map_to_list. }
  intros E. destruct (collect_rules_spec ids s m l s' Hs) as (Hs' & Hver & Hl); [|done|].
  { intros id (q & _ & Hid)%Hin. destruct (ho_principal _ _ Hs q id Hid) as (v & -> & _). done. }
  split_and!; try done. intros v. rewrite Hl. unfold selected. split.
  - intros (id & (q & Hq & Hid)%Hin & Hm & Hlv). exists id. split; [done|].
    destruct (ho_principal _ _ Hs q id Hid) as (w & Hw & <-). rewrite Hm in Hw. injection Hw as <-. rewrite Hlv. simpl.
    destruct Hq as [->| ->]; [by rewrite String.eqb_refl|by rewrite orb_true_r].
  - intros (id & Hm & [Hlv Hsel]%andb_true_iff). apply negb_true_iff in Hlv. exists id. split; [|done].
    apply Hin. exists (ru_principal (vr_rule v)). split; [|by apply (ho_live _ _ Hs)].
    apply orb_true_iff in Hsel as [->%String.eqb_eq|?]; auto.
Qed.

Lemma run_acl_op_refines op s m out s' :
  holds s m → acl_op_ok op m → run_acl_op op s = (out, s') →
  let '(out', (m', ver')) := spec_op op (m, ao_version_counter s) in
  out_matches out out' ∧ ao_version_counter s' = ver' ∧ holds s' m'.
Proof using JsonLaws0 CacheLaws0 ObjectStorageLaws0 CacheTotal0 order_perm.
  intros Hs Hok. destruct op as [uuid now rule by_ d|now id rule by_ d|now id by_ d|id|p]; unfold run_acl_op.
  - destruct (create_rule _ _ _ _ _ _ _) as [r s1] eqn:E. intros [= <- <-].
    pose proof (create_refines _ _ _ _ _ _ _ _ _ Hs Hok E) as H. destruct (spec_op _ _) as [out' [m' ver']]. by destruct H as [<- ?].
  - destruct (update_rule _ _ _ _ _ _ _) as [r s1] eqn:E. intros [= <- <-].
    pose proof (update_refines _ _ _ _ _ _ _ _ _ Hs Hok E) as H. destruct (spec_op _ _) as [out' [m' ver']]. by destruct H as [<- ?].
  - destruct (delete_rule _ _ _ _ _ _) as [r s1] eqn:E. intros [= <- <-].
    pose proof (delete_refines _ _ _ _ _ _ _ _ Hs Hok E) as H. destruct (spec_op _ _) as [out' [m' ver']]. by destruct H as [<- ?].
  - destruct (get_rule _ _ _) as [r s1] eqn:E. intros [= <- <-].
    by destruct (get_rule_spec _ _ _ _ _ Hs Hok E) as (? & ? & _ & ->).
  - destruct (get_rules_for_principal _ _ _ _) as [l s1] eqn:E. intros [= <- <-].
    destruct (principal_rules_spec _ _ _ _ _ Hs E) as (? & ? & Hl). cbn [spec_op]. split_and!; try done.
    intros v. rewrite Hl, list_elem_of_filter, list_elem_of_fmap. split.
    + intros (id & Hm & Hsel). split; [done|]. exists (id, v). by rewrite elem_of_map_to_list.
    + intros [Hsel ([id w] & -> & Hm)]. rewrite elem_of_map_to_list in Hm. eauto.
Qed.

(** C18: The rule storage refines a map of rules.  On object storage that does
    not fail, any sequence of creations, updates, deletions, lookups and
    principal queries with identifiers the object store accepts, in which a
    deleted rule is not updated under the principal it had, answers what a map from
    identifiers to versioned rules with one version counter answers: the cache
    never serves an outdated rule, a created identifier is never overwritten,
    versions are consecutive, and a principal query returns exactly the live
    rules whose principal is the one asked for or a pattern that selects it. *)
Theorem acl_storage_refines ops s m outs s' :
  holds s m → acl_ops_ok ops (m, ao_version_counter s) → run_acl_ops ops s = (outs, s') →
  let '(outs', (m', ver')) := spec_ops ops (m, ao_version_counter s) in
  Forall2 out_matches outs outs' ∧ ao_version_counter s' = ver' ∧ holds s' m'.
Proof using JsonLaws0 CacheLaws0 ObjectStorageLaws0 CacheTotal0 order_perm.
  revert s m outs. induction ops as [|op ops IH]; intros s m outs Hs Hok; cbn [run_acl_ops spec_ops].
  - intros [= <- <-]. split_and!; [constructor|done|done].
  - destruct Hok as [Hop Hops]. destruct (run_acl_op op s) as [out s1] eqn:E1.
    destruct (run_acl_ops ops s1) as [outs1 s2] eqn:E2. intros [= <- <-].
    pose proof (run_acl_op_refines op s m out s1 Hs Hop E1) as H1.
    destruct (spec_op op (m, ao_version_counter s)) as [out' [m1 ver1]]. destruct H1 as (Ho & <- & Hs1).
    specialize (IH s1 m1 outs1 Hs1 Hops E2). destruct (spec_ops ops (m1, ao_version_counter s1)) as [outs' [m2 ver2]].
    destruct IH as (Hos & <- & ?). split_and!; [by constructor|done|done].
Qed.
End refinement.

(** ** Queries find the rules that apply *)

(** A principal pattern the index understands: no star, or one star at an
    end. *)
Inductive end_pattern : string → Prop :=
  | ep_exact s : no_char star s = true → has_special s = false → end_pattern s
  | ep_prefix s : no_char star s = true → end_pattern (s +:+ "*")
  | ep_suffix s : no_char star s = true → end_pattern ("*" +:+ s).

Lemma substring_app (s t : string) : substring 0 (String.length s) (s +:+ t) = s.
Proof.
  induction s as [|a s IH]; [by destruct t|]. rewrite str_app_cons. simpl. by rewrite IH.
Qed.
Lemma substring_drop_last s : substring 0 (String.length (s +:+ "*") - 1) (s +:+ "*") = s.
Proof.
  rewrite str_length_app. simpl. replace (String.length s + 1 - 1)%nat with (String.length s) by lia. apply substring_app.
Qed.
Lemma substring_drop_first s : substring 1 (String.length ("*" +:+ s) - 1) ("*" +:+ s) = s.
Proof.
  rewrite str_length_app. simpl. rewrite Nat.sub_0_r. pose proof (substring_app s EmptyString) as E.
  by rewrite str_app_nil_r in E.
Qed.

Lemma end_pattern_selects {Regex} (regex_new : string → option Regex) (is_match : Regex → string → bool) pat :
  end_pattern pat → ∃ c, compile regex_new pat = Some c ∧
    ∀ text, compiled_matches is_match c text = String.eqb pat text || pattern_selects text pat.
Proof.
  intros H. inversion H as [? Hs Hsp|s Hs|s Hs]; subst.
  - exists (Exact pat). split; [by apply compile_exact|]. intros text. simpl. unfold pattern_selects.
    by rewrite contains_no_char, Hs, orb_false_r, String.eqb_sym.
  - destruct (String.eqb_spec s EmptyString) as [->|Hne]; [exists All; split; [done|]; intros text; simpl; by rewrite orb_true_r|].
    exists (Wildcard s EmptyString). split; [apply compile_star; [done..|]; by intros [? _]%star_only|].
    intros text. unfold pattern_selects. rewrite substring_drop_last. change (s +:+ "*") with (s +:+ String star EmptyString).
    simpl compiled_matches.
    rewrite (contains_star s EmptyString), (ends_star s EmptyString eq_refl), (starts_star s EmptyString Hs).
    rewrite (proj2 (String.eqb_neq (s +:+ String star EmptyString) "*")) by (by intros [? _]%star_only).
    rewrite (proj2 (String.eqb_neq s EmptyString) Hne). simpl. rewrite orb_false_r.
    rewrite (proj2 (ends_with_spec EmptyString text)) by (exists text; by rewrite str_app_nil_r).
    rewrite andb_true_r. destruct (String.eqb_spec (s +:+ String star EmptyString) text) as [<-|]; [|done].
    simpl. apply starts_with_spec. by eexists.
  - destruct (String.eqb_spec s EmptyString) as [->|Hne]; [exists All; split; [done|]; intros text; simpl; by rewrite orb_true_r|].
    exists (Wildcard EmptyString s). split; [by apply (compile_star regex_new EmptyString s); [..|intros [_ ?]%(star_only EmptyString)]|].
    intros text. unfold pattern_selects. rewrite substring_drop_first. simpl compiled_matches.
    change ("*" +:+ s) with (EmptyString +:+ String star s).
    rewrite (contains_star EmptyString s), (ends_star EmptyString s Hs), (starts_star EmptyString s eq_refl).
    rewrite (proj2 (String.eqb_neq (EmptyString +:+ String star s) "*")) by (by intros [_ ?]%star_only).
    rewrite (proj2 (String.eqb_neq s EmptyString) Hne), String.eqb_refl. cbn [orb andb starts_with].
    destruct (String.eqb_spec (EmptyString +:+ String star s) text) as [<-|]; [|done].
    cbn [orb]. apply ends_with_spec. by exists "*"%string.
Qed.

Section queries.
Context {O C : Type} `{!ObjectStorage O, !ObjectStorageLaws O, !Cache C, !CacheLaws C, !CacheTotal C}.
Context `{!Json VersionedAclRule, !JsonLaws VersionedAclRule}.
Context {Regex : Type} (regex_new : string → option Regex) (is_match : Regex → string → bool).
Context (key_prefix : string) (order : list (string * gset string) → list (string * gset string)).
Hypothesis order_perm : ∀ l, order l ≡ₚ l.

(** A rule that passes the validation compiles: [regex_new] is never asked. *)
Lemma validated_compiles pat : nonempty_all resource_char pat = true → is_Some (compile regex_new pat).
Proof.
  intros [_ Hall]%andb_true_iff. assert (Hsp : has_special pat = false).
  { unfold has_special. apply negb_false_iff. revert Hall. clear. induction pat as [|c pat IH]; [done|].
    cbn [str_all]. rewrite !andb_true_iff. intros [Hc Hp]. split; [|by apply IH]. revert Hc. clear.
    by destruct c as [[] [] [] [] [] [] [] []]. }
  unfold compile, compile_plain. rewrite Hsp. destruct (String.eqb _ _); [done|]. destruct (contains_char _ _); [|done].
  by destruct (split_on _ _) as [|? [|? [|]]].
Qed.

Lemma validated_rule_compiles r : validate_rule r = Ok tt → is_Some (from_rule regex_new r).
Proof.
  unfold validate_rule. destruct (100 <? _); [done|]. destruct (nonempty_all principal_char _) eqn:Ep; [|done].
  destruct (nonempty_all resource_char (rp_pattern _)) eqn:Er; [|done]. intros _.
  assert (Hp : nonempty_all resource_char (ru_principal r) = true).
  { apply andb_true_iff in Ep as [Hne Hall]. apply andb_true_iff. split; [done|].
    revert Hall. apply str_all_impl. unfold resource_char. by intros c ->. }
  unfold from_rule. destruct (validated_compiles _ Hp) as [c1 ->]. simpl. by destruct (validated_compiles _ Er) as [c2 ->].
Qed.

(** The rules that apply to a request are among the ones a principal query
    returns, and those are stored. *)
Lemma principal_query_complete p resource op context (s : AclStorage O C) m l s' v :
  holds key_prefix s m → map_Forall (λ _ v, end_pattern (ru_principal (vr_rule v))) m →
  get_rules_for_principal key_prefix order p s = (l, s') →
  rule_applies regex_new is_match p resource op context v → v ∈ l ↔ v ∈ (map_to_list m).*2.
Proof using JsonLaws0 CacheLaws0 ObjectStorageLaws0 order_perm.
  intros Hs Hpat Hq [Hl (c & Hc & Hm) _ _ _]. destruct (principal_rules_spec key_prefix order order_perm p s m l s' Hs Hq) as (_ & _ & Hin).
  rewrite Hin, list_elem_of_fmap. split.
  - intros (id & Hid & _). exists (id, v). by rewrite elem_of_map_to_list.
  - intros ([id w] & -> & Hid%elem_of_map_to_list). simpl in *. exists id. split; [done|]. unfold selected. rewrite Hl. simpl.
    destruct (end_pattern_selects regex_new is_match _ (Hpat id w Hid)) as (c' & Hc' & Hsel).
    rewrite Hc in Hc'. injection Hc' as <-. by rewrite <- Hsel.
Qed.

(** Decisions over the storage.  The answer computed from the rules
    that the principal query returns is the answer over every rule in the
    storage, as long as the principal patterns have their star at an end: the
    index and the cache lose no rule that applies and bring back none that was
    deleted or replaced. *)
Theorem stored_decision p resource op context (s : AclStorage O C) m l s' :
  holds key_prefix s m → map_Forall (λ _ v, end_pattern (ru_principal (vr_rule v))) m →
  get_rules_for_principal key_prefix order p s = (l, s') →
  is_allowed (evaluate_rules regex_new is_match l p resource op context)
  = is_allowed (evaluate_rules regex_new is_match (map_to_list m).*2 p resource op context).
Proof using JsonLaws0 CacheLaws0 ObjectStorageLaws0 order_perm.
  intros Hs Hpat Hq. apply eq_true_iff_eq. rewrite !evaluate_allowed.
  assert (Hin := λ v, principal_query_complete p resource op context s m l s' v Hs Hpat Hq).
  split; (intros [(v & Hv & Hap & Hal) Hno]; split; [exists v; split; [by apply Hin|done]|];
    intros w Hw Hw'; apply Hno; [by apply Hin|done]).
Qed.
End queries.

(** ** Restart *)

(** A listing names objects that hold exactly the data stored under the
    prefix; the keys may be spelt differently. *)
Class ObjectListingLaws (O : Type) `{!ObjectStorage O, !ObjectStorageLaws O, !ObjectListing O} := {
  os_list_law prefix o r o' : os_list prefix o = (r, o') → os_reliable o →
    os_reliable o' ∧ (∀ k, os_ok_key k = true → os_view o' k = os_view o k) ∧
    ∃ keys, r = Ok keys ∧ Forall (λ k, os_ok_key k = true) keys ∧
      ∀ d, (∃ k, k ∈ keys ∧ os_view o k = Some d) ↔
           ∃ k, os_ok_key k = true ∧ starts_with prefix k = true ∧ os_view o k = Some d;
}.

Definition own_ids (m : RuleMap) : Prop := map_Forall (λ id v, ru_id (vr_rule v) = id) m.

Lemma own_ids_step op m ver : own_ids m → own_ids (spec_op op (m, ver)).2.1.
Proof.
  intros Hm. destruct op as [uuid now rule by_ d|now id rule by_ d|now id by_ d|id|p]; simpl; try done;
    destruct (m !! _) as [v|] eqn:E; simpl; try done; apply map_Forall_insert_2; try done.
  exact (Hm _ _ E).
Qed.

Section restart.
Context {O C : Type} `{!ObjectStorage O, !ObjectStorageLaws O, !ObjectListing O, !ObjectListingLaws O}.
Context `{!Cache C, !CacheLaws C, !CacheTotal C}.
Context `{!Json VersionedAclRule, !JsonLaws VersionedAclRule}.
Context (key_prefix : string).
Abbreviation okey := (get_rule_object_key key_prefix).
Implicit Types (s : AclStorage O C) (m : RuleMap).

Lemma load_keys_spec keys (o : O) l o' :
  os_reliable o → Forall (λ k, os_ok_key k = true) keys → load_keys keys o = (l, o') →
  os_reliable o' ∧ (∀ k, os_ok_key k = true → os_view o' k = os_view o k) ∧
  ∀ v, v ∈ l ↔ ∃ k d, k ∈ keys ∧ os_view o k = Some d ∧ from_json d = Some v.
Proof using ObjectStorageLaws0.
  intros Hr Hk. revert o l o' Hr. induction Hk as [|k keys Hk Hks IH]; intros o l o' Hr; simpl.
  { intros [= <- <-]. split_and!; [done..|]. intros v. split; [by intros ?%elem_of_nil|]. by intros (? & ? & ?%elem_of_nil & _). }
  destruct (os_get k o) as [g o1] eqn:Eg. destruct (os_get_law _ _ _ _ Hk Eg) as (Hv & Hr1 & Hg).
  destruct (load_keys keys o1) as [l1 o2] eqn:El. intros [= <- <-].
  destruct (IH o1 l1 o2 (Hr1 Hr) El) as (Hr2 & Hv2 & Hl). split_and!; [done|intros k' ?; by rewrite Hv2, Hv|].
  assert (Htail : ∀ v, v ∈ l1 ↔ ∃ k' d, k' ∈ keys ∧ os_view o k' = Some d ∧ from_json d = Some v).
  { intros v. rewrite Hl. rewrite Forall_forall in Hks.
    split; intros (k' & d & Hin & Hd & Hj); exists k', d; (split_and!; [done| |done]); [rewrite <- Hv|rewrite Hv]; auto. }
  assert (Hhead : ∀ v, (∃ k' d, k' ∈ k :: keys ∧ os_view o k' = Some d ∧ from_json d = Some v) ↔
    (∃ d, os_view o k = Some d ∧ from_json d = Some v) ∨ v ∈ l1).
  { intros v. rewrite Htail. setoid_rewrite elem_of_cons. naive_solver. }
  intros v. rewrite Hhead. destruct g as [d|e].
  - destruct (from_json d) as [w|] eqn:Ej; [rewrite elem_of_cons|]; naive_solver congruence.
  - assert (Hnone : os_view o k = None) by naive_solver. rewrite Hnone. naive_solver.
Qed.

Lemma index_rules_frame l s :
  let s' := foldl (index_rule key_prefix) s l in
  ao_object_storage s' = ao_object_storage s ∧ ao_cache s' = ao_cache s ∧
  ao_version_counter s' = foldl Z.max (ao_version_counter s) (vr_version <$> l).
Proof. revert s. induction l as [|v l IH]; intros s; [done|]. simpl. by destruct (IH (index_rule key_prefix s v)) as (-> & -> & ->). Qed.

Lemma index_rules_lookup l s id :
  ao_rule_index (foldl (index_rule key_prefix) s l) !! id =
  if decide (id ∈ (ru_id ∘ vr_rule <$> l)) then Some (okey id) else ao_rule_index s !! id.
Proof.
  revert s. induction l as [|v l IH]; intros s; [done|]. simpl. rewrite IH. simpl.
  destruct (decide (id = ru_id (vr_rule v))) as [->|Hne].
  - rewrite lookup_insert_eq. rewrite (decide_True (P := _ ∈ _ :: _)) by left. by case_decide.
  - rewrite lookup_insert_ne by done. apply decide_ext. rewrite elem_of_cons. by split; [right|intros [?|?]].
Qed.

Lemma index_rules_principal l s p id :
  id ∈ default ∅ (ao_principal_index (foldl (index_rule key_prefix) s l) !! p) ↔
  (∃ v, v ∈ l ∧ ru_id (vr_rule v) = id ∧ ru_principal (vr_rule v) = p) ∨ id ∈ default ∅ (ao_principal_index s !! p).
Proof.
  revert s. induction l as [|v l IH]; intros s; simpl.
  { split; [by right|]. intros [(? & ?%elem_of_nil & _)|?]; done. }
  rewrite IH. simpl. rewrite index_insert_elem. setoid_rewrite elem_of_cons. clear. naive_solver.
Qed.

Lemma foldl_max_spec l a : a ≤ foldl Z.max a l ∧ (∀ x, x ∈ l → x ≤ foldl Z.max a l) ∧ foldl Z.max a l ∈ a :: l.
Proof.
  revert a. induction l as [|y l IH]; intros a; simpl; [split_and!; [done|by intros x ?%elem_of_nil|left]|].
  destruct (IH (Z.max a y)) as (H1 & H2 & H3). split_and!; [lia|intros x [->|?]%elem_of_cons; [lia|auto]|].
  rewrite !elem_of_cons in *. destruct H3 as [->|?]; [|auto]. destruct (Z.max_spec a y) as [[_ ->]|[_ ->]]; auto.
Qed.

(** Every object under the rules' prefix is a rule's. *)
Definition rules_only (o : O) : Prop :=
  ∀ k d, os_ok_key k = true → starts_with (key_prefix +:+ "rules/") k = true → os_view o k = Some d →
    ∃ id, k = okey id.

Lemma load_all_rules_spec s m s0 r s' :
  holds key_prefix s m → rules_only (ao_object_storage s) → ao_object_storage s0 = ao_object_storage s →
  load_all_rules key_prefix s0 = (r, s') →
  ∃ rules o', r = Ok rules ∧ s' = with_objects o' s0 ∧ os_reliable o' ∧
    (∀ k, os_ok_key k = true → os_view o' k = os_view (ao_object_storage s) k) ∧
    ∀ v, v ∈ rules ↔ ∃ id, m !! id = Some v.
Proof using JsonLaws0 ObjectListingLaws0.
  intros Hs Hown E0. unfold load_all_rules. rewrite E0. destruct (os_list _ _) as [g o1] eqn:El.
  destruct (os_list_law _ _ _ _ El (ho_reliable _ _ _ Hs)) as (Hr1 & Hv1 & keys & -> & Hok & Hkeys).
  destruct (load_keys keys o1) as [l o2] eqn:Ek. intros [= <- <-].
  destruct (load_keys_spec keys o1 l o2 Hr1 Hok Ek) as (Hr2 & Hv2 & Hl). exists l, o2.
  split_and!; [done|done|done|intros k ?; by rewrite Hv2, Hv1|]. intros v. rewrite Hl. rewrite Forall_forall in Hok. split.
  - intros (k & d & Hk & Hd & Hj). rewrite Hv1 in Hd by auto.
    destruct (proj1 (Hkeys d)) as (k' & Hok' & Hpre & Hd'); [eauto|]. destruct (Hown _ _ Hok' Hpre Hd') as [id ->].
    exists id. rewrite (ho_object _ _ _ Hs id Hok') in Hd'. destruct (m !! id) as [w|]; [|done]. injection Hd' as <-.
    by rewrite from_to_json in Hj.
  - intros [id Hid]. assert (Hi := ho_id _ _ _ Hs id v Hid).
    destruct (proj2 (Hkeys (to_json v))) as (k & Hk & Hd).
    { exists (okey id). split_and!; [done| |by rewrite (ho_object _ _ _ Hs id Hi), Hid].
      apply starts_with_spec. exists (id +:+ ".json"). unfold get_rule_object_key. by rewrite !str_app_assoc. }
    exists k, (to_json v). rewrite Hv1, from_to_json by auto. done.
Qed.

(** A restart.  A storage opened on the objects of another one, with a
    cache that holds nothing outdated, holds the same rules: the indices are
    rebuilt from the objects, and the version counter resumes at the highest
    version in use, so that no version is given out twice. *)
Theorem acl_restart s m c r s' :
  holds key_prefix s m → own_ids m → rules_only (ao_object_storage s) →
  (∀ id d, cache_view c (get_rule_cache_key id) = Some d → to_json <$> m !! id = Some d) →
  cache_usable c → acl_storage_new key_prefix (ao_object_storage s) c = (r, s') →
  r = Ok tt ∧ holds key_prefix s' m ∧ (∀ id v, m !! id = Some v → vr_version v ≤ ao_version_counter s') ∧
  (ao_version_counter s' = 0 ∨ ∃ id v, m !! id = Some v ∧ vr_version v = ao_version_counter s').
Proof using JsonLaws0 ObjectListingLaws0.
  intros Hs Hids Hown Hc Hu. unfold acl_storage_new. set (s0 := mkAclStorage _ _ _ _ _).
  destruct (load_all_rules key_prefix s0) as [g s1] eqn:El.
  destruct (load_all_rules_spec s m s0 g s1 Hs Hown eq_refl El) as (l & o' & -> & -> & Hr & Hv & Hl).
  simpl. intros [= <- <-]. set (s2 := foldl _ _ _).
  destruct (index_rules_frame l (with_objects o' s0)) as (Ho & Hca & Hver). fold s2 in Ho, Hca, Hver. simpl in *.
  destruct (foldl_max_spec (vr_version <$> l) 0) as (_ & Hmax & Hmem). split_and!; [done| | |].
  - split; rewrite ?Ho, ?Hca; try done.
    + intros id Hid. rewrite Hv by done. by apply Hs.
    + apply Hs.
    + intros id. unfold s2. rewrite index_rules_lookup. simpl. rewrite lookup_empty. case_decide as Hd.
      * apply list_elem_of_fmap in Hd as (v & -> & [id Hid]%Hl). simpl. by rewrite (Hids _ _ Hid), Hid.
      * destruct (m !! id) as [v|] eqn:Em; [|done]. destruct Hd. apply list_elem_of_fmap. exists v. simpl.
        rewrite (Hids _ _ Em). split; [done|]. apply Hl. eauto.
    + intros p id. unfold s2. rewrite index_rules_principal. simpl. rewrite lookup_empty.
      intros [(v & [id' Hid]%Hl & <- & Hp)|?%not_elem_of_empty]; [|done]. exists v. by rewrite (Hids _ _ Hid).
    + intros id v Hid _. unfold s2. apply index_rules_principal. left. exists v. rewrite Hl. split_and!; eauto.
  - intros id v Hid. rewrite Hver. apply Hmax. apply list_elem_of_fmap. exists v. rewrite Hl. eauto.
  - rewrite Hver. apply elem_of_cons in Hmem as [->|(v & Hx & [id Hid]%Hl)%list_elem_of_fmap]; eauto.
Qed.
End restart.

Module AclStorageDemo.
Import Mem.
#[local] Instance op_countable : Countable AclOperation.
Proof.
  refine (inj_countable' (λ o, match o with OpRead => 0 | OpWrite => 1 | OpAdmin => 2 | OpDescribe => 3 | OpCluster => 4
    | OpAll => 5 | OpConnect => 6 | OpDelete => 7 | OpAlter => 8 | OpCreate => 9 | OpList => 10 end%nat)
    (λ n, match n with 0 => OpRead | 1 => OpWrite | 2 => OpAdmin | 3 => OpDescribe | 4 => OpCluster | 5 => OpAll
    | 6 => OpConnect | 7 => OpDelete | 8 => OpAlter | 9 => OpCreate | _ => OpList end%nat) _).
  by intros [].
Defined.
#[local] Instance pattern_countable : Countable ResourcePattern.
Proof.
  refine (inj_countable' (λ p, (match rp_resource_type p with RTopic => 0 | RConsumerGroup => 1 | RBroker => 2
    | RCluster => 3 end%nat, rp_pattern p))
    (λ '(n, s), mkPattern (match n with 0 => RTopic | 1 => RConsumerGroup | 2 => RBroker | _ => RCluster end%nat) s) _).
  by intros [[] ?].
Defined.
#[local] Instance rule_eq_dec : EqDecision AclRule.
Proof. solve_decision. Defined.
#[local] Instance rule_countable : Countable AclRule.
Proof.
  refine (inj_countable' (λ r, (ru_id r, ru_principal r, ru_resource r, ru_operations r,
    bool_decide (ru_effect r = EffAllow), ru_conditions r))
    (λ '(a, b, c, d, e, f), mkRule a b c d (if e then EffAllow else EffDeny) f) _).
  by intros [? ? ? ? [] ?].
Defined.
#[local] Instance versioned_eq_dec : EqDecision VersionedAclRule.
Proof. solve_decision. Defined.
#[local] Instance versioned_countable : Countable VersionedAclRule.
Proof.
  refine (inj_countable' (λ v, (vr_rule v, vr_version v, vr_timestamp v, vr_created_by v, vr_change_description v, vr_deleted v))
    (λ '(a, b, c, d, e, f), mkVersioned a b c d e f) _).
  by intros [].
Defined.
#[local] Instance rule_json : Json VersionedAclRule := {|
  to_json v := DemoCodec.bits (encode v);
  from_json d := DemoCodec.unbits d ≫= decode;
|}.
#[local] Instance rule_json_laws : JsonLaws VersionedAclRule.
Proof. split. intros v. simpl. by rewrite DemoCodec.unbits_bits; simpl; rewrite decode_encode. Qed.

#[local] Instance mem_listing : ObjectListing (gmap string (list Z)) := {|
  os_list prefix o := (Ok (filter (λ k, starts_with prefix k = true) (map_to_list o).*1), o);
  os_exists k o := (Ok (bool_decide (is_Some (o !! k))), o);
|}.
#[local] Instance mem_listing_laws : ObjectListingLaws (gmap string (list Z)).
Proof.
  split. intros prefix o r o' [= <- <-] _. split_and!; [done..|]. eexists. split_and!; [done|by apply Forall_forall|].
  intros d. split.
  - intros (k & [Hp Hk]%list_elem_of_filter & Hd). by exists k.
  - intros (k & _ & Hp & Hd). exists k. split; [|done]. apply list_elem_of_filter. split; [done|].
    apply list_elem_of_fmap. exists (k, d). split; [done|]. by apply elem_of_map_to_list.
Qed.
#[local] Instance lru : Cache LruCache := lru_cache (λ _, 0).
#[local] Instance lru_laws : CacheLaws LruCache := lru_cache_laws (λ _, 0).
#[local] Instance lru_total : CacheTotal LruCache := lru_cache_total (λ _, 0).

Definition rule (id principal : string) (effect : Effect) : AclRule :=
  mkRule id principal (mkPattern RTopic "orders") [OpRead] effect ∅.
Definition s0 : AclStorage (gmap string (list Z)) LruCache := mkAclStorage ∅ (lru_new 16000) 0 ∅ ∅.
Definition ops : list AclOp :=
  [ACreate "u1" 5 (rule EmptyString "svc-*" EffAllow) "root" "a"; ACreate "u2" 6 (rule "r2" "bob" EffAllow) "root" "b";
   AUpdate 7 "r2" (rule "r2" "svc-a" EffDeny) "root" "c"; AGet "r2"; ADelete 8 "u1" "root" "d"; AGet "r9";
   APrincipal "svc-a"].

Lemma holds_s0 : holds "acl/" s0 ∅.
Proof. split; try done. simpl. lia. Qed.

Lemma id_perm (l : list (string * gset string)) : id l ≡ₚ l.
Proof. done. Qed.

Lemma acl_storage_refines_witness :
  let '(outs, s') := run_acl_ops "acl/" id ops s0 in
  Forall2 out_matches outs (spec_ops ops (∅, 0)).1 ∧ ao_version_counter s' = 4 ∧
  outs !! 3%nat = Some (OutRule (Ok (Some (mkVersioned (rule "r2" "svc-a" EffDeny) 3 7 "root" "c" false)))).
Proof.
  destruct (run_acl_ops "acl/" id ops s0) as [outs s'] eqn:E.
  pose proof (acl_storage_refines "acl/" id id_perm ops s0 ∅ outs s' holds_s0) as H.
  destruct (spec_ops ops (∅, ao_version_counter s0)) as [outs' [m' ver']] eqn:Es.
  destruct H as (Ho & Hv & _); [|exact E|].
  - vm_compute. repeat split. intros v [= <-]. discriminate.
  - vm_compute in Es. injection Es as <- _ <-. split; [exact Ho|]. split; [exact Hv|].
    change outs with (outs, s').1. rewrite <- E. vm_compute. reflexivity.
Defined.

Definition v1 : VersionedAclRule := mkVersioned (rule "u1" "svc-*" EffAllow) 1 5 "root" "a" false.
Definition m1 : RuleMap := <["u1" := v1]> ∅.
Definition s1 : AclStorage (gmap string (list Z)) LruCache :=
  (create_rule "acl/" "u1" 5 (rule EmptyString "svc-*" EffAllow) "root" "a" s0).2.

Lemma holds_s1 : holds "acl/" s1 m1.
Proof.
  unfold s1. destruct (create_rule _ _ _ _ _ _ s0) as [r s'] eqn:E.
  by destruct (create_refines "acl/" _ _ _ _ _ _ ∅ _ _ holds_s0 eq_refl E) as (_ & _ & H).
Qed.

Lemma stored_decision_witness :
  is_allowed (evaluate_rules AclDemo.no_regex AclDemo.no_match
    (get_rules_for_principal "acl/" id "svc-a" s1).1 "svc-a" "orders" OpRead None) = true.
Proof.
  destruct (get_rules_for_principal "acl/" id "svc-a" s1) as [l s'] eqn:E. simpl.
  rewrite (stored_decision AclDemo.no_regex AclDemo.no_match "acl/" id id_perm "svc-a" "orders" OpRead None s1 m1 l s' holds_s1).
  - vm_compute. reflexivity.
  - apply map_Forall_insert_2; [|apply map_Forall_empty]. by apply (ep_prefix "svc-").
  - exact E.
Defined.

Lemma own_ids_m1 : own_ids m1.
Proof. apply map_Forall_insert_2; [done|apply map_Forall_empty]. Qed.
Lemma rules_only_s1 : rules_only "acl/" (ao_object_storage s1).
Proof.
  intros k d _ _ Hk. change (<["acl/rules/u1.json" := to_json v1]> (∅ : gmap string (list Z)) !! k = Some d) in Hk.
  apply lookup_insert_Some in Hk as [[<- _]|[_ Hk]]; [by exists "u1"%string|by rewrite lookup_empty in Hk].
Qed.

Lemma acl_restart_witness :
  let '(r, s') := acl_storage_new "acl/" (ao_object_storage s1) (lru_new 16000) in
  r = Ok tt ∧ ao_version_counter s' = 1 ∧ holds "acl/" s' m1.
Proof.
  destruct (acl_storage_new "acl/" (ao_object_storage s1) (lru_new 16000)) as [r s'] eqn:E.
  destruct (acl_restart "acl/" s1 m1 (lru_new 16000) r s') as (Hr & Hs & Hle & Hex).
  - exact holds_s1.
  - exact own_ids_m1.
  - exact rules_only_s1.
  - intros i d. simpl. by rewrite lru_view_new.
  - simpl. lia.
  - exact E.
  - split; [exact Hr|]. split; [|exact Hs]. specialize (Hle "u1" v1 eq_refl). simpl in Hle.
    destruct Hex as [Hx|(id & v & Hv & Hx)]; [lia|].
    unfold m1 in Hv. apply lookup_insert_Some in Hv as [[_ <-]|[_ Hv]]; [by rewrite <- Hx|by rewrite lookup_empty in Hv].
Defined.

(** Divergences.  Updating a deleted rule without a change of principal brings
    it back, but not into the principal index. *)
Lemma update_after_delete_not_indexed :
  let s := (delete_rule "acl/" 6 "u1" "root" "b" s1).2 in
  let s := (update_rule "acl/" 7 "u1" (rule "u1" "svc-*" EffAllow) "root" "c" s).2 in
  (get_rule "acl/" "u1" s).1 = Ok (Some (mkVersioned (rule "u1" "svc-*" EffAllow) 3 7 "root" "c" false)) ∧
  (get_rules_for_principal "acl/" id "svc-a" s).1 = [].
Proof. split; vm_compute; reflexivity. Qed.

(** A rule that was deleted cannot be created again under its identifier. *)
Lemma create_after_delete_refused :
  let s := (delete_rule "acl/" 6 "u1" "root" "b" s1).2 in
  (create_rule "acl/" "u2" 7 (rule "u1" "svc-*" EffAllow) "root" "c" s).1 = Err AclEvaluation.
Proof. vm_compute. reflexivity. Qed.

(** A pattern with its star in the middle matches principals for which the
    principal query does not return its rule. *)
Lemma middle_star_not_found :
  let s := (create_rule "acl/" "u1" 5 (rule "r1" "a*b" EffDeny) "root" "a" s0).2 in
  applies_to_principal (rule "r1" "a*b" EffDeny) "axb" = true ∧
  (get_rules_for_principal "acl/" id "axb" s).1 = [].
Proof. split; vm_compute; reflexivity. Qed.

(** Restoring an older snapshot does not take effect for cached rules. *)
Lemma restore_leaves_cache :
  let s := (update_rule "acl/" 6 "u1" (rule "u1" "svc-*" EffDeny) "root" "b" s1).2 in
  let s := (restore_snapshot "acl/" (mkAclSnapshot [v1] 1 6 "snap" ∅) s).2 in
  (get_rule "acl/" "u1" s).1 = Ok (Some (mkVersioned (rule "u1" "svc-*" EffDeny) 2 6 "root" "b" false)).
Proof. vm_compute. reflexivity. Qed.

(** A limit of zero returns one rule. *)
Lemma limit_zero_returns_one :
  take_filtered (mkFilter None None None None None false (Some 0)) 0 [v1; v1] = [v1].
Proof. reflexivity. Qed.
End AclStorageDemo.
