(* ===== verification/AclRaft.v ===== *)
(** * Replicated ACL rules

    Model of [src/src/security/acl/raft.rs]: the state machine that applies ACL
    operations to the rule storage, the manager that submits operations to the
    Raft log, and snapshots; and of the controller's side of the interface,
    [src/src/controller/raft_operations.rs].  Times and generated identifiers
    come with every operation as a [Stamp], since each replica makes its own. *)

From Stdlib Require Import Ascii String.
From S2P Require Import Prelude Types LruCache ObjectStorage Scaling Controller AccessControl AclStorage.
Local Open Scope Z_scope.

(** ** Operations *)

#[warnings="-register-all"] Inductive AclRaftOperation :=
  | CreateRule (rule : AclRule) (created_by description : string)
  | UpdateRule (rule_id : string) (rule : AclRule) (updated_by description : string)
  | DeleteRule (rule_id deleted_by description : string)
  | BatchOperation (operations : list AclRaftOperation) (batch_id description : string).

(** The text of a failure: the display of an error, or the refusal of a batch
    in a batch. *)
Inductive FailureText := Display (e : RustMqError) | NestedBatch.
#[warnings="-register-all"] Inductive AclRaftResult :=
  | Success (operation_id : string) (rule_id : option string) (version : Z)
  | Failure (operation_id : string) (error : FailureText)
  | BatchResult (batch_id : string) (results : list AclRaftResult).

Record Stamp := mkStamp { sp_operation_id : string; sp_rule_uuid : string; sp_now : Z }.

(** [RaftOperations] *)
Class RaftOperations (R : Type) := {
  raft_is_leader : R → bool;
  raft_current_term : R → Z;
  append_acl_operation : bytes → R → Result unit * R;
}.
#[global] Hint Mode RaftOperations ! : typeclass_instances.
(** The controller's implementation; the append is a placeholder that logs. *)
#[global] Instance controller_raft_operations : RaftOperations ControllerService := {|
  raft_is_leader c := rs_is_leader (cs_raft_state c);
  raft_current_term c := rs_current_term (cs_raft_state c);
  append_acl_operation _ c := (Ok tt, c);
|}.

Record AclStateMachine (O C : Type) := mkMachine {
  sm_storage : AclStorage O C;
  sm_last_applied_index : Z;
  sm_pending_operations : gset string;
}.
Arguments mkMachine {O C}. Arguments sm_storage {O C}. Arguments sm_last_applied_index {O C}.
Arguments sm_pending_operations {O C}.
Record AclSnapshotData := mkSnapshotData { sd_snapshot : AclSnapshot; sd_last_applied_index : Z }.
Record RaftAclManager (O C R : Type) := mkRaftManager {
  ra_state_machine : AclStateMachine O C;
  ra_raft_ops : R;
  ra_node_id : string;
}.
Arguments mkRaftManager {O C R}. Arguments ra_state_machine {O C R}. Arguments ra_raft_ops {O C R}.
Arguments ra_node_id {O C R}.

(** A call that returns, or one that waits for an answer on its channel. *)
Inductive Outcome (A : Type) := Returned (r : Result A) | Waiting.
Arguments Returned {A}. Arguments Waiting {A}.

Section raft.
Context {O C R : Type} `{!ObjectStorage O, !ObjectListing O, !Cache C, !RaftOperations R}.
Context `{!Json VersionedAclRule, !Json AclSnapshot, !Json AclRaftOperation, !Json AclSnapshotData}.
Context (key_prefix : string).
Abbreviation Machine := (AclStateMachine O C).
Abbreviation Manager := (RaftAclManager O C R).

Definition machine_new (storage : AclStorage O C) : Machine := mkMachine storage 0 ∅.
Definition with_storage (s : AclStorage O C) (m : Machine) : Machine :=
  mkMachine s (sm_last_applied_index m) (sm_pending_operations m).
Definition get_last_applied_index (m : Machine) : Z := sm_last_applied_index m.
Definition set_last_applied_index (index : Z) (m : Machine) : Machine :=
  mkMachine (sm_storage m) index (sm_pending_operations m).

(** One operation that is not a batch, as the outer match and the loop over a
    batch apply it; in the loop a batch is refused. *)
Definition apply_single (st : Stamp) (operation : AclRaftOperation) (s : AclStorage O C)
  : AclRaftResult * AclStorage O C :=
  match operation with
  | CreateRule rule created_by description =>
      match create_rule key_prefix (sp_rule_uuid st) (sp_now st) rule created_by description s with
      | (Ok rule_id, s) => (Success (sp_operation_id st) (Some rule_id) (get_version s), s)
      | (Err e, s) => (Failure (sp_operation_id st) (Display e), s)
      end
  | UpdateRule rule_id rule updated_by description =>
      match update_rule key_prefix (sp_now st) rule_id rule updated_by description s with
      | (Ok _, s) => (Success (sp_operation_id st) (Some rule_id) (get_version s), s)
      | (Err e, s) => (Failure (sp_operation_id st) (Display e), s)
      end
  | DeleteRule rule_id deleted_by description =>
      match delete_rule key_prefix (sp_now st) rule_id deleted_by description s with
      | (Ok _, s) => (Success (sp_operation_id st) (Some rule_id) (get_version s), s)
      | (Err e, s) => (Failure (sp_operation_id st) (Display e), s)
      end
  | BatchOperation _ _ _ => (Failure (sp_operation_id st) NestedBatch, s)
  end.
Fixpoint apply_batch (stamps : nat → Stamp) (operations : list AclRaftOperation) (s : AclStorage O C)
  : list AclRaftResult * AclStorage O C :=
  match operations with
  | [] => ([], s)
  | op :: operations =>
      let '(result, s) := apply_single (stamps 0%nat) op s in
      let '(results, s) := apply_batch (λ i, stamps (S i)) operations s in
      (result :: results, s)
  end.
Definition apply_operation (stamps : nat → Stamp) (operation : AclRaftOperation) (m : Machine)
  : AclRaftResult * Machine :=
  match operation with
  | BatchOperation operations batch_id _ =>
      let '(results, s) := apply_batch stamps operations (sm_storage m) in
      (BatchResult batch_id results, with_storage s m)
  | op => let '(result, s) := apply_single (stamps 0%nat) op (sm_storage m) in (result, with_storage s m)
  end.

(** ** The manager *)

Definition raft_manager_new (storage : AclStorage O C) (raft_ops : R) (node_id : string) : Manager :=
  mkRaftManager (machine_new storage) raft_ops node_id.
Definition with_machine (sm : AclStateMachine O C) (m : Manager) : Manager :=
  mkRaftManager sm (ra_raft_ops m) (ra_node_id m).
Definition with_raft (r : R) (m : Manager) : Manager := mkRaftManager (ra_state_machine m) r (ra_node_id m).

(** The sender is kept in the map of pending operations, where nothing takes it
    out: the wait does not end. *)
Definition submit_operation (operation_id : string) (operation : AclRaftOperation) (m : Manager)
  : Outcome AclRaftResult * Manager :=
  if negb (raft_is_leader (ra_raft_ops m)) then (Returned (Err NotLeader), m)
  else
    let sm := ra_state_machine m in
    let m := with_machine (mkMachine (sm_storage sm) (sm_last_applied_index sm)
                             ({[operation_id]} ∪ sm_pending_operations sm)) m in
    let '(r, ops) := append_acl_operation (to_json operation) (ra_raft_ops m) in
    let m := with_raft ops m in
    match r with
    | Err e => (Returned (Err e), m)
    | Ok _ => (Waiting, m)
    end.

(** What the trait's methods make of the result of a submission *)
Definition created_result (r : AclRaftResult) : Result string :=
  match r with
  | Success _ (Some rule_id) _ => Ok rule_id
  | _ => Err AclEvaluation
  end.
Definition changed_result (r : AclRaftResult) : Result unit :=
  match r with Success _ _ _ => Ok tt | _ => Err AclEvaluation end.
Definition outcome_bind {A B} (o : Outcome A) (f : A → Result B) : Outcome B :=
  match o with
  | Returned (Ok a) => Returned (f a)
  | Returned (Err e) => Returned (Err e)
  | Waiting => Waiting
  end.
Definition create_acl_rule (operation_id : string) (rule : AclRule) (created_by description : string) (m : Manager)
  : Outcome string * Manager :=
  let '(o, m) := submit_operation operation_id (CreateRule rule created_by description) m in
  (outcome_bind o created_result, m).
Definition update_acl_rule (operation_id rule_id : string) (rule : AclRule) (updated_by description : string) (m : Manager)
  : Outcome unit * Manager :=
  let '(o, m) := submit_operation operation_id (UpdateRule rule_id rule updated_by description) m in
  (outcome_bind o changed_result, m).
Definition delete_acl_rule (operation_id rule_id deleted_by description : string) (m : Manager)
  : Outcome unit * Manager :=
  let '(o, m) := submit_operation operation_id (DeleteRule rule_id deleted_by description) m in
  (outcome_bind o changed_result, m).

Definition apply_log_entry (stamps : nat → Stamp) (entry_data : bytes) (m : Manager) : Result unit * Manager :=
  match from_json entry_data with
  | None => (Err Serialization, m)
  | Some operation =>
      let '(_, sm) := apply_operation stamps operation (ra_state_machine m) in (Ok tt, with_machine sm m)
  end.

Local Open Scope rust_scope.
Definition on_storage {A} (f : AclStorage O C → Result A * AclStorage O C) (m : Manager) : Result A * Manager :=
  let '(r, s) := f (sm_storage (ra_state_machine m)) in (r, with_machine (with_storage s (ra_state_machine m)) m).
Definition raft_create_snapshot (uuid : string) (now : Z) (m : Manager) : Result bytes * Manager :=
  let! (snapshot, m) := on_storage (create_snapshot key_prefix uuid now) m in
  (Ok (to_json (mkSnapshotData snapshot (get_last_applied_index (ra_state_machine m)))), m).
Definition raft_restore_snapshot (data : bytes) (m : Manager) : Result unit * Manager :=
  match from_json data with
  | None => (Err Config, m)
  | Some snapshot_data =>
      let! (_u, m) := on_storage (restore_snapshot key_prefix (sd_snapshot snapshot_data)) m in
      (Ok tt, with_machine (set_last_applied_index (sd_last_applied_index snapshot_data) (ra_state_machine m)) m)
  end.
End raft.

(** ** Replicas *)

(** Rules up to the time of their last change, which every replica takes from
    its own clock *)
Definition erase_time (v : VersionedAclRule) : VersionedAclRule :=
  mkVersioned (vr_rule v) (vr_version v) 0 (vr_created_by v) (vr_change_description v) (vr_deleted v).
Definition same_rules (m1 m2 : RuleMap) : Prop := erase_time <$> m1 = erase_time <$> m2.
#[global] Instance same_rules_equivalence : Equivalence same_rules.
Proof. split; unfold same_rules; [done|by intros ?? ->|by intros ??? -> ->]. Qed.

(** An operation with the marks of a replica, as an operation of the storage *)
Definition op_at (st : Stamp) (op : AclRaftOperation) : option AclOp :=
  match op with
  | CreateRule rule by_ d => Some (ACreate (sp_rule_uuid st) (sp_now st) rule by_ d)
  | UpdateRule id rule by_ d => Some (AUpdate (sp_now st) id rule by_ d)
  | DeleteRule id by_ d => Some (ADelete (sp_now st) id by_ d)
  | BatchOperation _ _ _ => None
  end.
Definition spec_single (st : Stamp) (op : AclRaftOperation) (x : RuleMap * Z) : RuleMap * Z :=
  match op_at st op with Some o => (spec_op o x).2 | None => x end.
(** The operations of a log entry *)
Definition singles (op : AclRaftOperation) : list AclRaftOperation :=
  match op with BatchOperation ops _ _ => ops | op => [op] end.
Definition stamp0 : Stamp := mkStamp EmptyString EmptyString 0.
Definition spec_singles (ops : list AclRaftOperation) (x : RuleMap * Z) : RuleMap * Z :=
  foldl (λ x op, spec_single stamp0 op x) x ops.

Lemma same_rules_lookup m1 m2 id : same_rules m1 m2 → erase_time <$> m1 !! id = erase_time <$> m2 !! id.
Proof. intros E. by rewrite <- !lookup_fmap, E. Qed.
Lemma same_rules_insert m1 m2 id v1 v2 :
  same_rules m1 m2 → erase_time v1 = erase_time v2 → same_rules (<[id := v1]> m1) (<[id := v2]> m2).
Proof. unfold same_rules. intros E1 E2. by rewrite !fmap_insert, E1, E2. Qed.

Definition explicit_id (op : AclRaftOperation) : Prop :=
  match op with CreateRule rule _ _ => ru_id rule ≠ EmptyString | _ => True end.

(** With explicit rule identifiers the marks do not matter. *)
Lemma spec_single_erase st1 st2 op m1 m2 ver :
  explicit_id op → same_rules m1 m2 →
  same_rules (spec_single st1 op (m1, ver)).1 (spec_single st2 op (m2, ver)).1 ∧
  (spec_single st1 op (m1, ver)).2 = (spec_single st2 op (m2, ver)).2.
Proof.
  intros He Hm. destruct op as [rule by_ d|id rule by_ d|id by_ d|ops b d]; unfold spec_single; simpl; try done.
  - assert (Hid : ∀ u, rule_id_of u rule = ru_id rule).
    { intros u. unfold rule_id_of. by rewrite (proj2 (String.eqb_neq _ _) He). }
    rewrite !Hid. pose proof (same_rules_lookup m1 m2 (ru_id rule) Hm) as E.
    destruct (m1 !! _), (m2 !! _); simplify_eq/=; try done. split; [by apply same_rules_insert|done].
  - pose proof (same_rules_lookup m1 m2 id Hm) as E.
    destruct (m1 !! _), (m2 !! _); simplify_eq/=; try done. split; [by apply same_rules_insert|done].
  - pose proof (same_rules_lookup m1 m2 id Hm) as E.
    destruct (m1 !! _) as [w1|], (m2 !! _) as [w2|]; simplify_eq/=; try done. split; [|done].
    apply same_rules_insert; [done|]. unfold erase_time. simpl. congruence.
Qed.

Section replicas.
Context {O C R : Type} `{!ObjectStorage O, !ObjectStorageLaws O, !ObjectListing O, !RaftOperations R}.
Context `{!Cache C, !CacheLaws C, !CacheTotal C}.
Context `{!Json VersionedAclRule, !JsonLaws VersionedAclRule, !Json AclRaftOperation, !JsonLaws AclRaftOperation}.
Context (key_prefix : string).
Implicit Types (s : AclStorage O C) (m : RuleMap) (a b : RaftAclManager O C R).
Abbreviation id_ok := (id_ok (O := O) key_prefix).
Abbreviation holds := (holds (O := O) (C := C) key_prefix).

(** Explicit identifiers that the object store accepts; an update of a deleted
    rule names another principal. *)
Definition single_ok (op : AclRaftOperation) m : Prop :=
  match op with
  | CreateRule rule _ _ => ru_id rule ≠ EmptyString ∧ id_ok (ru_id rule)
  | UpdateRule id rule _ _ =>
      id_ok id ∧ ∀ v, m !! id = Some v → vr_deleted v = true → ru_principal (vr_rule v) ≠ ru_principal rule
  | DeleteRule id _ _ => id_ok id
  | BatchOperation _ _ _ => True
  end.
Fixpoint singles_ok (ops : list AclRaftOperation) (x : RuleMap * Z) : Prop :=
  match ops with [] => True | op :: ops => single_ok op x.1 ∧ singles_ok ops (spec_single stamp0 op x) end.

Lemma single_ok_explicit op m : single_ok op m → explicit_id op.
Proof. by destruct op; [intros [? _]|..]. Qed.
Lemma single_ok_at st op o m m0 : same_rules m m0 → single_ok op m0 → op_at st op = Some o → acl_op_ok (O := O) key_prefix o m.
Proof.
  intros Hm. destruct op as [rule by_ d|id rule by_ d|id by_ d|ops b d]; simpl.
  - intros [Hne Hid] [= <-]. simpl. unfold rule_id_of. by rewrite (proj2 (String.eqb_neq _ _) Hne).
  - intros [Hid Hp] [= <-]. split; [done|]. intros v Hv Hd.
    pose proof (same_rules_lookup m m0 id Hm) as E. rewrite Hv in E. destruct (m0 !! id) as [w|]; [|done].
    injection E as Er _ _ _ Ed. rewrite Er. apply Hp; [done|congruence].
  - by intros ? [= <-].
  - done.
Qed.

Lemma apply_single_spec st op s m r s' :
  holds s m → (∀ o, op_at st op = Some o → acl_op_ok (O := O) key_prefix o m) → apply_single key_prefix st op s = (r, s') →
  holds s' (spec_single st op (m, ao_version_counter s)).1 ∧
  ao_version_counter s' = (spec_single st op (m, ao_version_counter s)).2.
Proof using JsonLaws0 CacheLaws0 ObjectStorageLaws0 CacheTotal0.
  intros Hs Hok. destruct op as [rule by_ d|id rule by_ d|id by_ d|ops b d]; unfold apply_single, spec_single; cbn [op_at].
  - destruct (create_rule _ _ _ _ _ _ _) as [res s1] eqn:E. intros Er.
    assert (s1 = s') as <- by (by destruct res; injection Er as _ <-).
    pose proof (create_refines key_prefix _ _ _ _ _ _ _ _ _ Hs (Hok _ eq_refl) E) as H.
    destruct (spec_op _ _) as [out [m' ver']]. by destruct H as (_ & -> & ?).
  - destruct (update_rule _ _ _ _ _ _ _) as [res s1] eqn:E. intros Er.
    assert (s1 = s') as <- by (by destruct res; injection Er as _ <-).
    pose proof (update_refines key_prefix _ _ _ _ _ _ _ _ _ Hs (Hok _ eq_refl) E) as H.
    destruct (spec_op _ _) as [out [m' ver']]. by destruct H as (_ & -> & ?).
  - destruct (delete_rule _ _ _ _ _ _) as [res s1] eqn:E. intros Er.
    assert (s1 = s') as <- by (by destruct res; injection Er as _ <-).
    pose proof (delete_refines key_prefix _ _ _ _ _ _ _ _ Hs (Hok _ eq_refl) E) as H.
    destruct (spec_op _ _) as [out [m' ver']]. by destruct H as (_ & -> & ?).
  - by intros [= _ <-].
Qed.

(** A replica that applies operations holds what the operations without marks
    lead to. *)
Definition replica_at s (x : RuleMap * Z) : Prop :=
  ∃ m, holds s m ∧ same_rules m x.1 ∧ ao_version_counter s = x.2.

Lemma apply_batch_spec stamps ops s x r s' :
  replica_at s x → singles_ok ops x → apply_batch key_prefix stamps ops s = (r, s') →
  replica_at s' (spec_singles ops x).
Proof using JsonLaws0 CacheLaws0 ObjectStorageLaws0 CacheTotal0.
  revert stamps s x r. induction ops as [|op ops IH]; intros stamps s x r (m & Hs & Hm & Hv) Hok; simpl.
  { intros [= _ <-]. by exists m. }
  destruct Hok as [Hop Hops]. destruct (apply_single _ _ op s) as [r1 s1] eqn:E1.
  destruct (apply_batch _ _ ops s1) as [rs s2] eqn:E2. intros [= _ <-].
  destruct (apply_single_spec (stamps 0%nat) op s m r1 s1 Hs) as [Hs1 Hv1]; [|done|].
  { intros o. by apply (single_ok_at _ _ _ _ x.1). }
  eapply IH; [|exact Hops|exact E2]. destruct x as [m0 ver]. simpl in *. rewrite Hv in *.
  destruct (spec_single_erase (stamps 0%nat) stamp0 op m m0 ver) as [Hm' Hver']; [by eapply single_ok_explicit|done|].
  exists (spec_single (stamps 0%nat) op (m, ver)).1. by rewrite Hv1.
Qed.

(** A log of entries, each applied with marks of its own *)
Fixpoint apply_log (stamps : nat → nat → Stamp) (log : list AclRaftOperation) a : list (Result unit) * RaftAclManager O C R :=
  match log with
  | [] => ([], a)
  | op :: log =>
      let '(r, a) := apply_log_entry key_prefix (stamps 0%nat) (to_json op) a in
      let '(rs, a) := apply_log (λ i, stamps (S i)) log a in (r :: rs, a)
  end.
Abbreviation storage_of a := (sm_storage (ra_state_machine a)).

Lemma apply_log_entry_spec stamps op a r a' x :
  replica_at (storage_of a) x → singles_ok (singles op) x →
  apply_log_entry key_prefix stamps (to_json op) a = (r, a') →
  r = Ok tt ∧ replica_at (storage_of a') (spec_singles (singles op) x).
Proof using JsonLaws0 JsonLaws1 CacheLaws0 ObjectStorageLaws0 CacheTotal0.
  intros Ha Hok. unfold apply_log_entry. rewrite from_to_json.
  destruct (apply_operation key_prefix stamps op (ra_state_machine a)) as [res sm] eqn:E. intros [= <- <-].
  split; [done|]. destruct (apply_batch key_prefix stamps (singles op) (storage_of a)) as [rs s'] eqn:Eb.
  pose proof (apply_batch_spec _ _ _ _ _ _ Ha Hok Eb) as H. replace (storage_of _) with s'; [done|].
  destruct op; simpl in *; repeat case_match; simplify_eq/=; done.
Qed.

Lemma spec_singles_app ops1 ops2 x : spec_singles (ops1 ++ ops2) x = spec_singles ops2 (spec_singles ops1 x).
Proof. apply foldl_app. Qed.
Lemma singles_ok_app ops1 ops2 x : singles_ok (ops1 ++ ops2) x ↔ singles_ok ops1 x ∧ singles_ok ops2 (spec_singles ops1 x).
Proof. revert x. induction ops1 as [|op ops1 IH]; intros x; simpl; [tauto|]. rewrite IH. unfold spec_singles. simpl. tauto. Qed.

Lemma apply_log_spec log stamps a rs a' x :
  replica_at (storage_of a) x → singles_ok (log ≫= singles) x → apply_log stamps log a = (rs, a') →
  Forall (λ r, r = Ok tt) rs ∧ replica_at (storage_of a') (spec_singles (log ≫= singles) x).
Proof using JsonLaws0 JsonLaws1 CacheLaws0 ObjectStorageLaws0 CacheTotal0.
  revert stamps a rs x. induction log as [|op log IH]; intros stamps a rs x Ha Hok; cbn [apply_log].
  { intros [= <- <-]. done. }
  rewrite bind_cons, singles_ok_app in Hok. destruct Hok as [Hok1 Hok2].
  destruct (apply_log_entry _ _ _ a) as [r a1] eqn:E1. destruct (apply_log _ log a1) as [rs1 a2] eqn:E2. intros [= <- <-].
  destruct (apply_log_entry_spec _ _ _ _ _ x Ha Hok1 E1) as [-> Ha1].
  rewrite bind_cons, spec_singles_app. destruct (IH _ _ _ _ Ha1 Hok2 E2) as [Hrs Ha2]. auto.
Qed.

(** C19: Replicas agree.  Two replicas that hold the same rules (up to the times of
    their last changes) with the same version counter and apply the same log,
    whose creations name their rules (identifiers that the replicas generate
    differ, see [generated_ids_diverge]) and which updates no deleted rule under
    the principal it had, each with its own clock, caches and object store that
    does not fail, apply every entry and hold the same rules and the same version counter
    again: the rules the log describes. *)
Theorem replicas_agree log stamps1 stamps2 a b m1 m2 rs1 a' rs2 b' :
  holds (storage_of a) m1 → holds (storage_of b) m2 → same_rules m1 m2 →
  ao_version_counter (storage_of a) = ao_version_counter (storage_of b) →
  singles_ok (log ≫= singles) (m1, ao_version_counter (storage_of a)) →
  apply_log stamps1 log a = (rs1, a') → apply_log stamps2 log b = (rs2, b') →
  Forall (λ r, r = Ok tt) (rs1 ++ rs2) ∧
  ∃ m1' m2', holds (storage_of a') m1' ∧ holds (storage_of b') m2' ∧ same_rules m1' m2' ∧
    same_rules m1' (spec_singles (log ≫= singles) (m1, ao_version_counter (storage_of a))).1 ∧
    ao_version_counter (storage_of a') = ao_version_counter (storage_of b').
Proof using JsonLaws0 JsonLaws1 CacheLaws0 ObjectStorageLaws0 CacheTotal0.
  intros Ha Hb Hm Hv Hok E1 E2.
  destruct (apply_log_spec log stamps1 a rs1 a' (m1, ao_version_counter (storage_of a))) as (Hr1 & m1' & Ha' & Hs1 & Hv1);
    [by exists m1|done|done|].
  destruct (apply_log_spec log stamps2 b rs2 b' (m1, ao_version_counter (storage_of a))) as (Hr2 & m2' & Hb' & Hs2 & Hv2);
    [by exists m2|done|done|].
  split; [by apply Forall_app|]. exists m1', m2'. split_and!; try done; [by rewrite Hs1, Hs2|congruence].
Qed.
End replicas.

(** ** Snapshots *)

Definition live_rules (m : RuleMap) : RuleMap := filter (λ kv, vr_deleted kv.2 = false) m.

Section snapshots.
Context {O C R : Type} `{!ObjectStorage O, !ObjectStorageLaws O, !ObjectListing O, !ObjectListingLaws O}.
Context `{!Cache C, !CacheLaws C, !CacheTotal C, !RaftOperations R}.
Context `{!Json VersionedAclRule, !JsonLaws VersionedAclRule, !Json AclSnapshot, !Json AclSnapshotData, !JsonLaws AclSnapshotData}.
Context (key_prefix : string).
Implicit Types (s : AclStorage O C) (m M : RuleMap) (a b : RaftAclManager O C R).
Abbreviation id_ok := (id_ok (O := O) key_prefix).
Abbreviation holds := (holds (O := O) (C := C) key_prefix).
Abbreviation storage_of a := (sm_storage (ra_state_machine a)).

(** Restoring one rule that the storage does not have, or has already *)
Lemma restore_rule_spec v s m r s' (id := ru_id (vr_rule v)) :
  holds s m → id_ok id → (∀ w, m !! id = Some w → w = v) →
  put_object (get_rule_object_key key_prefix id) (to_json v) s = (r, s') →
  r = Ok tt ∧
  holds (with_principal_index (index_insert (ru_principal (vr_rule v)) id (ao_principal_index s'))
           (with_rule_index (<[id := get_rule_object_key key_prefix id]> (ao_rule_index s')) s')) (<[id := v]> m).
Proof using ObjectStorageLaws0.
  intros Hs Hid Hnew E. destruct (put_object_spec key_prefix id s m v r s' Hs Hid E) as (-> & Hr & Hv & Hc & _ & Hi & Hp).
  split; [done|]. apply (holds_write key_prefix s); try done; simpl; rewrite ?Hc, ?Hi, ?Hp; [|done| |apply Hs].
  - intros i d Hd. destruct (decide (i = id)) as [->|]; [left|by right]. split; [done|].
    apply (ho_cache _ _ _ Hs) in Hd. destruct (m !! id) as [w|] eqn:Em; [|done].
    rewrite (Hnew w eq_refl) in Hd. by injection Hd.
  - destruct Hs as [_ _ _ _ _ H6 H7 _]. split.
    + intros p i. rewrite index_insert_elem. intros [[-> ->]|Hin]; [exists v; by rewrite lookup_insert_eq|].
      destruct (H6 _ _ Hin) as (w & Hw & Hpw). destruct (decide (i = id)) as [->|].
      * exists v. rewrite lookup_insert_eq. by rewrite <- (Hnew w Hw).
      * exists w. by rewrite lookup_insert_ne.
    + intros i w. rewrite index_insert_elem. intros [[<- <-]|[Hne Hw]]%lookup_insert_Some Hl; [by left|right]. eauto.
Qed.

Lemma restore_rules_spec rules s m M r s' :
  holds s m → m ⊆ M →
  (∀ v, v ∈ rules → vr_deleted v = false → M !! ru_id (vr_rule v) = Some v ∧ id_ok (ru_id (vr_rule v))) →
  restore_rules key_prefix rules s = (r, s') →
  r = Ok tt ∧ ∃ m', holds s' m' ∧ m ⊆ m' ∧ m' ⊆ M ∧
    ∀ v, v ∈ rules → vr_deleted v = false → m' !! ru_id (vr_rule v) = Some v.
Proof using ObjectStorageLaws0.
  revert s m. induction rules as [|v rules IH]; intros s m Hs HM Hrules; cbn [restore_rules].
  { intros [= <- <-]. split; [done|]. exists m. split_and!; try done. by intros v ?%elem_of_nil. }
  destruct (vr_deleted v) eqn:Ed.
  - intros E. destruct (IH s m Hs HM (λ w Hw, Hrules w (list_elem_of_further _ _ _ Hw)) E) as (-> & m' & Hs' & H1 & H2 & H3).
    split; [done|]. exists m'. split_and!; try done. intros w [->|Hw]%elem_of_cons Hl; [congruence|auto].
  - destruct (Hrules v (list_elem_of_here _ _) Ed) as [HMv Hid].
    destruct (put_object _ _ s) as [r1 s1] eqn:E1. intros E.
    destruct (restore_rule_spec v s m r1 s1 Hs Hid) as [-> Hs1]; [|done|].
    { intros w Hw. eapply lookup_weaken in HM; [|exact Hw]. congruence. }
    destruct (λ H1 H2, IH _ _ Hs1 H1 H2 E) as (-> & m' & Hs' & H1 & H2 & H3).
    + by apply insert_subseteq_l.
    + intros w Hw. apply Hrules. by right.
    + split; [done|]. exists m'. assert (Hv' : m' !! ru_id (vr_rule v) = Some v).
      { eapply lookup_weaken; [|exact H1]. apply lookup_insert_eq. }
      split_and!; try done.
      * transitivity (<[ru_id (vr_rule v) := v]> m); [|done]. apply map_subseteq_spec. intros i w Hw.
        destruct (decide (i = ru_id (vr_rule v))) as [->|]; [|by rewrite lookup_insert_ne].
        rewrite lookup_insert_eq. eapply lookup_weaken in HM; [|exact Hw]. congruence.
      * intros w [->|Hw]%elem_of_cons Hl; [done|auto].
Qed.

Lemma live_rules_lookup m id v : live_rules m !! id = Some v ↔ m !! id = Some v ∧ vr_deleted v = false.
Proof. unfold live_rules. by rewrite map_lookup_filter_Some. Qed.

Lemma create_snapshot_spec uuid now s m r s' :
  holds s m → rules_only key_prefix (ao_object_storage s) →
  os_ok_key (S := O) (key_prefix +:+ "snapshots/" +:+ uuid +:+ ".json") = true →
  create_snapshot key_prefix uuid now s = (r, s') →
  ∃ rules, r = Ok (mkAclSnapshot rules (ao_version_counter s) now uuid ∅) ∧ ∀ v, v ∈ rules ↔ ∃ id, m !! id = Some v.
Proof using JsonLaws0 ObjectListingLaws0.
  intros Hs Hown Hkey. unfold create_snapshot. destruct (load_all_rules key_prefix s) as [g s1] eqn:El.
  destruct (load_all_rules_spec key_prefix s m s g s1 Hs Hown eq_refl El) as (rules & o' & -> & -> & Hr & Hv & Hl).
  cbn [sbind]. unfold put_object. destruct (os_put _ _ _) as [rp o2] eqn:Ep. simpl in Ep.
  destruct (os_put_law _ _ _ _ _ Hkey Ep) as (_ & _ & Hp).
  assert (rp = Ok tt) as -> by (destruct rp as [[]|]; [done|by destruct Hp as [_ []]]).
  intros [= <- <-]. by exists rules.
Qed.

Lemma restore_snapshot_spec rules ver now uuid meta s m r s' :
  holds s ∅ → own_ids m → (∀ id v, m !! id = Some v → id_ok id) → (∀ v, v ∈ rules ↔ ∃ id, m !! id = Some v) →
  restore_snapshot key_prefix (mkAclSnapshot rules ver now uuid meta) s = (r, s') →
  r = Ok tt ∧ holds s' (live_rules m) ∧ ao_version_counter s' = ver.
Proof using ObjectStorageLaws0.
  intros Hs Hids Hok Hl. unfold restore_snapshot. set (s0 := with_principal_index _ _). cbn [sn_rules].
  assert (Hs0 : holds s0 ∅).
  { destruct Hs. by split. }
  destruct (restore_rules key_prefix rules s0) as [g s1] eqn:E.
  destruct (restore_rules_spec rules s0 ∅ (live_rules m) g s1 Hs0 (map_empty_subseteq _)) as (-> & m' & Hs1 & _ & Hsub & Hall);
    [|done|].
  { intros v [id Hid]%Hl Hd. rewrite live_rules_lookup, (Hids _ _ Hid). eauto. }
  cbn [sbind]. intros [= <- <-]. split_and!; [done| |done].
  assert (m' = live_rules m) as <-.
  { apply (anti_symm (⊆)); [done|]. apply map_subseteq_spec. intros id v [Hid Hd]%live_rules_lookup.
    rewrite <- (Hids _ _ Hid). apply Hall; [|done]. apply Hl. eauto. }
  by destruct Hs1.
Qed.

(** A snapshot carries the rules to a fresh replica.  The snapshot of a replica
    restored on one without rules leaves there the rules that are not deleted,
    with their versions, the version counter and the last applied index of the
    first; the deleted rules stay behind. *)
Theorem snapshot_transfer uuid now a b m r a' :
  holds (storage_of a) m → own_ids m → rules_only key_prefix (ao_object_storage (storage_of a)) →
  os_ok_key (S := O) (key_prefix +:+ "snapshots/" +:+ uuid +:+ ".json") = true → holds (storage_of b) ∅ →
  raft_create_snapshot key_prefix uuid now a = (r, a') →
  ∃ data b', r = Ok data ∧ raft_restore_snapshot key_prefix data b = (Ok tt, b') ∧ holds (storage_of b') (live_rules m) ∧
    ao_version_counter (storage_of b') = ao_version_counter (storage_of a) ∧
    sm_last_applied_index (ra_state_machine b') = sm_last_applied_index (ra_state_machine a).
Proof using JsonLaws0 JsonLaws1 ObjectListingLaws0.
  intros Ha Hids Hown Hkey Hb. unfold raft_create_snapshot, on_storage.
  destruct (create_snapshot key_prefix uuid now (storage_of a)) as [g s1] eqn:E.
  destruct (create_snapshot_spec _ _ _ _ _ _ Ha Hown Hkey E) as (rules & -> & Hl). cbn [sbind]. intros [= <- <-].
  exists (to_json (mkSnapshotData (mkAclSnapshot rules (ao_version_counter (storage_of a)) now uuid ∅)
    (sm_last_applied_index (ra_state_machine a)))).
  unfold raft_restore_snapshot. rewrite from_to_json. unfold on_storage. cbn [sd_snapshot].
  destruct (restore_snapshot key_prefix _ (storage_of b)) as [g2 s2] eqn:E2.
  destruct (restore_snapshot_spec _ _ _ _ _ _ _ _ _ Hb Hids (ho_id _ _ _ Ha) Hl E2) as (-> & Hs2 & Hv2).
  eexists. split_and!; [done|done|done|done|done].
Qed.
End snapshots.

(** ** Submissions *)

Section submissions.
Context {O C : Type} `{!ObjectStorage O, !ObjectListing O, !Cache C}.
Context `{!Json VersionedAclRule, !Json AclSnapshot, !Json AclRaftOperation, !Json AclSnapshotData}.
Context (key_prefix : string).
Abbreviation Manager := (RaftAclManager O C ControllerService).

Inductive manager_step : Manager → Manager → Prop :=
  | step_submit operation_id op m : manager_step m (submit_operation operation_id op m).2
  | step_apply stamps data m : manager_step m (apply_log_entry key_prefix stamps data m).2
  | step_snapshot uuid now m : manager_step m (raft_create_snapshot key_prefix uuid now m).2
  | step_restore data m : manager_step m (raft_restore_snapshot key_prefix data m).2.

Lemma manager_step_pending m m' :
  manager_step m m' → sm_pending_operations (ra_state_machine m) ⊆ sm_pending_operations (ra_state_machine m').
Proof.
  destruct 1 as [oid op m|stamps data m|uuid now m|data m].
  - unfold submit_operation. destruct (negb _); [done|]. simpl. set_solver.
  - unfold apply_log_entry, apply_operation. by repeat case_match; simplify_eq/=.
  - unfold raft_create_snapshot, on_storage. destruct (create_snapshot _ _ _ _) as [[]]; done.
  - unfold raft_restore_snapshot, on_storage. destruct (from_json data); [|done]. by destruct (restore_snapshot _ _ _) as [[]].
Qed.

(** A submission through the controller is not logged and its caller waits: the
    rules do not change, and whatever the manager does afterwards, the
    operation stays pending. *)
Theorem submission_never_completes operation_id rule created_by description (m m' m'' : Manager) o :
  rs_is_leader (cs_raft_state (ra_raft_ops m)) = true →
  create_acl_rule operation_id rule created_by description m = (o, m') → rtc manager_step m' m'' →
  o = Waiting ∧ sm_storage (ra_state_machine m') = sm_storage (ra_state_machine m) ∧ ra_raft_ops m' = ra_raft_ops m ∧
  operation_id ∈ sm_pending_operations (ra_state_machine m'').
Proof.
  intros Hl E Hsteps. unfold create_acl_rule, submit_operation in E. simpl in E. rewrite Hl in E. simpl in E.
  injection E as <- <-. split_and!; try done.
  assert (Hp : ∀ x y, rtc manager_step x y → sm_pending_operations (ra_state_machine x) ⊆ sm_pending_operations (ra_state_machine y)).
  { induction 1 as [|x y z Hxy _ IH]; [done|]. etrans; [by apply manager_step_pending|done]. }
  apply (Hp _ _ Hsteps). simpl. set_solver.
Qed.
End submissions.

Module AclRaftDemo.
Import Mem AclStorageDemo.
#[local] Existing Instances rule_eq_dec rule_countable versioned_eq_dec versioned_countable.
#[local] Existing Instances rule_json rule_json_laws mem_listing mem_listing_laws lru lru_laws lru_total.

(** A codec for operations through trees of rules and strings *)
Abbreviation tree := (gen_tree (AclRule + string)).
Fixpoint to_tree (op : AclRaftOperation) : tree :=
  let str x := GenLeaf (inr x) in
  match op with
  | CreateRule r b d => GenNode 0 [GenLeaf (inl r); str b; str d]
  | UpdateRule i r b d => GenNode 1 [str i; GenLeaf (inl r); str b; str d]
  | DeleteRule i b d => GenNode 2 [str i; str b; str d]
  | BatchOperation ops b d => GenNode 3 (str b :: str d :: map to_tree ops)
  end.
Fixpoint of_tree (t : tree) : option AclRaftOperation :=
  match t with
  | GenNode 0 [GenLeaf (inl r); GenLeaf (inr b); GenLeaf (inr d)] => Some (CreateRule r b d)
  | GenNode 1 [GenLeaf (inr i); GenLeaf (inl r); GenLeaf (inr b); GenLeaf (inr d)] => Some (UpdateRule i r b d)
  | GenNode 2 [GenLeaf (inr i); GenLeaf (inr b); GenLeaf (inr d)] => Some (DeleteRule i b d)
  | GenNode 3 (GenLeaf (inr b) :: GenLeaf (inr d) :: ts) =>
      Some (BatchOperation (flat_map (λ t, match of_tree t with Some op => [op] | None => [] end) ts) b d)
  | _ => None
  end.
Lemma of_to_tree : ∀ op, of_tree (to_tree op) = Some op.
Proof.
  fix IH 1. intros [r b d|i r b d|i b d|ops b d]; [reflexivity..|]. simpl. do 2 f_equal.
  induction ops as [|op ops IHops]; [reflexivity|]. simpl. rewrite IH, IHops. reflexivity.
Qed.
#[local] Instance op_json : Json AclRaftOperation := {|
  to_json op := DemoCodec.bits (encode (to_tree op));
  from_json d := p ← DemoCodec.unbits d; t ← decode p; of_tree t;
|}.
#[local] Instance op_json_laws : JsonLaws AclRaftOperation.
Proof. split. intros op. simpl. rewrite DemoCodec.unbits_bits. simpl. rewrite decode_encode. simpl. apply of_to_tree. Qed.

#[local] Instance snapshot_eq_dec : EqDecision AclSnapshot.
Proof. solve_decision. Defined.
#[local] Instance snapshot_countable : Countable AclSnapshot.
Proof.
  refine (inj_countable' (λ s, (sn_rules s, sn_version_counter s, sn_timestamp s, sn_snapshot_id s, sn_metadata s))
    (λ '(a, b, c, d, e), mkAclSnapshot a b c d e) _).
  by intros [].
Defined.
#[local] Instance snapshot_json : Json AclSnapshot := {|
  to_json s := DemoCodec.bits (encode s);
  from_json d := DemoCodec.unbits d ≫= decode;
|}.
#[local] Instance data_json : Json AclSnapshotData := {|
  to_json s := DemoCodec.bits (encode (sd_snapshot s, sd_last_applied_index s));
  from_json d := x ← DemoCodec.unbits d ≫= decode; Some (mkSnapshotData x.1 x.2);
|}.
#[local] Instance data_json_laws : JsonLaws AclSnapshotData.
Proof. split. intros [s i]. simpl. rewrite DemoCodec.unbits_bits. simpl. by rewrite decode_encode. Qed.


Abbreviation Manager := (RaftAclManager (gmap string (list Z)) LruCache ControllerService).
Definition replica : Manager := raft_manager_new s0 ControllerDemo.leader "n1".
Definition stamps (clock : Z) (mark : string) (i j : nat) : Stamp := mkStamp mark mark (clock + Z.of_nat i).
Definition log : list AclRaftOperation :=
  [CreateRule (rule "r1" "svc-*" EffAllow) "root" "a";
   BatchOperation [CreateRule (rule "r2" "bob" EffDeny) "root" "b"; DeleteRule "r1" "root" "c"] "b1" "d"].

Lemma replicas_agree_witness :
  let a := (apply_log "acl/" (stamps 5 "x") log replica).2 in
  let b := (apply_log "acl/" (stamps 9 "y") log replica).2 in
  ∃ m1 m2, holds "acl/" (sm_storage (ra_state_machine a)) m1 ∧ holds "acl/" (sm_storage (ra_state_machine b)) m2 ∧
    same_rules m1 m2.
Proof.
  destruct (apply_log "acl/" (stamps 5 "x") log replica) as [rs1 a'] eqn:E1.
  destruct (apply_log "acl/" (stamps 9 "y") log replica) as [rs2 b'] eqn:E2.
  destruct (replicas_agree "acl/" log (stamps 5 "x") (stamps 9 "y") replica replica ∅ ∅ rs1 a' rs2 b')
    as (_ & m1' & m2' & Ha & Hb & Hm & _).
  - exact holds_s0.
  - exact holds_s0.
  - done.
  - done.
  - vm_compute. repeat split; discriminate.
  - exact E1.
  - exact E2.
  - exists m1', m2'. exact (conj Ha (conj Hb Hm)).
Defined.

Lemma snapshot_transfer_witness :
  ∃ data b', (raft_create_snapshot "acl/" "snap" 7 (raft_manager_new s1 ControllerDemo.leader "n1" : Manager)).1 = Ok data ∧
    raft_restore_snapshot "acl/" data replica = (Ok tt, b') ∧
    holds "acl/" (sm_storage (ra_state_machine b')) (live_rules m1).
Proof.
  set (a := raft_manager_new s1 ControllerDemo.leader "n1" : Manager).
  destruct (raft_create_snapshot "acl/" "snap" 7 a) as [r a'] eqn:E.
  destruct (snapshot_transfer "acl/" "snap" 7 a replica m1 r a') as (data & b' & -> & Hr & Hb & _).
  - exact holds_s1.
  - exact own_ids_m1.
  - exact rules_only_s1.
  - done.
  - exact holds_s0.
  - exact E.
  - exists data, b'. exact (conj eq_refl (conj Hr Hb)).
Defined.

Lemma submission_never_completes_witness :
  let '(o, m') := create_acl_rule "op" (rule "r1" "svc-*" EffAllow) "root" "a" replica in
  o = Waiting ∧ "op"%string ∈ sm_pending_operations (ra_state_machine m').
Proof.
  destruct (create_acl_rule "op" (rule "r1" "svc-*" EffAllow) "root" "a" replica) as [o m'] eqn:E.
  destruct (submission_never_completes "acl/" "op" (rule "r1" "svc-*" EffAllow) "root" "a" replica m' m' o)
    as (Ho & _ & _ & Hp).
  - vm_compute. reflexivity.
  - exact E.
  - apply rtc_refl.
  - exact (conj Ho Hp).
Defined.

(** Divergences.  A rule without an identifier gets another one on each
    replica. *)
Lemma generated_ids_diverge :
  let entry := CreateRule (rule EmptyString "svc-*" EffAllow) "root" "a" in
  let keys (m : AclStateMachine (gmap string (list Z)) LruCache) := (map_to_list (ao_rule_index (sm_storage m))).*1 in
  keys (apply_operation "acl/" (λ _, mkStamp "o1" "x" 5) entry (machine_new s0)).2 = ["x"%string] ∧
  keys (apply_operation "acl/" (λ _, mkStamp "o2" "y" 5) entry (machine_new s0)).2 = ["y"%string].
Proof. split; vm_compute; reflexivity. Qed.

(** A replica that was restored from a snapshot accepts the creation of a rule
    that the others refuse because they remember its deletion. *)
Lemma restored_replica_diverges :
  let s := (delete_rule "acl/" 6 "u1" "root" "b" s1).2 in
  let fresh := (restore_snapshot "acl/"
    (mkAclSnapshot [mkVersioned (rule "u1" "svc-*" EffAllow) 2 6 "root" "b" true] 2 7 "snap" ∅) s0).2 in
  let op := CreateRule (rule "u1" "svc-*" EffDeny) "root" "c" in
  (apply_single "acl/" stamp0 op s).1 = Failure EmptyString (Display AclEvaluation) ∧
  (apply_single "acl/" stamp0 op fresh).1 = Success EmptyString (Some "u1"%string) 3.
Proof. split; vm_compute; reflexivity. Qed.
End AclRaftDemo.
