(* ===== verification/Authorization.v ===== *)
(** * Authorization

    Model of [src/src/security/auth/authorization.rs] and of the permission
    types of [src/src/security/auth/mod.rs]: the permission bit set, the
    per-connection cache, the broker-wide sharded cache with its time to live,
    the Bloom filter of denials, and the batched fetcher that asks the ACL
    manager.  The crates [lru] and [bloomfilter] are interfaces with their
    documented laws; the ACL manager is an interface that [AccessControl]
    implements.  Requests run concurrently: a request is a sequence of steps
    between its await points ([auth_step]).  Metrics are left out.  Times are
    in seconds. *)

From S2P Require Import Prelude Types AccessControl.
Local Open Scope Z_scope.

(** ** Permissions *)

Inductive Permission := Read | Write | Admin.
#[global] Instance Permission_eq_dec : EqDecision Permission.
Proof. solve_decision. Defined.
#[global] Instance Permission_countable : Countable Permission.
Proof.
  refine (inj_countable' (λ p, match p with Read => 0%nat | Write => 1%nat | Admin => 2%nat end)
    (λ n, match n with O => Read | S O => Write | _ => Admin end) _). by intros [].
Defined.

Definition permission_bit (p : Permission) : Z := match p with Read => 1 | Write => 2 | Admin => 4 end.
Definition from_bits (bits : Z) : list Permission :=
  (if negb (Z.land bits (permission_bit Read) =? 0) then [Read] else [])
  ++ (if negb (Z.land bits (permission_bit Write) =? 0) then [Write] else [])
  ++ (if negb (Z.land bits (permission_bit Admin) =? 0) then [Admin] else []).
Definition to_bits (permissions : list Permission) : Z :=
  foldl (λ acc p, Z.lor acc (permission_bit p)) 0 permissions.

Record PermissionSet := mkPermissions { ps_bits : Z }.
Definition permissions_new : PermissionSet := mkPermissions 0.
Definition with_permission (p : Permission) (s : PermissionSet) : PermissionSet :=
  mkPermissions (Z.lor (ps_bits s) (permission_bit p)).
Definition add_permission (p : Permission) (s : PermissionSet) : PermissionSet :=
  mkPermissions (Z.lor (ps_bits s) (permission_bit p)).
(** [!x] on [u8] *)
Definition remove_permission (p : Permission) (s : PermissionSet) : PermissionSet :=
  mkPermissions (Z.land (ps_bits s) (255 - permission_bit p)).
Definition contains (p : Permission) (s : PermissionSet) : bool :=
  negb (Z.land (ps_bits s) (permission_bit p) =? 0).
Definition permissions_is_empty (s : PermissionSet) : bool := ps_bits s =? 0.
Definition has_all (permissions : list Permission) (s : PermissionSet) : bool :=
  Z.land (ps_bits s) (to_bits permissions) =? to_bits permissions.
Definition has_any (permissions : list Permission) (s : PermissionSet) : bool :=
  negb (Z.land (ps_bits s) (to_bits permissions) =? 0).
Definition permissions_from (permissions : list Permission) : PermissionSet := mkPermissions (to_bits permissions).

Record AclKey := mkKey { k_principal : string; k_topic : string; k_permission : Permission }.
#[global] Instance AclKey_eq_dec : EqDecision AclKey.
Proof. solve_decision. Defined.
#[global] Program Instance AclKey_countable : Countable AclKey :=
  inj_countable' (λ k, (k_principal k, k_topic k, k_permission k)) (λ '(a, b, c), mkKey a b c) _.
Next Obligation. by intros []. Qed.

(** ** What the manager uses *)

(** [lru::LruCache] of a positive capacity *)
Class LruMap (L : Type) := {
  lm_new : Z → L;
  lm_peek : AclKey → L → option bool;
  lm_put : AclKey → bool → L → L;
  lm_clear : L → L;
}.
Class LruMapLaws (L : Type) `{!LruMap L} := {
  lm_peek_new n k : lm_peek k (lm_new n) = None;
  lm_peek_clear k l : lm_peek k (lm_clear l) = None;
  lm_peek_put k v k' v' l : lm_peek k (lm_put k' v' l) = Some v →
    (k = k' ∧ v = v') ∨ lm_peek k l = Some v;
}.
(** [bloomfilter::Bloom]: no false negatives *)
Class Bloom (B : Type) := {
  bl_new : Z → B;
  bl_check : AclKey → B → bool;
  bl_set : AclKey → B → B;
}.
Class BloomLaws (B : Type) `{!Bloom B} := {
  bl_check_set k b : bl_check k (bl_set k b) = true;
  bl_check_mono k k' b : bl_check k b = true → bl_check k (bl_set k' b) = true;
}.
(** The ACL manager, from the point of view of the fetcher *)
Class PermissionSource (M : Type) := {
  source_check : Z → string → string → AclOperation → M → Result bool * M;
}.
#[global] Hint Mode LruMap ! : typeclass_instances.
#[global] Hint Mode Bloom ! : typeclass_instances.
#[global] Hint Mode PermissionSource ! : typeclass_instances.

#[export] Instance acl_manager_source {Regex S} `{!RuleStorage S} (regex_new : string → option Regex)
    (is_match : Regex → string → bool) (bloom_hash : string → nat → Z) (hash : string → Z)
    (order : list (string * CachedAclEntry Regex) → list (string * CachedAclEntry Regex))
  : PermissionSource (AclManager Regex S) :=
  {| source_check := manager_check_permission regex_new is_match bloom_hash hash order |}.

Definition to_operation (p : Permission) : AclOperation :=
  match p with Read => OpRead | Write => OpWrite | Admin => OpAdmin end.

(** ** The manager *)

Section authorization.
Context (hash : AclKey → Z).
Context {L : Type} `{!LruMap L} {B : Type} `{!Bloom B} {M : Type} `{!PermissionSource M}.

Record AclCacheEntry := mkCacheEntry {
  ce_allowed : bool;
  ce_expires_at : Z;
  ce_hit_count : Z;
  ce_created_at : Z;
}.
Definition cache_entry_new (now : Z) (allowed : bool) (ttl : Z) : AclCacheEntry :=
  mkCacheEntry allowed (now + ttl) 0 now.
Definition is_expired (now : Z) (e : AclCacheEntry) : bool := ce_expires_at e <? now.
Definition record_hit (e : AclCacheEntry) : AclCacheEntry :=
  mkCacheEntry (ce_allowed e) (ce_expires_at e) (ce_hit_count e + 1) (ce_created_at e).

Record ConnectionAclCache := mkConnection { cc_cache : L; cc_hit_count : Z; cc_miss_count : Z }.
Definition connection_new (capacity : Z) : ConnectionAclCache := mkConnection (lm_new capacity) 0 0.
Definition connection_get (key : AclKey) (c : ConnectionAclCache) : option bool * ConnectionAclCache :=
  let result := lm_peek key (cc_cache c) in
  (result,
   match result with
   | Some _ => mkConnection (cc_cache c) (cc_hit_count c + 1) (cc_miss_count c)
   | None => mkConnection (cc_cache c) (cc_hit_count c) (cc_miss_count c + 1)
   end).
Definition connection_put (key : AclKey) (value : bool) (c : ConnectionAclCache) : ConnectionAclCache :=
  mkConnection (lm_put key value (cc_cache c)) (cc_hit_count c) (cc_miss_count c).
Definition connection_clear (c : ConnectionAclCache) : ConnectionAclCache :=
  mkConnection (lm_clear (cc_cache c)) (cc_hit_count c) (cc_miss_count c).

(** A sender of a one-shot channel is the number of the request that waits
    for it. *)
Record BatchedAclFetcher := mkFetcher {
  bf_pending_requests : gmap AclKey (list nat);
  bf_batch_size : Z;
  bf_fetch_semaphore : Z;
  bf_acl_manager : option M;
}.
Record AuthConfig := mkAuthConfig {
  az_cache_ttl_seconds : Z;
  az_bloom_size : Z;
  az_batch_fetch_size : Z;
  az_negative_cache_enabled : bool;
}.
Record AuthorizationManager := mkAuthorization {
  az_l2_cache : list (gmap AclKey AclCacheEntry);
  az_negative_cache : B;
  az_string_pool : gset string;
  az_batch_fetcher : BatchedAclFetcher;
  az_config : AuthConfig;
}.

Definition fetcher_new (batch_size : Z) (acl_manager : option M) : BatchedAclFetcher :=
  mkFetcher ∅ batch_size 10 acl_manager.
Definition authorization_new (config : AuthConfig) (acl_manager : option M) : AuthorizationManager :=
  mkAuthorization (replicate 32 ∅) (bl_new (az_bloom_size config)) ∅
    (fetcher_new (az_batch_fetch_size config) acl_manager) config.
Definition create_connection_cache : ConnectionAclCache := connection_new 1000.

Definition with_l2_cache l2 (a : AuthorizationManager) : AuthorizationManager :=
  mkAuthorization l2 (az_negative_cache a) (az_string_pool a) (az_batch_fetcher a) (az_config a).
Definition with_negative b (a : AuthorizationManager) : AuthorizationManager :=
  mkAuthorization (az_l2_cache a) b (az_string_pool a) (az_batch_fetcher a) (az_config a).
Definition with_fetcher f (a : AuthorizationManager) : AuthorizationManager :=
  mkAuthorization (az_l2_cache a) (az_negative_cache a) (az_string_pool a) f (az_config a).
Definition with_pending p (f : BatchedAclFetcher) : BatchedAclFetcher :=
  mkFetcher p (bf_batch_size f) (bf_fetch_semaphore f) (bf_acl_manager f).
Definition with_permits n (f : BatchedAclFetcher) : BatchedAclFetcher :=
  mkFetcher (bf_pending_requests f) (bf_batch_size f) n (bf_acl_manager f).
Definition with_source m (f : BatchedAclFetcher) : BatchedAclFetcher :=
  mkFetcher (bf_pending_requests f) (bf_batch_size f) (bf_fetch_semaphore f) m.

(** An interned string is equal to the string. *)
Definition intern_string (s : string) (a : AuthorizationManager) : AuthorizationManager :=
  mkAuthorization (az_l2_cache a) (az_negative_cache a) ({[ s ]} ∪ az_string_pool a) (az_batch_fetcher a)
    (az_config a).
Definition calculate_shard_index (key : AclKey) : nat := Z.to_nat (hash key mod 32).

(** [self.l2_cache[shard_idx].get], [.insert] and [.remove] *)
Definition l2_get (key : AclKey) (a : AuthorizationManager) : option AclCacheEntry :=
  az_l2_cache a !! calculate_shard_index key ≫= (.!! key).
Definition l2_insert (key : AclKey) (e : AclCacheEntry) (a : AuthorizationManager) : AuthorizationManager :=
  with_l2_cache (alter (insert key e) (calculate_shard_index key) (az_l2_cache a)) a.
Definition l2_remove (key : AclKey) (a : AuthorizationManager) : AuthorizationManager :=
  with_l2_cache (alter (delete key) (calculate_shard_index key) (az_l2_cache a)) a.

Definition update_caches (now : Z) (key : AclKey) (allowed : bool) (c : ConnectionAclCache)
    (a : AuthorizationManager) : ConnectionAclCache * AuthorizationManager :=
  let c := connection_put key allowed c in
  let a := l2_insert key (cache_entry_new now allowed (az_cache_ttl_seconds (az_config a))) a in
  (c, if negb allowed && az_negative_cache_enabled (az_config a)
      then with_negative (bl_set key (az_negative_cache a)) a else a).

(** [check_permission] up to the call of [fetch_acl]; [None] is a cache miss. *)
Definition check_caches (now : Z) (key : AclKey) (c : ConnectionAclCache) (a : AuthorizationManager)
  : option bool * ConnectionAclCache * AuthorizationManager :=
  let a := intern_string (k_topic key) (intern_string (k_principal key) a) in
  let '(found, c) := connection_get key c in
  match found with
  | Some allowed => (Some allowed, c, a)
  | None =>
      if az_negative_cache_enabled (az_config a) && bl_check key (az_negative_cache a)
      then (Some false, c, a)
      else match l2_get key a with
           | Some e =>
               if negb (is_expired now e)
               then (Some (ce_allowed e), connection_put key (ce_allowed e) c, l2_insert key (record_hit e) a)
               else (None, c, l2_remove key a)
           | None => (None, c, a)
           end
  end.

(** [fetch_acl] up to its trigger: the request is queued, and the batch is
    fetched when it has enough keys. *)
Definition fetch_acl_enqueue (key : AclKey) (tx : nat) (f : BatchedAclFetcher) : bool * BatchedAclFetcher :=
  let pending := <[key := default [] (bf_pending_requests f !! key) ++ [tx]]> (bf_pending_requests f) in
  (bf_batch_size f <=? Z.of_nat (size pending), with_pending pending f).

(** A batch that a request fetches *)
Record Batch := mkBatch {
  bt_batch : gmap AclKey (list nat);
  bt_keys : list AclKey;
  bt_results : gmap AclKey bool;
}.
(** [keys] is the order in which the batch is iterated; [None]: no permit or
    nothing to do, with the permit given back. *)
Definition trigger_batch_fetch (keys : list AclKey) (f : BatchedAclFetcher) : option Batch * BatchedAclFetcher :=
  if bf_fetch_semaphore f <=? 0 then (None, f)
  else let batch := bf_pending_requests f in
       if decide (batch = ∅) then (None, f)
       else (Some (mkBatch batch keys ∅), with_permits (bf_fetch_semaphore f - 1) (with_pending ∅ f)).
(** One iteration of [fetch_from_acl_manager], with the manager's answer. *)
Definition fetch_key (now : Z) (key : AclKey) (f : BatchedAclFetcher) : option (Result bool) * bool * BatchedAclFetcher :=
  match bf_acl_manager f with
  | None => (None, false, f)
  | Some m =>
      let '(r, m) := source_check now (k_principal key) (k_topic key) (to_operation (k_permission key)) m in
      (Some r, match r with Ok allowed => allowed | Err _ => false end, with_source (Some m) f)
  end.
Definition send_all (value : bool) (senders : list nat) (answers : gmap nat bool) : gmap nat bool :=
  foldl (λ ans tx, <[tx := value]> ans) answers senders.
(** The answers of a batch: [results.get(&key).copied().unwrap_or(false)]. *)
Definition notify (b : Batch) (answers : gmap nat bool) : gmap nat bool :=
  map_fold (λ key senders ans, send_all (default false (bt_results b !! key)) senders ans) answers (bt_batch b).

(** One tick of [start_batch_processor] *)
Definition batch_processor_tick (answers : gmap nat bool) (f : BatchedAclFetcher) : gmap nat bool * BatchedAclFetcher :=
  if decide (bf_pending_requests f = ∅) then (answers, f)
  else if bf_fetch_semaphore f <=? 0 then (answers, f)
  else (map_fold (λ _ senders ans, send_all false senders ans) answers (bf_pending_requests f), with_pending ∅ f).

Definition retain (P : AclKey * AclCacheEntry → Prop) `{∀ x, Decision (P x)} (a : AuthorizationManager)
  : AuthorizationManager := with_l2_cache (filter P <$> az_l2_cache a) a.
Definition invalidate_principal (principal : string) (a : AuthorizationManager) : AuthorizationManager :=
  retain (λ kv, k_principal kv.1 ≠ principal) (intern_string principal a).
Definition invalidate_resource_cache (resource : string) (a : AuthorizationManager) : AuthorizationManager :=
  retain (λ kv, k_topic kv.1 ≠ resource) (intern_string resource a).
Definition invalidate_all_caches (a : AuthorizationManager) : AuthorizationManager :=
  let a := with_l2_cache ((λ _, ∅) <$> az_l2_cache a) a in
  if az_negative_cache_enabled (az_config a) then with_negative (bl_new (az_bloom_size (az_config a))) a else a.
Definition cleanup_tick (now : Z) (a : AuthorizationManager) : AuthorizationManager :=
  retain (λ kv, is_expired now kv.2 = false) a.

(** One iteration of [warm_cache], with the manager's answer. *)
Definition warm_key (now : Z) (key : AclKey) (a : AuthorizationManager)
  : option (Result bool) * AuthorizationManager :=
  match bf_acl_manager (az_batch_fetcher a) with
  | None => (None, a)
  | Some m =>
      let a := intern_string (k_topic key) (intern_string (k_principal key) a) in
      let '(r, m) := source_check now (k_principal key) (k_topic key) (to_operation (k_permission key)) m in
      let a := with_fetcher (with_source (Some m) (az_batch_fetcher a)) a in
      (Some r, match r with
               | Ok allowed => l2_insert key (cache_entry_new now allowed (az_cache_ttl_seconds (az_config a))) a
               | Err _ => a
               end)
  end.
Definition warm_keys (principals resources : list string) : list AclKey :=
  p ← principals; r ← resources; q ← [Read; Write; Admin]; [mkKey p r q].
End authorization.
Arguments ConnectionAclCache : clear implicits.
Arguments BatchedAclFetcher : clear implicits.
Arguments AuthorizationManager : clear implicits.

(** ** Concurrent requests *)

Section system.
Context (hash : AclKey → Z).
Context {L : Type} `{!LruMap L} {B : Type} `{!Bloom B} {M : Type} `{!PermissionSource M}.

(** Where a request is in [fetch_acl]: about to trigger, fetching a batch, or
    waiting for its channel. *)
Inductive Pc := PcTrigger | PcFetch (b : Batch) | PcAwait.
Record Waiter := mkWaiter { wt_conn : nat; wt_key : AclKey; wt_pc : Pc }.
Record AuthState := mkAuthState {
  s_mgr : AuthorizationManager B M;
  s_conns : gmap nat (ConnectionAclCache L);
  s_waiters : gmap nat Waiter;
  s_answers : gmap nat bool;
  s_next : nat;
  s_now : Z;
  s_log : list (AclKey * Result bool);
  s_results : list (AclKey * Result bool);
}.
(** [s_log] are the manager's answers, as the fetcher logs them; [s_results]
    are the results of [check_permission]. *)

Definition initial_state (config : AuthConfig) (acl_manager : option M) : AuthState :=
  mkAuthState (authorization_new config acl_manager) ∅ ∅ ∅ 0 0 [] [].

Definition set_mgr a (s : AuthState) : AuthState :=
  mkAuthState a (s_conns s) (s_waiters s) (s_answers s) (s_next s) (s_now s) (s_log s) (s_results s).
Definition set_conn i c (s : AuthState) : AuthState :=
  mkAuthState (s_mgr s) (<[i := c]> (s_conns s)) (s_waiters s) (s_answers s) (s_next s) (s_now s) (s_log s) (s_results s).
Definition set_waiters w (s : AuthState) : AuthState :=
  mkAuthState (s_mgr s) (s_conns s) w (s_answers s) (s_next s) (s_now s) (s_log s) (s_results s).
Definition set_answers ans (s : AuthState) : AuthState :=
  mkAuthState (s_mgr s) (s_conns s) (s_waiters s) ans (s_next s) (s_now s) (s_log s) (s_results s).
Definition set_next n (s : AuthState) : AuthState :=
  mkAuthState (s_mgr s) (s_conns s) (s_waiters s) (s_answers s) n (s_now s) (s_log s) (s_results s).
Definition set_now n (s : AuthState) : AuthState :=
  mkAuthState (s_mgr s) (s_conns s) (s_waiters s) (s_answers s) (s_next s) n (s_log s) (s_results s).
Definition logged key (r : option (Result bool)) (s : AuthState) : AuthState :=
  mkAuthState (s_mgr s) (s_conns s) (s_waiters s) (s_answers s) (s_next s) (s_now s)
    (match r with Some r => s_log s ++ [(key, r)] | None => s_log s end) (s_results s).
Definition returned key (r : Result bool) (s : AuthState) : AuthState :=
  mkAuthState (s_mgr s) (s_conns s) (s_waiters s) (s_answers s) (s_next s) (s_now s) (s_log s)
    (s_results s ++ [(key, r)]).

Inductive AuthStep :=
  | AConnect (conn : nat)
  | ACheck (conn : nat) (key : AclKey)
  | ATrigger (id : nat) (keys : list AclKey)
  | AFetch (id : nat)
  | ANotify (id : nat)
  | AReceive (id : nat)
  | ATimeout (id : nat)
  | ATick
  | AInvalidatePrincipal (principal : string)
  | AInvalidateResource (resource : string)
  | AInvalidateAll
  | ACleanup
  | AWarm (key : AclKey)
  | AClear (conn : nat)
  | AClock (d : Z)
  | AChange (f : M → M).

(** [check_permission] to its first await point *)
Definition step_check (conn : nat) (key : AclKey) (s : AuthState) : AuthState :=
  match s_conns s !! conn with
  | None => s
  | Some c =>
      let '(found, c, a) := check_caches hash (s_now s) key c (s_mgr s) in
      let s := set_conn conn c (set_mgr a s) in
      match found with
      | Some allowed => returned key (Ok allowed) s
      | None =>
          let id := s_next s in
          let '(trigger, f) := fetch_acl_enqueue key id (az_batch_fetcher a) in
          set_next (S id) (set_waiters (<[id := mkWaiter conn key (if trigger : bool then PcTrigger else PcAwait)]> (s_waiters s))
            (set_mgr (with_fetcher f a) s))
      end
  end.
(** [trigger_batch_fetch] to its first await point *)
Definition step_trigger (id : nat) (keys : list AclKey) (s : AuthState) : AuthState :=
  match s_waiters s !! id with
  | Some (mkWaiter conn key PcTrigger) =>
      let f := az_batch_fetcher (s_mgr s) in
      if decide (NoDup keys ∧ list_to_set keys =@{gset AclKey} dom (bf_pending_requests f)) then
        let '(batch, f) := trigger_batch_fetch keys f in
        set_waiters (<[id := mkWaiter conn key (match batch with Some b => PcFetch b | None => PcAwait end)]> (s_waiters s))
          (set_mgr (with_fetcher f (s_mgr s)) s)
      else s
  | _ => s
  end.
Definition step_fetch (id : nat) (s : AuthState) : AuthState :=
  match s_waiters s !! id with
  | Some (mkWaiter conn key (PcFetch (mkBatch batch (k :: keys) results))) =>
      let '(answer, allowed, f) := fetch_key (s_now s) k (az_batch_fetcher (s_mgr s)) in
      logged k answer
        (set_waiters (<[id := mkWaiter conn key (PcFetch (mkBatch batch keys (<[k := allowed]> results)))]> (s_waiters s))
          (set_mgr (with_fetcher f (s_mgr s)) s))
  | _ => s
  end.
Definition step_notify (id : nat) (s : AuthState) : AuthState :=
  match s_waiters s !! id with
  | Some (mkWaiter conn key (PcFetch (mkBatch batch [] results))) =>
      let f := az_batch_fetcher (s_mgr s) in
      set_answers (notify (mkBatch batch [] results) (s_answers s))
        (set_waiters (<[id := mkWaiter conn key PcAwait]> (s_waiters s))
          (set_mgr (with_fetcher (with_permits (bf_fetch_semaphore f + 1) f) (s_mgr s)) s))
  | _ => s
  end.
Definition step_receive (id : nat) (s : AuthState) : AuthState :=
  match s_waiters s !! id, s_answers s !! id with
  | Some (mkWaiter conn key PcAwait), Some allowed =>
      match s_conns s !! conn with
      | None => s
      | Some c =>
          let '(c, a) := update_caches hash (s_now s) key allowed c (s_mgr s) in
          returned key (Ok allowed) (set_conn conn c (set_mgr a (set_waiters (delete id (s_waiters s)) s)))
      end
  | _, _ => s
  end.
Definition step_timeout (id : nat) (s : AuthState) : AuthState :=
  match s_waiters s !! id with
  | Some (mkWaiter conn key PcAwait) => returned key (Err Timeout) (set_waiters (delete id (s_waiters s)) s)
  | _ => s
  end.

Definition auth_step (st : AuthStep) (s : AuthState) : AuthState :=
  match st with
  | AConnect conn => set_conn conn create_connection_cache s
  | ACheck conn key => step_check conn key s
  | ATrigger id keys => step_trigger id keys s
  | AFetch id => step_fetch id s
  | ANotify id => step_notify id s
  | AReceive id => step_receive id s
  | ATimeout id => step_timeout id s
  | ATick =>
      let '(ans, f) := batch_processor_tick (s_answers s) (az_batch_fetcher (s_mgr s)) in
      set_answers ans (set_mgr (with_fetcher f (s_mgr s)) s)
  | AInvalidatePrincipal p => set_mgr (invalidate_principal p (s_mgr s)) s
  | AInvalidateResource r => set_mgr (invalidate_resource_cache r (s_mgr s)) s
  | AInvalidateAll => set_mgr (invalidate_all_caches (s_mgr s)) s
  | ACleanup => set_mgr (cleanup_tick (s_now s) (s_mgr s)) s
  | AWarm key =>
      let '(r, a) := warm_key hash (s_now s) key (s_mgr s) in logged key r (set_mgr a s)
  | AClear conn =>
      match s_conns s !! conn with Some c => set_conn conn (connection_clear c) s | None => s end
  | AClock d => set_now (s_now s + d) s
  | AChange f =>
      let bf := az_batch_fetcher (s_mgr s) in
      set_mgr (with_fetcher (with_source (f <$> bf_acl_manager bf) bf) (s_mgr s)) s
  end.
Definition auth_run (steps : list AuthStep) (s : AuthState) : AuthState := foldl (λ s st, auth_step st s) s steps.
End system.
Arguments AuthState : clear implicits.
Arguments AuthStep : clear implicits.

(** ** A permission set is a set of permissions *)

Section permissions.
Implicit Types (s : PermissionSet) (p : Permission).

(** The abstract set, and the bytes that denote one. *)
Definition denote s : gset Permission := list_to_set (from_bits (ps_bits s)).
Definition permissions_wf s : Prop := 0 ≤ ps_bits s < 8.

Lemma permission_bits_cases b (P : Z → Prop) : 0 ≤ b < 8 → P 0 → P 1 → P 2 → P 3 → P 4 → P 5 → P 6 → P 7 → P b.
Proof.
  intros Hb. assert (b = 0 ∨ b = 1 ∨ b = 2 ∨ b = 3 ∨ b = 4 ∨ b = 5 ∨ b = 6 ∨ b = 7) as Hc by lia.
  by destruct Hc as [->|[->|[->|[->|[->|[->|[->| ->]]]]]]].
Qed.
Lemma to_bits_acc ps acc :
  0 ≤ acc < 8 → let b := foldl (λ acc p, Z.lor acc (permission_bit p)) acc ps in
  0 ≤ b < 8 ∧ list_to_set (from_bits b) =@{gset Permission} list_to_set (from_bits acc) ∪ list_to_set ps.
Proof.
  revert acc. induction ps as [|p ps IH]; intros acc Hacc; cbn [foldl].
  - split; [done|]. set_solver.
  - assert (Hb : 0 ≤ Z.lor acc (permission_bit p) < 8 ∧
      list_to_set (from_bits (Z.lor acc (permission_bit p))) =@{gset Permission} list_to_set (from_bits acc) ∪ {[p]}).
    { pattern acc. apply permission_bits_cases; [done|destruct p; (split; [vm_compute; split; congruence|])..];
        vm_compute; reflexivity. }
    destruct Hb as [Hb E]. destruct (IH _ Hb) as [H1 H2]. split; [done|]. rewrite H2, E. set_solver.
Qed.

(** The byte of a [PermissionSet] refines a set of permissions.  Every
    operation on the byte is the operation on the set it denotes, the byte
    stays in range, and the conversions between bytes and lists of
    permissions are inverse up to order and repetition. *)
Theorem permission_set_refines s p ps :
  permissions_wf s →
  (permissions_wf permissions_new ∧ denote permissions_new = ∅) ∧
  (permissions_wf (add_permission p s) ∧ denote (add_permission p s) = {[p]} ∪ denote s) ∧
  (permissions_wf (remove_permission p s) ∧ denote (remove_permission p s) = denote s ∖ {[p]}) ∧
  (permissions_wf (permissions_from ps) ∧ denote (permissions_from ps) = list_to_set ps) ∧
  contains p s = bool_decide (p ∈ denote s) ∧
  permissions_is_empty s = bool_decide (denote s = ∅) ∧
  has_all ps s = bool_decide (list_to_set ps ⊆ denote s) ∧
  has_any ps s = bool_decide (list_to_set ps ∩ denote s ≠ ∅) ∧
  to_bits (from_bits (ps_bits s)) = ps_bits s.
Proof.
  destruct s as [b]. unfold permissions_wf. cbn [ps_bits]. intros Hb.
  destruct (to_bits_acc ps 0) as [Hq Eq]; [lia|]. fold (to_bits ps) in Hq, Eq.
  assert (Eps : list_to_set ps = denote (mkPermissions (to_bits ps))) by (unfold denote; set_solver).
  unfold has_all, has_any. rewrite Eps. unfold permissions_from. generalize dependent (to_bits ps). intros q Hq _ _.
  cbn [ps_bits].
  assert (H1 : ∀ P : Z → Prop, P 0 → P 1 → P 2 → P 3 → P 4 → P 5 → P 6 → P 7 → P b)
    by (intros P ????????; by apply (permission_bits_cases b P)).
  split; [vm_compute; by split|]. split; [pattern b; apply H1; destruct p; vm_compute; by split|].
  split; [pattern b; apply H1; destruct p; vm_compute; by split|]. split; [by split|].
  split; [pattern b; apply H1; destruct p; vm_compute; reflexivity|].
  split; [pattern b; apply H1; vm_compute; reflexivity|]. clear p.
  split_and!; [..|pattern b; apply H1; vm_compute; reflexivity];
    pattern q; apply permission_bits_cases; try exact Hq; pattern b; apply H1; vm_compute; reflexivity.
Qed.
End permissions.

(** ** Every grant comes from the ACL manager *)

Section grants.
Context (hash : AclKey → Z).
Context {L : Type} `{!LruMap L, !LruMapLaws L} {B : Type} `{!Bloom B} {M : Type} `{!PermissionSource M}.
Implicit Types (s : AuthState L B M) (a : AuthorizationManager B M) (c : ConnectionAclCache L) (key : AclKey)
  (G : AclKey → Prop).

Definition conn_ok G c : Prop := ∀ key, lm_peek key (cc_cache c) = Some true → G key.
Definition l2_ok G a : Prop :=
  ∀ i shard key e, az_l2_cache a !! i = Some shard → shard !! key = Some e → ce_allowed e = true → G key.
(** The senders queued under a key belong to requests for that key. *)
Definition senders_ok (waiters : gmap nat Waiter) (next : nat) (p : gmap AclKey (list nat)) : Prop :=
  ∀ key txs tx, p !! key = Some txs → tx ∈ txs →
    (tx < next)%nat ∧ ∀ w, waiters !! tx = Some w → wt_key w = key.
Definition batch_ok G waiters next (b : Batch) : Prop :=
  senders_ok waiters next (bt_batch b) ∧ ∀ key, bt_results b !! key = Some true → G key.
Definition answers_ok G (waiters : gmap nat Waiter) (next : nat) (ans : gmap nat bool) : Prop :=
  ∀ tx, ans !! tx = Some true → (tx < next)%nat ∧ ∀ w, waiters !! tx = Some w → G (wt_key w).

Record grants_inv G s : Prop := {
  gi_conns : ∀ i c, s_conns s !! i = Some c → conn_ok G c;
  gi_l2 : l2_ok G (s_mgr s);
  gi_waiters : ∀ id w, s_waiters s !! id = Some w → (id < s_next s)%nat;
  gi_pending : senders_ok (s_waiters s) (s_next s) (bf_pending_requests (az_batch_fetcher (s_mgr s)));
  gi_batches : ∀ id conn key b, s_waiters s !! id = Some (mkWaiter conn key (PcFetch b)) →
    batch_ok G (s_waiters s) (s_next s) b;
  gi_answers : answers_ok G (s_waiters s) (s_next s) (s_answers s);
  gi_results : ∀ key, (key, Ok true) ∈ s_results s → G key;
}.

Definition granted s : AclKey → Prop := λ key, (key, Ok true) ∈ s_log s.

Lemma grants_inv_mono G G' s : (∀ key, G key → G' key) → grants_inv G s → grants_inv G' s.
Proof.
  intros HG [H1 H2 H3 H4 H5 H6 H7]. split; try done.
  - intros i c Hc key Hk. by eapply HG, H1.
  - intros i sh key e Hi Hk He. by eapply HG, H2.
  - intros id conn key b Hb. destruct (H5 _ _ _ _ Hb) as [? Hr]. split; [done|]. auto.
  - intros tx Htx. destruct (H6 _ Htx). split; [done|]. auto.
  - auto.
Qed.

(** Waiters that keep their keys, or that are new or gone *)
Definition waiters_evolve (w w' : gmap nat Waiter) (next next' : nat) : Prop :=
  (next ≤ next')%nat ∧ ∀ tx x', w' !! tx = Some x' → (tx < next)%nat → ∃ x, w !! tx = Some x ∧ wt_key x = wt_key x'.

Lemma senders_evolve w w' n n' p : waiters_evolve w w' n n' → senders_ok w n p → senders_ok w' n' p.
Proof.
  intros [Hn Hw] Hp key txs tx Hk Htx. destruct (Hp key txs tx Hk Htx) as [Hlt Hkey]. split; [lia|].
  intros x' Hx'. destruct (Hw tx x' Hx' Hlt) as (x & Hx & <-). by apply Hkey.
Qed.
Lemma answers_evolve G w w' n n' ans : waiters_evolve w w' n n' → answers_ok G w n ans → answers_ok G w' n' ans.
Proof.
  intros [Hn Hw] Ha tx Htx. destruct (Ha tx Htx) as [Hlt Hkey]. split; [lia|].
  intros x' Hx'. destruct (Hw tx x' Hx' Hlt) as (x & Hx & <-). by apply Hkey.
Qed.
Lemma evolve_refl w n : waiters_evolve w w n n.
Proof. split; [done|]. eauto. Qed.
Lemma evolve_update w n id conn key pc pc' :
  w !! id = Some (mkWaiter conn key pc) → waiters_evolve w (<[id := mkWaiter conn key pc']> w) n n.
Proof. intros Hw. split; [done|]. intros tx x' [[<- <-]|[_ ?]]%lookup_insert_Some _; [eauto|eauto]. Qed.
Lemma evolve_delete w n id : waiters_evolve w (delete id w) n n.
Proof. split; [done|]. intros tx x' [_ ?]%lookup_delete_Some _. eauto. Qed.
Lemma evolve_new w n x : waiters_evolve w (<[n := x]> w) n (S n).
Proof. split; [lia|]. intros tx x' [[<- <-]|[_ ?]]%lookup_insert_Some Hlt; [lia|eauto]. Qed.

(** Sending *)
Lemma send_all_lookup v txs ans tx x :
  send_all v txs ans !! tx = Some x → (tx ∈ txs ∧ x = v) ∨ ans !! tx = Some x.
Proof.
  revert ans. induction txs as [|t txs IH]; intros ans H; [by right|].
  destruct (IH _ H) as [[? ?]|[[<- <-]|[_ ?]]%lookup_insert_Some]; [left; split; [by right|done]|left; split; [left|done]|by right].
Qed.
Lemma send_map_lookup (val : AclKey → bool) (p : gmap AclKey (list nat)) ans tx x :
  map_fold (λ key txs ans, send_all (val key) txs ans) ans p !! tx = Some x →
  (∃ key txs, p !! key = Some txs ∧ tx ∈ txs ∧ x = val key) ∨ ans !! tx = Some x.
Proof.
  revert tx x. apply (map_fold_weak_ind (λ res p, ∀ tx x, res !! tx = Some x →
    (∃ key txs, p !! key = Some txs ∧ tx ∈ txs ∧ x = val key) ∨ ans !! tx = Some x)); [by right|].
  intros k txs p' res Hk IH tx x [[Hin ->]|H]%send_all_lookup.
  - left. exists k, txs. by rewrite lookup_insert_eq.
  - destruct (IH _ _ H) as [(k' & txs' & ? & ? & ?)|?]; [left|by right]. exists k', txs'.
    rewrite lookup_insert_ne by congruence. done.
Qed.
Lemma send_map_answers G w n (val : AclKey → bool) p ans :
  senders_ok w n p → (∀ key, val key = true → G key) → answers_ok G w n ans →
  answers_ok G w n (map_fold (λ key txs ans, send_all (val key) txs ans) ans p).
Proof.
  intros Hp Hv Ha tx [(key & txs & Hk & Htx & E)|H]%send_map_lookup; [|by apply Ha].
  destruct (Hp key txs tx Hk Htx) as [Hlt Hkey]. split; [done|]. intros x Hx. rewrite (Hkey x Hx). by apply Hv.
Qed.

(** The caches *)
Lemma conn_ok_put G c key v : (v = true → G key) → conn_ok G c → conn_ok G (connection_put key v c).
Proof using LruMapLaws0. intros Hv Hc k [[-> <-]|H]%lm_peek_put; [by apply Hv|by apply Hc]. Qed.
Lemma conn_get_cache c key : cc_cache (connection_get key c).2 = cc_cache c.
Proof. unfold connection_get. simpl. by destruct (lm_peek _ _). Qed.

Lemma l2_ok_insert G a key e : (ce_allowed e = true → G key) → l2_ok G a → l2_ok G (l2_insert hash key e a).
Proof.
  intros He Ha i shard k e' Hi Hk Hal. unfold l2_insert in Hi. simpl in Hi. rewrite list_lookup_alter in Hi.
  case_decide as Hd; [subst i|by eapply Ha].
  destruct (az_l2_cache a !! calculate_shard_index hash key) as [sh|] eqn:Es; simplify_eq/=.
  apply lookup_insert_Some in Hk as [[<- <-]|[_ Hk]]; [by apply He|by eapply Ha].
Qed.
Lemma l2_ok_remove G a key : l2_ok G a → l2_ok G (l2_remove hash key a).
Proof.
  intros Ha i shard k e' Hi Hk Hal. unfold l2_remove in Hi. simpl in Hi. rewrite list_lookup_alter in Hi.
  case_decide as Hd; [subst i|by eapply Ha].
  destruct (az_l2_cache a !! calculate_shard_index hash key) as [sh|] eqn:Es; simplify_eq/=.
  apply lookup_delete_Some in Hk as [_ Hk]. by eapply Ha.
Qed.
Lemma l2_ok_retain G a (P : AclKey * AclCacheEntry → Prop) `{∀ x, Decision (P x)} : l2_ok G a → l2_ok G (retain P a).
Proof.
  intros Ha i shard k e Hi Hk Hal. unfold retain in Hi. simpl in Hi. rewrite list_lookup_fmap in Hi.
  destruct (az_l2_cache a !! i) as [sh|] eqn:Es; simplify_eq/=.
  apply map_lookup_filter_Some in Hk as [Hk _]. by eapply Ha.
Qed.
Lemma l2_get_ok G a key e : l2_ok G a → l2_get hash key a = Some e → ce_allowed e = true → G key.
Proof.
  intros Ha. unfold l2_get. destruct (_ !! _) as [sh|] eqn:Es; [|done]. simpl. intros Hk Hal. by eapply Ha.
Qed.

Lemma check_caches_ok G now key c a found c' a' :
  conn_ok G c → l2_ok G a → check_caches hash now key c a = (found, c', a') →
  conn_ok G c' ∧ l2_ok G a' ∧ az_batch_fetcher a' = az_batch_fetcher a ∧ (found = Some true → G key).
Proof using LruMapLaws0.
  intros Hc Ha. unfold check_caches. set (a1 := intern_string _ (intern_string _ a)).
  assert (Ha1 : l2_ok G a1) by done.
  assert (Hcc : conn_ok G (connection_get key c).2) by (unfold conn_ok; by rewrite conn_get_cache).
  destruct (connection_get key c) as [r c1] eqn:E. assert (Hr : r = lm_peek key (cc_cache c)) by (unfold connection_get in E; congruence).
  simpl in Hcc. destruct r as [allowed|]; [intros [= <- <- <-]|].
  { split_and!; try done. intros [= ->]. by apply Hc. }
  destruct (_ && _); [by intros [= <- <- <-]|].
  destruct (l2_get hash key a1) as [e|] eqn:El; [|by intros [= <- <- <-]].
  pose proof (l2_get_ok G a1 key e Ha1 El) as He.
  destruct (negb (is_expired now e)); intros [= <- <- <-]; [|split_and!; try done; by apply l2_ok_remove].
  split_and!; [by apply conn_ok_put|by apply l2_ok_insert|done|]. intros [= E']. by apply He.
Qed.
Lemma update_caches_ok G now key allowed c a c' a' :
  conn_ok G c → l2_ok G a → (allowed = true → G key) → update_caches hash now key allowed c a = (c', a') →
  conn_ok G c' ∧ l2_ok G a' ∧ az_batch_fetcher a' = az_batch_fetcher a.
Proof using LruMapLaws0.
  intros Hc Ha Hal. unfold update_caches. intros [= <- <-]. split; [by apply conn_ok_put|].
  assert (H : l2_ok G (l2_insert hash key (cache_entry_new now allowed (az_cache_ttl_seconds (az_config a))) a))
    by by apply l2_ok_insert.
  destruct (_ && _); done.
Qed.

(** The frame of a step *)
Lemma inv_set_mgr G a s :
  l2_ok G a → senders_ok (s_waiters s) (s_next s) (bf_pending_requests (az_batch_fetcher a)) →
  grants_inv G s → grants_inv G (set_mgr a s).
Proof. intros H1 H2 [????]. by split. Qed.
Lemma inv_set_conn G i c s : conn_ok G c → grants_inv G s → grants_inv G (set_conn i c s).
Proof. intros Hc []. split; try done. simpl. intros j c' [[<- <-]|[_ ?]]%lookup_insert_Some; eauto. Qed.
Lemma inv_returned G key r s : (r = Ok true → G key) → grants_inv G s → grants_inv G (returned key r s).
Proof.
  intros Hr []. split; try done. simpl. intros k [?|E%list_elem_of_singleton]%elem_of_app; [eauto|].
  injection E as -> <-. by apply Hr.
Qed.
Lemma inv_logged G key r s : grants_inv G s → grants_inv G (logged key r s).
Proof. intros []. by split. Qed.
Lemma inv_set_answers G ans s :
  answers_ok G (s_waiters s) (s_next s) ans → grants_inv G s → grants_inv G (set_answers ans s).
Proof. intros H []. by split. Qed.

(** A request moves on; it may now hold a batch. *)
Lemma inv_update_waiter G s id conn key pc pc' :
  s_waiters s !! id = Some (mkWaiter conn key pc) →
  (∀ b, pc' = PcFetch b → batch_ok G (s_waiters s) (s_next s) b) →
  grants_inv G s → grants_inv G (set_waiters (<[id := mkWaiter conn key pc']> (s_waiters s)) s).
Proof.
  intros Hw Hb [H1 H2 H3 H4 H5 H6 H7]. pose proof (evolve_update _ (s_next s) id conn key pc pc' Hw) as Hev.
  assert (Hbatch : ∀ b, batch_ok G (s_waiters s) (s_next s) b → batch_ok G (<[id:=mkWaiter conn key pc']> (s_waiters s)) (s_next s) b).
  { intros b [? ?]. split; [by eapply senders_evolve|done]. }
  split; simpl; try done.
  - intros j w [[<- <-]|[_ ?]]%lookup_insert_Some; eauto.
  - by eapply senders_evolve.
  - intros j conn' key' b [[<- [= <- <- E]]|[_ ?]]%lookup_insert_Some; eauto.
  - by eapply answers_evolve.
Qed.
Lemma inv_delete_waiter G s id : grants_inv G s → grants_inv G (set_waiters (delete id (s_waiters s)) s).
Proof.
  intros [H1 H2 H3 H4 H5 H6 H7]. pose proof (evolve_delete (s_waiters s) (s_next s) id) as Hev.
  split; simpl; try done.
  - intros j w [_ ?]%lookup_delete_Some. eauto.
  - by eapply senders_evolve.
  - intros j conn' key' b [_ Hj]%lookup_delete_Some. destruct (H5 _ _ _ _ Hj) as [? ?]. split; [by eapply senders_evolve|done].
  - by eapply answers_evolve.
Qed.

Lemma inv_new_waiter G s conn key pc a :
  pc = PcTrigger ∨ pc = PcAwait → az_l2_cache a = az_l2_cache (s_mgr s) →
  bf_pending_requests (az_batch_fetcher a)
  = <[key := default [] (bf_pending_requests (az_batch_fetcher (s_mgr s)) !! key) ++ [s_next s]]>
      (bf_pending_requests (az_batch_fetcher (s_mgr s))) →
  grants_inv G s →
  grants_inv G (set_next (S (s_next s)) (set_waiters (<[s_next s := mkWaiter conn key pc]> (s_waiters s)) (set_mgr a s))).
Proof.
  intros Hpc Hl2 Hp [H1 H2 H3 H4 H5 H6 H7]. pose proof (evolve_new (s_waiters s) (s_next s) (mkWaiter conn key pc)) as Hev.
  split; simpl; try done.
  - intros i shard k e. rewrite Hl2. by apply H2.
  - intros j w [[<- <-]|[_ ?]]%lookup_insert_Some; [lia|]. assert (j < s_next s)%nat by eauto. lia.
  - pose proof (senders_evolve _ _ _ _ _ Hev H4) as H4'. rewrite Hp. intros k txs tx [[<- <-]|[_ Hk]]%lookup_insert_Some Htx; [|by eapply H4'].
    apply elem_of_app in Htx as [Htx| ->%list_elem_of_singleton].
    + destruct (bf_pending_requests (az_batch_fetcher (s_mgr s)) !! key) as [l|] eqn:El; [by eapply H4'|by apply elem_of_nil in Htx].
    + split; [lia|]. intros w. rewrite lookup_insert_eq. by intros [= <-].
  - intros j conn' key' b [[_ [= _ _ E]]|[_ Hj]]%lookup_insert_Some; [by destruct Hpc; subst|].
    destruct (H5 _ _ _ _ Hj) as [? ?]. split; [by eapply senders_evolve|done].
  - by eapply answers_evolve.
Qed.

Lemma step_check_inv G conn key s : grants_inv G s → grants_inv G (step_check hash conn key s).
Proof using LruMapLaws0.
  intros Hs. unfold step_check. destruct (s_conns s !! conn) as [c|] eqn:Ec; [|done].
  destruct (check_caches _ _ _ _ _) as [[found c'] a] eqn:E.
  destruct (check_caches_ok G _ _ _ _ _ _ _ (gi_conns _ _ Hs _ _ Ec) (gi_l2 _ _ Hs) E) as (Hc & Ha & Hf & Hg).
  assert (Hs' : grants_inv G (set_conn conn c' (set_mgr a s))).
  { apply inv_set_conn, inv_set_mgr; [done..| |done]. rewrite Hf. apply (gi_pending _ _ Hs). }
  destruct found as [allowed|].
  - apply inv_returned; [|done]. intros [= ->]. by apply Hg.
  - unfold fetch_acl_enqueue.
    apply (inv_new_waiter G (set_conn conn c' (set_mgr a s)) conn key); [|done|done|done].
    destruct (_ <=? _); auto.
Qed.
Lemma step_trigger_inv G id keys s : grants_inv G s → grants_inv G (step_trigger id keys s).
Proof.
  intros Hs. unfold step_trigger. destruct (s_waiters s !! id) as [[conn key []]|] eqn:Ew; [|done..].
  case_decide; [|done]. unfold trigger_batch_fetch. pose proof (gi_pending _ _ Hs) as Hp.
  assert (Hnone : grants_inv G (set_waiters (<[id := mkWaiter conn key PcAwait]> (s_waiters s))
     (set_mgr (with_fetcher (az_batch_fetcher (s_mgr s)) (s_mgr s)) s))).
  { apply inv_set_mgr with (a := with_fetcher (az_batch_fetcher (s_mgr s)) (s_mgr s)) in Hs; [|apply (gi_l2 _ _ Hs)|done].
    by eapply (inv_update_waiter G (set_mgr _ s)). }
  destruct (_ <=? _); [done|]. case_decide; [done|].
  eapply (inv_update_waiter G (set_mgr _ s)); [done| |].
  - intros b [= <-]. split; [done|]. intros k. simpl. by rewrite lookup_empty.
  - apply inv_set_mgr; [apply (gi_l2 _ _ Hs)| |done]. intros k txs tx. simpl. by rewrite lookup_empty.
Qed.
Lemma step_fetch_inv G id s :
  (∀ key, granted (step_fetch id s) key → G key) → grants_inv G s → grants_inv G (step_fetch id s).
Proof.
  unfold step_fetch. intros HG Hs.
  destruct (s_waiters s !! id) as [[conn key [|[batch [|k keys] results]|]]|] eqn:Ew; try done.
  pose proof (gi_batches _ _ Hs _ _ _ _ Ew) as [Hb Hr]. simpl in Hb, Hr.
  destruct (fetch_key _ _ _) as [[answer allowed] f] eqn:Ef.
  assert (Hf : bf_pending_requests f = bf_pending_requests (az_batch_fetcher (s_mgr s)) ∧ (allowed = true → G k)).
  { unfold fetch_key in Ef. destruct (bf_acl_manager _) as [m|]; [|by injection Ef as <- <- <-].
    destruct (source_check _ _ _ _ m) as [r m'] eqn:Es. injection Ef as <- <- <-. split; [done|].
    intros Hal. apply HG. unfold granted. simpl. apply elem_of_app. right. destruct r as [b|]; [|done].
    subst b. apply list_elem_of_singleton. done. }
  destruct Hf as [Hf Hal]. apply inv_logged.
  eapply (inv_update_waiter G (set_mgr _ s)); [done| |].
  - intros b [= <-]. split; [done|]. simpl. intros k' [[<- Hk]|[_ ?]]%lookup_insert_Some; [by apply Hal|by apply Hr].
  - apply inv_set_mgr; [apply (gi_l2 _ _ Hs)| |done]. simpl. rewrite Hf. apply (gi_pending _ _ Hs).
Qed.
Lemma step_notify_inv G id s : grants_inv G s → grants_inv G (step_notify id s).
Proof.
  unfold step_notify. intros Hs.
  destruct (s_waiters s !! id) as [[conn key [|[batch [|k keys] results]|]]|] eqn:Ew; try done.
  pose proof (gi_batches _ _ Hs _ _ _ _ Ew) as [Hb Hr]. simpl in Hb, Hr.
  pose proof (evolve_update _ (s_next s) id conn key _ PcAwait Ew) as Hev.
  apply inv_set_answers.
  - apply (send_map_answers G _ _ (λ key, default false (results !! key))); simpl.
    + by eapply senders_evolve.
    + intros k Hk. apply Hr. by destruct (results !! k) as [[]|].
    + eapply answers_evolve; [done|]. apply (gi_answers _ _ Hs).
  - eapply (inv_update_waiter G (set_mgr _ s)); [done|done|].
    apply inv_set_mgr; [apply (gi_l2 _ _ Hs)|apply (gi_pending _ _ Hs)|done].
Qed.
Lemma step_receive_inv G id s : grants_inv G s → grants_inv G (step_receive hash id s).
Proof using LruMapLaws0.
  unfold step_receive. intros Hs.
  destruct (s_waiters s !! id) as [[conn key [| |]]|] eqn:Ew; try done.
  destruct (s_answers s !! id) as [allowed|] eqn:Ea; [|done].
  destruct (s_conns s !! conn) as [c|] eqn:Ec; [|done].
  destruct (update_caches _ _ _ _ _ _) as [c' a] eqn:E.
  assert (Hal : allowed = true → G key).
  { intros ->. apply (proj2 (gi_answers _ _ Hs id Ea) _ Ew). }
  destruct (update_caches_ok G _ _ _ _ _ _ _ (gi_conns _ _ Hs _ _ Ec) (gi_l2 _ _ Hs) Hal E) as (Hc & Ha & Hf).
  apply inv_returned; [intros [= ->]; auto|]. apply inv_set_conn; [done|].
  apply (inv_set_mgr G a (set_waiters (delete id (s_waiters s)) s)); [done| |by apply inv_delete_waiter].
  simpl. rewrite Hf. eapply senders_evolve; [apply evolve_delete|apply (gi_pending _ _ Hs)].
Qed.

Lemma log_grows st s key r : (key, r) ∈ s_log s → (key, r) ∈ s_log (auth_step hash st s).
Proof.
  intros H. destruct st as [conn|conn k|id keys|id|id|id|id| |p|r'| | |k|conn|d|f]; simpl; try done.
  - unfold step_check. destruct (_ !! _); [|done]. destruct (check_caches _ _ _ _ _) as [[[?|] ?] ?]; done.
  - unfold step_trigger. destruct (_ !! _) as [[? ? []]|]; try done. case_decide; [|done].
    by destruct (trigger_batch_fetch _ _).
  - unfold step_fetch. destruct (_ !! _) as [[? ? [|[? [|? ?] ?]|]]|]; try done.
    destruct (fetch_key _ _ _) as [[[?|] ?] ?]; simpl; [|done]. apply elem_of_app. by left.
  - unfold step_notify. by destruct (_ !! _) as [[? ? [|[? [|? ?] ?]|]]|].
  - unfold step_receive. destruct (s_waiters s !! id) as [[? ? []]|]; try done. destruct (s_answers s !! id); [|done].
    destruct (_ !! _); [|done]. by destruct (update_caches _ _ _ _ _ _).
  - unfold step_timeout. by destruct (_ !! _) as [[? ? []]|].
  - by destruct (batch_processor_tick _ _).
  - destruct (warm_key _ _ _ _) as [[?|] ?]; simpl; [|done]. apply elem_of_app. by left.
  - by destruct (_ !! _).
Qed.

Lemma inv_retain G (P : AclKey * AclCacheEntry → Prop) `{∀ x, Decision (P x)} a s :
  az_l2_cache a = az_l2_cache (s_mgr s) → az_batch_fetcher a = az_batch_fetcher (s_mgr s) →
  grants_inv G s → grants_inv G (set_mgr (retain P a) s).
Proof.
  intros H1 H2 Hs. apply inv_set_mgr; [|simpl; rewrite H2; apply (gi_pending _ _ Hs)|done].
  apply l2_ok_retain. intros i shard k e. rewrite H1. apply (gi_l2 _ _ Hs).
Qed.

Lemma auth_step_inv G st s :
  (∀ key, granted (auth_step hash st s) key → G key) → grants_inv G s → grants_inv G (auth_step hash st s).
Proof using LruMapLaws0.
  intros HG Hs. destruct st as [conn|conn k|id keys|id|id|id|id| |p|r'| | |k|conn|d|f]; simpl in *.
  - apply inv_set_conn; [|done]. intros key. simpl. by rewrite lm_peek_new.
  - by apply step_check_inv.
  - by apply step_trigger_inv.
  - by apply step_fetch_inv.
  - by apply step_notify_inv.
  - by apply step_receive_inv.
  - unfold step_timeout. destruct (_ !! _) as [[? ? []]|]; try done. apply inv_returned; [done|]. by apply inv_delete_waiter.
  - unfold batch_processor_tick in *. pose proof (gi_pending _ _ Hs) as Hp.
    case_decide; [|destruct (_ <=? _)]; (apply inv_set_answers; [|apply inv_set_mgr; [apply (gi_l2 _ _ Hs)| |done]]);
      try apply (gi_answers _ _ Hs); try apply Hp.
    + apply (send_map_answers G _ _ (λ _, false)); [done|done|apply (gi_answers _ _ Hs)].
    + intros k txs tx. simpl. by rewrite lookup_empty.
  - by apply inv_retain.
  - by apply inv_retain.
  - apply inv_set_mgr; [| |done]; unfold invalidate_all_caches; simpl.
    + destruct (az_negative_cache_enabled _); intros i shard k e; simpl; rewrite list_lookup_fmap;
        (destruct (_ !! i); [|done]); intros [= <-]; by rewrite lookup_empty.
    + destruct (az_negative_cache_enabled _); apply (gi_pending _ _ Hs).
  - by apply inv_retain.
  - destruct (warm_key _ _ _ _) as [r a] eqn:E. apply inv_logged. unfold warm_key in E.
    destruct (bf_acl_manager _) as [m|]; [|injection E as <- <-; apply inv_set_mgr; [apply (gi_l2 _ _ Hs)|apply (gi_pending _ _ Hs)|done]].
    destruct (source_check _ _ _ _ m) as [[b|] m'] eqn:Es; injection E as <- <-;
      apply inv_set_mgr; try done; try apply (gi_l2 _ _ Hs); try apply (gi_pending _ _ Hs).
    apply l2_ok_insert; [|apply (gi_l2 _ _ Hs)]. simpl. intros ->. apply HG. unfold granted. simpl.
    apply elem_of_app. right. by apply list_elem_of_singleton.
  - destruct (_ !! _) as [c|]; [|done]. apply inv_set_conn; [|done]. intros key. simpl. by rewrite lm_peek_clear.
  - by destruct Hs.
  - apply inv_set_mgr; [apply (gi_l2 _ _ Hs)|apply (gi_pending _ _ Hs)|done].
Qed.

Lemma auth_initial_inv config source : grants_inv (granted (initial_state config source)) (initial_state config source).
Proof.
  split; simpl; try done.
  - intros i shard key e Hi. apply lookup_replicate in Hi as [-> _]. by rewrite lookup_empty.
Qed.

Lemma auth_run_inv steps s : grants_inv (granted s) s → grants_inv (granted (auth_run hash steps s)) (auth_run hash steps s).
Proof using LruMapLaws0.
  revert s. induction steps as [|st steps IH]; intros s Hs; [done|]. cbn [auth_run foldl]. apply IH.
  apply auth_step_inv; [done|]. eapply grants_inv_mono; [|done]. intros key. apply log_grows.
Qed.

Lemma no_source_step st s :
  bf_acl_manager (az_batch_fetcher (s_mgr s)) = None →
  bf_acl_manager (az_batch_fetcher (s_mgr (auth_step hash st s))) = None ∧ s_log (auth_step hash st s) = s_log s.
Proof.
  intros H. destruct st as [conn|conn k|id keys|id|id|id|id| |p|r'| | |k|conn|d|f]; simpl; try done.
  - unfold step_check. destruct (_ !! _) as [c|]; [|done].
    unfold check_caches. destruct (connection_get k c) as [[]?]; [done|]. destruct (_ && _); [done|].
    destruct (l2_get _ _ _) as [e|]; [|done]. by destruct (negb _).
  - unfold step_trigger. destruct (_ !! _) as [[? ? []]|]; try done. case_decide; [|done].
    unfold trigger_batch_fetch. destruct (_ <=? _); [done|]. by case_decide.
  - unfold step_fetch. destruct (_ !! _) as [[? ? [|[? [|? ?] ?]|]]|]; try done. unfold fetch_key. by rewrite H.
  - unfold step_notify. by destruct (_ !! _) as [[? ? [|[? [|? ?] ?]|]]|].
  - unfold step_receive. destruct (s_waiters s !! id) as [[? ? []]|]; try done. destruct (s_answers s !! id); [|done].
    destruct (_ !! _); [|done]. simpl. by destruct (_ && _).
  - unfold step_timeout. by destruct (_ !! _) as [[? ? []]|].
  - unfold batch_processor_tick. case_decide; [done|]. by destruct (_ <=? _).
  - unfold invalidate_all_caches. simpl. by destruct (az_negative_cache_enabled _).
  - unfold warm_key. by rewrite H.
  - by destruct (_ !! _).
  - by rewrite H.
Qed.
Lemma no_source_run steps s :
  bf_acl_manager (az_batch_fetcher (s_mgr s)) = None → s_log (auth_run hash steps s) = s_log s.
Proof.
  revert s. induction steps as [|st steps IH]; intros s H; [done|]. cbn [auth_run foldl].
  destruct (no_source_step st s H) as [H' <-]. by apply IH.
Qed.

(** C16: No cache and no batch invents a grant.  In any interleaving of
    requests, batches, ticks of the batch processor, invalidations, expirations,
    warm-ups and changes of the rules, a permission check that returns [true]
    for a key does so because the ACL manager answered [true] for that very
    key; without an ACL manager no check is ever granted. *)
Theorem grants_come_from_source config (source : option M) steps key :
  let s := auth_run hash steps (initial_state (L := L) (B := B) config source) in
  (key, Ok true) ∈ s_results s → (key, Ok true) ∈ s_log s ∧ is_Some source.
Proof using LruMapLaws0.
  intros s H. apply (gi_results _ _ (auth_run_inv steps _ (auth_initial_inv config source))) in H. split; [done|].
  destruct source as [m|]; [done|]. unfold granted in H. rewrite no_source_run in H by done. by apply elem_of_nil in H.
Qed.
End grants.

(** ** Denials *)

Section denials.
Context (hash : AclKey → Z).
Context {L : Type} `{!LruMap L} {B : Type} `{!Bloom B, !BloomLaws B} {M : Type} `{!PermissionSource M}.
Implicit Types (s : AuthState L B M) (a : AuthorizationManager B M).

Definition denied key a : Prop :=
  az_negative_cache_enabled (az_config a) = true ∧ bl_check key (az_negative_cache a) = true.

Lemma update_caches_denied now key key' allowed (c : ConnectionAclCache L) a :
  denied key a → denied key (update_caches hash now key' allowed c a).2.
Proof using BloomLaws0.
  intros [H1 H2]. unfold update_caches. simpl. rewrite H1. destruct allowed; [done|]. split; [done|]. by apply bl_check_mono.
Qed.

Lemma auth_step_denied key st s :
  (∀ st', st = st' → st' ≠ AInvalidateAll) → denied key (s_mgr s) → denied key (s_mgr (auth_step hash st s)).
Proof using BloomLaws0.
  intros Hst H. destruct st as [conn|conn k|id keys|id|id|id|id| |p|r'| | |k|conn|d|f]; simpl; try done.
  - unfold step_check. destruct (_ !! _) as [c|]; [|done].
    unfold check_caches. destruct (connection_get k c) as [[]?]; [done|]. destruct (_ && _); [done|].
    destruct (l2_get _ _ _) as [e|]; [|done]. by destruct (negb _).
  - unfold step_trigger. destruct (_ !! _) as [[? ? []]|]; try done. case_decide; [|done].
    by destruct (trigger_batch_fetch _ _).
  - unfold step_fetch. destruct (_ !! _) as [[? ? [|[? [|? ?] ?]|]]|]; try done.
    by destruct (fetch_key _ _ _) as [[? ?] ?].
  - unfold step_notify. by destruct (_ !! _) as [[? ? [|[? [|? ?] ?]|]]|].
  - unfold step_receive. destruct (s_waiters s !! id) as [[? k []]|]; try done. destruct (s_answers s !! id) as [b|]; [|done].
    destruct (_ !! _) as [c|]; [|done].
    pose proof (update_caches_denied (s_now s) key k b c (s_mgr s) H) as Hu. by destruct (update_caches _ _ _ _ _ _).
  - unfold step_timeout. by destruct (_ !! _) as [[? ? []]|].
  - by destruct (batch_processor_tick _ _).
  - by destruct (Hst _ eq_refl).
  - unfold warm_key. destruct (bf_acl_manager _); [|done]. by destruct (source_check _ _ _ _ _) as [[] ?].
  - by destruct (_ !! _).
Qed.
Lemma auth_run_denied key steps s :
  AInvalidateAll ∉ steps → denied key (s_mgr s) → denied key (s_mgr (auth_run hash steps s)).
Proof using BloomLaws0.
  revert s. induction steps as [|st steps IH]; intros s Hn H; [done|]. cbn [auth_run foldl].
  apply not_elem_of_cons in Hn as [Hn ?]. apply IH; [done|]. apply auth_step_denied; [|done]. by intros ? <- ->.
Qed.

(** A denial sticks.  With the negative cache on, once a request was
    answered [false] every later check of that key on a connection that does
    not hold the key is [false], whatever the ACL manager says by then and
    whatever was invalidated for the principal or the resource, until all
    caches are invalidated. *)
Theorem denial_sticks id conn key c steps s (c' : ConnectionAclCache L) :
  az_negative_cache_enabled (az_config (s_mgr s)) = true →
  s_waiters s !! id = Some (mkWaiter conn key PcAwait) → s_answers s !! id = Some false →
  s_conns s !! conn = Some c → AInvalidateAll ∉ steps → lm_peek key (cc_cache c') = None →
  let s' := auth_run hash (AReceive id :: steps) s in
  (check_caches hash (s_now s') key c' (s_mgr s')).1.1 = Some false.
Proof using BloomLaws0.
  intros He Hw Ha Hc Hn Hp s'.
  assert (Hd : denied key (s_mgr s')).
  { unfold s'. cbn [auth_run foldl]. apply auth_run_denied; [done|]. simpl. unfold step_receive. rewrite Hw, Ha, Hc.
    unfold update_caches. simpl. rewrite He. simpl. split; [done|]. apply bl_check_set. }
  destruct Hd as [H1 H2]. unfold check_caches, connection_get. rewrite Hp. simpl. by rewrite H1, H2.
Qed.

Lemma send_all_at v txs ans tx : tx ∈ txs → send_all v txs ans !! tx = Some v.
Proof.
  revert ans. induction txs as [|t txs IH]; intros ans; [by intros ?%elem_of_nil|].
  intros [->|Hin]%elem_of_cons; [|by apply IH]. simpl.
  destruct (decide (t ∈ txs)) as [?|Hni]; [by apply IH|]. clear IH.
  assert (Hk : ∀ ans, ans !! t = Some v → send_all v txs ans !! t = Some v).
  { clear ans. induction txs as [|x txs IH]; intros ans Ha; [done|]. simpl. apply not_elem_of_cons in Hni as [??].
    apply IH; [done|]. by rewrite lookup_insert_ne. }
  apply Hk. by rewrite lookup_insert_eq.
Qed.
Lemma send_all_value v txs ans tx : ans !! tx = Some v → send_all v txs ans !! tx = Some v.
Proof.
  revert ans. induction txs as [|t txs IH]; intros ans Ha; [done|]. apply IH.
  destruct (decide (t = tx)) as [->|]; [by rewrite lookup_insert_eq|by rewrite lookup_insert_ne].
Qed.

(** The batch processor answers, and always with a denial.  When a
    permit is free, one tick of the background task empties the queue and
    every queued request is answered [false], without the ACL manager being
    asked. *)
Theorem batch_processor_denies answers f ans' f' :
  0 < bf_fetch_semaphore (M := M) f → batch_processor_tick answers f = (ans', f') →
  bf_pending_requests f' = ∅ ∧ bf_acl_manager f' = bf_acl_manager f ∧
  ∀ key txs tx, bf_pending_requests f !! key = Some txs → tx ∈ txs → ans' !! tx = Some false.
Proof.
  intros Hp. unfold batch_processor_tick. case_decide as He.
  { intros [= <- <-]. split_and!; [done|done|]. intros key txs tx. by rewrite He, lookup_empty. }
  rewrite (proj2 (Z.leb_gt _ _)) by lia. intros [= <- <-]. split; [done|]. split; [done|]. clear.
  generalize (bf_pending_requests f). intros p.
  apply (map_fold_weak_ind (λ res p, ∀ key txs tx, p !! key = Some txs → tx ∈ txs → res !! tx = Some false)).
  - intros key txs tx. by rewrite lookup_empty.
  - intros k l p' res Hk IH key txs tx [[<- <-]|[_ Hl]]%lookup_insert_Some Htx; [by apply send_all_at|].
    apply send_all_value. by eapply IH.
Qed.
End denials.

(** ** Concrete managers *)

Module AuthDemo.
Definition khash (key : AclKey) : Z := Z.of_nat (String.length (k_topic key)).
(** An unbounded map is an LRU cache that never evicts, a set a filter
    without false positives, and the rules a source. *)
#[export] Instance map_lru : LruMap (gmap AclKey bool) :=
  {| lm_new _ := ∅; lm_peek := lookup; lm_put k v l := <[k := v]> l; lm_clear _ := ∅ |}.
#[export] Instance map_lru_laws : LruMapLaws (gmap AclKey bool).
Proof.
  split; simpl; [intros; by rewrite lookup_empty..|].
  intros k v k' v' l [[<- <-]|[_ ?]]%lookup_insert_Some; auto.
Qed.
#[export] Instance set_bloom : Bloom (gset AclKey) :=
  {| bl_new _ := ∅; bl_check k b := bool_decide (k ∈ b); bl_set k b := {[k]} ∪ b |}.
#[export] Instance set_bloom_laws : BloomLaws (gset AclKey).
Proof.
  split; simpl; [intros; apply bool_decide_eq_true; set_solver|].
  intros ??? H%bool_decide_eq_true. apply bool_decide_eq_true. set_solver.
Qed.
#[export] Existing Instance AclDemo.rules_storage.
#[export] Instance source : PermissionSource (AclManager unit AclDemo.Rules) :=
  acl_manager_source AclDemo.no_regex AclDemo.no_match AclDemo.bhash AclDemo.khash (λ l, l).
Abbreviation State := (AuthState (gmap AclKey bool) (gset AclKey) (AclManager unit AclDemo.Rules)).
Abbreviation Step := (AuthStep (AclManager unit AclDemo.Rules)).

Definition manager : AclManager unit AclDemo.Rules := manager_new AclDemo.one (AclDemo.conf false).
Definition config (batch : Z) : AuthConfig := mkAuthConfig 300 1000 batch true.
Definition start (batch : Z) : State := initial_state (config batch) (Some manager).
Definition key : AclKey := mkKey "alice" "logs-1" Read.
Definition request (id : nat) : list Step :=
  [ACheck 0 key; ATrigger id [key]; AFetch id; ANotify id; AReceive id].

Lemma grants_come_from_source_witness :
  (key, Ok true) ∈ s_log (auth_run khash (AConnect 0 :: request 0) (start 1)).
Proof.
  apply (grants_come_from_source khash (config 1) (Some manager) (AConnect 0 :: request 0) key).
  vm_compute. left.
Defined.

(** With the default batch size the same request is answered by the batch
    processor and denied. *)
Definition lone : list Step := [AConnect 0; ACheck 0 key; ATick].
Lemma lone_request_denied :
  s_results (auth_run khash (AConnect 0 :: request 0) (start 1)) = [(key, Ok true)] ∧
  s_results (auth_run khash (lone ++ [AReceive 0]) (start 100)) = [(key, Ok false)].
Proof. vm_compute. done. Qed.

Abbreviation fresh := (create_connection_cache (L := gmap AclKey bool)).
Lemma denial_sticks_witness :
  (check_caches khash 0 key fresh
     (s_mgr (auth_run khash (AReceive 0 :: [AInvalidatePrincipal "alice"]) (auth_run khash lone (start 100))))).1.1
  = Some false.
Proof.
  refine (denial_sticks khash 0 0 key (mkConnection ∅ 0 1) [AInvalidatePrincipal "alice"]
    (auth_run khash lone (start 100)) fresh _ _ _ _ _ _).
  1-4: vm_compute; reflexivity.
  - intros H. apply list_elem_of_singleton in H. discriminate.
  - reflexivity.
Defined.

Lemma batch_processor_denies_witness :
  (batch_processor_tick ∅ (mkFetcher (M := AclManager unit AclDemo.Rules) {[key := [7%nat]]} 100 10 (Some manager))).1
    !! 7%nat = Some false.
Proof.
  destruct (batch_processor_tick ∅ (mkFetcher (M := AclManager unit AclDemo.Rules) {[key := [7%nat]]} 100 10 (Some manager)))
    as [ans f] eqn:E.
  apply batch_processor_denies in E as (_ & _ & H); [|reflexivity]. apply (H key [7%nat]); [reflexivity|left].
Defined.

Lemma permission_set_refines_witness : denote (add_permission Admin (mkPermissions 1)) = {[Admin]} ∪ denote (mkPermissions 1).
Proof.
  destruct (permission_set_refines (mkPermissions 1) Admin []) as (_ & [_ H] & _); [split; vm_compute; congruence|exact H].
Defined.

(** A grant that the manager takes back stays in the connection's cache: the
    rules are gone, the principal and then all caches are invalidated, a day
    passes, and the check is still [true]. *)
Lemma revoked_grant_stays :
  s_results (auth_run khash
    (AConnect 0 :: request 0
     ++ [AChange (λ _, manager_new (∅ : AclDemo.Rules) (AclDemo.conf false)); AInvalidatePrincipal "alice"; AInvalidateAll;
         AClock 86400; ACleanup; ACheck 0 key]) (start 1))
  = [(key, Ok true); (key, Ok true)].
Proof. vm_compute. done. Qed.
End AuthDemo.
