(* ===== verification/Network.v ===== *)
(** * Buffers and connections of the QUIC servers

    Model of the buffer pool of [src/src/storage/buffer_pool.rs], the connection
    pool of [src/src/network/quic_server.rs] and the pool of authenticated
    connections of [src/src/network/secure_connection.rs].  A connection is an
    opaque value; a buffer is its contents.  The accept loop of the server is
    the only task that adds connections to the first pool; adding is split where
    other tasks can run in between. *)

From S2P Require Import Prelude Types.
Local Open Scope Z_scope.

(** ** The buffer pool *)

Record AlignedBufferPool := mkBuffers {
  bp_pools : list (list bytes);
  bp_alignment : Z;
  bp_max_buffers_per_size : Z;
}.
Definition MAX_SIZE_CLASSES : nat := 20.
Definition buffers_new (alignment max_buffers_per_size : Z) : AlignedBufferPool :=
  mkBuffers (replicate MAX_SIZE_CLASSES []) alignment max_buffers_per_size.

Definition size_class_index (size : Z) (p : AlignedBufferPool) : nat :=
  if size <=? 4096 then 0%nat
  else if size <=? 8192 then 1%nat
  else if size <=? 16384 then 2%nat
  else if size <=? 32768 then 3%nat
  else if size <=? 65536 then 4%nat
  else Z.to_nat (Z.min (size / 65536) (Z.of_nat (length (bp_pools p)) - 1)).

Definition isize_MAX : Z := 2 ^ 63 - 1.
(** [(size + alignment - 1) & !(alignment - 1)] on [usize] *)
Definition aligned_size (size alignment : Z) : Z :=
  Z.land (u64_sub (u64_add size alignment) 1) (u64_MAX - u64_sub alignment 1).
(** The capacity is not part of the contents, but a [Vec] with more than
    [isize::MAX] bytes panics. *)
Definition allocate_aligned (alignment size : Z) : Result bytes :=
  if (isize_MAX <? aligned_size size alignment) || (isize_MAX <? size) then Err Panic else Ok (replicate (Z.to_nat size) 0).
Definition set_class (i : nat) (pool : list bytes) (p : AlignedBufferPool) : AlignedBufferPool :=
  mkBuffers (<[i := pool]> (bp_pools p)) (bp_alignment p) (bp_max_buffers_per_size p).
(** The front buffer of a class, which is gone also when it is too short. *)
Definition take_from (i : nat) (size : Z) (p : AlignedBufferPool) : option bytes * AlignedBufferPool :=
  match bp_pools p !! i with
  | Some (b :: pool) =>
      (if size <=? Z.of_nat (length b) then Some (take (Z.to_nat size) b) else None, set_class i pool p)
  | _ => (None, p)
  end.

Definition get_aligned_buffer (size : Z) (p : AlignedBufferPool) : Result bytes * AlignedBufferPool :=
  let i := size_class_index size p in
  if (length (bp_pools p) <=? i)%nat then (Err Panic, p)
  else match take_from i size p with
       | (Some b, p) => (Ok b, p)
       | (None, p) =>
           match (if (i + 1 <? length (bp_pools p))%nat then take_from (i + 1) size p else (None, p)) with
           | (Some b, p) => (Ok b, p)
           | (None, p) => (allocate_aligned (bp_alignment p) size, p)
           end
       end.
Definition return_buffer (buffer : bytes) (p : AlignedBufferPool) : AlignedBufferPool :=
  let i := size_class_index (Z.of_nat (length buffer)) p in
  match bp_pools p !! i with
  | Some pool =>
      if Z.of_nat (length pool) <? bp_max_buffers_per_size p then set_class i (pool ++ [buffer]) p else p
  | None => p
  end.

(** ** The connection pool *)

Section pool.
Context {C : Type}.

Record ConnectionPool := mkPool {
  cp_connections : gmap string C;
  cp_lru_tracker : list (string * Z);
  cp_max_connections : Z;
}.
Definition pool_new (max_connections : Z) : ConnectionPool := mkPool ∅ [] max_connections.
Definition get_connection (client_id : string) (p : ConnectionPool) : option C := cp_connections p !! client_id.

(** Pop the tracker until a connection was removed. *)
Fixpoint evict_oldest (lru : list (string * Z)) (conns : gmap string C) : list (string * Z) * gmap string C :=
  match lru with
  | [] => ([], conns)
  | (old_id, _) :: lru =>
      match conns !! old_id with
      | Some _ => (lru, delete old_id conns)
      | None => evict_oldest lru conns
      end
  end.
(** The sections of [add_connection]. *)
Definition make_room (p : ConnectionPool) : ConnectionPool :=
  if cp_max_connections p <=? Z.of_nat (size (cp_connections p)) then
    let '(lru, conns) := evict_oldest (cp_lru_tracker p) (cp_connections p) in
    mkPool conns lru (cp_max_connections p)
  else p.
Definition insert_connection (client_id : string) (c : C) (p : ConnectionPool) : ConnectionPool :=
  mkPool (<[client_id := c]> (cp_connections p)) (cp_lru_tracker p) (cp_max_connections p).
Definition track (client_id : string) (now : Z) (p : ConnectionPool) : ConnectionPool :=
  mkPool (cp_connections p) (cp_lru_tracker p ++ [(client_id, now)]) (cp_max_connections p).
Definition add_connection (client_id : string) (c : C) (now : Z) (p : ConnectionPool) : ConnectionPool :=
  track client_id now (insert_connection client_id c (make_room p)).

Definition remove_connection (client_id : string) (p : ConnectionPool) : ConnectionPool :=
  mkPool (delete client_id (cp_connections p)) (cp_lru_tracker p) (cp_max_connections p).
Definition purge_stale_lru_entries (p : ConnectionPool) : ConnectionPool :=
  mkPool (cp_connections p) (filter (λ e, is_Some (cp_connections p !! e.1)) (cp_lru_tracker p)) (cp_max_connections p).
Definition pool_len (p : ConnectionPool) : nat := size (cp_connections p).
Definition lru_tracker_len (p : ConnectionPool) : nat := length (cp_lru_tracker p).
End pool.
Arguments ConnectionPool : clear implicits.

(** ** Authenticated connections *)

(** An authenticated connection with the time of its last activity. *)
Record AuthenticatedConnection := mkAuthConn {
  ac_principal : string;
  ac_last_activity : Z;
}.
Record AuthenticatedConnectionPool := mkAuthPool {
  ap_connections : gmap string AuthenticatedConnection;
  ap_lru_tracker : list (string * Z);
  ap_max_connections : Z;
  ap_max_idle_time : Z;
}.
Definition auth_pool_new (max_connections max_idle_time : Z) : AuthenticatedConnectionPool :=
  mkAuthPool ∅ [] max_connections max_idle_time.

(** The eviction loop: it ends at the first tracked connection that exists,
    which is removed if it is idle and put back otherwise. *)
Fixpoint evict_idle (now max_idle : Z) (lru : list (string * Z)) (conns : gmap string AuthenticatedConnection)
  : bool * list (string * Z) * gmap string AuthenticatedConnection :=
  match lru with
  | [] => (false, [], conns)
  | (old_id, last_activity) :: lru =>
      match conns !! old_id with
      | Some _ =>
          if max_idle <? Z.max 0 (now - last_activity) then (true, lru, delete old_id conns)
          else (false, lru ++ [(old_id, last_activity)], conns)
      | None => evict_idle now max_idle lru conns
      end
  end.
(** The check under the tracker's lock; [insert_auth] follows it without one. *)
Definition check_limit (now : Z) (p : AuthenticatedConnectionPool) : Result unit * AuthenticatedConnectionPool :=
  if ap_max_connections p <=? Z.of_nat (size (ap_connections p)) then
    let '(evicted, lru, conns) := evict_idle now (ap_max_idle_time p) (ap_lru_tracker p) (ap_connections p) in
    let p := mkAuthPool conns lru (ap_max_connections p) (ap_max_idle_time p) in
    if negb evicted && (ap_max_connections p <=? Z.of_nat (size (ap_connections p))) then (Err Network, p) else (Ok tt, p)
  else (Ok tt, p).
Definition insert_auth (now : Z) (id : string) (c : AuthenticatedConnection) (p : AuthenticatedConnectionPool)
  : AuthenticatedConnectionPool :=
  mkAuthPool (<[id := c]> (ap_connections p)) (ap_lru_tracker p ++ [(id, now)]) (ap_max_connections p) (ap_max_idle_time p).
Definition auth_add_connection (now : Z) (id : string) (c : AuthenticatedConnection) (p : AuthenticatedConnectionPool)
  : Result unit * AuthenticatedConnectionPool :=
  match check_limit now p with
  | (Ok _, p) => (Ok tt, insert_auth now id c p)
  | (Err e, p) => (Err e, p)
  end.
Definition auth_get_connection (id : string) (p : AuthenticatedConnectionPool) : option AuthenticatedConnection :=
  ap_connections p !! id.
Definition auth_remove_connection (id : string) (p : AuthenticatedConnectionPool)
  : option AuthenticatedConnection * AuthenticatedConnectionPool :=
  (ap_connections p !! id,
   mkAuthPool (delete id (ap_connections p)) (ap_lru_tracker p) (ap_max_connections p) (ap_max_idle_time p)).
Definition update_activity (now : Z) (id : string) (p : AuthenticatedConnectionPool) : AuthenticatedConnectionPool :=
  mkAuthPool (alter (λ c, mkAuthConn (ac_principal c) now) id (ap_connections p)) (ap_lru_tracker p)
    (ap_max_connections p) (ap_max_idle_time p).
Definition idle (now max_idle : Z) (c : AuthenticatedConnection) : bool := max_idle <? Z.max 0 (now - ac_last_activity c).
Definition cleanup_idle_connections (now : Z) (p : AuthenticatedConnectionPool) : nat * AuthenticatedConnectionPool :=
  let gone := filter (λ kv, idle now (ap_max_idle_time p) kv.2 = true) (ap_connections p) in
  (size gone,
   mkAuthPool (filter (λ kv, idle now (ap_max_idle_time p) kv.2 = false) (ap_connections p)) (ap_lru_tracker p)
     (ap_max_connections p) (ap_max_idle_time p)).

(** ** Buffers have the length that was asked for *)

Section buffers.
Implicit Types (p : AlignedBufferPool) (b : bytes).

Inductive BufferOp := OpGet (size : Z) | OpReturn (b : bytes).
Definition run_buffer_op (op : BufferOp) p : AlignedBufferPool :=
  match op with OpGet n => (get_aligned_buffer n p).2 | OpReturn b => return_buffer b p end.
Definition run_buffer_ops (ops : list BufferOp) p : AlignedBufferPool := foldl (λ p op, run_buffer_op op p) p ops.

Record buffers_inv (max : Z) p : Prop := {
  bi_classes : length (bp_pools p) = MAX_SIZE_CLASSES;
  bi_max : bp_max_buffers_per_size p = max;
  bi_alignment : 0 ≤ bp_alignment p ≤ 2 ^ 62;
  bi_bounded : Forall (λ pool, Z.of_nat (length pool) ≤ max) (bp_pools p);
}.

Lemma size_class_lt size p : length (bp_pools p) = MAX_SIZE_CLASSES → (size_class_index size p < MAX_SIZE_CLASSES)%nat.
Proof.
  intros Hl. unfold size_class_index. rewrite Hl. unfold MAX_SIZE_CLASSES.
  repeat case_match; lia.
Qed.
Lemma set_class_inv max i pool p : Z.of_nat (length pool) ≤ max → buffers_inv max p → buffers_inv max (set_class i pool p).
Proof.
  intros Hp [H1 H2 H3 H4]. split; simpl; [by rewrite length_insert|done|done|]. by apply Forall_insert.
Qed.
Lemma take_from_inv max i size p : buffers_inv max p → buffers_inv max (take_from i size p).2.
Proof.
  intros Hp. unfold take_from. destruct (bp_pools p !! i) as [[|b pool]|] eqn:E; [done| |done].
  apply set_class_inv; [|done]. pose proof (bi_bounded _ _ Hp) as Hb. rewrite Forall_lookup in Hb.
  specialize (Hb i _ E). simpl in Hb. lia.
Qed.
Lemma take_from_length i size p b : 0 ≤ size → (take_from i size p).1 = Some b → Z.of_nat (length b) = size.
Proof.
  intros Hs. unfold take_from. destruct (bp_pools p !! i) as [[|b0 pool]|]; [done| |done]. simpl.
  destruct (Z.leb_spec size (Z.of_nat (length b0))); [|done]. intros [= <-]. rewrite length_take. lia.
Qed.

(** A buffer of the length asked for, or a panic when the size overflows *)
Definition buffer_or_overflow (size alignment : Z) (r : Result bytes) : Prop :=
  match r with Ok b => Z.of_nat (length b) = size | Err e => e = Panic ∧ isize_MAX < size + alignment end.
Lemma land_le (x y : Z) : 0 ≤ x → Z.land x y ≤ x.
Proof.
  intros Hx. assert (Hd : Z.ldiff (Z.land x y) x = 0).
  { apply Z.bits_inj'. intros k Hk. rewrite Z.ldiff_spec, Z.land_spec, Z.bits_0. by destruct (Z.testbit x k), (Z.testbit y k). }
  pose proof (Z.sub_nocarry_ldiff x (Z.land x y) Hd) as E. pose proof (proj2 (Z.ldiff_nonneg x (Z.land x y)) (or_introl Hx)). lia.
Qed.
Lemma aligned_size_le size alignment : 0 ≤ size → 0 ≤ alignment ≤ 2 ^ 62 → aligned_size size alignment ≤ size + alignment.
Proof.
  intros Hs Ha. unfold aligned_size. destruct (decide (alignment = 0)) as [->|].
  { change (u64_sub 0 1) with u64_MAX. rewrite Z.sub_diag, Z.land_0_r. lia. }
  unfold u64_sub at 2. rewrite (Z.mod_small (alignment - 1)) by (unfold u64_modulus; lia).
  etrans; [apply land_le|].
  - unfold u64_sub. apply Z.mod_pos_bound. done.
  - unfold u64_sub, u64_add. rewrite Zminus_mod_idemp_l. etrans; [apply Z.mod_le; [lia|done]|lia].
Qed.
Lemma allocate_aligned_spec size alignment : 0 ≤ size → 0 ≤ alignment ≤ 2 ^ 62 → buffer_or_overflow size alignment (allocate_aligned alignment size).
Proof.
  intros Hs Ha. pose proof (aligned_size_le size alignment Hs Ha). unfold allocate_aligned. destruct (_ || _) eqn:E; cbn.
  - split; [done|]. apply orb_true_iff in E as [E|E]; lia.
  - rewrite length_replicate. lia.
Qed.
Lemma take_from_alignment i size p : bp_alignment (take_from i size p).2 = bp_alignment p.
Proof. unfold take_from. by destruct (bp_pools p !! i) as [[|b pool]|]. Qed.
Lemma get_buffer_spec max size p :
  0 ≤ size → buffers_inv max p →
  buffers_inv max (get_aligned_buffer size p).2 ∧ buffer_or_overflow size (bp_alignment p) (get_aligned_buffer size p).1.
Proof.
  intros Hs Hp. unfold get_aligned_buffer. set (i := size_class_index size p).
  pose proof (size_class_lt size p (bi_classes _ _ Hp)) as Hi. fold i in Hi.
  destruct (Nat.leb_spec (length (bp_pools p)) i) as [Hlt|_]; [rewrite (bi_classes _ _ Hp) in Hlt; lia|].
  pose proof (take_from_inv max i size p Hp) as Hp1. pose proof (take_from_length i size p) as Hl1.
  pose proof (take_from_alignment i size p) as Ha1.
  destruct (take_from i size p) as [[b|] p1]; simpl in *; [by auto|].
  destruct (Nat.ltb_spec (i + 1) (length (bp_pools p1))).
  - pose proof (take_from_inv max (i + 1) size p1 Hp1) as Hp2. pose proof (take_from_length (i + 1) size p1) as Hl2.
    pose proof (take_from_alignment (i + 1) size p1) as Ha2.
    destruct (take_from (i + 1) size p1) as [[b|] p2]; simpl in *; [by auto|]. split; [done|].
    rewrite Ha2, Ha1. apply allocate_aligned_spec, bi_alignment with max; done.
  - simpl. split; [done|]. rewrite Ha1. apply allocate_aligned_spec, bi_alignment with max; done.
Qed.
Lemma return_buffer_inv max b p : buffers_inv max p → buffers_inv max (return_buffer b p).
Proof.
  intros Hp. unfold return_buffer. destruct (bp_pools p !! _) as [pool|] eqn:E; [|done].
  destruct (Z.ltb_spec (Z.of_nat (length pool)) (bp_max_buffers_per_size p)) as [Hlt|]; [|done].
  rewrite (bi_max _ _ Hp) in Hlt. apply set_class_inv; [|done]. rewrite length_app. simpl. lia.
Qed.

Lemma return_alignment b p : bp_alignment (return_buffer b p) = bp_alignment p.
Proof. unfold return_buffer. destruct (_ !! _); [|done]. by destruct (_ <? _). Qed.
Lemma get_alignment size p : bp_alignment (get_aligned_buffer size p).2 = bp_alignment p.
Proof.
  unfold get_aligned_buffer. destruct (_ <=? _)%nat; [done|]. set (i := size_class_index size p).
  pose proof (take_from_alignment i size p) as H1. destruct (take_from i size p) as [[b|] p1]; [done|]. cbn in H1.
  destruct (_ <? _)%nat; [|done]. pose proof (take_from_alignment (i + 1) size p1) as H2. destruct (take_from (i + 1) size p1) as [[b|] p2]; cbn in *; congruence.
Qed.
(** A request that fits into memory gets its buffer. *)
Lemma get_buffer_small max size p :
  0 ≤ size < 2 ^ 62 → buffers_inv max p → ∃ b, (get_aligned_buffer size p).1 = Ok b ∧ Z.of_nat (length b) = size.
Proof.
  intros Hs Hp. destruct (get_buffer_spec max size p ltac:(lia) Hp) as [_ H]. pose proof (bi_alignment _ _ Hp).
  destruct (get_aligned_buffer size p).1 as [b|e]; cbn in H; [by exists b|]. unfold isize_MAX in H. lia.
Qed.

(** C40: Whatever buffers were taken and returned before, taking a buffer gives
    one of exactly the length asked for, whichever class it came from, or
    panics, and this only when the length and the alignment together exceed
    [isize::MAX]; and no class holds more buffers than the limit. *)
Theorem buffer_pool_sound alignment max ops size p :
  0 ≤ max → 0 ≤ alignment ≤ 2 ^ 62 → Forall (λ op, match op with OpGet n => 0 ≤ n | _ => True end) ops → 0 ≤ size →
  run_buffer_ops ops (buffers_new alignment max) = p →
  buffer_or_overflow size alignment (get_aligned_buffer size p).1 ∧
  Forall (λ pool, Z.of_nat (length pool) ≤ max) (bp_pools p).
Proof.
  intros Hmax Ha Hops Hs <-.
  assert (Hinv : ∀ p0, buffers_inv max p0 → buffers_inv max (run_buffer_ops ops p0) ∧ bp_alignment (run_buffer_ops ops p0) = bp_alignment p0).
  { induction Hops as [|op ops Hop _ IH]; [done|]. intros p0 Hp0.
    assert (H : buffers_inv max (run_buffer_op op p0) ∧ bp_alignment (run_buffer_op op p0) = bp_alignment p0).
    { destruct op as [n|b]; [|by split; [apply return_buffer_inv|apply return_alignment]].
      split; [by apply (get_buffer_spec max n p0)|apply get_alignment]. }
    destruct H as [H1 H2]. destruct (IH _ H1) as [H3 H4]. split; [exact H3|]. by rewrite <- H2, <- H4. }
  destruct (Hinv (buffers_new alignment max)) as [Hp Hal].
  { split; [done|done|done|]. simpl. by repeat constructor. }
  split; [|apply Hp]. replace alignment with (bp_alignment (run_buffer_ops ops (buffers_new alignment max))) at 1 by done. by apply (get_buffer_spec max).
Qed.
End buffers.

(** ** The pool stays within its limit *)

Section connections.
Context {C : Type}.
Implicit Types (p : ConnectionPool C) (id : string).

(** Where the accept loop is, and what can happen next. *)
Inductive AcceptPc := Accepting | Roomy (id : string) (c : C) | Inserted (id : string).
Inductive PoolEvent :=
  | EvAccept (id : string) (c : C)
  | EvInsert
  | EvTrack (now : Z)
  | EvDisconnect (id : string)
  | EvPurge.
Definition pool_step (e : PoolEvent) (s : AcceptPc * ConnectionPool C) : AcceptPc * ConnectionPool C :=
  let '(pc, p) := s in
  match e, pc with
  | EvAccept id c, Accepting => (Roomy id c, make_room p)
  | EvInsert, Roomy id c => (Inserted id, insert_connection id c p)
  | EvTrack now, Inserted id => (Accepting, track id now p)
  | EvDisconnect id, _ => (pc, remove_connection id p)
  | EvPurge, _ => (pc, purge_stale_lru_entries p)
  | _, _ => s
  end.
Definition pool_run (es : list PoolEvent) (s : AcceptPc * ConnectionPool C) : AcceptPc * ConnectionPool C :=
  foldl (λ s e, pool_step e s) s es.

Definition tracked (s : AcceptPc * ConnectionPool C) id : Prop :=
  id ∈ (cp_lru_tracker s.2).*1 ∨ s.1 = Inserted id.
Record pool_inv (max : Z) (s : AcceptPc * ConnectionPool C) : Prop := {
  pi_max : cp_max_connections s.2 = max;
  pi_size : Z.of_nat (size (cp_connections s.2)) ≤ match s.1 with Roomy _ _ => max - 1 | _ => max end;
  pi_tracked id : is_Some (cp_connections s.2 !! id) → tracked s id;
}.

(** Evicting from a pool whose connections are all tracked removes one. *)
Lemma evict_oldest_spec lru (conns : gmap string C) lru' conns' :
  (∀ id, is_Some (conns !! id) → id ∈ lru.*1) → evict_oldest lru conns = (lru', conns') →
  conns = ∅ ∧ conns' = ∅ ∨
  ∃ id, is_Some (conns !! id) ∧ conns' = delete id conns ∧ ∀ k, is_Some (conns' !! k) → k ∈ lru'.*1.
Proof.
  induction lru as [|[old t] lru IH]; intros Htr; simpl.
  - intros [= <- <-]. left. assert (conns = ∅) as ->; [|done]. apply map_empty. intros id.
    destruct (conns !! id) eqn:E; [|done]. exfalso. by eapply elem_of_nil, (Htr id).
  - destruct (conns !! old) as [c|] eqn:Eo.
    + intros [= <- <-]. right. exists old. split_and!; [by eexists|done|].
      intros k [x Hk]. rewrite lookup_delete_Some in Hk. destruct Hk as [Hne Hk].
      specialize (Htr k ltac:(by eexists)). rewrite fmap_cons, elem_of_cons in Htr. simpl in Htr. by destruct Htr as [->|].
    + apply IH. intros id Hid. specialize (Htr id Hid). rewrite fmap_cons, elem_of_cons in Htr. simpl in Htr.
      destruct Htr as [->|]; [|done]. destruct Hid. congruence.
Qed.

Lemma make_room_inv max p id c : 1 ≤ max → pool_inv max (Accepting, p) → pool_inv max (Roomy id c, make_room p).
Proof.
  intros Hmax [Hm Hs Ht]. simpl in *. unfold make_room. rewrite Hm.
  destruct (Z.leb_spec max (Z.of_nat (size (cp_connections p)))).
  - destruct (evict_oldest _ _) as [lru conns] eqn:E.
    assert (Htr : ∀ k, is_Some (cp_connections p !! k) → k ∈ (cp_lru_tracker p).*1).
    { intros k Hk. destruct (Ht k Hk) as [?|[=]]; done. }
    destruct (evict_oldest_spec _ _ _ _ Htr E) as [[_ ->]|(old & Hold & -> & Hk)]; split; simpl; try done.
    + rewrite map_size_empty. lia.
    + intros k. rewrite lookup_empty. by intros [].
    + rewrite map_size_delete_Some by done. assert (size (cp_connections p) ≠ 0%nat); [|lia].
      destruct Hold as [x Hx]. apply map_size_ne_0_lookup. eauto.
    + intros k Hs'. left. by apply Hk.
  - split; simpl; [done|lia|]. intros k Hk. destruct (Ht k Hk) as [?|[=]]. by left.
Qed.

Lemma pool_step_inv max e s : 1 ≤ max → pool_inv max s → pool_inv max (pool_step e s).
Proof.
  intros Hmax Hinv. destruct s as [pc p]. destruct e as [id c| |now|id|]; simpl.
  - destruct pc; [by apply make_room_inv|done..].
  - destruct pc as [|id c|id]; try done. destruct Hinv as [Hm Hs Ht]. simpl in *. split; simpl; [done| |].
    + pose proof (map_size_insert id c (cp_connections p)) as Hsz. destruct (cp_connections p !! id); simpl in *; lia.
    + intros k [x Hk]. destruct (decide (k = id)) as [->|Hne]; [by right|].
      rewrite lookup_insert_ne in Hk by done. destruct (Ht k ltac:(by eexists)) as [?|[=]]. by left.
  - destruct pc as [|id c|id]; try done. destruct Hinv as [Hm Hs Ht]. split; simpl in *; [done|done|].
    intros k Hk. left. simpl. rewrite fmap_app, elem_of_app. destruct (Ht k Hk) as [?|[= ->]]; [by left|right; left].
  - destruct Hinv as [Hm Hs Ht]. simpl in *. split; simpl; [done| |].
    + assert (size (delete id (cp_connections p)) ≤ size (cp_connections p))%nat
        by (apply map_subseteq_size, delete_subseteq). destruct pc; lia.
    + intros k [x Hk]. rewrite lookup_delete_Some in Hk. destruct Hk as [_ Hk].
      destruct (Ht k ltac:(by eexists)) as [?|?]; [by left|by right].
  - destruct Hinv as [Hm Hs Ht]. simpl in *. split; simpl; [done|done|]. intros k Hk.
    destruct (Ht k Hk) as [Hin|?]; [left|by right]. simpl in *.
    apply list_elem_of_fmap in Hin as (e & -> & He). apply list_elem_of_fmap. exists e. split; [done|].
    by apply list_elem_of_filter.
Qed.

(** Whatever clients connect, disconnect and reconnect, and whenever the
    purge runs, also between the sections of an addition: the pool never holds
    more connections than its limit, every connection is tracked for eviction,
    and an accepted client is in the pool as soon as it was inserted. *)
Theorem connection_pool_bounded max es pc p :
  1 ≤ max → pool_run es (Accepting, pool_new max) = (pc, p) →
  Z.of_nat (pool_len p) ≤ max ∧
  (∀ id, is_Some (get_connection id p) → tracked (pc, p) id) ∧
  (∀ id c, pc = Roomy id c → get_connection id (pool_step EvInsert (pc, p)).2 = Some c ∧
                             Z.of_nat (pool_len (pool_step EvInsert (pc, p)).2) ≤ max).
Proof.
  intros Hmax E.
  assert (Hinv : pool_inv max (pc, p)).
  { rewrite <- E. clear E. assert (H0 : pool_inv max (Accepting, pool_new (C := C) max)).
    { split; simpl; [done|rewrite map_size_empty; lia|]. intros id. rewrite lookup_empty. by intros []. }
    revert H0. generalize (Accepting, pool_new (C := C) max). induction es as [|e es IH]; intros s Hs; [done|].
    simpl. apply IH. by apply pool_step_inv. }
  split_and!.
  - pose proof (pi_size _ _ Hinv) as Hs. unfold pool_len. simpl in Hs. destruct pc; lia.
  - apply (pi_tracked _ _ Hinv).
  - intros id c ->. pose proof (pool_step_inv max EvInsert _ Hmax Hinv) as Hi. simpl.
    unfold get_connection. simpl. rewrite lookup_insert_eq. split; [done|]. apply (pi_size _ _ Hi).
Qed.
End connections.

(** An addition without interruption *)
Lemma add_connection_steps {C} id (c : C) now p :
  pool_run [EvAccept id c; EvInsert; EvTrack now] (Accepting, p) = (Accepting, add_connection id c now p).
Proof. done. Qed.

(** ** Authenticated connections *)

(** Adding to a pool within its limit keeps it within the limit, and is
    refused only when the pool is full; a connection that was admitted is in
    the pool. *)
Lemma auth_add_bounded now id c p r p' :
  Z.of_nat (size (ap_connections p)) ≤ ap_max_connections p → 1 ≤ ap_max_connections p →
  auth_add_connection now id c p = (r, p') →
  Z.of_nat (size (ap_connections p')) ≤ ap_max_connections p' ∧
  match r with
  | Ok _ => auth_get_connection id p' = Some c
  | Err e => e = Network ∧ Z.of_nat (size (ap_connections p)) = ap_max_connections p ∧ ap_connections p' = ap_connections p
  end.
Proof.
  intros Hs Hmax. unfold auth_add_connection, check_limit.
  destruct (Z.leb_spec (ap_max_connections p) (Z.of_nat (size (ap_connections p)))) as [Hfull|Hroom].
  - assert (Hev : ∀ lru b lru' conns', evict_idle now (ap_max_idle_time p) lru (ap_connections p) = (b, lru', conns') →
      if b then (size conns' < size (ap_connections p))%nat else conns' = ap_connections p).
    { intros lru. induction lru as [|[old t] lru IH]; intros b lru' conns'; simpl; [by intros [= <- <- <-]|].
      destruct (ap_connections p !! old) as [x|] eqn:E; [|apply IH].
      destruct (_ <? _); intros [= <- <- <-]; [|done]. rewrite map_size_delete_Some by (by eexists).
      assert (size (ap_connections p) ≠ 0%nat); [|lia]. apply map_size_ne_0_lookup. eauto. }
    destruct (evict_idle _ _ _ _) as [[b lru] conns] eqn:E. specialize (Hev _ _ _ _ E). simpl.
    destruct b; simpl.
    + intros [= <- <-]. simpl. split; [|by rewrite <- (lookup_insert_eq conns id c)].
      pose proof (map_size_insert id c conns) as Hsz. destruct (conns !! id); simpl in *; lia.
    + subst conns. destruct (Z.leb_spec (ap_max_connections p) (Z.of_nat (size (ap_connections p)))); [|lia].
      intros [= <- <-]. simpl. split_and!; [lia|done|lia|done].
  - intros [= <- <-]. simpl. split; [|by rewrite <- (lookup_insert_eq (ap_connections p) id c)].
    pose proof (map_size_insert id c (ap_connections p)) as Hsz. destruct (ap_connections p !! id); simpl in *; lia.
Qed.

(** ** Concrete runs *)

Module NetworkDemo.
Lemma buffer_pool_sound_witness :
  let p := run_buffer_ops [OpReturn (replicate (Z.to_nat 9000) 0); OpGet 100; OpReturn (replicate (Z.to_nat 8192) 0)] (buffers_new 4096 2) in
  buffer_or_overflow 8192 4096 (get_aligned_buffer 8192 p).1.
Proof.
  intros p. refine (proj1 (buffer_pool_sound 4096 2 _ 8192 p _ _ _ _ eq_refl)).
  - lia.
  - lia.
  - repeat constructor; lia.
  - lia.
Defined.
(** Sizes above 64 KiB share the classes of small buffers. *)
Example large_buffers_share_small_class :
  let p := buffers_new 4096 2 in (size_class_index 70000 p, size_class_index 8192 p) = (1%nat, 1%nat).
Proof. reflexivity. Qed.

Definition two_clients : list (PoolEvent (C := nat)) :=
  [EvAccept "a" 1%nat; EvInsert; EvTrack 1; EvAccept "b" 2%nat; EvDisconnect "a"; EvInsert; EvPurge; EvTrack 2;
   EvAccept "c" 3%nat; EvInsert; EvTrack 3; EvAccept "d" 4%nat].
Lemma connection_pool_bounded_witness :
  let '(pc, p) := pool_run two_clients (Accepting, pool_new 2) in
  Z.of_nat (pool_len p) ≤ 2 ∧ get_connection "d" (pool_step EvInsert (pc, p)).2 = Some 4%nat.
Proof.
  destruct (pool_run two_clients (Accepting, pool_new 2)) as [pc p] eqn:E.
  destruct (connection_pool_bounded 2 two_clients pc p ltac:(lia) E) as (Hs & _ & Hadd). split; [exact Hs|].
  apply (Hadd "d" 4%nat). apply (f_equal fst) in E. simpl in E. rewrite <- E. reflexivity.
Defined.

(** A client that reconnects is evicted by the entry of its first connection,
    although it connected last. *)
Example reconnected_client_evicted_first :
  let p := add_connection "a" 3%nat 3 (remove_connection "a" (add_connection "b" 2%nat 2 (add_connection "a" 1%nat 1 (pool_new 2)))) in
  let p := add_connection "c" 4%nat 4 p in
  (get_connection "a" p, get_connection "b" p) = (None, Some 2%nat).
Proof. vm_compute. reflexivity. Qed.
(** The purge keeps one entry per past connection of a connected client. *)
Example purge_keeps_duplicates :
  let again p := add_connection "a" 1%nat 1 (remove_connection "a" p) in
  let p := purge_stale_lru_entries (Nat.iter 10 again (pool_new 5)) in
  (pool_len p, lru_tracker_len p) = (1%nat, 10%nat).
Proof. vm_compute. reflexivity. Qed.

(** A connection that is in use is evicted as idle: the tracker keeps the time
    of its creation. *)
Example active_connection_evicted :
  let c := mkAuthConn "alice" 0 in
  let p := update_activity 1000 "a" (auth_add_connection 0 "a" c (auth_pool_new 1 300)).2 in
  ((auth_add_connection 1001 "b" c p).1, auth_get_connection "a" (auth_add_connection 1001 "b" c p).2) = (Ok tt, None).
Proof. vm_compute. reflexivity. Qed.
(** Two additions that overlap exceed the limit. *)
Example concurrent_admission_exceeds :
  let c := mkAuthConn "alice" 0 in
  let p := auth_pool_new 1 300 in
  let '(r1, p) := check_limit 0 p in
  let '(r2, p) := check_limit 0 p in
  (r1, r2, size (ap_connections (insert_auth 0 "b" c (insert_auth 0 "a" c p)))) = (Ok tt, Ok tt, 2%nat).
Proof. vm_compute. reflexivity. Qed.
End NetworkDemo.
