(* ===== verification/Gateway.v ===== *)
(** * Requests: from a stream to the broker core

    Model of the request path of a broker: the router and the stream handlers of
    the two servers in [src/src/network/quic_server.rs], and the handlers of
    [src/src/broker/broker.rs] that bridge them to the broker core and the
    group coordinator.  The handlers are an interface for the router.  A stream
    is the bytes the client sent and the number of bytes the first read
    delivers; what is written back is the answer.  A handler runs as one step;
    the interleavings inside a produce are those of the broker core. *)

From Stdlib Require Import Ascii.
From S2P Require Import Prelude Types PartitionIndex ColdIndex SegmentedWal LruCache ObjectStorage.
From S2P Require Import Reservation PartitionStore ConsumerGroup BrokerCore Controller Authorization Network.
Local Open Scope Z_scope.

(** ** Requests and responses *)

Record ProduceRequest := mkProduceRequest {
  pq_topic : TopicName;
  pq_partition_id : PartitionId;
  pq_records : list Record_;
  pq_acks : AcknowledgmentLevel;
  pq_timeout_ms : Z;
}.
Record ProduceResponse := mkProduceResponse {
  pz_offset : Offset;
  pz_error_code : Z;
  pz_error_message : option string;
}.
Record FetchRequest := mkFetchRequest {
  fq_topic : TopicName;
  fq_partition_id : PartitionId;
  fq_fetch_offset : Offset;
  fq_max_bytes : Z;
  fq_timeout_ms : Z;
}.
Record FetchResponse := mkFetchResponse {
  fz_records : list Record_;
  fz_high_watermark : Offset;
  fz_error_code : Z;
  fz_error_message : option string;
}.
Record MetadataRequest := mkMetadataRequest { mq_topics : list string }.
(** [PartitionMetadata] and [TopicMetadata] of the server *)
Record RoutedPartition := mkRoutedPartition {
  rp_partition_id : Z;
  rp_leader : option BrokerId;
  rp_replicas : list BrokerId;
}.
Record TopicMetadata := mkTopicMetadata { tm_name : string; tm_partitions : list RoutedPartition }.
Record MetadataResponse := mkMetadataResponse {
  mz_brokers : list BrokerInfo;
  mz_topics_metadata : list TopicMetadata;
}.
Record FindCoordinatorRequest := mkFindCoordinator { fc_group_id : string }.
Record FindCoordinatorResponse := mkCoordinator {
  fp_coordinator_broker_id : BrokerId;
  fp_coordinator_host : string;
  fp_coordinator_port : Z;
  fp_error_code : Z;
}.
Record ConsumerHeartbeatResponse := mkHeartbeatCode { chp_error_code : Z }.
Record CommitOffsetResponse := mkCommitCode { cop_error_code : Z }.
Record FetchOffsetRequest := mkFetchOffset { fo_group_id : string; fo_topic_partitions : list TopicPartition }.
Record FetchOffsetResponse := mkFetchedOffsets { fop_offsets : gmap TopicPartition Offset; fop_error_code : Z }.
Record LeaveGroupRequest := mkLeave { lg_group_id : string; lg_member_id : string }.
Record LeaveGroupResponse := mkLeaveCode { lgp_error_code : Z }.

(** The traits [ProduceHandler], [FetchHandler], [MetadataHandler] and
    [ConsumerGroupHandler] over a broker [B]. *)
Class RequestHandlers (B : Type) := {
  rh_produce : ProduceRequest → B → Result ProduceResponse * B;
  rh_fetch : FetchRequest → B → Result FetchResponse * B;
  rh_metadata : MetadataRequest → B → Result MetadataResponse * B;
  rh_find_coordinator : FindCoordinatorRequest → B → Result FindCoordinatorResponse * B;
  rh_join_group : JoinGroupRequest → B → Result JoinGroupResponse * B;
  rh_heartbeat : ConsumerHeartbeatRequest → B → Result ConsumerHeartbeatResponse * B;
  rh_commit_offset : CommitOffsetRequest → B → Result CommitOffsetResponse * B;
  rh_fetch_offset : FetchOffsetRequest → B → Result FetchOffsetResponse * B;
  rh_leave_group : LeaveGroupRequest → B → Result LeaveGroupResponse * B;
}.
#[global] Hint Mode RequestHandlers ! : typeclass_instances.

(** bincode on the types of the protocol *)
Class RequestCodecs := {
  rc_pq :: Bincode ProduceRequest; rc_pz :: Bincode ProduceResponse;
  rc_fq :: Bincode FetchRequest; rc_fz :: Bincode FetchResponse;
  rc_mq :: Bincode MetadataRequest; rc_mz :: Bincode MetadataResponse;
  rc_fc :: Bincode FindCoordinatorRequest; rc_fp :: Bincode FindCoordinatorResponse;
  rc_jr :: Bincode JoinGroupRequest; rc_jp :: Bincode JoinGroupResponse;
  rc_ch :: Bincode ConsumerHeartbeatRequest; rc_chp :: Bincode ConsumerHeartbeatResponse;
  rc_co :: Bincode CommitOffsetRequest; rc_cop :: Bincode CommitOffsetResponse;
  rc_fo :: Bincode FetchOffsetRequest; rc_fop :: Bincode FetchOffsetResponse;
  rc_lg :: Bincode LeaveGroupRequest; rc_lgp :: Bincode LeaveGroupResponse;
}.

(** ** The router and the streams *)

Section router.
Context {B : Type} `{!RequestHandlers B} `{!RequestCodecs}.
(** [Display] of an error, whose text the model does not keep *)
Context (display_error : RustMqError → string).
Local Open Scope rust_scope.

Definition route {Req Resp} `{!Bincode Req, !Bincode Resp} (handle : Req → B → Result Resp * B) (data : bytes) (b : B)
  : Result bytes * B :=
  match deserialize data with
  | None => (Err Serialization, b)
  | Some request => let! (response, b) := handle request b in (Ok (serialize response), b)
  end.
Definition route_request (request_type : RequestType) (data : bytes) (b : B) : Result bytes * B :=
  match request_type with
  | Produce => route rh_produce data b
  | Fetch => route rh_fetch data b
  | Metadata => route rh_metadata data b
  | FindCoordinator => route rh_find_coordinator data b
  | JoinGroup => route rh_join_group data b
  | ConsumerHeartbeat => route rh_heartbeat data b
  | CommitOffset => route rh_commit_offset data b
  | FetchOffset => route rh_fetch_offset data b
  | LeaveGroup => route rh_leave_group data b
  end.

Definition error_response (e : RustMqError) : bytes := 255 :: str_bytes ("Error: " +:+ display_error e).
(** What is written for a request that is processed *)
Definition respond (request_type : RequestType) (data : bytes) (b : B) : bytes * B :=
  match route_request request_type data b with
  | (Ok response, b) => (request_type_code request_type :: response, b)
  | (Err e, b) => (error_response e, b)
  end.

Record QuicServer := mkServer { sv_buffers : AlignedBufferPool; sv_broker : B }.

(** The task of one stream: a buffer of the pool, one read, and [process] on the
    type and the data read.  An unknown type ends the task without an answer and
    without returning the buffer. *)
Definition stream_task (process : RequestType → bytes → B → bytes * B) (n : nat) (incoming : bytes) (s : QuicServer)
  : option bytes * QuicServer :=
  match get_aligned_buffer 8192 (sv_buffers s) with
  | (Err _, pool) => (None, mkServer pool (sv_broker s))
  | (Ok buffer, pool) =>
      let size := (n `min` (length buffer `min` length incoming))%nat in
      let buf := take size incoming ++ drop size buffer in
      match size, buf with
      | S size, t :: rest =>
          match request_type_try_from t with
          | Err _ => (None, mkServer pool (sv_broker s))
          | Ok request_type =>
              let '(answer, b) := process request_type (take size rest) (sv_broker s) in
              (Some answer, mkServer (return_buffer buf pool) b)
          end
      | _, _ => (None, mkServer (return_buffer buf pool) (sv_broker s))
      end
  end.
Definition handle_stream : nat → bytes → QuicServer → option bytes * QuicServer := stream_task respond.

(** *** The secure server *)

Definition extract_resource_from_request (request_type : RequestType) (data : bytes) : string :=
  match request_type with
  | Produce => match deserialize (A := ProduceRequest) data with Some r => "topic:" +:+ pq_topic r | None => "topic:unknown" end
  | Fetch => match deserialize (A := FetchRequest) data with Some r => "topic:" +:+ fq_topic r | None => "topic:unknown" end
  | Metadata => "cluster:metadata"
  | FindCoordinator =>
      match deserialize (A := FindCoordinatorRequest) data with
      | Some r => "consumer_group:" +:+ fc_group_id r | None => "cluster:consumer_group"
      end
  | JoinGroup =>
      match deserialize (A := JoinGroupRequest) data with
      | Some r => "consumer_group:" +:+ jr_group_id r | None => "cluster:consumer_group"
      end
  | ConsumerHeartbeat =>
      match deserialize (A := ConsumerHeartbeatRequest) data with
      | Some r => "consumer_group:" +:+ ch_group_id r | None => "cluster:consumer_group"
      end
  | CommitOffset =>
      match deserialize (A := CommitOffsetRequest) data with
      | Some r => "consumer_group:" +:+ co_group_id r | None => "cluster:consumer_group"
      end
  | FetchOffset =>
      match deserialize (A := FetchOffsetRequest) data with
      | Some r => "consumer_group:" +:+ fo_group_id r | None => "cluster:consumer_group"
      end
  | LeaveGroup =>
      match deserialize (A := LeaveGroupRequest) data with
      | Some r => "consumer_group:" +:+ lg_group_id r | None => "cluster:consumer_group"
      end
  end.
Definition get_required_permission (request_type : RequestType) : Permission :=
  match request_type with
  | Produce => Write
  | Fetch | Metadata => Read
  | FindCoordinator | ConsumerHeartbeat | FetchOffset => Read
  | CommitOffset | JoinGroup | LeaveGroup => Write
  end.
(** [{:?}] of a permission *)
Definition debug_permission (p : Permission) : string :=
  match p with Read => "Read" | Write => "Write" | Admin => "Admin" end.

(** [authorize] is what [authorize_request] answers for the connection's
    principal. *)
Definition respond_authorized (principal : string) (authorize : string → Permission → Result bool)
    (request_type : RequestType) (data : bytes) (b : B) : bytes * B :=
  let resource := extract_resource_from_request request_type data in
  let permission := get_required_permission request_type in
  match authorize resource permission with
  | Ok true => respond request_type data b
  | Ok false => (error_response (AuthorizationDenied principal (debug_permission permission) resource), b)
  | Err e => (error_response e, b)
  end.
Definition handle_authenticated_stream (principal : string) (authorize : string → Permission → Result bool)
  : nat → bytes → QuicServer → option bytes * QuicServer := stream_task (respond_authorized principal authorize).
End router.
Arguments QuicServer : clear implicits.
Arguments mkServer {B}. Arguments sv_buffers {B}. Arguments sv_broker {B}.

(** ** The handlers of the broker *)

Record HandlerConfig := mkHandlerConfig {
  hc_broker_id : BrokerId;
  hc_rack_id : string;
  hc_quic_listen : string;
  hc_rpc_listen : string;
}.
Record CoordinatorInfo := mkCoordinatorInfo {
  ci_broker_id : BrokerId;
  ci_host : string;
  ci_port : Z;
}.
(** The broker core with the group coordinator it owns, which shares its
    store. *)
Record BrokerHandler (S M : Type) := mkHandler {
  bh_config : HandlerConfig;
  bh_broker_core : option (MessageBrokerCore S M * GroupCoordinatorManager S);
  bh_coordinator_cache : gmap Z CoordinatorInfo;
}.
Arguments mkHandler {S M}. Arguments bh_config {S M}. Arguments bh_broker_core {S M}. Arguments bh_coordinator_cache {S M}.

(** [listen.split(':').next()] and the port after the last colon *)
Definition listen_host (listen : string) : string := default "localhost" (head (split_on ":"%char listen)).
Definition listen_port (listen : string) (fallback : Z) : Z :=
  default fallback (s ← last (split_on ":"%char listen); parse_uint 65536 s).

Section handler.
Context {W U C R M : Type} `{!SegmentedLog W, !UploadManager U, !Cache C, !ObjectStorage R}.
Context `{!Bincode (list WalRecord)}.
Abbreviation PS := (PartitionStore W U C R).
Context `{!Replicator M PS} (sizeof_WalRecord : Z).
Context `{!RecordLog PS, !Bincode Z, !Bincode bytes} (hash : string → Z) (crc32 : bytes → Z).
(** Iteration orders, generated member ids, and the clock *)
Context (order_topics order_members : list string → list string) (fresh_id : string) (clock : nat → Z).
Context (during1 during2 : PS → PS).
Abbreviation Handler := (BrokerHandler PS M).
Local Open Scope rust_scope.

Definition handler_new (config : HandlerConfig) : Handler := mkHandler config None ∅.
Definition set_broker_core core (h : Handler) : Handler := mkHandler (bh_config h) (Some core) (bh_coordinator_cache h).
(** Run [f] on the core, or fail as [get_broker_core] does. *)
Definition on_core {A} (f : MessageBrokerCore PS M → Result A * MessageBrokerCore PS M) (h : Handler) : Result A * Handler :=
  match bh_broker_core h with
  | None => (Err Config, h)
  | Some (core, groups) => let '(r, core) := f core in (r, set_broker_core (core, groups) h)
  end.
(** Run [f] on the coordinator, whose log is the core's store. *)
Definition on_groups {A} (f : GroupCoordinatorManager PS → Result A * GroupCoordinatorManager PS) (h : Handler)
  : Result A * Handler :=
  match bh_broker_core h with
  | None => (Err Config, h)
  | Some (core, groups) =>
      let shared := mkGCM (gm_groups groups) (bc_store core) (gm_offsets_partition_count groups)
                      (gm_topic_partitions groups) (gm_rebalance_count groups) (gm_commit_count groups) in
      let '(r, groups) := f shared in (r, set_broker_core (with_store (gm_record_log groups) core, groups) h)
  end.

(** The loop of [handle_produce], one [send] per record; the [i]-th record is
    sent at time [clock i]. *)
Fixpoint produce_each (i : nat) (request : ProduceRequest) (records : list Record_) (c : MessageBrokerCore PS M)
  : Result (list ProduceResult) * MessageBrokerCore PS M :=
  match records with
  | [] => (Ok [], c)
  | r :: records =>
      let produce_record := mkProduce (pq_topic request) (Some (pq_partition_id request)) (r_key r) (r_value r)
                              (r_headers r) (pq_acks request) in
      let! (result, c) := send sizeof_WalRecord (clock i) produce_record c in
      let! (results, c) := produce_each (S i) request records c in
      (Ok (result :: results), c)
  end.
Definition handle_produce (request : ProduceRequest) (h : Handler) : Result ProduceResponse * Handler :=
  on_core (λ c, let! (results, c) := produce_each 0 request (pq_records request) c in
                (Ok (mkProduceResponse (default 0 (pp_offset <$> head results)) 0 None), c)) h.

Definition handle_fetch (request : FetchRequest) (h : Handler) : Result FetchResponse * Handler :=
  on_core (λ c,
    let tp := mkTP (fq_topic request) (fq_partition_id request) in
    match fetch_records sizeof_WalRecord during1 during2 tp (fq_fetch_offset request) (fq_max_bytes request) c with
    | (Ok records, c) => (Ok (mkFetchResponse records (default 0 (pm_high_watermark <$> bc_partitions c !! tp)) 0 None), c)
    | (Err _, c) => (Ok (mkFetchResponse [] 0 1 (Some "Failed to fetch records")), c)
    end) h.

Definition handle_metadata (_request : MetadataRequest) (h : Handler) : Result MetadataResponse * Handler :=
  let config := bh_config h in
  let host := listen_host (hc_quic_listen config) in
  let host := if decide (host = "0.0.0.0") then "127.0.0.1" else host in
  (Ok (mkMetadataResponse
         [mkBroker (hc_broker_id config) host (listen_port (hc_quic_listen config) 9092)
            (listen_port (hc_rpc_listen config) 9093) (hc_rack_id config)] []), h).

Definition handle_find_coordinator (request : FindCoordinatorRequest) (h : Handler)
  : Result FindCoordinatorResponse * Handler :=
  match bh_broker_core h with
  | None => (Err Config, h)
  | Some (_, groups) =>
      if gm_offsets_partition_count groups =? 0 then (Err Panic, h) else
      match bh_coordinator_cache h !! partition_for hash (fc_group_id request) groups with
      | Some info => (Ok (mkCoordinator (ci_broker_id info) (ci_host info) (ci_port info) 0), h)
      | None =>
          (Ok (mkCoordinator (hc_broker_id (bh_config h)) (listen_host (hc_quic_listen (bh_config h)))
                 (listen_port (hc_quic_listen (bh_config h)) 9092) 0), h)
      end
  end.
Definition handler_join_group (request : JoinGroupRequest) : Handler → Result JoinGroupResponse * Handler :=
  on_groups (λ m, let '(r, m) := handle_join_group order_topics order_members fresh_id (clock 0) request m in (Ok r, m)).
Definition handler_heartbeat (request : ConsumerHeartbeatRequest) : Handler → Result ConsumerHeartbeatResponse * Handler :=
  on_groups (λ m, let '(r, m) := handle_heartbeat (clock 0) request m in (Ok (mkHeartbeatCode r), m)).
Definition handler_commit_offset (request : CommitOffsetRequest) : Handler → Result CommitOffsetResponse * Handler :=
  on_groups (λ m, let! (r, m) := handle_commit_offset hash crc32 (clock 0) request m in (Ok (mkCommitCode r), m)).
Definition handler_fetch_offset (request : FetchOffsetRequest) : Handler → Result FetchOffsetResponse * Handler :=
  on_groups (λ m, let '(offsets, code) := handle_fetch_offset (fo_group_id request) (fo_topic_partitions request) m in
                  (Ok (mkFetchedOffsets offsets code), m)).
Definition handler_leave_group (request : LeaveGroupRequest) : Handler → Result LeaveGroupResponse * Handler :=
  on_groups (λ m, let '(r, m) := handle_leave_group (lg_group_id request) (lg_member_id request) m in (Ok (mkLeaveCode r), m)).

Definition broker_handlers : RequestHandlers Handler := {|
  rh_produce := handle_produce;
  rh_fetch := handle_fetch;
  rh_metadata := handle_metadata;
  rh_find_coordinator := handle_find_coordinator;
  rh_join_group := handler_join_group;
  rh_heartbeat := handler_heartbeat;
  rh_commit_offset := handler_commit_offset;
  rh_fetch_offset := handler_fetch_offset;
  rh_leave_group := handler_leave_group;
|}.
End handler.

(** ** What a stream can do *)

Section streams.
Context {B : Type}.
Implicit Types (s : QuicServer B).

(** Either nothing happens to the broker and nothing is answered, or the answer
    and the broker are what [process] makes of one request. *)
Lemma stream_task_cases process n incoming s answer s' :
  stream_task process n incoming s = (answer, s') →
  (answer = None ∧ sv_broker s' = sv_broker s) ∨
  ∃ request_type data out, answer = Some out ∧ process request_type data (sv_broker s) = (out, sv_broker s').
Proof.
  unfold stream_task. destruct (get_aligned_buffer _ _) as [[buffer|e] pool]; [|intros [= <- <-]; by left].
  destruct (n `min` _)%nat as [|size]; [intros [= <- <-]; by left|].
  destruct (take (S size) incoming ++ _) as [|t rest]; [intros [= <- <-]; by left|].
  destruct (request_type_try_from t) as [rt|e]; [|intros [= <- <-]; by left].
  destruct (process rt _ _) as [out b] eqn:E. intros [= <- <-]. right. by exists rt, (take size rest), out.
Qed.

(** A frame that arrives whole is processed as it was sent. *)
Lemma stream_task_whole process n request_type data s max :
  buffers_inv max (sv_buffers s) → Z.of_nat (length data) < 8192 → (length data < n)%nat →
  ∃ pool, stream_task process n (request_type_code request_type :: data) s =
    (Some (process request_type data (sv_broker s)).1, mkServer pool (process request_type data (sv_broker s)).2).
Proof.
  intros Hinv Hl Hn. unfold stream_task.
  destruct (get_buffer_small max 8192 (sv_buffers s) ltac:(lia) Hinv) as (buffer & Eb & Hlen).
  destruct (get_aligned_buffer 8192 (sv_buffers s)) as [r pool]. simpl in Eb. subst r.
  replace (n `min` (length buffer `min` length (request_type_code request_type :: data)))%nat with (S (length data)) by (simpl; lia).
  cbn [take app]. rewrite firstn_all.
  assert (Hrt : request_type_try_from (request_type_code request_type) = Ok request_type) by by destruct request_type.
  rewrite Hrt, take_app_length. destruct (process request_type data (sv_broker s)) as [out b]. by eexists.
Qed.

(** Requests are read once, into a buffer of 8192 bytes: of a longer one the
    rest is never seen. *)
Lemma stream_cuts_requests process n incoming s max :
  buffers_inv max (sv_buffers s) →
  stream_task process n incoming s = stream_task process n (take (Z.to_nat 8192) incoming) s.
Proof.
  intros Hinv. unfold stream_task.
  destruct (get_buffer_small max 8192 (sv_buffers s) ltac:(lia) Hinv) as (buffer & Eb & Hlen).
  destruct (get_aligned_buffer 8192 (sv_buffers s)) as [r pool]. simpl in Eb. subst r.
  rewrite length_take. assert (length buffer = Z.to_nat 8192) as Hb by lia. rewrite Hb.
  replace (Z.to_nat 8192 `min` (Z.to_nat 8192 `min` length incoming))%nat with (Z.to_nat 8192 `min` length incoming)%nat by lia.
  set (size := (n `min` _)%nat). rewrite take_take. by replace (size `min` Z.to_nat 8192)%nat with size by lia.
Qed.
End streams.

(** ** Nothing changes without permission *)

Section isolation.
Context {W U C R M : Type} `{!SegmentedLog W, !UploadManager U, !Cache C, !ObjectStorage R}.
Context `{!Bincode (list WalRecord)}.
Abbreviation PS := (PartitionStore W U C R).
Context `{!Replicator M PS} (sizeof_WalRecord : Z).
Context `{!Bincode Z, !Bincode bytes} (hash : string → Z) (crc32 : bytes → Z).
Context (order_topics order_members : list string → list string) (fresh_id : string) (clock : nat → Z).
Context `{!RequestCodecs} (display_error : RustMqError → string).
Abbreviation Handler := (BrokerHandler PS M).
Implicit Types (c : MessageBrokerCore PS M) (tp : TopicPartition) (h : Handler).

(** Replicating a record touches no other partition of the shared store. *)
Context (replicate_frame : ∀ r (m : M) (st : PS) res m' st' tp,
  replicate r m st = (res, m', st') → tp ≠ wr_tp r → entries_of (ps_index st') tp = entries_of (ps_index st) tp).

Local Instance log_of_store : RecordLog PS := store_record_log sizeof_WalRecord.
Local Instance handlers : RequestHandlers Handler :=
  broker_handlers sizeof_WalRecord hash crc32 order_topics order_members fresh_id clock id id.

Lemma remove_hot_frame tp o idx tp' : tp' ≠ tp → entries_of (remove_hot tp o idx) tp' = entries_of idx tp'.
Proof.
  intros Hne. unfold remove_hot. destruct (pi_inner idx !! tp) as [e|]; [|done]. destruct (pe_hot e !! o); [|done].
  change (entries_of (fetch_sub _ ?i) tp') with (entries_of i tp'). rewrite entries_of_set. by rewrite decide_False.
Qed.
Lemma append_frame (st : PS) r res st' tp :
  append sizeof_WalRecord r st = (res, st') → tp ≠ wr_tp r → entries_of (ps_index st') tp = entries_of (ps_index st) tp.
Proof.
  unfold append. destruct (await_capacity _ st); [|by intros [= <- <-]].
  destruct (sl_append r _) as [[loc|e] w]; intros [= <- <-] Hne; simpl; rewrite ?remove_hot_frame by done;
    rewrite entries_of_insert_hot; by rewrite decide_False.
Qed.

(** What the broker holds for a partition: both tiers and the metadata *)
Definition contents tp c : PartitionEntries * option PartitionMetadata :=
  (entries_of (ps_index (bc_store c)) tp, bc_partitions c !! tp).

Lemma append_each_frame ws c res c' tp :
  append_each sizeof_WalRecord ws c = (res, c') → (∀ w, w ∈ ws → wr_tp w ≠ tp) → contents tp c' = contents tp c.
Proof.
  revert c. induction ws as [|w ws IH]; intros c; simpl; [by intros [= <- <-]|].
  destruct (append sizeof_WalRecord w (bc_store c)) as [[loc|e] st] eqn:E; simpl.
  - intros E' Hw. rewrite (IH _ E'); [|intros y Hy; apply Hw; by right]. unfold contents. simpl.
    by rewrite (append_frame _ _ _ _ tp E) by (intros ->; by apply (Hw w); [left|]).
  - intros [= <- <-] Hw. unfold contents. simpl. by rewrite (append_frame _ _ _ _ tp E) by (intros ->; by apply (Hw w); [left|]).
Qed.
Lemma replicate_each_frame ws c res c' tp :
  replicate_each ws c = (res, c') → (∀ w, w ∈ ws → wr_tp w ≠ tp) → contents tp c' = contents tp c.
Proof using replicate_frame.
  revert c. induction ws as [|w ws IH]; intros c; simpl; [by intros [= <- <-]|].
  destruct (replicate w _ (bc_store c)) as [[[x|e] m] st] eqn:E; simpl.
  - intros E' Hw. rewrite (IH _ E'); [|intros y Hy; apply Hw; by right]. unfold contents. simpl.
    by rewrite (replicate_frame _ _ _ _ _ _ tp E) by (intros ->; by apply (Hw w); [left|]).
  - intros [= <- <-] Hw. unfold contents. simpl.
    by rewrite (replicate_frame _ _ _ _ _ _ tp E) by (intros ->; by apply (Hw w); [left|]).
Qed.
Lemma frame_records_tp tp b i rs w : w ∈ frame_records tp b i rs → wr_tp w = tp.
Proof.
  revert i. induction rs as [|r rs IH]; intros i; simpl; [by intros ?%elem_of_nil|].
  rewrite elem_of_cons. intros [->|Hw]; [done|by eapply IH].
Qed.

Lemma append_records_frame tp' records acks c res c' tp :
  append_records sizeof_WalRecord tp' records acks c = (res, c') → tp ≠ tp' → contents tp c' = contents tp c.
Proof using replicate_frame.
  intros E Hne. unfold append_records in E. destruct (begin_append tp' c) as [b|e]; [|by injection E as <- <-].
  unfold finish_append in E.
  assert (Hw : ∀ w, w ∈ frame_records tp' b 0 records → wr_tp w ≠ tp) by (intros w Hin Hw; rewrite (frame_records_tp _ _ _ _ _ Hin) in Hw; congruence).
  destruct (append_each _ _ c) as [[u|e] c1] eqn:E1; cbn [sbind] in E;
    [|injection E as <- <-; by apply (append_each_frame _ _ _ _ tp E1)].
  rewrite <- (append_each_frame _ _ _ _ tp E1 Hw).
  match type of E with sbind ?p _ = _ => set (q := p) in E end.
  assert (H2 : contents tp q.2 = contents tp c1).
  { unfold q. destruct acks; try done; destruct (replicate_each _ _) eqn:E2; by apply (replicate_each_frame _ _ _ _ tp E2). }
  destruct q as [[u2|e] c2]; cbn [sbind snd] in E, H2.
  - injection E as <- <-. rewrite <- H2. unfold contents. simpl.
    destruct (bc_partitions c2 !! tp'); [|done]. by rewrite lookup_insert_ne.
  - injection E as <- <-. done.
Qed.

Lemma produce_each_frame i request records c res c' tp :
  produce_each sizeof_WalRecord clock i request records c = (res, c') →
  tp ≠ mkTP (pq_topic request) (pq_partition_id request) → contents tp c' = contents tp c.
Proof using replicate_frame.
  intros E Hne. revert i c res E. induction records as [|r records IH]; intros i c res; simpl; [by intros [= <- <-]|].
  destruct (send _ _ _ c) as [[x|e] c1] eqn:Es; cbn [sbind]; unfold send in Es.
  - destruct (append_records _ _ _ _ c) as [[offsets|e] c2] eqn:Ea; cbn [sbind] in Es; [|done].
    assert (c1 = c2) as -> by (destruct offsets; congruence).
    rewrite <- (append_records_frame _ _ _ _ _ _ tp Ea Hne).
    destruct (produce_each _ _ _ _ _ c2) as [[xs|e] c3] eqn:Er; cbn [sbind]; intros [= <- <-]; by eapply IH.
  - intros [= <- <-]. destruct (append_records _ _ _ _ c) as [[offsets|e'] c2] eqn:Ea; cbn [sbind] in Es;
      [destruct offsets; [|done]|]; injection Es as _ <-; by apply (append_records_frame _ _ _ _ _ _ tp Ea).
Qed.

Lemma read_cold_index tp o mb k (st : PS) : ps_index (read_cold sizeof_WalRecord tp o mb k st).2 = ps_index st.
Proof.
  unfold read_cold. destruct (cache_get _ _) as [[x|e] c1]; cbn [sbind]; [|done].
  destruct (x ≫= deserialize); [done|]. destruct (um_download _ _) as [[seg|e] u]; cbn [sbind]; [|done].
  destruct (ok_or _ _); cbn [sbind]; [|done]. by destruct (cache_put _ _ _).
Qed.
Lemma fetch_frame tp' o mb c tp : contents tp (fetch_records sizeof_WalRecord id id tp' o mb c).2 = contents tp c.
Proof.
  unfold fetch_records. assert (Hi : ps_index (read sizeof_WalRecord id id tp' o mb (bc_store c)).2 = ps_index (bc_store c)).
  { unfold read. destruct (read_plan _ _ _ _) as [rs|k s e|]; [done| |done].
    pose proof (read_cold_index tp' o mb k (id (bc_store c))) as H1.
    destruct (read_cold _ _ _ _ _ _) as [[rs|e1] st1]; [exact H1|]. simpl in H1. case_decide; [|exact H1].
    destruct (cache_remove _ _) as [? c1]. destruct (read_plan _ _ _ _) as [rs|k2 s2 e2|]; [exact H1| |exact H1].
    by rewrite read_cold_index. }
  destruct (read _ _ _ _ _ _ _) as [[rs|e] st]; cbn [sbind]; unfold contents; simpl in *; by rewrite Hi.
Qed.

(** The coordinator writes only to its own topic. *)
Lemma commit_all_frame now partition g offsets committed (st : PS) tp :
  tp ≠ mkTP "__consumer_offsets" partition →
  entries_of (ps_index (commit_all crc32 now partition g offsets committed st).2) tp = entries_of (ps_index st) tp.
Proof.
  intros Hne. revert committed st. induction offsets as [|[tp0 o] offsets IH]; intros committed st; [done|].
  cbn [commit_all]. unfold rl_append, log_of_store, store_record_log, store_append.
  destruct (append _ _ st) as [[loc|e] st1] eqn:E; [rewrite IH; by apply (append_frame _ _ _ _ tp E)|].
  by apply (append_frame _ _ _ _ tp E).
Qed.

(** What the handler holds for a partition, and for a group, as seen through
    [view]; [membership] is everything but the times of heartbeats. *)
Definition handler_contents tp h := (λ cg, contents tp cg.1) <$> bh_broker_core h.
Definition timeless (m : MemberState) : MemberState :=
  mkMember (ms_member_id m) (ms_subscribed_topics m) None (ms_session_timeout_ms m).
Definition membership (g : ConsumerGroupState) : ConsumerGroupState :=
  mkGroup (gs_group_id g) (gs_generation_id g) (timeless <$> gs_members g) (gs_state g) (gs_assignment g)
    (gs_committed_offsets g).
Definition handler_group {A} (view : ConsumerGroupState → A) (id : string) h :=
  (λ cg : MessageBrokerCore PS M * GroupCoordinatorManager PS, view <$> gm_groups cg.2 !! id) <$> bh_broker_core h.

Lemma on_groups_contents {A} (f : GroupCoordinatorManager PS → Result A * GroupCoordinatorManager PS) h tp :
  (∀ m, entries_of (ps_index (gm_record_log (f m).2)) tp = entries_of (ps_index (gm_record_log m)) tp) →
  handler_contents tp (on_groups f h).2 = handler_contents tp h.
Proof.
  intros Hf. unfold handler_contents, on_groups. destruct (bh_broker_core h) as [[core groups]|] eqn:E; [|simpl; by rewrite E].
  set (shared := mkGCM _ _ _ _ _ _). specialize (Hf shared). destruct (f shared) as [r m]. simpl in *.
  unfold contents. simpl. by rewrite Hf.
Qed.
Lemma on_groups_group {A B} (view : ConsumerGroupState → B)
    (f : GroupCoordinatorManager PS → Result A * GroupCoordinatorManager PS) h gid :
  (∀ m, view <$> gm_groups (f m).2 !! gid = view <$> gm_groups m !! gid) →
  handler_group view gid (on_groups f h).2 = handler_group view gid h.
Proof.
  intros Hf. unfold handler_group, on_groups. destruct (bh_broker_core h) as [[core groups]|] eqn:E; [|simpl; by rewrite E].
  set (shared := mkGCM _ _ _ _ _ _). specialize (Hf shared). destruct (f shared) as [r m]. simpl in *. by rewrite Hf.
Qed.
Lemma on_core_group {A B} (view : ConsumerGroupState → B)
    (f : MessageBrokerCore PS M → Result A * MessageBrokerCore PS M) h gid :
  handler_group view gid (on_core f h).2 = handler_group view gid h.
Proof.
  unfold handler_group, on_core. destruct (bh_broker_core h) as [[core groups]|] eqn:E; [|simpl; by rewrite E]. by destruct (f core).
Qed.
Lemma on_core_contents {A} (f : MessageBrokerCore PS M → Result A * MessageBrokerCore PS M) h tp :
  (∀ c, contents tp (f c).2 = contents tp c) → handler_contents tp (on_core f h).2 = handler_contents tp h.
Proof.
  intros Hf. unfold handler_contents, on_core. destruct (bh_broker_core h) as [[core groups]|] eqn:E; [|simpl; by rewrite E].
  specialize (Hf core). destruct (f core) as [r c]. simpl in *. by rewrite Hf.
Qed.

(** *** Each handler *)

Lemma join_frame now request m :
  gm_record_log (handle_join_group order_topics order_members fresh_id now request m).2 = gm_record_log (L := PS) m ∧
  ∀ g, g ≠ jr_group_id request →
    gm_groups (handle_join_group order_topics order_members fresh_id now request m).2 !! g = gm_groups m !! g.
Proof.
  unfold handle_join_group. cbn [snd]. split; [by destruct (_ || _)|]. intros g Hg. simpl.
  rewrite lookup_insert_ne by done. by destruct (_ || _).
Qed.
Lemma heartbeat_frame now request m :
  gm_record_log (handle_heartbeat now request m).2 = gm_record_log (L := PS) m ∧
  (∀ g, g ≠ ch_group_id request → gm_groups (handle_heartbeat now request m).2 !! g = gm_groups m !! g) ∧
  ∀ g, membership <$> gm_groups (handle_heartbeat now request m).2 !! g = membership <$> gm_groups m !! g.
Proof.
  unfold handle_heartbeat. destruct (gm_groups m !! ch_group_id request) as [gr|] eqn:E; [|done].
  case_decide; [done|]. destruct (negb _); [done|].
  destruct (gs_members gr !! ch_member_id request) as [member|] eqn:Em; [|done]. split; [done|].
  split; [intros g Hne; simpl; by rewrite lookup_insert_ne|]. intros g. simpl.
  destruct (decide (g = ch_group_id request)) as [->|Hne]; [|by rewrite lookup_insert_ne].
  rewrite lookup_insert_eq, E. simpl. unfold membership, with_members. simpl. do 2 f_equal.
  rewrite fmap_insert, insert_id; [done|]. by rewrite lookup_fmap, Em.
Qed.
Lemma leave_frame gid member m :
  gm_record_log (handle_leave_group gid member m).2 = gm_record_log (L := PS) m ∧
  ∀ g, g ≠ gid → gm_groups (handle_leave_group gid member m).2 !! g = gm_groups m !! g.
Proof.
  unfold handle_leave_group. destruct (gm_groups m !! gid) as [gr|]; [|done].
  destruct (after_removal _ _) as [gr' []]; simpl; (split; [done|]); intros g Hg; by rewrite lookup_insert_ne.
Qed.
Lemma commit_frame now request m :
  (∀ tp, tp_topic tp ≠ "__consumer_offsets" →
    entries_of (ps_index (gm_record_log (handle_commit_offset hash crc32 now request m).2)) tp =
    entries_of (ps_index (gm_record_log m)) tp) ∧
  ∀ g, g ≠ co_group_id request → gm_groups (handle_commit_offset hash crc32 now request m).2 !! g = gm_groups m !! g.
Proof.
  unfold handle_commit_offset. destruct (gm_groups m !! co_group_id request) as [gr|]; [|done].
  destruct (negb _); [done|]. destruct (_ =? 0); [done|].
  pose proof (λ p tp, commit_all_frame now p (co_group_id request) (co_offsets request) (gs_committed_offsets gr)
    (gm_record_log m) tp) as Hc.
  specialize (Hc (partition_for hash (co_group_id request) m)).
  destruct (commit_all _ _ _ _ _ _ _) as [[ok committed] log]. simpl in *. split.
  - intros tp Htp. apply Hc. intros ->. done.
  - intros g Hg. by rewrite lookup_insert_ne.
Qed.

Lemma route_frame {Req Resp} `{!Bincode Req, !Bincode Resp} (handle : Req → Handler → Result Resp * Handler)
    {A} (view : Handler → A) data h :
  (∀ r, deserialize data = Some r → view (handle r h).2 = view h) → view (route handle data h).2 = view h.
Proof.
  intros Hv. unfold route. destruct (deserialize data) as [r|]; [|done]. specialize (Hv r eq_refl).
  by destruct (handle r h) as [[]].
Qed.

Lemma route_contents rt data h topic p :
  topic ≠ "__consumer_offsets" → (rt = Produce → extract_resource_from_request rt data ≠ "topic:" +:+ topic) →
  handler_contents (mkTP topic p) (route_request rt data h).2 = handler_contents (mkTP topic p) h.
Proof using replicate_frame.
  intros Hint Hp. destruct rt; simpl; apply route_frame; intros r Er; cbn [rh_produce rh_fetch rh_metadata
    rh_find_coordinator rh_join_group rh_heartbeat rh_commit_offset rh_fetch_offset rh_leave_group handlers broker_handlers].
  - apply on_core_contents. intros c. destruct (produce_each _ _ _ _ _ c) as [[xs|e] c'] eqn:E; simpl;
      apply (produce_each_frame _ _ _ _ _ _ _ E); intros [= -> ->]; apply (Hp eq_refl); simpl; by rewrite Er.
  - apply on_core_contents. intros c. pose proof (fetch_frame (mkTP (fq_topic r) (fq_partition_id r)) (fq_fetch_offset r)
      (fq_max_bytes r) c (mkTP topic p)) as Hf.
    cbv zeta. by destruct (fetch_records _ _ _ _ _ _ c) as [[] c'].
  - done.
  - unfold handle_find_coordinator. destruct (bh_broker_core h) as [[core groups]|]; [|done].
    destruct (_ =? 0); [done|]. by destruct (_ !! _).
  - apply on_groups_contents. intros m. pose proof (join_frame (clock 0) r m) as [Hl _].
    destruct (handle_join_group _ _ _ _ _ m). simpl in *. by rewrite Hl.
  - apply on_groups_contents. intros m. pose proof (heartbeat_frame (clock 0) r m) as [Hl _].
    destruct (handle_heartbeat _ _ m). simpl in *. by rewrite Hl.
  - apply on_groups_contents. intros m. pose proof (commit_frame (clock 0) r m) as [Hl _].
    specialize (Hl (mkTP topic p) Hint). destruct (handle_commit_offset _ _ _ _ m) as [[]]; simpl in *; by rewrite Hl.
  - apply on_groups_contents. intros m. by destruct (handle_fetch_offset _ _ m).
  - apply on_groups_contents. intros m. pose proof (leave_frame (lg_group_id r) (lg_member_id r) m) as [Hl _].
    destruct (handle_leave_group _ _ m). simpl in *. by rewrite Hl.
Qed.

Lemma route_group {A} (view : ConsumerGroupState → A) rt data h g :
  (get_required_permission rt = Write → extract_resource_from_request rt data ≠ "consumer_group:" +:+ g) →
  (∀ r m, rt = ConsumerHeartbeat → deserialize data = Some r →
     view <$> gm_groups (handle_heartbeat (clock 0) r m).2 !! g = view <$> gm_groups (L := PS) m !! g) →
  handler_group view g (route_request rt data h).2 = handler_group view g h.
Proof.
  clear replicate_frame. intros Hp Hbeat. destruct rt; simpl; apply route_frame; intros r Er; cbn [rh_produce rh_fetch rh_metadata
    rh_find_coordinator rh_join_group rh_heartbeat rh_commit_offset rh_fetch_offset rh_leave_group handlers broker_handlers].
  - apply on_core_group.
  - apply on_core_group.
  - done.
  - unfold handle_find_coordinator. destruct (bh_broker_core h) as [[core groups]|]; [|done].
    destruct (_ =? 0); [done|]. by destruct (_ !! _).
  - apply on_groups_group. intros m. pose proof (join_frame (clock 0) r m) as [_ Hg].
    specialize (Hg g). destruct (handle_join_group _ _ _ _ _ m). simpl in *. rewrite Hg; [done|].
    intros ->. apply (Hp eq_refl). by rewrite Er.
  - apply on_groups_group. intros m. specialize (Hbeat r m eq_refl Er). by destruct (handle_heartbeat _ _ m).
  - apply on_groups_group. intros m. pose proof (commit_frame (clock 0) r m) as [_ Hg]. specialize (Hg g).
    assert (g ≠ co_group_id r) by (intros ->; apply (Hp eq_refl); simpl; by rewrite Er).
    destruct (handle_commit_offset _ _ _ _ m) as [[]]; simpl in *; by rewrite Hg.
  - apply on_groups_group. intros m. by destruct (handle_fetch_offset _ _ m).
  - apply on_groups_group. intros m. pose proof (leave_frame (lg_group_id r) (lg_member_id r) m) as [_ Hg].
    specialize (Hg g). destruct (handle_leave_group _ _ m). simpl in *. rewrite Hg; [done|].
    intros ->. apply (Hp eq_refl). by rewrite Er.
Qed.

Lemma respond_authorized_cases principal authorize rt data h out h' :
  respond_authorized display_error principal authorize rt data h = (out, h') →
  h' = h ∨ authorize (extract_resource_from_request rt data) (get_required_permission rt) = Ok true ∧
           h' = (route_request rt data h).2.
Proof.
  unfold respond_authorized. destruct (authorize _ _) as [[]|e]; [|intros [= _ <-]; by left..].
  unfold respond. destruct (route_request rt data h) as [[]]; intros [= _ <-]; by right.
Qed.

(** C24: Whatever bytes an authenticated client sends on a stream, and however
    they arrive: the records, watermark and metadata of a topic do not change
    unless the principal was granted Write on that very topic, apart from the
    coordinator's own topic; nothing of a group changes unless the principal
    was granted Read or Write on that very group; and unless it was granted Write
    on it, nothing but the times of heartbeats changes: the generation, the
    state, the members with their subscriptions and session timeouts, the
    assignment and the committed offsets stay.  (Assumed of the replicator: a
    replication leaves the partitions of other topics alone.) *)
Theorem secure_server_isolates principal authorize n incoming s answer s' :
  handle_authenticated_stream display_error principal authorize n incoming s = (answer, s') →
  (∀ topic p, authorize ("topic:" +:+ topic) Write ≠ Ok true → topic ≠ "__consumer_offsets" →
     handler_contents (mkTP topic p) (sv_broker s') = handler_contents (mkTP topic p) (sv_broker s)) ∧
  (∀ g, authorize ("consumer_group:" +:+ g) Write ≠ Ok true →
     handler_group membership g (sv_broker s') = handler_group membership g (sv_broker s)) ∧
  (∀ g, authorize ("consumer_group:" +:+ g) Write ≠ Ok true → authorize ("consumer_group:" +:+ g) Read ≠ Ok true →
     handler_group id g (sv_broker s') = handler_group id g (sv_broker s)).
Proof using replicate_frame.
  intros E. destruct (stream_task_cases _ _ _ _ _ _ E) as [[_ ->]|(rt & data & out & _ & Eout)]; [done|].
  destruct (respond_authorized_cases _ _ _ _ _ _ _ Eout) as [->|[Hauth ->]]; [done|]. split_and!.
  - intros topic p Hno Hint. apply route_contents; [done|]. intros -> Hres. rewrite Hres in Hauth. done.
  - intros g Hno. apply route_group.
    + intros Hw Hres. rewrite Hres, Hw in Hauth. done.
    + intros r m _ _. apply (heartbeat_frame (clock 0) r m).
  - intros g Hno Hread. apply route_group.
    + intros Hw Hres. rewrite Hres, Hw in Hauth. done.
    + intros r m -> Er. destruct (heartbeat_frame (clock 0) r m) as (_ & Hg & _). rewrite Hg; [done|].
      intros ->. apply Hread. revert Hauth. simpl. by rewrite Er.
Qed.
End isolation.

(** ** A produce request *)

Section produce_request.
Context {W U C R M : Type} `{!SegmentedLog W, !UploadManager U, !Cache C, !ObjectStorage R}.
Context `{!UploadManagerLaws U, !CacheLaws C}.
Context `{!Bincode (list WalRecord), !BincodeLaws (list WalRecord)}.
Abbreviation PS := (PartitionStore W U C R).
Context `{!Replicator M PS} (sizeof_WalRecord : Z) (clock : nat → Z).
Implicit Types (c : MessageBrokerCore PS M) (tp : TopicPartition).
Abbreviation produce_each := (produce_each sizeof_WalRecord clock).
Abbreviation append_each := (append_each sizeof_WalRecord).

(** The records as they are stored: the broker's clock replaces the time of the
    client. *)
Fixpoint stored (i : nat) (records : list Record_) : list Record_ :=
  match records with
  | [] => []
  | r :: records => mkRecord (r_key r) (r_value r) (r_headers r) (clock i) :: stored (S i) records
  end.
Lemma stored_length i records : length (stored i records) = length records.
Proof. revert i. induction records as [|r records IH]; intros i; simpl; [done|by rewrite IH]. Qed.
Lemma stored_lookup i records j :
  stored i records !! j = (λ r, mkRecord (r_key r) (r_value r) (r_headers r) (clock (i + j))) <$> records !! j.
Proof.
  revert i j. induction records as [|r records IH]; intros i [|j]; simpl; try done; [by rewrite Nat.add_0_r|].
  rewrite IH. by rewrite Nat.add_succ_comm.
Qed.

(** Appending looks only at the store. *)
Lemma append_each_store ws c c2 :
  bc_store c = bc_store c2 →
  (append_each ws c).1 = (append_each ws c2).1 ∧ bc_store (append_each ws c).2 = bc_store (append_each ws c2).2.
Proof.
  revert c c2. induction ws as [|w ws IH]; intros c c2 E; simpl; [done|]. rewrite E.
  destruct (append _ w (bc_store c2)) as [[loc|e] st]; simpl; [|done]. by apply IH.
Qed.
Lemma frame_records_shift tp b i rs : frame_records tp b (i + 1) rs = frame_records tp (u64_add b 1) i rs.
Proof.
  revert i. induction rs as [|r rs IH]; intros i; [done|]. simpl. rewrite IH. f_equal. f_equal.
  unfold u64_add. rewrite Zplus_mod_idemp_l. f_equal. lia.
Qed.
Lemma set_hw_id md : set_high_watermark (pm_high_watermark md) md = md.
Proof. by destruct md. Qed.

(** Sending one by one appends the same batch. *)
Lemma produce_each_append i request records c md results c' :
  let tp := mkTP (pq_topic request) (pq_partition_id request) in
  let hw := pm_high_watermark md in
  pq_acks request = AckNone ∨ pq_acks request = AckLeader →
  bc_partitions c !! tp = Some md → 0 ≤ hw → hw + Z.of_nat (length records) ≤ u64_MAX →
  produce_each i request records c = (Ok results, c') →
  ∃ c1, append_each (frame_records tp hw 0 (stored i records)) c = (Ok tt, c1) ∧ bc_store c' = bc_store c1 ∧
    bc_partitions c' = <[tp := set_high_watermark (hw + Z.of_nat (length records)) md]> (bc_partitions c) ∧
    pp_offset <$> results = (λ j, hw + Z.of_nat j) <$> seq 0 (length records).
Proof.
  intros tp hw Hacks. revert i c md hw results. induction records as [|r records IH]; intros i c md hw results Emd H0 Hmax.
  - intros [= <- <-]. exists c. split_and!; [done|done| |done]. simpl. unfold hw. by rewrite Z.add_0_r, set_hw_id, insert_id.
  - cbn [produce_each]. destruct (send _ _ _ c) as [[res|e] c1] eqn:Es; cbn [sbind]; [|done].
    unfold send in Es. destruct (append_records _ _ _ _ c) as [[offsets|e] c2] eqn:Ea; cbn [sbind] in Es; [|done].
    destruct (append_records_local _ _ _ _ _ _ _ Hacks Ea) as (md' & c3 & Emd' & Hl & E3 & -> & Est & Eparts).
    change (target _) with tp in *. rewrite Emd in Emd'. injection Emd' as <-. fold hw in E3, Eparts.
    assert (E3b := E3). cbn [to_record frame_records stored BrokerCore.append_each] in E3b.
    simpl in Es. injection Es as <- <-. simpl length in *.
    assert (Hc3 : c3 = with_store (bc_store c3) c).
    { destruct (append sizeof_WalRecord _ (bc_store c)) as [[loc|e] st]; cbn [sbind] in E3b; [|done]. by injection E3b as <-. }
    specialize (Eparts Hc3). rewrite u64_add_small in Eparts by (unfold u64_MAX in Hmax; lia).
    destruct (produce_each (S i) request records c2) as [[rest|e] c4] eqn:Er; cbn [sbind]; [|done].
    intros [= <- <-]. set (md2 := set_high_watermark (hw + 1) md) in *.
    destruct (IH (S i) c2 md2 rest) as (c5 & E5 & Est5 & Ep5 & Hoff); [by rewrite Eparts, lookup_insert_eq|simpl; lia|simpl; lia|done|].
    simpl in Hoff, Ep5, E5.
    destruct (append_each_store (frame_records tp (hw + 1) 0 (stored (S i) records)) c2 c3 Est) as [Hr Hs].
    rewrite E5 in Hr, Hs. simpl in Hr, Hs.
    destruct (append_each (frame_records tp (hw + 1) 0 (stored (S i) records)) c3) as [r3 c6] eqn:E6. simpl in Hr, Hs. subst r3.
    exists c6. split_and!; [| congruence| |].
    + cbn [stored frame_records BrokerCore.append_each].
      destruct (append sizeof_WalRecord _ (bc_store c)) as [[loc|e] st]; cbn [sbind] in E3b |- *; [|done].
      injection E3b as <-. change (0 + 1) with 1. rewrite (frame_records_shift tp hw 0), u64_add_small by (unfold u64_MAX in Hmax; lia).
      exact E6.
    + rewrite Ep5, Eparts, insert_insert_eq. f_equal. unfold md2, set_high_watermark. simpl. f_equal. lia.
    + cbn [fmap list_fmap seq pp_offset]. rewrite u64_add_small by (unfold u64_MAX in Hmax; lia). rewrite Hoff.
      f_equal. rewrite <- fmap_S_seq, <- list_fmap_compose. apply list_fmap_ext. intros ? j _. simpl. lia.
Qed.

(** A partition that can take [records]: everything stored is below its high
    watermark, and there is room for offsets and bytes. *)
Record ready c tp md (records : list Record_) : Prop := {
  rd_store : store_ok (bc_store c);
  rd_cache : cache_ok (bc_store c);
  rd_metadata : bc_partitions c !! tp = Some md;
  rd_next : next_offset (bc_store c) tp ≤ pm_high_watermark md;
  rd_room : room sizeof_WalRecord (bc_store c) tp (pm_high_watermark md)
              (frame_records tp (pm_high_watermark md) 0 (stored 0 records));
}.
(** The core after [records] were stored from the high watermark on. *)
Record all_stored c tp md (records : list Record_) c' : Prop := {
  as_store : store_ok (bc_store c');
  as_cache : cache_ok (bc_store c');
  as_partitions : bc_partitions c' =
    <[tp := set_high_watermark (pm_high_watermark md + Z.of_nat (length records)) md]> (bc_partitions c);
  as_next : next_offset (bc_store c') tp ≤ pm_high_watermark md + Z.of_nat (length records);
  as_records i r : records !! i = Some r →
    let o := pm_high_watermark md + Z.of_nat i in
    resolve (bc_store c') tp o = Some (mkWal tp o (mkRecord (r_key r) (r_value r) (r_headers r) (clock i)) 0);
  as_outside tp' o : ¬ (tp' = tp ∧ pm_high_watermark md ≤ o < pm_high_watermark md + Z.of_nat (length records)) →
    resolve (bc_store c') tp' o = resolve (bc_store c) tp' o;
}.

Lemma produce_each_stored request c md results c' :
  let tp := mkTP (pq_topic request) (pq_partition_id request) in
  pq_acks request = AckNone ∨ pq_acks request = AckLeader → ready c tp md (pq_records request) →
  produce_each 0 request (pq_records request) c = (Ok results, c') →
  all_stored c tp md (pq_records request) c' ∧
  pp_offset <$> results = (λ j, pm_high_watermark md + Z.of_nat j) <$> seq 0 (length (pq_records request)).
Proof.
  intros tp Hacks [Hok Hcache Emd Hn Hroom] E. set (hw := pm_high_watermark md) in *. set (rs := stored 0 (pq_records request)) in *.
  pose proof Hroom as (H0 & Hmax & _). rewrite frame_records_length in Hmax.
  assert (Hlen : length rs = length (pq_records request)) by apply stored_length.
  destruct (produce_each_append 0 request (pq_records request) c md results c' Hacks Emd H0 ltac:(fold hw; lia) E)
    as (c1 & E1 & Est & Ep & Hoff). fold hw tp rs in E1, Ep, Hoff. split; [|done].
  destruct (append_each_spec sizeof_WalRecord _ c hw tp c1 Hok Hcache (frame_records_consecutive tp hw rs H0 Hmax)) as [[A1 A2 A3 A4 A5 A6] _];
    [intros i _; apply resolve_beyond; [done|lia]|done|done|].
  rewrite frame_records_length, Hlen in A3, A5, A6. rewrite <- Est in A1, A2, A3, A4, A5, A6. split; fold hw; try done.
  - destruct A3 as [->|Hnil]; [lia|]. assert (Hl0 := frame_records_length tp hw 0 rs). rewrite Hnil in Hl0.
    rewrite Hnil in E1. injection E1 as <-. rewrite Est. lia.
  - intros i r Hi o. assert (Hrs : rs !! i = Some (mkRecord (r_key r) (r_value r) (r_headers r) (clock i)))
      by (unfold rs; rewrite stored_lookup, Hi; done).
    pose proof (A4 i _ (frame_records_get tp hw rs i _ H0 Hmax Hrs)) as Hh. by rewrite (resolve_hot _ _ _ _ Hh).
Qed.
End produce_request.

(** ** Concrete runs *)

#[global] Instance AcknowledgmentLevel_eq_dec : EqDecision AcknowledgmentLevel.
Proof. solve_decision. Defined.
#[global] Instance AcknowledgmentLevel_countable : Countable AcknowledgmentLevel.
Proof.
  refine (inj_countable' (λ a, match a with
      | AckNone => (0, 0) | AckLeader => (1, 0) | AckMajority => (2, 0) | AckAll => (3, 0) | AckCustom n => (4, n)
      end)
    (λ p, match p.1 with 0 => AckNone | 1 => AckLeader | 2 => AckMajority | 3 => AckAll | _ => AckCustom p.2 end) _).
  by intros [].
Defined.
#[global] Instance ProduceRequest_eq_dec : EqDecision ProduceRequest.
Proof. solve_decision. Defined.
#[global] Program Instance ProduceRequest_countable : Countable ProduceRequest :=
  inj_countable' (λ r, (pq_topic r, pq_partition_id r, pq_records r, pq_acks r, pq_timeout_ms r))
    (λ p, mkProduceRequest p.1.1.1.1 p.1.1.1.2 p.1.1.2 p.1.2 p.2) _.
Next Obligation. by intros []. Qed.
#[global] Instance ProduceResponse_eq_dec : EqDecision ProduceResponse.
Proof. solve_decision. Defined.
#[global] Program Instance ProduceResponse_countable : Countable ProduceResponse :=
  inj_countable' (λ r, (pz_offset r, pz_error_code r, pz_error_message r)) (λ p, mkProduceResponse p.1.1 p.1.2 p.2) _.
Next Obligation. by intros []. Qed.

Module GatewayDemo.
Import Mem StoreDemo CoreDemo.
#[local] Existing Instances wal_codec list_codec list_laws um um_laws lru lru_laws no_followers.
(** Only produce requests are exchanged here. *)
Definition unused {A} : Bincode A := {| serialize _ := [0]; deserialize _ := None |}.
#[export] Instance codecs : RequestCodecs := {|
  rc_pq := DemoCodec.compact; rc_pz := DemoCodec.compact; rc_fq := unused; rc_fz := unused; rc_mq := unused; rc_mz := unused;
  rc_fc := unused; rc_fp := unused; rc_jr := unused; rc_jp := unused; rc_ch := unused; rc_chp := unused; rc_co := unused;
  rc_cop := unused; rc_fo := unused; rc_fop := unused; rc_lg := unused; rc_lgp := unused;
|}.
#[export] Instance z_codec : Bincode Z := DemoCodec.compact.
#[export] Instance bytes_codec : Bincode bytes := DemoCodec.compact.
#[export] Instance demo_log : RecordLog PS := store_record_log 100.
Definition clock (i : nat) : Z := 500 + Z.of_nat i.
#[export] Instance demo_handlers : RequestHandlers (BrokerHandler PS unit) :=
  broker_handlers 100 (λ _, 0) (λ _, 0) id id "m1" clock id id.
Definition handler : BrokerHandler PS unit :=
  mkHandler (mkHandlerConfig "b1" "r1" "0.0.0.0:9092" "0.0.0.0:9093") (Some (core0, gcm_new st0 50)) ∅.
Definition server : QuicServer (BrokerHandler PS unit) := mkServer (buffers_new 4096 10) handler.
Definition show (_ : RustMqError) : string := "failed".
Definition request : ProduceRequest := mkProduceRequest "orders" 0 [Demo.rec0; Demo.rec1] AckLeader 30000.
Definition frame : bytes := request_type_code Produce :: serialize request.

Example request_fits : Z.of_nat (length frame) < 8192.
Proof. vm_compute. reflexivity. Qed.
Example produce_over_a_stream :
  (handle_stream show (length frame) frame server).1 = Some (1 :: serialize (mkProduceResponse 0 0 None)).
Proof. vm_compute. reflexivity. Qed.

(** A principal that may write to one topic only. *)
Definition authorize (resource : string) (p : Permission) : Result bool :=
  Ok (bool_decide (resource = "topic:orders") && bool_decide (p = Write)).
Abbreviation authorized := (handle_authenticated_stream
  (RequestHandlers0 := handlers 100 (λ _, 0) (λ _, 0) id id "m1" clock) show "alice" authorize (length frame) frame server).

Lemma secure_server_isolates_witness :
  authorized.1 = Some (1 :: serialize (mkProduceResponse 0 0 None)) ∧
  handler_contents (mkTP "payments" 0) (sv_broker authorized.2) = handler_contents (mkTP "payments" 0) (sv_broker server).
Proof.
  split; [vm_compute; reflexivity|].
  refine (proj1 (secure_server_isolates 100 (λ _, 0) (λ _, 0) id id "m1" clock show _ "alice" authorize (length frame) frame
    server authorized.1 authorized.2 (surjective_pairing authorized)) "payments" 0 _ _).
  - intros r m st res m' st' tp [= _ _ <-] _. reflexivity.
  - vm_compute. discriminate.
  - discriminate.
Defined.
(** An answer whose request was refused *)
Example refused : (handle_authenticated_stream show "mallory" (λ _ _, Ok false) (length frame) frame server).1
  = Some (error_response show (AuthorizationDenied "mallory" "Write" "topic:orders")).
Proof. vm_compute. reflexivity. Qed.

(** A request whose first read delivers only a part of it is refused. *)
Example split_request_refused : (handle_stream show 10 frame server).1 = Some (error_response show Serialization).
Proof. vm_compute. reflexivity. Qed.
(** An unknown type is not answered, and its buffer is not returned. *)
Example unknown_type_unanswered :
  let s := (handle_stream show (length frame) frame server).2 in
  let '(answer, s') := handle_stream show 5 [77; 1; 2] s in
  (answer, length <$> bp_pools (sv_buffers s) !! 1%nat, length <$> bp_pools (sv_buffers s') !! 1%nat) = (None, Some 1%nat, Some 0%nat).
Proof. vm_compute. reflexivity. Qed.
(** The coordinator's address is not the one in the metadata. *)
Example coordinator_host_unusable :
  (fp_coordinator_host <$> match (handle_find_coordinator (λ _, 0) (mkFindCoordinator "g") handler).1 with Ok r => Some r | Err _ => None end,
   match (handle_metadata (mkMetadataRequest []) handler).1 with Ok r => bi_host <$> mz_brokers r | Err _ => [] end)
  = (Some "0.0.0.0", ["127.0.0.1"]).
Proof. vm_compute. reflexivity. Qed.
(** The records of a request are sent one by one: with another produce in
    between, the offsets of the batch are not consecutive, while the answer
    names the first only. *)
Example batch_not_consecutive :
  let produce r c := send 100 0 (mkProduce "orders" (Some 0) (r_key r) (r_value r) (r_headers r) AckLeader) c in
  let '(r1, c) := produce Demo.rec0 core0 in
  let '(other, c) := produce Demo.rec1 c in
  let '(r2, c) := produce Demo.rec0 c in
  (pp_offset <$> match r1 with Ok r => Some r | Err _ => None end, pp_offset <$> match r2 with Ok r => Some r | Err _ => None end)
  = (Some 0, Some 2).
Proof. vm_compute. reflexivity. Qed.
End GatewayDemo.
