(* ===== verification/SdkProducer.v ===== *)
(** * The client library: messages and the producer

    Model of the messages, the request path and the producer of the Rust client
    library ([src/sdk/rust/src/message.rs], [connection.rs], [producer.rs]).
    The connection is an interface; an instance delivers requests to the
    server's stream handler, where each request may be lost on its way or its
    answer may be.  A result channel is a number.  Times, generated identifiers
    and the order of a hash map are arguments. *)

From S2P Require Import Prelude Types PartitionIndex ColdIndex SegmentedWal LruCache ObjectStorage.
From S2P Require Import Reservation PartitionStore ConsumerGroup BrokerCore Scaling Network Gateway.
Local Open Scope Z_scope.

(** [ClientError], without the texts *)
Inductive ClientError :=
  | CeConnection | CeNoConnectionsAvailable | CeAuthentication | CeInvalidConfig | CeSerialization | CeDeserialization
  | CeBroker | CeTimeout | CeTopicNotFound | CePartitionNotFound (topic : string) (partition : Z) | CeProducer | CeConsumer
  | CeMessageTooLarge | CeOffsetOutOfRange | CeConsumerGroup | CeRebalancingInProgress | CeInvalidMessage | CeCompression
  | CeTls | CeStream | CeResourceExhausted | CeInternal | CeQuicTransport | CeProtocol | CeBrokerNotAvailable
  | CeRateLimitExceeded | CeInvalidOperation | CeAuthorizationDenied | CeInvalidCertificate | CePrincipalExtraction
  | CeUnsupportedAuthMethod | CeAclOperation | CeCertificateManagement.
Inductive CResult (A : Type) := COk (a : A) | CErr (e : ClientError).
Arguments COk {A}. Arguments CErr {A}.

(** ** Messages *)

Record Message := mkMessage {
  m_id : string;
  m_topic : string;
  m_partition : Z;
  m_offset : Z;
  m_key : option bytes;
  m_payload : bytes;
  m_headers : gmap string string;
  m_timestamp : Z;
  m_producer_id : option string;
  m_sequence : option Z;
  m_compression : option string;
  m_size : Z;
}.
Record MessageBuilder := mkBuilder {
  mb_id : option string;
  mb_topic : option string;
  mb_partition : option Z;
  mb_key : option bytes;
  mb_payload : option bytes;
  mb_headers : gmap string string;
  mb_producer_id : option string;
}.
Definition message_build (uuid : string) (now : Z) (b : MessageBuilder) : string + Message :=
  match mb_payload b with
  | None => inl "Message payload is required"
  | Some payload =>
      match mb_topic b with
      | None => inl "Message topic is required"
      | Some topic =>
          inr (mkMessage (default uuid (mb_id b)) topic (default 0 (mb_partition b)) 0 (mb_key b) payload (mb_headers b) now
                 (mb_producer_id b) None None
                 (Z.of_nat (length payload) + match mb_key b with Some k => Z.of_nat (length k) | None => 0 end))
      end
  end.

(** ** The connection *)

Class ClientConnection (B : Type) := {
  send_request : Z → bytes → B → CResult bytes * B;
}.
#[global] Hint Mode ClientConnection ! : typeclass_instances.

(** [None]: the stream was closed without an answer. *)
Definition read_response (answer : option bytes) (expected_type : Z) : CResult bytes :=
  match answer with
  | None | Some [] => CErr CeQuicTransport
  | Some (t :: data) =>
      if t =? 255 then
        if 16 * 1024 <? Z.of_nat (length data) then CErr CeMessageTooLarge else CErr CeBroker
      else if negb (t =? expected_type) then CErr CeProtocol
      else if 16 * 1024 * 1024 <? Z.of_nat (length data) then CErr CeMessageTooLarge
      else COk data
  end.

(** What happens to a request: the server gets it, in a first read of [n] bytes,
    and the client its answer; or the request does not arrive; or the answer
    does not. *)
Inductive NetOutcome := Delivered (n : nat) | RequestLost (e : ClientError) | AnswerLost (n : nat) (e : ClientError).
Record QuicConnection (S : Type) := mkConnection { qc_server : S; qc_outcomes : list NetOutcome }.
Arguments mkConnection {S}. Arguments qc_server {S}. Arguments qc_outcomes {S}.
(** [send_request_internal]: one bidirectional stream per request *)
Definition quic_send_request {S} (serve : nat → bytes → S → option bytes * S) (request_type : Z) (request : bytes)
    (q : QuicConnection S) : CResult bytes * QuicConnection S :=
  let frame := request_type :: request in
  match qc_outcomes q with
  | [] => (CErr CeNoConnectionsAvailable, q)
  | Delivered n :: outcomes =>
      let '(answer, s) := serve n frame (qc_server q) in (read_response answer request_type, mkConnection s outcomes)
  | RequestLost e :: outcomes => (CErr e, mkConnection (qc_server q) outcomes)
  | AnswerLost n e :: outcomes => let '(_, s) := serve n frame (qc_server q) in (CErr e, mkConnection s outcomes)
  end.
Definition quic_connection {S} (serve : nat → bytes → S → option bytes * S) : ClientConnection (QuicConnection S) := {|
  send_request := quic_send_request serve;
|}.

(** ** The producer *)

Inductive AckLevel := AlNone | AlLeader | AlAll.
Definition ack_level (a : AckLevel) : AcknowledgmentLevel :=
  match a with AlNone => AckNone | AlLeader => AckLeader | AlAll => AckAll end.
Record ProducerConfig := mkProducerConfig {
  pc_producer_id : option string;
  pc_batch_size : Z;
  pc_ack_level : AckLevel;
}.
Record ProducerMetrics := mkProducerMetrics {
  px_messages_sent : Z;
  px_messages_failed : Z;
  px_batches_sent : Z;
  px_average_batch_size : f64;
  px_last_send_time : option Z;
}.
Record MessageResult := mkMessageResult {
  mr_message_id : string;
  mr_topic : string;
  mr_partition : Z;
  mr_offset : Z;
  mr_timestamp : Z;
}.
(** [result_sender] is the number of its channel. *)
Record BatchedMessage := mkBatched { bm_message : Message; bm_result_sender : nat }.
Inductive BatchCommand := CmdMessage (m : BatchedMessage) | CmdFlush (result_sender : nat).

(** A producer with its batching task: the channel between them, the task's two
    vectors, what was sent on result channels, and the connection. *)
Record Producer (B : Type) := mkProducer {
  pd_id : string;
  pd_topic : string;
  pd_config : ProducerConfig;
  pd_sequence_counter : Z;
  pd_metrics : ProducerMetrics;
  pd_batch_channel : list BatchCommand;
  pd_pending_messages : list BatchedMessage;
  pd_pending_flushes : list nat;
  pd_results : list (nat * CResult MessageResult);
  pd_flushed : list nat;
  pd_client : B;
}.
Arguments mkProducer {B}. Arguments pd_id {B}. Arguments pd_topic {B}. Arguments pd_config {B}.
Arguments pd_sequence_counter {B}. Arguments pd_metrics {B}. Arguments pd_batch_channel {B}.
Arguments pd_pending_messages {B}. Arguments pd_pending_flushes {B}. Arguments pd_results {B}.
Arguments pd_flushed {B}. Arguments pd_client {B}.

Section producer.
Context {B : Type} `{!ClientConnection B} `{!Bincode ProduceRequest, !Bincode ProduceResponse}.
Context (header_order : list (string * string) → list (string * string)).
Implicit Types (p : Producer B).

Definition producer_build (uuid topic : string) (config : ProducerConfig) (client : B) : Producer B :=
  mkProducer (default ("producer-" +:+ uuid) (pc_producer_id config)) topic config 0
    (mkProducerMetrics 0 0 0 f64_zero None) [] [] [] [] [] client.

(** [send] and [send_async] up to the channel: the message with its sequence
    number; the result comes on channel [token]. *)
Definition enqueue (token : nat) (message : Message) p : Producer B :=
  let sequence := u64_add (pd_sequence_counter p) 1 in
  let message := mkMessage (m_id message) (m_topic message) (m_partition message) (m_offset message) (m_key message)
                   (m_payload message) (m_headers message) (m_timestamp message) (Some (pd_id p)) (Some sequence)
                   (m_compression message) (m_size message) in
  mkProducer (pd_id p) (pd_topic p) (pd_config p) sequence (pd_metrics p)
    (pd_batch_channel p ++ [CmdMessage (mkBatched message token)]) (pd_pending_messages p) (pd_pending_flushes p)
    (pd_results p) (pd_flushed p) (pd_client p).
(** [flush], and [close], which only flushes *)
Definition enqueue_flush (token : nat) p : Producer B :=
  mkProducer (pd_id p) (pd_topic p) (pd_config p) (pd_sequence_counter p) (pd_metrics p)
    (pd_batch_channel p ++ [CmdFlush token]) (pd_pending_messages p) (pd_pending_flushes p) (pd_results p)
    (pd_flushed p) (pd_client p).

Definition message_record (m : Message) : Record_ :=
  mkRecord (m_key m) (m_payload m)
    ((λ kv, mkHeader kv.1 (str_bytes kv.2)) <$> header_order (map_to_list (m_headers m))) (as_i64 (m_timestamp m)).

Definition send_produce_request (request : ProduceRequest) (client : B) : CResult ProduceResponse * B :=
  match send_request (request_type_code Produce) (serialize request) client with
  | (CErr e, client) => (CErr e, client)
  | (COk response_bytes, client) =>
      match deserialize response_bytes with
      | None => (CErr CeDeserialization, client)
      | Some response => (if negb (pz_error_code response =? 0) then CErr CeBroker else COk response, client)
      end
  end.

(** [update_metrics] and the failure counter *)
Definition update_metrics (now : Z) (batch_size : nat) (x : ProducerMetrics) : ProducerMetrics :=
  let sent := u64_add (px_messages_sent x) (Z.of_nat batch_size) in
  let batches := u64_add (px_batches_sent x) 1 in
  let total_batches := f64_of_Z batches in
  mkProducerMetrics sent (px_messages_failed x) batches
    (if f64_lt f64_zero total_batches then f64_div (f64_of_Z sent) total_batches else f64_zero) (Some now).
Definition count_failed (batch_size : nat) (x : ProducerMetrics) : ProducerMetrics :=
  mkProducerMetrics (px_messages_sent x) (u64_add (px_messages_failed x) (Z.of_nat batch_size)) (px_batches_sent x)
    (px_average_batch_size x) (px_last_send_time x).

Definition complete_flush_requests p : Producer B :=
  mkProducer (pd_id p) (pd_topic p) (pd_config p) (pd_sequence_counter p) (pd_metrics p) (pd_batch_channel p)
    (pd_pending_messages p) [] (pd_results p) (pd_flushed p ++ pd_pending_flushes p) (pd_client p).

(** The results for the callers, the [i]-th message at the [i]-th offset *)
Definition batch_results (topic : string) (response : CResult ProduceResponse) (messages : list BatchedMessage)
  : list (nat * CResult MessageResult) :=
  match response with
  | COk response =>
      imap (λ i bm, (bm_result_sender bm,
        COk (mkMessageResult (m_id (bm_message bm)) topic 0 (u64_add (pz_offset response) (Z.of_nat i))
               (m_timestamp (bm_message bm))))) messages
  | CErr e => (λ bm, (bm_result_sender bm, CErr e)) <$> messages
  end.
Definition send_batch_internal (now : Z) p : Producer B :=
  match pd_pending_messages p with
  | [] => complete_flush_requests p
  | messages =>
      let request := mkProduceRequest (pd_topic p) 0 (message_record ∘ bm_message <$> messages)
                       (ack_level (pc_ack_level (pd_config p))) 30000 in
      let '(response, client) := send_produce_request request (pd_client p) in
      let metrics := match response with
                     | COk _ => update_metrics now (length messages) (pd_metrics p)
                     | CErr _ => count_failed (length messages) (pd_metrics p)
                     end in
      complete_flush_requests
        (mkProducer (pd_id p) (pd_topic p) (pd_config p) (pd_sequence_counter p) metrics (pd_batch_channel p) []
           (pd_pending_flushes p) (pd_results p ++ batch_results (pd_topic p) response messages) (pd_flushed p) client)
  end.

(** One turn of [run_batching_loop]: a command received, or the timer.  The
    channel never closes: the task holds a sender itself. *)
Definition with_batch (messages : list BatchedMessage) (flushes : list nat) (channel : list BatchCommand) p : Producer B :=
  mkProducer (pd_id p) (pd_topic p) (pd_config p) (pd_sequence_counter p) (pd_metrics p) channel messages flushes
    (pd_results p) (pd_flushed p) (pd_client p).
Definition batching_receive (now : Z) p : Producer B :=
  match pd_batch_channel p with
  | [] => p
  | CmdMessage m :: channel =>
      let p := with_batch (pd_pending_messages p ++ [m]) (pd_pending_flushes p) channel p in
      if pc_batch_size (pd_config p) <=? Z.of_nat (length (pd_pending_messages p)) then send_batch_internal now p else p
  | CmdFlush token :: channel =>
      let p := with_batch (pd_pending_messages p) (pd_pending_flushes p ++ [token]) channel p in
      match pd_pending_messages p with
      | [] => complete_flush_requests p
      | _ => send_batch_internal now p
      end
  end.
Definition batching_tick (now : Z) p : Producer B :=
  match pd_pending_messages p with [] => p | _ => send_batch_internal now p end.
End producer.

(** ** From a batch to the log *)

Section end_to_end.
Context {W U C R M : Type} `{!SegmentedLog W, !UploadManager U, !Cache C, !ObjectStorage R}.
Context `{!UploadManagerLaws U, !CacheLaws C}.
Context `{!Bincode (list WalRecord), !BincodeLaws (list WalRecord)}.
Abbreviation PS := (PartitionStore W U C R).
Context `{!Replicator M PS} (sizeof_WalRecord : Z).
Context `{!RecordLog PS, !Bincode Z, !Bincode bytes} (hash : string → Z) (crc32 : bytes → Z).
Context (order_topics order_members : list string → list string) (fresh_id : string) (clock : nat → Z).
Context (during1 during2 : PS → PS).
Context `{!RequestCodecs} {request_laws : BincodeLaws ProduceRequest} {response_laws : BincodeLaws ProduceResponse}.
Context (display_error : RustMqError → string).
Context (header_order : list (string * string) → list (string * string)).
Abbreviation Handler := (BrokerHandler PS M).
Abbreviation Server := (QuicServer Handler).

Local Instance request_handlers : RequestHandlers Handler :=
  broker_handlers sizeof_WalRecord hash crc32 order_topics order_members fresh_id clock during1 during2.
Local Instance connection : ClientConnection (QuicConnection Server) := quic_connection (handle_stream display_error).
Abbreviation send_batch_internal := (send_batch_internal header_order).
Abbreviation message_record := (message_record header_order).

Definition core_of (q : QuicConnection Server) := bh_broker_core (sv_broker (qc_server q)).
(** The request of a batch *)
Definition batch_request (p : Producer (QuicConnection Server)) : ProduceRequest :=
  mkProduceRequest (pd_topic p) 0 (message_record ∘ bm_message <$> pd_pending_messages p)
    (ack_level (pc_ack_level (pd_config p))) 30000.
(** If the next request is answered, its first read delivers all of it. *)
Definition arrives_whole (request : bytes) (q : QuicConnection Server) : Prop :=
  Z.of_nat (length request) < 8192 ∧ ∀ n rest, qc_outcomes q = Delivered n :: rest → (length request < n)%nat.

(** A response the client accepts is one the broker gave, and what it stored is
    there. *)
Lemma send_produce_stored request (q : QuicConnection Server) core groups md max response q' :
  buffers_inv max (sv_buffers (qc_server q)) → core_of q = Some (core, groups) →
  pq_acks request = AckNone ∨ pq_acks request = AckLeader → pq_records request ≠ [] →
  ready sizeof_WalRecord clock core (mkTP (pq_topic request) (pq_partition_id request)) md (pq_records request) →
  arrives_whole (serialize request) q →
  send_produce_request request q = (COk response, q') →
  pz_offset response = pm_high_watermark md ∧
  ∃ core', core_of q' = Some (core', groups) ∧
    all_stored clock core (mkTP (pq_topic request) (pq_partition_id request)) md (pq_records request) core'.
Proof using request_laws response_laws.
  intros Hbuf Hcore Hacks Hne Hready [Hlen Hn]. unfold send_produce_request, send_request, connection, quic_connection, quic_send_request.
  destruct (qc_outcomes q) as [|[n|e|n e] outcomes]; [done| |done|by destruct (handle_stream _ _ _ _)].
  specialize (Hn n outcomes eq_refl). unfold handle_stream.
  destruct (stream_task_whole (respond display_error) n Produce (serialize request) (qc_server q) max Hbuf Hlen Hn) as [pool ->].
  unfold respond, route_request, route. rewrite deserialize_serialize.
  cbn [rh_produce request_handlers broker_handlers]. unfold handle_produce, on_core.
  unfold core_of in Hcore. rewrite Hcore.
  destruct (produce_each _ _ _ _ _ core) as [[results|e] core'] eqn:E; cbn [sbind fst snd read_response].
  2:{ unfold error_response. cbn [read_response Z.eqb]. by destruct (_ <? _). }
  destruct (produce_each_stored sizeof_WalRecord clock request core md results core' Hacks Hready E) as [Hall Hoff].
  simpl request_type_code. cbn [Z.eqb Pos.eqb negb]. destruct (_ <? _); [done|]. rewrite deserialize_serialize. cbn [pz_error_code Z.eqb negb].
  intros [= <- <-]. split; [|by exists core'].
  simpl. destruct (pq_records request) as [|r rs]; [done|]. destruct results as [|res results]; [done|].
  simpl in Hoff. injection Hoff as Ho _. simpl. lia.
Qed.

(** C25: A batch against a broker that handles no other produce meanwhile and
    whose partition is ready for it (its watermark at or past everything stored,
    room for offsets and bytes), sent with an acknowledgment level other than All
    as a request of less than 8192 bytes that one read takes whole, over a
    connection on which the request may be lost on its way or the answer on its way
    back: every message of the batch
    is answered, either all with one error, or all with success; then the
    message in place [i] has the offset [i] past the former high watermark, and
    the partition holds exactly its key, payload and headers there, every other
    offset of every partition being as before. *)
Theorem batch_acknowledged now p core groups md max :
  pd_pending_messages p ≠ [] → pc_ack_level (pd_config p) ≠ AlAll →
  buffers_inv max (sv_buffers (qc_server (pd_client p))) → core_of (pd_client p) = Some (core, groups) →
  ready sizeof_WalRecord clock core (mkTP (pd_topic p) 0) md (pq_records (batch_request p)) →
  arrives_whole (serialize (batch_request p)) (pd_client p) →
  let p' := send_batch_internal now p in
  pd_pending_messages p' = [] ∧ pd_flushed p' = pd_flushed p ++ pd_pending_flushes p ∧
  ((∃ e, pd_results p' = pd_results p ++ ((λ bm, (bm_result_sender bm, CErr e)) <$> pd_pending_messages p)) ∨
   pd_results p' = pd_results p ++ imap (λ i bm, (bm_result_sender bm,
     COk (mkMessageResult (m_id (bm_message bm)) (pd_topic p) 0 (pm_high_watermark md + Z.of_nat i)
            (m_timestamp (bm_message bm))))) (pd_pending_messages p) ∧
   ∃ core', core_of (pd_client p') = Some (core', groups) ∧
     all_stored clock core (mkTP (pd_topic p) 0) md (pq_records (batch_request p)) core').
Proof using request_laws response_laws.
  intros Hne Hack Hbuf Hcore Hready Harr p'.
  pose proof (send_produce_stored (batch_request p) (pd_client p) core groups md max) as Hs.
  assert (Hacks : pq_acks (batch_request p) = AckNone ∨ pq_acks (batch_request p) = AckLeader).
  { simpl. destruct (pc_ack_level (pd_config p)); [by left|by right|done]. }
  assert (Hrs : pq_records (batch_request p) ≠ []) by (simpl; by destruct (pd_pending_messages p)).
  destruct (rd_room _ _ _ _ _ _ Hready) as (H0 & Hmax & _). rewrite frame_records_length, stored_length in Hmax.
  unfold p', SdkProducer.send_batch_internal. simpl in Hmax. rewrite length_fmap in Hmax.
  unfold batch_request in Hs, Hacks, Hrs. destruct (pd_pending_messages p) as [|m ms] eqn:Em; [done|]. rewrite <- Em in *.
  destruct (send_produce_request _ _) as [[response|e] q'] eqn:E.
  - destruct (Hs response q' Hbuf Hcore Hacks Hrs Hready Harr eq_refl) as (Ho & core' & Hc' & Hall).
    split_and!; [done|done|]. right. split; [|by exists core']. simpl. f_equal. apply imap_ext. intros i bm Hi.
    apply lookup_lt_Some in Hi. rewrite Ho, u64_add_small by (unfold u64_MAX in Hmax; lia). done.
  - split_and!; [done|done|]. left. by exists e.
Qed.
End end_to_end.

(** ** Every message is answered once, in order *)

Section batching.
Context {B : Type} `{!ClientConnection B} `{!Bincode ProduceRequest, !Bincode ProduceResponse}.
Context (header_order : list (string * string) → list (string * string)).
Implicit Types (p : Producer B).

Inductive ProducerEvent :=
  | PeSend (token : nat) (message : Message)
  | PeFlush (token : nat)
  | PeReceive (now : Z)
  | PeTick (now : Z).
Definition producer_step (e : ProducerEvent) p : Producer B :=
  match e with
  | PeSend token message => enqueue token message p
  | PeFlush token => enqueue_flush token p
  | PeReceive now => batching_receive header_order now p
  | PeTick now => batching_tick header_order now p
  end.
Definition producer_run (es : list ProducerEvent) p : Producer B := foldl (λ p e, producer_step e p) p es.

(** The calls of a run: messages to the left, flushes to the right *)
Definition calls (es : list ProducerEvent) : list (nat + nat) :=
  omap (λ e, match e with PeSend t _ => Some (inl t) | PeFlush t => Some (inr t) | _ => None end) es.
Definition messages_of (l : list (nat + nat)) : list nat := omap (λ c, match c with inl t => Some t | inr _ => None end) l.
Definition flushes_of (l : list (nat + nat)) : list nat := omap (λ c, match c with inl _ => None | inr t => Some t end) l.
Definition call_of (c : BatchCommand) : nat + nat :=
  match c with CmdMessage m => inl (bm_result_sender m) | CmdFlush t => inr t end.

(** [done] are the calls the batching task has taken from the channel. *)
Record batching_inv (all done : list (nat + nat)) p : Prop := {
  bt_channel : all = done ++ (call_of <$> pd_batch_channel p);
  bt_messages : messages_of done = (pd_results p).*1 ++ (bm_result_sender <$> pd_pending_messages p);
  bt_flushes : flushes_of done = pd_flushed p;
  bt_no_flushes : pd_pending_flushes p = [];
  bt_pending : Z.of_nat (length (pd_pending_messages p)) < Z.max 1 (pc_batch_size (pd_config p));
  bt_flushed pre f post : done = pre ++ inr f :: post → messages_of pre `prefix_of` (pd_results p).*1;
}.

Lemma messages_of_app l1 l2 : messages_of (l1 ++ l2) = messages_of l1 ++ messages_of l2.
Proof. apply omap_app. Qed.
Lemma flushes_of_app l1 l2 : flushes_of (l1 ++ l2) = flushes_of l1 ++ flushes_of l2.
Proof. apply omap_app. Qed.
Lemma batch_results_tokens topic r ms : (batch_results topic r ms).*1 = bm_result_sender <$> ms.
Proof.
  destruct r as [response|e]; simpl; [|by rewrite <- list_fmap_compose]. apply list_eq. intros i.
  rewrite !list_lookup_fmap, list_lookup_imap. by destruct (ms !! i).
Qed.
(** Sending the batch answers what is pending and completes the flushes. *)
Lemma send_batch_effect now p :
  let p' := send_batch_internal header_order now p in
  (pd_results p').*1 = (pd_results p).*1 ++ (bm_result_sender <$> pd_pending_messages p) ∧
  pd_pending_messages p' = [] ∧ pd_pending_flushes p' = [] ∧
  pd_flushed p' = pd_flushed p ++ pd_pending_flushes p ∧ pd_batch_channel p' = pd_batch_channel p ∧
  pd_config p' = pd_config p.
Proof.
  unfold send_batch_internal. destruct (pd_pending_messages p) as [|m ms] eqn:Em.
  - simpl. by rewrite Em, app_nil_r.
  - rewrite <- Em. destruct (send_produce_request _ _) as [response client]. simpl. split_and!; try done.
    by rewrite fmap_app, batch_results_tokens.
Qed.

(** After a batch was sent everything taken from the channel is answered. *)
Lemma send_batch_inv all done now p fl :
  all = done ++ (call_of <$> pd_batch_channel p) →
  messages_of done = (pd_results p).*1 ++ (bm_result_sender <$> pd_pending_messages p) →
  flushes_of done = pd_flushed p ++ fl → pd_pending_flushes p = fl →
  batching_inv all done (send_batch_internal header_order now p).
Proof.
  intros Hall Hm Hf Hfl. destruct (send_batch_effect now p) as (Er & Ep & Epf & Efl & Ec & Ecfg). split.
  - by rewrite Ec.
  - by rewrite Er, Ep, app_nil_r.
  - by rewrite Efl, Hfl.
  - done.
  - rewrite Ep. simpl. lia.
  - intros pre f post ->. rewrite Er, <- Hm, messages_of_app. by apply prefix_app_r.
Qed.

Lemma snoc_split {A} (l : list A) x pre y post :
  l ++ [x] = pre ++ y :: post → (post = [] ∧ l = pre ∧ x = y) ∨ ∃ post', l = pre ++ y :: post'.
Proof.
  destruct post as [|z post _] using rev_ind.
  - intros [-> [= ->]]%app_inj_2; [by left|done].
  - rewrite app_comm_cons, app_assoc. intros [-> _]%app_inj_2; [|done]. right. by exists post.
Qed.

Lemma receive_inv all done now p :
  batching_inv all done p → ∃ done', batching_inv all done' (batching_receive header_order now p).
Proof.
  intros [Hc Hm Hf Hnf Hp Hfl]. unfold batching_receive. destruct (pd_batch_channel p) as [|[m|t] channel] eqn:Ec.
  - exists done. by split; rewrite ?Ec.
  - exists (done ++ [inl (bm_result_sender m)]).
    assert (Hall : all = (done ++ [inl (bm_result_sender m)]) ++ (call_of <$> channel)) by (rewrite Hc, <- app_assoc; done).
    assert (Hms : messages_of (done ++ [inl (bm_result_sender m)]) =
      (pd_results p).*1 ++ (bm_result_sender <$> (pd_pending_messages p ++ [m])))
      by (rewrite messages_of_app, Hm, fmap_app, <- app_assoc; done).
    assert (Hfs : flushes_of (done ++ [inl (bm_result_sender m)]) = pd_flushed p) by (rewrite flushes_of_app, Hf; simpl; by rewrite app_nil_r).
    set (p1 := with_batch _ _ _ p). destruct (Z.leb_spec (pc_batch_size (pd_config p1)) (Z.of_nat (length (pd_pending_messages p1)))) as [|Hlt].
    + apply (send_batch_inv _ _ _ p1 []); [done|done|by rewrite app_nil_r|done].
    + split; try done; simpl in *; [lia|]. intros pre f post [(_ & _ & [=])|[post' ->]]%snoc_split. by eapply Hfl.
  - exists (done ++ [inr t]).
    assert (Hall : all = (done ++ [inr t]) ++ (call_of <$> channel)) by (rewrite Hc, <- app_assoc; done).
    assert (Hms : messages_of (done ++ [inr t]) = (pd_results p).*1 ++ (bm_result_sender <$> pd_pending_messages p))
      by (rewrite messages_of_app, Hm; simpl; by rewrite app_nil_r).
    assert (Hfs : flushes_of (done ++ [inr t]) = pd_flushed p ++ [t]) by (rewrite flushes_of_app, Hf; done).
    set (p1 := with_batch _ _ _ p). assert (Hp1 : pd_pending_flushes p1 = [t]) by (simpl; by rewrite Hnf).
    change (pd_pending_messages p1) with (pd_pending_messages p). destruct (pd_pending_messages p) as [|m ms] eqn:Em.
    + split; simpl; rewrite ?Em, ?Hnf; try done. intros pre f post.
      intros [(_ & <- & _)|[post' ->]]%snoc_split; [|by eapply Hfl]. rewrite Hm, app_nil_r. done.
    + by apply (send_batch_inv _ _ _ p1 [t]).
Qed.
Lemma tick_inv all done now p : batching_inv all done p → batching_inv all done (batching_tick header_order now p).
Proof.
  intros Hi. destruct Hi as [Hc Hm Hf Hnf Hp Hfl]. unfold batching_tick. destruct (pd_pending_messages p) eqn:Em; [by split; rewrite ?Em|].
  rewrite <- Em in *. apply (send_batch_inv _ _ _ p []); [done|done|by rewrite app_nil_r|done].
Qed.
Lemma enqueue_inv all done p p' c :
  batching_inv all done p → pd_batch_channel p' = pd_batch_channel p ++ [c] →
  pd_results p' = pd_results p → pd_pending_messages p' = pd_pending_messages p → pd_flushed p' = pd_flushed p →
  pd_pending_flushes p' = pd_pending_flushes p → pd_config p' = pd_config p → batching_inv (all ++ [call_of c]) done p'.
Proof.
  intros [Hc Hm Hf Hnf Hp Hfl] E1 E2 E3 E4 E5 E6. split; rewrite ?E1, ?E2, ?E3, ?E4, ?E5, ?E6; try done.
  by rewrite Hc, fmap_app, app_assoc.
Qed.

Lemma producer_run_inv es all done p :
  batching_inv all done p → ∃ done', batching_inv (all ++ calls es) done' (producer_run es p).
Proof.
  revert all done p. induction es as [|e es IH]; intros all done p Hp; [exists done; by rewrite app_nil_r|].
  destruct e as [t m|t|now|now]; simpl.
  - change (inl t :: calls es) with ([inl t] ++ calls es). rewrite app_assoc. eapply IH. by eapply (enqueue_inv _ _ p _ (CmdMessage (mkBatched _ t))).
  - change (inr t :: calls es) with ([inr t] ++ calls es). rewrite app_assoc. eapply IH. by eapply (enqueue_inv _ _ p _ (CmdFlush t)).
  - destruct (receive_inv all done now p Hp) as [done1 H1]. by eapply IH.
  - eapply IH. by apply tick_inv.
Qed.

Lemma receive_channel now p : length (pd_batch_channel (batching_receive header_order now p)) = pred (length (pd_batch_channel p)).
Proof.
  unfold batching_receive. destruct (pd_batch_channel p) as [|[m|t] channel] eqn:Ec; [by rewrite Ec| |].
  - destruct (_ <=? _); [|done]. by destruct (send_batch_effect now (with_batch (pd_pending_messages p ++ [m]) (pd_pending_flushes p) channel p))
      as (_ & _ & _ & _ & -> & _).
  - set (p1 := with_batch _ _ channel p). destruct (pd_pending_messages p1) eqn:Em; [done|].
    by destruct (send_batch_effect now p1) as (_ & _ & _ & _ & -> & _).
Qed.
Lemma drain_inv all done now p n :
  batching_inv all done p →
  ∃ done', batching_inv all done' (Nat.iter n (batching_receive header_order now) p) ∧
    length (pd_batch_channel (Nat.iter n (batching_receive header_order now) p)) = (length (pd_batch_channel p) - n)%nat.
Proof.
  intros Hp. induction n as [|n (done' & IH & Hl)]; [exists done; split; [done|simpl; lia]|]. simpl.
  destruct (receive_inv all done' now _ IH) as [done2 H2]. exists done2. split; [done|]. rewrite receive_channel, Hl. lia.
Qed.
Lemma flush_before all done p pre f post :
  batching_inv all done p → NoDup (flushes_of all) → all = pre ++ inr f :: post → f ∈ pd_flushed p →
  messages_of pre `prefix_of` (pd_results p).*1.
Proof.
  intros Hi Hnd Hall Hf. rewrite <- (bt_flushes _ _ _ Hi) in Hf. pose proof (bt_channel _ _ _ Hi) as Hc.
  assert (Hpre : f ∉ flushes_of pre).
  { rewrite Hall, flushes_of_app in Hnd. apply NoDup_app in Hnd as (_ & Hd & _). intros Hin. apply (Hd f Hin). simpl. left. }
  rewrite Hall in Hc. symmetry in Hc. apply app_eq_inv in Hc as [(k & -> & Hk)|(k & -> & Hk)].
  - destruct k as [|c k]; [by rewrite app_nil_r in Hf|]. injection Hk as <- _. by eapply (bt_flushed _ _ _ Hi).
  - exfalso. apply Hpre. rewrite flushes_of_app. apply elem_of_app. by left.
Qed.

(** C27: Whatever is sent and flushed, whenever the batching task receives or its
    timer fires, and whatever the broker answers: the messages that were
    answered, those in the batch and those in the channel are together all
    messages sent, in the order in which they were sent, each once; the batch
    stays below its size; a flush completes only after every message sent
    before it was answered; and once the task has emptied the channel and its
    timer has fired, every message is answered. *)
Theorem producer_answers_in_order uuid topic config client es :
  NoDup (flushes_of (calls es)) →
  let p := producer_run es (producer_build uuid topic config client) in
  messages_of (calls es) =
    (pd_results p).*1 ++ (bm_result_sender <$> pd_pending_messages p) ++ messages_of (call_of <$> pd_batch_channel p) ∧
  Z.of_nat (length (pd_pending_messages p)) < Z.max 1 (pc_batch_size (pd_config p)) ∧
  (∀ pre f post, calls es = pre ++ inr f :: post → f ∈ pd_flushed p → messages_of pre `prefix_of` (pd_results p).*1) ∧
  (∀ now, (pd_results (batching_tick header_order now
             (Nat.iter (length (pd_batch_channel p)) (batching_receive header_order now) p))).*1 = messages_of (calls es)).
Proof.
  intros Hnd p. destruct (producer_run_inv es [] [] (producer_build uuid topic config client)) as [done Hi].
  { split; simpl; try done; [lia|]. intros pre f post H. by destruct pre. }
  simpl in Hi. fold p in Hi. split_and!.
  - rewrite (bt_channel _ _ _ Hi) at 1. by rewrite messages_of_app, (bt_messages _ _ _ Hi), app_assoc.
  - apply (bt_pending _ _ _ Hi).
  - intros pre f post. by apply flush_before with done.
  - intros now. destruct (drain_inv _ _ now p (length (pd_batch_channel p)) Hi) as (done2 & H2 & Hl).
    set (p2 := Nat.iter _ _ p) in *. assert (Hc : pd_batch_channel p2 = []) by (apply nil_length_inv; lia).
    pose proof (tick_inv _ _ now p2 H2) as H3. pose proof (bt_channel _ _ _ H2) as Hall. rewrite Hc, app_nil_r in Hall.
    rewrite Hall, (bt_messages _ _ _ H3). unfold batching_tick. destruct (pd_pending_messages p2) eqn:Em; [by rewrite Em, app_nil_r|].
    destruct (send_batch_effect now p2) as (_ & -> & _). by rewrite app_nil_r.
Qed.
End batching.

(** ** Concrete runs *)

Module ProducerDemo.
Import Mem StoreDemo CoreDemo GatewayDemo.
#[local] Existing Instances wal_codec list_codec list_laws um um_laws lru lru_laws no_followers.
#[export] Instance request_codec_laws : BincodeLaws ProduceRequest := DemoCodec.compact_laws.
#[export] Instance response_codec_laws : BincodeLaws ProduceResponse := DemoCodec.compact_laws.
Abbreviation Server := (QuicServer (BrokerHandler PS unit)).
Abbreviation broker := (connection 100 (λ _, 0) (λ _, 0) id id "m1" clock id id show).
Definition keep (l : list (string * string)) := l.

Definition config : ProducerConfig := mkProducerConfig (Some "p1") 2 AlLeader.
Definition message (id : string) (payload : bytes) : Message :=
  mkMessage id "orders" 0 0 None payload ∅ 7 None None None 1.
Definition online (outcomes : list NetOutcome) : QuicConnection Server := mkConnection server outcomes.
Definition batch : Producer (QuicConnection Server) :=
  mkProducer "p1" "orders" config 2 (mkProducerMetrics 0 0 0 f64_zero None) []
    [mkBatched (message "x" [10]) 0; mkBatched (message "y" [42]) 1] [9%nat] [] [] (online [Delivered 1000]).
Abbreviation sent := (send_batch_internal (ClientConnection0 := broker) keep 1 batch).

Lemma batch_acknowledged_witness :
  pd_results sent = [(0%nat, COk (mkMessageResult "x" "orders" 0 0 7)); (1%nat, COk (mkMessageResult "y" "orders" 0 1 7))] ∧
  ∃ core', core_of (pd_client sent) = Some (core', gcm_new st0 50) ∧
    resolve (bc_store core') Demo.tp0 1 = Some (mkWal Demo.tp0 1 (mkRecord None [42] [] 501) 0).
Proof.
  assert (E : pd_results sent = [(0%nat, COk (mkMessageResult "x" "orders" 0 0 7)); (1%nat, COk (mkMessageResult "y" "orders" 0 1 7))])
    by (vm_compute; reflexivity).
  split; [exact E|].
  destruct (batch_acknowledged 100 (λ _, 0) (λ _, 0) id id "m1" clock id id show keep 1 batch core0 (gcm_new st0 50) leader 10)
    as (_ & _ & [[e He]|[_ (core' & Hc & Hall)]]).
  - discriminate.
  - discriminate.
  - split; [reflexivity|reflexivity|split; vm_compute; discriminate|]. vm_compute. repeat constructor; discriminate.
  - reflexivity.
  - split.
    + exact store_ok_st0.
    + exact cache_ok_st0.
    + vm_compute. reflexivity.
    + vm_compute. discriminate.
    + split; [|split]; vm_compute; try reflexivity; discriminate.
  - split; [vm_compute; reflexivity|]. intros n rest [= <- _]. vm_compute. lia.
  - rewrite E in He. discriminate.
  - exists core'. split; [exact Hc|]. exact (as_records _ _ _ _ _ _ Hall 1%nat _ eq_refl).
Defined.

(** Sends, flushes and the batching task over a connection with faults *)
Definition events : list ProducerEvent :=
  [PeSend 0 (message "x" [10]); PeReceive 1; PeSend 1 (message "y" [42]); PeSend 2 (message "z" [7]); PeReceive 2; PeFlush 3;
   PeReceive 3; PeReceive 4; PeSend 4 (message "w" [8])].
Definition start : Producer (QuicConnection Server) :=
  producer_build "u" "orders" config (online [Delivered 1000; RequestLost CeTimeout; AnswerLost 1000 CeTimeout]).
Lemma producer_answers_in_order_witness :
  let p := producer_run (ClientConnection0 := broker) keep events start in
  (pd_results p).*1 = [0; 1; 2]%nat ∧ pd_flushed p = [3%nat] ∧ messages_of [inl 0; inl 1; inl 2]%nat `prefix_of` (pd_results p).*1.
Proof.
  intros p. split; [vm_compute; reflexivity|]. split; [vm_compute; reflexivity|].
  refine (proj1 (proj2 (proj2 (producer_answers_in_order (ClientConnection0 := broker) keep "u" "orders" config
    (online [Delivered 1000; RequestLost CeTimeout; AnswerLost 1000 CeTimeout]) events _))) [inl 0; inl 1; inl 2]%nat 3%nat [inl 4%nat] _ _).
  - vm_compute. repeat constructor; set_solver.
  - reflexivity.
  - fold start. fold p. replace (pd_flushed p) with [3%nat] by (vm_compute; reflexivity). set_solver.
Defined.

(** The answer to a stored batch can be lost: the caller sees an error, and a
    second attempt stores the message again. *)
Example retry_duplicates :
  let p := producer_run (ClientConnection0 := broker) keep
             [PeSend 0 (message "x" [10]); PeReceive 1; PeTick 2; PeSend 1 (message "x" [10]); PeReceive 3; PeTick 4]
             (producer_build "u" "orders" config (online [AnswerLost 1000 CeTimeout; Delivered 1000])) in
  (snd <$> pd_results p) = [CErr CeTimeout; COk (mkMessageResult "x" "orders" 0 1 7)].
Proof. vm_compute. reflexivity. Qed.
End ProducerDemo.
