(* ===== verification/SdkConsumer.v ===== *)
(** * The client library: the consumer

    Model of [src/sdk/rust/src/consumer.rs]: the offset tracker, the circuit
    breaker, the batching of acknowledgments, retries and dead letters, and the
    consumer with its background tasks.  Each task is split at its turns; the
    connection, [serde_json], bincode and the [lru] crate are interfaces.
    Partitions and offsets are [u32] and [u64]. *)

From S2P Require Import Prelude Types ConsumerGroup Gateway SdkProducer.
Local Open Scope Z_scope.

(** ** The offset tracker *)

Record OffsetTracker := mkTracker {
  ot_committed_offsets : gmap Z Z;
  ot_pending_offsets : gmap Z (gset Z);
  ot_acknowledged_offsets : gmap Z (gset Z);
  ot_last_commit_times : gmap Z Z;
}.
Definition tracker_default : OffsetTracker := mkTracker ∅ ∅ ∅ ∅.
Definition get_committed_offset (partition : Z) (t : OffsetTracker) : Z := default 0 (ot_committed_offsets t !! partition).
Definition set_committed_offset (now partition offset : Z) (t : OffsetTracker) : OffsetTracker :=
  mkTracker (<[partition := offset]> (ot_committed_offsets t)) (ot_pending_offsets t) (ot_acknowledged_offsets t)
    (<[partition := now]> (ot_last_commit_times t)).
Definition add_pending_offset (partition offset : Z) (t : OffsetTracker) : OffsetTracker :=
  mkTracker (ot_committed_offsets t)
    (<[partition := {[offset]} ∪ default ∅ (ot_pending_offsets t !! partition)]> (ot_pending_offsets t))
    (ot_acknowledged_offsets t) (ot_last_commit_times t).
Definition remove_pending_offset (partition offset : Z) (t : OffsetTracker) : OffsetTracker :=
  mkTracker (ot_committed_offsets t) (alter (λ s, s ∖ {[offset]}) partition (ot_pending_offsets t))
    (<[partition := {[offset]} ∪ default ∅ (ot_acknowledged_offsets t !! partition)]> (ot_acknowledged_offsets t))
    (ot_last_commit_times t).

(** The loop over consecutive acknowledged offsets *)
Fixpoint consecutive_from (fuel : nat) (acknowledged : gset Z) (committed : Z) : Z :=
  match fuel with
  | O => committed
  | S fuel =>
      let candidate := u64_add committed 1 in
      if decide (candidate ∈ acknowledged) then consecutive_from fuel acknowledged candidate else committed
  end.
Definition update_consecutive_committed (now partition : Z) (t : OffsetTracker) : OffsetTracker :=
  let current := get_committed_offset partition t in
  match ot_acknowledged_offsets t !! partition with
  | None => t
  | Some acknowledged =>
      let new_committed := consecutive_from (size acknowledged) acknowledged current in
      if current <? new_committed then
        let t := set_committed_offset now partition new_committed t in
        mkTracker (ot_committed_offsets t) (ot_pending_offsets t)
          (<[partition := filter (λ o, ¬ o ≤ new_committed) acknowledged]> (ot_acknowledged_offsets t)) (ot_last_commit_times t)
      else t
  end.
Definition clear_pending_offsets (partition : Z) (t : OffsetTracker) : OffsetTracker :=
  mkTracker (ot_committed_offsets t) (delete partition (ot_pending_offsets t)) (ot_acknowledged_offsets t)
    (ot_last_commit_times t).

(** ** The circuit breaker *)

Inductive CircuitState := Closed | Open | HalfOpen.
Record CircuitBreaker := mkBreaker {
  cb_state : CircuitState;
  cb_failure_threshold : Z;
  cb_recovery_timeout : Z;
  cb_consecutive_failures : Z;
  cb_last_failure_time : option Z;
}.
Definition breaker_new (failure_threshold recovery_timeout : Z) : CircuitBreaker :=
  mkBreaker Closed failure_threshold recovery_timeout 0 None.
Definition with_circuit (s : CircuitState) (b : CircuitBreaker) : CircuitBreaker :=
  mkBreaker s (cb_failure_threshold b) (cb_recovery_timeout b) (cb_consecutive_failures b) (cb_last_failure_time b).
Definition can_execute (now : Z) (b : CircuitBreaker) : bool * CircuitBreaker :=
  match cb_state b with
  | Closed | HalfOpen => (true, b)
  | Open =>
      match cb_last_failure_time b with
      | Some last => if cb_recovery_timeout b <? Z.max 0 (now - last) then (true, with_circuit HalfOpen b) else (false, b)
      | None => (false, b)
      end
  end.
Definition on_success (b : CircuitBreaker) : CircuitBreaker :=
  mkBreaker Closed (cb_failure_threshold b) (cb_recovery_timeout b) 0 (cb_last_failure_time b).
Definition on_failure (now : Z) (b : CircuitBreaker) : CircuitBreaker :=
  let failures := u64_add (cb_consecutive_failures b) 1 in
  let b := mkBreaker (cb_state b) (cb_failure_threshold b) (cb_recovery_timeout b) failures (Some now) in
  if cb_failure_threshold b <=? failures then with_circuit Open b else b.

(** ** Acknowledgments in batches *)

Record AckRequest := mkAck { ak_offset : Z; ak_partition : Z; ak_success : bool }.
Record BatchProcessor := mkBatchProcessor {
  bx_pending_acks : list AckRequest;
  bx_batch_size : Z;
  bx_batch_timeout : Z;
  bx_last_flush : Z;
}.
Definition add_ack_request (a : AckRequest) (b : BatchProcessor) : BatchProcessor :=
  mkBatchProcessor (bx_pending_acks b ++ [a]) (bx_batch_size b) (bx_batch_timeout b) (bx_last_flush b).
Definition drain_pending (now : Z) (b : BatchProcessor) : list AckRequest * BatchProcessor :=
  if (bx_batch_size b <=? Z.of_nat (length (bx_pending_acks b))) || (bx_batch_timeout b <=? Z.max 0 (now - bx_last_flush b))
  then (bx_pending_acks b, mkBatchProcessor [] (bx_batch_size b) (bx_batch_timeout b) now)
  else ([], b).

(** ** The consumer *)

Inductive StartPosition := Earliest | Latest | AtOffset (o : Z) | AtTimestamp (t : Z).
Inductive ConsumerRequest :=
  | ReqSubscribe (topic consumer_group consumer_id : string) (start_position : StartPosition)
  | ReqFetch (topic : string) (partition offset max_messages timeout_ms : Z)
  | ReqCommitOffsets (topic consumer_group : string) (offsets : gmap Z Z)
  | ReqSeek (topic : string) (partition offset : Z)
  | ReqSeekToTimestamp (topic : string) (partition timestamp : Z)
  | ReqSeekAllToTimestamp (topic : string) (timestamp : Z)
  | ReqGetConsumerGroupMetadata (consumer_group : string)
  | ReqGetPartitionMetadata (topic : string)
  | ReqUnsubscribe (topic consumer_group consumer_id : string)
  | ReqRequestRebalance (consumer_group consumer_id : string).
Record PartitionInfo := mkPartitionInfo {
  pn_partition_id : Z;
  pn_leader_broker : string;
  pn_replica_brokers : list string;
  pn_high_watermark : Z;
  pn_low_watermark : Z;
}.
Inductive ConsumerResponse :=
  | RspSubscribeOk (assigned_partitions : list Z)
  | RspFetchOk (messages : list Message) (next_offset partition : Z)
  | RspCommitOk (committed_partitions : list Z)
  | RspSeekOk (partition new_offset : Z)
  | RspSeekAllOk (partition_offsets : gmap Z Z)
  | RspConsumerGroupMetadata (partitions : gmap Z Z)
  | RspPartitionMetadata (partitions : list PartitionInfo)
  | RspRebalanceTriggered (new_assignment : list Z)
  | RspUnsubscribeOk
  | RspError (message : string) (error_code : Z).

Record FailedMessage := mkFailed { fm_message : Message; fm_retry_count : Z; fm_next_retry_time : Z; fm_partition : Z }.
Record PartitionState := mkPartitionState { sp_last_fetch_time : option Z; sp_is_paused : bool }.
Record ConsumerConfig := mkConsumerConfig {
  kc_fetch_size : Z;
  kc_fetch_timeout_ms : Z;
  kc_max_retry_attempts : Z;
  kc_dead_letter_queue : option string;
}.
(** [lru::LruCache] with messages by partition and offset *)
Class MessageLru (L : Type) := {
  ml_new : Z → L;
  ml_put : Z * Z → Message → L → L;
  ml_get : Z * Z → L → option Message * L;
}.
#[global] Hint Mode MessageLru ! : typeclass_instances.

(** Of the metrics only the counters of processed and failed messages; the
    channels are lists; [kn_dead_letters] are the messages handed to a producer of
    the dead letter topic. *)
Record Consumer (B L : Type) := mkConsumerState {
  kn_id : string;
  kn_topic : string;
  kn_group : string;
  kn_config : ConsumerConfig;
  kn_client : B;
  kn_message_channel : option (list Message);
  kn_offset_tracker : OffsetTracker;
  kn_messages_processed : Z;
  kn_messages_failed : Z;
  kn_is_closed : bool;
  kn_failed_messages : list FailedMessage;
  kn_partition_assignment : option (list Z);
  kn_partition_states : gmap Z PartitionState;
  kn_paused_partitions : list Z;
  kn_message_cache : L;
  kn_circuit_breaker : CircuitBreaker;
  kn_ack_channel : list AckRequest;
  kn_batch_processor : BatchProcessor;
  kn_dead_letters : list (string * Message);
}.
Arguments mkConsumerState {B L}. Arguments kn_id {B L}. Arguments kn_topic {B L}. Arguments kn_group {B L}.
Arguments kn_config {B L}. Arguments kn_client {B L}. Arguments kn_message_channel {B L}. Arguments kn_offset_tracker {B L}.
Arguments kn_messages_processed {B L}. Arguments kn_messages_failed {B L}. Arguments kn_is_closed {B L}.
Arguments kn_failed_messages {B L}. Arguments kn_partition_assignment {B L}. Arguments kn_partition_states {B L}.
Arguments kn_paused_partitions {B L}. Arguments kn_message_cache {B L}. Arguments kn_circuit_breaker {B L}.
Arguments kn_ack_channel {B L}. Arguments kn_batch_processor {B L}. Arguments kn_dead_letters {B L}.

Section setters.
Context {B L : Type}.
Implicit Types (k : Consumer B L).
Definition with_client (client : B) k : Consumer B L :=
  mkConsumerState (kn_id k) (kn_topic k) (kn_group k) (kn_config k) client (kn_message_channel k) (kn_offset_tracker
    k) (kn_messages_processed k) (kn_messages_failed k) (kn_is_closed k) (kn_failed_messages k)
    (kn_partition_assignment k) (kn_partition_states k) (kn_paused_partitions k) (kn_message_cache k)
    (kn_circuit_breaker k) (kn_ack_channel k) (kn_batch_processor k) (kn_dead_letters k).
Definition with_messages (message_channel : option (list Message)) k : Consumer B L :=
  mkConsumerState (kn_id k) (kn_topic k) (kn_group k) (kn_config k) (kn_client k) message_channel (kn_offset_tracker
    k) (kn_messages_processed k) (kn_messages_failed k) (kn_is_closed k) (kn_failed_messages k)
    (kn_partition_assignment k) (kn_partition_states k) (kn_paused_partitions k) (kn_message_cache k)
    (kn_circuit_breaker k) (kn_ack_channel k) (kn_batch_processor k) (kn_dead_letters k).
Definition with_tracker (offset_tracker : OffsetTracker) k : Consumer B L :=
  mkConsumerState (kn_id k) (kn_topic k) (kn_group k) (kn_config k) (kn_client k) (kn_message_channel k)
    offset_tracker (kn_messages_processed k) (kn_messages_failed k) (kn_is_closed k) (kn_failed_messages k)
    (kn_partition_assignment k) (kn_partition_states k) (kn_paused_partitions k) (kn_message_cache k)
    (kn_circuit_breaker k) (kn_ack_channel k) (kn_batch_processor k) (kn_dead_letters k).
Definition with_counts (messages_processed : Z) (messages_failed : Z) k : Consumer B L :=
  mkConsumerState (kn_id k) (kn_topic k) (kn_group k) (kn_config k) (kn_client k) (kn_message_channel k)
    (kn_offset_tracker k) messages_processed messages_failed (kn_is_closed k) (kn_failed_messages k)
    (kn_partition_assignment k) (kn_partition_states k) (kn_paused_partitions k) (kn_message_cache k)
    (kn_circuit_breaker k) (kn_ack_channel k) (kn_batch_processor k) (kn_dead_letters k).
Definition with_closed (is_closed : bool) k : Consumer B L :=
  mkConsumerState (kn_id k) (kn_topic k) (kn_group k) (kn_config k) (kn_client k) (kn_message_channel k)
    (kn_offset_tracker k) (kn_messages_processed k) (kn_messages_failed k) is_closed (kn_failed_messages k)
    (kn_partition_assignment k) (kn_partition_states k) (kn_paused_partitions k) (kn_message_cache k)
    (kn_circuit_breaker k) (kn_ack_channel k) (kn_batch_processor k) (kn_dead_letters k).
Definition with_failed (failed_messages : list FailedMessage) k : Consumer B L :=
  mkConsumerState (kn_id k) (kn_topic k) (kn_group k) (kn_config k) (kn_client k) (kn_message_channel k)
    (kn_offset_tracker k) (kn_messages_processed k) (kn_messages_failed k) (kn_is_closed k) failed_messages
    (kn_partition_assignment k) (kn_partition_states k) (kn_paused_partitions k) (kn_message_cache k)
    (kn_circuit_breaker k) (kn_ack_channel k) (kn_batch_processor k) (kn_dead_letters k).
Definition with_partitions (partition_assignment : option (list Z)) (partition_states : gmap Z PartitionState) k : Consumer B L :=
  mkConsumerState (kn_id k) (kn_topic k) (kn_group k) (kn_config k) (kn_client k) (kn_message_channel k)
    (kn_offset_tracker k) (kn_messages_processed k) (kn_messages_failed k) (kn_is_closed k) (kn_failed_messages k)
    partition_assignment partition_states (kn_paused_partitions k) (kn_message_cache k) (kn_circuit_breaker k)
    (kn_ack_channel k) (kn_batch_processor k) (kn_dead_letters k).
Definition with_paused (paused_partitions : list Z) k : Consumer B L :=
  mkConsumerState (kn_id k) (kn_topic k) (kn_group k) (kn_config k) (kn_client k) (kn_message_channel k)
    (kn_offset_tracker k) (kn_messages_processed k) (kn_messages_failed k) (kn_is_closed k) (kn_failed_messages k)
    (kn_partition_assignment k) (kn_partition_states k) paused_partitions (kn_message_cache k) (kn_circuit_breaker k)
    (kn_ack_channel k) (kn_batch_processor k) (kn_dead_letters k).
Definition with_message_cache (message_cache : L) k : Consumer B L :=
  mkConsumerState (kn_id k) (kn_topic k) (kn_group k) (kn_config k) (kn_client k) (kn_message_channel k)
    (kn_offset_tracker k) (kn_messages_processed k) (kn_messages_failed k) (kn_is_closed k) (kn_failed_messages k)
    (kn_partition_assignment k) (kn_partition_states k) (kn_paused_partitions k) message_cache (kn_circuit_breaker k)
    (kn_ack_channel k) (kn_batch_processor k) (kn_dead_letters k).
Definition with_breaker (circuit_breaker : CircuitBreaker) k : Consumer B L :=
  mkConsumerState (kn_id k) (kn_topic k) (kn_group k) (kn_config k) (kn_client k) (kn_message_channel k)
    (kn_offset_tracker k) (kn_messages_processed k) (kn_messages_failed k) (kn_is_closed k) (kn_failed_messages k)
    (kn_partition_assignment k) (kn_partition_states k) (kn_paused_partitions k) (kn_message_cache k) circuit_breaker
    (kn_ack_channel k) (kn_batch_processor k) (kn_dead_letters k).
Definition with_acks (ack_channel : list AckRequest) k : Consumer B L :=
  mkConsumerState (kn_id k) (kn_topic k) (kn_group k) (kn_config k) (kn_client k) (kn_message_channel k)
    (kn_offset_tracker k) (kn_messages_processed k) (kn_messages_failed k) (kn_is_closed k) (kn_failed_messages k)
    (kn_partition_assignment k) (kn_partition_states k) (kn_paused_partitions k) (kn_message_cache k)
    (kn_circuit_breaker k) ack_channel (kn_batch_processor k) (kn_dead_letters k).
Definition with_processor (batch_processor : BatchProcessor) k : Consumer B L :=
  mkConsumerState (kn_id k) (kn_topic k) (kn_group k) (kn_config k) (kn_client k) (kn_message_channel k)
    (kn_offset_tracker k) (kn_messages_processed k) (kn_messages_failed k) (kn_is_closed k) (kn_failed_messages k)
    (kn_partition_assignment k) (kn_partition_states k) (kn_paused_partitions k) (kn_message_cache k)
    (kn_circuit_breaker k) (kn_ack_channel k) batch_processor (kn_dead_letters k).
Definition with_dead_letters (dead_letters : list (string * Message)) k : Consumer B L :=
  mkConsumerState (kn_id k) (kn_topic k) (kn_group k) (kn_config k) (kn_client k) (kn_message_channel k)
    (kn_offset_tracker k) (kn_messages_processed k) (kn_messages_failed k) (kn_is_closed k) (kn_failed_messages k)
    (kn_partition_assignment k) (kn_partition_states k) (kn_paused_partitions k) (kn_message_cache k)
    (kn_circuit_breaker k) (kn_ack_channel k) (kn_batch_processor k) dead_letters.
End setters.

Section consumer.
Context {B L : Type} `{!ClientConnection B, !MessageLru L}.
Context `{!Json ConsumerRequest, !Json ConsumerResponse, !RequestCodecs}.
Implicit Types (k : Consumer B L).

(** [ConsumerBuilder::build] up to the subscription *)
Definition consumer_new (now : Z) (uuid topic group : string) (consumer_id : option string) (config : ConsumerConfig) (client : B)
  : Consumer B L :=
  mkConsumerState (default ("consumer-" +:+ uuid) consumer_id) topic group config client (Some []) tracker_default 0 0 false []
    None ∅ [] (ml_new (kc_fetch_size config * 10)) (breaker_new 5 60000) [] (mkBatchProcessor [] 100 100 now) [].

(** A request in the client's JSON protocol *)
Definition json_request (request_type : Z) (request : ConsumerRequest) k : CResult ConsumerResponse * Consumer B L :=
  match send_request request_type (to_json request) (kn_client k) with
  | (CErr e, client) => (CErr e, with_client client k)
  | (COk response, client) =>
      (match from_json response with Some r => COk r | None => CErr CeSerialization end, with_client client k)
  end.
(** A request in the broker's binary protocol *)
Definition binary_request {Req Resp} `{!Bincode Req, !Bincode Resp} (request_type : RequestType) (request : Req) k
  : CResult Resp * Consumer B L :=
  match send_request (request_type_code request_type) (serialize request) (kn_client k) with
  | (CErr e, client) => (CErr e, with_client client k)
  | (COk response, client) =>
      (match deserialize response with Some r => COk r | None => CErr CeSerialization end, with_client client k)
  end.

Definition subscribe k : CResult unit * Consumer B L :=
  let request := mkJoin (kn_group k) (kn_id k) 30000 [kn_topic k] in
  match binary_request (Resp := JoinGroupResponse) JoinGroup request k with
  | (CErr e, k) => (CErr e, k)
  | (COk response, k) =>
      let assigned := tp_partition <$> default [] (jp_assigned_partitions response !! kn_id k) in
      let states := foldl (λ m p, <[p := mkPartitionState None false]> m) (kn_partition_states k) assigned in
      (COk tt, with_partitions (Some assigned) states k)
  end.

(** *** Receiving and acknowledging *)

(** [receive] when a message is there; [None] means that it waits. *)
Definition receive k : CResult (option Message) * Consumer B L :=
  match kn_message_channel k with
  | None => (CErr CeConsumer, k)
  | Some [] => (COk None, k)
  | Some (m :: channel) =>
      (COk (Some m), with_message_cache (ml_put (m_partition m, m_offset m) m (kn_message_cache k)) (with_messages (Some channel) k))
  end.
(** [ConsumerMessage::ack] and [nack] *)
Definition acknowledge (success : bool) (m : Message) k : Consumer B L :=
  with_acks (kn_ack_channel k ++ [mkAck (m_offset m) (m_partition m) success]) k.

(** A turn of [run_ack_handler] *)
Definition ack_handler_step k : Consumer B L :=
  match kn_ack_channel k with
  | [] => k
  | a :: channel => with_processor (add_ack_request a (kn_batch_processor k)) (with_acks channel k)
  end.

Definition process_ack (now : Z) (a : AckRequest) k : Consumer B L :=
  if ak_success a then
    let t := update_consecutive_committed now (ak_partition a)
               (remove_pending_offset (ak_partition a) (ak_offset a) (kn_offset_tracker k)) in
    with_counts (u64_add (kn_messages_processed k) 1) (kn_messages_failed k) (with_tracker t k)
  else
    let '(found, cache) := ml_get (ak_partition a, ak_offset a) (kn_message_cache k) in
    let k := with_message_cache cache k in
    let k := match found with
             | Some m => with_failed (kn_failed_messages k ++ [mkFailed m 0 (now + 1000) (ak_partition a)]) k
             | None => k
             end in
    with_counts (kn_messages_processed k) (u64_add (kn_messages_failed k) 1) k.
Definition process_partition_acks (now : Z) (acks : list AckRequest) k : Consumer B L :=
  foldl (λ k a, process_ack now a k) k acks.
(** [order] is the order in which the hash map of partitions is iterated. *)
Definition process_batched_acks (order : list Z → list Z) (now : Z) k : Consumer B L :=
  let '(acks, b) := drain_pending now (kn_batch_processor k) in
  let k := with_processor b k in
  foldl (λ k p, process_partition_acks now (filter (λ a, ak_partition a = p) acks) k) k
    (order (remove_dups (ak_partition <$> acks))).

(** *** Fetching *)

Definition fetch_messages_for_partition (now partition : Z) k : CResult unit * Consumer B L :=
  let current_offset := u64_add (get_committed_offset partition (kn_offset_tracker k)) 1 in
  let request := ReqFetch (kn_topic k) partition current_offset (kc_fetch_size (kn_config k)) (kc_fetch_timeout_ms (kn_config k)) in
  match json_request (request_type_code Fetch) request k with
  | (CErr e, k) => (CErr e, k)
  | (COk (RspFetchOk messages _ response_partition), k) =>
      let t := foldl (λ t m, add_pending_offset response_partition (m_offset m) t) (kn_offset_tracker k) messages in
      let states := alter (λ s, mkPartitionState (Some now) (sp_is_paused s)) response_partition (kn_partition_states k) in
      let k := with_partitions (kn_partition_assignment k) states (with_tracker t k) in
      (COk tt, with_messages ((λ channel, channel ++ messages) <$> kn_message_channel k) k)
  | (COk _, k) => (COk tt, k)
  end.
Definition fetch_with_circuit_breaker (now partition : Z) k : CResult unit * Consumer B L :=
  let '(allowed, b) := can_execute now (kn_circuit_breaker k) in
  let k := with_breaker b k in
  if negb allowed then (COk tt, k)
  else match fetch_messages_for_partition now partition k with
       | (COk _, k) => (COk tt, with_breaker (on_success (kn_circuit_breaker k)) k)
       | (CErr e, k) => (CErr e, with_breaker (on_failure now (kn_circuit_breaker k)) k)
       end.

(** *** Retries *)

(** [1 << n] on [u64] *)
Definition backoff_secs (n : Z) : Z := Z.shiftl 1 (Z.land n 63).
Definition dead_letter (k_group : string) (dlq_topic : string) (m : Message) : Message :=
  mkMessage (m_id m) dlq_topic (m_partition m) (m_offset m) (m_key m) (m_payload m)
    (<["consumer_group" := k_group]> (<["failure_reason" := "max_retries_exceeded"]> (<["original_topic" := m_topic m]> (m_headers m))))
    (m_timestamp m) (m_producer_id m) (m_sequence m) (m_compression m) (m_size m).
(** The front of the queue as far as it is due *)
Fixpoint due (now : Z) (failed : list FailedMessage) : list FailedMessage * list FailedMessage :=
  match failed with
  | f :: failed => if fm_next_retry_time f <=? now then let '(ready, rest) := due now failed in (f :: ready, rest) else ([], f :: failed)
  | [] => ([], [])
  end.
Definition retry_one (now : Z) (f : FailedMessage) k : Consumer B L :=
  if fm_retry_count f <? kc_max_retry_attempts (kn_config k) then
    let n := fm_retry_count f + 1 in
    let f' := mkFailed (fm_message f) n (now + 1000 * backoff_secs n) (fm_partition f) in
    with_failed (kn_failed_messages k ++ [f']) (with_messages ((λ channel, channel ++ [fm_message f]) <$> kn_message_channel k) k)
  else
    let k := match kc_dead_letter_queue (kn_config k) with
             | Some dlq => with_dead_letters (kn_dead_letters k ++ [(dlq, dead_letter (kn_group k) dlq (fm_message f))]) k
             | None => k
             end in
    with_counts (kn_messages_processed k) (u64_add (kn_messages_failed k) 1) k.
Definition process_failed_messages (now : Z) k : Consumer B L :=
  let '(ready, rest) := due now (kn_failed_messages k) in
  foldl (λ k f, retry_one now f k) (with_failed rest k) ready.

(** A turn of [run_consumption_loop] *)
Definition consumption_step (now : Z) k : Consumer B L :=
  if kn_is_closed k then k else
  let k := process_failed_messages now k in
  foldl (λ k p, if bool_decide (p ∈ kn_paused_partitions k) then k else (fetch_messages_for_partition now p k).2) k
    (default [] (kn_partition_assignment k)).

(** *** Committing and seeking *)

Definition commit (order : list (TopicPartition * Z) → list (TopicPartition * Z)) k : CResult unit * Consumer B L :=
  let offsets := ot_committed_offsets (kn_offset_tracker k) in
  if decide (offsets = ∅) then (COk tt, k)
  else
    let request := mkCommit (kn_group k) (kn_id k) 1
                     (order ((λ po, (mkTP (kn_topic k) po.1, po.2)) <$> map_to_list offsets)) in
    match binary_request (Resp := CommitOffsetResponse) CommitOffset request k with
    | (CErr e, k) => (CErr e, k)
    | (COk response, k) => (if cop_error_code response =? 0 then COk tt else CErr CeConsumer, k)
    end.

Definition seek_to (now partition offset : Z) (t : OffsetTracker) : OffsetTracker :=
  clear_pending_offsets partition (set_committed_offset now partition offset t).
Definition seek_request (now : Z) (request : ConsumerRequest) k : CResult unit * Consumer B L :=
  match json_request (request_type_code Fetch) request k with
  | (CErr e, k) => (CErr e, k)
  | (COk (RspSeekOk p o), k) => (COk tt, with_tracker (seek_to now p o (kn_offset_tracker k)) k)
  | (COk (RspError _ _), k) => (CErr CeConsumer, k)
  | (COk _, k) => (CErr CeProtocol, k)
  end.
Definition seek (now partition offset : Z) k : CResult unit * Consumer B L :=
  seek_request now (ReqSeek (kn_topic k) partition offset) k.
Definition seek_to_timestamp (now partition timestamp : Z) k : CResult unit * Consumer B L :=
  seek_request now (ReqSeekToTimestamp (kn_topic k) partition timestamp) k.
Definition seek_all (now offset : Z) k : CResult unit * Consumer B L :=
  let '(failed, k) := foldl (λ acc p, let '(r, k) := seek now p offset acc.2 in
                                      (match r with CErr _ => true | COk _ => acc.1 end, k)) (false, k)
                        (default [] (kn_partition_assignment k)) in
  (if failed : bool then CErr CeConsumer else COk tt, k).
Definition seek_all_to_timestamp (now timestamp : Z) k : CResult (gmap Z Z) * Consumer B L :=
  match json_request (request_type_code Fetch) (ReqSeekAllToTimestamp (kn_topic k) timestamp) k with
  | (CErr e, k) => (CErr e, k)
  | (COk (RspSeekAllOk offsets), k) =>
      (COk offsets, with_tracker (foldl (λ t po, seek_to now po.1 po.2 t) (kn_offset_tracker k) (map_to_list offsets)) k)
  | (COk (RspError _ _), k) => (CErr CeConsumer, k)
  | (COk _, k) => (CErr CeProtocol, k)
  end.

Definition unsubscribe k : CResult unit * Consumer B L :=
  match binary_request (Resp := LeaveGroupResponse) LeaveGroup (mkLeave (kn_group k) (kn_id k)) k with
  | (CErr e, k) => (CErr e, k)
  | (COk _, k) => (COk tt, k)
  end.
Definition consumer_close order k : CResult unit * Consumer B L :=
  if kn_is_closed k then (COk tt, k)
  else
    let k := (unsubscribe (with_closed true k)).2 in
    match commit order k with
    | (CErr e, k) => (CErr e, k)
    | (COk _, k) => (COk tt, with_messages None k)
    end.

Definition get_lag k : CResult (gmap Z Z) * Consumer B L :=
  let tps := mkTP (kn_topic k) <$> default [] (kn_partition_assignment k) in
  match binary_request (Resp := FetchOffsetResponse) FetchOffset (mkFetchOffset (kn_group k) tps) k with
  | (CErr e, k) => (CErr e, k)
  | (COk response, k) =>
      (COk (foldl (λ m to, let local := get_committed_offset (tp_partition to.1) (kn_offset_tracker k) in
                           <[tp_partition to.1 := if local <? to.2 then to.2 - local else 0]> m) ∅
              (map_to_list (fop_offsets response))), k)
  end.
Definition set_paused (paused : bool) (s : PartitionState) : PartitionState := mkPartitionState (sp_last_fetch_time s) paused.
Definition pause_partitions (partitions : list Z) k : Consumer B L :=
  foldl (λ k p,
    with_partitions (kn_partition_assignment k) (alter (set_paused true) p (kn_partition_states k))
      (if bool_decide (p ∈ kn_paused_partitions k) then k else with_paused (kn_paused_partitions k ++ [p]) k)) k partitions.
Definition resume_partitions (partitions : list Z) k : Consumer B L :=
  foldl (λ k p,
    with_partitions (kn_partition_assignment k) (alter (set_paused false) p (kn_partition_states k))
      (with_paused (filter (λ q, q ≠ p) (kn_paused_partitions k)) k)) k partitions.
Definition committed_offset (partition : Z) k : CResult Z * Consumer B L :=
  match json_request (request_type_code Fetch) (ReqGetConsumerGroupMetadata (kn_group k)) k with
  | (CErr e, k) => (CErr e, k)
  | (COk (RspConsumerGroupMetadata partitions), k) =>
      (match partitions !! partition with Some o => COk o | None => CErr (CePartitionNotFound (kn_topic k) partition) end, k)
  | (COk (RspError _ _), k) => (CErr CeConsumer, k)
  | (COk _, k) => (CErr CeProtocol, k)
  end.
End consumer.

(** ** Consecutive offsets *)

Section offsets.
Implicit Types (acked : gset Z) (t : OffsetTracker).

(** Offsets below the largest one, as brokers assign them *)
Definition offsets_ok acked : Prop := ∀ o, o ∈ acked → 0 ≤ o < u64_MAX.

Lemma consecutive_from_range fuel acked c : is_u64 c → is_u64 (consecutive_from fuel acked c).
Proof.
  revert c. induction fuel as [|fuel IH]; intros c Hc; [done|]. simpl. case_decide; [|done]. apply IH, u64_add_range.
Qed.
(** What it passes was acknowledged. *)
Lemma consecutive_from_acked fuel acked c :
  is_u64 c → let r := consecutive_from fuel acked c in c < r → ∀ o, c < o ≤ r → o ∈ acked.
Proof.
  revert c. induction fuel as [|fuel IH]; intros c Hc; simpl; [lia|]. case_decide as Hin; [|lia].
  destruct (decide (c = u64_MAX)) as [->|Hne].
  - pose proof (consecutive_from_range fuel acked (u64_add u64_MAX 1) (u64_add_range _ _)) as [_ Hr]. unfold u64_MAX in *. lia.
  - assert (Hadd : u64_add c 1 = c + 1) by (apply u64_add_small; unfold is_u64, u64_MAX in *; lia).
    rewrite Hadd in *. intros Hlt o Ho. destruct (decide (o = c + 1)) as [->|]; [done|].
    apply (IH (c + 1)); [unfold is_u64, u64_MAX in *; lia|lia|lia].
Qed.
(** With as much fuel as there are acknowledged offsets, it stops at a gap. *)
Lemma consecutive_from_stops fuel acked c :
  offsets_ok acked → 0 ≤ c < u64_MAX → (size acked ≤ fuel)%nat →
  let r := consecutive_from fuel acked c in c ≤ r ∧ r + 1 ∉ acked.
Proof.
  intros Hok Hc Hfuel.
  assert (Hgen : ∀ fuel acked' c', acked' ⊆ acked → (∀ o, o ∈ acked → o ∉ acked' → o ≤ c') → 0 ≤ c' < u64_MAX →
    (∀ o, o ∈ acked' → c' < o) → (size acked' ≤ fuel)%nat →
    c' ≤ consecutive_from fuel acked c' ∧ consecutive_from fuel acked c' + 1 ∉ acked).
  { clear -Hok. intros fuel. induction fuel as [|fuel IH]; intros acked' c' Hsub Hout Hc Hgt Hsz; simpl.
    - assert (acked' = ∅) as -> by (apply leibniz_equiv, size_empty_iff; lia).
      split; [lia|]. intros Hin. specialize (Hout _ Hin ltac:(set_solver)). lia.
    - rewrite (u64_add_small c' 1) by (unfold u64_MAX in *; lia). case_decide as Hin.
      + assert (Hin' : c' + 1 ∈ acked') by (destruct (decide (c' + 1 ∈ acked')) as [|Hn]; [done|specialize (Hout _ Hin Hn); lia]).
        destruct (IH (acked' ∖ {[c' + 1]}) (c' + 1)) as [H1 H2]; [set_solver| |specialize (Hok _ Hin); lia| | |split; [lia|done]].
        * intros o Ho Hn. destruct (decide (o = c' + 1)) as [->|]; [lia|]. specialize (Hout o Ho ltac:(set_solver)). lia.
        * intros o [Ho Hn]%elem_of_difference. specialize (Hgt o Ho). rewrite elem_of_singleton in Hn. lia.
        * rewrite size_difference by set_solver. rewrite size_singleton. lia.
      + split; [lia|done]. }
  apply (Hgen fuel (filter (λ o, c < o) acked) c); [set_solver| |done|set_solver|].
  - intros o Ho Hn. rewrite elem_of_filter in Hn. destruct (decide (c < o)); [by destruct Hn|lia].
  - transitivity (size acked); [apply subseteq_size; set_solver|done].
Qed.

Definition acked_of (p : Z) t : gset Z := default ∅ (ot_acknowledged_offsets t !! p).

(** Acknowledging an offset: what the committed offset passes was acknowledged,
    nothing acknowledged beyond it is forgotten, and other partitions are not
    touched; *)
Lemma ack_safe now p o t :
  is_u64 (get_committed_offset p t) →
  let t' := update_consecutive_committed now p (remove_pending_offset p o t) in
  let acked := {[o]} ∪ acked_of p t in
  let c := get_committed_offset p t in
  let c' := get_committed_offset p t' in
  c ≤ c' ∧ is_u64 c' ∧ (∀ x, c < x ≤ c' → x ∈ acked) ∧
  (∀ x, x ∈ acked_of p t' → x ∈ acked) ∧ (∀ x, c' < x → x ∈ acked → x ∈ acked_of p t') ∧
  (∀ q, q ≠ p → get_committed_offset q t' = get_committed_offset q t ∧ acked_of q t' = acked_of q t) ∧
  c' = Z.max c (consecutive_from (size acked) acked c).
Proof.
  intros Hcu t' acked c c'.
  pose proof (consecutive_from_acked (size acked) acked c Hcu) as Hin.
  pose proof (consecutive_from_range (size acked) acked c Hcu) as Hr.
  subst c' t'. unfold update_consecutive_committed.
  change (get_committed_offset p (remove_pending_offset p o t)) with c.
  assert (Ea : ot_acknowledged_offsets (remove_pending_offset p o t) !! p = Some acked) by (simpl; apply lookup_insert_eq).
  rewrite Ea. set (r := consecutive_from _ _ _) in *. destruct (Z.ltb_spec c r) as [Hlt|Hge].
  - unfold acked_of, get_committed_offset. simpl. rewrite !lookup_insert_eq. simpl. split_and!; try done; try lia.
    + intros x Hx. by apply Hin.
    + set_solver.
    + intros x Hx Hx'. apply elem_of_filter. split; [lia|done].
    + intros q Hq. by rewrite !lookup_insert_ne.
  - assert (Ec : get_committed_offset p (remove_pending_offset p o t) = c) by done. rewrite Ec.
    unfold acked_of. simpl. rewrite lookup_insert_eq. simpl.
    split_and!; [done|done|lia|done|done| |lia]. intros q Hq. by rewrite lookup_insert_ne.
Qed.
(** and it ends before a gap. *)
Lemma ack_stops now p o t :
  offsets_ok ({[o]} ∪ acked_of p t) → 0 ≤ get_committed_offset p t < u64_MAX →
  get_committed_offset p (update_consecutive_committed now p (remove_pending_offset p o t)) + 1 ∉ {[o]} ∪ acked_of p t.
Proof.
  intros Hok Hc. destruct (ack_safe now p o t) as (_ & _ & _ & _ & _ & _ & ->); [unfold is_u64, u64_MAX in *; lia|].
  destruct (consecutive_from_stops (size ({[o]} ∪ acked_of p t)) _ _ Hok Hc ltac:(lia)) as [Hle Hn].
  by rewrite Z.max_r.
Qed.
End offsets.

(** ** What is committed was acknowledged *)

Section runs.
Context {B L : Type} `{!ClientConnection B, !MessageLru L}.
Context `{!Json ConsumerRequest, !Json ConsumerResponse, !RequestCodecs}.
Implicit Types (k : Consumer B L).

Inductive ConsumerEvent :=
  | KeSubscribe
  | KeReceive
  | KeAck (success : bool) (m : Message)
  | KeAckHandler
  | KeBatch (now : Z)
  | KeConsume (now : Z)
  | KeCommit
  | KeSeek (now partition offset : Z)
  | KeSeekTimestamp (now partition timestamp : Z)
  | KeSeekAll (now offset : Z)
  | KeSeekAllTimestamp (now timestamp : Z)
  | KePause (partitions : list Z)
  | KeResume (partitions : list Z)
  | KeClose.
Context (order : list Z → list Z).
Context (commit_order : list (TopicPartition * Z) → list (TopicPartition * Z)).
Definition consumer_step (e : ConsumerEvent) k : Consumer B L :=
  match e with
  | KeSubscribe => (subscribe k).2
  | KeReceive => (receive k).2
  | KeAck success m => acknowledge success m k
  | KeAckHandler => ack_handler_step k
  | KeBatch now => process_batched_acks order now k
  | KeConsume now => consumption_step now k
  | KeCommit => (commit commit_order k).2
  | KeSeek now p o => (seek now p o k).2
  | KeSeekTimestamp now p t => (seek_to_timestamp now p t k).2
  | KeSeekAll now o => (seek_all now o k).2
  | KeSeekAllTimestamp now t => (seek_all_to_timestamp now t k).2
  | KePause ps => pause_partitions ps k
  | KeResume ps => resume_partitions ps k
  | KeClose => (consumer_close commit_order k).2
  end.

Definition positive (acks : list AckRequest) : gset (Z * Z) :=
  list_to_set (omap (λ a, if ak_success a then Some (ak_partition a, ak_offset a) else None) acks).

(** A history next to the consumer: what the application acknowledged, what of
    it was processed, and where partitions were sought to. *)
Record History := mkHistory {
  hi_acked : gset (Z * Z);
  hi_processed : gset (Z * Z);
  hi_sought : gmap Z Z;
}.
Definition is_seek (e : ConsumerEvent) : bool :=
  match e with KeSeek _ _ _ | KeSeekTimestamp _ _ _ | KeSeekAll _ _ | KeSeekAllTimestamp _ _ => true | _ => false end.
(** The committed offsets that a seek changed *)
Definition moved (t t' : OffsetTracker) : gmap Z Z :=
  filter (λ po, ot_committed_offsets t !! po.1 ≠ Some po.2) (ot_committed_offsets t').
Definition record (e : ConsumerEvent) k (h : History) : History :=
  mkHistory
    (match e with KeAck true m => {[(m_partition m, m_offset m)]} ∪ hi_acked h | _ => hi_acked h end)
    (match e with KeBatch now => positive (drain_pending now (kn_batch_processor k)).1 ∪ hi_processed h | _ => hi_processed h end)
    (if is_seek e then moved (kn_offset_tracker k) (kn_offset_tracker (consumer_step e k)) ∪ hi_sought h else hi_sought h).
Fixpoint consumer_run (es : list ConsumerEvent) (s : Consumer B L * History) : Consumer B L * History :=
  match es with
  | [] => s
  | e :: es => consumer_run es (consumer_step e s.1, record e s.1 s.2)
  end.
Definition event_ok (e : ConsumerEvent) : Prop := match e with KeAck true m => 0 ≤ m_offset m < u64_MAX | _ => True end.

Record tracked (h : History) k : Prop := {
  tk_processed : hi_processed h ⊆ hi_acked h;
  tk_waiting a : a ∈ kn_ack_channel k ++ bx_pending_acks (kn_batch_processor k) → ak_success a = true →
    (ak_partition a, ak_offset a) ∈ hi_acked h;
  tk_offsets p o : (p, o) ∈ hi_acked h → 0 ≤ o < u64_MAX;
  tk_acknowledged p x : x ∈ acked_of p (kn_offset_tracker k) → (p, x) ∈ hi_processed h;
  tk_range p : is_u64 (get_committed_offset p (kn_offset_tracker k));
  tk_committed p x : default 0 (hi_sought h !! p) < x ≤ get_committed_offset p (kn_offset_tracker k) → (p, x) ∈ hi_processed h;
  tk_exact p : hi_sought h !! p = None →
    get_committed_offset p (kn_offset_tracker k) < u64_MAX ∧
    ¬ ((p, get_committed_offset p (kn_offset_tracker k) + 1) ∈ hi_processed h) ∧
    ∀ x, get_committed_offset p (kn_offset_tracker k) < x → (p, x) ∈ hi_processed h → x ∈ acked_of p (kn_offset_tracker k);
}.

(** *** Acknowledgments *)

Lemma positive_app l1 l2 : positive (l1 ++ l2) = positive l1 ∪ positive l2.
Proof. unfold positive. by rewrite omap_app, list_to_set_app_L. Qed.
Lemma elem_of_positive acks p o : (p, o) ∈ positive acks ↔ mkAck o p true ∈ acks.
Proof.
  unfold positive. rewrite elem_of_list_to_set, list_elem_of_omap. split.
  - intros ([o' p' []] & Ha & E); simpl in E; [|done]. by injection E as -> ->.
  - intros Ha. by exists (mkAck o p true).
Qed.

(** The view of the acknowledgments that other operations keep *)
Definition ack_view k := (ot_acknowledged_offsets (kn_offset_tracker k), kn_ack_channel k, bx_pending_acks (kn_batch_processor k)).
Definition commit_view k := ot_committed_offsets (kn_offset_tracker k).
Lemma tracked_frame h k k' : ack_view k' = ack_view k → commit_view k' = commit_view k → tracked h k → tracked h k'.
Proof.
  unfold ack_view, commit_view. intros [= E1 E2 E3] E4 [H1 H2 H3 H4 H5 H6 H7].
  assert (Ec : ∀ p, get_committed_offset p (kn_offset_tracker k') = get_committed_offset p (kn_offset_tracker k))
    by (intros; unfold get_committed_offset; by rewrite E4).
  assert (Ea : ∀ p, acked_of p (kn_offset_tracker k') = acked_of p (kn_offset_tracker k)) by (intros; unfold acked_of; by rewrite E1).
  split; rewrite ?E2, ?E3; try done; intros p; rewrite ?Ec, ?Ea; eauto.
Qed.

Lemma process_ack_tracked now a h k :
  tracked h k → (ak_success a = true → (ak_partition a, ak_offset a) ∈ hi_acked h) →
  tracked (mkHistory (hi_acked h) (positive [a] ∪ hi_processed h) (hi_sought h)) (process_ack now a k).
Proof.
  intros Hk Ha. unfold process_ack. destruct a as [o p []]; simpl in *.
  - specialize (Ha eq_refl). set (t := kn_offset_tracker k).
    assert (Hpos : positive [mkAck o p true] = {[(p, o)]}) by (unfold positive; simpl; set_solver). rewrite Hpos.
    destruct Hk as [H1 H2 H3 H4 H5 H6 H7]. destruct (ack_safe now p o t (H5 p)) as (A1 & A2 & A3 & A4 & A5 & A6 & _).
    set (t' := update_consecutive_committed now p (remove_pending_offset p o t)) in *. fold t in H4, H5, H6, H7.
    assert (Hacked : ∀ x, x ∈ {[o]} ∪ acked_of p t → (p, x) ∈ {[(p, o)]} ∪ hi_processed h).
    { intros x [->%elem_of_singleton|Hx]%elem_of_union; [set_solver|]. apply elem_of_union_r. by apply H4. }
    assert (Hok : offsets_ok ({[o]} ∪ acked_of p t)).
    { intros x Hx%Hacked. apply (H3 p x). set_solver. }
    split; simpl; try done.
    + set_solver.
    + intros q x. destruct (decide (q = p)) as [->|Hne]; [intros Hx; by apply Hacked, A4|].
      destruct (A6 q Hne) as [_ ->]. intros Hx. apply elem_of_union_r. by apply H4.
    + intros q. destruct (decide (q = p)) as [->|Hne]; [done|]. destruct (A6 q Hne) as [-> _]. apply H5.
    + intros q x Hx. destruct (decide (q = p)) as [->|Hne].
      * destruct (decide (x ≤ get_committed_offset p t)); [apply elem_of_union_r, H6; lia|]. apply Hacked, A3. lia.
      * destruct (A6 q Hne) as [Ec _]. rewrite Ec in Hx. apply elem_of_union_r, H6. lia.
    + intros q Hq. destruct (H7 q Hq) as (E1 & E2 & E3). destruct (decide (q = p)) as [->|Hne].
      * assert (Hc : 0 ≤ get_committed_offset p t < u64_MAX) by (destruct (H5 p); lia).
        pose proof (ack_stops now p o t Hok Hc) as Hstop. fold t' in Hstop.
        assert (Hfar : ∀ x, get_committed_offset p t' < x → (p, x) ∈ {[(p, o)]} ∪ hi_processed h → x ∈ {[o]} ∪ acked_of p t).
        { intros x Hx [Hx'|Hx']%elem_of_union; [set_solver|]. apply elem_of_union_r, E3; [lia|done]. }
        split_and!.
        -- destruct (decide (get_committed_offset p t' = get_committed_offset p t)) as [->|]; [lia|].
           apply (Hok (get_committed_offset p t')), A3. lia.
        -- intros Hin. apply Hstop, Hfar; [lia|done].
        -- intros x Hx Hin. apply A5; [done|]. by apply Hfar.
      * destruct (A6 q Hne) as [-> ->]. split_and!; [done| |].
        -- intros [[= ->]%elem_of_singleton|]%elem_of_union; done.
        -- intros x Hx [[= -> ->]%elem_of_singleton|Hin]%elem_of_union; [done|]. by apply E3.
  - assert (positive [mkAck o p false] ∪ hi_processed h = hi_processed h) as -> by (unfold positive; simpl; set_solver).
    destruct h as [ha hp hs]. simpl. destruct (ml_get _ _) as [[m|] cache]; (eapply tracked_frame; [..|exact Hk]; reflexivity).
Qed.

(** The drained acknowledgments go through in some order of the partitions. *)
Lemma process_partition_acks_tracked now acks h k :
  tracked h k → (∀ a, a ∈ acks → ak_success a = true → (ak_partition a, ak_offset a) ∈ hi_acked h) →
  tracked (mkHistory (hi_acked h) (positive acks ∪ hi_processed h) (hi_sought h)) (process_partition_acks now acks k).
Proof.
  revert h k. induction acks as [|a acks IH]; intros h k Hk Ha.
  - assert (positive [] ∪ hi_processed h = hi_processed h) as -> by apply (left_id_L ∅ (∪)). by destruct h.
  - assert (Hstep := process_ack_tracked now a h k Hk (Ha a ltac:(constructor))).
    apply IH in Hstep; [|intros b Hb; apply Ha; by constructor]. simpl in Hstep.
    change (a :: acks) with ([a] ++ acks) at 1. rewrite positive_app, (comm_L (∪) (positive [a])), <- (assoc_L (∪)). exact Hstep.
Qed.
Lemma process_partitions_tracked now acks ps h k :
  tracked h k → (∀ a, a ∈ acks → ak_success a = true → (ak_partition a, ak_offset a) ∈ hi_acked h) →
  tracked (mkHistory (hi_acked h) (positive (p ← ps; filter (λ a, ak_partition a = p) acks) ∪ hi_processed h) (hi_sought h))
    (foldl (λ k p, process_partition_acks now (filter (λ a, ak_partition a = p) acks) k) k ps).
Proof.
  revert h k. induction ps as [|p ps IH]; intros h k Hk Ha; simpl.
  - assert (positive [] ∪ hi_processed h = hi_processed h) as -> by apply (left_id_L ∅ (∪)). by destruct h.
  - assert (Hstep := process_partition_acks_tracked now (filter (λ a, ak_partition a = p) acks) h k Hk
                       (λ a Hin, Ha a (proj2 (proj1 (list_elem_of_filter _ _ _) Hin)))).
    apply IH in Hstep; [|done]. simpl in Hstep. rewrite positive_app, (comm_L (∪) (positive _)), <- (assoc_L (∪)). exact Hstep.
Qed.

Context (Horder : ∀ l, order l ≡ₚ l).
Lemma positive_by_partition acks :
  positive (p ← order (remove_dups (ak_partition <$> acks)); filter (λ a, ak_partition a = p) acks) = positive acks.
Proof using Horder.
  apply set_eq. intros [p o]. rewrite !elem_of_positive, list_elem_of_bind. split.
  - intros (q & [_ Hin]%list_elem_of_filter & _). done.
  - intros Hin. exists p. split; [by apply list_elem_of_filter|]. rewrite Horder, elem_of_remove_dups.
    apply list_elem_of_fmap. by exists (mkAck o p true).
Qed.
Lemma process_batched_acks_tracked now h k :
  tracked h k →
  tracked (mkHistory (hi_acked h) (positive (drain_pending now (kn_batch_processor k)).1 ∪ hi_processed h) (hi_sought h))
    (process_batched_acks order now k).
Proof using Horder.
  intros Hk. unfold process_batched_acks. destruct (drain_pending now (kn_batch_processor k)) as [acks b] eqn:E.
  assert (Hsub : ∀ a, (a ∈ acks → a ∈ bx_pending_acks (kn_batch_processor k)) ∧
                      (a ∈ bx_pending_acks b → a ∈ bx_pending_acks (kn_batch_processor k))).
  { unfold drain_pending in E. case_match; injection E as <- <-; intros a; split; simpl; try done; by intros []%elem_of_nil. }
  simpl. rewrite <- (positive_by_partition acks) at 1. apply process_partitions_tracked.
  - destruct Hk as [H1 H2 H3 H4 H5 H6 H7]. split; simpl; try done.
    intros a [Ha|Ha]%elem_of_app; apply H2, elem_of_app; [by left|right; by apply (proj2 (Hsub a))].
  - intros a Ha Hs. apply (tk_waiting h k Hk); [|done]. apply elem_of_app. right. by apply (proj1 (Hsub a)).
Qed.

(** *** Operations that keep both views *)

Definition same_view k k' : Prop := ack_view k' = ack_view k ∧ commit_view k' = commit_view k.
#[local] Instance same_view_preorder : PreOrder same_view.
Proof. split; [by intros k|]. intros k1 k2 k3 [E1 E2] [E3 E4]. split; by etransitivity. Qed.
Lemma foldl_view {A} (f : Consumer B L → A → Consumer B L) l k :
  (∀ k a, same_view k (f k a)) → same_view k (foldl f k l).
Proof. intros Hf. revert k. induction l as [|a l IH]; intros k; [done|]. simpl. by etransitivity; [apply Hf|apply IH]. Qed.

Lemma json_request_view ty r k : same_view k (json_request ty r k).2.
Proof. unfold json_request. by destruct (send_request _ _ _) as [[b|e] client]. Qed.
Lemma binary_request_view {Req Resp} `{!Bincode Req, !Bincode Resp} ty (r : Req) k :
  same_view k (binary_request (Resp := Resp) ty r k).2.
Proof. unfold binary_request. by destruct (send_request _ _ _) as [[b|e] client]. Qed.
Lemma subscribe_view k : same_view k (subscribe k).2.
Proof.
  unfold subscribe. set (r := mkJoin _ _ _ _). pose proof (binary_request_view (Resp := JoinGroupResponse) JoinGroup r k) as Hv.
  by destruct (binary_request _ _ _) as [[resp|e] k'].
Qed.
Lemma receive_view k : same_view k (receive k).2.
Proof. unfold receive. by destruct (kn_message_channel k) as [[|m ms]|]. Qed.
Lemma retry_one_view now f k : same_view k (retry_one now f k).
Proof. unfold retry_one. case_match; [done|]. by destruct (kc_dead_letter_queue _). Qed.
Lemma add_pending_view p ms t :
  let t' := foldl (λ t m, add_pending_offset p (m_offset m) t) t ms in
  ot_acknowledged_offsets t' = ot_acknowledged_offsets t ∧ ot_committed_offsets t' = ot_committed_offsets t.
Proof. simpl. revert t. induction ms as [|m ms IH]; intros t; [done|]. simpl. by destruct (IH (add_pending_offset p (m_offset m) t)) as [-> ->]. Qed.
Lemma fetch_view now p k : same_view k (fetch_messages_for_partition now p k).2.
Proof.
  unfold fetch_messages_for_partition. set (r := ReqFetch _ _ _ _ _).
  pose proof (json_request_view (request_type_code Fetch) r k) as Hv.
  destruct (json_request _ _ _) as [[[]|e] k']; try done. simpl in *.
  etransitivity; [exact Hv|]. destruct (add_pending_view partition messages (kn_offset_tracker k')) as [E1 E2].
  unfold same_view, ack_view, commit_view. simpl. by rewrite E1, E2.
Qed.
Lemma consumption_view now k : same_view k (consumption_step now k).
Proof.
  unfold consumption_step, process_failed_messages. destruct (kn_is_closed k); [done|].
  destruct (due now (kn_failed_messages k)) as [ready rest].
  transitivity (with_failed rest k); [done|].
  etransitivity; [apply (foldl_view (λ k f, retry_one now f k) ready); intros; apply retry_one_view|].
  apply foldl_view. intros k' p. case_bool_decide; [done|apply fetch_view].
Qed.
Lemma commit_keeps_view k : same_view k (commit commit_order k).2.
Proof.
  unfold commit. case_decide; [done|]. set (r := mkCommit _ _ _ _).
  pose proof (binary_request_view (Resp := CommitOffsetResponse) CommitOffset r k) as Hv.
  by destruct (binary_request _ _ _) as [[resp|e] k'].
Qed.
Lemma unsubscribe_view k : same_view k (unsubscribe k).2.
Proof.
  unfold unsubscribe. set (r := mkLeave _ _). pose proof (binary_request_view (Resp := LeaveGroupResponse) LeaveGroup r k) as Hv.
  by destruct (binary_request _ _ _) as [[resp|e] k'].
Qed.
Lemma close_view k : same_view k (consumer_close commit_order k).2.
Proof.
  unfold consumer_close. destruct (kn_is_closed k); [done|].
  transitivity (unsubscribe (with_closed true k)).2; [etransitivity; [|apply unsubscribe_view]; done|].
  generalize (unsubscribe (with_closed true k)).2. intros k'. pose proof (commit_keeps_view k') as Hv.
  by destruct (commit commit_order k') as [[]].
Qed.
Lemma pause_view ps k : same_view k (pause_partitions ps k).
Proof. apply foldl_view. intros k' p. by case_bool_decide. Qed.
Lemma resume_view ps k : same_view k (resume_partitions ps k).
Proof. by apply foldl_view. Qed.

(** *** Seeking *)

(** Only committed offsets change, and to [u64]. *)
Record sought_from k k' : Prop := {
  sf_view : ack_view k' = ack_view k;
  sf_dom p : is_Some (commit_view k !! p) → is_Some (commit_view k' !! p);
  sf_range p o : commit_view k' !! p = Some o → commit_view k !! p = Some o ∨ is_u64 o;
}.
#[local] Instance sought_from_preorder : PreOrder sought_from.
Proof.
  split; [split; eauto|]. intros k1 k2 k3 [E1 D1 R1] [E2 D2 R2].
  split; [by etransitivity|by eauto|]. intros p o [Ho|Ho]%R2; [by apply R1|by right].
Qed.
Lemma same_view_sought k k' : same_view k k' → sought_from k k'.
Proof. intros [E1 E2]. split; [done|by rewrite E2|]. intros p o. rewrite E2. by left. Qed.
Lemma seek_to_sought now p o k : is_u64 o → sought_from k (with_tracker (seek_to now p o (kn_offset_tracker k)) k).
Proof.
  intros Ho. split; [done| |]; unfold commit_view; simpl.
  - intros q [x Hx]. destruct (decide (q = p)) as [->|]; [rewrite lookup_insert_eq|rewrite lookup_insert_ne by done]; eauto.
  - intros q x. destruct (decide (q = p)) as [->|]; [rewrite lookup_insert_eq|rewrite lookup_insert_ne by done; by left].
    intros [= ->]. by right.
Qed.
Lemma sought_tracked h k k' :
  sought_from k k' → tracked h k →
  tracked (mkHistory (hi_acked h) (hi_processed h) (moved (kn_offset_tracker k) (kn_offset_tracker k') ∪ hi_sought h)) k'.
Proof.
  intros [[= Ea Ech Ebp] Hdom Hr] [H1 H2 H3 H4 H5 H6 H7]. unfold commit_view in Hdom, Hr.
  set (t := kn_offset_tracker k) in *. set (t' := kn_offset_tracker k') in *.
  assert (Eacked : ∀ p, acked_of p t' = acked_of p t) by (intros; unfold acked_of; by rewrite Ea).
  assert (Hmoved : ∀ p, moved t t' !! p = None → get_committed_offset p t' = get_committed_offset p t).
  { intros p. unfold moved, get_committed_offset. rewrite map_lookup_filter_None. intros [Hn|Hn].
    - rewrite Hn. destruct (ot_committed_offsets t !! p) eqn:E; [|done]. destruct (Hdom p) as [x Hx]; [eauto|congruence].
    - destruct (ot_committed_offsets t' !! p) as [o|] eqn:E; [specialize (Hn o eq_refl); simpl in Hn; apply dec_stable in Hn; by rewrite Hn|].
      destruct (ot_committed_offsets t !! p) eqn:E'; [|done]. destruct (Hdom p) as [x Hx]; [eauto|congruence]. }
  assert (Hat : ∀ p o, moved t t' !! p = Some o → get_committed_offset p t' = o)
    by (intros p o [Ho _]%map_lookup_filter_Some; unfold get_committed_offset; by rewrite Ho).
  split; simpl; rewrite ?Ech, ?Ebp; fold t t'; try done.
  - intros p x. rewrite Eacked. apply H4.
  - intros p. destruct (moved t t' !! p) as [o|] eqn:E; [|rewrite (Hmoved p E); apply H5].
    apply map_lookup_filter_Some in E as [Ho Hne]. unfold get_committed_offset. rewrite Ho. simpl in *.
    by destruct (Hr p o Ho).
  - intros p x Hx. apply (H6 p). rewrite lookup_union in Hx. destruct (moved t t' !! p) as [o|] eqn:E.
    + rewrite union_Some_l in Hx. simpl in Hx. rewrite (Hat p o E) in Hx. lia.
    + rewrite (left_id_L None (∪)), (Hmoved p E) in Hx. exact Hx.
  - intros p [Hm Hs]%lookup_union_None. rewrite (Hmoved p Hm), Eacked. by apply H7.
Qed.

(** Offsets in responses are [u64]. *)
Context (seek_u64 : ∀ b p o, from_json b = Some (RspSeekOk p o) → is_u64 o).
Context (seek_all_u64 : ∀ b m p o, from_json b = Some (RspSeekAllOk m) → m !! p = Some o → is_u64 o).

Lemma json_request_decodes ty r k resp k' : json_request ty r k = (COk resp, k') → ∃ b, from_json b = Some resp.
Proof using Type. unfold json_request. destruct (send_request _ _ _) as [[b|e] client]; [|done]. case_match; naive_solver. Qed.
Lemma seek_request_sought now r k : sought_from k (seek_request now r k).2.
Proof using seek_u64.
  unfold seek_request. pose proof (same_view_sought _ _ (json_request_view (request_type_code Fetch) r k)) as Hv.
  destruct (json_request _ _ _) as [[[]|e] k'] eqn:E; try exact Hv. simpl in *.
  apply json_request_decodes in E as [b Hb]. etransitivity; [exact Hv|]. by eapply seek_to_sought, seek_u64.
Qed.
Lemma seek_all_sought now o k : sought_from k (seek_all now o k).2.
Proof using seek_u64.
  unfold seek_all. set (f := λ acc p, _).
  assert (Hgen : ∀ ps failed k', sought_from k k' → sought_from k (foldl f (failed, k') ps).2).
  { intros ps. induction ps as [|p ps IH]; intros failed k' Hk'; [done|]. simpl. unfold f at 2. simpl.
    pose proof (seek_request_sought now (ReqSeek (kn_topic k') p o) k') as Hs.
    unfold seek. destruct (seek_request _ _ _) as [r k'']. apply IH. by etransitivity. }
  specialize (Hgen (default [] (kn_partition_assignment k)) false k (reflexivity k)).
  by destruct (foldl f _ _) as [[] k'].
Qed.
Lemma seek_all_to_timestamp_sought now ts k : sought_from k (seek_all_to_timestamp now ts k).2.
Proof using seek_all_u64.
  unfold seek_all_to_timestamp. set (r := ReqSeekAllToTimestamp _ _).
  pose proof (same_view_sought _ _ (json_request_view (request_type_code Fetch) r k)) as Hv.
  destruct (json_request _ _ _) as [[[]|e] k'] eqn:E; try exact Hv. simpl in *.
  apply json_request_decodes in E as [b Hb]. etransitivity; [exact Hv|]. clear Hv.
  assert (Hall : ∀ po, po ∈ map_to_list partition_offsets → is_u64 po.2)
    by (intros [p o] Ho%elem_of_map_to_list; by eapply seek_all_u64).
  revert Hall. generalize (map_to_list partition_offsets) as l. intros l. clear Hb. revert k'.
  induction l as [|[p o] l IH]; intros k' Hall; [by destruct k'|]. simpl.
  etransitivity; [apply (seek_to_sought now p o); by apply (Hall (p, o)); constructor|].
  apply (IH (with_tracker _ k')). intros po Hpo. apply Hall. by constructor.
Qed.

(** *** Every event *)

(** No acknowledgment is lost: it is processed or waits. *)
Definition waiting k : list AckRequest := kn_ack_channel k ++ bx_pending_acks (kn_batch_processor k).
Definition acks_kept (h : History) k : Prop := hi_acked h = hi_processed h ∪ positive (waiting k).
Lemma process_ack_queues now a k :
  kn_ack_channel (process_ack now a k) = kn_ack_channel k ∧ kn_batch_processor (process_ack now a k) = kn_batch_processor k.
Proof. unfold process_ack. destruct (ak_success a); [done|]. by destruct (ml_get _ _) as [[m|] cache]. Qed.
Lemma process_batched_acks_waiting now k :
  positive (waiting k) = positive (drain_pending now (kn_batch_processor k)).1 ∪ positive (waiting (process_batched_acks order now k)).
Proof.
  clear Horder seek_u64 seek_all_u64.
  assert (Hp : ∀ acks k, kn_ack_channel (process_partition_acks now acks k) = kn_ack_channel k ∧
                         kn_batch_processor (process_partition_acks now acks k) = kn_batch_processor k).
  { intros acks. unfold process_partition_acks. induction acks as [|a acks IH]; intros k'; [done|]. simpl.
    destruct (IH (process_ack now a k')) as [-> ->]. apply process_ack_queues. }
  unfold process_batched_acks. destruct (drain_pending now (kn_batch_processor k)) as [acks b] eqn:E. simpl.
  assert (Hf : ∀ ps k', let k'' := foldl (λ k p, process_partition_acks now (filter (λ a, ak_partition a = p) acks) k) k' ps in
    waiting k'' = waiting k').
  { intros ps. induction ps as [|p ps IH]; intros k'; [done|]. simpl. rewrite IH. unfold waiting.
    destruct (Hp (filter (λ a, ak_partition a = p) acks) k') as [E1 E2]. by rewrite E1, E2. }
  rewrite Hf. unfold drain_pending in E. unfold waiting. destruct (_ || _); injection E as <- <-; rewrite !positive_app; simpl; set_solver.
Qed.

Lemma step_tracked e h k :
  event_ok e → tracked h k ∧ acks_kept h k → tracked (record e k h) (consumer_step e k) ∧ acks_kept (record e k h) (consumer_step e k).
Proof using Horder seek_u64 seek_all_u64.
  intros He [Hk Ha]. assert (Hid : mkHistory (hi_acked h) (hi_processed h) (hi_sought h) = h) by (by destruct h).
  assert (Hsame : ∀ k', same_view k k' → tracked h k' ∧ acks_kept h k').
  { intros k' [E1 E2]. split; [by eapply tracked_frame|]. injection E1 as _ E3 E4. unfold acks_kept, waiting. by rewrite E3, E4. }
  assert (Hsought : ∀ k', sought_from k k' →
    let h' := mkHistory (hi_acked h) (hi_processed h) (moved (kn_offset_tracker k) (kn_offset_tracker k') ∪ hi_sought h) in
    tracked h' k' ∧ acks_kept h' k').
  { intros k' Hs. split; [by apply sought_tracked|]. destruct Hs as [[= _ E3 E4] _ _]. unfold acks_kept, waiting. simpl. by rewrite E3, E4. }
  destruct e; unfold record, consumer_step; simpl; rewrite ?Hid.
  - apply Hsame, subscribe_view.
  - apply Hsame, receive_view.
  - split; [|destruct success; unfold acks_kept, waiting in *; simpl; rewrite !positive_app in *; set_solver].
    destruct Hk as [H1 H2 H3 H4 H5 H6 H7]. split; simpl; try done.
    + destruct success; set_solver.
    + intros a. rewrite !elem_of_app, list_elem_of_singleton. intros [[Hin| ->]|Hin] Hs.
      * assert (Hin' := H2 a (proj2 (elem_of_app _ _ _) (or_introl Hin)) Hs). destruct success; set_solver.
      * simpl in *. destruct success; [set_solver|done].
      * assert (Hin' := H2 a (proj2 (elem_of_app _ _ _) (or_intror Hin)) Hs). destruct success; set_solver.
    + intros p o. destruct success; [|apply H3]. intros [[= -> ->]%elem_of_singleton|Hin]%elem_of_union; [done|by apply (H3 p)].
  - unfold ack_handler_step. destruct (kn_ack_channel k) as [|a channel] eqn:Ec; [done|].
    split; [|unfold acks_kept, waiting in *; simpl in *; rewrite Ec in Ha; rewrite Ha, !positive_app;
             change (a :: channel) with ([a] ++ channel); rewrite positive_app; set_solver].
    destruct Hk as [H1 H2 H3 H4 H5 H6 H7]. split; simpl; try done. rewrite Ec in H2.
    intros b [Hb|[Hb| ->%list_elem_of_singleton]%elem_of_app]%elem_of_app; apply H2, elem_of_app.
    + left. by constructor.
    + by right.
    + left. constructor.
  - split; [by apply process_batched_acks_tracked|]. unfold acks_kept in *. simpl. rewrite Ha.
    rewrite (process_batched_acks_waiting now k). set_solver.
  - apply Hsame, consumption_view.
  - apply Hsame, commit_keeps_view.
  - apply Hsought, seek_request_sought.
  - apply Hsought, seek_request_sought.
  - apply Hsought, seek_all_sought.
  - apply Hsought, seek_all_to_timestamp_sought.
  - apply Hsame, pause_view.
  - apply Hsame, resume_view.
  - apply Hsame, close_view.
Qed.

(** C26: From a new consumer, whatever the application receives, acknowledges,
    seeks, commits, pauses and closes, however its background tasks are
    scheduled, whichever order the partitions of a batch are processed in and
    whatever the broker answers: every acknowledgment is processed or still
    queued; every offset between the position a partition was last moved to by a
    seek (0 when it never was) and the offset the consumer would commit was
    acknowledged by the application and processed; and for a partition that was
    never moved the offset it would commit is the end of the unbroken run of
    processed offsets, neither earlier nor later. *)
Theorem commits_only_acknowledged now uuid topic group id config client es :
  Forall event_ok es →
  let s := consumer_run es (consumer_new now uuid topic group id config client, mkHistory ∅ ∅ ∅) in
  let t := kn_offset_tracker s.1 in
  hi_acked s.2 = hi_processed s.2 ∪ positive (waiting s.1) ∧
  (∀ p x, default 0 (hi_sought s.2 !! p) < x ≤ get_committed_offset p t → (p, x) ∈ hi_processed s.2 ∧ (p, x) ∈ hi_acked s.2) ∧
  (∀ p, hi_sought s.2 !! p = None → 0 ≤ get_committed_offset p t < u64_MAX ∧ (p, get_committed_offset p t + 1) ∉ hi_processed s.2).
Proof using Horder seek_u64 seek_all_u64.
  intros Hes. set (s0 := (consumer_new now uuid topic group id config client, mkHistory ∅ ∅ ∅)).
  assert (H0 : tracked s0.2 s0.1 ∧ acks_kept s0.2 s0.1).
  { split; [|unfold acks_kept, waiting, positive; simpl; set_solver]. split; simpl; try done; unfold acked_of, get_committed_offset; simpl.
    - intros a []%elem_of_nil.
    - intros p x. rewrite !lookup_empty. simpl. lia. }
  clearbody s0. revert s0 H0. induction Hes as [|e es He _ IH]; intros [k h] H0.
  - destruct H0 as [[H1 H2 H3 H4 H5 H6 H7] Ha]. simpl in *. split_and!; [exact Ha| |].
    + intros p x Hx. assert (Hp := H6 p x Hx). split; [done|by apply H1].
    + intros p Hp. destruct (H7 p Hp) as (Hc & Hn & _). split; [|done]. split; [apply H5|done].
  - apply (IH (_, _)). by apply step_tracked.
Qed.
End runs.

(** ** Concrete runs *)

Module ConsumerDemo.
(** A broker that answers every fetch with the two messages from the offset
    asked for and grants every seek; it keeps the requests it got. *)
Definition message (o : Z) : Message := mkMessage "m" "orders" 0 o None [o] ∅ 7 None None None 1.
#[export] Instance requests : Json ConsumerRequest := {|
  to_json r := match r with
               | ReqFetch _ p o _ _ => [1; p; o]
               | ReqSeek _ p o | ReqSeekToTimestamp _ p o => [2; p; o]
               | _ => [3]
               end;
  from_json _ := None;
|}.
#[export] Instance responses : Json ConsumerResponse := {|
  to_json _ := [];
  from_json b := match b with
                 | [1; p; o] => Some (RspFetchOk [message o; message (o + 1)] (o + 2) p)
                 | [2; p; o] => if bool_decide (is_u64 o) then Some (RspSeekOk p o) else None
                 | _ => None
                 end;
|}.
Definition fixed {A} (answer : option A) : Bincode A := {| serialize _ := [0]; deserialize _ := answer |}.
#[export] Instance codecs : RequestCodecs := {|
  rc_pq := fixed None; rc_pz := fixed None; rc_fq := fixed None; rc_fz := fixed None; rc_mq := fixed None; rc_mz := fixed None;
  rc_fc := fixed None; rc_fp := fixed None; rc_jr := fixed None;
  rc_jp := fixed (Some (mkJoinResponse 1 "c1" "c1" {["c1" := [mkTP "orders" 0]]} 0));
  rc_ch := fixed None; rc_chp := fixed None;
  rc_co := {| serialize r := co_generation_id r :: (co_offsets r).*2; deserialize _ := None |};
  rc_cop := fixed (Some (mkCommitCode 0)); rc_fo := fixed None; rc_fop := fixed None; rc_lg := fixed None;
  rc_lgp := fixed (Some (mkLeaveCode 0));
|}.
#[export] Instance echo : ClientConnection (list (Z * bytes)) := {| send_request ty b sent := (COk b, sent ++ [(ty, b)]) |}.
#[export] Instance cache : MessageLru (list (Z * Z * Message)) := {|
  ml_new _ := [];
  ml_put k m l := (k, m) :: l;
  ml_get k l := (snd <$> list_find (λ kv, kv.1 = k) l ≫= λ kv, Some kv.2, l);
|}.
Definition config : ConsumerConfig := mkConsumerConfig 10 100 1 (Some "dead").
Definition start : Consumer (list (Z * bytes)) (list (Z * Z * Message)) := consumer_new 0 "u" "orders" "g" (Some "c1") config [].
Abbreviation run := (consumer_run id id).
(** Subscribe, fetch and receive two messages *)
Definition opening : list ConsumerEvent := [KeSubscribe; KeConsume 1; KeReceive; KeReceive].
(** Acknowledge, and let the tasks process it *)
Definition acks (l : list (bool * Z)) (now : Z) : list ConsumerEvent :=
  ((λ so, KeAck so.1 (message so.2)) <$> l) ++ ((λ _, KeAckHandler) <$> l) ++ [KeBatch now].

Definition history : list ConsumerEvent := opening ++ acks [(true, 2); (true, 1)] 1000 ++ [KeSeek 1001 0 5] ++ acks [(true, 7); (true, 6)] 2000.
Lemma commits_only_acknowledged_witness :
  Forall event_ok history ∧ get_committed_offset 0 (kn_offset_tracker (run history (start, mkHistory ∅ ∅ ∅)).1) = 7 ∧
  (0, 6) ∈ hi_acked (run history (start, mkHistory ∅ ∅ ∅)).2.
Proof.
  assert (Hev : Forall event_ok history) by (unfold history; repeat (constructor; [vm_compute; intuition discriminate|]); constructor).
  split; [exact Hev|]. split; [vm_compute; reflexivity|].
  refine (proj2 (proj1 (proj2 (commits_only_acknowledged id id _ _ _ 0 "u" "orders" "g" (Some "c1") config [] history Hev)) 0 6 _)).
  - intros l. reflexivity.
  - intros b p o. simpl. repeat case_match; try discriminate. intros [= <- <-].
    match goal with H : bool_decide (is_u64 _) = true |- _ => by apply bool_decide_eq_true in H end.
  - intros b m p o. simpl. repeat case_match; discriminate.
  - vm_compute. split; [reflexivity|discriminate].
Defined.

(** Fetching starts after the committed offset, which is 0 at first: the
    message at offset 0 of a partition is never fetched; *)
Example offset_zero_skipped :
  kn_client (run [KeSubscribe; KeConsume 1; KeConsume 2] (start, mkHistory ∅ ∅ ∅)).1 =
    [(request_type_code JoinGroup, [0]); (request_type_code Fetch, [1; 0; 1]); (request_type_code Fetch, [1; 0; 1])].
Proof. vm_compute. reflexivity. Qed.
(** nor is the message at an offset that was sought. *)
Example sought_message_skipped :
  let client := kn_client (run [KeSubscribe; KeSeek 1 0 5; KeConsume 2] (start, mkHistory ∅ ∅ ∅)).1 in
  last client = Some (request_type_code Fetch, [1; 0; 6]).
Proof. vm_compute. reflexivity. Qed.
(** Until messages are acknowledged each turn fetches them again. *)
Example unacknowledged_delivered_again :
  kn_message_channel (run [KeSubscribe; KeConsume 1; KeConsume 2] (start, mkHistory ∅ ∅ ∅)).1 =
    Some [message 1; message 2; message 1; message 2].
Proof. vm_compute. reflexivity. Qed.
(** A message that failed once and was acknowledged when retried stays in the
    retry queue, and ends as a dead letter; *)
Example acknowledged_retry_dead_lettered :
  let es := opening ++ acks [(false, 1)] 1000 ++ [KeConsume 2000; KeReceive] ++ acks [(true, 1)] 3000 ++ [KeConsume 9000] in
  let k := (run es (start, mkHistory ∅ ∅ ∅)).1 in
  get_committed_offset 0 (kn_offset_tracker k) = 1 ∧ (m_offset ∘ snd <$> kn_dead_letters k) = [1].
Proof. vm_compute. done. Qed.
(** and one that is given up is never counted as acknowledged: nothing after it
    is committed. *)
Example dead_letter_blocks_commits :
  let es := opening ++ acks [(false, 1); (true, 2); (true, 3)] 1000 ++ [KeConsume 2000; KeConsume 9000; KeConsume 99000] in
  let k := (run es (start, mkHistory ∅ ∅ ∅)).1 in
  (m_offset ∘ snd <$> kn_dead_letters k) = [1] ∧ get_committed_offset 0 (kn_offset_tracker k) = 0 ∧ kn_failed_messages k = [].
Proof. vm_compute. done. Qed.
(** A seek back keeps what was acknowledged before: the first acknowledgment
    after it commits past messages that were not processed again. *)
Example seek_keeps_acknowledged :
  let es := opening ++ acks [(true, 2); (true, 3)] 1000 ++ [KeSeek 1001 0 0] ++ acks [(true, 1)] 2000 in
  get_committed_offset 0 (kn_offset_tracker (run es (start, mkHistory ∅ ∅ ∅)).1) = 3.
Proof. vm_compute. reflexivity. Qed.
(** Closing leaves the group before the last offsets are committed, and commits
    name generation 1 whatever the group's generation is. *)
Example close_leaves_first :
  let k := (run (opening ++ acks [(true, 1)] 1000 ++ [KeClose]) (start, mkHistory ∅ ∅ ∅)).1 in
  drop 2 (kn_client k) = [(request_type_code LeaveGroup, [0]); (request_type_code CommitOffset, [1; 1])].
Proof. vm_compute. reflexivity. Qed.
(** Every join after the first begins a new generation: with two members in the
    group the coordinator refuses what the client commits. *)
Import GroupDemo.
#[local] Existing Instances GroupDemo.codec GroupDemo.bytes_codec GroupDemo.list_log.
Example second_member_stops_commits :
  let m := (GroupDemo.join "c2" ["orders"] (GroupDemo.join "c1" ["orders"] GroupDemo.m0).2).2 in
  (handle_commit_offset GroupDemo.hash GroupDemo.crc 9 (mkCommit "g" "c1" 1 [(mkTP "orders" 0, 5)]) m).1 = Ok 22.
Proof. vm_compute. reflexivity. Qed.
End ConsumerDemo.
