(* ===== verification/EtlFilter.v ===== *)
(** * Stream processing: topic filters and conditional rules

    Model of [src/src/etl/filter.rs] and of the filter part of
    [src/src/config/etl.rs]: the engine that decides by topic whether a module
    applies, and the engine that decides by the record.  The glob, regex and
    serde_json crates and Unicode lower-casing are an interface.  Evaluation
    times and statistics are left out. *)

From Stdlib Require Import Ascii SpecFloat Btauto.
From S2P Require Import Prelude Types Scaling AccessControl ConsumerGroup OpenRaft.
Local Open Scope Z_scope.

(** ** JSON values *)

(** [serde_json::Number]: what is not negative is a positive integer. *)
Inductive JsonNumber := PosInt (n : Z) | NegInt (n : Z) | Float (x : f64).
(** [serde_json::Value]; an object lists its entries by key. *)
Inductive JsonValue :=
  | JNull
  | JBool (b : bool)
  | JNumber (n : JsonNumber)
  | JString (s : string)
  | JArray (l : list JsonValue)
  | JObject (m : list (string * JsonValue)).

Definition number_of_i64 (n : Z) : JsonNumber := if n <? 0 then NegInt n else PosInt n.
Definition as_f64 (n : JsonNumber) : f64 :=
  match n with PosInt n | NegInt n => f64_of_Z n | Float x => x end.
Definition number_eqb (a b : JsonNumber) : bool :=
  match a, b with
  | PosInt a, PosInt b | NegInt a, NegInt b => a =? b
  | Float x, Float y => SFeqb x y
  | _, _ => false
  end.
Fixpoint json_eqb (a b : JsonValue) {struct a} : bool :=
  match a, b with
  | JNull, JNull => true
  | JBool x, JBool y => Bool.eqb x y
  | JNumber x, JNumber y => number_eqb x y
  | JString x, JString y => String.eqb x y
  | JArray l, JArray l' =>
      (fix go (l l' : list JsonValue) : bool :=
         match l, l' with
         | [], [] => true
         | x :: l, y :: l' => json_eqb x y && go l l'
         | _, _ => false
         end) l l'
  | JObject m, JObject m' =>
      (fix go (m m' : list (string * JsonValue)) : bool :=
         match m, m' with
         | [], [] => true
         | (k, x) :: m, (k', y) :: m' => String.eqb k k' && json_eqb x y && go m m'
         | _, _ => false
         end) m m'
  | _, _ => false
  end.

(** The glob and regex crates, lower-casing and the JSON parser *)
Class GlobLibrary (G : Type) := {
  glob_new : string → option G;
  glob_matches : G → string → bool;
}.
#[global] Hint Mode GlobLibrary ! : typeclass_instances.
(** [regex_build] is [RegexBuilder::new(p).case_insensitive(i).build()] *)
Class RegexLibrary (R : Type) := {
  regex_build : bool → string → option R;
  regex_is_match : R → string → bool;
}.
#[global] Hint Mode RegexLibrary ! : typeclass_instances.
(** [str::to_lowercase] and [serde_json::from_slice] *)
Class TextLibrary := {
  to_lowercase : string → string;
  json_from_slice : bytes → option JsonValue;
}.

(** ** Topic filters *)

Inductive FilterType := FtExact | FtWildcard | FtRegex | FtPrefix | FtSuffix | FtContains.
Record TopicFilter := mkTopicFilter {
  tf_filter_type : FilterType;
  tf_pattern : string;
  tf_case_sensitive : bool;
  tf_negate : bool;
}.
Record StringFilter := mkStringFilter { sf_pattern : string; sf_case_sensitive : bool; sf_negate : bool }.
Record CompiledGlobFilter (G : Type) := mkGlobFilter {
  gf_pattern : G;
  gf_original : string;
  gf_case_sensitive : bool;
  gf_negate : bool;
}.
Arguments mkGlobFilter {G}. Arguments gf_pattern {G}. Arguments gf_original {G}. Arguments gf_case_sensitive {G}.
Arguments gf_negate {G}.
Record CompiledRegexFilter (R : Type) := mkRegexFilter {
  rf_regex : R;
  rf_original : string;
  rf_case_sensitive : bool;
  rf_negate : bool;
}.
Arguments mkRegexFilter {R}. Arguments rf_regex {R}. Arguments rf_original {R}. Arguments rf_case_sensitive {R}.
Arguments rf_negate {R}.
Record TopicFilterEngine (G R : Type) := mkFilterEngine {
  fe_exact_matches : gset string;
  fe_exact_matches_insensitive : gset string;
  fe_wildcard_patterns : list (CompiledGlobFilter G);
  fe_regex_patterns : list (CompiledRegexFilter R);
  fe_prefix_patterns : list StringFilter;
  fe_suffix_patterns : list StringFilter;
  fe_contains_patterns : list StringFilter;
}.
Arguments mkFilterEngine {G R}. Arguments fe_exact_matches {G R}. Arguments fe_exact_matches_insensitive {G R}.
Arguments fe_wildcard_patterns {G R}. Arguments fe_regex_patterns {G R}. Arguments fe_prefix_patterns {G R}.
Arguments fe_suffix_patterns {G R}. Arguments fe_contains_patterns {G R}.
Record FilterResult := mkFilterResult { fr_matches : bool; fr_matched_patterns : list string }.

Section filters.
Context {G R : Type} `{!GlobLibrary G, !RegexLibrary R, !TextLibrary}.
Local Open Scope rust_scope.
Abbreviation Engine := (TopicFilterEngine G R).

(** One turn of the loop of [TopicFilterEngine::new] *)
Definition add_filter (f : TopicFilter) (e : Engine) : Result Engine :=
  let sf := mkStringFilter (tf_pattern f) (tf_case_sensitive f) (tf_negate f) in
  match tf_filter_type f with
  | FtExact =>
      if tf_case_sensitive f
      then Ok (mkFilterEngine ({[tf_pattern f]} ∪ fe_exact_matches e) (fe_exact_matches_insensitive e) (fe_wildcard_patterns e)
                 (fe_regex_patterns e) (fe_prefix_patterns e) (fe_suffix_patterns e) (fe_contains_patterns e))
      else Ok (mkFilterEngine (fe_exact_matches e) ({[to_lowercase (tf_pattern f)]} ∪ fe_exact_matches_insensitive e)
                 (fe_wildcard_patterns e) (fe_regex_patterns e) (fe_prefix_patterns e) (fe_suffix_patterns e)
                 (fe_contains_patterns e))
  | FtWildcard =>
      let? g := ok_or (glob_new (tf_pattern f)) Config in
      Ok (mkFilterEngine (fe_exact_matches e) (fe_exact_matches_insensitive e)
            (fe_wildcard_patterns e ++ [mkGlobFilter g (tf_pattern f) (tf_case_sensitive f) (tf_negate f)])
            (fe_regex_patterns e) (fe_prefix_patterns e) (fe_suffix_patterns e) (fe_contains_patterns e))
  | FtRegex =>
      let? r := ok_or (regex_build (negb (tf_case_sensitive f)) (tf_pattern f)) Config in
      Ok (mkFilterEngine (fe_exact_matches e) (fe_exact_matches_insensitive e) (fe_wildcard_patterns e)
            (fe_regex_patterns e ++ [mkRegexFilter r (tf_pattern f) (tf_case_sensitive f) (tf_negate f)])
            (fe_prefix_patterns e) (fe_suffix_patterns e) (fe_contains_patterns e))
  | FtPrefix =>
      Ok (mkFilterEngine (fe_exact_matches e) (fe_exact_matches_insensitive e) (fe_wildcard_patterns e) (fe_regex_patterns e)
            (fe_prefix_patterns e ++ [sf]) (fe_suffix_patterns e) (fe_contains_patterns e))
  | FtSuffix =>
      Ok (mkFilterEngine (fe_exact_matches e) (fe_exact_matches_insensitive e) (fe_wildcard_patterns e) (fe_regex_patterns e)
            (fe_prefix_patterns e) (fe_suffix_patterns e ++ [sf]) (fe_contains_patterns e))
  | FtContains =>
      Ok (mkFilterEngine (fe_exact_matches e) (fe_exact_matches_insensitive e) (fe_wildcard_patterns e) (fe_regex_patterns e)
            (fe_prefix_patterns e) (fe_suffix_patterns e) (fe_contains_patterns e ++ [sf]))
  end.
Fixpoint add_filters (filters : list TopicFilter) (e : Engine) : Result Engine :=
  match filters with
  | [] => Ok e
  | f :: filters => let? e := add_filter f e in add_filters filters e
  end.
Definition filter_engine_new (filters : list TopicFilter) : Result Engine :=
  add_filters filters (mkFilterEngine ∅ ∅ [] [] [] [] []).

(** A string filter with the test of its kind *)
Definition string_filter_hit (test : string → string → bool) (topic : string) (f : StringFilter) : bool :=
  let matches := if sf_case_sensitive f then test (sf_pattern f) topic
                 else test (to_lowercase (sf_pattern f)) (to_lowercase topic) in
  if sf_negate f then negb matches else matches.
Definition glob_filter_hit (topic : string) (f : CompiledGlobFilter G) : bool :=
  let matches := glob_matches (gf_pattern f) (if gf_case_sensitive f then topic else to_lowercase topic) in
  if gf_negate f then negb matches else matches.
Definition regex_filter_hit (topic : string) (f : CompiledRegexFilter R) : bool :=
  let matches := regex_is_match (rf_regex f) topic in
  if rf_negate f then negb matches else matches.
(** A scan of one list of filters for the first that hits *)
Definition scan {A} (hit : A → bool) (label : A → string) (l : list A) : option FilterResult :=
  (λ ix, mkFilterResult true [label ix.2]) <$> list_find (λ x, hit x = true) l.

Definition matches_topic (topic : string) (e : Engine) : FilterResult :=
  if bool_decide (topic ∈ fe_exact_matches e) then mkFilterResult true ["exact:" +:+ topic]
  else if bool_decide (to_lowercase topic ∈ fe_exact_matches_insensitive e) then mkFilterResult true ["exact_insensitive:" +:+ topic]
  else match scan (string_filter_hit starts_with topic) (λ f, "prefix:" +:+ sf_pattern f) (fe_prefix_patterns e) with
  | Some r => r
  | None => match scan (string_filter_hit ends_with topic) (λ f, "suffix:" +:+ sf_pattern f) (fe_suffix_patterns e) with
  | Some r => r
  | None => match scan (string_filter_hit contains_str topic) (λ f, "contains:" +:+ sf_pattern f) (fe_contains_patterns e) with
  | Some r => r
  | None => match scan (glob_filter_hit topic) (λ f, "wildcard:" +:+ gf_original f) (fe_wildcard_patterns e) with
  | Some r => r
  | None => match scan (regex_filter_hit topic) (λ f, "regex:" +:+ rf_original f) (fe_regex_patterns e) with
  | Some r => r
  | None => mkFilterResult false []
  end end end end end.
End filters.

(** ** Conditional rules *)

Inductive ConditionType := HeaderValue | PayloadField | MessageSize | MessageAge.
Inductive ComparisonOperator :=
  | Equals | NotEquals | GreaterThan | LessThan | GreaterThanOrEqual | LessThanOrEqual
  | Contains | StartsWith | EndsWith | Matches.
#[global] Instance ComparisonOperator_eq_dec : EqDecision ComparisonOperator.
Proof. solve_decision. Defined.
Record ConditionalRule := mkConditionalRule {
  cr_condition_type : ConditionType;
  cr_field_path : string;
  cr_operator : ComparisonOperator;
  cr_value : JsonValue;
  cr_negate : bool;
}.
Record CompiledConditionalRule (R : Type) := mkCompiledRule {
  cl_condition_type : ConditionType;
  cl_field_path : string;
  cl_operator : ComparisonOperator;
  cl_value : JsonValue;
  cl_negate : bool;
  cl_compiled_regex : option R;
}.
Arguments mkCompiledRule {R}. Arguments cl_condition_type {R}. Arguments cl_field_path {R}. Arguments cl_operator {R}.
Arguments cl_value {R}. Arguments cl_negate {R}. Arguments cl_compiled_regex {R}.

Section rules.
Context {R : Type} `{!RegexLibrary R, !TextLibrary}.
Local Open Scope rust_scope.
Implicit Types (rule : CompiledConditionalRule R).

Definition compile_rule (rule : ConditionalRule) : Result (CompiledConditionalRule R) :=
  let? compiled_regex :=
    if decide (cr_operator rule = Matches) then
      match cr_value rule with
      | JString pattern => let? r := ok_or (regex_build false pattern) Config in Ok (Some r)
      | _ => Err Config
      end
    else Ok None in
  Ok (mkCompiledRule (cr_condition_type rule) (cr_field_path rule) (cr_operator rule) (cr_value rule) (cr_negate rule) compiled_regex).
Fixpoint rule_engine_new (rules : list ConditionalRule) : Result (list (CompiledConditionalRule R)) :=
  match rules with
  | [] => Ok []
  | rule :: rules => let? c := compile_rule rule in let? cs := rule_engine_new rules in Ok (c :: cs)
  end.

Fixpoint extract_header_value (headers : list Header) (field_path : string) : JsonValue :=
  match headers with
  | [] => JNull
  | h :: headers =>
      if String.eqb (h_key h) field_path
      then match from_utf8 (h_value h) with Some s => JString s | None => extract_header_value headers field_path end
      else extract_header_value headers field_path
  end.
Fixpoint object_get (key : string) (m : list (string * JsonValue)) : option JsonValue :=
  match m with
  | [] => None
  | (k, v) :: m => if String.eqb k key then Some v else object_get key m
  end.
(** The loop over the parts of a path *)
Fixpoint walk_path (parts : list string) (current : JsonValue) : JsonValue :=
  match parts with
  | [] => current
  | part :: parts =>
      match current with
      | JObject m => walk_path parts (default JNull (object_get part m))
      | JArray l =>
          match parse_uint u64_modulus part with
          | Some i => walk_path parts (default JNull (if i <? Z.of_nat (length l) then l !! Z.to_nat i else None))
          | None => JNull
          end
      | _ => JNull
      end
  end.
Definition extract_json_field (value : JsonValue) (path : string) : JsonValue := walk_path (split_on "."%char path) value.
Definition extract_payload_field (record : Record_) (field_path : string) : Result JsonValue :=
  let? payload := ok_or (json_from_slice (r_value record)) EtlProcessingFailed in
  Ok (extract_json_field payload (default field_path (strip_prefix "$." field_path))).

Definition compare_numeric (test : f64 → f64 → bool) (left right : JsonValue) : bool :=
  match left, right with
  | JNumber a, JNumber b => test (as_f64 a) (as_f64 b)
  | _, _ => false
  end.
Definition compare_string (test : string → string → bool) (left right : JsonValue) : bool :=
  match left, right with JString a, JString b => test b a | _, _ => false end.
Definition compare_values (left right : JsonValue) (operator : ComparisonOperator) (regex : option R) : Result bool :=
  match operator with
  | Equals => Ok (json_eqb left right)
  | NotEquals => Ok (negb (json_eqb left right))
  | GreaterThan => Ok (compare_numeric (λ a b, SFltb b a) left right)
  | LessThan => Ok (compare_numeric SFltb left right)
  | GreaterThanOrEqual => Ok (compare_numeric (λ a b, SFleb b a) left right)
  | LessThanOrEqual => Ok (compare_numeric SFleb left right)
  | Contains => Ok (compare_string contains_str left right)
  | StartsWith => Ok (compare_string starts_with left right)
  | EndsWith => Ok (compare_string ends_with left right)
  | Matches =>
      match regex with
      | Some r => Ok (match left with JString s => regex_is_match r s | _ => false end)
      | None => Err EtlProcessingFailed
      end
  end.

Definition evaluate_single_rule (now : Z) rule (record : Record_) : Result bool :=
  let? extracted :=
    match cl_condition_type rule with
    | HeaderValue => Ok (extract_header_value (r_headers record) (cl_field_path rule))
    | PayloadField => extract_payload_field record (cl_field_path rule)
    | MessageSize => Ok (JNumber (PosInt (Z.of_nat (length (r_value record)))))
    | MessageAge => Ok (JNumber (number_of_i64 (as_i64 (now - r_timestamp record))))
    end in
  compare_values extracted (cl_value rule) (cl_operator rule) (cl_compiled_regex rule).
Fixpoint evaluate_record (now : Z) (rules : list (CompiledConditionalRule R)) (record : Record_) : Result bool :=
  match rules with
  | [] => Ok true
  | rule :: rules =>
      let? matches := evaluate_single_rule now rule record in
      if (if cl_negate rule then negb matches else matches) then evaluate_record now rules record else Ok false
  end.
End rules.

(** ** The engine decides like the filters one by one *)

Section equivalence.
Context {G R : Type} `{!GlobLibrary G, !RegexLibrary R, !TextLibrary}.
Local Open Scope rust_scope.

(** What a filter says of a topic on its own *)
Definition filter_accepts (topic : string) (f : TopicFilter) : bool :=
  let fold s := if tf_case_sensitive f then s else to_lowercase s in
  xorb (tf_negate f)
    match tf_filter_type f with
    | FtExact => String.eqb (fold (tf_pattern f)) (fold topic)
    | FtPrefix => starts_with (fold (tf_pattern f)) (fold topic)
    | FtSuffix => ends_with (fold (tf_pattern f)) (fold topic)
    | FtContains => contains_str (fold (tf_pattern f)) (fold topic)
    | FtWildcard => match glob_new (G := G) (fold (tf_pattern f)) with Some g => glob_matches g (fold topic) | None => false end
    | FtRegex => match regex_build (R := R) (negb (tf_case_sensitive f)) (tf_pattern f) with Some r => regex_is_match r topic | None => false end
    end.
(** Its pattern compiles *)
Definition filter_compiles (f : TopicFilter) : bool :=
  match tf_filter_type f with
  | FtWildcard => bool_decide (is_Some (glob_new (G := G) (tf_pattern f)))
  | FtRegex => bool_decide (is_Some (regex_build (R := R) (negb (tf_case_sensitive f)) (tf_pattern f)))
  | _ => true
  end.
(** Filters the engine does not honour: a negated exact filter, and a glob
    without regard to case whose pattern is not in lower case *)
Definition honoured (f : TopicFilter) : Prop :=
  match tf_filter_type f with
  | FtExact => tf_negate f = false
  | FtWildcard => tf_case_sensitive f = true ∨ to_lowercase (tf_pattern f) = tf_pattern f
  | _ => True
  end.

Definition hits (topic : string) (e : TopicFilterEngine G R) : bool :=
  bool_decide (topic ∈ fe_exact_matches e) || bool_decide (to_lowercase topic ∈ fe_exact_matches_insensitive e)
  || existsb (string_filter_hit starts_with topic) (fe_prefix_patterns e)
  || existsb (string_filter_hit ends_with topic) (fe_suffix_patterns e)
  || existsb (string_filter_hit contains_str topic) (fe_contains_patterns e)
  || existsb (glob_filter_hit topic) (fe_wildcard_patterns e) || existsb (regex_filter_hit topic) (fe_regex_patterns e).

Lemma scan_spec {A} (hit : A → bool) (label : A → string) l :
  if existsb hit l then ∃ x, x ∈ l ∧ hit x = true ∧ scan hit label l = Some (mkFilterResult true [label x])
  else scan hit label l = None.
Proof.
  unfold scan. destruct (list_find (λ x, hit x = true) l) as [[i x]|] eqn:E.
  - apply list_find_Some in E as (Hi & Hx & _). replace (existsb hit l) with true.
    + exists x. split; [by eapply list_elem_of_lookup_2|done].
    + symmetry. apply existsb_exists. exists x. split; [|done]. apply list_elem_of_In. by eapply list_elem_of_lookup_2.
  - apply list_find_None in E. replace (existsb hit l) with false; [done|]. symmetry. apply not_true_is_false.
    intros (x & Hx & Hh)%existsb_exists. rewrite Forall_forall in E. apply list_elem_of_In in Hx. by apply (E x).
Qed.
Lemma matches_topic_hits topic e : fr_matches (matches_topic topic e) = hits topic e.
Proof.
  unfold matches_topic, hits. case_bool_decide; [done|]. case_bool_decide; [done|]. cbn [orb].
  repeat match goal with
  | |- context [scan ?h ?lb ?l] =>
      let H := fresh in pose proof (scan_spec h lb l) as H; destruct (existsb h l);
      [destruct H as (? & _ & _ & ->); done|rewrite H; clear H; cbn [orb]]
  end. done.
Qed.
Lemma add_filter_hits topic f e e' :
  honoured f → add_filter f e = Ok e' → hits topic e' = hits topic e || filter_accepts topic f.
Proof.
  intros Hok. unfold add_filter, filter_accepts, honoured in *.
  destruct (tf_filter_type f).
  - rewrite Hok. simpl. destruct (tf_case_sensitive f); intros [= <-]; unfold hits; simpl.
    + assert (bool_decide (topic ∈ {[tf_pattern f]} ∪ fe_exact_matches e)
              = bool_decide (topic ∈ fe_exact_matches e) || String.eqb (tf_pattern f) topic) as ->.
      { apply eq_true_iff_eq. rewrite orb_true_iff, !bool_decide_eq_true, String.eqb_eq. set_solver. }
      btauto.
    + assert (bool_decide (to_lowercase topic ∈ {[to_lowercase (tf_pattern f)]} ∪ fe_exact_matches_insensitive e)
              = bool_decide (to_lowercase topic ∈ fe_exact_matches_insensitive e)
                || String.eqb (to_lowercase (tf_pattern f)) (to_lowercase topic)) as ->.
      { apply eq_true_iff_eq. rewrite orb_true_iff, !bool_decide_eq_true, String.eqb_eq. set_solver. }
      btauto.
  - destruct (glob_new (tf_pattern f)) as [g|] eqn:Eg; [|done]. intros [= <-]. unfold hits. simpl.
    rewrite existsb_app. simpl. unfold glob_filter_hit at 2. simpl.
    assert (Ef : glob_new (if tf_case_sensitive f then tf_pattern f else to_lowercase (tf_pattern f)) = Some g)
      by (destruct (tf_case_sensitive f); [done|]; destruct Hok as [?|Hl]; [done|by rewrite Hl]).
    rewrite Ef. destruct (tf_negate f); btauto.
  - destruct (regex_build _ _) as [r|] eqn:Er; [|done]. intros [= <-]. unfold hits. simpl.
    rewrite existsb_app. simpl. unfold regex_filter_hit at 2. simpl. destruct (tf_negate f); btauto.
  - intros [= <-]. unfold hits. simpl. rewrite existsb_app. simpl. unfold string_filter_hit at 2. simpl.
    destruct (tf_negate f), (tf_case_sensitive f); btauto.
  - intros [= <-]. unfold hits. simpl. rewrite existsb_app. simpl. unfold string_filter_hit at 3. simpl.
    destruct (tf_negate f), (tf_case_sensitive f); btauto.
  - intros [= <-]. unfold hits. simpl. rewrite existsb_app. simpl. unfold string_filter_hit at 4. simpl.
    destruct (tf_negate f), (tf_case_sensitive f); btauto.
Qed.
Lemma add_filters_hits topic filters e e' :
  Forall honoured filters → add_filters filters e = Ok e' → hits topic e' = hits topic e || existsb (filter_accepts topic) filters.
Proof.
  intros Hok. revert e. induction Hok as [|f filters Hf _ IH]; intros e; simpl.
  - intros [= <-]. by rewrite orb_false_r.
  - destruct (add_filter f e) as [e1|] eqn:E; [|done]. simpl. intros E2. rewrite (IH _ E2), (add_filter_hits _ _ _ _ Hf E). btauto.
Qed.
Lemma add_filters_ok filters (e : TopicFilterEngine G R) : is_ok (add_filters filters e) = forallb filter_compiles filters.
Proof.
  revert e. induction filters as [|f filters IH]; intros e; simpl; [done|].
  assert (Hf : is_ok (add_filter f e) = filter_compiles f).
  { unfold add_filter, filter_compiles. destruct (tf_filter_type f); try done; [by destruct (tf_case_sensitive f)| |].
    - by destruct (glob_new _).
    - by destruct (regex_build _ _). }
  destruct (add_filter f e) as [e1|]; simpl in *; rewrite <- Hf; simpl; [apply IH|done].
Qed.

(** The filter engine, with its sets, its lists by kind and its early
    returns, is built exactly when every pattern compiles, and then it matches
    a topic exactly when some filter of the configuration does on its own; it
    names one filter when it matches and none otherwise.  Filters the engine
    does not honour are excluded. *)
Theorem filter_engine_equivalent filters topic :
  Forall honoured filters →
  match filter_engine_new (G := G) (R := R) filters with
  | Err e => e = Config ∧ forallb filter_compiles filters = false
  | Ok engine =>
      forallb filter_compiles filters = true ∧
      fr_matches (matches_topic topic engine) = existsb (filter_accepts topic) filters ∧
      length (fr_matched_patterns (matches_topic topic engine)) = if existsb (filter_accepts topic) filters then 1%nat else 0%nat
  end.
Proof.
  intros Hok. pose proof (add_filters_ok filters (mkFilterEngine (G := G) (R := R) ∅ ∅ [] [] [] [] [])) as Hb. unfold filter_engine_new.
  destruct (add_filters filters _) as [engine|e] eqn:E; simpl in Hb.
  - pose proof (add_filters_hits topic _ _ _ Hok E) as Hh. split; [done|].
    assert (Hm : fr_matches (matches_topic topic engine) = existsb (filter_accepts topic) filters).
    { rewrite matches_topic_hits, Hh. unfold hits. simpl. rewrite !bool_decide_eq_false_2 by set_solver. done. }
    split; [done|]. rewrite <- Hm. unfold matches_topic. repeat (case_match; subst; try done);
      unfold scan in *; repeat match goal with H : _ <$> _ = Some _ |- _ => apply fmap_Some in H as (? & _ & ->) end; done.
  - split; [|done]. clear Hok Hb. revert E. generalize (mkFilterEngine (G := G) (R := R) ∅ ∅ [] [] [] [] []).
    induction filters as [|f filters IH]; intros e0; simpl; [done|].
    destruct (add_filter f e0) as [e1|e1] eqn:E1; simpl; [apply IH|]. intros [= <-].
    unfold add_filter in E1. destruct (tf_filter_type f); try done; [by destruct (tf_case_sensitive f)| |].
    + destruct (glob_new _); simpl in E1; congruence.
    + destruct (regex_build _ _); simpl in E1; congruence.
Qed.

(** The rules of a module hold when each of them does. *)
Definition rule_holds (now : Z) (record : Record_) (rule : CompiledConditionalRule R) : Result bool :=
  let? matches := evaluate_single_rule now rule record in Ok (xorb (cl_negate rule) matches).
Lemma evaluate_record_spec now rules record :
  evaluate_record now rules record = Ok true ↔ Forall (λ rule, rule_holds now record rule = Ok true) rules.
Proof.
  unfold rule_holds. induction rules as [|rule rules IH]; simpl; [by split|]. rewrite Forall_cons, <- IH.
  destruct (evaluate_single_rule now rule record) as [b|]; simpl; [|naive_solver].
  destruct (cl_negate rule), b; simpl; naive_solver.
Qed.
End equivalence.

(** ** Concrete filters *)

Module FilterDemo.
(** Globs with stars and question marks, regular expressions that are plain
    words, and lower case for ASCII *)
Fixpoint glob_match (fuel : nat) (p s : string) : bool :=
  match fuel with
  | O => false
  | S fuel =>
      match p, s with
      | EmptyString, EmptyString => true
      | EmptyString, _ => false
      | String "*" p', EmptyString => glob_match fuel p' s
      | String "*" p', String _ s' => glob_match fuel p' s || glob_match fuel p s'
      | String _ _, EmptyString => false
      | String a p', String b s' => (Ascii.eqb a "?" || Ascii.eqb a b) && glob_match fuel p' s'
      end
  end.
#[export] Instance globs : GlobLibrary string := {|
  glob_new p := Some p;
  glob_matches p s := glob_match (S (String.length p + String.length s)) p s;
|}.
Definition lower_char (c : ascii) : ascii :=
  let n := N_of_ascii c in if ((65 <=? n) && (n <=? 90))%N then ascii_of_N (n + 32) else c.
Definition lower (s : string) : string := String.string_of_list_ascii (lower_char <$> String.list_ascii_of_string s).
#[export] Instance regexes : RegexLibrary (bool * string) := {|
  regex_build i p := if String.eqb p "(" then None else Some (i, p);
  regex_is_match r s := if r.1 then contains_str (lower r.2) (lower s) else contains_str r.2 s;
|}.
(** A payload is a number, or an object with a kind and a number. *)
#[export] Instance text : TextLibrary := {|
  to_lowercase := lower;
  json_from_slice b :=
    match b with
    | [n] => Some (JNumber (PosInt n))
    | [k; n] => Some (JObject [("kind", JString (if k =? 0 then "order" else "refund")); ("lines", JArray [JNumber (PosInt n)])])
    | _ => None
    end;
|}.
Abbreviation engine_of l := (filter_engine_new (G := string) (R := bool * string) l).

Definition filters : list TopicFilter :=
  [mkTopicFilter FtExact "orders" true false; mkTopicFilter FtPrefix "LOGS." false false; mkTopicFilter FtContains "test" true false;
   mkTopicFilter FtWildcard "metrics.*.cpu" true false; mkTopicFilter FtRegex "audit" false false].
Lemma filter_engine_equivalent_witness :
  Forall honoured filters ∧
  match engine_of filters with
  | Ok engine => fr_matches (matches_topic "metrics.a.cpu" engine) = existsb (filter_accepts (G := string) (R := bool * string) "metrics.a.cpu") filters
  | Err _ => False
  end.
Proof.
  assert (Hok : Forall honoured filters) by (repeat constructor). split; [exact Hok|].
  pose proof (filter_engine_equivalent (G := string) (R := bool * string) filters "metrics.a.cpu" Hok) as H.
  destruct (engine_of filters) as [engine|e] eqn:E; [exact (proj1 (proj2 H))|discriminate E].
Defined.
Example topics_of_filters :
  match engine_of filters with
  | Ok engine => (λ t, fr_matched_patterns (matches_topic t engine)) <$> ["orders"; "logs.web"; "metrics.a.cpu"; "MyAudit"; "payments"]
  | Err _ => []
  end = [["exact:orders"]; ["prefix:LOGS."]; ["wildcard:metrics.*.cpu"]; ["regex:audit"]; []].
Proof. vm_compute. reflexivity. Qed.

(** An exact filter ignores its negation; *)
Example negated_exact_ignored :
  let f := mkTopicFilter FtExact "orders" true true in
  match engine_of [f] with
  | Ok engine => (fr_matches (matches_topic "orders" engine), filter_accepts (G := string) (R := bool * string) "orders" f)
  | Err _ => (false, false)
  end = (true, false).
Proof. vm_compute. reflexivity. Qed.
(** a glob without regard to case with a capital letter matches nothing. *)
Example insensitive_glob_never_matches :
  let f := mkTopicFilter FtWildcard "Logs*" false false in
  match engine_of [f] with
  | Ok engine => (fr_matches (matches_topic "Logs.web" engine), filter_accepts (G := string) (R := bool * string) "Logs.web" f)
  | Err _ => (false, false)
  end = (false, true).
Proof. vm_compute. reflexivity. Qed.

Definition record (payload : bytes) : Record_ := mkRecord None payload [mkHeader "source" [119; 101; 98]] 1000.
Definition rules : list ConditionalRule :=
  [mkConditionalRule PayloadField "$.lines.0" GreaterThan (JNumber (PosInt 5)) false;
   mkConditionalRule HeaderValue "source" Matches (JString "we") false;
   mkConditionalRule MessageAge EmptyString LessThan (JNumber (PosInt 100)) true].
Example rules_of_records :
  match rule_engine_new (R := bool * string) rules with
  | Ok rules => (λ p, evaluate_record 1200 rules (record p)) <$> [[0; 7]; [0; 3]; [9]; []]
  | Err _ => []
  end = [Ok true; Ok false; Ok false; Err EtlProcessingFailed].
Proof. vm_compute. reflexivity. Qed.
(** A number written with a fraction part never equals an integer. *)
Example integer_differs_from_float :
  compare_values (R := bool * string) (JNumber (PosInt 5)) (JNumber (Float (f64_of_Z 5))) Equals None = Ok false.
Proof. vm_compute. reflexivity. Qed.
End FilterDemo.
