(* ===== verification/EtlPool.v ===== *)
(** * Stream processing: WebAssembly instances and their pool

    Model of [src/src/etl/instance_pool.rs]: loading and instantiating modules
    and running a transformation on the wasmtime engine, which is an interface,
    and the pool of instances with its statistics, eviction, pre-warming and the
    clean-up of idle instances.  The contexts of the pool are an interface of
    their own.  A checkout is split where it awaits; times are arguments.  Of a
    module's configuration the custom JSON is left out, and of the statistics
    the times.  The semaphore that limits concurrent creations only delays
    them. *)

From S2P Require Import Prelude Types AccessControl ConsumerGroup EtlFilter.
Local Open Scope Z_scope.

Record ModuleInstanceConfig := mkModuleConfig {
  mi_memory_limit_bytes : Z;
  mi_execution_timeout_ms : Z;
  mi_max_concurrent_instances : Z;
  mi_enable_caching : bool;
  mi_cache_ttl_seconds : Z;
}.
Record EtlInstancePoolConfig := mkPoolConfig {
  pc_max_pool_size : Z;
  pc_warmup_instances : Z;
  pc_idle_timeout_seconds : Z;
  pc_enable_lru_eviction : bool;
}.

(** ** Contexts on the wasmtime engine *)

(** [wasm_instantiate] gets the memory limit and the fuel; calls return [None]
    when they trap. *)
Class WasmEngine (Mo St : Type) := {
  wasm_compile : bytes → option Mo;
  wasm_exports : Mo → list string;
  wasm_instantiate : Mo → Z → Z → option St;
  wasm_has_memory : St → bool;
  wasm_has_func : St → string → bool;
  wasm_data_size : St → Z;
  wasm_read : St → Z → Z → option bytes;
  wasm_write : St → Z → bytes → option St;
  wasm_allocate : St → Z → option Z * St;
  wasm_transform : St → Z → Z → option Z * St;
  wasm_deallocate : St → Z → option unit * St;
}.
#[global] Hint Mode WasmEngine ! - : typeclass_instances.
#[global] Hint Mode WasmEngine - ! : typeclass_instances.

Record WasmContext (St : Type) := mkContext {
  wx_store : St;
  wx_allocate_func : bool;
  wx_deallocate_func : bool;
  wx_memory_size : Z;
}.
Arguments mkContext {St}. Arguments wx_store {St}. Arguments wx_allocate_func {St}. Arguments wx_deallocate_func {St}.
Arguments wx_memory_size {St}.

Section wasm.
Context {Mo St : Type} `{!WasmEngine Mo St}.
Local Open Scope rust_scope.

Definition load_module (module_id : string) (bytecode : bytes) (compiled_modules : gmap string Mo) : Result unit * gmap string Mo :=
  if decide (is_Some (compiled_modules !! module_id)) then (Ok tt, compiled_modules)
  else match wasm_compile bytecode with
       | None => (Err EtlProcessingFailed, compiled_modules)
       | Some m =>
           if bool_decide ("transform" ∈ wasm_exports m) && bool_decide ("memory" ∈ wasm_exports m)
           then (Ok tt, <[module_id := m]> compiled_modules)
           else (Err EtlProcessingFailed, compiled_modules)
       end.
Definition create_wasm_context (compiled_modules : gmap string Mo) (module_id : string) (config : ModuleInstanceConfig)
  : Result (WasmContext St) :=
  let? m := ok_or (compiled_modules !! module_id) EtlModuleNotFound in
  let fuel_amount := (mi_execution_timeout_ms config * 1000000) mod u64_modulus in
  let? st := ok_or (wasm_instantiate m (mi_memory_limit_bytes config) fuel_amount) EtlProcessingFailed in
  if negb (wasm_has_memory st) then Err EtlProcessingFailed
  else if negb (wasm_has_func st "transform") then Err EtlProcessingFailed
  else Ok (mkContext st (wasm_has_func st "allocate") (wasm_has_func st "deallocate") (wasm_data_size st)).

(** [as i32] and, from [i32], [as usize] *)
Definition as_i32 (z : Z) : Z := (z + 2 ^ 31) mod 2 ^ 32 - 2 ^ 31.
Definition as_usize (z : Z) : Z := z mod u64_modulus.
Definition with_store (st : St) (x : WasmContext St) : WasmContext St :=
  mkContext st (wx_allocate_func x) (wx_deallocate_func x) (wx_memory_size x).
(** The result of a fallible call on the store *)
Definition on_store {A} (r : option A * St) (x : WasmContext St) : Result A * WasmContext St :=
  (ok_or r.1 EtlProcessingFailed, with_store r.2 x).
(** [vec![0u8; n]] panics for more than [isize::MAX] bytes. *)
Definition execute (x : WasmContext St) (input : bytes) : Result bytes * WasmContext St :=
  let input_len := as_i32 (Z.of_nat (length input)) in
  let! (input_ptr, x) := if wx_allocate_func x then on_store (wasm_allocate (wx_store x) input_len) x else (Ok 0, x) in
  let! (_u, x) := match wasm_write (wx_store x) (as_usize input_ptr) input with
                  | Some st => (Ok tt, with_store st x)
                  | None => (Err EtlProcessingFailed, x)
                  end in
  let! (output_ptr, x) := on_store (wasm_transform (wx_store x) input_ptr input_len) x in
  let! (len_bytes, x) := (ok_or (wasm_read (wx_store x) (as_usize output_ptr) 4) EtlProcessingFailed, x) in
  let output_len := as_usize (as_i32 (from_le len_bytes)) in
  if 2 ^ 63 - 1 <? output_len then (Err Panic, x)
  else
    let! (output, x) := (ok_or (wasm_read (wx_store x) (u64_add (as_usize output_ptr) 4) output_len) EtlProcessingFailed, x) in
    let! (_u, x) := if wx_deallocate_func x then on_store (wasm_deallocate (wx_store x) input_ptr) x else (Ok tt, x) in
    (Ok output, x).
End wasm.

(** ** The pool *)

(** What the pool and its users need of contexts.  [None] from [wasm_run]: the
    execution timeout fired first. *)
Class WasmRuntime (X : Type) := {
  wasm_create : string → ModuleInstanceConfig → Result X;
  wasm_run : X → bytes → option (Result bytes) * X;
  wasm_memory_size : X → Z;
}.
#[global] Hint Mode WasmRuntime ! : typeclass_instances.
(** Contexts on the engine: [interrupted] says when a run is cut off, and how it
    leaves the context. *)
#[global] Instance engine_runtime {Mo St} `{!WasmEngine Mo St} (compiled_modules : gmap string Mo)
    (interrupted : WasmContext St → bytes → option (WasmContext St)) : WasmRuntime (WasmContext St) := {|
  wasm_create := create_wasm_context compiled_modules;
  wasm_run x input := match interrupted x input with
                      | Some x => (None, x)
                      | None => let '(r, x) := execute x input in (Some r, x)
                      end;
  wasm_memory_size := wx_memory_size;
|}.

Record PooledInstance (X : Type) := mkInstance {
  pi_instance_id : Z;
  pi_module_id : string;
  pi_wasm_context : X;
  pi_last_used : Z;
  pi_execution_count : Z;
}.
Arguments mkInstance {X}. Arguments pi_instance_id {X}. Arguments pi_module_id {X}. Arguments pi_wasm_context {X}.
Arguments pi_last_used {X}. Arguments pi_execution_count {X}.
Record ModulePoolStats := mkModuleStats {
  ms_instances_created : Z;
  ms_instances_destroyed : Z;
  ms_pool_hits : Z;
  ms_pool_misses : Z;
  ms_current_pool_size : Z;
  ms_max_pool_size_reached : Z;
}.
Record ModulePool (X : Type) := mkModulePool {
  mp_config : ModuleInstanceConfig;
  mp_available_instances : list (PooledInstance X);
  mp_in_use_count : Z;
  mp_lru_order : list Z;
  mp_next_instance_id : Z;
  mp_stats : ModulePoolStats;
}.
Arguments mkModulePool {X}. Arguments mp_config {X}. Arguments mp_available_instances {X}. Arguments mp_in_use_count {X}.
Arguments mp_lru_order {X}. Arguments mp_next_instance_id {X}. Arguments mp_stats {X}.
Record InstancePoolStats := mkPoolStats {
  is_total_instances_created : Z;
  is_total_instances_destroyed : Z;
  is_total_pool_hits : Z;
  is_total_pool_misses : Z;
  is_active_modules : Z;
  is_total_memory_usage : Z;
}.
Record WasmInstancePool (X : Type) := mkInstancePool {
  wp_config : EtlInstancePoolConfig;
  wp_pools : gmap string (ModulePool X);
  wp_stats : InstancePoolStats;
}.
Arguments mkInstancePool {X}. Arguments wp_config {X}. Arguments wp_pools {X}. Arguments wp_stats {X}.

(** [l.remove(l.position(x))] *)
Fixpoint remove_first (x : Z) (l : list Z) : list Z :=
  match l with [] => [] | y :: l => if x =? y then l else y :: remove_first x l end.

Section pool.
Context {X : Type} `{!WasmRuntime X}.
Local Open Scope rust_scope.
Implicit Types (p : WasmInstancePool X) (mp : ModulePool X) (i : PooledInstance X).

Definition instance_pool_new (config : EtlInstancePoolConfig) : WasmInstancePool X := mkInstancePool config ∅ (mkPoolStats 0 0 0 0 0 0).
Definition set_pool (module_id : string) mp p : WasmInstancePool X := mkInstancePool (wp_config p) (<[module_id := mp]> (wp_pools p)) (wp_stats p).
Definition set_stats (f : InstancePoolStats → InstancePoolStats) p : WasmInstancePool X := mkInstancePool (wp_config p) (wp_pools p) (f (wp_stats p)).
Definition count_hit (s : InstancePoolStats) : InstancePoolStats :=
  mkPoolStats (is_total_instances_created s) (is_total_instances_destroyed s) (u64_add (is_total_pool_hits s) 1)
    (is_total_pool_misses s) (is_active_modules s) (is_total_memory_usage s).
Definition count_miss (s : InstancePoolStats) : InstancePoolStats :=
  mkPoolStats (is_total_instances_created s) (is_total_instances_destroyed s) (is_total_pool_hits s)
    (u64_add (is_total_pool_misses s) 1) (is_active_modules s) (is_total_memory_usage s).
Definition count_created (memory : Z) (s : InstancePoolStats) : InstancePoolStats :=
  mkPoolStats (u64_add (is_total_instances_created s) 1) (is_total_instances_destroyed s) (is_total_pool_hits s)
    (is_total_pool_misses s) (is_active_modules s) (u64_add (is_total_memory_usage s) memory).
Definition count_destroyed i (s : InstancePoolStats) : InstancePoolStats :=
  mkPoolStats (is_total_instances_created s) (u64_add (is_total_instances_destroyed s) 1) (is_total_pool_hits s)
    (is_total_pool_misses s) (is_active_modules s) (u64_sub (is_total_memory_usage s) (wasm_memory_size (pi_wasm_context i))).
Definition count_active (s : InstancePoolStats) : InstancePoolStats :=
  mkPoolStats (is_total_instances_created s) (is_total_instances_destroyed s) (is_total_pool_hits s)
    (is_total_pool_misses s) (u64_add (is_active_modules s) 1) (is_total_memory_usage s).
Definition no_module_stats : ModulePoolStats := mkModuleStats 0 0 0 0 0 0.
Definition module_hit (s : ModulePoolStats) : ModulePoolStats :=
  mkModuleStats (ms_instances_created s) (ms_instances_destroyed s) (u64_add (ms_pool_hits s) 1) (ms_pool_misses s)
    (ms_current_pool_size s) (ms_max_pool_size_reached s).
Definition module_created (s : ModulePoolStats) : ModulePoolStats :=
  mkModuleStats (u64_add (ms_instances_created s) 1) (ms_instances_destroyed s) (ms_pool_hits s) (u64_add (ms_pool_misses s) 1)
    (ms_current_pool_size s) (ms_max_pool_size_reached s).
Definition module_destroyed (n : Z) (s : ModulePoolStats) : ModulePoolStats :=
  mkModuleStats (ms_instances_created s) (u64_add (ms_instances_destroyed s) n) (ms_pool_hits s) (ms_pool_misses s)
    (ms_current_pool_size s) (ms_max_pool_size_reached s).
Definition module_size (n : Z) (s : ModulePoolStats) : ModulePoolStats :=
  mkModuleStats (ms_instances_created s) (ms_instances_destroyed s) (ms_pool_hits s) (ms_pool_misses s)
    n (Z.max (ms_max_pool_size_reached s) n).
Definition module_shrunk (n : Z) (s : ModulePoolStats) : ModulePoolStats :=
  mkModuleStats (ms_instances_created s) (ms_instances_destroyed s) (ms_pool_hits s) (ms_pool_misses s)
    n (ms_max_pool_size_reached s).

Definition touch (now : Z) i : PooledInstance X :=
  mkInstance (pi_instance_id i) (pi_module_id i) (pi_wasm_context i) now (pi_execution_count i).
Definition try_get_from_pool (now : Z) (module_id : string) p : option (PooledInstance X) * WasmInstancePool X :=
  match wp_pools p !! module_id with
  | None => (None, p)
  | Some mp =>
      match mp_available_instances mp with
      | [] => (None, p)
      | i :: available =>
          let i := touch now i in
          (Some i, set_pool module_id
             (mkModulePool (mp_config mp) available (u64_add (mp_in_use_count mp) 1)
                (remove_first (pi_instance_id i) (mp_lru_order mp) ++ [pi_instance_id i]) (mp_next_instance_id mp) (module_hit (mp_stats mp))) p)
      end
  end.
Definition default_module_config : ModuleInstanceConfig := mkModuleConfig 67108864 5000 10 true 300.
Definition get_next_instance_id (module_id : string) p : Z * WasmInstancePool X :=
  let mp := default (mkModulePool default_module_config [] 0 [] 0 no_module_stats) (wp_pools p !! module_id) in
  (mp_next_instance_id mp,
   set_pool module_id (mkModulePool (mp_config mp) (mp_available_instances mp) (mp_in_use_count mp) (mp_lru_order mp)
                         (u64_add (mp_next_instance_id mp) 1) (mp_stats mp)) p).

(** [create_new_instance] up to its await, and after it *)
Definition create_begin (module_id : string) p : Result Z * WasmInstancePool X :=
  if contains_str "non-existent" module_id then (Err EtlModuleNotFound, p)
  else let '(id, p) := get_next_instance_id module_id p in (Ok id, p).
Definition create_finish (now : Z) (module_id : string) (config : ModuleInstanceConfig) (id : Z) (x : X) p
  : PooledInstance X * WasmInstancePool X :=
  let i := mkInstance id module_id x now 0 in
  let p := set_stats (count_created (mi_memory_limit_bytes config)) p in
  let '(mp, p) := match wp_pools p !! module_id with
                  | Some mp => (mp, p)
                  | None => (mkModulePool config [] 0 [] 0 no_module_stats, set_stats count_active p)
                  end in
  (i, set_pool module_id (mkModulePool (mp_config mp) (mp_available_instances mp) (u64_add (mp_in_use_count mp) 1) (mp_lru_order mp)
                            (mp_next_instance_id mp) (module_created (mp_stats mp))) p).
Definition create_new_instance (now : Z) (module_id : string) (config : ModuleInstanceConfig) p
  : Result (PooledInstance X) * WasmInstancePool X :=
  let! (id, p) := create_begin module_id p in
  let! (x, p) := (wasm_create module_id config, p) in
  let '(i, p) := create_finish now module_id config id x p in (Ok i, p).
Definition checkout_instance (now : Z) (module_id : string) (config : ModuleInstanceConfig) p
  : Result (PooledInstance X) * WasmInstancePool X :=
  match try_get_from_pool now module_id p with
  | (Some i, p) => (Ok i, set_stats count_hit p)
  | (None, p) => create_new_instance now module_id config (set_stats count_miss p)
  end.

(** [evict_lru_instance] on a pool, with the instance that is destroyed *)
Fixpoint take_instance (id : Z) (l : list (PooledInstance X)) : option (PooledInstance X * list (PooledInstance X)) :=
  match l with
  | [] => None
  | i :: l => if pi_instance_id i =? id then Some (i, l) else (λ r, (r.1, i :: r.2)) <$> take_instance id l
  end.
Definition evict_lru mp : option (PooledInstance X) * ModulePool X :=
  match mp_lru_order mp with
  | [] => (None, mp)
  | id :: lru =>
      match take_instance id (mp_available_instances mp) with
      | Some (old, available) =>
          (Some old, mkModulePool (mp_config mp) available (mp_in_use_count mp) lru (mp_next_instance_id mp) (module_destroyed 1 (mp_stats mp)))
      | None => (None, mkModulePool (mp_config mp) (mp_available_instances mp) (mp_in_use_count mp) lru (mp_next_instance_id mp) (mp_stats mp))
      end
  end.
Definition add_available i mp : ModulePool X :=
  let available := mp_available_instances mp ++ [i] in
  mkModulePool (mp_config mp) available (mp_in_use_count mp) (mp_lru_order mp ++ [pi_instance_id i]) (mp_next_instance_id mp)
    (module_size (Z.of_nat (length available)) (mp_stats mp)).
Definition release_use mp : ModulePool X :=
  mkModulePool (mp_config mp) (mp_available_instances mp) (saturating_sub (mp_in_use_count mp) 1) (mp_lru_order mp) (mp_next_instance_id mp) (mp_stats mp).
Definition put_back (module_id : string) i mp p : WasmInstancePool X :=
  if pc_max_pool_size (wp_config p) <=? Z.of_nat (length (mp_available_instances mp)) then
    let '(old, mp) := evict_lru mp in
    set_pool module_id (add_available i mp) (match old with Some old => set_stats (count_destroyed old) p | None => p end)
  else set_pool module_id (add_available i mp) p.

(** [InstanceReturnHandle::return_instance] *)
Definition return_instance (now : Z) i p : WasmInstancePool X :=
  let i := mkInstance (pi_instance_id i) (pi_module_id i) (pi_wasm_context i) now (u64_add (pi_execution_count i) 1) in
  match wp_pools p !! pi_module_id i with
  | None => p
  | Some mp => put_back (pi_module_id i) i (release_use mp) p
  end.
(** [WasmInstancePool::return_instance] *)
Definition pool_return_instance (now : Z) (module_id : string) i p : WasmInstancePool X :=
  match wp_pools p !! module_id with
  | None => p
  | Some mp =>
      let mp := release_use mp in
      if (pc_max_pool_size (wp_config p) <=? Z.of_nat (length (mp_available_instances mp))) && negb (pc_enable_lru_eviction (wp_config p))
      then set_stats (count_destroyed i) (set_pool module_id mp p)
      else put_back module_id (touch now i) mp p
  end.
Fixpoint prewarm (n : nat) (now : Z) (module_id : string) (config : ModuleInstanceConfig) p : Result unit * WasmInstancePool X :=
  match n with
  | O => (Ok tt, p)
  | S n =>
      let! (i, p) := create_new_instance now module_id config p in
      prewarm n now module_id config (pool_return_instance now module_id i p)
  end.
Definition prewarm_module (now : Z) (module_id : string) (config : ModuleInstanceConfig) p : Result unit * WasmInstancePool X :=
  prewarm (Z.to_nat (Z.min (pc_warmup_instances (wp_config p)) (pc_max_pool_size (wp_config p)))) now module_id config p.

(** A turn of the clean-up task on one module, and on all of them in the order
    of the map; times are in milliseconds. *)
Definition is_idle (threshold : Z) i : bool := pi_last_used i <? threshold.
Definition cleanup_module (threshold : Z) (module_id : string) p : WasmInstancePool X :=
  match wp_pools p !! module_id with
  | None => p
  | Some mp =>
      let gone := reverse (filter (λ i, is_idle threshold i = true) (mp_available_instances mp)) in
      let kept := filter (λ i, is_idle threshold i = false) (mp_available_instances mp) in
      let mp := mkModulePool (mp_config mp) kept (mp_in_use_count mp)
                  (foldl (λ lru i, remove_first (pi_instance_id i) lru) (mp_lru_order mp) gone) (mp_next_instance_id mp)
                  (module_shrunk (Z.of_nat (length kept)) (module_destroyed (Z.of_nat (length gone)) (mp_stats mp))) in
      set_pool module_id mp (foldl (λ p i, set_stats (count_destroyed i) p) p gone)
  end.
Definition cleanup_tick (now : Z) p : WasmInstancePool X :=
  foldl (λ p module_id, cleanup_module (now - 1000 * pc_idle_timeout_seconds (wp_config p)) module_id p) p (map_to_list (wp_pools p)).*1.
End pool.

(** ** Instances are used by one execution at a time *)

Section system.
Context {X : Type} `{!WasmRuntime X}.
Implicit Types (p : WasmInstancePool X) (mp : ModulePool X) (i : PooledInstance X).

(** The pool with the instances that are checked out and the creations that
    await their context *)
Record PoolSystem := mkSystem {
  sy_pool : WasmInstancePool X;
  sy_out : list (PooledInstance X);
  sy_creating : list (string * ModuleInstanceConfig * Z);
}.
Inductive PoolEvent :=
  | PvGet (now : Z) (module_id : string)
  | PvBegin (module_id : string) (config : ModuleInstanceConfig)
  | PvCreate (k : nat) (now : Z)
  | PvRun (k : nat) (input : bytes)
  | PvReturn (k : nat) (now : Z)
  | PvReturnWarm (k : nat) (now : Z)
  | PvCleanup (now : Z).
Definition with_context (x : X) i : PooledInstance X :=
  mkInstance (pi_instance_id i) (pi_module_id i) x (pi_last_used i) (pi_execution_count i).
Definition pool_step (e : PoolEvent) (s : PoolSystem) : PoolSystem :=
  let '(mkSystem p out creating) := s in
  match e with
  | PvGet now m =>
      match try_get_from_pool now m p with
      | (Some i, p) => mkSystem (set_stats count_hit p) (out ++ [i]) creating
      | (None, p) => mkSystem (set_stats count_miss p) out creating
      end
  | PvBegin m config =>
      match create_begin m p with
      | (Ok id, p) => mkSystem p out (creating ++ [(m, config, id)])
      | (Err _, p) => mkSystem p out creating
      end
  | PvCreate k now =>
      match creating !! k with
      | Some (m, config, id) =>
          match wasm_create m config with
          | Ok x => let '(i, p) := create_finish now m config id x p in mkSystem p (out ++ [i]) (delete k creating)
          | Err _ => mkSystem p out (delete k creating)
          end
      | None => s
      end
  | PvRun k input => mkSystem p (alter (λ i, with_context (wasm_run (pi_wasm_context i) input).2 i) k out) creating
  | PvReturn k now =>
      match out !! k with
      | Some i => mkSystem (return_instance now i p) (delete k out) creating
      | None => s
      end
  | PvReturnWarm k now =>
      match out !! k with
      | Some i => mkSystem (pool_return_instance now (pi_module_id i) i p) (delete k out) creating
      | None => s
      end
  | PvCleanup now => mkSystem (cleanup_tick now p) out creating
  end.
Definition pool_run (es : list PoolEvent) (s : PoolSystem) : PoolSystem := foldl (λ s e, pool_step e s) s es.

Definition avail (m : string) p : list (PooledInstance X) := from_option mp_available_instances [] (wp_pools p !! m).
Definition next_id (m : string) p : Z := from_option mp_next_instance_id 0 (wp_pools p !! m).
Definition in_use (m : string) p : Z := from_option mp_in_use_count 0 (wp_pools p !! m).
Definition of_module (m : string) (l : list (PooledInstance X)) : list (PooledInstance X) := filter (λ i, pi_module_id i = m) l.
(** The identifiers of a module that are taken *)
Definition creating_ids (m : string) (l : list (string * ModuleInstanceConfig * Z)) : list Z := (filter (λ c, c.1.1 = m) l).*2.
Definition ids (m : string) (s : PoolSystem) : list Z :=
  (pi_instance_id <$> avail m (sy_pool s)) ++ (pi_instance_id <$> of_module m (sy_out s)) ++ creating_ids m (sy_creating s).
Definition memory_of i : Z := wasm_memory_size (pi_wasm_context i).
Definition idle_count p : Z := msum (λ mp, Z.of_nat (length (mp_available_instances mp))) (wp_pools p).
Definition idle_memory p : Z := msum (λ mp, zsum memory_of (mp_available_instances mp)) (wp_pools p).

(** *** The effect of an operation on one module *)

Record module_update p p' (m : string) (available gone : list (PooledInstance X)) (in_use' : Z) : Prop := {
  mu_pools : ∃ mp', wp_pools p' = <[m := mp']> (wp_pools p) ∧ mp_available_instances mp' = available ∧ mp_in_use_count mp' = in_use' ∧
                    mp_next_instance_id mp' = next_id m p;
  mu_created : is_total_instances_created (wp_stats p') = is_total_instances_created (wp_stats p);
  mu_destroyed : is_total_instances_destroyed (wp_stats p') `mod` u64_modulus =
                 (is_total_instances_destroyed (wp_stats p) + Z.of_nat (length gone)) `mod` u64_modulus;
  mu_memory : is_total_memory_usage (wp_stats p') `mod` u64_modulus =
              (is_total_memory_usage (wp_stats p) - zsum memory_of gone) `mod` u64_modulus;
}.
Lemma take_instance_spec id l i rest : take_instance id l = Some (i, rest) → rest ++ [i] ≡ₚ l.
Proof.
  revert rest. induction l as [|j l IH]; intros rest; simpl; [done|]. destruct (pi_instance_id j =? id).
  - intros [= -> ->]. by rewrite (comm (++)).
  - destruct (take_instance id l) as [[i' rest']|]; [|done]. intros [= -> <-]. simpl. constructor. by apply IH.
Qed.
Lemma add_available_update m i mp p :
  mp_available_instances mp = avail m p → mp_next_instance_id mp = next_id m p →
  module_update p (set_pool m (add_available i mp) p) m (avail m p ++ [i]) [] (mp_in_use_count mp).
Proof.
  intros Ha Hn. split; simpl; rewrite ?zsum_nil, ?Z.add_0_r, ?Z.sub_0_r; try done. eexists. split; [done|]. simpl. by rewrite Ha.
Qed.
Lemma put_back_update m i mp p :
  mp_available_instances mp = avail m p → mp_next_instance_id mp = next_id m p →
  ∃ available gone, available ++ gone ≡ₚ i :: avail m p ∧
    module_update p (put_back m i mp p) m available gone (mp_in_use_count mp).
Proof.
  intros Ha Hn. assert (Hplain : (avail m p ++ [i]) ++ [] ≡ₚ i :: avail m p) by (by rewrite app_nil_r, (comm (++))).
  unfold put_back. destruct (_ <=? _); [|by eexists _, _; split; [exact Hplain|apply add_available_update]].
  unfold evict_lru. destruct (mp_lru_order mp) as [|id lru]; [by eexists _, _; split; [exact Hplain|apply add_available_update]|].
  destruct (take_instance id (mp_available_instances mp)) as [[old rest]|] eqn:Et;
    [|by eexists _, _; split; [exact Hplain|eapply (add_available_update m i (mkModulePool _ _ _ _ _ _))]].
  apply take_instance_spec in Et. rewrite Ha in Et. exists (rest ++ [i]), [old].
  split; [rewrite <- Et, <- (assoc (++)); apply (Permutation_app_swap_app rest [i] [old])|].
  split; simpl; [eexists; split; [done|]; done|done| |];
    unfold u64_add, u64_sub; rewrite Z.mod_mod by done; [done|]. f_equal. rewrite zsum_cons, zsum_nil. unfold memory_of. lia.
Qed.
Lemma return_update now i p mp :
  wp_pools p !! pi_module_id i = Some mp →
  ∃ available gone j, pi_instance_id j = pi_instance_id i ∧ pi_wasm_context j = pi_wasm_context i ∧ pi_module_id j = pi_module_id i ∧
    available ++ gone ≡ₚ j :: avail (pi_module_id i) p ∧
    module_update p (return_instance now i p) (pi_module_id i) available gone (saturating_sub (mp_in_use_count mp) 1).
Proof.
  intros Hmp. unfold return_instance. simpl. rewrite Hmp.
  edestruct (put_back_update (pi_module_id i) (mkInstance (pi_instance_id i) (pi_module_id i) (pi_wasm_context i) now (u64_add (pi_execution_count i) 1))
    (release_use mp) p) as (available & gone & Hp & Hu); [unfold avail; by rewrite Hmp|unfold next_id; by rewrite Hmp|].
  eexists available, gone, _. by split_and!; [..|exact Hp|exact Hu].
Qed.
Lemma return_warm_update now i p mp :
  wp_pools p !! pi_module_id i = Some mp →
  ∃ available gone j, pi_instance_id j = pi_instance_id i ∧ pi_wasm_context j = pi_wasm_context i ∧ pi_module_id j = pi_module_id i ∧
    available ++ gone ≡ₚ j :: avail (pi_module_id i) p ∧
    module_update p (pool_return_instance now (pi_module_id i) i p) (pi_module_id i) available gone (saturating_sub (mp_in_use_count mp) 1).
Proof.
  intros Hmp. unfold pool_return_instance. rewrite Hmp. destruct (_ && _).
  - exists (avail (pi_module_id i) p), [i], i. split_and!; try done; [by rewrite (comm (++))|].
    split; simpl; [eexists; split; [done|]; simpl; unfold avail, next_id; by rewrite Hmp|done| |];
      unfold u64_add, u64_sub; rewrite Z.mod_mod by done; [done|]. f_equal. rewrite zsum_cons, zsum_nil. unfold memory_of. lia.
  - edestruct (put_back_update (pi_module_id i) (touch now i) (release_use mp) p) as (available & gone & Hp & Hu);
      [unfold avail; by rewrite Hmp|unfold next_id; by rewrite Hmp|].
    eexists available, gone, _. split_and!; [..|exact Hp|exact Hu]; done.
Qed.
Lemma cleanup_update threshold m p mp :
  wp_pools p !! m = Some mp →
  ∃ available gone, available ++ gone ≡ₚ avail m p ∧
    module_update p (cleanup_module threshold m p) m available gone (mp_in_use_count mp).
Proof.
  intros Hmp. unfold cleanup_module. rewrite Hmp.
  set (gone := reverse (filter (λ i, is_idle threshold i = true) (mp_available_instances mp))).
  set (kept := filter (λ i, is_idle threshold i = false) (mp_available_instances mp)). exists kept, gone. split.
  - unfold avail. rewrite Hmp. simpl. subst gone kept. rewrite reverse_Permutation, (comm (++)).
    rewrite <- (filter_app_complement (λ i, is_idle threshold i = true) (mp_available_instances mp)) at 3.
    apply Permutation_app_head. clear. induction (mp_available_instances mp) as [|i l IH]; [done|].
    rewrite !filter_cons. destruct (is_idle threshold i); repeat case_decide; congruence || auto.
  - assert (Hst : ∀ l p0, wp_pools (foldl (λ p i, set_stats (count_destroyed i) p) p0 l) = wp_pools p0 ∧
      is_total_instances_created (wp_stats (foldl (λ p i, set_stats (count_destroyed i) p) p0 l)) = is_total_instances_created (wp_stats p0) ∧
      is_total_instances_destroyed (wp_stats (foldl (λ p i, set_stats (count_destroyed i) p) p0 l)) `mod` u64_modulus =
        (is_total_instances_destroyed (wp_stats p0) + Z.of_nat (length l)) `mod` u64_modulus ∧
      is_total_memory_usage (wp_stats (foldl (λ p i, set_stats (count_destroyed i) p) p0 l)) `mod` u64_modulus =
        (is_total_memory_usage (wp_stats p0) - zsum memory_of l) `mod` u64_modulus).
    { induction l as [|i l IH]; intros p0; simpl; [rewrite zsum_nil, Z.add_0_r, Z.sub_0_r; done|].
      destruct (IH (set_stats (count_destroyed i) p0)) as (-> & -> & -> & ->). split_and!; [done|done| |]; simpl; unfold u64_add, u64_sub.
      - rewrite Zplus_mod_idemp_l. f_equal. lia.
      - rewrite Zminus_mod_idemp_l. f_equal. rewrite zsum_cons. unfold memory_of. lia. }
    destruct (Hst gone p) as (Hpools & Hc & Hd & Hm).
    split; simpl; rewrite ?Hpools; try done. eexists. split; [done|]. unfold next_id. by rewrite Hmp.
Qed.

Lemma try_get_update now m p i p' :
  try_get_from_pool now m p = (Some i, p') →
  ∃ j rest, avail m p = j :: rest ∧ pi_instance_id i = pi_instance_id j ∧ memory_of i = memory_of j ∧ pi_module_id i = pi_module_id j ∧
    is_Some (wp_pools p !! m) ∧ module_update p (set_stats count_hit p') m rest [] (u64_add (in_use m p) 1).
Proof.
  unfold try_get_from_pool, avail, in_use. destruct (wp_pools p !! m) as [mp|] eqn:Em; [|done]. simpl.
  destruct (mp_available_instances mp) as [|j rest]; [done|]. intros [= <- <-]. exists j, rest. split_and!; try done.
  split; simpl; rewrite ?zsum_nil, ?Z.add_0_r, ?Z.sub_0_r; try done. eexists. split; [done|]. unfold next_id. by rewrite Em.
Qed.

Definition exact_memory : Prop := ∀ m config (x : X), wasm_create m config = Ok x → wasm_memory_size x = mi_memory_limit_bytes config.
Record pool_inv (n : Z) (s : PoolSystem) : Prop := {
  iv_distinct m : NoDup (ids m s);
  iv_below m x : x ∈ ids m s → 0 ≤ x < next_id m (sy_pool s);
  iv_next m : 0 ≤ next_id m (sy_pool s) ≤ n;
  iv_module m i : i ∈ avail m (sy_pool s) → pi_module_id i = m;
  iv_exists i : i ∈ sy_out s → is_Some (wp_pools (sy_pool s) !! pi_module_id i);
  iv_creating c : c ∈ sy_creating s → is_Some (wp_pools (sy_pool s) !! c.1.1);
  iv_in_use m : in_use m (sy_pool s) = Z.of_nat (length (of_module m (sy_out s)));
  iv_out : Z.of_nat (length (sy_out s)) ≤ n;
  iv_count : (is_total_instances_created (wp_stats (sy_pool s)) - is_total_instances_destroyed (wp_stats (sy_pool s))
              - idle_count (sy_pool s) - Z.of_nat (length (sy_out s))) `mod` u64_modulus = 0;
  iv_memory : exact_memory →
    (is_total_memory_usage (wp_stats (sy_pool s)) - idle_memory (sy_pool s) - zsum memory_of (sy_out s)) `mod` u64_modulus = 0;
}.

Lemma submseteq_NoDup {A} (l k : list A) : l ⊆+ k → NoDup k → NoDup l.
Proof. intros (k' & ->)%submseteq_Permutation. rewrite NoDup_app. by intros (? & _ & _). Qed.
Lemma cong_shift x y b r r' :
  x `mod` u64_modulus = y `mod` u64_modulus → b `mod` u64_modulus = 0 → r - b = x - y ∨ r - b = y - x → r' = r → r' `mod` u64_modulus = 0.
Proof.
  intros Hxy%Z.cong_iff_0 Hb Hr ->. apply Z.mod_divide in Hxy as [c Hc]; [|done]. apply Z.mod_divide in Hb as [d Hd]; [|done].
  apply Z.mod_divide; [done|]. destruct Hr; [exists (d + c)|exists (d - c)]; lia.
Qed.
Lemma update_inv n n' s p' m available gone u out' :
  n ≤ n' → pool_inv n s → module_update (sy_pool s) p' m available gone u →
  (∀ i, i ∈ available → pi_module_id i = m) →
  (pi_instance_id <$> available) ++ (pi_instance_id <$> of_module m out') ++ creating_ids m (sy_creating s) ⊆+ ids m s →
  (∀ m', m' ≠ m → of_module m' out' ≡ₚ of_module m' (sy_out s)) →
  (∀ i, i ∈ out' → pi_module_id i = m ∨ i ∈ sy_out s) →
  u = Z.of_nat (length (of_module m out')) → Z.of_nat (length out') ≤ n' →
  Z.of_nat (length available) + Z.of_nat (length gone) + Z.of_nat (length out') =
    Z.of_nat (length (avail m (sy_pool s))) + Z.of_nat (length (sy_out s)) →
  zsum memory_of available + zsum memory_of gone + zsum memory_of out' =
    zsum memory_of (avail m (sy_pool s)) + zsum memory_of (sy_out s) →
  pool_inv n' (mkSystem p' out' (sy_creating s)).
Proof.
  intros Hn' [H1 H2 H3 H4 H5 H6 H7 H8 H9 H10] [(mp' & Hp & Ha & Hu & Hn) Hc Hd Hm] Hmod Hids Hother Hout Huse Hlen Hcount Hmem.
  assert (Eav : ∀ m', avail m' p' = if decide (m' = m) then available else avail m' (sy_pool s)).
  { intros m'. unfold avail. rewrite Hp. case_decide; [subst m'; by rewrite lookup_insert_eq|by rewrite lookup_insert_ne]. }
  assert (Enx : ∀ m', next_id m' p' = next_id m' (sy_pool s)).
  { intros m'. unfold next_id at 1. rewrite Hp. destruct (decide (m' = m)) as [->|]; [by rewrite lookup_insert_eq|by rewrite lookup_insert_ne]. }
  assert (Hsub : ∀ m', ids m' (mkSystem p' out' (sy_creating s)) ⊆+ ids m' s).
  { intros m'. unfold ids at 1. simpl. rewrite Eav. case_decide as Hm'; [by rewrite Hm'|]. by rewrite (Hother m' Hm'). }
  assert (Hsome : ∀ k, is_Some (wp_pools (sy_pool s) !! k) → is_Some (wp_pools p' !! k)).
  { intros k Hk. rewrite Hp. destruct (decide (k = m)) as [->|]; [rewrite lookup_insert_eq; eauto|by rewrite lookup_insert_ne]. }
  split; simpl.
  - intros m'. eapply submseteq_NoDup; [apply Hsub|apply H1].
  - intros m' x Hx. rewrite Enx. apply H2. eapply elem_of_submseteq; [exact Hx|apply Hsub].
  - intros m'. rewrite Enx. specialize (H3 m'). lia.
  - intros m' i. rewrite Eav. case_decide as Hm'; [subst m'; apply Hmod|apply H4].
  - intros i [Hi|Hi]%Hout; [rewrite Hp, Hi, lookup_insert_eq; eauto|by apply Hsome, H5].
  - intros c Hin. by apply Hsome, H6.
  - intros m'. unfold in_use. rewrite Hp. destruct (decide (m' = m)) as [->|Hne].
    + rewrite lookup_insert_eq. simpl. by rewrite Hu.
    + rewrite lookup_insert_ne by done. rewrite (Hother m' Hne). apply H7.
  - done.
  - assert (Ei : idle_count p' = idle_count (sy_pool s) + Z.of_nat (length available) - Z.of_nat (length (avail m (sy_pool s)))).
    { unfold idle_count. rewrite Hp, msum_insert, Ha. unfold avail. destruct (wp_pools (sy_pool s) !! m); simpl; lia. }
    rewrite Hc, Ei. eapply (cong_shift _ _ _ _ _ Hd H9); [|reflexivity]. right. lia.
  - intros Hx. specialize (H10 Hx).
    assert (Ei : idle_memory p' = idle_memory (sy_pool s) + zsum memory_of available - zsum memory_of (avail m (sy_pool s))).
    { unfold idle_memory. rewrite Hp, msum_insert, Ha. unfold avail. destruct (wp_pools (sy_pool s) !! m); simpl; rewrite ?zsum_nil; lia. }
    rewrite Ei. eapply (cong_shift _ _ _ _ _ Hm H10); [|reflexivity]. left. lia.
Qed.

Lemma stats_inv n n' s p' :
  n ≤ n' → pool_inv n s → wp_pools p' = wp_pools (sy_pool s) →
  is_total_instances_created (wp_stats p') = is_total_instances_created (wp_stats (sy_pool s)) →
  is_total_instances_destroyed (wp_stats p') = is_total_instances_destroyed (wp_stats (sy_pool s)) →
  is_total_memory_usage (wp_stats p') = is_total_memory_usage (wp_stats (sy_pool s)) →
  pool_inv n' (mkSystem p' (sy_out s) (sy_creating s)).
Proof.
  intros Hn [H1 H2 H3 H4 H5 H6 H7 H8 H9 H10] Ep Ec Ed Em.
  unfold ids, avail, next_id, in_use, idle_count, idle_memory in *.
  split; unfold ids, avail, next_id, in_use, idle_count, idle_memory; simpl; rewrite ?Ep, ?Ec, ?Ed, ?Em; auto; [|lia].
  intros m. specialize (H3 m). lia.
Qed.
Lemma of_module_app m l1 l2 : of_module m (l1 ++ l2) = of_module m l1 ++ of_module m l2.
Proof. apply filter_app. Qed.
Lemma of_module_same m i : pi_module_id i = m → of_module m [i] = [i].
Proof. intros Hm. unfold of_module. rewrite filter_cons, decide_True by done. done. Qed.
Lemma of_module_other m i : pi_module_id i ≠ m → of_module m [i] = [].
Proof. intros Hm. unfold of_module. rewrite filter_cons, decide_False by done. done. Qed.
Lemma zsum_perm {A} (f : A → Z) l1 l2 : l1 ≡ₚ l2 → zsum f l1 = zsum f l2.
Proof. induction 1; rewrite ?zsum_cons; lia. Qed.

Lemma get_inv n s now m : n + 1 < u64_modulus → pool_inv n s → pool_inv (n + 1) (pool_step (PvGet now m) s).
Proof.
  intros Hn Hs. destruct s as [p out creating]. simpl. destruct (try_get_from_pool now m p) as [[i|] p'] eqn:E.
  - apply try_get_update in E as (j & rest & Ea & Hid & Hmem & Hmod & Hsome & Hu).
    assert (Hm : pi_module_id i = m) by (rewrite Hmod; apply (iv_module _ _ Hs m j); simpl; rewrite Ea; by constructor).
    pose proof (iv_out _ _ Hs) as Hout. pose proof (iv_in_use _ _ Hs m) as Huse. simpl in Hout, Huse.
    assert (Hle : (length (of_module m out) ≤ length out)%nat) by apply length_filter.
    apply (update_inv n (n + 1) (mkSystem p out creating) _ m rest [] (u64_add (in_use m p) 1)); try done; simpl; [lia| | | | | | | |].
    + intros k Hk. apply (iv_module _ _ Hs). simpl. rewrite Ea. by constructor.
    + unfold ids. simpl. rewrite Ea, of_module_app, (of_module_same m i) by done. rewrite fmap_app. simpl. rewrite Hid.
      rewrite <- (assoc_L (++) (pi_instance_id <$> of_module m out)). simpl. apply Permutation_submseteq.
      rewrite !(assoc (++)). rewrite <- Permutation_middle. done.
    + intros m' Hm'. rewrite of_module_app, (of_module_other m' i) by congruence. by rewrite app_nil_r.
    + intros k [Hk| ->%list_elem_of_singleton]%elem_of_app; [by right|by left].
    + rewrite Huse, of_module_app, (of_module_same m i), length_app by done. simpl. rewrite u64_add_small by lia. lia.
    + rewrite length_app. simpl. lia.
    + rewrite Ea, length_app. simpl. lia.
    + rewrite Ea, zsum_app, !zsum_cons, zsum_nil. lia.
  - assert (p' = p) as ->.
    { unfold try_get_from_pool in E. destruct (wp_pools p !! m) as [mp|]; [|congruence]. destruct (mp_available_instances mp); congruence. }
    apply (stats_inv n (n + 1) (mkSystem p out creating)); [lia|done..].
Qed.

(** A return, whichever of the two it is *)
Lemma give_back_inv n s k i p' available gone j mp :
  n + 1 < u64_modulus → pool_inv n s → sy_out s !! k = Some i → wp_pools (sy_pool s) !! pi_module_id i = Some mp →
  pi_instance_id j = pi_instance_id i → memory_of j = memory_of i → pi_module_id j = pi_module_id i →
  available ++ gone ≡ₚ j :: avail (pi_module_id i) (sy_pool s) →
  module_update (sy_pool s) p' (pi_module_id i) available gone (saturating_sub (mp_in_use_count mp) 1) →
  pool_inv (n + 1) (mkSystem p' (delete k (sy_out s)) (sy_creating s)).
Proof.
  intros Hn Hs Hk Hmp Hid Hmem Hmod Hperm Hu. set (m := pi_module_id i) in *.
  pose proof (delete_Permutation _ _ _ Hk) as Hout. pose proof (iv_in_use _ _ Hs m) as Huse. pose proof (iv_out _ _ Hs) as Hle.
  assert (Hof : of_module m (sy_out s) ≡ₚ i :: of_module m (delete k (sy_out s))).
  { unfold of_module. rewrite Hout at 1. rewrite filter_cons, decide_True by done. done. }
  pose proof (Permutation_length Hof) as Hlof. pose proof (Permutation_length Hout) as Hlout.
  pose proof (Permutation_length Hperm) as Hlp. pose proof (zsum_perm memory_of _ _ Hperm) as Hzp. pose proof (zsum_perm memory_of _ _ Hout) as Hzo.
  rewrite length_app in Hlp. rewrite zsum_app, !zsum_cons in *. simpl in *.
  apply (update_inv n (n + 1) s p' m available gone _ _ ltac:(lia) Hs Hu).
  - intros x Hx. assert (Hin : x ∈ available ++ gone) by (apply elem_of_app; by left). rewrite Hperm in Hin.
    apply elem_of_cons in Hin as [->|Hin]; [done|by apply (iv_module _ _ Hs)].
  - unfold ids. rewrite Hof. rewrite fmap_cons, <- app_comm_cons, <- Permutation_middle.
    transitivity ((pi_instance_id <$> available ++ gone) ++ (pi_instance_id <$> of_module m (delete k (sy_out s))) ++ creating_ids m (sy_creating s)).
    + rewrite fmap_app, <- (assoc (++)). apply submseteq_skips_l. by apply submseteq_inserts_l.
    + rewrite Hperm. simpl. by rewrite Hid.
  - intros m' Hm'. unfold of_module. rewrite Hout at 2. rewrite filter_cons, decide_False; [done|by apply not_eq_sym].
  - intros x Hx. right. rewrite Hout. by constructor.
  - unfold in_use in Huse. rewrite Hmp in Huse. simpl in Huse. rewrite Huse. unfold saturating_sub. case_match; lia.
  - lia.
  - lia.
  - lia.
Qed.
Lemma return_inv n s k now : n + 1 < u64_modulus → pool_inv n s → pool_inv (n + 1) (pool_step (PvReturn k now) s).
Proof.
  intros Hn Hs. destruct s as [p out creating]. simpl. destruct (out !! k) as [i|] eqn:Ek; [|by apply (stats_inv n (n + 1) (mkSystem p out creating)); [lia|..]].
  destruct (iv_exists _ _ Hs i) as [mp Hmp]; [by eapply list_elem_of_lookup_2|]. simpl in Hmp.
  destruct (return_update now i p mp Hmp) as (av & gone & j & E1 & E2 & E3 & Hp & Hu).
  eapply (give_back_inv n (mkSystem p out creating)); try done. unfold memory_of. by rewrite E2.
Qed.
Lemma return_warm_inv n s k now : n + 1 < u64_modulus → pool_inv n s → pool_inv (n + 1) (pool_step (PvReturnWarm k now) s).
Proof.
  intros Hn Hs. destruct s as [p out creating]. simpl. destruct (out !! k) as [i|] eqn:Ek; [|by apply (stats_inv n (n + 1) (mkSystem p out creating)); [lia|..]].
  destruct (iv_exists _ _ Hs i) as [mp Hmp]; [by eapply list_elem_of_lookup_2|]. simpl in Hmp.
  destruct (return_warm_update now i p mp Hmp) as (av & gone & j & E1 & E2 & E3 & Hp & Hu).
  eapply (give_back_inv n (mkSystem p out creating)); try done. unfold memory_of. by rewrite E2.
Qed.

Lemma creating_ids_app m l1 l2 : creating_ids m (l1 ++ l2) = creating_ids m l1 ++ creating_ids m l2.
Proof. unfold creating_ids. by rewrite filter_app, fmap_app. Qed.
Lemma begin_inv n s m config : n + 1 < u64_modulus → pool_inv n s → pool_inv (n + 1) (pool_step (PvBegin m config) s).
Proof.
  intros Hn Hs. destruct s as [p out creating]. simpl. unfold create_begin.
  destruct (contains_str _ _); [by apply (stats_inv n (n + 1) (mkSystem p out creating)); [lia|..]|].
  unfold get_next_instance_id. set (mp := default _ (wp_pools p !! m)).
  assert (Emp : mp_available_instances mp = avail m p ∧ mp_next_instance_id mp = next_id m p ∧ mp_in_use_count mp = in_use m p).
  { unfold mp, avail, next_id, in_use. by destruct (wp_pools p !! m). }
  destruct Emp as (Ea & En & Eu). destruct Hs as [H1 H2 H3 H4 H5 H6 H7 H8 H9 H10]. simpl in *.
  assert (Hnext : u64_add (next_id m p) 1 = next_id m p + 1) by (apply u64_add_small; specialize (H3 m); lia).
  set (p' := set_pool _ _ _).
  assert (Eav : ∀ m', avail m' p' = avail m' p).
  { intros m'. unfold avail, p'. simpl. destruct (decide (m' = m)) as [->|]; [rewrite lookup_insert_eq|by rewrite lookup_insert_ne].
    simpl. by rewrite Ea. }
  assert (Enx : ∀ m', next_id m' p' = if decide (m' = m) then next_id m p + 1 else next_id m' p).
  { intros m'. unfold next_id at 1, p'. simpl. case_decide; [subst; rewrite lookup_insert_eq; simpl; by rewrite En|by rewrite lookup_insert_ne]. }
  assert (Hsome : ∀ k, is_Some (wp_pools p !! k) → is_Some (wp_pools p' !! k)).
  { intros k Hk. unfold p'. simpl. destruct (decide (k = m)) as [->|]; [rewrite lookup_insert_eq; eauto|by rewrite lookup_insert_ne]. }
  assert (Hids : ∀ m', ids m' (mkSystem p' out (creating ++ [(m, config, mp_next_instance_id mp)])) =
                       ids m' (mkSystem p out creating) ++ (if decide (m' = m) then [next_id m p] else [])).
  { intros m'. unfold ids. simpl. rewrite Eav, creating_ids_app, !(assoc_L (++)). f_equal. unfold creating_ids. rewrite filter_cons. simpl.
    rewrite En. destruct (decide (m' = m)), (decide (m = m')); done || congruence. }
  split; simpl.
  - intros m'. rewrite Hids. apply NoDup_app. split; [apply H1|]. case_decide as Hm'; [|split; [by intros x _ []%elem_of_nil|constructor]].
    subst m'. split; [|apply NoDup_singleton]. intros x Hx ->%list_elem_of_singleton. apply H2 in Hx. simpl in Hx. lia.
  - intros m' x. rewrite Hids, Enx. intros [Hx|Hx]%elem_of_app; [apply H2 in Hx; simpl in Hx; case_decide; [subst m'|]; lia|].
    case_decide; [|by apply elem_of_nil in Hx]. apply list_elem_of_singleton in Hx as ->. specialize (H3 m). lia.
  - intros m'. rewrite Enx. case_decide; [specialize (H3 m)|specialize (H3 m')]; lia.
  - intros m' i. rewrite Eav. apply H4.
  - intros i Hi. by apply Hsome, H5.
  - intros c [Hc| ->%list_elem_of_singleton]%elem_of_app; [by apply Hsome, H6|]. simpl. rewrite lookup_insert_eq. eauto.
  - intros m'. unfold in_use, p'. simpl. rewrite <- H7. destruct (decide (m' = m)) as [->|]; [rewrite lookup_insert_eq|by rewrite lookup_insert_ne].
    simpl. by rewrite Eu.
  - lia.
  - assert (Ei : idle_count p' = idle_count p).
    { unfold idle_count, p'. simpl. rewrite msum_insert. simpl. rewrite Ea. unfold avail. destruct (wp_pools p !! m); simpl; lia. }
    by rewrite Ei.
  - intros Hx. assert (Ei : idle_memory p' = idle_memory p).
    { unfold idle_memory, p'. simpl. rewrite msum_insert. simpl. rewrite Ea. unfold avail. destruct (wp_pools p !! m); simpl; rewrite ?zsum_nil; lia. }
    rewrite Ei. by apply H10.
Qed.

Lemma delete_submseteq {A} (l : list A) k : delete k l ⊆+ l.
Proof. revert k. induction l as [|x l IH]; intros [|k]; simpl; [done..|by apply submseteq_cons|by apply submseteq_skip]. Qed.
Lemma creating_ids_submseteq m l1 l2 : l1 ⊆+ l2 → creating_ids m l1 ⊆+ creating_ids m l2.
Proof. unfold creating_ids. intros (r & ->)%submseteq_Permutation. rewrite filter_app, fmap_app. by apply submseteq_inserts_r. Qed.
(** Forgetting a creation *)
Lemma forget_inv n n' s k : n ≤ n' → pool_inv n s → pool_inv n' (mkSystem (sy_pool s) (sy_out s) (delete k (sy_creating s))).
Proof.
  intros Hn [H1 H2 H3 H4 H5 H6 H7 H8 H9 H10].
  assert (Hsub : ∀ m, ids m (mkSystem (sy_pool s) (sy_out s) (delete k (sy_creating s))) ⊆+ ids m s).
  { intros m. unfold ids. simpl. do 2 apply submseteq_skips_l. apply creating_ids_submseteq, delete_submseteq. }
  split; simpl; auto; [| | | |lia].
  - intros m. eapply submseteq_NoDup; [apply Hsub|apply H1].
  - intros m x Hx. apply H2. eapply elem_of_submseteq; [exact Hx|apply Hsub].
  - intros m. specialize (H3 m). lia.
  - intros c Hc. apply H6. eapply elem_of_submseteq; [exact Hc|apply delete_submseteq].
Qed.
Lemma create_inv n s k now : n + 1 < u64_modulus → pool_inv n s → pool_inv (n + 1) (pool_step (PvCreate k now) s).
Proof.
  intros Hn Hs. destruct s as [p out creating]. simpl.
  destruct (creating !! k) as [[[m config] id]|] eqn:Ek; [|by apply (stats_inv n (n + 1) (mkSystem p out creating)); [lia|..]].
  destruct (wasm_create m config) as [x|e] eqn:Ex; [|by apply (forget_inv n (n + 1) (mkSystem p out creating)); [lia|]].
  assert (Hforget : pool_inv n (mkSystem p out (delete k creating))) by (by apply (forget_inv n n (mkSystem p out creating))).
  assert (Hid : ∀ m', ids m' (mkSystem p out creating) ≡ₚ (if decide (m' = m) then [id] else []) ++ ids m' (mkSystem p out (delete k creating))).
  { intros m'. unfold ids. simpl. unfold creating_ids. rewrite (delete_Permutation _ _ _ Ek) at 1. rewrite filter_cons. simpl.
    destruct (decide (m = m')), (decide (m' = m)); try congruence; simpl; [|done]. by rewrite <- !Permutation_middle. }
  destruct (iv_creating _ _ Hs (m, config, id)) as [mp Hmp]; [by eapply list_elem_of_lookup_2|]. simpl in Hmp.
  unfold create_finish. simpl. rewrite Hmp. pose proof (iv_distinct _ _ Hs) as D. pose proof (iv_below _ _ Hs) as Bl.
  destruct Hforget as [H1 H2 H3 H4 H5 H6 H7 H8 H9 H10]. simpl in *. set (i := mkInstance id m x now 0). set (p' := set_pool _ _ _).
  assert (Eav : ∀ m', avail m' p' = avail m' p).
  { intros m'. unfold avail, p'. simpl. destruct (decide (m' = m)) as [->|]; [rewrite lookup_insert_eq, Hmp|rewrite lookup_insert_ne by done]; done. }
  assert (Enx : ∀ m', next_id m' p' = next_id m' p).
  { intros m'. unfold next_id, p'. simpl. destruct (decide (m' = m)) as [->|]; [rewrite lookup_insert_eq, Hmp|rewrite lookup_insert_ne by done]; done. }
  assert (Hids : ∀ m', ids m' (mkSystem p' (out ++ [i]) (delete k creating)) ≡ₚ ids m' (mkSystem p out creating)).
  { intros m'. rewrite Hid. unfold ids. simpl. rewrite Eav, of_module_app, fmap_app. destruct (decide (m' = m)) as [->|Hne].
    - rewrite (of_module_same m i) by done. simpl. rewrite <- (assoc (++)). simpl. by rewrite <- !Permutation_middle.
    - rewrite (of_module_other m' i) by (simpl; congruence). by rewrite app_nil_r. }
  assert (Hsome : ∀ j, is_Some (wp_pools p !! j) → is_Some (wp_pools p' !! j)).
  { intros j Hj. unfold p'. simpl. destruct (decide (j = m)) as [->|]; [rewrite lookup_insert_eq; eauto|by rewrite lookup_insert_ne]. }
  assert (Hlen : (length (of_module m out) ≤ length out)%nat) by apply length_filter.
  split; simpl.
  - intros m'. rewrite Hids. apply D.
  - intros m' y. rewrite Hids, Enx. apply Bl.
  - intros m'. rewrite Enx. specialize (H3 m'). lia.
  - intros m' j. rewrite Eav. apply H4.
  - intros j [Hj| ->%list_elem_of_singleton]%elem_of_app; [by apply Hsome, H5|]. simpl. rewrite lookup_insert_eq. eauto.
  - intros c Hc. by apply Hsome, H6.
  - intros m'. unfold in_use, p'. simpl. specialize (H7 m'). unfold in_use in H7. rewrite of_module_app, length_app. destruct (decide (m' = m)) as [->|Hne].
    + rewrite lookup_insert_eq, Hmp, (of_module_same m i) in * by done. simpl in *. rewrite H7, u64_add_small by lia. lia.
    + rewrite lookup_insert_ne, (of_module_other m' i) by (done || (simpl; congruence)). simpl. rewrite H7. lia.
  - rewrite length_app. simpl. lia.
  - assert (Ei : idle_count p' = idle_count p) by (unfold idle_count, p'; simpl; rewrite msum_insert, Hmp; simpl; lia).
    rewrite Ei. unfold u64_add. eapply (cong_shift ((is_total_instances_created (wp_stats p) + 1) `mod` u64_modulus) (is_total_instances_created (wp_stats p) + 1));
      [by apply Z.mod_mod|exact H9| |reflexivity]. left. rewrite length_app. simpl. lia.
  - intros Hx. specialize (H10 Hx). assert (Ei : idle_memory p' = idle_memory p) by (unfold idle_memory, p'; simpl; rewrite msum_insert, Hmp; simpl; lia).
    rewrite Ei, zsum_app, zsum_cons, zsum_nil. unfold u64_add.
    eapply (cong_shift ((is_total_memory_usage (wp_stats p) + mi_memory_limit_bytes config) `mod` u64_modulus) (is_total_memory_usage (wp_stats p) + mi_memory_limit_bytes config));
      [by apply Z.mod_mod|exact H10| |reflexivity]. left. unfold memory_of. simpl. rewrite (Hx _ _ _ Ex). lia.
Qed.

(** Running an instance changes its context only. *)
Lemma alter_context f k (l : list (PooledInstance X)) :
  (∀ i, pi_instance_id (f i) = pi_instance_id i ∧ pi_module_id (f i) = pi_module_id i ∧ memory_of (f i) = memory_of i) →
  (∀ m, pi_instance_id <$> of_module m (alter f k l) = pi_instance_id <$> of_module m l) ∧
  zsum memory_of (alter f k l) = zsum memory_of l ∧ (∀ i, i ∈ alter f k l → ∃ j, j ∈ l ∧ pi_module_id i = pi_module_id j).
Proof.
  intros Hf. revert k. induction l as [|i l IH]; intros [|k]; simpl.
  - by split_and!; [..|intros i []%elem_of_nil].
  - by split_and!; [..|intros i []%elem_of_nil].
  - destruct (Hf i) as (E1 & E2 & E3). split_and!.
    + intros m. unfold of_module. rewrite !filter_cons, E2. case_decide; [|done]. rewrite !fmap_cons. by rewrite E1.
    + by rewrite !zsum_cons, E3.
    + intros j [->|Hj]%elem_of_cons; [exists i; split; [by constructor|done]|]. exists j. split; [by constructor|done].
  - destruct (IH k) as (H1 & H2 & H3). split_and!.
    + intros m. specialize (H1 m). unfold of_module in *. rewrite !filter_cons. case_decide; [|exact H1]. rewrite !fmap_cons. by f_equal.
    + rewrite !zsum_cons. f_equal. exact H2.
    + intros j [->|Hj]%elem_of_cons; [exists i; split; [by constructor|done]|]. destruct (H3 j Hj) as (j' & Hin & ?). exists j'. split; [by constructor|done].
Qed.
Context (run_memory : ∀ (x : X) input, wasm_memory_size (wasm_run x input).2 = wasm_memory_size x).
Lemma run_inv n s k input : pool_inv n s → pool_inv (n + 1) (pool_step (PvRun k input) s).
Proof using run_memory.
  intros [H1 H2 H3 H4 H5 H6 H7 H8 H9 H10]. destruct s as [p out creating]. simpl in *.
  set (f := λ i, with_context (wasm_run (pi_wasm_context i) input).2 i).
  destruct (alter_context f k out) as (Hi & Hm & Hin); [intros i; split_and!; [done..|apply run_memory]|].
  assert (Hids : ∀ m, ids m (mkSystem p (alter f k out) creating) = ids m (mkSystem p out creating)) by (intros m; unfold ids; simpl; by rewrite Hi).
  assert (Hlen : ∀ m, length (of_module m (alter f k out)) = length (of_module m out))
    by (intros m; specialize (Hi m); apply (f_equal length) in Hi; by rewrite !length_fmap in Hi).
  assert (Hl : length (alter f k out) = length out) by apply length_alter.
  split; simpl; rewrite ?Hl; auto; [| | | | |lia|].
  - intros m. rewrite Hids. apply H1.
  - intros m x. rewrite Hids. apply H2.
  - intros m. specialize (H3 m). lia.
  - intros i (j & Hj & ->)%Hin. by apply H5.
  - intros m. rewrite Hlen. apply H7.
  - intros Hx. rewrite Hm. by apply H10.
Qed.
Lemma cleanup_inv n s now : pool_inv n s → pool_inv (n + 1) (pool_step (PvCleanup now) s).
Proof using Type.
  intros Hs. destruct s as [p out creating]. simpl. unfold cleanup_tick. generalize (map_to_list (wp_pools p)).*1 as ms. intros ms.
  set (f := λ p m, _). assert (Hgen : pool_inv n (mkSystem (foldl f p ms) out creating)).
  { revert p Hs. induction ms as [|m ms IH]; intros p Hs; [done|]. simpl. apply IH. unfold f.
    destruct (wp_pools p !! m) as [mp|] eqn:Em; [|unfold cleanup_module; by rewrite Em].
    destruct (cleanup_update (now - 1000 * pc_idle_timeout_seconds (wp_config p)) m p mp Em) as (av & gone & Hp & Hu).
    pose proof (Permutation_length Hp) as Hl. pose proof (zsum_perm memory_of _ _ Hp) as Hz. rewrite length_app in Hl. rewrite zsum_app in Hz.
    apply (update_inv n n (mkSystem p out creating) _ m av gone _ out ltac:(lia) Hs Hu); simpl; try done.
    - intros i Hi. apply (iv_module _ _ Hs). simpl. rewrite <- Hp. apply elem_of_app. by left.
    - unfold ids. simpl. apply submseteq_skips_r. rewrite <- Hp, fmap_app. by apply submseteq_inserts_r.
    - intros i Hi. by right.
    - pose proof (iv_in_use _ _ Hs m) as Huse. unfold in_use in Huse. simpl in Huse. by rewrite Em in Huse.
    - apply (iv_out _ _ Hs).
    - lia.
    - lia. }
  by apply (stats_inv n (n + 1) (mkSystem (foldl f p ms) out creating)); [lia|..].
Qed.

(** C38: Whatever modules are requested, created, run, returned, pre-warmed and
    cleaned up, in any interleaving of the executions between their awaits: an
    instance is idle in the pool, used by one execution or still being created,
    never two of these at once, and no two instances of a module share an
    identifier; the number in use is the number that is checked out; created
    instances are the destroyed ones and the live ones; and, when contexts take
    the memory they are limited to, the memory gauge is the memory of the live
    instances.  Counters are [u64]. *)
Theorem instance_pool_exclusive config es :
  Z.of_nat (length es) < u64_modulus →
  let s := pool_run es (mkSystem (instance_pool_new config) [] []) in
  let st := wp_stats (sy_pool s) in
  (∀ m, NoDup (ids m s)) ∧
  (∀ m, in_use m (sy_pool s) = Z.of_nat (length (of_module m (sy_out s)))) ∧
  (is_total_instances_created st - is_total_instances_destroyed st - idle_count (sy_pool s) - Z.of_nat (length (sy_out s))) `mod` u64_modulus = 0 ∧
  (exact_memory → (is_total_memory_usage st - idle_memory (sy_pool s) - zsum memory_of (sy_out s)) `mod` u64_modulus = 0).
Proof using run_memory.
  intros Hlen. assert (Hinv : ∀ es n s, 0 ≤ n → n + Z.of_nat (length es) < u64_modulus → pool_inv n s → pool_inv (n + Z.of_nat (length es)) (pool_run es s)).
  { clear es Hlen. induction es as [|e es IH]; intros n s Hn Hlt Hs; [by rewrite Z.add_0_r|]. simpl in *.
    replace (n + Z.of_nat (S (length es))) with (n + 1 + Z.of_nat (length es)) by lia. apply IH; [lia|lia|].
    destruct e; [apply get_inv|apply begin_inv|apply create_inv|apply run_inv|apply return_inv|apply return_warm_inv|apply cleanup_inv]; lia || done. }
  destruct (Hinv es 0 (mkSystem (instance_pool_new config) [] [])) as [H1 H2 H3 H4 H5 H6 H7 H8 H9 H10]; [lia|lia| |by split_and!].
  assert (Ha : ∀ m, avail m (instance_pool_new config) = []) by (intros m; unfold avail; simpl; by rewrite lookup_empty).
  assert (Hi : ∀ m, ids m (mkSystem (instance_pool_new config) [] []) = []) by (intros m; unfold ids; simpl; by rewrite Ha).
  split; cbn [sy_pool sy_out sy_creating]; try done.
  - intros m. rewrite Hi. constructor.
  - intros m x. rewrite Hi. by intros []%elem_of_nil.
  - intros m x. rewrite Ha. by intros []%elem_of_nil.
  - intros x []%elem_of_nil.
  - intros x []%elem_of_nil.
Qed.
End system.

(** ** The runtime without WebAssembly, and concrete runs *)

(** The context of builds without the [wasm] feature: it prefixes its input. *)
Record MockContext := mkMock { mk_memory_size : Z; mk_is_initialized : bool; mk_mock_data : bytes }.
Definition mock_create (_module_id : string) (config : ModuleInstanceConfig) : Result MockContext :=
  Ok (mkMock (mi_memory_limit_bytes config) true (replicate 1024 0)).
Definition mock_execute (x : MockContext) (input : bytes) : Result bytes * MockContext :=
  if negb (mk_is_initialized x) then (Err EtlProcessingFailed, x)
  else (Ok (str_bytes "processed:transform" ++ input), x).
#[export] Instance mock_runtime : WasmRuntime MockContext := {|
  wasm_create := mock_create;
  wasm_run x input := let '(r, x) := mock_execute x input in (Some r, x);
  wasm_memory_size := mk_memory_size;
|}.
Lemma mock_memory (x : MockContext) input : wasm_memory_size (wasm_run x input).2 = wasm_memory_size x.
Proof. simpl. unfold mock_execute. by destruct (mk_is_initialized x). Qed.
Lemma mock_exact : exact_memory (X := MockContext).
Proof. by intros m config x [= <-]. Qed.

Module PoolDemo.
Definition config : EtlInstancePoolConfig := mkPoolConfig 1 0 300 true.
Definition module : ModuleInstanceConfig := mkModuleConfig 100 1000 10 false 0.
Abbreviation run es := (pool_run (X := MockContext) es (mkSystem (instance_pool_new config) [] [])).
(** Two instances are created and returned; the second return evicts the
    first. *)
Definition two : list (PoolEvent) :=
  [PvGet 1 "m"; PvBegin "m" module; PvGet 1 "m"; PvBegin "m" module; PvCreate 0 2; PvCreate 0 2; PvRun 1 [7]; PvReturn 0 3; PvReturn 0 3].
Lemma instance_pool_exclusive_witness :
  ids "m" (run two) = [1] ∧ (is_total_memory_usage (wp_stats (sy_pool (run two))) - idle_memory (sy_pool (run two))
    - zsum memory_of (sy_out (run two))) `mod` u64_modulus = 0.
Proof.
  split; [vm_compute; reflexivity|].
  refine (proj2 (proj2 (proj2 (instance_pool_exclusive (X := MockContext) mock_memory config two _))) mock_exact). vm_compute. reflexivity.
Defined.

(** The order of use also lists instances that are checked out; when the oldest
    entry is one of them a return to a full pool evicts nothing, and the pool
    exceeds its limit. *)
Example pool_exceeds_limit :
  let es := two ++ [PvGet 4 "m"; PvBegin "m" module; PvCreate 0 5; PvReturn 1 6; PvReturn 0 7] in
  (length (avail "m" (sy_pool (run es))), pc_max_pool_size config) = (2%nat, 1).
Proof. vm_compute. reflexivity. Qed.
(** The pool of a module is made when its first identifier is given out, with
    a default configuration; the count of active modules stays at zero. *)
Example module_config_ignored :
  let p := sy_pool (run two) in
  (mp_config <$> wp_pools p !! "m", is_active_modules (wp_stats p)) = (Some default_module_config, 0).
Proof. vm_compute. reflexivity. Qed.

(** An engine whose modules write a length of their choice before their output *)
#[local] Instance engine : WasmEngine Z bytes := {|
  wasm_compile b := Some (from_le b);
  wasm_exports _ := ["transform"; "memory"];
  wasm_instantiate m _ _ := Some (le_bytes 4 m);
  wasm_has_memory _ := true;
  wasm_has_func _ f := String.eqb f "transform";
  wasm_data_size _ := 65536;
  wasm_read st at_ n := if (at_ <? 4) && (n <=? 4) then Some (take (Z.to_nat n) (drop (Z.to_nat at_) st)) else None;
  wasm_write st _ _ := Some st;
  wasm_allocate st _ := (None, st);
  wasm_transform st _ _ := (Some 0, st);
  wasm_deallocate st _ := (None, st);
|}.
(** A module that announces a negative length panics the task that runs it. *)
Example negative_length_panics :
  match (create_wasm_context (Mo := Z) (St := bytes) {["m" := 4294967295]} "m" module) with
  | Ok x => (execute (Mo := Z) x [1; 2; 3]).1
  | Err e => Err e
  end = Err Panic.
Proof. vm_compute. reflexivity. Qed.
(** The gauge adds a context's limit and subtracts its size: one instance that
    comes and goes leaves it wrong. *)
Example memory_gauge_drifts :
  let runtime := engine_runtime (Mo := Z) (St := bytes) {["m" := 0]} (λ _ _, None) in
  let s := pool_run (WasmRuntime0 := runtime) [PvBegin "m" module; PvCreate 0 2; PvReturn 0 3; PvCleanup 1000000]
             (mkSystem (instance_pool_new config) [] []) in
  (idle_count (sy_pool s), is_total_memory_usage (wp_stats (sy_pool s))) = (0, u64_sub 100 65536).
Proof. vm_compute. reflexivity. Qed.
End PoolDemo.
