(* ===== verification/EtlPipeline.v ===== *)
(** * Stream processing: pipelines and the processor

    Model of [src/src/etl/orchestrator.rs] and [src/src/etl/processor.rs]:
    compiling pipelines, running the stages of one in the order of their
    priorities, modules one after another or in parallel, and combining the
    results.  A module runs as a task of five turns on the instance pool; before
    every turn [env] changes the pool as other executions may.  The order in
    which a heap gives out equal priorities, the interleaving of parallel tasks
    and the order of the map of pipelines are arguments; so are the readings of
    the clock, one per stage of a pipeline for the rules and the timeout.  Execution times,
    messages of errors and the descriptions of pipelines are left out. *)

From S2P Require Import Prelude Types AccessControl ConsumerGroup EtlFilter EtlPool.
Local Open Scope Z_scope.

(** ** Configuration *)

Inductive ErrorHandlingStrategy := StopPipeline | SkipModule | RetryWithBackoff | SendToDeadLetter.
Record EtlModuleInstance := mkEtlModule {
  em_module_id : string;
  em_instance_config : ModuleInstanceConfig;
  em_topic_filters : list TopicFilter;
  em_conditional_rules : list ConditionalRule;
}.
Record EtlStage := mkEtlStage {
  es_priority : Z;
  es_modules : list EtlModuleInstance;
  es_parallel_execution : bool;
  es_stage_timeout_ms : option Z;
  es_continue_on_error : bool;
}.
Record EtlPipelineConfig := mkEtlPipeline {
  ep_pipeline_id : string;
  ep_enabled : bool;
  ep_stages : list EtlStage;
  ep_global_timeout_ms : Z;
  ep_max_retries : Z;
  ep_error_handling : ErrorHandlingStrategy;
}.

Record CompiledModule (G R : Type) := mkCompiledModule {
  cm_module_id : string;
  cm_instance_config : ModuleInstanceConfig;
  cm_topic_filter : TopicFilterEngine G R;
  cm_conditional_rules : list (CompiledConditionalRule R);
}.
Arguments mkCompiledModule {G R}. Arguments cm_module_id {G R}. Arguments cm_instance_config {G R}. Arguments cm_topic_filter {G R}.
Arguments cm_conditional_rules {G R}.
Record CompiledStage (G R : Type) := mkCompiledStage {
  cs_priority : Z;
  cs_modules : list (CompiledModule G R);
  cs_parallel_execution : bool;
}.
Arguments mkCompiledStage {G R}. Arguments cs_priority {G R}. Arguments cs_modules {G R}. Arguments cs_parallel_execution {G R}.
Record PipelineInstance (G R : Type) := mkPipeline { pl_config : EtlPipelineConfig; pl_stages : list (CompiledStage G R) }.
Arguments mkPipeline {G R}. Arguments pl_config {G R}. Arguments pl_stages {G R}.

(** ** Results *)

Record ModuleExecutionInfo := mkModuleInfo {
  xi_module_id : string;
  xi_success : bool;
  xi_bytes_processed : Z;
  xi_transformation_applied : bool;
  xi_output : option bytes;
}.
Record StageExecutionInfo := mkStageInfo { si_priority : Z; si_modules_executed : list ModuleExecutionInfo; si_parallel_execution : bool }.
Record ExecutionMetadata := mkMetadata {
  md_pipeline_id : string;
  md_execution_id : string;
  md_stages_executed : list StageExecutionInfo;
  md_transformations_applied : nat;
  md_errors_encountered : nat;
  md_modules_skipped : nat;
}.
Record PipelineExecutionResult := mkPipelineResult {
  xr_success : bool;
  xr_original_record : Record_;
  xr_transformed_record : Record_;
  xr_execution_metadata : ExecutionMetadata;
}.
Record OrchestratorStats := mkOrchestratorStats {
  os_total_executions : Z;
  os_successful_executions : Z;
  os_failed_executions : Z;
  os_active_pipelines : Z;
}.

Definition with_value (v : bytes) (r : Record_) : Record_ := mkRecord (r_key r) v (r_headers r) (r_timestamp r).

(** ** Compilation *)

Section compile.
Context {G R : Type} `{!GlobLibrary G, !RegexLibrary R, !TextLibrary}.
Local Open Scope rust_scope.
Fixpoint compile_modules (modules : list EtlModuleInstance) : Result (list (CompiledModule G R)) :=
  match modules with
  | [] => Ok []
  | m :: modules =>
      let? topic_filter := filter_engine_new (em_topic_filters m) in
      let? conditional_rules := rule_engine_new (em_conditional_rules m) in
      let? rest := compile_modules modules in
      Ok (mkCompiledModule (em_module_id m) (em_instance_config m) topic_filter conditional_rules :: rest)
  end.
Fixpoint compile_stages (stages : list EtlStage) : Result (list (CompiledStage G R)) :=
  match stages with
  | [] => Ok []
  | s :: stages =>
      let? modules := compile_modules (es_modules s) in
      let? rest := compile_stages stages in
      Ok (mkCompiledStage (es_priority s) modules (es_parallel_execution s) :: rest)
  end.
Definition priority_le (a b : CompiledStage G R) : Prop := cs_priority a ≤ cs_priority b.
#[global] Instance priority_le_dec : RelDecision priority_le.
Proof. intros a b. unfold priority_le. apply _. Defined.
Definition compile_pipeline (config : EtlPipelineConfig) : Result (PipelineInstance G R) :=
  let? stages := compile_stages (ep_stages config) in
  Ok (mkPipeline config (merge_sort priority_le stages)).
End compile.

(** ** Execution *)

Section execution.
Context {G R X : Type} `{!GlobLibrary G, !RegexLibrary R, !TextLibrary, !WasmRuntime X}.
Context (env : nat → WasmInstancePool X → WasmInstancePool X) (clock : nat → Z).
Context (rule_time elapsed : string → nat → Z) (schedule : nat → nat → list nat).
Context (pop_order : list (CompiledStage G R) → list (CompiledStage G R)).
Local Open Scope rust_scope.
Implicit Types (m : CompiledModule G R) (stage : CompiledStage G R) (record : Record_).

(** The pool, with the number of turns taken on it so far *)
Abbreviation Shared := (nat * WasmInstancePool X)%type.
Definition turn {A} (f : Z → WasmInstancePool X → A * WasmInstancePool X) (s : Shared) : A * Shared :=
  let '(a, p) := f (clock s.1) (env s.1 s.2) in (a, (S s.1, p)).

Inductive TaskPc :=
  | TkStart
  | TkMissed
  | TkCreating (id : Z)
  | TkRunning (i : PooledInstance X)
  | TkReturning (i : PooledInstance X) (outcome : option (Result bytes))
  | TkDone (outcome : Result bytes).
(** The turns of a module on an input: a checkout of up to three, the run, and
    the return of the instance, which a panic skips *)
Definition task_step m (input : bytes) (pc : TaskPc) (now : Z) (p : WasmInstancePool X) : TaskPc * WasmInstancePool X :=
  match pc with
  | TkStart =>
      match try_get_from_pool now (cm_module_id m) p with
      | (Some i, p) => (TkRunning i, set_stats count_hit p)
      | (None, p) => (TkMissed, set_stats count_miss p)
      end
  | TkMissed =>
      match create_begin (cm_module_id m) p with
      | (Ok id, p) => (TkCreating id, p)
      | (Err e, p) => (TkDone (Err e), p)
      end
  | TkCreating id =>
      match wasm_create (cm_module_id m) (cm_instance_config m) with
      | Ok x => let '(i, p) := create_finish now (cm_module_id m) (cm_instance_config m) id x p in (TkRunning i, p)
      | Err e => (TkDone (Err e), p)
      end
  | TkRunning i =>
      let '(outcome, x) := wasm_run (pi_wasm_context i) input in
      match outcome with
      | Some (Err Panic) => (TkDone (Err Panic), p)
      | _ => (TkReturning (with_context x i) outcome, p)
      end
  | TkReturning i outcome => (TkDone (default (Err EtlProcessingFailed) outcome), return_instance now i p)
  | TkDone _ => (pc, p)
  end.

Definition failed_info (module_id : string) : ModuleExecutionInfo := mkModuleInfo module_id false 0 false None.
(** [execute_single_module], with the record it leaves *)
Definition execute_single_module m record (s : Shared) : Result ModuleExecutionInfo * Record_ * Shared :=
  let step (ps : TaskPc * Shared) := turn (task_step m (r_value record) ps.1) ps.2 in
  let '(pc, s) := Nat.iter 5 step (TkStart, s) in
  match pc with
  | TkDone (Ok output) => (Ok (mkModuleInfo (cm_module_id m) true (Z.of_nat (length output)) true None), with_value output record, s)
  | TkDone (Err e) => (Err e, record, s)
  | _ => (Err Blocked, record, s)
  end.
Fixpoint execute_modules_sequential (modules : list (CompiledModule G R)) record (s : Shared)
  : Result (list ModuleExecutionInfo) * Record_ * Shared :=
  match modules with
  | [] => (Ok [], record, s)
  | m :: modules =>
      let '(r, record, s) := execute_single_module m record s in
      match r with
      | Err Panic => (Err Panic, record, s)
      | Err Blocked => (Err Blocked, record, s)
      | _ =>
          let '(rest, record, s) := execute_modules_sequential modules record s in
          (let? rest := rest in Ok (match r with Ok info => info | Err _ => failed_info (cm_module_id m) end :: rest), record, s)
      end
  end.

(** Parallel tasks, in the order a schedule gives them turns *)
Fixpoint run_tasks (modules : list (CompiledModule G R)) (input : bytes) (turns : list nat) (tasks : list TaskPc) (s : Shared)
  : list TaskPc * Shared :=
  match turns with
  | [] => (tasks, s)
  | k :: turns =>
      match modules !! k, tasks !! k with
      | Some m, Some pc => let '(pc, s) := turn (task_step m input pc) s in run_tasks modules input turns (<[k := pc]> tasks) s
      | _, _ => run_tasks modules input turns tasks s
      end
  end.
Definition is_done (pc : TaskPc) : bool := match pc with TkDone _ => true | _ => false end.
(** What [join_all] yields for a task *)
Definition joined (input : bytes) m (pc : TaskPc) : ModuleExecutionInfo :=
  match pc with
  | TkDone (Ok output) => mkModuleInfo (cm_module_id m) true (Z.of_nat (length input)) true (Some output)
  | TkDone (Err Panic) => failed_info "unknown"
  | _ => failed_info (cm_module_id m)
  end.
Definition first_output (infos : list ModuleExecutionInfo) : option bytes :=
  head (omap (λ x, if xi_success x && xi_transformation_applied x then xi_output x else None) infos).
Definition execute_modules_parallel (modules : list (CompiledModule G R)) record (s : Shared)
  : Result (list ModuleExecutionInfo) * Record_ * Shared :=
  let input := r_value record in
  let '(tasks, s) := run_tasks modules input (schedule s.1 (length modules)) ((λ _, TkStart) <$> modules) s in
  if negb (forallb is_done tasks) then (Err Blocked, record, s)
  else
    let infos := zip_with (joined input) modules tasks in
    (Ok infos, match first_output infos with Some v => with_value v record | None => record end, s).

Fixpoint filter_applicable_modules (now : Z) (modules : list (CompiledModule G R)) record (topic : string)
  : Result (list (CompiledModule G R)) :=
  match modules with
  | [] => Ok []
  | m :: modules =>
      if negb (fr_matches (matches_topic topic (cm_topic_filter m))) then filter_applicable_modules now modules record topic
      else
        let? conditions_match := evaluate_record now (cm_conditional_rules m) record in
        let? rest := filter_applicable_modules now modules record topic in
        Ok (if conditions_match : bool then m :: rest else rest)
  end.
Definition execute_stage (now : Z) stage record (topic : string) (s : Shared) : Result StageExecutionInfo * Record_ * Shared :=
  match filter_applicable_modules now (cs_modules stage) record topic with
  | Err e => (Err e, record, s)
  | Ok [] => (Ok (mkStageInfo (cs_priority stage) [] (cs_parallel_execution stage)), record, s)
  | Ok applicable =>
      let '(infos, record, s) := if cs_parallel_execution stage && (1 <? Z.of_nat (length applicable))
                                 then execute_modules_parallel applicable record s
                                 else execute_modules_sequential applicable record s in
      (let? infos := infos in Ok (mkStageInfo (cs_priority stage) infos (cs_parallel_execution stage)), record, s)
  end.

Definition count_stage (info : StageExecutionInfo) (md : ExecutionMetadata) : ExecutionMetadata :=
  mkMetadata (md_pipeline_id md) (md_execution_id md) (md_stages_executed md ++ [info])
    (md_transformations_applied md + length (filter (λ x, xi_transformation_applied x = true) (si_modules_executed info)))
    (md_errors_encountered md + length (filter (λ x, xi_success x = false) (si_modules_executed info))) (md_modules_skipped md).
Definition count_error (md : ExecutionMetadata) : ExecutionMetadata :=
  mkMetadata (md_pipeline_id md) (md_execution_id md) (md_stages_executed md) (md_transformations_applied md)
    (S (md_errors_encountered md)) (md_modules_skipped md).
(** The loop over the stages; [i] counts them. *)
Fixpoint execute_stages (config : EtlPipelineConfig) (i : nat) (stages : list (CompiledStage G R)) (topic : string)
    (md : ExecutionMetadata) record (s : Shared) : Result ExecutionMetadata * Record_ * Shared :=
  match stages with
  | [] => (Ok md, record, s)
  | stage :: stages =>
      if ep_global_timeout_ms config <? elapsed (ep_pipeline_id config) i then (Ok (count_error md), record, s)
      else
        let '(r, record, s) := execute_stage (rule_time (ep_pipeline_id config) i) stage record topic s in
        match r with
        | Ok info => execute_stages config (S i) stages topic (count_stage info md) record s
        | Err Panic => (Err Panic, record, s)
        | Err Blocked => (Err Blocked, record, s)
        | Err _ =>
            match ep_error_handling config with
            | StopPipeline => (Ok (count_error md), record, s)
            | _ => execute_stages config (S i) stages topic (count_error md) record s
            end
        end
  end.
Definition execute_single_pipeline (pipeline : PipelineInstance G R) (execution_id : string) record (topic : string) (s : Shared)
  : Result PipelineExecutionResult * Shared :=
  let config := pl_config pipeline in
  let '(r, transformed, s) := execute_stages config 0 (pop_order (pl_stages pipeline)) topic
                                (mkMetadata (ep_pipeline_id config) execution_id [] 0 0 0) record s in
  (let? md := r in Ok (mkPipelineResult (bool_decide (md_errors_encountered md = 0%nat)) record transformed md), s).

(** ** The orchestrator *)

Record EtlPipelineOrchestrator := mkOrchestrator {
  oc_pipelines : gmap string (PipelineInstance G R);
  oc_shared : Shared;
  oc_stats : OrchestratorStats;
}.
Fixpoint compile_enabled (pipelines : list EtlPipelineConfig) (acc : gmap string (PipelineInstance G R))
  : Result (gmap string (PipelineInstance G R)) :=
  match pipelines with
  | [] => Ok acc
  | c :: pipelines =>
      if ep_enabled c
      then let? p := compile_pipeline c in compile_enabled pipelines (<[ep_pipeline_id c := p]> acc)
      else compile_enabled pipelines acc
  end.
Definition orchestrator_new (pipelines : list EtlPipelineConfig) (pool_config : EtlInstancePoolConfig) : Result EtlPipelineOrchestrator :=
  let? compiled := compile_enabled pipelines ∅ in
  Ok (mkOrchestrator compiled (0%nat, instance_pool_new pool_config) (mkOrchestratorStats 0 0 0 (Z.of_nat (size compiled)))).
Definition set_active (pipelines : gmap string (PipelineInstance G R)) (o : EtlPipelineOrchestrator) : EtlPipelineOrchestrator :=
  let st := oc_stats o in
  mkOrchestrator pipelines (oc_shared o)
    (mkOrchestratorStats (os_total_executions st) (os_successful_executions st) (os_failed_executions st) (Z.of_nat (size pipelines))).
Definition add_pipeline (config : EtlPipelineConfig) (o : EtlPipelineOrchestrator) : Result unit * EtlPipelineOrchestrator :=
  if negb (ep_enabled config) then (Ok tt, o)
  else match compile_pipeline config with
       | Ok p => (Ok tt, set_active (<[ep_pipeline_id config := p]> (oc_pipelines o)) o)
       | Err e => (Err e, o)
       end.
Definition remove_pipeline (pipeline_id : string) (o : EtlPipelineOrchestrator) : Result unit * EtlPipelineOrchestrator :=
  match oc_pipelines o !! pipeline_id with
  | Some _ => (Ok tt, set_active (delete pipeline_id (oc_pipelines o)) o)
  | None => (Err EtlModuleNotFound, o)
  end.
Definition pipeline_applies_to_topic (pipeline : PipelineInstance G R) (topic : string) : bool :=
  existsb (λ stage, existsb (λ m, fr_matches (matches_topic topic (cm_topic_filter m))) (cs_modules stage)) (pl_stages pipeline).
Definition count_success (success : bool) (st : OrchestratorStats) : OrchestratorStats :=
  mkOrchestratorStats (os_total_executions st) (if success then u64_add (os_successful_executions st) 1 else os_successful_executions st)
    (os_failed_executions st) (os_active_pipelines st).
Definition count_failure (st : OrchestratorStats) : OrchestratorStats :=
  mkOrchestratorStats (os_total_executions st) (os_successful_executions st) (u64_add (os_failed_executions st) 1) (os_active_pipelines st).
Definition count_execution (st : OrchestratorStats) : OrchestratorStats :=
  mkOrchestratorStats (u64_add (os_total_executions st) 1) (os_successful_executions st) (os_failed_executions st) (os_active_pipelines st).
Fixpoint execute_each (pipelines : list (string * PipelineInstance G R)) (execution_id : string) record (topic : string)
    (s : Shared) (st : OrchestratorStats) : Result (list PipelineExecutionResult) * Shared * OrchestratorStats :=
  match pipelines with
  | [] => (Ok [], s, st)
  | (pipeline_id, pipeline) :: pipelines =>
      if negb (pipeline_applies_to_topic pipeline topic) then execute_each pipelines execution_id record topic s st
      else
        let '(r, s) := execute_single_pipeline pipeline execution_id record topic s in
        match r with
        | Err Panic => (Err Panic, s, st)
        | Err Blocked => (Err Blocked, s, st)
        | _ =>
            let '(result, st) :=
              match r with
              | Ok result => (result, count_success (xr_success result) st)
              | Err _ => (mkPipelineResult false record record (mkMetadata pipeline_id execution_id [] 0 1 0), count_failure st)
              end in
            let '(rest, s, st) := execute_each pipelines execution_id record topic s st in
            (let? rest := rest in Ok (result :: rest), s, st)
        end
  end.
Context (pipeline_order : list (string * PipelineInstance G R) → list (string * PipelineInstance G R)).
Definition execute_pipelines (execution_id : string) record (topic : string) (o : EtlPipelineOrchestrator)
  : Result (list PipelineExecutionResult) * EtlPipelineOrchestrator :=
  let '(r, s, st) := execute_each (pipeline_order (map_to_list (oc_pipelines o))) execution_id record topic (oc_shared o) (oc_stats o) in
  match r with
  | Ok results => (Ok results, mkOrchestrator (oc_pipelines o) s (count_execution st))
  | Err e => (Err e, mkOrchestrator (oc_pipelines o) s st)
  end.
Fixpoint prewarm_each (modules : list (CompiledModule G R)) (s : Shared) : Result unit * Shared :=
  match modules with
  | [] => (Ok tt, s)
  | m :: modules =>
      match turn (λ now, prewarm_module now (cm_module_id m) (cm_instance_config m)) s with
      | (Ok _, s) => prewarm_each modules s
      | (Err e, s) => (Err e, s)
      end
  end.
Definition prewarm_instances (o : EtlPipelineOrchestrator) : Result unit * EtlPipelineOrchestrator :=
  let modules := pp ← pipeline_order (map_to_list (oc_pipelines o)); stage ← pl_stages pp.2; cs_modules stage in
  let '(r, s) := prewarm_each modules (oc_shared o) in (r, mkOrchestrator (oc_pipelines o) s (oc_stats o)).

(** ** The processor *)

(** A loaded module of the older interface, by the number of its executions *)
Record EtlMetrics := mkEtlMetrics { et_total_executions : Z; et_successful_executions : Z; et_modules_loaded : Z }.
Record ProcessingMetadata := mkProcessing { pm_modules_applied : list string; pm_transformations_count : nat; pm_error_count : nat }.
Record ProcessedRecord := mkProcessed { pd_original : Record_; pd_transformed : Record_; pd_processing_metadata : ProcessingMetadata }.
Record EtlProcessor := mkProcessor {
  et_modules : gmap string Z;
  et_metrics : EtlMetrics;
  et_orchestrator : option EtlPipelineOrchestrator;
}.
Definition processor_new (pipelines : list EtlPipelineConfig) (pool_config : EtlInstancePoolConfig) : Result EtlProcessor :=
  match pipelines with
  | [] => Ok (mkProcessor ∅ (mkEtlMetrics 0 0 0) None)
  | _ => let? o := orchestrator_new pipelines pool_config in Ok (mkProcessor ∅ (mkEtlMetrics 0 0 0) (Some o))
  end.
(** The module passes its input through. *)
Definition execute_module (module_id : string) (input_data : bytes) (t : EtlProcessor) : Result bytes * EtlProcessor :=
  match et_modules t !! module_id with
  | None => (Err EtlModuleNotFound, t)
  | Some count =>
      let x := et_metrics t in
      (Ok input_data, mkProcessor (<[module_id := u64_add count 1]> (et_modules t))
         (mkEtlMetrics (u64_add (et_total_executions x) 1) (u64_add (et_successful_executions x) 1) (et_modules_loaded x)) (et_orchestrator t))
  end.
Fixpoint legacy_each (module_ids : list string) record (md : ProcessingMetadata) (t : EtlProcessor) : Record_ * ProcessingMetadata * EtlProcessor :=
  match module_ids with
  | [] => (record, md, t)
  | id :: module_ids =>
      match execute_module id (r_value record) t with
      | (Ok output, t) =>
          legacy_each module_ids (with_value output record)
            (mkProcessing (pm_modules_applied md ++ [id]) (S (pm_transformations_count md)) (pm_error_count md)) t
      | (Err _, t) =>
          legacy_each module_ids record (mkProcessing (pm_modules_applied md) (pm_transformations_count md) (S (pm_error_count md))) t
      end
  end.
Definition process_record_legacy record (module_ids : list string) (t : EtlProcessor) : ProcessedRecord * EtlProcessor :=
  let '(transformed, md, t) := legacy_each module_ids record (mkProcessing [] 0 0) t in (mkProcessed record transformed md, t).

(** The loop of [combine_pipeline_results] *)
Definition applied_modules (md : ExecutionMetadata) : list string :=
  stage ← md_stages_executed md; xi_module_id <$> filter (λ x, xi_success x = true) (si_modules_executed stage).
Definition combine_step (acc : Record_ * ProcessingMetadata) (result : PipelineExecutionResult) : Record_ * ProcessingMetadata :=
  let '(final, md) := acc in
  if xr_success result then
    let x := xr_execution_metadata result in
    (if bool_decide (pm_transformations_count md = 0%nat) then xr_transformed_record result else final,
     mkProcessing (pm_modules_applied md ++ applied_modules x) (pm_transformations_count md + md_transformations_applied x)
       (pm_error_count md + md_errors_encountered x))
  else (final, md).
Definition combine_pipeline_results record (results : list PipelineExecutionResult) : option ProcessedRecord :=
  match results with
  | [] => None
  | _ => let '(final, md) := foldl combine_step (record, mkProcessing [] 0 0) results in Some (mkProcessed record final md)
  end.
Definition process_record_with_pipelines (execution_id : string) record (topic : string) (t : EtlProcessor) : Result ProcessedRecord * EtlProcessor :=
  let unchanged := mkProcessed record record (mkProcessing [] 0 0) in
  match et_orchestrator t with
  | None => (Ok unchanged, t)
  | Some o =>
      let '(r, o) := execute_pipelines execution_id record topic o in
      (let? results := r in Ok (default unchanged (combine_pipeline_results record results)),
       mkProcessor (et_modules t) (et_metrics t) (Some o))
  end.
Definition process_record_with_topic (execution_id : string) record (topic : string) (t : EtlProcessor) : Result ProcessedRecord * EtlProcessor :=
  match et_orchestrator t with
  | Some _ => process_record_with_pipelines execution_id record topic t
  | None => let '(r, t) := process_record_legacy record [] t in (Ok r, t)
  end.
Definition process_record (execution_id : string) record (module_ids : list string) (t : EtlProcessor) : Result ProcessedRecord * EtlProcessor :=
  match et_orchestrator t, module_ids with
  | Some _, [] => process_record_with_pipelines execution_id record "unknown" t
  | _, _ => let '(r, t) := process_record_legacy record module_ids t in (Ok r, t)
  end.
Definition set_loaded (modules : gmap string Z) (t : EtlProcessor) : EtlProcessor :=
  let x := et_metrics t in
  mkProcessor modules (mkEtlMetrics (et_total_executions x) (et_successful_executions x) (Z.of_nat (size modules))) (et_orchestrator t).
Definition processor_load_module (uuid : string) (t : EtlProcessor) : string * EtlProcessor := (uuid, set_loaded (<[uuid := 0]> (et_modules t)) t).
Definition unload_module (module_id : string) (t : EtlProcessor) : Result unit * EtlProcessor :=
  match et_modules t !! module_id with
  | Some _ => (Ok tt, set_loaded (delete module_id (et_modules t)) t)
  | None => (Err EtlModuleNotFound, t)
  end.
Definition on_orchestrator (f : EtlPipelineOrchestrator → Result unit * EtlPipelineOrchestrator) (absent : Result unit) (t : EtlProcessor)
  : Result unit * EtlProcessor :=
  match et_orchestrator t with
  | Some o => let '(r, o) := f o in (r, mkProcessor (et_modules t) (et_metrics t) (Some o))
  | None => (absent, t)
  end.
Definition processor_add_pipeline (config : EtlPipelineConfig) : EtlProcessor → Result unit * EtlProcessor :=
  on_orchestrator (add_pipeline config) (Err EtlProcessingFailed).
Definition processor_remove_pipeline (pipeline_id : string) : EtlProcessor → Result unit * EtlProcessor :=
  on_orchestrator (remove_pipeline pipeline_id) (Err EtlProcessingFailed).
Definition processor_prewarm_instances : EtlProcessor → Result unit * EtlProcessor := on_orchestrator prewarm_instances (Ok tt).
End execution.

(** ** What a pipeline computes *)

Section denotation.
Context {G R X : Type} `{!GlobLibrary G, !RegexLibrary R, !TextLibrary, !WasmRuntime X}.
Implicit Types (m : CompiledModule G R) (stage : CompiledStage G R) (record : Record_) (p : WasmInstancePool X).

(** Modules as functions of their input, [None] where they fail: contexts of a
    module behave alike, whatever they ran before, and creating one fails only
    for a module that always does. *)
Context (denote : string → bytes → option bytes) (behaves : string → X → Prop).
Definition outcome_of (r : Result bytes) : option bytes := match r with Ok o => Some o | Err _ => None end.
Definition plain {A} (r : Result A) : Prop := r ≠ Err Panic ∧ r ≠ Err Blocked.
Record runtime_ok : Prop := {
  ro_create id c x : contains_str "non-existent" id = false → wasm_create id c = Ok x → behaves id x;
  ro_absent id c e : wasm_create (X := X) id c = Err e → plain (wasm_create (X := X) id c) ∧ ∀ v, denote id v = None;
  ro_missing id v : contains_str "non-existent" id = true → denote id v = None;
  ro_behaves id x : behaves id x → contains_str "non-existent" id = false;
  ro_run id x v : behaves id x → behaves id (wasm_run x v).2 ∧ plain (default (Err EtlProcessingFailed) (wasm_run x v).1) ∧
    denote id v = outcome_of (default (Err EtlProcessingFailed) (wasm_run x v).1);
}.
Definition pool_ok p : Prop := ∀ id i, i ∈ avail id p → pi_module_id i = id ∧ behaves id (pi_wasm_context i).

(** *** The reference: no instances, no pool, no tasks *)

Fixpoint sequential_value (v : bytes) (modules : list (CompiledModule G R)) : bytes * list bool :=
  match modules with
  | [] => (v, [])
  | m :: modules =>
      match denote (cm_module_id m) v with
      | Some o => let '(v, l) := sequential_value o modules in (v, true :: l)
      | None => let '(v, l) := sequential_value v modules in (v, false :: l)
      end
  end.
Definition parallel_value (v : bytes) (modules : list (CompiledModule G R)) : bytes * list bool :=
  (default v (head (omap (λ m, denote (cm_module_id m) v) modules)),
   (λ m, bool_decide (is_Some (denote (cm_module_id m) v))) <$> modules).
Definition stage_value (now : Z) stage record (topic : string) : Result (bytes * list bool) :=
  match filter_applicable_modules now (cs_modules stage) record topic with
  | Err e => Err e
  | Ok modules =>
      Ok (if cs_parallel_execution stage && (1 <? Z.of_nat (length modules)) then parallel_value (r_value record) modules
          else sequential_value (r_value record) modules)
  end.
Context (rule_time elapsed : string → nat → Z).
Definition count_if (b : bool) (l : list bool) : nat := length (filter (λ x, x = b) l).
(** The value, the errors and the transformations *)
Fixpoint pipeline_value (config : EtlPipelineConfig) (i : nat) (stages : list (CompiledStage G R)) (topic : string) record : bytes * nat * nat :=
  match stages with
  | [] => (r_value record, 0%nat, 0%nat)
  | stage :: stages =>
      if ep_global_timeout_ms config <? elapsed (ep_pipeline_id config) i then (r_value record, 1%nat, 0%nat)
      else match stage_value (rule_time (ep_pipeline_id config) i) stage record topic with
           | Ok (v, l) =>
               let '(v', errors, n) := pipeline_value config (S i) stages topic (with_value v record) in
               (v', count_if false l + errors, count_if true l + n)%nat
           | Err _ =>
               match ep_error_handling config with
               | StopPipeline => (r_value record, 1%nat, 0%nat)
               | _ => let '(v', errors, n) := pipeline_value config (S i) stages topic record in (v', S errors, n)
               end
           end
  end.

(** *** Tasks *)

Context (env : nat → WasmInstancePool X → WasmInstancePool X) (clock : nat → Z).
Definition pc_ok m (v : bytes) (pc : TaskPc (X := X)) : Prop :=
  match pc with
  | TkStart | TkMissed => True
  | TkCreating _ => contains_str "non-existent" (cm_module_id m) = false
  | TkRunning i => pi_module_id i = cm_module_id m ∧ behaves (cm_module_id m) (pi_wasm_context i)
  | TkReturning i o => pi_module_id i = cm_module_id m ∧ behaves (cm_module_id m) (pi_wasm_context i) ∧
      plain (default (Err EtlProcessingFailed) o) ∧ denote (cm_module_id m) v = outcome_of (default (Err EtlProcessingFailed) o)
  | TkDone r => plain r ∧ denote (cm_module_id m) v = outcome_of r
  end.
Definition rank (pc : TaskPc (X := X)) : nat :=
  match pc with TkStart => 5 | TkMissed => 4 | TkCreating _ => 3 | TkRunning _ => 2 | TkReturning _ _ => 1 | TkDone _ => 0 end.

Lemma pool_ok_update p p' id available gone u j :
  pool_ok p → module_update p p' id available gone u → available ++ gone ≡ₚ j :: avail id p →
  pi_module_id j = id → behaves id (pi_wasm_context j) → pool_ok p'.
Proof.
  intros Hp [(mp & Ep & Ea & _) _ _ _] Hperm Hid Hj id' i. unfold avail. rewrite Ep. destruct (decide (id' = id)) as [->|].
  - rewrite lookup_insert_eq. simpl. rewrite Ea. intros Hi. assert (Hin : i ∈ available ++ gone) by (apply elem_of_app; by left).
    rewrite Hperm in Hin. apply elem_of_cons in Hin as [->|Hin]; [done|by apply Hp].
  - rewrite lookup_insert_ne by done. apply Hp.
Qed.
Lemma pool_ok_frame p p' : (∀ id, avail id p' = avail id p) → pool_ok p → pool_ok p'.
Proof. intros E Hp id i. rewrite E. apply Hp. Qed.
Lemma pool_ok_return now i p :
  pool_ok p → behaves (pi_module_id i) (pi_wasm_context i) → pool_ok (return_instance now i p).
Proof.
  intros Hp Hi. destruct (wp_pools p !! pi_module_id i) as [mp|] eqn:E; [|unfold return_instance; simpl; by rewrite E].
  destruct (return_update now i p mp E) as (av & gone & j & _ & Ex & Em & Hperm & Hu).
  by eapply (pool_ok_update _ _ _ _ _ _ _ Hp Hu Hperm Em); rewrite Ex.
Qed.
Lemma create_begin_avail id p : ∀ id', avail id' (create_begin id p).2 = avail id' p.
Proof.
  intros id'. unfold create_begin. destruct (contains_str _ _); [done|]. unfold get_next_instance_id, avail. simpl.
  destruct (decide (id' = id)) as [->|]; [rewrite lookup_insert_eq; by destruct (wp_pools p !! id)|by rewrite lookup_insert_ne].
Qed.
Lemma create_finish_avail now id c n x p : ∀ id', avail id' (create_finish now id c n x p).2 = avail id' p.
Proof.
  intros id'. unfold create_finish, avail. simpl.
  destruct (wp_pools p !! id) as [mp|] eqn:E; simpl; (destruct (decide (id' = id)) as [->|]; [rewrite lookup_insert_eq, E|rewrite lookup_insert_ne by done]; done).
Qed.

Context (Hrun : runtime_ok).
Lemma task_step_ok m v pc now p :
  pool_ok p → pc_ok m v pc →
  pool_ok (task_step m v pc now p).2 ∧ pc_ok m v (task_step m v pc now p).1 ∧ (rank (task_step m v pc now p).1 ≤ pred (rank pc))%nat.
Proof using Hrun.
  intros Hp Hpc. destruct pc as [| |id|i|i o|r]; simpl in *.
  - destruct (try_get_from_pool now (cm_module_id m) p) as [[i|] p'] eqn:E; simpl.
    + pose proof (try_get_update _ _ _ _ _ E) as (j & rest & Ea & _ & _ & Emod & _ & Hu).
      destruct (Hp (cm_module_id m) j) as [Hj1 Hj2]; [rewrite Ea; by constructor|].
      assert (Ex : pi_wasm_context i = pi_wasm_context j).
      { unfold try_get_from_pool in E. unfold avail in Ea. destruct (wp_pools p !! cm_module_id m); [|done]. simpl in Ea.
        rewrite Ea in E. by injection E as <- _. }
      split_and!; [|congruence|by rewrite Ex|lia].
      intros id' k. destruct Hu as [(mp & Ep & Eav & _) _ _ _]. unfold avail. rewrite Ep. destruct (decide (id' = cm_module_id m)) as [->|].
      * rewrite lookup_insert_eq. simpl. rewrite Eav. intros Hk. apply Hp. rewrite Ea. by constructor.
      * rewrite lookup_insert_ne by done. apply Hp.
    + split_and!; [|done|lia]. assert (p' = p) as ->; [|done].
      unfold try_get_from_pool in E. destruct (wp_pools p !! _) as [mp|]; [|congruence]. destruct (mp_available_instances mp); congruence.
  - pose proof (create_begin_avail (cm_module_id m) p) as Hav. unfold create_begin in *.
    destruct (contains_str _ _) eqn:Ec; simpl in *; (split; [by eapply pool_ok_frame|]); split; try (done || lia).
    split; [done|]. by apply (ro_missing Hrun).
  - destruct (wasm_create (cm_module_id m) (cm_instance_config m)) as [x|e] eqn:E; simpl.
    + pose proof (create_finish_avail now (cm_module_id m) (cm_instance_config m) id x p) as Hav.
      destruct (create_finish _ _ _ _ _ p) as [i p'] eqn:Ef. simpl in *. split; [by eapply pool_ok_frame|].
      unfold create_finish in Ef. destruct (wp_pools _ !! _); injection Ef as <- _; simpl; (split; [|lia]);
        (split; [done|]; by eapply (ro_create Hrun)).
    + destruct (ro_absent Hrun _ _ _ E) as [Hpl Hd]. rewrite E in Hpl. split; [done|]. split; [|lia]. split; [|apply Hd].
      destruct Hpl. by split; congruence.
  - destruct Hpc as [Hi1 Hi2]. destruct (ro_run Hrun _ _ v Hi2) as (H1 & H2 & H3).
    destruct (wasm_run (pi_wasm_context i) v) as [o x]. simpl in *.
    assert (Hne : o ≠ Some (Err Panic)) by (intros ->; by destruct H2).
    assert (Hstep : (match o with Some (Err Panic) => (TkDone (Err Panic), p) | _ => (TkReturning (with_context x i) o, p) end)
                    = (TkReturning (with_context x i) o, p)) by (destruct o as [[b|[]]|]; done).
    rewrite Hstep. simpl. split; [done|]. split; [|lia]. done.
  - destruct Hpc as (Hi1 & Hi2 & Hpl & Hd). split; [apply pool_ok_return; [done|]; by rewrite Hi1|]. split; [done|lia].
  - split; [done|]. split; [done|lia].
Qed.

Context (Henv : ∀ n p, pool_ok p → pool_ok (env n p)).
Lemma turn_ok m v pc (s : nat * WasmInstancePool X) :
  pool_ok s.2 → pc_ok m v pc →
  pool_ok (turn env clock (task_step m v pc) s).2.2 ∧ pc_ok m v (turn env clock (task_step m v pc) s).1 ∧
  (rank (turn env clock (task_step m v pc) s).1 ≤ pred (rank pc))%nat.
Proof using Hrun Henv.
  intros Hp Hpc. unfold turn. pose proof (task_step_ok m v pc (clock s.1) (env s.1 s.2) (Henv _ _ Hp) Hpc) as H'.
  by destruct (task_step _ _ _ _ _).
Qed.
Lemma with_value_id record : with_value (r_value record) record = record.
Proof. by destruct record. Qed.
Lemma single_module_ok m record s :
  pool_ok s.2 →
  ∃ s', pool_ok s'.2 ∧
    match denote (cm_module_id m) (r_value record) with
    | Some o => execute_single_module env clock m record s
                = (Ok (mkModuleInfo (cm_module_id m) true (Z.of_nat (length o)) true None), with_value o record, s')
    | None => ∃ e, e ≠ Panic ∧ e ≠ Blocked ∧ execute_single_module env clock m record s = (Err e, record, s')
    end.
Proof using Hrun Henv.
  intros Hp. unfold execute_single_module. set (step := λ ps : TaskPc * (nat * WasmInstancePool X), _).
  assert (Hiter : ∀ n, pool_ok (Nat.iter n step (TkStart, s)).2.2 ∧ pc_ok m (r_value record) (Nat.iter n step (TkStart, s)).1 ∧
                       (rank (Nat.iter n step (TkStart, s)).1 ≤ 5 - n)%nat).
  { induction n as [|n (H1 & H2 & H3)]; [done|]. simpl. destruct (Nat.iter n step (TkStart, s)) as [pc s1]. simpl in *.
    destruct (turn_ok m (r_value record) pc s1 H1 H2) as (H4 & H5 & H6). unfold step. cbn [fst snd].
    split; [done|]. split; [done|]. lia. }
  destruct (Hiter 5%nat) as (H1 & H2 & H3). destruct (Nat.iter 5 step (TkStart, s)) as [pc s']. simpl in H1, H2, H3.
  exists s'. split; [done|]. destruct pc; simpl in H3; try lia. destruct H2 as [[Hp1 Hp2] ->].
  destruct outcome as [o|e]; simpl; [done|]. exists e. split_and!; [by intros ->|by intros ->|done].
Qed.
Lemma sequential_ok modules record s :
  pool_ok s.2 →
  ∃ infos s', execute_modules_sequential env clock modules record s
              = (Ok infos, with_value (sequential_value (r_value record) modules).1 record, s') ∧ pool_ok s'.2 ∧
    xi_success <$> infos = (sequential_value (r_value record) modules).2 ∧
    xi_transformation_applied <$> infos = (sequential_value (r_value record) modules).2.
Proof using Hrun Henv.
  revert record s. induction modules as [|m modules IH]; intros record s Hp; simpl.
  - exists [], s. by rewrite with_value_id.
  - destruct (single_module_ok m record s Hp) as (s1 & Hp1 & Hm). destruct (denote (cm_module_id m) (r_value record)) as [o|].
    + rewrite Hm. destruct (IH (with_value o record) s1 Hp1) as (infos & s2 & E & Hp2 & H1 & H2). simpl in *.
      destruct (sequential_value o modules) as [v l]. rewrite E. simpl in *. eexists _, s2. split; [done|]. split; [done|]. by rewrite !fmap_cons, H1, H2.
    + destruct Hm as (e & He1 & He2 & ->). destruct (IH record s1 Hp1) as (infos & s2 & E & Hp2 & H1 & H2).
      destruct (sequential_value (r_value record) modules) as [v l]. rewrite E. simpl in *.
      exists (failed_info (cm_module_id m) :: infos), s2. split; [destruct e; done|]. split; [done|]. by rewrite !fmap_cons, H1, H2.
Qed.

Context (schedule : nat → nat → list nat) (fair : ∀ c n k, (k < n)%nat → (5 ≤ length (filter (λ j, j = k) (schedule c n)))%nat).
Lemma run_tasks_ok modules v turns tasks s :
  Forall2 (λ m pc, pc_ok m v pc) modules tasks → pool_ok s.2 →
  Forall2 (λ m pc, pc_ok m v pc) modules (run_tasks env clock modules v turns tasks s).1 ∧
  pool_ok (run_tasks env clock modules v turns tasks s).2.2 ∧
  ∀ k pc, tasks !! k = Some pc → ∃ pc', (run_tasks env clock modules v turns tasks s).1 !! k = Some pc' ∧
    (rank pc' ≤ rank pc - length (filter (λ j, j = k) turns))%nat.
Proof using Hrun Henv.
  revert tasks s. induction turns as [|k turns IH]; intros tasks s Ht Hp; simpl.
  - split; [done|]. split; [done|]. intros k pc Hk. exists pc. split; [done|lia].
  - destruct (modules !! k) as [m|] eqn:Em, (tasks !! k) as [pc|] eqn:Ek.
    2,3: exfalso; apply Forall2_length in Ht; (apply lookup_lt_Some in Em; apply lookup_ge_None in Ek) || (apply lookup_lt_Some in Ek; apply lookup_ge_None in Em); lia.
    + destruct (turn_ok m v pc s Hp) as (H1 & H2 & H3); [by eapply Forall2_lookup_lr in Ht|].
      destruct (turn env clock (task_step m v pc) s) as [pc1 s1]. simpl in *.
      destruct (IH (<[k := pc1]> tasks) s1) as (I1 & I2 & I3); [rewrite <- (list_insert_id modules k m Em); by apply Forall2_insert|done|]. split; [done|]. split; [done|].
      intros j pcj Hj. rewrite filter_cons. destruct (decide (k = j)) as [->|Hne].
      * destruct (I3 j pc1) as (pc' & Hpc' & Hr); [apply list_lookup_insert_eq; by eapply lookup_lt_Some|].
        exists pc'. split; [done|]. rewrite Ek in Hj. injection Hj as ->. simpl. lia.
      * apply I3. by rewrite list_lookup_insert_ne.
    + destruct (IH tasks s Ht Hp) as (I1 & I2 & I3). split; [done|]. split; [done|]. intros j pcj Hj. rewrite filter_cons.
      destruct (decide (k = j)) as [->|]; [congruence|by apply I3].
Qed.

Lemma joined_infos v modules tasks :
  Forall2 (λ m pc, pc_ok m v pc) modules tasks → (∀ pc, pc ∈ tasks → rank pc = 0%nat) →
  forallb is_done tasks = true ∧
  xi_success <$> zip_with (joined v) modules tasks = (parallel_value v modules).2 ∧
  xi_transformation_applied <$> zip_with (joined v) modules tasks = (parallel_value v modules).2 ∧
  first_output (zip_with (joined v) modules tasks) = head (omap (λ m, denote (cm_module_id m) v) modules).
Proof using Type.
  intros Ht. induction Ht as [|m pc modules tasks Hpc _ IH]; intros Hr; [done|].
  destruct IH as (H1 & H2 & H3 & H4); [intros pc' Hin; apply Hr; by constructor|].
  specialize (Hr pc ltac:(constructor)). destruct pc as [| | | | |r]; try done. destruct Hpc as [[Hp1 Hp2] Hd].
  unfold first_output, parallel_value in *. cbn [zip_with forallb is_done omap list_omap fmap list_fmap snd]. rewrite Hd.
  destruct r as [o|e]; cbn [joined outcome_of xi_success xi_transformation_applied xi_output andb].
  - split; [done|]. split; [rewrite bool_decide_eq_true_2 by eauto; f_equal; exact H2|].
    split; [rewrite bool_decide_eq_true_2 by eauto; f_equal; exact H3|done].
  - assert (He : joined v m (TkDone (X := X) (Err e)) = failed_info (cm_module_id m)) by (destruct e; done || by destruct Hp1).
    unfold joined in He. rewrite He. simpl. split; [done|]. split; [f_equal; exact H2|]. split; [f_equal; exact H3|exact H4].
Qed.
Lemma parallel_ok modules record s :
  pool_ok s.2 →
  ∃ infos s', execute_modules_parallel env clock schedule modules record s
              = (Ok infos, with_value (parallel_value (r_value record) modules).1 record, s') ∧ pool_ok s'.2 ∧
    xi_success <$> infos = (parallel_value (r_value record) modules).2 ∧
    xi_transformation_applied <$> infos = (parallel_value (r_value record) modules).2.
Proof using Hrun Henv fair.
  intros Hp. unfold execute_modules_parallel.
  destruct (run_tasks_ok modules (r_value record) (schedule s.1 (length modules)) ((λ _, TkStart) <$> modules) s) as (H1 & H2 & H3); [|done|].
  { apply Forall2_fmap_r, Forall_Forall2_diag, Forall_true. done. }
  destruct (run_tasks _ _ _ _ _ _ s) as [tasks s']. simpl in H1, H2, H3.
  assert (Hr : ∀ pc, pc ∈ tasks → rank pc = 0%nat).
  { intros pc (k & Hk)%list_elem_of_lookup. pose proof (Forall2_length _ _ _ H1) as Hl. pose proof (lookup_lt_Some _ _ _ Hk) as Hlt.
    destruct (lookup_lt_is_Some_2 modules k ltac:(lia)) as [m Hm].
    destruct (H3 k TkStart) as (pc' & Hpc' & Hrk); [rewrite list_lookup_fmap, Hm; done|].
    rewrite Hk in Hpc'. injection Hpc' as <-. specialize (fair s.1 (length modules) k ltac:(lia)). simpl in Hrk. lia. }
  destruct (joined_infos _ _ _ H1 Hr) as (-> & E1 & E2 & E3). simpl negb. cbn iota. rewrite E3.
  eexists _, s'. split; [|by split]. f_equal. f_equal. unfold parallel_value. simpl.
  destruct (head _); [done|]. simpl. by rewrite with_value_id.
Qed.

Lemma count_if_success (infos : list ModuleExecutionInfo) l f b : f <$> infos = l → length (filter (λ x, f x = b) infos) = count_if b l.
Proof using Type.
  intros <-. unfold count_if. induction infos as [|x infos IH]; [done|]. rewrite fmap_cons, !filter_cons. destruct (decide (f x = b)); simpl; by rewrite IH.
Qed.
Lemma rule_error_plain now (rules : list (CompiledConditionalRule R)) record : plain (evaluate_record now rules record).
Proof using Type.
  induction rules as [|rule rules IH]; simpl; [done|].
  assert (Hs : plain (evaluate_single_rule now rule record)).
  { unfold evaluate_single_rule, extract_payload_field.
    destruct (cl_condition_type rule); simpl; try (destruct (json_from_slice _); simpl; [|done]);
      destruct (cl_operator rule); simpl; try done; by destruct (cl_compiled_regex rule). }
  destruct (evaluate_single_rule now rule record) as [b|e]; simpl; [|destruct Hs; split; congruence].
  destruct (cl_negate rule), b; done.
Qed.
Lemma filter_error_plain now (modules : list (CompiledModule G R)) record topic : plain (filter_applicable_modules now modules record topic).
Proof using Type.
  induction modules as [|m modules IH]; simpl; [done|]. destruct (negb _); [done|].
  pose proof (rule_error_plain now (cm_conditional_rules m) record) as Hr. destruct (evaluate_record _ _ _) as [b|e]; simpl; [|destruct Hr; split; congruence].
  destruct (filter_applicable_modules now modules record topic) as [l|e]; simpl; [done|]. destruct IH; split; congruence.
Qed.
Lemma stage_ok now stage record topic s :
  pool_ok s.2 →
  ∃ s', pool_ok s'.2 ∧
    match stage_value now stage record topic with
    | Ok (v, l) => ∃ info, execute_stage env clock schedule now stage record topic s = (Ok info, with_value v record, s') ∧
        length (filter (λ x, xi_success x = false) (si_modules_executed info)) = count_if false l ∧
        length (filter (λ x, xi_transformation_applied x = true) (si_modules_executed info)) = count_if true l
    | Err e => e ≠ Panic ∧ e ≠ Blocked ∧ execute_stage env clock schedule now stage record topic s = (Err e, record, s')
    end.
Proof using Hrun Henv fair.
  intros Hp. unfold stage_value, execute_stage. pose proof (filter_error_plain now (cs_modules stage) record topic) as Hpl.
  destruct (filter_applicable_modules now (cs_modules stage) record topic) as [[|m modules]|e].
  - exists s. split; [done|]. rewrite andb_false_r. simpl. eexists. rewrite with_value_id. done.
  - set (ms := m :: modules). destruct (cs_parallel_execution stage && (1 <? Z.of_nat (length ms))).
    + destruct (parallel_ok ms record s Hp) as (infos & s' & -> & Hp' & H1 & H2). exists s'. split; [done|].
      destruct (parallel_value (r_value record) ms) as [v l]. eexists. split; [done|]. simpl in *. split; by apply count_if_success.
    + destruct (sequential_ok ms record s Hp) as (infos & s' & -> & Hp' & H1 & H2). exists s'. split; [done|].
      destruct (sequential_value (r_value record) ms) as [v l]. eexists. split; [done|]. simpl in *. split; by apply count_if_success.
  - exists s. split; [done|]. destruct Hpl. split_and!; [by intros ->|by intros ->|done].
Qed.

Lemma stages_ok config i stages topic md record s :
  pool_ok s.2 →
  ∃ md' s', execute_stages env clock rule_time elapsed schedule config i stages topic md record s
            = (Ok md', with_value (pipeline_value config i stages topic record).1.1 record, s') ∧ pool_ok s'.2 ∧
    md_errors_encountered md' = (md_errors_encountered md + (pipeline_value config i stages topic record).1.2)%nat ∧
    md_transformations_applied md' = (md_transformations_applied md + (pipeline_value config i stages topic record).2)%nat.
Proof using Hrun Henv fair.
  revert i md record s. induction stages as [|stage stages IH]; intros i md record s Hp; simpl.
  - exists md, s. rewrite with_value_id. split_and!; done || lia.
  - destruct (_ <? _). { exists (count_error md), s. simpl. rewrite with_value_id. split_and!; done || lia. }
    destruct (stage_ok (rule_time (ep_pipeline_id config) i) stage record topic s Hp) as (s1 & Hp1 & Hs).
    destruct (stage_value _ stage record topic) as [[v l]|e].
    + destruct Hs as (info & -> & Hl1 & Hl2).
      destruct (IH (S i) (count_stage info md) (with_value v record) s1 Hp1) as (md' & s' & -> & Hp' & H1 & H2). exists md', s'.
      destruct (pipeline_value config (S i) stages topic (with_value v record)) as [[v' er] n]. simpl in *.
      split_and!; [done|done|lia|lia].
    + destruct Hs as (He1 & He2 & ->).
      assert (Hgo : ∀ A (a b c : A), match e with Panic => a | Blocked => b | _ => c end = c) by (intros; destruct e; done). rewrite Hgo.
      destruct (IH (S i) (count_error md) record s1 Hp1) as (md' & s' & E & Hp' & H1 & H2).
      destruct (ep_error_handling config);
        [exists (count_error md), s1; simpl; rewrite with_value_id; split_and!; done || lia|..];
        rewrite E; exists md', s'; destruct (pipeline_value config (S i) stages topic record) as [[v' er] n]; simpl in *; split_and!; done || lia.
Qed.
(** Without a transformation the value stays. *)
Lemma sequential_unchanged v (modules : list (CompiledModule G R)) : count_if true (sequential_value v modules).2 = 0%nat → (sequential_value v modules).1 = v.
Proof using Type.
  induction modules as [|m modules IH]; simpl; [done|]. destruct (denote _ v) as [o|].
  - destruct (sequential_value o modules) as [v' l]. simpl. unfold count_if. rewrite filter_cons, decide_True by done. done.
  - destruct (sequential_value v modules) as [v' l]. simpl in *. unfold count_if in *. rewrite filter_cons, decide_False by done. done.
Qed.
Lemma parallel_unchanged v (modules : list (CompiledModule G R)) : count_if true (parallel_value v modules).2 = 0%nat → (parallel_value v modules).1 = v.
Proof using Type.
  unfold parallel_value, count_if. simpl. induction modules as [|m modules IH]; simpl; [done|].
  destruct (denote _ v) as [o|]; simpl; [done|exact IH].
Qed.
Lemma pipeline_unchanged config i stages topic record :
  (pipeline_value config i stages topic record).2 = 0%nat → (pipeline_value config i stages topic record).1.1 = r_value record.
Proof using Type.
  revert i record. induction stages as [|stage stages IH]; intros i record; simpl; [done|]. destruct (_ <? _); [done|].
  unfold stage_value. destruct (filter_applicable_modules _ _ _ _) as [modules|e].
  - set (vl := if cs_parallel_execution stage && _ then parallel_value (r_value record) modules else _).
    assert (Hvl : count_if true vl.2 = 0%nat → vl.1 = r_value record).
    { unfold vl. destruct (_ && _); [apply parallel_unchanged|apply sequential_unchanged]. }
    destruct vl as [v l]. specialize (IH (S i) (with_value v record)).
    destruct (pipeline_value config (S i) stages topic (with_value v record)) as [[v' er] n]. simpl in *. intros Hn.
    rewrite IH by lia. apply Hvl. lia.
  - specialize (IH (S i) record). destruct (ep_error_handling config); [done|..];
      destruct (pipeline_value config (S i) stages topic record) as [[v' er] n]; exact IH.
Qed.

Context (pop_order : list (CompiledStage G R) → list (CompiledStage G R)).
Context (pipeline_order : list (string * PipelineInstance G R) → list (string * PipelineInstance G R)).
(** A pipeline's value, errors and transformations *)
Definition pipeline_result (topic : string) record (pipeline : PipelineInstance G R) : bytes * nat * nat :=
  pipeline_value (pl_config pipeline) 0 (pop_order (pl_stages pipeline)) topic record.
Definition result_is record (r : PipelineExecutionResult) (x : bytes * nat * nat) : Prop :=
  xr_success r = bool_decide (x.1.2 = 0%nat) ∧ xr_original_record r = record ∧ xr_transformed_record r = with_value x.1.1 record ∧
  md_errors_encountered (xr_execution_metadata r) = x.1.2 ∧ md_transformations_applied (xr_execution_metadata r) = x.2.
Lemma single_pipeline_ok pipeline execution_id record topic s :
  pool_ok s.2 →
  ∃ r s', execute_single_pipeline env clock rule_time elapsed schedule pop_order pipeline execution_id record topic s = (Ok r, s') ∧
    pool_ok s'.2 ∧ result_is record r (pipeline_result topic record pipeline).
Proof using Hrun Henv fair.
  intros Hp. unfold execute_single_pipeline, pipeline_result.
  destruct (stages_ok (pl_config pipeline) 0 (pop_order (pl_stages pipeline)) topic
    (mkMetadata (ep_pipeline_id (pl_config pipeline)) execution_id [] 0 0 0) record s Hp) as (md & s' & -> & Hp' & H1 & H2).
  eexists _, s'. split; [done|]. split; [done|]. simpl in *. unfold result_is. simpl. by rewrite H1, H2.
Qed.
Definition applying (topic : string) (pipelines : list (string * PipelineInstance G R)) : list (PipelineInstance G R) :=
  filter (λ pl, pipeline_applies_to_topic pl topic = true) pipelines.*2.
Lemma execute_each_ok pipelines execution_id record topic s st :
  pool_ok s.2 →
  ∃ rs s' st', execute_each env clock rule_time elapsed schedule pop_order pipelines execution_id record topic s st = (Ok rs, s', st') ∧
    pool_ok s'.2 ∧ Forall2 (result_is record) rs (pipeline_result topic record <$> applying topic pipelines).
Proof using Hrun Henv fair.
  revert s st. induction pipelines as [|[id pl] pipelines IH]; intros s st Hp; simpl; [by eexists [], s, st|].
  unfold applying. rewrite fmap_cons, filter_cons. simpl. destruct (pipeline_applies_to_topic pl topic); simpl; [|by apply IH].
  destruct (single_pipeline_ok pl execution_id record topic s Hp) as (r & s1 & -> & Hp1 & Hr).
  destruct (IH s1 (count_success (xr_success r) st) Hp1) as (rs & s2 & st2 & -> & Hp2 & Hrs).
  eexists _, s2, st2. split; [done|]. split; [done|]. by constructor.
Qed.

(** The pipeline that wins: the first without errors that transformed the record *)
Definition winner (xs : list (bytes * nat * nat)) : option bytes :=
  (λ ix, ix.2.1.1) <$> list_find (λ x, x.1.2 = 0%nat ∧ x.2 ≠ 0%nat) xs.
Lemma combine_ok record rs xs w md :
  Forall2 (result_is record) rs xs → Forall (λ x, x.2 = 0%nat → x.1.1 = r_value record) xs →
  (pm_transformations_count md = 0%nat → w = r_value record) →
  let '(final, md') := foldl combine_step (with_value w record, md) rs in
  final = with_value (if bool_decide (pm_transformations_count md = 0%nat) then default w (winner xs) else w) record ∧
  pm_error_count md' = pm_error_count md.
Proof using Type.
  intros Hrs Hxs. clear - Hrs Hxs. revert w md. induction Hrs as [|r [[v er] n] rs xs Hr _ IH]; intros w md Hw; simpl.
  { split; [by case_bool_decide|done]. }
  apply Forall_cons in Hxs as [Hx Hxs]. specialize (IH Hxs). destruct Hr as (E1 & E2 & E3 & E4 & E5). simpl in *.
  unfold winner. simpl. rewrite E1. case_bool_decide as Her.
  - rewrite E3, E4, E5. set (md1 := mkProcessing _ _ _). specialize (IH (if bool_decide (pm_transformations_count md = 0%nat) then v else w) md1).
    assert (Hf : (if bool_decide (pm_transformations_count md = 0%nat) then with_value v record else with_value w record)
                 = with_value (if bool_decide (pm_transformations_count md = 0%nat) then v else w) record) by (by case_bool_decide). rewrite Hf.
    destruct (foldl combine_step _ rs) as [final md']. destruct IH as [-> ->].
    { simpl. intros Hn. rewrite bool_decide_eq_true_2 by lia. apply Hx. lia. }
    split; [|simpl; lia]. f_equal. simpl. destruct (decide (pm_transformations_count md = 0%nat)) as [Hz|Hz].
    + rewrite (bool_decide_eq_true_2 _ Hz). rewrite Hz. simpl. destruct (decide (n = 0%nat)) as [->|Hn].
      * rewrite bool_decide_eq_true_2 by done. rewrite decide_False by naive_solver. rewrite Hx, Hw by done.
        unfold winner. by destruct (list_find _ xs) as [[]|].
      * rewrite bool_decide_eq_false_2 by done. by rewrite decide_True.
    + rewrite !bool_decide_eq_false_2 by lia. done.
  - specialize (IH w md Hw). destruct (foldl combine_step _ rs) as [final md']. destruct IH as [-> ->]. split; [|done].
    rewrite decide_False by naive_solver. unfold winner. by destruct (list_find _ xs) as [[]|].
Qed.

(** Whatever instances the pool holds, whoever else uses it between any two
    turns, however parallel tasks interleave and in whichever order the heap
    and the map give out stages and pipelines: processing a record ends, and
    gives the record with the value that the modules compute as functions, of
    the first pipeline without errors that transforms it, or unchanged; key,
    headers and time stay.  Stages compute in the order of the heap, a parallel
    one takes its first successful module, a failed module leaves the value. *)
Theorem process_record_denotes execution_id record topic t o :
  et_orchestrator t = Some o → pool_ok (oc_shared o).2 →
  ∃ r t' o', process_record_with_topic env clock rule_time elapsed schedule pop_order pipeline_order execution_id record topic t = (Ok r, t') ∧
    et_orchestrator t' = Some o' ∧ pool_ok (oc_shared o').2 ∧ oc_pipelines o' = oc_pipelines o ∧
    pd_original r = record ∧ pm_error_count (pd_processing_metadata r) = 0%nat ∧
    pd_transformed r = with_value (default (r_value record)
      (winner (pipeline_result topic record <$> applying topic (pipeline_order (map_to_list (oc_pipelines o)))))) record.
Proof using Hrun Henv fair.
  intros Eo Hp. unfold process_record_with_topic, process_record_with_pipelines, execute_pipelines. rewrite Eo.
  destruct (execute_each_ok (pipeline_order (map_to_list (oc_pipelines o))) execution_id record topic (oc_shared o) (oc_stats o) Hp)
    as (rs & s' & st' & -> & Hp' & Hrs).
  set (xs := pipeline_result topic record <$> _) in *.
  assert (Hxs : Forall (λ x : bytes * nat * nat, x.2 = 0%nat → x.1.1 = r_value record) xs)
    by (apply Forall_fmap, Forall_true; intros pl Hn; by apply pipeline_unchanged).
  pose proof (combine_ok record rs xs (r_value record) (mkProcessing [] 0 0) Hrs Hxs ltac:(done)) as Hc. rewrite with_value_id in Hc.
  eexists _, _, _. split; [done|]. split; [done|]. split; [done|]. split; [done|]. unfold combine_pipeline_results.
  destruct rs as [|r rs].
  - inversion Hrs as [Hn|]; subst. simpl. by rewrite with_value_id.
  - destruct (foldl combine_step (record, _) (r :: rs)) as [final md]. destruct Hc as [-> Hc]. simpl in *. done.
Qed.
End denotation.

(** ** Concrete pipelines *)

Module PipelineDemo.
Import FilterDemo.
(** The runtime of builds without WebAssembly *)
Definition mock_denote (id : string) (v : bytes) : option bytes :=
  if contains_str "non-existent" id then None else Some (str_bytes "processed:transform" ++ v).
Definition mock_behaves (id : string) (x : MockContext) : Prop := mk_is_initialized x = true ∧ contains_str "non-existent" id = false.
Lemma mock_runtime_ok : runtime_ok (X := MockContext) mock_denote mock_behaves.
Proof.
  split; unfold mock_denote, mock_behaves.
  - intros id c x Hid [= <-]. done.
  - discriminate.
  - by intros id v ->.
  - by intros id x [].
  - intros id x v [Hx Hid]. simpl. unfold mock_execute. rewrite Hx, Hid. simpl. done.
Qed.
(** Tasks take turns, five rounds. *)
Definition rounds (_ n : nat) : list nat := concat (replicate 5 (seq 0 n)).
Lemma rounds_fair c n k : (k < n)%nat → (5 ≤ length (filter (λ j, j = k) (rounds c n)))%nat.
Proof.
  intros Hk. assert (H : (1 ≤ length (filter (λ j, j = k) (seq 0 n)))%nat).
  { destruct (filter (λ j, j = k) (seq 0 n)) eqn:E; [|simpl; lia].
    assert (Hin : k ∈ filter (λ j, j = k) (seq 0 n)) by (apply list_elem_of_filter; split; [done|apply elem_of_seq; lia]).
    rewrite E in Hin. by apply not_elem_of_nil in Hin. }
  unfold rounds. simpl. rewrite !filter_app, !length_app. lia.
Qed.

Definition instance_config : ModuleInstanceConfig := mkModuleConfig 100 1000 10 false 0.
Definition module (id : string) (rules : list ConditionalRule) : EtlModuleInstance :=
  mkEtlModule id instance_config [mkTopicFilter FtPrefix "orders" true false] rules.
Definition big_orders : list ConditionalRule := [mkConditionalRule PayloadField "$.lines.0" GreaterThan (JNumber (PosInt 5)) false].
(** The second stage has the lower priority, so it runs first. *)
Definition pipeline (id : string) (first : list EtlModuleInstance) (h : ErrorHandlingStrategy) : EtlPipelineConfig :=
  mkEtlPipeline id true [mkEtlStage 2 [module "b" []] false None false; mkEtlStage 1 first true None false] 1000 3 h.
Definition pool_config : EtlInstancePoolConfig := mkPoolConfig 2 0 300 true.
Definition fallback : EtlProcessor (G := string) (R := bool * string) (X := MockContext) := mkProcessor ∅ (mkEtlMetrics 0 0 0) None.
Definition start (pipelines : list EtlPipelineConfig) : EtlProcessor (G := string) (R := bool * string) (X := MockContext) :=
  match processor_new pipelines pool_config with Ok t => t | Err _ => fallback end.
Definition record (payload : bytes) : Record_ := mkRecord None payload [] 1000.
Definition process (pipelines : list EtlPipelineConfig) (payload : bytes) :=
  process_record_with_topic (λ _ p, p) Z.of_nat (λ _ _, 1000) (λ _ _, 0) rounds (merge_sort priority_le) id "x" (record payload) "orders.new" (start pipelines).

Definition both : list EtlPipelineConfig := [pipeline "p" [module "a" big_orders; module "c" big_orders] StopPipeline].
Lemma process_record_denotes_witness :
  match process both [0; 7] with
  | (Ok r, _) => pd_transformed r = with_value (str_bytes "processed:transform" ++ str_bytes "processed:transform" ++ [0; 7]) (record [0; 7])
  | _ => False
  end.
Proof.
  destruct (et_orchestrator (start both)) as [o|] eqn:Eo; [|vm_compute in Eo; discriminate].
  assert (Hp : pool_ok (X := MockContext) mock_behaves (oc_shared o).2).
  { vm_compute in Eo. injection Eo as <-. intros id i Hi. vm_compute in Hi. by apply not_elem_of_nil in Hi. }
  destruct (process_record_denotes mock_denote mock_behaves (λ _ _, 1000) (λ _ _, 0) (λ _ p, p) Z.of_nat mock_runtime_ok (λ _ _ H, H)
    rounds rounds_fair (merge_sort priority_le) id "x" (record [0; 7]) "orders.new" (start both) o Eo Hp) as (r & t' & o' & E & _ & _ & _ & _ & _ & Ew).
  unfold process. rewrite E. rewrite Ew. vm_compute in Eo. injection Eo as <-. vm_compute. reflexivity.
Defined.
(** A record that the rules refuse passes the second stage only. *)
Example small_order :
  match process both [0; 3] with (Ok r, _) => drop 19 (r_value (pd_transformed r)) | _ => [] end = [0; 3].
Proof. vm_compute. reflexivity. Qed.

(** A payload that is not JSON fails the rule, the rule fails the stage, and the
    modules of the stage that have no rules do not run either; *)
Definition mixed (h : ErrorHandlingStrategy) : list EtlPipelineConfig := [pipeline "p" [module "a" []; module "c" big_orders] h].
Example bad_payload_fails_stage :
  match process (mixed StopPipeline) [1; 2; 3] with (Ok r, _) => Some (r_value (pd_transformed r), pd_processing_metadata r) | _ => None end
  = Some ([1; 2; 3], mkProcessing [] 0 0).
Proof. vm_compute. reflexivity. Qed.
(** with modules to skip, the next stages run, the pipeline counts as failed
    and the record that they made is dropped: no error is reported. *)
Example skipping_drops_the_result :
  match process (mixed SkipModule) [1; 2; 3] with (Ok r, _) => Some (r_value (pd_transformed r), pm_error_count (pd_processing_metadata r)) | _ => None end
  = Some ([1; 2; 3], 0%nat).
Proof. vm_compute. reflexivity. Qed.
End PipelineDemo.
