(* ===== verification/BranchlessParser.v ===== *)
(** * Batch parsing of record headers

    Model of [src/src/storage/wal/branchless_parser.rs].  A buffer holds records
    one after another, each starting with its own size as eight little-endian
    bytes; the parser returns where they are.  Which instructions the processor
    has and whether the crate was compiled for AVX2 are arguments.  The variant
    for builds with AVX-512 does not compile (it names an intrinsic that does not
    exist), so builds without it are modelled.  The vector loop may run for ever
    and takes fuel; the scalar loop gets one step per byte.  Creation times of
    the results are left out. *)

From S2P Require Import Prelude.
Local Open Scope Z_scope.

(** ** Data *)

Record WalSegmentMetadata := mkSegment {
  sg_start_offset : Z;
  sg_end_offset : Z;
  sg_file_offset : Z;
  sg_size_bytes : Z;
}.
Record CpuFeatures := mkCpu { cpu_avx2 : bool; cpu_avx512 : bool; cpu_bmi1 : bool; cpu_bmi2 : bool }.
Definition optimal_batch_size (c : CpuFeatures) : Z := if cpu_avx512 c then 64 else if cpu_avx2 c then 32 else 16.
Record ParserStats := mkStats {
  st_total_records_parsed : Z;
  st_simd_operations : Z;
  st_scalar_fallbacks : Z;
  st_total_bytes_processed : Z;
  st_average_parse_time_ns : Z;
}.
Record BranchlessRecordBatchParser := mkParser {
  bp_simd_enabled : bool;
  bp_batch_size : Z;
  bp_cpu_features : CpuFeatures;
  bp_stats : ParserStats;
}.
Definition no_stats : ParserStats := mkStats 0 0 0 0 0.
Definition parser_new (cpu : CpuFeatures) : BranchlessRecordBatchParser :=
  mkParser (cpu_avx2 cpu || cpu_avx512 cpu) (optimal_batch_size cpu) cpu no_stats.
Definition reset_stats (p : BranchlessRecordBatchParser) : BranchlessRecordBatchParser :=
  mkParser (bp_simd_enabled p) (bp_batch_size p) (bp_cpu_features p) no_stats.

(** ** Sizes *)

Definition MIN_SIZE : Z := 8.
Definition MAX_SIZE : Z := 67108864.
Definition read_record_size_branchless (buffer : bytes) : Z := from_le (take 8 buffer).
Definition validate_record_size_branchless (size : Z) : Z := Z.b2z (MIN_SIZE <=? size) * Z.b2z (size <=? MAX_SIZE).
Definition segment_at (file_offset_start : Z) (pos : nat) (logical_offset size : Z) : WalSegmentMetadata :=
  mkSegment logical_offset (u64_add logical_offset 1) (u64_add file_offset_start (Z.of_nat pos)) size.

(** ** The scalar loop *)

Fixpoint scalar_loop (fuel : nat) (buffer : bytes) (file_offset_start : Z) (buffer_pos : nat) (logical_offset : Z) : list WalSegmentMetadata :=
  match fuel with
  | O => []
  | S fuel =>
      if negb (bool_decide (buffer_pos + 8 ≤ length buffer)%nat) then []
      else
        let record_size := read_record_size_branchless (drop buffer_pos buffer) in
        let size_valid := validate_record_size_branchless record_size in
        let remaining_bytes := Z.of_nat (length buffer - buffer_pos) in
        let size_fits := Z.b2z (record_size <=? remaining_bytes) in
        let effective_size := record_size * size_valid * size_fits in
        if 0 <? effective_size then
          segment_at file_offset_start buffer_pos logical_offset effective_size
          :: scalar_loop fuel buffer file_offset_start (buffer_pos + Z.to_nat effective_size) (u64_add logical_offset 1)
        else []
  end.
Definition parse_batch_scalar_branchless (buffer : bytes) (file_offset_start logical_offset_start : Z) : list WalSegmentMetadata :=
  scalar_loop (S (length buffer)) buffer file_offset_start 0 logical_offset_start.

(** ** The vector loop *)

(** The lanes of a vector loaded from the buffer, compared as signed integers *)
Definition load_lanes (buffer : bytes) (pos : nat) : list Z :=
  (λ i, from_le (take 8 (drop (pos + 8 * i) buffer))) <$> seq 0 4.
Definition lane_valid (size : Z) : bool := (MIN_SIZE <? as_i64 size) && (as_i64 size <? MAX_SIZE).
(** Position, next offset and the segments so far, the last one first *)
Record VectorState := mkVector { vs_pos : nat; vs_logical : Z; vs_segments : list WalSegmentMetadata }.
Fixpoint lane_loop (buffer : bytes) (file_offset_start : Z) (lanes : list Z) (v : VectorState) : VectorState :=
  match lanes with
  | [] => v
  | record_size :: lanes =>
      if bool_decide (length buffer ≤ vs_pos v)%nat then v
      else if negb (lane_valid record_size) then lane_loop buffer file_offset_start lanes v
      else
        let remaining_bytes := Z.of_nat (length buffer - vs_pos v) in
        let size_fits := Z.b2z (record_size <=? remaining_bytes) in
        let effective_size := record_size * size_fits in
        if 0 <? effective_size then
          lane_loop buffer file_offset_start lanes
            (mkVector (vs_pos v + Z.to_nat effective_size) (u64_add (vs_logical v) 1)
               (segment_at file_offset_start (vs_pos v) (vs_logical v) effective_size :: vs_segments v))
        else v
  end.
Fixpoint vector_loop (fuel : nat) (max_records : Z) (buffer : bytes) (file_offset_start : Z) (v : VectorState) : option (list WalSegmentMetadata) :=
  match fuel with
  | O => None
  | S fuel =>
      if bool_decide (vs_pos v + 32 ≤ length buffer)%nat && (Z.of_nat (length (vs_segments v)) <? max_records)
      then vector_loop fuel max_records buffer file_offset_start (lane_loop buffer file_offset_start (load_lanes buffer (vs_pos v)) v)
      else Some (rev (vs_segments v))
  end.
Definition parse_batch_avx2_impl (fuel : nat) (p : BranchlessRecordBatchParser) (buffer : bytes) (file_offset_start logical_offset_start : Z)
  : option (list WalSegmentMetadata) :=
  vector_loop fuel (Z.min (bp_batch_size p) (Z.of_nat (length buffer) / 8)) buffer file_offset_start (mkVector 0 logical_offset_start []).

(** ** Choice of the loop *)

Section parse.
Context (target_avx2 : bool).
Definition parse_batch_sse (buffer : bytes) (file_offset_start logical_offset_start : Z) : option (list WalSegmentMetadata) :=
  Some (parse_batch_scalar_branchless buffer file_offset_start logical_offset_start).
Definition parse_batch_avx2 (fuel : nat) (p : BranchlessRecordBatchParser) (buffer : bytes) (file_offset_start logical_offset_start : Z)
  : option (list WalSegmentMetadata) :=
  if target_avx2 then parse_batch_avx2_impl fuel p buffer file_offset_start logical_offset_start
  else parse_batch_sse buffer file_offset_start logical_offset_start.
Definition parse_batch_simd (fuel : nat) (p : BranchlessRecordBatchParser) (buffer : bytes) (file_offset_start logical_offset_start : Z)
  : option (list WalSegmentMetadata) :=
  if cpu_avx512 (bp_cpu_features p) then parse_batch_avx2 fuel p buffer file_offset_start logical_offset_start
  else if cpu_avx2 (bp_cpu_features p) then parse_batch_avx2 fuel p buffer file_offset_start logical_offset_start
  else parse_batch_sse buffer file_offset_start logical_offset_start.
Definition count_parse (parse_time : Z) (buffer : bytes) (headers : list WalSegmentMetadata) (p : BranchlessRecordBatchParser) : BranchlessRecordBatchParser :=
  let s := bp_stats p in
  mkParser (bp_simd_enabled p) (bp_batch_size p) (bp_cpu_features p)
    (mkStats (u64_add (st_total_records_parsed s) (Z.of_nat (length headers)))
       (if bp_simd_enabled p then u64_add (st_simd_operations s) 1 else st_simd_operations s)
       (if bp_simd_enabled p then st_scalar_fallbacks s else u64_add (st_scalar_fallbacks s) 1)
       (u64_add (st_total_bytes_processed s) (Z.of_nat (length buffer)))
       (u64_add (st_average_parse_time_ns s) parse_time / 2)).
(** [None] when the vector loop has not ended within the fuel *)
Definition parse_record_headers_batch (fuel : nat) (parse_time : Z) (buffer : bytes) (file_offset_start logical_offset_start : Z)
    (p : BranchlessRecordBatchParser) : option (list WalSegmentMetadata * BranchlessRecordBatchParser) :=
  if Z.of_nat (length buffer) <? 8 then Some ([], p)
  else
    headers ← (if bp_simd_enabled p && (bp_batch_size p * 8 <=? Z.of_nat (length buffer))
               then parse_batch_simd fuel p buffer file_offset_start logical_offset_start
               else Some (parse_batch_scalar_branchless buffer file_offset_start logical_offset_start));
    Some (headers, count_parse parse_time buffer headers p).
End parse.

(** ** Validation helpers *)

Definition check_bounds_branchless (pos size buffer_len : Z) : bool := size <=? saturating_sub buffer_len pos.
Definition validate_sizes_batch (sizes : list Z) : list bool := (λ size, negb (validate_record_size_branchless size =? 0)) <$> sizes.
Definition validate_checksum_branchless (crc32 : bytes → Z) (data : bytes) (expected : Z) : bool :=
  let diff := Z.lxor (crc32 data) expected in
  Z.shiftr ((diff - 1) mod u32_modulus) 31 =? 1.

(** ** What a buffer holds *)

(** A record is a buffer whose first eight bytes are its length. *)
Definition is_record (r : bytes) : Prop :=
  (8 ≤ length r)%nat ∧ Z.of_nat (length r) ≤ MAX_SIZE ∧ from_le (take 8 r) = Z.of_nat (length r).
(** The records at the front of a buffer, as many as there are, and where they start *)
Inductive Tiling : bytes → Z → Z → list WalSegmentMetadata → Prop :=
  | tiling_end buf fo lo : (¬ ∃ r rest, buf = r ++ rest ∧ is_record r) → Tiling buf fo lo []
  | tiling_record r rest fo lo segs :
      is_record r → Tiling rest (u64_add fo (Z.of_nat (length r))) (u64_add lo 1) segs →
      Tiling (r ++ rest) fo lo (mkSegment lo (u64_add lo 1) fo (Z.of_nat (length r)) :: segs).

Lemma is_record_size r rest : is_record r → from_le (take 8 (r ++ rest)) = Z.of_nat (length r).
Proof. intros (H1 & _ & H2). by rewrite take_app_le. Qed.
(** A buffer starts with at most one record. *)
Lemma record_unique r1 r2 rest1 rest2 : r1 ++ rest1 = r2 ++ rest2 → is_record r1 → is_record r2 → r1 = r2 ∧ rest1 = rest2.
Proof.
  intros E H1 H2. pose proof (is_record_size r1 rest1 H1) as E1. pose proof (is_record_size r2 rest2 H2) as E2.
  rewrite E, E2 in E1. apply app_inj_1 in E; [done|]. lia.
Qed.
Lemma tiling_unique buf fo lo s1 s2 : Tiling buf fo lo s1 → Tiling buf fo lo s2 → s1 = s2.
Proof.
  intros H. revert s2. induction H as [buf fo lo Hno|r rest fo lo segs Hr _ IH]; intros s2 H2.
  - inversion H2 as [|r rest ? ? segs Hr]; subst; [done|]. destruct Hno. by exists r, rest.
  - inversion H2 as [? ? ? Hno|r2 rest2 ? ? segs2 Hr2 Ht E]; subst; [destruct Hno; by exists r, rest|].
    destruct (record_unique _ _ _ _ E Hr2 Hr) as [-> ->]. by rewrite (IH segs2).
Qed.

Lemma validate_size_cases size : validate_record_size_branchless size = if (MIN_SIZE <=? size) && (size <=? MAX_SIZE) then 1 else 0.
Proof. unfold validate_record_size_branchless. by destruct (MIN_SIZE <=? size), (size <=? MAX_SIZE). Qed.
(** The product of the size and its checks is positive exactly at a record. *)
Lemma effective_size_record buf :
  (8 ≤ length buf)%nat →
  let size := read_record_size_branchless buf in
  let e := size * validate_record_size_branchless size * Z.b2z (size <=? Z.of_nat (length buf)) in
  if 0 <? e then e = size ∧ is_record (take (Z.to_nat size) buf) ∧ (Z.to_nat size ≤ length buf)%nat ∧ 8 ≤ size
  else ¬ ∃ r rest, buf = r ++ rest ∧ is_record r.
Proof.
  intros H8. unfold read_record_size_branchless. cbn zeta. set (size := from_le (take 8 buf)). rewrite validate_size_cases.
  assert (Hno : (MIN_SIZE <=? size) && (size <=? MAX_SIZE) && (size <=? Z.of_nat (length buf)) = false → ¬ ∃ r rest, buf = r ++ rest ∧ is_record r).
  { intros Hb (r & rest & E & Hr). pose proof (is_record_size r rest Hr) as Hs. rewrite <- E in Hs. fold size in Hs.
    destruct Hr as (H1 & H2 & _). rewrite Hs, E, length_app in Hb. unfold MIN_SIZE, MAX_SIZE in *.
    rewrite !andb_false_iff, !Z.leb_gt in Hb. lia. }
  destruct (MIN_SIZE <=? size) eqn:E1; simpl in *; [|rewrite Z.mul_0_r; simpl; by apply Hno].
  destruct (size <=? MAX_SIZE) eqn:E2; simpl in *; [|rewrite Z.mul_0_r; simpl; by apply Hno].
  destruct (size <=? Z.of_nat (length buf)) eqn:E3; simpl in *; [|rewrite Z.mul_0_r; simpl; by apply Hno].
  rewrite !Z.mul_1_r. unfold MIN_SIZE, MAX_SIZE in *. apply Z.leb_le in E1, E2, E3.
  destruct (Z.ltb_spec 0 size); [|lia]. split; [done|]. split; [|lia]. unfold is_record, MAX_SIZE.
  rewrite length_take, take_take. rewrite !Nat.min_l by lia. fold size. lia.
Qed.

Lemma scalar_loop_tiling fuel buffer file_offset_start pos logical :
  (pos ≤ length buffer)%nat → (length buffer - pos < fuel)%nat →
  Tiling (drop pos buffer) (u64_add file_offset_start (Z.of_nat pos)) logical (scalar_loop fuel buffer file_offset_start pos logical).
Proof.
  revert pos logical. induction fuel as [|fuel IH]; intros pos logical Hpos Hfuel; [lia|]. cbn [scalar_loop].
  case_bool_decide as H8; cbn [negb].
  2: { constructor. intros (r & rest & E & Hr & _). apply (f_equal length) in E. rewrite length_drop, length_app in E. lia. }
  pose proof (effective_size_record (drop pos buffer)) as He. rewrite length_drop in He. specialize (He ltac:(lia)). cbn zeta in *.
  destruct (0 <? _); [|by constructor]. destruct He as (-> & Hr & Hle & Hge). set (size := read_record_size_branchless (drop pos buffer)) in *.
  assert (Hlen : Z.of_nat (length (take (Z.to_nat size) (drop pos buffer))) = size) by (rewrite length_take, length_drop; lia).
  pose proof (tiling_record _ (drop (Z.to_nat size) (drop pos buffer)) (u64_add file_offset_start (Z.of_nat pos)) logical
    (scalar_loop fuel buffer file_offset_start (pos + Z.to_nat size) (u64_add logical 1)) Hr) as Ht.
  rewrite Hlen, take_drop, drop_drop in Ht. apply Ht. specialize (IH (pos + Z.to_nat size)%nat (u64_add logical 1) ltac:(lia) ltac:(lia)).
  replace (u64_add (u64_add file_offset_start (Z.of_nat pos)) size) with (u64_add file_offset_start (Z.of_nat (pos + Z.to_nat size))); [done|].
  unfold u64_add. rewrite Zplus_mod_idemp_l. f_equal. lia.
Qed.

Lemma parse_tiling fuel parse_time buffer file_offset_start logical_offset_start p :
  is_u64 file_offset_start →
  ∃ segs p', parse_record_headers_batch false fuel parse_time buffer file_offset_start logical_offset_start p = Some (segs, p') ∧
    Tiling buffer file_offset_start logical_offset_start segs.
Proof.
  intros Hfo. unfold parse_record_headers_batch. destruct (Z.ltb_spec (Z.of_nat (length buffer)) 8) as [Hs|Hs].
  { eexists _, _. split; [done|]. constructor. intros (r & rest & -> & Hr & _). rewrite length_app in Hs. lia. }
  eexists (parse_batch_scalar_branchless buffer file_offset_start logical_offset_start), _. split.
  { unfold parse_batch_simd, parse_batch_avx2, parse_batch_sse. destruct (_ && _); [|done]. destruct (cpu_avx512 _); [done|]. by destruct (cpu_avx2 _). }
  pose proof (scalar_loop_tiling (S (length buffer)) buffer file_offset_start 0 logical_offset_start ltac:(lia) ltac:(lia)) as Ht.
  unfold u64_add in Ht at 1. rewrite Z.add_0_r, Z.mod_small in Ht by exact Hfo. by rewrite drop_0 in Ht.
Qed.
(** On every processor, in builds that are not compiled for AVX2, parsing a
    buffer returns and gives exactly the records at its front: one after
    another without gaps, each with the length it states, of at least eight
    bytes and at most 64 MiB, and none left out before the first place where
    no complete record starts; offsets count up from the ones given, as [u64]. *)
Theorem parse_gives_the_records fuel parse_time buffer file_offset_start logical_offset_start p :
  is_u64 file_offset_start →
  ∃ segs p', parse_record_headers_batch false fuel parse_time buffer file_offset_start logical_offset_start p = Some (segs, p') ∧
    ∀ segs', Tiling buffer file_offset_start logical_offset_start segs' ↔ segs' = segs.
Proof.
  intros Hfo. destruct (parse_tiling fuel parse_time buffer file_offset_start logical_offset_start p Hfo) as (segs & p' & E & Ht).
  exists segs, p'. split; [done|]. intros segs'. split; [intros Ht'; by eapply tiling_unique|by intros ->].
Qed.

(** *** Encoding *)

Definition encode_record (body : bytes) : bytes := le_bytes 8 (8 + Z.of_nat (length body)) ++ body.
Fixpoint segments_of (file_offset logical_offset : Z) (bodies : list bytes) : list WalSegmentMetadata :=
  match bodies with
  | [] => []
  | body :: bodies =>
      mkSegment logical_offset (u64_add logical_offset 1) file_offset (8 + Z.of_nat (length body))
      :: segments_of (u64_add file_offset (8 + Z.of_nat (length body))) (u64_add logical_offset 1) bodies
  end.
Lemma encode_is_record body : 8 + Z.of_nat (length body) ≤ MAX_SIZE → is_record (encode_record body).
Proof.
  intros Hl. unfold is_record, encode_record, MAX_SIZE in *. rewrite length_app, length_le_bytes, take_le_bytes.
  rewrite from_le_roundtrip by lia. lia.
Qed.
(** Records written one after another, followed by anything shorter than a
    size field (a torn write), are parsed back, each at its place. *)
Theorem parse_roundtrip fuel parse_time bodies torn file_offset_start logical_offset_start p :
  is_u64 file_offset_start → Forall (λ body, 8 + Z.of_nat (length body) ≤ MAX_SIZE) bodies → (length torn < 8)%nat →
  ∃ p', parse_record_headers_batch false fuel parse_time (concat (encode_record <$> bodies) ++ torn) file_offset_start logical_offset_start p
        = Some (segments_of file_offset_start logical_offset_start bodies, p').
Proof.
  intros Hfo Hb Htorn.
  destruct (parse_tiling fuel parse_time (concat (encode_record <$> bodies) ++ torn) file_offset_start logical_offset_start p Hfo)
    as (segs & p' & -> & Ht).
  exists p'. f_equal. f_equal. apply (tiling_unique _ _ _ _ _ Ht). clear segs p' Hfo Ht. revert file_offset_start logical_offset_start.
  induction Hb as [|body bodies Hbody _ IH]; intros fo lo; [|rewrite fmap_cons]; cbn [fmap list_fmap concat segments_of].
  - constructor. intros (r & rest & E & Hr & _). apply (f_equal length) in E. rewrite !length_app in E. simpl in E. lia.
  - rewrite <- app_assoc. assert (Hl : Z.of_nat (length (encode_record body)) = 8 + Z.of_nat (length body))
      by (unfold encode_record; rewrite length_app, length_le_bytes; lia).
    rewrite <- Hl. apply tiling_record; [by apply encode_is_record|]. apply IH.
Qed.

(** *** Checks *)

Lemma check_bounds_spec pos size buffer_len : 0 ≤ pos ≤ buffer_len → check_bounds_branchless pos size buffer_len = (pos + size <=? buffer_len).
Proof. unfold check_bounds_branchless, saturating_sub. intros. destruct (Z.ltb_spec buffer_len pos); [lia|]. apply eq_bool_prop_intro. rewrite !Is_true_true, !Z.leb_le. lia. Qed.
(** A right checksum is accepted, a wrong one that differs in more than its
    highest bit, and in that, too. *)
Lemma validate_checksum_spec crc32 data expected :
  0 ≤ crc32 data < u32_modulus → 0 ≤ expected < u32_modulus →
  validate_checksum_branchless crc32 data expected = true ↔ crc32 data = expected ∨ 2 ^ 31 < Z.lxor (crc32 data) expected.
Proof.
  intros Hc He. unfold validate_checksum_branchless. cbn zeta. set (diff := Z.lxor (crc32 data) expected).
  assert (Hd : 0 ≤ diff < u32_modulus).
  { split; [apply Z.lxor_nonneg; lia|]. unfold u32_modulus in *. destruct (Z.eq_dec diff 0) as [->|Hn]; [lia|].
    assert (0 ≤ diff) by (apply Z.lxor_nonneg; lia). apply Z.log2_lt_pow2; [lia|].
    eapply Z.le_lt_trans; [apply Z.log2_lxor; lia|]. apply Z.max_lub_lt.
    - destruct (Z.eq_dec (crc32 data) 0) as [->|]; [done|apply Z.log2_lt_pow2; lia].
    - destruct (Z.eq_dec expected 0) as [->|]; [done|apply Z.log2_lt_pow2; lia]. }
  rewrite Z.eqb_eq, Z.shiftr_div_pow2 by lia. unfold u32_modulus in *.
  assert (Hz : crc32 data = expected ↔ diff = 0) by (unfold diff; by rewrite Z.lxor_eq_0_iff). rewrite Hz.
  destruct (Z.eq_dec diff 0) as [->|Hn].
  - change ((0 - 1) mod 2 ^ 32 / 2 ^ 31 = 1 ↔ 0 = 0 ∨ 2 ^ 31 < 0). vm_compute ((0 - 1) mod 2 ^ 32 / 2 ^ 31). naive_solver.
  - rewrite Z.mod_small by lia. split; intros H; [right|].
    + pose proof (Z.div_mod (diff - 1) (2 ^ 31) ltac:(lia)). pose proof (Z.mod_pos_bound (diff - 1) (2 ^ 31) ltac:(lia)). lia.
    + destruct H; [done|]. symmetry. apply (Z.div_unique _ _ 1 (diff - 1 - 2 ^ 31)); lia.
Qed.

(** ** Concrete buffers *)

Module ParserDemo.
Definition plain_cpu : CpuFeatures := mkCpu false false false false.
Definition vector_cpu : CpuFeatures := mkCpu true false true true.
Definition bodies : list bytes := [[1; 2; 3]; []; [4]].
Lemma parse_roundtrip_witness :
  match parse_record_headers_batch false 0 10 (concat (encode_record <$> bodies) ++ [9; 0]) 100 7 (parser_new vector_cpu) with
  | Some (segs, _) => segs = [mkSegment 7 8 100 11; mkSegment 8 9 111 8; mkSegment 9 10 119 9]
  | None => False
  end.
Proof.
  destruct (parse_roundtrip 0 10 bodies [9; 0] 100 7 (parser_new vector_cpu)) as [p' ->]; [split; [lia|reflexivity]| |simpl; lia|vm_compute; reflexivity].
  repeat constructor; vm_compute; discriminate.
Defined.
(** Half a record is not returned. *)
Lemma parse_gives_the_records_witness :
  ∃ segs, Tiling (encode_record [1; 2; 3] ++ take 10 (encode_record [4; 5; 6])) 100 7 segs ∧ segs = [mkSegment 7 8 100 11].
Proof.
  destruct (parse_gives_the_records 0 10 (encode_record [1; 2; 3] ++ take 10 (encode_record [4; 5; 6])) 100 7 (parser_new plain_cpu)) as (segs & p' & E & Ht);
    [split; [lia|reflexivity]|].
  exists segs. split; [by apply Ht|]. vm_compute in E. by injection E as <- _.
Defined.

(** Compiled for AVX2, a buffer that starts with four records of the smallest
    size is never parsed: no lane is valid and the position stays. *)
Definition smallest : bytes := concat (encode_record <$> replicate 32 []).
Lemma vector_loop_stuck fuel :
  vector_loop fuel 32 smallest 0 (mkVector 0 0 []) = None.
Proof. induction fuel as [|fuel IH]; [done|]. exact IH. Qed.
Example vector_loop_diverges fuel : parse_record_headers_batch true fuel 10 smallest 0 0 (parser_new vector_cpu) = None.
Proof.
  assert (E : parse_record_headers_batch true fuel 10 smallest 0 0 (parser_new vector_cpu)
              = (headers ← vector_loop fuel 32 smallest 0 (mkVector 0 0 []); Some (headers, count_parse 10 smallest headers (parser_new vector_cpu)))) by reflexivity.
  by rewrite E, vector_loop_stuck.
Qed.
(** The lanes are taken for sizes of consecutive records although they are the
    body of the first: words of a body become records. *)
Definition wordy : bytes := concat (encode_record <$> replicate 7 (concat (replicate 4 (le_bytes 8 16)))).
Example vector_loop_misreads :
  sg_size_bytes <$> default [] (fst <$> parse_record_headers_batch true 100 10 wordy 0 0 (parser_new vector_cpu))
    = [40; 16; 16; 16; 16; 16; 16; 16; 16; 40; 16; 16; 40] ∧
  sg_size_bytes <$> default [] (fst <$> parse_record_headers_batch false 100 10 wordy 0 0 (parser_new vector_cpu)) = replicate 7 40.
Proof. vm_compute. split; reflexivity. Qed.
(** A checksum that is wrong in its highest bit and in another one is accepted. *)
Example wrong_checksum_accepted : validate_checksum_branchless (λ _, 0) [1; 2; 3] (2 ^ 31 + 1) = true.
Proof. reflexivity. Qed.
(** Nothing at a position past the end counts as within bounds. *)
Example bounds_past_the_end : check_bounds_branchless 10 0 5 = true.
Proof. reflexivity. Qed.
End ParserDemo.
