(* ===== verification/KeyEncryption.v ===== *)
(** * Private keys at rest

    Model of [src/src/security/tls/key_encryption.rs]: the format of encrypted
    private keys.  AES-256-GCM and PBKDF2 are a class with their laws; the salt
    and the nonce of an encryption are arguments.  Warnings about short
    passwords are left out. *)

From S2P Require Import Prelude.
Local Open Scope Z_scope.

(** [pbkdf2_hmac::<Sha256>] with the number of iterations, and [Aes256Gcm] *)
Class KeyCrypto := {
  pbkdf2 : bytes → bytes → Z → bytes;
  gcm_encrypt : bytes → bytes → bytes → option bytes;
  gcm_decrypt : bytes → bytes → bytes → option bytes;
}.
(** Decryption undoes encryption under the same key and nonce; a ciphertext has
    its tag of sixteen bytes. *)
Class KeyCryptoLaws `{!KeyCrypto} := {
  gcm_roundtrip key nonce text c : gcm_encrypt key nonce text = Some c → gcm_decrypt key nonce c = Some text;
  gcm_length key nonce text c : gcm_encrypt key nonce text = Some c → length c = (length text + 16)%nat;
}.

(** The text RUSTMQ-ENCRYPTED-KEY-V1 and a zero byte *)
Definition HEADER : bytes := str_bytes "RUSTMQ-ENCRYPTED-KEY-V1" ++ [0].
Arguments HEADER : simpl never.
Definition SALT_SIZE : nat := 32.
Definition NONCE_SIZE : nat := 12.
Definition TAG_SIZE : nat := 16.
Definition PBKDF2_ITERATIONS : Z := 600000.
Definition MIN_ENCRYPTED_SIZE : nat := length HEADER + SALT_SIZE + NONCE_SIZE + TAG_SIZE.

Section keys.
Context `{!KeyCrypto}.
Local Open Scope rust_scope.

Definition encrypt_private_key (salt nonce : bytes) (plaintext_pem password : string) : Result bytes :=
  if decide (password = EmptyString) then Err Config
  else
    let derived_key := pbkdf2 (str_bytes password) salt PBKDF2_ITERATIONS in
    let? ciphertext := ok_or (gcm_encrypt derived_key nonce (str_bytes plaintext_pem)) Encryption in
    Ok (HEADER ++ salt ++ nonce ++ ciphertext).
Definition decrypt_private_key (encrypted_data : bytes) (password : string) : Result string :=
  if bool_decide (length encrypted_data < MIN_ENCRYPTED_SIZE)%nat then Err Encryption
  else if negb (bool_decide (take (length HEADER) encrypted_data = HEADER)) then Err Encryption
  else
    let rest := drop (length HEADER) encrypted_data in
    let salt := take SALT_SIZE rest in
    let rest := drop SALT_SIZE rest in
    let nonce := take NONCE_SIZE rest in
    let ciphertext := drop NONCE_SIZE rest in
    let derived_key := pbkdf2 (str_bytes password) salt PBKDF2_ITERATIONS in
    let? plaintext := ok_or (gcm_decrypt derived_key nonce ciphertext) Encryption in
    ok_or (from_utf8 plaintext) Encryption.
Definition verify_encrypted (data : bytes) : Result unit :=
  if bool_decide (length data < length HEADER)%nat then Err Encryption
  else if negb (bool_decide (take (length HEADER) data = HEADER)) then Err Encryption
  else Ok tt.
Definition is_encrypted (data : bytes) : bool :=
  bool_decide (length HEADER ≤ length data)%nat && bool_decide (take (length HEADER) data = HEADER).

Lemma verify_is_encrypted data : verify_encrypted data = Ok tt ↔ is_encrypted data = true.
Proof. unfold verify_encrypted, is_encrypted. repeat case_bool_decide; simpl; split; done || lia. Qed.

Context {Hlaws : KeyCryptoLaws}.
Lemma encrypt_decrypt salt nonce pem password blob :
  length salt = SALT_SIZE → length nonce = NONCE_SIZE → utf8_valid (str_bytes pem) = true →
  encrypt_private_key salt nonce pem password = Ok blob →
  verify_encrypted blob = Ok tt ∧ decrypt_private_key blob password = Ok pem.
Proof using Hlaws.
  intros Hs Hn Hu. unfold encrypt_private_key. destruct (decide _); [done|]. cbn zeta.
  destruct (gcm_encrypt _ nonce _) as [c|] eqn:E; cbn [ok_or rbind]; [|done]. intros Hb. assert (blob = HEADER ++ salt ++ nonce ++ c) as -> by congruence. clear Hb.
  pose proof (gcm_length _ _ _ _ E) as Hlen.
  assert (Hh : take (length HEADER) (HEADER ++ salt ++ nonce ++ c) = HEADER) by (by rewrite take_app_length).
  assert (Hl : (MIN_ENCRYPTED_SIZE ≤ length (HEADER ++ salt ++ nonce ++ c))%nat)
    by (unfold MIN_ENCRYPTED_SIZE, SALT_SIZE, NONCE_SIZE, TAG_SIZE in *; rewrite !length_app; lia).
  split.
  - apply verify_is_encrypted. unfold is_encrypted. rewrite Hh, !bool_decide_eq_true_2; [done|done|]. rewrite length_app. lia.
  - unfold decrypt_private_key. rewrite bool_decide_eq_false_2 by lia. rewrite Hh, bool_decide_eq_true_2 by done. cbn [negb].
    rewrite drop_app_length. cbn zeta. rewrite (take_app_length' salt) by done. rewrite (drop_app_length' salt) by done.
    rewrite (take_app_length' nonce), (drop_app_length' nonce) by done. rewrite (gcm_roundtrip _ _ _ _ E). simpl.
    by rewrite from_utf8_str_bytes.
Qed.
(** Anything without the header, a plain key for one, is refused. *)
Lemma plaintext_refused data password : is_encrypted data = false → verify_encrypted data = Err Encryption ∧ decrypt_private_key data password = Err Encryption.
Proof using Type.
  unfold is_encrypted, verify_encrypted, decrypt_private_key. intros He.
  apply andb_false_iff in He as [He%bool_decide_eq_false|He%bool_decide_eq_false].
  - assert (Hl : (length data < MIN_ENCRYPTED_SIZE)%nat) by (unfold MIN_ENCRYPTED_SIZE; lia).
    rewrite (bool_decide_eq_true_2 _ Hl), bool_decide_eq_true_2 by lia. done.
  - rewrite (bool_decide_eq_false_2 _ He). simpl. by repeat case_bool_decide.
Qed.
End keys.
