(* ===== verification/Certificates.v ===== *)
(** * Certificate management

    Model of [src/src/security/tls/certificate_manager.rs]: the root authority,
    issuing, renewing and revoking certificates, the revocation list, the
    certificates at rest, audit entries and the validation caches.  Keys,
    signatures, X.509 and PEM are the class [Pki]; names are the attributes in
    the order they were pushed.  Every operation is a sequence of turns, one per
    lock it takes or call it awaits: before each, [env] changes the manager as
    other operations may, and each turn has a number that stands for the reading
    of the clock, a generated identifier and randomness.  Messages of errors,
    template fields that are never read and the user and address of audit
    entries, which the code leaves empty, are left out. *)

From Stdlib Require Import Ascii String.
From S2P Require Import Prelude ObjectStorage KeyEncryption.
Local Open Scope Z_scope.

(** ** Data *)

Inductive KeyType := KtRsa | KtEcdsa.
Inductive KeyUsage :=
  | DigitalSignature | NonRepudiation | KeyEncipherment | DataEncipherment | KeyAgreement | KeyCertSign | CrlSign
  | EncipherOnly | DecipherOnly.
Inductive ExtendedKeyUsage := ServerAuth | ClientAuth | CodeSigning | EmailProtection | TimeStamping | OcspSigning.
Inductive CertificateRole := RootCa | RoleBroker | RoleController | RoleClient | RoleAdmin.
#[global] Instance CertificateRole_eq_dec : EqDecision CertificateRole.
Proof. solve_decision. Defined.
Record CertificateTemplate := mkTemplate {
  tm_validity_days : Z;
  tm_key_type : KeyType;
  tm_key_size : Z;
  tm_key_usage : list KeyUsage;
  tm_extended_key_usage : list ExtendedKeyUsage;
}.
Definition broker_default : CertificateTemplate := mkTemplate 365 KtEcdsa 256 [DigitalSignature; KeyEncipherment] [ServerAuth; ClientAuth].
Definition controller_default : CertificateTemplate := mkTemplate 730 KtEcdsa 256 [DigitalSignature; KeyEncipherment] [ServerAuth; ClientAuth].
Definition client_default : CertificateTemplate := mkTemplate 365 KtEcdsa 256 [DigitalSignature] [ClientAuth].
Definition admin_default : CertificateTemplate := mkTemplate 180 KtEcdsa 256 [DigitalSignature] [ClientAuth].

Record CaSettings := mkCaSettings {
  ca_organization : string;
  ca_organizational_unit : string;
  ca_country_code : string;
  ca_root_ca_validity_years : Z;
  ca_key_type : KeyType;
  ca_key_size : Z;
}.
Definition default_ca_settings : CaSettings := mkCaSettings "RustMQ" "Message Queue System" "US" 10 KtEcdsa 256.
(** [ce_auto_renew_before_expiry_days] is a field of [CertificateManagementConfig] *)
Record EnhancedCertificateManagementConfig := mkCertConfig {
  ce_auto_renew_before_expiry_days : Z;
  ce_key_encryption_password : string;
  ce_ca_settings : CaSettings;
  ce_certificate_templates : CertificateRole → option CertificateTemplate;
  ce_audit_enabled : bool;
}.
Definition default_templates (r : CertificateRole) : option CertificateTemplate :=
  match r with
  | RootCa => None
  | RoleBroker => Some broker_default
  | RoleController => Some controller_default
  | RoleClient => Some client_default
  | RoleAdmin => Some admin_default
  end.
Definition default_config (auto_renew_before_expiry_days : Z) : EnhancedCertificateManagementConfig :=
  mkCertConfig auto_renew_before_expiry_days "CHANGE-ME-IN-PRODUCTION" default_ca_settings default_templates true.

Inductive CertificateStatus := Active | Expired | Revoked | PendingRenewal | Suspended.
#[global] Instance CertificateStatus_eq_dec : EqDecision CertificateStatus.
Proof. solve_decision. Defined.
Inductive RevocationReason :=
  | Unspecified | KeyCompromise | CaCompromise | AffiliationChanged | Superseded | CessationOfOperation | CertificateHold
  | RemoveFromCrl | PrivilegeWithdrawn | AaCompromise.
Record CertificateInfo := mkInfo {
  ci_id : string;
  ci_subject : string;
  ci_issuer : string;
  ci_serial_number : string;
  ci_not_before : Z;
  ci_not_after : Z;
  ci_fingerprint : string;
  ci_role : CertificateRole;
  ci_status : CertificateStatus;
  ci_created_at : Z;
  ci_renewal_threshold : Z;
  ci_key_type : KeyType;
  ci_key_size : Z;
  ci_is_ca : bool;
  ci_issuer_id : option string;
  ci_revocation_reason : option RevocationReason;
  ci_san_entries : list string;
  ci_certificate_pem : option string;
  ci_private_key_pem : option string;
}.
Record CertificateMetadata := mkCertMetadata {
  mt_info : CertificateInfo;
  mt_pem_data : string;
  mt_private_key_path : option string;
  mt_created_by : string;
  mt_storage_version : Z;
}.
Record RevokedCertificate := mkRevoked { rv_serial_number : string; rv_revocation_date : Z; rv_reason : RevocationReason }.
Record RevocationList := mkRevocationList {
  rl_id : string;
  rl_issuer : string;
  rl_this_update : Z;
  rl_next_update : Z;
  rl_revoked_certificates : gmap string RevokedCertificate;
}.
Record CertificateAuditEntry := mkAudit {
  au_timestamp : Z;
  au_operation : string;
  au_certificate_id : option string;
  au_subject : string;
  au_result : string;
}.

(** ** Requests *)

Inductive DnType := CommonName | OrganizationName | OrganizationalUnitName | CountryName.
Abbreviation DistinguishedName := (list (DnType * string)) (only parsing).
(** Addresses by their text; other kinds by their debug text *)
Inductive SanType := SanDns (name : string) | SanIp (ip : string) | SanRfc822 (email : string) | SanOther (text : string).
Inductive SerializableSanType := SsDns (name : string) | SsIp (ip : string) | SsEmail (email : string) | SsUri (uri : string).
Definition san_from_serializable (parse_ip : string → option string) (san : SerializableSanType) : SanType :=
  match san with
  | SsDns name => SanDns name
  | SsIp s => match parse_ip s with Some ip => SanIp ip | None => SanDns s end
  | SsEmail email => SanRfc822 email
  | SsUri uri => SanDns uri
  end.
Definition san_to_serializable (san : SanType) : SerializableSanType :=
  match san with
  | SanDns name => SsDns name
  | SanIp ip => SsIp ip
  | SanRfc822 email => SsEmail email
  | SanOther _ => SsDns "unknown"
  end.
Record CertificateRequest := mkCertRequest {
  cq_subject : DistinguishedName;
  cq_role : CertificateRole;
  cq_san_entries : list SanType;
  cq_validity_days : option Z;
  cq_key_type : option KeyType;
  cq_key_size : option Z;
  cq_issuer_id : option string;
}.
Record CaGenerationParams := mkCaParams {
  cg_common_name : string;
  cg_organization : option string;
  cg_organizational_unit : option string;
  cg_country : option string;
  cg_validity_years : option Z;
  cg_key_type : option KeyType;
  cg_key_size : option Z;
}.

(** ** Keys and X.509 *)

Inductive KeyAlgorithm := PKCS_RSA_SHA256 | PKCS_ECDSA_P256_SHA256 | PKCS_ECDSA_P384_SHA384.
Inductive IsCa := CaUnconstrained | CaConstrained (path_len : Z) | NoCa.
Record CertificateParams (Key : Type) := mkCertParams {
  cp_subject_alt_names : list string;
  cp_distinguished_name : DistinguishedName;
  cp_is_ca : IsCa;
  cp_key_usages : list KeyUsage;
  cp_extended_key_usages : list ExtendedKeyUsage;
  cp_not_before : Z;
  cp_not_after : Z;
  cp_key_pair : Key;
}.
Arguments mkCertParams {Key}.
Inductive GeneralName := GnDns (name : string) | GnIp (ip : bytes) | GnOther.
Inductive ParsedExtension :=
  | PxKeyUsage (digital_signature key_encipherment data_encipherment key_agreement key_cert_sign crl_sign : bool)
  | PxExtendedKeyUsage (server_auth client_auth code_signing email_protection time_stamping ocsp_signing : bool)
  | PxBasicConstraints (ca : bool) (path_len_constraint : option Z)
  | PxOther.
Record X509Extension := mkExtension { xe_oid : string; xe_value : bytes; xe_parsed : ParsedExtension }.
(** Attributes of the subject are [None] where they are no text. *)
Record X509Certificate := mkX509 {
  xc_subject : string;
  xc_issuer : string;
  xc_serial : bytes;
  xc_not_before : Z;
  xc_not_after : Z;
  xc_extensions : list X509Extension;
  xc_common_name : list (option string);
  xc_organization : list (option string);
  xc_organizational_unit : list (option string);
  xc_country : list (option string);
  xc_key_oid : string;
  xc_key_parameters : option (option string);
  xc_key_bytes : Z;
}.
(** The crates [rcgen], [x509_parser], [rustls_pemfile], [webpki], [base64],
    [sha2] and [time]; numbers stand for randomness, [add_days] is [None] where
    the sum panics. *)
Class Pki (Key Cert : Type) := {
  keypair_generate : KeyAlgorithm → nat → option Key;
  keypair_from_pem : string → option Key;
  from_params : CertificateParams Key → option Cert;
  serialize_pem : Cert → nat → option string;
  serialize_der_with_signer : Cert → Cert → nat → option bytes;
  serialize_private_key_pem : Cert → string;
  pem_certs : string → list bytes;
  base64_encode : bytes → string;
  x509_from_der : bytes → option X509Certificate;
  san_from_der : bytes → option (list GeneralName);
  webpki_parses : bytes → bool;
  sha256 : bytes → bytes;
  add_days : Z → Z → option Z;
  unix_timestamp_ok : Z → bool;
  debug_common_name : DistinguishedName → option string;
}.
#[global] Hint Mode Pki - - : typeclass_instances.

(** [hex::encode] and the debug text of bytes *)
Definition hex_digit (n : Z) : ascii := ascii_of_N (Z.to_N (if n <? 10 then 48 + n else 87 + n)).
Fixpoint hex_encode (b : bytes) : string :=
  match b with [] => EmptyString | x :: b => String (hex_digit (x / 16)) (String (hex_digit (x mod 16)) (hex_encode b)) end.
Fixpoint comma_list (l : list string) : string :=
  match l with [] => EmptyString | [x] => x | x :: l => x +:+ ", " +:+ comma_list l end.
Definition debug_bytes (b : bytes) : string := "[" +:+ comma_list (dec <$> b) +:+ "]".
(** [str::split] at a comma and a space, and [split_once] at an equals sign *)
Fixpoint split_comma (s : string) : list string :=
  match s with
  | EmptyString => [EmptyString]
  | String c rest =>
      match rest with
      | String d rest' =>
          if Ascii.eqb c "," && Ascii.eqb d " " then EmptyString :: split_comma rest'
          else match split_comma rest with [] => [String c rest] | p :: ps => String c p :: ps end
      | EmptyString => [String c EmptyString]
      end
  end.
Fixpoint split_once_eq (s : string) : option (string * string) :=
  match s with
  | EmptyString => None
  | String c rest => if Ascii.eqb c "=" then Some (EmptyString, rest) else '(k, v) ← split_once_eq rest; Some (String c k, v)
  end.
Definition newline : string := String (ascii_of_N 10) EmptyString.

(** [detect_key_type_and_size] *)
Definition detect_key_type_and_size (c : X509Certificate) : KeyType * Z :=
  if String.eqb (xc_key_oid c) "1.2.840.113549.1.1.1" then (KtRsa, as_u32 (as_u32 (xc_key_bytes c) * 8))
  else if String.eqb (xc_key_oid c) "1.2.840.10045.2.1" then
    match xc_key_parameters c with
    | Some (Some curve) =>
        (KtEcdsa, if String.eqb curve "1.2.840.10045.3.1.7" then 256 else if String.eqb curve "1.3.132.0.34" then 384
                  else if String.eqb curve "1.3.132.0.35" then 521 else 256)
    | _ =>
        let n := xc_key_bytes c in
        (KtEcdsa, if (64 <=? n) && (n <=? 65) then 256 else if (96 <=? n) && (n <=? 97) then 384
                  else if (132 <=? n) && (n <=? 133) then 521 else 256)
    end
  else (KtEcdsa, 256).
Definition usage_purpose (ku : KeyUsage) : KeyUsage :=
  match ku with NonRepudiation | EncipherOnly | DecipherOnly => DigitalSignature | ku => ku end.
Definition san_text (san : SanType) : string :=
  match san with SanDns s | SanIp s | SanRfc822 s | SanOther s => s end.
Definition key_algorithm (key_type : KeyType) (key_size : Z) : KeyAlgorithm :=
  match key_type with
  | KtRsa => PKCS_RSA_SHA256
  | KtEcdsa => if key_size =? 384 then PKCS_ECDSA_P384_SHA384 else PKCS_ECDSA_P256_SHA256
  end.
(** [UNIX_EPOCH + Duration::from_secs(t as u64)], which panics past [i64] *)
Definition system_time (t : Z) : Result Z := if t <? 0 then Err Panic else Ok t.

(** ** The caches of validations *)

Record CertificateCacheKey := mkCacheKey { ck_cert_hash : bytes; ck_subject_key_id : option bytes }.
Record CertificateCacheEntry := mkCacheEntry {
  ce_cert_der : bytes;
  ce_cached_at : Z;
  ce_is_valid : bool;
  ce_expires_at : Z;
  ce_subject_key_id : option bytes;
}.
(** [lru::LruCache], with a capacity *)
Class CertLru (L : Type) := {
  cl_new : Z → L;
  cl_get : CertificateCacheKey → L → option CertificateCacheEntry * L;
  cl_put : CertificateCacheKey → CertificateCacheEntry → L → L;
  cl_pop : CertificateCacheKey → L → L;
  cl_iter : L → list (CertificateCacheKey * CertificateCacheEntry);
  cl_clear : L → L;
}.
#[global] Hint Mode CertLru ! : typeclass_instances.
(** An entry that is found is one that was put. *)
Class CertLruLaws (L : Type) `{!CertLru L} := {
  cl_iter_new n : cl_iter (cl_new n : L) = [];
  cl_iter_clear (l : L) : cl_iter (cl_clear l) = [];
  cl_get_iter k (l : L) : match cl_get k l with
                    | (Some e, l') => (k, e) ∈ cl_iter l ∧ cl_iter l' ≡ₚ cl_iter l
                    | (None, l') => cl_iter l' ≡ₚ cl_iter l
                    end;
  cl_put_iter k e (l : L) ke : ke ∈ cl_iter (cl_put k e l) → ke = (k, e) ∨ ke ∈ cl_iter l;
  cl_pop_iter k (l : L) ke : ke ∈ cl_iter (cl_pop k l) → ke ∈ cl_iter l;
}.
Record CertificateCacheStats := mkCacheStats { cs_hits : Z; cs_misses : Z; cs_invalidations : Z; cs_parse_count : Z }.
Record CertificateCache (L : Type) := mkCertCache { cc_cache : L; cc_stats : CertificateCacheStats; cc_ttl_seconds : Z }.
Arguments mkCertCache {L}. Arguments cc_cache {L}. Arguments cc_stats {L}. Arguments cc_ttl_seconds {L}.

Section cache.
Context {L : Type} `{!CertLru L}.
Definition cache_new (max_entries ttl_seconds : Z) : CertificateCache L := mkCertCache (cl_new max_entries) (mkCacheStats 0 0 0 0) ttl_seconds.
Definition count_cache (hits misses invalidations parses : Z) (s : CertificateCacheStats) : CertificateCacheStats :=
  mkCacheStats (u64_add (cs_hits s) hits) (u64_add (cs_misses s) misses) (u64_add (cs_invalidations s) invalidations) (u64_add (cs_parse_count s) parses).
Definition cache_get (now : Z) (key : CertificateCacheKey) (c : CertificateCache L) : option CertificateCacheEntry * CertificateCache L :=
  match cl_get key (cc_cache c) with
  | (Some entry, l) =>
      if saturating_sub now (ce_cached_at entry) <? cc_ttl_seconds c
      then (Some entry, mkCertCache l (count_cache 1 0 0 0 (cc_stats c)) (cc_ttl_seconds c))
      else (None, mkCertCache (cl_pop key l) (count_cache 0 1 1 0 (cc_stats c)) (cc_ttl_seconds c))
  | (None, l) => (None, mkCertCache l (count_cache 0 1 0 0 (cc_stats c)) (cc_ttl_seconds c))
  end.
Definition cache_put (key : CertificateCacheKey) (entry : CertificateCacheEntry) (c : CertificateCache L) : CertificateCache L :=
  mkCertCache (cl_put key entry (cc_cache c)) (count_cache 0 0 0 1 (cc_stats c)) (cc_ttl_seconds c).
Definition invalidate_by (p : CertificateCacheKey * CertificateCacheEntry → bool) (c : CertificateCache L) : Z * CertificateCache L :=
  let keys := (filter (λ ke, p ke = true) (cl_iter (cc_cache c))).*1 in
  (Z.of_nat (length keys), mkCertCache (foldl (λ l k, cl_pop k l) (cc_cache c) keys) (count_cache 0 0 (Z.of_nat (length keys)) 0 (cc_stats c)) (cc_ttl_seconds c)).
Definition cache_clear (c : CertificateCache L) : CertificateCache L :=
  mkCertCache (cl_clear (cc_cache c)) (count_cache 0 0 (Z.of_nat (length (cl_iter (cc_cache c)))) 0 (cc_stats c)) (cc_ttl_seconds c).
End cache.

(** ** The manager *)

Record CertificateManager (O L : Type) := mkCertManager {
  cm_config : EnhancedCertificateManagementConfig;
  cm_storage : O;
  cm_certificates : gmap string CertificateMetadata;
  cm_crl : RevocationList;
  cm_audit_log : list CertificateAuditEntry;
  cm_cert_cache : CertificateCache L;
  cm_ca_cache : CertificateCache L;
  cm_ticks : nat;
}.
Arguments mkCertManager {O L}. Arguments cm_config {O L}. Arguments cm_storage {O L}. Arguments cm_certificates {O L}.
Arguments cm_crl {O L}. Arguments cm_audit_log {O L}. Arguments cm_cert_cache {O L}. Arguments cm_ca_cache {O L}. Arguments cm_ticks {O L}.

Section manager.
Context {Key Cert O L : Type} `{!Pki Key Cert, !ObjectStorage O, !CertLru L, !KeyCrypto}.
Context `{!Json (gmap string CertificateMetadata), !Json RevocationList}.
Context (uuid : nat → string) (clock : nat → Z) (salt_of nonce_of : nat → bytes).
Context (env : nat → CertificateManager O L → CertificateManager O L).
Local Open Scope rust_scope.
Abbreviation CM := (CertificateManager O L).
Implicit Types (s : CM).

Definition with_storage (o : O) s : CM :=
  mkCertManager (cm_config s) o (cm_certificates s) (cm_crl s) (cm_audit_log s) (cm_cert_cache s) (cm_ca_cache s) (cm_ticks s).
Definition with_certificates (m : gmap string CertificateMetadata) s : CM :=
  mkCertManager (cm_config s) (cm_storage s) m (cm_crl s) (cm_audit_log s) (cm_cert_cache s) (cm_ca_cache s) (cm_ticks s).
Definition with_crl (c : RevocationList) s : CM :=
  mkCertManager (cm_config s) (cm_storage s) (cm_certificates s) c (cm_audit_log s) (cm_cert_cache s) (cm_ca_cache s) (cm_ticks s).
Definition with_audit (l : list CertificateAuditEntry) s : CM :=
  mkCertManager (cm_config s) (cm_storage s) (cm_certificates s) (cm_crl s) l (cm_cert_cache s) (cm_ca_cache s) (cm_ticks s).
Definition with_caches (c ca : CertificateCache L) s : CM :=
  mkCertManager (cm_config s) (cm_storage s) (cm_certificates s) (cm_crl s) (cm_audit_log s) c ca (cm_ticks s).
Definition ticked s : CM :=
  mkCertManager (cm_config s) (cm_storage s) (cm_certificates s) (cm_crl s) (cm_audit_log s) (cm_cert_cache s) (cm_ca_cache s) (S (cm_ticks s)).
(** A turn, after what others did *)
Definition turn {A} (f : nat → CM → A * CM) s : A * CM :=
  let s := env (cm_ticks s) s in f (cm_ticks s) (ticked s).

Definition audit_entry (operation : string) (certificate_id : option string) (subject result : string) (n : nat) s : Result unit * CM :=
  if ce_audit_enabled (cm_config s)
  then (Ok tt, with_audit (cm_audit_log s ++ [mkAudit (clock n) operation certificate_id subject result]) s)
  else (Ok tt, s).
Definition audit_log (operation : string) (certificate_id : option string) (subject result : string) : CM → Result unit * CM :=
  turn (audit_entry operation certificate_id subject result).
Definition get_recent_audit_entries (limit : nat) s : list CertificateAuditEntry :=
  drop (if bool_decide (limit < length (cm_audit_log s))%nat then length (cm_audit_log s) - limit else 0) (cm_audit_log s).

(** *** Storage *)

Definition cert_list_path : string := "certificates/certificate_list.json".
Definition crl_path : string := "certificates/crl.json".
Definition key_path_of (cert_id : string) : string := "certificates/private_keys/" +:+ cert_id +:+ ".key".
Definition put_object (path : string) (data : bytes) (_ : nat) s : Result unit * CM :=
  match os_put path data (cm_storage s) with
  | (Ok _, o) => (Ok tt, with_storage o s)
  | (Err _, o) => (Err Storage, with_storage o s)
  end.
(** The copy is written in a later turn than it is taken. *)
Definition persist_certificates s : Result unit * CM :=
  let '(data, s) := turn (λ _ s, (to_json (cm_certificates s), s)) s in turn (put_object cert_list_path data) s.
Definition persist_crl s : Result unit * CM :=
  let '(data, s) := turn (λ _ s, (to_json (cm_crl s), s)) s in turn (put_object crl_path data) s.
Definition store_private_key (cert_id private_key_pem : string) (n : nat) s : Result string * CM :=
  match encrypt_private_key (salt_of n) (nonce_of n) private_key_pem (ce_key_encryption_password (cm_config s)) with
  | Err e => (Err e, s)
  | Ok key_data => let! (_u, s) := put_object (key_path_of cert_id) key_data n s in (Ok (key_path_of cert_id), s)
  end.
Definition empty_crl (n : nat) : RevocationList := mkRevocationList (uuid n) "RustMQ Certificate Manager" (clock n) (clock n + 604800) ∅.
Definition load_certificates s : Result unit * CM :=
  match os_get cert_list_path (cm_storage s) with
  | (Ok data, o) =>
      match from_json data with
      | Some m => (Ok tt, with_certificates m (with_storage o s))
      | None => (Err Storage, with_storage o s)
      end
  | (Err _, o) => (Ok tt, with_storage o s)
  end.
(** [new_with_enhanced_config], at a given turn *)
Definition cert_manager_new (config : EnhancedCertificateManagementConfig) (storage : O) (n : nat) : Result CM :=
  let '(r, s) := load_certificates (mkCertManager config storage ∅ (empty_crl n) [] (cache_new 1000 300) (cache_new 100 1800) (S n)) in
  let? _u := r in Ok s.

(** *** New certificates *)

Definition general_name_text (g : GeneralName) : option string :=
  match g with GnDns name => Some name | GnIp ip => Some (debug_bytes ip) | GnOther => None end.
Definition san_entries_of (c : X509Certificate) : list string :=
  match list_find (λ e, xe_oid e = "2.5.29.17") (xc_extensions c) with
  | Some (_, ext) => match san_from_der (xe_value ext) with Some names => omap general_name_text names | None => [] end
  | None => []
  end.
Definition calculate_fingerprint (der : bytes) : string := hex_encode (sha256 der).
(** The description of a certificate from its PEM text *)
Definition describe (cert_id pem : string) (role : CertificateRole) (issuer_id : option string) (n : nat) s : Result CertificateInfo :=
  let? der := ok_or (head (pem_certs pem)) CertificateGeneration in
  let? parsed := ok_or (x509_from_der der) CertificateGeneration in
  let? not_before := system_time (xc_not_before parsed) in
  let? not_after := system_time (xc_not_after parsed) in
  let '(key_type, key_size) := detect_key_type_and_size parsed in
  Ok (mkInfo cert_id (xc_subject parsed) (xc_issuer parsed) (hex_encode (xc_serial parsed)) not_before not_after
        (calculate_fingerprint der) role Active (clock n) (not_after - ce_auto_renew_before_expiry_days (cm_config s) * 86400)
        key_type key_size (bool_decide (role = RootCa)) issuer_id None (san_entries_of parsed) (Some pem) None).
Definition store_key (pem key : string) (role : CertificateRole) (issuer_id : option string) (n : nat) s : Result (CertificateInfo * string) * CM :=
  match describe (uuid n) pem role issuer_id n s with
  | Err e => (Err e, s)
  | Ok info => let! (path, s) := store_private_key (uuid n) key n s in (Ok (info, path), s)
  end.
Definition insert_certificate (m : CertificateMetadata) (_ : nat) s : Result unit * CM :=
  (Ok tt, with_certificates (<[ci_id (mt_info m) := m]> (cm_certificates s)) s).
Definition store_signed_certificate (certificate_pem private_key_pem : string) (role : CertificateRole) (issuer_id : option string)
    (created_by : string) s : Result CertificateInfo * CM :=
  let! (described, s) := turn (store_key certificate_pem private_key_pem role issuer_id) s in
  let! (_u, s) := turn (insert_certificate (mkCertMetadata described.1 certificate_pem (Some described.2) created_by 1)) s in
  let! (_u, s) := persist_certificates s in
  (Ok described.1, s).
Definition store_certificate (certificate : Cert) (role : CertificateRole) (issuer_id : option string) (created_by : string) s
  : Result CertificateInfo * CM :=
  let! (pem, s) := turn (λ n s, (ok_or (serialize_pem certificate n) CertificateGeneration, s)) s in
  store_signed_certificate pem (serialize_private_key_pem certificate) role issuer_id created_by s.

Definition generate_key_pair (key_type : KeyType) (key_size : Z) (n : nat) : Result Key :=
  ok_or (keypair_generate (key_algorithm key_type key_size) n) CertificateGeneration.
(** The root certificate of the parameters *)
Definition root_certificate (params : CaGenerationParams) (n : nat) s : Result Cert * CM :=
  let ca := ce_ca_settings (cm_config s) in
  (let? key := generate_key_pair (default (ca_key_type ca) (cg_key_type params)) (default (ca_key_size ca) (cg_key_size params)) n in
   let dn := [(CommonName, cg_common_name params); (OrganizationName, default (ca_organization ca) (cg_organization params));
              (OrganizationalUnitName, default (ca_organizational_unit ca) (cg_organizational_unit params));
              (CountryName, default (ca_country_code ca) (cg_country params))] in
   let? not_after := ok_or (add_days (clock n) (default (ca_root_ca_validity_years ca) (cg_validity_years params) * 365)) Panic in
   ok_or (from_params (mkCertParams [] dn CaUnconstrained [KeyCertSign; CrlSign; DigitalSignature] [] (clock n) not_after key)) CertificateGeneration, s).
Definition generate_root_ca (params : CaGenerationParams) s : Result CertificateInfo * CM :=
  let! (_u, s) := audit_log "generate_root_ca" None (cg_common_name params) "STARTED" s in
  let! (certificate, s) := turn (root_certificate params) s in
  let! (info, s) := store_certificate certificate RootCa None "system" s in
  let! (_u, s) := audit_log "generate_root_ca" (Some (ci_id info)) (cg_common_name params) "SUCCESS" s in
  (Ok info, s).

(** *** The issuer, rebuilt from storage *)

Definition read_metadata (cert_id : string) (_ : nat) s : Result CertificateMetadata * CM :=
  (ok_or (cm_certificates s !! cert_id) CertificateNotFound, s).
Definition load_key (key_path : string) (_ : nat) s : Result string * CM :=
  match os_get key_path (cm_storage s) with
  | (Err _, o) => (Err Storage, with_storage o s)
  | (Ok data, o) =>
      (let? _u := verify_encrypted data in decrypt_private_key data (ce_key_encryption_password (cm_config s)), with_storage o s)
  end.
Definition usages_of (p : ParsedExtension) : list KeyUsage :=
  match p with
  | PxKeyUsage a b c d e f =>
      omap (λ bu : bool * KeyUsage, if bu.1 then Some bu.2 else None)
        [(a, DigitalSignature); (b, KeyEncipherment); (c, DataEncipherment); (d, KeyAgreement); (e, KeyCertSign); (f, CrlSign)]
  | _ => []
  end.
Definition extended_usages_of (p : ParsedExtension) : list ExtendedKeyUsage :=
  match p with
  | PxExtendedKeyUsage a b c d e f =>
      omap (λ bu : bool * ExtendedKeyUsage, if bu.1 then Some bu.2 else None)
        [(a, ServerAuth); (b, ClientAuth); (c, CodeSigning); (d, EmailProtection); (e, TimeStamping); (f, OcspSigning)]
  | _ => []
  end.
(** Usages and constraints, from the extensions in order *)
Definition extension_step (acc : list KeyUsage * list ExtendedKeyUsage * IsCa) (e : X509Extension) : list KeyUsage * list ExtendedKeyUsage * IsCa :=
  let '(ku, eku, bc) := acc in
  if String.eqb (xe_oid e) "2.5.29.15" then (ku ++ usages_of (xe_parsed e), eku, bc)
  else if String.eqb (xe_oid e) "2.5.29.37" then (ku, eku ++ extended_usages_of (xe_parsed e), bc)
  else if String.eqb (xe_oid e) "2.5.29.19" then
    match xe_parsed e with
    | PxBasicConstraints true (Some len) => (ku, eku, CaConstrained (len mod 256))
    | PxBasicConstraints true None => (ku, eku, CaUnconstrained)
    | _ => acc
    end
  else acc.
Definition rebuild (m : CertificateMetadata) (private_key_pem : string) : Result Cert :=
  let? key := ok_or (keypair_from_pem private_key_pem) InvalidCertificate in
  let? der := ok_or (head (pem_certs (mt_pem_data m))) InvalidCertificate in
  let? parsed := ok_or (x509_from_der der) InvalidCertificate in
  let dn := (CommonName, default "Unknown" (mjoin (head (xc_common_name parsed))))
            :: ((λ o, (OrganizationName, o)) <$> omap id (xc_organization parsed))
            ++ ((λ o, (OrganizationalUnitName, o)) <$> omap id (xc_organizational_unit parsed))
            ++ ((λ o, (CountryName, o)) <$> omap id (xc_country parsed)) in
  let '(ku, eku, bc) := foldl extension_step ([], [], CaUnconstrained) (xc_extensions parsed) in
  let not_before := Z.max 0 (ci_not_before (mt_info m)) in
  let not_after := Z.max 0 (ci_not_after (mt_info m)) in
  if negb (unix_timestamp_ok not_before && unix_timestamp_ok not_after) then Err InvalidCertificate
  else ok_or (from_params (mkCertParams (ci_san_entries (mt_info m)) dn (if ci_is_ca (mt_info m) then bc else NoCa) ku eku not_before not_after key))
         InvalidCertificate.
Definition reconstruct_rcgen_certificate (cert_id : string) s : Result Cert * CM :=
  let! (m, s) := turn (read_metadata cert_id) s in
  let! (pem, s) := match ci_private_key_pem (mt_info m), mt_private_key_path m with
                   | Some pem, _ => (Ok pem, s)
                   | None, Some path => turn (load_key path) s
                   | None, None => (Err InvalidCertificate, s)
                   end in
  (rebuild m pem, s).

(** *** Issuing *)

Definition end_entity_certificate (request : CertificateRequest) (template : CertificateTemplate) (n : nat) s : Result Cert * CM :=
  (let? key := generate_key_pair (default (tm_key_type template) (cq_key_type request)) (default (tm_key_size template) (cq_key_size request)) n in
   let? not_after := ok_or (add_days (clock n) (default (tm_validity_days template) (cq_validity_days request))) Panic in
   ok_or (from_params (mkCertParams (san_text <$> cq_san_entries request) (cq_subject request) NoCa (usage_purpose <$> tm_key_usage template)
                         (tm_extended_key_usage template) (clock n) not_after key)) CertificateGeneration, s).
Definition pem_of_der (der : bytes) : string :=
  "-----BEGIN CERTIFICATE-----" +:+ newline +:+ base64_encode der +:+ newline +:+ "-----END CERTIFICATE-----" +:+ newline.
Definition issue_certificate (request : CertificateRequest) s : Result CertificateInfo * CM :=
  let subject_cn := default "unknown" (debug_common_name (cq_subject request)) in
  let! (_u, s) := audit_log "issue_certificate" None subject_cn "STARTED" s in
  let! (template, s) := (ok_or (ce_certificate_templates (cm_config s) (cq_role request)) Config, s) in
  let! (certificate, s) := turn (end_entity_certificate request template) s in
  let! (info, s) :=
    match cq_issuer_id request with
    | Some issuer_id =>
        if decide (cq_role request = RootCa) then (Err CertificateValidation, s)
        else
          let! (issuer_cert, s) := reconstruct_rcgen_certificate issuer_id s in
          let! (der, s) := turn (λ n s, (ok_or (serialize_der_with_signer certificate issuer_cert n) CertificateGeneration, s)) s in
          store_signed_certificate (pem_of_der der) (serialize_private_key_pem certificate) (cq_role request) (cq_issuer_id request) "user" s
    | None =>
        if decide (cq_role request = RootCa) then store_certificate certificate (cq_role request) None "user" s
        else (Err CertificateValidation, s)
    end in
  let! (_u, s) := audit_log "issue_certificate" (Some (ci_id info)) subject_cn "SUCCESS" s in
  (Ok info, s).

(** *** Revocation and renewal *)

Definition with_revoked (reason : RevocationReason) (m : CertificateMetadata) : CertificateMetadata :=
  let i := mt_info m in
  mkCertMetadata (mkInfo (ci_id i) (ci_subject i) (ci_issuer i) (ci_serial_number i) (ci_not_before i) (ci_not_after i) (ci_fingerprint i) (ci_role i)
                Revoked (ci_created_at i) (ci_renewal_threshold i) (ci_key_type i) (ci_key_size i) (ci_is_ca i) (ci_issuer_id i) (Some reason)
                (ci_san_entries i) (ci_certificate_pem i) (ci_private_key_pem i))
    (mt_pem_data m) (mt_private_key_path m) (mt_created_by m) (mt_storage_version m).
Definition mark_revoked (cert_id : string) (reason : RevocationReason) (_ : nat) s : Result unit * CM :=
  match cm_certificates s !! cert_id with
  | Some m => (Ok tt, with_certificates (<[cert_id := with_revoked reason m]> (cm_certificates s)) s)
  | None => (Err CertificateNotFound, s)
  end.
Definition get_certificate_by_id (cert_id : string) (_ : nat) s : Result (option CertificateInfo) * CM :=
  (Ok (mt_info <$> cm_certificates s !! cert_id), s).
Definition add_to_crl (serial : string) (reason : RevocationReason) (n : nat) s : Result unit * CM :=
  let c := cm_crl s in
  (Ok tt, with_crl (mkRevocationList (rl_id c) (rl_issuer c) (clock n) (clock n + 604800)
                      (<[serial := mkRevoked serial (clock n) reason]> (rl_revoked_certificates c))) s).
Definition revoke_certificate (cert_id : string) (reason : RevocationReason) s : Result unit * CM :=
  let! (_u, s) := audit_log "revoke_certificate" (Some cert_id) "unknown" "STARTED" s in
  let! (_u, s) := turn (mark_revoked cert_id reason) s in
  let! (found, s) := turn (get_certificate_by_id cert_id) s in
  let! (_u, s) := match found with
                  | Some cert => turn (add_to_crl (ci_serial_number cert) reason) s
                  | None => (Ok tt, s)
                  end in
  let! (_u, s) := persist_certificates s in
  let! (_u, s) := persist_crl s in
  audit_log "revoke_certificate" (Some cert_id) "unknown" "SUCCESS" s.

Definition dn_part (part : string) : option (DnType * string) :=
  '(key, value) ← split_once_eq part;
  if String.eqb key "CN" then Some (CommonName, value) else if String.eqb key "O" then Some (OrganizationName, value)
  else if String.eqb key "OU" then Some (OrganizationalUnitName, value) else if String.eqb key "C" then Some (CountryName, value) else None.
Definition renewal_request (i : CertificateInfo) : CertificateRequest :=
  mkCertRequest (omap dn_part (split_comma (ci_subject i))) (ci_role i) (SanDns <$> ci_san_entries i) None (Some (ci_key_type i))
    (Some (ci_key_size i)) (ci_issuer_id i).
Definition renew_certificate (cert_id : string) s : Result CertificateInfo * CM :=
  let! (_u, s) := audit_log "renew_certificate" (Some cert_id) "unknown" "STARTED" s in
  let! (found, s) := turn (get_certificate_by_id cert_id) s in
  let! (existing, s) := (ok_or found CertificateNotFound, s) in
  if negb (bool_decide (ci_status existing = Active)) then (Err CertificateValidation, s)
  else
    let! (_u, s) := revoke_certificate cert_id Superseded s in
    let! (new_cert, s) := issue_certificate (renewal_request existing) s in
    let! (_u, s) := audit_log "renew_certificate" (Some (ci_id new_cert)) (ci_subject existing) "SUCCESS" s in
    (Ok new_cert, s).
Definition rotate_certificate (cert_id : string) s : Result CertificateInfo * CM :=
  let! (_u, s) := audit_log "rotate_certificate" (Some cert_id) "unknown" "STARTED" s in
  let! (renewed, s) := renew_certificate cert_id s in
  let! (_u, s) := audit_log "rotate_certificate" (Some (ci_id renewed)) "unknown" "SUCCESS" s in
  (Ok renewed, s).

(** *** Queries *)

Definition values s : list CertificateMetadata := (map_to_list (cm_certificates s)).*2.
Definition get_revoked_certificates s : list RevokedCertificate :=
  (λ m, mkRevoked (ci_serial_number (mt_info m)) (ci_created_at (mt_info m)) (default Unspecified (ci_revocation_reason (mt_info m))))
    <$> filter (λ m, ci_status (mt_info m) = Revoked) (values s).
Definition get_expiring_certificates (now threshold_days : Z) s : list CertificateInfo :=
  mt_info <$> filter (λ m, ci_status (mt_info m) = Active ∧ ci_not_after (mt_info m) ≤ now + threshold_days * 86400) (values s).
Definition list_all_certificates s : list CertificateInfo := mt_info <$> values s.
Definition get_certificate_status (cert_id : string) s : Result CertificateStatus :=
  ok_or ((λ m, ci_status (mt_info m)) <$> cm_certificates s !! cert_id) CertificateNotFound.
Definition get_ca_chain s : list bytes :=
  filter (λ m, ci_is_ca (mt_info m) = true ∧ ci_status (mt_info m) = Active) (values s) ≫= λ m, pem_certs (mt_pem_data m).
Definition get_revoked_certificate_fingerprints s : list string :=
  (λ m, ci_fingerprint (mt_info m)) <$> filter (λ m, ci_status (mt_info m) = Revoked) (values s).
(** What a tick of the renewal task finds; it only logs them. *)
Definition certs_to_renew (now : Z) s : list string :=
  (λ m, ci_id (mt_info m)) <$>
    filter (λ m, ci_status (mt_info m) = Active ∧ ci_not_after (mt_info m) ≤ now + ce_auto_renew_before_expiry_days (cm_config s) * 86400
                 ∧ ci_is_ca (mt_info m) = false) (values s).

Record ValidationResult := mkValidation {
  vd_is_valid : bool;
  vd_errors : list string;
  vd_warnings : list string;
  vd_chain_length : nat;
  vd_trust_anchor : option string;
}.
Definition chain_errors (now : Z) (c : X509Certificate) s : list string :=
  (if xc_not_after c <? now then ["Certificate has expired"] else [])
  ++ (if now <? xc_not_before c then ["Certificate is not yet valid"] else [])
  ++ (if bool_decide (is_Some (rl_revoked_certificates (cm_crl s) !! hex_encode (xc_serial c))) then ["Certificate has been revoked"] else []).
Definition validate_certificate_chain (now : Z) (chain : list bytes) s : ValidationResult :=
  match chain with
  | [] => mkValidation false ["Certificate chain is empty"] [] 0 None
  | end_cert :: _ =>
      let warnings := if bool_decide (1 < length chain)%nat then ["Full chain validation not yet implemented"] else [] in
      match x509_from_der end_cert with
      | Some c =>
          let errors := chain_errors now c s in
          mkValidation (bool_decide (errors = [])) errors warnings (length chain) (Some (xc_issuer c))
      | None => mkValidation false ["Failed to parse certificate"] warnings (length chain) None
      end
  end.

(** *** Cached validation *)

Definition extract_subject_key_id (der : bytes) : Result (option bytes) :=
  let? c := ok_or (x509_from_der der) InvalidCertificate in
  Ok ((λ ie, xe_value ie.2) <$> list_find (λ e, xe_oid e = "2.5.29.14") (xc_extensions c)).
Definition cache_key_from_der (der : bytes) : Result CertificateCacheKey :=
  let? skid := extract_subject_key_id der in Ok (mkCacheKey (sha256 der) skid).
Record CertificateValidationResult := mkCertValidation { cv_index : nat; cv_is_valid : bool; cv_cache_hit : bool }.
(** [validate_cert_basic] checks nothing. *)
Definition validate_cert_basic (_der : bytes) : Result unit := Ok tt.
Definition validate_certificate_cached (now : Z) (der : bytes) s : Result CertificateValidationResult * CM :=
  match cache_key_from_der der with
  | Err e => (Err e, s)
  | Ok key =>
      let '(hit, c) := cache_get now key (cm_cert_cache s) in
      match hit with
      | Some entry => (Ok (mkCertValidation 0 (ce_is_valid entry) true), with_caches c (cm_ca_cache s) s)
      | None =>
          if negb (webpki_parses der) then (Err InvalidCertificate, with_caches c (cm_ca_cache s) s)
          else
            let is_valid := is_ok (validate_cert_basic der) in
            let entry := mkCacheEntry der now is_valid (now + 86400) (ck_subject_key_id key) in
            (Ok (mkCertValidation 0 is_valid false), with_caches (cache_put key entry c) (cm_ca_cache s) s)
      end
  end.
Fixpoint validate_batch (now : Z) (i : nat) (ders : list bytes) s : Result (list CertificateValidationResult) * CM :=
  match ders with
  | [] => (Ok [], s)
  | der :: ders =>
      let! (r, s) := validate_certificate_cached now der s in
      let! (rest, s) := validate_batch now (S i) ders s in
      (Ok (mkCertValidation i (cv_is_valid r) (cv_cache_hit r) :: rest), s)
  end.
Definition validate_certificates_batch (now : Z) (ders : list bytes) s : Result (list CertificateValidationResult) * CM :=
  validate_batch now 0 ders s.
Fixpoint prefetch_certificates (now : Z) (ders : list bytes) s : Result nat * CM :=
  match ders with
  | [] => (Ok 0%nat, s)
  | der :: ders =>
      let! (key, s) := (cache_key_from_der der, s) in
      let '(hit, c) := cache_get now key (cm_cert_cache s) in
      let s := with_caches c (cm_ca_cache s) s in
      match hit with
      | Some _ => prefetch_certificates now ders s
      | None =>
          let! (_u, s) := validate_certificate_cached now der s in
          let! (n, s) := prefetch_certificates now ders s in (Ok (S n), s)
      end
  end.
Fixpoint load_ca_chain_cached (now : Z) (ders : list bytes) s : Result nat * CM :=
  match ders with
  | [] => (Ok 0%nat, s)
  | der :: ders =>
      let! (key, s) := (cache_key_from_der der, s) in
      let '(hit, c) := cache_get now key (cm_ca_cache s) in
      let s := with_caches (cm_cert_cache s) c s in
      match hit with
      | Some _ => load_ca_chain_cached now ders s
      | None =>
          if negb (webpki_parses der) then (Err InvalidCertificate, s)
          else
            let entry := mkCacheEntry der now true (now + 31536000) (ck_subject_key_id key) in
            let! (n, s) := load_ca_chain_cached now ders (with_caches (cm_cert_cache s) (cache_put key entry c) s) in (Ok (S n), s)
      end
  end.
Definition invalidate_certificates_by_issuer (_issuer : string) s : Z * CM :=
  let '(n, c) := invalidate_by (λ _, false) (cm_cert_cache s) in (n, with_caches c (cm_ca_cache s) s).
Definition invalidate_expired_certificates (now : Z) s : Z * CM :=
  let '(n, c) := invalidate_by (λ ke, ce_expires_at ke.2 <=? now) (cm_cert_cache s) in
  let '(k, ca) := invalidate_by (λ ke, ce_expires_at ke.2 <=? now) (cm_ca_cache s) in (n + k, with_caches c ca s).
Definition clear_certificate_caches s : CM := with_caches (cache_clear (cm_cert_cache s)) (cache_clear (cm_ca_cache s)) s.

(** ** Invariant and histories *)

(** *** How a manager may change *)

Context {laws : ObjectStorageLaws O}.
Definition revoked_from (m m' : CertificateMetadata) : Prop := m' = m ∨ ∃ reason, m' = with_revoked reason m.
(** A change by operations that use the identifiers [own]: certificates stay and
    are at most revoked, keys stay, the revocation list and the log grow. *)
Record evolves (own : string → Prop) s s' : Prop := {
  ev_config : cm_config s' = cm_config s;
  ev_ticks : (cm_ticks s ≤ cm_ticks s')%nat;
  ev_kept id m : cm_certificates s !! id = Some m → ∃ m', cm_certificates s' !! id = Some m' ∧ revoked_from m m';
  ev_new id : cm_certificates s !! id = None → is_Some (cm_certificates s' !! id) → own id;
  ev_keys id : os_ok_key (key_path_of id) = true → ¬ own id ∨ is_Some (cm_certificates s !! id) →
    os_view (cm_storage s') (key_path_of id) = os_view (cm_storage s) (key_path_of id);
  ev_crl serial : is_Some (rl_revoked_certificates (cm_crl s) !! serial) → is_Some (rl_revoked_certificates (cm_crl s') !! serial);
  ev_audit : cm_audit_log s `prefix_of` cm_audit_log s';
}.
Lemma revoked_from_trans m1 m2 m3 : revoked_from m1 m2 → revoked_from m2 m3 → revoked_from m1 m3.
Proof using Type. intros [->|[r ->]] [->|[r' ->]]; unfold revoked_from; eauto. Qed.
#[local] Instance evolves_refl own : Reflexive (evolves own).
Proof using Type. intros s. split; try done. - intros id m E. exists m. split; [done|by left]. - intros id -> [? ?]; done. Qed.
#[local] Instance evolves_trans own : Transitive (evolves own).
Proof using Type.
  intros s1 s2 s3 [A1 A2 A3 A4 A5 A6 A7] [B1 B2 B3 B4 B5 B6 B7]. split.
  - congruence.
  - lia.
  - intros id m Hm. destruct (A3 id m Hm) as (m2 & H2 & R2). destruct (B3 id m2 H2) as (m3 & H3 & R3). eauto using revoked_from_trans.
  - intros id Hn H3. destruct (cm_certificates s2 !! id) eqn:E2; [apply A4; [done|by rewrite E2]|by apply B4].
  - intros id Hok Hid. rewrite B5; [by apply A5|done|]. destruct Hid as [|[m Hm]]; [by left|]. right. destruct (A3 id m Hm) as (m2 & H2 & _). eauto.
  - eauto.
  - by etrans.
Qed.
Lemma evolves_mono (own own' : string → Prop) s s' : (∀ id, own id → own' id) → evolves own s s' → evolves own' s s'.
Proof using Type. intros Hi [A1 A2 A3 A4 A5 A6 A7]. split; eauto. intros id Hok [Hn|Hm]; [|eauto]. apply A5; [done|]. left. eauto. Qed.
Lemma evolves_ticked own s : evolves own s (ticked s).
Proof using Type. destruct (evolves_refl own s) as [A1 A2 A3 A4 A5 A6 A7]. split; try done. simpl. lia. Qed.
Lemma evolves_lookup own s s' id : evolves own s s' → is_Some (cm_certificates s !! id) → is_Some (cm_certificates s' !! id).
Proof using Type. intros He [m Hm]. destruct (ev_kept _ _ _ He id m Hm) as (m' & -> & _). eauto. Qed.

(** *** The invariant *)

(** A key at rest is encrypted and the password opens it. *)
Definition key_at_rest (id : string) s : Prop :=
  os_ok_key (key_path_of id) = true ∧
  ∃ data pem, os_view (cm_storage s) (key_path_of id) = Some data ∧ verify_encrypted data = Ok tt ∧
              decrypt_private_key data (ce_key_encryption_password (cm_config s)) = Ok pem.
(** The fingerprint of a description is that of the certificate in the text. *)
Definition names_pem (i : CertificateInfo) (pem : string) : Prop :=
  ∃ der, head (pem_certs pem) = Some der ∧ ci_fingerprint i = calculate_fingerprint der.
Record cert_wf s (id : string) (m : CertificateMetadata) : Prop := {
  cw_id : ci_id (mt_info m) = id;
  cw_ca : ci_is_ca (mt_info m) = bool_decide (ci_role (mt_info m) = RootCa);
  cw_issuer : match ci_issuer_id (mt_info m) with
              | None => ci_role (mt_info m) = RootCa
              | Some issuer => ci_role (mt_info m) ≠ RootCa ∧ is_Some (cm_certificates s !! issuer)
              end;
  cw_status : (ci_status (mt_info m) = Active ∧ ci_revocation_reason (mt_info m) = None) ∨
              (ci_status (mt_info m) = Revoked ∧ is_Some (ci_revocation_reason (mt_info m)));
  cw_memory : ci_private_key_pem (mt_info m) = None;
  cw_path : mt_private_key_path m = Some (key_path_of id);
  cw_key : key_at_rest id s;
  cw_fingerprint : names_pem (mt_info m) (mt_pem_data m);
}.
Definition wf s : Prop := map_Forall (cert_wf s) (cm_certificates s).
Lemma key_at_rest_evolves own s s' id :
  evolves own s s' → ¬ own id ∨ is_Some (cm_certificates s !! id) → key_at_rest id s → key_at_rest id s'.
Proof using Type.
  intros He Hid (Hok & data & pem & Hv & H1 & H2). split; [done|]. exists data, pem. rewrite (ev_keys _ _ _ He id Hok Hid), (ev_config _ _ _ He). done.
Qed.
Lemma cert_wf_evolves own s s' id m m' :
  evolves own s s' → cm_certificates s !! id = Some m → cert_wf s id m → revoked_from m m' → cert_wf s' id m'.
Proof using Type.
  intros He Hm [C1 C2 C3 C4 C5 C6 C7 C8] Hr.
  assert (Hk : key_at_rest id s') by (eapply key_at_rest_evolves; eauto).
  assert (Hi : match ci_issuer_id (mt_info m) with
               | None => ci_role (mt_info m) = RootCa
               | Some issuer => ci_role (mt_info m) ≠ RootCa ∧ is_Some (cm_certificates s' !! issuer)
               end) by (destruct (ci_issuer_id _); [destruct C3; split; [done|by eapply evolves_lookup]|done]).
  destruct Hr as [->|[reason ->]]; split; try done. simpl. right. eauto.
Qed.
(** A manager that only revoked keeps the invariant. *)
Lemma wf_kept own s s' :
  wf s → evolves own s s' → (∀ id, is_Some (cm_certificates s' !! id) → is_Some (cm_certificates s !! id)) → wf s'.
Proof using Type.
  intros Hw He Hd id m' Hm'. destruct (Hd id) as [m Hm]; [eauto|]. destruct (ev_kept _ _ _ He id m Hm) as (m2 & H2 & Hr). rewrite Hm' in H2. injection H2 as <-.
  eapply cert_wf_evolves; eauto.
Qed.
Lemma wf_new own s s' id m :
  wf s → evolves own s s' → cm_certificates s' = <[id := m]> (cm_certificates s) → cert_wf s' id m → wf s'.
Proof using Type.
  intros Hw He Ec Hm id' m' Hm'. destruct (decide (id' = id)) as [->|Hne].
  - rewrite Ec, lookup_insert_eq in Hm'. congruence.
  - rewrite Ec, lookup_insert_ne in Hm' by done. eapply cert_wf_evolves; [done|done|by apply Hw|by left].
Qed.

(** *** Operations as turns *)

(** Identifiers this operation generates are its own. *)
Context (others anyone : string → Prop).
Context (uuid_inj : ∀ n k, uuid n = uuid k → n = k) (others_other : ∀ n, ¬ others (uuid n)).
Context (others_anyone : ∀ id, others id → anyone id) (anyone_own : ∀ n, anyone (uuid n)).
Context (Henv : ∀ n s, wf s → wf (env n s) ∧ evolves others s (env n s)).
Definition fresh (n : nat) s : Prop := ∀ k, (n ≤ k)%nat → cm_certificates s !! uuid k = None.
Definition holds {A} (P : CM → Prop) (f : CM → Result A * CM) (Q : A → CM → Prop) : Prop :=
  ∀ s, wf s → fresh (cm_ticks s) s → P s →
    wf (f s).2 ∧ fresh (cm_ticks (f s).2) (f s).2 ∧ evolves anyone s (f s).2 ∧ ∀ a, (f s).1 = Ok a → Q a (f s).2.
Definition stable (P : CM → Prop) : Prop := ∀ s s', evolves others s s' → P s → P s'.
Definition atomic {A} (P : CM → Prop) (f : nat → CM → Result A * CM) (Q : A → CM → Prop) : Prop :=
  ∀ n s, wf s → fresh n s → cm_ticks s = S n → P s →
    wf (f n s).2 ∧ fresh (S n) (f n s).2 ∧ cm_ticks (f n s).2 = S n ∧ evolves anyone s (f n s).2 ∧ ∀ a, (f n s).1 = Ok a → Q a (f n s).2.

Lemma turn_holds {A} P (f : nat → CM → Result A * CM) Q : stable P → atomic P f Q → holds P (turn f) Q.
Proof using Henv others_anyone others_other.
  intros HP Hf s Hw Hfr Hs. unfold turn. destruct (Henv (cm_ticks s) s Hw) as [Hw1 He1]. set (s1 := env (cm_ticks s) s) in *.
  assert (Ht : evolves others s (ticked s1)) by (etrans; [done|apply evolves_ticked]).
  assert (Hfr1 : fresh (cm_ticks s1) (ticked s1)).
  { intros k Hk. pose proof (ev_ticks _ _ _ He1). destruct (cm_certificates s1 !! uuid k) eqn:E; [|done].
    destruct (others_other k). apply (ev_new _ _ _ He1); [apply Hfr; lia|]. by rewrite E. }
  destruct (Hf (cm_ticks s1) (ticked s1)) as (H1 & H2 & H3 & H4 & H5); [|done|done|by apply (HP s)|].
  { by apply (wf_kept others s1); [|apply evolves_ticked|]. }
  split; [done|]. split; [by rewrite H3|]. split; [|done]. etrans; [|done]. by eapply evolves_mono.
Qed.
Lemma bind_holds {A B} P (f : CM → Result A * CM) Q (k : A → CM → Result B * CM) R :
  holds P f Q → (∀ a, holds (Q a) (k a) R) → holds P (λ s, sbind (f s) k) R.
Proof using Type.
  intros Hf Hk s Hw Hfr Hs. destruct (Hf s Hw Hfr Hs) as (H1 & H2 & H3 & H4). destruct (f s) as [[a|e] s1]; simpl in *; [|done].
  destruct (Hk a s1 H1 H2 (H4 a eq_refl)) as (G1 & G2 & G3 & G4). split; [done|]. split; [done|]. split; [by etrans|done].
Qed.
Lemma read_holds {A} (P : CM → Prop) (r : CM → Result A) Q : (∀ a s, r s = Ok a → P s → Q a s) → holds P (λ s, (r s, s)) Q.
Proof using Type. intros HQ s Hw Hfr Hs. simpl. split; [done|]. split; [done|]. split; [done|]. eauto. Qed.
Lemma holds_weaken {A} (P P' : CM → Prop) (f : CM → Result A * CM) (Q Q' : A → CM → Prop) :
  holds P f Q → (∀ s, P' s → P s) → (∀ a s, Q a s → Q' a s) → holds P' f Q'.
Proof using Type. intros Hf HP HQ s Hw Hfr Hs. destruct (Hf s Hw Hfr (HP s Hs)) as (H1 & H2 & H3 & H4). split_and!; eauto. Qed.
(** What no operation undoes can be kept. *)
Lemma certs_holds_frame {A} (P : CM → Prop) (F : CM → Prop) (f : CM → Result A * CM) Q :
  (∀ s s', evolves anyone s s' → F s → F s') → holds P f Q → holds (λ s, P s ∧ F s) f (λ a s, Q a s ∧ F s).
Proof using Type. intros HF Hf s Hw Hfr [Hs Hx]. destruct (Hf s Hw Hfr Hs) as (H1 & H2 & H3 & H4). split_and!; eauto. Qed.

(** *** The turns *)

Lemma quiet_atomic {A} P (f : nat → CM → Result A * CM) Q :
  (∀ n s, wf s → P s → evolves anyone s (f n s).2 ∧ cm_certificates (f n s).2 = cm_certificates s ∧ cm_ticks (f n s).2 = cm_ticks s ∧
          ∀ a, (f n s).1 = Ok a → Q a (f n s).2) → atomic P f Q.
Proof using Type.
  intros Hf n s Hw Hfr Ht Hs. destruct (Hf n s Hw Hs) as (H1 & H2 & H3 & H4). split_and!; [|..|done|done].
  - apply (wf_kept anyone s); [done|done|]. by rewrite H2.
  - intros k Hk. rewrite H2. apply Hfr. lia.
  - congruence.
Qed.
Lemma read_atomic {A} (P : CM → Prop) (r : nat → CM → Result A) Q :
  (∀ n s a, wf s → P s → r n s = Ok a → Q a s) → atomic P (λ n s, (r n s, s)) Q.
Proof using Type. intros Hr. apply quiet_atomic. intros n s Hw Hs. simpl. split; [done|]. split; [done|]. split; [done|]. eauto. Qed.
Lemma evolves_storage own s o :
  (∀ id, os_ok_key (key_path_of id) = true → ¬ own id ∨ is_Some (cm_certificates s !! id) →
         os_view o (key_path_of id) = os_view (cm_storage s) (key_path_of id)) → evolves own s (with_storage o s).
Proof using Type. intros Hk. destruct (evolves_refl own s) as [A1 A2 A3 A4 A5 A6 A7]. by split. Qed.
Lemma audit_holds op id subject result P : (∀ s s', evolves anyone s s' → P s → P s') → holds P (audit_log op id subject result) (λ _, P).
Proof using Henv others_anyone others_other.
  intros HP. apply turn_holds; [intros s s' He; apply HP; by eapply evolves_mono|]. apply quiet_atomic. intros n s Hw Hs. unfold audit_entry.
  assert (He : evolves anyone s (if ce_audit_enabled (cm_config s) then with_audit (cm_audit_log s ++ [mkAudit (clock n) op id subject result]) s else s)).
  { destruct (ce_audit_enabled _); [|done]. destruct (evolves_refl anyone s) as [A1 A2 A3 A4 A5 A6 A7]. split; try done. simpl. by apply prefix_app_r. }
  destruct (ce_audit_enabled _); simpl; split_and!; eauto.
Qed.

Context (list_ok : os_ok_key cert_list_path = true) (crl_ok : os_ok_key crl_path = true).
Lemma put_quiet path data P :
  os_ok_key path = true → (∀ id, key_path_of id ≠ path) → (∀ s s', evolves anyone s s' → P s → P s') → atomic P (put_object path data) (λ _, P).
Proof using Type.
  intros Hok Hne HP. apply quiet_atomic. intros n s Hw Hs. unfold put_object. destruct (os_put path data (cm_storage s)) as [r o] eqn:E.
  destruct (os_put_law _ _ _ _ _ Hok E) as (Ho & _ & _).
  assert (He : evolves anyone s (with_storage o s)) by (apply evolves_storage; intros; by apply Ho).
  destruct r; simpl; split_and!; eauto.
Qed.
Lemma persist_certificates_holds P : (∀ s s', evolves anyone s s' → P s → P s') → holds P persist_certificates (λ _, P).
Proof using Henv others_anyone others_other list_ok.
  intros HP. assert (HP' : stable P) by (intros s s' He; apply HP; by eapply evolves_mono).
  pose proof (bind_holds P (turn (λ _ s, (Ok (to_json (cm_certificates s)), s))) (λ _, P) (λ data, turn (put_object cert_list_path data)) (λ _, P)) as H'.
  apply H'; [apply turn_holds; [done|]; by apply read_atomic|]. intros data. apply turn_holds; [done|]. apply put_quiet; [done| |done]. done.
Qed.
Lemma persist_crl_holds P : (∀ s s', evolves anyone s s' → P s → P s') → holds P persist_crl (λ _, P).
Proof using Henv others_anyone others_other crl_ok.
  intros HP. assert (HP' : stable P) by (intros s s' He; apply HP; by eapply evolves_mono).
  pose proof (bind_holds P (turn (λ _ s, (Ok (to_json (cm_crl s)), s))) (λ _, P) (λ data, turn (put_object crl_path data)) (λ _, P)) as H'.
  apply H'; [apply turn_holds; [done|]; by apply read_atomic|]. intros data. apply turn_holds; [done|]. apply put_quiet; [done| |done]. done.
Qed.

(** *** Storing *)

Context {crypto : KeyCryptoLaws} (salt_len : ∀ n, length (salt_of n) = SALT_SIZE) (nonce_len : ∀ n, length (nonce_of n) = NONCE_SIZE).
Context (pem_utf8 : ∀ c : Cert, utf8_valid (str_bytes (serialize_private_key_pem c)) = true).
Context (own_ok : ∀ n, os_ok_key (key_path_of (uuid n)) = true).
Lemma key_path_inj id id' : key_path_of id = key_path_of id' → id = id'.
Proof using Type.
  unfold key_path_of. intros E. by apply str_app_inj_l, str_app_inj_r in E.
Qed.
(** The description of a certificate whose key is stored and that is not yet in the table *)
Definition pending (pem : string) (role : CertificateRole) (issuer_id : option string) (d : CertificateInfo * string) s : Prop :=
  let i := d.1 in
  (∃ n, ci_id i = uuid n ∧ (n < cm_ticks s)%nat) ∧ cm_certificates s !! ci_id i = None ∧ d.2 = key_path_of (ci_id i) ∧
  ci_role i = role ∧ ci_issuer_id i = issuer_id ∧ ci_is_ca i = bool_decide (role = RootCa) ∧ ci_status i = Active ∧
  ci_revocation_reason i = None ∧ ci_private_key_pem i = None ∧ names_pem i pem ∧ key_at_rest (ci_id i) s.
Lemma pending_stable pem role issuer_id d : stable (pending pem role issuer_id d).
Proof using others_other.
  intros s s' He ((n & En & Hn) & Hno & Hrest). pose proof (ev_ticks _ _ _ He). unfold pending. split; [exists n; split; [done|lia]|].
  split.
  - destruct (cm_certificates s' !! ci_id d.1) eqn:E; [|done]. destruct (others_other n). rewrite <- En. apply (ev_new _ _ _ He); [done|by rewrite E].
  - destruct Hrest as (H1 & H2 & H3 & H4 & H5 & H6 & H7 & H9 & H8). split_and!; try done. eapply key_at_rest_evolves; [done| |done]. left. by rewrite En.
Qed.
Definition issuer_known (role : CertificateRole) (issuer_id : option string) s : Prop :=
  match issuer_id with
  | None => role = RootCa
  | Some issuer => role ≠ RootCa ∧ is_Some (cm_certificates s !! issuer)
  end.
Lemma issuer_known_evolves role issuer_id own s s' : evolves own s s' → issuer_known role issuer_id s → issuer_known role issuer_id s'.
Proof using Type. intros He. unfold issuer_known. destruct issuer_id; [|done]. intros [H1 H2]. split; [done|]. by eapply evolves_lookup. Qed.
Lemma store_key_atomic pem c role issuer_id (P : CM → Prop) :
  (∀ s s', evolves anyone s s' → P s → P s') →
  atomic P (store_key pem (serialize_private_key_pem c) role issuer_id) (λ d s, pending pem role issuer_id d s ∧ P s).
Proof using crypto salt_len nonce_len pem_utf8 own_ok anyone_own uuid_inj.
  intros HP n s Hw Hfr Ht Hs. unfold store_key.
  assert (Hrefl : wf s ∧ fresh (S n) s ∧ cm_ticks s = S n ∧ evolves anyone s s) by (split_and!; [done|intros k Hk; apply Hfr; lia|done|done]).
  destruct (describe (uuid n) pem role issuer_id n s) as [info|e] eqn:Ed; [|destruct Hrefl as (?&?&?&?); by split_and!].
  unfold store_private_key. destruct (encrypt_private_key _ _ _ _) as [data|e] eqn:Ee; [|destruct Hrefl as (?&?&?&?); by split_and!].
  destruct (encrypt_decrypt _ _ _ _ _ (salt_len n) (nonce_len n) (pem_utf8 c) Ee) as [Hv Hd].
  unfold put_object. destruct (os_put (key_path_of (uuid n)) data (cm_storage s)) as [r o] eqn:Ep.
  destruct (os_put_law _ _ _ _ _ (own_ok n) Ep) as (Ho & _ & Hr).
  assert (He : evolves anyone s (with_storage o s)).
  { apply evolves_storage. intros id Hok Hid. apply Ho; [done|]. intros ->%key_path_inj. destruct Hid as [Hn|[m Hm]]; [by destruct Hn|].
    by rewrite Hfr in Hm. }
  assert (Hw' : wf (with_storage o s)) by (by apply (wf_kept anyone s)).
  assert (Hf' : fresh (S n) (with_storage o s)) by (intros k Hk; apply Hfr; lia).
  destruct r as [u|e]; simpl; [|by split_and!]. split_and!; try done. intros a [= <-]. split; [|by eapply HP]. unfold pending. simpl.
  assert (Hi : ci_id info = uuid n ∧ ci_role info = role ∧ ci_issuer_id info = issuer_id ∧ ci_is_ca info = bool_decide (role = RootCa) ∧
               ci_status info = Active ∧ ci_revocation_reason info = None ∧ ci_private_key_pem info = None ∧ names_pem info pem).
  { unfold names_pem. unfold describe in Ed. destruct (head _) as [der|]; simpl in Ed; [|done]. destruct (x509_from_der _); simpl in Ed; [|done].
    destruct (system_time _); simpl in Ed; [|done]. destruct (system_time _); simpl in Ed; [|done]. destruct (detect_key_type_and_size _). injection Ed as <-. split_and!; try done. by exists der. }
  destruct Hi as (-> & H1 & H2 & H3 & H4 & H5 & H6 & H7). split_and!; try done.
  - exists n. split; [done|lia].
  - apply Hfr. lia.
  - split; [apply own_ok|]. exists data, (serialize_private_key_pem c). done.
Qed.
Lemma insert_atomic role issuer_id d pem by_ :
  atomic (λ s, pending pem role issuer_id d s ∧ issuer_known role issuer_id s) (insert_certificate (mkCertMetadata d.1 pem (Some d.2) by_ 1))
    (λ _ s, is_Some (cm_certificates s !! ci_id d.1)).
Proof using anyone_own uuid_inj.
  intros n s Hw Hfr Ht [((k & Ek & Hk) & Hno & H1 & H2 & H3 & H4 & H5 & H6 & H7 & H9 & H8) Hi]. unfold insert_certificate. simpl.
  set (m := mkCertMetadata d.1 pem (Some d.2) by_ 1). set (s' := with_certificates _ s).
  assert (He : evolves anyone s s').
  { destruct (evolves_refl anyone s) as [A1 A2 A3 A4 A5 A6 A7]. split; try done; simpl.
    - intros id m' Hm'. exists m'. rewrite lookup_insert_ne by congruence. split; [done|by left].
    - intros id Hn Hs. destruct (decide (id = ci_id d.1)) as [->|]; [rewrite Ek; apply anyone_own|].
      rewrite lookup_insert_ne in Hs by done. rewrite Hn in Hs. by destruct Hs. }
  split_and!; try done.
  - apply (wf_new anyone s s' (ci_id d.1) m); [done|done|done|]. split; simpl; try done.
    + by rewrite H2.
    + apply (issuer_known_evolves _ _ _ _ _ He) in Hi. unfold issuer_known in Hi. rewrite H2, H3. done.
    + by left.
    + congruence.
  - intros j Hj. simpl. rewrite lookup_insert_ne; [apply Hfr; lia|]. rewrite Ek. intros E%uuid_inj. lia.
  - intros _ _. simpl. rewrite lookup_insert_eq. eauto.
Qed.

Lemma evolves_stable (P : CM → Prop) : (∀ s s', evolves anyone s s' → P s → P s') → stable P.
Proof using others_anyone. intros HP s s' He. apply HP. by eapply evolves_mono. Qed.
Lemma read_turn_holds {A} (P : CM → Prop) (r : nat → CM → Result A) Q :
  (∀ s s', evolves anyone s s' → P s → P s') → (∀ n s a, wf s → P s → r n s = Ok a → Q a s) → holds P (turn (λ n s, (r n s, s))) Q.
Proof using Henv others_anyone others_other. intros HP HQ. apply turn_holds; [by apply evolves_stable|]. by apply read_atomic. Qed.
Lemma known_evolves (id : string) s s' : evolves anyone s s' → is_Some (cm_certificates s !! id) → is_Some (cm_certificates s' !! id).
Proof using Type. apply evolves_lookup. Qed.
Lemma store_signed_holds pem c role issuer_id by_ :
  holds (issuer_known role issuer_id) (store_signed_certificate pem (serialize_private_key_pem c) role issuer_id by_)
    (λ info s, is_Some (cm_certificates s !! ci_id info)).
Proof using Henv others_anyone others_other list_ok crypto salt_len nonce_len pem_utf8 own_ok anyone_own uuid_inj.
  unfold store_signed_certificate. eapply bind_holds.
  { apply turn_holds; [intros s s' He; by apply (issuer_known_evolves _ _ others)|]. apply store_key_atomic. intros s s' He. by apply (issuer_known_evolves _ _ anyone). }
  intros d. eapply bind_holds.
  { apply turn_holds; [|apply insert_atomic]. intros s s' He [H1 H2]. split; [by eapply pending_stable|by eapply (issuer_known_evolves _ _ others)]. }
  intros u. eapply bind_holds; [apply persist_certificates_holds, known_evolves|]. intros u'. apply read_holds. by intros a s [= <-].
Qed.
Lemma store_certificate_holds c by_ :
  holds (λ _, True) (store_certificate c RootCa None by_) (λ info s, is_Some (cm_certificates s !! ci_id info)).
Proof using Henv others_anyone others_other list_ok crypto salt_len nonce_len pem_utf8 own_ok anyone_own uuid_inj.
  unfold store_certificate. eapply bind_holds; [by apply (read_turn_holds _ _ (λ _ _, True))|]. intros pem.
  eapply holds_weaken; [apply store_signed_holds|done|done].
Qed.
Lemma generate_root_ca_holds params : holds (λ _, True) (generate_root_ca params) (λ info s, is_Some (cm_certificates s !! ci_id info)).
Proof using Henv others_anyone others_other list_ok crypto salt_len nonce_len pem_utf8 own_ok anyone_own uuid_inj.
  unfold generate_root_ca. eapply bind_holds; [by apply audit_holds|]. intros u.
  eapply bind_holds; [by apply (read_turn_holds _ _ (λ _ _, True))|]. intros c.
  eapply bind_holds; [apply store_certificate_holds|]. intros info.
  eapply bind_holds; [apply audit_holds, known_evolves|]. intros u'. apply read_holds. by intros a s [= <-].
Qed.

(** The issuer is in the table, whatever it is. *)
Lemma reconstruct_holds cert_id : holds (λ _, True) (reconstruct_rcgen_certificate cert_id) (λ _ s, is_Some (cm_certificates s !! cert_id)).
Proof using Henv others_anyone others_other.
  unfold reconstruct_rcgen_certificate.
  apply (bind_holds _ _ (λ m s, is_Some (cm_certificates s !! cert_id) ∧ ci_private_key_pem (mt_info m) = None ∧
    mt_private_key_path m = Some (key_path_of cert_id) ∧ os_ok_key (key_path_of cert_id) = true)).
  { apply read_turn_holds; [done|]. intros n s m Hw _ Hm. destruct (cm_certificates s !! cert_id) eqn:E; [|done]. injection Hm as ->.
    destruct (Hw cert_id m E) as [_ _ _ _ H5 H6 [H7 _]]. rewrite H5, H6. split_and!; eauto. }
  intros m s Hw Hfr (Hk & E1 & E2 & Hok). rewrite E1, E2. revert s Hw Hfr Hk. fold (holds (λ s, is_Some (cm_certificates s !! cert_id))
    (λ s, sbind (turn (load_key (key_path_of cert_id)) s) (λ pem s, (rebuild m pem, s))) (λ _ s, is_Some (cm_certificates s !! cert_id))).
  apply (bind_holds _ _ (λ _ s, is_Some (cm_certificates s !! cert_id))); [|intros pem; apply read_holds; done].
  apply turn_holds; [apply evolves_stable, known_evolves|]. apply quiet_atomic. intros n s Hw Hk. unfold load_key.
  destruct (os_get (key_path_of cert_id) (cm_storage s)) as [r o] eqn:E. destruct (os_get_law _ _ _ _ Hok E) as (Ho & _ & _).
  assert (He : evolves anyone s (with_storage o s)) by (apply evolves_storage; auto).
  destruct r; simpl; split_and!; eauto.
Qed.
Lemma issue_certificate_holds request : holds (λ _, True) (issue_certificate request) (λ info s, is_Some (cm_certificates s !! ci_id info)).
Proof using Henv others_anyone others_other list_ok crypto salt_len nonce_len pem_utf8 own_ok anyone_own uuid_inj.
  unfold issue_certificate. cbv zeta. eapply bind_holds; [by apply audit_holds|]. intros u.
  apply (bind_holds _ _ (λ _ _, True)); [by apply read_holds|]. intros template.
  eapply bind_holds; [by apply (read_turn_holds _ _ (λ _ _, True))|]. intros c.
  apply (bind_holds _ _ (λ info s, is_Some (cm_certificates s !! ci_id info))).
  2: { intros info. eapply bind_holds; [apply audit_holds, known_evolves|]. intros u'. apply read_holds. by intros a s [= <-]. }
  destruct (cq_issuer_id request) as [issuer|] eqn:Ei; destruct (decide (cq_role request = RootCa)) as [Er|Er].
  - by apply read_holds.
  - eapply bind_holds; [apply reconstruct_holds|]. intros issuer_cert.
    apply (bind_holds _ _ (λ _ s, is_Some (cm_certificates s !! issuer))); [by apply read_turn_holds; [apply known_evolves|]|]. intros der.
    eapply holds_weaken; [apply store_signed_holds| |done]. intros s Hs. done.
  - rewrite Er. apply store_certificate_holds.
  - by apply read_holds.
Qed.

(** *** Revocation *)

Definition revoked (id : string) s : Prop :=
  ∃ m, cm_certificates s !! id = Some m ∧ ci_status (mt_info m) = Revoked ∧
       is_Some (rl_revoked_certificates (cm_crl s) !! ci_serial_number (mt_info m)).
Definition marked (id serial : string) s : Prop :=
  ∃ m, cm_certificates s !! id = Some m ∧ ci_status (mt_info m) = Revoked ∧ ci_serial_number (mt_info m) = serial.
Lemma marked_evolves own id serial s s' : evolves own s s' → marked id serial s → marked id serial s'.
Proof using Type.
  intros He (m & Hm & H1 & H2). destruct (ev_kept _ _ _ He id m Hm) as (m' & Hm' & Hr). exists m'. split; [done|].
  by destruct Hr as [->|[r ->]].
Qed.
Lemma revoked_evolves own id s s' : evolves own s s' → revoked id s → revoked id s'.
Proof using Type.
  intros He (m & Hm & H1 & H2). destruct (marked_evolves own id (ci_serial_number (mt_info m)) s s' He) as (m' & Hm' & H1' & H2'); [by exists m|].
  exists m'. split; [done|]. split; [done|]. rewrite H2'. by apply (ev_crl _ _ _ He).
Qed.
Lemma mark_atomic id reason : atomic (λ _, True) (mark_revoked id reason) (λ _ s, ∃ serial, marked id serial s).
Proof using Type.
  intros n s Hw Hfr Ht _. unfold mark_revoked. destruct (cm_certificates s !! id) as [m|] eqn:Em; simpl.
  2: { split_and!; try done. intros k Hk. apply Hfr. lia. }
  set (s' := with_certificates _ s).
  assert (He : evolves anyone s s').
  { destruct (evolves_refl anyone s) as [A1 A2 A3 A4 A5 A6 A7]. split; try done; simpl.
    - intros id' m' Hm'. destruct (decide (id' = id)) as [->|]; [rewrite lookup_insert_eq|rewrite lookup_insert_ne by done; eauto].
      rewrite Em in Hm'. injection Hm' as <-. eexists. split; [done|]. right. eauto.
    - intros id' Hn [m' Hm']. destruct (decide (id' = id)) as [->|]; [congruence|]. rewrite lookup_insert_ne in Hm' by done. congruence. }
  split_and!; try done.
  - apply (wf_kept anyone s); [done|done|]. intros id' [m' Hm']. simpl in Hm'.
    destruct (decide (id' = id)) as [->|]; [rewrite Em; eauto|]. rewrite lookup_insert_ne in Hm' by done. eauto.
  - intros k Hk. simpl. rewrite lookup_insert_ne; [apply Hfr; lia|]. intros ->. rewrite Hfr in Em by lia. done.
  - intros _ _. exists (ci_serial_number (mt_info m)), (with_revoked reason m). simpl. by rewrite lookup_insert_eq.
Qed.
Lemma revoke_holds id reason : holds (λ _, True) (revoke_certificate id reason) (λ _, revoked id).
Proof using Henv others_anyone others_other list_ok crl_ok.
  assert (Hs : ∀ s s', evolves anyone s s' → revoked id s → revoked id s') by (intros s s'; apply revoked_evolves).
  unfold revoke_certificate. eapply bind_holds; [by apply audit_holds|]. intros u.
  eapply bind_holds; [apply turn_holds; [done|apply mark_atomic]|]. intros u1.
  apply (bind_holds _ _ (λ found s, ∃ cert, found = Some cert ∧ marked id (ci_serial_number cert) s)).
  { apply read_turn_holds; [intros s s' He [serial Hm]; exists serial; by apply (marked_evolves anyone _ _ s)|].
    intros n s found Hw (serial & m & Hm & H1 & H2) [= <-]. exists (mt_info m). rewrite Hm. split; [done|]. by exists m. }
  intros found. apply (bind_holds _ _ (λ _, revoked id)).
  { intros s Hw Hfr (cert & -> & Hm). revert s Hw Hfr Hm. fold (holds (marked id (ci_serial_number cert)) (turn (add_to_crl (ci_serial_number cert) reason)) (λ _, revoked id)).
    apply turn_holds; [intros s s'; apply marked_evolves|]. apply quiet_atomic. intros n s Hw (m & Hm & H1 & H2). unfold add_to_crl. simpl.
    split; [|split; [done|split; [done|]]].
    - destruct (evolves_refl anyone s) as [A1 A2 A3 A4 A5 A6 A7]. split; try done. simpl. intros serial Hs'. rewrite lookup_insert_is_Some'. by right.
    - intros _ _. exists m. simpl. rewrite H2, lookup_insert_eq. eauto. }
  intros u2. eapply bind_holds; [by apply persist_certificates_holds|]. intros u3.
  eapply bind_holds; [by apply persist_crl_holds|]. intros u4. by apply audit_holds.
Qed.
Lemma renew_holds id : holds (λ _, True) (renew_certificate id) (λ info s, is_Some (cm_certificates s !! ci_id info)).
Proof using Henv others_anyone others_other list_ok crl_ok crypto salt_len nonce_len pem_utf8 own_ok anyone_own uuid_inj.
  unfold renew_certificate. eapply bind_holds; [by apply audit_holds|]. intros u.
  eapply bind_holds; [by apply (read_turn_holds _ _ (λ _ _, True))|]. intros found.
  apply (bind_holds _ _ (λ _ _, True)); [by apply read_holds|]. intros existing. destruct (negb _); [by apply read_holds|].
  eapply bind_holds; [eapply holds_weaken; [apply revoke_holds|done|]; by instantiate (1 := λ _ _, True)|]. intros u1.
  eapply bind_holds; [apply issue_certificate_holds|]. intros info.
  eapply bind_holds; [apply audit_holds, known_evolves|]. intros u'. apply read_holds. by intros a s [= <-].
Qed.
Lemma rotate_holds id : holds (λ _, True) (rotate_certificate id) (λ info s, is_Some (cm_certificates s !! ci_id info)).
Proof using Henv others_anyone others_other list_ok crl_ok crypto salt_len nonce_len pem_utf8 own_ok anyone_own uuid_inj.
  unfold rotate_certificate. eapply bind_holds; [by apply audit_holds|]. intros u. eapply bind_holds; [apply renew_holds|]. intros info.
  eapply bind_holds; [apply audit_holds, known_evolves|]. intros u'. apply read_holds. by intros a s [= <-].
Qed.
(** A revoked certificate is not renewed. *)
Lemma renew_revoked id : holds (revoked id) (renew_certificate id) (λ _ _, False).
Proof using Henv others_anyone others_other.
  assert (Hs : ∀ s s', evolves anyone s s' → revoked id s → revoked id s') by (intros s s'; apply revoked_evolves).
  unfold renew_certificate. eapply bind_holds; [by apply audit_holds|]. intros u.
  apply (bind_holds _ _ (λ found _, ∃ cert, found = Some cert ∧ ci_status cert = Revoked)).
  { apply read_turn_holds; [done|]. intros n s found Hw (m & Hm & H1 & _) [= <-]. rewrite Hm. by exists (mt_info m). }
  intros found. apply (bind_holds _ _ (λ cert _, ci_status cert = Revoked)).
  { apply read_holds. intros a s Ha (cert & -> & H1). by injection Ha as <-. }
  intros cert s Hw Hfr H1. rewrite H1. simpl. by split_and!.
Qed.

Inductive CertOp :=
  | CoGenerate (params : CaGenerationParams)
  | CoIssue (request : CertificateRequest)
  | CoRenew (cert_id : string)
  | CoRotate (cert_id : string)
  | CoRevoke (cert_id : string) (reason : RevocationReason).
Definition run_op (op : CertOp) s : Result unit * CM :=
  match op with
  | CoGenerate params => let! (_u, s) := generate_root_ca params s in (Ok tt, s)
  | CoIssue request => let! (_u, s) := issue_certificate request s in (Ok tt, s)
  | CoRenew id => let! (_u, s) := renew_certificate id s in (Ok tt, s)
  | CoRotate id => let! (_u, s) := rotate_certificate id s in (Ok tt, s)
  | CoRevoke id reason => revoke_certificate id reason s
  end.
Lemma run_op_holds op : holds (λ _, True) (run_op op) (λ _ _, True).
Proof using Henv others_anyone others_other list_ok crl_ok crypto salt_len nonce_len pem_utf8 own_ok anyone_own uuid_inj.
  destruct op; unfold run_op.
  - eapply bind_holds; [apply generate_root_ca_holds|]. intros u. by apply read_holds.
  - eapply bind_holds; [apply issue_certificate_holds|]. intros u. by apply read_holds.
  - eapply bind_holds; [apply renew_holds|]. intros u. by apply read_holds.
  - eapply bind_holds; [apply rotate_holds|]. intros u. by apply read_holds.
  - eapply holds_weaken; [apply revoke_holds|done|done].
Qed.
(** C30: Every operation, whatever storage fails and whatever other operations do
    between its turns, keeps the table sound: a certificate is listed under its
    own identifier, it is an authority and without an issuer exactly when it is
    a root, its issuer is in the table, it is active or revoked with a reason,
    its fingerprint is that of its text, and its key is at rest only, encrypted,
    and opened by the password.  No
    certificate, revocation, key or audit entry is lost or replaced. *)
Theorem certificate_store_sound op s :
  wf s → fresh (cm_ticks s) s →
  let s' := (run_op op s).2 in wf s' ∧ fresh (cm_ticks s') s' ∧ evolves anyone s s'.
Proof using Henv others_anyone others_other list_ok crl_ok crypto salt_len nonce_len pem_utf8 own_ok anyone_own uuid_inj.
  intros Hw Hfr. destruct (run_op_holds op s Hw Hfr I) as (H1 & H2 & H3 & _). done.
Qed.
(** Once a certificate is revoked it stays so, through everything that any
    operations do later: its status says so, its fingerprint is among the
    revoked ones, no chain that starts with its serial number validates, and it
    is not renewed. *)
Theorem revocation_final id reason s s' own s'' :
  wf s → fresh (cm_ticks s) s → revoke_certificate id reason s = (Ok tt, s') → evolves own s' s'' →
  get_certificate_status id s'' = Ok Revoked ∧
  (∃ m, cm_certificates s'' !! id = Some m ∧ ci_fingerprint (mt_info m) ∈ get_revoked_certificate_fingerprints s'' ∧
     ∀ now der rest c, x509_from_der der = Some c → hex_encode (xc_serial c) = ci_serial_number (mt_info m) →
       vd_is_valid (validate_certificate_chain now (der :: rest) s'') = false) ∧
  (wf s'' → fresh (cm_ticks s'') s'' → ∀ info, (renew_certificate id s'').1 ≠ Ok info).
Proof using Henv others_anyone others_other list_ok crl_ok.
  intros Hw Hfr Er He. destruct (revoke_holds id reason s Hw Hfr I) as (_ & _ & _ & Hr). rewrite Er in Hr.
  specialize (Hr tt eq_refl). apply (revoked_evolves own) with (s' := s'') in Hr; [|done].
  pose proof Hr as (m & Hm & H1 & H2). split; [unfold get_certificate_status; by rewrite Hm; simpl; rewrite H1|]. split.
  - exists m. split; [done|]. split.
    + unfold get_revoked_certificate_fingerprints, values. apply list_elem_of_fmap. exists m. split; [done|]. apply list_elem_of_filter. split; [done|].
      apply list_elem_of_fmap. exists (id, m). split; [done|]. by apply elem_of_map_to_list.
    + intros now der rest c Hc Hs. unfold validate_certificate_chain. rewrite Hc. simpl. apply bool_decide_eq_false. unfold chain_errors.
      rewrite Hs, bool_decide_eq_true_2 by done. intros E. by apply app_nil in E as [_ [_ E]%app_nil].
  - intros Hw' Hfr' info E. destruct (renew_revoked id s'' Hw' Hfr' Hr) as (_ & _ & _ & Hn). by apply (Hn info).
Qed.

(** ** Restart *)

(** Operations one after another, on storage that does not fail *)
Context (Hidle : ∀ n s, env n s = s).
Definition persisted s : Prop :=
  os_reliable (cm_storage s) ∧
  (os_view (cm_storage s) cert_list_path = Some (to_json (cm_certificates s)) ∨
   os_view (cm_storage s) cert_list_path = None ∧ cm_certificates s = ∅).
Definition keeps {A} (P : CM → Prop) (f : CM → Result A * CM) : Prop :=
  ∀ s, wf s → fresh (cm_ticks s) s → P s → persisted s → persisted (f s).2.
Lemma keeps_bind {A B} P (f : CM → Result A * CM) Q (k : A → CM → Result B * CM) :
  holds P f Q → keeps P f → (∀ a, keeps (Q a) (k a)) → keeps P (λ s, sbind (f s) k).
Proof using Type.
  intros Hf Hkf Hk s Hw Hfr Hs Hp. destruct (Hf s Hw Hfr Hs) as (H1 & H2 & _ & H4). specialize (Hkf s Hw Hfr Hs Hp).
  destruct (f s) as [[a|e] s1]; simpl in *; [|done]. apply Hk; auto.
Qed.
Lemma keeps_turn {A} (P : CM → Prop) (f : nat → CM → Result A * CM) :
  stable P → (∀ n s, wf s → P s → persisted s → persisted (f n s).2) → keeps P (turn f).
Proof using Hidle.
  intros HP Hf s Hw Hfr Hs Hp. unfold turn. rewrite Hidle. apply Hf; [|by eapply HP; [apply evolves_ticked|]|done].
  by apply (wf_kept others s); [|apply evolves_ticked|].
Qed.
Lemma keeps_read {A} (P : CM → Prop) (r : CM → Result A) : keeps P (λ s, (r s, s)).
Proof using Type. by intros s. Qed.
Lemma keeps_audit op id subject result P : stable P → keeps P (audit_log op id subject result).
Proof using Hidle. intros HP. apply keeps_turn; [done|]. intros n s _ _ Hp. unfold audit_entry. by destruct (ce_audit_enabled _). Qed.
Lemma put_persisted path data n s :
  os_ok_key path = true → path ≠ cert_list_path → persisted s → persisted (put_object path data n s).2.
Proof using list_ok.
  intros Hok Hne [Hrel Hv]. unfold put_object. destruct (os_put path data (cm_storage s)) as [r o] eqn:E.
  destruct (os_put_law _ _ _ _ _ Hok E) as (Ho & Hr & _). specialize (Ho cert_list_path list_ok ltac:(done)). unfold persisted.
  destruct r; simpl; rewrite Ho; auto.
Qed.
Lemma persist_restores s : os_reliable (cm_storage s) → persisted (persist_certificates s).2.
Proof using Hidle list_ok.
  intros Hrel. unfold persist_certificates, turn. rewrite !Hidle. simpl. unfold put_object. simpl.
  destruct (os_put cert_list_path _ (cm_storage s)) as [r o] eqn:E. destruct (os_put_law _ _ _ _ _ list_ok E) as (_ & Hr & Hv).
  destruct r as [u|e]; [|by destruct Hv]. split; simpl; auto.
Qed.
Lemma keeps_persist_crl P : stable P → keeps P persist_crl.
Proof using Hidle list_ok crl_ok. intros HP s Hw Hfr Hs Hp. unfold persist_crl, turn. rewrite !Hidle. by apply put_persisted. Qed.
Lemma store_key_persisted pem key role issuer_id n s : persisted s → persisted (store_key pem key role issuer_id n s).2.
Proof using list_ok own_ok.
  intros Hp. unfold store_key. destruct (describe _ _ _ _ _ _); [|done]. unfold store_private_key. destruct (encrypt_private_key _ _ _ _) as [data|]; [|done].
  pose proof (put_persisted (key_path_of (uuid n)) data n s (own_ok n) ltac:(done) Hp). by destruct (put_object _ _ _ _) as [[] ?].
Qed.
Lemma keeps_store_signed pem c role issuer_id by_ : keeps (issuer_known role issuer_id) (store_signed_certificate pem (serialize_private_key_pem c) role issuer_id by_).
Proof using Hidle Henv others_anyone others_other list_ok crypto salt_len nonce_len pem_utf8 own_ok anyone_own uuid_inj.
  unfold store_signed_certificate. assert (Hst : stable (issuer_known role issuer_id)) by (intros s s'; apply issuer_known_evolves). eapply keeps_bind.
  { apply turn_holds; [done|]. apply store_key_atomic. intros s s' He. by apply (issuer_known_evolves _ _ anyone). }
  { apply keeps_turn; [done|]. intros n s _ _. apply store_key_persisted. }
  intros d s _ _ _ [Hrel _]. set (s1 := turn (insert_certificate _) s).
  assert (Hs1 : s1.1 = Ok tt ∧ os_reliable (cm_storage s1.2)) by (unfold s1, turn; by rewrite Hidle). destruct s1 as [r s1]. simpl in *. destruct Hs1 as [-> Hrel1].
  simpl. pose proof (persist_restores s1 Hrel1). by destruct (persist_certificates s1) as [[] ?].
Qed.
Lemma keeps_store c by_ : keeps (λ _, True) (store_certificate c RootCa None by_).
Proof using Hidle Henv others_anyone others_other list_ok crypto salt_len nonce_len pem_utf8 own_ok anyone_own uuid_inj.
  unfold store_certificate. eapply keeps_bind; [by apply (read_turn_holds _ _ (λ _ _, True))|by apply keeps_turn|].
  intros pem s Hw Hfr _. by apply keeps_store_signed.
Qed.
Lemma keeps_generate params : keeps (λ _, True) (generate_root_ca params).
Proof using Hidle Henv others_anyone others_other list_ok crypto salt_len nonce_len pem_utf8 own_ok anyone_own uuid_inj.
  unfold generate_root_ca. eapply keeps_bind; [by apply audit_holds|by apply keeps_audit|]. intros u.
  eapply keeps_bind; [by apply (read_turn_holds _ _ (λ _ _, True))|by apply keeps_turn|]. intros c.
  eapply keeps_bind; [apply store_certificate_holds|apply keeps_store|]. intros info.
  eapply keeps_bind; [apply audit_holds, known_evolves|apply keeps_audit, evolves_stable, known_evolves|]. intros u'. apply keeps_read.
Qed.
Lemma keeps_reconstruct cert_id : keeps (λ _, True) (reconstruct_rcgen_certificate cert_id).
Proof using Hidle list_ok.
  intros s Hw Hfr _ Hp. unfold reconstruct_rcgen_certificate, turn, read_metadata. rewrite Hidle. simpl.
  destruct (cm_certificates s !! cert_id) as [m|] eqn:Em; simpl; [|done]. destruct (Hw cert_id m Em) as [_ _ _ _ -> -> [Hok _]].
  rewrite Hidle. unfold load_key. simpl. destruct (os_get (key_path_of cert_id) (cm_storage s)) as [r o] eqn:E. destruct (os_get_law _ _ _ _ Hok E) as (Ho & Hr & _).
  destruct Hp as [Hrel Hv]. assert (Hp' : persisted (with_storage o (ticked (ticked s)))) by (split; simpl; [auto|by rewrite Ho]).
  destruct r as [data|]; simpl; [|done]. destruct (verify_encrypted data); simpl; [|done]. by destruct (decrypt_private_key _ _).
Qed.
Lemma keeps_issue request : keeps (λ _, True) (issue_certificate request).
Proof using Hidle Henv others_anyone others_other list_ok crypto salt_len nonce_len pem_utf8 own_ok anyone_own uuid_inj.
  unfold issue_certificate. cbv zeta. eapply keeps_bind; [by apply audit_holds|by apply keeps_audit|]. intros u.
  apply (keeps_bind _ _ (λ _ _, True)); [by apply read_holds|apply keeps_read|]. intros template.
  eapply keeps_bind; [by apply (read_turn_holds _ _ (λ _ _, True))|by apply keeps_turn|]. intros c.
  assert (Hlast : ∀ info, keeps (λ s, is_Some (cm_certificates s !! ci_id info))
    (λ s, sbind (audit_log "issue_certificate" (Some (ci_id info)) (default "unknown" (debug_common_name (cq_subject request))) "SUCCESS" s) (λ _ s, (Ok info, s)))).
  { intros info. eapply keeps_bind; [apply audit_holds, known_evolves|apply keeps_audit, evolves_stable, known_evolves|]. intros u'. apply keeps_read. }
  destruct (cq_issuer_id request) as [issuer|] eqn:Ei; destruct (decide (cq_role request = RootCa)) as [Er|Er].
  - by intros s.
  - apply (keeps_bind _ _ (λ info s, is_Some (cm_certificates s !! ci_id info))); [| |apply Hlast].
    + eapply bind_holds; [apply reconstruct_holds|]. intros ic. apply (bind_holds _ _ (λ _ s, is_Some (cm_certificates s !! issuer))); [by apply read_turn_holds; [apply known_evolves|]|].
      intros der. eapply holds_weaken; [apply store_signed_holds| |done]. intros s Hs. done.
    + eapply keeps_bind; [apply reconstruct_holds|apply keeps_reconstruct|]. intros ic.
      apply (keeps_bind _ _ (λ _ s, is_Some (cm_certificates s !! issuer))); [by apply read_turn_holds; [apply known_evolves|]|by apply keeps_turn; [apply evolves_stable, known_evolves|]|].
      intros der s Hw Hfr Hs. by apply keeps_store_signed.
  - rewrite Er. eapply keeps_bind; [apply store_certificate_holds|apply keeps_store|apply Hlast].
  - by intros s.
Qed.
Lemma keeps_revoke id reason : keeps (λ _, True) (revoke_certificate id reason).
Proof using Hidle Henv others_anyone others_other list_ok crl_ok.
  unfold revoke_certificate. eapply keeps_bind; [by apply audit_holds|by apply keeps_audit|]. intros u.
  intros s Hw Hfr _ Hp. unfold turn, mark_revoked. rewrite Hidle. simpl. destruct (cm_certificates s !! id) as [m|] eqn:Em; simpl; [|done].
  rewrite Hidle. simpl. rewrite lookup_insert_eq. simpl. rewrite Hidle. simpl.
  match goal with |- context [persist_certificates ?x] => pose proof (persist_restores x (proj1 Hp)) as Hx; destruct (persist_certificates x) as [[] s1] end; simpl in *; [|done].
  assert (Hy : persisted (persist_crl s1).2) by (unfold persist_crl, turn; rewrite !Hidle; by apply put_persisted).
  destruct (persist_crl s1) as [[] s2]; simpl in *; [|done]. unfold audit_log, turn. rewrite Hidle. unfold audit_entry. by destruct (ce_audit_enabled _).
Qed.
Lemma keeps_renew id : keeps (λ _, True) (renew_certificate id).
Proof using Hidle Henv others_anyone others_other list_ok crl_ok crypto salt_len nonce_len pem_utf8 own_ok anyone_own uuid_inj.
  unfold renew_certificate. eapply keeps_bind; [by apply audit_holds|by apply keeps_audit|]. intros u.
  eapply keeps_bind; [by apply (read_turn_holds _ _ (λ _ _, True))|by apply keeps_turn|]. intros found.
  apply (keeps_bind _ _ (λ _ _, True)); [by apply read_holds|apply keeps_read|]. intros existing. destruct (negb _); [apply keeps_read|].
  eapply keeps_bind; [eapply holds_weaken; [apply revoke_holds|done|]; by instantiate (1 := λ _ _, True)|apply keeps_revoke|]. intros u1.
  eapply keeps_bind; [apply issue_certificate_holds|apply keeps_issue|]. intros info.
  eapply keeps_bind; [apply audit_holds, known_evolves|apply keeps_audit, evolves_stable, known_evolves|]. intros u'. apply keeps_read.
Qed.
Lemma keeps_op op : keeps (λ _, True) (run_op op).
Proof using Hidle Henv others_anyone others_other list_ok crl_ok crypto salt_len nonce_len pem_utf8 own_ok anyone_own uuid_inj.
  assert (Hend : ∀ Q : CM → Prop, keeps Q (λ s, (Ok tt, s))) by (intros Q; apply keeps_read).
  destruct op as [params|request|id|id|id reason]; unfold run_op.
  - eapply keeps_bind; [apply generate_root_ca_holds|apply keeps_generate|]. intros u. apply Hend.
  - eapply keeps_bind; [apply issue_certificate_holds|apply keeps_issue|]. intros u. apply Hend.
  - eapply keeps_bind; [apply renew_holds|apply keeps_renew|]. intros u. apply Hend.
  - eapply keeps_bind; [apply rotate_holds| |intros u; apply Hend]. unfold rotate_certificate.
    eapply keeps_bind; [by apply audit_holds|by apply keeps_audit|]. intros u. eapply keeps_bind; [apply renew_holds|apply keeps_renew|]. intros info.
    eapply keeps_bind; [apply audit_holds, known_evolves|apply keeps_audit, evolves_stable, known_evolves|]. intros u'. apply keeps_read.
  - apply keeps_revoke.
Qed.
Context `{!JsonLaws (gmap string CertificateMetadata)}.
(** C31: A manager that runs its operations one after another, failed ones
    included, on storage that does not fail, can be stopped at any point: a new
    manager on the same storage has exactly its certificates, with their
    statuses. *)
Theorem certificates_restart ops s config n :
  wf s → fresh (cm_ticks s) s → persisted s →
  let s' := foldl (λ s op, (run_op op s).2) s ops in
  ∃ s2, cert_manager_new config (cm_storage s') n = Ok s2 ∧ cm_certificates s2 = cm_certificates s'.
Proof using All.
  intros Hw Hfr Hp. cbv zeta. set (s' := foldl _ s ops).
  assert (Hs : persisted s').
  { unfold s'. clear s'. revert s Hw Hfr Hp. induction ops as [|op ops IH]; intros s Hw Hfr Hp; simpl; [done|].
    destruct (run_op_holds op s Hw Hfr I) as (H1 & H2 & _). apply IH; [done|done|]. by apply (keeps_op op). }
  destruct Hs as [Hrel Hv]. unfold cert_manager_new, load_certificates. simpl.
  destruct (os_get cert_list_path (cm_storage s')) as [r o] eqn:E. destruct (os_get_law _ _ _ _ list_ok E) as (_ & _ & Hg).
  destruct r as [data|e]; simpl.
  - destruct Hv as [Hv|[Hv _]]; rewrite Hv in Hg; [|done]. injection Hg as <-. rewrite from_to_json. simpl. eexists. by split.
  - destruct Hg as [[-> Hn]|[_ Hn]]; [|done]. destruct Hv as [Hv|[_ ->]]; [congruence|]. eexists. by split.
Qed.
End manager.

(** ** Concrete managers *)

Module CertDemo.
(** A certificate is its subject, issuer, serial number and dates in a simple
    code; the private key of every certificate is the same text. *)
Definition Der : Type := string * string * Z * Z * Z.
Definition to_der (d : Der) : bytes := DemoCodec.compact.(serialize) d.
Definition of_der (b : bytes) : option Der := DemoCodec.compact.(deserialize) b.
Definition text (b : bytes) : string := string_of_list_ascii ((λ z, ascii_of_N (Z.to_N z)) <$> b).
Definition armoured (t : string) : string := "-----BEGIN CERTIFICATE-----" +:+ newline +:+ t +:+ newline +:+ "-----END CERTIFICATE-----" +:+ newline.
Definition name_of (dn : list (DnType * string)) : string := match dn with (_, n) :: _ => n | [] => "nobody" end.
#[local] Instance pki : Pki nat (CertificateParams nat) := {|
  keypair_generate _ n := Some n;
  keypair_from_pem s := if String.eqb s "key" then Some 0%nat else None;
  from_params p := Some p;
  serialize_pem c n := Some (armoured (text (to_der (name_of (cp_distinguished_name _ c), name_of (cp_distinguished_name _ c), Z.of_nat n, cp_not_before _ c, cp_not_after _ c))));
  serialize_der_with_signer c signer n :=
    Some (to_der (name_of (cp_distinguished_name _ c), name_of (cp_distinguished_name _ signer), Z.of_nat n, cp_not_before _ c, cp_not_after _ c));
  serialize_private_key_pem _ := "key";
  pem_certs s := [str_bytes (substring 28 (String.length s - 55) s)];
  base64_encode := text;
  x509_from_der b := '(subject, issuer, serial, nb, na) ← of_der b;
    Some (mkX509 ("CN=" +:+ subject) ("CN=" +:+ issuer) [serial] nb na [] [Some subject] [] [] [] "1.2.840.10045.2.1" None 65);
  san_from_der _ := None;
  webpki_parses b := bool_decide (is_Some (of_der b));
  sha256 b := replicate 31 0 ++ [zsum id b mod 256];
  add_days t d := Some (t + d * 86400);
  unix_timestamp_ok _ := true;
  debug_common_name dn := Some (name_of dn);
|}.
#[local] Instance crypto : KeyCrypto := {|
  pbkdf2 password _ _ := password;
  gcm_encrypt key _ t := Some (t ++ replicate 16 0);
  gcm_decrypt key _ c := Some (take (length c - 16) c);
|}.
#[local] Instance crypto_laws : KeyCryptoLaws.
Proof.
  split; intros key nonce t c; cbn [gcm_encrypt gcm_decrypt crypto]; intros E; assert (c = t ++ replicate 16 0) as -> by congruence.
  - rewrite length_app. change (length (replicate 16 0)) with 16%nat. by rewrite Nat.add_sub, take_app_length.
  - by rewrite length_app.
Qed.

#[local] Instance role_countable : Countable CertificateRole.
Proof.
  refine (inj_countable' (λ r, match r with RootCa => 0 | RoleBroker => 1 | RoleController => 2 | RoleClient => 3 | RoleAdmin => 4 end)
    (λ n, match n with 0 => RootCa | 1 => RoleBroker | 2 => RoleController | 3 => RoleClient | _ => RoleAdmin end) _). by intros [].
Defined.
#[local] Instance status_countable : Countable CertificateStatus.
Proof.
  refine (inj_countable' (λ r, match r with Active => 0 | Expired => 1 | Revoked => 2 | PendingRenewal => 3 | Suspended => 4 end)
    (λ n, match n with 0 => Active | 1 => Expired | 2 => Revoked | 3 => PendingRenewal | _ => Suspended end) _). by intros [].
Defined.
#[local] Instance key_type_eq_dec : EqDecision KeyType.
Proof. solve_decision. Defined.
#[local] Instance key_type_countable : Countable KeyType.
Proof. refine (inj_countable' (λ k, match k with KtRsa => true | KtEcdsa => false end) (λ b, if b : bool then KtRsa else KtEcdsa) _). by intros []. Defined.
#[local] Instance reason_eq_dec : EqDecision RevocationReason.
Proof. solve_decision. Defined.
#[local] Instance reason_countable : Countable RevocationReason.
Proof.
  refine (inj_countable'
    (λ r, match r with Unspecified => 0 | KeyCompromise => 1 | CaCompromise => 2 | AffiliationChanged => 3 | Superseded => 4 | CessationOfOperation => 5
          | CertificateHold => 6 | RemoveFromCrl => 7 | PrivilegeWithdrawn => 8 | AaCompromise => 9 end)
    (λ n, match n with 0 => Unspecified | 1 => KeyCompromise | 2 => CaCompromise | 3 => AffiliationChanged | 4 => Superseded | 5 => CessationOfOperation
          | 6 => CertificateHold | 7 => RemoveFromCrl | 8 => PrivilegeWithdrawn | _ => AaCompromise end) _). by intros [].
Defined.
#[local] Instance info_eq_dec : EqDecision CertificateInfo.
Proof. solve_decision. Defined.
#[local] Instance info_countable : Countable CertificateInfo.
Proof.
  refine (inj_countable' (λ i, ((ci_id i, ci_subject i, ci_issuer i, ci_serial_number i, ci_not_before i, ci_not_after i, ci_fingerprint i, ci_role i, ci_status i),
      (ci_created_at i, ci_renewal_threshold i, ci_key_type i, ci_key_size i, ci_is_ca i, ci_issuer_id i, ci_revocation_reason i, ci_san_entries i,
       ci_certificate_pem i, ci_private_key_pem i)))
    (λ '((a, b, c, d, e, f, g, h, i), (j, k, l, m, n, o, p, q, r, s)), mkInfo a b c d e f g h i j k l m n o p q r s) _).
  by intros [].
Defined.
#[local] Instance metadata_eq_dec : EqDecision CertificateMetadata.
Proof. solve_decision. Defined.
#[local] Instance metadata_countable : Countable CertificateMetadata.
Proof.
  refine (inj_countable' (λ m, (mt_info m, mt_pem_data m, mt_private_key_path m, mt_created_by m, mt_storage_version m))
    (λ '(a, b, c, d, e), mkCertMetadata a b c d e) _).
  by intros [].
Defined.
#[local] Instance table_json : Json (gmap string CertificateMetadata) := {|
  to_json m := [Zpos (encode m)];
  from_json d := match d with [Zpos p] => decode p | _ => None end;
|}.
#[local] Instance table_json_laws : JsonLaws (gmap string CertificateMetadata).
Proof. split. intros m. simpl. by rewrite decode_encode. Qed.
#[local] Instance crl_json : Json RevocationList := {| to_json _ := []; from_json _ := None |}.
(** A cache that keeps nothing *)
#[local] Instance no_lru : CertLru unit := {|
  cl_new _ := tt; cl_get _ _ := (None, tt); cl_put _ _ _ := tt; cl_pop _ _ := tt; cl_iter _ := []; cl_clear _ := tt;
|}.
#[local] Existing Instance Mem.storage.
#[local] Existing Instance Mem.laws.

Abbreviation Manager := (CertificateManager (gmap string (list Z)) unit).
Definition uuid (n : nat) : string := "c" +:+ dec (Z.of_nat n).
Definition clock (n : nat) : Z := 1000 + Z.of_nat n.
Definition salt (_ : nat) : bytes := replicate 32 0.
Definition nonce (_ : nat) : bytes := replicate 12 0.
Definition idle (_ : nat) (s : Manager) : Manager := s.
Lemma demo_uuid_inj n k : uuid n = uuid k → n = k.
Proof. intros [= E]. apply dec_inj in E; lia. Qed.

Definition start : Manager :=
  match cert_manager_new uuid clock (default_config 30) (∅ : gmap string (list Z)) 0 with
  | Ok s => s
  | Err _ => mkCertManager (default_config 30) ∅ ∅ (empty_crl uuid clock 0) [] (cache_new 1 1) (cache_new 1 1) 0
  end.
Lemma start_wf : wf start.
Proof. intros id m H. change (cm_certificates start) with (∅ : gmap string CertificateMetadata) in H. by rewrite lookup_empty in H. Qed.
Lemma start_fresh n : fresh uuid n start.
Proof. intros k _. change (cm_certificates start) with (∅ : gmap string CertificateMetadata). apply lookup_empty. Qed.
Abbreviation op o := (λ s : Manager, run_op uuid clock salt nonce idle o s).
Definition root_params : CaGenerationParams := mkCaParams "root" None None None None None None.
Definition request (name issuer : string) (role : CertificateRole) : CertificateRequest :=
  mkCertRequest [(CommonName, name)] role [] None None None (Some issuer).
Definition statuses (s : Manager) : list (string * CertificateStatus) := (λ im, (im.1, ci_status (mt_info im.2))) <$> map_to_list (cm_certificates s).
Definition s1 : Manager := (op (CoGenerate root_params) start).2.
(** The identifiers that the runs generate *)
Definition root : string := uuid 4.
Definition s2 : Manager := (op (CoIssue (request "alice" root RoleClient)) s1).2.
Definition alice : string := uuid 14.
Example issued : statuses s2 = [(alice, Active); (root, Active)].
Proof. vm_compute. reflexivity. Qed.

Lemma key_text (c : CertificateParams nat) : utf8_valid (str_bytes (serialize_private_key_pem c)) = true.
Proof. reflexivity. Qed.
Lemma idle_env (n : nat) (s : Manager) : wf s → wf (idle n s) ∧ evolves (λ _, False) s (idle n s).
Proof. intros Hw. split; [done|]. apply evolves_refl. Qed.
(** The operations of one manager after another *)
Definition run (ops : list CertOp) (s : Manager) : Manager := foldl (λ s o, (op o s).2) s ops.
Lemma certificate_store_sound_witness :
  statuses s1 = [(root, Active)] ∧ wf s1 ∧ evolves (λ _, True) start s1.
Proof.
  split; [vm_compute; reflexivity|].
  pose proof (certificate_store_sound (Key := nat) (Cert := CertificateParams nat) uuid clock salt nonce idle (λ _, False) (λ _, True) demo_uuid_inj (λ _ H, H) (λ _ _, I) (λ _, I) idle_env
    eq_refl eq_refl (λ _, eq_refl) (λ _, eq_refl) key_text (λ _, eq_refl) (CoGenerate root_params) start start_wf (start_fresh _)) as H.
  exact (conj (proj1 H) (proj2 (proj2 H))).
Defined.
Lemma op_sound o (s : Manager) : wf s → fresh uuid (cm_ticks s) s → wf (op o s).2 ∧ fresh uuid (cm_ticks (op o s).2) (op o s).2.
Proof.
  intros Hw Hfr. destruct (run_op_holds (Key := nat) (Cert := CertificateParams nat) uuid clock salt nonce idle (λ _, False) (λ _, True) demo_uuid_inj (λ _ H, H) (λ _ _, I) (λ _, I) idle_env
    eq_refl eq_refl (λ _, eq_refl) (λ _, eq_refl) key_text (λ _, eq_refl) o s Hw Hfr I) as (H1 & H2 & _). done.
Qed.
Lemma s2_sound : wf s2 ∧ fresh uuid (cm_ticks s2) s2.
Proof. assert (H1 : wf s1 ∧ fresh uuid (cm_ticks s1) s1) by (apply op_sound; [apply start_wf|apply start_fresh]). apply op_sound; apply H1. Qed.
Definition s3 : Manager := (revoke_certificate clock idle alice KeyCompromise s2).2.
Lemma s3_sound : wf s3.
Proof. pose proof (op_sound (CoRevoke alice KeyCompromise) s2 (proj1 s2_sound) (proj2 s2_sound)) as [H _]. cbn [run_op] in H. unfold s3. exact H. Qed.
Lemma revocation_final_witness : get_certificate_status alice s3 = Ok Revoked.
Proof.
  assert (E1 : (revoke_certificate clock idle alice KeyCompromise s2).1 = Ok tt) by (vm_compute; reflexivity).
  assert (E : revoke_certificate clock idle alice KeyCompromise s2 = (Ok tt, s3))
    by (rewrite (surjective_pairing (revoke_certificate clock idle alice KeyCompromise s2)), E1; reflexivity).
  exact (proj1 (revocation_final (Key := nat) (Cert := CertificateParams nat) uuid clock salt nonce idle (λ _, False) (λ _, True) (λ _ H, H) (λ _ _, I) idle_env eq_refl eq_refl
    alice KeyCompromise s2 s3 (λ _, True) s3 (proj1 s2_sound) (proj2 s2_sound) E (evolves_refl _ s3))).
Defined.
Definition restarted (s : Manager) : option Manager :=
  match cert_manager_new uuid clock (default_config 30) (cm_storage s) (cm_ticks s) with Ok s => Some s | Err _ => None end.
Definition history : list CertOp :=
  [CoGenerate root_params; CoIssue (request "alice" root RoleClient); CoRevoke alice KeyCompromise; CoRenew alice; CoRotate root].
Lemma certificates_restart_witness :
  ∃ s : Manager, cert_manager_new uuid clock (default_config 30) (cm_storage (run history start)) 99 = Ok s ∧ cm_certificates s = cm_certificates (run history start).
Proof.
  assert (Hp : persisted start) by (split; [exact I|]; right; split; reflexivity).
  exact (certificates_restart (Key := nat) (Cert := CertificateParams nat) uuid clock salt nonce idle (λ _, False) (λ _, True) demo_uuid_inj (λ _ H, H) (λ _ _, I) (λ _, I) idle_env
    eq_refl eq_refl (λ _, eq_refl) (λ _, eq_refl) key_text (λ _, eq_refl) (λ _ _, eq_refl) history start (default_config 30) 99
    start_wf (start_fresh _) Hp).
Defined.

(** The revocation list is not read back: after a restart a chain with a
    revoked certificate validates again. *)
Definition der_of (id : string) (s : Manager) : list bytes := default [] ((λ m, pem_certs (mt_pem_data m)) <$> cm_certificates s !! id).
Example revocation_list_forgotten :
  (vd_is_valid (validate_certificate_chain 2000 (der_of alice s3) s3),
   (λ s, vd_is_valid (validate_certificate_chain 2000 (der_of alice s3) s)) <$> restarted s3) = (false, Some true).
Proof. vm_compute. reflexivity. Qed.
(** There is no template for roots, so rotating one revokes it and then fails. *)
Example rotating_root_revokes :
  let '(r, s) := op (CoRotate root) s2 in (r, get_certificate_status root s) = (Err Config, Ok Revoked).
Proof. vm_compute. reflexivity. Qed.
(** The issuer need not be an authority, nor unrevoked. *)
Example anyone_signs :
  ((op (CoIssue (request "mallory" alice RoleAdmin)) s2).1, (op (CoIssue (request "mallory" alice RoleAdmin)) s3).1) = (Ok tt, Ok tt).
Proof. vm_compute. reflexivity. Qed.
(** Any certificate with good dates validates: no signature is checked. *)
Example forged_chain_validates : vd_is_valid (validate_certificate_chain 2000 [to_der ("forged", "root", 77, 0, 9999)] s2) = true.
Proof. vm_compute. reflexivity. Qed.
(** The cached validation accepts a revoked certificate. *)
Example cached_validation_ignores_revocation :
  (λ r, cv_is_valid r) <$> (match (validate_certificate_cached 2000 (default [] (head (der_of alice s3))) s3).1 with Ok r => Some r | Err _ => None end) = Some true.
Proof. vm_compute. reflexivity. Qed.
(** A revocation that runs while another operation writes its copy of the table
    is overwritten on storage by the older copy: after a restart the
    certificate is active again. *)
Definition interrupted_by (at_ : nat) (o : CertOp) (n : nat) (s : Manager) : Manager := if (n =? at_)%nat then (op o s).2 else s.
Definition raced : Manager :=
  (run_op uuid clock salt nonce (interrupted_by 27 (CoRevoke alice KeyCompromise)) (CoIssue (request "bob" root RoleBroker)) s2).2.
Example stale_table_overwrites :
  (get_certificate_status alice raced, (λ s, get_certificate_status alice s) <$> restarted raced) = (Ok Revoked, Some (Ok Active)).
Proof. vm_compute. reflexivity. Qed.
End CertDemo.
