(* ===== verification/CertMetadata.v ===== *)
(** * What a certificate says

    Models [src/src/security/auth/certificate_metadata.rs]: the description of
    a certificate that validation by policy reads, with its names, validity,
    key strength, extensions and role.  Two parsers read the same bytes, the
    crates [x509-cert] and [x509_parser]; both are parameters.  A [DateTime] is
    a number of nanoseconds since the epoch, and the clock is read twice, for
    the time of parsing and for the validity. *)
From Stdlib Require Import Ascii String.
From S2P Require Import Prelude Certificates.
Local Open Scope Z_scope.

(** ** Data *)

Record DistinguishedName := mkDn {
  dn_common_name : option string;
  dn_organization : option string;
  dn_organizational_unit : list string;
  dn_country : option string;
  dn_state_or_province : option string;
  dn_locality : option string;
  dn_email_address : option string;
  dn_raw : string;
}.
(** An address is its four or sixteen octets; no directory name or other name is
    ever built. *)
Inductive SubjectAltName :=
  | SanDns (name : string)
  | SanIp (octets : bytes)
  | SanEmail (email : string)
  | SanUri (uri : string).
Record KeyUsage := mkKeyUsage {
  ku_digital_signature : bool;
  ku_non_repudiation : bool;
  ku_key_encipherment : bool;
  ku_data_encipherment : bool;
  ku_key_agreement : bool;
  ku_key_cert_sign : bool;
  ku_crl_sign : bool;
  ku_encipher_only : bool;
  ku_decipher_only : bool;
}.
Record ExtendedKeyUsage := mkExtendedKeyUsage {
  eku_server_auth : bool;
  eku_client_auth : bool;
  eku_code_signing : bool;
  eku_email_protection : bool;
  eku_time_stamping : bool;
  eku_ocsp_signing : bool;
  eku_any : bool;
  eku_other : list string;
}.
Inductive CertificateRole :=
  | RoleRootCa | RoleIntermediateCa | RoleServer | RoleClient | RoleCodeSigning | RoleEmailProtection | RoleMultiPurpose | RoleUnknown.
#[global] Instance CertificateRole_eq_dec : EqDecision CertificateRole.
Proof. solve_decision. Defined.
Record ValidityPeriod := mkValidity {
  vp_not_before : Z;
  vp_not_after : Z;
  vp_validity_duration_seconds : Z;
  vp_is_currently_valid : bool;
  vp_days_until_expiry : Z;
}.
Inductive KeyStrength := Weak | Adequate | Strong | StrengthUnknown.
#[global] Instance KeyStrength_eq_dec : EqDecision KeyStrength.
Proof. solve_decision. Defined.
Record PublicKeyInfo := mkKeyInfo {
  pk_algorithm : string;
  pk_key_size : option Z;
  pk_curve_name : option string;
  pk_strength : KeyStrength;
  pk_bytes : bytes;
}.
Record CertificateMetadata := mkMetadata {
  md_serial_number : bytes;
  md_subject_dn : DistinguishedName;
  md_issuer_dn : DistinguishedName;
  md_subject_alt_names : list SubjectAltName;
  md_key_usage : option KeyUsage;
  md_extended_key_usage : option ExtendedKeyUsage;
  md_certificate_role : CertificateRole;
  md_validity_period : ValidityPeriod;
  md_public_key_info : PublicKeyInfo;
  md_fingerprint : string;
  md_certificate_policies : list string;
  md_authority_key_id : option bytes;
  md_subject_key_id : option bytes;
  md_parsed_at : Z;
}.

(** ** What the parsers give *)

(** A value of an attribute with the readings of it that the [der] crate
    allows, a name as its attributes in order with the debug text of the
    whole, and a certificate of [x509-cert]. *)
Record DerAny := mkAny {
  any_utf8 : option string;
  any_printable : option string;
  any_ia5 : option string;
  any_value : bytes;
}.
Record Name := mkName { nm_rdns : list (list (string * DerAny)); nm_debug : string }.
Record Spki := mkSpki { sp_algorithm : string; sp_parameters : option bytes; sp_key : bytes }.
Record X509Cert := mkX509Cert {
  ct_serial : bytes;
  ct_subject : Name;
  ct_issuer : Name;
  ct_not_before : Z;
  ct_not_after : Z;
  ct_spki : Spki;
}.
(** An extension as [x509_parser] reads it *)
Inductive GeneralNameKind := GnkDns (n : string) | GnkEmail (e : string) | GnkUri (u : string) | GnkIp (ip : bytes) | GnkOther.
Inductive Extension :=
  | ExtSan (names : list GeneralNameKind)
  | ExtKeyUsage (ku : KeyUsage)
  | ExtExtendedKeyUsage (eku : ExtendedKeyUsage)
  | ExtPolicies (policies : list string)
  | ExtAuthorityKeyId (key_identifier : option bytes)
  | ExtSubjectKeyId (key_identifier : bytes)
  | ExtOther.
Class MetadataParsers := {
  x509cert_from_der : bytes → option X509Cert;
  parsed_extensions : bytes → option (list Extension);
  oid_from_der : bytes → option string;
  utc_timestamp_ok : Z → bool;
}.

(** ** Names *)

Definition extract_rdn_string_value (value : DerAny) : option string :=
  match any_utf8 value with
  | Some s => Some s
  | None => match any_printable value with
            | Some s => Some s
            | None => match any_ia5 value with Some s => Some s | None => from_utf8 (any_value value) end
            end
  end.
(** The attribute overwrites what an earlier one of its type said. *)
Definition dn_attribute (dn : DistinguishedName) (a : string * DerAny) : DistinguishedName :=
  let value := extract_rdn_string_value a.2 in
  let '(mkDn cn o ou c st l em raw) := dn in
  if String.eqb a.1 "2.5.4.3" then mkDn value o ou c st l em raw
  else if String.eqb a.1 "2.5.4.10" then mkDn cn value ou c st l em raw
  else if String.eqb a.1 "2.5.4.11" then mkDn cn o (ou ++ option_list value) c st l em raw
  else if String.eqb a.1 "2.5.4.6" then mkDn cn o ou value st l em raw
  else if String.eqb a.1 "2.5.4.8" then mkDn cn o ou c value l em raw
  else if String.eqb a.1 "2.5.4.7" then mkDn cn o ou c st value em raw
  else if String.eqb a.1 "1.2.840.113549.1.9.1" then mkDn cn o ou c st l value raw
  else dn.
Definition dn_parts (dn : DistinguishedName) : list string :=
  (append "CN=" <$> option_list (dn_common_name dn)) ++ (append "O=" <$> option_list (dn_organization dn))
  ++ (append "OU=" <$> dn_organizational_unit dn) ++ (append "C=" <$> option_list (dn_country dn))
  ++ (append "ST=" <$> option_list (dn_state_or_province dn)) ++ (append "L=" <$> option_list (dn_locality dn)).
Definition empty_dn : DistinguishedName := mkDn None None [] None None None None EmptyString.
Definition parse_distinguished_name (name : Name) : DistinguishedName :=
  let dn := foldl dn_attribute empty_dn (concat (nm_rdns name)) in
  let raw := match dn_parts dn with [] => nm_debug name | parts => comma_list parts end in
  mkDn (dn_common_name dn) (dn_organization dn) (dn_organizational_unit dn) (dn_country dn) (dn_state_or_province dn)
    (dn_locality dn) (dn_email_address dn) raw.

(** ** Keys *)

Definition strength_of_rsa (size : Z) : KeyStrength :=
  if size <? 2048 then Weak else if size <? 3072 then Adequate else Strong.
Definition in_range (lo hi n : Z) : bool := (lo <=? n) && (n <=? hi).
Section metadata.
Local Open Scope rust_scope.
Context `{!MetadataParsers} `{!Pki Key Cert}.
Definition detect_ec_curve (spki : Spki) (key_bit_len : Z) : string * Z * KeyStrength :=
  match sp_parameters spki ≫= oid_from_der with
  | Some oid =>
      if String.eqb oid "1.2.840.10045.3.1.7" then ("P-256", 256, Strong)
      else if String.eqb oid "1.3.132.0.34" then ("P-384", 384, Strong)
      else if String.eqb oid "1.3.132.0.35" then ("P-521", 521, Strong)
      else (oid, key_bit_len, StrengthUnknown)
  | None =>
      if in_range 512 520 key_bit_len then ("P-256", 256, Strong)
      else if in_range 768 776 key_bit_len then ("P-384", 384, Strong)
      else if in_range 1040 1056 key_bit_len then ("P-521", 521, Strong)
      else ("unknown", key_bit_len, StrengthUnknown)
  end.
Definition parse_public_key_info (spki : Spki) : PublicKeyInfo :=
  let key_bit_len := (Z.of_nat (length (sp_key spki)) mod u32_modulus * 8) mod u32_modulus in
  if String.eqb (sp_algorithm spki) "1.2.840.113549.1.1.1" then
    mkKeyInfo "rsaEncryption" (Some key_bit_len) None (strength_of_rsa key_bit_len) (sp_key spki)
  else if String.eqb (sp_algorithm spki) "1.2.840.10045.2.1" then
    let '(curve, size, strength) := detect_ec_curve spki key_bit_len in
    mkKeyInfo "id-ecPublicKey" (Some size) (Some curve) strength (sp_key spki)
  else mkKeyInfo (sp_algorithm spki) None None StrengthUnknown (sp_key spki).

(** ** Validity *)

Definition second : Z := 10 ^ 9.
Definition day : Z := 86400 * second.
Definition x509_time_to_datetime (t : Z) : Result Z :=
  if t <? 0 then Err InvalidCertificate else if utc_timestamp_ok t then Ok t else Err InvalidCertificate.
Definition parse_validity_period (not_before not_after now : Z) : Result ValidityPeriod :=
  let? nb := x509_time_to_datetime not_before in
  let? na := x509_time_to_datetime not_after in
  Ok (mkValidity nb na (Z.max 0 (Z.quot (na - nb) second)) ((nb <=? now) && (now <=? na)) (Z.quot (na - now) day)).

(** ** Extensions *)

Definition parse_ip_from_bytes (b : bytes) : option bytes :=
  if (length b =? 4)%nat || (length b =? 16)%nat then Some b else None.
Definition san_of (gn : GeneralNameKind) : option SubjectAltName :=
  match gn with
  | GnkDns n => Some (SanDns n)
  | GnkEmail e => Some (SanEmail e)
  | GnkUri u => Some (SanUri u)
  | GnkIp ip => SanIp <$> parse_ip_from_bytes ip
  | GnkOther => None
  end.
Record Extensions := mkExtensions {
  ex_sans : list SubjectAltName;
  ex_key_usage : option KeyUsage;
  ex_extended_key_usage : option ExtendedKeyUsage;
  ex_policies : list string;
  ex_authority_key_id : option bytes;
  ex_subject_key_id : option bytes;
}.
Definition extension_of (x : Extensions) (e : Extension) : Extensions :=
  let '(mkExtensions sans ku eku pol aki ski) := x in
  match e with
  | ExtSan names => mkExtensions (sans ++ omap san_of names) ku eku pol aki ski
  | ExtKeyUsage k => mkExtensions sans (Some k) eku pol aki ski
  | ExtExtendedKeyUsage k => mkExtensions sans ku (Some k) pol aki ski
  | ExtPolicies p => mkExtensions sans ku eku (pol ++ p) aki ski
  | ExtAuthorityKeyId (Some k) => mkExtensions sans ku eku pol (Some k) ski
  | ExtAuthorityKeyId None => x
  | ExtSubjectKeyId k => mkExtensions sans ku eku pol aki (Some k)
  | ExtOther => x
  end.
Definition extract_extensions_from_der (der : bytes) : Result Extensions :=
  let? exts := ok_or (parsed_extensions der) InvalidCertificate in
  Ok (foldl extension_of (mkExtensions [] None None [] None None) exts).

Definition determine_certificate_role (key_usage : option KeyUsage) (extended_key_usage : option ExtendedKeyUsage)
    (subject_dn issuer_dn : DistinguishedName) : CertificateRole :=
  if from_option ku_key_cert_sign false key_usage then
    if String.eqb (dn_raw subject_dn) (dn_raw issuer_dn) then RoleRootCa else RoleIntermediateCa
  else match extended_key_usage with
       | None => RoleUnknown
       | Some eku =>
           if eku_server_auth eku && negb (eku_client_auth eku) then RoleServer
           else if eku_client_auth eku && negb (eku_server_auth eku) then RoleClient
           else if eku_code_signing eku then RoleCodeSigning
           else if eku_email_protection eku then RoleEmailProtection
           else if eku_server_auth eku && eku_client_auth eku then RoleMultiPurpose
           else RoleUnknown
       end.

(** ** The description and its readers *)

Definition parse_from_x509_cert (cert : X509Cert) (der : bytes) (parsed_at now : Z) : Result CertificateMetadata :=
  let subject := parse_distinguished_name (ct_subject cert) in
  let issuer := parse_distinguished_name (ct_issuer cert) in
  let? validity := parse_validity_period (ct_not_before cert) (ct_not_after cert) now in
  let key := parse_public_key_info (ct_spki cert) in
  let? x := extract_extensions_from_der der in
  let role := determine_certificate_role (ex_key_usage x) (ex_extended_key_usage x) subject issuer in
  Ok (mkMetadata (ct_serial cert) subject issuer (ex_sans x) (ex_key_usage x) (ex_extended_key_usage x) role validity key
        (hex_encode (sha256 der)) (ex_policies x) (ex_authority_key_id x) (ex_subject_key_id x) parsed_at).
Definition parse_from_der (der : bytes) (parsed_at now : Z) : Result CertificateMetadata :=
  let? cert := ok_or (x509cert_from_der der) InvalidCertificate in
  parse_from_x509_cert cert der parsed_at now.
Definition san_principal (san : SubjectAltName) : option string :=
  match san with SanDns n => Some n | SanEmail e => Some e | _ => None end.
Definition get_principal (m : CertificateMetadata) : string :=
  match dn_common_name (md_subject_dn m) with
  | Some cn => cn
  | None => match head (omap san_principal (md_subject_alt_names m)) with
            | Some p => p
            | None => dn_raw (md_subject_dn m)
            end
  end.
Definition is_valid_for_purpose (m : CertificateMetadata) (purpose : CertificateRole) : bool :=
  match purpose with
  | RoleServer => from_option (λ e, eku_server_auth e || eku_any e) false (md_extended_key_usage m)
  | RoleClient => from_option (λ e, eku_client_auth e || eku_any e) false (md_extended_key_usage m)
  | _ => bool_decide (md_certificate_role m = purpose)
  end.
Definition is_time_valid (m : CertificateMetadata) : bool := vp_is_currently_valid (md_validity_period m).
Definition get_age_days (m : CertificateMetadata) (now : Z) : Z := Z.quot (now - vp_not_before (md_validity_period m)) day.
Definition is_nearing_expiration (m : CertificateMetadata) (warning_days : Z) : bool :=
  (vp_days_until_expiry (md_validity_period m) <=? warning_days) && (0 <? vp_days_until_expiry (md_validity_period m)).

(** ** What the description tells *)

(** A certificate classified by its extended usages is valid for them. *)
Lemma role_allows_purpose der parsed_at now m :
  parse_from_der der parsed_at now = Ok m →
  (md_certificate_role m = RoleServer → is_valid_for_purpose m RoleServer = true) ∧
  (md_certificate_role m = RoleClient → is_valid_for_purpose m RoleClient = true) ∧
  (md_certificate_role m = RoleMultiPurpose → is_valid_for_purpose m RoleServer = true ∧ is_valid_for_purpose m RoleClient = true).
Proof using Type.
  unfold parse_from_der, parse_from_x509_cert. destruct (x509cert_from_der der) as [cert|]; [|done]. cbn [ok_or rbind].
  destruct (parse_validity_period _ _ _) as [vp|]; [|done]. cbn [rbind]. destruct (extract_extensions_from_der der) as [x|]; [|done]. cbn [rbind].
  intros [= <-]. unfold is_valid_for_purpose, determine_certificate_role. cbn [md_certificate_role md_extended_key_usage].
  destruct (from_option _ _ (ex_key_usage x)); [case_match; done|].
  destruct (ex_extended_key_usage x) as [[[] [] [] [] ? ? ? ?]|]; simpl; done.
Qed.
(** A warning means that the end is ahead, and fewer days away than the warning
    period and one more. *)
Lemma nearing_expiration_dates nb na now vp m warning_days :
  parse_validity_period nb na now = Ok vp → md_validity_period m = vp →
  is_nearing_expiration m warning_days = true → now < na ∧ na - now < (warning_days + 1) * day.
Proof using Type.
  unfold parse_validity_period, x509_time_to_datetime. destruct (nb <? 0); [done|]. destruct (utc_timestamp_ok nb); [|done]. cbn [rbind].
  destruct (na <? 0); [done|]. destruct (utc_timestamp_ok na); [|done]. cbn [rbind]. intros [= <-] E. unfold is_nearing_expiration. rewrite E.
  cbn [vp_days_until_expiry]. rewrite andb_true_iff, Z.leb_le, Z.ltb_lt. intros [H1 H2].
  assert (Hd : 0 < day) by (unfold day, second; lia).
  assert (Hp : 0 < na - now).
  { destruct (Z_lt_le_dec 0 (na - now)) as [|Hle]; [done|]. pose proof (Z.quot_pos (- (na - now)) day ltac:(lia) Hd) as Hq. rewrite Z.quot_opp_l in Hq by lia. lia. }
  rewrite Z.quot_div_nonneg in H1 by lia. pose proof (Z.mod_pos_bound (na - now) day Hd). pose proof (Z.div_mod (na - now) day ltac:(lia)). nia.
Qed.
End metadata.
