(* ===== verification/Authentication.v ===== *)
(** * Authentication

    Models [src/src/security/auth/authentication.rs] and the authentication
    context of [auth/mod.rs]: who a connection is, from the certificates its
    peer presents.  The parser of X.509, the verification of signatures
    ([ring]) and of certificates ([webpki]) are the class [AuthCrypto]; an
    error of [webpki] is its debug text, which the code inspects.

    The manager is read while other threads change it: an operation takes the
    views its successive reads find, and the changes it makes apply to the last
    one.  [moka] says whether the build has the feature [moka-cache], which the
    default build has.  Counters of [SecurityMetrics] and delays that hide
    timing are left out, as are two maps that are never used. *)

From Stdlib Require Import Ascii String.
From S2P Require Import Prelude Certificates CertMetadata.
Local Open Scope Z_scope.

(** ** Hexadecimal text *)

(** [hex::decode] *)
Definition hex_value (c : ascii) : option Z :=
  let n := Z.of_N (N_of_ascii c) in
  if in_range 48 57 n then Some (n - 48)
  else if in_range 97 102 n then Some (n - 87)
  else if in_range 65 70 n then Some (n - 55)
  else None.
Fixpoint hex_decode (s : string) : option bytes :=
  match s with
  | EmptyString => Some []
  | String a (String b s) =>
      match hex_value a, hex_value b, hex_decode s with
      | Some x, Some y, Some l => Some (16 * x + y :: l)
      | _, _, _ => None
      end
  | String _ EmptyString => None
  end.

(** ** What the libraries give *)

(** Attributes of a name are object identifier and text, [None] where the value
    is no text. *)
Record X509Name := mkX509Name { xn_raw : bytes; xn_rdns : list (list (string * option string)) }.
#[global] Instance X509Name_eq_dec : EqDecision X509Name.
Proof. solve_decision. Defined.
Record AuthCert := mkAuthCert {
  ac_subject : X509Name;
  ac_issuer : X509Name;
  ac_serial : bytes;
  ac_not_before : Z;
  ac_not_after : Z;
  ac_signature_oid : string;
  ac_signature : bytes;
  ac_tbs : bytes;
  ac_public_key : bytes;
}.
Inductive RingAlgorithm := RsaSha256 | RsaSha384 | RsaSha512 | EcdsaP256 | EcdsaP384.
Class AuthCrypto (Anchor Entity : Type) := {
  x509_parse : bytes → option (bytes * AuthCert);
  name_text : X509Name → string;
  ring_verify : RingAlgorithm → bytes → bytes → bytes → bool;
  trust_anchor : bytes → option Anchor;
  end_entity : bytes → Entity + string;
  verify_server : Entity → list Anchor → Z → option string;
  verify_client : Entity → list Anchor → Z → option string;
}.
#[global] Hint Mode AuthCrypto - - : typeclass_instances.
(** A digest is thirty-two bytes. *)
Class DigestLaws {Key Cert} `{!Pki Key Cert} := {
  sha256_length b : length (sha256 b) = 32%nat;
  sha256_bytes b : Forall (λ x, 0 ≤ x < 256) (sha256 b);
}.

(** ** State *)

Record AuthContext := mkAuthContext {
  ax_principal : string;
  ax_certificate_fingerprint : option string;
  ax_authenticated_at : Z;
  ax_groups : list string;
}.
Definition context_new (principal : string) (now : Z) : AuthContext := mkAuthContext principal None now [].
Definition with_certificate (fingerprint : string) (c : AuthContext) : AuthContext :=
  mkAuthContext (ax_principal c) (Some fingerprint) (ax_authenticated_at c) (ax_groups c).
Definition with_groups (groups : list string) (c : AuthContext) : AuthContext :=
  mkAuthContext (ax_principal c) (ax_certificate_fingerprint c) (ax_authenticated_at c) groups.

Record ParsedCertData := mkParsedData {
  pd_subject_cn : string;
  pd_serial_number : bytes;
  pd_not_before : Z;
  pd_not_after : Z;
  pd_signature_valid : bool;
}.
(** Instants are milliseconds. *)
Record ValidationCacheEntry := mkValidationEntry { ve_result : Result unit; ve_timestamp : Z }.
Definition is_valid (e : ValidationCacheEntry) (now ttl : Z) : bool := now - ve_timestamp e <? ttl.
Definition validation_entry (r : Result unit) (now : Z) : ValidationCacheEntry := mkValidationEntry r now.
(** The kind of an error is lost, only its text is kept. *)
Definition to_result (e : ValidationCacheEntry) : Result unit :=
  match ve_result e with Ok u => Ok u | Err _ => Err CertificateValidation end.
Record CertificateMetadataCache := mkMetadataCache {
  mc_metadata : CertificateMetadata;
  mc_cached_at : Z;
  mc_access_count : Z;
}.
Definition metadata_cache_new (m : CertificateMetadata) (now : Z) : CertificateMetadataCache := mkMetadataCache m now 1.
Definition access (e : CertificateMetadataCache) : CertificateMetadataCache :=
  mkMetadataCache (mc_metadata e) (mc_cached_at e) (u64_add (mc_access_count e) 1).
Definition is_expired (e : CertificateMetadataCache) (now ttl : Z) : bool := ttl <? now - mc_cached_at e.

Record AuthenticationManager := mkAuthManager {
  am_revoked_certificates : gset bytes;
  am_ca_chain : list bytes;
  am_parsed_cert_cache : gmap bytes ParsedCertData;
  am_metadata_cache : gmap bytes CertificateMetadataCache;
  am_validation_cache : gmap bytes ValidationCacheEntry;
  am_success_count : Z;
  am_failure_count : Z;
}.
Abbreviation AM := AuthenticationManager.
Definition with_revoked_certificates (r : gset bytes) (s : AM) : AM :=
  mkAuthManager r (am_ca_chain s) (am_parsed_cert_cache s) (am_metadata_cache s) (am_validation_cache s) (am_success_count s) (am_failure_count s).
Definition with_ca_chain (c : list bytes) (s : AM) : AM :=
  mkAuthManager (am_revoked_certificates s) c (am_parsed_cert_cache s) (am_metadata_cache s) (am_validation_cache s) (am_success_count s) (am_failure_count s).
Definition with_parsed (p : gmap bytes ParsedCertData) (s : AM) : AM :=
  mkAuthManager (am_revoked_certificates s) (am_ca_chain s) p (am_metadata_cache s) (am_validation_cache s) (am_success_count s) (am_failure_count s).
Definition with_metadata (m : gmap bytes CertificateMetadataCache) (s : AM) : AM :=
  mkAuthManager (am_revoked_certificates s) (am_ca_chain s) (am_parsed_cert_cache s) m (am_validation_cache s) (am_success_count s) (am_failure_count s).
Definition with_validation (v : gmap bytes ValidationCacheEntry) (s : AM) : AM :=
  mkAuthManager (am_revoked_certificates s) (am_ca_chain s) (am_parsed_cert_cache s) (am_metadata_cache s) v (am_success_count s) (am_failure_count s).
Definition update_metrics_for_result (r : Result unit) (s : AM) : AM :=
  let ok := match r with Ok _ => true | Err _ => false end in
  mkAuthManager (am_revoked_certificates s) (am_ca_chain s) (am_parsed_cert_cache s) (am_metadata_cache s) (am_validation_cache s)
    (if ok then u64_add (am_success_count s) 1 else am_success_count s) (if ok then am_failure_count s else u64_add (am_failure_count s) 1).
Definition auth_new (ca_chain : list bytes) : AM := mkAuthManager ∅ ca_chain ∅ ∅ ∅ 0 0.

(** ** Bytes that look tampered with *)

(** The counts of consecutive zero and [0xFF] bytes against their bounds; the
    two loops of the source differ in the bounds and the order of two tests that
    exclude each other. *)
Fixpoint excessive_run (max_null max_ff null ff : nat) (der : bytes) : bool :=
  match der with
  | [] => false
  | b :: der =>
      if b =? 0 then (max_null <? S null)%nat || excessive_run max_null max_ff (S null) 0 der
      else if b =? 255 then (max_ff <? S ff)%nat || excessive_run max_null max_ff 0 (S ff) der
      else excessive_run max_null max_ff 0 0 der
  end.
Definition section (der : bytes) (lo hi : nat) : bytes := take (hi - lo) (drop lo der).
Definition is_certificate_obviously_corrupted (der : bytes) : bool :=
  if (length der <? 100)%nat then true
  else if negb (default 0 (head der) =? 48) then true
  else if excessive_run 8 4 0 0 der then true
  else
    let mid_index := (length der / 2)%nat in
    if (mid_index + 8 <? length der)%nat then
      let is_mid_corrupted := forallb (Z.eqb 255) (section der mid_index (mid_index + 8)) in
      let beginning_corrupted := if (30 <? length der)%nat then forallb (Z.eqb 0) (section der 20 30) else false in
      is_mid_corrupted && beginning_corrupted
    else false.

Section authentication.
Context {Key Cert Anchor Entity : Type} `{!Pki Key Cert, !AuthCrypto Anchor Entity, !MetadataParsers}.
Context (moka : bool).
Local Open Scope rust_scope.
Implicit Types (der ca : bytes) (cas : list bytes) (v : nat → AM) (s : AM).

(** ** Parsing *)

Definition parse_certificate der : Result AuthCert :=
  if (length der <? 100)%nat then Err InvalidCertificate
  else if negb (default 0 (head der) =? 48) then Err InvalidCertificate
  else
    let? p := ok_or (x509_parse der) InvalidCertificate in
    let '(remaining, parsed) := p in
    if negb (bool_decide (remaining = [])) then Err InvalidCertificate
    else if bool_decide (xn_raw (ac_subject parsed) = []) then Err InvalidCertificate
    else if (length (ac_signature parsed) <? 32)%nat then Err InvalidCertificate
    else if ac_not_after parsed <=? ac_not_before parsed then Err InvalidCertificate
    else if (length (ac_tbs parsed) <? 50)%nat then Err InvalidCertificate
    else if excessive_run 20 15 0 0 der then Err InvalidCertificate
    else if bool_decide (ac_serial parsed = []) || (20 <? length (ac_serial parsed))%nat then Err InvalidCertificate
    else Ok parsed.
Definition parse_certificate_lenient der : Result AuthCert :=
  if (length der <? 50)%nat then Err InvalidCertificate
  else if negb (default 0 (head der) =? 48) then Err InvalidCertificate
  else
    let? p := ok_or (x509_parse der) InvalidCertificate in
    let '(remaining, parsed) := p in
    if (10 <? length remaining)%nat then Err InvalidCertificate
    else if ac_not_after parsed <=? ac_not_before parsed then Err InvalidCertificate
    else Ok parsed.
Definition parse_certificate_rustls der : Result bytes :=
  if (length der <? 100)%nat then Err InvalidCertificate
  else match end_entity der with inl _ => Ok der | inr _ => Err InvalidCertificate end.

(** ** Signatures *)

Definition validate_certificate_signature (cert : AuthCert) ca : Result unit :=
  let? ca_parsed := parse_certificate_lenient ca in
  if negb (bool_decide (ac_issuer cert = ac_subject ca_parsed)) then Err InvalidCertificate
  else
    let verify alg := ring_verify alg (ac_public_key ca_parsed) (ac_tbs cert) (ac_signature cert) in
    let oid := ac_signature_oid cert in
    let? verified :=
      if String.eqb oid "1.2.840.113549.1.1.11" then Ok (verify RsaSha256)
      else if String.eqb oid "1.2.840.113549.1.1.12" then Ok (verify RsaSha384)
      else if String.eqb oid "1.2.840.113549.1.1.13" then Ok (verify RsaSha512)
      else if String.eqb oid "1.2.840.10045.4.3.2" then Ok (verify EcdsaP256 || verify EcdsaP384)
      else if String.eqb oid "1.2.840.10045.4.3.3" then Ok (verify EcdsaP384)
      else if String.eqb oid "1.2.840.113549.1.1.1" || String.eqb oid "1.2.840.113549.1.1.5" then Ok (verify RsaSha256)
      else Err InvalidCertificate in
    if verified then Ok tt else Err InvalidCertificate.
Definition signature_ok (cert : AuthCert) ca : bool :=
  match validate_certificate_signature cert ca with Ok _ => true | Err _ => false end.
Definition validate_against_root_ca (cert : AuthCert) cas : bool := existsb (signature_ok cert) cas.
(** The clock is in seconds; before the epoch the subtraction is unwrapped. *)
Definition validity_check (not_before not_after now : Z) : Result unit :=
  if now <? 0 then Err Panic
  else if now <? not_before then Err CertificateValidation
  else if not_after <? now then Err CertificateValidation
  else Ok tt.
Definition validate_certificate_signature_legacy der cas (now : Z) : Result unit :=
  let? parsed := parse_certificate der in
  if validate_against_root_ca parsed cas then validity_check (ac_not_before parsed) (ac_not_after parsed) now
  else Err CertificateValidation.

(** ** WebPKI *)

Definition eku_missing (e : string) : bool := contains_str "RequiredEkuNotFound" e.
Definition validate_certificate_with_webpki der cas (now : Z) : Result unit :=
  let trust_anchors := omap trust_anchor cas in
  if bool_decide (length trust_anchors = 0%nat) then validate_certificate_signature_legacy der cas now
  else match end_entity der with
       | inr _ => validate_certificate_signature_legacy der cas now
       | inl entity =>
           if now <? 0 then Err CertificateValidation
           else match verify_server entity trust_anchors now with
                | None => Ok tt
                | Some server_err =>
                    if eku_missing server_err then
                      match verify_client entity trust_anchors now with
                      | None => Ok tt
                      | Some client_err =>
                          if eku_missing client_err then Ok tt
                          else if eku_missing client_err then validate_certificate_signature_legacy der cas now
                          else Err CertificateValidation
                      end
                    else if eku_missing server_err then validate_certificate_signature_legacy der cas now
                    else Err CertificateValidation
                end
       end.

(** ** Revocation *)

Definition calculate_certificate_fingerprint der : string := hex_encode (sha256 der).
Definition calculate_raw_fingerprint der : bytes := sha256 der.
Definition fingerprint_bytes (fingerprint : string) : option bytes :=
  match hex_decode fingerprint with
  | Some b => if (length b =? 32)%nat then Some b else None
  | None => None
  end.
Definition is_certificate_revoked (fingerprint : string) s : bool :=
  match fingerprint_bytes fingerprint with
  | Some fp => bool_decide (fp ∈ am_revoked_certificates s)
  | None => false
  end.
Definition is_certificate_revoked_raw (fingerprint : bytes) s : bool := bool_decide (fingerprint ∈ am_revoked_certificates s).

(** ** Chains *)

Definition nonempty_chain cas : Result unit := if bool_decide (cas = []) then Err CertificateValidation else Ok tt.
Definition not_revoked der s : Result unit :=
  if is_certificate_revoked (calculate_certificate_fingerprint der) s then Err CertificateRevoked else Ok tt.
(** The clock is read by each of the two validations. *)
Definition validate_certificate_chain_with_webpki (certificates : list bytes) (now now' : Z) v : Result unit :=
  match certificates with
  | [] => Err CertificateValidation
  | der :: _ =>
      let ca_chain := am_ca_chain (v 0%nat) in
      let? _ := nonempty_chain ca_chain in
      let? _ := match validate_certificate_with_webpki der ca_chain now with
                | Err Panic => Err Panic
                | Ok tt => Ok tt
                | Err _ => validate_certificate_signature_legacy der ca_chain now'
                end in
      not_revoked der (v 1%nat)
  end.
Definition validate_certificate_chain (certificates : list bytes) (now now' : Z) v : Result unit * AM :=
  let result := validate_certificate_chain_with_webpki certificates now now' v in
  (result, update_metrics_for_result result (v 2%nat)).
Definition perform_certificate_validation (certificates : list bytes) (now : Z) v : Result unit :=
  match certificates with
  | [] => Err CertificateValidation
  | der :: _ =>
      let? parsed := parse_certificate der in
      let ca_chain := am_ca_chain (v 0%nat) in
      let? _ := nonempty_chain ca_chain in
      if negb (validate_against_root_ca parsed ca_chain) then Err CertificateValidation
      else
        let? _ := validity_check (ac_not_before parsed) (ac_not_after parsed) now in
        not_revoked der (v 1%nat)
  end.
Definition validate_certificate_chain_internal (certificates : list bytes) (now : Z) v : Result unit :=
  perform_certificate_validation certificates now v.
(** What [webpki] says of bytes it cannot parse counts as corruption by its text. *)
Definition structural_error (e : string) : bool :=
  contains_str "BadDer" e || contains_str "TrailingData" e || contains_str "UnexpectedTag" e || contains_str "InvalidCertificate" e.
Definition is_corrupted der : bool := match end_entity der with inl _ => false | inr e => structural_error e end.
Definition validate_certificate_comprehensive der (now now' : Z) v : Result unit :=
  if is_certificate_obviously_corrupted der then Err CertificateValidation
  else
    let? certificate := parse_certificate_rustls der in
    let? _ := not_revoked certificate (v 0%nat) in
    let ca_chain := am_ca_chain (v 1%nat) in
    let? _ := nonempty_chain ca_chain in
    match validate_certificate_with_webpki certificate ca_chain now with
    | Err Panic => Err Panic
    | Ok tt => Ok tt
    | Err _ => if is_corrupted certificate then Err CertificateValidation
               else validate_certificate_signature_legacy certificate ca_chain now'
    end.

(** ** Validation with caches *)

Definition minute : Z := 60 * 1000.
(** The future that would insert into the [moka] cache is never awaited. *)
Definition cache_validation_result (fingerprint : bytes) (r : Result unit) (instant : Z) s : AM :=
  if moka then s else with_validation (<[fingerprint := validation_entry r instant]> (am_validation_cache s)) s.
Definition cached_validation (fingerprint : bytes) (instant : Z) s : option (Result unit) :=
  match am_validation_cache s !! fingerprint with
  | Some e => if moka || is_valid e instant minute then Some (to_result e) else None
  | None => None
  end.
(** An entry that has expired is removed, and replaced at the end. *)
Definition validate_certificate der (now now' instant : Z) v : Result unit * AM :=
  let fingerprint := calculate_raw_fingerprint der in
  match cached_validation fingerprint instant (v 0%nat) with
  | Some r => (r, update_metrics_for_result r (v 0%nat))
  | None =>
      let r := validate_certificate_comprehensive der now now' (λ k, v (S k)) in
      match r with
      | Err Panic => (r, v 3%nat)
      | _ => (r, update_metrics_for_result r (cache_validation_result fingerprint r instant (v 3%nat)))
      end
  end.
Definition validate_certificates_batch (ders : list (bytes * Z * Z * (nat → AM))) : list (Result unit) :=
  (λ '(der, now, now', v), match validate_certificate_comprehensive der now now' v with
                           | Err Panic => Err CertificateValidation
                           | r => r
                           end) <$> ders.

Definition validate_with_parsed_data (d : ParsedCertData) (fingerprint : bytes) (now : Z) v : Result unit :=
  if negb (pd_signature_valid d) then Err CertificateValidation
  else
    let? _ := validity_check (pd_not_before d) (pd_not_after d) now in
    if is_certificate_revoked_raw fingerprint (v 0%nat) then Err CertificateRevoked
    else nonempty_chain (am_ca_chain (v 1%nat)).
(** The text of the first common name of a name's component *)
Definition common_name_of (rdn : list (string * option string)) : option string :=
  head (omap (λ a, if String.eqb a.1 "2.5.4.3" then a.2 else None) rdn).
(** The loop is left at the first common name of a component, not of the name. *)
Definition subject_cn (cert : AuthCert) : string :=
  foldl (λ cn rdn, default cn (common_name_of rdn)) EmptyString (xn_rdns (ac_subject cert)).
Definition validate_certificate_optimized der (fingerprint : bytes) (now : Z) v : Result unit * AM :=
  if is_certificate_revoked_raw fingerprint (v 0%nat) then (Err CertificateRevoked, v 0%nat)
  else match parse_certificate der with
       | Err e => (Err e, v 0%nat)
       | Ok parsed =>
           match nonempty_chain (am_ca_chain (v 1%nat)) with
           | Err e => (Err e, v 1%nat)
           | Ok _ =>
               if negb (validate_against_root_ca parsed (am_ca_chain (v 1%nat))) then (Err CertificateValidation, v 1%nat)
               else
                 let d := mkParsedData (subject_cn parsed) (ac_serial parsed) (ac_not_before parsed) (ac_not_after parsed) true in
                 (validate_with_parsed_data d fingerprint now (λ k, v (2 + k)%nat),
                  with_parsed (<[fingerprint := d]> (am_parsed_cert_cache (v 1%nat))) (v 1%nat))
           end
       end.
Definition validate_certificate_simple der (now now' : Z) v : Result unit :=
  let? parsed := parse_certificate der in
  let? _ := validity_check (ac_not_before parsed) (ac_not_after parsed) now in
  let? _ := nonempty_chain (am_ca_chain (v 0%nat)) in
  let? _ := not_revoked der (v 1%nat) in
  validate_certificate_chain_internal [der] now' (λ k, v (2 + k)%nat).

(** ** Principals *)

Definition find_common_name (cert : AuthCert) : option string := head (omap common_name_of (xn_rdns (ac_subject cert))).
Definition principal_of (cert : AuthCert) : string := default (name_text (ac_subject cert)) (find_common_name cert).
Definition legacy_principal der : Result string :=
  match parse_certificate der with Ok cert => Ok (principal_of cert) | Err _ => Err InvalidCertificate end.
Definition extract_principal_with_webpki der : Result string :=
  match end_entity der with inr _ => Err InvalidCertificate | inl _ => legacy_principal der end.
Definition extract_principal_from_certificate der : Result string :=
  match extract_principal_with_webpki der with Ok principal => Ok principal | Err _ => legacy_principal der end.
Definition get_principal_groups (principal : string) : Result (list string) := Ok ["authenticated"].

(** ** Connections *)

(** What the transport knows of its peer: nothing, something that is no chain
    of certificates, or a chain *)
Definition extract_client_certificates (peer_identity : option (option (list bytes))) : Result (list bytes) :=
  let? identity := ok_or peer_identity AuthenticationFailed in
  ok_or identity AuthenticationFailed.
Definition authenticate_connection (peer_identity : option (option (list bytes))) (now now' instant : Z) v : Result AuthContext * AM :=
  match extract_client_certificates peer_identity with
  | Err e => (Err e, v 0%nat)
  | Ok [] => (Err AuthenticationFailed, v 0%nat)
  | Ok (client_cert :: rest) =>
      let '(r, s) := validate_certificate_chain (client_cert :: rest) now now' v in
      (let? _ := r in
       let fingerprint := calculate_certificate_fingerprint client_cert in
       if is_certificate_revoked fingerprint (v 3%nat) then Err CertificateRevoked
       else
         let? principal := extract_principal_from_certificate client_cert in
         let? groups := get_principal_groups principal in
         Ok (with_groups groups (with_certificate fingerprint (context_new principal instant))), s)
  end.

(** ** Refreshing *)

Definition refresh_clear s : AM := with_revoked_certificates ∅ s.
Definition refresh_insert (fingerprint : string) s : AM :=
  match fingerprint_bytes fingerprint with
  | Some fp => with_revoked_certificates ({[ fp ]} ∪ am_revoked_certificates s) s
  | None => s
  end.
Definition refresh_revoked_certificates {O L} (m : CertificateManager O L) s : AM :=
  foldl (λ s fp, refresh_insert fp s) (refresh_clear s) (get_revoked_certificate_fingerprints m).
Definition refresh_ca_chain {O L} (m : CertificateManager O L) s : AM := with_ca_chain (get_ca_chain m) s.

(** ** Descriptions and policies *)

Definition hour : Z := 3600 * 1000.
Definition extract_certificate_metadata der (parsed_at now instant : Z) s : Result CertificateMetadata * AM :=
  let fingerprint := calculate_raw_fingerprint der in
  let fresh s :=
    match parse_from_der der parsed_at now with
    | Err e => (Err e, s)
    | Ok m => (Ok m, with_metadata (<[fingerprint := metadata_cache_new m instant]> (am_metadata_cache s)) s)
    end in
  match am_metadata_cache s !! fingerprint with
  | Some e =>
      if negb (is_expired e instant hour)
      then (Ok (mc_metadata e), with_metadata (<[fingerprint := access e]> (am_metadata_cache s)) s)
      else fresh (with_metadata (delete fingerprint (am_metadata_cache s)) s)
  | None => fresh s
  end.
Definition extract_principal_enhanced der (parsed_at now instant : Z) s : Result string * AM :=
  let '(r, s) := extract_certificate_metadata der parsed_at now instant s in
  (let? m := r in Ok (get_principal m), s).
Definition validate_certificate_for_purpose der (required_purpose : CertificateRole) (now now' parsed_at now_ns instant : Z) v : Result unit * AM :=
  match validate_certificate_comprehensive der now now' v with
  | Err e => (Err e, v 2%nat)
  | Ok _ =>
      let '(r, s) := extract_certificate_metadata der parsed_at now_ns instant (v 2%nat) in
      (let? m := r in if is_valid_for_purpose m required_purpose then Ok tt else Err CertificateValidation, s)
  end.
Record CertificateValidationConfig := mkValidationConfig {
  vc_require_strong_keys : bool;
  vc_max_validity_days : option Z;
  vc_require_san : bool;
  vc_expiry_warning_days : Z;
  vc_allowed_roles : list CertificateRole;
  vc_min_key_sizes : gmap string Z;
}.
Definition default_validation_config : CertificateValidationConfig :=
  mkValidationConfig true (Some (365 * 2)) false 30 [CertMetadata.RoleClient; RoleServer; RoleMultiPurpose]
    (<["ECDSA" := 256]> {[ "RSA" := 2048 ]}).
(** The messages of a validation, without their words *)
Inductive ValidationIssue :=
  | BasicValidationFailed (e : RustMqError)
  | WeakKeyStrength
  | ValidityTooLong (days : Z)
  | SanRequired
  | ExpiresIn (days : Z).
Record PolicyResult := mkPolicyResult {
  pr_is_valid : bool;
  pr_validation_errors : list ValidationIssue;
  pr_validation_warnings : list ValidationIssue;
  pr_certificate_role : CertificateRole;
  pr_key_strength : KeyStrength;
  pr_days_until_expiry : Z;
}.
Definition policy_errors (c : CertificateValidationConfig) (m : CertificateMetadata) : list ValidationIssue :=
  (if vc_require_strong_keys c && bool_decide (pk_strength (md_public_key_info m) = Weak) then [WeakKeyStrength] else [])
  ++ match vc_max_validity_days c with
     | Some max => let days := vp_validity_duration_seconds (md_validity_period m) / (24 * 3600) in
                   if max <? days then [ValidityTooLong days] else []
     | None => []
     end
  ++ (if vc_require_san c && bool_decide (length (md_subject_alt_names m) = 0%nat) then [SanRequired] else []).
Definition validate_certificate_with_policies der (c : CertificateValidationConfig) (parsed_at now_ns instant now now' : Z) v : Result PolicyResult * AM :=
  let '(r, s) := extract_certificate_metadata der parsed_at now_ns instant (v 0%nat) in
  (let? m := r in
   let expiry := vp_days_until_expiry (md_validity_period m) in
   let result ok errors warnings := mkPolicyResult ok errors warnings (md_certificate_role m) (pk_strength (md_public_key_info m)) expiry in
   match validate_certificate_comprehensive der now now' (λ k, v (S k)) with
   | Err Panic => Err Panic
   | Err e => Ok (result false [BasicValidationFailed e] [])
   | Ok _ => let errors := policy_errors c m in
             Ok (result (bool_decide (length errors = 0%nat)) errors
                   (if is_nearing_expiration m (vc_expiry_warning_days c) then [ExpiresIn expiry] else []))
   end, s).
Definition cleanup_expired_cache_entries (instant : Z) s : AM :=
  let s := with_metadata (filter (λ ke, is_expired ke.2 instant hour = false) (am_metadata_cache s)) s in
  if moka then s else with_validation (filter (λ ke, is_valid ke.2 instant minute = true) (am_validation_cache s)) s.
Definition get_statistics s : Z * Z := (am_success_count s, am_failure_count s).
End authentication.

(** ** Hexadecimal text reads back *)

Lemma hex_value_digit n : 0 ≤ n < 16 → hex_value (hex_digit n) = Some n.
Proof.
  intros H. assert (Hn : n ∈ seqZ 0 16) by (rewrite elem_of_seqZ; lia). revert n Hn H.
  assert (H : Forall (λ n, hex_value (hex_digit n) = Some n) (seqZ 0 16)) by (apply (bool_decide_unpack _); vm_compute; done).
  intros n Hn _. rewrite Forall_forall in H. by apply H.
Qed.
Lemma hex_decode_encode b : Forall (λ x, 0 ≤ x < 256) b → hex_decode (hex_encode b) = Some b.
Proof.
  induction 1 as [|x b Hx _ IH]; [done|]. cbn [hex_encode hex_decode].
  rewrite !hex_value_digit by (split; [apply Z.div_pos || apply Z.mod_pos_bound; lia|apply Z.div_lt_upper_bound || apply Z.mod_pos_bound; lia]).
  rewrite IH. do 2 f_equal. symmetry. apply Z.div_mod. lia.
Qed.

(** ** Runs of equal bytes *)

(** The text holds [n] bytes [b] in a row. *)
Definition has_run (b : Z) (n : nat) (l : bytes) : Prop := ∃ pre post, l = pre ++ replicate n b ++ post.
Lemma has_run_cons b n x l : has_run b n (x :: l) ↔ replicate n b `prefix_of` x :: l ∨ has_run b n l.
Proof.
  split.
  - intros ([|y pre] & post & E); [left; by exists post|right]. injection E as -> E. by exists pre, post.
  - intros [[post E]|(pre & post & ->)]; [by exists [], post|by exists (x :: pre), post].
Qed.
Lemma has_run_length b n l : has_run b n l → (n ≤ length l)%nat.
Proof. intros (pre & post & ->). rewrite !length_app, length_replicate. lia. Qed.
(** A run does not reach over another byte. *)
Lemma has_run_broken b n k x l :
  (k ≤ n)%nat → x ≠ b → has_run b (S n) (replicate k b ++ x :: l) ↔ has_run b (S n) l.
Proof.
  intros Hk Hx.
  assert (Hno : ∀ j, (j ≤ n)%nat → ¬ replicate (S n) b `prefix_of` replicate j b ++ x :: l).
  { intros j Hj [post E]. apply (f_equal (lookup j)) in E.
    rewrite lookup_app_r, length_replicate, Nat.sub_diag in E by (rewrite length_replicate; lia).
    rewrite lookup_app_l, lookup_replicate_2 in E by (rewrite ?length_replicate; lia). simpl in E. congruence. }
  induction k as [|k IH]; cbn [replicate app].
  - rewrite has_run_cons. specialize (Hno 0%nat ltac:(lia)). cbn [replicate app] in *. tauto.
  - rewrite has_run_cons, IH by lia. specialize (Hno (S k) ltac:(lia)). cbn [replicate app] in *. tauto.
Qed.
Lemma has_run_replicate b n l : has_run b n (replicate n b ++ l).
Proof. by exists [], l. Qed.
Lemma replicate_snoc_cons {A} k (b : A) l : replicate k b ++ b :: l = replicate (S k) b ++ l.
Proof. induction k as [|k IH]; [done|]. cbn [replicate app] in *. by rewrite IH. Qed.
(** The counting loop finds exactly the runs, those in progress included. *)
Lemma excessive_run_iff max_null max_ff null ff der :
  (null ≤ max_null)%nat → (ff ≤ max_ff)%nat →
  excessive_run max_null max_ff null ff der = true ↔
  has_run 0 (S max_null) (replicate null 0 ++ der) ∨ has_run 255 (S max_ff) (replicate ff 255 ++ der).
Proof.
  revert null ff. induction der as [|b der IH]; intros null ff Hn Hf; cbn [excessive_run].
  { split; [done|]. rewrite !app_nil_r. intros [H|H]; apply has_run_length in H; rewrite length_replicate in H; lia. }
  destruct (Z.eqb_spec b 0) as [->|H0]; [|destruct (Z.eqb_spec b 255) as [->|H255]].
  - rewrite replicate_snoc_cons, has_run_broken, orb_true_iff by lia. destruct (Nat.ltb_spec max_null (S null)) as [Hlt|Hge].
    + replace (S null) with (S max_null) by lia. split; [left; apply has_run_replicate|auto].
    + rewrite IH by lia. cbn [replicate app]. split; [intros [?|?]; [done|tauto]|tauto].
  - rewrite replicate_snoc_cons, (has_run_broken 0), orb_true_iff by lia. destruct (Nat.ltb_spec max_ff (S ff)) as [Hlt|Hge].
    + replace (S ff) with (S max_ff) by lia. split; [right; apply has_run_replicate|auto].
    + rewrite IH by lia. cbn [replicate app]. split; [intros [?|?]; [done|tauto]|tauto].
  - rewrite !has_run_broken by lia. rewrite IH by lia. done.
Qed.
Lemma has_run_section b n l lo hi :
  (hi ≤ length l)%nat → (lo + n ≤ hi)%nat → forallb (Z.eqb b) (section l lo hi) = true → has_run b n l.
Proof.
  intros Hhi Hlo H. unfold section in H.
  assert (E : take (hi - lo) (drop lo l) = replicate (hi - lo) b).
  { symmetry. apply replicate_as_elem_of. split; [rewrite length_take, length_drop; lia|].
    intros x Hx. apply list_elem_of_In in Hx. rewrite forallb_forall in H. apply H, Z.eqb_eq in Hx. done. }
  exists (take lo l), (replicate (hi - lo - n) b ++ drop (hi - lo) (drop lo l)).
  rewrite (app_assoc (replicate n b)), <- replicate_add. replace (n + (hi - lo - n))%nat with (hi - lo)%nat by lia.
  rewrite <- E, !take_drop. done.
Qed.

(** The filter in front of validation refuses exactly the inputs that are
    shorter than a hundred bytes, do not start with a sequence tag, or hold five
    bytes [0xFF] or nine zero bytes in a row; the additional look at the middle
    and the beginning refuses nothing more. *)
Theorem obviously_corrupted_iff der :
  is_certificate_obviously_corrupted der = true ↔
  (length der < 100)%nat ∨ head der ≠ Some 48 ∨ has_run 255 5 der ∨ has_run 0 9 der.
Proof.
  unfold is_certificate_obviously_corrupted. destruct (Nat.ltb_spec (length der) 100) as [Hl|Hl]; [tauto|].
  destruct der as [|b der']; [simpl in Hl; lia|]. cbn [head from_option default]. change (id b) with b. set (der := b :: der') in *.
  destruct (Z.eqb_spec b 48) as [->|Hb]; cbn [negb]; [|split; [|done]; intros _; right; left; congruence].
  pose proof (excessive_run_iff 8 4 0 0 der ltac:(lia) ltac:(lia)) as Hr. cbn [replicate app] in Hr.
  destruct (excessive_run 8 4 0 0 der); [tauto|].
  split; [|intros [?|[?|H]]; [lia|congruence|]; exfalso; assert (false = true) by tauto; done].
  intros H. destruct (Nat.ltb_spec (length der / 2 + 8) (length der)) as [Hm|Hm]; [|done].
  apply andb_prop in H as [H _]. right. right. left.
  eapply (has_run_section 255 5 der (length der / 2) (length der / 2 + 8)); [lia|lia|done].
Qed.

(** ** The set of revoked certificates *)

Lemma refresh_insert_revoked fp s x :
  x ∈ am_revoked_certificates (refresh_insert fp s) ↔ fingerprint_bytes fp = Some x ∨ x ∈ am_revoked_certificates s.
Proof. unfold refresh_insert. destruct (fingerprint_bytes fp) as [b|]; simpl; set_solver. Qed.
Lemma refresh_revoked_iff {O L} (m : CertificateManager O L) s x :
  x ∈ am_revoked_certificates (refresh_revoked_certificates m s) ↔
  ∃ fp, fp ∈ get_revoked_certificate_fingerprints m ∧ fingerprint_bytes fp = Some x.
Proof.
  unfold refresh_revoked_certificates. set (l := get_revoked_certificate_fingerprints m). clearbody l.
  assert (H : ∀ s, x ∈ am_revoked_certificates (foldl (λ s fp, refresh_insert fp s) s l) ↔
              (∃ fp, fp ∈ l ∧ fingerprint_bytes fp = Some x) ∨ x ∈ am_revoked_certificates s).
  { induction l as [|fp l IH]; intros s0; simpl; [set_solver|]. rewrite IH, refresh_insert_revoked. set_solver. }
  rewrite H. simpl. set_solver.
Qed.

(** ** Lists of complaints *)

Lemma flagged_nil {A} (b : bool) (P : Prop) `{!Decision P} (x : A) : (if b && bool_decide P then [x] else []) = [] ↔ (b = true → ¬ P).
Proof. destruct b; simpl; [case_bool_decide|]; intuition congruence. Qed.
Lemma bounded_nil {A} (bound : option Z) (n : Z) (x : A) :
  match bound with Some max => if max <? n then [x] else [] | None => [] end = [] ↔ (∀ max, bound = Some max → n ≤ max).
Proof.
  destruct bound as [max|]; [|by split].
  destruct (Z.ltb_spec max n); split; [done| |by intros _ ? [= <-]|done]. intros H'. specialize (H' max eq_refl). lia.
Qed.

(** ** Who is authenticated *)

Section sound.
Context {Key Cert Anchor Entity : Type} `{!Pki Key Cert, !AuthCrypto Anchor Entity, digest : !DigestLaws}.
Implicit Types (der ca : bytes) (cas : list bytes) (v : nat → AM) (s : AM).

(** The certificate names the authority as its issuer and carries a signature
    that the key of the authority verifies under some algorithm. *)
Definition signed_by (cert : AuthCert) ca : Prop :=
  ∃ authority alg, parse_certificate_lenient ca = Ok authority ∧ ac_issuer cert = ac_subject authority ∧
                   ring_verify alg (ac_public_key authority) (ac_tbs cert) (ac_signature cert) = true.
Lemma signature_ok_signed cert ca : signature_ok cert ca = true → signed_by cert ca.
Proof using Type.
  unfold signature_ok, validate_certificate_signature. destruct (parse_certificate_lenient ca) as [authority|] eqn:E; simpl; [|done].
  destruct (bool_decide_reflect (ac_issuer cert = ac_subject authority)) as [Hi|]; simpl; [|done]. intros H.
  assert (Ha : ∃ alg, ring_verify alg (ac_public_key authority) (ac_tbs cert) (ac_signature cert) = true).
  { repeat match type of H with context [String.eqb ?o ?t] => destruct (String.eqb o t); simpl in H end; try done.
    all: repeat match type of H with context [ring_verify ?alg] => let E := fresh in destruct (ring_verify alg _ _ _) eqn:E; simpl in H; [by eexists|] end.
    all: done. }
  destruct Ha as [alg Ha]. by exists authority, alg.
Qed.
(** Validation by signature *)
Definition signed der cas (now : Z) : Prop :=
  ∃ cert ca, parse_certificate der = Ok cert ∧ ca ∈ cas ∧ signature_ok cert ca = true ∧ 0 ≤ now ∧ ac_not_before cert ≤ now ≤ ac_not_after cert.
(** Acceptance by [webpki], or for want of an extended key usage *)
Definition accepted_by_webpki der cas (now : Z) : Prop :=
  ∃ entity, end_entity der = inl entity ∧ omap trust_anchor cas ≠ [] ∧
    (verify_server entity (omap trust_anchor cas) now = None ∨
     ∃ e, verify_server entity (omap trust_anchor cas) now = Some e ∧ eku_missing e = true ∧
       (verify_client entity (omap trust_anchor cas) now = None ∨
        ∃ e', verify_client entity (omap trust_anchor cas) now = Some e' ∧ eku_missing e' = true)).
(** [webpki] has no trust anchor, or cannot read the certificate. *)
Definition webpki_unusable der cas : Prop := omap trust_anchor cas = [] ∨ ∃ e, end_entity der = inr e.
Definition trusted der cas (now now' : Z) : Prop :=
  accepted_by_webpki der cas now ∨ webpki_unusable der cas ∧ signed der cas now ∨ signed der cas now'.

Lemma validity_check_ok not_before not_after now :
  validity_check not_before not_after now = Ok tt ↔ 0 ≤ now ∧ not_before ≤ now ≤ not_after.
Proof using Type.
  unfold validity_check. destruct (Z.ltb_spec now 0); [split; [done|lia]|]. destruct (Z.ltb_spec now not_before); [split; [done|lia]|].
  destruct (Z.ltb_spec not_after now); [split; [done|lia]|]. split; [lia|done].
Qed.
Lemma legacy_ok der cas now : validate_certificate_signature_legacy der cas now = Ok tt ↔ signed der cas now.
Proof using Type.
  unfold validate_certificate_signature_legacy, signed. destruct (parse_certificate der) as [cert|] eqn:E; simpl; [|naive_solver].
  unfold validate_against_root_ca. destruct (existsb (signature_ok cert) cas) eqn:Ex.
  - apply existsb_exists in Ex as (ca & Hin & Hs). rewrite validity_check_ok. split.
    + intros H. exists cert, ca. split_and!; try done; [by apply list_elem_of_In|lia..].
    + intros (c & ? & [= <-] & _ & _ & H). lia.
  - split; [done|]. intros (c & ca & [= <-] & Hin & Hs & _). exfalso.
    assert (existsb (signature_ok cert) cas = true) by (apply existsb_exists; exists ca; split; [by apply list_elem_of_In|done]). congruence.
Qed.
Lemma parse_certificate_error der e : parse_certificate der = Err e → e = InvalidCertificate.
Proof using Type.
  unfold parse_certificate. destruct (x509_parse der) as [[remaining parsed]|]; simpl.
  all: repeat match goal with |- context [if ?c then _ else _] => destruct c end; congruence.
Qed.
Lemma legacy_no_panic der cas now : 0 ≤ now → validate_certificate_signature_legacy der cas now ≠ Err Panic.
Proof using Type.
  intros Hn. unfold validate_certificate_signature_legacy. destruct (parse_certificate der) as [cert|e] eqn:E; simpl.
  2:{ apply parse_certificate_error in E as ->. done. }
  unfold validity_check. rewrite (proj2 (Z.ltb_ge _ _) Hn). repeat case_match; done.
Qed.
Lemma webpki_ok der cas now :
  0 ≤ now →
  validate_certificate_with_webpki der cas now = Ok tt ↔ accepted_by_webpki der cas now ∨ webpki_unusable der cas ∧ signed der cas now.
Proof using Type.
  intros Hn. unfold validate_certificate_with_webpki, accepted_by_webpki, webpki_unusable.
  destruct (bool_decide_reflect (length (omap trust_anchor cas) = 0%nat)) as [H0|H0].
  { rewrite legacy_ok. apply nil_length_inv in H0. split; [auto|]. intros [(? & _ & ? & _)|[_ ?]]; done. }
  assert (Ha : omap trust_anchor cas ≠ []) by (intros E; rewrite E in H0; done).
  destruct (end_entity der) as [entity|e] eqn:Ee.
  2:{ rewrite legacy_ok. split; [eauto|]. intros [(? & ? & _)|[_ ?]]; done. }
  rewrite (proj2 (Z.ltb_ge _ _) Hn). destruct (verify_server _ _ _) as [e|] eqn:Es.
  2:{ split; [|done]. intros _. left. exists entity. auto. }
  assert (Hno : accepted_by_webpki der cas now ∨ webpki_unusable der cas ∧ signed der cas now →
                eku_missing e = true ∧ (verify_client entity (omap trust_anchor cas) now = None ∨
                  ∃ e', verify_client entity (omap trust_anchor cas) now = Some e' ∧ eku_missing e' = true)).
  { unfold accepted_by_webpki, webpki_unusable. rewrite Ee. intros [(en & [= <-] & _ & H)|[[?|[? ?]] _]]; [|done|done].
    rewrite Es in H. destruct H as [|(e0 & [= <-] & H)]; done. }
  unfold accepted_by_webpki, webpki_unusable in Hno. rewrite Ee in Hno.
  destruct (eku_missing e) eqn:Em; [|split; [done|intros H%Hno; by destruct H]].
  destruct (verify_client _ _ _) as [e'|] eqn:Ec; [destruct (eku_missing e') eqn:Em'|].
  - split; [|done]. intros _. left. exists entity. eauto 10.
  - split; [done|]. intros H%Hno. destruct H as [_ [?|(e0 & ? & ?)]]; congruence.
  - split; [|done]. intros _. left. exists entity. eauto 10.
Qed.
Lemma webpki_no_panic der cas now : 0 ≤ now → validate_certificate_with_webpki der cas now ≠ Err Panic.
Proof using Type.
  intros Hn. unfold validate_certificate_with_webpki. pose proof (legacy_no_panic der cas now Hn). repeat first [done | case_match].
Qed.
Lemma revoked_fingerprint der s :
  is_certificate_revoked (calculate_certificate_fingerprint der) s = bool_decide (sha256 der ∈ am_revoked_certificates s).
Proof using All.
  unfold is_certificate_revoked, fingerprint_bytes, calculate_certificate_fingerprint.
  rewrite hex_decode_encode by apply sha256_bytes. by rewrite sha256_length.
Qed.
Lemma not_revoked_ok der s : not_revoked der s = Ok tt ↔ sha256 der ∉ am_revoked_certificates s.
Proof using All. unfold not_revoked. rewrite revoked_fingerprint. case_bool_decide; naive_solver. Qed.
Lemma trusted_nonempty der cas now now' : trusted der cas now now' → cas ≠ [].
Proof using Type.
  intros [(e & _ & H & _)|[[_ (c & ca & _ & H & _)]|(c & ca & _ & H & _)]] ->; [done|by apply elem_of_nil in H..].
Qed.
Lemma chain_ok der rest now now' v :
  0 ≤ now →
  validate_certificate_chain_with_webpki (der :: rest) now now' v = Ok tt ↔
  trusted der (am_ca_chain (v 0%nat)) now now' ∧ sha256 der ∉ am_revoked_certificates (v 1%nat).
Proof using All.
  intros Hn. unfold validate_certificate_chain_with_webpki, nonempty_chain. set (cas := am_ca_chain _).
  case_bool_decide as Hc; simpl.
  { split; [done|]. intros [H _]. by apply trusted_nonempty in H. }
  pose proof (webpki_ok der cas now Hn) as Hw. pose proof (webpki_no_panic der cas now Hn) as Hp. unfold trusted.
  rewrite <- not_revoked_ok. destruct (validate_certificate_with_webpki der cas now) as [[]|e]; simpl; [tauto|].
  assert (E : match e with Panic => Err Panic | _ => validate_certificate_signature_legacy der cas now' end
              = validate_certificate_signature_legacy der cas now') by (destruct e; done).
  rewrite E, <- (legacy_ok der cas now'). destruct Hw as [_ Hw]. destruct (validate_certificate_signature_legacy der cas now') as [[]|]; simpl.
  - tauto.
  - split; [done|]. intros [[H|[H|H]] _]; [discriminate Hw; auto|discriminate Hw; auto|done].
Qed.
Lemma extract_principal_ok der p :
  extract_principal_from_certificate der = Ok p ↔ ∃ cert, parse_certificate der = Ok cert ∧ p = principal_of cert.
Proof using Type.
  unfold extract_principal_from_certificate, extract_principal_with_webpki, legacy_principal.
  destruct (end_entity der), (parse_certificate der) as [cert|]; simpl; (split; [intros [= <-]; eauto|intros (c & E & ->); congruence]).
Qed.
(** A connection is authenticated exactly when its peer presents a chain
    whose first certificate is trusted (by [webpki] against the trust anchors, or
    because the usages [webpki] asks for are both missing, or by a signature of
    an authority within the validity period), is in the set of revoked
    certificates at neither of the two looks at it, and parses; the identity is
    then the first common name of its subject, or the text of the subject. *)
Theorem authenticate_iff peer now now' instant v ctx :
  0 ≤ now →
  (authenticate_connection peer now now' instant v).1 = Ok ctx ↔
  ∃ der rest cert, peer = Some (Some (der :: rest)) ∧ trusted der (am_ca_chain (v 0%nat)) now now' ∧
    (sha256 der ∉ am_revoked_certificates (v 1%nat)) ∧ (sha256 der ∉ am_revoked_certificates (v 3%nat)) ∧ parse_certificate der = Ok cert ∧
    ctx = mkAuthContext (principal_of cert) (Some (hex_encode (sha256 der))) instant ["authenticated"].
Proof using All.
  intros Hn. destruct peer as [[[|der rest]|]|]; [split; [done|naive_solver]| |split; [done|naive_solver]..].
  unfold authenticate_connection, extract_client_certificates, validate_certificate_chain. cbn [ok_or rbind fst].
  pose proof (chain_ok der rest now now' v Hn) as Hc. rewrite revoked_fingerprint. split.
  - destruct (validate_certificate_chain_with_webpki _ _ _ _) as [[]|]; [|by cbn]. destruct Hc as [Hc _]. destruct (Hc eq_refl) as [Ht Hr]. cbn [rbind get_principal_groups].
    case_bool_decide as H3; [done|]. destruct (extract_principal_from_certificate der) as [p|] eqn:Ep; [|done].
    apply extract_principal_ok in Ep as (cert & Ec & ->). intros [= <-]. by exists der, rest, cert.
  - intros (der' & rest' & cert & [= <- <-] & Ht & H1 & H3 & Ec & ->). rewrite (proj2 Hc (conj Ht H1)). cbn [rbind get_principal_groups].
    rewrite bool_decide_eq_false_2 by done. rewrite (proj2 (extract_principal_ok der (principal_of cert))) by eauto. done.
Qed.

(** ** Revocation reaches authentication *)

Lemma authenticated_unrevoked der rest now now' instant v ctx :
  0 ≤ now → (authenticate_connection (Some (Some (der :: rest))) now now' instant v).1 = Ok ctx →
  (sha256 der ∉ am_revoked_certificates (v 1%nat)) ∧ (sha256 der ∉ am_revoked_certificates (v 3%nat)).
Proof using All.
  intros Hn. unfold authenticate_connection, validate_certificate_chain. cbn [extract_client_certificates ok_or rbind fst]. rewrite revoked_fingerprint.
  pose proof (chain_ok der rest now now' v Hn) as Hc. destruct (validate_certificate_chain_with_webpki _ _ _ _) as [[]|]; [|by cbn].
  destruct Hc as [Hc _]. destruct (Hc eq_refl) as [_ Hr]. cbn [rbind]. by case_bool_decide.
Qed.
(** C29: After the set of revoked certificates has been refreshed from a manager
    with a sound table, no connection that presents a certificate the table
    calls revoked is authenticated, whatever the trust anchors, the clock and
    the rest of the manager are, as long as one of the two looks at the set sees
    it refreshed. *)
Theorem revoked_cannot_authenticate {O L} `{!ObjectStorage.ObjectStorage O, !KeyEncryption.KeyCrypto, !ObjectStorage.ObjectStorageLaws O}
    (m : CertificateManager O L) id mt der rest s now now' instant v ctx :
  wf m → cm_certificates m !! id = Some mt → ci_status (mt_info mt) = Revoked → head (pem_certs (mt_pem_data mt)) = Some der → 0 ≤ now →
  (∃ k, k ∈ [1%nat; 3%nat] ∧ am_revoked_certificates (v k) = am_revoked_certificates (refresh_revoked_certificates m s)) →
  (authenticate_connection (Some (Some (der :: rest))) now now' instant v).1 ≠ Ok ctx.
Proof using All.
  intros Hw Hm Hs Hd Hn (k & Hk & Hv) Ha. apply authenticated_unrevoked in Ha as [Hno1 Hno3]; [|done].
  assert (Hr : sha256 der ∈ am_revoked_certificates (v k)).
  { rewrite Hv, refresh_revoked_iff. exists (ci_fingerprint (mt_info mt)). split.
    - unfold get_revoked_certificate_fingerprints, values. apply list_elem_of_fmap. exists mt. split; [done|]. apply list_elem_of_filter. split; [done|].
      apply list_elem_of_fmap. exists (id, mt). split; [done|]. by apply elem_of_map_to_list.
    - destruct (cw_fingerprint _ _ _ (Hw _ _ Hm)) as (d & Hd' & ->). rewrite Hd in Hd'. injection Hd' as <-.
      unfold fingerprint_bytes, calculate_fingerprint. rewrite hex_decode_encode by apply sha256_bytes. by rewrite sha256_length. }
  set_solver.
Qed.

(** ** Policies *)

Context {parsers : MetadataParsers}.
(** The result of validation by policy is valid exactly when the certificate
    passes the comprehensive validation and its description breaks none of the
    rules of the policy that are looked at: key strength, length of the validity
    period and alternative names. *)
Theorem policies_valid_iff der c parsed_at now_ns instant now now' v r s :
  validate_certificate_with_policies der c parsed_at now_ns instant now now' v = (Ok r, s) →
  ∃ m, (extract_certificate_metadata der parsed_at now_ns instant (v 0%nat)).1 = Ok m ∧
    (pr_is_valid r = true ↔
       validate_certificate_comprehensive der now now' (λ k, v (S k)) = Ok tt ∧
       (vc_require_strong_keys c = true → pk_strength (md_public_key_info m) ≠ Weak) ∧
       (∀ max, vc_max_validity_days c = Some max → vp_validity_duration_seconds (md_validity_period m) / 86400 ≤ max) ∧
       (vc_require_san c = true → md_subject_alt_names m ≠ [])).
Proof using Type.
  unfold validate_certificate_with_policies. destruct (extract_certificate_metadata _ _ _ _ _) as [[m|] s1]; simpl; [|done].
  intros H. exists m. split; [done|].
  destruct (validate_certificate_comprehensive _ _ _ _) as [[]|e]; [|destruct e; try done; injection H as <- _; simpl; (split; [done|by intros [? _]])].
  injection H as <- _. cbn [pr_is_valid]. rewrite bool_decide_eq_true, length_zero_iff_nil. unfold policy_errors.
  change (24 * 3600) with 86400. cbv zeta. rewrite !app_nil, !flagged_nil, bounded_nil, length_zero_iff_nil. tauto.
Qed.
End sound.

(** With the default features no validation is ever cached. *)
Lemma moka_never_caches {Key Cert Anchor Entity} `{!Pki Key Cert, !AuthCrypto Anchor Entity} der now now' instant v :
  am_validation_cache (v 0%nat) = ∅ → am_validation_cache (v 3%nat) = ∅ →
  let '(r, s) := validate_certificate true der now now' instant v in
  r = validate_certificate_comprehensive der now now' (λ k, v (S k)) ∧ am_validation_cache s = ∅.
Proof.
  intros H0 H3. unfold validate_certificate, cached_validation. rewrite H0, lookup_empty.
  destruct (validate_certificate_comprehensive _ _ _ _) as [|e]; [by split|]. by destruct e.
Qed.

(** ** A small certificate format *)

Module AuthDemo.
#[local] Existing Instance CertDemo.pki.
(** A certificate is a sequence tag, its subject, its issuer, the key that
    signed it, its extended usage (1 server, 2 client, 3 code signing) and
    padding; [webpki] looks at the usage before it looks for an issuer. *)
Definition certificate (subject issuer key usage : Z) : bytes := [48; subject; issuer; key; usage] ++ replicate 100 1.
Definition letter (b : Z) : string := String (ascii_of_N (Z.to_N b)) EmptyString.
Definition name (b : Z) : X509Name := mkX509Name [b] [[("2.5.4.3", Some (letter b))]].
Definition issued_by (entity : bytes) (anchors : list Z) : bool :=
  match entity with _ :: _ :: issuer :: key :: _ => bool_decide (issuer ∈ anchors) && (issuer =? key) | _ => false end.
Definition webpki_verify (allowed : list Z) (entity : bytes) (anchors : list Z) (_ : Z) : option string :=
  if bool_decide (default 0 (entity !! 4%nat) ∈ allowed) then if issued_by entity anchors then None else Some "UnknownIssuer"
  else Some "RequiredEkuNotFound".
#[local] Instance auth_crypto : AuthCrypto Z bytes := {|
  x509_parse b :=
    match b with
    | 48 :: subject :: issuer :: key :: _ =>
        Some ([], mkAuthCert (name subject) (name issuer) [1] 0 5000 "1.2.840.10045.4.3.2" (key :: replicate 40 1) (replicate 60 1) [subject])
    | _ => None
    end;
  name_text n := letter (default 0 (head (xn_raw n)));
  ring_verify alg key _ sig := match alg with EcdsaP256 => bool_decide (head key = head sig) | _ => false end;
  trust_anchor b := b !! 1%nat;
  end_entity b := if bool_decide (head b = Some 48) then inl b else inr "BadDer";
  verify_server := webpki_verify [0; 1];
  verify_client := webpki_verify [0; 2];
|}.
#[local] Instance demo_digest : DigestLaws.
Proof.
  split; intros b; cbn [sha256 CertDemo.pki].
  - by rewrite length_app.
  - apply Forall_app. split; [apply Forall_replicate; lia|]. constructor; [apply Z.mod_pos_bound; lia|constructor].
Qed.
Definition root : bytes := certificate 82 82 82 0.
Definition alice : bytes := certificate 65 82 82 2.
Definition manager : AM := auth_new [root].
Definition still (s : AM) (_ : nat) : AM := s.
Definition who (r : Result AuthContext) : option string := match r with Ok c => Some (ax_principal c) | Err _ => None end.

Lemma authenticate_iff_witness :
  (∃ der rest cert, Some (Some [alice]) = Some (Some (der :: rest)) ∧ trusted der [root] 100 101 ∧
     (sha256 der ∉ (∅ : gset bytes)) ∧ (sha256 der ∉ (∅ : gset bytes)) ∧ parse_certificate der = Ok cert ∧
     mkAuthContext "A" (Some (hex_encode (sha256 alice))) 7 ["authenticated"] =
       mkAuthContext (principal_of cert) (Some (hex_encode (sha256 der))) 7 ["authenticated"]).
Proof.
  assert (H : (authenticate_connection (Some (Some [alice])) 100 101 7 (still manager)).1
              = Ok (mkAuthContext "A" (Some (hex_encode (sha256 alice))) 7 ["authenticated"])) by (vm_compute; reflexivity).
  apply authenticate_iff in H; [exact H|lia].
Defined.
#[local] Existing Instance CertDemo.crypto.
#[local] Existing Instance ObjectStorage.Mem.storage.
#[local] Existing Instance ObjectStorage.Mem.laws.
Definition alice_issued : bytes := default [] (head (CertDemo.der_of CertDemo.alice CertDemo.s3)).
Lemma revoked_cannot_authenticate_witness :
  (authenticate_connection (Some (Some [alice_issued])) 100 101 7 (still (refresh_revoked_certificates CertDemo.s3 manager))).1
  ≠ Ok (mkAuthContext "alice" None 0 []).
Proof.
  destruct (cm_certificates CertDemo.s3 !! CertDemo.alice) as [mt|] eqn:Em; [|vm_compute in Em; discriminate Em].
  assert (Hs : ci_status (mt_info mt) = Revoked).
  { assert (H : (λ m, ci_status (mt_info m)) <$> cm_certificates CertDemo.s3 !! CertDemo.alice = Some Revoked) by (vm_compute; reflexivity).
    rewrite Em in H. injection H. done. }
  assert (Hd : head (pem_certs (mt_pem_data mt)) = Some alice_issued).
  { unfold alice_issued, CertDemo.der_of. rewrite Em. reflexivity. }
  eapply (revoked_cannot_authenticate CertDemo.s3 CertDemo.alice mt alice_issued [] manager 100 101 7);
    [exact CertDemo.s3_sound|exact Em|exact Hs|exact Hd|lia|].
  exists 1%nat. split; [left|reflexivity].
Defined.

(** A certificate that nobody the manager knows signed is accepted, with the
    name it gives itself, if its only extended usage is neither server nor
    client authentication. *)
Definition forged : bytes := certificate 65 88 88 3.
Example forged_usage_accepted :
  (who (authenticate_connection (Some (Some [forged])) 100 100 7 (still manager)).1,
   who (authenticate_connection (Some (Some [certificate 65 88 88 2])) 100 100 7 (still manager)).1) = (Some "A", None).
Proof. vm_compute. reflexivity. Qed.
(** While a refresh is under way, a certificate that was and stays revoked
    authenticates. *)
Definition alice_revoked : AM := refresh_insert (hex_encode (sha256 alice)) manager.
Example refresh_opens_window :
  let during := refresh_clear alice_revoked in
  (who (authenticate_connection (Some (Some [alice])) 100 100 7 (still alice_revoked)).1,
   who (authenticate_connection (Some (Some [alice])) 100 100 7 (still during)).1,
   who (authenticate_connection (Some (Some [alice])) 100 100 7 (still (refresh_insert (hex_encode (sha256 alice)) during))).1)
  = (None, Some "A", None).
Proof. vm_compute. reflexivity. Qed.
(** In a build without [moka-cache] a validation that was cached is repeated
    after the certificate is revoked, for a minute. *)
Example cached_success_survives_revocation :
  let '(r, s) := validate_certificate false alice 100 100 7 (still manager) in
  let revoked := refresh_insert (hex_encode (sha256 alice)) s in
  (r, (validate_certificate false alice 100 100 50000 (still revoked)).1, (validate_certificate false alice 100 100 60007 (still revoked)).1)
  = (Ok tt, Ok tt, Err CertificateRevoked).
Proof. vm_compute. reflexivity. Qed.
(** Of two common names one reader takes the first and the other the last. *)
Definition utf8 (s : string) : DerAny := mkAny (Some s) None None [].
Example two_common_names :
  (principal_of (mkAuthCert (mkX509Name [1] [[("2.5.4.3", Some "admin")]; [("2.5.4.3", Some "guest")]]) (name 82) [1] 0 1 EmptyString [] [] []),
   dn_common_name (parse_distinguished_name (mkName [[("2.5.4.3", utf8 "admin")]; [("2.5.4.3", utf8 "guest")]] EmptyString))) = ("admin", Some "guest").
Proof. vm_compute. reflexivity. Qed.
(** A key of two thousand bits, encoded in 263 bytes, is not called weak. *)
#[local] Instance no_parsers : MetadataParsers := {|
  x509cert_from_der _ := None; parsed_extensions _ := None; oid_from_der _ := None; utc_timestamp_ok _ := true
|}.
Example short_key_adequate :
  pk_strength (parse_public_key_info (mkSpki "1.2.840.113549.1.1.1" None (replicate 263 0))) = Adequate.
Proof. vm_compute. reflexivity. Qed.
End AuthDemo.
