(* ===== verification/UltraFast.v ===== *)
(** * The fast authorization engine

    Models [src/src/security/ultra_fast/]: decisions packed into words
    ([compact_encoding.rs]), the cache of a thread, a Robin Hood hash table
    ([thread_local_cache.rs]), the shared cache with its queue for eviction
    ([lockfree_cache.rs]), batch evaluation ([simd_evaluator.rs]) and the system
    over them ([mod.rs]).  Hash functions are parameters; the value of a key is a
    [u64].  Seconds and instants are counted from the base the code takes at its
    first use.  Latencies, metrics and hit rates are left out. *)

From Stdlib Require Import Ascii String.
From S2P Require Import Prelude Authorization.
Local Open Scope Z_scope.

(** ** Packed decisions *)

Record CompactAuthEntry := mkCompact { ca_key_hash : Z; ca_data : Z }.
#[global] Instance CompactAuthEntry_eq_dec : EqDecision CompactAuthEntry.
Proof. solve_decision. Defined.
Definition compact_empty : CompactAuthEntry := mkCompact 0 0.
(** [created_at] is the number of whole seconds from the base to the creation;
    negative when the entry is older, and then rounded towards the base. *)
Definition compact_new (key_hash : Z) (allowed : bool) (created_at ttl_seconds : Z) : CompactAuthEntry :=
  let expiry_timestamp :=
    if 0 <=? created_at then u64_add created_at ttl_seconds
    else if ttl_seconds <=? - created_at then 0 else ttl_seconds - - created_at in
  let data := if allowed then Z.shiftl 1 63 else 0 in
  let data := Z.lor data (Z.shiftl (Z.land expiry_timestamp 0x7FFFFFFF) 32) in
  mkCompact key_hash (Z.lor data 1).
Definition compact_allowed (e : CompactAuthEntry) : bool := negb (Z.shiftr (ca_data e) 63 =? 0).
Definition compact_expiry (e : CompactAuthEntry) : Z := Z.land (Z.shiftr (ca_data e) 32) 0x7FFFFFFF.
Definition compact_is_expired (e : CompactAuthEntry) (now : Z) : bool :=
  if compact_expiry e =? 0 then true else compact_expiry e <? Z.max 0 now.
Definition permission_bits (e : CompactAuthEntry) : Z := Z.land (ca_data e) 0xFFFFFFFF.
Definition encode_permission (p : Permission) : Z :=
  match p with Read => Z.shiftl 1 0 | Write => Z.shiftl 1 1 | Admin => Z.shiftl 1 2 end.
Definition decode_permission (bit : Z) : option Permission :=
  if negb (Z.land bit (Z.shiftl 1 0) =? 0) then Some Read
  else if negb (Z.land bit (Z.shiftl 1 1) =? 0) then Some Write
  else if negb (Z.land bit (Z.shiftl 1 2) =? 0) then Some Admin
  else None.
Definition has_permission (e : CompactAuthEntry) (p : Permission) : bool := negb (Z.land (permission_bits e) (encode_permission p) =? 0).
Definition compact_is_empty (e : CompactAuthEntry) : bool := (ca_key_hash e =? 0) && (ca_data e =? 0).

Record CompactPermissionSet := mkPermissionSet { cs_permission_mask : Z; cs_resource_pattern_hash : Z }.
Section sets.
Context (pattern_hash : string → Z).
Definition permission_set_new (permissions : list Permission) (resource_pattern : string) : CompactPermissionSet :=
  mkPermissionSet (foldl (λ m p, Z.lor m (encode_permission p)) 0 permissions) (pattern_hash resource_pattern mod u32_modulus).
Definition set_contains (s : CompactPermissionSet) (p : Permission) : bool := negb (Z.land (cs_permission_mask s) (encode_permission p) =? 0).
Definition matches_resource (s : CompactPermissionSet) (h : Z) : bool := cs_resource_pattern_hash s =? h.
Definition set_add_permission (p : Permission) (s : CompactPermissionSet) : CompactPermissionSet :=
  mkPermissionSet (Z.lor (cs_permission_mask s) (encode_permission p)) (cs_resource_pattern_hash s).
Definition set_remove_permission (p : Permission) (s : CompactPermissionSet) : CompactPermissionSet :=
  mkPermissionSet (Z.land (cs_permission_mask s) (Z.lnot (encode_permission p))) (cs_resource_pattern_hash s).
Definition set_is_empty (s : CompactPermissionSet) : bool := cs_permission_mask s =? 0.
End sets.

(** ** The hash table of a thread *)

(** An occupied entry; a bucket that is not occupied is [None]. The flag for
    recent use is set by an update and never read. *)
Record L1CacheEntry := mkL1 { l1_key_hash : Z; l1_auth_data : CompactAuthEntry; l1_probe_distance : Z; l1_recently_accessed : bool }.
Record RobinHoodHashTable := mkTable {
  rt_buckets : list (option L1CacheEntry);
  rt_size : nat;
  rt_max_probe_distance : Z;
}.
Definition rt_capacity (t : RobinHoodHashTable) : nat := length (rt_buckets t).
(** [usize::next_power_of_two] *)
Fixpoint power_of_two_from (fuel p n : nat) : nat :=
  match fuel with
  | O => p
  | S fuel => if (n <=? p)%nat then p else power_of_two_from fuel (2 * p) n
  end.
Definition next_power_of_two (n : nat) : nat := power_of_two_from n 1 n.
Definition table_new (capacity : nat) : RobinHoodHashTable := mkTable (replicate (next_power_of_two capacity) None) 0 0.
(** The bucket of a position, where the code masks with the capacity less one *)
Definition slot (capacity : nat) (pos : Z) : nat := Z.to_nat (pos mod Z.of_nat capacity).
Definition bucket (bs : list (option L1CacheEntry)) (pos : Z) : option L1CacheEntry := mjoin (bs !! slot (length bs) pos).
(** The distance is a [u16]. *)
Definition u16_add (a b : Z) : Z := (a + b) mod 65536.

Fixpoint probe (fuel : nat) (t : RobinHoodHashTable) (key_hash pos probe_distance : Z) : option (option bool) :=
  match fuel with
  | O => None
  | S fuel =>
      match bucket (rt_buckets t) pos with
      | None => Some None
      | Some entry =>
          if l1_key_hash entry =? key_hash then Some (Some (compact_allowed (l1_auth_data entry)))
          else if l1_probe_distance entry <? probe_distance then Some None
          else
            let probe_distance := u16_add probe_distance 1 in
            if rt_max_probe_distance t + 1 <? probe_distance then Some None
            else probe fuel t key_hash (pos + 1) probe_distance
      end
  end.
(** One more step than the code's own bound allows *)
Definition table_get (t : RobinHoodHashTable) (key_hash : Z) : option bool :=
  default None (probe (Z.to_nat (rt_max_probe_distance t + 3)) t key_hash key_hash 0).

(** The walk of an insertion: the buckets after it and, when an entry was
    added, the distance of the one that found the empty bucket. *)
Fixpoint place (fuel : nat) (key_hash : Z) (auth_data : CompactAuthEntry) (entry : L1CacheEntry) (pos : Z) (bs : list (option L1CacheEntry))
  : option (list (option L1CacheEntry) * option Z) :=
  match fuel with
  | O => None
  | S fuel =>
      let put e := <[slot (length bs) pos := Some e]> bs in
      match bucket bs pos with
      | None => Some (put entry, Some (l1_probe_distance entry))
      | Some current =>
          if l1_key_hash current =? key_hash then Some (put (mkL1 (l1_key_hash current) auth_data (l1_probe_distance current) true), None)
          else
            let '(bs, entry) := if l1_probe_distance current <? l1_probe_distance entry then (put entry, current) else (bs, entry) in
            place fuel key_hash auth_data
              (mkL1 (l1_key_hash entry) (l1_auth_data entry) (u16_add (l1_probe_distance entry) 1) (l1_recently_accessed entry)) (pos + 1) bs
      end
  end.
(** The part of [insert] after the check of the load *)
Definition insert_loaded (key_hash : Z) (auth_data : CompactAuthEntry) (t : RobinHoodHashTable) : option RobinHoodHashTable :=
  match place (S (rt_capacity t)) key_hash auth_data (mkL1 key_hash auth_data 0 false) key_hash (rt_buckets t) with
  | None => None
  | Some (bs, None) => Some (mkTable bs (rt_size t) (rt_max_probe_distance t))
  | Some (bs, Some d) => Some (mkTable bs (S (rt_size t)) (Z.max (rt_max_probe_distance t) d))
  end.
(** Three quarters of the capacity, rounded down *)
Definition overloaded (t : RobinHoodHashTable) : bool := (3 * rt_capacity t / 4 <=? rt_size t)%nat.
(** [insert] resizes and [resize] inserts; the depth counts nested resizes. *)
Fixpoint table_insert (depth : nat) (key_hash : Z) (auth_data : CompactAuthEntry) (t : RobinHoodHashTable) : option RobinHoodHashTable :=
  match (if overloaded t then
           match depth with
           | O => None
           | S depth =>
               foldl (λ t e, match t with Some t => table_insert depth (l1_key_hash e) (l1_auth_data e) t | None => None end)
                 (Some (mkTable (replicate (2 * rt_capacity t) None) 0 0)) (omap id (rt_buckets t))
           end
         else Some t) with
  | None => None
  | Some t => insert_loaded key_hash auth_data t
  end.
Definition table_clear (t : RobinHoodHashTable) : RobinHoodHashTable := mkTable (replicate (rt_capacity t) None) 0 0.

(** *** The invariant of the table *)

(** Positions are integers; a position and any other that differs by a multiple
    of the capacity are one bucket. *)
Section robin_hood.
Implicit Types (bs : list (option L1CacheEntry)) (e x : L1CacheEntry) (p q : Z).
Abbreviation cap bs := (Z.of_nat (length bs)).
Definition put p e bs : list (option L1CacheEntry) := <[slot (length bs) p := Some e]> bs.
(** An entry is as far from its home as it says, and one that is not at home
    follows one that is at most one step nearer to its own. *)
Record robin_hood bs : Prop := {
  rh_home p e : bucket bs p = Some e →
    0 ≤ l1_probe_distance e < cap bs ∧ (p - l1_probe_distance e) mod cap bs = l1_key_hash e mod cap bs;
  rh_near p e : bucket bs p = Some e → 0 < l1_probe_distance e →
    ∃ x, bucket bs (p - 1) = Some x ∧ l1_probe_distance e ≤ l1_probe_distance x + 1;
  rh_unique p q e x : bucket bs p = Some e → bucket bs q = Some x → l1_key_hash e = l1_key_hash x → p mod cap bs = q mod cap bs;
}.
(** The entry may be put at the position. *)
Record fits bs e p : Prop := {
  ft_home : 0 ≤ l1_probe_distance e ∧ (p - l1_probe_distance e) mod cap bs = l1_key_hash e mod cap bs;
  ft_near : 0 < l1_probe_distance e → ∃ x, bucket bs (p - 1) = Some x ∧ l1_probe_distance e ≤ l1_probe_distance x + 1;
}.
Definition holds bs (h : Z) (a : CompactAuthEntry) : Prop := ∃ p e, bucket bs p = Some e ∧ l1_key_hash e = h ∧ l1_auth_data e = a.
Definition absent bs (h : Z) : Prop := ∀ p e, bucket bs p = Some e → l1_key_hash e ≠ h.
Definition occupied bs : nat := length (omap id bs).

Lemma bucket_mod bs p q : p mod cap bs = q mod cap bs → bucket bs p = bucket bs q.
Proof. intros E. unfold bucket, slot. by rewrite E. Qed.
Lemma slot_lt bs p : (0 < length bs)%nat → (slot (length bs) p < length bs)%nat.
Proof. intros H. unfold slot. pose proof (Z.mod_pos_bound p (cap bs) ltac:(lia)). lia. Qed.
Lemma length_put p e bs : length (put p e bs) = length bs.
Proof. apply length_insert. Qed.
Lemma bucket_put_eq p q e bs : (0 < length bs)%nat → q mod cap bs = p mod cap bs → bucket (put p e bs) q = Some e.
Proof.
  intros H E. unfold bucket. rewrite length_put. unfold put, slot. rewrite E. fold (slot (length bs) p).
  by rewrite list_lookup_insert_eq by by apply slot_lt.
Qed.
Lemma bucket_put_ne p q e bs : (0 < length bs)%nat → q mod cap bs ≠ p mod cap bs → bucket (put p e bs) q = bucket bs q.
Proof.
  intros H E. unfold bucket. rewrite length_put. unfold put. rewrite list_lookup_insert_ne; [done|].
  unfold slot. pose proof (Z.mod_pos_bound p (cap bs) ltac:(lia)). pose proof (Z.mod_pos_bound q (cap bs) ltac:(lia)). lia.
Qed.
Lemma mod_shift_ne bs p k : 0 < k < cap bs → (p + k) mod cap bs ≠ p mod cap bs.
Proof.
  intros Hk E. assert (H : (p + k - p) mod cap bs = 0) by (rewrite Zminus_mod, E, Z.sub_diag; apply Z.mod_0_l; lia).
  replace (p + k - p) with k in H by lia. rewrite Z.mod_small in H by lia. lia.
Qed.
Lemma mod_add_eq bs p q k : p mod cap bs = q mod cap bs → (p + k) mod cap bs = (q + k) mod cap bs.
Proof. intros E. by rewrite Zplus_mod, E, <- Zplus_mod. Qed.
Lemma mod_sub_1 bs p q : p mod cap bs = q mod cap bs → (p - 1) mod cap bs = (q - 1) mod cap bs.
Proof. intros E. apply (mod_add_eq bs p q (-1)) in E. by rewrite <- !Z.add_opp_r. Qed.

(** An entry in the table fits where it is. *)
Lemma robin_hood_fits bs p e : robin_hood bs → bucket bs p = Some e → fits bs e p.
Proof. intros Hr He. destruct (rh_home _ Hr p e He) as [Hd Hm]. split; [split; [lia|done]|]. intros Hp. by apply (rh_near _ Hr). Qed.
(** Behind a position at which an entry fits, as many buckets are occupied as
    the entry is away from home, by entries as far away as their places are. *)
Lemma fits_chain bs e p i :
  robin_hood bs → fits bs e p → 0 < i ≤ l1_probe_distance e → ∃ x, bucket bs (p - i) = Some x ∧ l1_probe_distance e - i ≤ l1_probe_distance x.
Proof.
  intros Hr Hf Hi. destruct (Z_of_nat_complete (i - 1) ltac:(lia)) as [n En]. replace i with (Z.of_nat n + 1) in * by lia. clear En.
  induction n as [|n IH].
  - destruct (ft_near _ _ _ Hf ltac:(lia)) as (x & Hx & Hd). exists x. split; [done|lia].
  - destruct (IH ltac:(lia)) as (y & Hy & Hdy). destruct (rh_near _ Hr _ _ Hy ltac:(lia)) as (x & Hx & Hdx). exists x. split; [|lia].
    by replace (p - (Z.of_nat (S n) + 1)) with (p - (Z.of_nat n + 1) - 1) by lia.
Qed.
Lemma fits_lt bs e p z : (0 < length bs)%nat → robin_hood bs → fits bs e p → bucket bs z = None → l1_probe_distance e < cap bs.
Proof.
  intros Hc Hr Hf Hz. destruct (Z_lt_le_dec (l1_probe_distance e) (cap bs)) as [|Hge]; [done|]. exfalso.
  pose proof (Z.mod_pos_bound (p - 1 - z) (cap bs) ltac:(lia)) as Hb. set (i := (p - 1 - z) mod cap bs + 1) in *.
  destruct (fits_chain bs e p i Hr Hf ltac:(lia)) as (x & Hx & _).
  assert (E : (p - i) mod cap bs = z mod cap bs).
  { unfold i. replace (p - ((p - 1 - z) mod cap bs + 1)) with (p - 1 - (p - 1 - z) mod cap bs) by lia.
    rewrite Zminus_mod_idemp_r. f_equal. lia. }
  rewrite (bucket_mod _ _ _ E), Hz in Hx. done.
Qed.

(** *** Putting an entry *)

(** Where it fits, over nothing, itself or an entry nearer to home *)
Lemma put_robin_hood bs e p :
  (0 < length bs)%nat → robin_hood bs → fits bs e p → l1_probe_distance e < cap bs →
  (∀ q x, bucket bs q = Some x → l1_key_hash x = l1_key_hash e → q mod cap bs = p mod cap bs) →
  (∀ x, bucket bs p = Some x → l1_probe_distance x ≤ l1_probe_distance e) → robin_hood (put p e bs).
Proof.
  intros Hc Hr [[Hf0 Hf1] Hf2] Hlt Hu Hle.
  assert (Hcase : ∀ q x, bucket (put p e bs) q = Some x → q mod cap bs = p mod cap bs ∧ x = e ∨ q mod cap bs ≠ p mod cap bs ∧ bucket bs q = Some x).
  { intros q x Hq. destruct (Z.eq_dec (q mod cap bs) (p mod cap bs)) as [E|E]; [left|right].
    - rewrite bucket_put_eq in Hq by done. by injection Hq as <-.
    - by rewrite bucket_put_ne in Hq by done. }
  split; rewrite ?length_put.
  - intros q x [[Eq ->]|[_ Hx]]%Hcase; [|by apply (rh_home _ Hr)]. split; [lia|]. rewrite <- Hf1. by rewrite Zminus_mod, Eq, <- Zminus_mod.
  - intros q x [[Eq ->]|[Eq Hx]]%Hcase Hp.
    + destruct (Hf2 Hp) as (y & Hy & Hdy). exists y. split; [|done].
      rewrite bucket_put_ne; [by rewrite (bucket_mod _ _ _ (mod_sub_1 _ _ _ Eq))|done|].
      intros E. apply (mod_shift_ne bs (q - 1) 1); [lia|]. replace (q - 1 + 1) with q by lia. congruence.
    + destruct (rh_near _ Hr _ _ Hx Hp) as (y & Hy & Hdy). destruct (Z.eq_dec ((q - 1) mod cap bs) (p mod cap bs)) as [E|E].
      * exists e. split; [by apply bucket_put_eq|]. rewrite (bucket_mod _ _ _ E) in Hy. specialize (Hle _ Hy). lia.
      * exists y. split; [by rewrite bucket_put_ne|done].
  - intros q1 q2 x y [[E1 ->]|[E1 H1]]%Hcase [[E2 ->]|[E2 H2]]%Hcase Ek; [congruence|..].
    + by rewrite E1, (Hu _ _ H2).
    + by rewrite E2, (Hu _ _ H1).
    + by eapply (rh_unique _ Hr).
Qed.
Lemma holds_put bs e p h a :
  (0 < length bs)%nat →
  holds (put p e bs) h a ↔
  (h = l1_key_hash e ∧ a = l1_auth_data e) ∨ ∃ q x, q mod cap bs ≠ p mod cap bs ∧ bucket bs q = Some x ∧ l1_key_hash x = h ∧ l1_auth_data x = a.
Proof.
  intros Hc. split.
  - intros (q & x & Hq & Eh & Ea). destruct (Z.eq_dec (q mod cap bs) (p mod cap bs)) as [E|E].
    + rewrite bucket_put_eq in Hq by done. injection Hq as <-. by left.
    + rewrite bucket_put_ne in Hq by done. right. by exists q, x.
  - intros [[-> ->]|(q & x & E & Hx & Eh & Ea)].
    + exists p, e. by rewrite bucket_put_eq.
    + exists q, x. by rewrite bucket_put_ne.
Qed.
(** Over nothing the entry is added, over another it takes its place. *)
Lemma holds_put_new bs e p h a :
  (0 < length bs)%nat → bucket bs p = None → holds (put p e bs) h a ↔ holds bs h a ∨ (h = l1_key_hash e ∧ a = l1_auth_data e).
Proof.
  intros Hc Hn. rewrite holds_put by done. split; [intros [?|(q & x & _ & Hx & ? & ?)]; [by right|left; by exists q, x]|].
  intros [(q & x & Hx & ? & ?)|?]; [right|by left]. exists q, x. split_and!; try done. intros E. rewrite (bucket_mod _ _ _ E) in Hx. congruence.
Qed.
Lemma holds_put_over bs e x p h a :
  (0 < length bs)%nat → robin_hood bs → bucket bs p = Some x →
  holds (put p e bs) h a ↔ (holds bs h a ∧ h ≠ l1_key_hash x) ∨ (h = l1_key_hash e ∧ a = l1_auth_data e).
Proof.
  intros Hc Hr Hx. rewrite holds_put by done. split.
  - intros [?|(q & y & Hq & Hy & <- & <-)]; [by right|left]. split; [by exists q, y|]. intros E. apply Hq. by eapply (rh_unique _ Hr).
  - intros [[(q & y & Hy & <- & <-) Hne]|?]; [right|by left]. exists q, y. split_and!; try done. intros E. rewrite (bucket_mod _ _ _ E), Hx in Hy. congruence.
Qed.
Lemma occupied_cons (b : option L1CacheEntry) bs : occupied (b :: bs) = (match b with Some _ => 1 | None => 0 end + occupied bs)%nat.
Proof. by destruct b. Qed.
Lemma occupied_insert bs i e : (i < length bs)%nat → occupied (<[i := Some e]> bs) = (occupied bs + match mjoin (bs !! i) with Some _ => 0 | None => 1 end)%nat.
Proof.
  revert i. induction bs as [|b bs IH]; intros i Hi; [simpl in Hi; lia|]. destruct i as [|i].
  - change (<[0%nat:=Some e]> (b :: bs)) with (Some e :: bs). rewrite !occupied_cons. destruct b; simpl; lia.
  - change (<[S i:=Some e]> (b :: bs)) with (b :: <[i:=Some e]> bs). rewrite !occupied_cons, IH by (simpl in Hi; lia). simpl. lia.
Qed.
Lemma occupied_put bs e p : (0 < length bs)%nat → occupied (put p e bs) = (occupied bs + match bucket bs p with Some _ => 0 | None => 1 end)%nat.
Proof. intros Hc. apply occupied_insert, slot_lt, Hc. Qed.

(** *** The walk of an insertion *)

Lemma u16_add_small d : 0 ≤ d → d + 1 < 65536 → u16_add d 1 = d + 1.
Proof. intros. unfold u16_add. by rewrite Z.mod_small by lia. Qed.
(** One step further, behind an entry at least as far from home *)
Lemma fits_next bs e x p z k :
  (0 < length bs)%nat → cap bs ≤ 65536 → robin_hood bs → bucket bs z = None → bucket bs p = Some x → l1_probe_distance e ≤ l1_probe_distance x →
  0 ≤ l1_probe_distance e → (p - l1_probe_distance e) mod cap bs = k mod cap bs → l1_key_hash e = k →
  let e' := mkL1 k (l1_auth_data e) (u16_add (l1_probe_distance e) 1) (l1_recently_accessed e) in fits bs e' (p + 1) ∧ l1_probe_distance e' = l1_probe_distance e + 1.
Proof.
  intros Hc Hm Hr Hz Hx Hd H0 Hh Hk. cbv zeta.
  assert (Hf : fits bs (mkL1 k (l1_auth_data e) (l1_probe_distance e + 1) (l1_recently_accessed e)) (p + 1)).
  { split; simpl.
    - split; [lia|]. by replace (p + 1 - (l1_probe_distance e + 1)) with (p - l1_probe_distance e) by lia.
    - intros _. exists x. split; [by replace (p + 1 - 1) with p by lia|lia]. }
  pose proof (fits_lt _ _ _ _ Hc Hr Hf Hz) as Hlt. simpl in Hlt. rewrite u16_add_small by lia. by split.
Qed.
Definition added bs bs' (h : Z) (a : CompactAuthEntry) : Prop :=
  length bs' = length bs ∧ robin_hood bs' ∧ occupied bs' = S (occupied bs) ∧ ∀ h' a', holds bs' h' a' ↔ holds bs h' a' ∨ (h' = h ∧ a' = a).
Lemma place_added n fuel k a e p bs :
  (0 < length bs)%nat → cap bs ≤ 65536 → robin_hood bs → fits bs e p → absent bs (l1_key_hash e) →
  bucket bs (p + Z.of_nat n) = None → (∀ i, (i < n)%nat → ∃ x, bucket bs (p + Z.of_nat i) = Some x ∧ l1_key_hash x ≠ k) →
  Z.of_nat n < cap bs → (n < fuel)%nat →
  ∃ bs' d, place fuel k a e p bs = Some (bs', Some d) ∧ 0 ≤ d < cap bs ∧ added bs bs' (l1_key_hash e) (l1_auth_data e).
Proof.
  intros Hc. revert fuel e p bs Hc. induction n as [|n IH]; intros fuel e p bs Hc Hm Hr Hf Hab Hz Hocc Hn Hfu.
  all: (destruct fuel as [|fuel]; [lia|]); cbn [place].
  - rewrite Z.add_0_r in Hz. rewrite Hz. eexists _, _. split; [done|]. split; [split; [apply Hf|by eapply fits_lt]|]. fold (put p e bs). unfold added.
    rewrite length_put, occupied_put, Hz by done. split_and!; [done| |lia|intros; by apply holds_put_new].
    apply put_robin_hood; try done; [by eapply fits_lt|intros q x Hq E; by destruct (Hab q x)|congruence].
  - destruct (Hocc 0%nat ltac:(lia)) as (x & Hx & Hxk). rewrite Z.add_0_r in Hx. rewrite Hx, (proj2 (Z.eqb_neq _ _) Hxk). fold (put p e bs).
    assert (Hz' : bucket bs (p + 1 + Z.of_nat n) = None) by (by replace (p + 1 + Z.of_nat n) with (p + Z.of_nat (S n)) by lia).
    pose proof (rh_home _ Hr _ _ Hx) as [Hx0 Hxh]. destruct (ft_home _ _ _ Hf) as [He0 Heh].
    assert (Hshift : ∀ i, (i ≤ n)%nat → (p + 1 + Z.of_nat i) mod cap bs ≠ p mod cap bs)
      by (intros i Hi; replace (p + 1 + Z.of_nat i) with (p + (1 + Z.of_nat i)) by lia; apply mod_shift_ne; lia).
    destruct (Z.ltb_spec (l1_probe_distance x) (l1_probe_distance e)) as [Hlt|Hge].
    + assert (Hu : ∀ q y, bucket bs q = Some y → l1_key_hash y = l1_key_hash e → q mod cap bs = p mod cap bs) by (intros q y Hq E; by destruct (Hab q y)).
      assert (Hr1 : robin_hood (put p e bs)).
      { apply put_robin_hood; try done; [by eapply fits_lt|]. intros y Hy. rewrite Hx in Hy. injection Hy as <-. lia. }
      destruct (fits_next (put p e bs) x e p (p + 1 + Z.of_nat n) (l1_key_hash x)) as [Hf1 Hd1]; rewrite ?length_put; try done;
        [by rewrite bucket_put_ne by (try done; by apply Hshift)|by apply bucket_put_eq|lia|lia|].
      destruct (IH fuel (mkL1 (l1_key_hash x) (l1_auth_data x) (u16_add (l1_probe_distance x) 1) (l1_recently_accessed x)) (p + 1) (put p e bs))
        as (bs' & d & E & Hdd & Hl & Hr' & Ho & Hh); rewrite ?length_put; try done; try lia.
      * intros q y Hq E. simpl in E. destruct (Z.eq_dec (q mod cap bs) (p mod cap bs)) as [Eq|Eq].
        -- rewrite bucket_put_eq in Hq by done. injection Hq as <-. by destruct (Hab p x).
        -- rewrite bucket_put_ne in Hq by done. apply Eq. by eapply (rh_unique _ Hr).
      * by rewrite bucket_put_ne by (try done; by apply Hshift).
      * intros i Hi. destruct (Hocc (S i) ltac:(lia)) as (y & Hy & Hyk). exists y. split; [|done].
        rewrite bucket_put_ne by (try done; apply Hshift; lia). by replace (p + 1 + Z.of_nat i) with (p + Z.of_nat (S i)) by lia.
      * exists bs', d. split; [done|]. rewrite length_put in Hdd. split; [done|]. unfold added. rewrite Hl, length_put, Ho, occupied_put, Hx by done. split_and!; [done|done|lia|].
        intros h' a'. rewrite Hh. simpl. rewrite (holds_put_over _ _ x) by done. split.
        -- intros [[[? _]|?]|[-> ->]]; [by left|by right|left; by exists p, x].
        -- intros [Hho|?]; [|by auto]. destruct (Z.eq_dec h' (l1_key_hash x)) as [->|]; [right|by auto].
           destruct Hho as (q & y & Hy & Ek & Ea). assert (y = x) as -> by (rewrite (bucket_mod _ _ _ (rh_unique _ Hr _ _ _ _ Hy Hx Ek)) in Hy; congruence). done.
    + destruct (fits_next bs e x p (p + 1 + Z.of_nat n) (l1_key_hash e)) as [Hf1 Hd1]; try done.
      apply (IH fuel (mkL1 (l1_key_hash e) (l1_auth_data e) (u16_add (l1_probe_distance e) 1) (l1_recently_accessed e)) (p + 1) bs); try done; try lia.
      intros i Hi. destruct (Hocc (S i) ltac:(lia)) as (y & Hy & Hyk). exists y. split; [|done]. by replace (p + 1 + Z.of_nat i) with (p + Z.of_nat (S i)) by lia.
Qed.
(** On the way from its home to where a hash is found, every bucket is occupied
    by an entry with another hash, at least as far away as its place is. *)
Lemma path_to bs p e :
  robin_hood bs → bucket bs p = Some e →
  bucket bs (l1_key_hash e + l1_probe_distance e) = Some e ∧
  ∀ i, 0 ≤ i < l1_probe_distance e → ∃ x, bucket bs (l1_key_hash e + i) = Some x ∧ l1_key_hash x ≠ l1_key_hash e ∧ i ≤ l1_probe_distance x.
Proof.
  intros Hr He. destruct (rh_home _ Hr _ _ He) as [Hd Hh].
  assert (E : (l1_key_hash e + l1_probe_distance e) mod cap bs = p mod cap bs)
    by (rewrite <- (mod_add_eq bs _ _ (l1_probe_distance e) Hh); f_equal; lia).
  split; [by rewrite (bucket_mod _ _ _ E)|]. intros i Hi.
  assert (E' : (l1_key_hash e + i) mod cap bs = (p - (l1_probe_distance e - i)) mod cap bs)
    by (rewrite <- (mod_add_eq bs _ _ i Hh); f_equal; lia).
  destruct (fits_chain bs e p (l1_probe_distance e - i) Hr (robin_hood_fits _ _ _ Hr He) ltac:(lia)) as (x & Hx & Hdx).
  exists x. rewrite (bucket_mod _ _ _ E'). split_and!; [done| |lia]. intros Ek.
  apply (mod_shift_ne bs (l1_key_hash e + i) (l1_probe_distance e - i)); [lia|].
  replace (l1_key_hash e + i + (l1_probe_distance e - i)) with (l1_key_hash e + l1_probe_distance e) by lia. rewrite E, E'. symmetry. by eapply (rh_unique _ Hr).
Qed.
Lemma place_updates n fuel k a a0 r j p bs x :
  (0 < length bs)%nat → cap bs ≤ 65536 → bucket bs (p + Z.of_nat n) = Some x → l1_key_hash x = k →
  (∀ i, (i < n)%nat → ∃ y, bucket bs (p + Z.of_nat i) = Some y ∧ l1_key_hash y ≠ k ∧ j + Z.of_nat i ≤ l1_probe_distance y) →
  0 ≤ j → j + Z.of_nat n < cap bs → (n < fuel)%nat →
  place fuel k a (mkL1 k a0 j r) p bs = Some (put (p + Z.of_nat n) (mkL1 k a (l1_probe_distance x) true) bs, None).
Proof.
  intros Hc Hm Hx Hk. revert fuel j p Hx. induction n as [|n IH]; intros fuel j p Hx Hocc Hj Hn Hf.
  all: (destruct fuel as [|fuel]; [lia|]); cbn [place].
  - rewrite Z.add_0_r in *. rewrite Hx, Hk, Z.eqb_refl. done.
  - destruct (Hocc 0%nat ltac:(lia)) as (y & Hy & Hyk & Hyd). rewrite !Z.add_0_r in *. rewrite Hy, (proj2 (Z.eqb_neq _ _) Hyk). cbn [l1_probe_distance].
    rewrite (proj2 (Z.ltb_ge _ _) Hyd). cbn [l1_key_hash l1_auth_data l1_probe_distance l1_recently_accessed]. rewrite u16_add_small by lia.
    replace (p + Z.of_nat (S n)) with (p + 1 + Z.of_nat n) in * by lia. apply IH; try done; try lia.
    intros i Hi. destruct (Hocc (S i) ltac:(lia)) as (z & Hz & Hzk & Hzd). exists z. split_and!; [|done|lia].
    by replace (p + 1 + Z.of_nat i) with (p + Z.of_nat (S i)) by lia.
Qed.
(** Some bucket is empty when not all are occupied; from any position it is
    less than a round away. *)
Lemma some_empty bs : (occupied bs < length bs)%nat → ∃ z, bucket bs z = None.
Proof.
  intros H. assert (Hi : ∃ i, bs !! i = Some None).
  { revert H. induction bs as [|[e|] bs IH]; [simpl; lia| |by exists 0%nat]. rewrite occupied_cons. simpl. intros H. destruct IH as [i Hi]; [lia|]. by exists (S i). }
  destruct Hi as [i Hi]. exists (Z.of_nat i). pose proof (lookup_lt_Some _ _ _ Hi). unfold bucket, slot. rewrite Z.mod_small, Nat2Z.id, Hi by lia. done.
Qed.
Lemma first_empty bs p :
  (0 < length bs)%nat → (∃ z, bucket bs z = None) →
  ∃ n, Z.of_nat n < cap bs ∧ bucket bs (p + Z.of_nat n) = None ∧ ∀ i, (i < n)%nat → is_Some (bucket bs (p + Z.of_nat i)).
Proof.
  intros Hc [z Hz].
  assert (H : ∀ m, (∃ n, (n < m)%nat ∧ bucket bs (p + Z.of_nat n) = None ∧ ∀ i, (i < n)%nat → is_Some (bucket bs (p + Z.of_nat i)))
                   ∨ ∀ i, (i < m)%nat → is_Some (bucket bs (p + Z.of_nat i))).
  { induction m as [|m [(n & Hn & H1 & H2)|IH]]; [right; lia|left; exists n; split; [lia|done]|].
    destruct (bucket bs (p + Z.of_nat m)) eqn:E; [right|left; exists m; split; [lia|done]].
    intros i Hi. destruct (decide (i = m)) as [->|]; [by rewrite E|apply IH; lia]. }
  destruct (H (length bs)) as [(n & Hn & H1)|Hall]; [exists n; split; [lia|done]|]. exfalso.
  pose proof (Z.mod_pos_bound (z - p) (cap bs) ltac:(lia)) as Hb.
  destruct (Hall (Z.to_nat ((z - p) mod cap bs)) ltac:(lia)) as [x Hx]. rewrite Z2Nat.id in Hx by lia.
  rewrite (bucket_mod _ _ z), Hz in Hx; [done|]. rewrite Zplus_mod_idemp_r. f_equal. lia.
Qed.

(** *** The table as a map *)

(** The table holds the map, in a capacity that distances can count. *)
Record represents (t : RobinHoodHashTable) (m : gmap Z CompactAuthEntry) : Prop := {
  rp_capacity : (0 < rt_capacity t)%nat ∧ Z.of_nat (rt_capacity t) ≤ 32768;
  rp_robin_hood : robin_hood (rt_buckets t);
  rp_size : rt_size t = occupied (rt_buckets t);
  rp_max : 0 ≤ rt_max_probe_distance t < 32768;
  rp_holds h a : m !! h = Some a ↔ holds (rt_buckets t) h a;
}.
Lemma represents_absent t m h : represents t m → m !! h = None → absent (rt_buckets t) h.
Proof.
  intros Hrep Hn p e He <-. assert (H : m !! l1_key_hash e = Some (l1_auth_data e)) by (apply (rp_holds _ _ Hrep); by exists p, e). congruence.
Qed.
Lemma insert_loaded_ok t m h a :
  represents t m → (rt_size t < rt_capacity t)%nat →
  ∃ t', insert_loaded h a t = Some t' ∧ represents t' (<[h := a]> m) ∧ rt_capacity t' = rt_capacity t ∧ (rt_size t ≤ rt_size t' ≤ S (rt_size t))%nat.
Proof.
  intros Hrep Hs. pose proof Hrep as [[Hc Hm] Hr Hsz Hmax Hh]. unfold rt_capacity in *. unfold insert_loaded. set (bs := rt_buckets t) in *.
  pose proof (some_empty bs ltac:(lia)) as Hempty. destruct (m !! h) as [a0|] eqn:Em.
  - apply Hh in Em as (p & e & He & Ek & _). destruct (path_to bs p e Hr He) as [Hat Hpath]. destruct (rh_home _ Hr _ _ He) as [Hd _]. rewrite Ek in *.
    assert (Hat' : bucket bs (h + Z.of_nat (Z.to_nat (l1_probe_distance e))) = Some e) by (by rewrite Z2Nat.id by lia).
    unfold rt_capacity. rewrite (place_updates (Z.to_nat (l1_probe_distance e)) _ _ _ _ _ _ _ _ e); try done; try lia.
    2:{ intros i Hi. destruct (Hpath (Z.of_nat i) ltac:(lia)) as (x & Hx & Hxk & Hxd). exists x. split_and!; try done; lia. }
    2:{ fold bs. lia. }
    eexists. split; [done|]. rewrite Z2Nat.id by lia. cbn [rt_buckets rt_size]. rewrite length_put. split_and!; try done; [|lia].
    split; unfold rt_capacity; cbn [rt_buckets rt_size rt_max_probe_distance]; rewrite ?length_put; try done.
    + apply put_robin_hood; try done; cbn [l1_probe_distance l1_key_hash]; [|lia| |].
      * destruct (robin_hood_fits _ _ _ Hr Hat) as [[F0 F1] F2]. rewrite Ek in F1. split; [by split|done].
      * intros q x Hq E. eapply (rh_unique _ Hr); [done|done|congruence].
      * intros x Hx. rewrite Hat in Hx. injection Hx as <-. done.
    + rewrite occupied_put, Hat by done. lia.
    + intros h' a'. rewrite lookup_insert_Some, (holds_put_over _ _ e) by done. rewrite Hh, Ek. simpl. intuition congruence.
  - pose proof (represents_absent _ _ _ Hrep Em) as Hab. destruct (first_empty bs h Hc Hempty) as (n & Hn & Hz & Hocc).
    destruct (place_added n (S (length bs)) h a (mkL1 h a 0 false) h bs) as (bs' & d & E & Hd & Hl & Hr' & Ho & Hh'); try done; try lia.
    { split; simpl; [|lia]. split; [lia|]. by rewrite Z.sub_0_r. }
    { intros i Hi. destruct (Hocc i Hi) as [x Hx]. exists x. split; [done|]. by eapply Hab. }
    unfold rt_capacity. fold bs. rewrite E. eexists. split; [done|]. cbn [rt_buckets rt_size]. split_and!; try done; try lia.
    split; unfold rt_capacity; cbn [rt_buckets rt_size rt_max_probe_distance]; rewrite ?Hl; try done; try lia.
    + intros h' a'. rewrite lookup_insert_Some, Hh', Hh. simpl. intuition (subst; try congruence).
      destruct (Z.eq_dec h h') as [->|]; [|by auto]. exfalso. match goal with H : holds _ _ _ |- _ => destruct H as (q & x & Hq & Ek & _) end. by eapply Hab.
Qed.
Lemma bucket_replicate n p : bucket (replicate n None) p = None.
Proof.
  unfold bucket. destruct (replicate n (None : option L1CacheEntry) !! _) as [b|] eqn:E; [|done]. apply lookup_replicate in E as [-> _]. done.
Qed.
Lemma occupied_replicate n : occupied (replicate n None) = 0%nat.
Proof. induction n; [done|]. change (replicate (S n) (None : option L1CacheEntry)) with (None :: replicate n (None : option L1CacheEntry)). by rewrite occupied_cons. Qed.
Lemma represents_empty n : (0 < n)%nat → Z.of_nat n ≤ 32768 → represents (mkTable (replicate n None) 0 0) ∅.
Proof.
  intros Hn Hm. split; unfold rt_capacity; cbn [rt_buckets rt_size rt_max_probe_distance]; rewrite ?length_replicate; try done; try lia.
  - split; intros p; intros; rewrite bucket_replicate in *; done.
  - by rewrite occupied_replicate.
  - intros h a. rewrite lookup_empty. split; [done|]. intros (p & e & He & _). by rewrite bucket_replicate in He.
Qed.
(** Every entry is at some position. *)
Lemma entry_held bs e : e ∈ omap id bs → holds bs (l1_key_hash e) (l1_auth_data e).
Proof.
  intros He. apply list_elem_of_omap in He as (b & Hb & E). apply list_elem_of_lookup_1 in Hb as [i Hi]. simpl in E. subst b.
  exists (Z.of_nat i), e. split; [|done]. pose proof (lookup_lt_Some _ _ _ Hi). unfold bucket, slot. by rewrite Z.mod_small, Nat2Z.id, Hi by lia.
Qed.
Lemma held_entry bs h a : holds bs h a → ∃ e, e ∈ omap id bs ∧ l1_key_hash e = h ∧ l1_auth_data e = a.
Proof.
  intros (p & e & He & Ek & Ea). exists e. split; [|done]. unfold bucket in He. destruct (bs !! slot (length bs) p) as [b|] eqn:E; [|done]. simpl in He. subst b.
  apply list_elem_of_omap. exists (Some e). split; [|done]. by eapply list_elem_of_lookup_2.
Qed.
(** Entering all entries again gives the same map. *)
Lemma refill t m l (m' : gmap Z CompactAuthEntry) :
  represents t m → l = omap id (rt_buckets t) → m' = foldl (λ m e, <[l1_key_hash e := l1_auth_data e]> m) ∅ l → m' = m.
Proof.
  intros Hrep -> ->.
  assert (Hin : ∀ e, e ∈ omap id (rt_buckets t) → m !! l1_key_hash e = Some (l1_auth_data e)) by (intros e He; by apply (rp_holds _ _ Hrep), entry_held).
  assert (Hf : ∀ l (m0 : gmap Z CompactAuthEntry), (∀ e, e ∈ l → m !! l1_key_hash e = Some (l1_auth_data e)) → m0 ⊆ m →
                 let m1 := foldl (λ m e, <[l1_key_hash e := l1_auth_data e]> m) m0 l in m1 ⊆ m ∧ m0 ⊆ m1 ∧ ∀ e, e ∈ l → is_Some (m1 !! l1_key_hash e)).
  { induction l as [|e l IH]; intros m0 Hl H0; simpl; [split_and!; [done|done|by intros e ?%elem_of_nil]|].
    assert (He : <[l1_key_hash e:=l1_auth_data e]> m0 ⊆ m) by (apply insert_subseteq_l; [apply Hl; left|done]).
    destruct (IH (<[l1_key_hash e:=l1_auth_data e]> m0)) as (H1 & H2 & H3); [intros x Hx; apply Hl; by right|done|]. split_and!; [done| |].
    - apply map_subseteq_spec. intros i x Hi. eapply lookup_weaken; [|done]. destruct (Z.eq_dec i (l1_key_hash e)) as [->|]; [|by rewrite lookup_insert_ne].
      rewrite lookup_insert_eq. rewrite <- (Hl e) by left. eapply lookup_weaken; done.
    - intros x [->|Hx]%elem_of_cons; [|by apply H3]. exists (l1_auth_data e). eapply lookup_weaken; [|done]. by rewrite lookup_insert_eq. }
  destruct (Hf (omap id (rt_buckets t)) ∅ Hin (map_empty_subseteq _)) as (H1 & _ & H3).
  apply map_eq. intros h. apply option_eq. intros a. split; [intros Ha; by eapply lookup_weaken|]. intros Ha.
  pose proof Ha as (e & He & <- & <-)%(rp_holds _ _ Hrep)%held_entry. destruct (H3 e He) as [a' Ha']. rewrite Ha'. f_equal.
  apply (lookup_weaken _ m) in Ha'; [|done]. congruence.
Qed.
Lemma insert_light t m h a depth :
  represents t m → overloaded t = false →
  ∃ t', table_insert depth h a t = Some t' ∧ represents t' (<[h := a]> m) ∧ rt_capacity t' = rt_capacity t ∧ (rt_size t ≤ rt_size t' ≤ S (rt_size t))%nat.
Proof.
  intros Hrep Ho. destruct depth; cbn [table_insert]; rewrite Ho; (apply insert_loaded_ok; [done|]); unfold overloaded in Ho; apply Nat.leb_gt in Ho.
  all: pose proof (Nat.Div0.div_le_upper_bound (3 * rt_capacity t) 4 (rt_capacity t) ltac:(lia)); lia.
Qed.
Lemma insert_all depth l t m n :
  represents t m → (rt_size t + length l ≤ n)%nat → (n ≤ 3 * rt_capacity t / 4)%nat →
  ∃ t', foldl (λ t e, match t with Some t => table_insert depth (l1_key_hash e) (l1_auth_data e) t | None => None end) (Some t) l = Some t' ∧
        represents t' (foldl (λ m e, <[l1_key_hash e := l1_auth_data e]> m) m l) ∧ rt_capacity t' = rt_capacity t ∧ (rt_size t' ≤ n)%nat.
Proof.
  revert t m. induction l as [|e l IH]; intros t m Hrep Hs Hn; [exists t; split_and!; try done; simpl in Hs; lia|]. simpl in Hs. cbn [foldl].
  destruct (insert_light t m (l1_key_hash e) (l1_auth_data e) depth Hrep) as (t1 & E & H1 & H2 & H3); [unfold overloaded; apply Nat.leb_gt; lia|].
  rewrite E. destruct (IH t1 _ H1) as (t2 & E2 & G1 & G2 & G3); [lia|by rewrite H2|]. exists t2. split_and!; try done. congruence.
Qed.
Lemma insert_heavy depth h a t :
  overloaded t = true →
  table_insert (S depth) h a t =
  match foldl (λ t e, match t with Some t => table_insert depth (l1_key_hash e) (l1_auth_data e) t | None => None end)
          (Some (mkTable (replicate (2 * rt_capacity t) None) 0 0)) (omap id (rt_buckets t)) with
  | None => None
  | Some t => insert_loaded h a t
  end.
Proof. intros Ho. change (table_insert (S depth) h a t) with
  (match (if overloaded t then foldl (λ t e, match t with Some t => table_insert depth (l1_key_hash e) (l1_auth_data e) t | None => None end)
            (Some (mkTable (replicate (2 * rt_capacity t) None) 0 0)) (omap id (rt_buckets t)) else Some t) with None => None | Some t => insert_loaded h a t end).
  by rewrite Ho. Qed.
Definition light (t : RobinHoodHashTable) : Prop := (rt_size t ≤ 3 * rt_capacity t / 4)%nat.
Lemma table_insert_ok t m h a :
  represents t m → light t → 2 * Z.of_nat (rt_capacity t) ≤ 32768 →
  ∃ t', table_insert 1 h a t = Some t' ∧ represents t' (<[h := a]> m) ∧ light t' ∧ (rt_capacity t' = rt_capacity t ∨ rt_capacity t' = 2 * rt_capacity t)%nat.
Proof.
  intros Hrep Hl Hm. unfold light in *. destruct (overloaded t) eqn:Ho.
  - destruct (rp_capacity _ _ Hrep) as [Hc _].
    assert (E4 : (3 * rt_capacity t / 4 + 1 ≤ 3 * (2 * rt_capacity t) / 4)%nat).
    { pose proof (Nat.div_mod_eq (3 * rt_capacity t) 4). pose proof (Nat.div_mod_eq (3 * (2 * rt_capacity t)) 4).
      pose proof (Nat.mod_upper_bound (3 * rt_capacity t) 4). pose proof (Nat.mod_upper_bound (3 * (2 * rt_capacity t)) 4). lia. }
    destruct (insert_all 0 (omap id (rt_buckets t)) (mkTable (replicate (2 * rt_capacity t) None) 0 0) ∅ (rt_size t)) as (t1 & E1 & R1 & C1 & S1).
    { apply represents_empty; lia. }
    { cbn [rt_size]. rewrite (rp_size _ _ Hrep). unfold occupied. lia. }
    { unfold rt_capacity at 1. cbn [rt_buckets]. rewrite length_replicate. lia. }
    rewrite (refill t m _ _ Hrep eq_refl eq_refl) in R1. unfold rt_capacity in C1 at 2. cbn [rt_buckets] in C1. rewrite length_replicate in C1.
    destruct (insert_loaded_ok t1 m h a R1) as (t2 & E2 & R2 & C2 & S2).
    { pose proof (Nat.Div0.div_le_upper_bound (3 * rt_capacity t) 4 (rt_capacity t) ltac:(lia)). lia. }
    exists t2. rewrite (insert_heavy 0 h a t Ho), E1. split_and!; [done|done| |right; congruence]. rewrite C2, C1. lia.
  - destruct (insert_light t m h a 1 Hrep Ho) as (t' & E & R & C & S'). exists t'. split_and!; [done|done| |by left].
    unfold overloaded in Ho. apply Nat.leb_gt in Ho. rewrite C. lia.
Qed.

(** *** Looking up *)

Lemma probe_sound fuel t h p d b :
  probe fuel t h p d = Some (Some b) → ∃ a, holds (rt_buckets t) h a ∧ compact_allowed a = b.
Proof.
  revert p d. induction fuel as [|fuel IH]; intros p d; cbn [probe]; [done|]. destruct (bucket (rt_buckets t) p) as [e|] eqn:E; [|done].
  destruct (Z.eqb_spec (l1_key_hash e) h) as [Ek|_]; [intros [= <-]; exists (l1_auth_data e); split; [by exists p, e|done]|].
  destruct (_ <? _); [done|]. destruct (_ <? _); [done|]. apply IH.
Qed.
(** The bound of the code ends every walk. *)
Lemma probe_ends fuel t h p d :
  0 ≤ d → 0 ≤ rt_max_probe_distance t < 32768 → rt_max_probe_distance t + 2 - d < Z.of_nat fuel → d ≤ rt_max_probe_distance t + 1 → is_Some (probe fuel t h p d).
Proof.
  revert p d. induction fuel as [|fuel IH]; intros p d H0 Hm Hf Hd; [lia|]. cbn [probe].
  destruct (bucket _ _) as [e|]; [|done]. destruct (_ =? _); [done|]. destruct (_ <? _); [done|]. rewrite u16_add_small by lia.
  destruct (Z.ltb_spec (rt_max_probe_distance t + 1) (d + 1)); [done|]. apply IH; lia.
Qed.
Lemma probe_finds n fuel t h p d x :
  0 ≤ d → 0 ≤ rt_max_probe_distance t < 32768 → bucket (rt_buckets t) (p + Z.of_nat n) = Some x → l1_key_hash x = h →
  (∀ i, (i < n)%nat → ∃ y, bucket (rt_buckets t) (p + Z.of_nat i) = Some y ∧ l1_key_hash y ≠ h ∧ d + Z.of_nat i ≤ l1_probe_distance y) →
  d + Z.of_nat n ≤ rt_max_probe_distance t + 1 → (n < fuel)%nat → probe fuel t h p d = Some (Some (compact_allowed (l1_auth_data x))).
Proof.
  intros H0 Hm Hx Hk. revert fuel p d H0 Hx. induction n as [|n IH]; intros fuel p d H0 Hx Hp Hd Hf; (destruct fuel as [|fuel]; [lia|]); cbn [probe].
  - rewrite Z.add_0_r in Hx. by rewrite Hx, Hk, Z.eqb_refl.
  - destruct (Hp 0%nat ltac:(lia)) as (y & Hy & Hyk & Hyd). rewrite Z.add_0_r in Hy. rewrite Hy, (proj2 (Z.eqb_neq _ _) Hyk), (proj2 (Z.ltb_ge _ _)) by lia.
    rewrite u16_add_small, (proj2 (Z.ltb_ge _ _)) by lia. apply IH; try lia.
    + by replace (p + 1 + Z.of_nat n) with (p + Z.of_nat (S n)) by lia.
    + intros i Hi. destruct (Hp (S i) ltac:(lia)) as (z & Hz & Hzk & Hzd). exists z. split_and!; [|done|lia].
      by replace (p + 1 + Z.of_nat i) with (p + Z.of_nat (S i)) by lia.
Qed.
(** The entry with the hash is no further away than lookups go. *)
Definition within_reach (t : RobinHoodHashTable) (h : Z) : Prop :=
  ∀ p e, bucket (rt_buckets t) p = Some e → l1_key_hash e = h → l1_probe_distance e ≤ rt_max_probe_distance t + 1.
(** C39: The hash table of a thread is a map.  Inserting returns, after at most one
    doubling, and gives the map with the entry, the table still a Robin Hood
    table under its load; a lookup ends and finds nothing but the decision the
    map has under the hash, and it finds that one unless the entry lies further
    away than the distance the table has recorded allows. *)
Theorem robin_hood_is_a_map t m h a k :
  represents t m → light t → 2 * Z.of_nat (rt_capacity t) ≤ 32768 →
  (∃ t', table_insert 1 h a t = Some t' ∧ represents t' (<[h := a]> m) ∧ light t') ∧
  is_Some (probe (Z.to_nat (rt_max_probe_distance t + 3)) t k k 0) ∧
  (∀ b, table_get t k = Some b → compact_allowed <$> m !! k = Some b) ∧
  (within_reach t k → table_get t k = compact_allowed <$> m !! k).
Proof.
  intros Hrep Hl Hm. destruct (table_insert_ok t m h a Hrep Hl Hm) as (t' & E & R & L & _). pose proof (rp_max _ _ Hrep) as Hmax.
  destruct (probe_ends (Z.to_nat (rt_max_probe_distance t + 3)) t k k 0 ltac:(lia) Hmax ltac:(lia) ltac:(lia)) as [r Er].
  assert (Hs : ∀ b, table_get t k = Some b → compact_allowed <$> m !! k = Some b).
  { intros b. unfold table_get. rewrite Er. simpl. intros ->. apply probe_sound in Er as (a0 & Ha & Hb). apply (rp_holds _ _ Hrep) in Ha. rewrite Ha. simpl. by rewrite Hb. }
  split; [by exists t'|]. split; [by rewrite Er|]. split; [done|]. intros Hw.
  destruct (m !! k) as [a0|] eqn:Em; simpl.
  - apply (rp_holds _ _ Hrep) in Em as (p & e & He & Ek & <-). destruct (path_to _ _ _ (rp_robin_hood _ _ Hrep) He) as [Hat Hpath]. rewrite Ek in *.
    pose proof (Hw _ _ He Ek). destruct (rh_home _ (rp_robin_hood _ _ Hrep) _ _ He) as [Hd _]. unfold table_get.
    rewrite (probe_finds (Z.to_nat (l1_probe_distance e)) _ _ _ _ _ e); try done; try lia; [by rewrite Z2Nat.id by lia|].
    intros i Hi. destruct (Hpath (Z.of_nat i) ltac:(lia)) as (x & Hx & Hxk & Hxd). exists x. split_and!; try done; lia.
  - destruct (table_get t k) as [b|] eqn:Eg; [|done]. by specialize (Hs b eq_refl).
Qed.
End robin_hood.

(** ** The cache of a thread *)

Section caches.
(** The standard hasher on principal, topic and a code of the permission; the
    same hasher on the whole key; and the one of the shared cache *)
Context (l1_hash whole_hash l2_hash : AclKey → Z).
Definition L1_TTL : Z := 300.
Record ThreadLocalAuthCache := mkThreadCache {
  tl_table : RobinHoodHashTable;
  tl_hit_count : Z;
  tl_miss_count : Z;
  tl_predictive_enabled : bool;
}.
(** [None] where an insertion would resize while it resizes *)
Definition thread_cache_new (capacity : nat) : ThreadLocalAuthCache := mkThreadCache (table_new capacity) 0 0 true.
(** The first size a thread asks for is the one it gets. *)
Definition get_or_create (capacity : nat) (cell : option ThreadLocalAuthCache) : ThreadLocalAuthCache :=
  match cell with Some c => c | None => thread_cache_new capacity end.
Definition l1_get_fast (key : AclKey) (c : ThreadLocalAuthCache) : option bool * ThreadLocalAuthCache :=
  match table_get (tl_table c) (l1_hash key) with
  | Some result => (Some result, mkThreadCache (tl_table c) (u64_add (tl_hit_count c) 1) (tl_miss_count c) (tl_predictive_enabled c))
  | None => (None, mkThreadCache (tl_table c) (tl_hit_count c) (u64_add (tl_miss_count c) 1) (tl_predictive_enabled c))
  end.
Definition l1_insert_fast (key : AclKey) (allowed : bool) (now : Z) (c : ThreadLocalAuthCache) : option ThreadLocalAuthCache :=
  let key_hash := l1_hash key in
  match table_insert 1 key_hash (compact_new key_hash allowed now L1_TTL) (tl_table c) with
  | Some t => Some (mkThreadCache t (tl_hit_count c) (tl_miss_count c) (tl_predictive_enabled c))
  | None => None
  end.
Definition l1_clear (c : ThreadLocalAuthCache) : ThreadLocalAuthCache := mkThreadCache (table_clear (tl_table c)) 0 0 (tl_predictive_enabled c).
Definition prepopulate (predictions : list (AclKey * bool)) (now : Z) (c : ThreadLocalAuthCache) : option ThreadLocalAuthCache :=
  if negb (tl_predictive_enabled c) then Some c
  else foldl (λ c kb, match c with Some c => l1_insert_fast kb.1 kb.2 now c | None => None end) (Some c) predictions.

(** *** The cache of a connection *)

Record AccessPatternPredictor := mkPredictor { ap_recent_accesses : list (Z * bool); ap_max_history : nat }.
Definition predictor_new : AccessPatternPredictor := mkPredictor [] 100.
Definition record_result (key : AclKey) (allowed : bool) (p : AccessPatternPredictor) : AccessPatternPredictor :=
  let l := ap_recent_accesses p ++ [(whole_hash key, allowed)] in
  mkPredictor (if (ap_max_history p <? length l)%nat then tail l else l) (ap_max_history p).
Definition predict (key : AclKey) (p : AccessPatternPredictor) : option bool :=
  snd <$> head (filter (λ hb, hb.1 = whole_hash key) (reverse (ap_recent_accesses p))).
(** The cache is shared by the connections of the thread. *)
Record ConnectionCache := mkConnectionCache { cn_base_cache : ThreadLocalAuthCache; cn_predictor : AccessPatternPredictor; cn_connection_id : Z }.
Definition connection_cache_new (connection_id : Z) (capacity : nat) (cell : option ThreadLocalAuthCache) : ConnectionCache :=
  mkConnectionCache (get_or_create capacity cell) predictor_new connection_id.
Definition get_with_learning (key : AclKey) (now : Z) (c : ConnectionCache) : option (option bool * ConnectionCache) :=
  match l1_get_fast key (cn_base_cache c) with
  | (Some r, b) => Some (Some r, mkConnectionCache b (cn_predictor c) (cn_connection_id c))
  | (None, b) =>
      match predict key (cn_predictor c) with
      | Some prediction =>
          match l1_insert_fast key prediction now b with
          | Some b => Some (Some prediction, mkConnectionCache b (cn_predictor c) (cn_connection_id c))
          | None => None
          end
      | None => Some (None, mkConnectionCache b (cn_predictor c) (cn_connection_id c))
      end
  end.
Definition insert_with_learning (key : AclKey) (allowed : bool) (now : Z) (c : ConnectionCache) : option ConnectionCache :=
  match l1_insert_fast key allowed now (cn_base_cache c) with
  | Some b => Some (mkConnectionCache b (record_result key allowed (cn_predictor c)) (cn_connection_id c))
  | None => None
  end.

(** ** The shared cache *)

Record CacheEntry := mkCacheEntry { en_allowed : bool; en_created_at : Z; en_ttl : Z }.
Definition entry_is_expired (e : CacheEntry) (now : Z) : bool := en_ttl e <? now - en_created_at e.
Record LockFreeAuthCache := mkLockFree {
  lf_cache : gmap Z CacheEntry;
  lf_lru_tracker : list (Z * Z);
  lf_max_entries : nat;
  lf_entry_ttl : Z;
  lf_hit_count : Z;
  lf_miss_count : Z;
  lf_memory_usage : Z;
}.
Definition l2_new (max_size_bytes : Z) : LockFreeAuthCache := mkLockFree ∅ [] (Z.to_nat (Z.max (max_size_bytes / 128) 1000)) 300 0 0 0.
Definition l2_count (hits misses : Z) (c : LockFreeAuthCache) : LockFreeAuthCache :=
  mkLockFree (lf_cache c) (lf_lru_tracker c) (lf_max_entries c) (lf_entry_ttl c) (u64_add (lf_hit_count c) hits) (u64_add (lf_miss_count c) misses) (lf_memory_usage c).
Definition l2_set (m : gmap Z CacheEntry) (q : list (Z * Z)) (memory : Z) (c : LockFreeAuthCache) : LockFreeAuthCache :=
  mkLockFree m q (lf_max_entries c) (lf_entry_ttl c) (lf_hit_count c) (lf_miss_count c) memory.
Definition l2_get_fast (key : AclKey) (now : Z) (c : LockFreeAuthCache) : option bool * LockFreeAuthCache :=
  match lf_cache c !! l2_hash key with
  | Some e => if negb (entry_is_expired e now) then (Some (en_allowed e), l2_count 1 0 c)
              else (None, l2_count 0 1 (l2_set (delete (l2_hash key) (lf_cache c)) (lf_lru_tracker c) (lf_memory_usage c) c))
  | None => (None, l2_count 0 1 c)
  end.
Fixpoint evict_loop (q : list (Z * Z)) (m : gmap Z CacheEntry) (memory : Z) (max_entries : nat) : gmap Z CacheEntry * list (Z * Z) * Z :=
  if (size m <? max_entries)%nat then (m, q, memory)
  else match q with
       | [] => (m, [], memory)
       | (key_hash, _) :: q => evict_loop q (delete key_hash m) (u64_sub memory 128) max_entries
       end.
Definition evict_lru (c : LockFreeAuthCache) : LockFreeAuthCache :=
  let '(m, q, memory) := evict_loop (lf_lru_tracker c) (lf_cache c) (lf_memory_usage c) (lf_max_entries c) in l2_set m q memory c.
Definition l2_insert_fast (key : AclKey) (allowed : bool) (now : Z) (c : LockFreeAuthCache) : LockFreeAuthCache :=
  let c := if (lf_max_entries c <=? size (lf_cache c))%nat then evict_lru c else c in
  l2_set (<[l2_hash key := mkCacheEntry allowed now (lf_entry_ttl c)]> (lf_cache c)) (lf_lru_tracker c ++ [(l2_hash key, now)])
    (u64_add (lf_memory_usage c) 128) c.
Definition cleanup_expired (now : Z) (c : LockFreeAuthCache) : nat * LockFreeAuthCache :=
  let kept := filter (λ ke, entry_is_expired ke.2 now = false) (lf_cache c) in
  let removed := (size (lf_cache c) - size kept)%nat in
  (removed, l2_set kept (filter (λ kt, is_Some (kept !! kt.1)) (lf_lru_tracker c)) ((lf_memory_usage c - 128 * Z.of_nat removed) mod u64_modulus) c).

(** ** Batches *)

Record EvaluatorFeatures := mkFeatures { cf_avx2 : bool; cf_avx512 : bool }.
Definition evaluator_batch_size (f : EvaluatorFeatures) : nat := if cf_avx512 f then 16%nat else if cf_avx2 f then 8%nat else 4%nat.
Record VectorizedPermissionEvaluator := mkEvaluator { ve_simd_enabled : bool; ve_batch_size : nat; ve_cpu_features : EvaluatorFeatures }.
Definition evaluator_new (simd_enabled : bool) (batch_size : nat) (f : EvaluatorFeatures) : VectorizedPermissionEvaluator :=
  mkEvaluator (simd_enabled && (cf_avx2 f || cf_avx512 f)) (if (batch_size =? 0)%nat then evaluator_batch_size f else batch_size) f.
Definition evaluate_single_scalar (key : AclKey) : bool := true.
Definition evaluate_batch_scalar (keys : list AclKey) : list bool := evaluate_single_scalar <$> keys.
Definition get_cached_permissions (key : AclKey) : Z := encode_permission (k_permission key).
(** The lanes of a vector: a lane is all ones where the masked permissions
    equal the required ones, and a result is read off its mask. *)
Definition lane_mask (actual required : Z) : Z := if Z.land actual required =? required then 0xFFFFFFFF else 0.
Definition evaluate_lanes (lanes : nat) (chunk : list AclKey) : list bool :=
  (λ k, negb (lane_mask (get_cached_permissions k) (encode_permission (k_permission k)) =? 0)) <$> take lanes chunk.
(** [avx2] and [avx512f] say what the build is compiled for. *)
Context (avx2 avx512f : bool).
Definition evaluate_chunk_sse (chunk : list AclKey) : list bool := evaluate_batch_scalar chunk.
Definition evaluate_chunk_avx2 (chunk : list AclKey) : list bool := if avx2 then evaluate_lanes 8 chunk else evaluate_chunk_sse chunk.
Definition evaluate_chunk_avx512 (chunk : list AclKey) : list bool := if avx512f then evaluate_lanes 16 chunk else evaluate_chunk_avx2 chunk.
(** [slice::chunks], with one step per element *)
Fixpoint chunks {A} (fuel n : nat) (l : list A) : list (list A) :=
  match fuel with
  | O => []
  | S fuel => match l with [] => [] | _ => take n l :: chunks fuel n (drop n l) end
  end.
Definition evaluate_batch_simd (ev : VectorizedPermissionEvaluator) (keys : list AclKey) : list bool :=
  chunks (length keys) (ve_batch_size ev) keys ≫= λ chunk,
    if cf_avx512 (ve_cpu_features ev) then evaluate_chunk_avx512 chunk
    else if cf_avx2 (ve_cpu_features ev) then evaluate_chunk_avx2 chunk else evaluate_chunk_sse chunk.
Definition evaluate_batch (ev : VectorizedPermissionEvaluator) (keys : list AclKey) : list bool :=
  if ve_simd_enabled ev && (ve_batch_size ev <=? length keys)%nat then evaluate_batch_simd ev keys else evaluate_batch_scalar keys.
(** Without branches: the sign of the difference less one *)
Definition check_permission_branchless (actual required : Z) : bool :=
  let diff := Z.lxor (Z.land actual required) required in Z.shiftr ((diff - 1) mod u32_modulus) 31 =? 1.
Definition check_permissions_batch (actual required : list Z) : list bool := zip_with check_permission_branchless actual required.
Definition check_permissions_scalar (masks required : list Z) : list bool := zip_with (λ m r, Z.land m r =? r) masks required.

(** ** The system *)

Record UltraFastConfig := mkUltraConfig { uc_enabled : bool; uc_l1_cache_size : nat; uc_l2_cache_size_mb : Z; uc_simd_enabled : bool; uc_batch_size : nat }.
Record UltraFastAuthSystem := mkUltra {
  uf_l1 : option ThreadLocalAuthCache;
  uf_l2 : LockFreeAuthCache;
  uf_evaluator : VectorizedPermissionEvaluator;
  uf_config : UltraFastConfig;
}.
Definition ultra_new (config : UltraFastConfig) (f : EvaluatorFeatures) (thread : option ThreadLocalAuthCache) : UltraFastAuthSystem :=
  mkUltra thread (l2_new (uc_l2_cache_size_mb config * 1024 * 1024)) (evaluator_new (uc_simd_enabled config) (uc_batch_size config) f) config.
Record UltraFastAuthResult := mkUltraResult { ur_allowed : bool; ur_l1_hit : bool; ur_l2_hit : bool }.
Definition authorize_full_fallback (key : AclKey) : bool := false.
Definition authorize_fast (key : AclKey) (now : Z) (s : UltraFastAuthSystem) : option (UltraFastAuthResult * UltraFastAuthSystem) :=
  let l1 := get_or_create (uc_l1_cache_size (uf_config s)) (uf_l1 s) in
  let with_caches l1 l2 := mkUltra (Some l1) l2 (uf_evaluator s) (uf_config s) in
  match l1_get_fast key l1 with
  | (Some allowed, l1) => Some (mkUltraResult allowed true false, with_caches l1 (uf_l2 s))
  | (None, l1) =>
      match l2_get_fast key now (uf_l2 s) with
      | (Some allowed, l2) =>
          match l1_insert_fast key allowed now l1 with
          | Some l1 => Some (mkUltraResult allowed false true, with_caches l1 l2)
          | None => None
          end
      | (None, l2) =>
          let allowed := authorize_full_fallback key in
          match l1_insert_fast key allowed now l1 with
          | Some l1 => Some (mkUltraResult allowed false false, with_caches l1 (l2_insert_fast key allowed now l2))
          | None => None
          end
      end
  end.
Fixpoint authorize_each (keys : list AclKey) (now : Z) (s : UltraFastAuthSystem) : option (list bool * UltraFastAuthSystem) :=
  match keys with
  | [] => Some ([], s)
  | key :: keys =>
      match authorize_fast key now s with
      | Some (r, s) => match authorize_each keys now s with Some (rs, s) => Some (ur_allowed r :: rs, s) | None => None end
      | None => None
      end
  end.
Definition authorize_batch_simd (keys : list AclKey) (s : UltraFastAuthSystem) : list bool :=
  chunks (length keys) (uc_batch_size (uf_config s)) keys ≫= evaluate_batch (uf_evaluator s).
(** Chunks of size zero panic. *)
Definition authorize_batch (keys : list AclKey) (now : Z) (s : UltraFastAuthSystem) : option (list bool * UltraFastAuthSystem) :=
  if uc_simd_enabled (uf_config s) && (uc_batch_size (uf_config s) <=? length keys)%nat
  then if (uc_batch_size (uf_config s) =? 0)%nat then None else Some (authorize_batch_simd keys s, s)
  else authorize_each keys now s.
End caches.

(** ** Packing *)

Lemma expiry_shift_bound x : 0 ≤ Z.shiftl (Z.land x 0x7FFFFFFF) 32 < 2 ^ 63.
Proof.
  change 0x7FFFFFFF with (Z.ones 31). rewrite Z.land_ones, Z.shiftl_mul_pow2 by lia. pose proof (Z.mod_pos_bound x (2 ^ 31) ltac:(lia)). lia.
Qed.
(** A packed decision as a sum of its parts *)
Lemma compact_data h allowed created ttl :
  let expiry := if 0 <=? created then u64_add created ttl else if ttl <=? - created then 0 else ttl - - created in
  ca_data (compact_new h allowed created ttl) = Z.b2z allowed * 2 ^ 63 + (expiry mod 2 ^ 31) * 2 ^ 32 + 1.
Proof.
  cbv zeta. unfold compact_new. cbn [ca_data]. set (x := if 0 <=? created then _ else _). clearbody x.
  pose proof (expiry_shift_bound x) as Hb. change 0x7FFFFFFF with (Z.ones 31) in *.
  rewrite (Z.land_ones x 31) in * by lia. rewrite (Z.shiftl_mul_pow2 (x mod 2 ^ 31) 32) in * by lia.
  assert (E1 : Z.lor (x mod 2 ^ 31 * 2 ^ 32) 1 = x mod 2 ^ 31 * 2 ^ 32 + 1).
  { pose proof (Z.add_lor_land (x mod 2 ^ 31 * 2 ^ 32) 1) as E. assert (E0 : Z.land (x mod 2 ^ 31 * 2 ^ 32) 1 = 0); [|lia].
    change 1 with (Z.ones 1). rewrite Z.land_ones by lia. replace (x mod 2 ^ 31 * 2 ^ 32) with (x mod 2 ^ 31 * 2 ^ 31 * 2 ^ 1) by lia. apply Z.mod_mul. lia. }
  destruct allowed; [|rewrite Z.lor_0_l, E1; simpl; lia]. rewrite <- Z.lor_assoc, E1, (Z.shiftl_mul_pow2 1 63), Z.mul_1_l by lia.
  pose proof (Z.add_lor_land (2 ^ 63) (x mod 2 ^ 31 * 2 ^ 32 + 1)) as E. assert (E0 : Z.land (2 ^ 63) (x mod 2 ^ 31 * 2 ^ 32 + 1) = 0); [|cbn [Z.b2z]; lia].
  apply Z.bits_inj'. intros i Hi. rewrite Z.land_spec, Z.bits_0. destruct (Z.eq_dec i 63) as [->|Hne].
  - rewrite (Z.bits_above_log2 (x mod 2 ^ 31 * 2 ^ 32 + 1) 63), andb_false_r; [done|lia|]. apply Z.log2_lt_pow2; lia.
  - rewrite Z.pow2_bits_false by lia. done.
Qed.
(** A decision is read back as it was packed: its answer, the basic permission,
    and its time of expiry as long as that is less than sixty-eight years after
    the base. *)
Theorem compact_roundtrip h allowed created ttl :
  0 ≤ created → 0 ≤ ttl → created + ttl < 2 ^ 31 →
  let e := compact_new h allowed created ttl in
  compact_allowed e = allowed ∧ compact_expiry e = created + ttl ∧ permission_bits e = 1 ∧ is_u64 (ca_data e).
Proof.
  intros Hc Ht Hb. cbv zeta. unfold compact_allowed, compact_expiry, permission_bits. rewrite compact_data, (proj2 (Z.leb_le _ _) Hc), u64_add_small by (unfold is_u64, u64_modulus; lia).
  rewrite (Z.mod_small (created + ttl)) by lia. change 0x7FFFFFFF with (Z.ones 31). change 0xFFFFFFFF with (Z.ones 32). rewrite !Z.land_ones, !Z.shiftr_div_pow2 by lia.
  set (y := created + ttl) in *. destruct allowed; cbn [Z.b2z].
  - replace ((1 * 2 ^ 63 + y * 2 ^ 32 + 1) / 2 ^ 63) with 1 by (apply (Z.div_unique_pos _ _ _ (y * 2 ^ 32 + 1)); lia).
    replace ((1 * 2 ^ 63 + y * 2 ^ 32 + 1) / 2 ^ 32) with (2 ^ 31 + y) by (apply (Z.div_unique_pos _ _ _ 1); lia).
    replace ((1 * 2 ^ 63 + y * 2 ^ 32 + 1) mod 2 ^ 32) with 1 by (apply (Z.mod_unique_pos _ _ (2 ^ 31 + y)); lia).
    split_and!; [done|symmetry; apply (Z.mod_unique_pos _ _ 1); lia|done|unfold is_u64, u64_modulus; lia].
  - replace ((0 * 2 ^ 63 + y * 2 ^ 32 + 1) / 2 ^ 63) with 0 by (apply (Z.div_unique_pos _ _ _ (y * 2 ^ 32 + 1)); lia).
    replace ((0 * 2 ^ 63 + y * 2 ^ 32 + 1) / 2 ^ 32) with y by (apply (Z.div_unique_pos _ _ _ 1); lia).
    replace ((0 * 2 ^ 63 + y * 2 ^ 32 + 1) mod 2 ^ 32) with 1 by (apply (Z.mod_unique_pos _ _ y); lia).
    split_and!; [done|apply Z.mod_small; lia|done|unfold is_u64, u64_modulus; lia].
Qed.
(** The check without branches agrees with the plain one for masks of up to
    thirty-one bits. *)
Theorem branchless_agrees actual required :
  0 ≤ required < 2 ^ 31 → check_permission_branchless actual required = (Z.land actual required =? required).
Proof.
  intros Hr. unfold check_permission_branchless. set (m := Z.land actual required).
  assert (Hm : 0 ≤ Z.lxor m required < 2 ^ 31).
  { assert (Hm0 : 0 ≤ m) by (apply Z.land_nonneg; lia). split; [apply Z.lxor_nonneg; lia|].
    destruct (Z.eq_dec (Z.lxor m required) 0) as [->|Hne]; [lia|]. apply Z.log2_lt_pow2; [pose proof (proj2 (Z.lxor_nonneg m required)); lia|].
    assert (Hlog : ∀ n, 0 ≤ n < 2 ^ 31 → Z.log2 n < 31) by (intros n Hn; destruct (Z.eq_dec n 0) as [->|]; [done|apply Z.log2_lt_pow2; lia]).
    assert (Hm31 : m < 2 ^ 31).
    { replace m with (m mod 2 ^ 31); [apply Z.mod_pos_bound; lia|]. rewrite <- Z.land_ones by lia. unfold m. rewrite <- Z.land_assoc, (Z.land_ones required 31), Z.mod_small by lia. done. }
    pose proof (Hlog m ltac:(lia)). pose proof (Hlog required Hr).
    pose proof (Z.log2_lxor m required Hm0 ltac:(lia)). lia. }
  rewrite Z.shiftr_div_pow2 by lia. unfold u32_modulus. destruct (Z.eqb_spec m required) as [->|Hne].
  - rewrite Z.lxor_nilpotent. reflexivity.
  - assert (Z.lxor m required ≠ 0) by (by rewrite Z.lxor_eq_0_iff). rewrite Z.mod_small by lia. rewrite Z.div_small by lia. done.
Qed.

(** ** The shared cache is bounded *)

Section shared.
Context (l2_hash : AclKey → Z).
Implicit Types (c : LockFreeAuthCache).
(** Every cached decision can be evicted, their number is within the limit, and
    the estimate of memory covers the queue. *)
Record l2_wf c : Prop := {
  lw_tracked h : is_Some (lf_cache c !! h) → h ∈ (lf_lru_tracker c).*1;
  lw_bounded : (size (lf_cache c) ≤ lf_max_entries c)%nat;
  lw_max : (0 < lf_max_entries c)%nat;
}.
Lemma evict_loop_spec q m memory max :
  (0 < max)%nat → (∀ h, is_Some (m !! h) → h ∈ q.*1) →
  let '(m', q', _) := evict_loop q m memory max in
  (size m' < max)%nat ∧ m' ⊆ m ∧ ∀ h, is_Some (m' !! h) → h ∈ q'.*1.
Proof.
  intros Hmax. revert m memory. induction q as [|[k t] q IH]; intros m memory Hq; cbn [evict_loop]; destruct (Nat.ltb_spec (size m) max) as [Hlt|Hge]; try done.
  - assert (m = ∅) as -> by (apply map_eq; intros h; rewrite lookup_empty; destruct (m !! h) eqn:E; [|done]; destruct (not_elem_of_nil h); apply Hq; by rewrite E).
    rewrite map_size_empty in Hge. lia.
  - specialize (IH (delete k m) (u64_sub memory 128)). destruct (evict_loop q (delete k m) _ max) as [[m' q'] mem'].
    destruct IH as (H1 & H2 & H3).
    { intros h Hh. destruct (Z.eq_dec h k) as [->|Hne]; [rewrite lookup_delete_eq in Hh; by destruct Hh|]. rewrite lookup_delete_ne in Hh by done.
      specialize (Hq h Hh). simpl in Hq. apply elem_of_cons in Hq as [?|?]; done. }
    split_and!; [done| |done]. etrans; [done|]. apply delete_subseteq.
Qed.
Lemma l2_new_wf bytes : l2_wf (l2_new bytes).
Proof. split; simpl; [intros h [? Hh]; by rewrite lookup_empty in Hh|rewrite map_size_empty; lia|lia]. Qed.
Lemma l2_insert_wf key allowed now c : l2_wf c → l2_wf (l2_insert_fast l2_hash key allowed now c).
Proof.
  intros [Ht Hb Hm]. unfold l2_insert_fast.
  set (c1 := if (lf_max_entries c <=? size (lf_cache c))%nat then evict_lru c else c).
  assert (H1 : (size (lf_cache c1) < lf_max_entries c1)%nat ∧ lf_max_entries c1 = lf_max_entries c ∧ ∀ h, is_Some (lf_cache c1 !! h) → h ∈ (lf_lru_tracker c1).*1).
  { unfold c1. destruct (Nat.leb_spec (lf_max_entries c) (size (lf_cache c))); [|done]. unfold evict_lru.
    pose proof (evict_loop_spec (lf_lru_tracker c) (lf_cache c) (lf_memory_usage c) (lf_max_entries c) Hm Ht) as Hs.
    destruct (evict_loop _ _ _ _) as [[m q] mem]. simpl. destruct Hs as (? & _ & ?). done. }
  clearbody c1. destruct H1 as (H1 & H2 & H3). split; simpl.
  - intros h Hh. rewrite fmap_app, elem_of_app. destruct (Z.eq_dec h (l2_hash key)) as [->|]; [right; by left|]. rewrite lookup_insert_ne in Hh by done. left. auto.
  - destruct (lf_cache c1 !! l2_hash key) eqn:E; [rewrite map_size_insert_Some by eauto|rewrite map_size_insert_None by done]; lia.
  - lia.
Qed.
Lemma l2_get_wf key now c : l2_wf c → l2_wf (l2_get_fast l2_hash key now c).2.
Proof.
  intros [Ht Hb Hm]. unfold l2_get_fast. destruct (lf_cache c !! l2_hash key) eqn:E; [|done]. destruct (negb _); [done|]. split; simpl; [|rewrite map_size_delete, E; simpl; lia|done].
  intros h Hh. apply Ht. destruct (Z.eq_dec h (l2_hash key)) as [->|]; [by rewrite E|by rewrite lookup_delete_ne in Hh].
Qed.
Lemma cleanup_wf now c : l2_wf c → l2_wf (cleanup_expired now c).2.
Proof.
  intros [Ht Hb Hm]. unfold cleanup_expired. simpl. set (kept := filter _ _). assert (Hk : kept ⊆ lf_cache c) by apply map_filter_subseteq.
  split; simpl; [| |done].
  - intros h Hh. assert (Hin : h ∈ (lf_lru_tracker c).*1) by (apply Ht; destruct Hh as [x Hx]; exists x; by eapply lookup_weaken).
    apply list_elem_of_fmap in Hin as ([h' t] & -> & Hin). apply list_elem_of_fmap. exists (h', t). split; [done|]. by apply list_elem_of_filter.
  - pose proof (map_subseteq_size _ _ Hk). lia.
Qed.
Inductive L2Op := L2Get (key : AclKey) (now : Z) | L2Insert (key : AclKey) (allowed : bool) (now : Z) | L2Cleanup (now : Z).
Definition l2_run (op : L2Op) c : LockFreeAuthCache :=
  match op with
  | L2Get key now => (l2_get_fast l2_hash key now c).2
  | L2Insert key allowed now => l2_insert_fast l2_hash key allowed now c
  | L2Cleanup now => (cleanup_expired now c).2
  end.
(** Over any sequence of lookups, insertions and clean-ups the shared cache
    holds at most as many decisions as its size allows, and can evict each. *)
Theorem l2_bounded ops bytes : l2_wf (foldl (λ c op, l2_run op c) (l2_new bytes) ops).
Proof.
  assert (H : ∀ c, l2_wf c → l2_wf (foldl (λ c op, l2_run op c) c ops)); [|by apply H, l2_new_wf].
  induction ops as [|op ops IH]; intros c Hc; simpl; [done|]. apply IH. destruct op; simpl; [by apply l2_get_wf|by apply l2_insert_wf|by apply cleanup_wf].
Qed.
End shared.

(** ** Concrete runs *)

Module UltraDemo.
Definition yes (h : Z) : CompactAuthEntry := compact_new h true 0 300.
Definition insert_all_of (l : list Z) (t : RobinHoodHashTable) : option RobinHoodHashTable :=
  foldl (λ t h, match t with Some t => table_insert 1 h (yes h) t | None => None end) (Some t) l.
Lemma small_table : represents (table_new 16) ∅ ∧ light (table_new 16) ∧ 2 * Z.of_nat (rt_capacity (table_new 16)) ≤ 32768.
Proof. change (table_new 16) with (mkTable (replicate 16 None) 0 0). split_and!; [apply represents_empty; lia|vm_compute; lia|vm_compute; congruence]. Qed.
Lemma robin_hood_is_a_map_witness :
  ∃ t', table_insert 1 5 (yes 5) (table_new 16) = Some t' ∧ represents t' (<[5 := yes 5]> ∅) ∧ light t'.
Proof.
  destruct small_table as (H1 & H2 & H3). exact (proj1 (robin_hood_is_a_map (table_new 16) ∅ 5 (yes 5) 5 H1 H2 H3)).
Defined.
Example compact_roundtrip_run : compact_allowed (yes 7) = true ∧ compact_expiry (yes 7) = 300.
Proof. destruct (compact_roundtrip 7 true 0 300 ltac:(lia) ltac:(lia) ltac:(lia)) as (H1 & H2 & _). by split. Qed.
(** Only the distance of the entry that is placed last is recorded: an entry
    that took the place of another can lie too far away to be found. *)
Example entry_out_of_reach :
  (λ t, (table_get t 64, l1_probe_distance <$> bucket (rt_buckets t) 4, rt_max_probe_distance t)) <$> insert_all_of [0; 16; 32; 3; 4; 48; 64] (table_new 16)
  = Some (None, Some 4, 2).
Proof. vm_compute. reflexivity. Qed.
(** With a high bit required and missing the check without branches says yes. *)
Example branchless_grants : check_permission_branchless 0 0x80000001 = true.
Proof. vm_compute. reflexivity. Qed.
(** One request is always refused, eight at once in a build for vectors are all
    granted. *)
Definition key (n : Z) : AclKey := mkKey "mallory" "payroll" Admin.
Definition code (k : AclKey) : Z := 1.
Definition system : UltraFastAuthSystem := ultra_new (mkUltraConfig true 1024 1 true 8) (mkFeatures true false) (Some (thread_cache_new 4)).
Example batch_grants_everything :
  ((λ r, ur_allowed r.1) <$> authorize_fast code code (key 0) 0 system,
   fst <$> authorize_batch code code false false (key <$> seqZ 0 8) 0 system) = (Some false, Some (replicate 8 true)).
Proof. vm_compute. reflexivity. Qed.
(** A batch larger than the vector loses answers. *)
Example wide_batch_loses_answers :
  length (evaluate_batch true false (evaluator_new true 0 (mkFeatures true true)) (key <$> seqZ 0 16)) = 8%nat.
Proof. vm_compute. reflexivity. Qed.
(** The cache of a thread does not look at expiry. *)
Example l1_never_expires :
  match l1_insert_fast code (key 0) true 0 (thread_cache_new 4) with
  | Some c => ((l1_get_fast code (key 0) c).1, compact_is_expired (compact_new 1 true 0 L1_TTL) 100000)
  | None => (None, false)
  end = (Some true, true).
Proof. vm_compute. reflexivity. Qed.
(** Repeated insertions of one key lengthen the queue without bound. *)
Example queue_grows :
  let c := foldl (λ c t, l2_insert_fast code (key 0) true t c) (l2_new 0) (seqZ 0 50) in (size (lf_cache c), length (lf_lru_tracker c)) = (1%nat, 50%nat).
Proof. vm_compute. reflexivity. Qed.
(** A table doubles without limit, whatever capacity was asked for. *)
Example table_grows : (λ t, rt_capacity t) <$> insert_all_of (seqZ 0 50) (table_new 4) = Some 128%nat.
Proof. vm_compute. reflexivity. Qed.
End UltraDemo.
