(* ===== verification/Proto.v ===== *)
(** * The messages of the protocol

    The generated message types of [src/src/proto/rustmq.common.rs] and
    [src/src/proto/rustmq.broker.rs] that the conversions and the replication
    service use, field by field, with the error codes of the protocol.  An
    optional message is an [option], an enumeration field its number, a floating
    point field a binary64 number.  The types have the names of the internal
    types they mirror: files that use both import this one first and say
    [Proto.TopicPartition]. *)

From Stdlib Require Import SpecFloat.
From S2P Require Import Prelude.
Local Open Scope Z_scope.

(** [prost_types::Timestamp] *)
Record Timestamp := mkTimestamp { ts_seconds : Z; ts_nanos : Z }.

(** ** Common messages *)

Record TopicPartition := mkPTopicPartition {
  ptp_topic : string;
  ptp_partition : Z;
}.
Record Header := mkPHeader {
  phd_key : string;
  phd_value : bytes;
}.
Record Record_ := mkPRecord {
  prec_key : bytes;
  prec_value : bytes;
  prec_headers : list Header;
  prec_timestamp : option Timestamp;
}.
Record WalRecord := mkPWalRecord {
  pwr_topic_partition : option TopicPartition;
  pwr_offset : Z;
  pwr_record : option Record_;
  pwr_crc32 : Z;
  pwr_version : Z;
}.
Record BrokerInfo := mkPBrokerInfo {
  pbi_id : string;
  pbi_host : string;
  pbi_port_quic : Z;
  pbi_port_rpc : Z;
  pbi_rack_id : string;
  pbi_status : Z;
  pbi_version : Z;
}.
(** [retention_policy::Policy] *)
Inductive Policy := RetentionMs (ms : Z) | RetentionBytes (n : Z) | Infinite (b : bool).
Record RetentionPolicy := mkPRetentionPolicy { pret_policy : option Policy }.
Record TopicConfig := mkPTopicConfig {
  ptc_name : string;
  ptc_partition_count : Z;
  ptc_replication_factor : Z;
  ptc_retention_policy : option RetentionPolicy;
  ptc_compression : Z;
  ptc_etl_modules : list string;
  ptc_version : Z;
}.
Record FollowerState := mkPFollowerState {
  pfs_broker_id : string;
  pfs_last_known_offset : Z;
  pfs_last_heartbeat : option Timestamp;
  pfs_lag : Z;
  pfs_lag_time_ms : Z;
  pfs_in_sync : bool;
}.
Record RequestMetadata := mkPRequestMetadata {
  prm_client_id : string;
  prm_correlation_id : string;
  prm_timestamp : option Timestamp;
  prm_api_version : Z;
  prm_timeout_ms : Z;
}.
Record ResponseMetadata := mkPResponseMetadata {
  psm_correlation_id : string;
  psm_timestamp : option Timestamp;
  psm_error_code : Z;
  psm_error_message : string;
  psm_throttle_time_ms : Z;
}.

(** ** Messages between brokers *)

Record ReplicateDataRequest := mkPReplicateDataRequest {
  prdr_leader_epoch : Z;
  prdr_topic_partition : option TopicPartition;
  prdr_records : list WalRecord;
  prdr_leader_id : string;
  prdr_leader_high_watermark : Z;
  prdr_request_id : Z;
  prdr_metadata : option RequestMetadata;
  prdr_batch_base_offset : Z;
  prdr_batch_record_count : Z;
  prdr_batch_size_bytes : Z;
  prdr_compression : Z;
}.
Record ReplicateDataResponse := mkPReplicateDataResponse {
  prdp_success : bool;
  prdp_error_code : Z;
  prdp_error_message : string;
  prdp_follower_state : option FollowerState;
  prdp_metadata : option ResponseMetadata;
  prdp_bytes_replicated : Z;
  prdp_records_replicated : Z;
  prdp_replication_time_ms : Z;
  prdp_follower_log_end_offset : Z;
  prdp_follower_high_watermark : Z;
}.
Record HeartbeatRequest := mkPHeartbeatRequest {
  phbr_leader_epoch : Z;
  phbr_leader_id : string;
  phbr_topic_partition : option TopicPartition;
  phbr_high_watermark : Z;
  phbr_metadata : option RequestMetadata;
  phbr_leader_log_end_offset : Z;
  phbr_in_sync_replicas : list string;
  phbr_heartbeat_interval_ms : Z;
  phbr_leader_messages_per_second : Z;
  phbr_leader_bytes_per_second : Z;
}.
Record HeartbeatResponse := mkPHeartbeatResponse {
  phbp_success : bool;
  phbp_error_code : Z;
  phbp_error_message : string;
  phbp_follower_state : option FollowerState;
  phbp_metadata : option ResponseMetadata;
  phbp_follower_cpu_usage : spec_float;
  phbp_follower_memory_usage : spec_float;
  phbp_follower_disk_usage_bytes : Z;
  phbp_follower_network_in_bytes : Z;
  phbp_follower_network_out_bytes : Z;
  phbp_supported_compression : list string;
  phbp_max_batch_size_bytes : Z;
}.
Record TransferLeadershipRequest := mkPTransferLeadershipRequest {
  ptlr_topic_partition : option TopicPartition;
  ptlr_current_leader_id : string;
  ptlr_current_leader_epoch : Z;
  ptlr_new_leader_id : string;
  ptlr_metadata : option RequestMetadata;
  ptlr_controller_id : string;
  ptlr_controller_epoch : Z;
  ptlr_transfer_timeout_ms : Z;
  ptlr_force_transfer : bool;
  ptlr_wait_for_sync : bool;
}.
Record TransferLeadershipResponse := mkPTransferLeadershipResponse {
  ptlp_success : bool;
  ptlp_error_code : Z;
  ptlp_error_message : string;
  ptlp_new_leader_epoch : Z;
  ptlp_metadata : option ResponseMetadata;
  ptlp_actual_new_leader_id : string;
  ptlp_transfer_time_ms : Z;
  ptlp_final_log_end_offset : Z;
  ptlp_new_isr : list string;
}.
Record AssignPartitionRequest := mkPAssignPartitionRequest {
  papr_topic_partition : option TopicPartition;
  papr_replica_set : list string;
  papr_leader_id : string;
  papr_leader_epoch : Z;
  papr_controller_id : string;
  papr_metadata : option RequestMetadata;
  papr_controller_epoch : Z;
  papr_assignment_reason : string;
  papr_topic_config : option TopicConfig;
  papr_initial_offset : Z;
  papr_is_new_partition : bool;
  papr_expected_throughput_mbs : Z;
  papr_priority : Z;
}.
Record AssignPartitionResponse := mkPAssignPartitionResponse {
  papp_success : bool;
  papp_error_code : Z;
  papp_error_message : string;
  papp_metadata : option ResponseMetadata;
  papp_assigned_log_end_offset : Z;
  papp_assigned_wal_path : string;
  papp_estimated_setup_time_ms : Z;
  papp_allocated_memory_bytes : Z;
  papp_allocated_disk_bytes : Z;
  papp_allocated_network_mbs : Z;
}.
Record RemovePartitionRequest := mkPRemovePartitionRequest {
  prpr_topic_partition : option TopicPartition;
  prpr_controller_id : string;
  prpr_metadata : option RequestMetadata;
  prpr_controller_epoch : Z;
  prpr_removal_reason : string;
  prpr_graceful_removal : bool;
  prpr_removal_timeout_ms : Z;
  prpr_preserve_data : bool;
  prpr_backup_location : string;
}.
Record RemovePartitionResponse := mkPRemovePartitionResponse {
  prpp_success : bool;
  prpp_error_code : Z;
  prpp_error_message : string;
  prpp_metadata : option ResponseMetadata;
  prpp_final_log_end_offset : Z;
  prpp_removed_data_bytes : Z;
  prpp_removal_time_ms : Z;
  prpp_freed_memory_bytes : Z;
  prpp_freed_disk_bytes : Z;
  prpp_cleanup_status : string;
}.
Record ReplicationStatusRequest := mkPReplicationStatusRequest {
  prsr_topic_partition : option TopicPartition;
  prsr_metadata : option RequestMetadata;
  prsr_include_follower_details : bool;
  prsr_include_performance_metrics : bool;
  prsr_include_lag_analysis : bool;
}.
Record FollowerDetails := mkPFollowerDetails {
  pfd_broker_id : string;
  pfd_state : option FollowerState;
  pfd_last_fetch_offset : Z;
  pfd_last_fetch_time : option Timestamp;
  pfd_fetch_rate_mbs : Z;
  pfd_error_count : Z;
  pfd_last_error : string;
  pfd_health_score : spec_float;
}.
Record ReplicationStatusResponse := mkPReplicationStatusResponse {
  prsp_success : bool;
  prsp_error_code : Z;
  prsp_error_message : string;
  prsp_metadata : option ResponseMetadata;
  prsp_current_leader : string;
  prsp_leader_epoch : Z;
  prsp_in_sync_replicas : list string;
  prsp_out_of_sync_replicas : list string;
  prsp_replication_lag_messages : Z;
  prsp_replication_lag_time_ms : Z;
  prsp_replication_throughput_mbs : spec_float;
  prsp_follower_details : list FollowerDetails;
}.
Record SyncIsrRequest := mkPSyncIsrRequest {
  psir_topic_partition : option TopicPartition;
  psir_leader_id : string;
  psir_leader_epoch : Z;
  psir_current_isr : list string;
  psir_proposed_isr : list string;
  psir_metadata : option RequestMetadata;
  psir_change_reason : string;
  psir_added_replicas : list string;
  psir_removed_replicas : list string;
  psir_follower_performance : list FollowerDetails;
}.
Record SyncIsrResponse := mkPSyncIsrResponse {
  psip_success : bool;
  psip_error_code : Z;
  psip_error_message : string;
  psip_metadata : option ResponseMetadata;
  psip_approved_isr : list string;
  psip_isr_version : Z;
  psip_controller_comment : string;
}.
Record TruncateLogRequest := mkPTruncateLogRequest {
  ptrr_topic_partition : option TopicPartition;
  ptrr_truncate_offset : Z;
  ptrr_requester_id : string;
  ptrr_requester_epoch : Z;
  ptrr_metadata : option RequestMetadata;
  ptrr_truncation_reason : string;
  ptrr_force_truncation : bool;
}.
Record TruncateLogResponse := mkPTruncateLogResponse {
  ptrp_success : bool;
  ptrp_error_code : Z;
  ptrp_error_message : string;
  ptrp_metadata : option ResponseMetadata;
  ptrp_actual_truncate_offset : Z;
  ptrp_truncated_bytes : Z;
  ptrp_truncation_time_ms : Z;
  ptrp_new_log_end_offset : Z;
  ptrp_new_high_watermark : Z;
}.

(** ** Enumerations *)

Inductive AcknowledgmentLevel := PAckNone | PAckLeader | PAckMajority | PAckAll | PAckCustom.
Inductive DurabilityLevel := PLocalOnly | PDurable.
Inductive CompressionType := PCompressionNone | PLz4 | PZstd.
Definition compression_number (c : CompressionType) : Z := match c with PCompressionNone => 0 | PLz4 => 1 | PZstd => 2 end.
Inductive BrokerStatus := PStatusUnknown | POnline | POffline | PMaintenance | PDecommissioning.
Definition broker_status_number (s : BrokerStatus) : Z :=
  match s with PStatusUnknown => 0 | POnline => 1 | POffline => 2 | PMaintenance => 3 | PDecommissioning => 4 end.

Inductive ErrorCode :=
  | EC_None | EC_Unknown | EC_InternalError | EC_NotImplemented | EC_Deprecated | EC_InvalidRequest
  | EC_InvalidParameter | EC_MissingParameter | EC_ParameterOutOfRange | EC_InvalidMessageFormat
  | EC_MessageTooLarge | EC_BatchTooLarge | EC_InvalidEncoding | EC_ChecksumMismatch | EC_ProtocolError
  | EC_AuthenticationFailed | EC_AuthorizationFailed | EC_AccessDenied | EC_InvalidCredentials
  | EC_CredentialsExpired | EC_TokenInvalid | EC_TokenExpired | EC_PermissionDenied | EC_QuotaExceeded
  | EC_RateLimited | EC_ResourceNotFound | EC_ResourceAlreadyExists | EC_ResourceBusy
  | EC_ResourceExhausted | EC_ResourceLocked | EC_ResourceCorrupted | EC_ResourceUnavailable
  | EC_InsufficientStorage | EC_DiskFull | EC_MemoryExhausted | EC_TopicNotFound | EC_TopicAlreadyExists
  | EC_InvalidTopicName | EC_PartitionNotFound | EC_InvalidPartitionId | EC_InvalidPartitionCount
  | EC_InvalidReplicationFactor | EC_PartitionOffline | EC_PartitionReassignmentInProgress
  | EC_TopicDeletionInProgress | EC_NotLeader | EC_LeaderNotAvailable | EC_NoLeader | EC_StaleLeaderEpoch
  | EC_FencedLeaderEpoch | EC_UnknownLeaderEpoch | EC_ElectionInProgress | EC_SplitBrain | EC_QuorumLoss
  | EC_ConsensusTimeout | EC_ReplicationFailed | EC_ReplicaNotAvailable | EC_NotEnoughReplicas
  | EC_NotEnoughReplicasAfterAppend | EC_ReplicaLagTooHigh | EC_IsrShrunk | EC_OutOfSyncReplica
  | EC_ReplicationTimeout | EC_FollowerFetchFailed | EC_LeaderHwmStalled | EC_OffsetOutOfRange
  | EC_InvalidOffset | EC_OffsetNotAvailable | EC_LogTruncated | EC_LogCompacted | EC_RecordTooLarge
  | EC_RecordCorrupted | EC_InvalidRecordFormat | EC_CompressionError | EC_SerializationError
  | EC_NetworkError | EC_ConnectionFailed | EC_ConnectionTimeout | EC_ConnectionRefused | EC_ConnectionLost
  | EC_DnsResolutionFailed | EC_TlsError | EC_CertificateError | EC_HandshakeFailed
  | EC_ProtocolVersionMismatch | EC_BrokerNotAvailable | EC_BrokerNotFound | EC_BrokerOffline
  | EC_BrokerOverloaded | EC_ClusterUnavailable | EC_ControllerNotAvailable | EC_NotController
  | EC_StaleControllerEpoch | EC_ClusterConfigurationError | EC_MetadataUpdateFailed | EC_StorageError
  | EC_WalError | EC_WalCorruption | EC_WalSegmentNotFound | EC_ObjectStorageError | EC_ObjectNotFound
  | EC_CacheError | EC_CacheMiss | EC_CacheFull | EC_FlushFailed | EC_SyncFailed | EC_BackupFailed
  | EC_RestoreFailed | EC_CompactionFailed | EC_IndexCorruption | EC_InvalidConfiguration
  | EC_ConfigurationError | EC_ConfigurationUpdateFailed | EC_SchemaValidationFailed | EC_VersionMismatch
  | EC_UpgradeInProgress | EC_DowngradeNotSupported | EC_FeatureNotAvailable | EC_LicenseError
  | EC_MaintenanceMode | EC_EtlError | EC_EtlModuleNotFound | EC_EtlCompilationFailed
  | EC_EtlExecutionFailed | EC_EtlTimeout | EC_WasmError | EC_SandboxError | EC_ResourceLimitExceeded
  | EC_MemoryLimitExceeded | EC_CpuLimitExceeded | EC_TimeLimitExceeded | EC_ScalingError
  | EC_RebalancingInProgress | EC_RebalancingFailed | EC_ScaleOutFailed | EC_ScaleInFailed
  | EC_NodeAdditionFailed | EC_NodeRemovalFailed | EC_RollingUpgradeFailed | EC_DeploymentFailed
  | EC_KubernetesError | EC_HealthCheckFailed | EC_ClientError | EC_InvalidClientId | EC_ClientDisconnected
  | EC_ClientTimeout | EC_ClientQuotaExceeded | EC_SessionExpired | EC_InvalidSession | EC_ProducerFenced
  | EC_IdempotenceError | EC_TransactionError | EC_ConsumerGroupError | EC_AdminApiError
  | EC_InvalidAdminOperation | EC_AdminPermissionDenied | EC_TopicCreationFailed | EC_TopicDeletionFailed
  | EC_PartitionCreationFailed | EC_AclCreationFailed | EC_UserCreationFailed | EC_QuotaUpdateFailed
  | EC_ConfigUpdateFailed | EC_MetricsUnavailable.
(** [as u32] *)
Definition error_code_number (c : ErrorCode) : Z :=
  match c with
  | EC_None => 0 | EC_Unknown => 1 | EC_InternalError => 2 | EC_NotImplemented => 3 | EC_Deprecated => 4
  | EC_InvalidRequest => 100 | EC_InvalidParameter => 101 | EC_MissingParameter => 102
  | EC_ParameterOutOfRange => 103 | EC_InvalidMessageFormat => 104 | EC_MessageTooLarge => 105
  | EC_BatchTooLarge => 106 | EC_InvalidEncoding => 107 | EC_ChecksumMismatch => 108
  | EC_ProtocolError => 109 | EC_AuthenticationFailed => 200 | EC_AuthorizationFailed => 201
  | EC_AccessDenied => 202 | EC_InvalidCredentials => 203 | EC_CredentialsExpired => 204
  | EC_TokenInvalid => 205 | EC_TokenExpired => 206 | EC_PermissionDenied => 207 | EC_QuotaExceeded => 208
  | EC_RateLimited => 209 | EC_ResourceNotFound => 300 | EC_ResourceAlreadyExists => 301
  | EC_ResourceBusy => 302 | EC_ResourceExhausted => 303 | EC_ResourceLocked => 304
  | EC_ResourceCorrupted => 305 | EC_ResourceUnavailable => 306 | EC_InsufficientStorage => 307
  | EC_DiskFull => 308 | EC_MemoryExhausted => 309 | EC_TopicNotFound => 400 | EC_TopicAlreadyExists => 401
  | EC_InvalidTopicName => 402 | EC_PartitionNotFound => 403 | EC_InvalidPartitionId => 404
  | EC_InvalidPartitionCount => 405 | EC_InvalidReplicationFactor => 406 | EC_PartitionOffline => 407
  | EC_PartitionReassignmentInProgress => 408 | EC_TopicDeletionInProgress => 409 | EC_NotLeader => 500
  | EC_LeaderNotAvailable => 501 | EC_NoLeader => 502 | EC_StaleLeaderEpoch => 503
  | EC_FencedLeaderEpoch => 504 | EC_UnknownLeaderEpoch => 505 | EC_ElectionInProgress => 506
  | EC_SplitBrain => 507 | EC_QuorumLoss => 508 | EC_ConsensusTimeout => 509 | EC_ReplicationFailed => 600
  | EC_ReplicaNotAvailable => 601 | EC_NotEnoughReplicas => 602 | EC_NotEnoughReplicasAfterAppend => 603
  | EC_ReplicaLagTooHigh => 604 | EC_IsrShrunk => 605 | EC_OutOfSyncReplica => 606
  | EC_ReplicationTimeout => 607 | EC_FollowerFetchFailed => 608 | EC_LeaderHwmStalled => 609
  | EC_OffsetOutOfRange => 700 | EC_InvalidOffset => 701 | EC_OffsetNotAvailable => 702
  | EC_LogTruncated => 703 | EC_LogCompacted => 704 | EC_RecordTooLarge => 705 | EC_RecordCorrupted => 706
  | EC_InvalidRecordFormat => 707 | EC_CompressionError => 708 | EC_SerializationError => 709
  | EC_NetworkError => 800 | EC_ConnectionFailed => 801 | EC_ConnectionTimeout => 802
  | EC_ConnectionRefused => 803 | EC_ConnectionLost => 804 | EC_DnsResolutionFailed => 805
  | EC_TlsError => 806 | EC_CertificateError => 807 | EC_HandshakeFailed => 808
  | EC_ProtocolVersionMismatch => 809 | EC_BrokerNotAvailable => 900 | EC_BrokerNotFound => 901
  | EC_BrokerOffline => 902 | EC_BrokerOverloaded => 903 | EC_ClusterUnavailable => 904
  | EC_ControllerNotAvailable => 905 | EC_NotController => 906 | EC_StaleControllerEpoch => 907
  | EC_ClusterConfigurationError => 908 | EC_MetadataUpdateFailed => 909 | EC_StorageError => 1000
  | EC_WalError => 1001 | EC_WalCorruption => 1002 | EC_WalSegmentNotFound => 1003
  | EC_ObjectStorageError => 1004 | EC_ObjectNotFound => 1005 | EC_CacheError => 1006
  | EC_CacheMiss => 1007 | EC_CacheFull => 1008 | EC_FlushFailed => 1009 | EC_SyncFailed => 1010
  | EC_BackupFailed => 1011 | EC_RestoreFailed => 1012 | EC_CompactionFailed => 1013
  | EC_IndexCorruption => 1014 | EC_InvalidConfiguration => 1100 | EC_ConfigurationError => 1101
  | EC_ConfigurationUpdateFailed => 1102 | EC_SchemaValidationFailed => 1103 | EC_VersionMismatch => 1104
  | EC_UpgradeInProgress => 1105 | EC_DowngradeNotSupported => 1106 | EC_FeatureNotAvailable => 1107
  | EC_LicenseError => 1108 | EC_MaintenanceMode => 1109 | EC_EtlError => 1200
  | EC_EtlModuleNotFound => 1201 | EC_EtlCompilationFailed => 1202 | EC_EtlExecutionFailed => 1203
  | EC_EtlTimeout => 1204 | EC_WasmError => 1205 | EC_SandboxError => 1206
  | EC_ResourceLimitExceeded => 1207 | EC_MemoryLimitExceeded => 1208 | EC_CpuLimitExceeded => 1209
  | EC_TimeLimitExceeded => 1210 | EC_ScalingError => 1300 | EC_RebalancingInProgress => 1301
  | EC_RebalancingFailed => 1302 | EC_ScaleOutFailed => 1303 | EC_ScaleInFailed => 1304
  | EC_NodeAdditionFailed => 1305 | EC_NodeRemovalFailed => 1306 | EC_RollingUpgradeFailed => 1307
  | EC_DeploymentFailed => 1308 | EC_KubernetesError => 1309 | EC_HealthCheckFailed => 1310
  | EC_ClientError => 1400 | EC_InvalidClientId => 1401 | EC_ClientDisconnected => 1402
  | EC_ClientTimeout => 1403 | EC_ClientQuotaExceeded => 1404 | EC_SessionExpired => 1405
  | EC_InvalidSession => 1406 | EC_ProducerFenced => 1407 | EC_IdempotenceError => 1408
  | EC_TransactionError => 1409 | EC_ConsumerGroupError => 1410 | EC_AdminApiError => 1500
  | EC_InvalidAdminOperation => 1501 | EC_AdminPermissionDenied => 1502 | EC_TopicCreationFailed => 1503
  | EC_TopicDeletionFailed => 1504 | EC_PartitionCreationFailed => 1505 | EC_AclCreationFailed => 1506
  | EC_UserCreationFailed => 1507 | EC_QuotaUpdateFailed => 1508 | EC_ConfigUpdateFailed => 1509
  | EC_MetricsUnavailable => 1510
  end.
