(* ===== verification/ProtoConvert.v ===== *)
(** * Conversion between internal types and protocol messages

    Model of [src/src/proto_convert.rs] and of the [Display] of the error enum
    ([src/src/error.rs]).  A pair of [From]/[TryFrom] implementations is an
    instance of [ProtoPair]; the theorem says for which values a message read
    back is the value it was made of.  The texts of responses travel beside
    the responses, which have no field for them here.  The current time and
    the range of milliseconds chrono accepts are arguments; a time of chrono is
    its number of nanoseconds. *)

From S2P Require Import Proto.
From Stdlib Require Import SpecFloat.
From S2P Require Import Prelude Types Controller.
Local Open Scope Z_scope.

Inductive ConversionError :=
  | MissingField (field : string) | InvalidTimestamp | InvalidEnumValue (value : Z) (enum_name : string) | InvalidFormat.
Inductive ConversionResult (A : Type) := COk (a : A) | CErr (e : ConversionError).
Arguments COk {A}. Arguments CErr {A}.
Definition cbind {A B} (r : ConversionResult A) (k : A → ConversionResult B) : ConversionResult B :=
  match r with COk a => k a | CErr e => CErr e end.
Notation "'let^' x := r 'in' k" := (cbind r (fun x => k)) (at level 10, x name, r at level 100, k at level 200).
(** [ok_or_else] with a missing field *)
Definition required {A} (field : string) (o : option A) : ConversionResult A :=
  match o with Some a => COk a | None => CErr (MissingField field) end.
(** [.map(f).collect::<Result<Vec<_>, _>>()] *)
Fixpoint collect {A B} (f : A → ConversionResult B) (l : list A) : ConversionResult (list B) :=
  match l with
  | [] => COk []
  | a :: l => let^ b := f a in let^ bs := collect f l in COk (b :: bs)
  end.
(** [.map(f).transpose()] *)
Definition transpose {A B} (f : A → ConversionResult B) (o : option A) : ConversionResult (option B) :=
  match o with None => COk None | Some a => let^ b := f a in COk (Some b) end.

(** ** The interface

    [from_proto] takes the current time, which stands in for a missing one. *)

Class ProtoPair (A P : Type) := {
  into_proto : A → ConversionResult P;
  from_proto : Z → P → ConversionResult A;
}.
#[global] Hint Mode ProtoPair ! ! : typeclass_instances.

Definition is_u16 (z : Z) : Prop := 0 ≤ z < 2 ^ 16.

(** ** Timestamps *)

Definition as_i32 (z : Z) : Z := (z + 2 ^ 31) mod 2 ^ 32 - 2 ^ 31.
Definition is_i64 (z : Z) : Prop := - 2 ^ 63 ≤ z < 2 ^ 63.
#[global] Instance is_i64_dec z : Decision (is_i64 z).
Proof. unfold is_i64. apply _. Defined.

Definition timestamp_to_proto (millis : Z) : ConversionResult Timestamp :=
  let seconds := Z.quot millis 1000 in
  let nanos := as_i32 (Z.rem millis 1000 * 1000000) in
  COk (mkTimestamp seconds nanos).
Definition timestamp_from_proto (timestamp : Timestamp) : ConversionResult Z :=
  COk (as_i64 (ts_seconds timestamp * 1000 + Z.quot (ts_nanos timestamp) 1000000)).

(** ** Partitions, records and headers *)

Definition topic_partition_into (tp : TopicPartition) : Proto.TopicPartition := mkPTopicPartition (tp_topic tp) (tp_partition tp).
Definition topic_partition_from (tp : Proto.TopicPartition) : TopicPartition := mkTP (ptp_topic tp) (ptp_partition tp).
Definition header_into (h : Header) : Proto.Header := mkPHeader (h_key h) (h_value h).
Definition header_from (h : Proto.Header) : Header := mkHeader (phd_key h) (phd_value h).

Definition record_into (record : Record_) : ConversionResult Proto.Record_ :=
  let^ timestamp := timestamp_to_proto (r_timestamp record) in
  COk (mkPRecord (default [] (r_key record)) (r_value record) (header_into <$> r_headers record) (Some timestamp)).
Definition record_from (now : Z) (record : Proto.Record_) : ConversionResult Record_ :=
  let^ timestamp := transpose timestamp_from_proto (prec_timestamp record) in
  COk (mkRecord (if bool_decide (prec_key record = []) then None else Some (prec_key record)) (prec_value record)
         (header_from <$> prec_headers record) (default now timestamp)).

Definition wal_record_into (wal_record : WalRecord) : ConversionResult Proto.WalRecord :=
  let^ record := record_into (wr_record wal_record) in
  COk (mkPWalRecord (Some (topic_partition_into (wr_tp wal_record))) (wr_offset wal_record) (Some record) (wr_crc32 wal_record) 1).
Definition wal_record_from (now : Z) (wal_record : Proto.WalRecord) : ConversionResult WalRecord :=
  let^ topic_partition := required "topic_partition" (pwr_topic_partition wal_record) in
  let^ record := required "record" (pwr_record wal_record) in
  let^ record := record_from now record in
  COk (mkWal (topic_partition_from topic_partition) (pwr_offset wal_record) record (pwr_crc32 wal_record)).

(** ** Brokers and enumerations *)

Definition as_u16 (z : Z) : Z := z mod 2 ^ 16.
Definition broker_info_into (broker : BrokerInfo) : ConversionResult Proto.BrokerInfo :=
  COk (mkPBrokerInfo (bi_id broker) (bi_host broker) (bi_port_quic broker) (bi_port_rpc broker) (bi_rack_id broker)
         (broker_status_number POnline) 1).
Definition broker_info_from (broker : Proto.BrokerInfo) : ConversionResult BrokerInfo :=
  COk (mkBroker (pbi_id broker) (pbi_host broker) (as_u16 (pbi_port_quic broker)) (as_u16 (pbi_port_rpc broker)) (pbi_rack_id broker)).

Definition ack_into (ack : AcknowledgmentLevel) : Proto.AcknowledgmentLevel :=
  match ack with
  | AckNone => PAckNone | AckLeader => PAckLeader | AckMajority => PAckMajority | AckAll => PAckAll | AckCustom _ => PAckCustom
  end.
Definition ack_from (ack : Proto.AcknowledgmentLevel) : AcknowledgmentLevel :=
  match ack with
  | PAckNone => AckNone | PAckLeader => AckLeader | PAckMajority => AckMajority | PAckAll => AckAll | PAckCustom => AckCustom 3
  end.
Definition durability_into (d : DurabilityLevel) : Proto.DurabilityLevel :=
  match d with LocalOnly => PLocalOnly | Durable => PDurable end.
Definition durability_from (d : Proto.DurabilityLevel) : DurabilityLevel :=
  match d with PLocalOnly => LocalOnly | PDurable => Durable end.
(** [internal::CompressionType] *)
Inductive CompressionType := CompressionNone | CompressionLz4 | CompressionZstd.
Definition compression_into (c : CompressionType) : Proto.CompressionType :=
  match c with CompressionNone => PCompressionNone | CompressionLz4 => PLz4 | CompressionZstd => PZstd end.
Definition compression_from (c : Proto.CompressionType) : CompressionType :=
  match c with PCompressionNone => CompressionNone | PLz4 => CompressionLz4 | PZstd => CompressionZstd end.

(** ** Error codes and texts *)

(** [error_to_code]; an error of the model only, [Panic] or [Blocked], is sent by
    nobody. *)
Definition error_to_code (error : RustMqError) : Z :=
  error_code_number match error with
  | Io | Network | Storage | Replication | Wal | Cache | Upload | Etl | Balance | Sandbox | AdminApi | Tls | Certificate | Quic
  | QuicConnection | ReplicationFailed _ | Transport | CacheOperation | AclEvaluation | Timeout | Internal
  | CertificateGeneration | TlsHandshakeFailed | CryptographicFailure | SecurityAuditLog | RaftError | RaftStorage
  | RaftNetwork | ConsensusTimeout | LogCompaction | SnapshotError | MembershipChange | Encryption | Panic | Blocked => EC_InternalError
  | Serialization => EC_InvalidEncoding
  | Config | InvalidConfig | InvalidUri | InvalidCertificate | SecurityConfig | PrincipalExtraction | CertificateValidation
  | InvalidAclPattern | SignatureVerificationFailed | RevocationCheckFailed | CertificateChainValidation | ValidationError => EC_InvalidParameter
  | Bandwidth | BufferTooSmall | ResourceExhausted | RateLimitExceeded _ => EC_ResourceExhausted
  | InvalidOffset _ | OffsetOutOfRange => EC_OffsetOutOfRange
  | TopicNotFound _ => EC_TopicNotFound
  | PartitionNotFound => EC_PartitionNotFound
  | BrokerNotFound _ | NotFound | CertificateNotFound | CaNotAvailable | AclRuleNotFound _ => EC_ResourceNotFound
  | PermissionDenied | AuthenticationFailed | AuthorizationFailed | CertificateRevoked | CertificateExpired
  | AuthorizationDenied _ _ _ | SecurityPolicyViolation | SessionExpired _ | InsufficientPrivileges => EC_PermissionDenied
  | InvalidOperation | AclRuleConflict => EC_InvalidRequest
  | NoLeader | NotLeader | LeaderElection => EC_NotLeader
  | StaleLeaderEpoch _ _ => EC_StaleLeaderEpoch
  | EtlProcessingFailed => EC_EtlExecutionFailed
  | EtlModuleNotFound => EC_EtlModuleNotFound
  | TopicAlreadyExists _ => EC_TopicAlreadyExists
  | ObjectNotFound => EC_ObjectNotFound
  end.

(** [error_to_message], the [Display] of an error; [text] is the part of the
    message that errors do not keep here. *)
Definition error_to_message (text : string) (error : RustMqError) : string :=
  match error with
  | Io => "IO error: " +:+ text
  | Serialization => "Serialization error: " +:+ text
  | Network => "Network error: " +:+ text
  | Storage => "Storage error: " +:+ text
  | Replication => "Replication error: " +:+ text
  | Config => "Configuration error: " +:+ text
  | Wal => "Wal error: " +:+ text
  | Cache => "Cache error: " +:+ text
  | Upload => "Upload error: " +:+ text
  | Etl => "ETL error: " +:+ text
  | Bandwidth => "Bandwidth error: " +:+ text
  | Balance => "Balance error: " +:+ text
  | Sandbox => "Sandbox error: " +:+ text
  | AdminApi => "Admin API error: " +:+ text
  | BufferTooSmall => "Buffer too small"
  | InvalidOffset offset => "Invalid offset: " +:+ dec offset
  | TopicNotFound name => "Topic not found: " +:+ name
  | PartitionNotFound => "Partition not found: " +:+ text
  | BrokerNotFound broker_id => "Broker not found: " +:+ broker_id
  | InvalidConfig => "Invalid configuration: " +:+ text
  | PermissionDenied => "Permission denied: " +:+ text
  | Tls => "TLS error: " +:+ text
  | Certificate => "Certificate error: " +:+ text
  | Quic => "QUIC error: " +:+ text
  | QuicConnection => "QUIC connection error: " +:+ text
  | InvalidOperation => "Invalid operation: " +:+ text
  | ResourceExhausted => "Resource exhausted: " +:+ text
  | NotFound => "Not found: " +:+ text
  | NoLeader => "No leader found"
  | ReplicationFailed broker_id => "Replication failed to broker " +:+ broker_id +:+ ": " +:+ text
  | StaleLeaderEpoch request_epoch current_epoch => "Stale leader epoch: request epoch " +:+ dec request_epoch +:+ ", current epoch " +:+ dec current_epoch
  | EtlProcessingFailed => "ETL processing failed: " +:+ text
  | EtlModuleNotFound => "ETL module not found: " +:+ text
  | TopicAlreadyExists name => "Topic already exists: " +:+ name
  | NotLeader => "Not leader for partition: " +:+ text
  | OffsetOutOfRange => "Offset out of range: " +:+ text
  | ObjectNotFound => "Object not found: " +:+ text
  | Transport => "Transport error: " +:+ text
  | InvalidUri => "Invalid URI: " +:+ text
  | AuthenticationFailed => "Authentication failed: " +:+ text
  | AuthorizationDenied principal permission resource => "Authorization denied: principal '" +:+ principal +:+ "' lacks '" +:+ permission +:+ "' on '" +:+ resource +:+ "'"
  | AuthorizationFailed => "Authorization failed: " +:+ text
  | CertificateRevoked => "Certificate revoked: " +:+ text
  | CertificateExpired => "Certificate expired: " +:+ text
  | InvalidCertificate => "Invalid certificate: " +:+ text
  | CertificateNotFound => "Certificate not found: " +:+ text
  | CertificateGeneration => "Certificate generation failed: " +:+ text
  | CertificateValidation => "Certificate validation failed: " +:+ text
  | Encryption => "Encryption/Decryption error: " +:+ text
  | CaNotAvailable => "CA not available: " +:+ text
  | SecurityConfig => "Security configuration error: " +:+ text
  | CacheOperation => "Cache operation failed: " +:+ text
  | PrincipalExtraction => "Principal extraction failed: " +:+ text
  | AclEvaluation => "ACL evaluation failed: " +:+ text
  | AclRuleNotFound rule_id => "ACL rule not found: " +:+ rule_id
  | AclRuleConflict => "ACL rule conflict: " +:+ text
  | InvalidAclPattern => "Invalid ACL pattern: " +:+ text
  | SecurityPolicyViolation => "Security policy violation: " +:+ text
  | RateLimitExceeded principal => "Rate limit exceeded for principal: " +:+ principal
  | SessionExpired principal => "Session expired for principal: " +:+ principal
  | TlsHandshakeFailed => "TLS handshake failed: " +:+ text
  | SignatureVerificationFailed => "Signature verification failed: " +:+ text
  | CryptographicFailure => "Cryptographic operation failed: " +:+ text
  | RevocationCheckFailed => "Revocation check failed: " +:+ text
  | CertificateChainValidation => "Certificate chain validation failed: " +:+ text
  | SecurityAuditLog => "Security audit log error: " +:+ text
  | InsufficientPrivileges => "Insufficient privileges for operation: " +:+ text
  | Timeout => "Timeout occurred: " +:+ text
  | Internal => "Internal error: " +:+ text
  | ValidationError => "Validation error: " +:+ text
  | RaftError => "Raft error: " +:+ text
  | RaftStorage => "Raft storage error: " +:+ text
  | RaftNetwork => "Raft network error: " +:+ text
  | ConsensusTimeout => "Consensus timeout: " +:+ text
  | LogCompaction => "Log compaction error: " +:+ text
  | SnapshotError => "Snapshot error: " +:+ text
  | LeaderElection => "Leader election failed: " +:+ text
  | MembershipChange => "Membership change failed: " +:+ text
  | Panic | Blocked => text
  end.

Definition error_is_retryable (error : RustMqError) : bool :=
  match error with
  | Timeout | Network | QuicConnection | ResourceExhausted | Replication | Upload => true
  | StaleLeaderEpoch _ _ | InvalidOperation | InvalidConfig | TopicNotFound _ | PartitionNotFound | BrokerNotFound _
  | PermissionDenied | TopicAlreadyExists _ | NotLeader | OffsetOutOfRange => false
  | _ => false
  end.

(** ** Messages between brokers *)

(** An absent text is the empty one. *)
Definition message_into (message : option string) : string := default EmptyString message.
Definition message_from (message : string) : option string := if String.eqb message EmptyString then None else Some message.

(** [DateTime<Utc>] of chrono, in nanoseconds since 1970: the number of whole
    milliseconds, and back within the range chrono accepts *)
Definition timestamp_millis (t : Z) : Z := t / 1000000.
Class Chrono := { accepts_millis : Z → bool }.
Definition from_timestamp_millis {chrono : Chrono} (millis : Z) : option Z :=
  if accepts_millis millis then Some (millis * 1000000) else None.

Section messages.
Context {chrono : Chrono}.

Definition follower_state_into (state : FollowerState) : ConversionResult Proto.FollowerState :=
  let^ last_heartbeat := timestamp_to_proto (timestamp_millis (fs_last_heartbeat state)) in
  COk (mkPFollowerState (fs_broker_id state) (fs_last_known_offset state) (Some last_heartbeat) (fs_lag state) 0
         (fs_lag state <? 1000)).
Definition follower_state_from (now : Z) (state : Proto.FollowerState) : ConversionResult FollowerState :=
  let^ last_heartbeat := transpose timestamp_from_proto (pfs_last_heartbeat state) in
  let last_heartbeat := default now ((λ ts, default now (from_timestamp_millis ts)) <$> last_heartbeat) in
  COk (mkFollowerState (pfs_broker_id state) (pfs_last_known_offset state) last_heartbeat (pfs_lag state)).

Definition replicate_request_into (req : ReplicateDataRequest) : ConversionResult Proto.ReplicateDataRequest :=
  let^ records := collect wal_record_into (rdr_records req) in
  COk (mkPReplicateDataRequest (rdr_leader_epoch req) (Some (topic_partition_into (rdr_topic_partition req))) records
         (rdr_leader_id req) 0 0 None 0 0 0 (compression_number PCompressionNone)).
Definition replicate_request_from (now : Z) (req : Proto.ReplicateDataRequest) : ConversionResult ReplicateDataRequest :=
  let^ topic_partition := required "topic_partition" (prdr_topic_partition req) in
  let^ records := collect (wal_record_from now) (prdr_records req) in
  COk (mkReplicateDataRequest (prdr_leader_epoch req) (topic_partition_from topic_partition) records (prdr_leader_id req)).

Definition replicate_response_into (r : ReplicateDataResponse * option string) : ConversionResult Proto.ReplicateDataResponse :=
  let '(resp, message) := r in
  let^ follower_state := transpose follower_state_into (rdp_follower_state resp) in
  COk (mkPReplicateDataResponse (rdp_success resp) (rdp_error_code resp) (message_into message) follower_state None 0 0 0 0 0).
Definition replicate_response_from (now : Z) (resp : Proto.ReplicateDataResponse)
  : ConversionResult (ReplicateDataResponse * option string) :=
  let^ follower_state := transpose (follower_state_from now) (prdp_follower_state resp) in
  COk (mkReplicateDataResponse (prdp_success resp) (prdp_error_code resp) follower_state, message_from (prdp_error_message resp)).

Definition heartbeat_request_into (req : HeartbeatRequest) : ConversionResult Proto.HeartbeatRequest :=
  COk (mkPHeartbeatRequest (hb_leader_epoch req) (hb_leader_id req) (Some (topic_partition_into (hb_topic_partition req)))
         (hb_high_watermark req) None 0 [] 30000 0 0).
Definition heartbeat_request_from (req : Proto.HeartbeatRequest) : ConversionResult HeartbeatRequest :=
  let^ topic_partition := required "topic_partition" (phbr_topic_partition req) in
  COk (mkHeartbeatRequest (phbr_leader_epoch req) (phbr_leader_id req) (topic_partition_from topic_partition) (phbr_high_watermark req)).

Definition heartbeat_response_into (r : HeartbeatResponse * option string) : ConversionResult Proto.HeartbeatResponse :=
  let '(resp, message) := r in
  let^ follower_state := transpose follower_state_into (hbp_follower_state resp) in
  COk (mkPHeartbeatResponse (hbp_success resp) (hbp_error_code resp) (message_into message) follower_state None
         (S754_zero false) (S754_zero false) 0 0 0 ["none"; "lz4"] (1024 * 1024)).
Definition heartbeat_response_from (now : Z) (resp : Proto.HeartbeatResponse) : ConversionResult (HeartbeatResponse * option string) :=
  let^ follower_state := transpose (follower_state_from now) (phbp_follower_state resp) in
  COk (mkHeartbeatResponse (phbp_success resp) (phbp_error_code resp) follower_state, message_from (phbp_error_message resp)).

Definition assign_request_into (req : AssignPartitionRequest) : ConversionResult Proto.AssignPartitionRequest :=
  COk (mkPAssignPartitionRequest (Some (topic_partition_into (apr_topic_partition req))) (apr_replica_set req) (apr_leader_id req)
         (apr_leader_epoch req) (apr_controller_id req) None 1 "controller_assignment" None 0 false 0 0).
Definition assign_request_from (req : Proto.AssignPartitionRequest) : ConversionResult AssignPartitionRequest :=
  let^ topic_partition := required "topic_partition" (papr_topic_partition req) in
  COk (mkAssignPartitionRequest (topic_partition_from topic_partition) (papr_replica_set req) (papr_leader_id req)
         (papr_leader_epoch req) (papr_controller_id req)).
Definition assign_response_into (r : PartitionResponse * option string) : ConversionResult Proto.AssignPartitionResponse :=
  let '(resp, message) := r in
  COk (mkPAssignPartitionResponse (app_success resp) (app_error_code resp) (message_into message) None 0 EmptyString 0 0 0 0).
Definition assign_response_from (resp : Proto.AssignPartitionResponse) : ConversionResult (PartitionResponse * option string) :=
  COk (mkPartitionResponse (papp_success resp) (papp_error_code resp), message_from (papp_error_message resp)).

(** [internal::RemovePartitionRequest] *)
Record RemovePartitionRequest := mkRemovePartitionRequest { rpr_topic_partition : TopicPartition; rpr_controller_id : BrokerId }.
Definition remove_request_into (req : RemovePartitionRequest) : ConversionResult Proto.RemovePartitionRequest :=
  COk (mkPRemovePartitionRequest (Some (topic_partition_into (rpr_topic_partition req))) (rpr_controller_id req) None 1
         "controller_removal" true 30000 false EmptyString).
Definition remove_request_from (req : Proto.RemovePartitionRequest) : ConversionResult RemovePartitionRequest :=
  let^ topic_partition := required "topic_partition" (prpr_topic_partition req) in
  COk (mkRemovePartitionRequest (topic_partition_from topic_partition) (prpr_controller_id req)).
Definition remove_response_into (r : PartitionResponse * option string) : ConversionResult Proto.RemovePartitionResponse :=
  let '(resp, message) := r in
  COk (mkPRemovePartitionResponse (app_success resp) (app_error_code resp) (message_into message) None 0 0 0 0 0 "completed").
Definition remove_response_from (resp : Proto.RemovePartitionResponse) : ConversionResult (PartitionResponse * option string) :=
  COk (mkPartitionResponse (prpp_success resp) (prpp_error_code resp), message_from (prpp_error_message resp)).

Definition transfer_request_into (req : TransferLeadershipRequest) : ConversionResult Proto.TransferLeadershipRequest :=
  COk (mkPTransferLeadershipRequest (Some (topic_partition_into (tlr_topic_partition req))) (tlr_current_leader_id req)
         (tlr_current_leader_epoch req) (tlr_new_leader_id req) None "controller-1" 1 30000 false true).
Definition transfer_request_from (req : Proto.TransferLeadershipRequest) : ConversionResult TransferLeadershipRequest :=
  let^ topic_partition := required "topic_partition" (ptlr_topic_partition req) in
  COk (mkTransferLeadershipRequest (topic_partition_from topic_partition) (ptlr_current_leader_id req)
         (ptlr_current_leader_epoch req) (ptlr_new_leader_id req)).
Definition transfer_response_into (r : TransferLeadershipResponse * option string) : ConversionResult Proto.TransferLeadershipResponse :=
  let '(resp, message) := r in
  COk (mkPTransferLeadershipResponse (tlp_success resp) (tlp_error_code resp) (message_into message)
         (default 0 (tlp_new_leader_epoch resp)) None EmptyString 0 0 []).
Definition transfer_response_from (resp : Proto.TransferLeadershipResponse) : ConversionResult (TransferLeadershipResponse * option string) :=
  COk (mkTransferLeadershipResponse (ptlp_success resp) (ptlp_error_code resp)
         (if ptlp_new_leader_epoch resp =? 0 then None else Some (ptlp_new_leader_epoch resp)),
       message_from (ptlp_error_message resp)).

(** ** Helpers of the replication client *)

Definition topic_partition_to_proto (tp : TopicPartition) : Proto.TopicPartition := mkPTopicPartition (tp_topic tp) (tp_partition tp).
Definition to_storage_error {A} (r : ConversionResult A) : Result A := match r with COk a => Ok a | CErr _ => Err Storage end.
Local Open Scope rust_scope.
Definition wal_record_to_proto (record : WalRecord) : Result Proto.WalRecord :=
  let? proto_record := to_storage_error (record_into (wr_record record)) in
  Ok (mkPWalRecord (Some (topic_partition_to_proto (wr_tp record))) (wr_offset record) (Some proto_record) (wr_crc32 record) 1).
Definition follower_state_from_proto (now : Z) (state : Proto.FollowerState) : Result FollowerState :=
  let? last_heartbeat :=
    match pfs_last_heartbeat state with
    | Some ts =>
        let? millis := to_storage_error (timestamp_from_proto ts) in
        Ok (default now (from_timestamp_millis millis))
    | None => Ok now
    end in
  Ok (mkFollowerState (pfs_broker_id state) (pfs_last_known_offset state) last_heartbeat (pfs_lag state)).
End messages.

(** ** Reading back what was written *)

#[global] Instance topic_partition_pair : ProtoPair TopicPartition Proto.TopicPartition :=
  {| into_proto tp := COk (topic_partition_into tp); from_proto _ tp := COk (topic_partition_from tp) |}.
#[global] Instance header_pair : ProtoPair Header Proto.Header :=
  {| into_proto h := COk (header_into h); from_proto _ h := COk (header_from h) |}.
#[global] Instance record_pair : ProtoPair Record_ Proto.Record_ := {| into_proto := record_into; from_proto := record_from |}.
#[global] Instance wal_record_pair : ProtoPair WalRecord Proto.WalRecord :=
  {| into_proto := wal_record_into; from_proto := wal_record_from |}.
#[global] Instance broker_info_pair : ProtoPair BrokerInfo Proto.BrokerInfo :=
  {| into_proto := broker_info_into; from_proto _ := broker_info_from |}.
#[global] Instance durability_pair : ProtoPair DurabilityLevel Proto.DurabilityLevel :=
  {| into_proto d := COk (durability_into d); from_proto _ d := COk (durability_from d) |}.
#[global] Instance ack_pair : ProtoPair AcknowledgmentLevel Proto.AcknowledgmentLevel :=
  {| into_proto a := COk (ack_into a); from_proto _ a := COk (ack_from a) |}.
#[global] Instance compression_pair : ProtoPair CompressionType Proto.CompressionType :=
  {| into_proto c := COk (compression_into c); from_proto _ c := COk (compression_from c) |}.

Section pairs.
Context {chrono : Chrono}.
#[global] Instance follower_state_pair : ProtoPair FollowerState Proto.FollowerState :=
  {| into_proto := follower_state_into; from_proto := follower_state_from |}.
#[global] Instance replicate_request_pair : ProtoPair ReplicateDataRequest Proto.ReplicateDataRequest :=
  {| into_proto := replicate_request_into; from_proto := replicate_request_from |}.
#[global] Instance replicate_response_pair : ProtoPair (ReplicateDataResponse * option string) Proto.ReplicateDataResponse :=
  {| into_proto := replicate_response_into; from_proto := replicate_response_from |}.
#[global] Instance heartbeat_request_pair : ProtoPair HeartbeatRequest Proto.HeartbeatRequest :=
  {| into_proto := heartbeat_request_into; from_proto _ := heartbeat_request_from |}.
#[global] Instance heartbeat_response_pair : ProtoPair (HeartbeatResponse * option string) Proto.HeartbeatResponse :=
  {| into_proto := heartbeat_response_into; from_proto := heartbeat_response_from |}.
#[global] Instance assign_request_pair : ProtoPair AssignPartitionRequest Proto.AssignPartitionRequest :=
  {| into_proto := assign_request_into; from_proto _ := assign_request_from |}.
#[global] Instance assign_response_pair : ProtoPair (PartitionResponse * option string) Proto.AssignPartitionResponse :=
  {| into_proto := assign_response_into; from_proto _ := assign_response_from |}.
#[global] Instance remove_request_pair : ProtoPair RemovePartitionRequest Proto.RemovePartitionRequest :=
  {| into_proto := remove_request_into; from_proto _ := remove_request_from |}.
#[global] Instance remove_response_pair : ProtoPair (PartitionResponse * option string) Proto.RemovePartitionResponse :=
  {| into_proto := remove_response_into; from_proto _ := remove_response_from |}.
#[global] Instance transfer_request_pair : ProtoPair TransferLeadershipRequest Proto.TransferLeadershipRequest :=
  {| into_proto := transfer_request_into; from_proto _ := transfer_request_from |}.
#[global] Instance transfer_response_pair : ProtoPair (TransferLeadershipResponse * option string) Proto.TransferLeadershipResponse :=
  {| into_proto := transfer_response_into; from_proto _ := transfer_response_from |}.
End pairs.

(** The value [a] survives the trip through message type [P]. *)
Definition survives {A} (P : Type) `{!ProtoPair A P} (a : A) : Prop :=
  ∃ p : P, into_proto a = COk p ∧ ∀ now, from_proto now p = COk a.

(** A conversion that cannot fail: what comes back is a function of the value
    and of the time of reading. *)
Definition comes_back {A} (P : Type) `{!ProtoPair A P} (a : A) (back : Z → A) : Prop :=
  ∃ p : P, into_proto a = COk p ∧ ∀ now, from_proto now p = COk (back now).
Lemma survives_iff {A P} `{!ProtoPair A P} (a : A) back : comes_back P a back → survives P a ↔ ∀ now, back now = a.
Proof.
  intros (p & Hp & Hb). split.
  - intros (q & Hq & Hs) now. rewrite Hp in Hq. simplify_eq. specialize (Hs now). rewrite Hb in Hs. congruence.
  - intros H. exists p. split; [done|]. intros now. by rewrite Hb, H.
Qed.

Lemma timestamp_roundtrip ms : is_i64 ms → ∃ ts, timestamp_to_proto ms = COk ts ∧ timestamp_from_proto ts = COk ms.
Proof.
  intros Hms. eexists. split; [done|]. unfold timestamp_from_proto. cbn [ts_seconds ts_nanos]. f_equal.
  assert (Hr : -1000 < Z.rem ms 1000 < 1000) by (pose proof (Z.rem_bound_abs ms 1000 ltac:(lia)); lia).
  unfold as_i32. rewrite Z.mod_small by lia. replace (_ + 2 ^ 31 - 2 ^ 31) with (Z.rem ms 1000 * 1000000) by lia.
  rewrite Z.quot_mul by lia. pose proof (Z.quot_rem' ms 1000). unfold as_i64, is_i64 in *.
  replace (Z.quot ms 1000 * 1000 + Z.rem ms 1000) with ms by lia. rewrite Z.mod_small by lia. lia.
Qed.

Lemma message_roundtrip m : message_from (message_into m) = if bool_decide (m = Some EmptyString) then None else m.
Proof. destruct m as [[|a m]|]; [done| |done]. by rewrite bool_decide_eq_false_2 by congruence. Qed.
Lemma message_kept m : (if bool_decide (m = Some EmptyString) then None else m) = m ↔ m ≠ Some EmptyString.
Proof. case_bool_decide; split; congruence. Qed.

Lemma header_roundtrip h : header_from (header_into h) = h.
Proof. by destruct h. Qed.
Lemma tp_roundtrip tp : topic_partition_from (topic_partition_into tp) = tp.
Proof. by destruct tp. Qed.
Lemma headers_roundtrip (hs : list Header) : header_from <$> (header_into <$> hs) = hs.
Proof. induction hs as [|h hs IH]; [done|]. rewrite !fmap_cons, IH. by rewrite header_roundtrip. Qed.

(** A record without an empty key *)
Definition normal_record (r : Record_) : Record_ :=
  mkRecord (if bool_decide (r_key r = Some []) then None else r_key r) (r_value r) (r_headers r) (r_timestamp r).
Lemma normal_record_id r : normal_record r = r ↔ r_key r ≠ Some [].
Proof.
  unfold normal_record. destruct r as [k v hs t]. simpl. case_bool_decide; split; try congruence.
Qed.
Lemma record_comes_back r : is_i64 (r_timestamp r) → comes_back Proto.Record_ r (λ _, normal_record r).
Proof.
  intros (ts & Ht & Hf)%timestamp_roundtrip. unfold comes_back. cbn [into_proto from_proto record_pair]. unfold record_into. rewrite Ht.
  eexists. split; [done|]. intros now. unfold record_from. cbn [prec_timestamp prec_key prec_value prec_headers transpose]. rewrite Hf.
  simpl. rewrite headers_roundtrip. unfold normal_record. f_equal. f_equal. destruct (r_key r) as [[|b k]|]; try done.
Qed.
Definition normal_wal (w : WalRecord) : WalRecord := mkWal (wr_tp w) (wr_offset w) (normal_record (wr_record w)) (wr_crc32 w).
Lemma normal_wal_id w : normal_wal w = w ↔ r_key (wr_record w) ≠ Some [].
Proof.
  rewrite <- normal_record_id. destruct w as [tp o r c]. unfold normal_wal. simpl. split; [congruence|by intros ->].
Qed.
Lemma wal_record_comes_back w : is_i64 (r_timestamp (wr_record w)) → comes_back Proto.WalRecord w (λ _, normal_wal w).
Proof.
  intros (p & Hp & Hb)%record_comes_back. unfold comes_back. cbn [into_proto from_proto wal_record_pair record_pair] in *.
  unfold wal_record_into. rewrite Hp. eexists. split; [done|]. intros now. unfold wal_record_from. simpl. rewrite Hb. simpl.
  by rewrite tp_roundtrip.
Qed.
Lemma collect_comes_back {A P} `{!ProtoPair A P} (l : list A) back :
  (∀ a, a ∈ l → comes_back P a (back a)) → ∃ ps, collect into_proto l = COk ps ∧ ∀ now, collect (from_proto (P := P) now) ps = COk ((λ a, back a now) <$> l).
Proof.
  induction l as [|a l IH]; intros H; [by exists []|]. destruct (H a ltac:(left)) as (p & Hp & Hb).
  destruct IH as (ps & Hps & Hbs); [intros b Hb'; apply H; by right|]. exists (p :: ps). simpl. rewrite Hp, Hps. split; [done|].
  intros now. simpl. by rewrite Hb, Hbs.
Qed.
Lemma map_normal_id (ws : list WalRecord) : normal_wal <$> ws = ws ↔ ∀ w, w ∈ ws → r_key (wr_record w) ≠ Some [].
Proof.
  induction ws as [|w ws IH]; [split; [by intros _ w ?%elem_of_nil|done]|]. rewrite fmap_cons. split.
  - intros [= H1 H2] w' [->|Hw]%elem_of_cons; [by apply normal_wal_id|]. by apply IH.
  - intros H. f_equal; [apply normal_wal_id, H; by left|]. apply IH. intros w' Hw. apply H. by right.
Qed.

Section roundtrips.
Context {chrono : Chrono}.

Lemma follower_state_comes_back fs : is_i64 (timestamp_millis (fs_last_heartbeat fs)) →
  comes_back Proto.FollowerState fs (λ now, mkFollowerState (fs_broker_id fs) (fs_last_known_offset fs)
    (default now (from_timestamp_millis (timestamp_millis (fs_last_heartbeat fs)))) (fs_lag fs)).
Proof.
  intros (ts & Ht & Hf)%timestamp_roundtrip. unfold comes_back. cbn [into_proto from_proto follower_state_pair].
  unfold follower_state_into. rewrite Ht. eexists. split; [done|]. intros now. unfold follower_state_from. cbn [pfs_last_heartbeat transpose]. by rewrite Hf.
Qed.
Lemma transpose_comes_back {A P} `{!ProtoPair A P} (o : option A) back :
  (∀ a, o = Some a → comes_back P a (back a)) →
  ∃ q, transpose into_proto o = COk q ∧ ∀ now, transpose (from_proto (P := P) now) q = COk ((λ a, back a now) <$> o).
Proof.
  destruct o as [a|]; intros H; [|by exists None]. destruct (H a eq_refl) as (p & Hp & Hb). exists (Some p). simpl. rewrite Hp.
  split; [done|]. intros now. simpl. by rewrite Hb.
Qed.

Lemma replicate_request_comes_back req : (∀ w, w ∈ rdr_records req → is_i64 (r_timestamp (wr_record w))) →
  comes_back Proto.ReplicateDataRequest req
    (λ _, mkReplicateDataRequest (rdr_leader_epoch req) (rdr_topic_partition req) (normal_wal <$> rdr_records req) (rdr_leader_id req)).
Proof.
  intros H. destruct (collect_comes_back (P := Proto.WalRecord) (rdr_records req) (λ w _, normal_wal w)) as (ps & Hps & Hbs).
  { intros w Hw. by apply wal_record_comes_back, H. }
  unfold comes_back. cbn [into_proto from_proto replicate_request_pair wal_record_pair] in *.
  unfold replicate_request_into. rewrite Hps. eexists. split; [done|]. intros now. unfold replicate_request_from. simpl.
  rewrite Hbs. simpl. by rewrite tp_roundtrip.
Qed.

(** A time comes back when it has no fraction of a millisecond. *)
Lemma millis_kept t : from_timestamp_millis (timestamp_millis t) = Some t ↔ (1000000 | t) ∧ accepts_millis (timestamp_millis t) = true.
Proof.
  unfold from_timestamp_millis, timestamp_millis. destruct (accepts_millis _); [|by split; [|intros [_ ?]]]. split.
  - intros [= E]. split; [|done]. by exists (t / 1000000).
  - intros [[q ->] _]. by rewrite Z.div_mul.
Qed.
(** Whether the state in a response can be read back *)
Definition state_kept (fs : option FollowerState) : Prop :=
  ∀ s, fs = Some s → (1000000 | fs_last_heartbeat s) ∧ accepts_millis (timestamp_millis (fs_last_heartbeat s)) = true.
Lemma state_kept_iff (fs : option FollowerState) :
  (∀ now, (λ s, mkFollowerState (fs_broker_id s) (fs_last_known_offset s)
     (default now (from_timestamp_millis (timestamp_millis (fs_last_heartbeat s)))) (fs_lag s)) <$> fs = fs) ↔ state_kept fs.
Proof.
  unfold state_kept. destruct fs as [[b o t l]|]; simpl; [|split; [by intros _ s|done]]. split.
  - intros Hs s [= <-]. simpl. pose proof (Hs (t + 1)) as H2. apply millis_kept.
    destruct (from_timestamp_millis _) as [t'|]; simpl in *; [congruence|]. injection H2. lia.
  - intros Hs now. specialize (Hs _ eq_refl). apply millis_kept in Hs. simpl in Hs. by rewrite Hs.
Qed.

(** The shape of both responses of a follower *)
Lemma response_survives {A P} `{!ProtoPair A P} (a : A) (fs : option FollowerState) (m : option string) (mk : option FollowerState → option string → A) :
  comes_back P a (λ now, mk ((λ s, mkFollowerState (fs_broker_id s) (fs_last_known_offset s)
     (default now (from_timestamp_millis (timestamp_millis (fs_last_heartbeat s)))) (fs_lag s)) <$> fs) (if bool_decide (m = Some EmptyString) then None else m)) →
  mk fs m = a → (∀ fs1 fs2 m1 m2, mk fs1 m1 = mk fs2 m2 → fs1 = fs2 ∧ m1 = m2) →
  survives P a ↔ state_kept fs ∧ m ≠ Some EmptyString.
Proof.
  intros Hb <- Hinj. rewrite (survives_iff _ _ Hb), <- state_kept_iff, <- message_kept. split.
  - intros H. split; [intros now|]; [by destruct (Hinj _ _ _ _ (H now))|by destruct (Hinj _ _ _ _ (H 0))].
  - intros [H ->] now. by rewrite H.
Qed.

Lemma replicate_response_survives resp m :
  (∀ s, rdp_follower_state resp = Some s → is_i64 (timestamp_millis (fs_last_heartbeat s))) →
  survives Proto.ReplicateDataResponse (resp, m) ↔ state_kept (rdp_follower_state resp) ∧ m ≠ Some EmptyString.
Proof.
  intros H. destruct (transpose_comes_back (P := Proto.FollowerState) (rdp_follower_state resp) _
    (λ s Hs, follower_state_comes_back s (H s Hs))) as (q & Hq & Hqb).
  apply (response_survives _ _ m (λ fs m, (mkReplicateDataResponse (rdp_success resp) (rdp_error_code resp) fs, m)));
    [|by destruct resp|by intros fs1 fs2 m1 m2 [= -> ->]].
  unfold comes_back. cbn [into_proto from_proto replicate_response_pair follower_state_pair] in *. unfold replicate_response_into.
  rewrite Hq. eexists. split; [done|]. intros now. unfold replicate_response_from. simpl. rewrite Hqb. simpl. by rewrite message_roundtrip.
Qed.
Lemma heartbeat_response_survives resp m :
  (∀ s, hbp_follower_state resp = Some s → is_i64 (timestamp_millis (fs_last_heartbeat s))) →
  survives Proto.HeartbeatResponse (resp, m) ↔ state_kept (hbp_follower_state resp) ∧ m ≠ Some EmptyString.
Proof.
  intros H. destruct (transpose_comes_back (P := Proto.FollowerState) (hbp_follower_state resp) _
    (λ s Hs, follower_state_comes_back s (H s Hs))) as (q & Hq & Hqb).
  apply (response_survives _ _ m (λ fs m, (mkHeartbeatResponse (hbp_success resp) (hbp_error_code resp) fs, m)));
    [|by destruct resp|by intros fs1 fs2 m1 m2 [= -> ->]].
  unfold comes_back. cbn [into_proto from_proto heartbeat_response_pair follower_state_pair] in *. unfold heartbeat_response_into.
  rewrite Hq. eexists. split; [done|]. intros now. unfold heartbeat_response_from. simpl. rewrite Hqb. simpl. by rewrite message_roundtrip.
Qed.
Lemma transfer_response_survives resp m :
  survives Proto.TransferLeadershipResponse (resp, m) ↔ tlp_new_leader_epoch resp ≠ Some 0 ∧ m ≠ Some EmptyString.
Proof.
  rewrite (survives_iff _ (λ _, (mkTransferLeadershipResponse (tlp_success resp) (tlp_error_code resp)
    (if bool_decide (tlp_new_leader_epoch resp = Some 0) then None else tlp_new_leader_epoch resp), if bool_decide (m = Some EmptyString) then None else m))).
  - rewrite <- message_kept. destruct resp as [s c e]. simpl. split.
    + intros Hs. injection (Hs 0) as He Hm. split; [|done]. intros ->. by rewrite bool_decide_eq_true_2 in He.
    + intros [He ->] _. by rewrite bool_decide_eq_false_2.
  - eexists. split; [done|]. intros now. cbn [from_proto transfer_response_pair]. unfold transfer_response_from. simpl.
    rewrite message_roundtrip. do 3 f_equal. destruct (tlp_new_leader_epoch resp) as [e|]; simpl; [|done].
    destruct (Z.eqb_spec e 0) as [->|]; [done|]. by rewrite bool_decide_eq_false_2 by congruence.
Qed.
Lemma partition_response_survives resp m :
  (survives Proto.AssignPartitionResponse (resp, m) ↔ m ≠ Some EmptyString) ∧
  (survives Proto.RemovePartitionResponse (resp, m) ↔ m ≠ Some EmptyString).
Proof.
  rewrite <- message_kept. split;
    (rewrite (survives_iff _ (λ _, (resp, if bool_decide (m = Some EmptyString) then None else m)));
     [split; [intros H; by injection (H 0)|by intros ->]|];
     eexists; split; [done|]; intros now; cbn [from_proto assign_response_pair remove_response_pair];
     unfold assign_response_from, remove_response_from; simpl; rewrite message_roundtrip; by destruct resp).
Qed.
Lemma broker_info_survives b :
  is_u16 (bi_port_quic b) → is_u16 (bi_port_rpc b) → survives Proto.BrokerInfo b.
Proof.
  intros Hq Hr. rewrite (survives_iff _ (λ _, mkBroker (bi_id b) (bi_host b) (as_u16 (bi_port_quic b)) (as_u16 (bi_port_rpc b)) (bi_rack_id b)))
    by (eexists; split; done).
  intros _. unfold as_u16, is_u16 in *. rewrite !Z.mod_small by done. by destruct b.
Qed.

(** C21: Exactly which messages between brokers can be read back.  A replication
    request with times of 64 bits comes back as it was if and only if no record
    has an empty key; heartbeats, assignments, removals and transfers always do;
    a response does if and only if its error text is absent or not empty and, for
    followers, the time in the state is a whole number of milliseconds that chrono
    accepts, for transfers, the epoch is not zero; a broker, whose ports have
    sixteen bits, always does; an acknowledgment level unless it is a custom count
    other than three. *)
Theorem messages_survive :
  (∀ req, (∀ w, w ∈ rdr_records req → is_i64 (r_timestamp (wr_record w))) →
     survives Proto.ReplicateDataRequest req ↔ ∀ w, w ∈ rdr_records req → r_key (wr_record w) ≠ Some []) ∧
  (∀ resp m, (∀ s, rdp_follower_state resp = Some s → is_i64 (timestamp_millis (fs_last_heartbeat s))) →
     survives Proto.ReplicateDataResponse (resp, m) ↔ state_kept (rdp_follower_state resp) ∧ m ≠ Some EmptyString) ∧
  (∀ req : HeartbeatRequest, survives Proto.HeartbeatRequest req) ∧
  (∀ resp m, (∀ s, hbp_follower_state resp = Some s → is_i64 (timestamp_millis (fs_last_heartbeat s))) →
     survives Proto.HeartbeatResponse (resp, m) ↔ state_kept (hbp_follower_state resp) ∧ m ≠ Some EmptyString) ∧
  (∀ req : AssignPartitionRequest, survives Proto.AssignPartitionRequest req) ∧ (∀ req : RemovePartitionRequest, survives Proto.RemovePartitionRequest req) ∧
  (∀ resp m, (survives Proto.AssignPartitionResponse (resp, m) ↔ m ≠ Some EmptyString) ∧
             (survives Proto.RemovePartitionResponse (resp, m) ↔ m ≠ Some EmptyString)) ∧
  (∀ req : TransferLeadershipRequest, survives Proto.TransferLeadershipRequest req) ∧
  (∀ resp m, survives Proto.TransferLeadershipResponse (resp, m) ↔ tlp_new_leader_epoch resp ≠ Some 0 ∧ m ≠ Some EmptyString) ∧
  (∀ b, is_u16 (bi_port_quic b) → is_u16 (bi_port_rpc b) → survives Proto.BrokerInfo b) ∧
  (∀ a : AcknowledgmentLevel, survives Proto.AcknowledgmentLevel a ↔ ∀ n, a = AckCustom n → n = 3).
Proof.
  split_and!.
  - intros req H. rewrite (survives_iff _ _ (replicate_request_comes_back req H)), <- map_normal_id. destruct req as [e tp rs l]. simpl.
    split; [intros Hs; by injection (Hs 0)|by intros ->].
  - intros resp m H. by apply replicate_response_survives.
  - intros [e l [t p] h]. by eexists.
  - intros resp m H. by apply heartbeat_response_survives.
  - intros [[t p] rs l e c]. by eexists.
  - intros [[t p] c]. by eexists.
  - intros resp m. apply partition_response_survives.
  - intros [[t p] l e n]. by eexists.
  - intros resp m. apply transfer_response_survives.
  - intros b. apply broker_info_survives.
  - intros a. rewrite (survives_iff _ (λ _, ack_from (ack_into a))) by (eexists; split; done).
    destruct a as [| | | |n]; simpl; try (split; [by intros _ n|done]). split; [intros H m [= <-]; by injection (H 0)|].
    intros H _. by rewrite (H n eq_refl).
Qed.
End roundtrips.

(** ** Concrete runs *)

Module ProtoDemo.
(** chrono takes some 262,000 years on either side of 1970. *)
#[local] Instance chrono : Chrono := {| accepts_millis t := Z.abs t <? 8000000000000000 |}.
Definition request (r : Record_) : ReplicateDataRequest := mkReplicateDataRequest 5 Demo.tp0 [Demo.wal Demo.tp0 3 r] "broker-1".
Lemma messages_survive_witness : survives Proto.ReplicateDataRequest (request Demo.rec0).
Proof.
  apply (proj1 messages_survive); intros w; (intros [->|[]%elem_of_nil]%elem_of_cons); [split; vm_compute; congruence|vm_compute; congruence].
Defined.
(** A record with an empty key arrives without a key. *)
Example empty_key_lost :
  cbind (record_into (mkRecord (Some []) [1] [] 7)) (record_from 0) = COk (mkRecord None [1] [] 7).
Proof. reflexivity. Qed.
(** The time of a heartbeat loses its fraction of a millisecond. *)
Example heartbeat_time_cut :
  cbind (follower_state_into (mkFollowerState "b2" 7 1700000000123456789 0)) (follower_state_from 0)
  = COk (mkFollowerState "b2" 7 1700000000123000000 0).
Proof. reflexivity. Qed.
(** An acknowledgment by five replicas becomes one by three. *)
Example custom_level_lost : ack_from (ack_into (AckCustom 5)) = AckCustom 3.
Proof. reflexivity. Qed.
(** Times before 1970 have negative nanoseconds, which the protocol excludes. *)
Example negative_nanos : timestamp_to_proto (-1500) = COk (mkTimestamp (-1) (-500000000)).
Proof. reflexivity. Qed.
(** The code a follower sends for a stale epoch is that of a failed write-ahead
    log in the protocol. *)
Example stale_epoch_code :
  (error_to_code (StaleLeaderEpoch 4 5), error_code_number EC_WalError) = (503, 1001).
Proof. reflexivity. Qed.
End ProtoDemo.
