(* ===== verification/GrpcTransport.v ===== *)
(** * Replication over gRPC

    Model of the protocol side of the broker's replication service and of the
    network handler with its circuit breaker ([src/src/network/grpc_server.rs]),
    and of the replication client ([src/src/replication/grpc_client.rs]):
    connections, retries, the bandwidth limit and the conversions on both sides.
    The client implements [ReplicationRpcClient] over services that are reached
    through channels which can fail before or after a request is handled; a
    channel is the URL it was opened to.  What other tasks do while a call waits
    is a function of the moment, and what tonic makes of a URL a parameter. *)

From S2P Require Import Proto.
From Stdlib Require Import SpecFloat.
From S2P Require Import Prelude Types PartitionIndex ColdIndex SegmentedWal LruCache ObjectStorage.
From S2P Require Import Reservation PartitionStore Follower Replication Scaling Controller ProtoConvert.
Local Open Scope Z_scope.

(** ** Statuses *)

(** [tonic::Code] *)
Inductive Code :=
  | CodeOk | Cancelled | CodeUnknown | InvalidArgument | DeadlineExceeded | CodeNotFound | AlreadyExists | CodePermissionDenied
  | CodeResourceExhausted | FailedPrecondition | Aborted | OutOfRange | Unimplemented | CodeInternal | Unavailable | DataLoss
  | Unauthenticated.
Record Status := mkStatus { st_code : Code; st_message : string }.
(** [Result<Response<A>, Status>] *)
Inductive RpcResult (A : Type) := Response (a : A) | Refused (s : Status).
Arguments Response {A}. Arguments Refused {A}.

Definition error_to_status (text : string) (error : RustMqError) : Status :=
  let message := error_to_message text error in
  let status_code :=
    match error with
    | NotFound => CodeNotFound
    | PermissionDenied => CodePermissionDenied
    | InvalidOperation => InvalidArgument
    | Timeout => DeadlineExceeded
    | ResourceExhausted => CodeResourceExhausted
    | StaleLeaderEpoch _ _ => FailedPrecondition
    | NotLeader => FailedPrecondition
    | _ => CodeInternal
    end in
  mkStatus status_code message.

(** [str::contains] *)
Fixpoint contains (s needle : string) : bool :=
  String.prefix needle s || match s with EmptyString => false | String _ s => contains s needle end.

Definition status_to_error (status : Status) : RustMqError :=
  match st_code status with
  | CodeNotFound => NotFound
  | CodePermissionDenied => PermissionDenied
  | InvalidArgument => InvalidOperation
  | DeadlineExceeded => Timeout
  | CodeResourceExhausted => ResourceExhausted
  | FailedPrecondition =>
      if contains (st_message status) "StaleLeaderEpoch" || contains (st_message status) "stale leader" then StaleLeaderEpoch 0 0
      else if contains (st_message status) "NotLeader" then NotLeader
      else InvalidOperation
  | Unavailable => Network
  | _ => Network
  end.

(** ** The protocol side of the service *)

Definition conversion_error_message (text : string) (e : ConversionError) : string :=
  match e with
  | MissingField field => "Missing required field: " +:+ field
  | InvalidTimestamp => "Invalid timestamp: " +:+ text
  | InvalidEnumValue value enum_name => "Invalid enum value: " +:+ dec value +:+ " for enum " +:+ enum_name
  | InvalidFormat => "Invalid data format: " +:+ text
  end.

Section service.
Context {L R : Type} `{!RecordLog L, !ObjectStorage R, !Bincode Reservation} {chrono : Chrono}.
Abbreviation Service := (BrokerService L R).
(** What the errors and the failed responses of a call say *)
Context (text words : string).

(** The shape of the five handlers: a request that cannot be read is refused
    before the handler, an error of the handler is a status. *)
Definition serve {P I O Q} (from : P → ConversionResult I) (handle : I → Service → Result O * Service)
    (into : O → ConversionResult Q) (proto_request : P) (s : Service) : RpcResult Q * Service :=
  match from proto_request with
  | CErr e => (Refused (mkStatus InvalidArgument ("Invalid request: " +:+ conversion_error_message text e)), s)
  | COk internal_request =>
      let '(r, s) := handle internal_request s in
      match r with
      | Err e => (Refused (error_to_status text e), s)
      | Ok internal_response =>
          match into internal_response with
          | COk proto_response => (Response proto_response, s)
          | CErr e => (Refused (mkStatus CodeInternal ("Response conversion failed: " +:+ conversion_error_message text e)), s)
          end
      end
  end.

(** A response has a text when it reports a failure. *)
Definition reply_message (success : bool) : option string := if success then None else Some words.
Definition serve_replicate_data (now : Z) : Proto.ReplicateDataRequest → Service → RpcResult Proto.ReplicateDataResponse * Service :=
  serve (replicate_request_from (timestamp_millis now)) (replicate_data now) (λ resp, replicate_response_into (resp, reply_message (rdp_success resp))).
Definition serve_send_heartbeat (now : Z) : Proto.HeartbeatRequest → Service → RpcResult Proto.HeartbeatResponse * Service :=
  serve heartbeat_request_from (send_heartbeat now) (λ resp, heartbeat_response_into (resp, reply_message (hbp_success resp))).
Definition serve_transfer_leadership : Proto.TransferLeadershipRequest → Service → RpcResult Proto.TransferLeadershipResponse * Service :=
  serve transfer_request_from transfer_leadership (λ resp, transfer_response_into (resp, reply_message (tlp_success resp))).
Definition serve_assign_partition : Proto.AssignPartitionRequest → Service → RpcResult Proto.AssignPartitionResponse * Service :=
  serve assign_request_from Follower.assign_partition (λ resp, assign_response_into (resp, reply_message (app_success resp))).
Definition serve_remove_partition : Proto.RemovePartitionRequest → Service → RpcResult Proto.RemovePartitionResponse * Service :=
  serve remove_request_from (λ req, remove_partition (rpr_topic_partition req))
    (λ resp, remove_response_into (resp, reply_message (app_success resp))).

(** Three placeholders, which look neither at the request nor at the service *)
Definition get_replication_status (_ : Proto.ReplicationStatusRequest) : RpcResult Proto.ReplicationStatusResponse :=
  Response (mkPReplicationStatusResponse true 0 EmptyString None "leader-1" 1 ["replica-1"] [] 0 0 (S754_zero false) []).
Definition sync_isr (_ : Proto.SyncIsrRequest) : RpcResult Proto.SyncIsrResponse :=
  Response (mkPSyncIsrResponse true 0 EmptyString None ["replica-1"] 1 "ISR approved").
Definition truncate_log (_ : Proto.TruncateLogRequest) : RpcResult Proto.TruncateLogResponse :=
  Response (mkPTruncateLogResponse true 0 EmptyString None 0 0 0 0 0).
End service.

(** ** The bandwidth limit *)

(** Instants are nanoseconds. *)
Record TokenBucket := mkBucket { tb_tokens : f64; tb_last_update : Z; tb_rate : f64; tb_capacity : f64 }.
Definition bucket_new (now : Z) (rate : f64) : TokenBucket := mkBucket rate now rate rate.
(** [Duration::as_secs_f64] *)
Definition as_secs_f64 (nanos : Z) : f64 :=
  f64_add (f64_of_Z (nanos / 1000000000)) (f64_div (f64_of_Z (nanos mod 1000000000)) (f64_of_Z 1000000000)).
(** The loop of [acquire] at the instants it runs; [false] when it still
    waits after the last of them. *)
Fixpoint acquire_loop (amount : f64) (wakes : list Z) (b : TokenBucket) : bool * TokenBucket :=
  match wakes with
  | [] => (false, b)
  | now :: wakes =>
      let elapsed := as_secs_f64 (Z.max 0 (now - tb_last_update b)) in
      let tokens := f64_min (f64_add (tb_tokens b) (f64_mul elapsed (tb_rate b))) (tb_capacity b) in
      let b := mkBucket tokens now (tb_rate b) (tb_capacity b) in
      if SFleb amount tokens then (true, mkBucket (f64_sub tokens amount) now (tb_rate b) (tb_capacity b))
      else acquire_loop amount wakes b
  end.
Definition acquire_tokens (amount : f64) (wakes : list Z) (b : TokenBucket) : bool * TokenBucket :=
  if SFleb (tb_rate b) f64_zero then (true, b) else acquire_loop amount wakes b.

(** ** The client *)

(** Durations are milliseconds. *)
Record GrpcReplicationConfig := mkGrpcConfig {
  gc_timeout : Z;
  gc_max_retries : nat;
  gc_retry_backoff_initial : Z;
  gc_retry_backoff_max : Z;
  gc_keep_alive_interval : Z;
  gc_keep_alive_timeout : Z;
}.
Definition default_grpc_config : GrpcReplicationConfig := mkGrpcConfig 10000 3 100 5000 30000 10000.

Record BrokerEndpoint := mkEndpoint { ep_broker_id : BrokerId; ep_host : string; ep_port : Z }.
Definition url (e : BrokerEndpoint) : string := "http://" +:+ ep_host e +:+ ":" +:+ dec (ep_port e).

Record GrpcReplicationRpcClient := mkGrpcClient {
  gr_connections : gmap BrokerId string;
  gr_endpoints : gmap BrokerId BrokerEndpoint;
  gr_config : GrpcReplicationConfig;
  gr_rate_limiter : TokenBucket;
}.
Definition grpc_new (now : Z) (config : GrpcReplicationConfig) : GrpcReplicationRpcClient :=
  mkGrpcClient ∅ ∅ config (bucket_new now (f64_mul (f64_mul (f64_of_Z 50) (f64_of_Z 1024)) (f64_of_Z 1024))).
Definition with_connections (f : gmap BrokerId string → gmap BrokerId string) (c : GrpcReplicationRpcClient) : GrpcReplicationRpcClient :=
  mkGrpcClient (f (gr_connections c)) (gr_endpoints c) (gr_config c) (gr_rate_limiter c).
Definition with_limiter (b : TokenBucket) (c : GrpcReplicationRpcClient) : GrpcReplicationRpcClient :=
  mkGrpcClient (gr_connections c) (gr_endpoints c) (gr_config c) b.
Definition register_endpoint (endpoint : BrokerEndpoint) (c : GrpcReplicationRpcClient) : GrpcReplicationRpcClient :=
  mkGrpcClient (gr_connections c) (<[ep_broker_id endpoint := endpoint]> (gr_endpoints c)) (gr_config c) (gr_rate_limiter c).
Definition unregister_endpoint (broker_id : BrokerId) (c : GrpcReplicationRpcClient) : GrpcReplicationRpcClient :=
  mkGrpcClient (delete broker_id (gr_connections c)) (delete broker_id (gr_endpoints c)) (gr_config c) (gr_rate_limiter c).

(** The wait after attempt [n] *)
Fixpoint backoff (config : GrpcReplicationConfig) (n : nat) : Z :=
  match n with
  | O => gc_retry_backoff_initial config
  | S n => Z.min (backoff config n * 2) (gc_retry_backoff_max config)
  end.

(** *** The network between the brokers *)

(** What becomes of a call: the request or the answer is lost and the timeout
    fires, or the transport reports a status before or after the handler ran. *)
Inductive CallFault := Delivered | RequestLost | ResponseLost | BrokenBefore (s : Status) | BrokenAfter (s : Status).
(** Where a call waits *)
Inductive Await := AtConnect | AtCall | AtBackoff.

Record GrpcNet (L R : Type) := mkNet {
  gn_client : GrpcReplicationRpcClient;
  gn_services : gmap BrokerId (BrokerService L R);
  gn_hosts : gmap string BrokerId;      (* which broker listens at a URL *)
  gn_now : Z;
  gn_wakes : list (list Z);             (* when the limiter of the coming calls runs *)
  gn_connects : list bool;              (* whether the coming connection attempts succeed *)
  gn_faults : list CallFault;           (* what happens to the coming calls *)
}.
Arguments mkNet {L R}. Arguments gn_client {L R}. Arguments gn_services {L R}. Arguments gn_hosts {L R}. Arguments gn_now {L R}.
Arguments gn_wakes {L R}. Arguments gn_connects {L R}. Arguments gn_faults {L R}.

Section client.
Context {L R : Type} `{!RecordLog L, !ObjectStorage R, !Bincode Reservation, !Bincode WalRecord} {chrono : Chrono}.
Abbreviation Net := (GrpcNet L R).
Abbreviation Service := (BrokerService L R).
Context (valid_url : string → bool) (text words : string) (others : Await → nat → Net → Net).
Implicit Types (n : Net).
Local Open Scope rust_scope.

Definition on_client (f : GrpcReplicationRpcClient → GrpcReplicationRpcClient) n : Net :=
  mkNet (f (gn_client n)) (gn_services n) (gn_hosts n) (gn_now n) (gn_wakes n) (gn_connects n) (gn_faults n).
Definition put_service (b : BrokerId) (s : Service) n : Net :=
  mkNet (gn_client n) (<[b := s]> (gn_services n)) (gn_hosts n) (gn_now n) (gn_wakes n) (gn_connects n) (gn_faults n).
Definition next_wakes n : list Z * Net :=
  (default [] (head (gn_wakes n)),
   mkNet (gn_client n) (gn_services n) (gn_hosts n) (gn_now n) (tail (gn_wakes n)) (gn_connects n) (gn_faults n)).
Definition next_connect n : bool * Net :=
  (default true (head (gn_connects n)),
   mkNet (gn_client n) (gn_services n) (gn_hosts n) (gn_now n) (gn_wakes n) (tail (gn_connects n)) (gn_faults n)).
Definition next_fault n : CallFault * Net :=
  (default Delivered (head (gn_faults n)),
   mkNet (gn_client n) (gn_services n) (gn_hosts n) (gn_now n) (gn_wakes n) (gn_connects n) (tail (gn_faults n))).

Definition get_or_create_channel (attempt : nat) (broker_id : BrokerId) n : Result string * Net :=
  match gr_connections (gn_client n) !! broker_id with
  | Some channel => (Ok channel, n)
  | None =>
      let! (endpoint_info, n) := (ok_or (gr_endpoints (gn_client n) !! broker_id) NotFound, n) in
      if negb (valid_url (url endpoint_info)) then (Err Network, n)
      else
        let '(connected, n) := next_connect (others AtConnect attempt n) in
        if connected then (Ok (url endpoint_info), on_client (with_connections (insert broker_id (url endpoint_info))) n)
        else (Err Network, n)
  end.

(** A call of [rpc] on the service behind [channel] *)
Definition call {Q} (attempt : nat) (channel : string) (rpc : Z → Service → RpcResult Q * Service) n : Result Q * Net :=
  let '(fault, n) := next_fault (others AtCall attempt n) in
  match fault with
  | RequestLost => (Err Timeout, n)
  | BrokenBefore status => (Err (status_to_error status), n)
  | _ =>
      match gn_hosts n !! channel ≫= λ b, pair b <$> gn_services n !! b with
      | None => (Err (status_to_error (mkStatus Unavailable EmptyString)), n)
      | Some (b, s) =>
          let '(r, s) := rpc (gn_now n) s in
          (match fault, r with
           | ResponseLost, _ => Err Timeout
           | BrokenAfter status, _ => Err (status_to_error status)
           | _, Response q => Ok q
           | _, Refused status => Err (status_to_error status)
           end, put_service b s n)
      end
  end.

(** [execute_with_retry] with [remaining] retries to go: only errors of the network
    are tried again, on a new connection. *)
Fixpoint retry_loop {A} (remaining attempt : nat) (broker_id : BrokerId) (operation : nat → Net → Result A * Net) n : Result A * Net :=
  match operation attempt n with
  | (Ok result, n) => (Ok result, n)
  | (Err e, n) =>
      let is_retryable := match e with Network | Timeout => true | _ => false end in
      match remaining with
      | S remaining =>
          if is_retryable then
            let n := on_client (with_connections (delete broker_id)) (others AtBackoff attempt n) in
            retry_loop remaining (S attempt) broker_id operation n
          else (Err e, n)
      | O => (Err e, n)
      end
  end.
Definition execute_with_retry {A} (broker_id : BrokerId) (operation : nat → Net → Result A * Net) n : Result A * Net :=
  retry_loop (gc_max_retries (gr_config (gn_client n))) 0 broker_id operation n.

(** [iter().map(f).collect::<Result<Vec<_>>>()] *)
Fixpoint collect_results {A B} (f : A → Result B) (l : list A) : Result (list B) :=
  match l with [] => Ok [] | a :: l => let? b := f a in let? bs := collect_results f l in Ok (b :: bs) end.
(** [WalRecord::size] *)
Definition wal_record_size (r : WalRecord) : Z := Z.of_nat (length (serialize r)).
Definition records_size (rs : list WalRecord) : Z := zsum wal_record_size rs.

Definition client_request (request : ReplicateDataRequest) : Result Proto.ReplicateDataRequest :=
  let? records := collect_results wal_record_to_proto (rdr_records request) in
  Ok (mkPReplicateDataRequest (rdr_leader_epoch request) (Some (topic_partition_to_proto (rdr_topic_partition request))) records
        (rdr_leader_id request) 0 0 None (from_option wr_offset 0 (head (rdr_records request)))
        (as_u32 (Z.of_nat (length (rdr_records request)))) (records_size (rdr_records request)) 0).
Definition optional_state (now : Z) (state : option Proto.FollowerState) : Result (option FollowerState) :=
  match state with Some state => let? fs := follower_state_from_proto now state in Ok (Some fs) | None => Ok None end.
Definition client_response (now : Z) (proto_resp : Proto.ReplicateDataResponse) : Result ReplicateDataResponse :=
  let? follower_state := optional_state now (prdp_follower_state proto_resp) in
  Ok (mkReplicateDataResponse (prdp_success proto_resp) (prdp_error_code proto_resp) follower_state).

Definition replicate_attempt (broker_id : BrokerId) (request : ReplicateDataRequest) (attempt : nat) n : Result ReplicateDataResponse * Net :=
  let! (channel, n) := get_or_create_channel attempt broker_id n in
  let! (proto_request, n) := (client_request request, n) in
  let! (proto_resp, n) := call attempt channel (λ now, serve_replicate_data text words now proto_request) n in
  (client_response (gn_now n) proto_resp, n).
(** The bucket stays locked while a call waits for tokens. *)
Definition grpc_replicate_data (broker_id : BrokerId) (request : ReplicateDataRequest) n : Result ReplicateDataResponse * Net :=
  let total_bytes := records_size (rdr_records request) in
  let! (_u, n) :=
    if 0 <? total_bytes then
      let '(wakes, n) := next_wakes n in
      let '(acquired, bucket) := acquire_tokens (f64_of_Z total_bytes) wakes (gr_rate_limiter (gn_client n)) in
      (if acquired then Ok tt else Err Blocked, on_client (with_limiter bucket) n)
    else (Ok tt, n) in
  execute_with_retry broker_id (replicate_attempt broker_id request) n.

Definition client_heartbeat (request : HeartbeatRequest) : Proto.HeartbeatRequest :=
  mkPHeartbeatRequest (hb_leader_epoch request) (hb_leader_id request) (Some (topic_partition_to_proto (hb_topic_partition request)))
    (hb_high_watermark request) None (hb_high_watermark request) [] 1000 0 0.
Definition client_heartbeat_response (now : Z) (proto_resp : Proto.HeartbeatResponse) : Result HeartbeatResponse :=
  let? follower_state := optional_state now (phbp_follower_state proto_resp) in
  Ok (mkHeartbeatResponse (phbp_success proto_resp) (phbp_error_code proto_resp) follower_state).
Definition heartbeat_attempt (broker_id : BrokerId) (request : HeartbeatRequest) (attempt : nat) n : Result HeartbeatResponse * Net :=
  let! (channel, n) := get_or_create_channel attempt broker_id n in
  let! (proto_resp, n) := call attempt channel (λ now, serve_send_heartbeat text words now (client_heartbeat request)) n in
  (client_heartbeat_response (gn_now n) proto_resp, n).
Definition grpc_send_heartbeat (broker_id : BrokerId) (request : HeartbeatRequest) n : Result HeartbeatResponse * Net :=
  execute_with_retry broker_id (heartbeat_attempt broker_id request) n.

Definition client_transfer (request : TransferLeadershipRequest) : Proto.TransferLeadershipRequest :=
  mkPTransferLeadershipRequest (Some (topic_partition_to_proto (tlr_topic_partition request))) (tlr_current_leader_id request)
    (tlr_current_leader_epoch request) (tlr_new_leader_id request) None EmptyString 0 10000 false true.
Definition transfer_attempt (broker_id : BrokerId) (request : TransferLeadershipRequest) (attempt : nat) n
  : Result TransferLeadershipResponse * Net :=
  let! (channel, n) := get_or_create_channel attempt broker_id n in
  let! (proto_resp, n) := call attempt channel (λ _, serve_transfer_leadership text words (client_transfer request)) n in
  (Ok (mkTransferLeadershipResponse (ptlp_success proto_resp) (ptlp_error_code proto_resp) (Some (ptlp_new_leader_epoch proto_resp))), n).
(** The copy of the configuration with a single retry is not used. *)
Definition grpc_transfer_leadership (broker_id : BrokerId) (request : TransferLeadershipRequest) n : Result TransferLeadershipResponse * Net :=
  execute_with_retry broker_id (transfer_attempt broker_id request) n.

Definition grpc_client : ReplicationRpcClient Net :=
  {| rpc_replicate_data := grpc_replicate_data; rpc_send_heartbeat := grpc_send_heartbeat |}.
End client.

(** ** What the client keeps to its followers *)

Section laws.
Context {L R : Type} `{!RecordLog L, !RecordLogLaws L, !ObjectStorage R, !Bincode Reservation, !Bincode WalRecord} {chrono : Chrono}.
Abbreviation Net := (GrpcNet L R).
Abbreviation Service := (BrokerService L R).
Implicit Types (n : Net).

(** Endpoints and channels of a broker lead to that broker or nowhere. *)
Record net_ok n : Prop := {
  no_services b s : gn_services n !! b = Some s → service_ok b s;
  no_endpoints b e b' : gr_endpoints (gn_client n) !! b = Some e → gn_hosts n !! url e = Some b' → b' = b;
  no_connections b ch b' : gr_connections (gn_client n) !! b = Some ch → gn_hosts n !! ch = Some b' → b' = b;
}.
Definition net_position n (tp : TopicPartition) (b : BrokerId) : Offset :=
  from_option (λ s, rl_next_offset (bs_log s) tp) 0 (gn_services n !! b).
(** Where a network can get to *)
Definition moved n n' : Prop :=
  net_ok n' ∧ gn_hosts n' = gn_hosts n ∧ ∀ tp b, net_position n tp b ≤ net_position n' tp b.
Lemma moved_refl n : net_ok n → moved n n.
Proof. done. Qed.
Lemma moved_trans n1 n2 n3 : moved n1 n2 → moved n2 n3 → moved n1 n3.
Proof.
  intros (_ & H1 & P1) (H2 & H3 & P2). split_and!; [done|congruence|]. intros tp b. specialize (P1 tp b). specialize (P2 tp b). lia.
Qed.
(** What other tasks may do meanwhile *)
Definition tame (others : Await → nat → Net → Net) : Prop := ∀ w k n, net_ok n → moved n (others w k n).

Lemma on_client_moved f n : net_ok n →
  (∀ b e b', gr_endpoints (f (gn_client n)) !! b = Some e → gn_hosts n !! url e = Some b' → b' = b) →
  (∀ b ch b', gr_connections (f (gn_client n)) !! b = Some ch → gn_hosts n !! ch = Some b' → b' = b) →
  moved n (on_client f n).
Proof. intros [H1 H2 H3] He Hc. split_and!; [by split|done|done]. Qed.
Lemma drop_connection_moved b n : net_ok n → moved n (on_client (with_connections (delete b)) n).
Proof.
  intros H. apply on_client_moved; [done|apply H|]. intros b0 ch b'. simpl. intros [_ H0]%lookup_delete_Some. by apply H.
Qed.
Lemma put_service_moved b s s' n : net_ok n → gn_services n !! b = Some s → service_ok b s' →
  (∀ tp, rl_next_offset (bs_log s) tp ≤ rl_next_offset (bs_log s') tp) → moved n (put_service b s' n).
Proof.
  intros [H1 H2 H3] Hs Hs' Hm. split_and!; [split; simpl; try done|done|].
  - intros b0 s0. rewrite lookup_insert_Some. intros [[<- <-]|[_ ?]]; [done|by apply H1].
  - intros tp b0. unfold net_position. simpl. destruct (decide (b0 = b)) as [->|].
    + rewrite lookup_insert_eq, Hs. simpl. apply Hm.
    + by rewrite lookup_insert_ne.
Qed.

Section calls.
Context (valid_url : string → bool) (text words : string) (others : Await → nat → Net → Net) (Hothers : tame others).

Lemma channel_spec k b n r n' :
  net_ok n → get_or_create_channel valid_url others k b n = (r, n') →
  moved n n' ∧ ∀ ch, r = Ok ch → ∀ b', gn_hosts n' !! ch = Some b' → b' = b.
Proof using Hothers.
  intros Hn. unfold get_or_create_channel.
  destruct (gr_connections (gn_client n) !! b) as [ch|] eqn:Ec; [intros [= <- <-]; split; [done|]; intros c [= <-] b'; by apply Hn|].
  destruct (gr_endpoints (gn_client n) !! b) as [e|] eqn:Ee; simpl; [|by intros [= <- <-]].
  destruct (valid_url (url e)); simpl; [|by intros [= <- <-]].
  destruct (Hothers AtConnect k n Hn) as (Hn1 & Hh & Hp). destruct (default _ _); intros [= <- <-].
  - split; [|intros ch [= <-] b'; simpl; rewrite Hh; by apply Hn]. apply (moved_trans _ (others AtConnect k n)); [done|].
    split_and!; [split; simpl; [apply Hn1..|]|done|done].
    intros b0 ch b'. rewrite lookup_insert_Some. intros [[<- <-]|[_ ?]]; [rewrite Hh; by apply Hn|by apply Hn1].
  - split; [|done]. apply (moved_trans _ (others AtConnect k n)); [done|]. split_and!; [|done|done]. by destruct Hn1.
Qed.

Lemma call_spec {Q} k b ch (rpc : Z → Service → RpcResult Q * Service) n r n' :
  (∀ now s x s', service_ok b s → rpc now s = (x, s') → service_ok b s' ∧ ∀ tp, rl_next_offset (bs_log s) tp ≤ rl_next_offset (bs_log s') tp) →
  net_ok n → (∀ b', gn_hosts n !! ch = Some b' → b' = b) → call others k ch rpc n = (r, n') →
  moved n n' ∧ ∀ q, r = Ok q → ∃ now s s', service_ok b s ∧ rpc now s = (Response q, s') ∧ gn_services n' !! b = Some s'.
Proof using Hothers.
  intros Hrpc Hn Hch. unfold call, next_fault. destruct (Hothers AtCall k n Hn) as (Hn1 & Hh & Hp).
  set (n1 := others AtCall k n) in *. set (n2 := mkNet _ _ _ _ _ _ _).
  assert (H02 : moved n n2) by (split_and!; [by destruct Hn1|done|done]).
  assert (Hlost : ∀ e : RustMqError, (Err e, n2) = (r, n') →
     moved n n' ∧ ∀ q, r = Ok q → ∃ now s s', service_ok b s ∧ rpc now s = (Response q, s') ∧ gn_services n' !! b = Some s')
    by (by intros e [= <- <-]).
  destruct (gn_hosts n2 !! ch ≫= _) as [[b' s]|] eqn:El; cycle 1.
  { destruct (default Delivered _); try apply Hlost. }
  apply bind_Some in El as (b0 & Eb & Es). destruct (gn_services n2 !! b0) as [s0|] eqn:Es0; simplify_eq/=.
  assert (b' = b) as -> by (apply Hch; by rewrite <- Hh).
  destruct (rpc (gn_now n1) s) as [x s'] eqn:Er. destruct (Hrpc _ _ _ _ (no_services _ Hn1 _ _ Es0) Er) as [Hs' Hm].
  assert (H03 : moved n (put_service b s' n2)).
  { apply (moved_trans _ n2); [done|]. apply (put_service_moved _ s); [apply H02|done|done|done]. }
  destruct (default Delivered _); try apply Hlost; [|by intros [= <- <-]..].
  intros [= <- <-]. split; [done|]. intros q Hq. destruct x as [q'|]; simplify_eq. exists (gn_now n1), s, s'.
  split_and!; [by apply (no_services _ Hn1)|done|]. simpl. apply lookup_insert_eq.
Qed.

(** Whatever holds of an attempt that succeeds holds of the call. *)
Lemma retry_spec {A} (Q : A → Net → Prop) remaining k b (operation : nat → Net → Result A * Net) n r n' :
  (∀ k n r n', net_ok n → operation k n = (r, n') → moved n n' ∧ ∀ a, r = Ok a → Q a n') →
  net_ok n → retry_loop others remaining k b operation n = (r, n') → moved n n' ∧ ∀ a, r = Ok a → Q a n'.
Proof using Hothers.
  intros Hop. revert k n. induction remaining as [|remaining IH]; intros k n Hn; simpl;
    destruct (operation k n) as [r1 n1] eqn:E; destruct (Hop _ _ _ _ Hn E) as [Hm HQ]; (destruct r1 as [a|e]; [by intros [= <- <-]|]).
  { by intros [= <- <-]. }
  case_match; try by intros [= <- <-]. intros E2. destruct (Hothers AtBackoff k n1 (proj1 Hm)) as [Ho Ho'].
  pose proof (drop_connection_moved b _ Ho) as Hd. destruct (IH (S k) _ (proj1 Hd) E2) as [Hm2 HQ2]. split; [|done].
  exact (moved_trans _ _ _ Hm (moved_trans _ _ _ (conj Ho Ho') (moved_trans _ _ _ Hd Hm2))).
Qed.

(** What the conversions keep of a record *)
Definition same_place (w w' : WalRecord) : Prop := wr_tp w' = wr_tp w ∧ wr_offset w' = wr_offset w.
Lemma records_arrive now ws : ∃ ps ws', collect_results wal_record_to_proto ws = Ok ps ∧
  collect (wal_record_from now) ps = COk ws' ∧ Forall2 same_place ws ws'.
Proof.
  induction ws as [|[tp o r c] ws (ps & ws' & E1 & E2 & H)]; [by exists [], []|].
  eexists (_ :: ps), (_ :: ws'). simpl. rewrite E1. split; [done|]. simpl. rewrite E2. split; [done|].
  constructor; [|done]. by destruct tp.
Qed.
Lemma request_arrives now req : ∃ p req', client_request req = Ok p ∧ replicate_request_from now p = COk req' ∧
  rdr_topic_partition req' = rdr_topic_partition req ∧ Forall2 same_place (rdr_records req) (rdr_records req').
Proof.
  destruct (records_arrive now (rdr_records req)) as (ps & ws & E1 & E2 & H). unfold client_request. rewrite E1.
  eexists _, _. split; [done|]. unfold replicate_request_from. simpl. rewrite E2. split; [done|]. simpl. split; [|done].
  by destruct (rdr_topic_partition req).
Qed.
(** What they keep of the state of a follower *)
Lemma state_arrives now fs p : transpose follower_state_into fs = COk p → ∃ fs', optional_state now p = Ok fs' ∧
  option_Forall2 (λ s s', fs_broker_id s' = fs_broker_id s ∧ fs_last_known_offset s' = fs_last_known_offset s) fs fs'.
Proof.
  destruct fs as [s|]; simpl; [|intros [= <-]; eexists; split; [done|constructor]].
  intros [= <-]. eexists. split; [done|]. by constructor.
Qed.

Lemma serve_spec {P I O Q} (from : P → ConversionResult I) (handle : I → Service → Result O * Service) (into : O → ConversionResult Q) p s x s' :
  serve text from handle into p s = (x, s') →
  s' = s ∨ ∃ i r, from p = COk i ∧ handle i s = (r, s') ∧ ∀ q, x = Response q → ∃ o, r = Ok o ∧ into o = COk q.
Proof.
  unfold serve. destruct (from p) as [i|e]; [|intros [= _ <-]; by left]. destruct (handle i s) as [r s1] eqn:E.
  intros Hx. right. exists i, r. destruct r as [o|e]; [destruct (into o) as [q|e] eqn:Ei|]; simplify_eq; split_and!; try done.
  intros q' [= <-]. by exists o.
Qed.
Lemma serve_response {P I O Q} (from : P → ConversionResult I) (handle : I → Service → Result O * Service) (into : O → ConversionResult Q) p s q s' :
  serve text from handle into p s = (Response q, s') → ∃ i o, from p = COk i ∧ handle i s = (Ok o, s') ∧ into o = COk q.
Proof.
  unfold serve. destruct (from p) as [i|e]; [|done]. destruct (handle i s) as [[o|e] s1] eqn:E; [|done].
  destruct (into o) as [q'|e] eqn:Ei; [|done]. intros [= <- <-]. by exists i, o.
Qed.

Lemma replicate_attempt_spec b req k n r n' :
  net_ok n → replicate_attempt valid_url text words others b req k n = (r, n') → moved n n' ∧ ∀ resp, r = Ok resp → rdp_success resp = true →
    (∀ x, x ∈ rdr_records req → wr_tp x = rdr_topic_partition req → 0 ≤ wr_offset x < u64_MAX →
       wr_offset x + 1 ≤ net_position n' (rdr_topic_partition req) b) ∧
    (∀ fs, rdp_follower_state resp = Some fs → fs_broker_id fs = b ∧ is_u64 (fs_last_known_offset fs) ∧
       fs_last_known_offset fs ≤ net_position n' (rdr_topic_partition req) b).
Proof using Hothers RecordLogLaws0.
  intros Hn. unfold replicate_attempt. destruct (get_or_create_channel _ _ _ _ _) as [r1 n1] eqn:E1.
  destruct (channel_spec _ _ _ _ _ Hn E1) as [Hm1 Hch]. destruct r1 as [ch|e]; cbn [sbind]; [|by intros [= <- <-]].
  destruct (request_arrives 0 req) as (p & _ & Ep & _). rewrite Ep. cbn [sbind].
  destruct (call _ _ _ _ _) as [r2 n2] eqn:E2. eapply (call_spec k b) in E2 as [Hm2 Hq]; [| |apply Hm1|by apply Hch]; cycle 1.
  { intros now s x s' Hs Ex. unfold serve_replicate_data in Ex. apply serve_spec in Ex as [->|(i & r0 & _ & Eh & _)]; [done|].
    by apply (replicate_data_spec _ _ b) in Eh as (? & ? & _). }
  pose proof (moved_trans _ _ _ Hm1 Hm2) as Hm. destruct r2 as [q|e]; cbn [sbind]; [|by intros [= <- <-]].
  destruct (Hq q eq_refl) as (now & s & s' & Hs & Es & Hl). apply serve_response in Es as (req' & resp & Ef & Eh & Ei).
  destruct (request_arrives (timestamp_millis now) req) as (p' & req'' & Ep' & Ef' & Etp & Hrs). rewrite Ep in Ep'. injection Ep' as <-.
  rewrite Ef in Ef'. injection Ef' as <-.
  apply (replicate_data_spec _ _ b) in Eh as ((_ & Hu) & _ & Hresp); [|done].
  unfold replicate_response_into in Ei. destruct (transpose _ _) as [pfs|e] eqn:Et; simpl in Ei; [|done]. injection Ei as <-.
  destruct (state_arrives (gn_now n2) _ _ Et) as (fs' & Efs & Hfs). unfold client_response. simpl. rewrite Efs.
  intros [= <- <-]. split; [done|]. intros resp' [= <-] Hok. simpl in *. destruct (Hresp resp eq_refl Hok) as [Hrec Hst].
  unfold net_position. rewrite Hl. simpl. rewrite ?Etp in Hrec, Hst. split.
  - intros x Hx Hxt Hxo. apply list_elem_of_lookup in Hx as [i Hi]. destruct (Forall2_lookup_l _ _ _ _ _ Hrs Hi) as (x' & Hx' & Hx1 & Hx2).
    rewrite <- Hx2. apply Hrec; [by eapply list_elem_of_lookup_2|congruence|congruence].
  - intros fs ->. inversion Hfs as [fs0 ? [Hb Ho] Hfs0|]; subst. symmetry in Hfs0. destruct (Hst _ Hfs0) as [<- Hpos].
    rewrite Hb, Ho, Hpos. split_and!; [done|apply Hu|done].
Qed.

Lemma heartbeat_attempt_spec b req k n r n' :
  net_ok n → heartbeat_attempt valid_url text words others b req k n = (r, n') → moved n n' ∧ ∀ resp, r = Ok resp →
    ∀ fs, hbp_success resp = true → hbp_follower_state resp = Some fs → is_u64 (fs_last_known_offset fs) ∧
       fs_last_known_offset fs ≤ net_position n' (hb_topic_partition req) b.
Proof using Hothers.
  intros Hn. unfold heartbeat_attempt. destruct (get_or_create_channel _ _ _ _ _) as [r1 n1] eqn:E1.
  destruct (channel_spec _ _ _ _ _ Hn E1) as [Hm1 Hch]. destruct r1 as [ch|e]; cbn [sbind]; [|by intros [= <- <-]].
  destruct (call _ _ _ _ _) as [r2 n2] eqn:E2. eapply (call_spec k b) in E2 as [Hm2 Hq]; [| |apply Hm1|by apply Hch]; cycle 1.
  { intros now s x s' Hs Ex. unfold serve_send_heartbeat in Ex. apply serve_spec in Ex as [->|(i & r0 & _ & Eh & _)]; [done|].
    by apply (send_heartbeat_spec _ _ b) in Eh as (? & -> & _). }
  pose proof (moved_trans _ _ _ Hm1 Hm2) as Hm. destruct r2 as [q|e]; cbn [sbind]; [|by intros [= <- <-]].
  destruct (Hq q eq_refl) as (now & s & s' & Hs & Es & Hl). apply serve_response in Es as (req' & resp & Ef & Eh & Ei).
  assert (req' = req) as -> by (injection Ef as <-; by destruct req as [? ? [] ?]).
  apply (send_heartbeat_spec _ _ b) in Eh as (_ & Hlog & Hresp); [|done].
  unfold heartbeat_response_into in Ei. destruct (transpose _ _) as [pfs|e] eqn:Et; simpl in Ei; [|done]. injection Ei as <-.
  destruct (state_arrives (gn_now n2) _ _ Et) as (fs' & Efs & Hfs). unfold client_heartbeat_response. simpl. rewrite Efs.
  intros [= <- <-]. split; [done|]. intros resp' [= <-] fs _ H. simpl in H. subst fs'.
  inversion Hfs as [fs0 ? [Hb Ho] Hfs0|]; subst. symmetry in Hfs0. unfold net_position. rewrite Hl. simpl.
  rewrite Ho, (Hresp resp fs0 eq_refl Hfs0), Hlog. split; [apply Hs|done].
Qed.

(** The client keeps what the leader relies on. *)
Lemma grpc_replicate_law b req n r n' :
  net_ok n → grpc_replicate_data valid_url text words others b req n = (r, n') → moved n n' ∧ ∀ resp, r = Ok resp → rdp_success resp = true →
    (∀ x, x ∈ rdr_records req → wr_tp x = rdr_topic_partition req → 0 ≤ wr_offset x < u64_MAX →
       wr_offset x + 1 ≤ net_position n' (rdr_topic_partition req) b) ∧
    (∀ fs, rdp_follower_state resp = Some fs → fs_broker_id fs = b ∧ is_u64 (fs_last_known_offset fs) ∧
       fs_last_known_offset fs ≤ net_position n' (rdr_topic_partition req) b).
Proof using Hothers RecordLogLaws0.
  intros Hn. unfold grpc_replicate_data. set (p := if 0 <? _ then _ else _). assert (Hp : moved n p.2).
  { unfold p. case_cond; [|done]. unfold next_wakes. destruct (acquire_tokens _ _ _) as [acquired bucket]. cbn [snd].
    split_and!; [|done|done]. destruct Hn. by split. }
  destruct p as [[[]|e] n1]; cbn [sbind snd] in *; [|by intros [= <- <-]]. unfold execute_with_retry. intros E.
  apply (retry_spec (λ resp n', rdp_success resp = true →
    (∀ x, x ∈ rdr_records req → wr_tp x = rdr_topic_partition req → 0 ≤ wr_offset x < u64_MAX →
       wr_offset x + 1 ≤ net_position n' (rdr_topic_partition req) b) ∧
    (∀ fs, rdp_follower_state resp = Some fs → fs_broker_id fs = b ∧ is_u64 (fs_last_known_offset fs) ∧
       fs_last_known_offset fs ≤ net_position n' (rdr_topic_partition req) b))) in E as [Hm HQ]; [|apply replicate_attempt_spec|apply Hp].
  split; [by eapply moved_trans|done].
Qed.
Program Definition grpc_laws : @RpcLaws Net (grpc_client valid_url text words others) := {| rpc_position := net_position; rpc_ok := net_ok |}.
Next Obligation.
  intros n tp b Hn. unfold net_position. destruct (gn_services n !! b) as [s|] eqn:E; simpl; [|done]. by apply (no_services _ Hn b s E).
Qed.
Next Obligation.
  intros b req n r n' Hn E. cbn [rpc_replicate_data grpc_client] in E. by apply grpc_replicate_law in E as [(? & _ & ?) ?].
Qed.
Next Obligation.
  intros b req n r n' Hn E. cbn [rpc_send_heartbeat grpc_client] in E. unfold grpc_send_heartbeat, execute_with_retry in E.
  apply (retry_spec (λ resp n', ∀ fs, hbp_success resp = true → hbp_follower_state resp = Some fs → is_u64 (fs_last_known_offset fs) ∧
       fs_last_known_offset fs ≤ net_position n' (hb_topic_partition req) b)) in E as [(Hn' & _ & Hm) HQ]; [|apply heartbeat_attempt_spec|done].
  split_and!; [done|done|]. intros resp fs Hr. by apply HQ.
Qed.

(** ** Replication over the client *)

#[local] Instance client_instance : ReplicationRpcClient Net := grpc_client valid_url text words others.
#[local] Instance laws_instance : RpcLaws Net := grpc_laws.

(** C10: A durable acknowledgment over gRPC is durable.  Take a leader in any
    state its steps can reach and a record of its own partition below the last
    64-bit offset.  Whatever the network loses or breaks, before or after a
    follower handled a request, however often the client tries again, and
    whatever runs while it waits that leaves the logs of other brokers no
    shorter ([only_forward], [tame]): when [replicate_record] over the gRPC
    client reports [Durable], the logs of at least [copies] distinct brokers,
    the leader's own among them or not, go past the record; [copies] is
    [min_in_sync_replicas] for a leader with followers, and 1 for a leader whose
    replica set has no other broker. *)
Theorem grpc_durable_means_replicated leader (m0 m : ReplicationManager L Net) order dropped now r rr m' :
  fresh_leader leader m0 → rtc (rm_step leader) m0 m →
  wr_tp r = rm_topic_partition m → 0 ≤ wr_offset r < u64_MAX →
  (∀ l, order l ≡ₚ l) → only_forward dropped →
  replicate_record order dropped now r m = (Ok rr, m') → rr_durability rr = Durable →
  rr_offset rr = wr_offset r ∧
  ∃ B : list BrokerId, NoDup B ∧ copies m' ≤ Z.of_nat (length B) ∧
    ∀ b, b ∈ B →
      (b = leader ∧ wr_offset r < rl_next_offset (rm_record_log m') (rm_topic_partition m')) ∨
      ∃ s, gn_services (rm_net m') !! b = Some s ∧ wr_offset r < rl_next_offset (bs_log s) (rm_topic_partition m').
Proof using Hothers RecordLogLaws0.
  intros Hinv%fresh_leader_inv Hs Htp Ho Horder Hdrop E Hd. apply rm_reachable_inv in Hs as [Hm _]; [|done].
  apply (replicate_record_spec leader) in E as (_ & _ & _ & Hrr); [|done|by split|done|done].
  destruct (Hrr rr eq_refl) as [Hoff Hrep]. split; [done|]. destruct (Hrep Hd) as (B & Hnd & Hlen & HB). exists B. split_and!; try done.
  intros b Hb. specialize (HB b Hb). unfold replica_position in HB. case_decide; [left; split; [done|lia]|right].
  cbn [rpc_position laws_instance grpc_laws] in HB. unfold net_position in HB.
  destruct (gn_services (rm_net m') !! b) as [s|]; simpl in HB; [|lia]. exists s. split; [done|lia].
Qed.
End calls.

(** ** Retries *)

Section retries.
Context {A : Type} (others : Await → nat → Net → Net) (b : BrokerId) (operation : nat → Net → Result A * Net).

(** The network before attempt [k] when all before it failed *)
Fixpoint before (n : Net) (k : nat) : Net :=
  match k with
  | O => n
  | S k => on_client (with_connections (delete b)) (others AtBackoff k (operation k (before n k)).2)
  end.
Definition transient (r : Result A) : Prop := r = Err Network ∨ r = Err Timeout.

Lemma retry_loop_exact remaining k n r n' : retry_loop others remaining k b operation (before n k) = (r, n') →
  ∃ j, (j ≤ remaining)%nat ∧ (∀ i, (k ≤ i < k + j)%nat → transient (operation i (before n i)).1) ∧
    operation (k + j)%nat (before n (k + j)) = (r, n') ∧ (transient r → j = remaining).
Proof.
  revert k. induction remaining as [|remaining IH]; intros k; simpl; destruct (operation k (before n k)) as [r1 n1] eqn:E.
  - intros Er. assert ((r1, n1) = (r, n')) as [= -> ->] by (by destruct r1). exists 0%nat. rewrite Nat.add_0_r. split_and!; [lia|lia|done|done].
  - assert (Hstop : ¬ transient r1 → (r1, n1) = (r, n') → ∃ j, (j ≤ S remaining)%nat ∧ (∀ i, (k ≤ i < k + j)%nat → transient (operation i (before n i)).1) ∧
      operation (k + j)%nat (before n (k + j)) = (r, n') ∧ (transient r → j = S remaining)).
    { intros Hr [= <- <-]. exists 0%nat. rewrite Nat.add_0_r. by split_and!; try lia. }
    destruct r1 as [a|e]; [apply Hstop; by intros [?|?]|].
    destruct (match e with Network | Timeout => true | _ => false end) eqn:Ee; [|intros Er; apply Hstop; [|by destruct e]; by intros [[= ->]|[= ->]]].
    assert (Ht : transient (Err e : Result A)) by (destruct e; try done; [by left|by right]).
    replace (on_client _ _) with (before n (S k)) by (simpl; by rewrite E). intros Er.
    apply IH in Er as (j & Hj & Hi & Eo & Hl). exists (S j). replace (k + S j)%nat with (S k + j)%nat by lia. split_and!; [lia| |done|].
    + intros i Hik. destruct (decide (i = k)) as [->|]; [by rewrite E|apply Hi; lia].
    + intros Hr. f_equal. by apply Hl.
Qed.
End retries.

(** C35: A call makes at most one attempt more than the configuration has retries.
    Its result is that of the last attempt, every attempt before it failed with a
    network error or a timeout, each later one starts without the connection of
    the one before, and a result that is itself such an error means that all of
    them were made; the waits in between never exceed the configured limits. *)
Theorem execute_with_retry_exact {A} others b (operation : nat → Net → Result A * Net) n r n' :
  execute_with_retry others b operation n = (r, n') →
  let retries := gc_max_retries (gr_config (gn_client n)) in
  ∃ k, (k ≤ retries)%nat ∧ (∀ i, (i < k)%nat → transient (operation i (before others b operation n i)).1) ∧
    operation k (before others b operation n k) = (r, n') ∧ (transient r → k = retries) ∧
    (∀ i, (0 < i ≤ k)%nat → gr_connections (gn_client (before others b operation n i)) !! b = None) ∧
    ∀ i, backoff (gr_config (gn_client n)) i ≤ Z.max (gc_retry_backoff_initial (gr_config (gn_client n))) (gc_retry_backoff_max (gr_config (gn_client n))).
Proof.
  unfold execute_with_retry. intros (k & Hk & Hi & Eo & Hl)%(retry_loop_exact _ _ _ _ 0). exists k. simpl in *. split_and!; try done.
  - intros i Hik. apply Hi. lia.
  - intros [|i] Hik; [lia|]. simpl. apply lookup_delete_eq.
  - intros [|i]; simpl; lia.
Qed.

(** ** The wire changes nothing *)

(** Times of 64 bits and no empty keys *)
Definition canonical_request (req : ReplicateDataRequest) : Prop :=
  ∀ w, w ∈ rdr_records req → is_i64 (r_timestamp (wr_record w)) ∧ r_key (wr_record w) ≠ Some [].
(** A time whose milliseconds chrono accepts *)
Definition sound_time (t : Z) : Prop := is_i64 (timestamp_millis t) ∧ accepts_millis (timestamp_millis t) = true.
Definition sound_state (fs : option FollowerState) : Prop := ∀ s, fs = Some s → sound_time (fs_last_heartbeat s).
(** The state and the response with the time cut to milliseconds *)
Definition whole_millis (s : FollowerState) : FollowerState :=
  mkFollowerState (fs_broker_id s) (fs_last_known_offset s) (timestamp_millis (fs_last_heartbeat s) * 1000000) (fs_lag s).
Definition as_written (resp : ReplicateDataResponse) : ReplicateDataResponse :=
  mkReplicateDataResponse (rdp_success resp) (rdp_error_code resp) (whole_millis <$> rdp_follower_state resp).

Lemma records_written ws ps : collect wal_record_into ws = COk ps → collect_results wal_record_to_proto ws = Ok ps.
Proof.
  revert ps. induction ws as [|w ws IH]; intros ps; simpl; [by intros [= <-]|].
  destruct (collect wal_record_into ws) as [ps'|]; simpl; [|done]. intros [= <-]. by rewrite (IH ps' eq_refl).
Qed.
Lemma client_request_read now req : canonical_request req →
  ∃ p, client_request req = Ok p ∧ replicate_request_from now p = COk req.
Proof.
  intros Hc. destruct (collect_comes_back (P := Proto.WalRecord) (rdr_records req) (λ w _, normal_wal w)) as (ps & Hps & Hbs).
  { intros w Hw. by apply wal_record_comes_back, Hc. }
  unfold client_request. rewrite (records_written _ _ Hps). eexists. split; [done|]. unfold replicate_request_from. simpl.
  cbn [from_proto wal_record_pair] in Hbs. rewrite Hbs. simpl. rewrite (proj2 (map_normal_id _)) by (intros w Hw; by apply Hc).
  by destruct req as [e [t q] rs l].
Qed.
Lemma optional_state_read now fs : sound_state fs → ∃ q, transpose follower_state_into fs = COk q ∧ optional_state now q = Ok (whole_millis <$> fs).
Proof.
  destruct fs as [s|]; intros Hs; [|by exists None]. destruct (Hs s eq_refl) as [Hi Hc].
  destruct (timestamp_roundtrip _ Hi) as (ts & Ht & Hf). eexists. cbn [transpose]. unfold follower_state_into. rewrite Ht. split; [done|].
  unfold optional_state, follower_state_from_proto. cbn [pfs_last_heartbeat]. rewrite Hf. simpl. unfold from_timestamp_millis. by rewrite Hc.
Qed.
(** The time in a follower's answer is the time it was asked. *)
Lemma replicate_state_time now req (s : Service) resp s' fs :
  replicate_data now req s = (Ok resp, s') → rdp_follower_state resp = Some fs → fs_last_heartbeat fs = now.
Proof.
  unfold replicate_data. destruct (get_follower_handler _ _) as [h|e]; cbn [sbind]; [|done]. unfold handle_replicate_data.
  case_cond; [by intros [= <- _]|]. case_bool_decide; [by intros [= <- _]|]. destruct (append_all _ _) as [[] ?]; simpl; by intros [= <- _] [= <-].
Qed.

Section transparent.
Context (valid_url : string → bool) (text words : string) (others : Await → nat → Net → Net).

(** C32: A delivered request is as good as a local call.  When a channel was found
    and the next call is delivered to broker [b], an attempt with a request that
    can be written (no record has an empty key, times have 64 bits) gives exactly
    what the follower's handler gives on the request itself: its response, every
    field of it, the time cut to milliseconds, or its error, as far as a status
    can say; and it leaves behind exactly the follower the handler leaves. *)
Theorem attempt_transparent k b req n ch n1 s resp s' :
  canonical_request req → get_or_create_channel valid_url others k b n = (Ok ch, n1) →
  let n2 := (next_fault (others AtCall k n1)).2 in
  (next_fault (others AtCall k n1)).1 = Delivered → gn_hosts n2 !! ch = Some b → gn_services n2 !! b = Some s →
  sound_time (gn_now n2) → replicate_data (gn_now n2) req s = (resp, s') →
  replicate_attempt valid_url text words others b req k n =
    (match resp with Ok resp => Ok (as_written resp) | Err e => Err (status_to_error (error_to_status text e)) end, put_service b s' n2).
Proof.
  intros Hc Ech n2 Hf Hh Hs Ht Er. unfold replicate_attempt. rewrite Ech. cbn [sbind].
  destruct (client_request_read (timestamp_millis (gn_now n2)) req Hc) as (p & Ep & Efrom). rewrite Ep. cbn [sbind]. unfold call. subst n2.
  destruct (next_fault (others AtCall k n1)) as [fault n2] eqn:En. cbn [fst snd] in *. subst fault. rewrite Hh. simpl. rewrite Hs. simpl.
  unfold serve_replicate_data, serve. rewrite Efrom, Er. destruct resp as [resp|e]; [|done].
  assert (Hst : sound_state (rdp_follower_state resp)) by (intros fs Hfs; by rewrite (replicate_state_time _ _ _ _ _ _ Er Hfs)).
  destruct (optional_state_read (gn_now n2) _ Hst) as (q & Eq & Eo). unfold replicate_response_into. rewrite Eq. simpl.
  unfold client_response. simpl. rewrite Eo. by destruct resp.
Qed.
End transparent.
End laws.

(** ** Oversized requests *)

Section limiter.
Lemma f64_lt_key a b : f64_lt a b = true ↔ f64_is_nan a = false ∧ f64_is_nan b = false ∧ key_cmp (f64_key a) (f64_key b) = Lt.
Proof.
  unfold f64_lt, SFltb. split.
  - destruct (f64_is_nan a) eqn:Ea; [by destruct a|]. destruct (f64_is_nan b) eqn:Eb; [by destruct a, b|].
    pose proof (f64_cmp_key a b Ea Eb) as H. unfold f64_partial_cmp in H. rewrite H. by destruct (key_cmp _ _).
  - intros (Ea & Eb & Hk). pose proof (f64_cmp_key a b Ea Eb) as H. unfold f64_partial_cmp in H. by rewrite H, Hk.
Qed.
Lemma min_below x cap amount : f64_lt cap amount = true → SFleb amount (f64_min x cap) = false.
Proof.
  intros (Hc & Ha & Hk)%f64_lt_key.
  assert (Hle : f64_is_nan (f64_min x cap) = false ∧ key_cmp (f64_key (f64_min x cap)) (f64_key cap) ≠ Gt).
  { assert (Hcc : key_cmp (f64_key cap) (f64_key cap) ≠ Gt) by (unfold key_cmp; by rewrite !Z.compare_refl).
    unfold f64_min. destruct (f64_is_nan x) eqn:Ex; [done|]. rewrite Hc. destruct (f64_lt cap x) eqn:El; [done|]. split; [done|].
    rewrite key_cmp_antisym. intros Hg. assert (Hx : f64_lt cap x = true); [|congruence].
    apply f64_lt_key. split_and!; [done|done|]. by destruct (key_cmp (f64_key cap) (f64_key x)). }
  destruct Hle as [Hn Hle]. unfold SFleb. pose proof (f64_cmp_key amount _ Ha Hn) as H. unfold f64_partial_cmp in H. rewrite H.
  destruct (key_cmp (f64_key amount) (f64_key (f64_min x cap))) eqn:E; [exfalso..|done];
    (assert (H1 : key_cmp (f64_key amount) (f64_key cap) ≠ Gt) by (by apply (key_cmp_not_gt_trans _ (f64_key (f64_min x cap))); [rewrite E|]));
    rewrite key_cmp_antisym, Hk in H1; done.
Qed.
(** An amount above the capacity is waited for for ever. *)
Lemma acquire_never amount wakes b : f64_lt (tb_capacity b) amount = true → (acquire_loop amount wakes b).1 = false.
Proof.
  intros H. revert b H. induction wakes as [|now wakes IH]; intros b H; simpl; [done|]. rewrite min_below by done. by apply IH.
Qed.
End limiter.

(** ** The network handler and its circuit breaker *)

Inductive CircuitBreakerState := BreakerClosed | BreakerOpen | BreakerHalfOpen.
Record BrokerHealth := mkBrokerHealth {
  bh_consecutive_failures : Z;
  bh_last_failure : option Z;
  bh_state : CircuitBreakerState;
  bh_total_requests : Z;
  bh_success_requests : Z;
}.
Definition default_health : BrokerHealth := mkBrokerHealth 0 None BreakerClosed 0 0.

Record GrpcNetworkHandler := mkNetworkHandler {
  nh_connections : gmap BrokerId string;
  nh_broker_endpoints : gmap BrokerId string;
  nh_health_tracker : gmap BrokerId BrokerHealth;
}.
Definition network_new : GrpcNetworkHandler := mkNetworkHandler ∅ ∅ ∅.
Definition network_register_broker (broker_id : BrokerId) (endpoint : string) (h : GrpcNetworkHandler) : GrpcNetworkHandler :=
  mkNetworkHandler (nh_connections h) (<[broker_id := endpoint]> (nh_broker_endpoints h))
    (<[broker_id := default default_health (nh_health_tracker h !! broker_id)]> (nh_health_tracker h)).
Definition deregister_broker (broker_id : BrokerId) (h : GrpcNetworkHandler) : GrpcNetworkHandler :=
  mkNetworkHandler (delete broker_id (nh_connections h)) (delete broker_id (nh_broker_endpoints h)) (delete broker_id (nh_health_tracker h)).

(** Instants are milliseconds. *)
Definition should_attempt_connection (now : Z) (broker_id : BrokerId) (h : GrpcNetworkHandler) : bool :=
  let broker_health := default default_health (nh_health_tracker h !! broker_id) in
  match bh_state broker_health with
  | BreakerClosed => true
  | BreakerOpen =>
      match bh_last_failure broker_health with
      | Some last_failure =>
          let circuit_timeout := 1000 * (30 + Z.min (bh_consecutive_failures broker_health * 5) 300) in
          circuit_timeout <? Z.max 0 (now - last_failure)
      | None => true
      end
  | BreakerHalfOpen => true
  end.

Definition update_broker_health (now : Z) (broker_id : BrokerId) (success : bool) (h : GrpcNetworkHandler) : GrpcNetworkHandler :=
  let broker_health := default default_health (nh_health_tracker h !! broker_id) in
  let total_requests := u64_add (bh_total_requests broker_health) 1 in
  let broker_health :=
    if success then mkBrokerHealth 0 None BreakerClosed total_requests (u64_add (bh_success_requests broker_health) 1)
    else
      let consecutive_failures := as_u32 (bh_consecutive_failures broker_health + 1) in
      mkBrokerHealth consecutive_failures (Some now)
        (if 5 <=? consecutive_failures then BreakerOpen else if 3 <=? consecutive_failures then BreakerHalfOpen else BreakerClosed)
        total_requests (bh_success_requests broker_health) in
  mkNetworkHandler (nh_connections h) (nh_broker_endpoints h) (<[broker_id := broker_health]> (nh_health_tracker h)).

(** What one request meets: when it starts, whether a connection can be opened,
    the status each attempt is answered with or [None], and when it ends *)
Record SendEnv := mkSendEnv { se_now : Z; se_connect : bool; se_answers : list (option Z); se_end : Z }.

Section network.
(** tonic's reading of a URI *)
Context (valid_uri : string → bool).
Local Open Scope rust_scope.

Definition create_connection (env : SendEnv) (endpoint : string) : Result string :=
  if negb (valid_uri endpoint) then Err Config else if se_connect env then Ok endpoint else Err Transport.
Definition get_or_create_connection (env : SendEnv) (broker_id : BrokerId) (h : GrpcNetworkHandler) : Result string * GrpcNetworkHandler :=
  match nh_connections h !! broker_id with
  | Some channel => (Ok channel, h)
  | None =>
      if negb (should_attempt_connection (se_now env) broker_id h) then (Err Network, h)
      else
        let! (endpoint, h) := (ok_or (nh_broker_endpoints h !! broker_id) NotFound, h) in
        let! (channel, h) := (create_connection env endpoint, h) in
        (Ok channel, mkNetworkHandler (<[broker_id := channel]> (nh_connections h)) (nh_broker_endpoints h) (nh_health_tracker h))
  end.
Definition MAX_RETRIES : nat := 3.
(** The loop with [retries] retries to go; an answer is the status as text. *)
Fixpoint send_loop (retries : nat) (answers : list (option Z)) (env : SendEnv) (broker_id : BrokerId) (h : GrpcNetworkHandler)
  : Result bytes * GrpcNetworkHandler :=
  match default None (head answers) with
  | Some status =>
      (Ok (str_bytes (if status <? 0 then "-" +:+ dec (- status) else dec status)), update_broker_health (se_end env) broker_id true h)
  | None =>
      match retries with
      | S retries => send_loop retries (tail answers) env broker_id h
      | O => (Err Network, update_broker_health (se_end env) broker_id false h)
      end
  end.
Definition send_with_retry (env : SendEnv) (broker_id : BrokerId) (h : GrpcNetworkHandler) : Result bytes * GrpcNetworkHandler :=
  send_loop (MAX_RETRIES - 1) (se_answers env) env broker_id h.
Definition send_request (env : SendEnv) (broker_id : BrokerId) (h : GrpcNetworkHandler) : Result bytes * GrpcNetworkHandler :=
  let! (_channel, h) := get_or_create_connection env broker_id h in
  send_with_retry env broker_id h.

(** The requests of a broadcast, one after the other: each touches the entries of
    its own broker. *)
Fixpoint send_all (envs : list SendEnv) (brokers : list BrokerId) (h : GrpcNetworkHandler) : list bool * GrpcNetworkHandler :=
  match envs, brokers with
  | env :: envs, b :: brokers =>
      let '(r, h) := send_request env b h in
      let '(rs, h) := send_all envs brokers h in (is_ok r :: rs, h)
  | _, _ => ([], h)
  end.
Definition reached_half (successful total : nat) : bool :=
  (0 <? successful)%nat && SFleb (f64_lit 1 2) (f64_div (f64_of_Z (Z.of_nat successful)) (f64_of_Z (Z.of_nat total))).
Definition broadcast (envs : list SendEnv) (brokers : list BrokerId) (h : GrpcNetworkHandler) : Result unit * GrpcNetworkHandler :=
  match brokers with
  | [] => (Err Network, h)
  | _ =>
      let '(results, h) := send_all envs brokers h in
      let successful_broadcasts := length (filter (λ r : bool, r) results) in
      (if reached_half successful_broadcasts (length brokers) then Ok tt else Err Network, h)
  end.

Inductive NetworkOp :=
  | NetRegister (broker_id : BrokerId) (endpoint : string)
  | NetDeregister (broker_id : BrokerId)
  | NetSend (env : SendEnv) (broker_id : BrokerId)
  | NetBroadcast (envs : list SendEnv) (brokers : list BrokerId).
Definition network_run (h : GrpcNetworkHandler) (op : NetworkOp) : GrpcNetworkHandler :=
  match op with
  | NetRegister b e => network_register_broker b e h
  | NetDeregister b => deregister_broker b h
  | NetSend env b => (send_request env b h).2
  | NetBroadcast envs bs => (broadcast envs bs h).2
  end.

(** A breaker counts failures by threshold; those of a broker that has no
    connection have never been counted. *)
Record network_ok (h : GrpcNetworkHandler) : Prop := {
  nk_state b bh : nh_health_tracker h !! b = Some bh → bh_state bh =
    if 5 <=? bh_consecutive_failures bh then BreakerOpen else if 3 <=? bh_consecutive_failures bh then BreakerHalfOpen else BreakerClosed;
  nk_connected b bh : nh_health_tracker h !! b = Some bh → bh_state bh ≠ BreakerClosed → is_Some (nh_connections h !! b);
}.
Lemma default_health_ok b h bh : network_ok h → default default_health (nh_health_tracker h !! b) = bh →
  bh_state bh = (if 5 <=? bh_consecutive_failures bh then BreakerOpen else if 3 <=? bh_consecutive_failures bh then BreakerHalfOpen else BreakerClosed) ∧
  (bh_state bh ≠ BreakerClosed → is_Some (nh_connections h !! b)).
Proof. intros Hh <-. destruct (nh_health_tracker h !! b) as [bh|] eqn:E; simpl; [split; by eapply Hh|done]. Qed.
Lemma register_ok b e h : network_ok h → network_ok (network_register_broker b e h).
Proof.
  intros Hh. destruct (default_health_ok b h _ Hh eq_refl) as [H1 H2].
  split; simpl; intros b0 bh; rewrite lookup_insert_Some; (intros [[<- <-]|[_ H]]; [done|by eapply Hh]).
Qed.
Lemma deregister_ok b h : network_ok h → network_ok (deregister_broker b h).
Proof.
  intros Hh. split; simpl; intros b0 bh; rewrite lookup_delete_Some; intros [Hne H]; [by eapply Hh|].
  rewrite lookup_delete_ne by done. by eapply Hh.
Qed.
Lemma update_ok now b ok h : network_ok h → is_Some (nh_connections h !! b) → network_ok (update_broker_health now b ok h).
Proof.
  intros Hh Hc. split; simpl; intros b0 bh; rewrite lookup_insert_Some; (intros [[<- <-]|[_ H]]; [|by eapply Hh]); by destruct ok.
Qed.
Lemma send_loop_ok k answers env b h : network_ok h → is_Some (nh_connections h !! b) → network_ok (send_loop k answers env b h).2.
Proof.
  intros Hh Hc. revert answers. induction k as [|k IH]; intros answers; simpl; destruct (default None _); try by apply update_ok.
  apply IH.
Qed.
Lemma send_request_ok env b h : network_ok h → network_ok (send_request env b h).2.
Proof.
  intros Hh. unfold send_request, get_or_create_connection. destruct (nh_connections h !! b) as [ch|] eqn:Ec; [by apply send_loop_ok|].
  destruct (should_attempt_connection _ _ _); [|done]. simpl. destruct (nh_broker_endpoints h !! b) as [e|]; [|done]. simpl.
  destruct (create_connection env e) as [ch|]; [|done]. simpl. apply send_loop_ok; simpl; [|rewrite lookup_insert_eq; by eexists].
  destruct Hh as [H1 H2]. split; [done|]. simpl. intros b0 bh Hb Hs. destruct (decide (b0 = b)) as [->|].
  - rewrite lookup_insert_eq. by eexists.
  - rewrite lookup_insert_ne by done. by eapply H2.
Qed.
Lemma send_all_ok envs bs h : network_ok h → network_ok (send_all envs bs h).2.
Proof.
  revert bs h. induction envs as [|env envs IH]; intros [|b bs] h Hh; try done. simpl.
  pose proof (send_request_ok env b h Hh) as H1. destruct (send_request env b h) as [r h1]. simpl in H1.
  specialize (IH bs h1 H1). by destruct (send_all envs bs h1).
Qed.
Lemma network_run_ok h op : network_ok h → network_ok (network_run h op).
Proof.
  intros Hh. destruct op as [b e|b|env b|envs bs]; simpl; [by apply register_ok|by apply deregister_ok|by apply send_request_ok|].
  unfold broadcast. destruct bs; [done|]. pose proof (send_all_ok envs (s :: bs) h Hh) as H. by destruct (send_all _ _ h).
Qed.

(** The circuit breaker never stops a request.  In every sequence of
    registrations, removals, requests and broadcasts the state of a breaker is
    what its count of consecutive failures says; but only requests that got a
    connection are counted and connections are kept when requests fail, so that
    whenever a connection has to be opened the breaker is closed. *)
Theorem circuit_breaker_never_consulted ops :
  let h := foldl network_run network_new ops in
  (∀ b bh, nh_health_tracker h !! b = Some bh → bh_state bh =
     if 5 <=? bh_consecutive_failures bh then BreakerOpen else if 3 <=? bh_consecutive_failures bh then BreakerHalfOpen else BreakerClosed) ∧
  ∀ now b, nh_connections h !! b = None → should_attempt_connection now b h = true.
Proof.
  intros h. assert (Hh : network_ok h).
  { unfold h. assert (H : ∀ h, network_ok h → network_ok (foldl network_run h ops)); [|by apply H].
    induction ops as [|op ops IH]; intros h0 H0; simpl; [done|]. by apply IH, network_run_ok. }
  split; [apply Hh|]. intros now b Hc. unfold should_attempt_connection.
  destruct (default_health_ok b h _ Hh eq_refl) as [_ H]. destruct (bh_state _) eqn:E; try done.
  destruct H as [ch Hch]; [done|]. congruence.
Qed.
End network.

(** ** Concrete runs *)

Module GrpcDemo.
Import Mem StoreDemo.
#[local] Existing Instances wal_codec StoreDemo.res_codec um lru ProtoDemo.chrono.
#[local] Instance log : RecordLog StoreDemo.PS := store_record_log 100.
#[local] Instance log_laws : RecordLogLaws StoreDemo.PS := store_record_log_laws 100.
Abbreviation DNet := (GrpcNet StoreDemo.PS (gmap string (list Z))).

Definition any_url (_ : string) : bool := true.
Definition alone (_ : Await) (_ : nat) (n : DNet) : DNet := n.
Lemma alone_tame : tame alone.
Proof. intros w k n Hn. by apply moved_refl. Qed.

Definition client0 : GrpcReplicationRpcClient :=
  register_endpoint (mkEndpoint "b3" "h3" 9093) (register_endpoint (mkEndpoint "b2" "h2" 9093) (grpc_new 0 default_grpc_config)).
Definition hosts0 : gmap string BrokerId := <["http://h2:9093" := "b2"]> {["http://h3:9093" := "b3"]}.
(** The first answer is lost after the request was handled. *)
Definition net0 : DNet :=
  mkNet client0 (<["b2" := ReplicationDemo.follower "b2"]> {["b3" := ReplicationDemo.follower "b3"]}) hosts0 1000
    (replicate 8 [0]) [] [ResponseLost].
#[local] Hint Extern 0 (ReplicationRpcClient _) => exact (client_instance any_url EmptyString "failed" alone) : typeclass_instances.
#[local] Hint Extern 0 (RpcLaws _) => exact (laws_instance any_url EmptyString "failed" alone alone_tame) : typeclass_instances.
Definition leader0 : ReplicationManager StoreDemo.PS DNet :=
  rm_new Demo.tp0 "b1" 1 ["b1"; "b2"; "b3"] (mkReplicationConfig 2 10 5000) st0 net0.

Lemma net0_ok : net_ok net0.
Proof.
  split.
  - intros b s H. apply (ReplicationDemo.net_ok b s). exact H.
  - intros b e b'. cbn. rewrite !lookup_insert_Some, lookup_empty. intros [[<- <-]|[_ [[<- <-]|[_ [=]]]]];
      vm_compute; congruence.
  - intros b ch b'. cbn. by rewrite lookup_empty.
Qed.
Lemma grpc_leader_fresh : fresh_leader "b1" leader0.
Proof.
  exists Demo.tp0, 1, ["b1"; "b2"; "b3"], (mkReplicationConfig 2 10 5000), st0, net0. split_and!.
  - reflexivity.
  - apply (bool_decide_unpack _). reflexivity.
  - exact net0_ok.
  - vm_compute. discriminate.
Qed.
Lemma grpc_id_forward : only_forward (N := DNet) id.
Proof. intros n Hn. by split. Qed.

Lemma grpc_durable_means_replicated_witness :
  (replicate_record id id 1000 r0 leader0).1 = Ok (mkReplicationResult 0 Durable) ∧
  ∃ B : list BrokerId, NoDup B ∧ 2 ≤ Z.of_nat (length B).
Proof.
  destruct (replicate_record id id 1000 r0 leader0) as [res m'] eqn:E.
  assert (Hres : res = Ok (mkReplicationResult 0 Durable))
    by (change res with (res, m').1; rewrite <- E; vm_compute; reflexivity).
  assert (Hcfg : copies m' = 2)
    by (change m' with (res, m').2; rewrite <- E; vm_compute; reflexivity).
  subst res. split; [reflexivity|].
  destruct (grpc_durable_means_replicated any_url EmptyString "failed" alone alone_tame "b1" leader0 leader0 id id 1000 r0
    (mkReplicationResult 0 Durable) m') as (_ & B & Hnd & Hlen & _).
  - exact grpc_leader_fresh.
  - apply rtc_refl.
  - reflexivity.
  - split; [vm_compute; discriminate|reflexivity].
  - intros l. reflexivity.
  - exact grpc_id_forward.
  - exact E.
  - reflexivity.
  - exists B. split; [exact Hnd|]. rewrite <- Hcfg. exact Hlen.
Defined.

(** The network before the call, without faults *)
Definition calm : DNet := mkNet client0 (gn_services net0) hosts0 1000 (replicate 8 [0]) [] [].
Definition request0 : ReplicateDataRequest := mkReplicateDataRequest 1 Demo.tp0 [r0] "b1".
Lemma execute_with_retry_exact_witness :
  ∃ k, (k ≤ 3)%nat ∧ transient (Err Timeout : Result ReplicateDataResponse) ∧
    is_ok (execute_with_retry alone "b2" (replicate_attempt any_url EmptyString "failed" alone "b2" request0) net0).1 = true.
Proof.
  destruct (execute_with_retry alone "b2" (replicate_attempt any_url EmptyString "failed" alone "b2" request0) net0) as [r n'] eqn:E.
  destruct (execute_with_retry_exact _ _ _ _ _ _ E) as (k & Hk & _). exists k. split; [exact Hk|]. split; [by right|].
  change r with (r, n').1. rewrite <- E. vm_compute. reflexivity.
Defined.
Lemma attempt_transparent_witness :
  ∃ resp, (replicate_data 1000 request0 (ReplicationDemo.follower "b2")).1 = Ok resp ∧
    (replicate_attempt any_url EmptyString "failed" alone "b2" request0 0 calm).1 = Ok (as_written resp).
Proof.
  destruct (get_or_create_channel any_url alone 0 "b2" calm) as [ch n1] eqn:Ech.
  destruct (replicate_data 1000 request0 (ReplicationDemo.follower "b2")) as [resp s'] eqn:Er.
  assert (Hch : ch = Ok "http://h2:9093") by (change ch with (ch, n1).1; rewrite <- Ech; vm_compute; reflexivity). subst ch.
  assert (Hn1 : n1 = (get_or_create_channel any_url alone 0 "b2" calm).2) by (by rewrite Ech).
  rewrite (attempt_transparent any_url EmptyString "failed" alone 0 "b2" request0 calm "http://h2:9093" n1
    (ReplicationDemo.follower "b2") resp s'); cycle 1.
  - intros w [->|[]%elem_of_nil]%elem_of_cons. split; [split|]; vm_compute; congruence.
  - exact Ech.
  - rewrite Hn1. vm_compute. reflexivity.
  - rewrite Hn1. vm_compute. reflexivity.
  - rewrite Hn1. vm_compute. reflexivity.
  - rewrite Hn1. split; [split|]; vm_compute; congruence.
  - rewrite Hn1. exact Er.
  - cbn [fst]. assert (Hok : is_ok resp = true) by (change resp with (resp, s').1; rewrite <- Er; vm_compute; reflexivity).
    destruct resp as [resp|e]; [|discriminate Hok]. exists resp. split; reflexivity.
Defined.

(** A transfer whose answer is lost is tried again and refused as stale: the
    caller hears of a failure with epoch zero, the follower has changed its
    leader. *)
Definition transfer0 : TransferLeadershipRequest := mkTransferLeadershipRequest Demo.tp0 "b1" 1 "b2".
Example retried_transfer_refused :
  let '(r, n) := grpc_transfer_leadership any_url EmptyString "failed" alone "b2" transfer0 net0 in
  (r, (λ s, fh_leader_epoch <$> bs_follower_handlers s !! Demo.tp0) <$> gn_services n !! "b2")
  = (Ok (mkTransferLeadershipResponse false STALE_LEADER_EPOCH (Some 0)), Some (Some 2)).
Proof. vm_compute. reflexivity. Qed.
(** The texts of statuses are not those the client looks for. *)
Example stale_status_lost :
  (status_to_error (error_to_status EmptyString (StaleLeaderEpoch 4 5)), status_to_error (error_to_status "orders-0" NotLeader))
  = (InvalidOperation, InvalidOperation).
Proof. vm_compute. reflexivity. Qed.
(** A follower's storage error looks like a network error and is tried again. *)
Example storage_error_retried : status_to_error (error_to_status EmptyString Storage) = Network.
Proof. reflexivity. Qed.
(** After a broker has moved the old connection is used. *)
Example moved_broker_old_channel :
  let n := (get_or_create_channel any_url alone 0 "b2" calm).2 in
  let n := on_client (register_endpoint (mkEndpoint "b2" "h9" 9093)) n in
  (get_or_create_channel any_url alone 1 "b2" n).1 = Ok "http://h2:9093".
Proof. vm_compute. reflexivity. Qed.
(** A request of more than fifty megabytes waits for ever, with the bucket
    locked. *)
Example oversized_waits wakes : (acquire_tokens (f64_of_Z 52428801) wakes (gr_rate_limiter client0)).1 = false.
Proof.
  unfold acquire_tokens. replace (SFleb _ f64_zero) with false by (vm_compute; reflexivity). apply acquire_never. vm_compute. reflexivity.
Qed.
(** Ten failures in a row: the breaker is open and requests still go out. *)
Definition failing : SendEnv := mkSendEnv 0 true [None; None; None] 0.
Example open_breaker_ignored :
  let h := foldl (network_run any_url) (network_register_broker "b" "http://b" network_new) (replicate 10 (NetSend failing "b")) in
  (bh_state <$> nh_health_tracker h !! "b", should_attempt_connection 0 "b" h, (get_or_create_connection any_url failing "b" h).1)
  = (Some BreakerOpen, false, Ok "http://b").
Proof. vm_compute. reflexivity. Qed.
End GrpcDemo.
