(* ===== verification/LogCompaction.v ===== *)
(** * Snapshots of the controller's state

    Model of [src/src/controller/openraft_compaction.rs]: full and incremental
    snapshots on disk with their metadata, what an incremental snapshot records,
    retention, and loading with verification.  The directory of snapshots is a map
    of files; every call of the file system can fail, a write after any part of its
    data.  SHA-256 and zstd are parameters, bincode and JSON the classes of the
    prelude; the order in which a directory is listed is an argument. *)

From S2P Require Import Prelude AccessControl.
From S2P Require Import Types Scaling Controller.
Local Open Scope Z_scope.

(** ** Data *)

(** [TempPartitionAssignment] has the fields of [PartitionAssignment]. *)
Record RustMqSnapshotData := mkState {
  rs_topics : gmap string TopicInfo;
  rs_brokers : gmap string BrokerInfo;
  rs_partition_assignments : gmap TopicPartition PartitionAssignment;
  rs_last_applied_log : option Z;
  rs_snapshot_version : Z;
}.
#[global] Instance TopicConfig_eq_dec : EqDecision TopicConfig.
Proof. solve_decision. Defined.
#[global] Instance TopicInfo_eq_dec : EqDecision TopicInfo.
Proof. solve_decision. Defined.
#[global] Instance BrokerInfo_eq_dec : EqDecision BrokerInfo.
Proof. solve_decision. Defined.

Record CompactionConfig := mkCompactionConfig {
  co_max_log_entries : Z;
  co_min_entries_to_keep : Z;
  co_compaction_interval_secs : Z;
  co_max_snapshot_size : Z;
  co_enable_compression : bool;
  co_compression_level : Z;
  co_keep_snapshot_count : nat;
  co_incremental_threshold : Z;
  co_verify_snapshots : bool;
}.
Definition default_compaction : CompactionConfig := mkCompactionConfig 10000 1000 300 (100 * 1024 * 1024) true 3 5 1000 true.

Inductive SnapshotType := Full | Incremental.
#[global] Instance SnapshotType_eq_dec : EqDecision SnapshotType.
Proof. solve_decision. Defined.
Record SnapshotMetadata := mkMetadata {
  sm_snapshot_id : string;
  sm_snapshot_type : SnapshotType;
  sm_last_log_id : Z;
  sm_created_at : Z;
  sm_compressed_size : Z;
  sm_uncompressed_size : Z;
  sm_checksum : string;
  sm_base_snapshot_id : option string;
  sm_topic_count : nat;
  sm_broker_count : nat;
}.
Record CompactionStats := mkCompactionStats {
  cs_total_compactions : Z;
  cs_entries_compacted : Z;
  cs_total_compaction_time_ms : Z;
  cs_snapshots_created : Z;
  cs_snapshot_bytes_created : Z;
  cs_last_compaction_at : option Z;
  cs_avg_compaction_time_ms : Z;
}.
Definition stats_default : CompactionStats := mkCompactionStats 0 0 0 0 0 None 0.
Definition record_compaction (now entries duration_ms : Z) (s : CompactionStats) : CompactionStats :=
  let total_compactions := u64_add (cs_total_compactions s) 1 in
  let total_time := u64_add (cs_total_compaction_time_ms s) duration_ms in
  mkCompactionStats total_compactions (u64_add (cs_entries_compacted s) entries) total_time (cs_snapshots_created s)
    (cs_snapshot_bytes_created s) (Some now) (total_time / total_compactions).
Definition record_snapshot (size : Z) (s : CompactionStats) : CompactionStats :=
  mkCompactionStats (cs_total_compactions s) (cs_entries_compacted s) (cs_total_compaction_time_ms s)
    (u64_add (cs_snapshots_created s) 1) (u64_add (cs_snapshot_bytes_created s) size) (cs_last_compaction_at s) (cs_avg_compaction_time_ms s).

Record StateDelta := mkDelta {
  de_topic_changes : gmap string TopicInfo;
  de_broker_changes : gmap string BrokerInfo;
  de_partition_changes : gmap TopicPartition PartitionAssignment;
  de_deleted_topics : gset string;
  de_deleted_brokers : gset string;
}.
Record IncrementalSnapshotData := mkIncremental { in_base_snapshot_id : string; in_last_log_id : Z; in_delta : StateDelta }.

(** ** Deltas *)

(** What is new or different, and which keys are gone *)
Definition changes {K A} `{Countable K} `{!EqDecision A} (base current : gmap K A) : gmap K A :=
  filter (λ kv, base !! kv.1 ≠ Some kv.2) current.
Definition deleted {K A} `{Countable K} (base current : gmap K A) : gset K := dom base ∖ dom current.
Definition compute_state_delta (base current : RustMqSnapshotData) : StateDelta :=
  mkDelta (changes (rs_topics base) (rs_topics current)) (changes (rs_brokers base) (rs_brokers current))
    (changes (rs_partition_assignments base) (rs_partition_assignments current))
    (deleted (rs_topics base) (rs_topics current)) (deleted (rs_brokers base) (rs_brokers current)).

(** ** The manager *)

(** The directory of snapshots by file name; the coming calls of the file system
    that fail, a write after the given number of bytes *)
Record LogCompactionManager := mkCompactor {
  lc_config : CompactionConfig;
  lc_files : gmap string bytes;
  lc_stats : CompactionStats;
  lc_snapshot_metadata : gmap string SnapshotMetadata;
  lc_faults : list (option nat);
}.
Definition with_files (f : gmap string bytes → gmap string bytes) (m : LogCompactionManager) : LogCompactionManager :=
  mkCompactor (lc_config m) (f (lc_files m)) (lc_stats m) (lc_snapshot_metadata m) (lc_faults m).
Definition with_metadata (f : gmap string SnapshotMetadata → gmap string SnapshotMetadata) (m : LogCompactionManager) : LogCompactionManager :=
  mkCompactor (lc_config m) (lc_files m) (lc_stats m) (f (lc_snapshot_metadata m)) (lc_faults m).
Definition with_stats (f : CompactionStats → CompactionStats) (m : LogCompactionManager) : LogCompactionManager :=
  mkCompactor (lc_config m) (lc_files m) (f (lc_stats m)) (lc_snapshot_metadata m) (lc_faults m).
Definition next_outcome (m : LogCompactionManager) : option nat * LogCompactionManager :=
  (default None (head (lc_faults m)),
   mkCompactor (lc_config m) (lc_files m) (lc_stats m) (lc_snapshot_metadata m) (tail (lc_faults m))).

(** [tokio::fs::write], [read] and [remove_file] *)
Definition fs_write (name : string) (data : bytes) (m : LogCompactionManager) : Result unit * LogCompactionManager :=
  match next_outcome m with
  | (None, m) => (Ok tt, with_files (insert name data) m)
  | (Some n, m) => (Err Io, with_files (insert name (take n data)) m)
  end.
Definition fs_read (name : string) (m : LogCompactionManager) : Result bytes * LogCompactionManager :=
  match next_outcome m with
  | (None, m) => (ok_or (lc_files m !! name) Io, m)
  | (Some _, m) => (Err Io, m)
  end.
Definition fs_remove_if_exists (name : string) (m : LogCompactionManager) : Result unit * LogCompactionManager :=
  match lc_files m !! name with
  | None => (Ok tt, m)
  | Some _ =>
      match next_outcome m with
      | (None, m) => (Ok tt, with_files (delete name) m)
      | (Some _, m) => (Err Io, m)
      end
  end.
Definition snap_file (snapshot_id : string) : string := snapshot_id +:+ ".snap".
Definition meta_file (snapshot_id : string) : string := snapshot_id +:+ ".meta".

(** The values of the map in the order of their keys *)
Definition name_le (a b : string * SnapshotMetadata) : Prop := String.leb a.1 b.1 = true.
#[global] Instance name_le_dec : RelDecision name_le.
Proof. intros a b. unfold name_le. apply _. Defined.
Definition metadata_values (m : LogCompactionManager) : list SnapshotMetadata :=
  (merge_sort name_le (map_to_list (lc_snapshot_metadata m))).*2.
(** [sort_by_key(|m| m.created_at)], which is stable *)
Fixpoint insert_by_time (x : SnapshotMetadata) (l : list SnapshotMetadata) : list SnapshotMetadata :=
  match l with [] => [x] | y :: l => if sm_created_at x <=? sm_created_at y then x :: y :: l else y :: insert_by_time x l end.
Definition sort_by_time (l : list SnapshotMetadata) : list SnapshotMetadata := foldr insert_by_time [] l.
(** [max_by_key(|m| m.created_at)]: the last of the largest *)
Definition latest (l : list SnapshotMetadata) : option SnapshotMetadata :=
  foldl (λ acc x, match acc with Some y => if sm_created_at y <=? sm_created_at x then Some x else acc | None => Some x end) None l.

Section manager.
Context `{!Bincode RustMqSnapshotData, !Bincode IncrementalSnapshotData, !Json SnapshotMetadata}.
Context (sha256_hex : bytes → string) (zstd_encode : Z → bytes → option bytes) (zstd_decode : bytes → option bytes).
Implicit Types (m : LogCompactionManager).
Local Open Scope rust_scope.

Definition compress_data (data : bytes) m : Result bytes := ok_or (zstd_encode (co_compression_level (lc_config m)) data) SnapshotError.
Definition decompress_data (data : bytes) : Result bytes := ok_or (zstd_decode data) SnapshotError.

Definition verify_snapshot_integrity (metadata : SnapshotMetadata) m : Result unit * LogCompactionManager :=
  if bool_decide (lc_files m !! snap_file (sm_snapshot_id metadata) = None) then (Err SnapshotError, m)
  else
    let! (file_content, m) := fs_read (snap_file (sm_snapshot_id metadata)) m in
    if String.eqb (sha256_hex file_content) (sm_checksum metadata) then (Ok tt, m) else (Err SnapshotError, m).
Definition load_single_metadata (name : string) m : Result SnapshotMetadata * LogCompactionManager :=
  let! (content, m) := fs_read name m in
  if negb (utf8_valid content) then (Err Io, m)
  else
    let! (metadata, m) := (ok_or (from_json content) Config, m) in
    let! (_u, m) := if co_verify_snapshots (lc_config m) then verify_snapshot_integrity metadata m else (Ok tt, m) in
    (Ok metadata, m).
(** The loop over the directory; a file that cannot be loaded is skipped. *)
Fixpoint load_snapshot_metadata (listing : list string) m : LogCompactionManager :=
  match listing with
  | [] => m
  | name :: listing =>
      if ends_with ".meta" name then
        let '(r, m) := load_single_metadata name m in
        load_snapshot_metadata listing
          match r with Ok metadata => with_metadata (insert (sm_snapshot_id metadata) metadata) m | Err _ => m end
      else load_snapshot_metadata listing m
  end.
(** [new] on the files it finds *)
Definition compactor_new (config : CompactionConfig) (files : gmap string bytes) (faults : list (option nat)) (listing : list string)
  : LogCompactionManager :=
  load_snapshot_metadata listing (mkCompactor config files stats_default ∅ faults).

(** The subtractions wrap. *)
Definition should_compact (now current_log_entries last_snapshot_log_id : Z) m : bool :=
  if co_max_log_entries (lc_config m) <? current_log_entries then true
  else if co_incremental_threshold (lc_config m) <? u64_sub current_log_entries last_snapshot_log_id then true
  else match cs_last_compaction_at (lc_stats m) with
       | Some last_compaction => co_compaction_interval_secs (lc_config m) <? u64_sub now last_compaction
       | None => true
       end.

Definition determine_snapshot_type (last_log_id : Z) m : SnapshotType :=
  if existsb (λ metadata, bool_decide (sm_snapshot_type metadata = Full) &&
       (u64_sub last_log_id (sm_last_log_id metadata) <? (co_incremental_threshold (lc_config m) * 5) mod u64_modulus)) (metadata_values m)
  then Incremental else Full.
Definition generate_snapshot_id (now : Z) (snapshot_type : SnapshotType) : string :=
  match snapshot_type with Full => "full_" +:+ dec now | Incremental => "incr_" +:+ dec now end.
Definition find_latest_full_snapshot m : option SnapshotMetadata :=
  latest (filter (λ metadata, sm_snapshot_type metadata = Full) (metadata_values m)).
Definition get_base_snapshot_id (snapshot_type : SnapshotType) m : option string :=
  match snapshot_type with Incremental => sm_snapshot_id <$> find_latest_full_snapshot m | Full => None end.

Definition load_snapshot_data (snapshot_id : string) m : Result RustMqSnapshotData * LogCompactionManager :=
  let! (compressed_data, m) := fs_read (snap_file snapshot_id) m in
  let! (data, m) := (if co_enable_compression (lc_config m) then decompress_data compressed_data else Ok compressed_data, m) in
  (ok_or (deserialize data) Serialization, m).

Definition full_state (current_state : RustMqSnapshotData) (last_log_id : Z) : RustMqSnapshotData :=
  mkState (rs_topics current_state) (rs_brokers current_state) (rs_partition_assignments current_state) (Some last_log_id)
    (rs_snapshot_version current_state).
Definition create_incremental_snapshot (current_state : RustMqSnapshotData) (last_log_id : Z) m : Result bytes * LogCompactionManager :=
  match find_latest_full_snapshot m with
  | Some base_metadata =>
      let! (base_state, m) := load_snapshot_data (sm_snapshot_id base_metadata) m in
      let delta := compute_state_delta base_state current_state in
      (Ok (serialize (mkIncremental (sm_snapshot_id base_metadata) last_log_id delta)), m)
  | None => (Ok (serialize (full_state current_state last_log_id)), m)
  end.
Definition create_snapshot (current_state : RustMqSnapshotData) (snapshot_type : SnapshotType) (last_log_id : Z) m
  : Result bytes * LogCompactionManager :=
  match snapshot_type with
  | Full => (Ok (serialize (full_state current_state last_log_id)), m)
  | Incremental => create_incremental_snapshot current_state last_log_id m
  end.

Fixpoint remove_snapshots (to_remove : list SnapshotMetadata) m : Result unit * LogCompactionManager :=
  match to_remove with
  | [] => (Ok tt, m)
  | metadata :: to_remove =>
      let! (_u, m) := fs_remove_if_exists (snap_file (sm_snapshot_id metadata)) m in
      let! (_u, m) := fs_remove_if_exists (meta_file (sm_snapshot_id metadata)) m in
      remove_snapshots to_remove m
  end.
(** The files go, the entries of the cache stay. *)
Definition cleanup_old_snapshots m : Result unit * LogCompactionManager :=
  let snapshots := sort_by_time (metadata_values m) in
  let keep := co_keep_snapshot_count (lc_config m) in
  if (keep <? length snapshots)%nat then remove_snapshots (take (length snapshots - keep) snapshots) m else (Ok tt, m).
Definition save_snapshot_metadata (metadata : SnapshotMetadata) m : Result unit * LogCompactionManager :=
  fs_write (meta_file (sm_snapshot_id metadata)) (to_json metadata) m.

(** [compact_logs]; the marker of an active compaction is never set. *)
Definition compact_logs (now duration_ms : Z) (current_state : RustMqSnapshotData) (last_log_id : Z) m : Result string * LogCompactionManager :=
  let snapshot_type := determine_snapshot_type last_log_id m in
  let snapshot_id := generate_snapshot_id now snapshot_type in
  let! (snapshot_data, m) := create_snapshot current_state snapshot_type last_log_id m in
  let! (compressed_data, m) := (if co_enable_compression (lc_config m) then compress_data snapshot_data m else Ok snapshot_data, m) in
  let! (_u, m) := fs_write (snap_file snapshot_id) compressed_data m in
  let metadata := mkMetadata snapshot_id snapshot_type last_log_id now (Z.of_nat (length compressed_data)) (Z.of_nat (length snapshot_data))
    (sha256_hex compressed_data) (get_base_snapshot_id snapshot_type m) (size (rs_topics current_state)) (size (rs_brokers current_state)) in
  let! (_u, m) := save_snapshot_metadata metadata m in
  let m := with_metadata (insert snapshot_id metadata) m in
  let! (_u, m) := cleanup_old_snapshots m in
  (Ok snapshot_id, with_stats (λ s, record_snapshot (Z.of_nat (length compressed_data)) (record_compaction now last_log_id duration_ms s)) m).

Definition list_snapshots m : list SnapshotMetadata := sort_by_time (metadata_values m).
Definition get_latest_snapshot m : option SnapshotMetadata := latest (metadata_values m).
End manager.

(** ** What an incremental snapshot records *)

(** Putting a delta on its base; the code has no such function. *)
Definition apply_changes {K A} `{Countable K} (ch : gmap K A) (del : gset K) (base : gmap K A) : gmap K A :=
  ch ∪ filter (λ kv, kv.1 ∉ del) base.

Section deltas.
Context {K A : Type} `{Countable K} `{!EqDecision A}.
Implicit Types (base current : gmap K A).
Lemma changes_lookup base current k a : changes base current !! k = Some a ↔ current !! k = Some a ∧ base !! k ≠ Some a.
Proof. unfold changes. by rewrite map_lookup_filter_Some. Qed.
Lemma apply_lookup base current (del : gset K) k :
  (k ∈ del → current !! k = None) →
  apply_changes (changes base current) del base !! k =
  match current !! k with Some a => Some a | None => if bool_decide (k ∈ del) then None else base !! k end.
Proof.
  intros Hdel. unfold apply_changes. apply option_eq. intros a. rewrite lookup_union_Some_raw, map_lookup_filter_Some, changes_lookup. cbn [fst].
  assert (Hc : changes base current !! k = None ↔ current !! k = None ∨ base !! k = current !! k).
  { rewrite eq_None_not_Some. split.
    - intros Hn. destruct (current !! k) as [b|] eqn:E; [right|by left]. destruct (decide (base !! k = Some b)) as [|Hb]; [done|].
      exfalso. apply Hn. exists b. by apply changes_lookup.
    - intros Hn [b [Hb Hne]%changes_lookup]. destruct Hn; congruence. }
  rewrite Hc. destruct (current !! k) as [b|] eqn:E.
  - assert (Hk : k ∉ del) by (intros Hd; by apply Hdel in Hd). destruct (decide (base !! k = Some b)) as [Hb|Hb]; naive_solver.
  - case_bool_decide; naive_solver.
Qed.
(** With the deleted keys a delta gives back the map it was made for. *)
Lemma apply_deleted base current : apply_changes (changes base current) (deleted base current) base = current.
Proof.
  apply map_eq. intros k. unfold deleted. rewrite apply_lookup by (rewrite elem_of_difference; intros [_ Hn]; by apply not_elem_of_dom).
  destruct (current !! k) as [a|] eqn:E; [done|]. case_bool_decide as Hk; [done|].
  apply eq_None_not_Some. intros Hs. apply Hk. rewrite elem_of_difference. split; [by apply elem_of_dom|by apply not_elem_of_dom].
Qed.
(** Without them what was removed comes back. *)
Lemma apply_kept base current : apply_changes (changes base current) ∅ base = current ↔ dom base ⊆ dom current.
Proof.
  assert (Hl : ∀ k, apply_changes (changes base current) ∅ base !! k = match current !! k with Some a => Some a | None => base !! k end).
  { intros k. rewrite apply_lookup by set_solver. destruct (current !! k); [done|]. by rewrite bool_decide_eq_false_2 by set_solver. }
  split.
  - intros He k Hk. rewrite elem_of_dom in *. specialize (Hl k). rewrite He in Hl. destruct (current !! k); [by eexists|].
    rewrite <- Hl in Hk. by apply is_Some_None in Hk.
  - intros Hd. apply map_eq. intros k. rewrite Hl. destruct (current !! k) as [a|] eqn:E; [done|].
    apply eq_None_not_Some. intros Hs%elem_of_dom. apply Hd, elem_of_dom in Hs. rewrite E in Hs. by apply is_Some_None in Hs.
Qed.
End deltas.

(** An incremental snapshot is exact for topics and brokers and not for
    partitions.  Put on its base, a delta gives back the topics and the brokers of
    the state it was made for, and it contains nothing that did not change; the
    assignments come back if and only if no assignment was removed. *)
Theorem delta_restores base current :
  let delta := compute_state_delta base current in
  apply_changes (de_topic_changes delta) (de_deleted_topics delta) (rs_topics base) = rs_topics current ∧
  apply_changes (de_broker_changes delta) (de_deleted_brokers delta) (rs_brokers base) = rs_brokers current ∧
  (apply_changes (de_partition_changes delta) ∅ (rs_partition_assignments base) = rs_partition_assignments current ↔
     dom (rs_partition_assignments base) ⊆ dom (rs_partition_assignments current)) ∧
  (∀ name topic, de_topic_changes delta !! name = Some topic ↔ rs_topics current !! name = Some topic ∧ rs_topics base !! name ≠ Some topic) ∧
  (∀ id broker, de_broker_changes delta !! id = Some broker ↔ rs_brokers current !! id = Some broker ∧ rs_brokers base !! id ≠ Some broker).
Proof.
  simpl. split_and!; [apply apply_deleted|apply apply_deleted|apply apply_kept|intros; apply changes_lookup|intros; apply changes_lookup].
Qed.

(** ** Retention *)

Lemma insert_by_time_perm x l : insert_by_time x l ≡ₚ x :: l.
Proof. induction l as [|y l IH]; simpl; [done|]. case_cond; [done|]. rewrite IH. apply perm_swap. Qed.
Lemma sort_by_time_perm l : sort_by_time l ≡ₚ l.
Proof. induction l as [|x l IH]; simpl; [done|]. by rewrite insert_by_time_perm, IH. Qed.
(** The newest snapshot is the last. *)
Lemma insert_older x l y : sm_created_at x < sm_created_at y → ∃ l', insert_by_time x (l ++ [y]) = l' ++ [y].
Proof.
  intros H. induction l as [|z l [l' IH]]; simpl.
  - rewrite (proj2 (Z.leb_le _ _)) by lia. by exists [x].
  - case_cond; [by exists (x :: z :: l)|]. rewrite IH. by exists (z :: l').
Qed.
Lemma insert_newest y l : (∀ x, x ∈ l → sm_created_at x < sm_created_at y) → insert_by_time y l = l ++ [y].
Proof.
  induction l as [|x l IH]; intros H; simpl; [done|]. rewrite (proj2 (Z.leb_gt _ _)) by (apply H; by left). f_equal. apply IH.
  intros z Hz. apply H. by right.
Qed.
Lemma sort_newest_last l1 y l2 : (∀ x, x ∈ l1 ++ l2 → sm_created_at x < sm_created_at y) → ∃ l', sort_by_time (l1 ++ y :: l2) = l' ++ [y].
Proof.
  induction l1 as [|x l1 IH]; intros H; simpl.
  - exists (sort_by_time l2). apply insert_newest. intros x Hx. apply H. by rewrite <- (sort_by_time_perm l2).
  - destruct IH as [l' ->]; [intros z Hz; apply H; by right|]. apply insert_older, H. by left.
Qed.

Lemma snap_file_inj a b : snap_file a = snap_file b → a = b.
Proof. apply str_app_inj_r. Qed.
Lemma snap_not_meta a b : snap_file a ≠ meta_file b.
Proof.
  unfold snap_file, meta_file. revert b. induction a as [|x a IH]; intros [|y b] E; try discriminate.
  - apply (f_equal String.length) in E. simpl in E. rewrite str_length_app in E. simpl in E. lia.
  - apply (f_equal String.length) in E. simpl in E. rewrite str_length_app in E. simpl in E. lia.
  - injection E as -> E. by apply (IH b).
Qed.
Lemma meta_file_inj a b : meta_file a = meta_file b → a = b.
Proof. apply str_app_inj_r. Qed.

(** Removing changes the named files only. *)
Lemma fs_remove_spec name m m' : fs_remove_if_exists name m = (Ok tt, m') →
  lc_files m' = delete name (lc_files m) ∧ lc_snapshot_metadata m' = lc_snapshot_metadata m ∧ lc_config m' = lc_config m.
Proof.
  unfold fs_remove_if_exists. destruct (lc_files m !! name) eqn:E; [|intros [= <-]; by rewrite delete_id].
  unfold next_outcome. destruct (default None _); [done|]. by intros [= <-].
Qed.
Lemma remove_snapshots_spec l m m' : remove_snapshots l m = (Ok tt, m') →
  lc_snapshot_metadata m' = lc_snapshot_metadata m ∧ lc_config m' = lc_config m ∧
  (∀ f, (∀ md, md ∈ l → f ≠ snap_file (sm_snapshot_id md) ∧ f ≠ meta_file (sm_snapshot_id md)) → lc_files m' !! f = lc_files m !! f) ∧
  (∀ md, md ∈ l → lc_files m' !! snap_file (sm_snapshot_id md) = None ∧ lc_files m' !! meta_file (sm_snapshot_id md) = None).
Proof.
  revert m. induction l as [|md l IH]; intros m; simpl; [intros [= <-]; split_and!; try done; by intros md ?%elem_of_nil|].
  destruct (fs_remove_if_exists (snap_file _) m) as [[[]|] m1] eqn:E1; cbn [sbind]; [|done].
  destruct (fs_remove_if_exists (meta_file _) m1) as [[[]|] m2] eqn:E2; cbn [sbind]; [|done].
  apply fs_remove_spec in E1 as (F1 & M1 & C1). apply fs_remove_spec in E2 as (F2 & M2 & C2).
  intros (M3 & C3 & Hk & Hg)%IH. split_and!; [congruence|congruence| |].
  - intros f Hf. rewrite Hk by (intros md' Hm; apply Hf; by right). destruct (Hf md ltac:(left)) as [H1 H2].
    by rewrite F2, F1, !lookup_delete_ne.
  - assert (Hgone : ∀ f, lc_files m2 !! f = None → lc_files m' !! f = None).
    { intros f Hf.
      destruct (decide (f ∈ ((λ md, snap_file (sm_snapshot_id md)) <$> l) ∨ f ∈ ((λ md, meta_file (sm_snapshot_id md)) <$> l))) as [[Hs|Hs]|Hn];
        [apply list_elem_of_fmap in Hs as (md' & -> & Hin); by apply Hg..|].
      rewrite Hk; [done|]. intros md' Hin. split; intros ->; apply Hn; [left|right]; apply list_elem_of_fmap; eauto. }
    intros md' [->|Hin]%elem_of_cons; [|by apply Hg].
    split; apply Hgone; rewrite F2; [rewrite lookup_delete_ne by (intros E; symmetry in E; by apply snap_not_meta in E); rewrite F1|]; apply lookup_delete_eq.
Qed.

Lemma elem_metadata_values m md : md ∈ metadata_values m ↔ ∃ k, lc_snapshot_metadata m !! k = Some md.
Proof.
  unfold metadata_values. rewrite list_elem_of_fmap. setoid_rewrite merge_sort_Permutation. split.
  - intros ([k x] & -> & Hin%elem_of_map_to_list). by exists k.
  - intros [k Hk]. exists (k, md). split; [done|]. by apply elem_of_map_to_list.
Qed.

(** Retention: a clean-up that succeeds leaves every file of the newest
    [keep_snapshot_count] snapshots as it was, with everything that is no snapshot
    it knows, and removes both files of every other one, as long as snapshots have
    identifiers of their own. *)
Lemma cleanup_keeps_newest m m' :
  cleanup_old_snapshots m = (Ok tt, m') → NoDup (sm_snapshot_id <$> metadata_values m) →
  let snapshots := sort_by_time (metadata_values m) in
  let old := take (length snapshots - co_keep_snapshot_count (lc_config m)) snapshots in
  let new := drop (length snapshots - co_keep_snapshot_count (lc_config m)) snapshots in
  (length new ≤ co_keep_snapshot_count (lc_config m))%nat ∧
  (∀ md, md ∈ new → lc_files m' !! snap_file (sm_snapshot_id md) = lc_files m !! snap_file (sm_snapshot_id md) ∧
                    lc_files m' !! meta_file (sm_snapshot_id md) = lc_files m !! meta_file (sm_snapshot_id md)) ∧
  (∀ md, md ∈ old → lc_files m' !! snap_file (sm_snapshot_id md) = None ∧ lc_files m' !! meta_file (sm_snapshot_id md) = None) ∧
  (∀ f, (∀ md, md ∈ metadata_values m → f ≠ snap_file (sm_snapshot_id md) ∧ f ≠ meta_file (sm_snapshot_id md)) → lc_files m' !! f = lc_files m !! f).
Proof.
  intros E Hnd snapshots old new.
  assert (Hrun : remove_snapshots old m = (Ok tt, m')).
  { unfold cleanup_old_snapshots in E. fold snapshots in E. case_match eqn:Ek; [done|]. apply Nat.ltb_ge in Ek.
    unfold old. rewrite (proj2 (Nat.sub_0_le _ _) Ek). done. }
  apply remove_snapshots_spec in Hrun as (_ & _ & Hk & Hg).
  assert (Hperm : old ++ new ≡ₚ metadata_values m) by (unfold old, new; rewrite take_drop; apply sort_by_time_perm).
  rewrite <- Hperm, fmap_app, NoDup_app in Hnd. destruct Hnd as (_ & Hdis & _).
  assert (Hid : ∀ md md', md ∈ new → md' ∈ old → sm_snapshot_id md ≠ sm_snapshot_id md').
  { intros md md' Hn Ho He. apply (Hdis (sm_snapshot_id md')); apply list_elem_of_fmap; eauto. }
  split_and!; [unfold new; rewrite length_drop; lia| |done|].
  - intros md Hin. split; apply Hk; intros md' Hold; split; intros Ef.
    + apply snap_file_inj in Ef. by eapply Hid.
    + by apply snap_not_meta in Ef.
    + symmetry in Ef. by apply snap_not_meta in Ef.
    + apply meta_file_inj in Ef. by eapply Hid.
  - intros f Hf. apply Hk. intros md Hin. apply Hf. rewrite <- Hperm. apply elem_of_app. by left.
Qed.

(** ** Snapshots can be read again *)

(** Entries of the cache stand under their own identifiers. *)
Definition named m : Prop := ∀ k md, lc_snapshot_metadata m !! k = Some md → sm_snapshot_id md = k.
Lemma named_ids m : named m → NoDup (sm_snapshot_id <$> metadata_values m).
Proof.
  intros Hn. unfold metadata_values. set (l := merge_sort name_le (map_to_list (lc_snapshot_metadata m))).
  assert (Hl : l ≡ₚ map_to_list (lc_snapshot_metadata m)) by apply merge_sort_Permutation.
  assert (Hk : sm_snapshot_id <$> l.*2 = l.*1).
  { rewrite <- list_fmap_compose. apply list_fmap_ext. intros i [k md] Hi. simpl. apply Hn, elem_of_map_to_list.
    rewrite <- Hl. by eapply list_elem_of_lookup_2. }
  rewrite Hk, Hl. apply NoDup_fst_map_to_list.
Qed.

Lemma latest_step_elem l acc x :
  foldl (λ acc x, match acc with Some y => if sm_created_at y <=? sm_created_at x then Some x else acc | None => Some x end) acc l = Some x →
  acc = Some x ∨ x ∈ l.
Proof.
  revert acc. induction l as [|y l IH]; intros acc; simpl; [by left|]. intros [H|H]%IH; [|right; by right].
  destruct acc as [z|]; [destruct (sm_created_at z <=? sm_created_at y)|]; simplify_eq; [right; by left|by left|right; by left].
Qed.
Lemma latest_newest l1 y l2 : (∀ x, x ∈ l1 ++ l2 → sm_created_at x < sm_created_at y) → latest (l1 ++ y :: l2) = Some y.
Proof.
  intros H. unfold latest. rewrite foldl_app. simpl. set (acc := foldl _ None l1).
  assert (Hacc : match acc with Some z => if sm_created_at z <=? sm_created_at y then Some y else acc | None => Some y end = Some y).
  { destruct acc as [z|] eqn:E; [|done]. apply latest_step_elem in E as [|Hz]; [done|].
    rewrite (proj2 (Z.leb_le _ _)); [done|]. assert (sm_created_at z < sm_created_at y) by (apply H, elem_of_app; by left). lia. }
  rewrite Hacc. clear Hacc acc. assert (Hl : ∀ x, x ∈ l2 → sm_created_at x < sm_created_at y) by (intros x Hx; apply H, elem_of_app; by right).
  clear H. induction l2 as [|x l2 IH]; simpl; [done|]. rewrite (proj2 (Z.leb_gt _ _)) by (apply Hl; by left). apply IH.
  intros z Hz. apply Hl. by right.
Qed.
(** A snapshot younger than all others is the latest and is kept. *)
Lemma newest_kept m md keep : named m → lc_snapshot_metadata m !! sm_snapshot_id md = Some md →
  (∀ k x, lc_snapshot_metadata m !! k = Some x → k ≠ sm_snapshot_id md → sm_created_at x < sm_created_at md) → (0 < keep)%nat →
  let snapshots := sort_by_time (metadata_values m) in md ∈ drop (length snapshots - keep) snapshots ∧ get_latest_snapshot m = Some md.
Proof.
  intros Hn Hmd Hold Hkeep. assert (Hin : md ∈ metadata_values m) by (apply elem_metadata_values; eauto).
  pose proof (named_ids m Hn) as Hnd. apply list_elem_of_split in Hin as (l1 & l2 & El).
  assert (Hlt : ∀ x, x ∈ l1 ++ l2 → sm_created_at x < sm_created_at md).
  { intros x Hx. assert (Hxv : x ∈ metadata_values m) by (rewrite El; set_solver). apply elem_metadata_values in Hxv as [k Hk].
    apply (Hold k); [done|]. rewrite <- (Hn _ _ Hk). rewrite El, <- Permutation_middle in Hnd.
    cbn [fmap list_fmap] in Hnd. apply NoDup_cons in Hnd as [Hni _]. intros He. apply Hni. rewrite <- He. by apply list_elem_of_fmap_2. }
  unfold get_latest_snapshot. rewrite El. destruct (sort_newest_last l1 md l2 Hlt) as [l' ->]. split; [|by apply latest_newest].
  rewrite length_app. simpl. rewrite drop_app_le by lia. apply elem_of_app. right. by apply list_elem_of_singleton.
Qed.

Section readable.
Context `{!Bincode RustMqSnapshotData, !BincodeLaws RustMqSnapshotData, !Bincode IncrementalSnapshotData, !Json SnapshotMetadata}.
Context (sha256_hex : bytes → string) (zstd_encode : Z → bytes → option bytes) (zstd_decode : bytes → option bytes).
Context (zstd_roundtrip : ∀ level data compressed, zstd_encode level data = Some compressed → zstd_decode compressed = Some data).

Lemma fs_write_spec name data m r m' : fs_write name data m = (Ok r, m') →
  lc_files m' = <[name := data]> (lc_files m) ∧ lc_snapshot_metadata m' = lc_snapshot_metadata m ∧ lc_config m' = lc_config m.
Proof. unfold fs_write, next_outcome. destruct (default None _); [done|]. by intros [= _ <-]. Qed.

(** A full snapshot can be read again.  When a compaction that makes a full
    snapshot succeeds, at a time after all the snapshots there are and with at
    least one to keep, then, whatever failed on the way, reading the snapshot with
    the identifier it returned gives back the state it was given, with the log
    index; its checksum is that of its file; and it is the latest snapshot. *)
Theorem full_snapshot_readable now duration_ms state last_log_id m id m' :
  named m → (∀ k md, lc_snapshot_metadata m !! k = Some md → sm_created_at md < now) →
  lc_snapshot_metadata m !! generate_snapshot_id now Full = None → (0 < co_keep_snapshot_count (lc_config m))%nat →
  determine_snapshot_type last_log_id m = Full →
  compact_logs sha256_hex zstd_encode zstd_decode now duration_ms state last_log_id m = (Ok id, m') → lc_faults m' = [] →
  (load_snapshot_data zstd_decode id m').1 = Ok (full_state state last_log_id) ∧
  ∃ md, get_latest_snapshot m' = Some md ∧ sm_snapshot_id md = id ∧ sm_last_log_id md = last_log_id ∧
    (verify_snapshot_integrity sha256_hex md m').1 = Ok tt.
Proof using BincodeLaws0 zstd_roundtrip.
  intros Hn Hold Hnew Hkeep Htype. unfold compact_logs. rewrite Htype. cbn [create_snapshot sbind].
  set (data := serialize (full_state state last_log_id)). set (name := generate_snapshot_id now Full) in *.
  set (packed := if co_enable_compression (lc_config m) then compress_data zstd_encode data m else Ok data).
  destruct packed as [compressed|e] eqn:Ep; cbn [sbind]; [|done].
  destruct (fs_write (snap_file name) compressed m) as [[u|e] m1] eqn:E1; cbn [sbind]; [|done].
  apply fs_write_spec in E1 as (F1 & M1 & C1). set (md := mkMetadata _ _ _ _ _ _ _ _ _ _).
  destruct (save_snapshot_metadata md m1) as [[u'|e] m2] eqn:E2; cbn [sbind]; [|done].
  unfold save_snapshot_metadata in E2. apply fs_write_spec in E2 as (F2 & M2 & C2). set (m3 := with_metadata (insert name md) m2).
  destruct (cleanup_old_snapshots m3) as [[[]|e] m4] eqn:E4; cbn [sbind]; [|done]. intros [= <- <-] Hf.
  assert (Hn3 : named m3).
  { intros k x. simpl. rewrite lookup_insert_Some, M2, M1. intros [[<- <-]|[_ Hx]]; [done|by apply Hn]. }
  assert (Hmeta3 : lc_snapshot_metadata m3 = <[name := md]> (lc_snapshot_metadata m)) by (simpl; by rewrite M2, M1).
  destruct (cleanup_keeps_newest _ _ E4 (named_ids _ Hn3)) as (_ & Hfiles & _).
  destruct (newest_kept m3 md (co_keep_snapshot_count (lc_config m3))) as [Hin Hlatest]; [done| | | |].
  { rewrite Hmeta3. apply lookup_insert_eq. }
  { intros k x. rewrite Hmeta3, lookup_insert_Some. intros [[<- _]|[_ Hx]] Hk; [done|by apply (Hold k)]. }
  { simpl. by rewrite C2, C1. }
  destruct (Hfiles md Hin) as [Hsnap _]. cbn [sm_snapshot_id md] in Hsnap.
  assert (Hfile : lc_files m4 !! snap_file name = Some compressed).
  { rewrite Hsnap. simpl. rewrite F2, lookup_insert_ne, F1 by (intros E; symmetry in E; by apply snap_not_meta in E). apply lookup_insert_eq. }
  assert (Hm4 : lc_snapshot_metadata m4 = lc_snapshot_metadata m3 ∧ lc_config m4 = lc_config m).
  { unfold cleanup_old_snapshots in E4. case_match; [|by injection E4 as <-; simpl; rewrite C2, C1].
    apply remove_snapshots_spec in E4 as (-> & -> & _). simpl. by rewrite C2, C1. }
  destruct Hm4 as [Hm4 Hc4]. cbn [lc_faults with_stats] in Hf.
  assert (Hread : fs_read (snap_file name) (with_stats (λ s, record_snapshot (Z.of_nat (length compressed)) (record_compaction now last_log_id duration_ms s)) m4)
     = (Ok compressed, with_stats (λ s, record_snapshot (Z.of_nat (length compressed)) (record_compaction now last_log_id duration_ms s)) m4)).
  { unfold fs_read, next_outcome. cbn [lc_faults with_stats lc_files lc_config lc_snapshot_metadata lc_stats]. rewrite Hf. simpl. rewrite Hfile. simpl. unfold with_stats. by rewrite ?Hf. }
  split.
  - unfold load_snapshot_data. rewrite Hread. cbn [sbind lc_config with_stats]. rewrite Hc4.
    assert (Hd : (if co_enable_compression (lc_config m) then decompress_data zstd_decode compressed else Ok compressed) = Ok data).
    { unfold packed, compress_data in Ep. destruct (co_enable_compression (lc_config m)); [|congruence].
      destruct (zstd_encode _ data) eqn:Ez; simpl in Ep; [|done]. injection Ep as ->. unfold decompress_data. by rewrite (zstd_roundtrip _ _ _ Ez). }
    rewrite Hd. cbn [sbind fst]. unfold data. by rewrite deserialize_serialize.
  - exists md. split_and!; [|done|done|].
    + unfold get_latest_snapshot, metadata_values in *. cbn [lc_snapshot_metadata with_stats]. by rewrite Hm4.
    + unfold verify_snapshot_integrity. cbn [lc_files with_stats sm_snapshot_id md]. rewrite bool_decide_eq_false_2 by (by rewrite Hfile).
      rewrite Hread. cbn [sbind sm_checksum md]. by rewrite String.eqb_refl.
Qed.
End readable.

(** ** Concrete runs *)

Module CompactionDemo.
#[local] Program Instance BrokerInfo_countable : Countable BrokerInfo :=
  inj_countable' (λ b, (bi_id b, bi_host b, bi_port_quic b, bi_port_rpc b, bi_rack_id b)) (λ p, mkBroker p.1.1.1.1 p.1.1.1.2 p.1.1.2 p.1.2 p.2) _.
Next Obligation. by intros []. Qed.
#[local] Program Instance TopicConfig_countable : Countable TopicConfig :=
  inj_countable' (λ c, (tc_retention_ms c, tc_segment_bytes c, tc_compression_type c)) (λ p, mkTopicConfig p.1.1 p.1.2 p.2) _.
Next Obligation. by intros []. Qed.
#[local] Program Instance TopicInfo_countable : Countable TopicInfo :=
  inj_countable' (λ t, (ti_name t, ti_partitions t, ti_replication_factor t, ti_config t, ti_created_at t)) (λ p, mkTopic p.1.1.1.1 p.1.1.1.2 p.1.1.2 p.1.2 p.2) _.
Next Obligation. by intros []. Qed.
#[local] Program Instance PartitionAssignment_countable : Countable PartitionAssignment :=
  inj_countable' (λ a, (pa_leader a, pa_replicas a, pa_in_sync_replicas a, pa_leader_epoch a)) (λ p, mkAssignment p.1.1.1 p.1.1.2 p.1.2 p.2) _.
Next Obligation. by intros []. Qed.
#[local] Instance State_eq_dec : EqDecision RustMqSnapshotData.
Proof. solve_decision. Defined.
#[local] Program Instance State_countable : Countable RustMqSnapshotData :=
  inj_countable' (λ s, (rs_topics s, rs_brokers s, rs_partition_assignments s, rs_last_applied_log s, rs_snapshot_version s))
    (λ p, mkState p.1.1.1.1 p.1.1.1.2 p.1.1.2 p.1.2 p.2) _.
Next Obligation. by intros []. Qed.
#[local] Instance state_codec : Bincode RustMqSnapshotData := DemoCodec.demo.
#[local] Instance state_codec_laws : BincodeLaws RustMqSnapshotData := DemoCodec.demo_laws.
#[local] Instance delta_codec : Bincode IncrementalSnapshotData := {| serialize _ := [9]; deserialize _ := None |}.
#[local] Instance metadata_json : Json SnapshotMetadata := {| to_json _ := [123; 125]; from_json _ := None |}.

Definition digest (data : bytes) : string := dec (foldl (λ acc b, (acc * 31 + b) mod 1000003) 7 data).
Definition stored (_ : Z) (data : bytes) : option bytes := Some data.
Definition unstored (data : bytes) : option bytes := Some data.
Definition compact (now last_log_id : Z) (state : RustMqSnapshotData) := compact_logs digest stored unstored now 1 state last_log_id.
Definition config (keep : nat) : CompactionConfig := mkCompactionConfig 10000 1000 300 0 true 3 keep 1000 true.
Definition empty_state : RustMqSnapshotData := mkState ∅ ∅ ∅ None 0.
Definition manager0 (keep : nat) : LogCompactionManager := mkCompactor (config keep) ∅ stats_default ∅ [].

Lemma full_snapshot_readable_witness :
  (load_snapshot_data unstored "full_100" (compact 100 50 empty_state (manager0 2)).2).1 = Ok (full_state empty_state 50).
Proof.
  destruct (compact 100 50 empty_state (manager0 2)) as [r m'] eqn:E.
  assert (Hr : r = Ok "full_100") by (change r with (r, m').1; rewrite <- E; vm_compute; reflexivity). subst r. cbn [snd].
  apply (full_snapshot_readable digest stored unstored (λ level data compressed (H : stored level data = Some compressed), eq_sym H)
    100 1 empty_state 50 (manager0 2) "full_100" m').
  - intros k md H. discriminate H.
  - intros k md H. discriminate H.
  - reflexivity.
  - cbn. lia.
  - vm_compute. reflexivity.
  - exact E.
  - change m' with (@pair (Result string) _ (Ok "full_100") m').2. rewrite <- E. vm_compute. reflexivity.
Defined.

(** With two snapshots to keep, the third removes the full one the others are
    based on, and the fourth fails, as does every one after it. *)
Example base_removed :
  let m := (compact 1 50 empty_state (manager0 2)).2 in
  let m := (compact 2 51 empty_state m).2 in
  let m := (compact 3 52 empty_state m).2 in
  (lc_files m !! snap_file "full_1", (compact 4 53 empty_state m).1, sm_snapshot_id <$> find_latest_full_snapshot m)
  = (None, Err Io, Some "full_1").
Proof. vm_compute. reflexivity. Qed.
(** The number of entries minus an index wraps: after a compaction at index
    10000 a log of 500 entries is always due. *)
Example compaction_always_due :
  should_compact 101 500 10000 (compact 100 10000 empty_state (manager0 2)).2 = true.
Proof. vm_compute. reflexivity. Qed.
(** A removed assignment comes back with the delta. *)
Example removed_partition_returns :
  let assignment := mkAssignment "b1" ["b1"] ["b1"] 1 in
  let base := mkState ∅ ∅ {[Demo.tp0 := assignment]} None 0 in
  apply_changes (de_partition_changes (compute_state_delta base empty_state)) ∅ (rs_partition_assignments base) !! Demo.tp0 = Some assignment.
Proof. vm_compute. reflexivity. Qed.
(** The entries of two compactions are the sum of their indices. *)
Example entries_overcounted :
  cs_entries_compacted (lc_stats (compact 2 101 empty_state (compact 1 100 empty_state (manager0 5)).2).2) = 201.
Proof. vm_compute. reflexivity. Qed.
End CompactionDemo.
