(* ===== verification/Upgrade.v ===== *)
(** * Rolling upgrades

    Model of [src/src/operations/upgrade.rs] with the types of
    [src/src/operations/mod.rs]: upgrades run in spawned tasks, one broker after
    the other, while calls start, inspect and roll back operations.  A task is
    a program counter over the sections between its awaits ([upgrade_step]),
    and tasks, calls, the clock and the brokers interleave in every way
    ([act]).  What is done to a broker is the trait [BrokerUpgradeOperations],
    a class here, with the simulation of the source as an instance; its calls
    are polled, so that a broker may take any time to answer or never do.
    Times are in milliseconds; texts of errors and reasons are values. *)

From S2P Require Import Prelude Types Scaling.
Local Open Scope Z_scope.

Inductive RollbackReason := UpgradeFailed (broker_id : string) (e : RustMqError) | ManualRequested | ManualOfCompleted.
Inductive UpgradeStatus :=
  | NotStarted
  | InProgress (started_at : Z) (current_broker : string) (completed_brokers remaining_brokers : list string)
  | Completed (completed_at : Z) (upgraded_brokers : list string)
  | Failed (error : RustMqError) (failed_at : Z) (failed_broker : string)
  | RolledBack (rolled_back_at : Z) (reason : RollbackReason).
Record UpgradeRequest := mkUpgrade {
  ur_operation_id : string;
  ur_target_version : string;
  ur_upgrade_velocity : Z;
  ur_health_check_timeout : Z;
  ur_rollback_on_failure : bool;
}.
Record OperationsConfig := mkOperations {
  oc_allow_runtime_config_updates : bool;
  oc_upgrade_velocity : Z;
  oc_graceful_shutdown_timeout_ms : Z;
}.

(** Each call is awaited without a timeout: it is polled until it answers, and
    [None] is a poll that finds no answer yet. *)
Class BrokerUpgradeOperations (W : Type) := {
  drain_broker : string → W → option (Result unit) * W;
  upgrade_broker : string → string → W → option (Result unit) * W;
  health_check_broker : string → W → option (Result bool) * W;
  restore_broker_traffic : string → W → option (Result unit) * W;
  get_broker_version : string → W → option (Result string) * W;
}.
#[global] Hint Mode BrokerUpgradeOperations ! : typeclass_instances.

(** [MockBrokerUpgradeOperations] *)
Record MockBrokerUpgradeOperations := mkMock { mo_broker_versions : gmap string string; mo_drained_brokers : list string }.
Definition mock_new : MockBrokerUpgradeOperations := mkMock ∅ [].
#[export] Instance mock_operations : BrokerUpgradeOperations MockBrokerUpgradeOperations := {
  drain_broker id w := (Some (Ok tt), mkMock (mo_broker_versions w) (mo_drained_brokers w ++ [id]));
  upgrade_broker id version w := (Some (Ok tt), mkMock (<[id := version]> (mo_broker_versions w)) (mo_drained_brokers w));
  health_check_broker id w := (Some (Ok (bool_decide (is_Some (mo_broker_versions w !! id)))), w);
  restore_broker_traffic id w := (Some (Ok tt), mkMock (mo_broker_versions w) (filter (λ d, d ≠ id) (mo_drained_brokers w)));
  get_broker_version id w := (Some (ok_or (mo_broker_versions w !! id) Storage), w);
}.

Record RollingUpgradeManagerImpl := mkUpgrades {
  um_config : OperationsConfig;
  um_active_upgrades : gmap string UpgradeStatus;
  um_broker_list : list BrokerLoad;
}.
Definition upgrades_new (config : OperationsConfig) (brokers : list BrokerLoad) : RollingUpgradeManagerImpl := mkUpgrades config ∅ brokers.
Definition set_status (id : string) (status : UpgradeStatus) (m : RollingUpgradeManagerImpl) : RollingUpgradeManagerImpl :=
  mkUpgrades (um_config m) (<[id := status]> (um_active_upgrades m)) (um_broker_list m).

(** Where [execute_upgrade] and [upgrade_single_broker] are.  A time is the
    end of the sleep before the section; [AtHealthCall] is the call of a
    health check inside the loop that has not answered yet. *)
Inductive UpgradePc :=
  | AtStart
  | AtBroker (until : Z)
  | AtDrain
  | AtUpgrade (until : Z)
  | AtHealth (health_check_start until : Z)
  | AtHealthCall (health_check_start : Z)
  | AtFinalCheck
  | AtRestore
  | AtFailed (e : RustMqError)
  | AtRollback (e : RustMqError)
  | AtReturn (r : Result unit).
Definition is_start (pc : UpgradePc) : bool := match pc with AtStart => true | _ => false end.
(** The local variables of a task; [ut_todo] is what the [for] loop has left,
    the current broker first. *)
Record UpgradeTask := mkTask {
  ut_request : UpgradeRequest;
  ut_broker_ids : list string;
  ut_todo : list string;
  ut_completed : list string;
  ut_remaining : list string;
  ut_pc : UpgradePc;
}.
Definition at_pc (pc : UpgradePc) (t : UpgradeTask) : UpgradeTask :=
  mkTask (ut_request t) (ut_broker_ids t) (ut_todo t) (ut_completed t) (ut_remaining t) pc.
Definition task_new (request : UpgradeRequest) : UpgradeTask := mkTask request [] [] [] [] AtStart.
Definition operation_id (t : UpgradeTask) : string := ur_operation_id (ut_request t).
(** [Duration::from_secs(60 / velocity)] *)
Definition upgrade_interval (request : UpgradeRequest) : Z := 60 / ur_upgrade_velocity request * 1000.

(** What was done to a broker, successfully. *)
Inductive UpgradeEvent := Drained (b : string) | UpgradedTo (b version : string) | Healthy (b : string) | Restored (b : string).

(** [rollback_completed_brokers] only logs. *)
Definition rollback_completed_brokers {W : Type} (broker_ids : list string) (w : W) : Result unit * W := (Ok tt, w).

(** The status before a broker is upgraded; [None] is the panic of
    [remaining_brokers[1..]]. *)
Definition next_broker (now : Z) (b : string) (t : UpgradeTask) (m : RollingUpgradeManagerImpl) : option RollingUpgradeManagerImpl :=
  match um_active_upgrades m !! operation_id t with
  | None => Some m
  | Some status =>
      match ut_remaining t with
      | [] => None
      | _ :: rest =>
          let started_at := match status with InProgress s _ _ _ => s | _ => now end in
          Some (set_status (operation_id t) (InProgress started_at b (ut_completed t) rest) m)
      end
  end.
Definition broker_done (now : Z) (b : string) (t : UpgradeTask) : UpgradeTask :=
  let remaining := filter (λ id, id ≠ b) (ut_remaining t) in
  mkTask (ut_request t) (ut_broker_ids t) (tail (ut_todo t)) (ut_completed t ++ [b]) remaining
    (AtBroker (match remaining with [] => now | _ => now + upgrade_interval (ut_request t) end)).

(** Where the loop of health checks goes on with an answer *)
Definition health_answer (now start : Z) (r : option (Result bool)) : UpgradePc :=
  match r with
  | None => AtHealthCall start
  | Some (Ok true) => AtFinalCheck
  | Some (Ok false) => AtHealth start (now + 1000)
  | Some (Err e) => AtFailed e
  end.

Section upgrades.
Context {W : Type} {ops : BrokerUpgradeOperations W}.

Definition upgrade_step (now : Z) (t : UpgradeTask) (m : RollingUpgradeManagerImpl) (w : W)
  : UpgradeTask * RollingUpgradeManagerImpl * W * list UpgradeEvent :=
  let b := default EmptyString (head (ut_todo t)) in
  let stay := (t, m, w, []) in
  match ut_pc t with
  | AtStart =>
      let ids := bl_id <$> um_broker_list m in
      (mkTask (ut_request t) ids ids [] ids (AtBroker now), set_status (operation_id t) (InProgress now EmptyString [] ids) m, w, [])
  | AtBroker until =>
      if now <? until then stay else
      match ut_todo t with
      | [] => (at_pc (AtReturn (Ok tt)) t, set_status (operation_id t) (Completed now (ut_completed t)) m, w, [])
      | b :: _ =>
          match next_broker now b t m with
          | Some m' => (at_pc AtDrain t, m', w, [])
          | None => (at_pc (AtReturn (Err Panic)) t, m, w, [])
          end
      end
  | AtDrain =>
      match drain_broker b w with
      | (None, w') => (t, m, w', [])
      | (Some (Ok _), w') => (at_pc (AtUpgrade (now + oc_graceful_shutdown_timeout_ms (um_config m))) t, m, w', [Drained b])
      | (Some (Err e), w') => (at_pc (AtFailed e) t, m, w', [])
      end
  | AtUpgrade until =>
      if now <? until then stay else
      match upgrade_broker b (ur_target_version (ut_request t)) w with
      | (None, w') => (t, m, w', [])
      | (Some (Ok _), w') => (at_pc (AtHealth now now) t, m, w', [UpgradedTo b (ur_target_version (ut_request t))])
      | (Some (Err e), w') => (at_pc (AtFailed e) t, m, w', [])
      end
  | AtHealth start until =>
      if now <? until then stay else
      if now - start <? ur_health_check_timeout (ut_request t) then
        let '(r, w') := health_check_broker b w in (at_pc (health_answer now start r) t, m, w', [])
      else (at_pc AtFinalCheck t, m, w, [])
  | AtHealthCall start =>
      let '(r, w') := health_check_broker b w in (at_pc (health_answer now start r) t, m, w', [])
  | AtFinalCheck =>
      match health_check_broker b w with
      | (None, w') => (t, m, w', [])
      | (Some (Ok true), w') => (at_pc AtRestore t, m, w', [Healthy b])
      | (Some (Ok false), w') => (at_pc (AtFailed Storage) t, m, w', [])
      | (Some (Err e), w') => (at_pc (AtFailed e) t, m, w', [])
      end
  | AtRestore =>
      match restore_broker_traffic b w with
      | (None, w') => (t, m, w', [])
      | (Some (Ok _), w') => (broker_done now b t, m, w', [Restored b])
      | (Some (Err e), w') => (at_pc (AtFailed e) t, m, w', [])
      end
  | AtFailed e =>
      (at_pc (if ur_rollback_on_failure (ut_request t) then AtRollback e else AtReturn (Err e)) t,
       set_status (operation_id t) (Failed e now b) m, w, [])
  | AtRollback e =>
      let '(_, w') := rollback_completed_brokers (ut_completed t) w in
      (at_pc (AtReturn (Err e)) t, set_status (operation_id t) (RolledBack now (UpgradeFailed b e)) m, w', [])
  | AtReturn _ => stay
  end.

(** ** Calls *)

(** The task is spawned when this is [Ok]. *)
Definition start_upgrade (request : UpgradeRequest) (m : RollingUpgradeManagerImpl) : Result string :=
  if ur_upgrade_velocity request =? 0 then Err InvalidConfig
  else match um_active_upgrades m !! ur_operation_id request with
       | Some _ => Err InvalidConfig
       | None => Ok (ur_operation_id request)
       end.
Definition get_upgrade_status (id : string) (m : RollingUpgradeManagerImpl) : Result UpgradeStatus :=
  ok_or (um_active_upgrades m !! id) Storage.
Definition pause_upgrade (id : string) (m : RollingUpgradeManagerImpl) : Result unit * RollingUpgradeManagerImpl := (Ok tt, m).
Definition resume_upgrade (id : string) (m : RollingUpgradeManagerImpl) : Result unit * RollingUpgradeManagerImpl := (Ok tt, m).
(** [rollback_upgrade] up to where it releases the lock: the brokers and the
    reason to record, and the rest, under the lock again. *)
Definition rollback_begin (id : string) (m : RollingUpgradeManagerImpl) : Result (list string * RollbackReason) :=
  match um_active_upgrades m !! id with
  | Some (InProgress _ _ completed _) => Ok (completed, ManualRequested)
  | Some (Completed _ upgraded) => Ok (upgraded, ManualOfCompleted)
  | Some _ => Err InvalidConfig
  | None => Err Storage
  end.
Definition rollback_finish (now : Z) (id : string) (brokers : list string) (reason : RollbackReason) (m : RollingUpgradeManagerImpl) (w : W)
  : Result unit * RollingUpgradeManagerImpl * W :=
  match rollback_completed_brokers brokers w with
  | (Ok _, w') => (Ok tt, set_status id (RolledBack now reason) m, w')
  | (Err e, w') => (Err e, m, w')
  end.

(** ** Interleavings *)

Record UpgradeSystem := mkUpgradeSystem {
  us_manager : RollingUpgradeManagerImpl;
  us_world : W;
  us_tasks : list UpgradeTask;
  us_rollbacks : list (string * (list string * RollbackReason));
  us_now : Z;
  us_events : list (nat * UpgradeEvent);
}.
Definition system_new (config : OperationsConfig) (brokers : list BrokerLoad) (w : W) (now : Z) : UpgradeSystem :=
  mkUpgradeSystem (upgrades_new config brokers) w [] [] now [].

Inductive UpgradeAction :=
  | UStart (request : UpgradeRequest)
  | UTask (i : nat)
  | URollback (id : string)
  | URollbackFinish (i : nat)
  | UClock (d : Z)
  | UWorld (f : W → W)
  | UBrokers (brokers : list BrokerLoad).

Definition act (a : UpgradeAction) (s : UpgradeSystem) : UpgradeSystem :=
  match a with
  | UStart request =>
      match start_upgrade request (us_manager s) with
      | Ok _ => mkUpgradeSystem (us_manager s) (us_world s) (us_tasks s ++ [task_new request]) (us_rollbacks s) (us_now s) (us_events s)
      | Err _ => s
      end
  | UTask i =>
      match us_tasks s !! i with
      | None => s
      | Some t =>
          let '(t', m, w, events) := upgrade_step (us_now s) t (us_manager s) (us_world s) in
          mkUpgradeSystem m w (<[i := t']> (us_tasks s)) (us_rollbacks s) (us_now s) (us_events s ++ ((λ e, (i, e)) <$> events))
      end
  | URollback id =>
      match rollback_begin id (us_manager s) with
      | Ok r => mkUpgradeSystem (us_manager s) (us_world s) (us_tasks s) (us_rollbacks s ++ [(id, r)]) (us_now s) (us_events s)
      | Err _ => s
      end
  | URollbackFinish i =>
      match us_rollbacks s !! i with
      | None => s
      | Some (id, (brokers, reason)) =>
          let '(_, m, w) := rollback_finish (us_now s) id brokers reason (us_manager s) (us_world s) in
          mkUpgradeSystem m w (us_tasks s) (delete i (us_rollbacks s)) (us_now s) (us_events s)
      end
  | UClock d => mkUpgradeSystem (us_manager s) (us_world s) (us_tasks s) (us_rollbacks s) (us_now s + d) (us_events s)
  | UWorld f => mkUpgradeSystem (us_manager s) (f (us_world s)) (us_tasks s) (us_rollbacks s) (us_now s) (us_events s)
  | UBrokers brokers =>
      mkUpgradeSystem (mkUpgrades (um_config (us_manager s)) (um_active_upgrades (us_manager s)) brokers)
        (us_world s) (us_tasks s) (us_rollbacks s) (us_now s) (us_events s)
  end.
Definition upgrade_run (actions : list UpgradeAction) (s : UpgradeSystem) : UpgradeSystem := foldl (λ s a, act a s) s actions.
End upgrades.
Arguments UpgradeSystem : clear implicits. Arguments UpgradeAction : clear implicits.

(** ** What a task has done *)

Definition broker_events (version b : string) : list UpgradeEvent := [Drained b; UpgradedTo b version; Healthy b; Restored b].
Definition events_of (i : nat) (log : list (nat * UpgradeEvent)) : list UpgradeEvent := (filter (λ p, p.1 = i) log).*2.
#[global] Arguments events_of : simpl never.
(** How many of the four events of its current broker a task has behind it *)
Definition stage (pc : UpgradePc) (n : nat) : Prop :=
  match pc with
  | AtStart | AtBroker _ | AtDrain | AtReturn (Ok _) => n = 0%nat
  | AtUpgrade _ => n = 1%nat
  | AtHealth _ _ | AtHealthCall _ | AtFinalCheck => n = 2%nat
  | AtRestore => n = 3%nat
  | AtFailed _ | AtRollback _ | AtReturn (Err _) => (n < 4)%nat
  end.
Definition working (pc : UpgradePc) : bool :=
  match pc with AtDrain | AtUpgrade _ | AtHealth _ _ | AtHealthCall _ | AtFinalCheck | AtRestore | AtFailed _ | AtRollback _ => true | _ => false end.
(** The events of a task: all four of each completed broker, in order, and
    some of the next one's *)
Definition in_order (t : UpgradeTask) (n : nat) (events : list UpgradeEvent) : Prop :=
  events = concat (broker_events (ur_target_version (ut_request t)) <$> ut_completed t)
           ++ take n (broker_events (ur_target_version (ut_request t)) (default EmptyString (head (ut_todo t)))).
Definition task_ok (t : UpgradeTask) (events : list UpgradeEvent) : Prop :=
  (∃ n, stage (ut_pc t) n ∧ in_order t n events)
  ∧ (if is_start (ut_pc t) then ut_completed t = [] else ut_completed t ++ ut_todo t = ut_broker_ids t)
  ∧ (working (ut_pc t) = true → ut_todo t ≠ [])
  ∧ (ut_pc t = AtReturn (Ok tt) → ut_todo t = []).

Section invariant.
Context {W : Type} {ops : BrokerUpgradeOperations W}.
Implicit Types (s : UpgradeSystem W).

Lemma in_order_next t n events e :
  in_order t n events → broker_events (ur_target_version (ut_request t)) (default EmptyString (head (ut_todo t))) !! n = Some e →
  in_order t (S n) (events ++ [e]).
Proof. unfold in_order. intros -> Hn. by rewrite (take_S_r _ _ _ Hn), app_assoc. Qed.

(** A turn that leaves the task at [pc] with [n] events of its broker. *)
Lemma task_ok_at t pc n events :
  stage pc n → in_order t n events → is_start pc = false → ut_completed t ++ ut_todo t = ut_broker_ids t →
  (working pc = true → ut_todo t ≠ []) → (pc = AtReturn (Ok tt) → ut_todo t = []) → task_ok (at_pc pc t) events.
Proof. intros ??????. split; [by exists n|]. cbn. by replace (is_start pc) with false. Qed.
(** One turn adds at most the next event. *)
Lemma upgrade_step_ok now t m (w : W) t' m' w' new events :
  task_ok t events → upgrade_step now t m w = (t', m', w', new) → task_ok t' (events ++ new).
Proof.
  intros Hok E. unfold upgrade_step in E. pose proof Hok as ((n & Hst & Hin) & Hids & Hwork & Hret).
  destruct (ut_pc t) as [|u| |u|hs u|hs| | |e|e|r] eqn:Hpc; cbn in Hst, Hids, Hwork; try subst n.
  - injection E as <- <- <- <-. rewrite app_nil_r. unfold in_order in Hin. rewrite Hids in Hin. cbn in Hin. subst events.
    split; [by exists 0%nat|]. by cbn.
  - destruct (now <? u); [injection E as <- <- <- <-; by rewrite app_nil_r|].
    destruct (ut_todo t) as [|b todo] eqn:Htodo.
    { injection E as <- <- <- <-. rewrite app_nil_r. apply (task_ok_at _ _ 0); rewrite ?Htodo; done. }
    destruct (next_broker _ _ _ _); injection E as <- <- <- <-; rewrite app_nil_r; apply (task_ok_at _ _ 0); rewrite ?Htodo; cbn; try done; lia.
  - destruct (drain_broker _ _) as [[[u|e]|] w1]; injection E as <- <- <- <-; rewrite ?app_nil_r; [| |done].
    + apply (task_ok_at _ _ 1); cbn; auto; try done. by apply in_order_next.
    + apply (task_ok_at _ _ 0); cbn; auto; try done; lia.
  - destruct (now <? u); [injection E as <- <- <- <-; by rewrite app_nil_r|].
    destruct (upgrade_broker _ _ _) as [[[?|e]|] w1]; injection E as <- <- <- <-; rewrite ?app_nil_r; [| |done].
    + apply (task_ok_at _ _ 2); cbn; auto; try done. by apply in_order_next.
    + apply (task_ok_at _ _ 1); cbn; auto; try done; lia.
  - destruct (now <? u); [injection E as <- <- <- <-; by rewrite app_nil_r|].
    destruct (now - hs <? _); [destruct (health_check_broker _ _) as [[[[]|e]|] w1]|]; injection E as <- <- <- <-; rewrite ?app_nil_r;
      apply (task_ok_at _ _ 2); cbn; auto; try done; lia.
  - destruct (health_check_broker _ _) as [[[[]|e]|] w1]; injection E as <- <- <- <-; rewrite ?app_nil_r;
      apply (task_ok_at _ _ 2); cbn; auto; try done; lia.
  - destruct (health_check_broker _ _) as [[[[]|e]|] w1]; injection E as <- <- <- <-; rewrite ?app_nil_r;
      [apply (task_ok_at _ _ 3)|apply (task_ok_at _ _ 2)..|done]; cbn; auto; try done; try lia. by apply in_order_next.
  - destruct (restore_broker_traffic _ _) as [[[u|e]|] w1]; injection E as <- <- <- <-; rewrite ?app_nil_r;
      [|apply (task_ok_at _ _ 3); cbn; auto; try done; lia|done].
    specialize (Hwork eq_refl). destruct (ut_todo t) as [|b todo] eqn:Htodo; [done|]. unfold in_order in Hin. rewrite Htodo in Hin.
    split; [exists 0%nat; split; [by cbn|]|].
    + unfold in_order. cbn [broker_done ut_request ut_completed ut_todo]. rewrite Hin, fmap_app, concat_app. cbn. by rewrite !app_nil_r, <- app_assoc.
    + cbn. rewrite Htodo. cbn. by rewrite <- app_assoc.
  - injection E as <- <- <- <-. rewrite app_nil_r. destruct (ur_rollback_on_failure _); apply (task_ok_at _ _ n); cbn; auto; done.
  - injection E as <- <- <- <-. rewrite app_nil_r. apply (task_ok_at _ _ n); cbn; auto; done.
  - injection E as <- <- <- <-. by rewrite app_nil_r.
Qed.

Lemma events_of_app i l1 l2 : events_of i (l1 ++ l2) = events_of i l1 ++ events_of i l2.
Proof. unfold events_of. by rewrite filter_app, fmap_app. Qed.
Lemma events_of_tagged i j (l : list UpgradeEvent) : events_of i ((λ e, (j, e)) <$> l) = if decide (i = j) then l else [].
Proof.
  unfold events_of in *. induction l as [|e l IH]; [by case_decide|]. rewrite fmap_cons, filter_cons. cbn [fst].
  case_decide; case_decide; subst; try done; rewrite ?fmap_cons; by rewrite IH.
Qed.

(** [Completed] is recorded by a task that has returned, with the brokers it
    was given. *)
Record upgrades_ok s : Prop := {
  uo_tasks i t : us_tasks s !! i = Some t → task_ok t (events_of i (us_events s));
  uo_none i : us_tasks s !! i = None → events_of i (us_events s) = [];
  uo_completed id at_time brokers : um_active_upgrades (us_manager s) !! id = Some (Completed at_time brokers) →
    ∃ i t, us_tasks s !! i = Some t ∧ operation_id t = id ∧ ut_pc t = AtReturn (Ok tt) ∧ ut_completed t = brokers;
}.

Lemma step_completed now t m (w : W) t' m' w' new id at_time brokers :
  upgrade_step now t m w = (t', m', w', new) → um_active_upgrades m' !! id = Some (Completed at_time brokers) →
  um_active_upgrades m !! id = Some (Completed at_time brokers)
  ∨ id = operation_id t ∧ t' = at_pc (AtReturn (Ok tt)) t ∧ brokers = ut_completed t.
Proof.
  intros E Hc.
  assert (Hset : ∀ st, um_active_upgrades (set_status (operation_id t) st m) !! id = Some (Completed at_time brokers) →
    (id = operation_id t ∧ st = Completed at_time brokers) ∨ um_active_upgrades m !! id = Some (Completed at_time brokers)).
  { intros st. cbn. intros [[<- ->]|[_ ?]]%lookup_insert_Some; auto. }
  unfold upgrade_step in E. destruct (ut_pc t) as [|u| |u|hs u|hs| | |e|e|r]; repeat case_match; simplify_eq; auto;
    try (apply Hset in Hc as [[-> [= <- <-]]|?]; auto); try (apply Hset in Hc as [[_ ?]|?]; [done|auto]).
  match goal with H : next_broker _ _ _ _ = Some _ |- _ => unfold next_broker in H; repeat case_match; simplify_eq; auto end.
  all: apply Hset in Hc as [[_ ?]|?]; [done|auto].
Qed.
Lemma step_returned now t m (w : W) r t' m' w' new :
  ut_pc t = AtReturn r → upgrade_step now t m w = (t', m', w', new) → t' = t.
Proof. unfold upgrade_step. intros ->. by intros [= <-]. Qed.
Lemma step_request now t m (w : W) t' m' w' new : upgrade_step now t m w = (t', m', w', new) → ut_request t' = ut_request t.
Proof. unfold upgrade_step. intros E. destruct (ut_pc t); repeat case_match; by simplify_eq. Qed.

Lemma act_ok a s : upgrades_ok s → upgrades_ok (act a s).
Proof.
  intros [Ht Hn Hc]. destruct a as [rq|i|id|i|d|f|bs]; cbn; try done.
  - destruct (start_upgrade _ _) as [id|e]; [|done]. split; cbn.
    + intros i t [Hi|[Hle Hi]]%lookup_app_Some; [by apply Ht|]. apply list_lookup_singleton_Some in Hi as [? <-].
      rewrite Hn by (by apply lookup_ge_None). split; [by exists 0%nat|]. by cbn.
    + intros i Hi%lookup_ge_None. rewrite length_app in Hi. apply Hn, lookup_ge_None. lia.
    + intros id' at_time brokers (i & t & Hi & Ho)%Hc. exists i, t. split; [by apply lookup_app_l_Some|done].
  - destruct (us_tasks s !! i) as [t|] eqn:Hi; [|done]. destruct (upgrade_step _ _ _ _) as [[[t' m'] w'] new] eqn:E.
    pose proof (Ht _ _ Hi) as Hok. pose proof (lookup_lt_Some _ _ _ Hi) as Hlt. split; cbn.
    + intros j tj Hj. rewrite events_of_app, events_of_tagged. case_decide as Hd.
      * subst j. rewrite list_lookup_insert_eq in Hj by done. injection Hj as <-. eapply upgrade_step_ok; eauto.
      * rewrite list_lookup_insert_ne in Hj by done. rewrite app_nil_r. by apply Ht.
    + intros j Hj. rewrite events_of_app, events_of_tagged. apply lookup_ge_None in Hj. rewrite length_insert in Hj.
      rewrite Hn by (apply lookup_ge_None; lia). case_decide; [lia|done].
    + intros id at_time brokers Hid. destruct (step_completed _ _ _ _ _ _ _ _ _ _ _ E Hid) as [Hold|(-> & -> & ->)].
      * apply Hc in Hold as (j & tj & Hj & Ho & Hp & Hb). exists j.
        destruct (decide (j = i)) as [->|]; [|exists tj; by rewrite list_lookup_insert_ne].
        rewrite Hi in Hj. injection Hj as <-. exists t'. rewrite list_lookup_insert_eq by done.
        by rewrite (step_returned _ _ _ _ _ _ _ _ _ Hp E).
      * exists i, (at_pc (AtReturn (Ok tt)) t). by rewrite list_lookup_insert_eq.
  - by destruct (rollback_begin _ _).
  - destruct (us_rollbacks s !! i) as [[id [bs reason]]|]; [|done]. split; cbn; [done|done|].
    intros id' at_time brokers [[_ ?]|[_ ?]]%lookup_insert_Some; [done|]. by eapply Hc.
Qed.
Lemma upgrade_run_ok actions s : upgrades_ok s → upgrades_ok (upgrade_run actions s).
Proof. revert s. induction actions as [|a l IH]; intros s Hs; [done|]. by apply IH, act_ok. Qed.
Lemma system_new_ok config brokers (w : W) now : upgrades_ok (system_new config brokers w now).
Proof. by split; cbn. Qed.

(** C23: One broker at a time.  In every interleaving of upgrades, rollbacks,
    changes of the broker list and the clock, with brokers that answer at once,
    late or never, or fail, what a task has done successfully is: for each broker it counts as completed a drain, an upgrade to the
    requested version, a healthy final check and the return of its traffic, in
    that order, and then some of these for one more broker; and an operation
    whose status is [Completed] was run by a task that did all of this for
    every broker of the list it started with. *)
Theorem one_broker_at_a_time config brokers (w : W) now actions :
  let s := upgrade_run actions (system_new config brokers w now) in
  (∀ i t, us_tasks s !! i = Some t → ∃ n, (n < 4)%nat ∧ in_order t n (events_of i (us_events s)))
  ∧ (∀ id at_time upgraded, get_upgrade_status id (us_manager s) = Ok (Completed at_time upgraded) →
      ∃ i t, us_tasks s !! i = Some t ∧ operation_id t = id ∧ upgraded = ut_broker_ids t
        ∧ events_of i (us_events s) = concat (broker_events (ur_target_version (ut_request t)) <$> upgraded)).
Proof.
  intros s. pose proof (upgrade_run_ok actions _ (system_new_ok config brokers w now)) as [Ht _ Hc]. fold s in Ht, Hc. split.
  - intros i t Hi. destruct (Ht _ _ Hi) as ((n & Hst & Hin) & _). exists n. split; [|done].
    destruct (ut_pc t) as [| | | | | | | | | |[]]; cbn in Hst; lia.
  - intros id at_time upgraded H. unfold get_upgrade_status in H. destruct (_ !! _) as [st|] eqn:E; [|done]. cbn in H. injection H as ->.
    apply Hc in E as (i & t & Hi & Ho & Hp & <-). exists i, t. destruct (Ht _ _ Hi) as ((n & Hst & Hin) & Hids & _ & Htodo).
    rewrite Hp in *. cbn in Hst, Hids. subst n. rewrite (Htodo eq_refl), app_nil_r in Hids. split_and!; [done..|].
    unfold in_order in Hin. by rewrite app_nil_r in Hin.
Qed.
End invariant.

(** ** Every upgrade ends *)

Section termination.
Context {W : Type} {ops : BrokerUpgradeOperations W}.
Implicit Types (s : UpgradeSystem W).
(** Every call answers when it is polled. *)
Definition answering : Prop :=
  ∀ b v (w : W), is_Some (drain_broker b w).1 ∧ is_Some (upgrade_broker b v w).1 ∧
    is_Some (health_check_broker b w).1 ∧ is_Some (restore_broker_traffic b w).1.
Context (Hanswers : answering).

Definition pending (until now : Z) : Z := Z.max 0 (until - now).
(** How many more milliseconds and turns a task can take, given that at least
    one of both passes at a time; [grace] is the shutdown time. *)
Definition broker_cost (grace : Z) (request : UpgradeRequest) : Z :=
  8 + grace + ur_health_check_timeout request + 1000 + upgrade_interval request.
Definition rest_cost (grace : Z) (request : UpgradeRequest) (n : nat) : Z := 1 + Z.of_nat n * broker_cost grace request.
Definition patience (grace now : Z) (t : UpgradeTask) : Z :=
  let rq := ut_request t in
  let after := rest_cost grace rq (pred (length (ut_todo t))) + upgrade_interval rq in
  match ut_pc t with
  | AtStart => 0
  | AtBroker until => pending until now + rest_cost grace rq (length (ut_todo t))
  | AtDrain => after + 7 + ur_health_check_timeout rq + 1000 + grace
  | AtUpgrade until => after + 6 + ur_health_check_timeout rq + 1000 + pending until now
  | AtHealth start until => after + 5 + Z.max (pending (start + ur_health_check_timeout rq + 1000) now) (pending until now)
  | AtHealthCall start => after + 6 + Z.max (pending (start + ur_health_check_timeout rq + 1000) now) 1000
  | AtFinalCheck => after + 4
  | AtRestore => after + 3
  | AtFailed _ => 2
  | AtRollback _ => 1
  | AtReturn _ => 0
  end.
Definition request_ok (request : UpgradeRequest) : Prop := 0 < ur_upgrade_velocity request ∧ 0 ≤ ur_health_check_timeout request.

Lemma interval_nonneg rq : request_ok rq → 0 ≤ upgrade_interval rq.
Proof. intros [? _]. unfold upgrade_interval. pose proof (Z.div_pos 60 (ur_upgrade_velocity rq)). lia. Qed.
Lemma rest_cost_S grace rq n : rest_cost grace rq (S n) = broker_cost grace rq + rest_cost grace rq n.
Proof. unfold rest_cost. lia. Qed.
Lemma rest_cost_pos grace rq n : 0 ≤ grace → request_ok rq → 1 ≤ rest_cost grace rq n.
Proof. intros ? Hrq. pose proof (interval_nonneg rq Hrq). destruct Hrq. unfold rest_cost, broker_cost. nia. Qed.
Lemma patience_nonneg grace now t : 0 ≤ grace → request_ok (ut_request t) → 0 ≤ patience grace now t.
Proof.
  intros Hg Hrq. pose proof (interval_nonneg _ Hrq). pose proof (rest_cost_pos grace _ (pred (length (ut_todo t))) Hg Hrq).
  pose proof (rest_cost_pos grace _ (length (ut_todo t)) Hg Hrq). destruct Hrq. unfold patience, pending. destruct (ut_pc t); lia.
Qed.
Lemma patience_clock grace now d t : 0 ≤ d → patience grace (now + d) t ≤ patience grace now t.
Proof. intros Hd. unfold patience, pending. destruct (ut_pc t); lia. Qed.

Lemma drain_answers b (w w' : W) : drain_broker b w ≠ (None, w').
Proof using Hanswers. intros E. destruct (Hanswers b b w) as ([? H] & _). by rewrite E in H. Qed.
Lemma upgrade_answers b v (w w' : W) : upgrade_broker b v w ≠ (None, w').
Proof using Hanswers. intros E. destruct (Hanswers b v w) as (_ & [? H] & _). by rewrite E in H. Qed.
Lemma health_answers b (w w' : W) : health_check_broker b w ≠ (None, w').
Proof using Hanswers. intros E. destruct (Hanswers b b w) as (_ & _ & [? H] & _). by rewrite E in H. Qed.
Lemma restore_answers b (w w' : W) : restore_broker_traffic b w ≠ (None, w').
Proof using Hanswers. intros E. destruct (Hanswers b b w) as (_ & _ & _ & [? H]). by rewrite E in H. Qed.

(** A turn never makes a task longer, and after the clock has moved it makes
    it shorter. *)
Lemma patience_turn grace now t m (w : W) t' m' w' new :
  0 ≤ grace → request_ok (ut_request t) → oc_graceful_shutdown_timeout_ms (um_config m) = grace → ut_pc t ≠ AtStart →
  (working (ut_pc t) = true → ut_todo t ≠ []) → upgrade_step now t m w = (t', m', w', new) →
  patience grace now t' ≤ patience grace now t
  ∧ (∀ d, 0 < d → (∃ r, ut_pc t = AtReturn r) ∨ patience grace now t' < patience grace (now - d) t).
Proof using Hanswers.
  intros Hg Hrq Hm Hpc Hwork E. pose proof (interval_nonneg _ Hrq) as Hi.
  pose proof (rest_cost_pos grace _ (pred (length (ut_todo t))) Hg Hrq) as Hr. pose proof (proj2 Hrq) as Ht.
  assert (Hlen : ut_todo t ≠ [] → length (ut_todo t) = S (pred (length (ut_todo t)))) by (destruct (ut_todo t); done).
  unfold upgrade_step in E. unfold patience at 2 4. destruct (ut_pc t) as [|u| |u|hs u|hs| | |e|e|r] eqn:Ep; cbn in Hwork.
  - done.
  - destruct (now <? u) eqn:Hu.
    { injection E as <- _ _ _. unfold patience, pending. rewrite Ep. split; [done|]. intros d ?. right. lia. }
    destruct (ut_todo t) as [|b todo] eqn:Htodo.
    { injection E as <- _ _ _. unfold patience, pending, rest_cost. cbn. split; [lia|]. intros d ?. right. lia. }
    destruct (next_broker _ _ _ _); injection E as <- _ _ _; unfold patience, pending; cbn [ut_pc at_pc ut_request ut_todo]; rewrite ?Htodo;
      cbn [length pred] in *; rewrite rest_cost_S; unfold broker_cost; (split; [lia|]); intros d ?; right; lia.
  - destruct (drain_broker _ _) as [[[?|e]|] w1] eqn:Ea; [| |exfalso; by apply (drain_answers _ _ _ Ea)];
      injection E as <- _ _ _; unfold patience, pending; cbn [ut_pc at_pc ut_request ut_todo];
      (split; [lia|]); intros d ?; right; lia.
  - destruct (now <? u) eqn:Hu.
    { injection E as <- _ _ _. unfold patience, pending. rewrite Ep. split; [done|]. intros d ?. right. lia. }
    destruct (upgrade_broker _ _ _) as [[[?|e]|] w1] eqn:Ea; [| |exfalso; by apply (upgrade_answers _ _ _ _ Ea)];
      injection E as <- _ _ _; unfold patience, pending; cbn [ut_pc at_pc ut_request ut_todo];
      (split; [lia|]); intros d ?; right; lia.
  - destruct (now <? u) eqn:Hu.
    { injection E as <- _ _ _. unfold patience, pending. rewrite Ep. split; [done|]. intros d ?. right. lia. }
    destruct (now - hs <? _) eqn:Hh; [|injection E as <- _ _ _; unfold patience, pending; cbn; (split; [lia|]); intros d ?; right; lia].
    destruct (health_check_broker _ _) as [[[[]|e]|] w1] eqn:Ea; [| | |exfalso; by apply (health_answers _ _ _ Ea)];
      injection E as <- _ _ _; unfold patience, pending; cbn [ut_pc at_pc ut_request ut_todo health_answer]; (split; [lia|]); intros d ?; right; lia.
  - destruct (health_check_broker _ _) as [[[[]|e]|] w1] eqn:Ea; [| | |exfalso; by apply (health_answers _ _ _ Ea)];
      injection E as <- _ _ _; unfold patience, pending; cbn [ut_pc at_pc ut_request ut_todo health_answer]; (split; [lia|]); intros d ?; right; lia.
  - destruct (health_check_broker _ _) as [[[[]|e]|] w1] eqn:Ea; [| | |exfalso; by apply (health_answers _ _ _ Ea)];
      injection E as <- _ _ _; unfold patience, pending; cbn [ut_pc at_pc ut_request ut_todo];
      (split; [lia|]); intros d ?; right; lia.
  - destruct (restore_broker_traffic _ _) as [[[?|e]|] w1] eqn:Ea; [| |exfalso; by apply (restore_answers _ _ _ Ea)];
      injection E as <- _ _ _; unfold patience, pending;
      cbn [ut_pc at_pc ut_request ut_todo broker_done]; [|(split; [lia|]); intros d ?; right; lia].
    replace (length (tail (ut_todo t))) with (pred (length (ut_todo t))) by (by destruct (ut_todo t)).
    destruct (filter _ _); (split; [lia|]); intros d ?; right; lia.
  - injection E as <- _ _ _. unfold patience. destruct (ur_rollback_on_failure _); cbn; (split; [lia|]); intros d ?; right; lia.
  - injection E as <- _ _ _. unfold patience. cbn. (split; [lia|]); intros d ?; right; lia.
  - injection E as <- _ _ _. unfold patience. rewrite Ep. split; [done|]. intros d ?. left. by exists r.
Qed.

Lemma patience_zero grace now t :
  0 ≤ grace → request_ok (ut_request t) → ut_pc t ≠ AtStart → patience grace now t ≤ 0 → ∃ r, ut_pc t = AtReturn r.
Proof.
  intros Hg Hrq Hpc H. pose proof (interval_nonneg _ Hrq). pose proof (rest_cost_pos grace _ (pred (length (ut_todo t))) Hg Hrq).
  pose proof (rest_cost_pos grace _ (length (ut_todo t)) Hg Hrq). destruct Hrq. unfold patience, pending in H.
  destruct (ut_pc t); try lia; [done|]. by eexists.
Qed.

Definition forward (a : UpgradeAction W) : Prop := match a with UClock d => 0 ≤ d | _ => True end.
(** Task [i] of [s] is under way, with at most [p] to go. *)
Definition underway (s : UpgradeSystem W) (i : nat) (rq : UpgradeRequest) (grace p : Z) : Prop :=
  upgrades_ok s ∧ oc_graceful_shutdown_timeout_ms (um_config (us_manager s)) = grace ∧
  ∃ t, us_tasks s !! i = Some t ∧ ut_request t = rq ∧ ut_pc t ≠ AtStart ∧ patience grace (us_now s) t ≤ p.

Lemma step_config now t m (w : W) t' m' w' new : upgrade_step now t m w = (t', m', w', new) → um_config m' = um_config m.
Proof. unfold upgrade_step, next_broker. intros E. destruct (ut_pc t); repeat case_match; by simplify_eq. Qed.
Lemma step_started now t m (w : W) t' m' w' new : ut_pc t ≠ AtStart → upgrade_step now t m w = (t', m', w', new) → ut_pc t' ≠ AtStart.
Proof. unfold upgrade_step. intros Hp E. destruct (ut_pc t) eqn:?; repeat case_match; simplify_eq; cbn; unfold health_answer in *; repeat case_match; congruence. Qed.
Lemma act_config a s : um_config (us_manager (act a s)) = um_config (us_manager s).
Proof.
  destruct a as [rq|i|id|i|d|f|bs]; cbn; try done.
  - by destruct (start_upgrade _ _).
  - destruct (_ !! _) as [t|]; [|done]. destruct (upgrade_step _ _ _ _) as [[[t' m'] w'] new] eqn:E. cbn. by eapply step_config.
  - by destruct (rollback_begin _ _).
  - by destruct (us_rollbacks s !! i) as [[id [bs reason]]|].
Qed.
Lemma run_config actions s : um_config (us_manager (upgrade_run actions s)) = um_config (us_manager s).
Proof. revert s. induction actions as [|a l IH]; intros s; [done|]. cbn [upgrade_run foldl]. unfold upgrade_run in IH. by rewrite IH, act_config. Qed.

Lemma act_underway a s i rq grace p :
  0 ≤ grace → request_ok rq → forward a → underway s i rq grace p → underway (act a s) i rq grace p.
Proof using Hanswers.
  intros Hg Hrq Ha (Hok & Hc & t & Hi & <- & Hp & Hle). split_and!; [by apply act_ok|by rewrite act_config|].
  destruct a as [rq'|j|id|j|d|f|bs]; cbn; try by exists t.
  - destruct (start_upgrade _ _); exists t; [|done]. cbn. split; [by apply lookup_app_l_Some|done].
  - destruct (us_tasks s !! j) as [tj|] eqn:Hj; [|by exists t]. destruct (upgrade_step _ _ _ _) as [[[t' m'] w'] new] eqn:E. cbn.
    destruct (decide (j = i)) as [->|]; [|exists t; by rewrite list_lookup_insert_ne].
    rewrite Hi in Hj. injection Hj as <-. exists t'. rewrite list_lookup_insert_eq by by eapply lookup_lt_Some.
    destruct (uo_tasks _ Hok _ _ Hi) as (_ & _ & Hwork & _).
    split_and!; [done|by eapply step_request|by eapply step_started|].
    etrans; [|done]. eapply patience_turn; eauto.
  - destruct (rollback_begin _ _); by exists t.
  - destruct (us_rollbacks s !! j) as [[id [bs reason]]|]; by exists t.
  - exists t. split_and!; try done. etrans; [by apply patience_clock|done].
Qed.
Lemma run_underway actions s i rq grace p :
  0 ≤ grace → request_ok rq → Forall forward actions → underway s i rq grace p → underway (upgrade_run actions s) i rq grace p.
Proof using Hanswers. intros Hg Hrq Ha. revert s. induction Ha as [|a l Ha _ IH]; intros s Hs; [done|]. by apply IH, act_underway. Qed.
Lemma round_underway s i rq grace p d :
  0 ≤ grace → request_ok rq → 0 < d → underway s i rq grace p → underway (upgrade_run [UClock d; UTask i] s) i rq grace (Z.max 0 (p - 1)).
Proof using Hanswers.
  intros Hg Hrq Hd (Hok & Hc & t & Hi & <- & Hp & Hle). split_and!; [by apply upgrade_run_ok|by rewrite run_config|].
  cbn. rewrite Hi. destruct (upgrade_step _ _ _ _) as [[[t' m'] w'] new] eqn:E. cbn. exists t'.
  rewrite list_lookup_insert_eq by by eapply lookup_lt_Some. destruct (uo_tasks _ Hok _ _ Hi) as (_ & _ & Hwork & _).
  split_and!; [done|by eapply step_request|by eapply step_started|].
  destruct (patience_turn grace _ _ _ _ _ _ _ _ Hg Hrq Hc Hp Hwork E) as [_ [[r Hr]|Hlt]%(λ f, f d Hd)].
  - rewrite (step_returned _ _ _ _ _ _ _ _ _ Hr E). unfold patience. rewrite Hr. lia.
  - replace (us_now s + d - d) with (us_now s) in Hlt by lia. lia.
Qed.

(** A stretch of any activity, then some time, then a turn of task [i] *)
Definition upgrade_round (i : nat) (r : list (UpgradeAction W) * Z) : list (UpgradeAction W) := r.1 ++ [UClock r.2; UTask i].

(** Every upgrade ends if the brokers answer.  If every call answers when it is
    polled, then, whatever it answers and whatever other tasks and calls do in
    between, a task that has started returns (completed, failed, rolled back or
    panicked) within as many turns as [patience] says: for each broker that is
    left at most the shutdown time, the health-check timeout and the interval,
    plus a second and eight turns. *)
Theorem every_upgrade_ends config brokers (w : W) now actions i t (rounds : list (list (UpgradeAction W) * Z)) :
  let s := upgrade_run actions (system_new config brokers w now) in
  us_tasks s !! i = Some t → ut_pc t ≠ AtStart → request_ok (ut_request t) → 0 ≤ oc_graceful_shutdown_timeout_ms config →
  Forall (λ r, Forall forward r.1 ∧ 0 < r.2) rounds →
  patience (oc_graceful_shutdown_timeout_ms config) (us_now s) t ≤ Z.of_nat (length rounds) →
  ∃ t' r, us_tasks (upgrade_run (concat (upgrade_round i <$> rounds)) s) !! i = Some t' ∧ ut_pc t' = AtReturn r.
Proof using Hanswers.
  intros s Hi Hp Hrq Hg Hr Hle. set (grace := oc_graceful_shutdown_timeout_ms config) in *.
  assert (Hu : underway s i (ut_request t) grace (Z.of_nat (length rounds))).
  { split_and!; [apply upgrade_run_ok, system_new_ok| |by exists t].
    unfold s. by rewrite run_config. }
  clearbody s. clear Hi Hle. revert s Hu. induction Hr as [|[others d] rounds [Ho Hd] _ IH]; intros s Hu.
  - destruct Hu as (_ & _ & t' & Hi & Hreq & Hp' & Hle'). cbn in Hle'. rewrite <- Hreq in Hrq.
    destruct (patience_zero _ _ _ Hg Hrq Hp' Hle') as [r Hret]. by exists t', r.
  - cbn [fmap list_fmap concat]. unfold upgrade_run. rewrite foldl_app. apply IH. unfold upgrade_round. rewrite foldl_app. cbn [fst snd].
    replace (Z.of_nat (length rounds)) with (Z.max 0 (Z.of_nat (length ((others, d) :: rounds)) - 1)) by (cbn [length]; lia).
    apply round_underway; [done..|]. by apply run_underway.
Qed.
End termination.

(** ** The status of an operation *)

Section status.
Context {W : Type} {ops : BrokerUpgradeOperations W}.
Implicit Types (s : UpgradeSystem W).

Definition in_progress (st : option UpgradeStatus) : Prop := ∃ at_time b done rest, st = Some (InProgress at_time b done rest).
(** What the status of an operation says, by where its task is *)
Definition status_matches (t : UpgradeTask) (st : option UpgradeStatus) : Prop :=
  let b := default EmptyString (head (ut_todo t)) in
  match ut_pc t with
  | AtStart => True
  | AtRollback e => ur_rollback_on_failure (ut_request t) = true ∧ ∃ at_time, st = Some (Failed e at_time b)
  | AtReturn (Ok _) => ∃ at_time, st = Some (Completed at_time (ut_completed t))
  | AtReturn (Err e) =>
      (e = Panic ∧ in_progress st)
      ∨ ∃ at_time, st = Some (if ur_rollback_on_failure (ut_request t) then RolledBack at_time (UpgradeFailed b e) else Failed e at_time b)
  | _ => in_progress st
  end.

Lemma set_status_eq id st m : um_active_upgrades (set_status id st m) !! id = Some st.
Proof. cbn. by rewrite lookup_insert_eq. Qed.
Lemma step_other now t m (w : W) t' m' w' new id :
  upgrade_step now t m w = (t', m', w', new) → id ≠ operation_id t → um_active_upgrades m' !! id = um_active_upgrades m !! id.
Proof.
  intros E Hne. assert (Hset : ∀ st, um_active_upgrades (set_status (operation_id t) st m) !! id = um_active_upgrades m !! id).
  { intros st. cbn. by rewrite lookup_insert_ne. }
  unfold upgrade_step, next_broker in E. destruct (ut_pc t); repeat case_match; simplify_eq; done.
Qed.
Lemma step_status now t m (w : W) t' m' w' new :
  status_matches t (um_active_upgrades m !! operation_id t) → upgrade_step now t m w = (t', m', w', new) →
  status_matches t' (um_active_upgrades m' !! operation_id t).
Proof.
  intros Hst E. unfold upgrade_step in E. unfold status_matches in Hst.
  destruct (ut_pc t) as [|u| |u|hs u|hs| | |e|e|r] eqn:Hpc.
  - injection E as <- <- _ _. unfold status_matches, in_progress. cbn. rewrite lookup_insert_eq. eauto.
  - destruct (now <? u); [injection E as <- <- _ _; unfold status_matches; by rewrite Hpc|].
    destruct (ut_todo t) as [|b todo].
    { injection E as <- <- _ _. unfold status_matches. cbn. rewrite lookup_insert_eq. eauto. }
    destruct Hst as (at_time & b' & done & rest & Hst). unfold next_broker in E. rewrite Hst in E.
    destruct (ut_remaining t); injection E as <- <- _ _; unfold status_matches, in_progress; cbn; [|rewrite lookup_insert_eq; eauto].
    left. split; [done|]. by eauto.
  - destruct (drain_broker _ _) as [[[?|e]|] w1]; injection E as <- <- _ _; try done. unfold status_matches. by rewrite Hpc.
  - destruct (now <? u); [injection E as <- <- _ _; unfold status_matches; by rewrite Hpc|].
    destruct (upgrade_broker _ _ _) as [[[?|e]|] w1]; injection E as <- <- _ _; try done. unfold status_matches. by rewrite Hpc.
  - destruct (now <? u); [injection E as <- <- _ _; unfold status_matches; by rewrite Hpc|].
    destruct (now - hs <? _); [destruct (health_check_broker _ _) as [[[[]|e]|] w1]|]; by injection E as <- <- _ _.
  - destruct (health_check_broker _ _) as [[[[]|e]|] w1]; by injection E as <- <- _ _.
  - destruct (health_check_broker _ _) as [[[[]|e]|] w1]; injection E as <- <- _ _; try done. unfold status_matches. by rewrite Hpc.
  - destruct (restore_broker_traffic _ _) as [[[?|e]|] w1]; injection E as <- <- _ _; try done. unfold status_matches. by rewrite Hpc.
  - injection E as <- <- _ _. unfold status_matches. cbn. rewrite lookup_insert_eq.
    destruct (ur_rollback_on_failure (ut_request t)) eqn:Hrb; cbn; rewrite ?Hrb; eauto.
  - destruct Hst as [Hrb _]. injection E as <- <- _ _. unfold status_matches. cbn. rewrite lookup_insert_eq, Hrb. eauto.
  - injection E as <- <- _ _. unfold status_matches. by rewrite Hpc.
Qed.

Definition no_manual_rollback (a : UpgradeAction W) : Prop := match a with URollbackFinish _ => False | _ => True end.
Definition ids_of s : list string := operation_id <$> us_tasks s.
Definition statuses_match s : Prop :=
  NoDup (ids_of s) → ∀ i t, us_tasks s !! i = Some t → status_matches t (um_active_upgrades (us_manager s) !! operation_id t).

Lemma act_statuses a s : no_manual_rollback a → statuses_match s → statuses_match (act a s).
Proof.
  intros Ha Hs. destruct a as [rq|i|id|i|d|f|bs]; cbn; try done.
  - destruct (start_upgrade _ _); [|done]. unfold statuses_match, ids_of. cbn. rewrite fmap_app. intros [Hnd _]%NoDup_app i t.
    intros [Hi|[_ Hi]]%lookup_app_Some; [by apply (Hs Hnd i)|]. by apply list_lookup_singleton_Some in Hi as [_ <-].
  - destruct (us_tasks s !! i) as [t|] eqn:Hi; [|done]. destruct (upgrade_step _ _ _ _) as [[[t' m'] w'] new] eqn:E.
    unfold statuses_match, ids_of. cbn. intros Hnd j tj Hj.
    assert (Hid : operation_id t' = operation_id t) by (unfold operation_id; by rewrite (step_request _ _ _ _ _ _ _ _ E)).
    rewrite list_fmap_insert, Hid, list_insert_id in Hnd by (by rewrite list_lookup_fmap, Hi).
    apply list_lookup_insert_Some in Hj as [(<- & <- & _)|[Hne Hj]].
    + rewrite Hid. eapply step_status; [|done]. by apply (Hs Hnd i).
    + rewrite (step_other _ _ _ _ _ _ _ _ _ E); [by apply (Hs Hnd j)|]. intros Heq. apply Hne.
      apply (NoDup_lookup _ i j (operation_id t)) in Hnd; [done|by rewrite list_lookup_fmap, Hi|by rewrite list_lookup_fmap, Hj, <- Heq].
  - by destruct (rollback_begin _ _).
Qed.

(** A status says how the operation went.  As long as nobody rolls back by
    hand and operation identifiers are distinct, in every interleaving an
    operation whose task runs is in progress, one that returned normally is
    completed with the brokers it upgraded, and one that failed has the failed
    broker and its error, as rolled back exactly when the request asks for
    this; only the panic of a list with duplicate brokers leaves it in
    progress. *)
Theorem status_says_outcome config brokers (w : W) now actions :
  let s := upgrade_run actions (system_new config brokers w now) in
  Forall no_manual_rollback actions → NoDup (ids_of s) →
  ∀ i t, us_tasks s !! i = Some t → status_matches t (um_active_upgrades (us_manager s) !! operation_id t).
Proof.
  intros s Ha. assert (Hs : statuses_match s); [|done]. unfold s, upgrade_run.
  assert (H0 : statuses_match (system_new config brokers w now)) by (by intros _ i t ?). revert H0.
  generalize (system_new config brokers w now). clear s.
  induction Ha as [|a l Ha _ IH]; intros s Hs; [done|]. by apply IH, act_statuses.
Qed.
End status.

(** ** Concrete upgrades *)

(** ** A broker that does not answer *)

Section hanging.
Context {W : Type} {ops : BrokerUpgradeOperations W}.

(** An upgrade waits for ever for a broker that does not answer: there is no
    timeout, and nothing that anybody does moves the task on. *)
Theorem hanging_broker_blocks (s : UpgradeSystem W) i t actions :
  (∀ b (w : W), (drain_broker b w).1 = None) → us_tasks s !! i = Some t → ut_pc t = AtDrain →
  us_tasks (upgrade_run actions s) !! i = Some t.
Proof.
  intros Hhang Hi Hpc. revert s Hi. induction actions as [|a actions IH]; intros s Hi; [done|]. apply IH.
  destruct a as [rq|j|id|j|d|f|bs]; cbn; try done.
  - destruct (start_upgrade _ _); [|done]. cbn. by apply lookup_app_l_Some.
  - destruct (us_tasks s !! j) as [tj|] eqn:Hj; [|done]. destruct (decide (j = i)) as [->|Hne]; cycle 1.
    { destruct (upgrade_step _ _ _ _) as [[[t' m'] w'] new]. cbn. by rewrite list_lookup_insert_ne. }
    rewrite Hi in Hj. injection Hj as <-. unfold upgrade_step. rewrite Hpc.
    pose proof (Hhang (default EmptyString (head (ut_todo t))) (us_world s)) as Hn.
    destruct (drain_broker _ _) as [[]]; [done|]. cbn. rewrite list_lookup_insert_eq; [done|]. by eapply lookup_lt_Some.
  - by destruct (rollback_begin _ _).
  - by destruct (us_rollbacks s !! j) as [[id [bs reason]]|].
Qed.
End hanging.

Module UpgradeDemo.
Definition broker (id : string) : BrokerLoad := mkBrokerLoad id "rack" [] Scaling.Healthy default_load.
Definition config : OperationsConfig := mkOperations true 1 0.
Definition request (id : string) : UpgradeRequest := mkUpgrade id "v2" 120 0 true.
Definition fleet (ids : list string) : UpgradeSystem MockBrokerUpgradeOperations := system_new config (broker <$> ids) mock_new 0.
Definition turns (n : nat) (i : nat) : list (UpgradeAction MockBrokerUpgradeOperations) := replicate n (UTask i).
Definition status_of (id : string) (s : UpgradeSystem MockBrokerUpgradeOperations) := um_active_upgrades (us_manager s) !! id.

Lemma mock_answers : answering (ops := mock_operations).
Proof. intros b v w. cbn. split_and!; by eexists. Qed.

Lemma every_upgrade_ends_witness :
  let s := upgrade_run [UStart (request "up"); UTask 0] (fleet ["b1"]) in
  ∃ t' r, us_tasks (upgrade_run (concat (upgrade_round 0 <$> replicate 1009 ([UBrokers []], 1))) s) !! 0%nat = Some t' ∧ ut_pc t' = AtReturn r.
Proof.
  apply (every_upgrade_ends mock_answers config [broker "b1"] mock_new 0 [UStart (request "up"); UTask 0] 0
    (mkTask (request "up") ["b1"] ["b1"] [] ["b1"] (AtBroker 0)) (replicate 1009 ([UBrokers []], 1))).
  - vm_compute. reflexivity.
  - discriminate.
  - split; cbn; lia.
  - cbn. lia.
  - apply Forall_replicate. split; [by repeat constructor|cbn; lia].
  - rewrite length_replicate. vm_compute. discriminate.
Defined.
Lemma status_says_outcome_witness :
  let s := upgrade_run (UStart (request "up") :: turns 14 0) (fleet ["b1"; "b2"]) in
  status_matches (mkTask (request "up") ["b1"; "b2"] [] ["b1"; "b2"] [] (AtReturn (Ok tt))) (status_of "up" s).
Proof.
  apply (status_says_outcome config [broker "b1"; broker "b2"] mock_new 0 (UStart (request "up") :: turns 14 0)) with (i := 0%nat).
  - by repeat constructor.
  - vm_compute. apply NoDup_singleton.
  - vm_compute. reflexivity.
Defined.
Example all_upgraded :
  let s := upgrade_run (UStart (request "up") :: turns 14 0) (fleet ["b1"; "b2"]) in
  (status_of "up" s, mo_broker_versions (us_world s) !! "b2", mo_drained_brokers (us_world s))
  = (Some (Completed 0 ["b1"; "b2"]), Some "v2", []).
Proof. vm_compute. reflexivity. Qed.
(** A roll-back by hand during an upgrade neither stops the task nor stays in
    the status. *)
Example manual_rollback_overwritten :
  let s1 := upgrade_run (UStart (request "up") :: turns 7 0 ++ [URollback "up"; URollbackFinish 0]) (fleet ["b1"; "b2"]) in
  let s2 := upgrade_run (turns 7 0) s1 in
  (status_of "up" s1, status_of "up" s2) = (Some (RolledBack 0 ManualRequested), Some (Completed 0 ["b1"; "b2"])).
Proof. vm_compute. reflexivity. Qed.
(** The second broker fails its check: the operation counts as rolled back, the
    first broker keeps the new version and the second stays drained. *)
Example rolled_back_keeps_version :
  let lose (w : MockBrokerUpgradeOperations) := mkMock (delete "b2" (mo_broker_versions w)) (mo_drained_brokers w) in
  let s := upgrade_run (UStart (request "up") :: turns 10 0 ++ UWorld lose :: turns 5 0) (fleet ["b1"; "b2"]) in
  (status_of "up" s, mo_broker_versions (us_world s) !! "b1", mo_drained_brokers (us_world s))
  = (Some (RolledBack 0 (UpgradeFailed "b2" Storage)), Some "v2", ["b2"]).
Proof. vm_compute. reflexivity. Qed.
(** Two calls with one identifier are both accepted when the second comes before
    the first task has run. *)
Example one_identifier_two_tasks :
  length (us_tasks (upgrade_run [UStart (request "up"); UStart (request "up")] (fleet ["b1"]))) = 2%nat.
Proof. vm_compute. reflexivity. Qed.
(** With a broker listed twice the task panics and its status stays. *)
Example duplicate_broker_panics :
  let s := upgrade_run (UStart (request "up") :: turns 9 0) (fleet ["b1"; "b1"]) in
  (ut_pc <$> us_tasks s, status_of "up" s) = ([AtReturn (Err Panic)], Some (InProgress 0 "b1" [] ["b1"])).
Proof. vm_compute. reflexivity. Qed.
End UpgradeDemo.
