(* ===== verification/SdkStream.v ===== *)
(** * The stream processor of the client library

    Model of [src/sdk/rust/src/stream.rs]: messages of a consumer go through a
    processor, one by one, in batches or in sliding windows, results go to a
    producer, and messages are acknowledged.  A task is its local state and a
    turn per iteration of its loop; what [receive] gives and the readings of
    the clock are arguments of the turn.  The processor and the producer are
    classes.  Every call that others can see is an entry of a log, in order.
    Times are in milliseconds. *)

From S2P Require Import Prelude Types Scaling SdkProducer.
Local Open Scope Z_scope.

Inductive StreamMode :=
  | Individual
  | BatchMode (batch_size : nat) (batch_timeout : Z)
  | Windowed (window_size slide_interval : Z).
Inductive ErrorStrategy := Skip | Retry (max_attempts backoff_ms : Z) | DeadLetter (topic : string) | Stop.
Record StreamConfig := mkStreamConfig {
  sg_input_topics : list string;
  sg_output_topic : option string;
  sg_consumer_group : string;
  sg_parallelism : Z;
  sg_processing_timeout : Z;
  sg_exactly_once : bool;
  sg_max_in_flight : nat;
  sg_error_strategy : ErrorStrategy;
  sg_mode : StreamMode;
}.
Definition default_stream_config : StreamConfig :=
  mkStreamConfig ["input"] (Some "output") "stream-processor" 1 30000 false 100 Skip Individual.

(** ** What a stream is given *)

Class MessageProcessor (P : Type) := {
  process : Message → P → CResult (option Message) * P;
  process_batch : list Message → P → CResult (list (option Message)) * P;
  on_start : P → CResult unit * P;
  on_stop : P → CResult unit * P;
}.
#[global] Hint Mode MessageProcessor ! : typeclass_instances.
(** The provided [process_batch]: one message after the other, until one fails *)
Fixpoint process_each {P} (process_one : Message → P → CResult (option Message) * P) (messages : list Message) (p : P)
  : CResult (list (option Message)) * P :=
  match messages with
  | [] => (COk [], p)
  | m :: rest =>
      match process_one m p with
      | (CErr e, p) => (CErr e, p)
      | (COk r, p) =>
          match process_each process_one rest p with
          | (CErr e, p) => (CErr e, p)
          | (COk rs, p) => (COk (r :: rs), p)
          end
      end
  end.
Inductive DefaultProcessor := mkDefaultProcessor.
Definition pass_through (m : Message) (p : DefaultProcessor) : CResult (option Message) * DefaultProcessor := (COk (Some m), p).
#[export] Instance default_processor : MessageProcessor DefaultProcessor := {
  process := pass_through;
  process_batch := process_each pass_through;
  on_start p := (COk tt, p);
  on_stop p := (COk tt, p);
}.
(** [Producer::send], of which the stream uses whether it failed *)
Class OutputProducer (S : Type) := { send : Message → S → CResult unit * S }.
#[global] Hint Mode OutputProducer ! : typeclass_instances.

(** ** Metrics *)

Record StreamMetrics := mkStreamMetrics {
  sm_messages_processed : Z;
  sm_messages_failed : Z;
  sm_messages_skipped : Z;
  sm_average_processing_time : f64;
  sm_last_processed_time : option Z;
}.
Definition metrics_default : StreamMetrics := mkStreamMetrics 0 0 0 f64_zero None.
(** [took] is the time since [start_time], in whole milliseconds. *)
Definition update_batch_success_metrics (now took : Z) (batch_size : nat) (x : StreamMetrics) : StreamMetrics :=
  let processed := u64_add (sm_messages_processed x) (Z.of_nat batch_size) in
  let count := f64_of_Z processed in
  mkStreamMetrics processed (sm_messages_failed x) (sm_messages_skipped x)
    (f64_div (f64_add (f64_mul (sm_average_processing_time x) (f64_sub count (f64_of_Z (Z.of_nat batch_size)))) (f64_of_Z took)) count)
    (Some now).
Definition update_success_metrics (now took : Z) (x : StreamMetrics) : StreamMetrics :=
  let processed := u64_add (sm_messages_processed x) 1 in
  let count := f64_of_Z processed in
  mkStreamMetrics processed (sm_messages_failed x) (sm_messages_skipped x)
    (f64_div (f64_add (f64_mul (sm_average_processing_time x) (f64_sub count (f64_of_Z 1))) (f64_of_Z took)) count) (Some now).
Definition count_failure (skipped : bool) (x : StreamMetrics) : StreamMetrics :=
  mkStreamMetrics (sm_messages_processed x) (u64_add (sm_messages_failed x) 1)
    (if skipped then u64_add (sm_messages_skipped x) 1 else sm_messages_skipped x) (sm_average_processing_time x) (sm_last_processed_time x).

(** ** What the tasks share *)

(** A message that was received, messages handed to the processor and whether
    it succeeded, a result given to the producer, and the answers to the
    consumer. *)
Inductive StreamEffect :=
  | Received (m : Message)
  | Handed (ms : list Message) (ok : bool)
  | Sent (m : Message) (ok : bool)
  | Acked (m : Message)
  | Nacked (m : Message).
Record StreamWorld (P S : Type) := mkWorld {
  wd_processor : P;
  wd_producer : option S;
  wd_metrics : StreamMetrics;
  wd_log : list StreamEffect;
}.
Arguments mkWorld {P S}. Arguments wd_processor {P S}. Arguments wd_producer {P S}. Arguments wd_metrics {P S}. Arguments wd_log {P S}.

Section stream.
Context {P : Type} {processor : MessageProcessor P} {S : Type} {producer : OutputProducer S}.
Abbreviation World := (StreamWorld P S).

Definition emit (e : StreamEffect) (w : World) : World := mkWorld (wd_processor w) (wd_producer w) (wd_metrics w) (wd_log w ++ [e]).
Definition measure (f : StreamMetrics → StreamMetrics) (w : World) : World :=
  mkWorld (wd_processor w) (wd_producer w) (f (wd_metrics w)) (wd_log w).
Definition ack (m : Message) : World → World := emit (Acked m).
Definition nack (m : Message) : World → World := emit (Nacked m).
(** [producer.send] when the stream has a producer *)
Definition send_to_output (m : Message) (w : World) : CResult unit * World :=
  match wd_producer w with
  | None => (COk tt, w)
  | Some s =>
      let '(r, s) := send m s in
      (r, emit (Sent m (match r with COk _ => true | CErr _ => false end)) (mkWorld (wd_processor w) (Some s) (wd_metrics w) (wd_log w)))
  end.
(** Failures to send results of a batch are logged only. *)
Definition send_results (results : list (option Message)) (w : World) : World :=
  foldl (λ w r, match r with Some m => (send_to_output m w).2 | None => w end) w results.
Definition hand_batch (ms : list Message) (w : World) : CResult (list (option Message)) * World :=
  let '(r, p) := process_batch ms (wd_processor w) in
  (r, emit (Handed ms (match r with COk _ => true | CErr _ => false end)) (mkWorld p (wd_producer w) (wd_metrics w) (wd_log w))).

Definition handle_processing_error (strategy : ErrorStrategy) (m : Message) (w : World) : World :=
  match strategy with
  | Skip => measure (count_failure true) (ack m w)
  | Retry _ _ => measure (count_failure false) (nack m w)
  | DeadLetter _ => measure (count_failure false) (ack m w)
  | Stop => measure (count_failure false) (nack m w)
  end.

(** The processing of a batch or of a window *)
Definition process_group (strategy : ErrorStrategy) (now took : Z) (ms : list Message) (w : World) : World :=
  match hand_batch ms w with
  | (COk results, w) =>
      measure (update_batch_success_metrics now took (length ms)) (foldl (λ w m, ack m w) (send_results results w) ms)
  | (CErr e, w) => foldl (λ w m, handle_processing_error strategy m w) w ms
  end.
(** What is left when the loop ends *)
Definition flush_group (ms : list Message) (w : World) : World :=
  match ms with
  | [] => w
  | _ => match hand_batch ms w with
         | (COk results, w) => foldl (λ w m, ack m w) (send_results results w) ms
         | (CErr e, w) => w
         end
  end.

(** ** Batches *)

(** What the timed [receive] gives *)
Inductive Incoming := GotMessage (m : Message) | ConsumerClosed | ReceiveFailed | NothingYet.
Record BatchTask := mkBatchTask { bt_batch : list Message; bt_last_batch_time : Z; bt_alive : bool }.
Definition batch_task_new (now : Z) : BatchTask := mkBatchTask [] now true.
(** Readings of an iteration: whether the stream runs, the clock when the batch
    is checked, after it was processed and how long this took *)
Record BatchTurn := mkBatchTurn { bu_running : bool; bu_now : Z; bu_done : Z; bu_took : Z; bu_incoming : Incoming }.
Definition batch_end (t : BatchTask) (w : World) : BatchTask * World :=
  (mkBatchTask [] (bt_last_batch_time t) false, flush_group (bt_batch t) w).
Definition batch_turn (strategy : ErrorStrategy) (batch_size : nat) (batch_timeout : Z) (u : BatchTurn) (t : BatchTask) (w : World)
  : BatchTask * World :=
  if negb (bt_alive t) then (t, w)
  else if negb (bu_running u) then batch_end t w
  else
    let should_process := bool_decide (batch_size ≤ length (bt_batch t))%nat
                          || ((batch_timeout <=? bu_now u - bt_last_batch_time t) && bool_decide (bt_batch t ≠ [])) in
    let '(t, w) := if should_process
                   then (mkBatchTask [] (bu_done u) true, process_group strategy (bu_done u) (bu_took u) (bt_batch t) w)
                   else (t, w) in
    match bu_incoming u with
    | GotMessage m => (mkBatchTask (bt_batch t ++ [m]) (bt_last_batch_time t) true, emit (Received m) w)
    | ConsumerClosed => batch_end t w
    | ReceiveFailed | NothingYet => (t, w)
    end.
Definition batch_run (strategy : ErrorStrategy) (batch_size : nat) (batch_timeout : Z) (us : list BatchTurn) (s : BatchTask * World)
  : BatchTask * World := foldl (λ s u, batch_turn strategy batch_size batch_timeout u s.1 s.2) s us.

(** ** Windows *)

Record Window := mkWindow { wn_start_time : Z; wn_end_time : Z; wn_messages : list Message }.
Record WindowTask := mkWindowTask { wt_windows : list Window; wt_last_slide : Z; wt_alive : bool }.
Definition window_task_new (now : Z) : WindowTask := mkWindowTask [] now true.
(** [wu_checked] is the clock when [last_slide] is looked at, [wu_at] when a
    message arrives. *)
Record WindowTurn := mkWindowTurn {
  wu_running : bool; wu_now : Z; wu_checked : Z; wu_done : Z; wu_took : Z; wu_at : Z; wu_incoming : Incoming
}.
Definition slide (window_size slide_interval : Z) (u : WindowTurn) (t : WindowTask) : WindowTask :=
  if slide_interval <=? wu_checked u - wt_last_slide t
  then mkWindowTask (wt_windows t ++ [mkWindow (wu_now u) (wu_now u + window_size) []]) (wu_now u) true
  else t.
Definition process_window (strategy : ErrorStrategy) (u : WindowTurn) (n : Window) (w : World) : World :=
  match wn_messages n with [] => w | ms => process_group strategy (wu_done u) (wu_took u) ms w end.
Fixpoint complete_windows (strategy : ErrorStrategy) (u : WindowTurn) (windows : list Window) (w : World) : list Window * World :=
  match windows with
  | [] => ([], w)
  | n :: rest =>
      if wn_end_time n <=? wu_now u then complete_windows strategy u rest (process_window strategy u n w) else (windows, w)
  end.
Definition add_to_window (at_time : Z) (m : Message) (n : Window) : Window :=
  if (wn_start_time n <=? at_time) && (at_time <? wn_end_time n)
  then mkWindow (wn_start_time n) (wn_end_time n) (wn_messages n ++ [m]) else n.
Definition window_end (t : WindowTask) (w : World) : WindowTask * World :=
  (mkWindowTask [] (wt_last_slide t) false, foldl (λ w n, flush_group (wn_messages n) w) w (wt_windows t)).
Definition window_turn (strategy : ErrorStrategy) (window_size slide_interval : Z) (u : WindowTurn) (t : WindowTask) (w : World)
  : WindowTask * World :=
  if negb (wt_alive t) then (t, w)
  else if negb (wu_running u) then window_end t w
  else
    let t := slide window_size slide_interval u t in
    let '(windows, w) := complete_windows strategy u (wt_windows t) w in
    let t := mkWindowTask windows (wt_last_slide t) true in
    match wu_incoming u with
    | GotMessage m => (mkWindowTask (add_to_window (wu_at u) m <$> windows) (wt_last_slide t) true, emit (Received m) w)
    | ConsumerClosed => window_end t w
    | ReceiveFailed | NothingYet => (t, w)
    end.

(** ** Message by message *)

(** [timed_out] says that the processing time was over first; the answer of the
    processor is dropped then. *)
Definition process_single_message (timed_out : bool) (m : Message) (w : World) : CResult unit * World :=
  let '(r, p) := process m (wd_processor w) in
  let handed ok := emit (Handed [m] ok) (mkWorld p (wd_producer w) (wd_metrics w) (wd_log w)) in
  if timed_out then (CErr CeTimeout, handed false)
  else match r with
       | CErr e => (CErr e, handed false)
       | COk None => (COk tt, handed true)
       | COk (Some out) => send_to_output out (handed true)
       end.
(** The block spawned for a message *)
Definition individual_task (strategy : ErrorStrategy) (now took : Z) (timed_out : bool) (m : Message) (w : World) : World :=
  match process_single_message timed_out m w with
  | (COk _, w) => measure (update_success_metrics now took) (ack m w)
  | (CErr e, w) => handle_processing_error strategy m w
  end.
(** The messages whose blocks have not run.  The permit of the semaphore is
    given back when the block has been spawned, so it is there for the next
    message unless there are none at all. *)
Record IndividualTask := mkIndividual { iv_in_flight : list Message; iv_waiting : option Message; iv_alive : bool }.
Definition individual_new : IndividualTask := mkIndividual [] None true.
Inductive IndividualTurn := ITake (running : bool) (i : Incoming) | IRun (i : nat) (now took : Z) (timed_out : bool).
Definition individual_turn (config : StreamConfig) (u : IndividualTurn) (t : IndividualTask) (w : World) : IndividualTask * World :=
  match u with
  | ITake running incoming =>
      match iv_waiting t with
      | Some _ => (t, w)
      | None =>
          if negb (iv_alive t) then (t, w)
          else if negb running then (mkIndividual (iv_in_flight t) None false, w)
          else match incoming with
               | GotMessage m =>
                   if bool_decide (sg_max_in_flight config = 0%nat)
                   then (mkIndividual (iv_in_flight t) (Some m) true, emit (Received m) w)
                   else (mkIndividual (iv_in_flight t ++ [m]) None true, emit (Received m) w)
               | ConsumerClosed => (mkIndividual (iv_in_flight t) None false, w)
               | ReceiveFailed | NothingYet => (t, w)
               end
      end
  | IRun i now took timed_out =>
      match iv_in_flight t !! i with
      | None => (t, w)
      | Some m => (mkIndividual (delete i (iv_in_flight t)) (iv_waiting t) (iv_alive t),
                   individual_task (sg_error_strategy config) now took timed_out m w)
      end
  end.

(** ** Starting and stopping *)

(** [start]: whether tasks were spawned, and the flag *)
Definition stream_start (is_running : bool) (p : P) : CResult unit * bool * P :=
  if is_running then (CErr CeInvalidOperation, true, p)
  else let '(r, p) := on_start p in (r, true, p).
(** [closes] are the answers of the consumers and of the producer to [close]. *)
Fixpoint close_all (closes : list (CResult unit)) : CResult unit :=
  match closes with [] => COk tt | COk _ :: rest => close_all rest | CErr e :: _ => CErr e end.
Definition stream_stop (closes : list (CResult unit)) (is_running : bool) (p : P) : CResult unit * bool * P :=
  if negb is_running then (COk tt, false, p)
  else match on_stop p with
       | (CErr e, p) => (CErr e, false, p)
       | (COk _, p) => (close_all closes, false, p)
       end.
End stream.

(** ** Reading the log *)

Definition receipts (log : list StreamEffect) : list Message := omap (λ e, match e with Received m => Some m | _ => None end) log.
Definition groups (log : list StreamEffect) : list (list Message) := omap (λ e, match e with Handed ms _ => Some ms | _ => None end) log.
Definition handed (log : list StreamEffect) : list Message := concat (groups log).
Definition answered (log : list StreamEffect) : list Message := omap (λ e, match e with Acked m | Nacked m => Some m | _ => None end) log.
Definition is_sent (e : StreamEffect) : Prop := match e with Sent _ _ => True | _ => False end.
Definition lossy (strategy : ErrorStrategy) : bool := match strategy with Skip | DeadLetter _ => true | _ => false end.
(** A message is acknowledged after the processor took it, or, with a strategy
    that gives messages up, after the processor failed on it. *)
Definition justified (strategy : ErrorStrategy) (log : list StreamEffect) : Prop :=
  ∀ l1 m l2, log = l1 ++ Acked m :: l2 → ∃ ms ok, Handed ms ok ∈ l1 ∧ m ∈ ms ∧ (ok = true ∨ lossy strategy = true).

Lemma receipts_app l1 l2 : receipts (l1 ++ l2) = receipts l1 ++ receipts l2.
Proof. apply omap_app. Qed.
Lemma groups_app l1 l2 : groups (l1 ++ l2) = groups l1 ++ groups l2.
Proof. apply omap_app. Qed.
Lemma handed_app l1 l2 : handed (l1 ++ l2) = handed l1 ++ handed l2.
Proof. unfold handed. by rewrite groups_app, concat_app. Qed.
Lemma answered_app l1 l2 : answered (l1 ++ l2) = answered l1 ++ answered l2.
Proof. apply omap_app. Qed.
Lemma sent_silent l : Forall is_sent l → receipts l = [] ∧ groups l = [] ∧ answered l = [].
Proof. induction 1 as [|[] l He _ IH]; done. Qed.
Lemma answers_silent (f : Message → StreamEffect) ms :
  (∀ m, f m = Acked m ∨ f m = Nacked m) → receipts (f <$> ms) = [] ∧ groups (f <$> ms) = [] ∧ answered (f <$> ms) = ms.
Proof.
  intros Hf. induction ms as [|m ms (IH1 & IH2 & IH3)]; [done|]. rewrite fmap_cons.
  unfold receipts, groups, answered in *. cbn. destruct (Hf m) as [-> | ->]; by rewrite IH1, IH2, IH3.
Qed.

Lemma justified_nil strategy : justified strategy [].
Proof. intros l1 m l2 E. by destruct l1. Qed.
Lemma justified_snoc strategy log e :
  justified strategy log →
  (∀ m, e = Acked m → ∃ ms ok, Handed ms ok ∈ log ∧ m ∈ ms ∧ (ok = true ∨ lossy strategy = true)) → justified strategy (log ++ [e]).
Proof.
  intros Hj He l1 m l2. destruct l2 as [|x l2 _] using rev_ind.
  - intros [-> [= ->]]%app_inj_tail. by apply He.
  - rewrite app_comm_cons, app_assoc. intros [-> _]%app_inj_tail. by eapply Hj.
Qed.
Lemma justified_app strategy log l :
  justified strategy log →
  (∀ m, Acked m ∈ l → ∃ ms ok, Handed ms ok ∈ log ∧ m ∈ ms ∧ (ok = true ∨ lossy strategy = true)) → justified strategy (log ++ l).
Proof.
  intros Hj. induction l as [|e l IH] using rev_ind; intros Hl; [by rewrite app_nil_r|]. rewrite app_assoc.
  apply justified_snoc; [apply IH; intros m Hm; apply Hl, elem_of_app; by left|].
  intros m ->. destruct (Hl m) as (ms & ok & H1 & H2); [apply elem_of_app; right; by left|]. exists ms, ok. split; [apply elem_of_app; by left|done].
Qed.

Section groups.
Context {P : Type} {processor : MessageProcessor P} {S : Type} {producer : OutputProducer S}.
Implicit Types (w : StreamWorld P S).

Lemma send_results_log results w : ∃ sent, wd_log (send_results results w) = wd_log w ++ sent ∧ Forall is_sent sent.
Proof.
  unfold send_results. revert w. induction results as [|[m|] rs IH]; intros w; cbn; [exists []; by rewrite app_nil_r| |by apply IH].
  destruct (IH (send_to_output m w).2) as (sent & -> & Hs). unfold send_to_output.
  destruct (wd_producer w) as [s|]; [|by exists sent]. destruct (send m s) as [r s']. cbn. rewrite <- app_assoc. eexists. split; [done|].
  by constructor.
Qed.
Lemma ack_all_log ms w : wd_log (foldl (λ w m, ack m w) w ms) = wd_log w ++ (Acked <$> ms).
Proof. revert w. induction ms as [|m ms IH]; intros w; [by rewrite app_nil_r|]. cbn. rewrite IH. cbn. by rewrite <- app_assoc. Qed.
Definition failed_answer (strategy : ErrorStrategy) (m : Message) : StreamEffect := if lossy strategy then Acked m else Nacked m.
Lemma handle_log strategy m w : wd_log (handle_processing_error strategy m w) = wd_log w ++ [failed_answer strategy m].
Proof. by destruct strategy. Qed.
Lemma handle_all_log strategy ms w :
  wd_log (foldl (λ w m, handle_processing_error strategy m w) w ms) = wd_log w ++ (failed_answer strategy <$> ms).
Proof.
  revert w. induction ms as [|m ms IH]; intros w; [by rewrite app_nil_r|]. cbn [foldl]. rewrite IH, handle_log, fmap_cons.
  by rewrite <- app_assoc.
Qed.
Definition group_answer (strategy : ErrorStrategy) (ok : bool) (m : Message) : StreamEffect := if ok then Acked m else failed_answer strategy m.
Lemma process_group_log strategy now took ms w :
  ∃ ok sent, wd_log (process_group strategy now took ms w) = wd_log w ++ Handed ms ok :: sent ++ (group_answer strategy ok <$> ms) ∧ Forall is_sent sent.
Proof.
  unfold process_group, hand_batch. destruct (process_batch ms (wd_processor w)) as [[results|e] p].
  - match goal with |- context [send_results results ?w1] => destruct (send_results_log results w1) as (sent & Hl & Hs) end.
    exists true, sent. split; [|done]. cbn [measure wd_log]. rewrite ack_all_log, Hl. cbn. by rewrite <- !app_assoc.
  - exists false, []. split; [|done]. rewrite handle_all_log. cbn. by rewrite <- app_assoc.
Qed.
Lemma flush_group_log ms w :
  ms ≠ [] → ∃ ok sent, wd_log (flush_group ms w) = wd_log w ++ Handed ms ok :: sent ++ (if ok : bool then Acked <$> ms else []) ∧ Forall is_sent sent.
Proof.
  intros Hms. unfold flush_group, hand_batch. destruct ms as [|m ms]; [done|].
  destruct (process_batch (m :: ms) (wd_processor w)) as [[results|e] p].
  - match goal with |- context [send_results results ?w1] => destruct (send_results_log results w1) as (sent & Hl & Hs) end.
    exists true, sent. split; [|done]. rewrite ack_all_log, Hl. cbn. by rewrite <- !app_assoc.
  - exists false, []. by split.
Qed.

(** What a processed group adds to the readings of the log *)
Lemma process_group_reads strategy now took ms w (log' := wd_log (process_group strategy now took ms w)) :
  receipts log' = receipts (wd_log w) ∧ groups log' = groups (wd_log w) ++ [ms] ∧ answered log' = answered (wd_log w) ++ ms
  ∧ (justified strategy (wd_log w) → justified strategy log').
Proof.
  unfold log'. destruct (process_group_log strategy now took ms w) as (ok & sent & -> & Hs).
  destruct (sent_silent _ Hs) as (S1 & S2 & S3).
  destruct (answers_silent (group_answer strategy ok) ms) as (A1 & A2 & A3).
  { intros m. unfold group_answer, failed_answer. destruct ok, (lossy strategy); auto. }
  rewrite (cons_middle (Handed ms ok)). rewrite !receipts_app, !groups_app, !answered_app, S1, S2, S3, A1, A2, A3, !app_nil_r. split_and!; [done..|].
  intros Hj. rewrite !app_assoc. apply justified_app.
  - apply justified_app; [by apply justified_snoc|]. intros m Hm. rewrite Forall_forall in Hs. by apply Hs in Hm.
  - intros m (m' & Hm & Hin)%list_elem_of_fmap. exists ms, ok. unfold group_answer, failed_answer in Hm.
    split; [apply elem_of_app; left; apply elem_of_app; right; by left|].
    destruct ok; [injection Hm as ->; auto|]. destruct (lossy strategy); [injection Hm as ->; auto|done].
Qed.
Lemma flush_group_reads strategy ms w (log' := wd_log (flush_group ms w)) :
  receipts log' = receipts (wd_log w) ∧ handed log' = handed (wd_log w) ++ ms
  ∧ (groups log' = groups (wd_log w) ∨ groups log' = groups (wd_log w) ++ [ms])
  ∧ (answered log' = answered (wd_log w) ∨ answered log' = answered (wd_log w) ++ ms)
  ∧ (justified strategy (wd_log w) → justified strategy log').
Proof.
  unfold log'. destruct (decide (ms = [])) as [->|Hms]; [cbn; rewrite app_nil_r; auto 10|].
  destruct (flush_group_log ms w Hms) as (ok & sent & -> & Hs). destruct (sent_silent _ Hs) as (S1 & S2 & S3).
  destruct (answers_silent Acked ms) as (A1 & A2 & A3); [auto|].
  assert (H : receipts (if ok then Acked <$> ms else []) = [] ∧ groups (if ok then Acked <$> ms else []) = []
    ∧ answered (if ok then Acked <$> ms else []) = if ok then ms else []) by (by destruct ok).
  destruct H as (H1 & H2 & H3). unfold handed. rewrite (cons_middle (Handed ms ok)).
  rewrite !receipts_app, !groups_app, !answered_app, S1, S2, S3, H1, H2, H3, !app_nil_r, concat_app. cbn. rewrite app_nil_r.
  split_and!; [done|done|by right|destruct ok; [by right|left; by rewrite app_nil_r]|].
  intros Hj. rewrite (cons_middle (Handed ms ok)), !app_assoc. apply justified_app.
  - apply justified_app; [by apply justified_snoc|]. intros m Hm. rewrite Forall_forall in Hs. by apply Hs in Hm.
  - destruct ok; [|by intros m ?%elem_of_nil]. intros m (m' & [= ->] & Hin)%list_elem_of_fmap. exists ms, true.
    split; [apply elem_of_app; left; apply elem_of_app; right; by left|auto].
Qed.

(** *** Batches *)

Record batch_ok (strategy : ErrorStrategy) (batch_size : nat) (t : BatchTask) w : Prop := {
  bo_alive : bt_alive t = true → answered (wd_log w) = handed (wd_log w) ∧ handed (wd_log w) ++ bt_batch t = receipts (wd_log w)
    ∧ (length (bt_batch t) ≤ Nat.max 1 batch_size)%nat;
  bo_ended : bt_alive t = false → bt_batch t = [] ∧ handed (wd_log w) = receipts (wd_log w) ∧ answered (wd_log w) `prefix_of` handed (wd_log w);
  bo_sizes : Forall (λ ms, (length ms ≤ Nat.max 1 batch_size)%nat) (groups (wd_log w));
  bo_justified : justified strategy (wd_log w);
}.

Lemma batch_end_ok strategy batch_size t w :
  bt_alive t = true → batch_ok strategy batch_size t w → batch_ok strategy batch_size (batch_end t w).1 (batch_end t w).2.
Proof.
  intros Ha [H1 _ H3 H4]. destruct (H1 Ha) as (Hans & Hrec & Hlen).
  destruct (flush_group_reads strategy (bt_batch t) w) as (R1 & R2 & R3 & R4 & R5). unfold batch_end. split; cbn.
  - done.
  - intros _. split; [done|]. rewrite R1, R2, <- Hrec, <- Hans. split; [done|]. destruct R4 as [-> | ->]; [by apply prefix_app_r|done].
  - destruct R3 as [-> | ->]; [done|]. apply Forall_app. by split; [|constructor].
  - by apply R5.
Qed.
Lemma batch_turn_ok strategy batch_size timeout u t w :
  batch_ok strategy batch_size t w →
  batch_ok strategy batch_size (batch_turn strategy batch_size timeout u t w).1 (batch_turn strategy batch_size timeout u t w).2.
Proof.
  intros Hok. unfold batch_turn. destruct (bt_alive t) eqn:Ha; cbn [negb]; [|done].
  destruct (bu_running u); cbn [negb]; [|by apply batch_end_ok].
  set (should := _ || _).
  assert (Hmid : ∀ t1 w1, (if should then (mkBatchTask [] (bu_done u) true, process_group strategy (bu_done u) (bu_took u) (bt_batch t) w) else (t, w)) = (t1, w1) →
    bt_alive t1 = true ∧ batch_ok strategy batch_size t1 w1 ∧ (length (bt_batch t1) < Nat.max 1 batch_size)%nat).
  { intros t1 w1 E. destruct Hok as [H1 H2 H3 H4]. destruct (H1 Ha) as (Hans & Hrec & Hlen). destruct should eqn:Hs; injection E as <- <-.
    - destruct (process_group_reads strategy (bu_done u) (bu_took u) (bt_batch t) w) as (R1 & R2 & R3 & R4). split_and!; [done| |cbn; lia].
      split; cbn; [|done| |by apply R4].
      + intros _. unfold handed. rewrite R1, R2, R3, concat_app, Hans. cbn. rewrite !app_nil_r. split_and!; [done|done|lia].
      + rewrite R2. apply Forall_app. by split; [|constructor].
    - apply orb_false_iff in Hs as [Hs _]. apply bool_decide_eq_false in Hs. split_and!; [done|done|lia]. }
  destruct (if should then _ else _) as [t1 w1]. destruct (Hmid _ _ eq_refl) as (Ha1 & Hok1 & Hlt). clear Hmid.
  destruct (bu_incoming u) as [m| | |]; try done; [|by apply batch_end_ok]. destruct Hok1 as [H1 _ H3 H4]. destruct (H1 Ha1) as (Hans & Hrec & _).
  split; cbn [emit wd_log fst snd bt_alive bt_batch]; [|done| |].
  - intros _. rewrite receipts_app, handed_app, answered_app, length_app. cbn. rewrite !app_nil_r, app_assoc, Hrec. split_and!; [done|done|lia].
  - rewrite groups_app. cbn. by rewrite app_nil_r.
  - by apply justified_snoc.
Qed.

(** C37: Batches keep every message, in order.  Whatever the processor and the
    producer answer, and however messages arrive, time passes and the stream is
    stopped: the messages given to the processor and those in the batch are the
    messages received, in order and each once, in groups of at most the batch
    size (of one, if that is 0); while the task runs every message that was given
    to the processor has its one answer, in order; when it has ended all messages
    were given to the processor, and those that were answered are, in order and
    each once, a prefix of them (a last batch that fails is not answered).  A message is acknowledged only after the processor succeeded on
    its batch, unless the strategy is to give failed messages up. *)
Theorem batches_keep_messages strategy batch_size timeout now (p : P) (output : option S) us :
  let '(t, w) := batch_run strategy batch_size timeout us (batch_task_new now, mkWorld p output metrics_default []) in
  handed (wd_log w) ++ bt_batch t = receipts (wd_log w)
  ∧ (if bt_alive t then answered (wd_log w) = handed (wd_log w) else bt_batch t = [] ∧ answered (wd_log w) `prefix_of` handed (wd_log w))
  ∧ Forall (λ ms, (length ms ≤ Nat.max 1 batch_size)%nat) (groups (wd_log w))
  ∧ justified strategy (wd_log w).
Proof.
  assert (H : ∀ s, batch_ok strategy batch_size s.1 s.2 →
    batch_ok strategy batch_size (batch_run strategy batch_size timeout us s).1 (batch_run strategy batch_size timeout us s).2).
  { induction us as [|u us IH]; intros s Hs; [done|]. apply IH. by apply batch_turn_ok. }
  destruct (batch_run _ _ _ _ _) as [t w] eqn:E.
  specialize (H (batch_task_new now, mkWorld p output metrics_default [])). rewrite E in H.
  destruct H as [H1 H2 H3 H4]; [split; cbn; [by intros _; split_and!; [done|done|lia]|done|constructor|apply justified_nil]|]. cbn in *.
  destruct (bt_alive t).
  - destruct (H1 eq_refl) as (? & ? & _). by split_and!.
  - destruct (H2 eq_refl) as (Hb & ? & ?). rewrite Hb, app_nil_r. by split_and!.
Qed.
End groups.

(** *** Windows *)

Section windows.
Context {P : Type} {processor : MessageProcessor P} {S : Type} {producer : OutputProducer S}.
Context (strategy : ErrorStrategy) (window_size slide_interval : Z).
Implicit Types (w : StreamWorld P S) (t : WindowTask) (u : WindowTurn).

(** The messages that arrived from [a] on and before [b] *)
Definition arrived (a b : Z) (arrivals : list (Z * Message)) : list Message := (filter (λ x, a ≤ x.1 < b) arrivals).*2.
#[local] Arguments arrived : simpl never.
(** A run with the arrivals it has seen *)
Definition arrival t u : list (Z * Message) :=
  if wt_alive t && wu_running u then match wu_incoming u with GotMessage m => [(wu_at u, m)] | _ => [] end else [].
Definition window_step u (s : WindowTask * StreamWorld P S * list (Z * Message)) : WindowTask * StreamWorld P S * list (Z * Message) :=
  (window_turn strategy window_size slide_interval u s.1.1 s.1.2, s.2 ++ arrival s.1.1 u).
Definition window_run (us : list WindowTurn) s := foldl (λ s u, window_step u s) s us.
(** The clock does not run backwards, from [c] on, and moves between a message
    and the next iteration; a message comes at most [delay] after its iteration
    began. *)
Fixpoint on_time (delay c : Z) (us : list WindowTurn) : Prop :=
  match us with
  | [] => True
  | u :: us => c < wu_now u ≤ wu_checked u ∧ wu_checked u ≤ wu_at u ≤ wu_now u + delay ∧ on_time delay (wu_at u) us
  end.
Definition clock (c : Z) (us : list WindowTurn) : Z := foldl (λ _ u, wu_at u) c us.

Lemma arrived_app a b l1 l2 : arrived a b (l1 ++ l2) = arrived a b l1 ++ arrived a b l2.
Proof. unfold arrived. by rewrite filter_app, fmap_app. Qed.
Lemma arrived_late a b l : Forall (λ x, b ≤ x.1) l → arrived a b l = [].
Proof.
  induction 1 as [|x l Hx _ IH]; [done|]. unfold arrived in *. rewrite filter_cons. case_decide; [lia|done].
Qed.
Lemma arrived_early a b l : Forall (λ x, x.1 < a) l → arrived a b l = [].
Proof.
  induction 1 as [|x l Hx _ IH]; [done|]. unfold arrived in *. rewrite filter_cons. case_decide; [lia|done].
Qed.

(** Completed windows leave from the front, and their messages are processed. *)
Lemma complete_windows_split u windows w :
  ∃ popped, windows = popped ++ (complete_windows strategy u windows w).1 ∧ Forall (λ n, wn_end_time n ≤ wu_now u) popped
    ∧ ∀ g, g ∈ groups (wd_log (complete_windows strategy u windows w).2) → g ∈ groups (wd_log w) ∨ g ∈ wn_messages <$> popped.
Proof.
  revert w. induction windows as [|n rest IH]; intros w; cbn; [exists []; auto|].
  destruct (wn_end_time n <=? wu_now u) eqn:He; [|exists []; auto].
  destruct (IH (process_window strategy u n w)) as (popped & E & Hp & Hg). exists (n :: popped). cbn. rewrite <- E. split_and!; [done|constructor; [lia|done]|].
  intros g [H|H]%Hg; [|right; by right]. unfold process_window in H. destruct (wn_messages n) as [|m ms] eqn:Hm; [by left|].
  destruct (process_group_reads strategy (wu_done u) (wu_took u) (m :: ms) w) as (_ & R & _). rewrite R in H.
  apply elem_of_app in H as [H| ->%list_elem_of_singleton]; [by left|right; by left].
Qed.
Lemma flush_windows_groups (l : list Window) w g :
  g ∈ groups (wd_log (foldl (λ w n, flush_group (wn_messages n) w) w l)) → g ∈ groups (wd_log w) ∨ g ∈ wn_messages <$> l.
Proof.
  revert w. induction l as [|n l IH]; intros w; cbn; [auto|].
  intros [H|H]%IH; [|right; by right]. destruct (flush_group_reads Skip (wn_messages n) w) as (_ & _ & [R|R] & _); rewrite R in H; [by left|].
  apply elem_of_app in H as [H| ->%list_elem_of_singleton]; [by left|right; by left].
Qed.

(** Every window holds the messages of its time, and so did those that were
    processed. *)
Record windows_ok (c : Z) (s : WindowTask * StreamWorld P S * list (Z * Message)) : Prop := {
  wo_past : Forall (λ x, x.1 ≤ c) s.2;
  wo_windows n : n ∈ wt_windows s.1.1 →
    wn_end_time n = wn_start_time n + window_size ∧ wn_start_time n ≤ c ∧ wn_messages n = arrived (wn_start_time n) (wn_end_time n) s.2;
  wo_groups g : g ∈ groups (wd_log s.1.2) → ∃ a, (wt_alive s.1.1 = true → a + window_size ≤ c) ∧ g = arrived a (a + window_size) s.2;
}.
Lemma slide_ok c u t w arrivals n :
  c < wu_now u → windows_ok c (t, w, arrivals) → n ∈ wt_windows (slide window_size slide_interval u t) →
  wn_end_time n = wn_start_time n + window_size ∧ wn_start_time n ≤ wu_now u ∧ wn_messages n = arrived (wn_start_time n) (wn_end_time n) arrivals.
Proof.
  intros Hc [H1 H2 _] Hn. cbn in *. unfold slide in Hn. destruct (_ <=? _).
  - apply elem_of_app in Hn as [Hn| ->%list_elem_of_singleton]; [apply H2 in Hn as (? & ? & ?); split_and!; [done|lia|done]|].
    cbn. split_and!; [done|lia|]. rewrite arrived_early; [done|]. eapply Forall_impl; [done|]. cbn. lia.
  - apply H2 in Hn as (? & ? & ?). split_and!; [done|lia|done].
Qed.
Lemma add_to_window_ok at_time m n arrivals :
  wn_messages n = arrived (wn_start_time n) (wn_end_time n) arrivals →
  wn_start_time (add_to_window at_time m n) = wn_start_time n ∧ wn_end_time (add_to_window at_time m n) = wn_end_time n
  ∧ wn_messages (add_to_window at_time m n) = arrived (wn_start_time n) (wn_end_time n) (arrivals ++ [(at_time, m)]).
Proof.
  intros Hm. unfold add_to_window. rewrite arrived_app, <- Hm. unfold arrived. rewrite filter_cons, filter_nil. cbn [fst].
  destruct ((_ <=? _) && _) eqn:E; case_decide; cbn; rewrite ?app_nil_r; try done; lia.
Qed.
Lemma window_step_ok c u s :
  c < wu_now u ≤ wu_checked u → wu_checked u ≤ wu_at u → windows_ok c s → windows_ok (wu_at u) (window_step u s).
Proof.
  destruct s as [[t w] arrivals]. intros Hc Hat Hok. unfold window_step, arrival, window_turn. cbn [fst snd].
  pose proof Hok as [H1 H2 H3]. cbn in H1, H2, H3.
  assert (Hpast : Forall (λ x, x.1 ≤ wu_at u) arrivals) by (eapply Forall_impl; [done|]; cbn; lia).
  destruct (wt_alive t) eqn:Ha; cbn [negb andb]; [|].
  2:{ rewrite app_nil_r. split; cbn; [done| |]; intros x Hx; [apply H2 in Hx as (?&?&?); split_and!; [done|lia|done]|].
      apply H3 in Hx as (a & _ & Hg). exists a. split; [by rewrite Ha|done]. }
  destruct (wu_running u); cbn [negb].
  2:{ rewrite app_nil_r. split; cbn; [done|by intros n ?%elem_of_nil|]. intros g [Hg|Hg]%flush_windows_groups.
      - apply H3 in Hg as (a & _ & Hg). by exists a.
      - apply list_elem_of_fmap in Hg as (n & -> & Hn). apply H2 in Hn as (He & _ & Hm). exists (wn_start_time n). by rewrite <- He. }
  pose proof (λ n, slide_ok c u t w arrivals n (proj1 Hc) Hok) as Hsl.
  destruct (complete_windows_split u (wt_windows (slide window_size slide_interval u t)) w) as (popped & E & Hp & Hg).
  destruct (complete_windows strategy u _ w) as [rest w1]. cbn [fst snd] in E, Hg.
  assert (Hrest : ∀ n, n ∈ rest → wn_end_time n = wn_start_time n + window_size ∧ wn_start_time n ≤ wu_now u
    ∧ wn_messages n = arrived (wn_start_time n) (wn_end_time n) arrivals) by (intros n Hn; apply Hsl; rewrite E; set_solver).
  assert (Hgr : ∀ g, g ∈ groups (wd_log w1) → ∃ a, a + window_size ≤ wu_now u ∧ g = arrived a (a + window_size) arrivals).
  { intros g [Hin|Hin]%Hg; [apply H3 in Hin as (a & Hle & ->); exists a; split; [specialize (Hle eq_refl); lia|done]|].
    apply list_elem_of_fmap in Hin as (n & -> & Hn). destruct (Hsl n) as (He & _ & Hm); [rewrite E; set_solver|].
    rewrite Forall_forall in Hp. apply Hp in Hn. exists (wn_start_time n). rewrite <- He. by split. }
  destruct (wu_incoming u) as [m| | |]; cbn [fst snd].
  - split; cbn.
    + apply Forall_app. by split; [|constructor].
    + intros n (n' & -> & Hn)%list_elem_of_fmap. apply Hrest in Hn as (He & Hs & Hm). destruct (add_to_window_ok (wu_at u) m n' _ Hm) as (-> & -> & ->).
      split_and!; [done|lia|done].
    + intros g Hin. rewrite groups_app in Hin. cbn in Hin. rewrite app_nil_r in Hin. apply Hgr in Hin as (a & Hle & ->).
      exists a. split; [lia|]. rewrite arrived_app, (arrived_late a (a + window_size) [_]), app_nil_r; [done|]. constructor; [cbn; lia|done].
  - rewrite app_nil_r. split; cbn; [done|by intros n ?%elem_of_nil|]. intros g [Hin|Hin]%flush_windows_groups; cbn in Hin.
    + apply Hgr in Hin as (a & _ & ->). by exists a.
    + apply list_elem_of_fmap in Hin as (n & -> & Hn). apply Hrest in Hn as (He & _ & Hm). exists (wn_start_time n). by rewrite <- He.
  - rewrite app_nil_r. split; cbn; [done| |]; intros x Hx.
    + apply Hrest in Hx as (?&?&?). split_and!; [done|lia|done].
    + apply Hgr in Hx as (a & ? & ?). exists a. split; [lia|done].
  - rewrite app_nil_r. split; cbn; [done| |]; intros x Hx.
    + apply Hrest in Hx as (?&?&?). split_and!; [done|lia|done].
    + apply Hgr in Hx as (a & ? & ?). exists a. split; [lia|done].
Qed.
Lemma window_run_ok delay c us s : on_time delay c us → windows_ok c s → windows_ok (clock c us) (window_run us s).
Proof.
  revert c s. induction us as [|u us IH]; intros c s; [done|]. cbn. intros (H1 & H2 & H3) Hs. apply IH; [done|].
  apply (window_step_ok c); [done|lia|done].
Qed.

(** The newest window began at the last slide and is still open. *)
Definition latest_ok (c : Z) t : Prop :=
  wt_last_slide t ≤ c ∧
  (wt_windows t = [] ∨ ∃ ws n, wt_windows t = ws ++ [n] ∧ wn_start_time n = wt_last_slide t ∧ wn_end_time n = wt_last_slide t + window_size).
(** A turn up to where it receives *)
Definition windows_before_receive u t w : list Window := (complete_windows strategy u (wt_windows (slide window_size slide_interval u t)) w).1.
Lemma newest_window_kept delay c u t w :
  0 < slide_interval → slide_interval + delay ≤ window_size → c < wu_now u ≤ wu_checked u → wu_checked u ≤ wu_at u ≤ wu_now u + delay →
  latest_ok c t → let t' := slide window_size slide_interval u t in
  wt_last_slide t' ≤ wu_now u ∧ wu_at u < wt_last_slide t' + window_size ∧
  ((windows_before_receive u t w = [] ∧ wt_windows t = []) ∨
   ∃ ws n, windows_before_receive u t w = ws ++ [n] ∧ wn_start_time n = wt_last_slide t' ∧ wn_end_time n = wt_last_slide t' + window_size).
Proof.
  intros Hs Hd Hc Hat [Hl Hw] t'.
  assert (Ht' : wt_last_slide t' ≤ wu_now u ∧ wu_at u < wt_last_slide t' + window_size ∧ ((wt_windows t' = [] ∧ wt_windows t = []) ∨
    ∃ ws n, wt_windows t' = ws ++ [n] ∧ wn_start_time n = wt_last_slide t' ∧ wn_end_time n = wt_last_slide t' + window_size)).
  { unfold t', slide. destruct (slide_interval <=? _) eqn:E; cbn.
    - split_and!; [lia|lia|]. right. by exists (wt_windows t), (mkWindow (wu_now u) (wu_now u + window_size) []).
    - split_and!; [lia|lia|]. destruct Hw as [Hw|Hw]; [by left|by right]. }
  destruct Ht' as (H1 & H2 & H3). split_and!; [done|done|]. unfold windows_before_receive.
  destruct (complete_windows_split u (wt_windows (slide window_size slide_interval u t)) w) as (popped & E & Hp & _).
  fold t' in E. destruct H3 as [[H3 H4]|(ws & n & H3 & H4 & H5)].
  - left. split; [|done]. fold t'. by rewrite H3.
  - right. fold t'. destruct (complete_windows strategy u (wt_windows t') w).1 as [|x l _] using rev_ind.
    + rewrite app_nil_r in E. rewrite Forall_forall in Hp. exfalso.
      assert (Hn : n ∈ popped) by (rewrite <- E, H3; set_solver). apply Hp in Hn. lia.
    + rewrite H3, app_assoc in E. apply app_inj_tail in E as [_ <-]. by exists l, n.
Qed.
Lemma latest_step delay c u t w :
  0 < slide_interval → slide_interval + delay ≤ window_size → c < wu_now u ≤ wu_checked u → wu_checked u ≤ wu_at u ≤ wu_now u + delay →
  latest_ok c t → latest_ok (wu_at u) (window_turn strategy window_size slide_interval u t w).1.
Proof.
  intros Hs Hd Hc Hat Hok. destruct (newest_window_kept delay c u t w Hs Hd Hc Hat Hok) as (H1 & H2 & H3). unfold windows_before_receive in H3.
  unfold window_turn. destruct Hok as [Hl Hw].
  destruct (wt_alive t); cbn [negb]; [|split; [cbn; lia|done]]. destruct (wu_running u); cbn [negb]; [|split; [cbn; lia|by left]].
  destruct (complete_windows _ _ _ _) as [rest w1]. cbn [fst] in H3.
  destruct (wu_incoming u) as [m| | |]; cbn [fst]; (split; [cbn; lia|]); cbn; try (by left); destruct H3 as [[-> _]|(ws & n & -> & H4 & H5)]; try (by left);
    right; [|by exists ws, n..].
  exists (add_to_window (wu_at u) m <$> ws), (add_to_window (wu_at u) m n). rewrite fmap_app. split_and!; [done|..]; unfold add_to_window; by destruct (_ && _).
Qed.
Lemma latest_run delay c us s :
  0 < slide_interval → slide_interval + delay ≤ window_size → on_time delay c us → latest_ok c s.1.1 → latest_ok (clock c us) (window_run us s).1.1.
Proof.
  intros Hs Hd. revert c s. induction us as [|u us IH]; intros c s; [done|]. cbn. intros (H1 & H2 & H3) Hok. apply IH; [done|]. by eapply latest_step.
Qed.

Definition window_start (now : Z) (p : P) (output : option S) : WindowTask * StreamWorld P S * list (Z * Message) :=
  (window_task_new now, mkWorld p output metrics_default [], []).

(** A window holds the messages of its time.  Whatever the processor and
    the producer answer, every group the processor is given consists of all
    messages that arrived within one stretch of the length of a window, in
    order; and when the delay between an iteration and its message is at most
    the window's length minus the slide interval, every message that arrives
    once there is a window is in one. *)
Theorem windows_hold_their_messages delay now (p : P) (output : option S) us :
  on_time delay now us →
  let '(t, w, arrivals) := window_run us (window_start now p output) in
  (∀ g, g ∈ groups (wd_log w) → ∃ a, g = arrived a (a + window_size) arrivals)
  ∧ (∀ u m, 0 < slide_interval → slide_interval + delay ≤ window_size → on_time delay (clock now us) [u] →
      wt_alive t = true → wt_windows t ≠ [] → wu_running u = true → wu_incoming u = GotMessage m →
      ∃ n, n ∈ wt_windows (window_turn strategy window_size slide_interval u t w).1
        ∧ wn_start_time n ≤ wu_at u < wn_end_time n ∧ m ∈ wn_messages n).
Proof.
  intros Hus. assert (Hok : windows_ok now (window_start now p output)).
  { split; cbn; [done|by intros n ?%elem_of_nil|by intros g ?%elem_of_nil]. }
  pose proof (window_run_ok delay now us _ Hus Hok) as [_ _ Hg].
  pose proof (latest_run delay now us (window_start now p output)) as Hlatest.
  destruct (window_run us (window_start now p output)) as [[t w] arrivals]. cbn in Hg, Hlatest. split.
  - intros g (a & _ & ->)%Hg. by exists a.
  - intros u m Hs Hd (Hc & Hat & _) Ha Hne Hrun Hin.
    assert (Hl : latest_ok (clock now us) t) by (apply Hlatest; [done..|]; cbn; split; [cbn; lia|by left]).
    destruct (newest_window_kept delay _ u t w Hs Hd Hc Hat Hl) as (H1 & H2 & [[_ ?]|(ws & n & H3 & H4 & H5)]); [done|].
    unfold windows_before_receive in H3. unfold window_turn. rewrite Ha, Hrun, Hin. cbn [negb].
    destruct (complete_windows _ _ _ _) as [rest w1]. cbn in H3. subst rest. cbn. exists (add_to_window (wu_at u) m n).
    split; [rewrite fmap_app; apply elem_of_app; right; by left|].
    unfold add_to_window. rewrite (proj2 (Z.leb_le _ _)), (proj2 (Z.ltb_lt _ _)) by lia. cbn. split; [lia|]. apply elem_of_app; right; by left.
Qed.
End windows.

(** *** Message by message *)

Section individual.
Context {P : Type} {processor : MessageProcessor P} {S : Type} {producer : OutputProducer S}.
Context (config : StreamConfig).
Implicit Types (w : StreamWorld P S) (t : IndividualTask).

Lemma send_to_output_log m w : ∃ sent, wd_log (send_to_output m w).2 = wd_log w ++ sent ∧ Forall is_sent sent.
Proof.
  unfold send_to_output. destruct (wd_producer w) as [s|]; [|exists []; by rewrite app_nil_r]. destruct (send m s) as [r s'].
  eexists [_]. split; [done|]. by constructor.
Qed.
Lemma process_single_log timed_out m w :
  ∃ ok sent, wd_log (process_single_message timed_out m w).2 = wd_log w ++ Handed [m] ok :: sent ∧ Forall is_sent sent
    ∧ ((process_single_message timed_out m w).1 = COk tt → ok = true).
Proof.
  unfold process_single_message. destruct (process m (wd_processor w)) as [r p]. destruct timed_out; [by exists false, []|].
  destruct r as [[out|]|e]; [|by exists true, []|by exists false, []].
  match goal with |- context [send_to_output out ?w1] => destruct (send_to_output_log out w1) as (sent & -> & Hs) end.
  exists true, sent. split_and!; [cbn; by rewrite <- app_assoc|done|done].
Qed.
(** A message is given to the processor once and then has one answer. *)
Lemma individual_task_reads strategy now took timed_out m w (log' := wd_log (individual_task strategy now took timed_out m w)) :
  receipts log' = receipts (wd_log w) ∧ handed log' = handed (wd_log w) ++ [m] ∧ answered log' = answered (wd_log w) ++ [m]
  ∧ (justified strategy (wd_log w) → justified strategy log').
Proof.
  unfold log', individual_task. destruct (process_single_log timed_out m w) as (ok & sent & Hlog & Hs & Hok).
  destruct (process_single_message timed_out m w) as [r w1]. cbn [fst snd] in *.
  set (ans := match r with COk _ => Acked m | CErr _ => failed_answer strategy m end).
  assert (Hans : wd_log (match r with COk _ => measure (update_success_metrics now took) (ack m w1) | CErr _ => handle_processing_error strategy m w1 end)
    = wd_log w ++ [Handed [m] ok] ++ sent ++ [ans]).
  { unfold ans. rewrite (cons_middle (Handed [m] ok)) in Hlog. destruct r; rewrite ?handle_log; cbn [measure ack emit wd_log]; rewrite Hlog; by rewrite <- !app_assoc. }
  replace (match r with COk _ => _ | CErr _ => _ end) with
    (match r with COk _ => measure (update_success_metrics now took) (ack m w1) | CErr _ => handle_processing_error strategy m w1 end) by (by destruct r).
  rewrite Hans. destruct (sent_silent _ Hs) as (S1 & S2 & S3). unfold handed. rewrite !receipts_app, !groups_app, !answered_app, !concat_app, S1, S2, S3.
  assert (Hone : receipts [ans] = [] ∧ groups [ans] = [] ∧ answered [ans] = [m] ∧ (ans = Acked m → ok = true ∨ lossy strategy = true)).
  { unfold ans, failed_answer. destruct r as [[]|e]; [|destruct (lossy strategy)]; split_and!; auto; done. }
  destruct Hone as (O1 & O2 & O3 & O4). rewrite O1, O2, O3. cbn. rewrite !app_nil_r. split_and!; [done..|].
  intros Hj. rewrite (cons_middle (Handed [m] ok)), !app_assoc. apply justified_snoc.
  - apply justified_app; [by apply justified_snoc|]. intros m' Hm. rewrite Forall_forall in Hs. by apply Hs in Hm.
  - intros m' Hm'. assert (m' = m) as ->.
    { revert Hm'. unfold ans, failed_answer. destruct r; [by intros [= ->]|]. destruct (lossy strategy); [by intros [= ->]|done]. }
    exists [m], ok. split; [apply elem_of_app; left; apply elem_of_app; right; by left|]. split; [by left|]. auto.
Qed.

Definition individual_run (us : list IndividualTurn) (s : IndividualTask * StreamWorld P S) : IndividualTask * StreamWorld P S :=
  foldl (λ s u, individual_turn config u s.1 s.2) s us.
Definition individual_ok (s : IndividualTask * StreamWorld P S) : Prop :=
  answered (wd_log s.2) = handed (wd_log s.2)
  ∧ answered (wd_log s.2) ++ iv_in_flight s.1 ++ option_list (iv_waiting s.1) ≡ₚ receipts (wd_log s.2)
  ∧ justified (sg_error_strategy config) (wd_log s.2).

Lemma individual_turn_ok u s : individual_ok s → individual_ok (individual_turn config u s.1 s.2).
Proof.
  destruct s as [t w]. intros (H1 & H2 & H3). cbn [fst snd] in *. destruct u as [running inc|i now took timed_out]; cbn.
  - destruct (iv_waiting t) as [m0|] eqn:Hw; [by unfold individual_ok; cbn; rewrite Hw|]. cbn in H2. rewrite app_nil_r in H2.
    destruct (iv_alive t); cbn [negb]; [|unfold individual_ok; cbn; rewrite Hw; cbn; by rewrite app_nil_r].
    destruct running; cbn [negb]; [|unfold individual_ok; cbn; by rewrite app_nil_r].
    destruct inc as [m| | |]; try (unfold individual_ok; cbn; rewrite ?Hw; cbn; by rewrite app_nil_r).
    assert (Hj : justified (sg_error_strategy config) (wd_log w ++ [Received m])) by (by apply justified_snoc).
    destruct (bool_decide _); unfold individual_ok; cbn [emit wd_log fst snd iv_in_flight iv_waiting option_list];
      rewrite receipts_app, answered_app, handed_app; cbn [receipts answered handed groups omap list_omap concat]; rewrite !app_nil_r;
      (split_and!; [done| |done]); rewrite ?app_assoc; by rewrite H2.
  - destruct (iv_in_flight t !! i) as [m|] eqn:Hi; [|done].
    destruct (individual_task_reads (sg_error_strategy config) now took timed_out m w) as (R1 & R2 & R3 & R4).
    unfold individual_ok. cbn. rewrite R1, R2, R3, H1. split_and!; [done| |by apply R4]. rewrite <- H2, <- app_assoc, <- H1. f_equiv.
    rewrite app_assoc. f_equiv. symmetry. by apply delete_Permutation.
Qed.

(** Message by message, nothing is answered twice.  Whatever the order in
    which the spawned blocks run, time out, fail to process or fail to send:
    the messages that were received are those that were given to the processor
    and answered, each once, and those whose blocks have not run; a message is
    acknowledged only after the processor took it, unless the strategy is to
    give failed messages up. *)
Theorem individual_answers_once (p : P) (output : option S) us :
  individual_ok (individual_run us (individual_new, mkWorld p output metrics_default [])).
Proof.
  assert (H : ∀ s, individual_ok s → individual_ok (individual_run us s)).
  { induction us as [|u us IH]; intros s Hs; [done|]. by apply IH, individual_turn_ok. }
  apply H. split_and!; [done|done|apply justified_nil].
Qed.
End individual.

(** ** Concrete streams *)

Module StreamDemo.
(** A processor that fails on an empty payload, and a producer that fails
    while its list is empty *)
Definition process_nonempty (m : Message) (p : unit) : CResult (option Message) * unit :=
  (match m_payload m with [] => CErr CeInvalidMessage | _ => COk (Some m) end, p).
#[local] Instance strict : MessageProcessor unit := {
  process := process_nonempty;
  process_batch := process_each process_nonempty;
  on_start p := (CErr CeInternal, p);
  on_stop p := (COk tt, p);
}.
#[local] Instance counted : OutputProducer nat := { send m n := match n with O => (CErr CeProducer, O) | S n => (COk tt, n) end }.
Definition message (o : Z) (payload : bytes) : Message := mkMessage "m" "orders" 0 o None payload ∅ 7 None None None 1.
Definition world (output : option nat) : StreamWorld unit nat := mkWorld tt output metrics_default [].
Definition got (o now : Z) (payload : bytes) : BatchTurn := mkBatchTurn true now now 0 (GotMessage (message o payload)).
Definition idle (running : bool) (now : Z) : BatchTurn := mkBatchTurn running now now 0 NothingYet.
Definition run (strategy : ErrorStrategy) (output : option nat) (us : list BatchTurn) : list StreamEffect :=
  wd_log (batch_run strategy 2 100 us (batch_task_new 0, world output)).2.
Definition window_got (at_time o : Z) : WindowTurn := mkWindowTurn true (at_time - 50) (at_time - 50) at_time 0 at_time (GotMessage (message o [1])).
Definition window_idle (running : bool) (now : Z) : WindowTurn := mkWindowTurn running now now now 0 now NothingYet.
Definition window_log (size interval : Z) (us : list WindowTurn) : list StreamEffect :=
  wd_log (window_run Skip size interval us (window_start 0 tt (None : option nat))).1.2.

Lemma windows_hold_their_messages_witness :
  let us := [window_idle true 1000; window_got 1100 1] in
  let '(t, w, arrivals) := window_run Skip 1200 1000 us (window_start 0 tt (None : option nat)) in
  (∀ g, g ∈ groups (wd_log w) → ∃ a, g = arrived a (a + 1200) arrivals)
  ∧ ∃ n, n ∈ wt_windows (window_turn Skip 1200 1000 (window_got 1990 2) t w).1
      ∧ wn_start_time n ≤ 1990 < wn_end_time n ∧ message 2 [1] ∈ wn_messages n.
Proof.
  intros us. pose proof (windows_hold_their_messages Skip 1200 1000 100 0 tt (None : option nat) us) as H.
  destruct (window_run Skip 1200 1000 us (window_start 0 tt (None : option nat))) as [[t w] arrivals] eqn:E.
  destruct H as [H1 H2]; [cbn; lia|]. vm_compute in E. injection E as <- <- <-. split; [exact H1|].
  apply (H2 (window_got 1990 2) (message 2 [1])); [lia|lia|cbn; lia|reflexivity|discriminate|reflexivity|reflexivity].
Defined.

(** A batch is processed, its results sent, its messages acknowledged. *)
Example a_batch :
  run Skip (Some 9%nat) [got 1 0 [1]; got 2 1 [2]; idle true 2]
  = [Received (message 1 [1]); Received (message 2 [2]); Handed [message 1 [1]; message 2 [2]] true;
     Sent (message 1 [1]) true; Sent (message 2 [2]) true; Acked (message 1 [1]); Acked (message 2 [2])].
Proof. vm_compute. reflexivity. Qed.
(** A result that could not be sent: its message is acknowledged all the same. *)
Example unsent_result_acknowledged :
  run (Retry 3 100) (Some 0%nat) [got 1 0 [1]; idle true 200]
  = [Received (message 1 [1]); Handed [message 1 [1]] true; Sent (message 1 [1]) false; Acked (message 1 [1])].
Proof. vm_compute. reflexivity. Qed.
(** The dead-letter strategy sends nothing anywhere. *)
Example dead_letter_dropped :
  run (DeadLetter "dead") (Some 9%nat) [got 1 0 []; idle true 200] = [Received (message 1 []); Handed [message 1 []] false; Acked (message 1 [])].
Proof. vm_compute. reflexivity. Qed.
(** One bad message takes the good ones of its batch with it. *)
Example batch_given_up_whole :
  run Skip (Some 9%nat) [got 1 0 [1]; got 2 1 []; idle true 2]
  = [Received (message 1 [1]); Received (message 2 []); Handed [message 1 [1]; message 2 []] false; Acked (message 1 [1]); Acked (message 2 [])].
Proof. vm_compute. reflexivity. Qed.
(** With the strategy to stop, the stream goes on. *)
Example stop_strategy_goes_on :
  run Stop (Some 9%nat) [got 1 0 []; got 2 200 [2]; idle true 400]
  = [Received (message 1 []); Handed [message 1 []] false; Nacked (message 1 []); Received (message 2 [2]);
     Handed [message 2 [2]] true; Sent (message 2 [2]) true; Acked (message 2 [2])].
Proof. vm_compute. reflexivity. Qed.
(** What fails in the last batch has no answer at all. *)
Example last_batch_unanswered :
  run Skip (Some 9%nat) [got 1 0 []; idle false 1] = [Received (message 1 []); Handed [message 1 []] false].
Proof. vm_compute. reflexivity. Qed.
(** A message before the first slide is in no window, and neither is one
    between windows that are to follow each other without a gap. *)
Example message_without_window :
  window_log 1000 1000 [window_got 100 1; window_idle true 1000; window_got 2010 2; window_idle true 5000; window_idle false 9000]
  = [Received (message 1 [1]); Received (message 2 [1])].
Proof. vm_compute. reflexivity. Qed.
(** In overlapping windows a message is processed and acknowledged for each. *)
Example overlapping_windows_answer_twice :
  answered (window_log 2000 1000 [window_idle true 1000; window_idle true 2000; window_got 2100 1; window_idle true 9000])
  = [message 1 [1]; message 1 [1]].
Proof. vm_compute. reflexivity. Qed.
(** The limit of messages in flight does not limit them. *)
Example in_flight_unbounded :
  let config := mkStreamConfig [] None "g" 1 1 false 1 Skip Individual in
  let take o := ITake true (GotMessage (message o [1])) in
  length (iv_in_flight (individual_run config [take 1; take 2; take 3] (individual_new, world None)).1) = 3%nat.
Proof. vm_compute. reflexivity. Qed.
(** A stream whose start fails counts as running and cannot be started again. *)
Example failed_start_stays_running :
  let '(r, running, p) := stream_start false tt in (r, (stream_start running p).1.1) = (CErr CeInternal, CErr CeInvalidOperation).
Proof. vm_compute. reflexivity. Qed.
(** A batch size of zero: the average of no messages is not a number. *)
Example empty_batch_average :
  f64_is_nan (sm_average_processing_time (wd_metrics (batch_run Skip 0 100 [idle true 0] (batch_task_new 0, world None)).2)) = true.
Proof. vm_compute. reflexivity. Qed.
End StreamDemo.
